(* ===== verification/_CoqProject ===== *)
-Q . S2P
Prelude.v
Double.v
Amount.v
UtilStr.v
LnIds.v
BtcCodec.v
Bech32.v
Jsmn.v
BoltzScript.v
BoltzService.v
AmountSettings.v
ChannelPlan.v
ChannelManager.v
Dijkstra.v
Stats.v
DistanceFinder.v
SwapManager.v
Reply.v
Peers.v
Earnings.v
XRebalance.v
RebalanceCurve.v
XRebalancer.v
PriceTheory.v
ChannelFees.v
Unmanaged.v
Complaints.v
OnchainFees.v
Swappers.v
Dowser.v
Investigator.v
Carpenter.v
ChannelMonitor.v
PeerStats.v
Uptime.v
TrackRecord.v
Green.v
Survey.v
JsonText.v
JsonParser.v
Rpc.v
Sendpays.v
Internet.v
Popularity.v
Plugin.v
Prober.v
