(* ===== verification/Prelude.v ===== *)
(** * CLBOSS: a verification development

    CLBOSS is a plugin of a Lightning Network node.  It decides when to open
    channels and to whom, and moves funds between the chain and the channels with
    reverse submarine swaps of the Boltz service.  Its modules (src/Boss/Mod)
    exchange typed messages over a bus, ask the node through JSON-RPC, and keep
    tables in an SQLite database.  The development models the parts that handle
    money, from the integers up.

    ** The files and the parts of the program

    - [Prelude]: machine-width integers, byte strings, the numeric input of
      [std::istream], tactics and hint databases, lemmas on lists and sums.
    - [Double]: binary64 arithmetic, for the places where the program scales
      amounts by doubles.  A finite double is its exact rational value; every
      operation is the exact one followed by rounding to nearest, ties to even.
    - [Amount] (src/Ln/Amount): saturating millisatoshi amounts.  The conversion of
      an out-of-range double is undefined behaviour in C++, and [None] here.
    - [UtilStr], [LnIds] (src/Util/Str.cpp, src/Ln): hexadecimal text; short channel
      ids, node ids and their order, feature bits.
    - [BtcCodec] (src/Bitcoin): little-endian numbers, CompactSize, transactions and
      their ids.  An output stream is the bytes written, an input stream the bytes
      left; a failed read is [None].
    - [Bech32] (src/Util/Bech32, src/Bitcoin/addr_to_scriptPubKey.cpp,
      src/DnsSeed/Detail): addresses and DNS seed records.
    - [Jsmn] (src/Jsmn): escapes and numbers of JSON, the accessors of
      [Jsmn::Object] on the token array, the framing of a stream of values.  An
      error monad carries the two exceptions; the JSON tree is the specification
      the accessors refine, and the type of replies in the other files.
    - [BoltzScript] (src/Bitcoin/sighash.cpp, src/Boltz/Detail): BIP143 signature
      hashes, the lock script of a swap, the claim transaction.
    - [BoltzService] (src/Boltz/Detail: SwapSetupHandler, ClaimTxHandler,
      ServiceImpl): the table of swaps and the handlers that work on it, as a step
      relation whose steps are the single database transactions and broadcasts, so
      that handlers of several swaps and blocks interleave freely; the server and
      the chain may answer anything.
    - [AmountSettings] (src/Boss/Mod/AmountSettingsHandler.cpp): reading, validating
      and changing the channel-size options.
    - [ChannelPlan] (src/Boss/Mod/ChannelCreator/Planner.cpp): dividing funds among
      proposed channels.  Keys are any type with the interface [KeyOrder] of a
      strict order; [NodeId] and [Z] are its instances.
    - [ChannelManager] (src/Boss/Mod/ChannelCreationDecider.cpp and
      src/Boss/Mod/ChannelCreator: RearrangerBySize, Reprioritizer, Manager): when
      channels are requested, how proposals are ordered, and the cycle that goes
      from a request to a plan, as an event-driven state machine.
    - [Dijkstra] (src/Graph): the incremental shortest-path algorithm, over any type
      of nodes, of costs with the interface [CostOrder] (saturating amounts are an
      instance), and of priority queues with the interface [PriorityQueue].
    - [Stats] (src/Stats): the reservoir sampler and the weighted median.
    - [DistanceFinder] (src/Boss/Mod/ChannelFinderByDistance.cpp): the search for
      channel candidates with the two.
    - [SwapManager] (src/Boss/Mod/SwapManager.cpp): the manager of requested swaps.
      Its green threads are tasks of a pool, each runs from one wait to the next in
      one step, in any order; messages and restarts come at any time.
    - [Reply]: how the modules read replies of the node, with the exceptions and the
      undefined conversions as values; src/Boss/Mod/ChannelBalance.cpp.
    - [Peers] (src/Boss/Mod: ListpeersAnnouncer, ListpeersAnalyzer, ChanneledPeers,
      PeerFromScidMapper, AutoDisconnector, ListfundsAnnouncer, ListfundsAnalyzer,
      ChannelFundsComputer): what is known of peers and funds.
    - [Earnings] (src/Boss/Mod: ForwardFeeMonitor, XRebalancePartMonitor,
      EarningsTracker): from notifications to the table of earnings.
    - [XRebalance], [RebalanceCurve], [XRebalancer] (src/Boss/Mod/XRebalancer.cpp,
      RebalanceModeManager.cpp, src/Boss/RebalanceMode.hpp): planning a rebalance from
      the channels and the earnings; the theory of the volume curve; the options, the
      cycles and the watch on the plugin that executes them.
    - [PriceTheory] (src/Boss/Mod/FeeModderByPriceTheory.cpp): the search for prices, as
      tables of a database and as the card game that they play.
    - [ChannelFees] (src/Boss/Mod: FeeModderByBalance, FeeModderBySize,
      ChannelFeeManager): the other multipliers, and the fees.
    - [Unmanaged] (src/Boss/Mod: UnmanagedManager, ChannelFeeSetter, RebalanceUnmanager,
      PeerComplaintsDesk/Unmanager): nodes that the operator exempts.
    - [Complaints] (src/Boss/Mod/PeerComplaintsDesk): complaints about peers, and the
      closing of their channels.
    - [OnchainFees] (src/Boss/Mod/OnchainFeeMonitor.cpp): whether onchain fees are low.
    - [Swappers] (src/Boss/ModG/Swapper.cpp, src/Boss/Mod: NodeBalanceSwapper,
      NeedsOnchainFundsSwapper, OnchainFundsIgnorer): when swaps are requested.  A module
      is an instance of the interface [SwapPolicy]; the requests go to [SwapManager].
    - [Dowser] (src/Boss/Mod: Dowser.cpp, AskreneLayer.cpp): the estimate of the capacity
      between two nodes by probes, which the planner and the investigator use.
    - [Investigator] (src/Boss/Mod/ChannelCandidateInvestigator): the table of channel
      candidates and the green threads that score, check and drop them.
    - [Carpenter] (src/Boss/Mod/ChannelCreator/Carpenter.cpp): the construction of the
      channels of a plan; [ChannelMonitor] (src/Boss/Mod/ChannelCreateDestroyMonitor.cpp):
      the announcement of created and destroyed channels.
    - [PeerStats] (src/Boss/Mod: PeerStatistician, PeerMetrician,
      ComplainerByLowConnectRate), [Uptime] (src/Boss/Mod: SelfUptimeMonitor,
      ComplainerByLowSuccessPerDay): the records of peers, the metrics, and the complaints
      that follow from them.
    - [TrackRecord] (src/Boss/Mod: FeeMonitor.cpp, PeerTrackRecord.cpp): the history of the
      fees that we set, and the judgement of a peer by what its channels earned.
    - [Green] (src/Ev: Semaphore, map, foreach, memoize): what green threads share, as steps
      that interleave in any order.
    - [Survey] (src/Boss/Mod/PeerCompetitorFeeMonitor): the survey of competitors' fees; the
      surveys of the peers run in the map of [Green], on the medians of [Stats].
    - [JsonText] (src/Jsmn/Object.cpp, src/Json/Out.hpp): the grammar of JSON texts, the
      printer and the equality of [Jsmn::Object], and the builder of texts;
      [JsonParser] (src/Jsmn/ParserExposedBuffer.cpp, src/Jsmn/Parser.hpp): the buffer in
      which a stream of values is found and tokenized.
    - [Rpc] (src/Boss/Mod/Rpc.cpp): the client of the node, on the semaphore of [Green] and
      the texts of [JsonText] and [JsonParser].
    - [Sendpays] (src/Boss/Mod/SendpayResultMonitor.cpp): the results of payments by their
      first hop, which [PeerStats] records.
    - [Internet] (src/Boss/Mod/InternetConnectionMonitor.cpp): the checks whether we are
      online, which [PeerStats] and [Uptime] go by.
    - [Popularity] (src/Boss/Mod/ChannelFinderByPopularity.cpp): channel candidates among the
      peers of popular nodes, on the sampler of [Stats].
    - [Plugin] (src/Boss/Mod: CommandReceiver, HtlcAcceptor, DemandTracker, JsonOutputter,
      src/Ln: CommandId, HtlcAccepted): requests and hooks of the node and their answers.
      Modules [Output], [Receiver] and [Htlc].
    - [Prober] (src/Boss/Mod: ActiveProber, GetroutesFirstHop, PaymentDeleter): the payments
      by which peers are probed, and the deletion of what they leave behind.  Modules
      [FirstHop], [Prober] and [Deleter].

    The parts interact as in the program: [BoltzService] uses the JSON trees, the
    scripts and the transactions; the settings of [AmountSettings] reach the decider
    and the manager of [ChannelManager], which runs the planner of [ChannelPlan].
    [Settings.planner_ready] is the promise between them.  The table of [Earnings] is an
    input of the planner of [XRebalance], and the nodes of [Unmanaged] are spared by
    [Complaints] and [FeeSetter].  [Carpenter] takes the plans of [ChannelManager], and its
    reports are events of [ChannelMonitor]; the complaints of [PeerStats] and [Uptime] are
    events of the desk of [Complaints].  [Sendpays] and [Internet] raise the messages that
    [PeerStats] and [Uptime] are driven by, the former on the payments of [Prober]; the demand that [Plugin] observes is an event of
    [XRebalancer].

    ** What the theorems show

    - Swaps: whatever the server does, a broadcast claim spends a lockup output
      that is locked to our own preimage and key, before its timeout, with the
      right witness, and conserves the amount ([boltz_claims_safe]); the table keeps
      one consistent row per swap ([boltz_table_invariant]); setting up a swap
      changes nothing or records a swap that keeps the bounds
      ([swap_setup_contract]); a confirmed lockup goes on to a claim exactly if the swap is
      not locked up, is far from its timeout and the lockup carries the agreed amount, and
      the claim is possible then ([boltz_claim_available]); quotations are bounded; the signature hash
      commits to the transaction; the claim transaction is complete, pays its fee
      and never has a dust output; lock scripts are matched exactly.
    - Requested swaps: under any order of the manager's threads and across restarts
      its table stays consistent, amounts stay in their bounds and an address is
      used for one swap at a time ([swap_table_invariant]); no assertion fails and
      no empty queue is read ([swap_moves_defined]); a success is the first response
      of its swap ([swap_success_first]).  A swapper has one swap at a time and lets
      blocks pass between swaps ([one_swap_at_a_time]), except after a response that comes
      before the first block after a start ([early_response_no_rest]); its requests keep the protocol of
      the manager ([requests_fit_manager]), and it is never stuck ([swapper_never_stuck]);
      the policies restore incoming capacity and top up onchain funds
      ([node_balance_restored], [needed_funds_swapped]).  Three races are shown by runs that end
      in them: two payments for one swap, a failure after a success, and an invoice
      loop that never runs again.
    - Channels: the planner never fails an assertion on admissible inputs and its
      plan is sound ([planner_plan_ok]); cycles run without a failed assertion and
      hand over sound plans for nodes without a channel, as long as no settings
      change during a cycle ([manager_cycles_safe]); a change can abort the process
      ([settings_change_aborts_cycle]); the decider and the reorderings of the
      proposals do what their comments say; published settings always satisfy the
      planner, and [setconfig] is exact.  What is funded in the end keeps the promises of
      the plan, and never goes to a peer that has a channel by then
      ([cycle_funds_soundly]); every node is reported ([every_node_reported]) unless the
      check fails ([failed_check_funds_nothing]) or the answer is garbled
      ([unreadable_id_loses_reports]).  The announcements of channels are exact
      ([announcements_exact], [listing_exact], [last_channel_destroys],
      [built_channels_announced]) except before the first listing
      ([early_opening_repeats]).
    - Candidates: the shortest-path algorithm ends with exactly the tree of cheapest
      paths, and the cost of its current node is final at any time
      ([dijkstra_shortest_tree], [dijkstra_current_final]); the sampler keeps the
      items of largest key, the median splits the weight in halves; the finder
      proposes different leaves of the tree, with their parents, none right below our
      node in the tree, and ends whatever the node answers ([distance_candidates]); a
      direct peer may be among them ([peer_proposed]).  A pass over popular nodes proposes the
      peers of the entries with the largest keys, among all nodes it was told of
      ([popular_proposals]).  A dowse ends after at most 8 probes
      ([dowse_always_answers]) with an estimate near the capacity ([dowse_estimate],
      [dowse_keeps_floor]); the scores of candidates are the ledger of their investigations
      ([candidates_ledger]), a drop hits the most expendable candidate
      ([victims_are_expendable]), the best come first for channels ([channeling_order]),
      and unmanaged nodes are no candidates except in a race
      ([unmanaged_are_no_candidates], [unmanaged_race]).
    - Fees: the tables of the price module play the card game of its description
      ([tables_play_the_game]), so that prices stay near their center, which follows the
      earnings ([center_follows_earnings]); bins follow the balance
      ([bins_follow_balance]); the multiplier from the size is in its bands, but is not a
      number when all competitors are our size or the download of the channel map failed
      ([multiplier_by_size], [failed_load_breaks_fees]); fees obey the setting of the
      operator and are monotone ([fees_follow_policy]).  Onchain fees are judged by the
      rank of the current rate among the samples, with a hysteresis
      ([fees_judged_by_rank]); a steady rate is judged low in the end
      ([steady_fee_settles]), but so is any rate while the node gives no estimate
      ([retry_judges_low]).  The announced fees of competitors are medians of the channels to
      the peer ([survey_medians]), independent of the interleaving ([announced_fees],
      [surveys_started_exactly]); an unreadable entry cuts the survey or loses all of them
      ([garbled_entry_cuts]), and a failing query stalls a survey of an old node
      ([old_survey_ends], [old_survey_livelock]).
    - Green threads: a semaphore lets in exactly the first arrivals ([semaphore_exact]); a
      map answers once all functions completed, with their results in order or the last
      exception ([map_answers_exactly], [map_always_answers]); memoization invokes a function
      once for calls that do not overlap ([memoized_calls_once], [memoized_result_stays],
      [overlapping_calls_repeat]).
    - Rebalancing: a cycle asks for the largest volume that pays ([matched_is_optimal]),
      its request keeps every peer in its bands ([requests_within_bands]), it excludes other
      cycles and ends ([cycles_exclude_each_other], [cycle_always_ends]); the automatic floor
      is found in a bounded number of steps ([auto_floor_always_runs]).  All but
      the second and the third are for rates between 2^-100 and 2^30 ppm, which ordinary
      earnings without grants have ([ordinary_rates]); with an infinite rate a cycle never
      ends ([infinite_ceiling_never_ends]).  Options keep the
      settings well-formed; the table of earnings is the ledger of its events
      ([earnings_ledger]).
    - Peers: the announced sets are a partition ([peers_sorted]); requests for the peer
      of a channel are answered in order ([mapper_answers_in_order]); the modules agree
      with the table of unmanaged nodes ([modules_follow_table]) unless a command comes before
      they were told, or a stored tag has no module ([undefined_removals]); no channel is closed without cause ([closes_have_cause]),
      and top earners are exempt from complaints ([earners_are_exempt]).  Statistics are
      exact sums over the records ([statistics_exact], [statistics_tables_ok]); peers are
      not blamed for our outages ([no_blame_for_own_outage], [uptime_counts_good_time]); a
      peer is complained about exactly if it was connected in less than a quarter of the
      samples ([complaints_exact]), or if we were up and at most one payment through it
      arrived ([complaint_has_grounds]), after a probe ([pending_are_probed]).  The history
      of fees is what was announced ([fee_history_faithful]); the track record of a peer
      is computed from its net earnings over the channel's life ([track_record_exact],
      [earning_more_helps], [record_options_ok]).  The results of payments are announced
      once each, with the first hop of the send ([sendpay_results_exact]).
    - Probes: a probe ends, whatever the node answers ([probe_ends]), pays at most once, over a
      usable channel, with a hash nobody can have the preimage of and a label by which the
      payment can be deleted ([probe_payment]), and pays the peer what it asks for
      ([probe_fee_covers]); payments are deleted only if they are a module's own and not
      pending ([deletions_justified]), and those of probes are, up to the first entry of the
      list that cannot be read ([probe_payments_deleted]), unless a listing failed once
      ([listpays_error_ends_deletion]).
    - The node: commands are answered once each, to their caller, under a bound on how many
      wait ([commands_answered_once], [response_to_its_caller]), and the requests are a stream
      of messages ([requests_are_messages]); requests of the node are answered at most once
      ([requests_answered_once]), HTLCs exactly once unless an exception escapes a thread
      ([htlcs_answered], [unreadable_htlc_unanswered]), in the order of the
      output ([lines_in_order]).  One check of the connection runs at a time, and it can
      always recover ([one_check_at_a_time]); every change is announced ([online_announced]),
      and offline means that no server answered ([offline_only_if_unreachable]).
    - Data: the transaction codec round-trips, in memory and in hexadecimal, and
      txids ignore witnesses; the token accessors of JSON refine the tree; the end
      of a JSON value in a stream is found exactly, however the stream is cut
      ([stream_parsed], [chunks_irrelevant]); what the builder and the printer write are texts
      of JSON ([out_writes_json], [values_are_json], [print_is_json]), except a double that is not
      finite ([nonfinite_not_json]); the equality of values is not symmetric
      ([equality_not_symmetric]); addresses are decoded without
      losing bits; identifiers round-trip and their order is strict and total;
      amounts saturate.  Some of these hold only in part, and the theorems say
      exactly where: printed amounts from 10^13 msat, overflows in short channel
      ids, non-ASCII text in JSON strings.

    ** Bounds, fuel and parameters

    Loops are structural on the list they consume, or take a fuel of at least the
    number of their iterations: [sort_groups] gets the number of proposals,
    [split_by_char] and the JSON loops the length of their input, the walks over
    graphs and trees the number of nodes; a lemma shows that the fuel is enough, or
    the theorem states that a result is returned.  Amounts that are scaled by 2 or 1/2 are assumed below [2^53] msat
    (about 90000 BTC) where the exactness of doubles is used.

    The ladder of floors takes at most 232 rounds ([ladder_fuel]), a request for a price
    two calls ([calls]), the bisection of a probe 6 refinements ([refine_fuel]), an active
    probe one round per destination ([getroute_ends]).

    The functions of libm ([exp], [log], [sqrt], [pow]) are parameters, with the few laws
    that are used as named hypotheses.  SHA-256, RIPEMD-160, libsecp256k1 (all under src/external), the jsmn tokenizer,
    the random engine, the Boltz server and the node's answers are parameters or
    arbitrary inputs.  Hypotheses on them are named where they are used, and have
    witnesses.

    ** What is not modelled

    The continuations, coroutines and event loop of src/Ev, the bus (src/S), the bindings of
    SQLite, libev, libcurl and sockets (src/Sqlite3, src/Net): they are the runtime over
    libraries that are not part of the sources, and the models name the points where their
    callbacks come.  Logging and the texts of log entries and status reports, which change
    nothing.  The modules that only pass RPC results on (the connectors, the announcers of
    onchain funds and listings, the payer of invoices, the start-up of the plugin), the
    wrapper of the swap service, and the candidate search by earned fees and by payments.
    The tokenizer and all else under src/external is third-party code, and a parameter. *)

From stdpp Require Import base list numbers strings sorting.

#[global] Open Scope Z_scope.

(** ** Machine-width unsigned integers

    A C++ unsigned integer of width [w] is a [Z] kept in [0, 2^w); every
    arithmetic expression of the source that can leave the range is wrapped
    with one of the functions below. *)

Definition u8 (z : Z) : Z := z `mod` 2 ^ 8.
Definition u16 (z : Z) : Z := z `mod` 2 ^ 16.
Definition u32 (z : Z) : Z := z `mod` 2 ^ 32.
Definition u64 (z : Z) : Z := z `mod` 2 ^ 64.

Definition UINT64_MAX : Z := 2 ^ 64 - 1.

Definition is_u8 (z : Z) : Prop := 0 <= z < 2 ^ 8.
Definition is_u16 (z : Z) : Prop := 0 <= z < 2 ^ 16.
Definition is_u32 (z : Z) : Prop := 0 <= z < 2 ^ 32.
Definition is_u64 (z : Z) : Prop := 0 <= z < 2 ^ 64.

#[global] Instance is_u8_dec z : Decision (is_u8 z).
Proof. unfold is_u8. apply _. Defined.
#[global] Instance is_u32_dec z : Decision (is_u32 z).
Proof. unfold is_u32. apply _. Defined.
#[global] Instance is_u64_dec z : Decision (is_u64 z).
Proof. unfold is_u64. apply _. Defined.

(** A value read through C++'s [char], which is signed on the platforms the
    program is built for: byte values from 128 up are negative. *)
Definition schar (b : Z) : Z := if b <? 128 then b else b - 256.

(** ** Byte strings

    [std::string] and [std::vector<std::uint8_t>] are lists of byte values;
    [lit] reads a Rocq string literal as one. *)

Abbreviation bytes := (list Z).

Definition byte_of_ascii (a : Ascii.ascii) : Z := Z.of_N (Ascii.N_of_ascii a).

Fixpoint lit (s : string) : bytes :=
  match s with
  | EmptyString => []
  | String a s' => byte_of_ascii a :: lit s'
  end.

(** A single character literal. *)
Definition chr (s : string) : Z := default 0 (head (lit s)).

(** Every element is a byte. *)
Abbreviation bytes_ok := (Forall is_u8).

(** ** Tactics and hint databases *)

Create HintDb clboss.
Create Rewrite HintDb clboss.

#[export] Hint Unfold is_u8 is_u16 is_u32 is_u64 : clboss.

(** Split a conjunction of booleans and turn integer comparisons into [Prop]. *)
Ltac to_prop :=
  repeat match goal with
  | E : andb _ _ = true |- _ => apply andb_prop in E as [? ?]
  | E : negb ?b = true |- _ => apply (proj1 (negb_true_iff b)) in E
  | E : orb _ _ = false |- _ => apply orb_false_elim in E as [? ?]
  | E : negb ?b = false |- _ => apply (proj1 (negb_false_iff b)) in E
  | H : (_ <? _) = true |- _ => apply Z.ltb_lt in H
  | H : (_ <? _) = false |- _ => apply Z.ltb_ge in H
  | H : (_ <=? _) = true |- _ => apply Z.leb_le in H
  | H : (_ <=? _) = false |- _ => apply Z.leb_gt in H
  | H : (_ =? _) = true |- _ => apply Z.eqb_eq in H
  | H : (_ =? _) = false |- _ => apply Z.eqb_neq in H
  end.

(** A boolean property of the integers below a constant, decided by evaluation. *)
Lemma seqZ_forallb (f : Z -> bool) k n :
  forallb f (seqZ 0 k) = true -> 0 <= n < k -> f n = true.
Proof.
  intros Hf Hn. rewrite forallb_forall in Hf. apply Hf.
  apply list_elem_of_In, elem_of_seqZ. lia.
Qed.

(** Two functions that agree below a constant, by evaluation. *)
Lemma seqZ_eq {A} `{EqDecision A} (f g : Z -> A) k n :
  forallb (fun n => bool_decide (f n = g n)) (seqZ 0 k) = true -> 0 <= n < k -> f n = g n.
Proof.
  intros Hf Hn. apply (seqZ_forallb (fun n => bool_decide (f n = g n)) k n) in Hf; [|done].
  by apply bool_decide_eq_true in Hf.
Qed.

(** Case on every comparison that the goal tests. *)
Ltac split_ifs :=
  repeat match goal with
  | |- context [if ?b then _ else _] =>
      lazymatch b with context [if _ then _ else _] => fail | _ => destruct b eqn:? end
  | H : context [if ?b then _ else _] |- _ =>
      lazymatch b with context [if _ then _ else _] => fail | _ => destruct b eqn:? end
  end; to_prop.

Ltac ulia := unfold is_u8, is_u16, is_u32, is_u64, UINT64_MAX in *; lia.

(** ** Lemmas on machine integers *)

Lemma u8_range z : is_u8 (u8 z).
Proof. unfold is_u8, u8. apply Z.mod_pos_bound; lia. Qed.
Lemma u16_range z : is_u16 (u16 z).
Proof. unfold is_u16, u16. apply Z.mod_pos_bound; lia. Qed.
Lemma u32_range z : is_u32 (u32 z).
Proof. unfold is_u32, u32. apply Z.mod_pos_bound; lia. Qed.
Lemma u64_range z : is_u64 (u64 z).
Proof. unfold is_u64, u64. apply Z.mod_pos_bound; lia. Qed.
Lemma u8_id z : is_u8 z -> u8 z = z.
Proof. unfold is_u8, u8. apply Z.mod_small. Qed.
Lemma u16_id z : is_u16 z -> u16 z = z.
Proof. unfold is_u16, u16. apply Z.mod_small. Qed.
Lemma u32_id z : is_u32 z -> u32 z = z.
Proof. unfold is_u32, u32. apply Z.mod_small. Qed.
Lemma u64_id z : is_u64 z -> u64 z = z.
Proof. unfold is_u64, u64. apply Z.mod_small. Qed.

#[export] Hint Resolve u8_range u16_range u32_range u64_range : clboss.
#[export] Hint Rewrite u8_id u16_id u32_id u64_id using (assumption || ulia) : clboss.

Lemma land_mask z n : 0 <= n -> Z.land z (Z.ones n) = z `mod` 2 ^ n.
Proof. apply Z.land_ones. Qed.

Lemma land_0xFF z : Z.land z 0xFF = z `mod` 256.
Proof. apply (Z.land_ones z 8). lia. Qed.

(** Disjoint bit ranges: [lor] of a low part and a shifted high part is a sum. *)
Lemma lor_shiftl_add lo hi k :
  0 <= k -> 0 <= lo < 2 ^ k -> Z.lor lo (Z.shiftl hi k) = lo + hi * 2 ^ k.
Proof.
  intros Hk Hlo.
  assert (Z.land lo (Z.shiftl hi k) = 0) as Hd.
  { apply Z.bits_inj'. intros n Hn. rewrite Z.land_spec, Z.bits_0.
    destruct (Z.ltb_spec n k).
    - rewrite Z.shiftl_spec_low by lia. apply andb_false_r.
    - destruct (Z.eq_dec lo 0) as [->|]; [now rewrite Z.bits_0|].
      rewrite (Z.bits_above_log2 lo n); [easy|lia|].
      apply Z.lt_le_trans with k; [|lia]. apply Z.log2_lt_pow2; lia. }
  pose proof (Z.add_lor_land lo (Z.shiftl hi k)) as E.
  rewrite Hd, Z.shiftl_mul_pow2 in E by lia. rewrite Z.shiftl_mul_pow2 by lia. lia.
Qed.

(** ** Lemmas on lists *)

(** [std::find]: the elements before the first match, and what follows it. *)
Fixpoint split_at_char (c : Z) (s : bytes) : option (bytes * bytes) :=
  match s with
  | [] => None
  | x :: s' =>
      if x =? c then Some ([], s')
      else match split_at_char c s' with
           | Some (a, b) => Some (x :: a, b)
           | None => None
           end
  end.

Lemma split_at_char_Some c s a b :
  split_at_char c s = Some (a, b) -> s = a ++ c :: b /\ c ∉ a.
Proof.
  revert a b; induction s as [|x s IH]; intros a b; simpl; [easy|].
  destruct (Z.eqb_spec x c) as [->|Hne].
  - intros [= <- <-]. split; [easy|]. apply not_elem_of_nil.
  - destruct (split_at_char c s) as [[a' b']|]; [|easy].
    intros [= <- <-]. destruct (IH _ _ eq_refl) as [-> Hn].
    split; [easy|]. apply not_elem_of_cons; split; congruence.
Qed.

Lemma split_at_char_app c a b :
  c ∉ a -> split_at_char c (a ++ c :: b) = Some (a, b).
Proof.
  induction a as [|x a IH]; intros Hn; simpl.
  - now rewrite Z.eqb_refl.
  - apply not_elem_of_cons in Hn as [Hx Hn]. rewrite IH by easy.
    destruct (Z.eqb_spec x c); [congruence|easy].
Qed.

Lemma split_at_char_None c s : split_at_char c s = None <-> c ∉ s.
Proof.
  induction s as [|x s IH]; simpl.
  - split; [intros _; apply not_elem_of_nil|easy].
  - rewrite not_elem_of_cons. destruct (Z.eqb_spec x c) as [->|Hne]; [naive_solver|].
    destruct (split_at_char c s) as [[? ?]|]; naive_solver.
Qed.

Lemma forallb_Forall {A} (p : A -> bool) (P : A -> Prop) l :
  (forall x, p x = true <-> P x) -> forallb p l = true <-> Forall P l.
Proof.
  intros H. induction l as [|x l IH]; simpl; [naive_solver|].
  rewrite andb_true_iff, Forall_cons, H, IH. easy.
Qed.

Lemma filter_every {A} (P : A -> Prop) `{!forall x, Decision (P x)} (l : list A) :
  Forall P l -> filter P l = l.
Proof. induction 1; [done|]. rewrite filter_cons_True by done. by f_equal. Qed.

Lemma filter_none {A} (P : A -> Prop) `{!forall x, Decision (P x)} (l : list A) :
  Forall (fun x => ~ P x) l -> filter P l = [].
Proof. induction 1; [done|]. by rewrite filter_cons_False. Qed.

Lemma filter_ext_on {A} (P Q : A -> Prop) `{!forall x, Decision (P x), !forall x, Decision (Q x)} (l : list A) :
  (forall x, x ∈ l -> P x <-> Q x) -> filter P l = filter Q l.
Proof.
  induction l as [|x l IH]; [done|]. intros Hx. rewrite !filter_cons, IH by (intros y Hy; apply Hx; by right).
  apply decide_ext, Hx. left.
Qed.

Lemma NoDup_map_inj {A B} (f : A -> B) (l : list A) x y :
  NoDup (map f l) -> x ∈ l -> y ∈ l -> f x = f y -> x = y.
Proof.
  induction l as [|z l IH]; [by intros _ ?%not_elem_of_nil|]. simpl. rewrite NoDup_cons, !elem_of_cons.
  intros [Hz Hl] [->|Hx] [->|Hy] E; [done| | |by apply IH]; exfalso; apply Hz.
  - rewrite E. by apply list_elem_of_fmap_2.
  - rewrite <- E. by apply list_elem_of_fmap_2.
Qed.

(** The sum of a list of integers. *)
Definition sumZ (l : list Z) : Z := foldr Z.add 0 l.

Lemma sumZ_app l k : sumZ (l ++ k) = sumZ l + sumZ k.
Proof. induction l; simpl; lia. Qed.

Lemma sumZ_Permutation l k : l ≡ₚ k -> sumZ l = sumZ k.
Proof. induction 1; simpl; lia. Qed.

#[global] Instance sumZ_Proper : Proper (Permutation ==> eq) sumZ.
Proof. intros l k. apply sumZ_Permutation. Qed.

Lemma sumZ_elem l x : Forall (fun z => 0 <= z) l -> x ∈ l -> x <= sumZ l.
Proof.
  induction 1 as [|y l Hy Hl IH]; [by intros ?%not_elem_of_nil|]. simpl.
  assert (0 <= sumZ l) by (clear -Hl; induction Hl; simpl; lia).
  intros [->|Hx]%elem_of_cons; [lia|]. specialize (IH Hx). lia.
Qed.

Lemma sumZ_nonneg l : Forall (fun z => 0 <= z) l -> 0 <= sumZ l.
Proof. induction 1; simpl; lia. Qed.

(** ** Decimal text, as [std::ostream] prints and [std::istream] reads it *)

Definition is_digit (c : Z) : bool := (48 <=? c) && (c <=? 57).

(** The decimal digits of [n], most significant first; the fuel is the number
    of digits that can be printed. *)
Fixpoint dec_fuel (fuel : nat) (n : Z) (acc : bytes) : bytes :=
  match fuel with
  | O => acc
  | S f =>
      let acc' := (48 + n `mod` 10) :: acc in
      if n `div` 10 =? 0 then acc' else dec_fuel f (n `div` 10) acc'
  end.

(** A natural number has at most [log2 n + 1] decimal digits. *)
Definition dec (n : Z) : bytes := dec_fuel (S (Z.to_nat (Z.log2 n))) n [].

(** The value of a string of digits. *)
Definition digits_value (s : bytes) : Z :=
  foldl (fun acc c => acc * 10 + (c - 48)) 0 s.

Lemma dec_fuel_app fuel n acc : dec_fuel fuel n acc = dec_fuel fuel n [] ++ acc.
Proof.
  revert n acc; induction fuel as [|f IH]; intros n acc; simpl; [easy|].
  destruct (_ =? 0); [easy|]. rewrite IH, (IH _ [_]), <- app_assoc. easy.
Qed.

Lemma digits_value_snoc s c : digits_value (s ++ [c]) = digits_value s * 10 + (c - 48).
Proof. unfold digits_value. now rewrite foldl_app. Qed.

Lemma dec_fuel_value fuel n :
  0 <= n -> n < 2 ^ Z.of_nat fuel -> digits_value (dec_fuel fuel n []) = n.
Proof.
  revert n; induction fuel as [|f IH]; intros n H0 Hf; simpl.
  - change (2 ^ Z.of_nat 0) with 1 in Hf. change (digits_value []) with 0. lia.
  - destruct (Z.eqb_spec (n `div` 10) 0) as [E|E].
    + unfold digits_value; simpl. pose proof (Z.div_mod n 10). lia.
    + rewrite dec_fuel_app, digits_value_snoc, IH.
      * pose proof (Z.div_mod n 10). lia.
      * apply Z.div_pos; lia.
      * rewrite Nat2Z.inj_succ, Z.pow_succ_r in Hf by lia.
        apply Z.div_lt_upper_bound; lia.
Qed.

Lemma dec_value n : 0 <= n -> digits_value (dec n) = n.
Proof.
  intros H. unfold dec. apply dec_fuel_value; [easy|].
  rewrite Nat2Z.inj_succ, Z2Nat.id by apply Z.log2_nonneg.
  destruct (Z.eq_dec n 0) as [->|]; [easy|]. apply Z.log2_spec. lia.
Qed.

Lemma dec_fuel_digits fuel n : Forall (fun c => is_digit c = true) (dec_fuel fuel n []).
Proof.
  revert n; induction fuel as [|f IH]; intros n; simpl; [constructor|].
  assert (is_digit (48 + n `mod` 10) = true).
  { unfold is_digit. pose proof (Z.mod_pos_bound n 10). lia. }
  destruct (_ =? 0); [by repeat constructor|].
  rewrite dec_fuel_app. apply Forall_app; split; [easy|by repeat constructor].
Qed.

Lemma dec_digits n : Forall (fun c => is_digit c = true) (dec n).
Proof. apply dec_fuel_digits. Qed.

Lemma dec_nonempty n : dec n <> [].
Proof.
  unfold dec; simpl. destruct (_ =? 0); [easy|].
  rewrite dec_fuel_app. by destruct (dec_fuel _ _ _).
Qed.

Lemma dec_fuel_length fuel n k :
  (0 < k)%nat -> 0 <= n < 10 ^ Z.of_nat k -> (length (dec_fuel fuel n []) <= k)%nat.
Proof.
  revert n k; induction fuel as [|f IH]; intros n k Hk Hn; simpl; [lia|].
  destruct (Z.eqb_spec (n `div` 10) 0) as [E|E]; [simpl; lia|].
  rewrite dec_fuel_app, length_app; simpl.
  destruct k as [|k]; [lia|]. rewrite Nat2Z.inj_succ, Z.pow_succ_r in Hn by lia.
  assert (0 <= n `div` 10 < 10 ^ Z.of_nat k).
  { split; [apply Z.div_pos; lia|apply Z.div_lt_upper_bound; lia]. }
  destruct k as [|k]; [change (10 ^ Z.of_nat 0) with 1 in *; lia|].
  specialize (IH (n `div` 10) (S k)). lia.
Qed.

Lemma dec_length n k :
  (0 < k)%nat -> 0 <= n < 10 ^ Z.of_nat k -> (length (dec n) <= k)%nat.
Proof. apply dec_fuel_length. Qed.

Lemma is_digit_spec c : is_digit c = true <-> 48 <= c <= 57.
Proof. unfold is_digit. rewrite andb_true_iff, !Z.leb_le. easy. Qed.

(** [std::istream >> std::uint64_t] on a text that holds only digits: the
    value, or the largest integer when it does not fit (with [failbit]). *)
Definition read_u64 (s : bytes) : Z := Z.min (digits_value s) UINT64_MAX.

Lemma digits_value_bounds s :
  Forall (fun c => is_digit c = true) s ->
  0 <= digits_value s < 10 ^ Z.of_nat (length s).
Proof.
  induction s as [|c s IH] using rev_ind; intros H.
  - change (digits_value []) with 0. change (10 ^ Z.of_nat (length (@nil Z))) with 1. lia.
  - apply Forall_app in H as [H Hc]. apply Forall_singleton, is_digit_spec in Hc.
    rewrite digits_value_snoc, length_app, Nat2Z.inj_add, Z.pow_add_r by lia.
    change (10 ^ Z.of_nat (length [c])) with 10. specialize (IH H). lia.
Qed.

(** Induction over a list two elements at a time. *)
Lemma list_pair_ind {A} (P : list A -> Prop) :
  P [] -> (forall x, P [x]) -> (forall x y l, P l -> P (x :: y :: l)) -> forall l, P l.
Proof.
  intros H0 H1 H2. fix IH 1. intros [|x [|y l]]; [exact H0|apply H1|apply H2, IH].
Qed.

(** ** Formatted input of unsigned integers

    [is >> v] for an unsigned [v] with maximum [max], in the C locale: leading
    white space is skipped, one sign is accepted, then the longest run of
    digits is consumed.  No digits: [v] is 0 and [failbit] is set.  A value
    above [max]: [v] is [max] and [failbit] is set.  A minus sign negates
    modulo [max + 1]. *)

Definition isspace_C (c : Z) : bool := (c =? 32) || ((9 <=? c) && (c <=? 13)).

Fixpoint skip_ws (s : bytes) : bytes :=
  match s with
  | c :: s' => if isspace_C c then skip_ws s' else s
  | [] => []
  end.

Fixpoint span_digits (s : bytes) : bytes * bytes :=
  match s with
  | c :: s' =>
      if is_digit c then let '(ds, r) := span_digits s' in (c :: ds, r) else ([], s)
  | [] => ([], [])
  end.

Record uint_read := { ur_value : Z; ur_fail : bool; ur_rest : bytes }.

Definition istream_uint (max : Z) (s : bytes) : uint_read :=
  let s1 := skip_ws s in
  let '(neg, s2) := match s1 with
                    | c :: r => if c =? 45 then (true, r) else if c =? 43 then (false, r) else (false, s1)
                    | [] => (false, [])
                    end in
  let '(ds, rest) := span_digits s2 in
  match ds with
  | [] => {| ur_value := 0; ur_fail := true; ur_rest := rest |}
  | _ =>
      let n := digits_value ds in
      if n >? max then {| ur_value := max; ur_fail := true; ur_rest := rest |}
      else {| ur_value := if neg then (- n) `mod` (max + 1) else n;
              ur_fail := false; ur_rest := rest |}
  end.

Lemma span_digits_app ds r :
  Forall (fun c => is_digit c = true) ds ->
  match r with c :: _ => is_digit c = false | [] => True end ->
  span_digits (ds ++ r) = (ds, r).
Proof.
  intros H Hr. induction H as [|c ds Hc _ IH]; simpl.
  - destruct r as [|c r]; [done|]. simpl. by rewrite Hr.
  - by rewrite Hc, IH.
Qed.

Lemma istream_uint_range max s : 0 <= max -> 0 <= ur_value (istream_uint max s) <= max.
Proof.
  intros Hm. unfold istream_uint.
  destruct (match skip_ws s with [] => _ | _ => _ end) as [neg s2].
  assert (0 <= digits_value (span_digits s2).1) as Hd.
  { apply digits_value_bounds. induction s2 as [|c s2 IH]; simpl; [constructor|].
    destruct (is_digit c) eqn:E; simpl; [|constructor].
    destruct (span_digits s2) as [ds r]. by constructor. }
  destruct (span_digits s2) as [ds rest]. simpl in Hd.
  destruct ds as [|d ds]; [simpl; lia|].
  destruct (digits_value (d :: ds) >? max) eqn:G; [simpl; lia|].
  rewrite Z.gtb_ltb in G. to_prop. simpl. destruct neg; [|lia].
  pose proof (Z.mod_pos_bound (- digits_value (d :: ds)) (max + 1)). lia.
Qed.

(** Decimal text that a number was printed to reads back as the number. *)
Lemma istream_uint_dec max n :
  0 <= n <= max -> istream_uint max (dec n) = {| ur_value := n; ur_fail := false; ur_rest := [] |}.
Proof.
  intros Hn. unfold istream_uint. pose proof (dec_digits n) as D. pose proof (dec_nonempty n) as N.
  destruct (dec n) as [|c ds] eqn:E; [done|].
  inversion D as [|?? Hc Hds]; subst. apply is_digit_spec in Hc as Hc'.
  assert (isspace_C c = false) as Hs.
  { unfold isspace_C. assert ((c =? 32) = false) as -> by lia.
    assert ((c <=? 13) = false) as -> by lia. by rewrite andb_false_r. }
  simpl. rewrite Hs. assert ((c =? 45) = false) as -> by lia.
  assert ((c =? 43) = false) as -> by lia.
  rewrite <- (app_nil_r (c :: ds)) at 1. rewrite span_digits_app by done.
  rewrite <- E, dec_value by lia. rewrite Z.gtb_ltb.
  assert ((max <? n) = false) as -> by lia. by destruct (dec n).
Qed.

(** A sorted list is strongly sorted where the order is transitive on its elements. *)
Lemma Sorted_strongly_on {A} (P : A -> Prop) (R : relation A) l :
  (forall a b c, P a -> P b -> P c -> R a b -> R b c -> R a c) -> Forall P l -> Sorted R l -> StronglySorted R l.
Proof.
  intros Ht Hl Hs. induction Hs as [|a l Hs IH Hhd]; [constructor|]. apply Forall_cons in Hl as [Ha Hl].
  specialize (IH Hl). constructor; [done|]. destruct Hhd as [|b l Hab]; [constructor|].
  apply Forall_cons in Hl as [Hb Hl]. apply StronglySorted_inv in IH as [_ IH]. constructor; [done|].
  rewrite Forall_forall in *. intros c Hc. apply (Ht a b c); auto.
Qed.
