(* ===== verification/Double.v ===== *)
(** * IEEE-754 binary64 arithmetic

    The program computes on [double] in many places.  A finite double is its
    exact rational value, and an operation is the exact rational operation
    followed by [RN], rounding to nearest with ties to even, as IEEE-754
    prescribes for +, -, *, / and the conversions from integers.  Infinities
    and NaN are constructors.  Negative zero is identified with zero: no
    modelled code observes its sign.

    The file proves what the components use: [RN] respects equality, is
    monotone, and is exact on [m * 2^e] for [|m| < 2^53]. *)

From stdpp Require Import base numbers.
From Stdlib Require Import QArith Qpower Qround Qabs Lqa.
From Stdlib Require Qcanon.
From S2P Require Import Prelude.

#[local] Open Scope Q_scope.

Inductive double :=
  | Fin (q : Q)
  | Inf (negative : bool)
  | NaN.

(** ** Definitions *)

(** [2^e] for an integer exponent. *)
Definition pow2 (e : Z) : Q := Qpower (2 # 1) e.

(** [floor (log2 q)] for [q > 0]. *)
Definition ilog2 (q : Q) : Z :=
  let k := (Z.log2 (Qnum q) - Z.log2 (Zpos (Qden q)))%Z in
  if Qle_bool (pow2 k) q then k else (k - 1)%Z.

(** The integer nearest to [q], the even one when two are equally near. *)
Definition rne (q : Q) : Z :=
  let f := Qfloor q in
  match Qcompare (q - inject_Z f) (1 # 2) with
  | Lt => f
  | Gt => (f + 1)%Z
  | Eq => if Z.even f then f else (f + 1)%Z
  end.

(** The exponent of the last place of the significand of [q > 0]: 53
    significant bits, or the subnormal exponent. *)
Definition cexp (q : Q) : Z := Z.max (ilog2 q - 52) (-1074).

(** Rounding of a positive rational, before the overflow check. *)
Definition rnd_pos (q : Q) : Q := inject_Z (rne (q * pow2 (- cexp q))) * pow2 (cexp q).

(** Rounding of a rational to its double. *)
Definition RN (q : Q) : double :=
  match Qcompare q 0 with
  | Eq => Fin 0
  | Gt => let r := rnd_pos q in
          if Qle_bool (pow2 1024) r then Inf false else Fin (Qred r)
  | Lt => let r := rnd_pos (- q) in
          if Qle_bool (pow2 1024) r then Inf true else Fin (Qred (- r))
  end.

(** [double(v)] for an integer [v]. *)
Definition d_of_Z (z : Z) : double := RN (inject_Z z).

Definition dneg (x : double) : double :=
  match x with Fin q => Fin (- q) | Inf s => Inf (negb s) | NaN => NaN end.

Definition Qneg_b (q : Q) : bool := negb (Qle_bool 0 q).

Definition dadd (x y : double) : double :=
  match x, y with
  | Fin a, Fin b => RN (a + b)
  | Inf s, Inf t => if eqb s t then Inf s else NaN
  | Inf s, Fin _ | Fin _, Inf s => Inf s
  | _, _ => NaN
  end.

Definition dsub (x y : double) : double := dadd x (dneg y).

Definition dmul (x y : double) : double :=
  match x, y with
  | Fin a, Fin b => RN (a * b)
  | Inf s, Inf t => Inf (xorb s t)
  | Inf s, Fin a | Fin a, Inf s =>
      if Qeq_bool a 0 then NaN else Inf (xorb s (Qneg_b a))
  | _, _ => NaN
  end.

Definition ddiv (x y : double) : double :=
  match x, y with
  | Fin a, Fin b =>
      if Qeq_bool b 0 then (if Qeq_bool a 0 then NaN else Inf (Qneg_b a))
      else RN (a / b)
  | Inf s, Fin b => Inf (xorb s (Qneg_b b))
  | Fin _, Inf _ => Fin 0
  | _, _ => NaN
  end.

(** Comparisons; every comparison with NaN is false. *)
Definition dlt (x y : double) : bool :=
  match x, y with
  | Fin a, Fin b => negb (Qle_bool b a)
  | Inf true, Inf false | Inf true, Fin _ | Fin _, Inf false => true
  | _, _ => false
  end.
Definition dle (x y : double) : bool :=
  match x, y with
  | Fin a, Fin b => Qle_bool a b
  | Inf s, Inf t => implb t s
  | Inf true, Fin _ | Fin _, Inf false => true
  | _, _ => false
  end.
Definition dgt (x y : double) : bool := dlt y x.
Definition dge (x y : double) : bool := dle y x.
Definition deq (x y : double) : bool := dle x y && dle y x.

(** Truncation of a rational toward zero. *)
Definition Qtrunc (q : Q) : Z := if Qle_bool 0 q then Qfloor q else Qceiling q.

(** Conversion of a double to [std::uint64_t]: truncation; [None] when the
    truncated value does not fit, which is undefined behaviour in C++. *)
Definition d_to_u64 (x : double) : option Z :=
  match x with
  | Fin q => let t := Qtrunc q in
             if ((0 <=? t) && (t <? 2 ^ 64))%Z then Some t else None
  | _ => None
  end.

(** Conversion of a double to [std::uint32_t]. *)
Definition d_to_u32 (x : double) : option Z :=
  match x with
  | Fin q => let t := Qtrunc q in
             if ((0 <=? t) && (t <? 2 ^ 32))%Z then Some t else None
  | _ => None
  end.

(** [std::floor], and [std::round]: half away from zero. *)
Definition dfloor (x : double) : double := match x with Fin q => Fin (inject_Z (Qfloor q)) | _ => x end.
Definition dround (x : double) : double :=
  match x with
  | Fin q => Fin (inject_Z (if Qle_bool 0 q then Qfloor (q + (1 # 2)) else - Qfloor (- q + (1 # 2))))
  | _ => x
  end.

(** ** Powers of two *)

Lemma pow2_pos e : 0 < pow2 e.
Proof. apply Qpower_0_lt. reflexivity. Qed.

Lemma pow2_add a b : pow2 (a + b) == pow2 a * pow2 b.
Proof. apply Qpower_plus. discriminate. Qed.

Lemma pow2_Z e : (0 <= e)%Z -> pow2 e == inject_Z (2 ^ e).
Proof.
  intros He. unfold pow2. change (2 # 1) with (inject_Z 2).
  rewrite <- (Z2Nat.id e He) at 1 2.
  induction (Z.to_nat e) as [|n IH]; [reflexivity|].
  rewrite Nat2Z.inj_succ, Z.pow_succ_r by lia.
  unfold Z.succ. rewrite Qpower_plus, IH, inject_Z_mult by discriminate.
  change (Qpower (inject_Z 2) 1) with (inject_Z 2). ring.
Qed.

Lemma pow2_opp e : pow2 e * pow2 (- e) == 1.
Proof. rewrite <- pow2_add. replace (e + - e)%Z with 0%Z by lia. reflexivity. Qed.

Lemma pow2_ge_1 e : (0 <= e)%Z -> 1 <= pow2 e.
Proof.
  intros He. rewrite pow2_Z by easy. change 1 with (inject_Z 1).
  rewrite <- Zle_Qle. pose proof (Z.pow_pos_nonneg 2 e). lia.
Qed.

Lemma pow2_le a b : (a <= b)%Z -> pow2 a <= pow2 b.
Proof.
  intros H. replace b with (a + (b - a))%Z by lia. rewrite pow2_add.
  pose proof (pow2_pos a). pose proof (pow2_ge_1 (b - a) ltac:(lia)). nra.
Qed.

Lemma pow2_lt_inv a b : pow2 a < pow2 b -> (a < b)%Z.
Proof.
  intros H. destruct (Z_lt_le_dec a b) as [|Hle]; [easy|].
  pose proof (pow2_le b a Hle). lra.
Qed.

(** ** [ilog2] *)

Lemma Qdiv_num_den q : q == inject_Z (Qnum q) / inject_Z (Zpos (Qden q)).
Proof. destruct q as [n d]. simpl. rewrite Qmake_Qdiv. reflexivity. Qed.

Lemma ilog2_spec q : 0 < q -> pow2 (ilog2 q) <= q < pow2 (ilog2 q + 1).
Proof.
  intros Hq.
  assert (0 < Qnum q)%Z as Hn by (unfold Qlt in Hq; simpl in Hq; lia).
  set (a := Z.log2 (Qnum q)). set (b := Z.log2 (Zpos (Qden q))).
  assert (Ha : pow2 a <= inject_Z (Qnum q) < pow2 (a + 1)).
  { pose proof (Z.log2_spec (Qnum q) Hn) as [L U].
    pose proof (Z.log2_nonneg (Qnum q)).
    rewrite !pow2_Z by (unfold a; lia). rewrite <- Zle_Qle, <- Zlt_Qlt. fold a in L, U.
    split; [easy|]. now rewrite Z.add_1_r. }
  assert (Hb : pow2 b <= inject_Z (Zpos (Qden q)) < pow2 (b + 1)).
  { pose proof (Z.log2_spec (Zpos (Qden q)) eq_refl) as [L U].
    pose proof (Z.log2_nonneg (Zpos (Qden q))).
    rewrite !pow2_Z by (unfold b; lia). rewrite <- Zle_Qle, <- Zlt_Qlt. fold b in L, U.
    split; [easy|]. now rewrite Z.add_1_r. }
  assert (Hqd : q * inject_Z (Zpos (Qden q)) == inject_Z (Qnum q)).
  { rewrite (Qdiv_num_den q) at 1. field. discriminate. }
  set (n := inject_Z (Qnum q)) in *. set (d := inject_Z (Zpos (Qden q))) in *.
  assert (E1 : pow2 (a + 1) == pow2 (a - b + 1) * pow2 b)
    by (rewrite <- pow2_add; f_equiv; lia).
  assert (E2 : pow2 a == pow2 (a - b - 1) * pow2 (b + 1))
    by (rewrite <- pow2_add; f_equiv; lia).
  pose proof (pow2_pos b). pose proof (pow2_pos (a - b - 1)).
  pose proof (pow2_pos (a - b + 1)). pose proof (pow2_pos (b + 1)).
  unfold ilog2. fold a b.
  destruct (Qle_bool (pow2 (a - b)) q) eqn:E.
  - apply Qle_bool_iff in E. split; [easy|].
    destruct (Qlt_le_dec q (pow2 (a - b + 1))); [easy|]. nra.
  - assert (q < pow2 (a - b)).
    { apply Qnot_le_lt. intros C. apply Qle_bool_iff in C. congruence. }
    replace (a - b - 1 + 1)%Z with (a - b)%Z by lia. split; [|easy].
    destruct (Qlt_le_dec q (pow2 (a - b - 1))); [|easy]. nra.
Qed.

Lemma ilog2_mono p q : 0 < p -> p <= q -> (ilog2 p <= ilog2 q)%Z.
Proof.
  intros Hp Hpq. pose proof (ilog2_spec p Hp). pose proof (ilog2_spec q ltac:(lra)).
  assert (pow2 (ilog2 p) < pow2 (ilog2 q + 1)) as L by lra.
  apply pow2_lt_inv in L. lia.
Qed.

Lemma ilog2_lt q e : 0 < q -> q < pow2 e -> (ilog2 q < e)%Z.
Proof.
  intros Hq H. pose proof (ilog2_spec q Hq).
  apply pow2_lt_inv. lra.
Qed.

(** ** Rounding to the nearest integer *)

Lemma rne_near q : (Qfloor q <= rne q <= Qfloor q + 1)%Z.
Proof. unfold rne. destruct Qcompare; [destruct Z.even|..]; lia. Qed.

#[global] Instance rne_Proper : Proper (Qeq ==> eq) rne.
Proof. intros p q H. unfold rne. rewrite (Qfloor_comp p q H), H. easy. Qed.

Lemma rne_mono p q : p <= q -> (rne p <= rne q)%Z.
Proof.
  intros H. pose proof (Qfloor_resp_le p q H) as Hf.
  pose proof (rne_near p). pose proof (rne_near q).
  destruct (Z.eq_dec (Qfloor p) (Qfloor q)) as [E|]; [|lia].
  unfold rne in *. rewrite E in *.
  destruct (Qcompare_spec (p - inject_Z (Qfloor q)) (1 # 2)),
    (Qcompare_spec (q - inject_Z (Qfloor q)) (1 # 2)); try lia; exfalso; lra.
Qed.

Lemma rne_Z n : rne (inject_Z n) = n.
Proof.
  unfold rne. rewrite Qfloor_Z.
  destruct (Qcompare_spec (inject_Z n - inject_Z n) (1 # 2)); [exfalso; lra|easy|exfalso; lra].
Qed.

(** ** Rounding of positive rationals *)

Lemma ilog2_comp p q : 0 < p -> p == q -> ilog2 p = ilog2 q.
Proof.
  intros Hp H. pose proof (ilog2_mono p q Hp ltac:(lra)).
  pose proof (ilog2_mono q p ltac:(lra) ltac:(lra)). lia.
Qed.

Lemma rnd_pos_comp p q : 0 < p -> p == q -> rnd_pos p = rnd_pos q.
Proof.
  intros Hp H. unfold rnd_pos, cexp. rewrite (ilog2_comp p q Hp H).
  set (c := Z.max _ _).
  assert (rne (p * pow2 (- c)) = rne (q * pow2 (- c))) as -> by (now rewrite H). easy.
Qed.

Lemma rnd_pos_nonneg q : 0 < q -> 0 <= rnd_pos q.
Proof.
  intros Hq. unfold rnd_pos. pose proof (pow2_pos (cexp q)). pose proof (pow2_pos (- cexp q)).
  assert (0 <= rne (q * pow2 (- cexp q)))%Z as H1.
  { rewrite <- (rne_Z 0). apply rne_mono. change (inject_Z 0) with 0. nra. }
  rewrite Zle_Qle in H1. change (inject_Z 0) with 0 in H1. nra.
Qed.

(** A rational below [2^k] in the range of one exponent rounds to at most
    [2^k], and one from [2^k] on rounds to at least [2^k]. *)
Lemma rnd_pos_le_pow2 q k : 0 < q -> q <= pow2 k -> (cexp q <= k)%Z -> rnd_pos q <= pow2 k.
Proof.
  intros Hq Hk Hc. unfold rnd_pos. set (c := cexp q) in *.
  assert (rne (q * pow2 (- c)) <= rne (inject_Z (2 ^ (k - c))))%Z as H.
  { apply rne_mono. rewrite <- pow2_Z by lia. unfold Z.sub. rewrite pow2_add.
    pose proof (pow2_pos (- c)). nra. }
  rewrite rne_Z, Zle_Qle, <- pow2_Z in H by lia.
  assert (pow2 k == pow2 (k - c) * pow2 c) as -> by (rewrite <- pow2_add; f_equiv; lia).
  pose proof (pow2_pos c). nra.
Qed.

Lemma rnd_pos_ge_pow2 q k : 0 < q -> pow2 k <= q -> (cexp q <= k)%Z -> pow2 k <= rnd_pos q.
Proof.
  intros Hq Hk Hc. unfold rnd_pos. set (c := cexp q) in *.
  assert (rne (inject_Z (2 ^ (k - c))) <= rne (q * pow2 (- c)))%Z as H.
  { apply rne_mono. rewrite <- pow2_Z by lia. unfold Z.sub. rewrite pow2_add.
    pose proof (pow2_pos (- c)). nra. }
  rewrite rne_Z, Zle_Qle, <- pow2_Z in H by lia.
  assert (pow2 k == pow2 (k - c) * pow2 c) as -> by (rewrite <- pow2_add; f_equiv; lia).
  pose proof (pow2_pos c). nra.
Qed.

Lemma rnd_pos_mono p q : 0 < p -> p <= q -> rnd_pos p <= rnd_pos q.
Proof.
  intros Hp Hpq. pose proof (ilog2_mono p q Hp Hpq).
  destruct (Z.eq_dec (cexp p) (cexp q)) as [E|E].
  - unfold rnd_pos. rewrite E. pose proof (pow2_pos (cexp q)) as H1.
    pose proof (pow2_pos (- cexp q)) as H2.
    assert (rne (p * pow2 (- cexp q)) <= rne (q * pow2 (- cexp q)))%Z as H3
      by (apply rne_mono; nra).
    rewrite Zle_Qle in H3. nra.
  - (* the exponents differ: a power of two separates the two values *)
    assert (cexp p < cexp q)%Z by (unfold cexp in *; lia).
    assert (cexp q = ilog2 q - 52)%Z by (unfold cexp in *; lia).
    pose proof (ilog2_spec p Hp). pose proof (ilog2_spec q ltac:(lra)).
    apply Qle_trans with (pow2 (ilog2 q)).
    + apply rnd_pos_le_pow2; [easy| |lia].
      apply Qle_trans with (pow2 (ilog2 p + 1)); [lra|]. apply pow2_le. unfold cexp in *; lia.
    + apply rnd_pos_ge_pow2; [lra..|lia].
Qed.

(** Exactness on [m * 2^e] with a significand below 53 bits. *)
Lemma rnd_pos_exact m e :
  (0 < m < 2 ^ 53)%Z -> (-1074 <= e)%Z ->
  rnd_pos (inject_Z m * pow2 e) == inject_Z m * pow2 e.
Proof.
  intros Hm He. set (q := inject_Z m * pow2 e).
  pose proof (pow2_pos e) as Pe.
  assert (0 < inject_Z m) as Pm by (change 0 with (inject_Z 0); rewrite <- Zlt_Qlt; lia).
  assert (0 < q) as Hq by (unfold q; nra).
  assert (q < pow2 (53 + e)) as Hlt.
  { unfold q. rewrite pow2_add. rewrite (pow2_Z 53) by lia.
    assert (inject_Z m < inject_Z (2 ^ 53)) by (rewrite <- Zlt_Qlt; lia). nra. }
  apply ilog2_lt in Hlt; [|easy].
  assert (cexp q <= e)%Z as Hc by (unfold cexp; lia).
  unfold rnd_pos. set (c := cexp q) in *.
  assert (q * pow2 (- c) == inject_Z (m * 2 ^ (e - c))) as ->.
  { rewrite inject_Z_mult, <- pow2_Z by lia. unfold q, Z.sub. rewrite pow2_add. ring. }
  rewrite rne_Z, inject_Z_mult, <- pow2_Z by lia. unfold q.
  assert (pow2 e == pow2 (e - c) * pow2 c) as -> by (rewrite <- pow2_add; f_equiv; lia).
  ring.
Qed.

(** ** [RN] *)

#[global] Instance RN_Proper : Proper (Qeq ==> eq) RN.
Proof.
  intros p q H. unfold RN. rewrite <- H at 1.
  destruct (Qcompare_spec p 0) as [E|E|E]; [easy|..].
  - now rewrite (rnd_pos_comp (- p) (- q)) by lra.
  - now rewrite (rnd_pos_comp p q) by lra.
Qed.

Lemma RN_0 : RN 0 = Fin 0.
Proof. reflexivity. Qed.

Lemma RN_pos q : 0 < q ->
  RN q = if Qle_bool (pow2 1024) (rnd_pos q) then Inf false else Fin (Qred (rnd_pos q)).
Proof. intros H. unfold RN. destruct (Qcompare_spec q 0); [exfalso; lra..|easy]. Qed.

(** Integers below [2^53] scaled by a power of two are doubles. *)
Lemma RN_exact m e :
  (0 <= m < 2 ^ 53)%Z -> (-1074 <= e <= 900)%Z ->
  RN (inject_Z m * pow2 e) = Fin (Qred (inject_Z m * pow2 e)).
Proof.
  intros Hm He. destruct (Z.eq_dec m 0) as [->|].
  { rewrite (Qred_complete _ 0) by (change (inject_Z 0) with 0; ring).
    change (Fin (Qred 0)) with (RN 0). apply RN_Proper. change (inject_Z 0) with 0. ring. }
  pose proof (pow2_pos e) as Pe.
  assert (0 < inject_Z m) as Pm by (change 0 with (inject_Z 0); rewrite <- Zlt_Qlt; lia).
  rewrite RN_pos by nra. pose proof (rnd_pos_exact m e ltac:(lia) ltac:(lia)) as E.
  destruct (Qle_bool (pow2 1024) _) eqn:C.
  - exfalso. apply Qle_bool_iff in C. rewrite E in C.
    assert (inject_Z m < inject_Z (2 ^ 53)) by (rewrite <- Zlt_Qlt; lia).
    rewrite <- pow2_Z in H by lia.
    pose proof (pow2_le (53 + e) 1024 ltac:(lia)) as L. rewrite pow2_add in L. nra.
  - f_equal. apply Qred_complete, E.
Qed.

Lemma Qred_Z n : Qred (inject_Z n) = inject_Z n.
Proof. apply Qcanon.Qred_identity. simpl. apply Z.gcd_1_r. Qed.

Lemma d_of_Z_exact n : (0 <= n < 2 ^ 53)%Z -> d_of_Z n = Fin (inject_Z n).
Proof.
  intros H. unfold d_of_Z. rewrite <- (Qred_Z n) at 2.
  rewrite <- (Qred_complete (inject_Z n * pow2 0) (inject_Z n)) by (unfold pow2; simpl; ring).
  rewrite <- RN_exact by lia. apply RN_Proper. unfold pow2; simpl; ring.
Qed.

(** The order on doubles that the source's comparisons decide. *)
Definition dle_P (x y : double) : Prop := dle x y = true.

Lemma dle_Fin a b : dle (Fin a) (Fin b) = true <-> a <= b.
Proof. apply Qle_bool_iff. Qed.

Lemma dlt_Fin a b : dlt (Fin a) (Fin b) = true <-> a < b.
Proof.
  simpl. rewrite negb_true_iff. split.
  - intros H. apply Qnot_le_lt. intros C. apply Qle_bool_iff in C. congruence.
  - intros H. destruct (Qle_bool b a) eqn:E; [|easy]. apply Qle_bool_iff in E. lra.
Qed.

(** Rounding preserves the order of non-negative rationals. *)
Lemma RN_mono p q : 0 <= p -> p <= q -> dle (RN p) (RN q) = true.
Proof.
  intros Hp Hpq. destruct (Qeq_dec p 0) as [E|].
  - rewrite (RN_Proper p 0 E), RN_0. destruct (Qeq_dec q 0) as [E'|].
    + now rewrite (RN_Proper q 0 E'), RN_0.
    + rewrite RN_pos by lra. destruct Qle_bool; [easy|]. apply dle_Fin.
      rewrite Qred_correct. apply rnd_pos_nonneg. lra.
  - pose proof (rnd_pos_mono p q ltac:(lra) Hpq) as M. rewrite !RN_pos by lra.
    destruct (Qle_bool (pow2 1024) (rnd_pos p)) eqn:E1,
      (Qle_bool (pow2 1024) (rnd_pos q)) eqn:E2; try easy.
    + apply Qle_bool_iff in E1. assert (pow2 1024 <= rnd_pos q) as C by lra.
      apply Qle_bool_iff in C. congruence.
    + apply dle_Fin. rewrite !Qred_correct. easy.
Qed.

(** Integers are compared as the source compares them, when they are exact. *)
Lemma dlt_Z a b : dlt (Fin (inject_Z a)) (Fin (inject_Z b)) = (a <? b)%Z.
Proof.
  apply eq_true_iff_eq. rewrite dlt_Fin, Z.ltb_lt, <- Zlt_Qlt. easy.
Qed.
Lemma dle_Z a b : dle (Fin (inject_Z a)) (Fin (inject_Z b)) = (a <=? b)%Z.
Proof.
  apply eq_true_iff_eq. rewrite dle_Fin, Z.leb_le, <- Zle_Qle. easy.
Qed.

Lemma d_to_u64_Z n : is_u64 n -> d_to_u64 (Fin (inject_Z n)) = Some n.
Proof.
  intros H. unfold d_to_u64, Qtrunc.
  assert (Qle_bool 0 (inject_Z n) = true) as ->.
  { apply Qle_bool_iff. change 0 with (inject_Z 0). rewrite <- Zle_Qle. ulia. }
  rewrite Qfloor_Z. assert ((0 <=? n)%Z && (n <? 2 ^ 64)%Z = true) as -> by ulia. easy.
Qed.

(** Truncation of the exact value [n / 2^k]. *)
Lemma d_to_u64_floor q n :
  0 <= q -> Qfloor q = n -> (n < 2 ^ 64)%Z -> d_to_u64 (Fin q) = Some n.
Proof.
  intros H0 <- H. unfold d_to_u64, Qtrunc.
  assert (Qle_bool 0 q = true) as -> by now apply Qle_bool_iff.
  assert (0 <= Qfloor q)%Z by (rewrite <- (Qfloor_Z 0); now apply Qfloor_resp_le).
  assert ((0 <=? Qfloor q)%Z && (Qfloor q <? 2 ^ 64)%Z = true) as -> by ulia. easy.
Qed.

#[global] Instance d_to_u64_red_Proper : Proper (Qeq ==> eq) (fun q => d_to_u64 (Fin q)).
Proof.
  intros p q H. unfold d_to_u64, Qtrunc. rewrite (Qfloor_comp p q H), (Qceiling_comp p q H).
  destruct (Qle_bool 0 p) eqn:E1, (Qle_bool 0 q) eqn:E2; try easy; exfalso.
  - apply Qle_bool_iff in E1. rewrite H in E1. apply Qle_bool_iff in E1. congruence.
  - apply Qle_bool_iff in E2. rewrite <- H in E2. apply Qle_bool_iff in E2. congruence.
Qed.

Lemma RN_not_NaN q : RN q <> NaN.
Proof. unfold RN. destruct Qcompare; [easy|..]; destruct Qle_bool; easy. Qed.

(** ** Error of rounding *)

Lemma rne_error q : inject_Z (rne q) - (1 # 2) <= q <= inject_Z (rne q) + (1 # 2).
Proof.
  unfold rne. pose proof (Qfloor_le q) as L. pose proof (Qlt_floor q) as U.
  rewrite inject_Z_plus in U. change (inject_Z 1) with 1 in U.
  destruct (Qcompare_spec (q - inject_Z (Qfloor q)) (1 # 2)) as [E|E|E].
  - destruct Z.even; rewrite ?inject_Z_plus; change (inject_Z 1) with 1; lra.
  - lra.
  - rewrite inject_Z_plus; change (inject_Z 1) with 1; lra.
Qed.

(** The relative error of a rounding above the subnormal range is at most [2^-53]. *)
Lemma rnd_pos_error q :
  pow2 (-1022) <= q -> q * (1 - pow2 (-53)) <= rnd_pos q <= q * (1 + pow2 (-53)).
Proof.
  intros Hq. pose proof (pow2_pos (-1022)). pose proof (ilog2_spec q ltac:(lra)) as [L U].
  assert (pow2 (-1022) < pow2 (ilog2 q + 1)) as Hi%pow2_lt_inv by lra.
  assert (cexp q = ilog2 q - 52)%Z as Ec by (unfold cexp; lia).
  unfold rnd_pos. rewrite Ec. set (c := (ilog2 q - 52)%Z).
  pose proof (rne_error (q * pow2 (- c))) as [E1 E2].
  pose proof (pow2_opp c) as Hc. pose proof (pow2_pos c). pose proof (pow2_pos (- c)).
  assert (pow2 c * (1 # 2) == pow2 (ilog2 q) * pow2 (-53)) as Eh.
  { change (1 # 2) with (pow2 (-1)). rewrite <- !pow2_add. f_equiv. unfold c. lia. }
  assert (q * pow2 (- c) * pow2 c == q) as Eq by (rewrite <- Qmult_assoc, (Qmult_comm (pow2 (- c))), Hc; ring).
  pose proof (pow2_pos (-53)). set (r := inject_Z (rne (q * pow2 (- c)))) in *.
  assert (pow2 (ilog2 q) * pow2 (-53) <= q * pow2 (-53)) by nra.
  split; nra.
Qed.

Lemma RN_Fin_error q r :
  RN q = Fin r -> pow2 (-1022) <= q -> q * (1 - pow2 (-53)) <= r <= q * (1 + pow2 (-53)).
Proof.
  intros E Hq. pose proof (pow2_pos (-1022)). rewrite RN_pos in E by lra.
  destruct Qle_bool; [discriminate|]. injection E as <-. rewrite !Qred_correct. by apply rnd_pos_error.
Qed.

(** Rationals below [2^1023] round to a finite double. *)
Lemma RN_finite q : 0 <= q -> q <= pow2 1023 -> exists r, RN q = Fin r /\ 0 <= r <= pow2 1023.
Proof.
  intros H0 Hq. destruct (Qeq_dec q 0) as [E|N].
  { exists 0. rewrite (RN_Proper q 0 E), RN_0. split; [easy|]. split; [lra|apply Qlt_le_weak, pow2_pos]. }
  rewrite RN_pos by lra.
  assert (rnd_pos q <= pow2 1023) as Hr.
  { apply rnd_pos_le_pow2; [lra|easy|]. pose proof (ilog2_spec q ltac:(lra)).
    assert (pow2 (ilog2 q) < pow2 1024) as Hi%pow2_lt_inv; [|unfold cexp; lia].
    change 1024%Z with (1023 + 1)%Z. rewrite pow2_add. pose proof (pow2_pos 1023).
    change (pow2 1) with (inject_Z 2). change (inject_Z 2) with 2. lra. }
  destruct (Qle_bool (pow2 1024) (rnd_pos q)) eqn:C.
  - exfalso. apply Qle_bool_iff in C. change 1024%Z with (1023 + 1)%Z in C. rewrite pow2_add in C.
    pose proof (pow2_pos 1023). change (pow2 1) with 2 in C. lra.
  - eexists. split; [reflexivity|]. rewrite Qred_correct. split; [apply rnd_pos_nonneg; lra|easy].
Qed.

(** Two roundings, of a product and of a quotient, of numbers that are not tiny. *)
Definition twice_rounded : Q := (1 + pow2 (-53)) * (1 + pow2 (-53)).

Lemma muldiv_error a b c :
  0 <= a <= pow2 200 -> 0 <= b <= pow2 200 -> 1 <= c <= pow2 200 -> (a * b == 0 \/ 1 <= a * b) ->
  exists r, ddiv (dmul (Fin a) (Fin b)) (Fin c) = Fin r /\ 0 <= r <= a * b / c * twice_rounded.
Proof.
  intros Ha Hb Hc Hab. simpl. pose proof (pow2_pos 200) as P200.
  assert (pow2 400 == pow2 200 * pow2 200) as E400 by (rewrite <- pow2_add; reflexivity).
  pose proof (pow2_le 400 1000 ltac:(lia)) as L1. pose proof (pow2_le 1000 1023 ltac:(lia)) as L2.
  assert (0 <= a * b <= pow2 400) as Hp by (rewrite E400; nra).
  destruct (RN_finite (a * b)) as (r1 & E1 & Hr1); [lra..|]. rewrite E1. simpl.
  assert (Qeq_bool c 0 = false) as ->.
  { destruct (Qeq_bool c 0) eqn:E; [|easy]. apply Qeq_bool_eq in E. lra. }
  destruct Hab as [H0|H1].
  { rewrite (RN_Proper (a * b) 0 H0), RN_0 in E1. injection E1 as <-. exists 0.
    assert (0 / c == 0) as E0 by (field; lra). rewrite (RN_Proper _ 0 E0), RN_0. split; [easy|].
    assert (a * b / c * twice_rounded == 0) as ->; [rewrite H0; field; lra|lra]. }
  pose proof (pow2_le (-1022) 0 ltac:(lia)) as L0. change (pow2 0) with 1 in L0.
  destruct (RN_Fin_error _ _ E1) as [Lo Hi]; [lra|].
  assert (pow2 (-53) <= 1 # 2) as L53 by (vm_compute; discriminate).
  pose proof (pow2_pos (-53)).
  assert (/ c * c == 1) as Ic by (rewrite Qmult_comm; apply Qmult_inv_r; lra).
  assert (0 < / c) as Pc by (apply Qinv_lt_0_compat; lra).
  assert (/ c <= 1) as Uc by nra.
  assert (r1 / c <= pow2 1023) as Hd by (unfold Qdiv; nra).
  assert (pow2 (-1022) <= r1 / c) as Hl.
  { assert (pow2 (-1022) * c <= r1); [|unfold Qdiv; nra].
    assert (pow2 (-1022) * pow2 200 == pow2 (-822)) as E822 by (rewrite <- pow2_add; reflexivity).
    pose proof (pow2_le (-822) (-1) ltac:(lia)) as L822. change (pow2 (-1)) with (1 # 2) in L822.
    pose proof (pow2_pos (-1022)). nra. }
  pose proof (pow2_pos (-1022)).
  destruct (RN_finite (r1 / c)) as (r2 & E2 & Hr2); [lra..|]. exists r2. split; [easy|].
  destruct (RN_Fin_error _ _ E2 Hl) as [_ Hi2]. split; [lra|]. unfold twice_rounded.
  assert (r1 / c <= a * b / c * (1 + pow2 (-53))) by (unfold Qdiv in *; nra). nra.
Qed.

Lemma Qtrunc_floor q : 0 <= q -> Qtrunc q = Qfloor q.
Proof. intros H. unfold Qtrunc. apply Qle_bool_iff in H. by rewrite H. Qed.

(** Non-negative doubles, the infinite one included. *)
Definition dnonneg (x : double) : Prop := dle (Fin 0) x = true.

Lemma dadd_mono x x' y y' :
  dnonneg x -> dnonneg y -> dle x x' = true -> dle y y' = true -> dle (dadd x y) (dadd x' y') = true.
Proof.
  unfold dnonneg. destruct x as [p|[]|], x' as [p'|[]|], y as [q|[]|], y' as [q'|[]|]; simpl; try easy;
    rewrite ?Qle_bool_iff; intros; try (by destruct (RN _) as [r|[]|] eqn:E; [..|by apply RN_not_NaN in E]).
  apply RN_mono; lra.
Qed.

Lemma dle_trans x y z : dle x y = true -> dle y z = true -> dle x z = true.
Proof.
  destruct x as [a|[]|], y as [b|[]|], z as [c|[]|]; simpl; try easy. rewrite !Qle_bool_iff. lra.
Qed.

(** Numbers that compare with zero are not NaN, and compare with each other. *)
Lemma dle_total x y : dlt (Fin 0) x = true -> dlt (Fin 0) y = true -> dle x y = false -> dle y x = true.
Proof.
  destruct x as [a|[]|], y as [b|[]|]; simpl; try easy. intros _ _ H. apply Qle_bool_iff.
  destruct (Qlt_le_dec b a) as [|L]; [lra|]. apply Qle_bool_iff in L. congruence.
Qed.

Lemma dle_refl x : x <> NaN -> dle x x = true.
Proof. destruct x as [a|[]|]; try easy. intros _. apply dle_Fin. lra. Qed.

Lemma dlt_nonneg x : dlt (Fin 0) x = true -> dnonneg x.
Proof. unfold dnonneg. destruct x as [a|[]|]; try easy. rewrite dlt_Fin, dle_Fin. lra. Qed.

(** ** Both signs, and absolute errors *)

Lemma RN_opp q : RN (- q) = match RN q with Fin r => Fin (Qred (- r)) | Inf b => Inf (negb b) | NaN => NaN end.
Proof.
  unfold RN. destruct (Qcompare_spec q 0) as [E|E|E].
  - assert (- q == 0) as -> by lra. reflexivity.
  - destruct (Qcompare_spec (- q) 0); [lra..|]. destruct Qle_bool; [easy|]. f_equal. apply Qred_complete.
    rewrite Qred_correct. lra.
  - destruct (Qcompare_spec (- q) 0) as [| |]; [lra| |lra]. rewrite (rnd_pos_comp (- - q) q) by lra.
    destruct Qle_bool; [easy|]. f_equal. apply Qred_complete. rewrite Qred_correct. lra.
Qed.

Lemma dle_opp x y : dle (dneg x) (dneg y) = dle y x.
Proof.
  destruct x as [a|[]|], y as [b|[]|]; try easy. simpl. apply eq_true_iff_eq. rewrite !Qle_bool_iff. lra.
Qed.

Lemma RN_sign q : if Qle_bool 0 q then dle (Fin 0) (RN q) = true else dle (RN q) (Fin 0) = true.
Proof.
  destruct (Qle_bool 0 q) eqn:E.
  - apply Qle_bool_iff in E. rewrite <- RN_0. apply RN_mono; lra.
  - assert (q < 0) as Hq. { apply Qnot_le_lt. intros C%Qle_bool_iff. congruence. }
    assert (dle (RN 0) (RN (- q)) = true) as H by (apply RN_mono; lra). rewrite RN_opp, RN_0 in H.
    destruct (RN q) as [r|[]|]; try easy. apply dle_Fin in H. apply dle_Fin. rewrite Qred_correct in H. lra.
Qed.

(** Rounding preserves the order of all rationals. *)
Lemma RN_le p q : p <= q -> dle (RN p) (RN q) = true.
Proof.
  intros H. destruct (Qlt_le_dec p 0) as [Hp|Hp]; [|by apply RN_mono].
  destruct (Qlt_le_dec q 0) as [Hq|Hq].
  - assert (dle (RN (- q)) (RN (- p)) = true) as M by (apply RN_mono; lra). rewrite !RN_opp in M.
    destruct (RN p) as [a|[]|], (RN q) as [b|[]|]; try easy. apply dle_Fin in M. apply dle_Fin.
    rewrite !Qred_correct in M. lra.
  - apply (dle_trans _ (Fin 0)).
    + pose proof (RN_sign p) as S. destruct (Qle_bool 0 p) eqn:E; [apply Qle_bool_iff in E; lra|easy].
    + pose proof (RN_sign q) as S. apply Qle_bool_iff in Hq. by rewrite Hq in S.
Qed.

Lemma rnd_pos_abs_error q k :
  0 < q -> q <= pow2 k -> (-1022 <= k)%Z -> q - pow2 (k - 52) <= rnd_pos q <= q + pow2 (k - 52).
Proof.
  intros H0 Hq Hk. pose proof (ilog2_spec q H0) as [L U].
  assert (pow2 (ilog2 q) < pow2 (k + 1)) as Hi%pow2_lt_inv.
  { rewrite pow2_add. pose proof (pow2_pos k). change (pow2 1) with 2. lra. }
  assert (pow2 (cexp q) <= pow2 (k - 52)) as Hc by (apply pow2_le; unfold cexp; lia).
  unfold rnd_pos. set (c := cexp q) in *. pose proof (rne_error (q * pow2 (- c))) as [E1 E2].
  pose proof (pow2_opp c) as Ho. pose proof (pow2_pos c). pose proof (pow2_pos (- c)).
  assert (q * pow2 (- c) * pow2 c == q) as Eq by (rewrite <- Qmult_assoc, (Qmult_comm (pow2 (- c))), Ho; ring).
  set (r := inject_Z (rne (q * pow2 (- c)))) in *. split; nra.
Qed.

(** A rounded value of size at most [2^k] is off by at most [2^(k-52)]. *)
Lemma RN_near q k :
  0 <= q -> q <= pow2 k -> (-1022 <= k <= 1023)%Z ->
  exists r, RN q = Fin r /\ 0 <= r /\ q - pow2 (k - 52) <= r <= q + pow2 (k - 52).
Proof.
  intros H0 Hq Hk. destruct (RN_finite q) as (r & E & Hr & _); [easy| |].
  { pose proof (pow2_le k 1023 ltac:(lia)). lra. }
  exists r. split; [easy|]. split; [easy|]. pose proof (pow2_pos (k - 52)).
  destruct (Qeq_dec q 0) as [Z|N].
  - rewrite (RN_Proper q 0 Z), RN_0 in E. injection E as <-. lra.
  - rewrite RN_pos in E by lra. destruct Qle_bool; [easy|]. injection E as <-. rewrite !Qred_correct.
    apply rnd_pos_abs_error; [lra|easy|lia].
Qed.

Lemma RN_close q k :
  - pow2 k <= q <= pow2 k -> (-1022 <= k <= 1023)%Z ->
  exists r, RN q = Fin r /\ q - pow2 (k - 52) <= r <= q + pow2 (k - 52).
Proof.
  intros Hq Hk. destruct (Qlt_le_dec q 0) as [Hn|Hp].
  - destruct (RN_near (- q) k) as (r & E & _ & Hr); [lra|lra|easy|]. exists (Qred (- r)).
    assert (RN q = RN (- - q)) as -> by (apply RN_Proper; lra). rewrite RN_opp, E. split; [easy|]. rewrite Qred_correct. lra.
  - destruct (RN_near q k) as (r & E & _ & Hr); [lra|lra|easy|]. by exists r.
Qed.

(** ** Sample values *)

Example RN_tenth : RN (1 # 10) = Fin (3602879701896397 # 36028797018963968).
Proof. vm_compute. reflexivity. Qed.

Example RN_tie_even : d_of_Z (2 ^ 53 + 1) = Fin (inject_Z (2 ^ 53)).
Proof. vm_compute. reflexivity. Qed.

Example RN_UINT64_MAX : d_of_Z UINT64_MAX = Fin (inject_Z (2 ^ 64)).
Proof. vm_compute. reflexivity. Qed.

Example RN_overflow : dmul (d_of_Z (2 ^ 1000)) (d_of_Z (2 ^ 24)) = Inf false.
Proof. vm_compute. reflexivity. Qed.

Example sum_inexact : deq (dadd (RN (1 # 10)) (RN (2 # 10))) (RN (3 # 10)) = false.
Proof. vm_compute. reflexivity. Qed.
