(* ===== verification/Amount.v ===== *)
(** * Ln::Amount (src/Ln/Amount.hpp, src/Ln/Amount.cpp)

    An amount is a [std::uint64_t] number of millisatoshis.  Additions
    saturate at both ends; scaling goes through [double].  The scaling
    operators return an option: [None] is the undefined conversion of an
    out-of-range [double] to [std::uint64_t]. *)

From stdpp Require Import base list numbers strings.
From Stdlib Require Import QArith Qround Lqa.
From S2P Require Import Prelude Double.

#[local] Open Scope Z_scope.

Abbreviation Amount := Z.

Module Amount.

(** ** Units *)

Definition sat (v : Z) : Amount := u64 (v * 1000).
Definition to_sat (a : Amount) : Z := u64 (a + 999) / 1000.
Definition msat (v : Z) : Amount := v.
Definition to_msat (a : Amount) : Z := a.

Definition msat_per_btc : double := dmul (d_of_Z 100000000) (d_of_Z 1000).
Definition btc (v : double) : option Amount := d_to_u64 (dmul v msat_per_btc).
Definition to_btc (a : Amount) : double := ddiv (d_of_Z a) msat_per_btc.

(** ** Arithmetic *)

Definition add (a i : Amount) : Amount :=
  let v := u64 (a + i) in if v <? i then UINT64_MAX else v.
Definition sub (a i : Amount) : Amount := if i >? a then 0 else a - i.

Definition clamp (dv : double) : option Amount :=
  if dlt dv (Fin 0) then Some 0
  else if dgt dv (d_of_Z UINT64_MAX) then Some UINT64_MAX
  else d_to_u64 dv.
Definition mul (a : Amount) (i : double) : option Amount := clamp (dmul (d_of_Z a) i).
Definition div (a : Amount) (i : double) : option Amount := clamp (ddiv (d_of_Z a) i).
Definition ratio (a i : Amount) : double := ddiv (d_of_Z a) (d_of_Z i).

(** ** Comparisons *)

Definition lt (a o : Amount) : bool := a <? o.
Definition gt (a o : Amount) : bool := lt o a.
Definition le (a o : Amount) : bool := negb (gt a o).
Definition ge (a o : Amount) : bool := le o a.
Definition eq (a o : Amount) : bool := a =? o.

(** ** Text *)

Definition valid_string (s : bytes) : bool :=
  if (length s <? 5)%nat then false
  else if negb (bool_decide (drop (length s - 4) s = lit "msat")) then false
  else if negb (forallb is_digit (take (length s - 4) s)) then false
  else if (13 + 4 <? length s)%nat then false
  else true.

(** The constructor from a string; [None] is the exception. *)
Definition of_string (s : bytes) : option Amount :=
  if negb (valid_string s) then None
  else Some (read_u64 (take (length s - 4) s)).

Definition to_string (a : Amount) : bytes := dec a ++ lit "msat".

(** What [Amount::object] can tell of a JSON value. *)
Inductive json_view :=
  | JNumber (d : double)
  | JString (s : bytes)
  | JOther.

Definition valid_object (o : json_view) : bool :=
  match o with
  | JNumber _ => true
  | JString s => valid_string s
  | JOther => false
  end.

Definition object (o : json_view) : option Amount :=
  match o with
  | JNumber d => d_to_u64 d
  | JString s => of_string s
  | JOther => None
  end.

(** ** Saturating arithmetic *)

Lemma add_spec a b : is_u64 a -> is_u64 b -> add a b = Z.min (a + b) UINT64_MAX.
Proof.
  intros Ha Hb. unfold add, u64, UINT64_MAX.
  destruct (Z_lt_le_dec (a + b) (2 ^ 64)) as [L|L].
  - rewrite Z.mod_small by ulia. destruct (Z.ltb_spec (a + b) b); ulia.
  - replace ((a + b) `mod` 2 ^ 64) with (a + b - 2 ^ 64).
    + destruct (Z.ltb_spec (a + b - 2 ^ 64) b); ulia.
    + apply Z.mod_unique with 1; ulia.
Qed.

Lemma sub_spec a b : sub a b = if b >? a then 0 else a - b.
Proof. easy. Qed.

Lemma add_range a b : is_u64 a -> is_u64 b -> is_u64 (add a b).
Proof. intros Ha Hb. rewrite add_spec by easy. ulia. Qed.

Lemma sub_range a b : is_u64 a -> is_u64 b -> is_u64 (sub a b).
Proof. intros Ha Hb. unfold sub. rewrite Z.gtb_ltb. destruct (Z.ltb_spec a b); ulia. Qed.

Lemma sub_add a b : is_u64 a -> is_u64 b -> b <= a -> add (sub a b) b = a.
Proof.
  intros. rewrite add_spec by (auto using sub_range). unfold sub.
  rewrite Z.gtb_ltb. destruct (Z.ltb_spec a b); ulia.
Qed.

Lemma sat_exact v : 0 <= v -> v * 1000 < 2 ^ 64 -> sat v = v * 1000.
Proof. intros. unfold sat. apply u64_id. ulia. Qed.

Lemma to_sat_sat v : 0 <= v -> v * 1000 + 999 < 2 ^ 64 -> to_sat (sat v) = v.
Proof.
  intros. rewrite sat_exact by lia. unfold to_sat. rewrite u64_id by ulia.
  rewrite Z.div_add_l by lia. apply Z.add_0_r.
Qed.

(** [to_sat] rounds a fraction of a satoshi up. *)
Lemma to_sat_spec a : 0 <= a -> a + 999 < 2 ^ 64 -> (to_sat a - 1) * 1000 < a <= to_sat a * 1000.
Proof.
  intros. unfold to_sat. rewrite u64_id by ulia.
  pose proof (Z.div_mod (a + 999) 1000). pose proof (Z.mod_pos_bound (a + 999) 1000). lia.
Qed.

Lemma le_spec a b : le a b = (a <=? b).
Proof. unfold le, gt, lt. rewrite Z.leb_antisym. easy. Qed.
Lemma ge_spec a b : ge a b = (b <=? a).
Proof. apply le_spec. Qed.

(** ** Scaling *)

(** Scaling by a power of two is exact below [2^53]. *)
Lemma clamp_exact_Z n : 0 <= n < 2 ^ 64 - 1 -> clamp (Fin (inject_Z n)) = Some n.
Proof.
  intros H. unfold clamp. change (Fin 0) with (Fin (inject_Z 0)).
  rewrite dlt_Z. assert ((n <? 0) = false) as -> by ulia.
  unfold dgt. replace (d_of_Z UINT64_MAX) with (Fin (inject_Z (2 ^ 64))) by (vm_compute; easy).
  rewrite dlt_Z. assert ((2 ^ 64 <? n) = false) as -> by ulia.
  apply d_to_u64_Z. ulia.
Qed.

Lemma mul_pow2 a k :
  0 <= a < 2 ^ 53 -> 0 <= k <= 10 -> mul a (Fin (inject_Z (2 ^ k))) = Some (a * 2 ^ k).
Proof.
  intros Ha Hk. unfold mul. rewrite d_of_Z_exact by easy. simpl.
  assert (RN (inject_Z a * inject_Z (2 ^ k))%Q = Fin (inject_Z (a * 2 ^ k))) as ->.
  { rewrite (RN_Proper _ (inject_Z a * pow2 k)%Q) by (now rewrite pow2_Z by lia).
    rewrite RN_exact by lia. f_equal.
    rewrite (Qred_complete _ (inject_Z (a * 2 ^ k))) by (rewrite inject_Z_mult, pow2_Z by lia; easy).
    apply Qred_Z. }
  apply clamp_exact_Z. split; [apply Z.mul_nonneg_nonneg; lia|].
  pose proof (Z.pow_le_mono_r 2 k 10). change (2 ^ 10) with 1024 in *.
  pose proof (Z.pow_pos_nonneg 2 k). nia.
Qed.

Lemma mul_2 a : 0 <= a < 2 ^ 53 -> mul a (d_of_Z 2) = Some (a * 2).
Proof.
  intros H. change (d_of_Z 2) with (Fin (inject_Z (2 ^ 1))). rewrite mul_pow2 by lia. easy.
Qed.

(** Halving is exact below [2^53], and the conversion truncates. *)
Lemma div_2 a : 0 <= a < 2 ^ 53 -> div a (d_of_Z 2) = Some (a / 2).
Proof.
  intros Ha. unfold div. rewrite d_of_Z_exact by easy.
  change (d_of_Z 2) with (Fin (2 # 1)). simpl.
  assert (RN (inject_Z a / (2 # 1))%Q = Fin (Qred (inject_Z a * pow2 (-1))%Q)) as ->.
  { rewrite <- RN_exact by lia. easy. }
  set (q := Qred _). assert (q == inject_Z a / (2 # 1))%Q as E.
  { unfold q. rewrite Qred_correct. easy. }
  assert (0 <= inject_Z a)%Q by (change 0%Q with (inject_Z 0); rewrite <- Zle_Qle; lia).
  assert (inject_Z a < inject_Z (2 ^ 53))%Q by (rewrite <- Zlt_Qlt; lia).
  assert (0 <= q)%Q as Hq by (rewrite E; apply Qle_shift_div_l; [easy|lra]).
  unfold clamp. assert (dlt (Fin q) (Fin 0) = false) as ->.
  { apply not_true_iff_false. rewrite dlt_Fin. lra. }
  unfold dgt. replace (d_of_Z UINT64_MAX) with (Fin (inject_Z (2 ^ 64))) by (vm_compute; easy).
  assert (dlt (Fin (inject_Z (2 ^ 64))) (Fin q) = false) as ->.
  { apply not_true_iff_false. rewrite dlt_Fin, E. intros C.
    assert (inject_Z a / (2 # 1) < inject_Z (2 ^ 64))%Q; [|lra].
    apply Qlt_shift_div_r; [easy|]. change (inject_Z (2 ^ 53))%Q with (9007199254740992#1)%Q in *.
    change (inject_Z (2 ^ 64))%Q with (18446744073709551616#1)%Q. lra. }
  apply d_to_u64_floor; [easy| |].
  - rewrite (Qfloor_comp _ _ E). change (2 # 1)%Q with (inject_Z 2). now rewrite <- Zdiv_Qdiv.
  - pose proof (Z.div_le_upper_bound a 2 (2 ^ 53)). lia.
Qed.

(** The bound the operators compare with is [2^64], not [UINT64_MAX]. *)
Lemma double_UINT64_MAX : d_of_Z UINT64_MAX = Fin (inject_Z (2 ^ 64)).
Proof. vm_compute. easy. Qed.

Lemma clamp_None x :
  clamp x = None <-> x = NaN \/ exists q, x = Fin q /\ (q == inject_Z (2 ^ 64))%Q.
Proof.
  unfold clamp, dgt. rewrite double_UINT64_MAX. destruct x as [q|[]|]; simpl.
  2-4: split; [naive_solver|]; intros [|(?&?&?)]; naive_solver.
  destruct (Qle_bool 0 q) eqn:E0; simpl.
  2: { split; [easy|]. intros [|(?&[= <-]&E)]; [easy|]. exfalso.
       assert (0 <= q)%Q as C by (rewrite E; easy). apply Qle_bool_iff in C. congruence. }
  apply Qle_bool_iff in E0.
  destruct (Qle_bool q (inject_Z (2 ^ 64))) eqn:E1; simpl.
  2: { split; [easy|]. intros [|(?&[= <-]&E)]; [easy|]. exfalso.
       assert (q <= inject_Z (2 ^ 64))%Q as C by (rewrite E; apply Qle_refl).
       apply Qle_bool_iff in C. congruence. }
  apply Qle_bool_iff in E1. unfold Qtrunc.
  assert (Qle_bool 0 q = true) as -> by now apply Qle_bool_iff.
  pose proof (Qfloor_le q) as F1. pose proof (Qlt_floor q) as F2.
  assert (0 <= Qfloor q) by (rewrite <- (Qfloor_Z 0); now apply Qfloor_resp_le).
  destruct (Z.ltb_spec (Qfloor q) (2 ^ 64)) as [L|L];
    rewrite ?andb_true_r, ?andb_false_r.
  - assert ((0 <=? Qfloor q) = true) as -> by lia. split; [easy|].
    intros [|(?&[= <-]&E)]; [easy|]. rewrite (Qfloor_comp _ _ E), Qfloor_Z in L. lia.
  - split; [|easy]. intros _. right. exists q. split; [easy|].
    rewrite Zle_Qle in L. apply Qle_antisym; [easy|].
    now apply Qle_trans with (inject_Z (Qfloor q)).
Qed.

Lemma clamp_range x n : clamp x = Some n -> is_u64 n.
Proof.
  unfold clamp. destruct (dlt _ _); [intros [= <-]; ulia|]. destruct (dgt _ _); [intros [= <-]; ulia|].
  unfold d_to_u64. destruct x; try done. destruct (_ && _) eqn:E; [|done]. intros [= <-].
  to_prop. ulia.
Qed.

Lemma clamp_mono x y m n :
  dle (Fin 0) x = true -> dle x y = true -> clamp x = Some m -> clamp y = Some n -> m <= n.
Proof.
  unfold clamp, dgt. rewrite double_UINT64_MAX.
  assert (forall q k, (if ((0 <=? Qtrunc q) && (Qtrunc q <? 2 ^ 64)) then Some (Qtrunc q) else None)
            = Some k -> k = Qtrunc q /\ k <= UINT64_MAX) as T.
  { intros q k. destruct (_ && _) eqn:E; [|easy]. intros [= <-]. to_prop. ulia. }
  destruct x as [p|[]|], y as [q|[]|]; simpl; try easy.
  - intros H0 Hle. apply Qle_bool_iff in Hle. rewrite H0; simpl.
    apply Qle_bool_iff in H0 as H0'.
    assert (Qle_bool 0 q = true) as -> by (apply Qle_bool_iff; lra); simpl.
    destruct (Qle_bool p _) eqn:Ep, (Qle_bool q _) eqn:Eq; simpl; intros Hm Hn.
    + apply T in Hm as [-> _]. apply T in Hn as [-> _]. unfold Qtrunc. rewrite H0.
      assert (Qle_bool 0 q = true) as -> by (apply Qle_bool_iff; lra).
      now apply Qfloor_resp_le.
    + injection Hn as <-. apply T in Hm as [_ ?]. easy.
    + exfalso. apply Qle_bool_iff in Eq. assert (p <= inject_Z (2 ^ 64))%Q as C by lra.
      apply Qle_bool_iff in C. congruence.
    + simplify_eq. lia.
  - intros H0 _. rewrite H0; simpl. destruct (Qle_bool p _); simpl; intros Hm [= <-].
    + now apply T in Hm as [_ ?].
    + simplify_eq. lia.
  - intros. simplify_eq. lia.
Qed.

Lemma clamp_floor q : (0 <= q)%Q -> (q < inject_Z (2 ^ 64))%Q -> clamp (Fin q) = Some (Qfloor q).
Proof.
  intros H0 H1. unfold clamp, dgt. rewrite double_UINT64_MAX.
  assert (dlt (Fin q) (Fin 0) = false) as -> by (apply not_true_iff_false; rewrite dlt_Fin; lra).
  assert (dlt (Fin (inject_Z (2 ^ 64))) (Fin q) = false) as -> by (apply not_true_iff_false; rewrite dlt_Fin; lra).
  apply d_to_u64_floor; [easy|easy|]. pose proof (Qfloor_le q). rewrite Zlt_Qlt. lra.
Qed.

(** Rounding to a double and truncating is off by little. *)
Lemma clamp_near q k :
  (0 <= q)%Q -> (q <= pow2 k)%Q -> -1022 <= k <= 52 ->
  exists n, clamp (RN q) = Some n /\ (q - pow2 (k - 52) - 1 < inject_Z n)%Q /\ (inject_Z n <= q + pow2 (k - 52))%Q.
Proof.
  intros H0 Hq Hk. destruct (RN_near q k) as (r & -> & Hr0 & Hr); [easy|easy|lia|].
  pose proof (pow2_le k 52 ltac:(lia)). pose proof (pow2_le (k - 52) 0 ltac:(lia)).
  change (pow2 0) with 1%Q in *. change (pow2 52) with (inject_Z (2 ^ 52)) in *.
  assert (inject_Z (2 ^ 52) + 1 < inject_Z (2 ^ 64))%Q by reflexivity.
  exists (Qfloor r). split; [apply clamp_floor; [easy|lra]|].
  pose proof (Qfloor_le r). pose proof (Qlt_floor r) as F. rewrite inject_Z_plus in F. change (inject_Z 1) with 1%Q in F.
  split; lra.
Qed.

(** A [std::uint64_t] converts to a finite double between 0 and [2^64]. *)
Lemma d_of_u64_finite a :
  is_u64 a -> exists q, d_of_Z a = Fin q /\ (0 <= q <= inject_Z (2 ^ 64))%Q.
Proof.
  intros Ha. unfold d_of_Z.
  assert (0 <= inject_Z a)%Q by (change 0%Q with (inject_Z 0); rewrite <- Zle_Qle; ulia).
  assert (inject_Z a <= inject_Z UINT64_MAX)%Q by (rewrite <- Zle_Qle; ulia).
  pose proof (RN_mono 0 (inject_Z a) (Qle_refl 0) H) as L. rewrite RN_0 in L.
  pose proof (RN_mono (inject_Z a) (inject_Z UINT64_MAX) H H0) as U.
  change (RN (inject_Z UINT64_MAX)) with (d_of_Z UINT64_MAX) in U.
  rewrite double_UINT64_MAX in U.
  destruct (RN (inject_Z a)) as [q|[]|]; try easy. exists q. split; [easy|].
  now rewrite <- !dle_Fin.
Qed.

Lemma d_of_u64_mono a b p q :
  is_u64 a -> a <= b -> d_of_Z a = Fin p -> d_of_Z b = Fin q -> (p <= q)%Q.
Proof.
  intros Ha Hab Hp Hq. apply dle_Fin. rewrite <- Hp, <- Hq. apply RN_mono.
  - change 0%Q with (inject_Z 0); rewrite <- Zle_Qle; ulia.
  - now rewrite <- Zle_Qle.
Qed.

(** ** Properties *)

(** Addition of amounts is addition of the millisatoshi counts, saturated at
    [UINT64_MAX], so that it is commutative and associative; subtraction
    stops at zero. *)
Theorem amount_saturates a b c :
  is_u64 a -> is_u64 b -> is_u64 c ->
  add a b = Z.min (a + b) UINT64_MAX /\ sub a b = Z.max (a - b) 0 /\
  add a b = add b a /\ add (add a b) c = add a (add b c).
Proof.
  intros Ha Hb Hc. rewrite (add_spec (add a b)), (add_spec a (add b c)) by auto using add_range.
  rewrite !add_spec by easy.
  split_and!; [easy| |ulia|ulia].
  unfold sub. rewrite Z.gtb_ltb. destruct (Z.ltb_spec a b); lia.
Qed.

(** Printing an amount and reading it back gives the amount exactly when it
    is below [10^13] msat (100 BTC); every larger amount prints to a string
    that [valid_string] rejects, so that the constructor throws. *)
Theorem amount_string_roundtrip a :
  is_u64 a -> of_string (to_string a) = if a <? 10 ^ 13 then Some a else None.
Proof.
  intros Ha. unfold of_string, to_string.
  assert (length (dec a ++ lit "msat") = (length (dec a) + 4)%nat) as HL
    by (rewrite length_app; easy).
  pose proof (dec_nonempty a) as Hne.
  assert (0 < length (dec a))%nat by (destruct (dec a); [easy|simpl; lia]).
  assert (valid_string (dec a ++ lit "msat") = (length (dec a) <=? 13)%nat) as ->.
  { unfold valid_string. rewrite HL.
    assert ((length (dec a) + 4 <? 5)%nat = false) as -> by (apply Nat.ltb_ge; lia).
    replace (length (dec a) + 4 - 4)%nat with (length (dec a)) by lia.
    rewrite drop_app_length, take_app_length. simpl.
    rewrite (proj2 (forallb_Forall is_digit _ (dec a) (fun x => iff_refl _)) (dec_digits a)).
    simpl. destruct (Nat.leb_spec (length (dec a)) 13), (Nat.ltb_spec 17 (length (dec a) + 4));
      try easy; lia. }
  replace (length (dec a ++ lit "msat") - 4)%nat with (length (dec a)) by lia.
  rewrite take_app_length. unfold read_u64. rewrite dec_value by ulia.
  destruct (Z.ltb_spec a (10 ^ 13)) as [L|L].
  - pose proof (dec_length a 13 ltac:(lia) ltac:(ulia)).
    assert ((length (dec a) <=? 13)%nat = true) as -> by (apply Nat.leb_le; lia).
    simpl. f_equal. ulia.
  - pose proof (digits_value_bounds (dec a) (dec_digits a)) as B. rewrite dec_value in B by ulia.
    assert (13 < length (dec a))%nat.
    { destruct (le_lt_dec (length (dec a)) 13) as [C|]; [|easy].
      pose proof (Z.pow_le_mono_r 10 (Z.of_nat (length (dec a))) 13). lia. }
    assert ((length (dec a) <=? 13)%nat = false) as -> by (apply Nat.leb_gt; lia). easy.
Qed.

(** Scaling an amount by a non-negative factor is undefined behaviour in one
    case only, when the product rounds to exactly [2^64]; everywhere else it is defined, and
    it preserves the order of the amounts. *)
Theorem amount_scale_defined_mono a b f :
  is_u64 a -> is_u64 b -> a <= b -> (0 <= f)%Q ->
  (mul a (Fin f) = None <-> deq (dmul (d_of_Z a) (Fin f)) (Fin (inject_Z (2 ^ 64))) = true) /\
  (forall m n, mul a (Fin f) = Some m -> mul b (Fin f) = Some n -> m <= n).
Proof.
  intros Ha Hb Hab Hf. unfold mul.
  destruct (d_of_u64_finite a Ha) as (p & Ep & Hp).
  destruct (d_of_u64_finite b Hb) as (q & Eq & Hq).
  pose proof (d_of_u64_mono a b p q Ha Hab Ep Eq) as Hpq.
  rewrite Ep, Eq. simpl. split.
  - rewrite clamp_None. unfold deq. rewrite andb_true_iff.
    assert (RN (p * f) <> NaN) as Hn.
    { assert (0 <= p * f)%Q as H0 by nra. pose proof (RN_mono 0 _ (Qle_refl 0) H0) as L.
      intros C. rewrite RN_0, C in L. easy. }
    destruct (RN (p * f)) as [r|[]|]; simpl; [|naive_solver..].
    rewrite !Qle_bool_iff. split.
    + intros [?|(? & [= <-] & E)]; [easy|]. rewrite E. split; apply Qle_refl.
    + intros [? ?]. right. exists r. split; [easy|]. now apply Qle_antisym.
  - intros m n. apply clamp_mono.
    + rewrite <- RN_0. apply RN_mono; [apply Qle_refl|nra].
    + apply RN_mono; nra.
Qed.

(** The undefined case is reached: twice [2^63] msat. *)
Example mul_undefined : mul (2 ^ 63) (d_of_Z 2) = None.
Proof. vm_compute. reflexivity. Qed.

(** ** Witnesses *)

Lemma amount_saturates_witness :
  add (2 ^ 63) (2 ^ 63) = UINT64_MAX.
Proof.
  destruct (amount_saturates (2 ^ 63) (2 ^ 63) 0) as [H _]; [vm_compute; split; easy..|].
  rewrite H. vm_compute. reflexivity.
Defined.

Lemma amount_string_roundtrip_witness :
  of_string (to_string 123456) = Some 123456 /\ of_string (to_string (10 ^ 13)) = None.
Proof.
  split.
  - exact (amount_string_roundtrip 123456 ltac:(vm_compute; split; easy)).
  - exact (amount_string_roundtrip (10 ^ 13) ltac:(vm_compute; split; easy)).
Defined.

Lemma amount_scale_defined_mono_witness :
  mul (2 ^ 63) (Fin 2) = None /\ 3 <= 5.
Proof.
  split.
  - apply (amount_scale_defined_mono (2 ^ 63) (2 ^ 63) 2);
      [vm_compute; split; easy..|easy|easy|vm_compute; easy].
  - apply (amount_scale_defined_mono 3 5 1); vm_compute; try split; easy.
Defined.

End Amount.
