(* ===== verification/UtilStr.v ===== *)
(** * Util::Str (src/Util/Str.cpp)

    Hexadecimal text, trimming and digit grouping.  A [char] is its byte
    value; the tests of the source compare it through the signed [schar]. *)

From stdpp Require Import base list numbers strings.
From S2P Require Import Prelude.

Module Str.

(** ** Hexadecimal *)

(** One hexadecimal digit as [std::hex] prints it. *)
Definition hexdigit (n : Z) : Z := if n <? 10 then 48 + n else 87 + n.

(** [std::setw(2) << std::setfill('0') << std::hex] of a byte. *)
Definition hexbyte (v : Z) : bytes := [hexdigit (v `div` 16); hexdigit (v `mod` 16)].

Fixpoint hexdump (p : bytes) : bytes :=
  match p with
  | [] => []
  | b :: p' => hexbyte b ++ hexdump p'
  end.

Definition in_range (lo hi : string) (c : Z) : bool :=
  (chr lo <=? schar c) && (schar c <=? chr hi).

(** [parse_hex]; [None] is [HexParseFailure]. *)
Definition parse_hex (c : Z) : option Z :=
  if in_range "0" "9" c then Some (u8 (Z.land (schar c) 0xF))
  else if in_range "a" "f" c || in_range "A" "F" c then Some (u8 (Z.land (schar c + 9) 0xF))
  else None.

Definition parse_hex_byte (c0 c1 : Z) : option Z :=
  match parse_hex c0, parse_hex c1 with
  | Some h, Some l => Some (u8 (Z.lor (Z.shiftl h 4) l))
  | _, _ => None
  end.

(** The loop of [hexread] over pairs of characters. *)
Fixpoint hexread_loop (s : bytes) : option bytes :=
  match s with
  | c0 :: c1 :: s' =>
      match parse_hex_byte c0 c1, hexread_loop s' with
      | Some b, Some r => Some (b :: r)
      | _, _ => None
      end
  | _ => Some []
  end.

Definition hexread (s : bytes) : option bytes :=
  if negb (Z.of_nat (length s) `mod` 2 =? 0) then None else hexread_loop s.

Definition is_hexchar (c : Z) : bool :=
  in_range "0" "9" c || in_range "a" "f" c || in_range "A" "F" c.

Definition ishex (s : bytes) : bool :=
  if negb (Z.of_nat (length s) `mod` 2 =? 0) then false else forallb is_hexchar s.

(** ** Trimming *)

(** [isspace] in the C locale. *)
Definition isspace (c : Z) : bool := (c =? 32) || ((9 <=? c) && (c <=? 13)).

(** The elements from the first one that fails the predicate. *)
Fixpoint drop_while (p : Z -> bool) (s : bytes) : bytes :=
  match s with
  | [] => []
  | c :: s' => if p c then drop_while p s' else s
  end.

Definition trim (s : bytes) : bytes :=
  match drop_while isspace s with
  | [] => []
  | start => reverse (drop_while isspace (reverse start))
  end.

(** ** Digit grouping *)

(** The loop body: [i] characters are done, [n] is the size of the text. *)
Fixpoint group_loop (n i : Z) (s : bytes) : bytes :=
  match s with
  | [] => []
  | c :: s' =>
      (if negb (i =? 0) && ((n - i) `mod` 3 =? 0) then [chr "_"] else [])
        ++ c :: group_loop n (i + 1) s'
  end.

Definition group_digits (v : Z) : bytes := group_loop (Z.of_nat (length (dec v))) 0 (dec v).

Definition group_digits_signed (v : Z) : bytes :=
  if v <? 0 then chr "-" :: group_digits (u64 (u64 (- (v + 1)) + 1)) else group_digits (u64 v).

(** ** Lemmas on hexadecimal digits *)

Lemma hexdigit_hexchar n : 0 <= n < 16 -> is_hexchar (hexdigit n) = true.
Proof.
  intros H. by apply (seqZ_forallb (fun n => is_hexchar (hexdigit n)) 16).
Qed.

Lemma parse_hex_hexdigit n : 0 <= n < 16 -> parse_hex (hexdigit n) = Some n.
Proof.
  intros H. by apply (seqZ_eq (fun n => parse_hex (hexdigit n)) Some 16).
Qed.

Lemma parse_hex_isSome c : is_hexchar c = true <-> is_Some (parse_hex c).
Proof.
  unfold is_hexchar, parse_hex. destruct (in_range "0" "9" c); simpl; [naive_solver|].
  destruct (in_range "a" "f" c || in_range "A" "F" c); split; try done; by intros [].
Qed.

Lemma parse_hex_range c n : parse_hex c = Some n -> 0 <= n < 16.
Proof.
  unfold parse_hex.
  assert (forall x, 0 <= u8 (Z.land x 15) < 16) as H.
  { intros x. change 15 with (Z.ones 4). rewrite Z.land_ones by lia.
    change (2 ^ 4) with 16. pose proof (Z.mod_pos_bound x 16). rewrite u8_id; ulia. }
  destruct (in_range "0" "9" c); [intros [= <-]; apply H|].
  destruct (_ || _); [intros [= <-]; apply H|done].
Qed.

Lemma parse_hex_byte_spec c0 c1 h l :
  parse_hex c0 = Some h -> parse_hex c1 = Some l -> parse_hex_byte c0 c1 = Some (h * 16 + l).
Proof.
  intros H0 H1. unfold parse_hex_byte. rewrite H0, H1. f_equal.
  apply parse_hex_range in H0. apply parse_hex_range in H1.
  rewrite Z.lor_comm, lor_shiftl_add by (change (2 ^ 4) with 16; lia).
  change (2 ^ 4) with 16. rewrite u8_id; ulia.
Qed.

Lemma hexdump_length p : length (hexdump p) = (2 * length p)%nat.
Proof. induction p; simpl; lia. Qed.

Lemma hexdump_even p : Z.of_nat (length (hexdump p)) `mod` 2 = 0.
Proof. rewrite hexdump_length, Nat2Z.inj_mul, Z.mul_comm. apply Z.mod_mul. lia. Qed.

Lemma hexread_loop_hexdump p : bytes_ok p -> hexread_loop (hexdump p) = Some p.
Proof.
  induction 1 as [|b p Hb _ IH]; simpl; [done|].
  assert (0 <= b `div` 16 < 16).
  { split; [apply Z.div_pos; ulia|apply Z.div_lt_upper_bound; ulia]. }
  pose proof (Z.mod_pos_bound b 16).
  rewrite (parse_hex_byte_spec _ _ (b `div` 16) (b `mod` 16)), IH
    by (apply parse_hex_hexdigit; lia).
  repeat f_equal. pose proof (Z.div_mod b 16). lia.
Qed.

Lemma even_length_cons2 (x y : Z) (l : bytes) :
  Z.of_nat (length (x :: y :: l)) `mod` 2 = Z.of_nat (length l) `mod` 2.
Proof.
  simpl length. replace (Z.of_nat (S (S (length l)))) with (Z.of_nat (length l) + 1 * 2) by lia.
  apply Z.mod_add. lia.
Qed.

(** The loop succeeds on hexadecimal text, and then the text is, up to the
    case of the letters, the dump of the result. *)
Lemma hexread_loop_spec s :
  Z.of_nat (length s) `mod` 2 = 0 ->
  match hexread_loop s with
  | Some p => Forall (fun c => is_hexchar c = true) s /\ bytes_ok p /\
              (2 * length p)%nat = length s
  | None => ~ Forall (fun c => is_hexchar c = true) s
  end.
Proof.
  induction s as [|x|x y s IH] using list_pair_ind; intros He; simpl; [done|done|].
  rewrite even_length_cons2 in He. specialize (IH He).
  destruct (parse_hex_byte x y) as [b|] eqn:Eb.
  - unfold parse_hex_byte in Eb.
    destruct (parse_hex x) as [h|] eqn:Ex, (parse_hex y) as [l|] eqn:Ey; try done.
    assert (is_hexchar x = true) by (apply parse_hex_isSome; eauto).
    assert (is_hexchar y = true) by (apply parse_hex_isSome; eauto).
    destruct (hexread_loop s) as [p|].
    + destruct IH as (? & ? & ?). split_and!; [auto| |simpl; lia].
      constructor; [|done]. injection Eb as <-. apply u8_range.
    + intros C. apply IH. inversion C as [|?? _ C']; subst. now inversion C'.
  - intros C. inversion C as [|?? Hx C']; subst. inversion C' as [|?? Hy _]; subst.
    apply parse_hex_isSome in Hx as [h Hx], Hy as [l Hy].
    rewrite (parse_hex_byte_spec _ _ _ _ Hx Hy) in Eb. done.
Qed.

Lemma hexread_dump p : bytes_ok p -> hexread (hexdump p) = Some p.
Proof. intros H. unfold hexread. rewrite hexdump_even. simpl. by apply hexread_loop_hexdump. Qed.

Lemma hexread_bytes s p : hexread s = Some p -> bytes_ok p.
Proof.
  unfold hexread. destruct (Z.eqb_spec (Z.of_nat (length s) `mod` 2) 0) as [E|E]; simpl; [|done].
  intros H. pose proof (hexread_loop_spec s E) as S. rewrite H in S. apply S.
Qed.

Lemma ishex_spec s :
  ishex s = true <->
  Z.of_nat (length s) `mod` 2 = 0 /\ Forall (fun c => is_hexchar c = true) s.
Proof.
  unfold ishex. destruct (Z.eqb_spec (Z.of_nat (length s) `mod` 2) 0) as [E|E]; simpl.
  - rewrite (forallb_Forall _ (fun c => is_hexchar c = true)) by done. naive_solver.
  - naive_solver.
Qed.

(** ** Lemmas on grouping *)

Lemma group_loop_digits n i s :
  Forall (fun c => is_digit c = true) s ->
  filter (fun c => c <> chr "_") (group_loop n i s) = s.
Proof.
  intros H. revert i; induction H as [|c s Hc _ IH]; intros i; [done|]. cbn [group_loop].
  apply is_digit_spec in Hc.
  assert (c <> chr "_") by (change (chr "_") with 95; lia).
  rewrite filter_app, filter_cons_True, IH by done.
  destruct (_ && _); [|done]. rewrite filter_cons_False; [done|]. intros C. by apply C.
Qed.

(** ** Properties *)

(** The hexadecimal codec round-trips: the dump of a byte string is
    accepted by [ishex] and [hexread] gives the byte string back. *)
Theorem hexread_hexdump p :
  bytes_ok p -> ishex (hexdump p) = true /\ hexread (hexdump p) = Some p.
Proof.
  intros H. split; [|by apply hexread_dump]. apply ishex_spec. split; [apply hexdump_even|].
  pose proof (hexread_loop_spec (hexdump p) (hexdump_even p)) as S.
  rewrite hexread_loop_hexdump in S by done. apply S.
Qed.

(** [ishex] decides exactly the strings [hexread] accepts without throwing,
    and [hexread] then returns one byte per two characters. *)
Theorem ishex_decides_hexread s :
  (ishex s = true <-> is_Some (hexread s)) /\
  (forall p, hexread s = Some p -> bytes_ok p /\ (2 * length p)%nat = length s).
Proof.
  unfold hexread. rewrite ishex_spec.
  destruct (Z.eqb_spec (Z.of_nat (length s) `mod` 2) 0) as [E|E]; simpl.
  - pose proof (hexread_loop_spec s E) as S. destruct (hexread_loop s) as [p|].
    + destruct S as (? & ? & ?). split; [|intros ? [= <-]; done]. split; [eauto|done].
    + split; [|done]. split; [naive_solver|intros []; done].
  - split; [|done]. split; [naive_solver|intros []; done].
Qed.

(** [group_digits] only inserts underscores: without them the text is the
    decimal number; a negative number, [INT64_MIN] included, is a minus sign
    and the grouping of its magnitude. *)
Theorem group_digits_value v :
  - 2 ^ 63 <= v < 2 ^ 64 ->
  (0 <= v -> digits_value (filter (fun c => c <> chr "_") (group_digits v)) = v) /\
  (v < 0 -> group_digits_signed v = chr "-" :: group_digits (- v)).
Proof.
  intros H. split; intros Hv.
  - unfold group_digits. rewrite group_loop_digits by apply dec_digits. by apply dec_value.
  - unfold group_digits_signed. assert ((v <? 0) = true) as -> by lia.
    rewrite (u64_id (- (v + 1))) by ulia. rewrite u64_id by ulia. do 2 f_equal. lia.
Qed.

(** ** Witnesses *)

Lemma hexread_hexdump_witness : hexread (lit "00ff10") = Some [0; 255; 16].
Proof. apply (hexread_hexdump [0; 255; 16]). repeat constructor; vm_compute; done. Defined.

Lemma group_digits_value_witness :
  group_digits_signed (- 2 ^ 63) = chr "-" :: lit "9_223_372_036_854_775_808".
Proof.
  rewrite (proj2 (group_digits_value (- 2 ^ 63) ltac:(lia))) by lia. vm_compute. reflexivity.
Defined.

End Str.
