(* ===== verification/LnIds.v ===== *)
(** * Identifiers of the Lightning Network (src/Ln/Scid.cpp, src/Ln/NodeId.cpp,
      src/Ln/FeatureBit.cpp)

    Short channel ids, node ids and feature bits: their parsers, printers and
    comparisons. *)

From stdpp Require Import base list numbers strings.
From S2P Require Import Prelude UtilStr.

(** ** Short channel ids *)

Module Scid.

(** The loop of [parse_number]; [None] is the [false] result. *)
Fixpoint parse_number_loop (s : bytes) (val mask : Z) : option Z :=
  match s with
  | [] => Some val
  | c :: s' =>
      if negb (is_digit c) then None
      else
        let new_val := Z.land (u64 (val * 10 + (c - 48))) mask in
        if new_val <? val then None else parse_number_loop s' new_val mask
  end.
Definition parse_number (s : bytes) (mask : Z) : option Z := parse_number_loop s 0 mask.

(** [validate_and_parse]: the block, transaction and output numbers. *)
Definition validate_and_parse (s : bytes) : option (Z * Z * Z) :=
  match split_at_char (chr "x") s with
  | None => None
  | Some (s1, r) =>
      match split_at_char (chr "x") r with
      | None => None
      | Some (s2, s3) =>
          if bool_decide (s1 = []) then None
          else if bool_decide (s2 = []) then None
          else if bool_decide (s3 = []) then None
          else
            b ← parse_number s1 0xFFFFFF;
            t ← parse_number s2 0xFFFFFF;
            o ← parse_number s3 0xFFFF;
            Some (b, t, o)
      end
  end.

Definition valid_string (s : bytes) : bool := bool_decide (is_Some (validate_and_parse s)).

(** The constructor from a string; [None] is the exception. *)
Definition of_string (s : bytes) : option Z :=
  match validate_and_parse s with
  | None => None
  | Some (b, t, o) =>
      Some (Z.lor (Z.lor (u64 (Z.shiftl b 40)) (u64 (Z.shiftl t 16))) (u64 (Z.shiftl o 0)))
  end.

Definition to_string (val : Z) : bytes :=
  let b := Z.land (Z.shiftr val 40) 0xFFFFFF in
  let t := Z.land (Z.shiftr val 16) 0xFFFFFF in
  let o := Z.land (Z.shiftr val 0) 0xFFFF in
  dec b ++ lit "x" ++ dec t ++ lit "x" ++ dec o.

(** Lemmas *)

Lemma parse_number_loop_exact s val k :
  0 <= k <= 32 -> 0 <= val -> Forall (fun c => is_digit c = true) s ->
  foldl (fun acc c => acc * 10 + (c - 48)) val s < 2 ^ k ->
  parse_number_loop s val (Z.ones k) = Some (foldl (fun acc c => acc * 10 + (c - 48)) val s).
Proof.
  intros Hk. revert val. induction s as [|c s IH]; intros val Hv Hd Hb; [done|]. simpl in *.
  inversion Hd as [|?? Hc Hd']; subst. rewrite Hc. simpl. apply is_digit_spec in Hc.
  assert (forall l a, 0 <= a -> Forall (fun c => is_digit c = true) l ->
            a <= foldl (fun acc c => acc * 10 + (c - 48)) a l) as Hge.
  { induction l as [|d l IHl]; intros a Ha Hl; simpl; [lia|].
    inversion Hl as [|?? Hd1 ?]; subst. apply is_digit_spec in Hd1.
    etransitivity; [|apply IHl; [lia|done]]. lia. }
  pose proof (Hge s (val * 10 + (c - 48)) ltac:(lia) Hd') as Hle.
  assert (2 ^ k <= 2 ^ 32) by (apply Z.pow_le_mono_r; lia).
  rewrite u64_id, Z.land_ones, Z.mod_small by ulia.
  assert ((val * 10 + (c - 48) <? val) = false) as -> by lia.
  apply IH; [lia|done|lia].
Qed.

Lemma parse_number_exact s k :
  0 <= k <= 32 -> Forall (fun c => is_digit c = true) s -> digits_value s < 2 ^ k ->
  parse_number s (Z.ones k) = Some (digits_value s).
Proof. intros. by apply parse_number_loop_exact. Qed.

Lemma parse_number_loop_range s val k r :
  0 <= k -> 0 <= val < 2 ^ k -> parse_number_loop s val (Z.ones k) = Some r -> 0 <= r < 2 ^ k.
Proof.
  intros Hk. revert val. induction s as [|c s IH]; simpl; intros val Hv; [by intros [= <-]|].
  destruct (negb _); [done|]. destruct (_ <? _); [done|]. apply IH.
  rewrite Z.land_ones by done. apply Z.mod_pos_bound. lia.
Qed.

Lemma parse_number_range s k r :
  0 <= k -> parse_number s (Z.ones k) = Some r -> 0 <= r < 2 ^ k.
Proof. intros Hk. apply parse_number_loop_range; [done|]. split; [lia|]. lia. Qed.

(** The three fields make up the 64-bit value. *)
Lemma fields_value b t o :
  0 <= b < 2 ^ 24 -> 0 <= t < 2 ^ 24 -> 0 <= o < 2 ^ 16 ->
  Z.lor (Z.lor (u64 (Z.shiftl b 40)) (u64 (Z.shiftl t 16))) (u64 (Z.shiftl o 0))
  = b * 2 ^ 40 + t * 2 ^ 16 + o.
Proof.
  intros Hb Ht Ho. rewrite !u64_id by (rewrite ?Z.shiftl_mul_pow2 by lia; ulia).
  rewrite Z.shiftl_0_r, Z.lor_comm, (Z.lor_comm (Z.shiftl b 40)), Z.lor_assoc.
  rewrite (lor_shiftl_add o t 16), (lor_shiftl_add _ b 40) by lia. lia.
Qed.

Lemma value_fields v :
  is_u64 v ->
  Z.land (Z.shiftr v 40) 0xFFFFFF * 2 ^ 40 + Z.land (Z.shiftr v 16) 0xFFFFFF * 2 ^ 16
  + Z.land (Z.shiftr v 0) 0xFFFF = v.
Proof.
  intros Hv. change 0xFFFFFF with (Z.ones 24). change 0xFFFF with (Z.ones 16).
  rewrite !Z.land_ones, !Z.shiftr_div_pow2, Z.pow_0_r, Z.div_1_r by lia.
  change (2 ^ 40) with (2 ^ 16 * 2 ^ 24). rewrite <- Zdiv.Zdiv_Zdiv by lia.
  set (w := v `div` 2 ^ 16).
  assert (0 <= w `div` 2 ^ 24 < 2 ^ 24).
  { split; [repeat apply Z.div_pos; ulia|]. apply Z.div_lt_upper_bound; [lia|].
    apply Z.div_lt_upper_bound; ulia. }
  rewrite (Z.mod_small (w `div` _)) by lia.
  pose proof (Z.div_mod v (2 ^ 16)). pose proof (Z.div_mod w (2 ^ 24)). unfold w in *. lia.
Qed.

Lemma x_not_digit n : chr "x" ∉ dec n.
Proof.
  intros C. pose proof (dec_digits n) as D. rewrite Forall_forall in D.
  apply D, is_digit_spec in C. change (chr "x") with 120 in C. lia.
Qed.

Lemma validate_and_parse_print b t o :
  0 <= b < 2 ^ 24 -> 0 <= t < 2 ^ 24 -> 0 <= o < 2 ^ 16 ->
  validate_and_parse (dec b ++ lit "x" ++ dec t ++ lit "x" ++ dec o) = Some (b, t, o).
Proof.
  intros Hb Ht Ho. unfold validate_and_parse. change (lit "x") with [chr "x"]. simpl app.
  rewrite split_at_char_app by apply x_not_digit.
  rewrite split_at_char_app by apply x_not_digit.
  rewrite !bool_decide_eq_false_2 by apply dec_nonempty.
  change 0xFFFFFF with (Z.ones 24). change 0xFFFF with (Z.ones 16).
  rewrite !parse_number_exact by (rewrite ?dec_value by lia; (lia || apply dec_digits)).
  rewrite !dec_value by lia. done.
Qed.

(** Printing a short channel id and parsing the text gives the same 64-bit
    value, for every value. *)
Theorem scid_roundtrip v : is_u64 v -> of_string (to_string v) = Some v.
Proof.
  intros Hv. unfold of_string, to_string.
  assert (forall x k, 0 <= k -> 0 <= Z.land x (Z.ones k) < 2 ^ k) as R.
  { intros x k Hk. rewrite Z.land_ones by done. apply Z.mod_pos_bound. lia. }
  rewrite validate_and_parse_print; [|apply (R _ 24); lia|apply (R _ 24); lia|apply (R _ 16); lia].
  rewrite fields_value; [|apply (R _ 24); lia|apply (R _ 24); lia|apply (R _ 16); lia].
  by rewrite value_fields.
Qed.

(** The overflow test of [parse_number] does not detect every overflow: a
    block height of [99999999], which needs more than 24 bits, is accepted
    and read as [16113919], so that two different channels get one id. *)
Theorem scid_overflow_undetected :
  valid_string (lit "99999999x1x1") = true /\
  of_string (lit "99999999x1x1") = of_string (lit "16113919x1x1").
Proof. vm_compute. done. Qed.

Lemma scid_roundtrip_witness : of_string (lit "654321x17x3") = Some 719433547799134211.
Proof.
  change (lit "654321x17x3") with (to_string 719433547799134211).
  apply (scid_roundtrip 719433547799134211). vm_compute. done.
Defined.

End Scid.

(** ** Node ids

    [pimpl] is a shared pointer to 33 bytes or null; it is an option here.
    Two handles that share the pointer hold the same bytes, so the pointer
    comparison that precedes each byte comparison is [eq_shared]. *)

Module NodeId.

Abbreviation t := (option bytes).

Definition all_zeros (s : bytes) : bool := forallb (fun c => c =? chr "0") s.

Definition valid_string (s : bytes) : bool :=
  if negb (length s =? 66)%nat then false
  else if negb (Str.ishex s) then false
  else if negb (nth 0 s 0 =? chr "0") then false
  else if negb (nth 1 s 0 =? chr "2") && negb (nth 1 s 0 =? chr "3") && negb (all_zeros s)
       then false
  else true.

(** The constructor from a string: the outer [None] is the exception. *)
Definition of_string (s : bytes) : option t :=
  if negb (valid_string s) then None
  else if all_zeros s then Some None
  else match Str.hexread s with
       | Some val => Some (Some val)
       | None => None
       end.

Definition to_string (n : t) : bytes :=
  match n with
  | None => lit "000000000000000000000000000000000000000000000000000000000000000000"
  | Some raw => Str.hexdump raw
  end.

(** [memcmp] on two buffers of one length. *)
Fixpoint memcmp (a b : bytes) : comparison :=
  match a, b with
  | x :: a', y :: b' => match x ?= y with Eq => memcmp a' b' | r => r end
  | _, _ => Eq
  end.

(** Both handles null, or one pointer shared by both: the bytes agree. *)
Definition eq_shared (a o : t) : bool := bool_decide (a = o).

Definition equality_check (a o : t) : bool :=
  match a, o with
  | Some p, Some q => match memcmp p q with Eq => true | _ => false end
  | _, _ => false
  end.
Definition eq (a o : t) : bool := if eq_shared a o then true else equality_check a o.

Definition less_check (a o : t) : bool :=
  match a, o with
  | None, Some _ => true
  | Some _, None => false
  | Some p, Some q => match memcmp p q with Lt => true | _ => false end
  | None, None => false
  end.
Definition lt (a o : t) : bool := if eq_shared a o then false else less_check a o.
Definition gt (a o : t) : bool := lt o a.
Definition le (a o : t) : bool := negb (gt a o).
Definition ge (a o : t) : bool := le o a.

(** The ids the program builds: null, or a compressed public key. *)
Definition wf (n : t) : Prop :=
  match n with
  | None => True
  | Some raw => length raw = 33%nat /\ bytes_ok raw /\ (head raw = Some 2 \/ head raw = Some 3)
  end.

(** Lemmas *)

Lemma memcmp_Eq a b : length a = length b -> memcmp a b = Eq <-> a = b.
Proof.
  revert b; induction a as [|x a IH]; intros [|y b]; simpl; try done.
  intros [= L]. destruct (Z.compare_spec x y) as [->|?|?]; [rewrite IH by done|..];
    split; try done; try congruence; intros [=]; lia.
Qed.

Lemma memcmp_antisym a b : memcmp b a = CompOpp (memcmp a b).
Proof.
  revert b; induction a as [|x a IH]; intros [|y b]; simpl; try done.
  rewrite (Z.compare_antisym x y). by destruct (x ?= y); simpl.
Qed.

Lemma memcmp_Lt_trans a b c :
  length a = length b -> length b = length c ->
  memcmp a b = Lt -> memcmp b c = Lt -> memcmp a c = Lt.
Proof.
  revert b c; induction a as [|x a IH]; intros [|y b] [|z c]; simpl; try done.
  intros [= L1] [= L2].
  destruct (Z.compare_spec x y) as [->|?|?], (Z.compare_spec y z) as [->|?|?]; try done.
  - eauto.
  - intros _ _. by rewrite (proj2 (Z.compare_lt_iff x z)).
  - intros _ _. by rewrite (proj2 (Z.compare_lt_iff x z)) by lia.
Qed.

Lemma eq_spec a b : wf a -> wf b -> eq a b = true <-> a = b.
Proof.
  intros Ha Hb. unfold eq, eq_shared. case_bool_decide as E; [done|].
  split; [|done]. destruct a as [p|], b as [q|]; simpl; try done.
  destruct Ha as [La _], Hb as [Lb _].
  destruct (memcmp p q) eqn:M; try done. apply memcmp_Eq in M; congruence.
Qed.

Lemma lt_spec a b :
  wf a -> wf b ->
  lt a b = true <->
  match a, b with
  | None, Some _ => True
  | Some p, Some q => memcmp p q = Lt
  | _, None => False
  end.
Proof.
  intros Ha Hb. unfold lt, eq_shared. case_bool_decide as E.
  - subst b. split; [done|]. destruct a as [p|]; [|done].
    intros M. destruct Ha as [L _]. by rewrite (proj2 (memcmp_Eq p p eq_refl)) in M.
  - destruct a as [p|], b as [q|]; simpl; try done. by destruct (memcmp p q).
Qed.

Lemma hexdump_all_zeros p :
  bytes_ok p -> all_zeros (Str.hexdump p) = true -> Forall (fun b => b = 0) p.
Proof.
  induction 1 as [|b p Hb _ IH]; simpl; [done|]. intros H. to_prop.
  constructor; [|auto].
  assert (0 <= b `div` 16 < 16) by (split; [apply Z.div_pos|apply Z.div_lt_upper_bound]; ulia).
  pose proof (Z.mod_pos_bound b 16). pose proof (Z.div_mod b 16).
  change (chr "0") with 48 in *. unfold Str.hexdigit in *.
  destruct (Z.ltb_spec (b `div` 16) 10), (Z.ltb_spec (b `mod` 16) 10); lia.
Qed.

Lemma valid_string_to_string raw :
  wf (Some raw) -> valid_string (Str.hexdump raw) = true /\ all_zeros (Str.hexdump raw) = false.
Proof.
  intros (L & Hb & Hh).
  assert (all_zeros (Str.hexdump raw) = false) as Z0.
  { apply not_true_iff_false. intros C. apply hexdump_all_zeros in C; [|done].
    destruct raw; [done|]. inversion C; subst. simpl in Hh. destruct Hh; congruence. }
  split; [|done]. unfold valid_string. rewrite Str.hexdump_length, L. simpl negb.
  assert (Str.ishex (Str.hexdump raw) = true) as ->.
  { apply Str.ishex_spec. split; [apply Str.hexdump_even|].
    pose proof (Str.hexread_loop_spec _ (Str.hexdump_even raw)) as S.
    rewrite Str.hexread_loop_hexdump in S by done. apply S. }
  rewrite Z0. destruct raw as [|b raw]; [done|].
  simpl in Hh. destruct Hh as [[= ->]|[= ->]]; reflexivity.
Qed.

(** Printing a node id and parsing the text gives the id back, for the null
    id and for every compressed public key. *)
Theorem nodeid_roundtrip n : wf n -> of_string (to_string n) = Some n.
Proof.
  destruct n as [raw|]; intros H; [|vm_compute; done].
  destruct (valid_string_to_string raw H) as [V Z0]. unfold of_string, to_string.
  rewrite V, Z0. simpl. unfold Str.hexread. rewrite Str.hexdump_even.
  by rewrite Str.hexread_loop_hexdump by apply H.
Qed.

(** [operator<] is a strict total order whose equivalence is [operator==],
    as [std::map] and [std::set] require of their keys. *)
Theorem nodeid_strict_total_order a b c :
  wf a -> wf b -> wf c ->
  lt a a = false /\ (lt a b = true -> lt b c = true -> lt a c = true) /\
  (eq a b = true <-> lt a b = false /\ lt b a = false).
Proof.
  intros Ha Hb Hc. split_and!.
  - unfold lt, eq_shared. by rewrite bool_decide_eq_true_2.
  - rewrite !lt_spec by done. destruct a as [p|], b as [q|], c as [r|]; try done.
    destruct Ha as [La _], Hb as [Lb _], Hc as [Lc _].
    apply memcmp_Lt_trans; congruence.
  - rewrite eq_spec by done. rewrite <- !not_true_iff_false, !lt_spec by done.
    destruct a as [p|], b as [q|]; [|naive_solver..].
    destruct Ha as [La _], Hb as [Lb _].
    rewrite (memcmp_antisym p q). pose proof (memcmp_Eq p q ltac:(congruence)) as M.
    destruct (memcmp p q); simpl; naive_solver.
Qed.

Definition example_id : t := Some (2 :: replicate 32 7).

Lemma example_id_wf : wf example_id.
Proof. split_and!; [done| |by left]. repeat constructor; vm_compute; done. Qed.

Lemma nodeid_roundtrip_witness : of_string (to_string example_id) = Some example_id.
Proof. apply (nodeid_roundtrip example_id), example_id_wf. Defined.

Lemma nodeid_strict_total_order_witness :
  wf example_id /\ lt None example_id = true /\ (eq None example_id = true <->
    lt None example_id = false /\ lt example_id None = false).
Proof.
  split_and!; [apply example_id_wf|vm_compute; done|].
  apply (nodeid_strict_total_order None example_id None);
    [done|apply example_id_wf|done].
Defined.

End NodeId.

(** ** Feature bits *)

Module FeatureBit.

Definition feature_bit (features_hex : bytes) (bit : Z) : bool :=
  match Str.hexread features_hex with
  | None => false
  | Some bs =>
      let byte_from_end := bit `div` 8 in
      if byte_from_end >=? Z.of_nat (length bs) then false
      else
        let b := nth (length bs - 1 - Z.to_nat byte_from_end) bs 0 in
        negb (Z.land (Z.shiftr b (bit `mod` 8)) 1 =? 0)
  end.

(** The number a big-endian byte string denotes. *)
Definition be_value (bs : bytes) : Z := foldl (fun acc b => acc * 256 + b) 0 bs.

Lemma be_value_snoc bs b : be_value (bs ++ [b]) = be_value bs * 256 + b.
Proof. unfold be_value. by rewrite foldl_app. Qed.

Lemma be_value_nonneg bs : bytes_ok bs -> 0 <= be_value bs.
Proof.
  induction bs as [|b bs IH] using rev_ind; intros H; [done|].
  apply Forall_app in H as [H Hb]. rewrite Forall_singleton in Hb.
  rewrite be_value_snoc. specialize (IH H). ulia.
Qed.

Lemma testbit_byte_add hi b n :
  is_u8 b -> 0 <= n ->
  Z.testbit (hi * 256 + b) n = if n <? 8 then Z.testbit b n else Z.testbit hi (n - 8).
Proof.
  intros Hb Hn. change 256 with (2 ^ 8).
  rewrite Z.add_comm, <- lor_shiftl_add, Z.lor_spec by ulia.
  destruct (Z.ltb_spec n 8).
  - rewrite Z.shiftl_spec_low by lia. apply orb_false_r.
  - rewrite Z.shiftl_spec by lia.
    destruct (Z.eq_dec b 0) as [->|]; [by rewrite Z.bits_0|].
    rewrite (Z.bits_above_log2 b n); [done|ulia|].
    apply Z.lt_le_trans with 8; [|done]. apply Z.log2_lt_pow2; ulia.
Qed.

Lemma land_1_testbit b k : 0 <= k -> negb (Z.land (Z.shiftr b k) 1 =? 0) = Z.testbit b k.
Proof.
  intros Hk. change 1 with (Z.ones 1). rewrite Z.land_ones by lia. change (2 ^ 1) with 2.
  rewrite Z.testbit_eqb, Z.shiftr_div_pow2 by lia.
  pose proof (Z.mod_pos_bound (b `div` 2 ^ k) 2).
  destruct (Z.eqb_spec ((b `div` 2 ^ k) `mod` 2) 0), (Z.eqb_spec ((b `div` 2 ^ k) `mod` 2) 1); lia.
Qed.

Lemma byte_from_end_testbit bs n :
  bytes_ok bs -> 0 <= n < 8 * Z.of_nat (length bs) ->
  Z.testbit (nth (length bs - 1 - Z.to_nat (n `div` 8)) bs 0) (n `mod` 8)
  = Z.testbit (be_value bs) n.
Proof.
  revert n; induction bs as [|b bs IH] using rev_ind; intros n H Hn; [simpl in Hn; lia|].
  apply Forall_app in H as [H Hb]. rewrite Forall_singleton in Hb.
  rewrite length_app in *; simpl length in *.
  rewrite be_value_snoc, testbit_byte_add by (done || lia).
  destruct (Z.ltb_spec n 8).
  - rewrite Z.div_small, Z.mod_small by lia.
    replace (length bs + 1 - 1 - Z.to_nat 0)%nat with (length bs) by lia.
    by rewrite app_nth2, Nat.sub_diag by lia.
  - rewrite <- IH by (done || lia).
    assert (n = (n - 8) + 1 * 8) as E by lia.
    assert (n `div` 8 = (n - 8) `div` 8 + 1) as D by (rewrite E at 1; by rewrite Z.div_add by lia).
    assert (n `mod` 8 = (n - 8) `mod` 8) as -> by (rewrite E at 1; by rewrite Z.mod_add by lia).
    assert (0 <= (n - 8) `div` 8 < Z.of_nat (length bs)).
    { split; [apply Z.div_pos; lia|apply Z.div_lt_upper_bound; lia]. }
    rewrite D. rewrite app_nth1 by lia. do 2 f_equal. lia.
Qed.

(** [feature_bit] reads the bit of that number in the big-endian integer
    the hexadecimal text denotes, and is false on text that is not
    hexadecimal. *)
Theorem feature_bit_testbit s bit :
  0 <= bit ->
  feature_bit s bit =
  match Str.hexread s with Some bs => Z.testbit (be_value bs) bit | None => false end.
Proof.
  intros Hbit. unfold feature_bit. destruct (Str.hexread s) as [bs|] eqn:E; [|done].
  assert (bytes_ok bs) as Hbs.
  { unfold Str.hexread in E. destruct (Z.eqb_spec (Z.of_nat (length s) `mod` 2) 0) as [M|]; [|done].
    pose proof (Str.hexread_loop_spec s M) as S. simpl in E. rewrite E in S. apply S. }
  destruct (bit `div` 8 >=? Z.of_nat (length bs)) eqn:G.
  - symmetry. rewrite Z.geb_leb in G. to_prop.
    assert (8 * Z.of_nat (length bs) <= bit).
    { pose proof (Z.div_mod bit 8). pose proof (Z.mod_pos_bound bit 8). lia. }
    clear E G. revert bit Hbit H. induction bs as [|b bs IH] using rev_ind; intros bit Hbit H.
    + apply Z.bits_0.
    + apply Forall_app in Hbs as [Hbs Hb]. rewrite Forall_singleton in Hb.
      rewrite length_app in H. simpl in H. rewrite be_value_snoc, testbit_byte_add by done.
      assert ((bit <? 8) = false) as -> by lia. apply IH; [done|lia..].
  - rewrite Z.geb_leb in G. to_prop. rewrite land_1_testbit by (apply Z.mod_pos_bound; lia).
    apply byte_from_end_testbit; [done|].
    pose proof (Z.div_mod bit 8). pose proof (Z.mod_pos_bound bit 8). lia.
Qed.

Lemma feature_bit_testbit_witness : feature_bit (lit "0200") 9 = true.
Proof. rewrite (feature_bit_testbit (lit "0200") 9 ltac:(lia)). vm_compute. reflexivity. Defined.

End FeatureBit.
