(* ===== verification/BtcCodec.v ===== *)
(** * Bitcoin serialization (src/Bitcoin: le, varint, TxId, TxIn, TxOut,
      WitnessField, Tx)

    An output stream is the byte string written so far, so [operator<<] is a
    function to byte strings.  An input stream is the bytes still unread, and
    [operator>>] is a reader: [None] stands for a stream that is no longer
    good, which every caller in the program turns into an exception. *)

From stdpp Require Import base list numbers strings sets.
From S2P Require Import Prelude UtilStr Double Amount.

Module Btc.

(** ** Readers *)

Definition reader (A : Type) : Type := bytes -> option (A * bytes).

Definition ret {A} (x : A) : reader A := fun st => Some (x, st).
Definition bind {A B} (m : reader A) (f : A -> reader B) : reader B :=
  fun st => match m st with Some (x, st') => f x st' | None => None end.
Definition failed {A} : reader A := fun _ => None.

Declare Scope reader_scope.
Delimit Scope reader_scope with reader.
Notation "'let!' x := m 'in' k" := (bind m (fun x => k))
  (at level 10, x name, m at level 100, k at level 200) : reader_scope.
#[local] Open Scope reader_scope.

(** [is.get(c)] *)
Definition get : reader Z :=
  fun st => match st with [] => None | c :: st' => Some (c, st') end.

(** A vector resized to [n] and filled element by element. *)
Fixpoint read_vec {A} (n : nat) (r : reader A) : reader (list A) :=
  match n with
  | O => ret []
  | S n' => let! x := r in let! l := read_vec n' r in ret (x :: l)
  end.

(** ** Little-endian integers (le.cpp) *)

(** The shift counts of an [n]-byte integer from bit [off] up: [shifts 4 0] is
    [[0; 8; 16; 24]]. *)
Fixpoint shifts (n : nat) (off : Z) : list Z :=
  match n with O => [] | S n' => off :: shifts n' (off + 8) end.

Definition put_shifts (ks : list Z) (v : Z) : bytes :=
  map (fun k => Z.land (Z.shiftr v k) 0xFF) ks.

Fixpoint lor_shifts (ks : list Z) (cs : bytes) : Z :=
  match ks, cs with
  | k :: ks', c :: cs' => Z.lor (Z.shiftl c k) (lor_shifts ks' cs')
  | _, _ => 0
  end.
Definition get_shifts (ks : list Z) : reader Z :=
  let! cs := read_vec (length ks) get in ret (lor_shifts ks cs).

Definition put_Le16 (v : Z) : bytes := put_shifts (shifts 2 0) v.
Definition get_Le16 : reader Z := get_shifts (shifts 2 0).
Definition put_Le32 (v : Z) : bytes := put_shifts (shifts 4 0) v.
Definition get_Le32 : reader Z := get_shifts (shifts 4 0).
Definition put_Le64 (v : Z) : bytes := put_shifts (shifts 8 0) v.
Definition get_Le64 : reader Z := get_shifts (shifts 8 0).
Definition put_LeAmount (a : Amount) : bytes := put_Le64 (Amount.to_sat a).
Definition get_LeAmount : reader Amount := let! sats := get_Le64 in ret (Amount.sat sats).

(** ** CompactSize (varint.cpp) *)

Definition put_VarInt (v : Z) : bytes :=
  if v <? 0xFD then [v]
  else if v <=? 0xFFFF then 0xFD :: put_shifts (shifts 2 0) v
  else if v <=? 0xFFFFFFFF then 0xFE :: put_shifts (shifts 4 0) v
  else 0xFF :: put_shifts (shifts 8 0) v.

Definition get_VarInt : reader Z :=
  let! t := get in
  if t <? 0xFD then ret t
  else if t =? 0xFD then get_shifts (shifts 2 0)
  else if t =? 0xFE then get_shifts (shifts 4 0)
  else get_shifts (shifts 8 0).

(** ** Transactions *)

(** A transaction id is its 32 bytes in display order; the stream carries them
    reversed. *)
Abbreviation TxId := bytes.
Definition put_TxId (id : TxId) : bytes := reverse id.
Definition get_TxId : reader TxId := let! h := read_vec 32 get in ret (reverse h).
(** The constructor from a hash swaps the bytes end for end. *)
Definition TxId_of_hash (h : bytes) : TxId := reverse h.

Abbreviation WitnessField := (list bytes).

Record TxIn := {
  prevTxid : TxId;
  prevOut : Z;
  scriptSig : bytes;
  nSequence : Z;
  witness : WitnessField
}.

Record TxOut := {
  amount : Amount;
  scriptPubKey : bytes
}.

Record Tx := {
  nVersion : Z;
  inputs : list TxIn;
  outputs : list TxOut;
  nLockTime : Z
}.

Definition put_bytes (b : bytes) : bytes := put_VarInt (Z.of_nat (length b)) ++ b.
Definition get_bytes : reader bytes :=
  let! len := get_VarInt in read_vec (Z.to_nat len) get.

Definition put_WitnessField (w : WitnessField) : bytes :=
  put_VarInt (Z.of_nat (length w)) ++ concat (map put_bytes w).
Definition get_WitnessField : reader WitnessField :=
  let! len := get_VarInt in read_vec (Z.to_nat len) get_bytes.

Definition put_TxIn (i : TxIn) : bytes :=
  put_TxId (prevTxid i) ++ put_Le32 (prevOut i) ++ put_bytes (scriptSig i)
    ++ put_Le32 (nSequence i).
Definition get_TxIn : reader TxIn :=
  let! id := get_TxId in
  let! out := get_Le32 in
  let! sig := get_bytes in
  let! seq := get_Le32 in
  ret {| prevTxid := id; prevOut := out; scriptSig := sig; nSequence := seq; witness := [] |}.

Definition put_TxOut (o : TxOut) : bytes :=
  put_LeAmount (amount o) ++ put_bytes (scriptPubKey o).
Definition get_TxOut : reader TxOut :=
  let! a := get_LeAmount in
  let! spk := get_bytes in
  ret {| amount := a; scriptPubKey := spk |}.

Definition is_segwit (v : Tx) : bool :=
  existsb (fun i => negb (bool_decide (witness i = []))) (inputs v).

Definition put_Tx (v : Tx) : bytes :=
  put_Le32 (nVersion v)
    ++ (if is_segwit v then [0x00; 0x01] else [])
    ++ put_VarInt (Z.of_nat (length (inputs v))) ++ concat (map put_TxIn (inputs v))
    ++ put_VarInt (Z.of_nat (length (outputs v))) ++ concat (map put_TxOut (outputs v))
    ++ (if is_segwit v then concat (map (fun i => put_WitnessField (witness i)) (inputs v)) else [])
    ++ put_Le32 (nLockTime v).

Definition set_witness (i : TxIn) (w : WitnessField) : TxIn :=
  {| prevTxid := prevTxid i; prevOut := prevOut i; scriptSig := scriptSig i;
     nSequence := nSequence i; witness := w |}.

(** The second pass over the inputs of a segwit transaction. *)
Fixpoint read_witnesses (st : list TxIn) : reader (list TxIn) :=
  match st with
  | [] => ret []
  | i :: st' =>
      let! w := get_WitnessField in
      let! r := read_witnesses st' in
      ret (set_witness i w :: r)
  end.

Definition get_Tx : reader Tx :=
  let! ver := get_Le32 in
  let! len0 := get_VarInt in
  let segwit := len0 =? 0 in
  let! len := (if segwit then
                 let! m := get in
                 if negb (m =? 0x01) then failed else get_VarInt
               else ret len0) in
  let! ins := read_vec (Z.to_nat len) get_TxIn in
  let! olen := get_VarInt in
  let! outs := read_vec (Z.to_nat olen) get_TxOut in
  let! ins' := (if segwit then read_witnesses ins
                else ret (map (fun i => set_witness i []) ins)) in
  let! lock := get_Le32 in
  ret {| nVersion := ver; inputs := ins'; outputs := outs; nLockTime := lock |}.

(** The constructor from hexadecimal text; [None] is an exception: text that
    is not hexadecimal, a stream that is not good, or bytes left over. *)
Definition Tx_of_string (s : bytes) : option Tx :=
  match Str.hexread s with
  | None => None
  | Some buf =>
      match get_Tx buf with
      | Some (tx, []) => Some tx
      | _ => None
      end
  end.

Definition Tx_to_string (v : Tx) : bytes := Str.hexdump (put_Tx v).

(** The serialization that [get_txid] hashes: the witnesses are stripped. *)
Definition strip_witnesses (v : Tx) : Tx :=
  {| nVersion := nVersion v; inputs := map (fun i => set_witness i []) (inputs v);
     outputs := outputs v; nLockTime := nLockTime v |}.

(** [get_txid]; the hash function is the vendored SHA-256. *)
Definition get_txid (sha256 : bytes -> bytes) (v : Tx) : TxId :=
  TxId_of_hash (sha256 (sha256 (put_Tx (strip_witnesses v)))).

(** ** The codec interface

    What every serializer of this file promises to the ones built from it:
    on well-formed values, reading what was written gives the value back and
    leaves the rest of the stream untouched. *)
Class Codec {A} (ok : A -> Prop) (put : A -> bytes) (rd : reader A) : Prop :=
  codec_law : forall x rest, ok x -> rd (put x ++ rest) = Some (x, rest).

Definition ok_bytes (b : bytes) : Prop := is_u64 (Z.of_nat (length b)).
Definition ok_WitnessField (w : WitnessField) : Prop :=
  is_u64 (Z.of_nat (length w)) /\ Forall ok_bytes w.
Definition ok_TxIn (i : TxIn) : Prop :=
  length (prevTxid i) = 32%nat /\ is_u32 (prevOut i) /\ ok_bytes (scriptSig i) /\
  is_u32 (nSequence i) /\ ok_WitnessField (witness i).
(** Amounts are carried in satoshis. *)
Definition ok_amount (a : Amount) : Prop := 0 <= a < 2 ^ 64 - 999 /\ a `mod` 1000 = 0.
Definition ok_TxOut (o : TxOut) : Prop := ok_amount (amount o) /\ ok_bytes (scriptPubKey o).
Definition ok_Tx (v : Tx) : Prop :=
  is_u32 (nVersion v) /\ is_u32 (nLockTime v) /\
  (inputs v <> [] /\ is_u64 (Z.of_nat (length (inputs v))) /\ Forall ok_TxIn (inputs v)) /\
  (is_u64 (Z.of_nat (length (outputs v))) /\ Forall ok_TxOut (outputs v)).

(** Writers with a codec are injective, also as prefixes of a longer text. *)
Lemma codec_app_inj {A} (ok : A -> Prop) put rd `{!Codec ok put rd} x y r1 r2 :
  ok x -> ok y -> put x ++ r1 = put y ++ r2 -> x = y /\ r1 = r2.
Proof.
  intros Hx Hy E. pose proof (codec_law x r1 Hx) as Ex. pose proof (codec_law y r2 Hy) as Ey.
  rewrite E, Ey in Ex. by simplify_eq.
Qed.

Lemma codec_concat_inj {A} (ok : A -> Prop) put rd `{!Codec ok put rd} l k :
  (forall x, put x <> []) -> Forall ok l -> Forall ok k ->
  concat (map put l) = concat (map put k) -> l = k.
Proof.
  intros Hne Hl. revert k. induction Hl as [|x l Hx _ IH]; intros k Hk E; destruct Hk as [|y k Hy Hk].
  - done.
  - simpl in E. destruct (put y) eqn:Ep; [by apply Hne in Ep|done].
  - simpl in E. destruct (put x) eqn:Ep; [by apply Hne in Ep|done].
  - simpl in E. apply (codec_app_inj ok put rd) in E as [-> E]; [|done|done]. f_equal. by apply IH.
Qed.

(** ** Vectors *)

Lemma read_vec_map {A B} (put : A -> bytes) (rd : reader B) (f : A -> B) l rest :
  (forall x, x ∈ l -> forall r, rd (put x ++ r) = Some (f x, r)) ->
  read_vec (length l) rd (concat (map put l) ++ rest) = Some (map f l, rest).
Proof.
  induction l as [|x l IH]; intros H; [done|]. simpl. unfold bind at 1.
  rewrite <- app_assoc, (H x) by set_solver. unfold bind. rewrite IH by set_solver. done.
Qed.

Lemma read_vec_codec {A} (ok : A -> Prop) put rd `{!Codec ok put rd} l rest :
  Forall ok l -> read_vec (length l) rd (concat (map put l) ++ rest) = Some (l, rest).
Proof.
  intros H. rewrite (read_vec_map put rd id); [by rewrite map_id|].
  intros x Hx r. apply codec_law. rewrite Forall_forall in H. auto.
Qed.

Lemma read_vec_get b rest : read_vec (length b) get (b ++ rest) = Some (b, rest).
Proof.
  induction b as [|c b IH]; [done|]. simpl. unfold bind. simpl. by rewrite IH.
Qed.

(** ** Integers *)

Lemma shifts_length n off : length (shifts n off) = n.
Proof. revert off; induction n; intros; simpl; congruence. Qed.

Lemma put_shifts_length ks v : length (put_shifts ks v) = length ks.
Proof. apply length_map. Qed.

Lemma put_shifts_ok ks v : bytes_ok (put_shifts ks v).
Proof.
  unfold put_shifts. apply Forall_forall. intros c Hc. apply list_elem_of_In, in_map_iff in Hc.
  destruct Hc as (k & <- & _). rewrite land_0xFF. apply Z.mod_pos_bound. lia.
Qed.

Lemma lor_put_shifts n off v :
  0 <= off -> 0 <= v ->
  lor_shifts (shifts n off) (put_shifts (shifts n off) v)
  = Z.shiftl (Z.shiftr v off `mod` 2 ^ (8 * Z.of_nat n)) off.
Proof.
  revert off; induction n as [|n IH]; intros off Ho Hv.
  - simpl. rewrite Z.mod_1_r. by rewrite Z.shiftl_0_l.
  - cbn [shifts put_shifts map lor_shifts].
    change (map (fun k => Z.land (Z.shiftr v k) 255)) with (fun ks => put_shifts ks v). simpl.
    rewrite IH by lia. rewrite land_0xFF.
    assert (Z.shiftr v (off + 8) = Z.shiftr v off `div` 2 ^ 8) as ->
      by (rewrite <- Z.shiftr_shiftr, (Z.shiftr_div_pow2 _ 8) by lia; done).
    set (w := Z.shiftr v off).
    rewrite (Z.add_comm off 8), <- Z.shiftl_shiftl, <- Z.shiftl_lor by lia. f_equal.
    pose proof (Z.mod_pos_bound w 256).
    rewrite lor_shiftl_add by (change (2 ^ 8) with 256; lia).
    rewrite Nat2Z.inj_succ, Z.mul_succ_r, Z.add_comm, Z.pow_add_r by lia.
    change (2 ^ 8) with 256.
    rewrite (Z.mul_comm (2 ^ _) 256), Z.rem_mul_r by lia. lia.
Qed.

Lemma get_shifts_put n v rest :
  0 <= v < 2 ^ (8 * Z.of_nat n) ->
  get_shifts (shifts n 0) (put_shifts (shifts n 0) v ++ rest) = Some (v, rest).
Proof.
  intros Hv. unfold get_shifts, bind.
  rewrite <- (put_shifts_length _ v), read_vec_get. unfold ret.
  rewrite lor_put_shifts, Z.shiftr_0_r, Z.shiftl_0_r, Z.mod_small by lia. done.
Qed.

#[global] Instance codec_Le16 : Codec is_u16 put_Le16 get_Le16.
Proof. intros v rest Hv. by apply (get_shifts_put 2). Qed.
#[global] Instance codec_Le32 : Codec is_u32 put_Le32 get_Le32.
Proof. intros v rest Hv. by apply (get_shifts_put 4). Qed.
#[global] Instance codec_Le64 : Codec is_u64 put_Le64 get_Le64.
Proof. intros v rest Hv. by apply (get_shifts_put 8). Qed.

#[global] Instance codec_LeAmount : Codec ok_amount put_LeAmount get_LeAmount.
Proof.
  intros a rest [Ha Hm]. unfold put_LeAmount, get_LeAmount, bind.
  assert (Amount.to_sat a = a `div` 1000) as E.
  { unfold Amount.to_sat. rewrite u64_id by ulia.
    pose proof (Z.div_mod a 1000). replace (a + 999) with (a `div` 1000 * 1000 + 999) by lia.
    rewrite Z.div_add_l by lia. apply Z.add_0_r. }
  assert (0 <= a `div` 1000 <= a).
  { split; [apply Z.div_pos; lia|]. apply Z.div_le_upper_bound; lia. }
  rewrite E, codec_law by ulia. unfold ret. do 2 f_equal.
  unfold Amount.sat. pose proof (Z.div_mod a 1000).
  replace (a `div` 1000 * 1000) with a by lia. rewrite u64_id; ulia.
Qed.

#[global] Instance codec_VarInt : Codec is_u64 put_VarInt get_VarInt.
Proof.
  intros v rest Hv. unfold put_VarInt, get_VarInt.
  destruct (Z.ltb_spec v 0xFD); [|destruct (Z.leb_spec v 0xFFFF); [|destruct (Z.leb_spec v 0xFFFFFFFF)]].
  - unfold bind. simpl. by rewrite (proj2 (Z.ltb_lt v 0xFD)).
  - apply (get_shifts_put 2). lia.
  - apply (get_shifts_put 4). lia.
  - apply (get_shifts_put 8). ulia.
Qed.

(** ** Structures *)

Ltac codec_step := unfold bind at 1; rewrite <- ?app_assoc, codec_law by (done || ulia).

#[global] Instance codec_bytes : Codec ok_bytes put_bytes get_bytes.
Proof.
  intros b rest Hb. unfold put_bytes, get_bytes. codec_step.
  rewrite Nat2Z.id. apply read_vec_get.
Qed.

#[global] Instance codec_WitnessField : Codec ok_WitnessField put_WitnessField get_WitnessField.
Proof.
  intros w rest [Hl Hw]. unfold put_WitnessField, get_WitnessField. codec_step.
  rewrite Nat2Z.id. by rewrite (read_vec_codec ok_bytes put_bytes get_bytes).
Qed.

#[global] Instance codec_TxOut : Codec ok_TxOut put_TxOut get_TxOut.
Proof.
  intros [a spk] rest [Ha Hs]. unfold put_TxOut, get_TxOut. codec_step. codec_step. done.
Qed.

Lemma get_TxId_put id rest :
  length id = 32%nat -> get_TxId (put_TxId id ++ rest) = Some (id, rest).
Proof.
  intros H. unfold get_TxId, put_TxId, bind. rewrite <- H, <- (length_reverse id), read_vec_get.
  unfold ret. by rewrite reverse_involutive.
Qed.

(** An input is read back without its witness. *)
Lemma get_TxIn_put i rest : ok_TxIn i -> get_TxIn (put_TxIn i ++ rest) = Some (set_witness i [], rest).
Proof.
  intros (H1 & H2 & H3 & H4 & _). unfold get_TxIn, put_TxIn. unfold bind at 1.
  rewrite <- !app_assoc, get_TxId_put by done. codec_step. codec_step. codec_step. done.
Qed.

Lemma read_witnesses_put ins rest :
  Forall ok_TxIn ins ->
  read_witnesses (map (fun i => set_witness i []) ins)
    (concat (map (fun i => put_WitnessField (witness i)) ins) ++ rest) = Some (ins, rest).
Proof.
  induction 1 as [|i ins Hi _ IH]; [done|]. simpl. rewrite <- app_assoc. unfold bind at 1.
  rewrite codec_law by apply Hi. unfold bind. rewrite IH. by destruct i.
Qed.

Lemma not_segwit_witness v :
  is_segwit v = false -> map (fun i => set_witness i []) (inputs v) = inputs v.
Proof.
  unfold is_segwit. induction (inputs v) as [|i ins IH]; [done|]. simpl.
  intros [Hi H]%orb_false_iff. rewrite IH by done. f_equal.
  apply negb_false_iff, bool_decide_eq_true in Hi. destruct i. simpl in *. by subst.
Qed.

Lemma set_witness_idem ins :
  map (fun i => set_witness i []) (map (fun i => set_witness i []) ins)
  = map (fun i => set_witness i []) ins.
Proof. induction ins as [|i ins IH]; simpl; [done|]. by rewrite IH. Qed.

(** The transaction codec; a transaction without inputs is excluded, because
    its input count of zero reads as the segwit marker. *)
Lemma get_Tx_put v rest : ok_Tx v -> get_Tx (put_Tx v ++ rest) = Some (v, rest).
Proof.
  intros (Hv & Hl & (Hne & Hni & Hi) & Hno & Ho). unfold get_Tx, put_Tx.
  assert (0 < length (inputs v))%nat by (destruct (inputs v); [done|simpl; lia]).
  rewrite <- !app_assoc. unfold bind at 1. rewrite codec_law by done.
  assert (forall rest, read_vec (length (inputs v)) get_TxIn (concat (map put_TxIn (inputs v)) ++ rest)
    = Some (map (fun i => set_witness i []) (inputs v), rest)) as Rin.
  { intros r. apply read_vec_map. intros i Hin r'. apply get_TxIn_put.
    rewrite Forall_forall in Hi. auto. }
  destruct (is_segwit v) eqn:Sg.
  - unfold bind at 1. change (get_VarInt ([0; 1] ++ ?r)) with (Some (0, 1 :: r)). cbv beta iota zeta.
    change (0 =? 0) with true. cbv iota. unfold bind at 1. unfold bind at 1.
    change (get (1 :: ?r)) with (Some (1, r)). cbv iota beta.
    change (negb (1 =? 1)) with false. cbv iota. rewrite codec_law by done.
    unfold bind at 1. rewrite Nat2Z.id, Rin. unfold bind at 1. rewrite codec_law by done.
    unfold bind at 1. rewrite Nat2Z.id, (read_vec_codec ok_TxOut put_TxOut get_TxOut) by done.
    unfold bind at 1. rewrite read_witnesses_put by done. codec_step. by destruct v.
  - rewrite !app_nil_l. unfold bind at 1. rewrite codec_law by done.
    assert ((Z.of_nat (length (inputs v)) =? 0) = false) as -> by lia.
    unfold bind at 1. unfold ret at 1.
    unfold bind at 1. rewrite Nat2Z.id, Rin. unfold bind at 1. rewrite codec_law by done.
    unfold bind at 1. rewrite Nat2Z.id, (read_vec_codec ok_TxOut put_TxOut get_TxOut) by done.
    unfold bind at 1. unfold ret at 1. codec_step.
    rewrite set_witness_idem, not_segwit_witness by done. by destruct v.
Qed.

#[global] Instance codec_Tx : Codec ok_Tx put_Tx get_Tx.
Proof. intros v rest. apply get_Tx_put. Qed.

(** ** The hexadecimal layer *)

Lemma put_VarInt_ok v : is_u64 v -> bytes_ok (put_VarInt v).
Proof.
  intros Hv. unfold put_VarInt.
  destruct (Z.ltb_spec v 0xFD); [repeat constructor; ulia|].
  repeat case_match; (constructor; [ulia|apply put_shifts_ok]).
Qed.

(** The bytes a well-formed transaction holds are bytes. *)
Definition bytes_Tx (v : Tx) : Prop :=
  Forall (fun i => bytes_ok (prevTxid i) /\ bytes_ok (scriptSig i) /\ Forall bytes_ok (witness i))
    (inputs v) /\
  Forall (fun o => bytes_ok (scriptPubKey o)) (outputs v).

Lemma put_bytes_ok b : ok_bytes b -> bytes_ok b -> bytes_ok (put_bytes b).
Proof. intros. apply Forall_app. split; [by apply put_VarInt_ok|done]. Qed.

Lemma concat_map_ok {A} (put : A -> bytes) l :
  Forall (fun x => bytes_ok (put x)) l -> bytes_ok (concat (map put l)).
Proof. induction 1; simpl; [done|]. by apply Forall_app. Qed.

Lemma put_WitnessField_ok w : ok_WitnessField w -> Forall bytes_ok w -> bytes_ok (put_WitnessField w).
Proof.
  intros [Hl Ho] Hb. apply Forall_app; split; [by apply put_VarInt_ok|]. apply concat_map_ok.
  apply Forall_forall. intros b Hin. rewrite Forall_forall in Ho, Hb. apply put_bytes_ok; auto.
Qed.

Lemma put_Tx_ok v : ok_Tx v -> bytes_Tx v -> bytes_ok (put_Tx v).
Proof.
  intros (_ & _ & (_ & Hni & Hi) & Hno & Ho) [Bi Bo].
  assert (bytes_ok (concat (map put_TxIn (inputs v)))).
  { apply concat_map_ok, Forall_forall. intros i Hin. rewrite Forall_forall in Hi, Bi.
    destruct (Hi i Hin) as (_ & _ & Hs & _), (Bi i Hin) as (? & ? & _).
    unfold put_TxIn. rewrite !Forall_app. split_and!; [by apply Forall_reverse|apply put_shifts_ok|
      by apply put_bytes_ok|apply put_shifts_ok]. }
  assert (bytes_ok (concat (map put_TxOut (outputs v)))).
  { apply concat_map_ok, Forall_forall. intros o Hin. rewrite Forall_forall in Ho, Bo.
    destruct (Ho o Hin) as [_ Hs]. apply Forall_app; split; [apply put_shifts_ok|].
    apply put_bytes_ok; auto. }
  assert (bytes_ok (concat (map (fun i => put_WitnessField (witness i)) (inputs v)))).
  { apply concat_map_ok, Forall_forall. intros i Hin. rewrite Forall_forall in Hi, Bi.
    apply put_WitnessField_ok; [by apply Hi|by apply Bi]. }
  unfold put_Tx. rewrite !Forall_app.
  split_and!; try apply put_shifts_ok; try (by apply put_VarInt_ok); try done.
  - destruct (is_segwit v); repeat constructor; ulia.
  - by destruct (is_segwit v).
Qed.

(** ** Properties *)

(** C35: a transaction survives serialization: reading the bytes that
    [operator<<] writes gives the transaction back and stops exactly at their
    end, for legacy and segwit transactions alike. *)
Theorem tx_stream_roundtrip v rest : ok_Tx v -> get_Tx (put_Tx v ++ rest) = Some (v, rest).
Proof. apply codec_law. Qed.

(** The constructor from a string inverts the conversion to a string: the
    hexadecimal text of a transaction parses to that transaction, with no
    bytes left over. *)
Theorem tx_string_roundtrip v :
  ok_Tx v -> bytes_Tx v -> Tx_of_string (Tx_to_string v) = Some v.
Proof.
  intros Ho Hb. unfold Tx_of_string, Tx_to_string, Str.hexread.
  rewrite Str.hexdump_even, Str.hexread_loop_hexdump by (by apply put_Tx_ok). simpl.
  rewrite <- (app_nil_r (put_Tx v)), get_Tx_put by done. done.
Qed.

(** A transaction id does not depend on the witnesses (no malleability
    through them), and it is the hash of the serialization of the transaction
    itself when there are no witnesses. *)
Theorem txid_ignores_witnesses sha256 v w :
  strip_witnesses v = strip_witnesses w ->
  get_txid sha256 v = get_txid sha256 w /\
  (is_segwit v = false -> get_txid sha256 v = reverse (sha256 (sha256 (put_Tx v)))).
Proof.
  intros E. unfold get_txid. rewrite E. split; [done|]. intros Sg. rewrite <- E.
  unfold strip_witnesses. rewrite not_segwit_witness by done. by destruct v.
Qed.

(** Every CompactSize integer is written in the shortest of the four
    forms and read back, whatever follows it. *)
Theorem varint_shortest_roundtrip v rest :
  is_u64 v ->
  get_VarInt (put_VarInt v ++ rest) = Some (v, rest) /\
  length (put_VarInt v) =
    (if v <? 0xFD then 1%nat else if v <? 2 ^ 16 then 3%nat else if v <? 2 ^ 32 then 5%nat else 9%nat).
Proof.
  intros Hv. split; [by apply codec_law|]. unfold put_VarInt.
  destruct (Z.ltb_spec v 0xFD); [done|].
  destruct (Z.leb_spec v 0xFFFF), (Z.ltb_spec v (2 ^ 16)); try lia; [done|].
  destruct (Z.leb_spec v 0xFFFFFFFF), (Z.ltb_spec v (2 ^ 32)); try lia; done.
Qed.

(** ** Witnesses *)

Definition sample_in (w : WitnessField) : TxIn :=
  {| prevTxid := replicate 32 9; prevOut := 1; scriptSig := []; nSequence := 0xFFFFFFFF; witness := w |}.
Definition sample_tx (w : WitnessField) : Tx :=
  {| nVersion := 2; inputs := [sample_in w; sample_in []];
     outputs := [{| amount := 5000; scriptPubKey := [0; 1; 7] |}]; nLockTime := 500000 |}.

Lemma sample_tx_ok : ok_Tx (sample_tx [[1; 2]; []]).
Proof. repeat (split || constructor); vm_compute; done. Qed.
Lemma sample_tx_bytes : bytes_Tx (sample_tx [[1; 2]; []]).
Proof. repeat (split || constructor); vm_compute; done. Qed.

Lemma tx_stream_roundtrip_witness :
  get_Tx (put_Tx (sample_tx [[1; 2]; []]) ++ [42]) = Some (sample_tx [[1; 2]; []], [42]).
Proof. apply (tx_stream_roundtrip _ [42]), sample_tx_ok. Defined.

Lemma tx_string_roundtrip_witness :
  Tx_of_string (Tx_to_string (sample_tx [[1; 2]; []])) = Some (sample_tx [[1; 2]; []]).
Proof. apply tx_string_roundtrip; [apply sample_tx_ok|apply sample_tx_bytes]. Defined.

Lemma txid_ignores_witnesses_witness :
  get_txid id (sample_tx [[1; 2]]) = get_txid id (sample_tx []).
Proof. apply (txid_ignores_witnesses id (sample_tx [[1; 2]]) (sample_tx [])). reflexivity. Defined.

Lemma varint_shortest_roundtrip_witness :
  get_VarInt (put_VarInt 70000 ++ [5]) = Some (70000, [5]).
Proof. apply (varint_shortest_roundtrip 70000 [5]). vm_compute. done. Defined.

(** A transaction with no inputs does not survive: its zero input count is
    taken for the segwit marker. *)
Example no_inputs_unreadable :
  get_Tx (put_Tx {| nVersion := 2; inputs := []; outputs := []; nLockTime := 0 |}) = None.
Proof. vm_compute. reflexivity. Qed.

End Btc.
