(* ===== verification/Bech32.v ===== *)
(** * Bech32 text, address scripts and DNS seeds (src/Util/Bech32.cpp,
      src/Util/Bech32.hpp, src/Bitcoin/addr_to_scriptPubKey.cpp,
      src/DnsSeed/Detail/decode_bech32_node.cpp,
      src/DnsSeed/Detail/parse_dig_srv.cpp) *)

From stdpp Require Import base list numbers strings sets.
From S2P Require Import Prelude UtilStr.

Module Bech32.

(** ** Util::Bech32 *)

Definition bech32_chars : bytes := lit "qpzry9x8gf2tvdw0s3jn54khce6mua7l".

Definition tolower (c : Z) : Z := if (65 <=? c) && (c <=? 90) then c + 32 else c.

Fixpoint index_of (c : Z) (l : bytes) (i : Z) : Z :=
  match l with
  | [] => -1
  | x :: l' => if x =? c then i else index_of c l' (i + 1)
  end.

Definition decode_char (c : Z) : Z := index_of (tolower c) bech32_chars 0.

Definition binary : list (list bool) :=
  [ [false; false; false; false; false]
  ; [false; false; false; false; true]
  ; [false; false; false; true; false]
  ; [false; false; false; true; true]
  ; [false; false; true; false; false]
  ; [false; false; true; false; true]
  ; [false; false; true; true; false]
  ; [false; false; true; true; true]
  ; [false; true; false; false; false]
  ; [false; true; false; false; true]
  ; [false; true; false; true; false]
  ; [false; true; false; true; true]
  ; [false; true; true; false; false]
  ; [false; true; true; false; true]
  ; [false; true; true; true; false]
  ; [false; true; true; true; true]
  ; [true; false; false; false; false]
  ; [true; false; false; false; true]
  ; [true; false; false; true; false]
  ; [true; false; false; true; true]
  ; [true; false; true; false; false]
  ; [true; false; true; false; true]
  ; [true; false; true; true; false]
  ; [true; false; true; true; true]
  ; [true; true; false; false; false]
  ; [true; true; false; false; true]
  ; [true; true; false; true; false]
  ; [true; true; false; true; true]
  ; [true; true; true; false; false]
  ; [true; true; true; false; true]
  ; [true; true; true; true; false]
  ; [true; true; true; true; true] ].

(** The loop that loads the data part. *)
Fixpoint load_data (s : bytes) : option (list bool) :=
  match s with
  | [] => Some []
  | c :: s' =>
      let val := decode_char c in
      if val <? 0 then None
      else match load_data s' with
           | Some d => Some (nth (Z.to_nat val) binary [] ++ d)
           | None => None
           end
  end.

(** [decode]: the human-readable part and the data bits; [None] is [false].
    The last [1] is the separator and the last six characters of the data
    part are the checksum, which is not verified. *)
Definition decode (bech32 : bytes) : option (bytes * list bool) :=
  match split_at_char (chr "1") (reverse bech32) with
  | None => None
  | Some (rdata, rhrp) =>
      let it := reverse rdata in
      if (length it <=? 6)%nat then None
      else
        match load_data (take (length it - 6) it) with
        | Some data => Some (map tolower (reverse rhrp), data)
        | None => None
        end
  end.

(** The padding loop: shift in zeros until the byte is full. *)
Fixpoint pad_byte (n : nat) (byte : Z) : Z :=
  match n with O => byte | S n' => pad_byte n' (u8 (Z.shiftl byte 1)) end.

(** [bitstream_to_bytes]: [bitctr] bits of [byte] are filled. *)
Fixpoint b2b_loop (bits : list bool) (bitctr : nat) (byte : Z) : bytes :=
  match bits with
  | [] => if (bitctr =? 0)%nat then [] else [pad_byte (8 - bitctr) byte]
  | b :: bits' =>
      let byte' := Z.lor (u8 (Z.shiftl byte 1)) (if b then 1 else 0) in
      if (S bitctr =? 8)%nat then byte' :: b2b_loop bits' 0 0
      else b2b_loop bits' (S bitctr) byte'
  end.
Definition bitstream_to_bytes (bits : list bool) : bytes := b2b_loop bits 0 0.

(** ** Bitcoin::addr_to_scriptPubKey; [None] is [UnknownAddrType] *)

Definition addr_to_scriptPubKey (addr : bytes) : option bytes :=
  match decode addr with
  | None => None
  | Some (hrp, data) =>
      if negb (bool_decide (hrp = lit "bc")) && negb (bool_decide (hrp = lit "tb"))
         && negb (bool_decide (hrp = lit "bcrt")) then None
      else if (length data <? 5)%nat then None
      else
        let segwit_version := Z.shiftr (nth 0 (bitstream_to_bytes (take 5 data)) 0) 3 in
        let size := Z.of_nat (length data) in
        let ok := ((segwit_version =? 0) && ((size =? 5 + 160) || (size =? 5 + 260)))
               || ((segwit_version =? 1) && (size =? 5 + 260))
               || ((2 <=? segwit_version) && (segwit_version <=? 16)) in
        if negb ok then None
        else
          let witness_program_size := (size - 5) / 8 in
          if negb ((2 <=? witness_program_size) && (witness_program_size <=? 40)) then None
          else
            let pad := drop (5 + 8 * Z.to_nat witness_program_size) data in
            if existsb (fun x => x) pad then None
            else if (5 <=? length pad)%nat then None
            else Some ((if segwit_version =? 0 then 0x00 else 0x50 + segwit_version)
                       :: witness_program_size
                       :: bitstream_to_bytes (take (8 * Z.to_nat witness_program_size) (drop 5 data)))
  end.

(** ** DnsSeed::Detail *)

(** [decode_bech32_node]; [None] is [std::runtime_error]. *)
Definition decode_bech32_node (s : bytes) : option bytes :=
  match decode s with
  | None => None
  | Some (_, bitstream) =>
      if negb (length bitstream =? 33 * 8 + 1)%nat then None
      else if nth 264 bitstream false then None
      else Some (bitstream_to_bytes (take 264 bitstream))
  end.

(** [split_by_char]; the fuel is the length of the text, of which every round
    consumes a character. *)
Fixpoint split_fuel (fuel : nat) (c : Z) (s : bytes) : list bytes :=
  match fuel, s with
  | O, _ | _, [] => []
  | S f, _ =>
      match split_at_char c s with
      | Some (a, b) => a :: split_fuel f c b
      | None => [s]
      end
  end.
Definition split_by_char (s : bytes) (c : Z) : list bytes := split_fuel (length s) c s.

Definition parse_port (s : bytes) : Z := ur_value (istream_uint 65535 s).

Record Record_ := { nodeid : bytes; port : Z; hostname : bytes }.

(** The text before the first dot. *)
Definition first_label (host : bytes) : bytes :=
  match split_at_char (chr ".") host with Some (a, _) => a | None => host end.

(** One line of the output of dig. *)
Definition parse_line (line : bytes) : option Record_ :=
  if bool_decide (line = []) then None
  else if nth 0 line 0 =? chr ";" then None
  else
    let normalized := map (fun c => if c =? 9 then 32 else c) line in
    let fields := filter (fun f => f <> []) (split_by_char normalized 32) in
    if (length fields <? 8)%nat then None
    else if negb (bool_decide (nth 3 fields [] = lit "SRV")) then None
    else
      let port_s := nth (length fields - 2) fields [] in
      let host := nth (length fields - 1) fields [] in
      match decode_bech32_node (first_label host) with
      | Some id => Some {| nodeid := Str.hexdump id; port := parse_port port_s; hostname := host |}
      | None => None
      end.

Definition parse_dig_srv (out : bytes) : list Record_ :=
  omap parse_line (split_by_char out 10).

(** ** Bits and bytes *)

(** The bits of a byte and of a 5-bit character, most significant first. *)
Definition byte_bits (b : Z) : list bool := map (Z.testbit b) [7; 6; 5; 4; 3; 2; 1; 0].
Definition char_bits (v : Z) : list bool := map (Z.testbit v) [4; 3; 2; 1; 0].

(** Eight bits make one byte, and the loop starts afresh. *)
Lemma b2b_loop_8 bits rest :
  length bits = 8%nat ->
  exists v, b2b_loop (bits ++ rest) 0 0 = v :: b2b_loop rest 0 0 /\
            byte_bits v = bits /\ is_u8 v.
Proof.
  intros H. do 8 (destruct bits as [|? bits]; [done|]). destruct bits; [|done].
  repeat match goal with b : bool |- _ => destruct b end;
    (eexists; split_and!; [reflexivity|reflexivity|vm_compute; done]).
Qed.

Lemma bitstream_to_bytes_spec n bits :
  length bits = (8 * n)%nat ->
  length (bitstream_to_bytes bits) = n /\ bytes_ok (bitstream_to_bytes bits) /\
  concat (map byte_bits (bitstream_to_bytes bits)) = bits.
Proof.
  unfold bitstream_to_bytes. revert bits; induction n as [|n IH]; intros bits H.
  - destruct bits; [|done]. simpl. split_and!; [done|constructor|done].
  - destruct (b2b_loop_8 (take 8 bits) (drop 8 bits)) as (v & E & Hv & Hu).
    { rewrite length_take. lia. }
    rewrite take_drop in E. rewrite E.
    destruct (IH (drop 8 bits)) as (L & B & C); [rewrite length_drop; lia|].
    cbn [length map concat]. split_and!; [congruence|by constructor|]. by rewrite C, Hv, take_drop.
Qed.

(** The version character: five bits, padded to a byte and shifted back. *)
Lemma version_bits bits :
  length bits = 5%nat ->
  let v := Z.shiftr (nth 0 (bitstream_to_bytes bits) 0) 3 in char_bits v = bits /\ 0 <= v < 32.
Proof.
  intros H. do 5 (destruct bits as [|? bits]; [done|]). destruct bits; [|done].
  repeat match goal with b : bool |- _ => destruct b end; vm_compute; split; split || done; done.
Qed.

Lemma no_true_replicate l : existsb (fun x : bool => x) l = false -> l = replicate (length l) false.
Proof. induction l as [|[] l IH]; simpl; intros H; [done|done|]. by rewrite <- IH. Qed.

Lemma decode_char_range c : decode_char c < 32.
Proof.
  unfold decode_char. assert (forall l i, index_of (tolower c) l i < i + Z.of_nat (length l) \/
    index_of (tolower c) l i = -1) as H.
  { induction l as [|x l IH]; intros i; simpl; [by right|].
    destruct (_ =? _); [left; lia|]. destruct (IH (i + 1)); [left; lia|by right]. }
  destruct (H bech32_chars 0) as [L| ->]; [|lia]. by change (0 + Z.of_nat (length bech32_chars)) with 32 in L.
Qed.

Lemma binary_row k : (k < 32)%nat -> length (nth k binary []) = 5%nat.
Proof. intros Hk. do 32 (destruct k as [|k]; [done|]). lia. Qed.

(** The data part is a whole number of 5-bit groups. *)
#[local] Opaque binary.
Lemma load_data_length s d : load_data s = Some d -> length d = (5 * length s)%nat.
Proof.
  revert d; induction s as [|c s IH]; intros d; cbn [load_data length]; [by intros [= <-]|]. cbv zeta.
  pose proof (decode_char_range c). destruct (Z.ltb_spec (decode_char c) 0); [done|].
  destruct (load_data s) as [d'|] eqn:E; [|done]. intros [= <-]. rewrite length_app, (IH d') by done.
  rewrite binary_row; lia.
Qed.
#[local] Transparent binary.

Lemma decode_bech32_node_length s id : decode_bech32_node s = Some id -> length id = 33%nat /\ bytes_ok id.
Proof.
  unfold decode_bech32_node. destruct (decode s) as [[hrp bits]|]; [|done].
  destruct (Nat.eqb_spec (length bits) (33 * 8 + 1)); [|done]. simpl negb. cbv iota.
  destruct (nth 264 bits false); [done|]. intros [= <-].
  destruct (bitstream_to_bytes_spec 33 (take 264 bits)) as (? & ? & _); [|done].
  rewrite length_take. lia.
Qed.

Lemma split_fuel_join fuel c s :
  (length s <= fuel)%nat -> Forall (fun f => c ∉ f) (split_fuel fuel c s).
Proof.
  revert s; induction fuel as [|f IH]; intros s H; simpl; [constructor|].
  destruct s as [|x s]; [constructor|].
  destruct (split_at_char c (x :: s)) as [[a b]|] eqn:E.
  - apply split_at_char_Some in E as E'. destruct E' as [Es Hn]. constructor; [done|].
    apply IH. apply (f_equal length) in Es. rewrite length_app in Es. simpl in *. lia.
  - constructor; [|constructor]. by apply split_at_char_None.
Qed.

Lemma addr_to_scriptPubKey_shape addr spk :
  addr_to_scriptPubKey addr = Some spk ->
  exists hrp data v prog pad,
    decode addr = Some (hrp, data) /\
    spk = (if v =? 0 then 0 else 0x50 + v) :: Z.of_nat (length prog) :: prog /\
    0 <= v <= 16 /\ (2 <= length prog <= 40)%nat /\ bytes_ok spk /\
    data = char_bits v ++ concat (map byte_bits prog) ++ replicate pad false /\ (pad < 5)%nat.
Proof.
  unfold addr_to_scriptPubKey. destruct (decode addr) as [[hrp data]|]; [|done].
  destruct (_ && _ && _); [done|]. destruct (Nat.ltb_spec (length data) 5); [done|].
  cbv zeta. destruct (version_bits (take 5 data)) as [Hv Hr]; [rewrite length_take; lia|].
  set (v := Z.shiftr _ 3) in *. set (n := Z.of_nat (length data)).
  destruct (negb _) eqn:Hok; [done|]. apply negb_false_iff in Hok.
  destruct (negb ((2 <=? (n - 5) / 8) && _)) eqn:Hw; [done|].
  apply negb_false_iff, andb_true_iff in Hw as [W1%Z.leb_le W2%Z.leb_le].
  set (w := (n - 5) / 8) in *. destruct (existsb _ _) eqn:Hp; [done|].
  apply no_true_replicate in Hp. destruct (Nat.leb_spec 5 (length (drop (5 + 8 * Z.to_nat w) data))); [done|].
  intros [= <-].
  assert (5 + 8 * Z.to_nat w <= length data)%nat as Hn.
  { pose proof (Z.mul_div_le (n - 5) 8). unfold w, n in *. lia. }
  destruct (bitstream_to_bytes_spec (Z.to_nat w) (take (8 * Z.to_nat w) (drop 5 data)))
    as (L & B & C); [rewrite length_take, length_drop; lia|].
  assert (v <= 16).
  { apply orb_true_iff in Hok as [[H1|H1]%orb_true_iff|H1]; to_prop; lia. }
  exists hrp, data, v, (bitstream_to_bytes (take (8 * Z.to_nat w) (drop 5 data))), (length (drop (5 + 8 * Z.to_nat w) data)).
  split_and!; try done; try lia.
  - rewrite L, Z2Nat.id by lia. done.
  - constructor; [destruct (v =? 0); ulia|]. constructor; [ulia|done].
  - rewrite C, Hv, <- Hp, <- (drop_drop data (8 * Z.to_nat w) 5), take_drop, take_drop. done.
Qed.

(** ** Properties *)

(** An accepted address yields a well-formed witness script: a version
    opcode, the push of the program, and a program of 2 to 40 bytes; and the
    script determines the data part of the address, so no two data parts of
    one length give one script. *)
Theorem addr_script_lossless addr spk :
  addr_to_scriptPubKey addr = Some spk ->
  exists hrp data v prog pad,
    decode addr = Some (hrp, data) /\
    spk = (if v =? 0 then 0 else 0x50 + v) :: Z.of_nat (length prog) :: prog /\
    0 <= v <= 16 /\ (2 <= length prog <= 40)%nat /\ bytes_ok spk /\
    data = char_bits v ++ concat (map byte_bits prog) ++ replicate pad false /\ (pad < 5)%nat.
Proof. apply addr_to_scriptPubKey_shape. Qed.

(** Every record that [parse_dig_srv] returns carries the hexadecimal text
    of a 33-byte node id and a 16-bit port. *)
Theorem parse_dig_srv_records out :
  Forall (fun r => length (nodeid r) = 66%nat /\ Str.ishex (nodeid r) = true /\ is_u16 (port r))
    (parse_dig_srv out).
Proof.
  unfold parse_dig_srv. apply Forall_forall. intros r Hr.
  apply list_elem_of_omap in Hr as (line & _ & Hl). unfold parse_line in Hl.
  destruct (bool_decide (line = [])); [done|]. destruct (_ =? _); [done|].
  destruct (Nat.ltb_spec (length (filter (fun f => f <> []) (split_by_char
    (map (fun c => if c =? 9 then 32 else c) line) 32))) 8); [done|].
  destruct (negb _); [done|].
  destruct (decode_bech32_node _) as [id|] eqn:E; [|done]. injection Hl as <-.
  apply decode_bech32_node_length in E as [L B]. simpl. split_and!.
  - rewrite Str.hexdump_length. lia.
  - apply Str.ishex_spec. split; [apply Str.hexdump_even|].
    pose proof (Str.hexread_loop_spec (Str.hexdump id) (Str.hexdump_even id)) as S.
    rewrite Str.hexread_loop_hexdump in S by done. apply S.
  - pose proof (istream_uint_range 65535 (nth (length (filter (fun f => f <> []) (split_by_char
      (map (fun c => if c =? 9 then 32 else c) line) 32)) - 2) (filter (fun f => f <> []) (split_by_char
      (map (fun c => if c =? 9 then 32 else c) line) 32)) [])).
    unfold parse_port, is_u16. lia.
Qed.

(** ** Witnesses *)

Definition sample_addr : bytes := lit "BC1QW508D6QEJXTDG4Y5R3ZARVARY0C5XW7KV8F3T4".

Definition sample_spk : bytes :=
  0x00 :: 0x14 :: [0x75; 0x1e; 0x76; 0xe8; 0x19; 0x91; 0x96; 0xd4; 0x54; 0x94; 0x1c; 0x45; 0xd1;
                   0xb3; 0xa3; 0x23; 0xf1; 0x43; 0x3b; 0xd6].

Lemma addr_script_lossless_witness :
  exists hrp data v prog pad,
    decode sample_addr = Some (hrp, data) /\
    sample_spk = (if v =? 0 then 0 else 0x50 + v) :: Z.of_nat (length prog) :: prog /\
    0 <= v <= 16 /\ (2 <= length prog <= 40)%nat /\ bytes_ok sample_spk /\
    data = char_bits v ++ concat (map byte_bits prog) ++ replicate pad false /\ (pad < 5)%nat.
Proof. apply (addr_script_lossless sample_addr sample_spk). vm_compute. reflexivity. Defined.

End Bech32.
