(* ===== verification/Jsmn.v ===== *)
(** * JSON text and the token view of JSON values

    [src/Jsmn/Detail/Str.cpp] (escaping), [src/Jsmn/Detail/DatumIdentifier.hpp]
    (framing of a stream of values), [src/Jsmn/Detail/Token.cpp] and
    [src/Jsmn/Object.cpp] (values as positions in an array of tokens).

    The jsmn tokenizer itself is third-party code; the layout of the token array
    it documents is the relation [repr] below, and the accessors of
    [Jsmn::Object] are shown to compute the accessors of the tree that the array
    lays out.  The other files use the tree. *)

From Stdlib Require Import QArith.
From stdpp Require Import base list numbers strings.
From S2P Require Import Prelude.
From S2P Require Import Double.
From S2P Require Import UtilStr.

Module Jsmn.

(** ** Outcomes

    [Undef] is a failed assertion or a read outside of a buffer. *)

Inductive exn := TypeError | HexParseFailure.

Inductive res (A : Type) :=
| Ok (a : A)
| Throw (e : exn)
| Undef.
Arguments Ok {A} a.
Arguments Throw {A} e.
Arguments Undef {A}.

Definition rbind {A B} (m : res A) (f : A -> res B) : res B :=
  match m with Ok a => f a | Throw e => Throw e | Undef => Undef end.
Definition rmap {A B} (f : A -> B) (m : res A) : res B := rbind m (fun a => Ok (f a)).

Declare Scope res_scope.
Delimit Scope res_scope with res.
Notation "'let*' x := m 'in' k" := (rbind m (fun x => k))
  (at level 10, x pattern, m at level 100, k at level 200) : res_scope.
#[local] Open Scope res_scope.

(** ** Escaping of strings *)

(** [std::hex << (unsigned int) v]: no leading zeros. *)
Definition hex_u32 (v : Z) : bytes :=
  let ds := map (fun k => Str.hexdigit (Z.land (Z.shiftr v (4 * k)) 15)) [7; 6; 5; 4; 3; 2; 1] in
  Str.drop_while (fun c => c =? 48) ds ++ [Str.hexdigit (Z.land v 15)].

Definition setw2 (s : bytes) : bytes := replicate (2 - length s) (chr "0") ++ s.

(** One round of the loop of [to_escaped]; [char] is signed. *)
Definition escape_char (c : Z) : bytes :=
  if c =? 34 then [92; 34]
  else if c =? 92 then [92; 92]
  else if c =? 8 then lit "\b"
  else if c =? 12 then lit "\f"
  else if c =? 10 then lit "\n"
  else if c =? 13 then lit "\r"
  else if c =? 9 then lit "\t"
  else if schar c <? 32 then lit "\u00" ++ setw2 (hex_u32 (u32 (schar c)))
  else [c].

Definition to_escaped (s : bytes) : bytes := concat (map escape_char s).

(** The code point is written with [os << c0], where [c0] is an [int] from the
    second branch on: its decimal digits. *)
Definition encode_cp (cp : Z) : bytes :=
  if cp <? 0x80 then [cp]
  else if cp <? 0x800 then
    dec (Z.lor (Z.land (Z.shiftr cp 6) (Z.shiftl 1 5 - 1)) 0xC0)
    ++ dec (Z.lor (Z.land cp (Z.shiftl 1 6 - 1)) 0x80)
  else
    dec (Z.lor (Z.land (Z.shiftr cp 12) (Z.shiftl 1 4 - 1)) 0xE0)
    ++ dec (Z.lor (Z.land (Z.shiftr cp 6) (Z.shiftl 1 6 - 1)) 0x80)
    ++ dec (Z.lor (Z.land cp (Z.shiftl 1 6 - 1)) 0x80).

Fixpoint from_escaped (s : bytes) : res bytes :=
  match s with
  | [] => Ok []
  | c :: s1 =>
      if negb (c =? 92) then rmap (app [c]) (from_escaped s1)
      else
        match s1 with
        | [] => Undef
        | e :: s2 =>
            if e =? 34 then rmap (app [34]) (from_escaped s2)
            else if e =? 92 then rmap (app [92]) (from_escaped s2)
            else if e =? chr "b" then rmap (app [8]) (from_escaped s2)
            else if e =? chr "f" then rmap (app [12]) (from_escaped s2)
            else if e =? chr "n" then rmap (app [10]) (from_escaped s2)
            else if e =? chr "r" then rmap (app [13]) (from_escaped s2)
            else if e =? chr "t" then rmap (app [9]) (from_escaped s2)
            else if e =? chr "u" then
              match s2 with
              | u0 :: u1 :: u2 :: u3 :: s3 =>
                  match Str.hexread [u0; u1; u2; u3] with
                  | Some [h0; h1] =>
                      rmap (app (encode_cp (Z.shiftl h0 8 + h1))) (from_escaped s3)
                  | Some _ => Undef
                  | None => Throw HexParseFailure
                  end
              | _ => Undef
              end
            else Undef
        end
  end.

(** ** Numbers

    [to_double] reads with the stream extraction of the C locale: the longest
    prefix of the shape of a floating literal, converted to the nearest double;
    0 when the prefix is not a complete literal, the largest finite double when
    it is out of range. *)

Definition max_double : Q := (inject_Z (2 ^ 53 - 1) * pow2 971)%Q.

Definition scale10 (m e : Z) : Q := (inject_Z m * Qpower (10 # 1) e)%Q.

Definition clamp_finite (neg : bool) (d : double) : double :=
  match d with
  | Inf _ => Fin (if neg then - max_double else max_double)%Q
  | _ => d
  end.

(** The exponent part: [None] when it is incomplete. *)
Definition read_exponent (s : bytes) : option Z :=
  match s with
  | c :: s' =>
      if (c =? chr "e") || (c =? chr "E") then
        let '(sg, ds) :=
          match s' with
          | d :: s'' => if d =? chr "-" then (-1, s'') else if d =? chr "+" then (1, s'') else (1, s')
          | [] => (1, s')
          end in
        let ds := fst (span_digits ds) in
        if bool_decide (ds = []) then None else Some (sg * digits_value ds)
      else Some 0
  | [] => Some 0
  end.

Definition to_double (s : bytes) : double :=
  let s := skip_ws s in
  let '(neg, s) :=
    match s with
    | c :: s' => if c =? chr "-" then (true, s') else if c =? chr "+" then (false, s') else (false, s)
    | [] => (false, s)
    end in
  let '(ip, s) := span_digits s in
  let '(fp, s) :=
    match s with
    | c :: s' => if c =? chr "." then span_digits s' else ([], s)
    | [] => ([], s)
    end in
  if bool_decide (ip ++ fp = []) then Fin 0
  else
    match read_exponent s with
    | None => Fin 0
    | Some e =>
        let q := scale10 (digits_value (ip ++ fp)) (e - Z.of_nat (length fp)) in
        clamp_finite neg (RN (if neg then - q else q)%Q)
    end.

(** ** Tokens

    A token pointer is the suffix of the token array that starts at it. *)

Inductive Type_ := Undefined | Object_ | Array_ | String_ | Primitive_.

#[global] Instance Type_eq_dec : EqDecision Type_.
Proof. solve_decision. Defined.

Record Token := { type : Type_; start : nat; end_ : nat; size : nat }.

Record ParseResult := { orig_string : bytes; tokens : list Token }.

Fixpoint times {A} (n : nat) (f : A -> option A) (x : A) : option A :=
  match n with
  | O => Some x
  | S n' => f x ≫= times n' f
  end.

(** [Token::next]; the fuel bounds the depth of the recursion, [None] is a read
    past the end of the array. *)
Fixpoint next (fuel : nat) (tokptr : list Token) : option (list Token) :=
  match fuel, tokptr with
  | S f, tok :: t => times (size tok) (next f) t
  | _, _ => None
  end.

(** ** [Jsmn::Object] *)

Record Impl := { parse_result : ParseResult; i_ : nat; i_end : nat }.

Definition Object := option Impl.

Definition of_opt {A} (o : option A) : res A := match o with Some a => Ok a | None => Undef end.

Definition fuel_of (pr : ParseResult) : nat := length (tokens pr).
Definition next_in (pr : ParseResult) (p : list Token) : res (list Token) :=
  of_opt (next (fuel_of pr) p).
Definition index_in (pr : ParseResult) (p : list Token) : nat := length (tokens pr) - length p.

Definition at_char (pr : ParseResult) (k : nat) : res Z :=
  if decide (k = length (orig_string pr)) then Ok 0 else of_opt (orig_string pr !! k).
Definition at_range (pr : ParseResult) (b e : nat) : res bytes :=
  if decide (b <= e /\ e <= length (orig_string pr))%nat
  then Ok (take (e - b) (drop b (orig_string pr))) else Undef.

(** The constructor of [Impl]. *)
Definition mk_Impl (pr : ParseResult) (i : nat) : res Impl :=
  match drop i (tokens pr) with
  | [] => Undef
  | tok :: p =>
      if decide (type tok = Array_) then
        let* e := of_opt (times (size tok) (next (fuel_of pr)) p) in
        Ok {| parse_result := pr; i_ := i; i_end := index_in pr e |}
      else Ok {| parse_result := pr; i_ := i; i_end := i + 1 |}
  end.

(** [&token()] and [token()]. *)
Definition tokptr (o : Impl) : list Token := drop (i_ o) (tokens (parse_result o)).
Definition token (o : Impl) : res Token := of_opt (head (tokptr o)).

Definition to_bool (o : Object) : res bool :=
  match o with
  | None => Ok false
  | Some p =>
      let* tok := token p in
      if decide (type tok <> Primitive_) then Throw TypeError
      else
        let* c := at_char (parse_result p) (start tok) in
        if (c =? chr "n") || (c =? chr "f") then Ok false
        else if c =? chr "t" then Ok true
        else Throw TypeError
  end.

Definition to_string (o : Object) : res bytes :=
  match o with
  | None => Throw TypeError
  | Some p =>
      let* tok := token p in
      if decide (type tok <> String_) then Throw TypeError
      else let* s := at_range (parse_result p) (start tok) (end_ tok) in from_escaped s
  end.

Definition to_number (o : Object) : res double :=
  match o with
  | None => Throw TypeError
  | Some p =>
      let* tok := token p in
      if decide (type tok <> Primitive_) then Throw TypeError
      else
        let* c := at_char (parse_result p) (start tok) in
        if (c =? chr "n") || (c =? chr "f") || (c =? chr "t") then Throw TypeError
        else let* s := at_range (parse_result p) (start tok) (end_ tok) in Ok (to_double s)
  end.

Definition direct_text (o : Object) : res bytes :=
  match o with
  | None => Ok (lit "null")
  | Some p => let* tok := token p in at_range (parse_result p) (start tok) (end_ tok)
  end.

Definition obj_size (o : Object) : res nat :=
  match o with
  | None => Throw TypeError
  | Some p =>
      let* tok := token p in
      match type tok with
      | Array_ | Object_ => Ok (size tok)
      | _ => Throw TypeError
      end
  end.

(** The key under the pointer. *)
Definition key_at (pr : ParseResult) (tok : Token) : res bytes :=
  let* ekey := at_range pr (start tok) (end_ tok) in from_escaped ekey.

(** The loop of [keys]. *)
Fixpoint keys_loop (pr : ParseResult) (n : nat) (p : list Token) : res (list bytes) :=
  match n with
  | O => Ok []
  | S n' =>
      match p with
      | [] => Undef
      | tok :: p1 =>
          let* key := key_at pr tok in
          let* p2 := next_in pr p1 in
          rmap (cons key) (keys_loop pr n' p2)
      end
  end.

(** The loop of [has] and of [operator[]]: the pointer to the value of the first
    member named [s]. *)
Fixpoint find_loop (pr : ParseResult) (s : bytes) (n : nat) (p : list Token)
    : res (option (list Token)) :=
  match n with
  | O => Ok None
  | S n' =>
      match p with
      | [] => Undef
      | tok :: p1 =>
          let* key := key_at pr tok in
          if decide (key = s) then Ok (Some p1)
          else let* p2 := next_in pr p1 in find_loop pr s n' p2
      end
  end.

Definition object_token (o : Object) : res (Impl * Token) :=
  match o with
  | None => Throw TypeError
  | Some p => let* tok := token p in
              if decide (type tok <> Object_) then Throw TypeError else Ok (p, tok)
  end.

Definition keys (o : Object) : res (list bytes) :=
  let* (p, tok) := object_token o in
  keys_loop (parse_result p) (size tok) (tail (tokptr p)).

Definition has (o : Object) (s : bytes) : res bool :=
  let* (p, tok) := object_token o in
  rmap (fun v => bool_decide (is_Some v))
    (find_loop (parse_result p) s (size tok) (tail (tokptr p))).

Definition index_key (o : Object) (s : bytes) : res Object :=
  let* (p, tok) := object_token o in
  let* v := find_loop (parse_result p) s (size tok) (tail (tokptr p)) in
  match v with
  | Some q => rmap Some (mk_Impl (parse_result p) (index_in (parse_result p) q))
  | None => Ok None
  end.

Definition index_nth (o : Object) (k : nat) : res Object :=
  match o with
  | None => Throw TypeError
  | Some p =>
      let* tok := token p in
      if decide (type tok <> Array_) then Throw TypeError
      else if decide (size tok <= k)%nat then Ok None
      else
        let* q := of_opt (times k (next (fuel_of (parse_result p))) (tail (tokptr p))) in
        rmap Some (mk_Impl (parse_result p) (index_in (parse_result p) q))
  end.

Definition has_type (o : Object) (t : Type_) : res bool :=
  match o with
  | None => Ok false
  | Some p => rmap (fun tok => bool_decide (type tok = t)) (token p)
  end.

Definition first_char (p : Impl) : res Z :=
  let* tok := token p in at_char (parse_result p) (start tok).

Definition is_null (o : Object) : res bool :=
  match o with
  | None => Ok true
  | Some p => let* prim := has_type o Primitive_ in
              if (prim : bool) then rmap (fun c => c =? chr "n") (first_char p) else Ok false
  end.
Definition is_boolean (o : Object) : res bool :=
  match o with
  | None => Ok false
  | Some p => let* c := first_char p in
              rmap (fun prim => prim && ((c =? chr "f") || (c =? chr "t"))) (has_type o Primitive_)
  end.
Definition is_string (o : Object) : res bool := has_type o String_.
Definition is_object (o : Object) : res bool := has_type o Object_.
Definition is_array (o : Object) : res bool := has_type o Array_.
Definition is_number (o : Object) : res bool :=
  match o with
  | None => Ok false
  | Some p => let* c := first_char p in
              rmap (fun prim => prim && (negb (c =? chr "t") && negb (c =? chr "f") && negb (c =? chr "n")))
                (has_type o Primitive_)
  end.

(** [begin], [end] and [Iterator::operator++]: the positions a range-based loop
    visits.  The fuel bounds the number of rounds. *)
Fixpoint iterate (fuel : nat) (pr : ParseResult) (i e : nat) : res (list Impl) :=
  if decide (i = e) then Ok []
  else
    match fuel with
    | O => Undef
    | S f =>
        let* o := mk_Impl pr i in
        let* n := next_in pr (drop i (tokens pr)) in
        rmap (cons o) (iterate f pr (i + (length (drop i (tokens pr)) - length n)) e)
    end.

Definition elements (o : Object) : res (list Impl) :=
  match o with
  | None => Throw TypeError
  | Some p => iterate (fuel_of (parse_result p)) (parse_result p) (i_ p + 1) (i_end p)
  end.

(** ** The tree of a JSON text *)

Inductive json :=
| JPrim (text : bytes)
| JStr (escaped : bytes)
| JArr (l : list json)
| JObj (l : list (bytes * json)).

Definition jto_bool (o : option json) : res bool :=
  match o with
  | None => Ok false
  | Some (JPrim (c :: _)) =>
      if (c =? chr "n") || (c =? chr "f") then Ok false
      else if c =? chr "t" then Ok true else Throw TypeError
  | _ => Throw TypeError
  end.
Definition jto_string (o : option json) : res bytes :=
  match o with Some (JStr e) => from_escaped e | _ => Throw TypeError end.
Definition jto_number (o : option json) : res double :=
  match o with
  | Some (JPrim (c :: t)) =>
      if (c =? chr "n") || (c =? chr "f") || (c =? chr "t") then Throw TypeError
      else Ok (to_double (c :: t))
  | _ => Throw TypeError
  end.
Definition jsize (o : option json) : res nat :=
  match o with
  | Some (JArr l) => Ok (length l)
  | Some (JObj l) => Ok (length l)
  | _ => Throw TypeError
  end.
Fixpoint jkeys_list (l : list (bytes * json)) : res (list bytes) :=
  match l with
  | [] => Ok []
  | (k, _) :: l' => let* key := from_escaped k in rmap (cons key) (jkeys_list l')
  end.
Fixpoint jfind (s : bytes) (l : list (bytes * json)) : res (option json) :=
  match l with
  | [] => Ok None
  | (k, v) :: l' =>
      let* key := from_escaped k in
      if decide (key = s) then Ok (Some v) else jfind s l'
  end.
Definition jkeys (o : option json) : res (list bytes) :=
  match o with Some (JObj l) => jkeys_list l | _ => Throw TypeError end.
Definition jhas (o : option json) (s : bytes) : res bool :=
  match o with
  | Some (JObj l) => rmap (fun v => bool_decide (is_Some v)) (jfind s l)
  | _ => Throw TypeError
  end.
Definition jindex_key (o : option json) (s : bytes) : res (option json) :=
  match o with Some (JObj l) => jfind s l | _ => Throw TypeError end.
Definition jindex_nth (o : option json) (k : nat) : res (option json) :=
  match o with Some (JArr l) => Ok (l !! k) | _ => Throw TypeError end.
Definition jelements (o : option json) : res (list json) :=
  match o with Some (JArr l) => Ok l | Some _ => Ok [] | None => Throw TypeError end.

(** The layout of the token array for a tree. *)
Definition span (s : bytes) (tok : Token) (text : bytes) : Prop :=
  (start tok <= end_ tok)%nat /\ (end_ tok <= length s)%nat
  /\ take (end_ tok - start tok) (drop (start tok) s) = text.

Inductive repr (s : bytes) : json -> list Token -> Prop :=
| repr_prim tok text :
    type tok = Primitive_ -> size tok = O -> span s tok text -> text <> [] ->
    repr s (JPrim text) [tok]
| repr_str tok esc :
    type tok = String_ -> size tok = O -> span s tok esc -> repr s (JStr esc) [tok]
| repr_array tok l ts :
    type tok = Array_ -> size tok = length l -> repr_arr s l ts -> repr s (JArr l) (tok :: ts)
| repr_object tok l ts :
    type tok = Object_ -> size tok = length l -> repr_obj s l ts -> repr s (JObj l) (tok :: ts)
with repr_arr (s : bytes) : list json -> list Token -> Prop :=
| repr_arr_nil : repr_arr s [] []
| repr_arr_cons v l tv tl : repr s v tv -> repr_arr s l tl -> repr_arr s (v :: l) (tv ++ tl)
with repr_obj (s : bytes) : list (bytes * json) -> list Token -> Prop :=
| repr_obj_nil : repr_obj s [] []
| repr_obj_cons k v l tok tv tl :
    type tok = String_ -> size tok = 1%nat -> span s tok k ->
    repr s v tv -> repr_obj s l tl -> repr_obj s ((k, v) :: l) (tok :: tv ++ tl).

Scheme repr_mut := Minimality for repr Sort Prop
with repr_arr_mut := Minimality for repr_arr Sort Prop
with repr_obj_mut := Minimality for repr_obj Sort Prop.
Combined Scheme repr_ind_all from repr_mut, repr_arr_mut, repr_obj_mut.

Definition represents (o : Object) (t : option json) : Prop :=
  match o, t with
  | None, None => True
  | Some p, Some t => exists ts rest,
      (i_ p <= length (tokens (parse_result p)))%nat
      /\ tokptr p = ts ++ rest /\ repr (orig_string (parse_result p)) t ts
      /\ i_end p = match t with JArr _ => (i_ p + length ts)%nat | _ => (i_ p + 1)%nat end
  | _, _ => False
  end.

(** ** [DatumIdentifier]: where a value of a character stream ends *)

Record Datum := { nested : Z; in_string : bool; in_string_backslash : bool; finished_datum : bool }.

Definition Datum_init : Datum :=
  {| nested := 0; in_string := false; in_string_backslash := false; finished_datum := true |}.

Definition is_ws (c : Z) : bool := (c =? 32) || (c =? 9) || (c =? 10) || (c =? 13) || (c =? 11).

Definition feed (d : Datum) (c : Z) : bool * Datum :=
  let finish n :=
    (n =? 0, {| nested := n; in_string := false; in_string_backslash := false; finished_datum := n =? 0 |}) in
  let silent n str bs fin :=
    (false, {| nested := n; in_string := str; in_string_backslash := bs; finished_datum := fin |}) in
  if in_string_backslash d then silent (nested d) (in_string d) false (finished_datum d)
  else if in_string d then
    if c =? 92 then silent (nested d) true true (finished_datum d)
    else if c =? 34 then finish (nested d)
    else silent (nested d) true false (finished_datum d)
  else if c =? 34 then silent (nested d) true false false
  else if (c =? chr "{") || (c =? chr "[") then silent (u32 (nested d + 1)) false false false
  else if (c =? chr "}") || (c =? chr "]") then
    finish (if negb (nested d =? 0) then nested d - 1 else nested d)
  else if is_ws c then
    if finished_datum d then silent (nested d) false false true else finish (nested d)
  else silent (nested d) false false false.

(** The scanning loop of [try_parse]: the characters up to the end of a datum,
    the rest, and the state of the identifier. *)
Fixpoint scan (d : Datum) (s : bytes) : option (bytes * bytes * Datum) :=
  match s with
  | [] => None
  | c :: s' =>
      let '(b, d') := feed d c in
      if (b : bool) then Some ([c], s', d')
      else match scan d' s' with
           | Some (x, rest, d'') => Some (c :: x, rest, d'')
           | None => None
           end
  end.

(** Texts of the leaves, and the compact text of a tree. *)
Fixpoint esc_ok (s : bytes) : bool :=
  match s with
  | [] => true
  | c :: s' =>
      if c =? 92 then match s' with [] => false | _ :: s'' => esc_ok s'' end
      else negb (c =? 34) && esc_ok s'
  end.

Definition plain (c : Z) : bool :=
  negb ((c =? 34) || (c =? chr "{") || (c =? chr "[") || (c =? chr "}") || (c =? chr "]") || is_ws c).

Fixpoint join (l : list bytes) : bytes :=
  match l with
  | [] => []
  | [x] => x
  | x :: l' => x ++ lit "," ++ join l'
  end.

Definition quoted (e : bytes) : bytes := [34] ++ e ++ [34].

Fixpoint render (t : json) : bytes :=
  match t with
  | JPrim text => text
  | JStr e => quoted e
  | JArr l => lit "[" ++ join (map render l) ++ lit "]"
  | JObj l => lit "{" ++ join (map (fun '(k, v) => quoted k ++ lit ":" ++ render v) l) ++ lit "}"
  end.

Fixpoint leaves_ok (t : json) : bool :=
  match t with
  | JPrim text => forallb plain text
  | JStr e => esc_ok e
  | JArr l => forallb leaves_ok l
  | JObj l => forallb (fun '(k, v) => esc_ok k && leaves_ok v) l
  end.

Fixpoint depth (t : json) : Z :=
  match t with
  | JPrim _ | JStr _ => 0
  | JArr l => 1 + foldr (fun v m => Z.max (depth v) m) 0 l
  | JObj l => 1 + foldr (fun '(_, v) m => Z.max (depth v) m) 0 l
  end.

(** Two outcomes of the same kind, with related values. *)
Inductive rel_res {A B} (R : A -> B -> Prop) : res A -> res B -> Prop :=
| rel_ok a b : R a b -> rel_res R (Ok a) (Ok b)
| rel_throw e : rel_res R (Throw e) (Throw e)
| rel_undef : rel_res R Undef Undef.

(** ** Lemmas: walking the token array *)

Lemma times_app {A} n m (f : A -> option A) x :
  times (n + m) f x = times n f x ≫= times m f.
Proof.
  revert x. induction n as [|n IH]; intros x; simpl; [done|].
  destruct (f x); simpl; [apply IH|done].
Qed.

Lemma next_repr_all s :
  (forall t ts, repr s t ts ->
     forall fuel rest, (length ts <= fuel)%nat -> next fuel (ts ++ rest) = Some rest)
  /\ (forall l ts, repr_arr s l ts ->
     forall fuel rest, (length ts <= fuel)%nat -> times (length l) (next fuel) (ts ++ rest) = Some rest)
  /\ (forall l ts, repr_obj s l ts ->
     forall fuel rest, (length ts <= fuel)%nat -> times (length l) (next fuel) (ts ++ rest) = Some rest).
Proof.
  apply repr_ind_all; simpl.
  - intros tok text _ Hsz _ _ [|f] rest Hl; [lia|]. simpl. by rewrite Hsz.
  - intros tok text _ Hsz _ [|f] rest Hl; [lia|]. simpl. by rewrite Hsz.
  - intros tok l ts _ Hsz _ IH [|f] rest Hl; [lia|]. simpl. rewrite Hsz. apply IH. lia.
  - intros tok l ts _ Hsz _ IH [|f] rest Hl; [lia|]. simpl. rewrite Hsz. apply IH. lia.
  - done.
  - intros v l tv tl _ IHv _ IHl fuel rest Hl. rewrite length_app in Hl.
    rewrite <- app_assoc, IHv by lia. simpl. apply IHl. lia.
  - done.
  - intros k v l tok tv tl _ Hsz _ _ IHv _ IHl [|f] rest Hl; [lia|].
    rewrite length_app in Hl. rewrite <- app_assoc.
    assert (next (S f) (tok :: tv ++ tl ++ rest) = Some (tl ++ rest)) as ->.
    { cbn [next]. rewrite Hsz. simpl. by rewrite IHv by lia. }
    cbn [mbind option_bind]. apply IHl. lia.
Qed.

Lemma next_repr s t ts fuel rest :
  repr s t ts -> (length ts <= fuel)%nat -> next fuel (ts ++ rest) = Some rest.
Proof. intros H. by apply (proj1 (next_repr_all s) t). Qed.

Lemma times_repr_arr s l ts fuel rest :
  repr_arr s l ts -> (length ts <= fuel)%nat -> times (length l) (next fuel) (ts ++ rest) = Some rest.
Proof. intros H. by apply (proj1 (proj2 (next_repr_all s)) l). Qed.

Lemma repr_nonempty s t ts : repr s t ts -> ts <> [].
Proof. by destruct 1. Qed.

Lemma repr_arr_lookup s l ts k v :
  repr_arr s l ts -> l !! k = Some v ->
  exists pre tv post, ts = pre ++ tv ++ post /\ repr s v tv /\ repr_arr s (take k l) pre.
Proof.
  intros H. revert k. induction H as [|w l tw tl Hw Hl IH]; intros [|k] Hk; try done.
  - simpl in Hk. simplify_eq. exists [], tw, tl. split_and!; [done|done|constructor].
  - destruct (IH k Hk) as (pre & tv & post & -> & Hv & Hpre).
    exists (tw ++ pre), tv, post. rewrite <- app_assoc. split_and!; [done|done|]. by constructor.
Qed.

Lemma drop_suffix {A} (l pre q : list A) : l = pre ++ q -> drop (length l - length q) l = q.
Proof.
  intros ->. rewrite length_app, drop_app_le by lia.
  rewrite drop_ge by lia. done.
Qed.

(** [mk_Impl] at a position where a tree is laid out. *)
Lemma mk_Impl_repr pr pre tv rest v :
  tokens pr = pre ++ tv ++ rest -> repr (orig_string pr) v tv ->
  exists p, mk_Impl pr (index_in pr (tv ++ rest)) = Ok p /\ represents (Some p) (Some v)
    /\ parse_result p = pr /\ i_ p = length pre.
Proof.
  intros Ht Hv. unfold mk_Impl, index_in.
  assert (length (tokens pr) = (length pre + length (tv ++ rest))%nat) as Hlen
    by (rewrite Ht; apply length_app).
  rewrite (drop_suffix _ pre) by done.
  replace (length (tokens pr) - length (tv ++ rest))%nat with (length pre) by lia.
  assert (drop (length pre) (tokens pr) = tv ++ rest) as Hd by (rewrite Ht; apply drop_app_length).
  destruct Hv as [tok text ? ? ? ?|tok esc ? ? ?|tok l ts Hty Hsz Hl|tok l ts Hty ? ?]; simpl;
    try (rewrite decide_False by congruence; eexists; split; [done|]; unfold represents, tokptr;
      cbn [i_ parse_result i_end]; split; [|done]; do 2 eexists; split_and!;
      [lia|exact Hd|by constructor|done]).
  rewrite decide_True by done.
  rewrite Hsz, (times_repr_arr _ _ _ _ _ Hl)
    by (unfold fuel_of; rewrite Ht, !length_app; simpl; lia).
  simpl. eexists; split; [done|]. unfold represents, tokptr; cbn [i_ parse_result i_end].
  split; [|done]. do 2 eexists; split_and!; [lia|exact Hd|by constructor|].
  unfold index_in. rewrite Ht, !length_app. simpl. lia.
Qed.

(** ** Lemmas: the accessors compute those of the tree *)

Lemma at_range_span pr tok txt :
  span (orig_string pr) tok txt -> at_range pr (start tok) (end_ tok) = Ok txt.
Proof. intros (? & ? & <-). unfold at_range. by rewrite decide_True. Qed.

Lemma at_char_span pr tok c t :
  span (orig_string pr) tok (c :: t) -> at_char pr (start tok) = Ok c.
Proof.
  intros (? & ? & H). unfold at_char.
  assert (start tok < end_ tok)%nat as Hlt.
  { destruct (decide (start tok = end_ tok)) as [E|]; [|lia]. by rewrite E, Nat.sub_diag in H. }
  rewrite decide_False by lia.
  assert (orig_string pr !! start tok = Some c) as ->; [|done].
  assert (take (end_ tok - start tok) (drop (start tok) (orig_string pr)) !! 0%nat = Some c) as E
    by (by rewrite H).
  rewrite lookup_take in E. rewrite decide_True in E by lia.
  by rewrite lookup_drop, Nat.add_0_r in E.
Qed.

Lemma key_at_span pr tok k : span (orig_string pr) tok k -> key_at pr tok = from_escaped k.
Proof. intros H. unfold key_at. by rewrite (at_range_span _ _ _ H). Qed.

Lemma next_in_repr pr t ts rest :
  repr (orig_string pr) t ts -> (length ts <= fuel_of pr)%nat -> next_in pr (ts ++ rest) = Ok rest.
Proof. intros H Hl. unfold next_in. by rewrite (next_repr _ _ _ _ _ H Hl). Qed.

Lemma keys_loop_repr pr l ts rest :
  repr_obj (orig_string pr) l ts -> (length ts <= fuel_of pr)%nat ->
  keys_loop pr (length l) (ts ++ rest) = jkeys_list l.
Proof.
  induction 1 as [|k v l tok tv tl _ _ Hk Hv _ IH]; intros Hlen; [done|].
  simpl in Hlen. rewrite length_app in Hlen. simpl.
  rewrite (key_at_span _ _ _ Hk), <- app_assoc.
  destruct (from_escaped k); simpl; [|done|done].
  rewrite (next_in_repr _ _ _ _ Hv) by lia. simpl. by rewrite IH by lia.
Qed.

Lemma find_loop_repr pr s l ts rest :
  repr_obj (orig_string pr) l ts -> (length ts <= fuel_of pr)%nat ->
  rel_res (fun q v => match q, v with
    | None, None => True
    | Some q, Some v => exists pre tv post,
        q = tv ++ post /\ ts ++ rest = pre ++ q /\ repr (orig_string pr) v tv
    | _, _ => False
    end) (find_loop pr s (length l) (ts ++ rest)) (jfind s l).
Proof.
  intros H. revert rest. induction H as [|k v l tok tv tl _ _ Hk Hv _ IH]; intros rest Hlen.
  { by constructor. }
  simpl in Hlen. rewrite length_app in Hlen. simpl.
  rewrite (key_at_span _ _ _ Hk), <- app_assoc.
  destruct (from_escaped k) as [key|e|]; simpl; [|constructor|constructor].
  case_decide.
  { constructor. exists [tok], tv, (tl ++ rest). done. }
  rewrite (next_in_repr _ _ _ _ Hv) by lia. simpl.
  destruct (IH rest ltac:(lia)) as [q v' Hq|e|]; constructor.
  destruct q, v'; try done. destruct Hq as (pre & tv' & post & -> & -> & Hr).
  exists (tok :: tv ++ pre), tv', post. split_and!; [done| |done]. simpl. by rewrite <- app_assoc.
Qed.

Lemma iterate_repr pr l ts fuel pre rest :
  repr_arr (orig_string pr) l ts -> tokens pr = pre ++ ts ++ rest -> (length ts <= fuel)%nat ->
  exists ps, iterate fuel pr (length pre) (length pre + length ts) = Ok ps
    /\ Forall2 (fun p v => represents (Some p) (Some v)) ps l.
Proof.
  intros H. revert fuel pre. induction H as [|v l tv tl Hv _ IH]; intros fuel pre Ht Hf.
  { exists []. simpl. rewrite Nat.add_0_r. destruct fuel; simpl; by rewrite decide_True. }
  rewrite <- app_assoc in Ht. rewrite length_app in Hf.
  pose proof (repr_nonempty _ _ _ Hv) as Hne.
  assert (0 < length tv)%nat as Hpos by (destruct tv; simpl; [done|lia]).
  destruct fuel as [|f]; [lia|]. simpl. rewrite decide_False by (rewrite length_app; lia).
  destruct (mk_Impl_repr pr pre tv (tl ++ rest) v Ht Hv) as (p & Hp & Hr & _).
  unfold index_in in Hp.
  assert (length (tokens pr) - length (tv ++ tl ++ rest) = length pre)%nat as Hi
    by (rewrite Ht, length_app; lia).
  rewrite Hi in Hp. rewrite Hp. simpl.
  assert (drop (length pre) (tokens pr) = tv ++ tl ++ rest) as -> by (rewrite Ht; apply drop_app_length).
  rewrite (next_in_repr _ _ _ _ Hv) by (unfold fuel_of; rewrite Ht, !length_app; lia).
  simpl. destruct (IH f (pre ++ tv)) as (ps & Hps & HF).
  { by rewrite <- app_assoc. }
  { lia. }
  rewrite !length_app in Hps. exists (p :: ps).
  replace (length pre + (length (tv ++ tl ++ rest) - length (tl ++ rest)))%nat
    with (length pre + length tv)%nat by (rewrite !length_app; lia).
  rewrite length_app, Nat.add_assoc, Hps. split; [done|]. by constructor.
Qed.

Lemma tokptr_split p ts rest :
  (i_ p <= length (tokens (parse_result p)))%nat -> tokptr p = ts ++ rest ->
  tokens (parse_result p) = take (i_ p) (tokens (parse_result p)) ++ ts ++ rest
  /\ length (take (i_ p) (tokens (parse_result p))) = i_ p.
Proof.
  intros Hi Ht. unfold tokptr in Ht. split; [by rewrite <- Ht, take_drop|].
  rewrite length_take. lia.
Qed.

Lemma tokptr_length p ts rest :
  tokptr p = ts ++ rest -> (length ts <= fuel_of (parse_result p))%nat.
Proof.
  intros Ht. apply (f_equal length) in Ht. unfold tokptr in Ht.
  rewrite length_drop, length_app in Ht. unfold fuel_of. lia.
Qed.

(** Unfold [represents] into its four layouts. *)
Ltac layout p Hrep :=
  destruct Hrep as (ts & rest & Hi & Ht & Hrep & Hend);
  destruct (tokptr_split p ts rest Hi Ht) as [Hsplit Hlen];
  pose proof (tokptr_length p ts rest Ht) as Hfuel;
  destruct Hrep as [tok text Hty Hsz Hspan Hne|tok esc Hty Hsz Hspan|tok l ts Hty Hsz Hl
    |tok l ts Hty Hsz Hl]; simpl in Ht;
  assert (token p = Ok tok) as Htok by (unfold token; by rewrite Ht).

Lemma scalars_refine o t :
  represents o t ->
  to_bool o = jto_bool t /\ to_string o = jto_string t /\ to_number o = jto_number t
  /\ obj_size o = jsize t.
Proof.
  destruct o as [p|], t as [t|]; try done. intros Hrep. layout p Hrep.
  - destruct text as [|c text]; [done|].
    pose proof (at_char_span _ _ _ _ Hspan) as Hc. pose proof (at_range_span _ _ _ Hspan) as Hr.
    unfold to_bool, to_string, to_number, obj_size. rewrite Htok. simpl.
    rewrite Hty, Hc, Hr. done.
  - pose proof (at_range_span _ _ _ Hspan) as Hr.
    unfold to_bool, to_string, to_number, obj_size. rewrite Htok. simpl. by rewrite Hty, Hr.
  - unfold to_bool, to_string, to_number, obj_size. rewrite Htok. simpl. by rewrite Hty, Hsz.
  - unfold to_bool, to_string, to_number, obj_size. rewrite Htok. simpl. by rewrite Hty, Hsz.
Qed.

Lemma object_token_other p tok :
  token p = Ok tok -> type tok <> Object_ -> object_token (Some p) = Throw TypeError.
Proof. intros H Hty. unfold object_token. rewrite H. simpl. by rewrite decide_True. Qed.

Lemma members_refine o t s :
  represents o t ->
  keys o = jkeys t /\ has o s = jhas t s
  /\ rel_res represents (index_key o s) (jindex_key t s).
Proof.
  destruct o as [p|], t as [t|]; try done; [|intros _; split_and!; [done..|constructor]].
  intros Hrep. layout p Hrep.
  1-3: unfold keys, has, index_key; rewrite (object_token_other _ _ Htok) by congruence;
    split_and!; [done..|constructor].
  simpl in Hfuel.
  assert (object_token (Some p) = Ok (p, tok)) as Ho
    by (unfold object_token; rewrite Htok; simpl; by rewrite decide_False by tauto).
  unfold keys, has, index_key. rewrite Ho. cbn [rbind]. rewrite Ht, Hsz. cbn [tail].
  rewrite (keys_loop_repr _ _ _ _ Hl) by lia. split; [done|]. cbn [jhas jindex_key].
  destruct (find_loop_repr (parse_result p) s l ts rest Hl) as [q v Hq|e|]; [lia| | |].
  2,3: split; [done|constructor].
  destruct q as [q|], v as [v|]; try done; [|split; [done|by constructor]].
  split; [done|]. destruct Hq as (pre & tv & post & -> & Heq & Hv).
  destruct (mk_Impl_repr (parse_result p) (take (i_ p) (tokens (parse_result p)) ++ [tok] ++ pre)
    tv post v) as (p' & Hp & Hr & _); [|done|].
  { rewrite Hsplit at 1. rewrite <- !app_assoc. simpl. by rewrite Heq. }
  cbn [rbind]. rewrite Hp. by constructor.
Qed.

Lemma array_refines o t k :
  represents o t ->
  rel_res represents (index_nth o k) (jindex_nth t k)
  /\ rel_res (Forall2 (fun p v => represents (Some p) (Some v))) (elements o) (jelements t).
Proof.
  destruct o as [p|], t as [t|]; try done; [|split; constructor].
  intros Hrep. layout p Hrep.
  1,2,4: unfold index_nth, elements; rewrite Htok, Hend; cbn [rbind];
    rewrite decide_True by congruence; split; [constructor|];
    destruct (fuel_of (parse_result p)); cbn [iterate]; rewrite decide_True by done; by repeat constructor.
  simpl in Hfuel. split.
  - unfold index_nth. rewrite Htok. cbn [rbind]. rewrite decide_False by tauto.
    rewrite Ht, Hsz. cbn [tail]. case_decide.
    { simpl. rewrite lookup_ge_None_2 by lia. by constructor. }
    destruct (lookup_lt_is_Some_2 l k) as [v Hv]; [lia|]. simpl. rewrite Hv.
    destruct (repr_arr_lookup _ _ _ _ _ Hl Hv) as (pre & tv & post & -> & Hv' & Hpre).
    pose proof (times_repr_arr _ _ _ (fuel_of (parse_result p)) (tv ++ post ++ rest) Hpre) as Htm.
    rewrite length_take_le in Htm by lia.
    simpl in Hsplit. rewrite <- !app_assoc in Hsplit |- *.
    rewrite Htm by (rewrite !length_app in Hfuel; lia). cbn [of_opt rbind].
    destruct (mk_Impl_repr (parse_result p) (take (i_ p) (tokens (parse_result p)) ++ [tok] ++ pre)
      tv (post ++ rest) v) as (p' & Hp & Hr & _); [|done|].
    { rewrite Hsplit at 1. by rewrite <- !app_assoc. }
    rewrite Hp. by constructor.
  - unfold elements. rewrite Hend.
    destruct (iterate_repr (parse_result p) l ts (fuel_of (parse_result p))
      (take (i_ p) (tokens (parse_result p)) ++ [tok]) rest Hl) as (ps & Hps & HF).
    { rewrite Hsplit at 1. by rewrite <- app_assoc. }
    { lia. }
    rewrite length_app, Hlen in Hps. simpl in Hps |- *.
    replace (i_ p + S (length ts))%nat with (i_ p + 1 + length ts)%nat by lia.
    rewrite Hps. by constructor.
Qed.

(** ** Lemmas: framing *)

Lemma json_nested_ind (P : json -> Prop) :
  (forall t, P (JPrim t)) -> (forall e, P (JStr e)) ->
  (forall l, Forall P l -> P (JArr l)) ->
  (forall l, Forall (fun kv : bytes * json => P kv.2) l -> P (JObj l)) -> forall t, P t.
Proof.
  intros Hp Hs Ha Ho. fix go 1. intros [t|e|l|l]; [apply Hp|apply Hs|apply Ha|apply Ho].
  - induction l; constructor; [apply go|done].
  - induction l as [|[k v] l IH]; constructor; [apply go|done].
Qed.

(** The identifier outside of a string, [n] levels deep. *)
Definition lvl (n : Z) (f : bool) : Datum :=
  {| nested := n; in_string := false; in_string_backslash := false; finished_datum := f |}.
Definition in_str (n : Z) (f : bool) : Datum :=
  {| nested := n; in_string := true; in_string_backslash := false; finished_datum := f |}.

(** Feed characters none of which ends a datum. *)
Fixpoint quiet (d : Datum) (s : bytes) : option Datum :=
  match s with
  | [] => Some d
  | c :: s' => let '(b, d') := feed d c in if (b : bool) then None else quiet d' s'
  end.

Definition silent_at (n : Z) (x : bytes) : Prop :=
  forall f, exists f', quiet (lvl n f) x = Some (lvl n f').

Lemma quiet_app d a b : quiet d (a ++ b) = quiet d a ≫= fun d' => quiet d' b.
Proof.
  revert d. induction a as [|c a IH]; intros d; [done|]. simpl.
  destruct (feed d c) as [[] d']; [done|]. apply IH.
Qed.

Lemma quiet_scan d d' a b :
  quiet d a = Some d' ->
  scan d (a ++ b) = (fun '(x, r, e) => (a ++ x, r, e)) <$> scan d' b.
Proof.
  revert d. induction a as [|c a IH]; intros d H; simpl in *.
  - simplify_eq. by destruct (scan d' b) as [[[? ?] ?]|].
  - destruct (feed d c) as [[] e]; [done|]. rewrite (IH _ H).
    by destruct (scan d' b) as [[[? ?] ?]|].
Qed.

Lemma silent_app n a b : silent_at n a -> silent_at n b -> silent_at n (a ++ b).
Proof.
  intros Ha Hb f. destruct (Ha f) as [f1 E1], (Hb f1) as [f2 E2]. exists f2.
  by rewrite quiet_app, E1.
Qed.

Lemma feed_plain n f c : plain c = true -> feed (lvl n f) c = (false, lvl n false).
Proof.
  unfold plain. intros H. apply negb_true_iff in H.
  repeat (apply orb_false_elim in H as [H ?]). unfold feed. simpl.
  repeat match goal with E : (c =? _) = false |- _ => rewrite E; clear E end.
  by match goal with E : is_ws c = false |- _ => rewrite E end.
Qed.

Lemma silent_plain n x : forallb plain x = true -> silent_at n x.
Proof.
  induction x as [|c x IH]; intros H f; [by exists f|].
  simpl in H. to_prop. simpl. rewrite feed_plain by done. by apply IH.
Qed.

Lemma quiet_esc n f e : esc_ok e = true -> quiet (in_str n f) e = Some (in_str n f).
Proof.
  induction e as [e IH] using (induction_ltof1 _ (@length Z)); intros H.
  destruct e as [|c e]; [done|]. simpl in H |- *. unfold feed. simpl.
  destruct (c =? 92) eqn:E.
  - destruct e as [|c' e]; [done|]. simpl. apply IH; [|done]. unfold ltof; simpl; lia.
  - to_prop. rewrite (proj2 (Z.eqb_neq c 34)) by done. apply IH; [|done]. unfold ltof; simpl; lia.
Qed.

Lemma silent_quoted n e : 0 < n -> esc_ok e = true -> silent_at n (quoted e).
Proof.
  intros Hn He f. exists false. unfold quoted. rewrite quiet_app. simpl.
  change {| nested := n; in_string := true; in_string_backslash := false; finished_datum := false |}
    with (in_str n false).
  rewrite quiet_app, quiet_esc by done. simpl. unfold feed. simpl.
  by rewrite (proj2 (Z.eqb_neq n 0)) by lia.
Qed.

Lemma silent_join n l : Forall (silent_at n) l -> silent_at n (join l).
Proof.
  induction 1 as [|x l Hx Hl IH]; [intros f; by exists f|].
  destruct l as [|y l]; [done|]. change (join (x :: y :: l)) with (x ++ lit "," ++ join (y :: l)).
  apply silent_app; [done|]. apply silent_app; [|done]. by apply silent_plain.
Qed.

Lemma silent_bracket n o c x :
  0 < n -> n + 1 < 2 ^ 32 -> (o = chr "[" /\ c = chr "]") \/ (o = chr "{" /\ c = chr "}") ->
  silent_at (n + 1) x -> silent_at n ([o] ++ x ++ [c]).
Proof.
  intros Hn Hb Hoc Hx f. exists false. destruct (Hx false) as [f1 E1].
  assert (quiet (lvl n f) [o] = Some (lvl (n + 1) false)) as Ho.
  { destruct Hoc as [[-> _]|[-> _]]; unfold quiet, feed; simpl; unfold u32, lvl;
      by rewrite Z.mod_small by lia. }
  assert (quiet (lvl (n + 1) f1) [c] = Some (lvl n false)) as Hc.
  { destruct Hoc as [[_ ->]|[_ ->]]; unfold quiet, feed; simpl;
      rewrite (proj2 (Z.eqb_neq (n + 1) 0)) by lia; simpl; rewrite (proj2 (Z.eqb_neq _ 0)) by lia;
      unfold lvl; do 2 f_equal; lia. }
  by rewrite quiet_app, Ho; simpl; rewrite quiet_app, E1.
Qed.

Lemma silent_render t : forall n,
  0 < n -> n + depth t < 2 ^ 32 -> leaves_ok t = true -> silent_at n (render t).
Proof.
  induction t as [t|e|l IH|l IH] using json_nested_ind; intros n Hn Hd Hok.
  - by apply silent_plain.
  - by apply silent_quoted.
  - simpl in Hd, Hok. apply (silent_bracket n (chr "[") (chr "]")); [done| |by left|].
    { assert (0 <= foldr (fun v m => Z.max (depth v) m) 0 l) by (clear; induction l; simpl; lia). lia. }
    apply silent_join. rewrite Forall_map.
    induction l as [|v l IHl]; [constructor|]. inversion_clear IH. simpl in *. to_prop.
    constructor; [|apply IHl; auto; lia]. apply H; [lia|lia|done].
  - simpl in Hd, Hok. apply (silent_bracket n (chr "{") (chr "}")); [done| |by right|].
    { assert (0 <= foldr (fun '(_, v) m => Z.max (depth v) m) 0 l)
        by (clear; induction l as [|[? ?] ? ?]; simpl; lia). lia. }
    apply silent_join. rewrite Forall_map.
    induction l as [|[k v] l IHl]; [constructor|]. inversion_clear IH. simpl in *. to_prop.
    constructor; [|apply IHl; auto; lia].
    change (silent_at (n + 1) (quoted k ++ lit ":" ++ render v)).
    apply silent_app; [apply silent_quoted; [lia|done]|].
    apply silent_app; [by apply silent_plain|].
    apply H; [lia|lia|done].
Qed.

Lemma scan_at_end d a c rest :
  quiet Datum_init a = Some d -> feed d c = (true, Datum_init) ->
  scan Datum_init (a ++ [c] ++ rest) = Some (a ++ [c], rest, Datum_init).
Proof. intros Ha Hc. rewrite (quiet_scan _ _ _ _ Ha). simpl. by rewrite Hc. Qed.

Lemma scan_bracket o c x rest :
  (o = chr "[" /\ c = chr "]") \/ (o = chr "{" /\ c = chr "}") -> silent_at 1 x ->
  scan Datum_init (([o] ++ x ++ [c]) ++ rest) = Some ([o] ++ x ++ [c], rest, Datum_init).
Proof.
  intros Hoc Hx. destruct (Hx false) as [f1 E1].
  replace (([o] ++ x ++ [c]) ++ rest) with (([o] ++ x) ++ [c] ++ rest) by (by rewrite <- !app_assoc).
  rewrite (scan_at_end (lvl 1 f1)).
  - by rewrite <- app_assoc.
  - rewrite quiet_app. by destruct Hoc as [[-> _]|[-> _]]; simpl; rewrite <- E1.
  - by destruct Hoc as [[_ ->]|[_ ->]].
Qed.

(** ** Lemmas: escaping *)

(** What a byte becomes when it is escaped and read back. *)
Definition reread (c : Z) : bytes :=
  if c <? 128 then [c] else lit "195191ffff" ++ Str.hexbyte c.

Lemma from_escaped_plain x rest :
  Forall (fun c => c <> 92) x -> from_escaped (x ++ rest) = rmap (app x) (from_escaped rest).
Proof.
  induction 1 as [|c x Hc Hx IH]; simpl.
  - by destruct (from_escaped rest).
  - rewrite (proj2 (Z.eqb_neq c 92)) by done. simpl. rewrite IH. by destruct (from_escaped rest).
Qed.

Lemma from_escaped_u a b c d h0 h1 rest :
  Str.hexread [a; b; c; d] = Some [h0; h1] ->
  from_escaped (92 :: chr "u" :: a :: b :: c :: d :: rest)
  = rmap (app (encode_cp (Z.shiftl h0 8 + h1))) (from_escaped rest).
Proof. intros H. cbn -[Str.hexread encode_cp Z.shiftl]. by rewrite H. Qed.

Lemma escape_low c rest :
  0 <= c < 32 ->
  from_escaped ((lit "\u00" ++ setw2 (hex_u32 (u32 (schar c)))) ++ rest)
  = rmap (app [c]) (from_escaped rest).
Proof.
  intros Hc.
  rewrite (seqZ_eq (fun c => setw2 (hex_u32 (u32 (schar c)))) Str.hexbyte 32) by done.
  assert (Str.hexread (lit "00" ++ Str.hexbyte c) = Some [0; c]) as Hh
    by (by apply (seqZ_eq (fun c => Str.hexread (lit "00" ++ Str.hexbyte c)) (fun c => Some [0; c]) 32)).
  unfold Str.hexbyte in *.
  change ((lit "\u00" ++ [?a; ?b]) ++ rest) with (92 :: chr "u" :: 48 :: 48 :: a :: b :: rest).
  rewrite (from_escaped_u _ _ _ _ _ _ _ Hh). unfold encode_cp.
  change (Z.shiftl 0 8 + c) with c. destruct (Z.ltb_spec c 0x80); [done|lia].
Qed.

Lemma escape_high c rest :
  128 <= c < 256 ->
  from_escaped ((lit "\u00" ++ setw2 (hex_u32 (u32 (schar c)))) ++ rest)
  = rmap (app (lit "195191ffff" ++ Str.hexbyte c)) (from_escaped rest).
Proof.
  intros Hc. replace c with (128 + (c - 128)) by lia. set (k := c - 128).
  assert (0 <= k < 128) as Hk by lia.
  rewrite (seqZ_eq (fun k => setw2 (hex_u32 (u32 (schar (128 + k)))))
    (fun k => lit "ffffff" ++ Str.hexbyte (128 + k)) 128) by done.
  assert (Forall (fun x => x <> 92) (lit "ffff" ++ Str.hexbyte (128 + k))) as Hp.
  { apply Forall_forall. intros x Hx Hbad.
    pose proof (seqZ_forallb (fun k => forallb (fun x => negb (x =? 92)) (lit "ffff" ++ Str.hexbyte (128 + k)))
      128 k eq_refl Hk) as E.
    cbv beta in E. rewrite forallb_forall in E. apply list_elem_of_In in Hx. specialize (E _ Hx).
    by rewrite Hbad in E. }
  set (h := Str.hexbyte (128 + k)) in *.
  change ((lit "\u00" ++ lit "ffffff" ++ h) ++ rest)
    with (92 :: chr "u" :: 48 :: 48 :: 102 :: 102 :: (lit "ffff" ++ h) ++ rest).
  rewrite (from_escaped_u _ _ _ _ 0 255) by reflexivity.
  rewrite from_escaped_plain by done.
  change (encode_cp (Z.shiftl 0 8 + 255)) with (lit "195191").
  by destruct (from_escaped rest).
Qed.

Lemma escape_char_reread c rest :
  is_u8 c -> from_escaped (escape_char c ++ rest) = rmap (app (reread c)) (from_escaped rest).
Proof.
  intros [Hc0 Hc1]. unfold escape_char, reread.
  assert (schar c <? 32 = (c <? 32) || (128 <=? c)) as ->.
  { unfold schar. split_ifs; apply eq_sym; rewrite ?orb_true_iff, ?orb_false_iff; lia. }
  destruct (Z.eqb_spec c 34) as [->|]; [reflexivity|].
  destruct (Z.eqb_spec c 92) as [->|]; [reflexivity|].
  destruct (Z.eqb_spec c 8) as [->|]; [reflexivity|].
  destruct (Z.eqb_spec c 12) as [->|]; [reflexivity|].
  destruct (Z.eqb_spec c 10) as [->|]; [reflexivity|].
  destruct (Z.eqb_spec c 13) as [->|]; [reflexivity|].
  destruct (Z.eqb_spec c 9) as [->|]; [reflexivity|].
  destruct (Z.ltb_spec c 128), (Z.leb_spec 128 c); try lia; rewrite ?orb_true_r, ?orb_false_r.
  - destruct (Z.ltb_spec c 32); [by apply escape_low|].
    rewrite from_escaped_plain; [done|]. by repeat constructor.
  - by apply escape_high.
Qed.

Lemma to_escaped_reread s :
  Forall is_u8 s -> from_escaped (to_escaped s) = Ok (concat (map reread s)).
Proof.
  induction 1 as [|c s Hc Hs IH]; [done|].
  unfold to_escaped in *. simpl. rewrite escape_char_reread by done. by rewrite IH.
Qed.

Lemma reread_length s : (length s <= length (concat (map reread s)))%nat.
Proof.
  induction s as [|c s IH]; simpl; [lia|]. rewrite length_app.
  unfold reread at 1. destruct (c <? 128); simpl; lia.
Qed.

(** ** Properties *)

(** C28: the accessors of [Jsmn::Object], which walk an array of tokens with
    [Token::next], compute the accessors of the JSON tree that the array lays
    out: conversions, sizes, keys, membership, lookup by key (the first member
    of that name) and by position, and the range-based loop; exceptions
    included, and without a read outside of the array or running out of fuel
    unless the tree itself has a malformed string. *)
Theorem object_refines_tree o t :
  represents o t ->
  to_bool o = jto_bool t /\ to_string o = jto_string t /\ to_number o = jto_number t
  /\ obj_size o = jsize t /\ keys o = jkeys t
  /\ (forall s, has o s = jhas t s)
  /\ (forall s, rel_res represents (index_key o s) (jindex_key t s))
  /\ (forall k, rel_res represents (index_nth o k) (jindex_nth t k))
  /\ rel_res (Forall2 (fun p v => represents (Some p) (Some v))) (elements o) (jelements t).
Proof.
  intros H. destruct (scalars_refine o t H) as (H1 & H2 & H3 & H4).
  pose proof (fun s => members_refine o t s H) as Hm. pose proof (fun k => array_refines o t k H) as Ha.
  split_and!; [done..|apply (Hm [])|intros s; apply (Hm s)|intros s; apply (Hm s)
    |intros k; apply (Ha k)|apply (Ha O)].
Qed.

(** The end of a JSON value in a stream of characters is found exactly: for an
    object, an array or a string, nested less than [2^32] levels, scanning its
    text stops at its last character, whatever follows, and the identifier is
    ready for the next value. *)
Theorem datum_framing t rest :
  match t with JPrim _ => False | _ => True end ->
  leaves_ok t = true -> 1 + depth t < 2 ^ 32 ->
  scan Datum_init (render t ++ rest) = Some (render t, rest, Datum_init).
Proof.
  intros Ht Hok Hd. destruct t as [t|e|l|l]; [done| | |].
  - simpl in Hok. unfold render, quoted.
    replace (([34] ++ e ++ [34]) ++ rest) with (([34] ++ e) ++ [34] ++ rest) by (by rewrite <- !app_assoc).
    rewrite (scan_at_end (in_str 0 false)).
    + by rewrite <- app_assoc.
    + rewrite quiet_app. simpl. by apply (quiet_esc 0 false).
    + done.
  - apply scan_bracket; [by left|]. pose proof (silent_join 1 (map render l)) as Hj. apply Hj.
    simpl in Hok, Hd. clear Ht Hj. rewrite Forall_map. induction l as [|v l IH]; [constructor|].
    simpl in *. to_prop. constructor; [apply silent_render; [lia|lia|done]|]. apply IH; [done|lia].
  - apply scan_bracket; [by right|]. apply silent_join. simpl in Hok, Hd. clear Ht.
    rewrite Forall_map. induction l as [|[k v] l IH]; [constructor|].
    simpl in Hok, Hd. to_prop. constructor; [|apply IH; [done|lia]].
    change (silent_at 1 (quoted k ++ lit ":" ++ render v)).
    apply silent_app; [by apply silent_quoted|]. apply silent_app; [by apply silent_plain|].
    apply silent_render; [lia|lia|done].
Qed.

(** Escaping a string and reading it back: a 7-bit character comes back as
    itself, a byte [c] of [0x80] or more as the twelve characters
    [195191ffffXX] where [XX] is [c] in hexadecimal; in particular an ASCII
    string survives and any other does not. *)
Theorem escape_reread s :
  Forall is_u8 s ->
  from_escaped (to_escaped s) = Ok (concat (map reread s))
  /\ (from_escaped (to_escaped s) = Ok s <-> Forall (fun c => c < 128) s).
Proof.
  intros Hs. rewrite to_escaped_reread by done. split; [done|].
  induction Hs as [|c s Hc Hs IH]; [done|]. pose proof (reread_length s) as Hge.
  simpl. unfold reread at 1. destruct (Z.ltb_spec c 128).
  - rewrite Forall_cons, <- IH by done. simpl. split; [intros [= E]|intros [_ [= E]]]; [|by rewrite E].
    by rewrite E.
  - split; [|intros F; inversion F; lia].
    intros E. apply (f_equal (fun r => match r with Ok x => length x | _ => O end)) in E.
    rewrite length_app in E. simpl in *. lia.
Qed.

(** Two texts that the tokenizer accepts and [from_escaped] does not read as
    JSON does: an escaped solidus fails an assertion, and a code point from
    [U+0080] on is written as decimal digits instead of its UTF-8 bytes. *)
Theorem from_escaped_defects :
  from_escaped (lit "\/") = Undef /\ from_escaped (lit "\u00e9") = Ok (lit "195169").
Proof. by split. Qed.

(** ** Witnesses *)

(** The text [{"a":[1,"b"]}] and its tokens. *)
Definition sample_pr : ParseResult :=
  {| orig_string := [123; 34; 97; 34; 58; 91; 49; 44; 34; 98; 34; 93; 125];
     tokens := [ {| type := Object_; start := 0; end_ := 13; size := 1 |};
                 {| type := String_; start := 2; end_ := 3; size := 1 |};
                 {| type := Array_; start := 5; end_ := 12; size := 2 |};
                 {| type := Primitive_; start := 6; end_ := 7; size := 0 |};
                 {| type := String_; start := 9; end_ := 10; size := 0 |} ] |}.
Definition sample_tree : json := JObj [(lit "a", JArr [JPrim (lit "1"); JStr (lit "b")])].

Lemma sample_represents :
  represents (Some {| parse_result := sample_pr; i_ := 0; i_end := 1 |}) (Some sample_tree).
Proof.
  exists (tokens sample_pr), []. split_and!; [simpl; lia|done| |done].
  repeat (first [done | apply repr_object | apply repr_array
    | apply (repr_obj_cons _ _ _ _ _ [_; _; _] []) | apply (repr_arr_cons _ _ _ [_] [_])
    | apply (repr_arr_cons _ _ _ [_] []) | apply repr_arr_nil | apply repr_obj_nil
    | apply repr_prim | apply repr_str | split; simpl; [lia|split; [lia|done]] ]).
Qed.

Lemma object_refines_tree_witness :
  to_number None = jto_number None
  /\ keys (Some {| parse_result := sample_pr; i_ := 0; i_end := 1 |}) = Ok [lit "a"].
Proof.
  split.
  - apply (object_refines_tree None None). exact I.
  - apply (object_refines_tree _ _ sample_represents).
Defined.

Lemma datum_framing_witness :
  scan Datum_init (render sample_tree ++ lit "[]") = Some (render sample_tree, lit "[]", Datum_init).
Proof. apply (datum_framing sample_tree (lit "[]")); vm_compute; reflexivity || exact I. Defined.

Lemma escape_reread_witness : from_escaped (to_escaped [34; 10; 1; 200]) = Ok [34; 10; 1; 49; 57; 53; 49; 57; 49; 102; 102; 102; 102; 99; 56].
Proof. apply (escape_reread [34; 10; 1; 200]). repeat constructor; vm_compute; congruence. Defined.

End Jsmn.
