(* ===== verification/BoltzScript.v ===== *)
(** * Segwit signature hashes, swap lock scripts and the claim transaction

    [src/Bitcoin/sighash.cpp], [src/Bitcoin/hash160.cpp],
    [src/Boltz/Detail/match_lockscript.cpp], [find_lockup_outnum.cpp],
    [compute_preimage.cpp] and [initial_claim_tx.cpp].

    SHA-256, RIPEMD-160 and libsecp256k1 are not part of the repository's own
    code; they are parameters of the section. *)

From stdpp Require Import base list numbers strings.
From S2P Require Import Prelude.
From S2P Require Import Amount.
From S2P Require Import BtcCodec.
From S2P Require Import Bech32.
Import Amount Btc.

Module Boltz.

(** ** Signature hash flags *)

Definition SIGHASH_ALL : Z := 1.
Definition SIGHASH_NONE : Z := 2.
Definition SIGHASH_SINGLE : Z := 3.
Definition SIGHASH_ANYONECANPAY : Z := 0x80.

Definition zero_hash : bytes := replicate 32 0.

Section Crypto.

#[local] Set Default Proof Using "Type".

Context (sha256 ripemd160 : bytes -> bytes).
Context (valid_pubkey : bytes -> bool).

(** [Sha256::fun(std::move(hasher).finalize())]: the hash of a hash. *)
Definition hash256 (b : bytes) : bytes := sha256 (sha256 b).

Definition hash160 (b : bytes) : bytes := ripemd160 (sha256 b).

(** ** [sighash_core]: what is fed to the hasher; [None] is [InvalidSighash] *)

Definition put_outpoint (i : TxIn) : bytes := put_TxId (prevTxid i) ++ put_Le32 (prevOut i).

Definition valid_flags (flags : Z) : bool :=
  let loflags := Z.land flags 0x1F in
  let hiflags := Z.land flags 0xE0 in
  ((loflags =? SIGHASH_ALL) || (loflags =? SIGHASH_NONE) || (loflags =? SIGHASH_SINGLE))
  && ((hiflags =? 0) || (hiflags =? SIGHASH_ANYONECANPAY)).

Definition anyone_can_pay (flags : Z) : bool :=
  negb (Z.land (Z.land flags 0xE0) SIGHASH_ANYONECANPAY =? 0).
Definition lo_single (flags : Z) : bool := Z.land flags 0x1F =? SIGHASH_SINGLE.
Definition lo_none (flags : Z) : bool := Z.land flags 0x1F =? SIGHASH_NONE.

Definition hashPrevouts (tx : Tx) (flags : Z) : bytes :=
  if negb (anyone_can_pay flags) then hash256 (concat (map put_outpoint (inputs tx)))
  else zero_hash.

Definition hashSequence (tx : Tx) (flags : Z) : bytes :=
  if negb (anyone_can_pay flags) && negb (lo_single flags) && negb (lo_none flags)
  then hash256 (concat (map (fun i => put_Le32 (nSequence i)) (inputs tx)))
  else zero_hash.

Definition hashOutputs (tx : Tx) (flags : Z) (nIn : nat) : bytes :=
  if negb (lo_single flags) && negb (lo_none flags)
  then hash256 (concat (map put_TxOut (outputs tx)))
  else if lo_single flags then
    match outputs tx !! nIn with
    | Some o => hash256 (put_TxOut o)
    | None => zero_hash
    end
  else zero_hash.

Definition sighash_core (tx : Tx) (flags : Z) (nIn : nat) (amount : Amount) (scriptCode : bytes)
    : option bytes :=
  if negb (valid_flags flags) then None
  else
    match inputs tx !! nIn with
    | None => None
    | Some i =>
        Some (put_Le32 (nVersion tx)
              ++ hashPrevouts tx flags
              ++ hashSequence tx flags
              ++ put_outpoint i
              ++ scriptCode
              ++ put_LeAmount amount
              ++ put_Le32 (nSequence i)
              ++ hashOutputs tx flags nIn
              ++ put_Le32 (nLockTime tx)
              ++ put_Le32 (u32 flags))
    end.

Definition sighash (tx : Tx) (flags : Z) (nIn : nat) (amount : Amount) (scriptCode : bytes)
    : option bytes :=
  hash256 <$> sighash_core tx flags nIn amount scriptCode.

(** ** [match_lockscript] *)

(** [Reader::expect] and the loops of [Reader::get]. *)
Definition expect (v : Z) (s : bytes) : option bytes :=
  match s with c :: s' => if c =? v then Some s' else None | [] => None end.
Fixpoint expects (vs : bytes) (s : bytes) : option bytes :=
  match vs with [] => Some s | v :: vs' => expect v s ≫= expects vs' end.
Definition gets (n : nat) (s : bytes) : option (bytes * bytes) :=
  if decide (n <= length s)%nat then Some (take n s, drop n s) else None.

Definition locktime_of (b : bytes) : Z :=
  Z.lor (Z.lor (Z.shiftl (nth 0 b 0) 0) (Z.shiftl (nth 1 b 0) 8)) (Z.shiftl (nth 2 b 0) 16).

Record LockScript := {
  ls_hash : bytes;
  ls_pubkey_hash : bytes;
  ls_locktime : Z;
  ls_pubkey_locktime : bytes
}.

Definition match_lockscript (script : bytes) : option LockScript :=
  r ← expects [0x82; 0x01; 0x20; 0x87; 0x63; 0xa9; 0x14] script;
  '(hash, r) ← gets 20 r;
  r ← expects [0x88; 0x21] r;
  '(pk1, r) ← gets 33 r;
  if negb (valid_pubkey pk1) then None else
  r ← expects [0x67; 0x75; 0x03] r;
  '(lt, r) ← gets 3 r;
  r ← expects [0xb1; 0x75; 0x21] r;
  '(pk2, r) ← gets 33 r;
  if negb (valid_pubkey pk2) then None else
  r ← expects [0x68; 0xac] r;
  match r with
  | [] => Some {| ls_hash := hash; ls_pubkey_hash := pk1; ls_locktime := locktime_of lt;
                  ls_pubkey_locktime := pk2 |}
  | _ :: _ => None
  end.

(** ** [find_lockup_outnum] *)

Definition p2wsh (script : bytes) : bytes := [0x00; 0x20] ++ sha256 script.

Definition find_lockup_outnum (tx : Tx) (redeemScript : bytes) : Z :=
  match list_find (fun o => scriptPubKey o = p2wsh redeemScript) (outputs tx) with
  | Some (i, _) => Z.of_nat i
  | None => -1
  end.

(** ** [compute_preimage] and [initial_claim_tx]

    [sign] is [signer.get_signature_tweak] followed by [der_encode],
    [privkey_salted_hash] is [signer.get_privkey_salted_hash]. *)

Context (sign : bytes -> bytes -> bytes).
Context (privkey_salted_hash : bytes -> bytes).

Definition compute_preimage (base_preimage : bytes) : bytes := privkey_salted_hash base_preimage.

Definition get_nonwitness_weight (tx : Tx) : Z := u64 (Z.of_nat (length (put_Tx tx)) * 4).

Definition dust_limit : Amount := Amount.sat 547.

Definition op_return_script : bytes := [0x6a; 0x14] ++ replicate 20 0.

Definition single_tx (version locktime : Z) (i : TxIn) (o : TxOut) : Tx :=
  {| nVersion := version; inputs := [i]; outputs := [o]; nLockTime := locktime |}.

(** The transaction before its witnesses are known; [claim_tx] starts as a
    default-constructed transaction. *)
Definition claim_input (lockup_txid : bytes) (lockup_outnum : Z) (wit : WitnessField) : TxIn :=
  {| prevTxid := lockup_txid; prevOut := lockup_outnum; scriptSig := [];
     nSequence := 0xFFFFFFFF; witness := wit |}.

Definition initial_claim_tx (feerate_perkw blockheight : Z) (lockup_txid : bytes)
    (lockup_outnum : Z) (lockup_amount : Amount) (tweak preimage witnessScript : bytes)
    (output_addr : bytes) : option (Tx * Amount) :=
  spk ← Bech32.addr_to_scriptPubKey output_addr;
  let nLockTime := u32 (blockheight + 1) in
  let inp := claim_input lockup_txid lockup_outnum [[]; []; []] in
  let measured := single_tx 2 nLockTime inp {| amount := 0; scriptPubKey := spk |} in
  let nonwitness_weight := get_nonwitness_weight measured in
  let witness_weight := u64 (1 + 73 + 1 + 32 + 1 + Z.of_nat (length witnessScript) + 2) in
  let weight := u64 (nonwitness_weight + witness_weight + 12) in
  let fees := Amount.sat (u64 (weight * feerate_perkw) `div` 1000) in
  let '(fees, out) :=
    if Amount.gt (Amount.add fees dust_limit) lockup_amount
    then (lockup_amount, {| amount := Amount.sat 0; scriptPubKey := op_return_script |})
    else (fees, {| amount := Amount.sub lockup_amount fees; scriptPubKey := spk |}) in
  let scriptCode := u8 (Z.of_nat (length witnessScript)) :: witnessScript in
  hash ← sighash (single_tx 2 nLockTime inp out) SIGHASH_ALL 0 lockup_amount scriptCode;
  let wit := [sign tweak hash ++ [SIGHASH_ALL]; preimage; witnessScript] in
  Some (single_tx 2 nLockTime (claim_input lockup_txid lockup_outnum wit) out, fees).

(** ** Lemmas *)

Definition outpoint (i : TxIn) : bytes * Z := (prevTxid i, prevOut i).

Definition ok_outpoint (i : TxIn) : Prop := length (prevTxid i) = 32%nat /\ is_u32 (prevOut i).

Lemma put_Le32_length v : length (put_Le32 v) = 4%nat.
Proof. apply put_shifts_length. Qed.
Lemma put_LeAmount_length v : length (put_LeAmount v) = 8%nat.
Proof. apply put_shifts_length. Qed.
Lemma put_outpoint_length i : length (prevTxid i) = 32%nat -> length (put_outpoint i) = 36%nat.
Proof.
  intros H. unfold put_outpoint, put_TxId. by rewrite length_app, length_reverse, H, put_Le32_length.
Qed.

Lemma put_outpoint_inj i j r1 r2 :
  ok_outpoint i -> ok_outpoint j -> put_outpoint i ++ r1 = put_outpoint j ++ r2 ->
  outpoint i = outpoint j /\ r1 = r2.
Proof.
  intros [Li Ri] [Lj Rj] E. unfold put_outpoint, put_TxId in E. rewrite <- !app_assoc in E.
  apply app_inj_1 in E as [E1 E]; [|rewrite !length_reverse; congruence].
  apply (inj reverse) in E1. apply (codec_app_inj is_u32 put_Le32 get_Le32) in E as [E2 E]; [|done|done].
  unfold outpoint. by rewrite E1, E2.
Qed.

Lemma outpoints_inj l k :
  Forall ok_outpoint l -> Forall ok_outpoint k ->
  concat (map put_outpoint l) = concat (map put_outpoint k) -> map outpoint l = map outpoint k.
Proof.
  intros Hl. revert k. induction Hl as [|x l Hx _ IH]; intros k Hk E; destruct Hk as [|y k Hy Hk].
  - done.
  - apply (f_equal length) in E. simpl in E. rewrite length_app, put_outpoint_length in E by apply Hy.
    simpl in E. lia.
  - apply (f_equal length) in E. simpl in E. rewrite length_app, put_outpoint_length in E by apply Hx.
    simpl in E. lia.
  - simpl in *. apply put_outpoint_inj in E as [-> E]; [|done|done]. f_equal. by apply IH.
Qed.

Lemma sequences_inj l k :
  Forall (fun i => is_u32 (nSequence i)) l -> Forall (fun i => is_u32 (nSequence i)) k ->
  concat (map (fun i => put_Le32 (nSequence i)) l) = concat (map (fun i => put_Le32 (nSequence i)) k) ->
  map nSequence l = map nSequence k.
Proof.
  intros Hl Hk E. apply (codec_concat_inj is_u32 put_Le32 get_Le32).
  - intros x Hx. pose proof (put_Le32_length x) as Hn. by rewrite Hx in Hn.
  - by rewrite Forall_map.
  - by rewrite Forall_map.
  - by rewrite !map_map.
Qed.

(** Two inputs with the same hash are equal, or a collision of [sha256]. *)
Definition collision : Prop := exists x y, x <> y /\ sha256 x = sha256 y.

Lemma hash256_inj x y : hash256 x = hash256 y -> x = y \/ collision.
Proof.
  intros E. destruct (decide (x = y)) as [|N]; [by left|right].
  destruct (decide (sha256 x = sha256 y)) as [E1|N1].
  - by exists x, y.
  - by exists (sha256 x), (sha256 y).
Qed.

Lemma expects_spec vs s r : expects vs s = Some r <-> s = vs ++ r.
Proof.
  revert s. induction vs as [|v vs IH]; intros s; simpl.
  - split; [by intros [= ->]|by intros ->].
  - destruct s as [|c s]; simpl; [done|]. destruct (Z.eqb_spec c v) as [->|N]; simpl.
    + rewrite IH. split; [by intros ->|by intros [= ->]].
    + split; [done|]. by intros [= -> _].
Qed.

Lemma gets_spec n s x r : gets n s = Some (x, r) <-> s = x ++ r /\ length x = n.
Proof.
  unfold gets. case_decide.
  - split.
    + intros [= <- <-]. rewrite take_drop, length_take. split; [done|lia].
    + intros [-> <-]. by rewrite take_app_length, drop_app_length.
  - split; [done|]. intros [-> <-]. rewrite length_app in *. lia.
Qed.

(** What a signature with [SIGHASH_ALL] commits to. *)
Definition all_commitment (tx : Tx) (nIn : nat) (a : Amount) (scriptCode : bytes) :=
  (nVersion tx, nLockTime tx, map outpoint (inputs tx), map nSequence (inputs tx), outputs tx,
   (fun i => (outpoint i, nSequence i)) <$> inputs tx !! nIn, a, scriptCode).

Lemma put_outpoints_map l :
  map put_outpoint l = map (fun p => put_TxId p.1 ++ put_Le32 p.2) (map outpoint l).
Proof. by rewrite map_map. Qed.
Lemma put_sequences_map l :
  map (fun i => put_Le32 (nSequence i)) l = map put_Le32 (map nSequence l).
Proof. by rewrite map_map. Qed.

Lemma sighash_core_all tx n a sc :
  sighash_core tx SIGHASH_ALL n a sc =
  (fun i => put_Le32 (nVersion tx) ++ hash256 (concat (map put_outpoint (inputs tx)))
     ++ hash256 (concat (map (fun i => put_Le32 (nSequence i)) (inputs tx)))
     ++ put_outpoint i ++ sc ++ put_LeAmount a ++ put_Le32 (nSequence i)
     ++ hash256 (concat (map put_TxOut (outputs tx))) ++ put_Le32 (nLockTime tx) ++ put_Le32 1)
  <$> inputs tx !! n.
Proof. unfold sighash_core. simpl. by destruct (inputs tx !! n). Qed.

Lemma sighash_all_ext tx tx' n n' a a' sc sc' :
  all_commitment tx n a sc = all_commitment tx' n' a' sc' ->
  sighash tx SIGHASH_ALL n a sc = sighash tx' SIGHASH_ALL n' a' sc'.
Proof.
  unfold all_commitment. intros [= Ev Et Ep Es Eo Ei -> ->].
  unfold sighash. rewrite !sighash_core_all, !put_outpoints_map, !put_sequences_map.
  rewrite Ev, Et, Ep, Es, Eo.
  destruct (inputs tx !! n) as [i|], (inputs tx' !! n') as [j|]; try done.
  unfold outpoint in Ei. injection Ei as E1 E2 E3. simpl. unfold put_outpoint.
  by rewrite E1, E2, E3.
Qed.

Lemma sighash_all_inj tx tx' n n' a a' sc sc' i j :
  (forall b, length (sha256 b) = 32%nat) ->
  ok_Tx tx -> ok_Tx tx' -> ok_amount a -> ok_amount a' -> length sc = length sc' ->
  inputs tx !! n = Some i -> inputs tx' !! n' = Some j ->
  sighash_core tx SIGHASH_ALL n a sc = sighash_core tx' SIGHASH_ALL n' a' sc' ->
  all_commitment tx n a sc = all_commitment tx' n' a' sc' \/ collision.
Proof.
  clear ripemd160 valid_pubkey sign privkey_salted_hash.
  intros H32 (Hv & Ht & (_ & _ & Hin) & (_ & Hout)) (Hv' & Ht' & (_ & _ & Hin') & (_ & Hout'))
    Ha Ha' Hsc Hi Hj E.
  rewrite !sighash_core_all, Hi, Hj in E. simpl in E. apply (inj Some) in E.
  assert (ok_TxIn i) as (? & ? & ? & ? & ?) by (rewrite Forall_lookup in Hin; eauto).
  assert (ok_TxIn j) as (? & ? & ? & ? & ?) by (rewrite Forall_lookup in Hin'; eauto).
  apply (codec_app_inj is_u32 put_Le32 get_Le32) in E as [E1 E]; [|done|done].
  apply app_inj_1 in E as [E2 E]; [|unfold hash256; by rewrite !H32].
  apply app_inj_1 in E as [E3 E]; [|unfold hash256; by rewrite !H32].
  apply put_outpoint_inj in E as [E4 E]; [|done|done].
  apply app_inj_1 in E as [E5 E]; [|done].
  apply (codec_app_inj ok_amount put_LeAmount get_LeAmount) in E as [E6 E]; [|done|done].
  apply (codec_app_inj is_u32 put_Le32 get_Le32) in E as [E7 E]; [|done|done].
  apply app_inj_1 in E as [E8 E]; [|unfold hash256; by rewrite !H32].
  apply (codec_app_inj is_u32 put_Le32 get_Le32) in E as [E9 E]; [|done|done].
  apply hash256_inj in E2 as [E2|?], E3 as [E3|?], E8 as [E8|?]; try by right.
  left. apply outpoints_inj in E2; [|eapply Forall_impl; [done|]; unfold ok_TxIn, ok_outpoint; tauto..].
  apply sequences_inj in E3; [|eapply Forall_impl; [done|]; unfold ok_TxIn; tauto..].
  apply (codec_concat_inj ok_TxOut put_TxOut get_TxOut) in E8; [| |done|done].
  - unfold all_commitment. rewrite Hi, Hj. simpl. congruence.
  - intros x Hx. unfold put_TxOut in Hx. apply app_eq_nil in Hx as [Hx _].
    pose proof (put_LeAmount_length (amount x)) as Hn. by rewrite Hx in Hn.
Qed.

(** The lock script of a swap: the template in the comment of [match_lockscript]. *)
Definition lockscript (l : LockScript) : bytes :=
  [0x82; 0x01; 0x20; 0x87; 0x63; 0xa9; 0x14] ++ ls_hash l ++ [0x88; 0x21] ++ ls_pubkey_hash l
  ++ [0x67; 0x75; 0x03] ++ take 3 (put_Le32 (ls_locktime l)) ++ [0xb1; 0x75; 0x21]
  ++ ls_pubkey_locktime l ++ [0x68; 0xac].

Definition lockscript_ok (l : LockScript) : Prop :=
  length (ls_hash l) = 20%nat
  /\ length (ls_pubkey_hash l) = 33%nat /\ valid_pubkey (ls_pubkey_hash l) = true
  /\ length (ls_pubkey_locktime l) = 33%nat /\ valid_pubkey (ls_pubkey_locktime l) = true
  /\ 0 <= ls_locktime l < 2 ^ 24.

Lemma locktime_bytes b :
  length b = 3%nat -> bytes_ok b -> take 3 (put_Le32 (locktime_of b)) = b /\ 0 <= locktime_of b < 2 ^ 24.
Proof.
  destruct b as [|a [|b [|c [|]]]]; try done. intros _ H.
  apply Forall_cons in H as [Ha H]. apply Forall_cons in H as [Hb H].
  apply Forall_cons in H as [Hc _].
  unfold locktime_of. simpl nth. rewrite Z.shiftl_0_r.
  rewrite (lor_shiftl_add a b 8) by ulia. rewrite (lor_shiftl_add _ c 16) by ulia.
  split; [|ulia].
  unfold put_Le32, put_shifts. simpl. rewrite !land_0xFF, Z.shiftr_0_r, !Z.shiftr_div_pow2 by lia.
  change (0 + 8) with 8. change (8 + 8) with 16.
  change (2 ^ 8) with 256 in *. change (2 ^ 16) with 65536 in *.
  unfold is_u8 in *. f_equal; [|f_equal; [|f_equal]]; Z.to_euclidean_division_equations; lia.
Qed.

Lemma locktime_of_put v : 0 <= v < 2 ^ 24 -> locktime_of (take 3 (put_Le32 v)) = v.
Proof.
  intros Hv. unfold locktime_of, put_Le32, put_shifts. simpl.
  rewrite !land_0xFF, Z.shiftr_0_r, Z.shiftl_0_r, !Z.shiftr_div_pow2 by lia.
  change (0 + 8) with 8. change (8 + 8) with 16.
  change (2 ^ 8) with 256 in *. change (2 ^ 16) with 65536 in *.
  rewrite (lor_shiftl_add _ _ 8), (lor_shiftl_add _ _ 16)
    by (try change (2 ^ 8) with 256; Z.to_euclidean_division_equations; lia).
  Z.to_euclidean_division_equations; lia.
Qed.

Lemma match_lockscript_sound s l :
  bytes_ok s -> match_lockscript s = Some l -> s = lockscript l /\ lockscript_ok l.
Proof.
  clear sha256 ripemd160 sign privkey_salted_hash.
  intros Hs H. unfold match_lockscript in H.
  apply bind_Some in H as (r1 & H1 & H). apply bind_Some in H as ([h r2] & H2 & H).
  apply bind_Some in H as (r3 & H3 & H). apply bind_Some in H as ([pk1 r4] & H4 & H).
  destruct (valid_pubkey pk1) eqn:V1; [|done]. cbn [negb] in H.
  apply bind_Some in H as (r5 & H5 & H). apply bind_Some in H as ([lt r6] & H6 & H).
  apply bind_Some in H as (r7 & H7 & H). apply bind_Some in H as ([pk2 r8] & H8 & H).
  destruct (valid_pubkey pk2) eqn:V2; [|done]. cbn [negb] in H.
  apply bind_Some in H as (r9 & H9 & H). destruct r9; [|done]. simplify_eq.
  rewrite expects_spec in H1, H3, H5, H7, H9.
  apply gets_spec in H2 as [-> L2], H4 as [-> L4], H6 as [-> L6], H8 as [-> L8]. subst.
  rewrite !Forall_app in Hs.
  destruct (locktime_bytes lt L6) as [E R]; [tauto|].
  unfold lockscript, lockscript_ok.
  cbn [ls_hash ls_pubkey_hash ls_locktime ls_pubkey_locktime]. rewrite E. tauto.
Qed.

Lemma match_lockscript_complete l :
  lockscript_ok l -> match_lockscript (lockscript l) = Some l.
Proof.
  destruct l as [h pk1 lt pk2]. unfold lockscript_ok, lockscript, match_lockscript. simpl ls_hash.
  simpl ls_pubkey_hash. simpl ls_locktime. simpl ls_pubkey_locktime.
  intros (Lh & L1 & V1 & L2 & V2 & Hlt).
  rewrite (proj2 (expects_spec _ _ _) eq_refl). cbn [mbind option_bind].
  rewrite (proj2 (gets_spec 20 _ _ _) (conj eq_refl Lh)). cbn [mbind option_bind].
  rewrite (proj2 (expects_spec _ _ _) eq_refl). cbn [mbind option_bind].
  rewrite (proj2 (gets_spec 33 _ _ _) (conj eq_refl L1)). cbn [mbind option_bind].
  rewrite V1. cbn [negb]. rewrite (proj2 (expects_spec _ _ _) eq_refl). cbn [mbind option_bind].
  rewrite (proj2 (gets_spec 3 _ (take 3 (put_Le32 lt)) _) (conj eq_refl eq_refl)).
  cbn [mbind option_bind]. rewrite (proj2 (expects_spec _ _ _) eq_refl). cbn [mbind option_bind].
  rewrite (proj2 (gets_spec 33 _ _ _) (conj eq_refl L2)). cbn [mbind option_bind].
  rewrite V2. cbn [negb]. rewrite (proj2 (expects_spec [0x68; 0xac] [0x68; 0xac] []) eq_refl).
  cbn [mbind option_bind]. by rewrite locktime_of_put.
Qed.

Lemma lockscript_length l : lockscript_ok l -> length (lockscript l) = 106%nat.
Proof.
  intros (Lh & L1 & _ & L2 & _). unfold lockscript. rewrite !length_app, Lh, L1, L2. done.
Qed.

(** ** The claim transaction *)

Lemma sat_le v : is_u64 (v * 1000) -> Amount.sat v = v * 1000.
Proof. intros H. unfold Amount.sat. by apply u64_id. Qed.

(** The weight of a transaction as the Bitcoin protocol defines it: four times
    the bytes outside of the witness data plus the bytes of the latter. *)
Definition tx_weight (v : Tx) : Z :=
  3 * Z.of_nat (length (put_Tx (strip_witnesses v))) + Z.of_nat (length (put_Tx v)).

Lemma put_VarInt_small n : (n < 253)%nat -> put_VarInt (Z.of_nat n) = [Z.of_nat n].
Proof. intros H. unfold put_VarInt. by rewrite (proj2 (Z.ltb_lt _ _)) by lia. Qed.

Lemma put_bytes_small b : (length b < 253)%nat -> put_bytes b = Z.of_nat (length b) :: b.
Proof. intros H. unfold put_bytes. by rewrite put_VarInt_small. Qed.

Lemma put_single_length v lt txid n wit o :
  length txid = 32%nat -> (length (scriptPubKey o) < 253)%nat ->
  length (put_Tx (single_tx v lt (claim_input txid n wit) o))
  = (60 + length (scriptPubKey o)
     + (if decide (wit = []) then 0 else 2 + length (put_WitnessField wit)))%nat.
Proof.
  intros Ht Ho. unfold put_Tx, single_tx, is_segwit. cbn [nVersion inputs outputs nLockTime].
  unfold put_TxIn, put_TxOut. cbn [existsb map concat length claim_input witness prevTxid prevOut
    scriptSig nSequence]. unfold put_TxId.
  rewrite (put_bytes_small (scriptPubKey o)), (put_bytes_small []) by (done || (simpl; lia)).
  rewrite orb_false_r. case_decide as Hw.
  - rewrite bool_decide_eq_true_2 by done. cbn [negb].
    rewrite !length_app, !put_Le32_length, put_LeAmount_length, length_reverse, Ht. simpl. lia.
  - rewrite bool_decide_eq_false_2 by done. cbn [negb].
    rewrite !length_app, !put_Le32_length, put_LeAmount_length, length_reverse, Ht. simpl. lia.
Qed.

Lemma put_witness3_length a b c :
  (length a < 253)%nat -> (length b < 253)%nat -> (length c < 253)%nat ->
  length (put_WitnessField [a; b; c]) = (4 + length a + length b + length c)%nat.
Proof.
  intros Ha Hb Hc. unfold put_WitnessField. cbn [length map concat].
  rewrite !put_bytes_small, put_VarInt_small by lia. simpl.
  rewrite !length_app. simpl. rewrite !length_app. simpl. rewrite app_nil_r. lia.
Qed.

Lemma tx_weight_single v lt txid n a b c o :
  length txid = 32%nat -> (length (scriptPubKey o) < 253)%nat ->
  (length a < 253)%nat -> (length b < 253)%nat -> (length c < 253)%nat ->
  tx_weight (single_tx v lt (claim_input txid n [a; b; c]) o)
  = 246 + 4 * Z.of_nat (length (scriptPubKey o))
    + Z.of_nat (length a) + Z.of_nat (length b) + Z.of_nat (length c).
Proof.
  intros Ht Ho Ha Hb Hc. unfold tx_weight.
  change (strip_witnesses (single_tx v lt (claim_input txid n [a; b; c]) o))
    with (single_tx v lt (claim_input txid n []) o).
  rewrite !put_single_length by done. rewrite decide_True, decide_False by done.
  rewrite put_witness3_length by done. lia.
Qed.

Lemma addr_script_length addr spk :
  Bech32.addr_to_scriptPubKey addr = Some spk -> (length spk <= 42)%nat.
Proof.
  intros H. destruct (Bech32.addr_to_scriptPubKey_shape _ _ H)
    as (hrp & data & v & prog & pad & _ & -> & _ & Hp & _). simpl. lia.
Qed.

(** The fee that [initial_claim_tx] asks for. *)
Definition claim_weight (spk witnessScript : bytes) : Z :=
  386 + 4 * Z.of_nat (length spk) + Z.of_nat (length witnessScript).

Definition claim_fee (spk witnessScript : bytes) (feerate : Z) : Amount :=
  (claim_weight spk witnessScript * feerate) `div` 1000 * 1000.

Lemma claim_fee_range spk ws feerate :
  (length spk <= 42)%nat -> (length ws < 253)%nat -> is_u32 feerate ->
  0 <= claim_weight spk ws * feerate < 2 ^ 42 /\ 0 <= claim_fee spk ws feerate < 2 ^ 42.
Proof.
  intros Hs Hw Hf. unfold claim_fee.
  assert (0 <= claim_weight spk ws * feerate < 2 ^ 42) as H.
  { unfold claim_weight. split; [ulia|].
    apply Z.le_lt_trans with (807 * (2 ^ 32 - 1)); [|lia]. apply Z.mul_le_mono_nonneg; ulia. }
  split; [done|]. pose proof (Z.mul_div_le (claim_weight spk ws * feerate) 1000).
  pose proof (Z.div_pos (claim_weight spk ws * feerate) 1000). lia.
Qed.

(** [initial_claim_tx] in closed form. *)
Lemma initial_claim_tx_eq feerate bh txid n amt tweak pre ws addr spk :
  Bech32.addr_to_scriptPubKey addr = Some spk -> length txid = 32%nat -> (length ws < 253)%nat ->
  is_u32 feerate -> is_u64 amt ->
  let out :=
    if claim_fee spk ws feerate + 547000 >? amt
    then {| amount := 0; scriptPubKey := op_return_script |}
    else {| amount := amt - claim_fee spk ws feerate; scriptPubKey := spk |} in
  let fees := if claim_fee spk ws feerate + 547000 >? amt then amt else claim_fee spk ws feerate in
  exists h wit,
    sighash (single_tx 2 (u32 (bh + 1)) (claim_input txid n wit) out) SIGHASH_ALL 0 amt (put_bytes ws)
      = Some h
    /\ wit = [sign tweak h ++ [SIGHASH_ALL]; pre; ws]
    /\ initial_claim_tx feerate bh txid n amt tweak pre ws addr
       = Some (single_tx 2 (u32 (bh + 1)) (claim_input txid n wit) out, fees).
Proof.
  intros Hspk Ht Hw Hf Ha out fees. pose proof (addr_script_length _ _ Hspk) as Hl.
  destruct (claim_fee_range spk ws feerate Hl Hw Hf) as [Hwf Hfee].
  unfold initial_claim_tx. rewrite Hspk. cbn [mbind option_bind].
  unfold get_nonwitness_weight. rewrite put_single_length by (simpl; lia). rewrite decide_False by done.
  rewrite put_witness3_length by (simpl; lia). cbn [length scriptPubKey].
  rewrite (u64_id (Z.of_nat _ * 4)) by ulia. rewrite (u64_id (1 + 73 + _ + _ + _ + _ + _)) by ulia.
  replace (Z.of_nat (60 + length spk + (2 + (4 + 0 + 0 + 0))) * 4
    + (1 + 73 + 1 + 32 + 1 + Z.of_nat (length ws) + 2) + 12) with (claim_weight spk ws)
    by (unfold claim_weight; lia).
  rewrite (u64_id (claim_weight _ _)) by (unfold claim_weight; ulia).
  rewrite (u64_id (claim_weight spk ws * feerate)) by ulia.
  rewrite sat_le by (fold (claim_fee spk ws feerate); ulia). fold (claim_fee spk ws feerate).
  unfold Amount.gt, Amount.lt. rewrite add_spec by (unfold dust_limit, Amount.sat; vm_compute (u64 _); ulia).
  change dust_limit with 547000. rewrite Z.min_l by ulia.
  rewrite <- Z.gtb_ltb. fold out.
  replace (if claim_fee spk ws feerate + 547000 >? amt then (amt, _) else _) with (fees, out).
  2: { unfold fees, out. destruct (Z.gtb_spec (claim_fee spk ws feerate + 547000) amt); [done|].
       unfold Amount.sub. rewrite Z.gtb_ltb, (proj2 (Z.ltb_ge _ _)) by lia. done. }
  rewrite (u8_id (Z.of_nat _)) by (unfold is_u8; lia). rewrite <- put_bytes_small by done.
  set (measured := single_tx 2 (u32 (bh + 1)) (claim_input txid n [[]; []; []]) out).
  destruct (sighash measured SIGHASH_ALL 0 amt (put_bytes ws)) as [h|] eqn:Eh.
  2: { unfold sighash in Eh. by rewrite sighash_core_all in Eh. }
  exists h, [sign tweak h ++ [SIGHASH_ALL]; pre; ws]. split_and!; [|done|done].
  rewrite <- Eh. by apply sighash_all_ext.
Qed.

(** ** Properties *)

(** The segwit signature hash with [SIGHASH_ALL] is a function of the
    version, the lock time, every outpoint and sequence number, every output,
    the input signed, the amount and the script code, and of nothing else (no
    scriptSig, no witness); and two transactions with the same hash agree on
    all of these, or exhibit a collision of SHA-256. *)
Theorem sighash_all_commits tx tx' n n' a a' sc sc' :
  (forall b, length (sha256 b) = 32%nat) ->
  ok_Tx tx -> ok_Tx tx' -> ok_amount a -> ok_amount a' -> length sc = length sc' ->
  (all_commitment tx n a sc = all_commitment tx' n' a' sc' ->
   sighash tx SIGHASH_ALL n a sc = sighash tx' SIGHASH_ALL n' a' sc')
  /\ (forall h, sighash tx SIGHASH_ALL n a sc = Some h -> sighash tx' SIGHASH_ALL n' a' sc' = Some h ->
      all_commitment tx n a sc = all_commitment tx' n' a' sc' \/ collision).
Proof.
  intros H32 Htx Htx' Ha Ha' Hsc. split; [apply sighash_all_ext|].
  intros h Hh Hh'. unfold sighash in Hh, Hh'.
  apply fmap_Some in Hh as (x & Hx & ->), Hh' as (y & Hy & E).
  destruct (inputs tx !! n) as [i|] eqn:Hi; [|by rewrite sighash_core_all, Hi in Hx].
  destruct (inputs tx' !! n') as [j|] eqn:Hj; [|by rewrite sighash_core_all, Hj in Hy].
  apply hash256_inj in E as [->|?]; [|by right].
  eapply sighash_all_inj; [done..|congruence].
Qed.

(** [match_lockscript] accepts exactly the scripts of the documented template,
    with two valid public keys and a three-byte lock time, and returns the parts
    the script was built from; an accepted script has 106 bytes. *)
Theorem match_lockscript_template s l :
  bytes_ok s ->
  (match_lockscript s = Some l <-> s = lockscript l /\ lockscript_ok l)
  /\ (match_lockscript s = Some l -> length s = 106%nat).
Proof.
  intros Hs. split; [split|].
  - by apply match_lockscript_sound.
  - intros [-> H]. by apply match_lockscript_complete.
  - intros H. apply match_lockscript_sound in H as [-> H]; [|done]. by apply lockscript_length.
Qed.

(** The claim transaction.  For a valid address, [initial_claim_tx] succeeds
    with a transaction that spends the lockup output alone; whose signature is
    over the signature hash of the transaction as finally broadcast, with the
    script code in CompactSize form; in which the output and the fee add up to
    the lockup amount; and whose output either pays the address at least the
    dust limit, with a fee that covers the real weight of the transaction at the
    given feerate, or is a zero [OP_RETURN] that leaves everything to the fee. *)
Theorem claim_tx_correct feerate bh txid n amt tweak pre ws addr spk :
  (forall t h, (length (sign t h) <= 72)%nat) ->
  Bech32.addr_to_scriptPubKey addr = Some spk ->
  length txid = 32%nat -> length pre = 32%nat -> (length ws < 253)%nat ->
  is_u32 feerate -> is_u64 amt ->
  exists tx fees h out,
    initial_claim_tx feerate bh txid n amt tweak pre ws addr = Some (tx, fees)
    /\ tx = single_tx 2 (u32 (bh + 1))
              (claim_input txid n [sign tweak h ++ [SIGHASH_ALL]; pre; ws]) out
    /\ sighash tx SIGHASH_ALL 0 amt (put_bytes ws) = Some h
    /\ amount out + fees = amt
    /\ ((dust_limit <= amount out /\ scriptPubKey out = spk
          /\ (tx_weight tx * feerate) `div` 1000 * 1000 <= fees)
        \/ (amount out = 0 /\ scriptPubKey out = op_return_script)).
Proof.
  intros Hsig Hspk Ht Hp Hw Hf Ha. pose proof (addr_script_length _ _ Hspk) as Hl.
  destruct (claim_fee_range spk ws feerate Hl Hw Hf) as [Hwf Hfee].
  destruct (initial_claim_tx_eq feerate bh txid n amt tweak pre ws addr spk Hspk Ht Hw Hf Ha)
    as (h & wit & Hh & -> & E).
  do 4 eexists. split_and!; [exact E|done|exact Hh| |].
  { destruct (Z.gtb_spec (claim_fee spk ws feerate + 547000) amt); simpl; lia. }
  change dust_limit with 547000.
  destruct (Z.gtb_spec (claim_fee spk ws feerate + 547000) amt); [by right|left]. simpl.
  split_and!; [lia|done|]. unfold claim_fee. apply Z.mul_le_mono_nonneg_r; [lia|].
  apply Z.div_le_mono; [lia|]. apply Z.mul_le_mono_nonneg_r; [ulia|].
  specialize (Hsig tweak h). rewrite tx_weight_single by (rewrite ?length_app; simpl; lia).
  rewrite length_app. unfold claim_weight. simpl. lia.
Qed.

End Crypto.

(** ** Witnesses *)

(** A stand-in for the hash: the first 32 bytes, padded. *)
Definition toy_sha (b : bytes) : bytes := take 32 (b ++ replicate 32 0).

Lemma toy_sha_length b : length (toy_sha b) = 32%nat.
Proof. unfold toy_sha. rewrite length_take, length_app, length_replicate. lia. Qed.

Lemma sighash_all_commits_witness :
  sighash toy_sha (sample_tx [[1; 2]; []]) SIGHASH_ALL 1 5000 [7]
  = sighash toy_sha (sample_tx [[9]]) SIGHASH_ALL 1 5000 [7].
Proof.
  apply (sighash_all_commits toy_sha (sample_tx [[1; 2]; []]) (sample_tx [[9]]) 1 1 5000 5000 [7] [7]).
  - exact toy_sha_length.
  - repeat (split || constructor); vm_compute; done.
  - repeat (split || constructor); vm_compute; done.
  - split; [lia|reflexivity].
  - split; [lia|reflexivity].
  - reflexivity.
  - reflexivity.
Defined.

Definition sample_lock : LockScript :=
  {| ls_hash := replicate 20 3; ls_pubkey_hash := 2 :: replicate 32 5; ls_locktime := 800123;
     ls_pubkey_locktime := 3 :: replicate 32 6 |}.

Lemma match_lockscript_template_witness :
  match_lockscript (fun _ => true) (lockscript sample_lock) = Some sample_lock.
Proof.
  apply (match_lockscript_template (fun _ => true) (lockscript sample_lock) sample_lock).
  - apply (bool_decide_unpack (Forall is_u8 (lockscript sample_lock))). vm_compute. exact I.
  - split; [reflexivity|]. unfold lockscript_ok. simpl. split_and!; try reflexivity; lia.
Defined.

Lemma claim_tx_correct_witness :
  exists tx, initial_claim_tx toy_sha (fun _ _ => []) 1000 800000 (replicate 32 1) 0 50000000 []
    (replicate 32 2) (lockscript sample_lock) Bech32.sample_addr = Some (tx, 580000).
Proof.
  destruct (claim_tx_correct toy_sha (fun _ _ => []) 1000 800000 (replicate 32 1) 0 50000000 []
    (replicate 32 2) (lockscript sample_lock) Bech32.sample_addr Bech32.sample_spk)
    as (tx & fees & h & out & E & _).
  - intros _ _. simpl. lia.
  - vm_compute. reflexivity.
  - reflexivity.
  - reflexivity.
  - vm_compute. lia.
  - vm_compute. split; [discriminate|reflexivity].
  - vm_compute. split; [discriminate|reflexivity].
  - exists tx. rewrite E. vm_compute in E. injection E as _ <-. reflexivity.
Defined.

End Boltz.
