(* ===== verification/BoltzService.v ===== *)
(** * The Boltz reverse-submarine swap service

    [src/Boltz/Detail/ServiceImpl.cpp], [SwapSetupHandler.cpp] and
    [ClaimTxHandler.cpp]: a swap is set up with the server and recorded in the
    table [BoltzServiceFactory_rsub]; at every block the service asks for the
    status of each swap, claims the lockup output when it is confirmed and
    deletes finished, failed and timed-out swaps.

    The server's replies are JSON trees (see [Jsmn]); the key operations of the
    signer are parameters.  Handlers of different swaps and different blocks
    overlap: each transaction on the table, each broadcast, is one step of the
    relation [step]. *)

From Stdlib Require Import QArith.
From stdpp Require Import base list numbers strings.
From S2P Require Import Prelude.
From S2P Require Import Double.
From S2P Require Import Amount.
From S2P Require Import UtilStr.
From S2P Require Import BtcCodec.
From S2P Require Import Bech32.
From S2P Require Import Jsmn.
From S2P Require Import BoltzScript.
Import Amount Btc Jsmn Boltz.

Module Service.

#[local] Open Scope Z_scope.
#[local] Open Scope res_scope.

Section Service.

#[local] Set Default Proof Using "Type".

Context (sha256 ripemd160 : bytes -> bytes).
Context (valid_pubkey valid_privkey : bytes -> bool).
Context (sign : bytes -> bytes -> bytes).
Context (privkey_salted_hash : bytes -> bytes).
Context (get_pubkey_tweak : bytes -> bytes).

(** ** The table *)

Record Row := {
  apiAccess : bytes;
  tweak : bytes;                (* hex *)
  preimage : bytes;             (* hex *)
  destinationAddress : bytes;
  swapId : bytes;
  redeemScript : bytes;         (* hex *)
  timeoutBlockheight : Z;
  onchainAmount : Z;            (* satoshi *)
  lockedUp : bool;
  lockup : option (bytes * Z * Z * Z)  (* txid, output, height, fees *)
}.

Definition same_swap (label id : bytes) (r : Row) : bool :=
  bool_decide (apiAccess r = label) && bool_decide (swapId r = id).

(** ** [SwapSetupHandler] *)

Record Setup := {
  su_label : bytes;
  su_address : bytes;
  su_offchain : Amount;
  su_height : Z;
  su_tweak : bytes;
  su_preimage : bytes
}.

Definition min_timeout : Z := 12.
Definition max_timeout : Z := 288.

Definition d_to_u32 (x : double) : option Z :=
  z ← d_to_u64 x; if z <? 2 ^ 32 then Some z else None.

Definition get_string (o : option json) (k : string) : res bytes :=
  let* v := jindex_key o (lit k) in jto_string v.
Definition get_number (o : option json) (k : string) : res double :=
  let* v := jindex_key o (lit k) in jto_number v.

(** The reply to [/createswap]: id, script, invoice, timeout and amount. *)
Definition parse_createswap (o : option json) : res (bytes * bytes * bytes * Z * Z) :=
  let* id := get_string o "id" in
  let* script := get_string o "redeemScript" in
  let* invoice := get_string o "invoice" in
  let* t := get_number o "timeoutBlockHeight" in
  let* timeout := of_opt (d_to_u32 t) in
  let* a := get_number o "onchainAmount" in
  let* onchain := of_opt (d_to_u64 a) in
  Ok (id, script, invoice, timeout, onchain).

Definition point_nine : double := RN (9 # 10).

(** The checks of the second continuation of [core_run]; [Ok None] is [Fail]. *)
Definition validate (e : Setup) (o : option json) : res (option (Row * bytes)) :=
  match parse_createswap o with
  | Throw TypeError => Ok None
  | Throw x => Throw x
  | Undef => Undef
  | Ok (id, s_script, invoice, timeout, onchain) =>
      if negb (Str.ishex s_script) then Ok None
      else
        match Str.hexread s_script with
        | None => Throw HexParseFailure
        | Some script =>
            let real_preimage := compute_preimage privkey_salted_hash (su_preimage e) in
            match match_lockscript valid_pubkey script with
            | None => Ok None
            | Some l =>
                if negb (bool_decide (ls_hash l = hash160 sha256 ripemd160 real_preimage)
                         && bool_decide (ls_pubkey_hash l = get_pubkey_tweak (su_tweak e))
                         && (ls_locktime l =? timeout)) then Ok None
                else if dlt (Amount.ratio (Amount.sat onchain) (su_offchain e)) point_nine then Ok None
                else if (u32 (su_height e + min_timeout) >? timeout)
                        || (u32 (su_height e + max_timeout) <? timeout) then Ok None
                else Ok (Some ({| apiAccess := su_label e;
                                  tweak := Str.hexdump (su_tweak e);
                                  preimage := Str.hexdump (su_preimage e);
                                  destinationAddress := su_address e;
                                  swapId := id;
                                  redeemScript := Str.hexdump script;
                                  timeoutBlockheight := timeout;
                                  onchainAmount := Amount.to_sat (Amount.sat onchain);
                                  lockedUp := false;
                                  lockup := None |}, invoice))
            end
        end
  end.

(** The database transaction: refuse an existing id, else insert. *)
Definition insert_swap (rows : list Row) (r : Row) : option (list Row) :=
  if existsb (same_swap (apiAccess r) (swapId r)) rows then None else Some (rows ++ [r]).

Record SwapInfo := { invoice : bytes; hash : bytes; timeout : Z }.

(** [run]: [api] is the reply, [None] for an [ApiError]; [rows] is the table when
    the transaction runs. *)
Definition swap_setup (e : Setup) (api : option (option json)) (rows : list Row)
    : res (list Row * SwapInfo) :=
  let h := sha256 (compute_preimage privkey_salted_hash (su_preimage e)) in
  let failed := {| invoice := []; hash := h; timeout := 0 |} in
  match api with
  | None => Ok (rows, failed)
  | Some o =>
      let* v := validate e o in
      match v with
      | None => Ok (rows, failed)
      | Some (r, inv) =>
          match insert_swap rows r with
          | None => Ok (rows, failed)
          | Some rows' => Ok (rows', {| invoice := inv; hash := h; timeout := timeoutBlockheight r |})
          end
      end
  end.

(** ** [ClaimTxHandler] *)

Record Claim := {
  c_label : bytes;
  c_swapId : bytes;
  c_height : Z;
  c_lockup_tx : Tx;
  c_tweak : bytes;
  c_real_preimage : bytes;
  c_address : bytes;
  c_script : bytes;
  c_timeout : Z;
  c_amount : Amount;
  c_out : nat
}.

Definition read_privkey (s : bytes) : option bytes :=
  buf ← Str.hexread s;
  if decide (length buf = 32%nat) then if valid_privkey buf then Some buf else None else None.
Definition read_preimage (s : bytes) : option bytes :=
  buf ← Str.hexread s; if decide (length buf = 32%nat) then Some buf else None.

(** The first transaction of [core_run]; [None] is an [End] or an exception, both
    of which leave the table alone. *)
Definition claim_read (label id : bytes) (blockheight : Z) (lockup_tx : Tx) (rows : list Row)
    : option Claim :=
  let matching := filter (fun r => same_swap label id r = true) rows in
  match matching with
  | [] => None
  | first :: _ =>
      if lockedUp first then None
      else if decide (destinationAddress first = []) then None
      else
        r ← last matching;
        tw ← read_privkey (tweak r);
        pre ← read_preimage (preimage r);
        script ← Str.hexread (redeemScript r);
        let amt := Amount.sat (onchainAmount r) in
        if timeoutBlockheight r <=? u32 (blockheight + 10) then None
        else
          let outnum := find_lockup_outnum sha256 lockup_tx script in
          if outnum <? 0 then None
          else
            o ← outputs lockup_tx !! Z.to_nat outnum;
            if negb (Amount.eq (Btc.amount o) amt) then None
            else Some {| c_label := label; c_swapId := id; c_height := blockheight;
                         c_lockup_tx := lockup_tx; c_tweak := tw;
                         c_real_preimage := compute_preimage privkey_salted_hash pre;
                         c_address := destinationAddress r; c_script := script;
                         c_timeout := timeoutBlockheight r; c_amount := amt;
                         c_out := Z.to_nat outnum |}
  end.

Definition claim_build (feerate : Z) (c : Claim) : option (Tx * Amount) :=
  initial_claim_tx sha256 sign feerate (c_height c) (get_txid sha256 (c_lockup_tx c))
    (u32 (Z.of_nat (c_out c))) (c_amount c) (c_tweak c) (c_real_preimage c) (c_script c) (c_address c).

(** The [UPDATE] after a successful broadcast. *)
Definition claim_update (c : Claim) (fees : Amount) (rows : list Row) : list Row :=
  map (fun r =>
    if same_swap (c_label c) (c_swapId c) r then
      {| apiAccess := apiAccess r; tweak := tweak r; preimage := preimage r;
         destinationAddress := destinationAddress r; swapId := swapId r;
         redeemScript := redeemScript r; timeoutBlockheight := timeoutBlockheight r;
         onchainAmount := onchainAmount r; lockedUp := true;
         lockup := Some (Str.hexdump (get_txid sha256 (c_lockup_tx c)), Z.of_nat (c_out c),
                         c_height c, Amount.to_sat fees) |}
    else r) rows.

(** ** [ServiceImpl] *)

(** [on_block]: the transaction, and the swaps it goes on with. *)
Definition expire (label : bytes) (blockheight : Z) (rows : list Row) : list Row :=
  filter (fun r => bool_decide (apiAccess r = label) && (timeoutBlockheight r <=? blockheight) = false) rows.

Definition on_block (label : bytes) (blockheight : Z) (rows : list Row) : list Row * list bytes :=
  let rows' := expire label blockheight rows in
  (rows', map swapId (filter (fun r => apiAccess r = label) rows')).

Definition delete_swap (label id : bytes) (rows : list Row) : list Row :=
  filter (fun r => same_swap label id r = false) rows.

(** What [swap_on_block] goes on to do with a reply to [/swapstatus]; [ARaise] is
    the exception of the [Bitcoin::Tx] constructor, which no handler catches. *)
Inductive Action := ANothing | ADelete | AClaim (tx : Tx) | ARaise.

Definition status_action (sres : option json) : res Action :=
  let body :=
    let* err := jhas sres (lit "error") in
    if (err : bool) then let* _ := get_string sres "error" in Ok ADelete
    else
      let* status := get_string sres "status" in
      if bool_decide (status = lit "swap.created") || bool_decide (status = lit "transaction.mempool")
      then Ok ANothing
      else if bool_decide (status = lit "transaction.failed")
           || bool_decide (status = lit "transaction.refunded")
           || bool_decide (status = lit "swap.expired") then Ok ADelete
      else if bool_decide (status = lit "invoice.settled") then Ok ADelete
      else if bool_decide (status = lit "transaction.confirmed") then
        let* t := jindex_key sres (lit "transaction") in
        let* txhex := get_string t "hex" in
        match Tx_of_string txhex with
        | Some tx => Ok (AClaim tx)
        | None => Ok ARaise
        end
      else Ok ANothing in
  match body with
  | Throw TypeError => Ok ANothing
  | r => r
  end.

(** ** [get_quotation]: [Ok None] is the null pointer *)

Fixpoint lists_string (s : bytes) (l : list json) : res bool :=
  match l with
  | [] => Ok false
  | JStr e :: l' => let* x := from_escaped e in
                    if decide (x = s) then Ok true else lists_string s l'
  | _ :: l' => lists_string s l'
  end.

(** The loops over [res["info"]] and [res["warnings"]]; an object has a size, but
    no element at a position. *)
Definition array_lists (o : option json) (s : bytes) : res bool :=
  match o with
  | Some (JArr l) => lists_string s l
  | Some (JObj []) => Ok false
  | _ => Throw TypeError
  end.

Definition get_sat (o : option json) (k : string) : res Amount :=
  let* d := get_number o k in
  let* v := of_opt (d_to_u64 d) in Ok (Amount.sat v).

Record Quote := { rate : double; minimal : Amount; maximal : Amount; fee_percent : double;
                  fee_lockup : Amount }.

Definition parse_getpairs (o : option json) : res (option Quote) :=
  let* info := jindex_key o (lit "info") in
  let* prepay := array_lists info (lit "prepay.minerfee") in
  if (prepay : bool) then Ok None
  else
    let* ws := jindex_key o (lit "warnings") in
    let* disabled := array_lists ws (lit "reverse.swaps.disabled") in
    if (disabled : bool) then Ok None
    else
      let* pairs := jindex_key o (lit "pairs") in
      let* btc := jindex_key pairs (lit "BTC/BTC") in
      let* rate := get_number btc "rate" in
      let* limits := jindex_key btc (lit "limits") in
      let* minimal := get_sat limits "minimal" in
      let* limits' := jindex_key btc (lit "limits") in
      let* maximal := get_sat limits' "maximal" in
      let* fees := jindex_key btc (lit "fees") in
      let* percentage := get_number fees "percentage" in
      let* fees' := jindex_key btc (lit "fees") in
      let* miner := jindex_key fees' (lit "minerFees") in
      let* base := jindex_key miner (lit "baseAsset") in
      let* reverse := jindex_key base (lit "reverse") in
      let* lockup := get_sat reverse "lockup" in
      Ok (Some {| rate := rate; minimal := minimal; maximal := maximal;
                  fee_percent := percentage; fee_lockup := lockup |}).

Definition quotation (q : Quote) (offchain : Amount) : res (option Amount) :=
  if Amount.gt (minimal q) offchain || Amount.lt (maximal q) offchain then Ok None
  else
    let* a1 := of_opt (Amount.mul offchain (rate q)) in
    let* a2 := of_opt (Amount.mul a1 (d_of_Z 100)) in
    let* onchain := of_opt (Amount.div a2 (dadd (d_of_Z 100) (fee_percent q))) in
    let onchain := if Amount.gt onchain offchain then offchain else onchain in
    let onchain := if Amount.gt onchain (fee_lockup q) then Amount.sub onchain (fee_lockup q)
                   else Amount.sat 0 in
    Ok (Some (Amount.sub offchain onchain)).

(** [None] for the reply is an [ApiError]. *)
Definition get_quotation (api : option (option json)) (offchain : Amount) : res (option Amount) :=
  match api with
  | None => Ok None
  | Some o =>
      match parse_getpairs o with
      | Throw TypeError => Ok None
      | Throw x => Throw x
      | Undef => Undef
      | Ok None => Ok None
      | Ok (Some q) => quotation q offchain
      end
  end.

(** ** The service as a transition system

    [open_claims]: claims whose first transaction passed; [sent]: claims that
    were broadcast and are not yet recorded; [broadcasts]: every claim
    transaction ever broadcast. *)

Record State := {
  rows : list Row;
  open_claims : list Claim;
  sent : list (Claim * Amount);
  broadcasts : list (Claim * Tx * Amount)
}.

Definition with_rows (s : State) (rs : list Row) : State :=
  {| rows := rs; open_claims := open_claims s; sent := sent s; broadcasts := broadcasts s |}.

Definition initial : State := {| rows := []; open_claims := []; sent := []; broadcasts := [] |}.

(** What the constructors of [tweak] and [preimage] from a random source give. *)
Definition setup_ok (e : Setup) : Prop :=
  bytes_ok (su_tweak e) /\ length (su_tweak e) = 32%nat /\ valid_privkey (su_tweak e) = true
  /\ bytes_ok (su_preimage e) /\ length (su_preimage e) = 32%nat.

Inductive step (s : State) : State -> Prop :=
| step_setup e api rs info :
    setup_ok e -> swap_setup e api (rows s) = Ok (rs, info) -> step s (with_rows s rs)
| step_block label h :
    step s (with_rows s (on_block label h (rows s)).1)
| step_delete label id reply :
    status_action reply = Ok ADelete -> step s (with_rows s (delete_swap label id (rows s)))
| step_claim_read label id h reply tx c :
    status_action reply = Ok (AClaim tx) -> claim_read label id h tx (rows s) = Some c ->
    step s {| rows := rows s; open_claims := c :: open_claims s; sent := sent s;
              broadcasts := broadcasts s |}
| step_claim_fail c l1 l2 :
    open_claims s = l1 ++ c :: l2 ->
    step s {| rows := rows s; open_claims := l1 ++ l2; sent := sent s; broadcasts := broadcasts s |}
| step_claim_send c l1 l2 feerate tx fees :
    open_claims s = l1 ++ c :: l2 -> is_u32 feerate -> claim_build feerate c = Some (tx, fees) ->
    step s {| rows := rows s; open_claims := l1 ++ l2; sent := (c, fees) :: sent s;
              broadcasts := (c, tx, fees) :: broadcasts s |}
| step_claim_record c fees l1 l2 :
    sent s = l1 ++ (c, fees) :: l2 ->
    step s {| rows := claim_update c fees (rows s); open_claims := open_claims s; sent := l1 ++ l2;
              broadcasts := broadcasts s |}.

Inductive reachable : State -> Prop :=
| reach_initial : reachable initial
| reach_step s s' : reachable s -> step s s' -> reachable s'.

(** ** Invariants *)

(** The server cannot take the money of a recorded swap back before its
    timeout: the script is the template, locked to our hash and our key. *)
Definition script_ours (script pre tw : bytes) (t : Z) : Prop :=
  exists l, script = lockscript l /\ lockscript_ok valid_pubkey l
    /\ ls_hash l = hash160 sha256 ripemd160 (privkey_salted_hash pre)
    /\ ls_pubkey_hash l = get_pubkey_tweak tw /\ ls_locktime l = t.

Definition row_ok (r : Row) : Prop :=
  exists script pre tw,
    redeemScript r = Str.hexdump script /\ preimage r = Str.hexdump pre /\ tweak r = Str.hexdump tw
    /\ bytes_ok script /\ bytes_ok pre /\ length pre = 32%nat /\ bytes_ok tw
    /\ length tw = 32%nat /\ valid_privkey tw = true
    /\ script_ours script pre tw (timeoutBlockheight r)
    /\ (lockedUp r = true <-> is_Some (lockup r)).

Definition row_key (r : Row) : bytes * bytes := (apiAccess r, swapId r).

Definition table_ok (rs : list Row) : Prop := Forall row_ok rs /\ NoDup (map row_key rs).

Definition claim_ok (c : Claim) : Prop :=
  exists pre o,
    c_real_preimage c = privkey_salted_hash pre
    /\ script_ours (c_script c) pre (c_tweak c) (c_timeout c)
    /\ outputs (c_lockup_tx c) !! c_out c = Some o
    /\ scriptPubKey o = p2wsh sha256 (c_script c) /\ Btc.amount o = c_amount c
    /\ u32 (c_height c + 10) < c_timeout c /\ is_u64 (c_amount c).

Lemma same_swap_spec label id r : same_swap label id r = true <-> row_key r = (label, id).
Proof.
  unfold same_swap, row_key. rewrite andb_true_iff, !bool_decide_eq_true.
  split; [by intros [-> ->]|by intros [= -> ->]].
Qed.

(** The server promised at least 90 percent of the offchain amount. *)
Definition promised (e : Setup) (r : Row) : Prop :=
  exists onchain, onchainAmount r = Amount.to_sat (Amount.sat onchain)
    /\ dlt (Amount.ratio (Amount.sat onchain) (su_offchain e)) point_nine = false.

Lemma validate_ok e o r inv :
  setup_ok e -> validate e o = Ok (Some (r, inv)) ->
  row_ok r /\ apiAccess r = su_label e
  /\ u32 (su_height e + min_timeout) <= timeoutBlockheight r <= u32 (su_height e + max_timeout)
  /\ promised e r.
Proof.
  intros (Btw & Ltw & Vtw & Bpre & Lpre) H. unfold validate in H.
  destruct (parse_createswap o) as [[[[[id hx] iv] t] onchain]|[]|]; try done.
  destruct (negb (Str.ishex hx)); [done|]. destruct (Str.hexread hx) as [script|] eqn:Hx; [|done].
  destruct (match_lockscript valid_pubkey script) as [l|] eqn:Hl; [|done].
  destruct (negb _) eqn:Hm; [done|]. apply negb_false_iff, andb_true_iff in Hm as [Hm H3].
  apply andb_true_iff in Hm as [H1 H2]. apply bool_decide_eq_true in H1, H2. to_prop.
  destruct (dlt _ _) eqn:Hd; [done|]. destruct (_ || _) eqn:Ht; [done|].
  apply orb_false_iff in Ht as [T1 T2]. rewrite Z.gtb_ltb in T1. to_prop. simplify_eq/=.
  apply Str.hexread_bytes in Hx as Bs. apply match_lockscript_sound in Hl as [-> Hl]; [|done].
  split_and!; [|done|lia|lia|by exists onchain].
  exists (lockscript l), (su_preimage e), (su_tweak e). split_and!; try done.
  - by exists l.
  - split; [done|]. intros [? ?]. done.
Qed.

Lemma table_ok_filter (P : Row -> Prop) `{!forall r, Decision (P r)} rs :
  table_ok rs -> table_ok (filter P rs).
Proof.
  intros [Hf Hn]. split.
  { rewrite Forall_forall in Hf |- *. intros r Hr. apply list_elem_of_filter in Hr as [_ Hr]. auto. }
  clear Hf. induction rs as [|r rs IH]; [done|]. simpl in Hn. apply NoDup_cons in Hn as [Hr Hn].
  rewrite filter_cons. case_decide; [|by apply IH]. simpl. apply NoDup_cons. split; [|by apply IH].
  intros Hi. apply Hr. apply list_elem_of_fmap in Hi as (r' & E & Hi).
  apply list_elem_of_filter in Hi as [_ Hi]. rewrite E. by apply list_elem_of_fmap_2.
Qed.

Lemma table_ok_insert rs r rs' :
  table_ok rs -> row_ok r -> insert_swap rs r = Some rs' -> table_ok rs' /\ rs' = rs ++ [r].
Proof.
  intros [Hf Hn] Hr H. unfold insert_swap in H.
  destruct (existsb _ rs) eqn:E; [done|]. simplify_eq. split; [|done]. split.
  { apply Forall_app. by split; [|constructor]. }
  rewrite map_app. apply NoDup_app. split_and!; [done| |by apply NoDup_singleton].
  intros k Hk Hk'. apply list_elem_of_singleton in Hk' as ->.
  apply list_elem_of_fmap in Hk as (r' & Ek & Hi).
  assert (existsb (same_swap (apiAccess r) (swapId r)) rs = true); [|congruence].
  apply existsb_exists. exists r'. split; [by apply list_elem_of_In|]. by apply same_swap_spec.
Qed.

Lemma swap_setup_ok e api rs rs' info :
  setup_ok e -> table_ok rs -> swap_setup e api rs = Ok (rs', info) -> table_ok rs'.
Proof.
  intros He Hrs H. unfold swap_setup in H. destruct api as [o|]; [|by simplify_eq].
  destruct (validate e o) as [[[r inv]|]| |] eqn:Hv; simplify_eq/=; [|done].
  destruct (insert_swap rs r) as [rs2|] eqn:Hi; simplify_eq; [|done].
  eapply table_ok_insert; [done| |done]. by apply (validate_ok e o r inv).
Qed.

Lemma claim_update_ok c fees rs : table_ok rs -> table_ok (claim_update c fees rs).
Proof.
  intros [Hf Hn]. split.
  - unfold claim_update. rewrite Forall_map. eapply Forall_impl; [done|]. intros r Hr. simpl.
    destruct (same_swap _ _ r); [|done].
    destruct Hr as (sc & pre & tw & ? & ? & ? & ? & ? & ? & ? & ? & ? & ? & _).
    exists sc, pre, tw. by split_and!.
  - assert (map row_key (claim_update c fees rs) = map row_key rs) as ->; [|done].
    unfold claim_update. rewrite map_map. apply map_ext. intros r. by destruct (same_swap _ _ r).
Qed.

Lemma find_lockup_outnum_spec tx script :
  match find_lockup_outnum sha256 tx script with
  | Zneg _ => Forall (fun o => scriptPubKey o <> p2wsh sha256 script) (outputs tx)
  | z => exists o, outputs tx !! Z.to_nat z = Some o /\ scriptPubKey o = p2wsh sha256 script
           /\ Forall (fun o => scriptPubKey o <> p2wsh sha256 script) (take (Z.to_nat z) (outputs tx))
  end.
Proof.
  unfold find_lockup_outnum.
  destruct (list_find _ (outputs tx)) as [[i o]|] eqn:E.
  - apply list_find_Some in E as (Hi & Ho & Hall).
    assert (exists o, outputs tx !! Z.to_nat (Z.of_nat i) = Some o /\ scriptPubKey o = p2wsh sha256 script
      /\ Forall (fun o => scriptPubKey o <> p2wsh sha256 script)
           (take (Z.to_nat (Z.of_nat i)) (outputs tx))) as H.
    { exists o. rewrite Nat2Z.id. split_and!; [done..|]. apply Forall_lookup. intros j x Hx.
      rewrite lookup_take in Hx. case_decide; [|done]. by eapply Hall. }
    destruct i; exact H.
  - by apply list_find_None in E.
Qed.

Lemma claim_read_ok label id h tx rs c :
  table_ok rs -> claim_read label id h tx rs = Some c -> claim_ok c.
Proof.
  intros [Hf _] H. unfold claim_read in H. set (m := filter _ rs) in *.
  destruct m as [|first m'] eqn:Em; [done|].
  destruct (lockedUp first); [done|]. case_decide; [done|].
  apply bind_Some in H as (r & Hr & H).
  assert (row_ok r) as (sc & pre & tw & E1 & E2 & E3 & B1 & B2 & L2 & B3 & L3 & V & Hs & _).
  { apply last_Some_elem_of in Hr. rewrite <- Em in Hr. subst m.
    apply list_elem_of_filter in Hr as [_ Hr]. rewrite Forall_forall in Hf. auto. }
  unfold read_privkey, read_preimage in H.
  rewrite E1, E2, E3, !Str.hexread_dump in H by done. cbn [mbind option_bind] in H.
  rewrite decide_True in H by done. rewrite V in H. cbn [mbind option_bind] in H.
  rewrite decide_True in H by done. cbn [mbind option_bind] in H.
  destruct (Z.leb_spec (timeoutBlockheight r) (u32 (h + 10))); [done|].
  pose proof (find_lockup_outnum_spec tx sc) as Hn.
  destruct (Z.ltb_spec (find_lockup_outnum sha256 tx sc) 0); [done|].
  assert (exists o, outputs tx !! Z.to_nat (find_lockup_outnum sha256 tx sc) = Some o
    /\ scriptPubKey o = p2wsh sha256 sc) as (o & Ho & Hspk).
  { destruct (find_lockup_outnum sha256 tx sc); [destruct Hn as (o & ? & ? & _); by exists o..|lia]. }
  rewrite Ho in H. cbn [mbind option_bind] in H. destruct (negb _) eqn:Ha; [done|].
  apply negb_false_iff in Ha. unfold Amount.eq in Ha. to_prop. simplify_eq.
  exists pre, o. split_and!; try done. apply u64_range.
Qed.

(** The invariant of reachable states. *)
Definition state_ok (s : State) : Prop :=
  table_ok (rows s) /\ Forall claim_ok (open_claims s)
  /\ Forall (fun '(c, tx, fees) => claim_ok c
        /\ exists feerate, is_u32 feerate /\ claim_build feerate c = Some (tx, fees)) (broadcasts s).

Lemma step_state_ok s s' : state_ok s -> step s s' -> state_ok s'.
Proof.
  intros (Ht & Ho & Hb) Hstep. destruct Hstep as [e api rs info He H|label h|label id reply _
    |label id h reply tx c _ Hc|c l1 l2 E|c l1 l2 feerate tx fees E Hf Hc|c fees l1 l2 E];
    unfold state_ok; simpl.
  - split_and!; [|done..]. by eapply swap_setup_ok.
  - split_and!; [|done..]. by apply table_ok_filter.
  - split_and!; [|done..]. by apply table_ok_filter.
  - split_and!; [done| |done]. constructor; [|done]. by eapply claim_read_ok.
  - rewrite E, Forall_app, Forall_cons in Ho. split_and!; [done| |done]. rewrite Forall_app. by destruct Ho as (? & ? & ?).
  - rewrite E, Forall_app, Forall_cons in Ho. destruct Ho as (? & ? & ?).
    split_and!; [done|by rewrite Forall_app|]. constructor; [|done]. split; [done|]. by exists feerate.
  - split_and!; [by apply claim_update_ok|done..].
Qed.

Lemma reachable_state_ok s : reachable s -> state_ok s.
Proof.
  induction 1 as [|s s' _ IH Hs].
  - split_and!; repeat constructor. all: by apply NoDup_nil.
  - by eapply step_state_ok.
Qed.

Lemma get_txid_length tx :
  (forall b, length (sha256 b) = 32%nat) -> length (get_txid sha256 tx) = 32%nat.
Proof. intros H. unfold get_txid, TxId_of_hash. by rewrite length_reverse. Qed.

(** A claim that passed its checks is built for every valid address, in the form
    that spends the lockup output through the hash branch of the script. *)
Lemma claim_build_ok c feerate spk :
  (forall b, length (sha256 b) = 32%nat) -> claim_ok c -> is_u32 feerate ->
  Bech32.addr_to_scriptPubKey (c_address c) = Some spk ->
  exists tx fees h out,
    claim_build feerate c = Some (tx, fees)
    /\ tx = single_tx 2 (u32 (c_height c + 1))
         (claim_input (get_txid sha256 (c_lockup_tx c)) (u32 (Z.of_nat (c_out c)))
            [sign (c_tweak c) h ++ [SIGHASH_ALL]; c_real_preimage c; c_script c]) out
    /\ sighash sha256 tx SIGHASH_ALL 0 (c_amount c) (put_bytes (c_script c)) = Some h
    /\ Btc.amount out + fees = c_amount c
    /\ (claim_fee spk (c_script c) feerate + 547000 <= c_amount c ->
        scriptPubKey out = spk /\ fees = claim_fee spk (c_script c) feerate).
Proof.
  intros H32 (pre & o & Hp & (l & Hl & Hlo & _) & _ & _ & _ & _ & Ha) Hf Hspk.
  destruct (initial_claim_tx_eq sha256 sign feerate (c_height c) (get_txid sha256 (c_lockup_tx c))
    (u32 (Z.of_nat (c_out c))) (c_amount c) (c_tweak c) (c_real_preimage c) (c_script c) (c_address c) spk)
    as (h & wit & Hh & -> & E); try done.
  - by apply get_txid_length.
  - rewrite Hl, (lockscript_length _ _ Hlo). lia.
  - do 4 eexists. split_and!; [exact E|done|exact Hh|..];
      destruct (Z.gtb_spec (claim_fee spk (c_script c) feerate + 547000) (c_amount c)); simpl; [lia..|done].
Qed.

Lemma claim_build_addr c feerate r :
  claim_build feerate c = Some r -> exists spk, Bech32.addr_to_scriptPubKey (c_address c) = Some spk.
Proof.
  unfold claim_build, initial_claim_tx. intros H. apply bind_Some in H as (spk & H & _). by exists spk.
Qed.

Lemma filter_unique (rs : list Row) r :
  NoDup (map row_key rs) -> r ∈ rs ->
  filter (fun r' => same_swap (apiAccess r) (swapId r) r' = true) rs = [r].
Proof.
  induction rs as [|x rs IH]; intros Hn Hr; [by apply elem_of_nil in Hr|].
  simpl in Hn. apply NoDup_cons in Hn as [Hx Hn]. rewrite filter_cons.
  apply elem_of_cons in Hr as [->|Hr].
  - rewrite decide_True by (by apply same_swap_spec). f_equal.
    apply elem_of_nil_inv. intros y Hy. apply list_elem_of_filter in Hy as [E Hy].
    rewrite same_swap_spec in E.
    apply Hx. change (row_key x) with (apiAccess x, swapId x). rewrite <- E. by apply list_elem_of_fmap_2.
  - rewrite decide_False; [by apply IH|].
    rewrite same_swap_spec. intros E. apply Hx. rewrite E.
    change (apiAccess r, swapId r) with (row_key r). by apply list_elem_of_fmap_2.
Qed.

(** ** Properties *)

(** C1: every claim transaction that is ever broadcast, in every interleaving of
    set-ups, block handlers and claim handlers, spends an output of the
    server's lockup transaction that pays to a script of the documented
    template, locked to a hash and a key of ours, more than ten blocks before
    that script's timeout, with the preimage and a signature over the final
    transaction as witness, and its output and fee add up to that output. *)
Theorem boltz_claims_safe s c tx fees :
  (forall b, length (sha256 b) = 32%nat) -> reachable s -> (c, tx, fees) ∈ broadcasts s ->
  exists l o h out,
    outputs (c_lockup_tx c) !! c_out c = Some o
    /\ scriptPubKey o = p2wsh sha256 (lockscript l) /\ lockscript_ok valid_pubkey l
    /\ ls_hash l = hash160 sha256 ripemd160 (c_real_preimage c)
    /\ ls_pubkey_hash l = get_pubkey_tweak (c_tweak c)
    /\ u32 (c_height c + 10) < ls_locktime l
    /\ tx = single_tx 2 (u32 (c_height c + 1))
         (claim_input (get_txid sha256 (c_lockup_tx c)) (u32 (Z.of_nat (c_out c)))
            [sign (c_tweak c) h ++ [SIGHASH_ALL]; c_real_preimage c; lockscript l]) out
    /\ sighash sha256 tx SIGHASH_ALL 0 (Btc.amount o) (put_bytes (lockscript l)) = Some h
    /\ Btc.amount out + fees = Btc.amount o.
Proof.
  intros H32 Hr Hin. destruct (reachable_state_ok s Hr) as (_ & _ & Hb).
  rewrite Forall_forall in Hb. destruct (Hb _ Hin) as (Hc & feerate & Hf & Hbuild).
  destruct (claim_build_addr _ _ _ Hbuild) as [spk Hspk].
  destruct (claim_build_ok c feerate spk H32 Hc Hf Hspk) as (tx' & fees' & h & out & E1 & E2 & E3 & E4 & _).
  rewrite Hbuild in E1. simplify_eq.
  destruct Hc as (pre & o & Hp & (l & El & Hl & Hh & Hk & Ht) & Ho & Hs & Ha & Hlt & _).
  exists l, o, h, out. rewrite <- El, Ha, Hp, Ht. by split_and!.
Qed.

(** In every reachable state the table has one row per service and swap id,
    every row holds a script of the template locked to the hash of the row's
    preimage, to the row's key and to the row's timeout, and the lockup columns
    are set exactly when the row is marked as locked up. *)
Theorem boltz_table_invariant s : reachable s -> table_ok (rows s).
Proof. intros Hr. apply (reachable_state_ok s Hr). Qed.

(** The contract of setting up a swap: an empty invoice and an untouched
    table, or one new row under an id that was free, whose script is ours, whose
    timeout is 12 to 288 blocks ahead, and which was promised at least 90 percent
    of the offchain amount. *)
Theorem swap_setup_contract e api rs rs' info :
  setup_ok e -> table_ok rs -> 0 <= su_height e < 2 ^ 32 - max_timeout ->
  swap_setup e api rs = Ok (rs', info) ->
  (rs' = rs /\ invoice info = [] /\ timeout info = 0)
  \/ exists r, rs' = rs ++ [r] /\ row_ok r /\ table_ok rs'
       /\ apiAccess r = su_label e /\ timeout info = timeoutBlockheight r
       /\ su_height e + 12 <= timeoutBlockheight r <= su_height e + 288 /\ promised e r.
Proof.
  intros He Hrs Hh H. unfold swap_setup in H. destruct api as [o|]; [|simplify_eq; by left].
  destruct (validate e o) as [[[r inv]|]| |] eqn:Hv; simplify_eq/=; [|by left].
  destruct (insert_swap rs r) as [rs2|] eqn:Hi; simplify_eq; [|by left].
  right. destruct (validate_ok e o r inv He Hv) as (Hr & Hl & Ht & Hp).
  destruct (table_ok_insert _ _ _ Hrs Hr Hi) as [Hok ->]. exists r. split_and!; try done.
  all: unfold max_timeout, min_timeout in *; rewrite !u32_id in Ht by (unfold is_u32; lia); lia.
Qed.

(** What a lockup transaction [tx] must be for the swap [r] to be claimed at height [h]: the
    swap is not locked up, has a destination and is more than ten blocks from its timeout,
    and the first output to the swap's script carries the agreed amount. *)
Definition claimable (r : Row) (h : Z) (tx : Tx) : Prop :=
  lockedUp r = false /\ destinationAddress r <> [] /\ u32 (h + 10) < timeoutBlockheight r /\
  exists script before o after,
    Str.hexread (redeemScript r) = Some script /\ outputs tx = before ++ o :: after /\
    Forall (fun o' => scriptPubKey o' <> p2wsh sha256 script) before /\
    scriptPubKey o = p2wsh sha256 script /\ Btc.amount o = Amount.sat (onchainAmount r).

(** The first output that pays to a script. *)
Lemma first_output tx script i :
  0 <= i -> find_lockup_outnum sha256 tx script = i <->
  0 <= i /\ exists before o after, outputs tx = before ++ o :: after /\ length before = Z.to_nat i /\
    Forall (fun o' => scriptPubKey o' <> p2wsh sha256 script) before /\ scriptPubKey o = p2wsh sha256 script.
Proof.
  intros Hi. unfold find_lockup_outnum. split.
  - destruct (list_find _ (outputs tx)) as [[k o]|] eqn:E; [|lia]. intros <-. split; [lia|].
    apply list_find_Some in E as (Hk & Ho & Hall). exists (take k (outputs tx)), o, (drop (S k) (outputs tx)).
    rewrite Nat2Z.id. pose proof (lookup_lt_Some _ _ _ Hk). rewrite length_take. split_and!; [by rewrite take_drop_middle|lia| |done].
    apply Forall_lookup. intros m x Hx. rewrite lookup_take in Hx. case_decide; [|done]. by eapply Hall.
  - intros (_ & before & o & after & E & Hl & Hb & Ho).
    assert (list_find (fun o0 => scriptPubKey o0 = p2wsh sha256 script) (outputs tx) = Some (Z.to_nat i, o)) as ->; [|lia].
    apply list_find_Some. rewrite E, <- Hl. split; [by apply list_lookup_middle|]. split; [done|].
    intros m x Hx Hm. rewrite lookup_app_l in Hx by done. by eapply Forall_lookup_1 in Hb.
Qed.

Lemma claim_read_iff rs r h tx :
  table_ok rs -> r ∈ rs -> is_Some (claim_read (apiAccess r) (swapId r) h tx rs) <-> claimable r h tx.
Proof.
  intros [Hall Hn] Hr. unfold claim_read. rewrite filter_unique by done.
  rewrite Forall_forall in Hall. destruct (Hall r Hr) as (sc & pre & tw & E1 & E2 & E3 & B1 & B2 & L2 & B3 & L3 & V & _).
  unfold claimable. destruct (lockedUp r); [split; [by intros [? ?]|by intros [? _]]|].
  case_decide as Hd; [split; [by intros [? ?]|by intros (_ & ? & _)]|].
  cbn [last mbind option_bind]. unfold read_privkey, read_preimage. rewrite E1, E2, E3, !Str.hexread_dump by done.
  cbn [mbind option_bind]. rewrite decide_True, V by done. cbn [mbind option_bind]. rewrite decide_True by done. cbn [mbind option_bind].
  destruct (Z.leb_spec (timeoutBlockheight r) (u32 (h + 10))); [split; [by intros [? ?]|intros (_ & _ & ? & _); lia]|].
  set (i := find_lockup_outnum sha256 tx sc). split.
  - destruct (Z.ltb_spec i 0) as [|Hi]; [by intros [? ?]|].
    destruct (proj1 (first_output tx sc i Hi) eq_refl) as (_ & before & o & after & E & Hl & Hb & Ho).
    rewrite E, <- Hl, list_lookup_middle by done. cbn [mbind option_bind]. unfold Amount.eq.
    destruct (Z.eqb_spec (Btc.amount o) (Amount.sat (onchainAmount r))); [|by intros [? ?]]. intros _.
    split_and!; [done..|]. by exists sc, before, o, after.
  - intros (_ & _ & _ & script & before & o & after & Es & E & Hb & Ho & Ha).
    injection Es as <-.
    assert (i = Z.of_nat (length before)) as Ei.
    { apply first_output; [lia|]. split; [lia|]. exists before, o, after. by rewrite Nat2Z.id. }
    destruct (Z.ltb_spec i 0); [lia|]. rewrite E, Ei, Nat2Z.id, list_lookup_middle by done. cbn [mbind option_bind].
    unfold Amount.eq. rewrite Ha, Z.eqb_refl. by eexists.
Qed.

Lemma claim_read_row rs r h tx c :
  table_ok rs -> r ∈ rs -> claim_read (apiAccess r) (swapId r) h tx rs = Some c ->
  c_label c = apiAccess r /\ c_swapId c = swapId r /\ c_address c = destinationAddress r /\
  c_amount c = Amount.sat (onchainAmount r) /\ c_lockup_tx c = tx /\ c_height c = h.
Proof.
  intros Hrs Hr Hc. unfold claim_read in Hc. rewrite filter_unique in Hc by (done || apply Hrs).
  destruct (lockedUp r); [done|]. case_decide; [done|]. cbn [last mbind option_bind] in Hc.
  repeat (apply bind_Some in Hc as (? & ? & Hc) || case_match || simplify_eq/=); done.
Qed.

(** C36: the claim of a confirmed lockup, from every reachable state and for every recorded
    swap.  The service goes on to claim exactly when the lockup is [claimable]: the swap not
    yet locked up, with a destination and more than ten blocks from its timeout, and the
    first output to its script carrying the agreed amount.  Then, if the destination is an
    address that can be decoded, three steps are possible whatever the feerate: the claim is
    read, its transaction is built and broadcast, and the row is marked as locked up with the
    lockup transaction.  The transaction pays all but the fee to the destination, unless the
    fee would leave less than the dust limit. *)
Theorem boltz_claim_available s r reply tx h :
  (forall b, length (sha256 b) = 32%nat) -> reachable s -> r ∈ rows s -> status_action reply = Ok (AClaim tx) ->
  (is_Some (claim_read (apiAccess r) (swapId r) h tx (rows s)) <-> claimable r h tx) /\
  (claimable r h tx -> forall feerate spk,
     is_u32 feerate -> Bech32.addr_to_scriptPubKey (destinationAddress r) = Some spk ->
     exists c ctx fees out s1 s2 s3,
       step s s1 /\ open_claims s1 = c :: open_claims s /\
       step s1 s2 /\ broadcasts s2 = (c, ctx, fees) :: broadcasts s /\
       step s2 s3 /\ broadcasts s3 = broadcasts s2 /\
       (exists r', r' ∈ rows s3 /\ row_key r' = row_key r /\ lockedUp r' = true /\
          lockup r' = Some (Str.hexdump (get_txid sha256 tx), Z.of_nat (c_out c), h, Amount.to_sat fees)) /\
       outputs ctx = [out] /\ Btc.amount out + fees = Amount.sat (onchainAmount r) /\
       (claim_fee spk (c_script c) feerate + 547000 <= Amount.sat (onchainAmount r) ->
          scriptPubKey out = spk /\ fees = claim_fee spk (c_script c) feerate)).
Proof.
  intros H32 Hre Hr Hst. destruct (reachable_state_ok s Hre) as (Hrs & _ & _). split; [by apply claim_read_iff|].
  intros Hcl feerate spk Hf Hspk. apply (claim_read_iff _ _ _ _ Hrs Hr) in Hcl as [c Hc].
  pose proof (claim_read_ok _ _ _ _ _ _ Hrs Hc) as Hok.
  destruct (claim_read_row _ _ _ _ _ Hrs Hr Hc) as (El & Ei & Ea & Em & Et & Eh). rewrite <- Ea in Hspk.
  destruct (claim_build_ok c feerate spk H32 Hok Hf Hspk) as (ctx & fees & hh & out & Eb & Ectx & _ & Hsum & Hpay).
  rewrite Em in *. eexists c, ctx, fees, out, _, _, _.
  split; [by eapply step_claim_read|]. split; [reflexivity|].
  split; [by eapply (step_claim_send _ c [] (open_claims s))|]. split; [reflexivity|].
  split; [by eapply (step_claim_record _ c fees [] (sent s))|]. split; [reflexivity|].
  split; [|by rewrite Ectx].
  cbn [rows]. unfold claim_update. rewrite El, Ei. eexists. split.
  - apply list_elem_of_fmap. exists r. split; [reflexivity|done].
  - assert (same_swap (apiAccess r) (swapId r) r = true) as -> by (by apply same_swap_spec). cbn. by rewrite Et, Eh.
Qed.

(** A quotation never exceeds the offchain amount and, unless it is the whole
    amount, covers at least the server's lockup fee. *)
Theorem quotation_bounds q offchain x :
  is_u64 offchain -> is_u64 (fee_lockup q) ->
  quotation q offchain = Ok (Some x) -> Z.min (fee_lockup q) offchain <= x <= offchain.
Proof.
  intros Ho Hf H. unfold quotation in H. destruct (_ || _); [done|].
  destruct (Amount.mul offchain (rate q)) as [a1|]; [|done]. simpl in H.
  destruct (Amount.mul a1 (d_of_Z 100)) as [a2|]; [|done]. simpl in H.
  destruct (Amount.div a2 _) as [on|] eqn:Ed; [|done]. simpl in H. injection H as <-.
  apply clamp_range in Ed. unfold Amount.gt, Amount.lt, Amount.sub, Amount.sat. rewrite !Z.gtb_ltb.
  change (u64 (0 * 1000)) with 0. split_ifs; ulia.
Qed.

End Service.

(** ** Witnesses

    A run with stand-ins for the cryptography: a swap is set up, its lockup
    transaction confirms, and the claim is broadcast. *)

Definition toy_pub (tw : bytes) : bytes := 2 :: tw.
Definition all_valid (_ : bytes) : bool := true.
Definition no_sig (_ _ : bytes) : bytes := [].

Definition demo_setup : Setup :=
  {| su_label := lit "boltz"; su_address := Bech32.sample_addr; su_offchain := 55000000;
     su_height := 800000; su_tweak := replicate 32 4; su_preimage := replicate 32 5 |}.

Definition demo_lock : LockScript :=
  {| ls_hash := hash160 toy_sha (take 20) (replicate 32 5); ls_pubkey_hash := toy_pub (replicate 32 4);
     ls_locktime := 800144; ls_pubkey_locktime := 3 :: replicate 32 6 |}.

Definition demo_created : json :=
  JObj [(lit "id", JStr (lit "s1")); (lit "redeemScript", JStr (Str.hexdump (lockscript demo_lock)));
        (lit "invoice", JStr (lit "lnbc1")); (lit "timeoutBlockHeight", JPrim (lit "800144"));
        (lit "onchainAmount", JPrim (lit "50000"))].

Definition demo_lockup : Tx :=
  {| nVersion := 2; inputs := [sample_in []];
     outputs := [{| Btc.amount := 50000000; scriptPubKey := p2wsh toy_sha (lockscript demo_lock) |}];
     nLockTime := 0 |}.

Definition demo_status : json :=
  JObj [(lit "status", JStr (lit "transaction.confirmed"));
        (lit "transaction", JObj [(lit "hex", JStr (Tx_to_string demo_lockup))])].

Definition demo_row : Row :=
  {| apiAccess := lit "boltz"; tweak := Str.hexdump (replicate 32 4);
     preimage := Str.hexdump (replicate 32 5); destinationAddress := Bech32.sample_addr;
     swapId := lit "s1"; redeemScript := Str.hexdump (lockscript demo_lock);
     timeoutBlockheight := 800144; onchainAmount := 50000; lockedUp := false; lockup := None |}.

Notation demo_swap_setup := (swap_setup toy_sha (take 20) all_valid id toy_pub).
Notation demo_reachable := (reachable toy_sha (take 20) all_valid all_valid no_sig id toy_pub).
Notation demo_table_ok := (table_ok toy_sha (take 20) all_valid all_valid id toy_pub).

Lemma demo_setup_ok : setup_ok all_valid demo_setup.
Proof. repeat (split || constructor); vm_compute; done. Qed.

Lemma demo_swap :
  exists info, demo_swap_setup demo_setup (Some (Some demo_created)) [] = Ok ([demo_row], info)
    /\ invoice info = lit "lnbc1".
Proof. eexists. split; vm_compute; reflexivity. Qed.

Definition demo_start : State := with_rows initial [demo_row].

Lemma demo_start_reachable : demo_reachable demo_start.
Proof.
  destruct demo_swap as (info & E & _).
  eapply reach_step; [apply reach_initial|]. by eapply step_setup; [exact demo_setup_ok|].
Qed.

Lemma demo_status_claims : status_action (Some demo_status) = Ok (AClaim demo_lockup).
Proof. vm_compute. reflexivity. Qed.

Lemma demo_broadcast :
  exists s c tx fees, demo_reachable s /\ (c, tx, fees) ∈ broadcasts s.
Proof.
  destruct (claim_read toy_sha all_valid id (lit "boltz") (lit "s1") 800010 demo_lockup [demo_row])
    as [c|] eqn:Ec; [|vm_compute in Ec; done].
  destruct (claim_build toy_sha no_sig 1000 c) as [[tx fees]|] eqn:Eb;
    [|vm_compute in Ec; injection Ec as <-; vm_compute in Eb; done].
  eexists _, c, tx, fees. split.
  - eapply reach_step; [eapply reach_step; [exact demo_start_reachable|]|].
    + eapply step_claim_read; [exact demo_status_claims|exact Ec].
    + eapply (step_claim_send) with (l1 := []) (l2 := []) (feerate := 1000);
        [reflexivity|vm_compute; split; [discriminate|reflexivity]|exact Eb].
  - simpl. left.
Qed.

Lemma boltz_claims_safe_witness :
  exists s c tx fees, demo_reachable s /\ (c, tx, fees) ∈ broadcasts s
    /\ exists o out : TxOut, Btc.amount out + fees = Btc.amount o.
Proof.
  destruct demo_broadcast as (s & c & tx & fees & Hr & Hin).
  exists s, c, tx, fees. split; [exact Hr|split; [exact Hin|]].
  destruct (boltz_claims_safe toy_sha (take 20) all_valid all_valid no_sig id toy_pub s c tx fees
    toy_sha_length Hr Hin) as (l & o & h & out & H).
  exists o, out. apply H.
Defined.

Lemma boltz_table_invariant_witness : demo_table_ok (rows demo_start).
Proof.
  apply (boltz_table_invariant toy_sha (take 20) all_valid all_valid no_sig id toy_pub demo_start).
  exact demo_start_reachable.
Defined.

Lemma swap_setup_contract_witness :
  exists rs info, demo_swap_setup demo_setup (Some (Some demo_created)) [] = Ok (rs, info)
    /\ (length rs = 1%nat \/ rs = []).
Proof.
  destruct demo_swap as (info & E & _). exists [demo_row], info. split; [exact E|].
  destruct (swap_setup_contract toy_sha (take 20) all_valid all_valid id toy_pub demo_setup
    (Some (Some demo_created)) [] [demo_row] info demo_setup_ok) as [(H & _)|(r & H & _)].
  - split; constructor.
  - vm_compute. split; [discriminate|reflexivity].
  - exact E.
  - right. exact H.
  - left. rewrite H. reflexivity.
Defined.

Lemma demo_claimable : claimable toy_sha demo_row 800010 demo_lockup.
Proof.
  split; [reflexivity|]. split; [vm_compute; discriminate|]. split; [vm_compute; reflexivity|].
  exists (lockscript demo_lock), [], {| Btc.amount := 50000000; scriptPubKey := p2wsh toy_sha (lockscript demo_lock) |}, [].
  split; [vm_compute; reflexivity|]. split; [reflexivity|]. split; [constructor|]. split; reflexivity.
Qed.

Lemma boltz_claim_available_witness :
  is_Some (claim_read toy_sha all_valid id (lit "boltz") (lit "s1") 800010 demo_lockup [demo_row]) /\
  exists c ctx fees s1 s2, step toy_sha (take 20) all_valid all_valid no_sig id toy_pub demo_start s1 /\
    step toy_sha (take 20) all_valid all_valid no_sig id toy_pub s1 s2 /\ broadcasts s2 = [(c, ctx, fees)].
Proof.
  destruct (boltz_claim_available toy_sha (take 20) all_valid all_valid no_sig id toy_pub demo_start demo_row
    (Some demo_status) demo_lockup 800010 toy_sha_length demo_start_reachable) as [H1 H2].
  - apply list_elem_of_singleton. reflexivity.
  - exact demo_status_claims.
  - split; [apply H1; exact demo_claimable|].
    destruct (H2 demo_claimable 1000 Bech32.sample_spk) as (c & ctx & fees & out & s1 & s2 & s3 & S1 & _ & S2 & B & _).
    + vm_compute. split; [discriminate|reflexivity].
    + vm_compute. reflexivity.
    + exists c, ctx, fees, s1, s2. split; [exact S1|]. split; [exact S2|exact B].
Defined.

Lemma quotation_bounds_witness :
  exists x, quotation {| rate := Fin 1; minimal := 10000000; maximal := 10000000000; fee_percent := Fin (1 # 2);
      fee_lockup := 462000 |} 50000000 = Ok (Some x) /\ 462000 <= x <= 50000000.
Proof.
  eexists. split; [vm_compute; reflexivity|].
  apply (quotation_bounds {| rate := Fin 1; minimal := 10000000; maximal := 10000000000;
    fee_percent := Fin (1 # 2); fee_lockup := 462000 |} 50000000).
  - vm_compute. split; [discriminate|reflexivity].
  - vm_compute. split; [discriminate|reflexivity].
  - vm_compute. reflexivity.
Defined.

End Service.
