(* ===== verification/AmountSettings.v ===== *)
(** * Channel-size settings

    [src/Boss/Mod/AmountSettingsHandler.cpp] and [src/Boss/Msg/AmountSettings.hpp]:
    the three amount options are read at startup, validated together at the end
    of the options, and may be changed afterwards with [setconfig]; every
    accepted change is published to the other modules.

    The channel planner asserts [min_channel + min_remaining <= max_channel];
    [planner_ready] is that promise, and the handler's invariant. *)

From stdpp Require Import base list numbers strings.
From S2P Require Import Prelude.
From S2P Require Import Double.
From S2P Require Import Amount.
Import Amount.

Module Settings.

#[local] Open Scope Z_scope.

Record AmountSettings := {
  min_channel : Amount;
  max_channel : Amount;
  reserve : Amount;
  min_amount : Amount;
  min_remaining : Amount
}.

Definition default_min_channel : Amount := Amount.sat 500000.
Definition default_max_channel : Amount := Amount.sat 100000000.
Definition default_reserve : Amount := Amount.sat 100000.
Definition min_min_channel : Amount := Amount.sat 500000.
Definition trigger_factor : double := d_of_Z 2.
Definition additional_remaining : Amount := Amount.sat 50000.
Definition one_plus_trigger : double := dadd (d_of_Z 1) trigger_factor.
Definition min_usable_max_channel : Amount :=
  Amount.add (default 0 (Amount.mul min_min_channel one_plus_trigger)) additional_remaining.
Definition min_usable_reserve : Amount := Amount.sat 30000.

(** [parse_sats]: whether the text was a clean amount, and the amount. *)
Definition parse_sats (str : bytes) : bool * Amount :=
  let s := skip_ws str in
  if match s with c :: _ => c =? chr "-" | [] => false end then (false, Amount.sat 0)
  else
    let r := istream_uint UINT64_MAX s in
    if ur_fail r then (false, Amount.sat 0)
    else (bool_decide (skip_ws (ur_rest r) = []), Amount.sat (ur_value r)).

(** A note of [validate]: what was wrong, and the amount it was about; the texts
    are renderings of these. *)
Inductive Note :=
| Min_below_floor (was : Amount)
| Max_too_low (was : Amount)
| Reserve_too_low (was : Amount)
| Conflict (min max lowered : Amount).

Definition with_derived (s : AmountSettings) : option AmountSettings :=
  m ← Amount.mul (min_channel s) trigger_factor;
  Some {| min_channel := min_channel s; max_channel := max_channel s; reserve := reserve s;
          min_amount := m; min_remaining := Amount.add m additional_remaining |}.

(** The floors of [validate]. *)
Definition floors (s : AmountSettings) : list Note * AmountSettings :=
  let n1 := if Amount.lt (min_channel s) min_min_channel then [Min_below_floor (min_channel s)] else [] in
  let n2 := if Amount.lt (max_channel s) min_usable_max_channel then [Max_too_low (max_channel s)] else [] in
  let n3 := if Amount.lt (reserve s) min_usable_reserve then [Reserve_too_low (reserve s)] else [] in
  (n1 ++ n2 ++ n3,
   {| min_channel := if Amount.lt (min_channel s) min_min_channel then min_min_channel else min_channel s;
      max_channel := if Amount.lt (max_channel s) min_usable_max_channel then min_usable_max_channel
                     else max_channel s;
      reserve := if Amount.lt (reserve s) min_usable_reserve then min_usable_reserve else reserve s;
      min_amount := min_amount s; min_remaining := min_remaining s |}).

Definition lowered_min (s : AmountSettings) : option Amount :=
  k ← d_to_u64 one_plus_trigger;
  Some (Amount.sat (Amount.to_sat (Amount.sub (max_channel s) additional_remaining) `div` k)).

(** [validate]; [None] is a conversion with undefined behaviour. *)
Definition validate (s0 : AmountSettings) : option (list Note * AmountSettings) :=
  let '(notes, s1) := floors s0 in
  s ← with_derived s1;
  if Amount.gt (Amount.add (min_channel s) (min_remaining s)) (max_channel s) then
    lowered ← lowered_min s;
    s' ← with_derived {| min_channel := lowered; max_channel := max_channel s; reserve := reserve s;
                         min_amount := min_amount s; min_remaining := min_remaining s |};
    Some (notes ++ [Conflict (min_channel s) (max_channel s) lowered], s')
  else Some (notes, s).

(** ** The handler *)

Inductive Field := F_reserve | F_min_channel | F_max_channel.

Definition field_of (name : bytes) : option Field :=
  if decide (name = lit "clboss-min-onchain") then Some F_reserve
  else if decide (name = lit "clboss-min-channel") then Some F_min_channel
  else if decide (name = lit "clboss-max-channel") then Some F_max_channel
  else None.

Definition set_field (f : Field) (a : Amount) (s : AmountSettings) : AmountSettings :=
  match f with
  | F_reserve => {| min_channel := min_channel s; max_channel := max_channel s; reserve := a;
                    min_amount := min_amount s; min_remaining := min_remaining s |}
  | F_min_channel => {| min_channel := a; max_channel := max_channel s; reserve := reserve s;
                        min_amount := min_amount s; min_remaining := min_remaining s |}
  | F_max_channel => {| min_channel := min_channel s; max_channel := a; reserve := reserve s;
                        min_amount := min_amount s; min_remaining := min_remaining s |}
  end.

Record Handler := { settings : AmountSettings; options_ended : bool }.

(** What the handler tells the outside: a rejected option, or published settings. *)
Inductive Event := Rejected | Published (s : AmountSettings).

Definition Handler_init : Handler :=
  {| settings := {| min_channel := default_min_channel; max_channel := default_max_channel;
                    reserve := default_reserve; min_amount := 0; min_remaining := 0 |};
     options_ended := false |}.

Definition on_startup_option (h : Handler) (f : Field) (value : bytes) : Handler :=
  {| settings := set_field f (parse_sats value).2 (settings h); options_ended := options_ended h |}.

Definition on_dynamic_option (h : Handler) (f : Field) (value : bytes) : option (Handler * list Event) :=
  let '(clean, amount) := parse_sats value in
  if negb clean then Some (h, [Rejected])
  else
    '(notes, candidate) ← validate (set_field f amount (settings h));
    match notes with
    | _ :: _ => Some (h, [Rejected])
    | [] => Some ({| settings := candidate; options_ended := options_ended h |}, [Published candidate])
    end.

(** The subscriber of [Msg::Option]. *)
Definition on_option (h : Handler) (name value : bytes) : option (Handler * list Event) :=
  match field_of name with
  | None => Some (h, [])
  | Some f =>
      if options_ended h then on_dynamic_option h f value
      else Some (on_startup_option h f value, [])
  end.

(** The subscriber of [Msg::EndOfOptions]; [None] also for the assertion. *)
Definition on_end_of_options (h : Handler) : option (Handler * list Event) :=
  if options_ended h then None
  else
    '(_, s) ← validate (settings h);
    Some ({| settings := s; options_ended := true |}, [Published s]).

(** ** Runs of the handler *)

(** Amounts in whole satoshis, below [2^53] msat (about 90000 BTC). *)
Definition ordinary (a : Amount) : Prop := 0 <= a < 2 ^ 53 /\ a `mod` 1000 = 0.

Inductive run : Handler -> list Event -> Prop :=
| run_init : run Handler_init []
| run_option h evs name value h' ev :
    run h evs -> (field_of name = Some F_max_channel -> ordinary (parse_sats value).2) ->
    on_option h name value = Some (h', ev) -> run h' (evs ++ ev)
| run_end h evs h' ev :
    run h evs -> on_end_of_options h = Some (h', ev) -> run h' (evs ++ ev).

(** What the handler promises to the channel planner. *)
Definition planner_ready (s : AmountSettings) : Prop :=
  min_min_channel <= min_channel s
  /\ min_amount s = 2 * min_channel s
  /\ min_remaining s = min_amount s + additional_remaining
  /\ min_channel s + min_remaining s <= max_channel s
  /\ min_usable_reserve <= reserve s.

(** ** Lemmas *)

Lemma constants :
  min_min_channel = 500000000 /\ additional_remaining = 50000000
  /\ min_usable_max_channel = 1550000000 /\ min_usable_reserve = 30000000
  /\ d_to_u64 one_plus_trigger = Some 3.
Proof. vm_compute. done. Qed.

Lemma sat_range v : is_u64 (Amount.sat v).
Proof. apply u64_range. Qed.

Lemma parse_sats_range str : is_u64 (parse_sats str).2.
Proof.
  unfold parse_sats. destruct (match skip_ws str with [] => _ | _ => _ end); [apply sat_range|].
  destruct (ur_fail _); apply sat_range.
Qed.

(** The inputs of the validation that the theorems are about. *)
Definition settings_in (s : AmountSettings) : Prop :=
  is_u64 (min_channel s) /\ ordinary (max_channel s) /\ is_u64 (reserve s).

Lemma floors_spec s notes s1 :
  settings_in s -> floors s = (notes, s1) ->
  settings_in s1 /\ min_min_channel <= min_channel s1 /\ min_usable_max_channel <= max_channel s1
  /\ min_usable_reserve <= reserve s1
  /\ (notes = [] -> min_channel s1 = min_channel s /\ max_channel s1 = max_channel s
        /\ reserve s1 = reserve s).
Proof.
  destruct constants as (E1 & E2 & E3 & E4 & _).
  intros (Hm & [Hx Hd] & Hr) [= <- <-]. unfold settings_in, ordinary, Amount.lt. simpl.
  rewrite E1, E3, E4.
  destruct (Z.ltb_spec (min_channel s) 500000000), (Z.ltb_spec (max_channel s) 1550000000),
    (Z.ltb_spec (reserve s) 30000000); split_and!; try ulia; try done.
Qed.

Lemma with_derived_spec s s' :
  with_derived s = Some s' ->
  min_channel s' = min_channel s /\ max_channel s' = max_channel s /\ reserve s' = reserve s
  /\ is_u64 (min_amount s') /\ min_remaining s' = Amount.add (min_amount s') additional_remaining
  /\ (0 <= min_channel s < 2 ^ 53 -> min_amount s' = 2 * min_channel s).
Proof.
  unfold with_derived. destruct (Amount.mul (min_channel s) trigger_factor) as [m|] eqn:E; [|done].
  simpl. intros [= <-]. simpl. split_and!; [done..| |done|].
  - by eapply clamp_range.
  - intros H. unfold trigger_factor in E. rewrite mul_2 in E by done. injection E as <-. lia.
Qed.

Lemma with_derived_total s : 0 <= min_channel s < 2 ^ 53 -> is_Some (with_derived s).
Proof. intros H. unfold with_derived, trigger_factor. rewrite mul_2 by done. by eexists. Qed.

Lemma lowered_min_spec s :
  ordinary (max_channel s) -> min_usable_max_channel <= max_channel s ->
  exists v, lowered_min s = Some v /\ min_min_channel <= v
    /\ 3 * v + additional_remaining <= max_channel s.
Proof.
  destruct constants as (E1 & E2 & E3 & _ & E5). rewrite E1, E2, E3.
  intros [Hx Hd] Hge. unfold lowered_min. rewrite E5, E2. simpl.
  assert (Amount.sub (max_channel s) 50000000 = max_channel s - 50000000) as ->.
  { unfold Amount.sub. rewrite Z.gtb_ltb, (proj2 (Z.ltb_ge _ _)) by lia. done. }
  set (x := max_channel s - 50000000). assert (x `mod` 1000 = 0) as Hxm.
  { unfold x. rewrite Zminus_mod, Hd. reflexivity. }
  assert (Amount.to_sat x = x `div` 1000) as ->.
  { unfold Amount.to_sat. rewrite u64_id by (unfold x; ulia). pose proof (Z.div_mod x 1000).
    replace (x + 999) with (x `div` 1000 * 1000 + 999) by lia. rewrite Z.div_add_l by lia.
    apply Z.add_0_r. }
  rewrite Z.div_div by lia. pose proof (Z.mul_div_le x (1000 * 3)).
  assert (500000 <= x `div` (1000 * 3)) by (apply Z.div_le_lower_bound; unfold x; lia).
  eexists. split; [done|]. unfold Amount.sat. rewrite u64_id by (unfold x in *; ulia).
  unfold x in *. lia.
Qed.

Lemma additional_range : is_u64 additional_remaining.
Proof. apply sat_range. Qed.

#[local] Opaque with_derived lowered_min min_min_channel min_usable_max_channel min_usable_reserve
  additional_remaining.

Lemma validate_ready s notes s' :
  settings_in s -> validate s = Some (notes, s') ->
  planner_ready s' /\ settings_in s'
  /\ (notes = [] -> min_channel s' = min_channel s /\ max_channel s' = max_channel s
        /\ reserve s' = reserve s).
Proof.
  intros Hin H. unfold validate in H. destruct (floors s) as [ns s1] eqn:Ef.
  destruct (floors_spec _ _ _ Hin Ef) as (Hin1 & F1 & F2 & F3 & Hn). clear Ef.
  destruct (with_derived s1) as [s2|] eqn:Ed; [|discriminate H]. cbn [mbind option_bind] in H.
  destruct (with_derived_spec _ _ Ed) as (D1 & D2 & D3 & D4 & D5 & D6).
  destruct Hin1 as (Hm & Hx & Hr). destruct constants as (E1 & E2 & E3 & _).
  pose proof additional_range as Hadd. pose proof Hx as [Hx0 Hx1].
  assert (Amount.gt (Amount.add (min_channel s2) (min_remaining s2)) (max_channel s2)
    = (max_channel s1 <? Z.min (min_channel s1 + Z.min (min_amount s2 + 50000000) UINT64_MAX) UINT64_MAX))
    as Ec.
  { unfold Amount.gt, Amount.lt. rewrite D1, D2, D5.
    rewrite (add_spec (min_channel s1)), add_spec by (try apply add_range; done). by rewrite E2. }
  rewrite Ec in H. clear Ec. destruct (Z.ltb_spec (max_channel s1)
    (Z.min (min_channel s1 + Z.min (min_amount s2 + 50000000) UINT64_MAX) UINT64_MAX)) as [L|L].
  - destruct (lowered_min_spec s2) as (v & Ev & V1 & V2); [by rewrite D2..|].
    rewrite Ev in H. cbn [mbind option_bind] in H.
    destruct (with_derived {| min_channel := v; max_channel := max_channel s2; reserve := reserve s2;
      min_amount := min_amount s2; min_remaining := min_remaining s2 |}) as [s3|] eqn:Ed3; [|discriminate H].
    cbn [mbind option_bind] in H. injection H as <- <-.
    destruct (with_derived_spec _ _ Ed3) as (G1 & G2 & G3 & G4 & G5 & G6).
    cbn [min_channel max_channel reserve] in *. rewrite D2 in V2.
    rewrite E1 in V1. rewrite E2 in V2. specialize (G6 ltac:(lia)).
    rewrite add_spec, E2 in G5 by done.
    unfold planner_ready, settings_in. rewrite G1, G2, G3, G5, G6, D2, D3, E1, E2.
    split_and!; [exact V1|reflexivity|ulia|ulia|exact F3|ulia|exact Hx|exact Hr|].
    intros Habs. by apply app_nil in Habs as [_ ?].
  - injection H as <- <-. rewrite E1 in F1. specialize (D6 ltac:(ulia)).
    rewrite add_spec, E2 in D5 by done.
    unfold planner_ready, settings_in. rewrite D1, D2, D3, D5, D6, E1, E2.
    split_and!; [exact F1|reflexivity|ulia|ulia|exact F3|ulia|exact Hx|exact Hr|exact Hn].
Qed.

Lemma set_field_in f a s :
  settings_in s -> is_u64 a -> (f = F_max_channel -> ordinary a) -> settings_in (set_field f a s).
Proof. intros (? & ? & ?) Ha Hf. destruct f; unfold settings_in; simpl; auto. Qed.

Definition published_ready (e : Event) : Prop :=
  match e with Published s => planner_ready s | Rejected => True end.

Definition handler_ok (h : Handler) : Prop :=
  settings_in (settings h) /\ (options_ended h = true -> planner_ready (settings h)).

Lemma on_option_ok h name value h' ev :
  handler_ok h -> (field_of name = Some F_max_channel -> ordinary (parse_sats value).2) ->
  on_option h name value = Some (h', ev) -> handler_ok h' /\ Forall published_ready ev.
Proof.
  intros Hok Hv H. pose proof Hok as [Hin Hp]. unfold on_option in H.
  destruct (field_of name) as [f|] eqn:Ef; [|injection H as <- <-; by split].
  assert (settings_in (set_field f (parse_sats value).2 (settings h))) as Hset.
  { apply set_field_in; [done|apply parse_sats_range|]. intros ->. by apply Hv. }
  destruct (options_ended h) eqn:Eo.
  - unfold on_dynamic_option in H. destruct (parse_sats value) as [clean a]. simpl in Hset.
    destruct (negb clean).
    { injection H as <- <-. split; [exact Hok|]. by repeat constructor. }
    destruct (validate (set_field f a (settings h))) as [[[|n ns] s']|] eqn:Ev; [| |discriminate H];
      cbn [mbind option_bind] in H; injection H as <- <-.
    + destruct (validate_ready _ _ _ Hset Ev) as (R & I & _).
      split; [by split|]. constructor; [exact R|constructor].
    + split; [exact Hok|]. by repeat constructor.
  - injection H as <- <-. split; [|constructor]. split; [done|]. simpl. by rewrite Eo.
Qed.

Lemma on_end_ok h h' ev :
  handler_ok h -> on_end_of_options h = Some (h', ev) -> handler_ok h' /\ Forall published_ready ev.
Proof.
  intros [Hin _] H. unfold on_end_of_options in H. destruct (options_ended h); [done|].
  destruct (validate (settings h)) as [[ns s']|] eqn:Ev; [|discriminate H].
  cbn [mbind option_bind] in H. injection H as <- <-.
  destruct (validate_ready _ _ _ Hin Ev) as (R & I & _).
      split; [by split|]. constructor; [exact R|constructor].
Qed.

Lemma Handler_init_ok : handler_ok Handler_init.
Proof. split; [|done]. vm_compute. split_and!; try done; split; done. Qed.

Lemma run_ok h evs : run h evs -> handler_ok h /\ Forall published_ready evs.
Proof.
  induction 1 as [|h evs name value h' ev _ [IH1 IH2] Hv H|h evs h' ev _ [IH1 IH2] H].
  - split; [apply Handler_init_ok|constructor].
  - destruct (on_option_ok _ _ _ _ _ IH1 Hv H). by rewrite Forall_app.
  - destruct (on_end_ok _ _ _ IH1 H). by rewrite Forall_app.
Qed.

Lemma ready_unchanged s : planner_ready s -> settings_in s -> validate s = Some ([], s).
Proof.
  intros (R1 & R2 & R3 & R4 & R5) (Hm & [Hx0 Hx1] & Hr).
  destruct constants as (E1 & E2 & E3 & E4 & _).
  assert (with_derived s = Some s) as Ed.
  { destruct (with_derived_total s) as [s' Hs']; [ulia|].
    destruct (with_derived_spec _ _ Hs') as (D1 & D2 & D3 & D4 & D5 & D6). rewrite Hs'. f_equal.
    specialize (D6 ltac:(ulia)). rewrite (add_spec _ _ D4 additional_range) in D5.
    rewrite E2 in D5, R3. destruct s, s'; simpl in *. f_equal; [done..|lia|ulia]. }
  assert (floors s = ([], s)) as Ef.
  { unfold floors, Amount.lt. rewrite E1, E2, E3, E4 in *.
    rewrite (proj2 (Z.ltb_ge (min_channel s) _)), (proj2 (Z.ltb_ge (max_channel s) _)),
      (proj2 (Z.ltb_ge (reserve s) _)) by lia. by destruct s. }
  unfold validate. rewrite Ef, Ed. cbn [mbind option_bind]. unfold Amount.gt, Amount.lt.
  rewrite add_spec by (rewrite ?R2, ?R3; unfold is_u64; lia).
  rewrite (proj2 (Z.ltb_ge _ _)) by lia. done.
Qed.

(** ** Properties *)

(** Whatever options are given, at startup and with [setconfig], and whether
    they are accepted, adjusted or rejected, once the options have ended the
    settings in effect, and all settings ever published, satisfy what the
    channel planner asserts: the floors, the derived amounts, and
    [min_channel + min_remaining <= max_channel].  (Maximum sizes below [2^53]
    msat.) *)
Theorem settings_planner_ready h evs :
  run h evs ->
  (options_ended h = true -> planner_ready (settings h))
  /\ Forall (fun e => match e with Published s => planner_ready s | Rejected => True end) evs.
Proof. intros H. destruct (run_ok h evs H) as [[_ H1] H2]. by split. Qed.

(** Validation of ordinary amounts always succeeds, and a second validation of
    its result has nothing to note and nothing to change. *)
Theorem validate_idempotent s :
  0 <= min_channel s < 2 ^ 53 -> ordinary (max_channel s) -> is_u64 (reserve s) ->
  exists notes s', validate s = Some (notes, s') /\ validate s' = Some ([], s').
Proof.
  intros Hm Hx Hr. assert (settings_in s) as Hin by (split_and!; [ulia|done|done]).
  assert (is_Some (validate s)) as [[notes s'] Hs].
  { unfold validate. destruct (floors s) as [ns s1] eqn:Ef.
    destruct (floors_spec _ _ _ Hin Ef) as ((I1 & I2 & I3) & F1 & F2 & F3 & _).
    assert (min_channel s1 < 2 ^ 53).
    { injection Ef as _ <-. simpl. destruct constants as (-> & _). destruct (Amount.lt _ _); lia. }
    destruct (with_derived_total s1) as [s2 E2]; [ulia|]. rewrite E2. cbn [mbind option_bind].
    destruct (with_derived_spec _ _ E2) as (D1 & D2 & D3 & _).
    destruct (Amount.gt _ _); [|by eexists].
    destruct (lowered_min_spec s2) as (v & Ev & V1 & V2); [by rewrite D2..|]. rewrite Ev.
    cbn [mbind option_bind].
    destruct (with_derived_total {| min_channel := v; max_channel := max_channel s2; reserve := reserve s2;
      min_amount := min_amount s2; min_remaining := min_remaining s2 |}) as [s3 E3].
    { cbn [min_channel]. destruct constants as (C1 & C2 & _). rewrite C1 in V1. rewrite C2, D2 in V2.
      destruct I2. lia. }
    rewrite E3. by eexists. }
  exists notes, s'. split; [done|]. destruct (validate_ready _ _ _ Hin Hs) as (R & I & _).
  by apply ready_unchanged.
Qed.

(** A [setconfig] of one of the amounts is refused and changes nothing, or it
    puts exactly the value that was given in effect, leaves the other two
    amounts alone and publishes the new settings. *)
Theorem setconfig_exact h evs name value f h' ev :
  run h evs -> options_ended h = true -> field_of name = Some f ->
  (f = F_max_channel -> ordinary (parse_sats value).2) ->
  on_option h name value = Some (h', ev) ->
  (h' = h /\ ev = [Rejected])
  \/ (let want := set_field f (parse_sats value).2 (settings h) in
      (parse_sats value).1 = true /\ ev = [Published (settings h')]
      /\ min_channel (settings h') = min_channel want /\ max_channel (settings h') = max_channel want
      /\ reserve (settings h') = reserve want).
Proof.
  intros Hrun Ho Hf Hv H. destruct (run_ok _ _ Hrun) as [[Hin _] _].
  unfold on_option in H. rewrite Hf, Ho in H. unfold on_dynamic_option in H.
  assert (settings_in (set_field f (parse_sats value).2 (settings h))) as Hset
    by (apply set_field_in; [done|apply parse_sats_range|done]).
  destruct (parse_sats value) as [clean a]. simpl in *.
  destruct clean; simpl in H; [|injection H as <- <-; by left].
  destruct (validate (set_field f a (settings h))) as [[[|n ns] s']|] eqn:Ev; [| |discriminate H];
    cbn [mbind option_bind] in H; injection H as <- <-; [|by left].
  right. destruct (validate_ready _ _ _ Hset Ev) as (_ & _ & Hn). simpl.
  destruct (Hn eq_refl) as (? & ? & ?). by split_and!.
Qed.

(** ** Witnesses *)

Definition demo_value : bytes := lit " 2000000 ".

Lemma demo_end : exists s, on_end_of_options Handler_init
  = Some ({| settings := s; options_ended := true |}, [Published s]) /\ min_channel s = 500000000.
Proof. eexists. vm_compute. done. Qed.

Lemma settings_planner_ready_witness :
  exists s, run {| settings := s; options_ended := true |} [Published s] /\ planner_ready s.
Proof.
  destruct demo_end as (s & E & _). exists s.
  assert (run {| settings := s; options_ended := true |} [Published s]) as R
    by exact (run_end Handler_init [] _ _ run_init E).
  split; [exact R|]. apply (settings_planner_ready _ _ R). reflexivity.
Defined.

Definition small_settings : AmountSettings :=
  {| min_channel := 700000000; max_channel := 1000000000; reserve := 0; min_amount := 0;
     min_remaining := 0 |}.

Lemma validate_idempotent_witness :
  exists notes s', validate small_settings = Some (notes, s') /\ validate s' = Some ([], s').
Proof. apply (validate_idempotent small_settings); repeat split; vm_compute; congruence. Defined.

Lemma setconfig_exact_witness :
  exists h h' ev, on_option h (lit "clboss-min-channel") demo_value = Some (h', ev)
    /\ ((h' = h /\ ev = [Rejected]) \/ min_channel (settings h') = 2000000000).
Proof.
  destruct demo_end as (s & E & Es).
  pose (h := {| settings := s; options_ended := true |}).
  pose proof (run_end Handler_init [] h _ run_init E) as R.
  assert (is_Some (on_option h (lit "clboss-min-channel") demo_value)) as [[h' ev] Ho].
  { vm_compute in E. injection E as <-. subst h. vm_compute. by eexists. }
  exists h, h', ev. split; [exact Ho|].
  destruct (setconfig_exact h _ (lit "clboss-min-channel") demo_value F_min_channel h' ev R)
    as [H|H]; [reflexivity|vm_compute; reflexivity|discriminate|exact Ho|left; exact H|].
  right. destruct H as (_ & _ & Hm & _). rewrite Hm. vm_compute. reflexivity.
Defined.

End Settings.
