(* ===== verification/ChannelPlan.v ===== *)
(** * Planning new channels

    [src/Boss/Mod/ChannelCreator/Planner.cpp]: how the funds are split among the
    proposals.  The dowser, which probes the capacity of a proposal, and the random
    engine are parameters.

    Node ids are an abstract type of keys with a strict order, [KeyOrder], which
    [NodeId] discharges; a [std::map] is its sorted list of pairs. *)

From stdpp Require Import base list numbers strings sorting.
From S2P Require Import Prelude.
From S2P Require Import Double.
From S2P Require Import Amount.
From S2P Require Import LnIds.
From S2P Require Import AmountSettings.
Import Amount.

#[local] Open Scope Z_scope.

(** What [std::map] and [std::set] need of the comparison of their keys. *)
Class KeyOrder {K : Type} (ok : K -> Prop) (lt : K -> K -> bool) : Prop := {
  ko_irrefl a : ok a -> lt a a = false;
  ko_trans a b c : ok a -> ok b -> ok c -> lt a b = true -> lt b c = true -> lt a c = true;
  ko_total a b : ok a -> ok b -> lt a b = false -> lt b a = false -> a = b
}.

Module StdMap.

Section Ops.
Context {K V : Type} (lt : K -> K -> bool).

(** [m[k] = v]. *)
Fixpoint set (k : K) (v : V) (m : list (K * V)) : list (K * V) :=
  match m with
  | [] => [(k, v)]
  | (k', v') :: m' =>
      if lt k k' then (k, v) :: m
      else if lt k' k then (k', v') :: set k v m'
      else (k', v) :: m'
  end.

(** [m[k] = f(m[k])] for a key that is present. *)
Definition update (k : K) (f : V -> V) (m : list (K * V)) : list (K * V) :=
  map (fun '(k', v) => if negb (lt k k') && negb (lt k' k) then (k', f v) else (k', v)) m.

(** [s.insert(k)] for a [std::set]. *)
Fixpoint insert (k : K) (s : list K) : list K :=
  match s with
  | [] => [k]
  | k' :: s' => if lt k k' then k :: s else if lt k' k then k' :: insert k s' else s
  end.

End Ops.

Section Lemmas.
Context {K V : Type} (ok : K -> Prop) (lt : K -> K -> bool) `{!KeyOrder ok lt}.

Lemma same_key a b : ok a -> ok b -> negb (lt a b) && negb (lt b a) = true <-> a = b.
Proof.
  intros Ha Hb. rewrite andb_true_iff, !negb_true_iff. split.
  - intros [H1 H2]. by apply (ko_total (ok := ok)).
  - intros ->. by rewrite (ko_irrefl (ok := ok)).
Qed.

Lemma set_fresh k (v : V) m :
  ok k -> Forall ok (map fst m) -> k ∉ map fst m -> set lt k v m ≡ₚ (k, v) :: m.
Proof.
  intros Hk. induction m as [|[k' v'] m IH]; intros Hm Hn; simpl in *; [done|].
  apply Forall_cons in Hm as [Hk' Hm]. apply not_elem_of_cons in Hn as [Hne Hn].
  destruct (lt k k') eqn:E1; [done|]. destruct (lt k' k) eqn:E2.
  - rewrite IH by done. apply perm_swap.
  - exfalso. apply Hne. by apply (ko_total (ok := ok)).
Qed.

Lemma insert_fresh k s : ok k -> Forall ok s -> k ∉ s -> insert lt k s ≡ₚ k :: s.
Proof.
  intros Hk. induction s as [|k' s IH]; intros Hm Hn; simpl in *; [done|].
  apply Forall_cons in Hm as [Hk' Hm]. apply not_elem_of_cons in Hn as [Hne Hn].
  destruct (lt k k') eqn:E1; [done|]. destruct (lt k' k) eqn:E2.
  - rewrite IH by done. apply perm_swap.
  - exfalso. apply Hne. by apply (ko_total (ok := ok)).
Qed.

Lemma update_split k (f : V -> V) v m1 m2 :
  Forall ok (map fst (m1 ++ (k, v) :: m2)) -> NoDup (map fst (m1 ++ (k, v) :: m2)) ->
  update lt k f (m1 ++ (k, v) :: m2) = m1 ++ (k, f v) :: m2.
Proof.
  intros Hok Hn. rewrite map_app in Hok, Hn. simpl in Hok, Hn.
  apply Forall_app in Hok as [O1 O2]. apply Forall_cons in O2 as [Ok O2].
  apply NoDup_app in Hn as (_ & D & Hn). apply NoDup_cons in Hn as [Nk _].
  assert (forall m, Forall ok (map fst m) -> k ∉ map fst m -> update lt k f m = m) as Hid.
  { clear -Ok KeyOrder0. intros m. induction m as [|[k' v'] m IH]; intros Hm Hk; [done|].
    simpl in *. apply Forall_cons in Hm as [? Hm]. apply not_elem_of_cons in Hk as [Hne Hk].
    rewrite IH by done. destruct (negb _ && negb _) eqn:E; [|done].
    apply same_key in E; done. }
  unfold update. rewrite map_app. cbn [map].
  rewrite (proj2 (same_key k k Ok Ok) eq_refl). f_equal; [|f_equal].
  - apply Hid; [done|]. intros Hk. apply (D k Hk). left.
  - by apply Hid.
Qed.

End Lemmas.

End StdMap.

(** ** [Planner] *)

Module Planner.

Section Planner.

Context {K : Type} (lt : K -> K -> bool).
(** The probe of a proposal's capacity, and the choice of a random index below a
    bound. *)
Context (dowser : K -> K -> Amount) (random_index : nat -> nat).

Record Params := {
  total : Amount;
  proposals : list (K * K);
  at_least_2 : bool;
  min_amount : Amount;
  max_amount : Amount;
  min_remaining : Amount
}.

Definition make (amount : Amount) (props : list (K * K)) (existing_channels : nat)
    (min max remaining : Amount) : Params :=
  {| total := amount; proposals := props; at_least_2 := bool_decide (existing_channels < 2)%nat;
     min_amount := min; max_amount := max; min_remaining := remaining |}.

(** The assertions of the constructor. *)
Definition asserts (p : Params) : bool :=
  match Amount.mul (min_amount p) (d_of_Z 2) with
  | Some m => Amount.le m (total p)
  | None => false
  end && Amount.le (Amount.add (min_amount p) (min_remaining p)) (max_amount p).

Record PState := {
  remaining : Amount;
  queue : list (K * K);
  result : list (K * Amount);
  rejected : list K
}.

Section Run.
Context (p : Params).

(** The cap on a dowsed amount. *)
Definition cap (amt rem : Amount) (is_first : bool) : option Amount :=
  let amt := if Amount.gt amt (max_amount p) then max_amount p else amt in
  let amt := if Amount.gt amt rem then rem else amt in
  if at_least_2 p && is_first then
    half ← Amount.div rem (d_of_Z 2);
    Some (if Amount.gt amt half then half else amt)
  else Some amt.

(** The loop of [core_run], up to [on_complete]; [None] is undefined behaviour. *)
Fixpoint core_run (q : list (K * K)) (rem : Amount) (res : list (K * Amount)) (rej : list K)
    : option PState :=
  let stop := Some {| remaining := rem; queue := q; result := res; rejected := rej |} in
  if Amount.lt rem (min_amount p) then stop
  else
    match q with
    | [] => stop
    | (node, patron) :: q' =>
        let amt := dowser node patron in
        if Amount.lt amt (min_amount p) then core_run q' rem res (StdMap.insert lt node rej)
        else
          amt ← cap amt rem (bool_decide (length res = 0%nat));
          core_run q' (Amount.sub rem amt) (StdMap.set lt node amt res) rej
    end.

(** The dry run of dividing the remaining funds; [None] when an entry would
    exceed the maximum. *)
Fixpoint divide (divided_ms remainder_ms i : Z) (m : list (K * Amount)) : option (list (K * Amount)) :=
  match m with
  | [] => Some []
  | (k, v) :: m' =>
      let divided := Amount.msat divided_ms in
      let divided := if i <? remainder_ms then Amount.add divided (Amount.msat 1) else divided in
      let v := Amount.add v divided in
      if Amount.gt v (max_amount p) then None
      else m'' ← divide divided_ms remainder_ms (i + 1) m'; Some ((k, v) :: m'')
  end.

(** When the funds cannot be divided: take from one entry what the next proposal,
    or the funds to keep back, need; [None] is the failed assertion. *)
Definition deduct (s : PState) : option PState :=
  let target := match queue s with _ :: _ => min_amount p | [] => min_remaining p end in
  let needed := Amount.sub target (remaining s) in
  let for_deduct :=
    filter (fun kv => Amount.le (Amount.add (min_amount p) needed) kv.2 = true) (result s) in
  to_deduct ← for_deduct !! random_index (length for_deduct);
  let res := StdMap.update lt to_deduct.1 (fun v => Amount.sub v needed) (result s) in
  match queue s with
  | (node, _) :: q' =>
      Some {| remaining := Amount.sat 0; queue := q'; result := StdMap.set lt node target res;
              rejected := rejected s |}
  | [] => Some {| remaining := target; queue := []; result := res; rejected := rejected s |}
  end.

(** [check_results]. *)
Definition check_results (s : PState) : option PState :=
  let size := length (result s) in
  if at_least_2 p && bool_decide (size < 2)%nat then
    Some {| remaining := remaining s; queue := queue s; result := []; rejected := rejected s |}
  else if negb (Amount.gt (remaining s) (Amount.sat 0)) then Some s
  else if bool_decide (size = 0%nat) then Some s
  else if Amount.ge (remaining s) (min_remaining p) then Some s
  else
    let divided_ms := Amount.to_msat (remaining s) `div` Z.of_nat size in
    let remainder_ms := Amount.to_msat (remaining s) `mod` Z.of_nat size in
    match divide divided_ms remainder_ms 0 (result s) with
    | Some copy =>
        Some {| remaining := remaining s; queue := queue s; result := copy; rejected := rejected s |}
    | None => deduct s
    end.

Definition add_rejected (s : PState) : list (K * Amount) :=
  foldl (fun res n => StdMap.set lt n (Amount.sat 0) res) (result s) (rejected s).

(** [Planner::run], constructor included. *)
Definition run : option (list (K * Amount)) :=
  if negb (asserts p) then None
  else
    s ← core_run (proposals p) (total p) [] [];
    s ← check_results s;
    Some (add_rejected s).

End Run.

End Planner.

Arguments Params : clear implicits.
Arguments PState : clear implicits.

(** ** Lemmas *)

Lemma add_small a b : 0 <= a -> 0 <= b -> a + b < 2 ^ 64 -> Amount.add a b = a + b.
Proof. intros. rewrite add_spec by ulia. ulia. Qed.

Lemma sub_le a b : b <= a -> Amount.sub a b = a - b.
Proof. intros. unfold Amount.sub. rewrite Z.gtb_ltb, (proj2 (Z.ltb_ge _ _)) by lia. done. Qed.

Section Correct.

Context {K : Type} (ok : K -> Prop) (lt : K -> K -> bool) `{!KeyOrder ok lt}.
Context (dowser : K -> K -> Amount) (random_index : nat -> nat).
Context (p : Params K).

Notation sum m := (sumZ (map snd m)).
Notation core_run := (core_run lt dowser p).
Notation deduct := (deduct lt random_index p).
Notation check_results := (check_results lt random_index p).

(** The assumptions on the inputs: amounts below [2^53] msat, a positive minimum
    no larger than the minimum to keep back, distinct proposals. *)
Record inputs_ok : Prop := {
  in_min : 0 < min_amount p;
  in_double : 2 * min_amount p <= total p;
  in_total : total p < 2 ^ 53;
  in_max : max_amount p < 2 ^ 53;
  in_range : min_amount p + min_remaining p <= max_amount p;
  in_rem : min_amount p <= min_remaining p;
  in_nodes : NoDup (map fst (proposals p));
  in_ok : Forall ok (map fst (proposals p));
  in_dowser : forall n q, 0 <= dowser n q;
  in_random : forall n, (0 < n)%nat -> (random_index n < n)%nat
}.

Definition entry_ok (kv : K * Amount) : Prop := min_amount p <= kv.2 <= max_amount p.

Definition nodes (s : PState K) : list K := map fst (result s) ++ map fst (queue s) ++ rejected s.

(** The invariant of the loop. *)
Record loop_inv (s : PState K) : Prop := {
  li_entries : Forall entry_ok (result s);
  li_rem : 0 <= remaining s;
  li_sum : sum (result s) + remaining s = total p;
  li_nodup : NoDup (nodes s);
  li_ok : Forall ok (nodes s);
  li_sub : nodes s ⊆ map fst (proposals p)
}.

Lemma entries_sum m : Forall entry_ok m -> 0 < min_amount p -> 0 <= sum m.
Proof.
  intros H Hm. apply sumZ_nonneg. rewrite Forall_map. eapply Forall_impl; [done|].
  intros kv [? ?]. lia.
Qed.

Lemma cap_ok amt rem first :
  inputs_ok -> min_amount p <= amt -> min_amount p <= rem < 2 ^ 53 -> (first = true -> rem = total p) ->
  exists a, cap p amt rem first = Some a /\ min_amount p <= a <= max_amount p /\ a <= rem.
Proof.
  intros [Hm Hd _ _ Hr Hmr _ _ _ _] Ha Hrem Hfirst. unfold cap, Amount.gt, Amount.lt.
  set (a1 := if max_amount p <? amt then max_amount p else amt).
  assert (min_amount p <= a1 <= max_amount p)
    by (unfold a1; destruct (Z.ltb_spec (max_amount p) amt); lia).
  set (a2 := if rem <? a1 then rem else a1).
  assert (min_amount p <= a2 <= max_amount p /\ a2 <= rem)
    by (unfold a2; destruct (Z.ltb_spec rem a1); lia).
  destruct (at_least_2 p && first) eqn:E; [|by exists a2].
  apply andb_true_iff in E as [_ E]. specialize (Hfirst E). rewrite div_2 by lia. simpl.
  eexists. split; [done|]. assert (min_amount p <= rem / 2) by (apply Z.div_le_lower_bound; lia).
  destruct (Z.ltb_spec (rem / 2) a2); lia.
Qed.

Lemma loop_inv_move s s' :
  loop_inv s -> nodes s' ≡ₚ nodes s -> Forall entry_ok (result s') -> 0 <= remaining s' ->
  sum (result s') + remaining s' = total p -> loop_inv s'.
Proof.
  intros [_ _ _ Hn Ho Hs] Hp He Hr Hsum. split; [done|done|done|by rewrite Hp|by rewrite Hp|].
  by rewrite Hp.
Qed.

Lemma set_fresh_entry node a res :
  ok node -> Forall ok (map fst res) -> node ∉ map fst res ->
  sum (StdMap.set lt node a res) = a + sum res
  /\ map fst (StdMap.set lt node a res) ≡ₚ node :: map fst res
  /\ (entry_ok (node, a) -> Forall entry_ok res -> Forall entry_ok (StdMap.set lt node a res)).
Proof.
  intros Hk Ho Hn. pose proof (StdMap.set_fresh ok lt node a res Hk Ho Hn) as E.
  rewrite E. split; [done|]. split; [done|]. by constructor.
Qed.

Lemma core_run_inv q : forall rem res rej,
  inputs_ok -> loop_inv {| remaining := rem; queue := q; result := res; rejected := rej |} ->
  exists s, core_run q rem res rej = Some s /\ loop_inv s
    /\ (remaining s < min_amount p \/ queue s = []).
Proof.
  induction q as [|[node patron] q IH]; intros rem res rej Hin Hinv; simpl; unfold Amount.lt at 1;
    destruct (Z.ltb_spec rem (min_amount p)) as [L|L].
  1-3: eexists; split; [done|split; [done|auto]].
  pose proof Hinv as [He Hr Hs Hn Ho Hsub]. unfold nodes in Hn, Ho, Hsub; simpl in *.
  assert (node ∉ map fst res /\ node ∉ rej /\ ok node /\ Forall ok (map fst res) /\ Forall ok rej)
    as (N1 & N2 & Ok & O1 & O2).
  { rewrite <- Permutation_middle in Hn, Ho. apply NoDup_cons in Hn as [Hn _].
    apply Forall_cons in Ho as [Ho Ho']. rewrite !Forall_app in Ho'. rewrite !not_elem_of_app in Hn. tauto. }
  destruct (Amount.lt (dowser node patron) (min_amount p)) eqn:Er.
  - apply IH; [done|]. eapply (loop_inv_move _ _ Hinv); [|done|done|done]. unfold nodes; simpl.
    rewrite (StdMap.insert_fresh ok lt) by done. rewrite <- !Permutation_middle. done.
  - unfold Amount.lt in Er. to_prop.
    pose proof (entries_sum _ He (in_min Hin)). pose proof (in_total Hin).
    destruct (cap_ok (dowser node patron) rem (bool_decide (length res = 0%nat)) Hin) as (a & Ea & B1 & B2);
      [done|lia| |].
    { intros E. apply bool_decide_eq_true in E. destruct res; [|done]. simpl in Hs. lia. }
    rewrite Ea. cbn [mbind option_bind]. rewrite sub_le by done. pose proof (in_min Hin).
    destruct (set_fresh_entry node a res Ok O1 N1) as (S1 & S2 & S3).
    apply IH; [done|]. eapply (loop_inv_move _ _ Hinv); unfold nodes; simpl.
    + rewrite S2. simpl. by rewrite <- Permutation_middle.
    + by apply S3.
    + lia.
    + rewrite S1. lia.
Qed.

(** Dividing succeeds and conserves, or an entry is close to the maximum. *)
Lemma divide_ok d r : forall m i,
  0 <= d -> 0 <= r -> max_amount p < 2 ^ 53 -> 0 < min_amount p -> d < 2 ^ 53 -> 0 <= i ->
  Forall entry_ok m ->
  match divide p d r i m with
  | Some m' => map fst m' = map fst m /\ Forall entry_ok m'
      /\ sum m' = sum m + Z.of_nat (length m) * d + Z.max 0 (Z.min (r - i) (Z.of_nat (length m)))
  | None => exists kv, kv ∈ m /\ max_amount p < kv.2 + d + (if decide (0 < r) then 1 else 0)
  end.
Proof.
  induction m as [|[k v] m IH]; intros i Hd Hr Hmax Hmin Hdd Hi He; simpl.
  { split_and!; [done|constructor|lia]. }
  apply Forall_cons in He as [[E1 E2] He]. simpl in E1, E2. unfold Amount.msat.
  set (d' := if i <? r then Amount.add d 1 else d).
  assert (d' = d + (if i <? r then 1 else 0)) as Ed'.
  { unfold d'. destruct (i <? r); [rewrite add_small by lia; lia|lia]. }
  assert (0 <= d' <= d + 1) by (rewrite Ed'; destruct (i <? r); lia).
  rewrite add_small by lia. unfold Amount.gt, Amount.lt.
  destruct (Z.ltb_spec (max_amount p) (v + d')) as [L|L].
  { exists (k, v). split; [left|]. simpl. rewrite Ed' in L. case_decide; destruct (Z.ltb_spec i r); lia. }
  specialize (IH (i + 1) Hd Hr Hmax Hmin Hdd ltac:(lia) He).
  destruct (divide p d r (i + 1) m) as [m'|]; cbn [mbind option_bind].
  - destruct IH as (F1 & F2 & F3). simpl. split_and!; [by rewrite F1| |].
    + constructor; [|done]. split; simpl; lia.
    + rewrite F3, Ed'. destruct (Z.ltb_spec i r); lia.
  - destruct IH as (kv & Hkv & Hlt). exists kv. split; [by right|done].
Qed.

(** What [check_results] leaves. *)
Record checked (s : PState K) : Prop := {
  ch_entries : Forall entry_ok (result s);
  ch_sum : sum (result s) <= total p;
  ch_left : result s = [] \/ sum (result s) = total p \/ sum (result s) + min_remaining p <= total p;
  ch_two : at_least_2 p = true -> length (result s) <> 1%nat;
  ch_nodup : NoDup (map fst (result s) ++ rejected s);
  ch_ok : Forall ok (map fst (result s) ++ rejected s);
  ch_sub : map fst (result s) ++ rejected s ⊆ map fst (proposals p)
}.

Lemma checked_nodes s s' :
  loop_inv s -> rejected s' = rejected s ->
  (exists l, nodes s ≡ₚ (map fst (result s') ++ rejected s) ++ l) ->
  Forall entry_ok (result s') -> sum (result s') <= total p ->
  result s' = [] \/ sum (result s') = total p \/ sum (result s') + min_remaining p <= total p ->
  (at_least_2 p = true -> length (result s') <> 1%nat) -> checked s'.
Proof.
  intros [_ _ _ Hn Ho Hs] Er [l Hl] He Hsum Hleft H2. rewrite Hl in Hn, Ho, Hs.
  apply NoDup_app in Hn as (Hn & _ & _). apply Forall_app in Ho as [Ho _].
  split; rewrite ?Er; try done. intros x Hx. apply Hs, elem_of_app. by left.
Qed.

Lemma nodes_result_rejected (s : PState K) :
  exists l, nodes s ≡ₚ (map fst (result s) ++ rejected s) ++ l.
Proof.
  exists (map fst (queue s)). unfold nodes. rewrite <- app_assoc. f_equiv. apply Permutation_app_comm.
Qed.

(** The entry to deduct from exists. *)
Lemma deduct_exists s needed target :
  inputs_ok -> loop_inv s -> 0 < remaining s < target -> min_amount p + target <= max_amount p ->
  target < 2 ^ 53 -> needed = target - remaining s -> result s <> [] ->
  divide p (remaining s `div` Z.of_nat (length (result s)))
    (remaining s `mod` Z.of_nat (length (result s))) 0 (result s) = None ->
  let fd := filter (fun kv => Amount.le (Amount.add (min_amount p) needed) kv.2 = true) (result s) in
  exists k v m1 m2, fd !! random_index (length fd) = Some (k, v) /\ result s = m1 ++ (k, v) :: m2
    /\ min_amount p + needed <= v.
Proof.
  intros Hin Hinv Hrem Hmax Ht Hn Hne Hdiv fd. pose proof (in_min Hin). pose proof (in_max Hin).
  assert (forall kv, Amount.le (Amount.add (min_amount p) needed) kv.2 = true
    <-> min_amount p + needed <= (kv : K * Amount).2) as Hle.
  { intros kv. rewrite add_small by lia. unfold Amount.le, Amount.gt, Amount.lt.
    rewrite negb_true_iff, Z.ltb_ge. done. }
  assert (0 < Z.of_nat (length (result s))) as Hlen by (destruct (result s); [done|simpl; lia]).
  set (n := Z.of_nat (length (result s))) in *.
  pose proof (Z.div_mod (remaining s) n ltac:(lia)) as Hdm.
  pose proof (Z.mod_pos_bound (remaining s) n Hlen) as Hmb.
  pose proof (Z.div_pos (remaining s) n ltac:(lia) Hlen) as Hdp.
  assert (remaining s `div` n + (if decide (0 < remaining s `mod` n) then 1 else 0) <= remaining s) as Hb.
  { case_decide; nia. }
  pose proof (divide_ok (remaining s `div` n) (remaining s `mod` n) (result s) 0) as Hd.
  rewrite Hdiv in Hd. destruct Hd as (kv & Hkv & Hlt); try lia.
  { by apply li_entries. }
  assert (kv ∈ fd) as Hfd by (apply list_elem_of_filter; split; [|done]; apply Hle; lia).
  assert (0 < length fd)%nat as Hfl by (destruct fd; [by apply elem_of_nil in Hfd|simpl; lia]).
  destruct (lookup_lt_is_Some_2 fd (random_index (length fd))) as [[k v] Hpick].
  { by apply in_random. }
  apply list_elem_of_lookup_2 in Hpick as Hel. apply list_elem_of_filter in Hel as [Hv Hel].
  apply list_elem_of_split in Hel as (m1 & m2 & Em). exists k, v, m1, m2.
  split; [done|]. split; [done|]. by apply Hle in Hv.
Qed.

Lemma divided_ok s m' :
  inputs_ok -> loop_inv s -> 0 < remaining s -> result s <> [] ->
  (at_least_2 p = true -> length (result s) <> 1%nat) ->
  divide p (remaining s `div` Z.of_nat (length (result s)))
    (remaining s `mod` Z.of_nat (length (result s))) 0 (result s) = Some m' ->
  checked {| remaining := remaining s; queue := queue s; result := m'; rejected := rejected s |}.
Proof.
  intros Hin Hinv L Hne H2 Ed. pose proof Hinv as [He Hr Hs _ _ _].
  pose proof (entries_sum _ He (in_min Hin)) as Hsum.
  pose proof (in_total Hin). pose proof (in_max Hin). pose proof (in_min Hin).
  set (n := Z.of_nat (length (result s))) in *. assert (0 < n) by (unfold n; destruct (result s); [done|simpl; lia]).
  pose proof (Z.div_mod (remaining s) n ltac:(lia)) as Hdm.
  pose proof (Z.mod_pos_bound (remaining s) n ltac:(done)) as Hmb.
  pose proof (Z.div_pos (remaining s) n ltac:(lia) ltac:(done)) as Hdp.
  pose proof (divide_ok (remaining s `div` n) (remaining s `mod` n) (result s) 0) as Hd.
  rewrite Ed in Hd. destruct Hd as (F1 & F2 & F3); try done; try lia.
  fold n in F3. rewrite Z.max_r, Z.min_l in F3 by lia.
  assert (length m' = length (result s)) as Hl by (by rewrite <- (length_map fst), F1, length_map).
  eapply checked_nodes; try done; simpl.
  - rewrite F1. apply nodes_result_rejected.
  - nia.
  - right; left. nia.
  - by rewrite Hl.
Qed.

Lemma deduct_ok s :
  inputs_ok -> loop_inv s -> remaining s < min_amount p \/ queue s = [] ->
  0 < remaining s < min_remaining p -> result s <> [] ->
  (at_least_2 p = true -> length (result s) <> 1%nat) ->
  divide p (remaining s `div` Z.of_nat (length (result s)))
    (remaining s `mod` Z.of_nat (length (result s))) 0 (result s) = None ->
  exists s', deduct s = Some s' /\ checked s'.
Proof.
  intros Hin Hinv Hexit L Hne H2 Ed. pose proof Hinv as [He Hr Hs Hn Ho _].
  pose proof (in_total Hin). pose proof (in_max Hin). pose proof (in_min Hin).
  pose proof (in_range Hin). pose proof (in_rem Hin). unfold Planner.deduct.
  set (target := match queue s with _ :: _ => min_amount p | [] => min_remaining p end).
  assert (remaining s < target /\ min_amount p + target <= max_amount p) as [T1 T2].
  { unfold target. destruct (queue s) eqn:Eq; [lia|]. destruct Hexit; [lia|done]. }
  rewrite sub_le by lia. set (needed := target - remaining s).
  destruct (deduct_exists s needed target Hin Hinv) as (k & v & m1 & m2 & Epick & Eres & Hv);
    [lia|done|lia|done|done|done|].
  rewrite Epick. cbn [mbind option_bind fst].
  assert (Forall ok (map fst (result s)) /\ NoDup (map fst (result s))) as [O1 N1].
  { unfold nodes in Hn, Ho. apply Forall_app in Ho as [? _]. by apply NoDup_app in Hn as (? & _ & _). }
  rewrite Eres in O1, N1. rewrite Eres, (StdMap.update_split ok lt) by done.
  rewrite sub_le by lia.
  rewrite Eres in He, Hs. apply Forall_app in He as [He1 He2]. apply Forall_cons in He2 as [[V1 V2] He2].
  simpl in V1, V2. rewrite map_app, sumZ_app in Hs. simpl in Hs.
  assert (Forall entry_ok (m1 ++ (k, v - needed) :: m2)) as He'.
  { apply Forall_app. split; [done|]. constructor; [|done]. unfold needed in *. split; simpl; lia. }
  assert (sum (m1 ++ (k, v - needed) :: m2) = total p - target) as Hs'.
  { rewrite map_app, sumZ_app. simpl. unfold needed. lia. }
  assert (map fst (m1 ++ (k, v - needed) :: m2) = map fst (result s)) as Hk
    by (by rewrite Eres, !map_app).
  assert (length (m1 ++ (k, v - needed) :: m2) = length (result s)) as Hl
    by (by rewrite Eres, !length_app).
  destruct (queue s) as [|[node patron] q'] eqn:Eq.
  - eexists; split; [done|]. eapply checked_nodes; try done; cbn [result rejected].
    + rewrite Hk. apply nodes_result_rejected.
    + lia.
    + right; right. unfold target in *. lia.
    + by rewrite Hl.
  - unfold nodes in Hn, Ho. rewrite Eq in Hn, Ho. simpl in Hn, Ho.
    rewrite <- Permutation_middle in Hn, Ho. apply NoDup_cons in Hn as [Nn _].
    apply Forall_cons in Ho as [On _]. rewrite !not_elem_of_app in Nn.
    destruct (set_fresh_entry node target (m1 ++ (k, v - needed) :: m2)) as (S1 & S2 & S3);
      [done|by rewrite Hk, Eres|rewrite Hk; tauto|].
    eexists; split; [done|]. eapply checked_nodes; try done; cbn [result rejected].
    + exists (map fst q'). rewrite S2, Hk. unfold nodes. rewrite Eq. simpl.
      rewrite <- Permutation_middle, <- app_assoc. f_equiv. f_equiv. apply Permutation_app_comm.
    + apply S3; [|done]. unfold target in *. split; simpl; lia.
    + rewrite S1. lia.
    + right; left. rewrite S1. lia.
    + intros _. apply (f_equal length) in Hk. apply Permutation_length in S2. rewrite !length_map in *.
      simpl in S2. rewrite length_map, Hl in S2. destruct (result s); [done|]. simpl in S2. lia.
Qed.

Lemma check_results_ok s :
  inputs_ok -> loop_inv s -> remaining s < min_amount p \/ queue s = [] ->
  exists s', check_results s = Some s' /\ checked s'.
Proof.
  intros Hin Hinv Hexit. pose proof Hinv as [He Hr Hs Hn Ho _].
  pose proof (entries_sum _ He (in_min Hin)) as Hsum. unfold Planner.check_results.
  destruct (at_least_2 p && bool_decide (length (result s) < 2)%nat) eqn:E2.
  { eexists; split; [done|]. eapply checked_nodes; try done; simpl; [|lia|by left].
    exists (map fst (result s) ++ map fst (queue s)). unfold nodes. simpl.
    rewrite (Permutation_app_comm (rejected s)), <- app_assoc. done. }
  assert (at_least_2 p = true -> length (result s) <> 1%nat) as H2.
  { intros Ht. rewrite Ht in E2. apply bool_decide_eq_false in E2. lia. }
  change (Amount.sat 0) with 0. unfold Amount.gt at 1, Amount.lt at 1.
  destruct (Z.ltb_spec 0 (remaining s)) as [L|L]; cbn [negb].
  2: { exists s. split; [done|]. eapply checked_nodes; try done; [apply nodes_result_rejected|lia|].
       right; left. lia. }
  destruct (bool_decide (length (result s) = 0%nat)) eqn:E0.
  { apply bool_decide_eq_true in E0. exists s. split; [done|].
    eapply checked_nodes; try done; [apply nodes_result_rejected|lia|]. left. by destruct (result s). }
  apply bool_decide_eq_false in E0. unfold Amount.ge, Amount.le, Amount.gt, Amount.lt.
  destruct (Z.ltb_spec (remaining s) (min_remaining p)) as [L2|L2]; cbn [negb].
  2: { exists s. split; [done|]. eapply checked_nodes; try done; [apply nodes_result_rejected|lia|].
       right; right. lia. }
  assert (result s <> []) as Hne by (by destruct (result s)). unfold Amount.to_msat.
  destruct (divide p _ _ 0 (result s)) as [m'|] eqn:Ed.
  - eexists; split; [done|]. by apply divided_ok.
  - by apply deduct_ok.
Qed.

Lemma set_rejected rej : forall res,
  NoDup (map fst res ++ rej) -> Forall ok (map fst res ++ rej) ->
  foldl (fun m n => StdMap.set lt n (Amount.sat 0) m) res rej
  ≡ₚ res ++ map (fun n => (n, 0)) rej.
Proof.
  induction rej as [|n rej IH]; intros res Hn Ho; simpl; [by rewrite app_nil_r|].
  rewrite <- Permutation_middle in Hn, Ho. apply NoDup_cons in Hn as [Nn Hn].
  apply Forall_cons in Ho as [On Ho].
  assert (n ∉ map fst res) as Nres by (intros H; apply Nn, elem_of_app; by left).
  assert (Forall ok (map fst res)) as Ores by (by apply Forall_app in Ho as [? _]).
  pose proof (StdMap.set_fresh ok lt n (Amount.sat 0) res On Ores Nres) as E.
  rewrite IH.
  - rewrite E. simpl. by rewrite <- Permutation_middle.
  - rewrite E. simpl. apply NoDup_cons. by split.
  - rewrite E. simpl. by constructor.
Qed.

Lemma asserts_ok : inputs_ok -> asserts p = true.
Proof.
  intros Hin. pose proof (in_min Hin). pose proof (in_double Hin). pose proof (in_total Hin).
  pose proof (in_max Hin). pose proof (in_range Hin). pose proof (in_rem Hin).
  unfold asserts. rewrite mul_2, add_small, !le_spec by lia. apply andb_true_iff.
  split; apply Z.leb_le; lia.
Qed.

(** What a plan promises. *)
Record plan_ok (plan : list (K * Amount)) : Prop := {
  plan_nodup : NoDup (map fst plan);
  plan_nodes : map fst plan ⊆ map fst (proposals p);
  plan_sizes : Forall (fun kv => kv.2 = 0 \/ min_amount p <= kv.2 <= max_amount p) plan;
  plan_sum : sum plan <= total p;
  plan_left : Forall (fun kv => kv.2 = 0) plan \/ sum plan = total p
              \/ sum plan + min_remaining p <= total p;
  plan_two : at_least_2 p = true -> length (filter (fun kv => kv.2 <> 0) plan) <> 1%nat
}.

Lemma filter_entries m : 0 < min_amount p -> Forall entry_ok m -> filter (fun kv => kv.2 <> 0) m = m.
Proof.
  intros Hm H. induction H as [|[k v] m [H1 _] _ IH]; [done|]. simpl in H1. rewrite filter_cons.
  rewrite decide_True by (simpl; lia). by rewrite IH.
Qed.

Lemma checked_plan s : inputs_ok -> checked s -> plan_ok (add_rejected lt s).
Proof.
  intros Hin [He Hs Hl H2 Hn Ho Hsub]. pose proof (in_min Hin) as Hm. unfold add_rejected.
  pose proof (set_rejected (rejected s) (result s) Hn Ho) as E.
  set (plan := foldl _ _ _) in *.
  assert (map fst plan ≡ₚ map fst (result s) ++ rejected s) as Ek.
  { rewrite E, map_app, map_map. simpl. by rewrite map_id. }
  assert (sum plan = sum (result s)) as Es.
  { rewrite E, map_app, sumZ_app, map_map. simpl.
    assert (forall l : list K, sumZ (map (fun _ => 0) l) = 0) as -> by (induction l; simpl; lia). lia. }
  split.
  - by rewrite Ek.
  - by rewrite Ek.
  - rewrite E. apply Forall_app. split.
    + eapply Forall_impl; [exact He|]. intros kv H. by right.
    + rewrite Forall_map. apply Forall_true. intros n. by left.
  - by rewrite Es.
  - rewrite Es. destruct Hl as [Hnil|Hl]; [left|by right].
    rewrite E, Hnil. simpl. rewrite Forall_map. by apply Forall_true.
  - intros Ht. specialize (H2 Ht). rewrite E, filter_app, length_app, filter_entries by done.
    assert (filter (fun kv : K * Amount => kv.2 <> 0) (map (fun n => (n, 0)) (rejected s)) = []) as ->.
    { apply elem_of_nil_inv. intros kv Hkv. apply list_elem_of_filter in Hkv as [Hne Hkv].
      apply list_elem_of_fmap in Hkv as (n & -> & _). done. }
    simpl. lia.
Qed.

Lemma run_plan_ok : inputs_ok -> exists plan, run lt dowser random_index p = Some plan /\ plan_ok plan.
Proof.
  intros Hin. unfold run. rewrite asserts_ok by done. cbn [negb].
  destruct (core_run_inv (proposals p) (total p) [] [] Hin) as (s & -> & Hs & Hexit).
  { pose proof (in_min Hin). pose proof (in_double Hin).
    split; unfold nodes; simpl; rewrite ?app_nil_r; try lia; try done; try constructor; apply Hin. }
  cbn [mbind option_bind]. destruct (check_results_ok s Hin Hs Hexit) as (s' & -> & Hc).
  cbn [mbind option_bind]. eexists. split; [done|]. by apply checked_plan.
Qed.

End Correct.

(** ** The order of node ids *)

#[global] Instance NodeId_KeyOrder : KeyOrder NodeId.wf NodeId.lt.
Proof.
  split.
  - intros a Ha. unfold NodeId.lt, NodeId.eq_shared. by rewrite bool_decide_eq_true_2.
  - intros a b c Ha Hb Hc. rewrite !NodeId.lt_spec by done.
    destruct a as [x|], b as [y|], c as [z|]; try done.
    destruct Ha as [La _], Hb as [Lb _], Hc as [Lc _]. apply NodeId.memcmp_Lt_trans; congruence.
  - intros a b Ha Hb. rewrite <- !not_true_iff_false, !NodeId.lt_spec by done.
    destruct a as [x|], b as [y|]; try done; try (intros H _; by destruct H) ; try (intros _ H; by destruct H).
    destruct Ha as [La _], Hb as [Lb _]. rewrite (NodeId.memcmp_antisym x y).
    pose proof (NodeId.memcmp_Eq x y ltac:(congruence)) as M.
    destruct (NodeId.memcmp x y); simpl; intros H1 H2; [by rewrite (proj1 M eq_refl)|done|done].
Qed.

#[global] Instance Z_KeyOrder : KeyOrder (fun _ : Z => True) Z.ltb.
Proof. split; intros; lia. Qed.

(** ** Properties *)

(** C8: planning channels.  For distinct proposals and amounts that satisfy the
    constructor's assertions (with the funds below [2^53] msat and the funds to
    keep back no smaller than a minimal channel), and for every behaviour of the
    dowser and of the random choice, the planner terminates without a failed
    assertion, and its plan: names proposals only, each once; gives each of them
    nothing or an amount between the minimum and the maximum; never exceeds the
    funds; uses them all, or keeps back at least the minimum to keep back, or
    creates nothing; and does not create exactly one channel when two are wanted. *)
Theorem planner_plan_ok {K} (ok : K -> Prop) (lt : K -> K -> bool) dowser random_index p :
  KeyOrder ok lt -> inputs_ok ok dowser random_index p ->
  exists plan, run lt dowser random_index p = Some plan /\ plan_ok p plan.
Proof. intros HK Hin. by apply (run_plan_ok ok). Qed.

(** ** Witnesses *)

Definition demo_params : Params Z :=
  make 1700000000 [(3, 0); (1, 0); (2, 0); (7, 0)] 0 500000000 1600000000 1050000000.

Definition demo_dowser (n _ : Z) : Amount := Z.abs n * 300000000.

Lemma demo_inputs : inputs_ok (fun _ => True) demo_dowser (fun _ => O) demo_params.
Proof.
  split; try (vm_compute; congruence).
  - apply (bool_decide_unpack (NoDup (map fst (proposals demo_params)))). vm_compute. exact I.
  - vm_compute. repeat constructor.
  - intros n q. unfold demo_dowser. lia.
Qed.

Lemma planner_plan_ok_witness :
  exists plan, run Z.ltb demo_dowser (fun _ => O) demo_params = Some plan /\ plan_ok demo_params plan.
Proof. apply (planner_plan_ok (fun _ => True)); [exact Z_KeyOrder|exact demo_inputs]. Defined.

End Planner.
