(* ===== verification/ChannelManager.v ===== *)
(** * The channel-creation cycle

    [src/Boss/Mod/ChannelCreationDecider.cpp] (when to create channels) and, from
    [src/Boss/Mod/ChannelCreator], [RearrangerBySize.cpp], [Reprioritizer.cpp] and
    [Manager.cpp]: the proposals are filtered and reordered, and the planner of
    [ChannelPlan] is run on them.  The last part is about the amount settings of
    [AmountSettings] changing while a cycle runs. *)

From Stdlib Require Import QArith.
From stdpp Require Import base list numbers strings sorting.
From S2P Require Import Prelude.
From S2P Require Import Double.
From S2P Require Import Amount.
From S2P Require Import AmountSettings.
From S2P Require Import ChannelPlan.
Import Amount.

#[local] Open Scope Z_scope.

(** ** [ChannelCreationDecider] *)

Module Decider.

Definition needs_reserve : Amount := Amount.sat 30000.
Definition max_needs_onchain : Amount := default 0 (Amount.btc (RN (1 # 10))).
Definition onchain_percent_min : double := d_of_Z 10.
Definition onchain_percent_max : double := d_of_Z 33.
Definition max_onchain_holdoff : Amount := Amount.sat 100000000.

Record Decider := {
  low_fee : option bool;
  channels : option Amount;
  saved_onchain : option Amount;
  reserve : Amount;
  min_amount : Amount
}.

(** What a message leads to: nothing (but log entries), a [NeedsOnchainFunds] or
    a [RequestChannelCreation]. *)
Inductive Out := Nothing | Needs (more : Amount) | Create (actual : Amount).

Definition take_onchain (d : Decider) : Decider :=
  {| low_fee := low_fee d; channels := channels d; saved_onchain := None;
     reserve := reserve d; min_amount := min_amount d |}.

Definition target_of (d : Decider) (total : Amount) : option Amount :=
  t ← Amount.mul total (ddiv onchain_percent_min (d_of_Z 100));
  let t := if Amount.lt t (min_amount d) then min_amount d else t in
  let t := if Amount.gt t max_onchain_holdoff then max_onchain_holdoff else t in
  Some (Amount.add t (reserve d)).

(** [run] with [decide]; [None] is a conversion with undefined behaviour. *)
Definition run (d : Decider) : option (Decider * Out) :=
  match low_fee d, channels d, saved_onchain d with
  | Some low, Some chans, Some onchain =>
      let d' := take_onchain d in
      let total := Amount.add chans onchain in
      if Amount.le onchain (reserve d) then Some (d', Nothing)
      else
        target ← target_of d total;
        if Amount.lt onchain target then
          let more := Amount.sub (Amount.add target needs_reserve) onchain in
          Some (d', if Amount.gt more max_needs_onchain then Nothing else Needs more)
        else if (low : bool) then Some (d', Create (Amount.sub onchain (reserve d)))
        else
          let onchain_percent := dmul (Amount.ratio onchain total) (d_of_Z 100) in
          if dgt onchain_percent onchain_percent_max
          then Some (d', Create (Amount.sub onchain (reserve d)))
          else Some (d', Nothing)
  | _, _, _ => Some (d, Nothing)
  end.

Inductive Msg :=
| ChannelFunds (total : Amount)
| OnchainFee (fees_low : bool)
| OnchainFunds (onchain : Amount)
| AmountSettingsMsg (s : Settings.AmountSettings).

Definition on_msg (d : Decider) (m : Msg) : option (Decider * Out) :=
  match m with
  | ChannelFunds t =>
      run {| low_fee := low_fee d; channels := Some t; saved_onchain := saved_onchain d;
             reserve := reserve d; min_amount := min_amount d |}
  | OnchainFee b =>
      run {| low_fee := Some b; channels := channels d; saved_onchain := saved_onchain d;
             reserve := reserve d; min_amount := min_amount d |}
  | OnchainFunds a =>
      run {| low_fee := low_fee d; channels := channels d; saved_onchain := Some a;
             reserve := reserve d; min_amount := min_amount d |}
  | AmountSettingsMsg s =>
      Some ({| low_fee := low_fee d; channels := channels d; saved_onchain := saved_onchain d;
               reserve := Settings.reserve s; min_amount := Settings.min_amount s |}, Nothing)
  end.

Definition ranges (d : Decider) : Prop :=
  is_u64 (default 0 (channels d)) /\ is_u64 (default 0 (saved_onchain d))
  /\ 0 <= reserve d < 2 ^ 63 /\ is_u64 (min_amount d).

(** ** Lemmas *)

(** Scaling by at most one half is always defined. *)
Lemma mul_half_defined a f : is_u64 a -> (0 <= f <= 1 # 2)%Q -> is_Some (Amount.mul a (Fin f)).
Proof.
  intros Ha [Hf0 Hf1]. destruct (Amount.mul a (Fin f)) as [v|] eqn:E; [by eexists|].
  unfold Amount.mul in E. apply clamp_None in E.
  destruct (d_of_u64_finite a Ha) as (q & Eq & Hq0 & Hq1). rewrite Eq in E. simpl in E.
  assert (0 <= q * f)%Q as H0 by (apply Qmult_le_0_compat; done).
  assert (q * f <= inject_Z (2 ^ 63))%Q as H1.
  { apply Qle_trans with (inject_Z (2 ^ 64) * (1 # 2))%Q; [|discriminate].
    apply Qmult_le_compat_nonneg; done. }
  pose proof (RN_mono _ _ H0 H1) as L. change (RN (inject_Z (2 ^ 63))) with (Fin (inject_Z (2 ^ 63))) in L.
  exfalso. destruct E as [E|(r & E & Er)]; rewrite E in L; [done|].
  apply dle_Fin in L. rewrite Er in L. by apply L.
Qed.

Lemma tenth : exists f, ddiv onchain_percent_min (d_of_Z 100) = Fin f /\ (0 <= f <= 1 # 2)%Q.
Proof. eexists. split; [vm_compute; reflexivity|]. split; discriminate. Qed.

Lemma holdoff : max_onchain_holdoff = 100000000000.
Proof. reflexivity. Qed.

Lemma target_of_spec d total :
  is_u64 total -> is_u64 (reserve d) -> is_u64 (min_amount d) ->
  exists t, target_of d total = Some (Amount.add t (reserve d)) /\ is_u64 t
    /\ Z.min (min_amount d) max_onchain_holdoff <= t <= max_onchain_holdoff.
Proof.
  intros Ht Hr Hm. unfold target_of. destruct tenth as (f & -> & Hf).
  destruct (mul_half_defined total f Ht Hf) as [v Hv]. rewrite Hv. cbn [mbind option_bind].
  unfold Amount.mul in Hv. apply clamp_range in Hv.
  eexists. split; [done|]. unfold Amount.gt, Amount.lt. rewrite holdoff.
  destruct (Z.ltb_spec v (min_amount d));
    [destruct (Z.ltb_spec 100000000000 (min_amount d))|destruct (Z.ltb_spec 100000000000 v)]; split; ulia.
Qed.

Lemma run_defined d : ranges d -> is_Some (run d).
Proof.
  intros (Hc & Ho & Hr & Hm). unfold run. destruct (low_fee d) as [low|]; [|by eexists].
  destruct (channels d) as [chans|]; [|by eexists].
  destruct (saved_onchain d) as [onchain|]; [|by eexists]. simpl in Hc, Ho.
  destruct (Amount.le onchain (reserve d)); [by eexists|].
  destruct (target_of_spec d (Amount.add chans onchain)) as (t & -> & _);
    [by apply add_range|ulia|done|]. cbn [mbind option_bind].
  destruct (Amount.lt _ _); [by eexists|]. destruct low; [by eexists|]. destruct (dgt _ _); by eexists.
Qed.

(** ** Properties *)

(** The decision to create channels.  It is always reached, uses up the
    announcement of onchain funds, and is taken with fees low or with more than
    33 percent of the funds onchain; the request and the reserve add up to the
    onchain funds, and the request is at least the trigger amount (or 1 BTC, if
    that is less).  A request for more onchain funds is for at most 0.1 BTC, and
    brings the onchain funds to the target and the allowance for fees. *)
Theorem decider_request d :
  ranges d ->
  exists d' out, run d = Some (d', out) /\
    match out with
    | Nothing => True
    | Create actual =>
        exists onchain, saved_onchain d = Some onchain /\ saved_onchain d' = None
          /\ actual + reserve d = onchain
          /\ Z.min (min_amount d) max_onchain_holdoff <= actual
          /\ (low_fee d = Some true
              \/ dgt (dmul (Amount.ratio onchain (Amount.add (default 0 (channels d)) onchain))
                        (d_of_Z 100)) (d_of_Z 33) = true)
    | Needs more =>
        exists onchain target, saved_onchain d = Some onchain /\ saved_onchain d' = None
          /\ target_of d (Amount.add (default 0 (channels d)) onchain) = Some target
          /\ onchain < target /\ more <= max_needs_onchain
          /\ onchain + more = Amount.add target needs_reserve
    end.
Proof.
  intros Hd. destruct (run_defined d Hd) as [[d' out] E]. exists d', out. split; [done|].
  destruct Hd as (Hc & Ho & Hr & Hm). unfold run in E.
  destruct (low_fee d) as [low|]; [|by simplify_eq].
  destruct (channels d) as [chans|]; [|by simplify_eq].
  destruct (saved_onchain d) as [onchain|]; [|by simplify_eq]. simpl in Hc, Ho |- *.
  rewrite le_spec in E. destruct (Z.leb_spec onchain (reserve d)) as [L|L]; [by simplify_eq|].
  destruct (target_of_spec d (Amount.add chans onchain)) as (t & Et & Hut & Ht);
    [by apply add_range|ulia|done|]. rewrite Et in E. cbn [mbind option_bind] in E.
  unfold Amount.lt in E. rewrite holdoff in Ht. rewrite add_spec in E by ulia.
  rewrite holdoff.
  assert (Amount.sub onchain (reserve d) = onchain - reserve d) as Es.
  { unfold Amount.sub. rewrite Z.gtb_ltb, (proj2 (Z.ltb_ge _ _)) by lia. done. }
  destruct (Z.ltb_spec onchain (Z.min (t + reserve d) UINT64_MAX)) as [L2|L2].
  - unfold Amount.gt, Amount.lt in E. destruct (Z.ltb_spec max_needs_onchain
      (Amount.sub (Amount.add (Z.min (t + reserve d) UINT64_MAX) needs_reserve) onchain)); [by simplify_eq|].
    injection E as <- <-. exists onchain, (Amount.add t (reserve d)).
    rewrite (add_spec t (reserve d)) in Et |- * by ulia. split_and!; try done.
    assert (onchain <= Amount.add (Z.min (t + reserve d) UINT64_MAX) needs_reserve).
    { change needs_reserve with 30000000. rewrite add_spec by ulia. ulia. }
    unfold Amount.sub. rewrite Z.gtb_ltb, (proj2 (Z.ltb_ge _ _)) by lia. lia.
  - assert (t <= onchain - reserve d) by ulia.
    destruct low; [|destruct (dgt _ _) eqn:Ed; [|by simplify_eq]];
      injection E as <- <-; exists onchain; rewrite Es; split_and!; try done; try lia; by auto.
Qed.

Definition demo_decider : Decider :=
  {| low_fee := Some true; channels := Some 900000000; saved_onchain := Some 1700000000;
     reserve := 100000000; min_amount := 1000000000 |}.

Lemma decider_request_witness : exists d', run demo_decider = Some (d', Create 1600000000).
Proof.
  destruct (decider_request demo_decider) as (d' & out & E & _).
  - repeat split; vm_compute; congruence.
  - exists d'. rewrite E. vm_compute in E. injection E as _ <-. reflexivity.
Defined.

End Decider.

(** ** The order of the proposals *)

Module Order.

Section Order.

Context {K : Type}.
Notation Proposal := (K * K)%type.

(** *** [RearrangerBySize]: groups of three, largest capacity first within a
    group.  [std::sort] leaves the order of equal capacities open; on ranges this
    short it is an insertion sort, which keeps it. *)

Definition group_by : nat := 3.

Fixpoint insert_desc (x : Proposal * Amount) (l : list (Proposal * Amount)) : list (Proposal * Amount) :=
  match l with
  | [] => [x]
  | y :: l' => if Amount.gt y.2 x.2 || (y.2 =? x.2) then y :: insert_desc x l' else x :: l
  end.

Definition sort_desc (l : list (Proposal * Amount)) : list (Proposal * Amount) :=
  foldl (fun acc x => insert_desc x acc) [] l.

(** The loop over the groups; the fuel bounds the number of groups. *)
Fixpoint sort_groups (fuel : nat) (l : list (Proposal * Amount)) : list (Proposal * Amount) :=
  match fuel, l with
  | S f, _ :: _ => sort_desc (take group_by l) ++ sort_groups f (drop group_by l)
  | _, _ => []
  end.

Definition rearrange_by_size (dowser : K -> K -> Amount) (proposals : list Proposal) : list Proposal :=
  map fst (sort_groups (length proposals) (map (fun p => (p, dowser p.1 p.2)) proposals)).

(** *** [Reprioritizer]: fewer nodes in the same network location first *)

Context (get_bin_of : K -> Z).

Definition nat_lt (a b : nat) : bool := bool_decide (a < b)%nat.

(** [nodes_per_bin[bin]], 0 when absent. *)
Fixpoint bin_count (bin : Z) (m : list (Z * nat)) : nat :=
  match m with
  | [] => 0
  | (b, n) :: m' => if b =? bin then n else bin_count bin m'
  end.

Definition bump (m : list (Z * nat)) (bin : Z) : list (Z * nat) :=
  StdMap.set Z.ltb bin (S (bin_count bin m)) m.

(** [nodes_per_binsize[size].push_back(p)]. *)
Fixpoint push (size : nat) (p : Proposal) (m : list (nat * list Proposal)) : list (nat * list Proposal) :=
  match m with
  | [] => [(size, [p])]
  | (s, l) :: m' =>
      if nat_lt size s then (size, [p]) :: m
      else if nat_lt s size then (s, l) :: push size p m'
      else (s, l ++ [p]) :: m'
  end.

Fixpoint reprioritize_loop (bins : list (Z * nat)) (sizes : list (nat * list Proposal))
    (proposals : list Proposal) : list (nat * list Proposal) :=
  match proposals with
  | [] => sizes
  | p :: ps =>
      let bin := get_bin_of p.1 in
      reprioritize_loop (bump bins bin) (push (bin_count bin bins) p sizes) ps
  end.

Definition reprioritize (peers : list K) (proposals : list Proposal) : list Proposal :=
  concat (map snd (reprioritize_loop (foldl (fun m n => bump m (get_bin_of n)) [] peers) [] proposals)).

(** *** [prioritize_by_track_record] *)

Inductive Verdict := Keeper | NoRecord | Underperformer.

#[global] Instance Verdict_eq_dec : EqDecision Verdict.
Proof. solve_decision. Defined.

Context (verdict : K -> Verdict) (prefer_spliceable : bool) (is_spliceable : K -> bool).

Definition spliceable (n : K) : bool := prefer_spliceable && is_spliceable n.

Definition prioritize_by_track_record (proposals : list Proposal) : list Proposal :=
  let tier v := filter (fun p : Proposal => verdict p.1 = v) proposals in
  let no_records := tier NoRecord in
  tier Keeper
  ++ (filter (fun p => spliceable p.1 = true) no_records
      ++ filter (fun p => spliceable p.1 = false) no_records)
  ++ tier Underperformer.

(** *** [drop_channeled]; [None] is an error of [listpeerchannels] *)

Definition drop_channeled (channeled : option (K -> bool)) (proposals : list Proposal) : list Proposal :=
  match channeled with
  | None => []
  | Some c => filter (fun p => c p.1 = false) proposals
  end.

(** The proposals as the planner gets them. *)
Definition pipeline (channeled : option (K -> bool)) (dowser : K -> K -> Amount) (peers : list K)
    (proposals : list Proposal) : list Proposal :=
  prioritize_by_track_record
    (reprioritize peers (rearrange_by_size dowser (drop_channeled channeled proposals))).

(** ** Lemmas *)

Lemma insert_desc_perm x l : insert_desc x l ≡ₚ x :: l.
Proof.
  induction l as [|y l IH]; simpl; [done|]. destruct (_ || _); [|done]. rewrite IH. apply perm_swap.
Qed.

Lemma sort_desc_perm l : sort_desc l ≡ₚ l.
Proof.
  unfold sort_desc. assert (forall acc, foldl (fun acc x => insert_desc x acc) acc l ≡ₚ l ++ acc) as H.
  { induction l as [|x l IH]; intros acc; simpl; [done|]. rewrite IH, insert_desc_perm.
    by rewrite <- Permutation_middle. }
  by rewrite H, app_nil_r.
Qed.

Definition desc (l : list (Proposal * Amount)) : Prop := StronglySorted (fun a b => b.2 <= a.2) l.

Lemma insert_desc_sorted x l : desc l -> desc (insert_desc x l).
Proof.
  induction 1 as [|y l Hl IH Hy]; simpl; [repeat constructor|].
  unfold Amount.gt, Amount.lt. destruct ((x.2 <? y.2) || (y.2 =? x.2)) eqn:E.
  - constructor; [done|]. rewrite insert_desc_perm. constructor; [|done].
    apply orb_true_iff in E as [E|E]; to_prop; lia.
  - apply orb_false_iff in E as [E1 E2]. to_prop. constructor; [by constructor|].
    constructor; [lia|]. eapply Forall_impl; [done|]. intros z Hz. simpl in Hz. lia.
Qed.

Lemma sort_desc_sorted l : desc (sort_desc l).
Proof.
  unfold sort_desc. assert (forall acc, desc acc -> desc (foldl (fun acc x => insert_desc x acc) acc l)) as H.
  { induction l as [|x l IH]; intros acc Hacc; simpl; [done|]. by apply IH, insert_desc_sorted. }
  apply H. constructor.
Qed.

(** Up to every multiple of the group size, the groups are permuted among themselves. *)
Lemma sort_groups_prefix fuel : forall l k,
  (length l <= fuel)%nat -> take (k * group_by) (sort_groups fuel l) ≡ₚ take (k * group_by) l.
Proof.
  induction fuel as [|f IH]; intros l k Hl.
  { destruct l; [|simpl in Hl; lia]. simpl. done. }
  destruct l as [|x l]; [done|]. destruct k as [|k]; [done|].
  unfold sort_groups; fold sort_groups. set (l0 := x :: l) in *.
  pose proof (sort_desc_perm (take group_by l0)) as P. apply Permutation_length in P as PL.
  replace (S k * group_by)%nat with (group_by + k * group_by)%nat by lia.
  rewrite length_take in PL.
  destruct (decide (group_by <= length l0)%nat) as [G|G].
  - rewrite Nat.min_l in PL by done.
    rewrite take_app_ge by lia. rewrite PL. replace (group_by + k * group_by - group_by)%nat with (k * group_by)%nat by lia.
    rewrite IH, P by (rewrite length_drop; unfold l0 in *; simpl in *; unfold group_by; lia).
    rewrite <- (take_drop group_by l0) at 3. rewrite take_app_ge; rewrite length_take_le by done; [|lia].
    replace (group_by + k * group_by - group_by)%nat with (k * group_by)%nat by lia. done.
  - rewrite (drop_ge l0) by lia.
    assert (sort_groups f [] = []) as -> by (by destruct f). rewrite app_nil_r.
    rewrite take_ge by lia. rewrite P, (take_ge l0 group_by), take_ge by lia. done.
Qed.

Lemma sort_groups_perm fuel l : (length l <= fuel)%nat -> sort_groups fuel l ≡ₚ l.
Proof.
  intros Hl. assert (forall m : list (Proposal * Amount), (length m <= length l * group_by)%nat -> take (length l * group_by) m = m) as Ht
    by (intros; by apply take_ge).
  assert (length (sort_groups fuel l) <= length l * group_by)%nat as Hlen.
  { clear Ht. revert l Hl. induction fuel as [|f IH]; intros [|x l] Hl; simpl; try lia.
    rewrite length_app. pose proof (Permutation_length (sort_desc_perm (x :: take 2 l))) as P.
    rewrite P. specialize (IH (drop 2 l)). rewrite length_drop in IH. simpl in *.
    rewrite length_take. unfold group_by in *. lia. }
  pose proof (sort_groups_prefix fuel l (length l) Hl) as P.
  rewrite !Ht in P by (unfold group_by in *; lia). done.
Qed.

(** The proposals tagged with the number of nodes in their location, as the loop
    counts them: the peers there, and the earlier proposals there. *)
Fixpoint tags (bins : list (Z * nat)) (proposals : list Proposal) : list (nat * Proposal) :=
  match proposals with
  | [] => []
  | p :: ps => (bin_count (get_bin_of p.1) bins, p) :: tags (bump bins (get_bin_of p.1)) ps
  end.

Definition flat (m : list (nat * list Proposal)) : list (nat * Proposal) :=
  concat (map (fun '(s, l) => map (pair s) l) m).

Definition keys_sorted (m : list (nat * list Proposal)) : Prop := StronglySorted Nat.lt (map fst m).

Definition with_tag (s : nat) (l : list (nat * Proposal)) : list (nat * Proposal) :=
  filter (fun t => t.1 = s) l.

Lemma flat_snd m : map snd (flat m) = concat (map snd m).
Proof.
  unfold flat. induction m as [|[s l] m IH]; simpl; [done|]. rewrite map_app, IH, map_map. simpl.
  by rewrite map_id.
Qed.

Lemma nat_lt_spec a b : reflect (a < b)%nat (nat_lt a b).
Proof. unfold nat_lt. case_bool_decide; by constructor. Qed.

Lemma push_keys size p m :
  forall k, k ∈ map fst (push size p m) <-> k = size \/ k ∈ map fst m.
Proof.
  induction m as [|[s l] m IH]; intros k; simpl; [by rewrite list_elem_of_singleton, elem_of_nil; naive_solver|].
  destruct (nat_lt_spec size s); simpl; [by rewrite elem_of_cons|].
  destruct (nat_lt_spec s size); simpl; rewrite !elem_of_cons; [rewrite IH; naive_solver|].
  assert (s = size) by lia. naive_solver.
Qed.

Lemma push_sorted size p m : keys_sorted m -> keys_sorted (push size p m).
Proof.
  unfold keys_sorted. induction m as [|[s l] m IH]; intros H; simpl; [repeat constructor|].
  simpl in H. inversion H as [|?? Hm Hs]; subst. rewrite Forall_forall in Hs.
  destruct (nat_lt_spec size s); simpl.
  { constructor; [done|]. constructor; [done|]. apply Forall_forall. intros k Hk. specialize (Hs k Hk). lia. }
  destruct (nat_lt_spec s size); simpl; constructor; [by apply IH| |done|by apply Forall_forall].
  apply Forall_forall. intros k Hk. apply push_keys in Hk as [->|Hk]; [done|]. by apply Hs.
Qed.

Lemma with_tag_absent s m : s ∉ map fst m -> with_tag s (flat m) = [].
Proof.
  intros Hs. apply elem_of_nil_inv. intros t Ht. apply list_elem_of_filter in Ht as [Et Ht].
  apply Hs. unfold flat in Ht. apply list_elem_of_In, in_concat in Ht as (x & Hx & Ht).
  apply in_map_iff in Hx as ([s' l] & <- & Hm). apply in_map_iff in Ht as (p & <- & _).
  simpl in Et. subst s'. apply list_elem_of_In. by apply (in_map fst _ _ Hm).
Qed.

Lemma with_tag_app s a b : with_tag s (a ++ b) = with_tag s a ++ with_tag s b.
Proof. apply filter_app. Qed.

Lemma with_tag_other s s' p : s <> s' -> with_tag s [(s', p)] = [].
Proof. intros H. unfold with_tag. rewrite filter_cons, decide_False by (simpl; congruence). done. Qed.

Lemma flat_cons s l m : flat ((s, l) :: m) = map (pair s) l ++ flat m.
Proof. done. Qed.

Lemma push_tag s size p m :
  keys_sorted m ->
  with_tag s (flat (push size p m)) = with_tag s (flat m) ++ with_tag s [(size, p)].
Proof.
  unfold keys_sorted. induction m as [|[s' l] m IH]; intros H; [done|]. cbn [push].
  simpl in H. inversion H as [|?? Hm Hs]; subst. rewrite Forall_forall in Hs.
  destruct (nat_lt_spec size s') as [L|L].
  { rewrite (flat_cons size). cbn [map]. rewrite with_tag_app.
    destruct (decide (s = size)) as [->|Hne].
    - rewrite (with_tag_absent size ((s', l) :: m)); [by rewrite app_nil_r|].
      simpl. intros Hk. apply elem_of_cons in Hk as [->|Hk]; [lia|]. specialize (Hs _ Hk). lia.
    - rewrite with_tag_other by done. by rewrite app_nil_r. }
  destruct (nat_lt_spec s' size) as [L2|L2].
  { rewrite !flat_cons, !with_tag_app, IH by done. by rewrite app_assoc. }
  assert (s' = size) as -> by lia. rewrite !flat_cons, map_app, !with_tag_app, <- !app_assoc. f_equal.
  cbn [map]. destruct (decide (s = size)) as [->|Hne].
  - rewrite (with_tag_absent size m); [by rewrite app_nil_r|]. intros Hk. specialize (Hs _ Hk). lia.
  - rewrite with_tag_other by done. by rewrite app_nil_r.
Qed.

Lemma loop_tags ps : forall bins sizes, keys_sorted sizes ->
  keys_sorted (reprioritize_loop bins sizes ps)
  /\ forall s, with_tag s (flat (reprioritize_loop bins sizes ps))
      = with_tag s (flat sizes) ++ with_tag s (tags bins ps).
Proof.
  induction ps as [|p ps IH]; intros bins sizes Hs; simpl; [by split; [|intros; rewrite app_nil_r]|].
  destruct (IH (bump bins (get_bin_of p.1)) (push (bin_count (get_bin_of p.1) bins) p sizes)) as [H1 H2];
    [by apply push_sorted|]. split; [done|]. intros s. rewrite H2, push_tag by done.
  rewrite <- app_assoc. f_equal. unfold with_tag. by rewrite <- filter_app.
Qed.

Lemma flat_sorted m : keys_sorted m -> StronglySorted Nat.le (map fst (flat m)).
Proof.
  unfold keys_sorted, flat. induction m as [|[s l] m IH]; intros H; simpl; [constructor|].
  simpl in H. inversion H as [|?? Hm Hs]; subst. rewrite Forall_forall in Hs. specialize (IH Hm).
  rewrite map_app, map_map. simpl.
  assert (Forall (Nat.le s) (map fst (concat (map (fun '(s, l) => map (pair s) l) m)))) as Hall.
  { apply Forall_forall. intros k Hk. apply list_elem_of_fmap in Hk as ([k' p] & -> & Hk).
    apply list_elem_of_In, in_concat in Hk as (x & Hx & Hk).
    apply in_map_iff in Hx as ([s' l'] & <- & Hin). apply in_map_iff in Hk as (q & [= <- <-] & _).
    simpl. apply Nat.lt_le_incl, Hs, list_elem_of_In. by apply (in_map fst _ _ Hin). }
  induction l as [|p l IHl]; simpl; [done|]. constructor; [done|].
  apply Forall_app. split; [|done]. rewrite Forall_map. by apply Forall_true.
Qed.

Lemma tags_snd ps : forall bins, map snd (tags bins ps) = ps.
Proof. induction ps as [|p ps IH]; intros bins; simpl; [done|]. by rewrite IH. Qed.

Lemma with_tag_perm (a b : list (nat * Proposal)) :
  (forall s, with_tag s a = with_tag s b) -> a ≡ₚ b.
Proof.
  revert b. induction a as [|[s p] a IH]; intros b H.
  - destruct b as [|[s p] b]; [done|]. specialize (H s). unfold with_tag in H.
    rewrite filter_cons, decide_True in H by done. done.
  - pose proof (H s) as Hs. unfold with_tag in Hs at 1. rewrite filter_cons, decide_True in Hs by done.
    assert ((s, p) ∈ b) as Hin.
    { apply (list_elem_of_filter (fun t : nat * Proposal => t.1 = s)). unfold with_tag in Hs.
      rewrite <- Hs. left. }
    assert (exists b1 b2, b = b1 ++ (s, p) :: b2 /\ with_tag s b1 = []) as (b1 & b2 & -> & Hb1).
    { clear -Hs. unfold with_tag in *. induction b as [|[s' q] b IHb]; [done|].
      rewrite filter_cons in Hs. case_decide as E; simpl in E.
      - subst s'. injection Hs as <- _. by exists [], b.
      - destruct (IHb Hs) as (b1 & b2 & -> & Hb). exists ((s', q) :: b1), b2. split; [done|].
        rewrite filter_cons, decide_False by done. done. }
    rewrite <- Permutation_middle. constructor. apply IH. intros s'. specialize (H s').
    unfold with_tag in *. rewrite filter_cons, filter_app, filter_cons in H. rewrite filter_app.
    destruct (decide (s = s')) as [<-|Hne].
    + rewrite !decide_True in H by done. rewrite Hb1 in H |- *. by injection H.
    + rewrite !decide_False in H by done. done.
Qed.

Lemma reprioritize_perm peers ps : reprioritize peers ps ≡ₚ ps.
Proof.
  unfold reprioritize. set (bins := foldl _ _ peers).
  destruct (loop_tags ps bins [] ltac:(constructor)) as [_ H].
  apply with_tag_perm in H. rewrite <- flat_snd, H. by rewrite tags_snd.
Qed.

Lemma rearrange_perm dowser ps : rearrange_by_size dowser ps ≡ₚ ps.
Proof.
  unfold rearrange_by_size. rewrite sort_groups_perm by (by rewrite length_map).
  rewrite map_map. simpl. by rewrite map_id.
Qed.

Lemma filter_split {A} (P : A -> Prop) `{!forall x, Decision (P x)} (Q : A -> Prop)
    `{!forall x, Decision (Q x)} l :
  (forall x, Q x <-> ~ P x) -> filter P l ++ filter Q l ≡ₚ l.
Proof.
  intros HPQ. induction l as [|x l IH]; [done|]. rewrite !filter_cons. specialize (HPQ x).
  destruct (decide (P x)), (decide (Q x)); try tauto; simpl.
  - by rewrite IH.
  - by rewrite <- Permutation_middle, IH.
Qed.

Lemma track_record_perm ps : prioritize_by_track_record ps ≡ₚ ps.
Proof.
  unfold prioritize_by_track_record.
  rewrite (filter_split (fun p : Proposal => spliceable p.1 = true))
    by (intros x; destruct (spliceable x.1); naive_solver).
  induction ps as [|p ps IH]; [done|]. rewrite !filter_cons.
  destruct (verdict p.1); repeat case_decide; try congruence.
  - simpl. by rewrite IH.
  - simpl. rewrite <- Permutation_middle. by rewrite IH.
  - rewrite <- !Permutation_middle. by rewrite IH.
Qed.

Lemma pipeline_perm channeled dowser peers ps :
  pipeline channeled dowser peers ps ≡ₚ drop_channeled channeled ps.
Proof. unfold pipeline. by rewrite track_record_perm, reprioritize_perm, rearrange_perm. Qed.

Lemma sort_groups_group fuel : forall l k,
  (length l <= fuel)%nat ->
  take group_by (drop (k * group_by) (sort_groups fuel l)) = sort_desc (take group_by (drop (k * group_by) l)).
Proof.
  induction fuel as [|f IH]; intros l k Hl.
  { destruct l; [|simpl in Hl; lia]. simpl. by rewrite drop_nil. }
  destruct l as [|x l]; [simpl; by rewrite !drop_nil|].
  unfold sort_groups; fold sort_groups. set (l0 := x :: l) in *.
  pose proof (Permutation_length (sort_desc_perm (take group_by l0))) as PL. rewrite length_take in PL.
  destruct (decide (group_by <= length l0)%nat) as [G|G].
  - rewrite Nat.min_l in PL by done. destruct k as [|k].
    + rewrite Nat.mul_0_l, !drop_0. rewrite take_app_le by lia. rewrite take_ge by lia. done.
    + replace (S k * group_by)%nat with (group_by + k * group_by)%nat by lia.
      rewrite drop_app_ge by lia. rewrite PL.
      replace (group_by + k * group_by - group_by)%nat with (k * group_by)%nat by lia.
      rewrite IH by (rewrite length_drop; unfold l0 in *; simpl in *; unfold group_by; lia).
      by rewrite drop_drop.
  - rewrite (drop_ge l0 group_by) by lia.
    assert (sort_groups f [] = []) as -> by (by destruct f). rewrite app_nil_r.
    destruct k as [|k]; [rewrite Nat.mul_0_l, !drop_0; rewrite take_ge by lia; done|].
    rewrite !drop_ge by (unfold group_by in *; lia). done.
Qed.

Lemma sort_groups_fst_dowser fuel dowser l :
  (length l <= fuel)%nat -> Forall (fun pc => pc.2 = dowser pc.1.1 pc.1.2) l ->
  Forall (fun pc : Proposal * Amount => pc.2 = dowser pc.1.1 pc.1.2) (sort_groups fuel l).
Proof. intros Hl H. by rewrite sort_groups_perm. Qed.

(** Sorted by what the dowser says, largest first. *)
Definition largest_first (dowser : K -> K -> Amount) (l : list Proposal) : Prop :=
  StronglySorted (fun a b => dowser b.1 b.2 <= dowser a.1 a.2) l.

Lemma desc_largest_first dowser l :
  desc l -> Forall (fun pc => pc.2 = dowser pc.1.1 pc.1.2) l -> largest_first dowser (map fst l).
Proof.
  unfold largest_first. induction 1 as [|x l Hl IH Hx]; intros F; simpl; [constructor|].
  apply Forall_cons in F as [Fx F]. constructor; [by apply IH|]. rewrite Forall_map.
  rewrite Forall_forall in Hx, F |- *. intros y Hy. specialize (Hx y Hy). specialize (F y Hy).
  simpl in *. congruence.
Qed.

Definition tier (n : K) : nat := match verdict n with Keeper => 0 | NoRecord => 1 | Underperformer => 2 end.

Lemma tiers_sorted ps : StronglySorted (fun a b : Proposal => (tier a.1 <= tier b.1)%nat) (prioritize_by_track_record ps).
Proof.
  assert (forall l k, Forall (fun p : Proposal => tier p.1 = k) l ->
    StronglySorted (fun a b : Proposal => (tier a.1 <= tier b.1)%nat) l) as Hone.
  { intros l k. induction 1 as [|x l Hx Hl IH]; constructor; [done|].
    eapply Forall_impl; [done|]. intros y Hy. simpl in *. lia. }
  assert (forall v, Forall (fun p : Proposal => verdict p.1 = v) (filter (fun p : Proposal => verdict p.1 = v) ps)) as Hf
    by (intros v; apply Forall_forall; intros p Hp; by apply list_elem_of_filter in Hp as [? _]).
  assert (forall l1 l2 k, Forall (fun p : Proposal => (tier p.1 <= k)%nat) l1 ->
    Forall (fun p : Proposal => (k <= tier p.1)%nat) l2 ->
    StronglySorted (fun a b : Proposal => (tier a.1 <= tier b.1)%nat) l1 ->
    StronglySorted (fun a b : Proposal => (tier a.1 <= tier b.1)%nat) l2 ->
    StronglySorted (fun a b : Proposal => (tier a.1 <= tier b.1)%nat) (l1 ++ l2)) as Happ.
  { intros l1 l2 k H1 H2 S1 S2. induction S1 as [|x l1 S1 IH Hx]; [done|]. apply Forall_cons in H1 as [Hxk H1].
    constructor; [by apply IH|]. apply Forall_app. split; [done|].
    eapply Forall_impl; [done|]. intros y Hy. simpl in *. lia. }
  unfold prioritize_by_track_record.
  set (nr := filter _ (filter (fun p : Proposal => verdict p.1 = NoRecord) ps) ++ filter _ _).
  assert (Forall (fun p : Proposal => tier p.1 = 1%nat) nr) as Hnr.
  { unfold nr. rewrite (filter_split (fun p : Proposal => spliceable p.1 = true))
      by (intros x; destruct (spliceable x.1); naive_solver).
    eapply Forall_impl; [apply Hf|]. intros p Hp. unfold tier. simpl in Hp. by rewrite Hp. }
  apply (Happ _ _ 0%nat); [| | |apply (Happ _ _ 1%nat)].
  - eapply Forall_impl; [apply Hf|]. intros p Hp. unfold tier. simpl in Hp. by rewrite Hp.
  - apply Forall_true. intros; lia.
  - apply (Hone _ 0%nat). eapply Forall_impl; [apply Hf|]. intros p Hp. unfold tier. simpl in Hp. by rewrite Hp.
  - eapply Forall_impl; [exact Hnr|]. intros p Hp. simpl in Hp. lia.
  - eapply Forall_impl; [apply Hf|]. intros p Hp. unfold tier. simpl in Hp. rewrite Hp. lia.
  - by apply (Hone _ 1%nat).
  - apply (Hone _ 2%nat). eapply Forall_impl; [apply Hf|]. intros p Hp. unfold tier. simpl in Hp. by rewrite Hp.
Qed.

End Order.

(** ** Properties *)

(** The three reorderings of the proposals.  Sorting by size permutes each
    group of three consecutive proposals and puts the largest capacity of a group
    first; reprioritizing sorts them by the number of nodes already in their
    network location (peers, and proposals ahead of them) and keeps the order
    within such a number; the track record puts proven earners before unknown
    nodes before underperformers; and what reaches the planner is a permutation
    of the candidates without a channel. *)
Theorem proposals_order {K} (get_bin_of : K -> Z) (verdict : K -> Verdict) prefer is_spliceable
    dowser peers channeled (ps : list (K * K)) :
  (forall k, take (k * 3) (rearrange_by_size dowser ps) ≡ₚ take (k * 3) ps
     /\ largest_first dowser (take 3 (drop (k * 3) (rearrange_by_size dowser ps))))
  /\ (exists tagged, map snd tagged = reprioritize get_bin_of peers ps
        /\ StronglySorted Nat.le (map fst tagged)
        /\ forall n, with_tag n tagged
             = with_tag n (tags get_bin_of (foldl (fun m n => bump m (get_bin_of n)) [] peers) ps))
  /\ StronglySorted (fun a b => (tier verdict a.1 <= tier verdict b.1)%nat)
       (prioritize_by_track_record verdict prefer is_spliceable ps)
  /\ pipeline get_bin_of verdict prefer is_spliceable channeled dowser peers ps
      ≡ₚ drop_channeled channeled ps.
Proof.
  split_and!; [|exists (flat (reprioritize_loop get_bin_of
    (foldl (fun m n => bump m (get_bin_of n)) [] peers) [] ps))|apply tiers_sorted|apply pipeline_perm].
  - intros k. unfold rearrange_by_size. set (l := map _ ps).
    assert (length l <= length ps)%nat as Hl by (unfold l; by rewrite length_map).
    assert (map fst l = ps) as El by (unfold l; rewrite map_map; apply map_id).
    rewrite skipn_map, !firstn_map. split.
    + rewrite (sort_groups_prefix _ l k Hl), <- firstn_map. by rewrite El.
    + pose proof (sort_groups_group _ l k Hl) as E. unfold group_by in E. rewrite E. apply desc_largest_first; [apply sort_desc_sorted|].
      rewrite sort_desc_perm. apply Forall_take, Forall_drop. unfold l. rewrite Forall_map. by apply Forall_true.
  - set (bins := foldl _ _ peers). destruct (loop_tags get_bin_of ps bins [] ltac:(constructor)) as [H1 H2].
    split; [by rewrite flat_snd|]. split; [by apply flat_sorted|exact H2].
Qed.

End Order.

(** ** [ChannelCreator::Manager]: one cycle at a time *)

Module Manager.

Section Manager.

Context {K : Type} (lt : K -> K -> bool).

(** Where a running cycle is: collecting the answers it plans with, or waiting for
    its last actions (the carpenter, a log entry) to end. *)
Inductive Phase := Collecting (amt : Amount) | Ending.

(** [cycle_running] is [cycle <> None]. *)
Record Manager := {
  rpc : bool;
  offline : bool;
  min_amount : Amount;
  max_amount : Amount;
  min_remaining : Amount;
  prefer_spliceable : bool;
  cycle : option Phase
}.

Definition initial : Manager :=
  {| rpc := false; offline := false; min_amount := 0; max_amount := 0; min_remaining := 0;
     prefer_spliceable := true; cycle := None |}.

Definition set_cycle (m : Manager) (c : option Phase) : Manager :=
  {| rpc := rpc m; offline := offline m; min_amount := min_amount m; max_amount := max_amount m;
     min_remaining := min_remaining m; prefer_spliceable := prefer_spliceable m; cycle := c |}.

(** What a cycle learns from the node and from other modules before it plans:
    [getinfo], the investigator, [listpeerchannels], the dowser, [listpeers] and
    [listnodes], the track records, and the random engine. *)
Record Answers := {
  num_chans : nat;
  candidates : list (K * K);
  channeled : option (K -> bool);
  dowser : K -> K -> Amount;
  peers : list K;
  get_bin_of : K -> Z;
  verdict : K -> Order.Verdict;
  is_spliceable : K -> bool;
  random_index : nat -> nat
}.

(** An option's value: a boolean at startup, a string from [setconfig]. *)
Inductive Value := VBool (b : bool) | VString (str : bytes) | VOther.

Inductive Event :=
| AmountSettingsMsg (s : Settings.AmountSettings)
| OptionMsg (name : bytes) (value : Value)
| InitMsg (off : bool)
| Request (amt : Amount)
| Collected (a : Answers)
| Ended
| CycleError.

(** [Solicit] is [Msg::SolicitChannelCandidates], [Construct] the call of the
    carpenter, [Reject] that of [Option::reject]. *)
Inductive Out := Solicit | Construct (plan : list (K * Amount)) | Reject.

Definition on_settings (m : Manager) (s : Settings.AmountSettings) : Manager :=
  {| rpc := rpc m; offline := offline m; min_amount := Settings.min_channel s;
     max_amount := Settings.max_channel s; min_remaining := Settings.min_remaining s;
     prefer_spliceable := prefer_spliceable m; cycle := cycle m |}.

Definition on_init (m : Manager) (off : bool) : Manager :=
  {| rpc := true; offline := off; min_amount := min_amount m; max_amount := max_amount m;
     min_remaining := min_remaining m; prefer_spliceable := prefer_spliceable m; cycle := cycle m |}.

Definition set_prefer (m : Manager) (b : bool) : Manager :=
  {| rpc := rpc m; offline := offline m; min_amount := min_amount m; max_amount := max_amount m;
     min_remaining := min_remaining m; prefer_spliceable := b; cycle := cycle m |}.

Definition on_option (m : Manager) (name : bytes) (value : Value) : Manager * list Out :=
  if decide (name <> lit "clboss-candidate-prefer-spliceable") then (m, [])
  else
    match value with
    | VBool b => (set_prefer m b, [])
    | VString str =>
        if decide (str = lit "true") then (set_prefer m true, [])
        else if decide (str = lit "false") then (set_prefer m false, [])
        else (m, [Reject])
    | VOther => (m, [Reject])
    end.

(** The checks at the start of [on_request_channel_creation]. *)
Definition admits (m : Manager) (amt : Amount) : option bool :=
  if offline m then Some false
  else
    two ← Amount.mul (min_amount m) (d_of_Z 2);
    if Amount.lt amt two then Some false
    else Some (negb (Amount.gt (Amount.add (min_amount m) (min_remaining m)) (max_amount m))).

Definition on_request (m : Manager) (amt : Amount) : option Manager :=
  if negb (rpc m) then Some m
  else
    match cycle m with
    | Some _ => Some m
    | None => b ← admits m amt; Some (set_cycle m (Some (if (b : bool) then Collecting amt else Ending)))
    end.

(** The proposals after the stages between [drop_channeled] and the planner. *)
Definition staged (m : Manager) (a : Answers) : list (K * K) :=
  Order.pipeline (get_bin_of a) (verdict a) (prefer_spliceable m) (is_spliceable a)
    (channeled a) (dowser a) (peers a) (candidates a).

(** The planner as the cycle constructs it: the amount of the request, and the
    settings of the moment. *)
Definition planner (m : Manager) (a : Answers) (amt : Amount) : Planner.Params K :=
  Planner.make amt (staged m a) (num_chans a) (min_amount m) (max_amount m) (min_remaining m).

Definition plan_is_empty (plan : list (K * Amount)) : bool :=
  forallb (fun kv => Amount.eq kv.2 (Amount.sat 0)) plan.

Definition on_collected (m : Manager) (a : Answers) (amt : Amount) : option (Manager * list Out) :=
  plan ← Planner.run lt (dowser a) (random_index a) (planner m a amt);
  Some (set_cycle m (Some Ending),
        (if plan_is_empty plan then [Solicit] else [])
        ++ match plan with [] => [] | _ :: _ => [Construct plan] end).

(** One event; [None] is undefined behaviour or a failed assertion of the planner,
    which aborts the process. *)
Definition step (m : Manager) (e : Event) : option (Manager * list Out) :=
  match e with
  | AmountSettingsMsg s => Some (on_settings m s, [])
  | OptionMsg name value => Some (on_option m name value)
  | InitMsg off => Some (on_init m off, [])
  | Request amt => m' ← on_request m amt; Some (m', [])
  | Collected a =>
      match cycle m with
      | Some (Collecting amt) => on_collected m a amt
      | _ => Some (m, [])
      end
  | Ended => Some (match cycle m with Some Ending => set_cycle m None | _ => m end, [])
  | CycleError => Some (set_cycle m None, [])
  end.

Fixpoint steps (m : Manager) (es : list Event) : option (Manager * list Out) :=
  match es with
  | [] => Some (m, [])
  | e :: es =>
      '(m1, o1) ← step m e;
      '(m2, o2) ← steps m1 es;
      Some (m2, o1 ++ o2)
  end.

End Manager.

Arguments Phase : clear implicits.
Arguments Answers : clear implicits.
Arguments Event : clear implicits.
Arguments Out : clear implicits.

Section Correct.

Context {K : Type} (ok : K -> Prop) (lt : K -> K -> bool) `{!KeyOrder ok lt}.

(** The candidates are distinct (they are keys of a database table), capacities
    are amounts, and a random index is an index. *)
Record answers_ok (a : Answers K) : Prop := {
  ao_nodup : NoDup (map fst (candidates a));
  ao_ok : Forall ok (map fst (candidates a));
  ao_dowser : forall n q, 0 <= dowser a n q;
  ao_random : forall n, (0 < n)%nat -> (random_index a n < n)%nat
}.

(** The events of a history in which no settings are published while a cycle collects
    its answers. *)
Definition calm (m : Manager) (e : Event K) : Prop :=
  match e with
  | AmountSettingsMsg s =>
      Settings.planner_ready s /\ Settings.max_channel s < 2 ^ 53
      /\ match cycle m with Some (Collecting _) => False | _ => True end
  | Request amt => 0 <= amt < 2 ^ 53
  | Collected a => answers_ok a
  | _ => True
  end.

Inductive history : Manager -> list (Out K) -> Prop :=
| history_start s :
    Settings.planner_ready s -> Settings.max_channel s < 2 ^ 53 -> history (on_settings initial s) []
| history_event m outs e m' o :
    history m outs -> calm m e -> step lt m e = Some (m', o) -> history m' (outs ++ o).

Record manager_inv (m : Manager) : Prop := {
  mi_min : 0 < min_amount m;
  mi_rem : min_amount m <= min_remaining m;
  mi_max : min_amount m + min_remaining m <= max_amount m;
  mi_top : max_amount m < 2 ^ 53;
  mi_cycle : match cycle m with
             | Some (Collecting amt) => 2 * min_amount m <= amt < 2 ^ 53
             | _ => True
             end
}.

Lemma on_settings_inv m s :
  Settings.planner_ready s -> Settings.max_channel s < 2 ^ 53 ->
  match cycle m with Some (Collecting _) => False | _ => True end ->
  manager_inv (on_settings m s).
Proof.
  intros (H1 & H2 & H3 & H4 & _) H5 H6. destruct Settings.constants as (C1 & _).
  assert (0 <= Settings.additional_remaining) by discriminate. rewrite C1 in H1.
  split; simpl; [lia..|]. by destruct (cycle m) as [[]|].
Qed.

Lemma admits_spec m amt :
  manager_inv m -> 0 <= amt ->
  admits m amt = Some (negb (offline m) && (2 * min_amount m <=? amt)).
Proof.
  intros [H1 H2 H3 H4 _] Ha. unfold admits. destruct (offline m); [done|].
  rewrite mul_2 by lia. cbn [mbind option_bind]. unfold Amount.lt.
  rewrite Planner.add_small by lia. unfold Amount.gt, Amount.lt.
  destruct (Z.ltb_spec amt (min_amount m * 2)), (Z.leb_spec (2 * min_amount m) amt); try lia; [done|].
  by destruct (Z.ltb_spec (max_amount m) (min_amount m + min_remaining m)); [lia|].
Qed.

Lemma on_request_spec m amt :
  manager_inv m -> 0 <= amt < 2 ^ 53 ->
  exists m', on_request m amt = Some m' /\ manager_inv m'.
Proof.
  intros Hm Ha. unfold on_request. destruct (rpc m); [|by exists m]. cbn [negb].
  destruct (cycle m) as [c|]; [by exists m|]. rewrite admits_spec by (done || lia).
  cbn [mbind option_bind]. eexists. split; [done|]. destruct Hm as [H1 H2 H3 H4 _].
  split; simpl; [done..|]. destruct (offline m); [done|]. cbn [negb andb].
  destruct (Z.leb_spec (2 * min_amount m) amt); [lia|done].
Qed.

(** What reaches the planner are candidates without a channel. *)
Lemma staged_nodes m (a : Answers K) :
  map fst (staged m a) ≡ₚ map fst (Order.drop_channeled (channeled a) (candidates a)).
Proof. unfold staged. by rewrite Order.pipeline_perm. Qed.

Lemma drop_channeled_nodes (a : Answers K) n :
  n ∈ map fst (Order.drop_channeled (channeled a) (candidates a)) ->
  n ∈ map fst (candidates a) /\ exists c, channeled a = Some c /\ c n = false.
Proof.
  unfold Order.drop_channeled. destruct (channeled a) as [c|]; [|intros H; by apply not_elem_of_nil in H].
  intros H. apply list_elem_of_fmap in H as (p & -> & Hp). apply list_elem_of_filter in Hp as [Hc Hp].
  split; [by apply list_elem_of_fmap_2|]. by exists c.
Qed.

Lemma drop_channeled_nodup (a : Answers K) :
  NoDup (map fst (candidates a)) -> NoDup (map fst (Order.drop_channeled (channeled a) (candidates a))).
Proof.
  unfold Order.drop_channeled. destruct (channeled a) as [c|]; [|constructor].
  intros H. eapply sublist_NoDup; [exact H|]. apply (fmap_sublist fst), sublist_filter.
Qed.

Lemma cycle_inputs m a amt :
  manager_inv m -> cycle m = Some (Collecting amt) -> answers_ok a ->
  Planner.inputs_ok ok (dowser a) (random_index a) (planner m a amt).
Proof.
  intros [H1 H2 H3 H4 H5] Hc [A1 A2 A3 A4]. rewrite Hc in H5.
  split; simpl; try lia; try done.
  - rewrite staged_nodes. by apply drop_channeled_nodup.
  - rewrite staged_nodes. apply Forall_forall. intros n Hn. apply drop_channeled_nodes in Hn as [Hn _].
    rewrite Forall_forall in A2. by apply A2.
Qed.

(** What the cycle hands over: a plan that keeps the planner's promises, for
    candidates to which there is no channel yet. *)
Definition handed_over (m : Manager) (e : Event K) (plan : list (K * Amount)) : Prop :=
  exists a amt, e = Collected a /\ cycle m = Some (Collecting amt)
    /\ Planner.plan_ok (planner m a amt) plan
    /\ (forall n, n ∈ map fst plan ->
          n ∈ map fst (candidates a) /\ exists c, channeled a = Some c /\ c n = false).

Lemma on_collected_spec m a amt :
  manager_inv m -> cycle m = Some (Collecting amt) -> answers_ok a ->
  exists outs, on_collected lt m a amt = Some (set_cycle m (Some Ending), outs)
    /\ forall plan, Construct plan ∈ outs -> handed_over m (Collected a) plan.
Proof.
  intros Hm Hc Ha. unfold on_collected.
  destruct (Planner.run_plan_ok ok lt _ _ _ (cycle_inputs m a amt Hm Hc Ha)) as (plan & -> & Hp).
  cbn [mbind option_bind]. eexists. split; [done|]. intros plan' H.
  assert (plan' = plan) as ->.
  { destruct (plan_is_empty plan), plan; simpl in H; rewrite ?elem_of_cons, ?elem_of_nil in H; naive_solver. }
  exists a, amt. split_and!; [done..|]. intros n Hn. apply drop_channeled_nodes.
  apply (Planner.plan_nodes _ _ Hp) in Hn. simpl in Hn. by rewrite staged_nodes in Hn.
Qed.

Lemma on_option_spec m name value :
  exists m' o, on_option m name value = (m', o) /\ (manager_inv m -> manager_inv m')
    /\ forall plan, Construct plan ∉ (o : list (Out K)).
Proof.
  assert (forall b, manager_inv m -> manager_inv (set_prefer m b)) as Hb by (intros b []; by split).
  assert (forall plan, Construct plan ∉ ([] : list (Out K))) as H0 by (intros plan; apply not_elem_of_nil).
  assert (forall plan, Construct plan ∉ ([Reject] : list (Out K))) as H1
    by (intros plan; rewrite list_elem_of_singleton; discriminate).
  unfold on_option. repeat case_decide; destruct value as [b|str|]; repeat case_decide;
    do 2 eexists; split_and!; try reflexivity; auto.
Qed.

Lemma step_spec m e :
  manager_inv m -> calm m e ->
  exists m' o, step lt m e = Some (m', o) /\ manager_inv m'
    /\ forall plan, Construct plan ∈ o -> handed_over m e plan.
Proof.
  intros Hm He. assert (forall m' plan, manager_inv m' -> (Construct plan ∈ ([] : list (Out K)) -> handed_over m' e plan))
    as Hnil by (intros m' plan _ H; by apply not_elem_of_nil in H).
  destruct e as [s|name value|off|amt|a| |]; simpl in *.
  - do 2 eexists. split; [done|]. split; [by apply on_settings_inv; apply He|]. auto.
  - destruct (on_option_spec m name value) as (m' & o & E & Hi & Ho). exists m', o. rewrite E.
    split_and!; [done|by apply Hi|]. intros plan H. by apply Ho in H.
  - do 2 eexists. split; [done|]. split; [by destruct Hm|]. auto.
  - destruct (on_request_spec m amt Hm He) as (m' & -> & Hm'). cbn [mbind option_bind].
    do 2 eexists. split; [done|]. auto.
  - destruct (cycle m) as [[amt|]|] eqn:Hc; [|by do 2 eexists; split; [done|]; auto..].
    destruct (on_collected_spec m a amt Hm Hc He) as (outs & -> & Ho).
    do 2 eexists. split; [done|]. split; [by destruct Hm|done].
  - do 2 eexists. split; [done|]. split; [|auto].
    destruct (cycle m) as [[amt|]|] eqn:Hc; try done. by destruct Hm.
  - do 2 eexists. split; [done|]. split; [by destruct Hm|auto].
Qed.

Lemma history_inv m outs : history m outs -> manager_inv m.
Proof.
  induction 1 as [s H1 H2|m outs e m' o Hr IH He Hs]; [by apply on_settings_inv|].
  destruct (step_spec m e IH He) as (m1 & o1 & E & Hi & _). rewrite E in Hs. by injection Hs as <- _.
Qed.

End Correct.

(** ** Properties *)

(** C3: the channel-creation cycles are safe.  In every history in which no settings
    are published while a cycle collects its answers, whatever the requests, the
    answers and the errors are, the next event is handled without a failed
    assertion or undefined behaviour, and a plan that is handed to the carpenter
    keeps what the planner promises and names only candidates to which there is
    no channel yet. *)
Theorem manager_cycles_safe {K} (ok : K -> Prop) (lt : K -> K -> bool) m outs e :
  KeyOrder ok lt -> history ok lt m outs -> calm ok m e ->
  exists m' o, step lt m e = Some (m', o) /\ forall plan, Construct plan ∈ o -> handed_over m e plan.
Proof.
  intros HK Hr He. destruct (step_spec ok lt m e (history_inv ok lt m outs Hr) He) as (m' & o & E & _ & Ho).
  by exists m', o.
Qed.

(** C34: settings published while a cycle collects its answers can abort the
    process.  The cycle checked its amount against the settings at its start, and
    the planner is constructed with the settings of the end: when twice the new
    minimum channel size is more than the amount, the assertion of the planner's
    constructor fails, whatever the answers. *)
Theorem settings_change_aborts_cycle {K} (lt : K -> K -> bool) m amt s a :
  cycle m = Some (Collecting amt) -> Settings.planner_ready s -> Settings.max_channel s < 2 ^ 53 ->
  0 <= amt < 2 * Settings.min_channel s ->
  steps lt m [AmountSettingsMsg s; Collected a] = None.
Proof.
  intros Hc (H1 & H2 & H3 & H4 & _) H5 Ha. destruct Settings.constants as (C1 & _). rewrite C1 in H1.
  assert (0 <= Settings.additional_remaining) by discriminate.
  simpl. rewrite Hc. unfold on_collected, Planner.run, Planner.asserts. simpl.
  rewrite mul_2 by lia. unfold Amount.le, Amount.gt, Amount.lt.
  rewrite (proj2 (Z.ltb_lt amt _)) by lia. done.
Qed.

(** ** Witnesses *)

Definition default_settings : Settings.AmountSettings :=
  {| Settings.min_channel := 500000000; Settings.max_channel := 100000000000;
     Settings.reserve := 100000000; Settings.min_amount := 1000000000;
     Settings.min_remaining := 1050000000 |}.

(** After [setconfig clboss-min-channel 1000000]. *)
Definition raised_settings : Settings.AmountSettings :=
  {| Settings.min_channel := 1000000000; Settings.max_channel := 100000000000;
     Settings.reserve := 100000000; Settings.min_amount := 2000000000;
     Settings.min_remaining := 2050000000 |}.

Lemma settings_ready :
  Settings.planner_ready default_settings /\ Settings.planner_ready raised_settings.
Proof. repeat split; vm_compute; congruence. Qed.

Definition demo_answers : Answers Z :=
  {| num_chans := 5; candidates := [(3, 0); (1, 0); (2, 0); (7, 0)];
     channeled := Some (Z.eqb 2); dowser := fun n _ => Z.abs n * 300000000; peers := [2; 12];
     get_bin_of := fun n => n `mod` 10; verdict := fun n => if n =? 1 then Order.Keeper else Order.NoRecord;
     is_spliceable := Z.even; random_index := fun _ => O |}.

Lemma demo_answers_ok : answers_ok (fun _ => True) demo_answers.
Proof.
  split.
  - apply (bool_decide_unpack (NoDup (map fst (candidates demo_answers)))). vm_compute. exact I.
  - vm_compute. repeat constructor.
  - intros n q. simpl. lia.
  - intros n Hn. exact Hn.
Qed.

Definition demo_started : Manager :=
  {| rpc := true; offline := false; min_amount := 500000000; max_amount := 100000000000;
     min_remaining := 1050000000; prefer_spliceable := true; cycle := Some (Collecting 1700000000) |}.

Lemma demo_run : history (fun _ => True) Z.ltb demo_started [].
Proof.
  apply (history_event (fun _ => True) Z.ltb (on_init (on_settings initial default_settings) false) []
           (Request 1700000000) demo_started []); [|split; vm_compute; congruence|vm_compute; reflexivity].
  apply (history_event (fun _ => True) Z.ltb (on_settings initial default_settings) [] (InitMsg false) _ []);
    [|exact I|reflexivity].
  apply history_start; [apply settings_ready|reflexivity].
Qed.

Lemma manager_cycles_safe_witness :
  exists m' plan, step Z.ltb demo_started (Collected demo_answers) = Some (m', [Construct plan])
    /\ handed_over demo_started (Collected demo_answers) plan.
Proof.
  destruct (manager_cycles_safe (fun _ => True) Z.ltb demo_started [] (Collected demo_answers)
    Planner.Z_KeyOrder demo_run demo_answers_ok) as (m' & o & E & H).
  exists (set_cycle demo_started (Some Ending)). eexists. split; [vm_compute; reflexivity|].
  apply H. assert (step Z.ltb demo_started (Collected demo_answers) = Some (m', o)) as E' by exact E.
  vm_compute in E'. injection E' as _ <-. left.
Defined.

(** The default settings, a request they admit, a [setconfig] that the settings
    handler accepts, and the abort. *)
Lemma settings_change_aborts_cycle_witness :
  exists h0 h1,
    Settings.on_end_of_options Settings.Handler_init = Some (h0, [Settings.Published default_settings])
    /\ Settings.on_option h0 (lit "clboss-min-channel") (lit "1000000")
         = Some (h1, [Settings.Published raised_settings])
    /\ steps Z.ltb initial [AmountSettingsMsg default_settings; InitMsg false; Request 1700000000]
         = Some (demo_started, [])
    /\ steps Z.ltb demo_started [AmountSettingsMsg raised_settings; Collected demo_answers] = None.
Proof.
  do 2 eexists. split; [vm_compute; reflexivity|]. split; [vm_compute; reflexivity|].
  split; [vm_compute; reflexivity|].
  apply (settings_change_aborts_cycle Z.ltb demo_started 1700000000);
    [reflexivity|apply settings_ready|reflexivity|split; vm_compute; congruence].
Defined.

End Manager.
