(* ===== verification/Dijkstra.v ===== *)
(** * Graph::Dijkstra (src/Graph/Dijkstra.hpp, src/Graph/TreeNode.hpp)

    The incremental shortest-path algorithm: the client asks for the current node,
    feeds its neighbors one by one and ends them; the result is a tree.  A tree
    node is identified by its key: the program never has two of the same key, and
    pointers to tree nodes are keys here.

    The class is a template over nodes, costs, their comparison and addition; so is
    the model.  [CostOrder] is what costs promise, and [PriorityQueue] with its laws
    what [std::priority_queue] promises. *)

From stdpp Require Import base list numbers gmap sorting.
From S2P Require Import Prelude.
From S2P Require Import Double.
From S2P Require Import Amount.

#[local] Open Scope Z_scope.

(** ** Interfaces *)

(** [cmp] is a strict weak order and [add] respects it, on the costs in [ok]:
    rounded or saturating additions qualify. *)
Class CostOrder {C : Type} (ok : C -> Prop) (cmp : C -> C -> bool) (add : C -> C -> C) : Prop := {
  cmp_asym a b : cmp a b = true -> cmp b a = false;
  cmp_negtrans a b c : cmp b a = false -> cmp c b = false -> cmp c a = false;
  add_ok a b : ok a -> ok b -> ok (add a b);
  add_grows a b : ok a -> ok b -> cmp (add a b) a = false;
  add_mono a b c : ok a -> ok b -> ok c -> cmp b a = false -> cmp (add b c) (add a c) = false
}.

(** [std::priority_queue]; [elems] are its elements in any order. *)
Class PriorityQueue (E Q : Type) := {
  pq_empty : Q;
  pq_push : E -> Q -> Q;
  pq_top : Q -> option E;
  pq_pop : Q -> Q;
  elems : Q -> list E
}.

Class PriorityQueueLaws {E Q : Type} `{PriorityQueue E Q} (better : E -> E -> bool) : Prop := {
  elems_empty : elems (pq_empty : Q) = [];
  elems_push e (q : Q) : elems (pq_push e q) ≡ₚ e :: elems q;
  top_none (q : Q) : pq_top q = None -> elems q = [];
  top_best (q : Q) e : pq_top q = Some e -> forall x, x ∈ elems q -> better x e = false;
  top_pop (q : Q) e : pq_top q = Some e -> elems q ≡ₚ e :: elems (pq_pop q);
  (** Pushing what is not better than the top leaves it on top. *)
  top_push (q : Q) e x : pq_top q = Some e -> better x e = false -> pq_top (pq_push x q) = Some e
}.

Module Graph.

Section Dijkstra.

Context {K C Q : Type} `{Countable K} `{PriorityQueue (K * C) Q}.
Context (cmp_c : C -> C -> bool) (add_c : C -> C -> C).

(** [TreeNode], with the node and cost of its data apart. *)
Record TreeNode := { cost : C; parent : option K; children : list K }.

Record Dijkstra := { q : Q; treenodes : gmap K TreeNode; closed : gset K }.

Definition set_parent (t : TreeNode) (p : K) : TreeNode :=
  {| cost := cost t; parent := Some p; children := children t |}.
Definition set_children (t : TreeNode) (cs : list K) : TreeNode :=
  {| cost := cost t; parent := parent t; children := cs |}.
Definition set_cost (t : TreeNode) (c : C) : TreeNode :=
  {| cost := c; parent := parent t; children := children t |}.

(** The constructor, with [initialize]. *)
Definition make (root : K) (root_cost : C) : Dijkstra :=
  {| q := pq_push (root, root_cost) pq_empty;
     treenodes := {[ root := {| cost := root_cost; parent := None; children := [] |} ]};
     closed := ∅ |}.

Definition current (d : Dijkstra) : option K := fst <$> pq_top (q d).

(** [reparent(node, parent)], on the nodes of these keys. *)
Definition reparent (m : gmap K TreeNode) (node par : K) : gmap K TreeNode :=
  let m1 :=
    match m !! node ≫= parent with
    | Some cur => alter (fun t => set_children t (filter (fun x => x <> node) (children t))) cur m
    | None => m
    end in
  let m2 := alter (fun t => set_parent t par) node m1 in
  alter (fun t => set_children t (children t ++ [node])) par m2.

(** [neighbor]; [None] is the access to the top of an empty queue. *)
Definition neighbor (d : Dijkstra) (n : K) (c : C) : option Dijkstra :=
  '(u, _) ← pq_top (q d);
  tu ← treenodes d !! u;
  let alt := add_c (cost tu) c in
  match treenodes d !! n with
  | None =>
      Some {| q := pq_push (n, alt) (q d);
              treenodes := reparent (<[n := {| cost := alt; parent := None; children := [] |}]> (treenodes d)) n u;
              closed := closed d |}
  | Some tv =>
      if cmp_c alt (cost tv) then
        Some {| q := pq_push (n, alt) (q d);
                treenodes := reparent (<[n := set_cost tv alt]> (treenodes d)) n u;
                closed := closed d |}
      else Some d
  end.

(** The loop of [end_neighbors]; every round removes an element of the queue. *)
Fixpoint skip_closed (fuel : nat) (cl : gset K) (q : Q) : Q :=
  match fuel with
  | O => q
  | S f =>
      match pq_top q with
      | Some (u, _) => if decide (u ∈ cl) then skip_closed f cl (pq_pop q) else q
      | None => q
      end
  end.

Definition end_neighbors (d : Dijkstra) : option Dijkstra :=
  '(u, _) ← pq_top (q d);
  let cl := {[ u ]} ∪ closed d in
  let q1 := pq_pop (q d) in
  Some {| q := skip_closed (length (elems q1)) cl q1; treenodes := treenodes d; closed := cl |}.

Definition finalize (d : Dijkstra) : gmap K TreeNode := treenodes d.

(** Feeding the neighbors of the current node. *)
Fixpoint neighbors (d : Dijkstra) (l : list (K * C)) : option Dijkstra :=
  match l with
  | [] => Some d
  | (n, c) :: l => d' ← neighbor d n c; neighbors d' l
  end.

(** A client that walks the whole graph, as the documentation of the class tells. *)
Fixpoint explore (adj : K -> list (K * C)) (fuel : nat) (d : Dijkstra) : option Dijkstra :=
  match current d with
  | None => Some d
  | Some u =>
      match fuel with
      | O => None
      | S f => d1 ← neighbors d (adj u); d2 ← end_neighbors d1; explore adj f d2
      end
  end.

End Dijkstra.

Arguments TreeNode : clear implicits.
Arguments Dijkstra K C Q {_ _}.

(** ** The tree *)

Section Tree.

Context {K C : Type} `{Countable K}.
Implicit Types m : gmap K (TreeNode K C).

Definition cost_of m (x : K) : option C := cost <$> m !! x.
Definition parent_of m (x : K) : option K := m !! x ≫= parent.
Definition children_of m (x : K) : option (list K) := children <$> m !! x.

(** The lists of children are the inverse of the parents. *)
Definition tree_ok m : Prop :=
  forall u cs, children_of m u = Some cs -> NoDup cs /\ forall v, v ∈ cs <-> parent_of m v = Some u.

Lemma parent_of_alter_children m k f x :
  parent_of (alter (fun t => set_children t (f (children t))) k m) x = parent_of m x.
Proof. unfold parent_of. rewrite lookup_alter. case_decide; subst; [|done]. by destruct (m !! x). Qed.

Lemma cost_of_alter_children m k f x :
  cost_of (alter (fun t => set_children t (f (children t))) k m) x = cost_of m x.
Proof. unfold cost_of. rewrite lookup_alter. case_decide; subst; [|done]. by destruct (m !! x). Qed.

Lemma children_of_alter_children m k f x :
  children_of (alter (fun t => set_children t (f (children t))) k m) x
  = if decide (k = x) then f <$> children_of m x else children_of m x.
Proof. unfold children_of. rewrite lookup_alter. case_decide; subst; [|done]. by destruct (m !! x). Qed.

Lemma cost_of_set_parent m k p x : cost_of (alter (fun t => set_parent t p) k m) x = cost_of m x.
Proof. unfold cost_of. rewrite lookup_alter. case_decide; subst; [|done]. by destruct (m !! x). Qed.

Lemma cost_of_reparent m n p x : cost_of (reparent m n p) x = cost_of m x.
Proof.
  unfold reparent. rewrite (cost_of_alter_children _ _ (fun cs => cs ++ [n])), cost_of_set_parent.
  destruct (m !! n ≫= parent); [|done]. apply (cost_of_alter_children _ _ (filter (fun y => y <> n))).
Qed.

Lemma parent_of_reparent m n p x :
  is_Some (m !! n) -> parent_of (reparent m n p) x = if decide (n = x) then Some p else parent_of m x.
Proof.
  intros [t Ht]. unfold reparent. rewrite (parent_of_alter_children _ _ (fun cs => cs ++ [n])). unfold parent_of at 1. rewrite lookup_alter.
  assert (forall m', parent_of m' x = m' !! x ≫= parent) as E by done.
  destruct (decide (n = x)) as [->|Hx].
  - destruct (m !! x ≫= parent) as [cur|]; [|by rewrite Ht].
    rewrite lookup_alter. case_decide; subst; by rewrite Ht.
  - destruct (m !! n ≫= parent) as [cur|]; [|done].
    by rewrite <- E, (parent_of_alter_children _ _ (filter (fun y => y <> n))).
Qed.

Lemma children_of_set_parent m k p x :
  children_of (alter (fun t => set_parent t p) k m) x = children_of m x.
Proof. unfold children_of. rewrite lookup_alter. case_decide; subst; [|done]. by destruct (m !! x). Qed.

Lemma children_of_reparent m n p x :
  children_of (reparent m n p) x =
    (fun cs => (if decide (parent_of m n = Some x) then filter (fun y => y <> n) cs else cs)
               ++ if decide (p = x) then [n] else []) <$> children_of m x.
Proof.
  unfold reparent. rewrite (children_of_alter_children _ p (fun cs => cs ++ [n])), children_of_set_parent.
  fold (parent_of m n). destruct (parent_of m n) as [cur|].
  - rewrite (children_of_alter_children m cur (filter (fun y => y <> n))).
    destruct (children_of m x); repeat case_decide; simplify_eq; simpl; by rewrite ?app_nil_r.
  - destruct (children_of m x); repeat case_decide; simplify_eq; simpl; by rewrite ?app_nil_r.
Qed.

Lemma reparent_tree_ok m n p :
  tree_ok m -> is_Some (m !! n) -> n <> p -> tree_ok (reparent m n p).
Proof.
  intros Hm Hn Hnp u cs'. rewrite children_of_reparent. destruct (children_of m u) as [cs|] eqn:Hu; [|done].
  intros [= <-]. destruct (Hm u cs Hu) as [Hnd Hcs].
  set (cs1 := if decide (parent_of m n = Some u) then filter (fun y => y <> n) cs else cs).
  assert (NoDup cs1 /\ n ∉ cs1 /\ forall v, v <> n -> v ∈ cs1 <-> parent_of m v = Some u) as (H1 & H2 & H3).
  { unfold cs1. case_decide as D.
    - split_and!; [by apply NoDup_filter|rewrite list_elem_of_filter; naive_solver|].
      intros v Hv. rewrite list_elem_of_filter, Hcs. naive_solver.
    - split_and!; [done|by rewrite Hcs|]. intros v _. apply Hcs. }
  split.
  - apply NoDup_app. split_and!; [done| |case_decide; repeat constructor; set_solver].
    intros x Hx. case_decide; [|set_solver]. rewrite list_elem_of_singleton. naive_solver.
  - intros v. rewrite elem_of_app, parent_of_reparent by done. destruct (decide (n = v)) as [<-|Hv].
    + case_decide; [subst; rewrite list_elem_of_singleton; naive_solver|].
      rewrite elem_of_nil. naive_solver.
    + rewrite H3 by done. case_decide; rewrite ?list_elem_of_singleton, ?elem_of_nil; naive_solver.
Qed.

End Tree.

(** ** Correctness *)

Section Correct.

#[local] Set Default Proof Using "Type*".

Context {K C Q : Type} `{Countable K} `{PQ : PriorityQueue (K * C) Q}.
Context (ok : C -> Prop) (cmp_c : C -> C -> bool) (add_c : C -> C -> C) `{!CostOrder ok cmp_c add_c}.
Context `{!PriorityQueueLaws (fun a b : K * C => cmp_c a.2 b.2)}.
Context (adj : K -> list (K * C)) (root : K) (root_cost : C).

#[local] Abbreviation Dijkstra := (Graph.Dijkstra K C Q).
#[local] Abbreviation neighbor := (neighbor cmp_c add_c).
#[local] Abbreviation neighbors := (neighbors cmp_c add_c).
#[local] Abbreviation explore := (explore cmp_c add_c).
Implicit Types d : Dijkstra.

Definition le (a b : C) : Prop := cmp_c b a = false.

(** The cost of a path is added up from the root. *)
Inductive path : K -> C -> Prop :=
| path_root : path root root_cost
| path_step u p v c : path u p -> (v, c) ∈ adj u -> path v (add_c p c).

Definition graph_ok : Prop := ok root_cost /\ forall u v c, (v, c) ∈ adj u -> ok c.

Context (Hok : graph_ok).

Lemma le_refl a : le a a.
Proof. unfold le. destruct (cmp_c a a) eqn:E; [|done]. by rewrite (cmp_asym a a E) in E. Qed.

Lemma le_trans a b c : le a b -> le b c -> le a c.
Proof. apply cmp_negtrans. Qed.

Lemma lt_le a b : cmp_c a b = true -> le a b.
Proof. apply cmp_asym. Qed.

Lemma top_le (qu : Q) u k v kv : pq_top qu = Some (u, k) -> (v, kv) ∈ elems qu -> le k kv.
Proof. intros T Hv. exact (top_best (better := fun a b : K * C => cmp_c a.2 b.2) qu (u, k) T (v, kv) Hv). Qed.

Lemma path_ok v p : path v p -> ok p /\ le root_cost p.
Proof.
  destruct Hok as [Hr He]. induction 1 as [|u p v c Hp [IH1 IH2] Hc].
  - split; [done|apply le_refl].
  - apply He in Hc. split; [by apply add_ok|]. eapply le_trans; [exact IH2|]. by apply add_grows.
Qed.

(** The invariant: [L] is the order in which nodes were closed and [fed] the
    neighbors of the current node fed so far. *)
Record inv (L : list K) (fed : list (K * C)) d : Prop := {
  v_closed : forall u, u ∈ closed d <-> u ∈ L;
  v_nodup : NoDup L;
  v_root : cost_of (treenodes d) root = Some root_cost /\ parent_of (treenodes d) root = None;
  v_path : forall v k, cost_of (treenodes d) v = Some k -> path v k;
  v_edges : forall u v c, u ∈ L -> (v, c) ∈ adj u ->
    exists ku kv, cost_of (treenodes d) u = Some ku /\ cost_of (treenodes d) v = Some kv
      /\ le kv (add_c ku c);
  v_open : forall v k, cost_of (treenodes d) v = Some k -> v ∉ L -> (v, k) ∈ elems (q d);
  v_entries : forall v k, (v, k) ∈ elems (q d) -> exists kv, cost_of (treenodes d) v = Some kv /\ le kv k;
  v_front : forall u ku v k, u ∈ L -> cost_of (treenodes d) u = Some ku -> (v, k) ∈ elems (q d) -> le ku k;
  v_seen : forall u, u ∈ L -> is_Some (cost_of (treenodes d) u);
  v_top : forall u k, pq_top (q d) = Some (u, k) -> u ∉ L;
  v_fed : forall u k ku, pq_top (q d) = Some (u, k) -> cost_of (treenodes d) u = Some ku ->
    forall v c, (v, c) ∈ fed -> exists kv, cost_of (treenodes d) v = Some kv /\ le kv (add_c ku c);
  v_parent : forall v u, parent_of (treenodes d) v = Some u ->
    u <> v /\ (u ∈ L \/ current d = Some u)
    /\ (forall L1 L2, L = L1 ++ v :: L2 -> u ∈ L1)
    /\ exists ku c, (v, c) ∈ adj u /\ cost_of (treenodes d) u = Some ku
         /\ cost_of (treenodes d) v = Some (add_c ku c);
  v_orphan : forall v k, cost_of (treenodes d) v = Some k -> parent_of (treenodes d) v = None -> v = root;
  v_tree : tree_ok (treenodes d)
}.

(** The top entry carries the cost of its node, which is final. *)
Lemma top_cost L fed d u k :
  inv L fed d -> pq_top (q d) = Some (u, k) ->
  exists ku, cost_of (treenodes d) u = Some ku /\ le ku k /\ le k ku /\ (u, ku) ∈ elems (q d).
Proof.
  intros I T. assert ((u, k) ∈ elems (q d)) as Hin by (rewrite (top_pop _ _ T); left).
  destruct (v_entries _ _ _ I _ _ Hin) as (ku & E & Hle). exists ku.
  assert ((u, ku) ∈ elems (q d)) as Hin' by (eapply v_open; eauto using v_top).
  split_and!; [done..| |done]. exact (top_le _ _ _ _ _ T Hin').
Qed.

(** Every path ends at a closed node of at most its cost, or the queue has an
    entry of at most its cost. *)
Lemma path_bound L fed d v p :
  inv L fed d -> path v p ->
  (v ∈ L /\ exists k, cost_of (treenodes d) v = Some k /\ le k p)
  \/ exists x k, (x, k) ∈ elems (q d) /\ le k p.
Proof.
  intros I. induction 1 as [|u p v c Hp IH Hc].
  - destruct (v_root _ _ _ I) as [E _]. destruct (decide (root ∈ L)) as [Hr|Hr].
    + left. split; [done|]. exists root_cost. split; [done|apply le_refl].
    + right. exists root, root_cost. split; [by eapply v_open|apply le_refl].
  - destruct (path_ok _ _ Hp) as [Op _]. assert (ok c) as Oc by (by eapply Hok).
    destruct IH as [(Hu & k & Ek & Hk)|(x & k & Hx & Hk)].
    + destruct (v_edges _ _ _ I u v c Hu Hc) as (ku & kv & Eu & Ev & Hv). rewrite Ek in Eu. injection Eu as <-.
      assert (le kv (add_c p c)) as Hv'.
      { eapply le_trans; [exact Hv|]. destruct (path_ok _ _ (v_path _ _ _ I _ _ Ek)). by apply add_mono. }
      destruct (decide (v ∈ L)) as [HvL|HvL]; [left; eauto|]. right. exists v, kv. split; [by eapply v_open|done].
    + right. exists x, k. split; [done|]. eapply le_trans; [exact Hk|]. by apply add_grows.
Qed.

Lemma current_final L fed d u k p :
  inv L fed d -> pq_top (q d) = Some (u, k) -> path u p ->
  exists ku, cost_of (treenodes d) u = Some ku /\ le ku p.
Proof.
  intros I T Hp. destruct (top_cost _ _ _ _ _ I T) as (ku & E & H1 & H2 & _). exists ku. split; [done|].
  destruct (path_bound _ _ _ _ _ I Hp) as [[HL _]|(x & kx & Hx & Hk)].
  - by destruct (v_top _ _ _ I _ _ T).
  - eapply le_trans; [exact H1|]. eapply le_trans; [|exact Hk]. exact (top_le _ _ _ _ _ T Hx).
Qed.

(** The tree after node [n] got cost [alt] and parent [u]. *)
Definition relaxed (m : gmap K (TreeNode K C)) (n u : K) (alt : C) : gmap K (TreeNode K C) :=
  reparent (<[n := match m !! n with
                   | Some t => set_cost t alt
                   | None => {| cost := alt; parent := None; children := [] |}
                   end]> m) n u.

Lemma relaxed_cost m n u alt x :
  cost_of (relaxed m n u alt) x = if decide (n = x) then Some alt else cost_of m x.
Proof.
  unfold relaxed. rewrite cost_of_reparent. unfold cost_of. rewrite lookup_insert.
  case_decide; [|done]. by destruct (m !! n).
Qed.

Lemma relaxed_parent m n u alt x :
  parent_of (relaxed m n u alt) x = if decide (n = x) then Some u else parent_of m x.
Proof.
  unfold relaxed. rewrite parent_of_reparent by (by rewrite lookup_insert_eq).
  case_decide; [done|]. unfold parent_of. by rewrite lookup_insert_ne.
Qed.

Lemma relaxed_tree m n u alt :
  tree_ok m -> (forall v, parent_of m v = Some n -> is_Some (m !! n)) -> n <> u ->
  tree_ok (relaxed m n u alt).
Proof.
  intros Hm Hp Hnu. unfold relaxed. apply reparent_tree_ok; [|by rewrite lookup_insert_eq|done].
  set (t := match m !! n with Some t => _ | None => _ end).
  assert (forall v, parent_of (<[n := t]> m) v = parent_of m v) as Ep.
  { intros v. unfold parent_of. rewrite lookup_insert. case_decide; subst; [|done]. unfold t. by destruct (m !! v). }
  intros w cs. unfold children_of. rewrite lookup_insert. case_decide; subst.
  - unfold t. destruct (m !! w) as [tw|] eqn:Ew.
    + intros Hc. destruct (Hm w cs) as [H1 H2]; [unfold children_of; by rewrite Ew|]. split; [done|].
      intros v. rewrite H2. fold t. by rewrite Ep.
    + intros [= <-]. split; [constructor|]. intros v. rewrite Ep. split; [by intros ?%elem_of_nil|].
      intros Hv. destruct (Hp v Hv). congruence.
  - intros Hc. destruct (Hm w cs Hc) as [H1 H2]. split; [done|]. intros v. by rewrite H2, Ep.
Qed.

(** A node whose cost the current node can lower is open. *)
Lemma improves_open L fed d u k ku n c kn :
  inv L fed d -> pq_top (q d) = Some (u, k) -> cost_of (treenodes d) u = Some ku ->
  ok c -> cost_of (treenodes d) n = Some kn -> cmp_c (add_c ku c) kn = true ->
  n ∉ L /\ n <> u /\ n <> root.
Proof.
  intros I T Eu Oc En Hlt. destruct (path_ok _ _ (v_path _ _ _ I _ _ Eu)) as [Ou Hr].
  destruct (top_cost _ _ _ _ _ I T) as (ku' & E & _ & _ & Hin). rewrite Eu in E. injection E as <-.
  assert (le kn ku -> False) as Hno.
  { intros Hle. assert (le kn (add_c ku c)) as Hle' by (eapply le_trans; [exact Hle|by apply add_grows]).
    unfold le in Hle'. congruence. }
  split_and!.
  - intros HL. apply Hno. exact (v_front _ _ _ I _ _ _ _ HL En Hin).
  - intros ->. rewrite Eu in En. injection En as <-. apply Hno, le_refl.
  - intros ->. destruct (v_root _ _ _ I) as [Er _]. rewrite Er in En. injection En as <-. by apply Hno.
Qed.

Lemma relax_inv L fed d u k ku n c :
  inv L fed d -> pq_top (q d) = Some (u, k) -> cost_of (treenodes d) u = Some ku -> (n, c) ∈ adj u ->
  n ∉ L -> n <> u -> n <> root ->
  (forall kn, cost_of (treenodes d) n = Some kn -> cmp_c (add_c ku c) kn = true) ->
  let d' := {| q := pq_push (n, add_c ku c) (q d); treenodes := relaxed (treenodes d) n u (add_c ku c);
               closed := closed d |} in
  inv L (fed ++ [(n, c)]) d' /\ pq_top (q d') = Some (u, k).
Proof.
  intros I T Eu Hc HnL Hnu Hnr Hbetter d'. set (alt := add_c ku c) in *.
  assert (ok c) as Oc by (by eapply Hok).
  destruct (path_ok _ _ (v_path _ _ _ I _ _ Eu)) as [Ou _].
  assert (le ku alt) as Hgrow by (by apply add_grows).
  destruct (top_cost _ _ _ _ _ I T) as (ku' & E & Hk1 & Hk2 & Hin). rewrite Eu in E. injection E as <-.
  assert (pq_top (q d') = Some (u, k)) as T'.
  { apply (top_push (better := fun a b : K * C => cmp_c a.2 b.2)); [done|]. exact (le_trans _ _ _ Hk2 Hgrow). }
  split; [|done].
  assert (forall x, cost_of (treenodes d') x = if decide (n = x) then Some alt else cost_of (treenodes d) x) as Ec
    by (intros x; apply relaxed_cost).
  assert (forall x, parent_of (treenodes d') x = if decide (n = x) then Some u else parent_of (treenodes d) x) as Ep
    by (intros x; apply relaxed_parent).
  assert (forall x kx, cost_of (treenodes d) x = Some kx -> exists kx', cost_of (treenodes d') x = Some kx' /\ le kx' kx) as Hlow.
  { intros x kx Hx. rewrite Ec. case_decide; subst; [|eauto using le_refl].
    exists alt. split; [done|]. by apply lt_le, Hbetter. }
  assert (forall x, x <> n -> cost_of (treenodes d') x = cost_of (treenodes d) x) as Esame
    by (intros x Hx; rewrite Ec; by rewrite decide_False).
  assert (forall x, x ∈ L -> x <> n) as HL by (intros x Hx ->; done).
  assert (forall x, x ∈ elems (q d') <-> x = (n, alt) \/ x ∈ elems (q d)) as Eq.
  { intros x. simpl. rewrite (elems_push (n, alt) (q d)). apply elem_of_cons. }
  split.
  - apply I.
  - apply I.
  - destruct (v_root _ _ _ I) as [R1 R2]. rewrite Ep, Esame, decide_False by done. done.
  - intros v kv. rewrite Ec. case_decide; subst; [|apply I]. intros [= <-].
    eapply path_step; [exact (v_path _ _ _ I _ _ Eu)|done].
  - intros a v cv Ha Hv. destruct (v_edges _ _ _ I a v cv Ha Hv) as (ka & kv & Ea & Ev & Hle).
    destruct (Hlow _ _ Ev) as (kv' & Ev' & Hle'). exists ka, kv'. rewrite Esame by auto.
    split_and!; [done..|]. by eapply le_trans.
  - intros v kv Ev Hv. apply Eq. revert Ev. rewrite Ec. case_decide; subst; [intros [= <-]; by left|].
    intros Ev. right. by apply (v_open _ _ _ I).
  - intros v kv [[= -> ->]|Hv]%Eq; [exists alt; rewrite Ec, decide_True by done; eauto using le_refl|].
    destruct (v_entries _ _ _ I _ _ Hv) as (kx & Ex & Hx). destruct (Hlow _ _ Ex) as (kx' & Ex' & Hx').
    exists kx'. split; [done|]. by eapply le_trans.
  - intros a ka v kv Ha. rewrite Esame by auto. intros Ea [[= -> ->]|Hv]%Eq; [|by eapply (v_front _ _ _ I)].
    eapply le_trans; [|exact Hgrow]. by eapply (v_front _ _ _ I).
  - intros a Ha. rewrite Esame by auto. by apply (v_seen _ _ _ I).
  - intros a ka Ta. rewrite T' in Ta. injection Ta as <- <-. by eapply (v_top _ _ _ I).
  - intros a ka ka' Ta. rewrite T' in Ta. injection Ta as <- <-. rewrite Esame, Eu by done. intros [= <-].
    intros v cv [Hv|Hv]%elem_of_app.
    + destruct (v_fed _ _ _ I _ _ _ T Eu _ _ Hv) as (kv & Ev & Hle). destruct (Hlow _ _ Ev) as (kv' & ? & ?).
      exists kv'. split; [done|]. by eapply le_trans.
    + apply list_elem_of_singleton in Hv as [= -> ->]. exists alt. rewrite Ec, decide_True by done.
      eauto using le_refl.
  - intros v w. rewrite Ep. unfold current. rewrite T'. case_decide; subst.
    + intros [= <-]. split_and!; [done|by right| |].
      * intros L1 L2 ->. destruct HnL. apply elem_of_app. right. left.
      * exists ku, c. rewrite Esame, Ec, decide_True by done. done.
    + intros Hv. destruct (v_parent _ _ _ I _ _ Hv) as (H1 & H2 & H3 & kw & cv & H4 & H5 & H6).
      assert (w <> n) as Hw.
      { intros ->. destruct H2 as [H2|H2]; [done|]. unfold current in H2. rewrite T in H2. by injection H2. }
      unfold current in H2. rewrite T in H2.
      split_and!; [done..|]. exists kw, cv. rewrite !Esame by done. done.
  - intros v kv. rewrite Ec, Ep. case_decide; [done|]. apply I.
  - apply relaxed_tree; [apply I| |done]. intros v Hv.
    destruct (v_parent _ _ _ I _ _ Hv) as (_ & _ & _ & kw & _ & _ & H5 & _).
    unfold cost_of in H5. by destruct (treenodes d !! n).
Qed.

Lemma neighbor_inv L fed d u k n c :
  inv L fed d -> pq_top (q d) = Some (u, k) -> (n, c) ∈ adj u ->
  exists d', neighbor d n c = Some d' /\ inv L (fed ++ [(n, c)]) d' /\ pq_top (q d') = Some (u, k).
Proof.
  intros I T Hc. destruct (top_cost _ _ _ _ _ I T) as (ku & Eu & Hk1 & Hk2 & Hin).
  assert (ok c) as Oc by (by eapply Hok).
  unfold neighbor. rewrite T. cbn [mbind option_bind].
  destruct (treenodes d !! u) as [tu|] eqn:Etu; [|unfold cost_of in Eu; by rewrite Etu in Eu].
  cbn [mbind option_bind]. assert (cost tu = ku) as -> by (unfold cost_of in Eu; rewrite Etu in Eu; by injection Eu).
  destruct (treenodes d !! n) as [tn|] eqn:En.
  - assert (cost_of (treenodes d) n = Some (cost tn)) as Ecn by (unfold cost_of; by rewrite En).
    destruct (cmp_c (add_c ku c) (cost tn)) eqn:Hlt.
    + destruct (improves_open _ _ _ _ _ _ _ _ _ I T Eu Oc Ecn Hlt) as (H1 & H2 & H3).
      eexists. split; [done|]. pose proof (relax_inv _ _ _ _ _ _ _ _ I T Eu Hc H1 H2 H3) as R.
      unfold relaxed in R. rewrite En in R. apply R. intros kn Ekn. congruence.
    + exists d. split_and!; [done| |done]. destruct I. split; try done.
      intros a ka ka' Ta Ea v cv [Hv|Hv]%elem_of_app; [by eapply v_fed0|].
      apply list_elem_of_singleton in Hv as [= -> ->]. rewrite T in Ta. injection Ta as <- <-.
      rewrite Eu in Ea. injection Ea as <-. exists (cost tn). by split.
  - assert (cost_of (treenodes d) n = None) as Ecn by (unfold cost_of; by rewrite En).
    eexists. split; [done|].
    assert (n ∉ L) as H1 by (intros HL; destruct (v_seen _ _ _ I _ HL); congruence).
    assert (n <> u) as H2 by congruence.
    assert (n <> root) as H3 by (intros ->; destruct (v_root _ _ _ I); congruence).
    pose proof (relax_inv _ _ _ _ _ _ _ _ I T Eu Hc H1 H2 H3) as R.
    unfold relaxed in R. rewrite En in R. apply R. intros kn Ekn. congruence.
Qed.

Lemma skip_closed_spec cl : forall fuel (qu : Q), (length (elems qu) <= fuel)%nat ->
  let q' := skip_closed fuel cl qu in
  (forall x, x ∈ elems q' -> x ∈ elems qu)
  /\ (forall v k, (v, k) ∈ elems qu -> v ∉ cl -> (v, k) ∈ elems q')
  /\ (forall u k, pq_top q' = Some (u, k) -> u ∉ cl).
Proof.
  induction fuel as [|f IH]; intros qu Hl; simpl.
  { split_and!; [done..|]. intros u k T. pose proof (Permutation_length (top_pop _ _ T)) as P. simpl in P. lia. }
  destruct (pq_top qu) as [[u k]|] eqn:T; [|split_and!; [done..|]; congruence].
  pose proof (top_pop _ _ T) as P. case_decide as Hu; [|split_and!; [done..|]; congruence].
  apply Permutation_length in P as PL. simpl in PL.
  destruct (IH (pq_pop qu)) as (H1 & H2 & H3); [lia|]. split_and!; [|  |done].
  - intros x Hx. rewrite P. right. by apply H1.
  - intros v kv. rewrite P, elem_of_cons. intros [[= -> ->]|Hv] Hn; [done|by apply H2].
Qed.

Lemma end_neighbors_inv L d u k :
  inv L (adj u) d -> pq_top (q d) = Some (u, k) ->
  exists d', end_neighbors d = Some d' /\ inv (L ++ [u]) [] d'.
Proof.
  intros I T. destruct (top_cost _ _ _ _ _ I T) as (ku & Eu & Hk1 & Hk2 & Hin).
  pose proof (v_top _ _ _ I _ _ T) as HuL. pose proof (top_pop _ _ T) as P.
  unfold end_neighbors. rewrite T. cbn [mbind option_bind]. eexists. split; [done|].
  destruct (skip_closed_spec ({[u]} ∪ closed d) _ (pq_pop (q d)) (Nat.le_refl _)) as (S1 & S2 & S3).
  assert (forall x, x ∈ {[u]} ∪ closed d <-> x ∈ L ++ [u]) as Ecl.
  { intros x. rewrite elem_of_union, elem_of_singleton, (v_closed _ _ _ I), elem_of_app, list_elem_of_singleton. tauto. }
  assert (forall x, x ∈ elems (skip_closed (length (elems (pq_pop (q d)))) ({[u]} ∪ closed d) (pq_pop (q d))) ->
    x ∈ elems (q d)) as Hsub by (intros x Hx; rewrite P; right; by apply S1).
  split; simpl.
  - exact Ecl.
  - apply NoDup_app. split_and!; [apply I| |apply NoDup_singleton].
    intros x Hx ->%list_elem_of_singleton. done.
  - apply I.
  - apply I.
  - intros a v c [Ha|Ha%list_elem_of_singleton]%elem_of_app Hv; [by eapply v_edges|subst a].
    destruct (v_fed _ _ _ I _ _ _ T Eu _ _ Hv) as (kv & Ev & Hle). eauto.
  - intros v kv Ev Hv. rewrite <- Ecl in Hv. apply S2; [|done].
    assert ((v, kv) ∈ elems (q d)) as Hin' by (apply (v_open _ _ _ I); [done|];
      intros HL; apply Hv, Ecl, elem_of_app; by left).
    rewrite P, elem_of_cons in Hin'. destruct Hin' as [[= -> ->]|?]; [|done].
    destruct Hv. apply Ecl, elem_of_app. right. by apply list_elem_of_singleton.
  - intros v kv Hv. by apply (v_entries _ _ _ I), Hsub.
  - intros a ka v kv [Ha|Ha%list_elem_of_singleton]%elem_of_app Ea Hv; [by eapply v_front; eauto|subst a].
    rewrite Eu in Ea. injection Ea as <-. eapply le_trans; [exact Hk1|]. by eapply top_le, Hsub.
  - intros a [Ha|Ha%list_elem_of_singleton]%elem_of_app; [by apply I|subst a; by eexists].
  - intros a ka Ta Ha. apply Ecl in Ha. by eapply S3.
  - intros a ka ka' _ _ v c Hv. by apply elem_of_nil in Hv.
  - intros v w Hv. destruct (v_parent _ _ _ I _ _ Hv) as (H1 & H2 & H3 & H4).
    assert (w ∈ L \/ w = u) as Hw by (destruct H2 as [?|H2]; [by left|]; right;
      unfold current in H2; rewrite T in H2; by injection H2).
    split_and!; [done| | |done].
    + left. apply elem_of_app. rewrite list_elem_of_singleton. tauto.
    + intros L1 L2 E. destruct L2 as [|y L2 _] using rev_ind.
      * apply app_inj_tail in E as [<- ->]. destruct Hw; [done|congruence].
      * rewrite app_comm_cons, app_assoc in E. apply app_inj_tail in E as [E _]. by eapply H3.
  - apply I.
  - apply I.
Qed.

Lemma make_inv : inv [] [] (make root root_cost).
Proof.
  assert (forall x, cost_of (treenodes (make (Q := Q) root root_cost)) x = if decide (root = x) then Some root_cost else None) as Ec.
  { intros x. unfold cost_of. simpl. rewrite lookup_singleton. by case_decide. }
  assert (forall x, parent_of (treenodes (make (Q := Q) root root_cost)) x = None) as Ep.
  { intros x. unfold parent_of. simpl. rewrite lookup_singleton. by case_decide. }
  assert (forall x, x ∈ elems (q (make (Q := Q) root root_cost)) <-> x = (root, root_cost)) as Eq.
  { intros x. simpl. rewrite (elems_push (root, root_cost) pq_empty), elems_empty. apply list_elem_of_singleton. }
  split.
  - intros u. simpl. set_solver.
  - constructor.
  - rewrite Ec, Ep, decide_True by done. done.
  - intros v k. rewrite Ec. case_decide; [|done]. intros [= <-]. subst. constructor.
  - intros u v c Hu. by apply elem_of_nil in Hu.
  - intros v k. rewrite Ec. case_decide; [|done]. intros [= <-] _. subst. by apply Eq.
  - intros v k Hv. apply Eq in Hv as [= -> ->]. exists root_cost. rewrite Ec, decide_True by done.
    split; [done|apply le_refl].
  - intros u ku v k Hu. by apply elem_of_nil in Hu.
  - intros u Hu. by apply elem_of_nil in Hu.
  - intros u k _. apply not_elem_of_nil.
  - intros u k ku _ _ v c Hv. by apply elem_of_nil in Hv.
  - intros v u. by rewrite Ep.
  - intros v k. rewrite Ec. case_decide; [|done]. by intros _ _.
  - intros u cs. unfold children_of. simpl. rewrite lookup_singleton. case_decide; [|done]. intros [= <-].
    split; [constructor|]. intros v. rewrite Ep. split; [|done]. by intros ?%elem_of_nil.
Qed.

(** *** Clients *)

Definition todo d : list (K * C) := match current d with Some u => adj u | None => [] end.

(** A session with a client that keeps to the documentation; [rest] are the
    neighbors of the current node it has not fed yet. *)
Inductive session : list (K * C) -> Dijkstra -> Prop :=
| session_make : session (adj root) (make root root_cost)
| session_neighbor n c rest d d' :
    session ((n, c) :: rest) d -> neighbor d n c = Some d' -> session rest d'
| session_end d d' : session [] d -> end_neighbors d = Some d' -> session (todo d') d'.

Lemma make_top : pq_top (q (make (Q := Q) root root_cost)) = Some (root, root_cost).
Proof.
  pose proof (elems_push (root, root_cost) (pq_empty : Q)) as P. rewrite elems_empty in P. simpl.
  destruct (pq_top (pq_push (root, root_cost) (pq_empty : Q))) as [e|] eqn:T.
  - apply top_pop in T. rewrite P in T. apply Permutation_length_1_inv in T. by injection T as ->.
  - apply top_none in T. rewrite T in P. by apply Permutation_nil_cons in P.
Qed.

Lemma session_inv rest d :
  session rest d -> exists L fed, inv L fed d /\
    match current d with Some u => adj u = fed ++ rest | None => rest = [] end.
Proof.
  induction 1 as [|n c rest d d' Hs (L & fed & I & Hc) E|d d' Hs (L & fed & I & Hc) E].
  - exists [], []. split; [apply make_inv|]. unfold current. by rewrite make_top.
  - unfold current in Hc. destruct (pq_top (q d)) as [[u k]|] eqn:T; [|done]. simpl in Hc.
    destruct (neighbor_inv L fed d u k n c I T) as (d1 & E1 & I1 & T1).
    { rewrite Hc. apply elem_of_app. right. left. }
    rewrite E in E1. injection E1 as <-. exists L, (fed ++ [(n, c)]). split; [done|].
    unfold current. rewrite T1. simpl. by rewrite <- app_assoc.
  - unfold current in Hc. destruct (pq_top (q d)) as [[u k]|] eqn:T;
      [|unfold end_neighbors in E; by rewrite T in E].
    simpl in Hc. rewrite app_nil_r in Hc. subst fed.
    destruct (end_neighbors_inv L d u k I T) as (d1 & E1 & I1).
    rewrite E in E1. injection E1 as <-. exists (L ++ [u]), []. split; [done|].
    unfold todo. by destruct (current d').
Qed.

Lemma neighbors_inv L u k l : forall fed d,
  inv L fed d -> pq_top (q d) = Some (u, k) -> adj u = fed ++ l ->
  exists d', neighbors d l = Some d' /\ inv L (adj u) d' /\ pq_top (q d') = Some (u, k).
Proof.
  induction l as [|[n c] l IH]; intros fed d I T E.
  - exists d. rewrite app_nil_r in E. subst fed. done.
  - destruct (neighbor_inv L fed d u k n c I T) as (d1 & E1 & I1 & T1).
    { rewrite E. apply elem_of_app. right. left. }
    simpl. rewrite E1. cbn [mbind option_bind]. apply (IH (fed ++ [(n, c)])); [done..|]. by rewrite <- app_assoc.
Qed.

(** Nodes that contain the root and all neighbors of theirs. *)
Definition universe (U : list K) : Prop := root ∈ U /\ forall u v c, u ∈ U -> (v, c) ∈ adj u -> v ∈ U.

Lemma universe_check U :
  bool_decide (root ∈ U) && forallb (fun u => forallb (fun e => bool_decide (e.1 ∈ U)) (adj u)) U = true ->
  universe U.
Proof using Type.
  intros [H1%bool_decide_eq_true H2]%andb_prop. split; [done|]. intros u v c Hu Hv.
  rewrite forallb_forall in H2. apply list_elem_of_In, H2 in Hu. rewrite forallb_forall in Hu.
  apply list_elem_of_In, Hu in Hv. by apply bool_decide_eq_true in Hv.
Qed.

Lemma path_universe U v p : universe U -> path v p -> v ∈ U.
Proof. intros [H1 H2]. induction 1; eauto. Qed.

(** While there is a current node, not all nodes are closed. *)
Lemma open_room U L fed d u k :
  universe U -> inv L fed d -> pq_top (q d) = Some (u, k) -> (length L < length U)%nat.
Proof.
  intros HU I T. assert (length (L ++ [u]) <= length U)%nat as Hlen;
    [|rewrite length_app in Hlen; simpl in Hlen; lia].
  apply submseteq_length, NoDup_submseteq.
  - apply NoDup_app. split_and!; [apply I| |apply NoDup_singleton].
    intros x Hx ->%list_elem_of_singleton. by eapply v_top in T.
  - destruct (top_cost _ _ _ _ _ I T) as (ku & Eu & _).
    intros x [Hx|Hx%list_elem_of_singleton]%elem_of_app.
    + destruct (v_seen _ _ _ I _ Hx) as [kx Ex]. eapply path_universe; [done|]. by eapply v_path.
    + subst x. eapply path_universe; [done|]. by eapply v_path.
Qed.

Lemma explore_inv U : universe U -> forall fuel L d,
  inv L [] d -> (length U <= length L + fuel)%nat ->
  exists d' L', explore adj fuel d = Some d' /\ current d' = None /\ inv L' [] d'.
Proof.
  intros HU. induction fuel as [|f IH]; intros L d I Hl; simpl.
  all: destruct (current d) as [u|] eqn:Hc; [|by exists d, L].
  all: unfold current in Hc; destruct (pq_top (q d)) as [[u' k]|] eqn:T; [|done]; injection Hc as ->.
  - pose proof (open_room U L [] d u k HU I T). lia.
  - destruct (neighbors_inv L u k (adj u) [] d I T eq_refl) as (d1 & E1 & I1 & T1). rewrite E1.
    cbn [mbind option_bind]. destruct (end_neighbors_inv L d1 u k I1 T1) as (d2 & E2 & I2). rewrite E2.
    cbn [mbind option_bind]. apply (IH (L ++ [u])); [done|]. rewrite length_app. simpl. lia.
Qed.

(** The tree of shortest paths from the root. *)
Definition shortest_tree (m : gmap K (TreeNode K C)) : Prop :=
  forall v,
    (is_Some (m !! v) <-> exists p, path v p)
    /\ forall t, m !! v = Some t ->
         path v (cost t) /\ (forall p, path v p -> cmp_c p (cost t) = false)
         /\ match parent t with
            | None => v = root
            | Some u => exists tu c, m !! u = Some tu /\ (v, c) ∈ adj u /\ cost t = add_c (cost tu) c
            end
         /\ NoDup (children t)
         /\ forall w, w ∈ children t <-> m !! w ≫= parent = Some v.

Lemma final_tree L fed d : inv L fed d -> current d = None -> shortest_tree (treenodes d).
Proof.
  intros I Hc. assert (elems (q d) = []) as Eq.
  { apply top_none. unfold current in Hc. by destruct (pq_top (q d)). }
  assert (forall v p, path v p -> exists k, cost_of (treenodes d) v = Some k /\ le k p) as Hbound.
  { intros v p Hp. destruct (path_bound _ _ _ _ _ I Hp) as [[_ ?]|(x & k & Hx & _)]; [done|].
    rewrite Eq in Hx. by apply elem_of_nil in Hx. }
  intros v. split.
  - split; [intros [t Ht]; exists (cost t); eapply v_path; [done|]; unfold cost_of; by rewrite Ht|].
    intros [p Hp]. destruct (Hbound _ _ Hp) as (k & Ek & _). unfold cost_of in Ek. by destruct (treenodes d !! v).
  - intros t Ht. assert (cost_of (treenodes d) v = Some (cost t)) as Ev by (unfold cost_of; by rewrite Ht).
    split_and!; [by eapply v_path| | |eapply (v_tree _ _ _ I v); unfold children_of; by rewrite Ht..].
    + intros p Hp. destruct (Hbound _ _ Hp) as (k & Ek & Hk). rewrite Ev in Ek. by injection Ek as <-.
    + destruct (parent t) as [u|] eqn:Hp.
      * destruct (v_parent _ _ _ I v u) as (_ & _ & _ & ku & c & H4 & H5 & H6);
          [unfold parent_of; by rewrite Ht|]. unfold cost_of in H5.
        destruct (treenodes d !! u) as [tu|]; [|done]. injection H5 as <-.
        exists tu, c. split_and!; [done..|]. congruence.
      * eapply v_orphan; [done..|]. unfold parent_of. by rewrite Ht.
Qed.

End Correct.

(** ** Instances *)

(** A queue that is a list: the top is the first of its best elements. *)
Section ListQueue.

Context {E : Type} (better : E -> E -> bool).
Context (better_asym : forall a b, better a b = true -> better b a = false).
Context (better_negtrans : forall a b c, better b a = false -> better c b = false -> better c a = false).

(** The best element and the others. *)
Fixpoint best (l : list E) : option (E * list E) :=
  match l with
  | [] => None
  | x :: l' =>
      match best l' with
      | None => Some (x, [])
      | Some (y, r) => if better y x then Some (y, x :: r) else Some (x, l')
      end
  end.

#[local] Instance list_queue : PriorityQueue E (list E) := {
  pq_empty := [];
  pq_push e l := l ++ [e];
  pq_top l := fst <$> best l;
  pq_pop l := match best l with Some (_, r) => r | None => [] end;
  elems l := l
}.

Lemma best_spec l :
  match best l with
  | None => l = []
  | Some (y, r) => l ≡ₚ y :: r /\ forall x, x ∈ l -> better x y = false
  end.
Proof using better_asym better_negtrans.
  assert (forall a, better a a = false) as Hirr by (intros a; destruct (better a a) eqn:B; [by rewrite (better_asym a a B) in B|done]).
  induction l as [|x l IH]; simpl; [done|]. destruct (best l) as [[y r]|].
  - destruct IH as [P B]. destruct (better y x) eqn:Hyx.
    + split; [rewrite P; apply perm_swap|]. intros z [->|Hz]%elem_of_cons; [by apply better_asym|by apply B].
    + split; [done|]. intros z [->|Hz]%elem_of_cons; [done|]. eapply better_negtrans; [exact Hyx|by apply B].
  - subst l. split; [done|]. by intros z ->%list_elem_of_singleton.
Qed.

Lemma best_app l e y r : best l = Some (y, r) -> better e y = false -> exists r', best (l ++ [e]) = Some (y, r').
Proof using better_asym better_negtrans.
  revert y r. induction l as [|x l IH]; intros y r; simpl; [done|].
  destruct (best l) as [[z rz]|] eqn:Hl.
  - destruct (better z x) eqn:Hzx.
    + intros [= <- <-] He. destruct (IH z rz eq_refl He) as [r' ->]. rewrite Hzx. eauto.
    + intros [= <- <-] He. destruct (best (l ++ [e])) as [[w rw]|] eqn:Hw; [|eauto].
      assert (better w x = false) as ->; [|eauto].
      pose proof (best_spec (l ++ [e])) as B. rewrite Hw in B. destruct B as [P _].
      assert (w ∈ l ++ [e]) as Hin by (rewrite P; left).
      apply elem_of_app in Hin as [Hin|Hin]; [|by apply list_elem_of_singleton in Hin as ->].
      pose proof (best_spec l) as B. rewrite Hl in B. destruct B as [_ B].
      eapply better_negtrans; [exact Hzx|by apply B].
  - intros [= <- <-] He. pose proof (best_spec l) as B. rewrite Hl in B. subst l. simpl. rewrite He. eauto.
Qed.

Lemma list_queue_laws : PriorityQueueLaws (H := list_queue) better.
Proof using better_asym better_negtrans.
  split; simpl.
  - done.
  - intros e l. apply Permutation_app_comm.
  - intros l Hl. pose proof (best_spec l) as B. by destruct (best l).
  - intros l e Hl x Hx. pose proof (best_spec l) as B. destruct (best l) as [[y r]|]; [|done].
    injection Hl as <-. by apply B.
  - intros l e Hl. pose proof (best_spec l) as B. destruct (best l) as [[y r]|]; [|done].
    injection Hl as <-. apply B.
  - intros l e x Hl Hx. destruct (best l) as [[y r]|] eqn:B; [|done]. injection Hl as <-.
    by destruct (best_app l x y r B Hx) as [r' ->].
Qed.

End ListQueue.

(** The costs of the program: saturating amounts. *)
#[global] Instance Amount_CostOrder : CostOrder is_u64 Amount.lt Amount.add.
Proof.
  split; unfold Amount.lt.
  - intros a b. rewrite Z.ltb_lt, Z.ltb_ge. lia.
  - intros a b c. rewrite !Z.ltb_ge. lia.
  - intros a b Ha Hb. by apply Amount.add_range.
  - intros a b Ha Hb. rewrite Amount.add_spec by done. apply Z.ltb_ge. ulia.
  - intros a b c Ha Hb Hc. rewrite !Z.ltb_ge, !Amount.add_spec by done. lia.
Qed.

(** ** Properties *)

(** C29: the shortest-path tree.  On a graph whose nodes reachable from the root
    are in a finite list, a client that feeds the neighbors of every current node
    comes to an end within as many rounds as the list has nodes, no operation
    fails, and the result has exactly the reachable nodes; the cost of each is the
    cost of a path from the root, and no path is cheaper; its parent is the last
    node before it on such a path; and the children are the inverse of the
    parents. *)
Theorem dijkstra_shortest_tree {K C Q} `{Countable K} `{PriorityQueue (K * C) Q} (ok : C -> Prop)
    cmp_c add_c adj (root : K) root_cost U :
  CostOrder ok cmp_c add_c -> PriorityQueueLaws (fun a b : K * C => cmp_c a.2 b.2) ->
  graph_ok ok adj root_cost -> universe adj root U ->
  exists d : Dijkstra K C Q,
    explore cmp_c add_c adj (length U) (make root root_cost) = Some d
    /\ shortest_tree cmp_c add_c adj root root_cost (finalize d).
Proof.
  intros HC HP Hok HU.
  destruct (explore_inv ok cmp_c add_c adj root root_cost Hok U HU (length U) [] (make root root_cost))
    as (d & L & E & Hc & I); [by eapply make_inv|simpl; lia|].
  exists d. split; [done|]. by eapply final_tree.
Qed.

(** The current node.  In every session with a client that keeps to the
    documentation, also before the end of the graph, the cost of the current node
    is already the cost of a cheapest path to it, so that a search may stop there;
    feeding its next neighbor succeeds and does not change it, and ending its
    neighbors succeeds. *)
Theorem dijkstra_current_final {K C Q} `{Countable K} `{PriorityQueue (K * C) Q} (ok : C -> Prop)
    cmp_c add_c adj (root : K) root_cost rest (d : Dijkstra K C Q) u :
  CostOrder ok cmp_c add_c -> PriorityQueueLaws (fun a b : K * C => cmp_c a.2 b.2) ->
  graph_ok ok adj root_cost -> session cmp_c add_c adj root root_cost rest d -> current d = Some u ->
  (exists t, treenodes d !! u = Some t /\ path add_c adj root root_cost u (cost t)
     /\ forall p, path add_c adj root root_cost u p -> cmp_c p (cost t) = false)
  /\ match rest with
     | (n, c) :: _ => exists d', neighbor cmp_c add_c d n c = Some d' /\ current d' = Some u
     | [] => is_Some (end_neighbors d)
     end.
Proof.
  intros HC HP Hok Hs Hc.
  destruct (session_inv ok cmp_c add_c adj root root_cost Hok rest d Hs) as (L & fed & I & Hrest).
  rewrite Hc in Hrest. unfold current in Hc. destruct (pq_top (q d)) as [[u' k]|] eqn:T; [|done].
  injection Hc as ->. split.
  - destruct (top_cost ok cmp_c add_c adj root root_cost Hok L fed d u k I T) as (ku & Eu & _).
    unfold cost_of in Eu. destruct (treenodes d !! u) as [t|] eqn:Et; [|done]. injection Eu as Eu.
    exists t. split; [done|]. rewrite Eu. split; [eapply (v_path _ _ _ _ _ _ _ _ I); unfold cost_of; rewrite Et; simpl; by rewrite Eu|].
    intros p Hp. destruct (current_final ok cmp_c add_c adj root root_cost Hok L fed d u k p I T Hp) as (k' & Ek & Hk).
    unfold cost_of in Ek. rewrite Et in Ek. injection Ek as <-. by rewrite Eu in Hk.
  - destruct rest as [|[n c] rest].
    + unfold end_neighbors. rewrite T. by eexists.
    + destruct (neighbor_inv ok cmp_c add_c adj root root_cost Hok L fed d u k n c I T) as (d' & E' & _ & T').
      { rewrite Hrest. apply elem_of_app. right. left. }
      exists d'. split; [done|]. unfold current. by rewrite T'.
Qed.

(** ** Witnesses *)

Definition cheaper (a b : Z * Amount) : bool := Amount.lt a.2 b.2.

#[local] Instance demo_queue : PriorityQueue (Z * Amount) (list (Z * Amount)) := list_queue cheaper.

Lemma demo_queue_laws : PriorityQueueLaws (fun a b : Z * Amount => Amount.lt a.2 b.2).
Proof.
  apply (list_queue_laws cheaper); unfold cheaper, Amount.lt.
  - intros a b. rewrite Z.ltb_lt, Z.ltb_ge. lia.
  - intros a b c. rewrite !Z.ltb_ge. lia.
Qed.

(** Two ways to 3, the longer one cheaper; an edge of cost 0, a cycle, and a node
    that is not reachable. *)
Definition demo_adj (n : Z) : list (Z * Amount) :=
  if n =? 0 then [(3, 10); (1, 2)]
  else if n =? 1 then [(2, 0); (0, 1)]
  else if n =? 2 then [(3, 4)]
  else if n =? 4 then [(0, 1)]
  else [].

Lemma demo_adj_in u v c : (v, c) ∈ demo_adj u -> 0 <= c <= 10 /\ 0 <= v <= 3.
Proof.
  unfold demo_adj. repeat destruct (_ =? _); rewrite ?elem_of_cons, ?elem_of_nil;
    intros Hv; naive_solver lia.
Qed.

Lemma demo_graph_ok : graph_ok is_u64 demo_adj 0.
Proof. split; [ulia|]. intros u v c Hv. apply demo_adj_in in Hv. ulia. Qed.

Lemma demo_universe : universe demo_adj 0 [0; 1; 2; 3].
Proof.
  split; [left|]. intros u v c _ Hv. apply demo_adj_in in Hv as [_ Hv].
  assert (v = 0 \/ v = 1 \/ 2 <= v) as Hv' by lia. rewrite !elem_of_cons, elem_of_nil. lia.
Qed.

Lemma dijkstra_shortest_tree_witness :
  exists d : Dijkstra Z Amount (list (Z * Amount)),
    explore Amount.lt Amount.add demo_adj 4 (make 0 0) = Some d
    /\ shortest_tree Amount.lt Amount.add demo_adj 0 0 (finalize d)
    /\ (cost <$> finalize d !! 3, finalize d !! 3 ≫= parent, finalize d !! 4) = (Some 6, Some 2, None).
Proof.
  destruct (dijkstra_shortest_tree (Q := list (Z * Amount)) is_u64 Amount.lt Amount.add demo_adj 0 0
    [0; 1; 2; 3] Amount_CostOrder demo_queue_laws demo_graph_ok demo_universe) as (d & E & Hd).
  exists d. split; [exact E|]. split; [exact Hd|]. vm_compute in E. injection E as <-. vm_compute. reflexivity.
Defined.

Lemma dijkstra_current_final_witness :
  current (make (Q := list (Z * Amount)) 0 (0 : Amount)) = Some 0
  /\ is_Some (neighbor Amount.lt Amount.add (make (Q := list (Z * Amount)) 0 0) 3 10).
Proof.
  split; [vm_compute; reflexivity|].
  destruct (dijkstra_current_final (Q := list (Z * Amount)) is_u64 Amount.lt Amount.add demo_adj 0 0
    (demo_adj 0) (make 0 0) 0 Amount_CostOrder demo_queue_laws demo_graph_ok
    (session_make _ _ _ _ _) ltac:(vm_compute; reflexivity)) as (_ & d' & E & _).
  exists d'. exact E.
Defined.

End Graph.
