(* ===== verification/Stats.v ===== *)
(** * Statistics helpers (src/Stats/ReservoirSampler.hpp, src/Stats/WeightedMedian.hpp)

    Weighted sampling without replacement, and the weighted median.  The finders
    of channel candidates sample with the first; the survey of competitors' fees
    uses the second, with amounts as weights. *)

From Stdlib Require Import QArith.
From stdpp Require Import base list numbers sorting.
From S2P Require Import Prelude.
From S2P Require Import Double.
From S2P Require Import Amount.

#[local] Open Scope Z_scope.

(** ** [Stats::ReservoirSampler] *)

Module Reservoir.

Section Sampler.

Context {A : Type}.
(** [std::log]. *)
Context (log : double -> double).

Record Sampler := { max_selected : nat; selected : list A; keys : list double }.

Definition make (max : nat) : Sampler := {| max_selected := max; selected := []; keys := [] |}.

Definition clear (r : Sampler) (max : nat) : Sampler := make max.

(** The log-space key of an item of weight [w], for the uniform draw [u]. *)
Definition sample_key (w u : double) : double := ddiv (log u) w.

(** The scan for the smallest key: [i] is the index of the head of [ks], [min_i] the
    index of the smallest key so far and [min_k] that key. *)
Fixpoint min_scan (ks : list double) (i min_i : nat) (min_k : double) : nat * double :=
  match ks with
  | [] => (min_i, min_k)
  | k :: ks => if dlt k min_k then min_scan ks (S i) i k else min_scan ks (S i) min_i min_k
  end.

Definition add (r : Sampler) (s : A) (w u : double) : Sampler :=
  if bool_decide (max_selected r = 0%nat) then r
  else
    let key := sample_key w u in
    if bool_decide (length (selected r) < max_selected r)%nat then
      {| max_selected := max_selected r; selected := selected r ++ [s]; keys := keys r ++ [key] |}
    else
      match keys r with
      | [] => r
      | k0 :: ks =>
          let '(min_i, min_k) := min_scan ks 1 0 k0 in
          if dlt min_k key then
            {| max_selected := max_selected r; selected := <[min_i := s]> (selected r);
               keys := <[min_i := key]> (keys r) |}
          else r
      end.

Definition finalize (r : Sampler) : list A := selected r.

(** A stream of items with their weights and draws. *)
Definition add_all (r : Sampler) (l : list (A * double * double)) : Sampler :=
  foldl (fun r '(s, w, u) => add r s w u) r l.

Definition keyed (l : list (A * double * double)) : list (A * double) :=
  map (fun '(s, w, u) => (s, sample_key w u)) l.

End Sampler.

Arguments Sampler : clear implicits.

(** ** Lemmas *)

Definition number (x : double) : Prop := x <> NaN.

Lemma dlt_irrefl x : dlt x x = false.
Proof.
  destruct x as [a|[]|]; simpl; try done. apply negb_false_iff. apply Qle_bool_iff. apply Qle_refl.
Qed.

Lemma dlt_asym x y : dlt x y = true -> dlt y x = false.
Proof.
  destruct x as [a|[]|], y as [b|[]|]; simpl; try done. intros H. apply negb_true_iff in H.
  apply negb_false_iff, Qle_bool_iff. destruct (Qlt_le_dec a b) as [L|L]; [by apply Qlt_le_weak|].
  apply Qle_bool_iff in L. congruence.
Qed.

Lemma dlt_negtrans x y z : number y -> dlt y x = false -> dlt z y = false -> dlt z x = false.
Proof.
  destruct x as [a|[]|], y as [b|[]|], z as [c|[]|]; simpl; try done.
  intros _ H1 H2. apply negb_false_iff, Qle_bool_iff in H1, H2.
  apply negb_false_iff, Qle_bool_iff. by eapply Qle_trans.
Qed.

Section Correct.

Context {A : Type} (log : double -> double).
Notation Sampler := (Sampler A).

Lemma min_scan_spec ks : forall all i min_i min_k,
  drop i all = ks -> all !! min_i = Some min_k -> Forall number all ->
  (forall j k, (j < i)%nat -> all !! j = Some k -> dlt k min_k = false) ->
  forall mi mk, min_scan ks i min_i min_k = (mi, mk) ->
  all !! mi = Some mk /\ Forall (fun k => dlt k mk = false) all.
Proof.
  induction ks as [|k ks IH]; intros all i min_i min_k Hd Hm Hn Hb mi mk; simpl.
  - intros [= <- <-]. split; [done|]. apply Forall_lookup. intros j x Hx. eapply Hb; [|done].
    apply lookup_lt_Some in Hx. apply (f_equal length) in Hd. rewrite length_drop in Hd. simpl in Hd. lia.
  - assert (all !! i = Some k) as Hk by (rewrite <- (Nat.add_0_r i), <- lookup_drop, Hd; done).
    assert (drop (S i) all = ks) as Hd' by (rewrite <- Nat.add_1_r, <- drop_drop, Hd; done).
    assert (number min_k) as Nm by (rewrite Forall_lookup in Hn; by eapply Hn).
    assert (number k) as Nk by (rewrite Forall_lookup in Hn; by eapply Hn).
    destruct (dlt k min_k) eqn:Hlt; apply IH; try done.
    + intros j x Hj Hx. destruct (decide (j = i)) as [->|Hji].
      * rewrite Hk in Hx. injection Hx as <-. apply dlt_irrefl.
      * eapply dlt_negtrans; [exact Nm|by apply dlt_asym|]. eapply Hb; [|done]. lia.
    + intros j x Hj Hx. destruct (decide (j = i)) as [->|Hji].
      * rewrite Hk in Hx. by injection Hx as <-.
      * eapply Hb; [|done]. lia.
Qed.

(** What is kept and what was turned away. *)
Record sampled (m : nat) (all : list (A * double)) (r : Sampler) : Prop := {
  s_max : max_selected r = m;
  s_lengths : length (keys r) = length (selected r);
  s_count : length (selected r) = Nat.min m (length all);
  s_parts : exists rejected, zip (selected r) (keys r) ++ rejected ≡ₚ all
    /\ forall x k, x ∈ rejected -> k ∈ keys r -> dlt k x.2 = false
}.

Lemma replace_perm (l : list (A * double)) i x y :
  l !! i = Some x -> x :: <[i := y]> l ≡ₚ y :: l.
Proof.
  intros Hx. rewrite insert_take_drop by (by eapply lookup_lt_Some).
  rewrite <- (take_drop_middle l i x Hx) at 3. rewrite <- !Permutation_middle. apply perm_swap.
Qed.

(** An item turned away because no kept key is smaller. *)
Lemma reject_sampled m all r x :
  sampled m all r -> (m <= length (selected r))%nat -> (forall k, k ∈ keys r -> dlt k x.2 = false) ->
  sampled m (all ++ [x]) r.
Proof.
  intros [H1 H2 H3 (rej & P & R)] Hm Hx. split; try done; [rewrite length_app; simpl; lia|].
  exists (x :: rej). split; [rewrite <- Permutation_middle, P; apply Permutation_cons_append|].
  intros y k [->|Hy]%elem_of_cons Hk; [by apply Hx|by apply R].
Qed.

Lemma append_sampled m all r s key :
  sampled m all r -> (length (selected r) < m)%nat ->
  sampled m (all ++ [(s, key)])
    {| max_selected := max_selected r; selected := selected r ++ [s]; keys := keys r ++ [key] |}.
Proof.
  intros [H1 H2 H3 (rej & P & R)] Hm. split; simpl; [done|rewrite !length_app; simpl; lia..|].
  assert (rej = []) as ->.
  { apply Permutation_length in P. rewrite length_app, length_zip_with in P. destruct rej; [done|]. simpl in P. lia. }
  exists []. split; [|by intros x k ?%elem_of_nil]. rewrite app_nil_r in P |- *.
  rewrite zip_with_app by done. simpl. by rewrite P.
Qed.

(** A key that replaces the smallest one. *)
Lemma replace_sampled m all r s key mi mk :
  sampled m all r -> Forall number (keys r) -> (m <= length (selected r))%nat ->
  keys r !! mi = Some mk -> Forall (fun k => dlt k mk = false) (keys r) -> dlt mk key = true ->
  sampled m (all ++ [(s, key)])
    {| max_selected := max_selected r; selected := <[mi := s]> (selected r); keys := <[mi := key]> (keys r) |}.
Proof.
  intros [H1 H2 H3 (rej & P & R)] Hn Hm Hmi Hmin Hlt.
  destruct (lookup_lt_is_Some_2 (selected r) mi) as [x Hx]; [apply lookup_lt_Some in Hmi; lia|].
  split; simpl; [done|by rewrite !length_insert|rewrite length_insert, length_app; simpl; lia|].
  exists ((x, mk) :: rej). split.
  - rewrite <- Permutation_middle, <- (insert_zip_with pair), app_comm_cons.
    rewrite (replace_perm _ mi (x, mk) (s, key)) by (by rewrite lookup_zip_with, Hx, Hmi).
    simpl. rewrite P. apply Permutation_cons_append.
  - rewrite Forall_lookup in Hmin, Hn. intros y k Hy Hk.
    apply list_elem_of_lookup in Hk as [j Hj]. apply list_lookup_insert_Some in Hj as [(-> & <- & _)|[_ Hj]];
      apply elem_of_cons in Hy as [->|Hy]; simpl.
    + by apply dlt_asym.
    + eapply dlt_negtrans; [by eapply Hn|apply R; [exact Hy|by eapply list_elem_of_lookup_2]|by apply dlt_asym].
    + by eapply Hmin.
    + apply R; [done|]. by eapply list_elem_of_lookup_2.
Qed.

Lemma add_sampled m all r s w u :
  sampled m all r -> Forall number (keys r) -> number (sample_key log w u) ->
  sampled m (all ++ [(s, sample_key log w u)]) (add log r s w u) /\ Forall number (keys (add log r s w u)).
Proof.
  intros S Hn Hk. pose proof S as [H1 H2 H3 H4]. unfold add. set (key := sample_key log w u) in *.
  case_bool_decide as D0.
  { split; [|done]. apply reject_sampled; [done|lia|]. intros k Hin.
    destruct (keys r); [by apply elem_of_nil in Hin|]. simpl in H2. lia. }
  case_bool_decide as D1.
  { split; [apply append_sampled; [done|lia]|apply Forall_app; by repeat constructor]. }
  destruct (keys r) as [|k0 ks] eqn:Ek; [simpl in H2; lia|].
  destruct (min_scan ks 1 0 k0) as [mi mk] eqn:Em.
  destruct (min_scan_spec ks (k0 :: ks) 1 0 k0 eq_refl eq_refl Hn) with mi mk as [Hmi Hmin]; [|done|].
  { intros [|j] x Hj Hx; [|lia]. injection Hx as <-. apply dlt_irrefl. }
  rewrite <- Ek in *. destruct (dlt mk key) eqn:Hlt.
  - split; [apply (replace_sampled _ _ _ _ _ mi mk); try done; lia|by apply Forall_insert].
  - split; [|done]. apply reject_sampled; [done|lia|]. intros k Hin. simpl.
    rewrite Forall_forall in Hmin. rewrite Forall_lookup in Hn.
    eapply dlt_negtrans; [by eapply Hn|exact Hlt|by apply Hmin].
Qed.

Lemma add_all_sampled m l : forall all r,
  sampled m all r -> Forall number (keys r) -> Forall (fun '(_, w, u) => number (sample_key log w u)) l ->
  sampled m (all ++ keyed log l) (add_all log r l).
Proof.
  induction l as [|[[s w] u] l IH]; intros all r S Hn Hl; simpl; [by rewrite app_nil_r|].
  apply Forall_cons in Hl as [Hk Hl]. destruct (add_sampled m all r s w u S Hn Hk) as [S' Hn'].
  specialize (IH _ _ S' Hn' Hl). by rewrite <- app_assoc in IH.
Qed.

End Correct.

(** ** Properties *)

(** The reservoir.  Of the items of a stream whose keys are numbers, the
    sampler keeps the [m] with the largest keys, or all of them if there are fewer:
    the kept and the rejected items are together the stream, and no kept key is
    smaller than a rejected one, whatever the order of arrival. *)
Theorem reservoir_keeps_largest {A} log m (l : list (A * double * double)) :
  Forall (fun '(_, w, u) => number (sample_key log w u)) l ->
  let r := add_all log (make m) l in
  length (finalize r) = Nat.min m (length l)
  /\ exists rejected, zip (finalize r) (keys r) ++ rejected ≡ₚ keyed log l
       /\ forall x k, x ∈ rejected -> k ∈ keys r -> dlt k x.2 = false.
Proof.
  intros Hl. assert (sampled m [] (make (A := A) m)) as S0.
  { split; simpl; [done|done|lia|]. exists []. split; [done|]. by intros x k ?%elem_of_nil. }
  destruct (add_all_sampled log m l [] (make m) S0 (Forall_nil_2 _) Hl) as [_ _ H3 H4]. simpl in *.
  unfold keyed in H3. rewrite length_map in H3. done.
Qed.

(** ** Witness *)

Definition demo_stream : list (Z * double * double) :=
  [(1, d_of_Z 1, d_of_Z 7); (2, d_of_Z 2, d_of_Z 6); (3, d_of_Z 1, d_of_Z 9); (4, d_of_Z 4, d_of_Z 100)].

Definition is_number (x : double) : bool := match x with NaN => false | _ => true end.

Lemma numbers_check {A} log (l : list (A * double * double)) :
  forallb (fun '(_, w, u) => is_number (sample_key log w u)) l = true ->
  Forall (fun '(_, w, u) => number (sample_key log w u)) l.
Proof.
  induction l as [|[[s w] u] l IH]; simpl; [done|]. intros [H1 H2]%andb_prop. constructor; [|by apply IH].
  intros E. by rewrite E in H1.
Qed.

(** With a stand-in for the logarithm. *)
Lemma reservoir_keeps_largest_witness :
  finalize (add_all (fun x => x) (make 2) demo_stream) = [4; 3]
  /\ exists rejected, zip [4; 3] [d_of_Z 25; d_of_Z 9] ++ rejected ≡ₚ keyed (fun x => x) demo_stream.
Proof.
  split; [vm_compute; reflexivity|].
  assert (Forall (fun '(_, w, u) => number (sample_key (fun x => x) w u)) demo_stream) as Hn
    by (apply numbers_check; vm_compute; reflexivity).
  destruct (reservoir_keeps_largest (fun x => x) 2 demo_stream Hn) as (_ & rej & P & _).
  exists rej. vm_compute in P. vm_compute. exact P.
Defined.

End Reservoir.

(** ** [Stats::WeightedMedian] *)

Module Median.

Abbreviation Entry := (Z * Amount)%type.

(** Sorting by sample; [std::sort] leaves the order of equal samples open, which
    does not change the sample that is returned. *)
Definition sample_le (a b : Entry) : Prop := a.1 <= b.1.

#[global] Instance sample_le_dec a b : Decision (sample_le a b).
Proof. unfold sample_le. apply _. Defined.
#[global] Instance sample_le_trans : Transitive sample_le.
Proof. unfold sample_le. intros a b c. lia. Qed.
#[global] Instance sample_le_total : Total sample_le.
Proof. unfold sample_le. intros a b. lia. Qed.

Record WeightedMedian := { samples : list Entry; total_weight : Amount }.

Definition empty : WeightedMedian := {| samples := []; total_weight := 0 |}.

Definition add (m : WeightedMedian) (s : Z) (w : Amount) : WeightedMedian :=
  {| samples := samples m ++ [(s, w)];
     total_weight := if bool_decide (length (samples m) = 0%nat) then w else Amount.add (total_weight m) w |}.

(** The loop of [finalize]; [None] as running weight is the first round, and the
    result [None] is [NoSamples]. *)
Fixpoint median_loop (total : Amount) (running : option Amount) (l : list Entry) : option Z :=
  match l with
  | [] => None
  | (s, w) :: l =>
      let r := match running with None => w | Some r => Amount.add r w end in
      let r := Amount.add r w in
      if Amount.lt total r then Some s else median_loop total (Some r) l
  end.

Definition finalize (m : WeightedMedian) : option Z :=
  median_loop (total_weight m) None (merge_sort sample_le (samples m)).

Definition add_all (l : list Entry) : WeightedMedian := foldl (fun m '(s, w) => add m s w) empty l.

(** ** Lemmas *)

(** The weight of the samples that satisfy [P]. *)
Definition weight (P : Z -> bool) (l : list Entry) : Z := sumZ (map (fun e => if P e.1 then e.2 else 0) l).

Definition weights (l : list Entry) : Z := weight (fun _ => true) l.

Definition nonneg (l : list Entry) : Prop := Forall (fun e => 0 <= e.2) l.

Lemma weight_app P l1 l2 : weight P (l1 ++ l2) = weight P l1 + weight P l2.
Proof. unfold weight. by rewrite map_app, sumZ_app. Qed.

Lemma weight_perm P l1 l2 : l1 ≡ₚ l2 -> weight P l1 = weight P l2.
Proof. intros HP. unfold weight. induction HP; simpl; lia. Qed.

Lemma weight_le P l : nonneg l -> 0 <= weight P l <= weights l.
Proof. unfold weights, weight. induction 1 as [|e l He Hl IH]; simpl; [lia|]. destruct (P e.1); lia. Qed.

Lemma weight_none P l : Forall (fun e => P e.1 = false) l -> weight P l = 0.
Proof. unfold weight. induction 1 as [|e l He Hl IH]; simpl; [done|]. rewrite He. lia. Qed.

Lemma add_all_spec l : nonneg l -> weights l < 2 ^ 64 ->
  samples (add_all l) = l /\ total_weight (add_all l) = weights l.
Proof.
  unfold add_all. induction l as [|[s w] l IH] using rev_ind; intros Hl Hs; [done|].
  apply Forall_app in Hl as [Hl Hw]. apply Forall_cons in Hw as [Hw _]. simpl in Hw.
  unfold weights in *. rewrite weight_app in Hs |- *. unfold weight at 2 in Hs. simpl in Hs.
  pose proof (weight_le (fun _ => true) l Hl) as [B _]. unfold weights in B.
  destruct IH as [E1 E2]; [done|lia|]. rewrite foldl_app. simpl. rewrite E1. split; [done|].
  unfold weight at 2. simpl. case_bool_decide as D.
  - apply length_zero_iff_nil in D. subst l. unfold weight. simpl. lia.
  - rewrite E2, Amount.add_spec by ulia. ulia.
Qed.

Lemma median_loop_spec total l : forall running r0,
  match running with None => r0 = 0 | Some r => r0 = r end ->
  nonneg l -> 0 <= r0 <= total -> r0 + 2 * weights l < 2 ^ 64 -> total < r0 + 2 * weights l ->
  exists pre s w post, l = pre ++ (s, w) :: post /\ median_loop total running l = Some s
    /\ r0 + 2 * weights pre <= total /\ total < r0 + 2 * weights (pre ++ [(s, w)]).
Proof.
  induction l as [|[s w] l IH]; intros running r0 Hr Hl H0 Hb Ht; [unfold weights, weight in Ht; simpl in Ht; lia|].
  apply Forall_cons in Hl as [Hw Hl]. simpl in Hw.
  assert (weights ((s, w) :: l) = w + weights l) as Ew by done.
  pose proof (weight_le (fun _ => true) l Hl) as [B _]. fold (weights l) in B. rewrite Ew in *.
  simpl. set (r1 := match running with None => w | Some r => Amount.add r w end).
  assert (Amount.add r1 w = r0 + 2 * w) as Er.
  { unfold r1. destruct running as [r|]; subst r0.
    - rewrite (Amount.add_spec r w), Z.min_l by ulia. rewrite Amount.add_spec by ulia. ulia.
    - rewrite Amount.add_spec by ulia. ulia. }
  rewrite Er. unfold Amount.lt. destruct (Z.ltb_spec total (r0 + 2 * w)) as [L|L].
  - exists [], s, w, l. split_and!; [done..| |]; unfold weights, weight; simpl; lia.
  - destruct (IH (Some (r0 + 2 * w)) (r0 + 2 * w)) as (pre & s' & w' & post & E1 & E2 & E3 & E4);
      [done|done|lia|lia|lia|].
    exists ((s, w) :: pre), s', w', post. rewrite E1 at 1. split_and!; [done|done| |].
    + change (weights ((s, w) :: pre)) with (w + weights pre). lia.
    + change (weights (((s, w) :: pre) ++ [(s', w')])) with (w + weights (pre ++ [(s', w')])). lia.
Qed.

Lemma median_loop_zero l : forall r, nonneg l -> weights l = 0 ->
  match r with None => True | Some v => v = 0 end -> median_loop 0 r l = None.
Proof.
  induction l as [|[s w] l IH]; intros r Hn Hw Hr; [done|]. apply Forall_cons in Hn as [Hn1 Hn].
  simpl in Hn1. pose proof (weight_le (fun _ => true) l Hn) as [B _].
  assert (w = 0 /\ weights l = 0) as [-> Hw'] by (unfold weights, weight in *; simpl in Hw; lia).
  simpl. destruct r as [v|]; [subst v|]; apply (IH (Some 0)); done.
Qed.

Lemma sorted_middle pre m w post :
  StronglySorted sample_le (pre ++ (m, w) :: post) ->
  Forall (fun e => e.1 <= m) pre /\ Forall (fun e => m <= e.1) post.
Proof.
  induction pre as [|e pre IH]; simpl; intros SS; apply StronglySorted_inv in SS as [SS He]; [by split|].
  destruct (IH SS) as [H1 H2]. split; [|done]. constructor; [|done].
  apply Forall_app in He as [_ He]. by apply Forall_cons in He as [He _].
Qed.

(** ** Properties *)

(** The weighted median.  Unless the samples have no weight at all, a sample
    is returned, and both the samples below it and the samples above it have at
    most half of the weight; without weight, [NoSamples] is thrown.  (Twice the sum
    of the weights must not saturate.) *)
Theorem median_splits_weight (l : list (Z * Amount)) :
  nonneg l -> 2 * weights l < 2 ^ 64 ->
  match finalize (add_all l) with
  | Some m => m ∈ map fst l /\ 2 * weight (fun s => s <? m) l <= weights l
              /\ 2 * weight (fun s => m <? s) l < weights l
  | None => weights l = 0
  end.
Proof.
  intros Hl Hs. pose proof (weight_le (fun _ => true) l Hl) as [B _]. fold (weights l) in B.
  destruct (add_all_spec l Hl ltac:(lia)) as [E1 E2]. unfold finalize. rewrite E1, E2.
  pose proof (merge_sort_Permutation sample_le l) as P.
  pose proof (StronglySorted_merge_sort sample_le l) as SS. set (sorted := merge_sort sample_le l) in *.
  assert (nonneg sorted) as Hsl by (unfold nonneg; by rewrite P).
  assert (weights sorted = weights l) as Ew by (by apply weight_perm).
  destruct (decide (weights l = 0)) as [Z0|Z0].
  - destruct (median_loop (weights l) None sorted) as [m|] eqn:Em; [|done]. exfalso. rewrite Z0 in Em.
    by rewrite median_loop_zero in Em by (done || lia).
  - destruct (median_loop_spec (weights l) sorted None 0 eq_refl Hsl) as (pre & m & w & post & Es & -> & H1 & H2); [lia..|].
    assert (weights sorted = weights (pre ++ [(m, w)]) + weights post) as Esum
      by (rewrite Es; unfold weights; rewrite <- weight_app, <- app_assoc; done).
    rewrite Es in SS, Hsl. apply Forall_app in Hsl as [Hpre Hpost]. apply Forall_cons in Hpost as [_ Hpost].
    destruct (sorted_middle pre m w post SS) as [Lpre Lpost].
    split; [|split].
    + rewrite <- P, Es, map_app. apply elem_of_app. right. left.
    + rewrite <- (weight_perm _ sorted l P), Es, weight_app.
      change (weight (fun s => s <? m) ((m, w) :: post)) with ((if m <? m then w else 0) + weight (fun s => s <? m) post).
      rewrite (weight_none _ post), Z.ltb_irrefl
        by (eapply Forall_impl; [exact Lpost|]; intros e He; simpl in *; by apply Z.ltb_ge).
      pose proof (weight_le (fun s => s <? m) pre Hpre). lia.
    + rewrite <- (weight_perm _ sorted l P), Es, weight_app.
      change (weight (fun s => m <? s) ((m, w) :: post)) with ((if m <? m then w else 0) + weight (fun s => m <? s) post).
      rewrite (weight_none _ pre), Z.ltb_irrefl
        by (eapply Forall_impl; [exact Lpre|]; intros e He; simpl in *; by apply Z.ltb_ge).
      pose proof (weight_le (fun s => m <? s) post Hpost). lia.
Qed.

(** ** Witness *)

Lemma median_splits_weight_witness :
  finalize (add_all [(30, 5); (10, 4); (20, 2)]) = Some 20
  /\ 2 * weight (fun s => s <? 20) [(30, 5); (10, 4); (20, 2)] <= 11.
Proof.
  split; [vm_compute; reflexivity|].
  pose proof (median_splits_weight [(30, 5); (10, 4); (20, 2)]
    ltac:(repeat constructor; discriminate) ltac:(vm_compute; reflexivity)) as M.
  vm_compute in M. vm_compute. apply M.
Defined.

End Median.
