(* ===== verification/DistanceFinder.v ===== *)
(** * Finding channel candidates by distance

    [src/Boss/Mod/ChannelFinderByDistance.cpp]: a shortest-path tree of the network
    from our own node, with fees and delays as costs (the algorithm of [Dijkstra]);
    the leaves of the tree, by a walk over the lists of children; and a weighted
    sample of the leaves that are not direct peers (the sampler of [Stats]), each
    proposed with its parent as patron.

    The replies to [listchannels] are JSON trees or failures of the command; the
    logarithm and the random draws of the sampler are parameters. *)

From Stdlib Require Import QArith.
From stdpp Require Import base list numbers strings gmap sorting.
From S2P Require Import Prelude.
From S2P Require Import Double.
From S2P Require Import Amount.
From S2P Require Import LnIds.
From S2P Require Import Jsmn.
From S2P Require Import Dijkstra.
From S2P Require Import Stats.
Import Jsmn.

#[local] Open Scope Z_scope.

Module Distance.

Abbreviation Node := NodeId.t.

Definition reference_amount : Amount := Amount.sat 10000.
Definition msat_per_block : double := d_of_Z 1.
Definition max_fee : Amount := Amount.sat 50.
Definition max_preinvestigate : nat := 40.
Definition max_candidates : nat := 3.

(** ** Edges of the graph *)

(** Why the processing of a reply stops early: [Jsmn::TypeError], another
    exception, or undefined behaviour. *)
Inductive stop := Type_error | Exception | Undefined.

Definition outcome (A : Type) : Type := A + stop.

Definition lift {A} (r : res A) : outcome A :=
  match r with
  | Ok a => inl a
  | Throw TypeError => inr Type_error
  | Throw _ => inr Exception
  | Undef => inr Undefined
  end.

Definition obind {A B} (m : outcome A) (f : A -> outcome B) : outcome B :=
  match m with inl a => f a | inr e => inr e end.

Declare Scope outcome_scope.
Notation "'let*' x := m 'in' k" := (obind m (fun x => k))
  (at level 10, x pattern, m at level 100, k at level 200) : outcome_scope.
#[local] Open Scope outcome_scope.

Definition defined {A} (o : option A) : outcome A :=
  match o with Some a => inl a | None => inr Undefined end.

Definition field (c : json) (name : string) : outcome (option json) :=
  lift (jindex_key (Some c) (lit name)).

Definition channel_cost (b : Amount) (p d : double) : outcome Amount :=
  let* prop := defined (Amount.mul reference_amount (ddiv p (d_of_Z 1000000))) in
  let* delay := defined (d_to_u64 (dmul msat_per_block d)) in
  inl (Amount.add (Amount.add b prop) (Amount.msat delay)).

(** One channel of a reply: nothing, when it is inactive or too expensive, or a
    neighbor and the cost to go there. *)
Definition channel_edge (c : json) : outcome (option (Node * Amount)) :=
  let* a := field c "active" in
  let* active := lift (jto_bool a) in
  if negb active then inl None
  else
    let* dest := field c "destination" in
    let* text := lift (jto_string dest) in
    match NodeId.of_string text with
    | None => inr Exception
    | Some n =>
        let* b_j := field c "base_fee_millisatoshi" in
        let* b_d := lift (jto_number b_j) in
        let* b := defined (d_to_u64 b_d) in
        let* p_j := field c "fee_per_millionth" in
        let* p := lift (jto_number p_j) in
        let* d_j := field c "delay" in
        let* d := lift (jto_number d_j) in
        let* cost := channel_cost (Amount.msat b) p d in
        if Amount.gt cost max_fee then inl None else inl (Some (n, cost))
    end.

(** The edges up to the first failure, and the failure. *)
Fixpoint reply_edges (cs : list json) : list (Node * Amount) * option stop :=
  match cs with
  | [] => ([], None)
  | c :: cs =>
      match channel_edge c with
      | inr e => ([], Some e)
      | inl o =>
          let '(es, e) := reply_edges cs in
          (match o with Some x => x :: es | None => es end, e)
      end
  end.

(** A reply to [listchannels]; [None] is an error of the command. *)
Definition edges_of (reply : option json) : list (Node * Amount) * option stop :=
  match reply with
  | None => ([], Some Exception)
  | Some res =>
      match (let* cs := lift (jindex_key (Some res) (lit "channels")) in lift (jelements cs)) with
      | inr e => ([], Some e)
      | inl cs => reply_edges cs
      end
  end.

Section Run.

Context {Q : Type} `{PriorityQueue (Node * Amount) Q}.
Context (listchannels : Node -> option json).

Abbreviation Djk := (Graph.Dijkstra Node Amount Q).

Definition neighbors (d : Djk) (es : list (Node * Amount)) : option Djk :=
  Graph.neighbors Amount.lt Amount.add d es.

(** [step]: feed the neighbors of the current node.  A type error leaves the tree
    as it is and ends the loop; other failures end the run. *)
Definition step (d : Djk) (n : Node) : option (Djk * option stop) :=
  let '(es, e) := edges_of (listchannels n) in
  d' ← neighbors d es;
  match e with
  | Some e => Some (d', Some e)
  | None => d'' ← Graph.end_neighbors d'; Some (d'', None)
  end.

(** [loop]; the fuel bounds the number of nodes that are scanned. *)
Fixpoint loop (fuel : nat) (d : Djk) : option (Djk * option stop) :=
  match Graph.current d with
  | None => Some (d, None)
  | Some n =>
      match fuel with
      | O => None
      | S f =>
          '(d', e) ← step d n;
          match e with None => loop f d' | Some e => Some (d', Some e) end
      end
  end.

End Run.

(** ** Leaves *)

Abbreviation Nav := (gmap Node (Graph.TreeNode Node Amount)).

Fixpoint find_leaves_loop (fuel : nat) (nav : Nav) (extract_q leaves : list Node) : option (list Node) :=
  match extract_q with
  | [] => Some leaves
  | n :: extract_q =>
      match fuel with
      | O => None
      | S f =>
          t ← nav !! n;
          match Graph.children t with
          | [] => find_leaves_loop f nav extract_q (leaves ++ [n])
          | cs => find_leaves_loop f nav (extract_q ++ cs) leaves
          end
      end
  end.

Definition find_leaves (nav : Nav) (self_id : Node) : option (list Node) :=
  find_leaves_loop (base.size nav) nav [self_id] [].

(** ** Candidates *)

Record Entry := { proposal : Node; patron : Node; entry_cost : Amount }.

(** The entry of a leaf; none for our own node and for the nodes right below it in the tree. *)
Definition entry_of (nav : Nav) (self_id n : Node) : option Entry :=
  t ← nav !! n;
  p ← Graph.parent t;
  if decide (p = self_id) then None
  else Some {| proposal := n; patron := p; entry_cost := Graph.cost t |}.

Definition costlier (a b : Entry) : Prop := entry_cost b <= entry_cost a.

#[global] Instance costlier_dec a b : Decision (costlier a b).
Proof. unfold costlier. apply _. Defined.
#[global] Instance costlier_trans : Transitive costlier.
Proof. unfold costlier. intros a b c. lia. Qed.
#[global] Instance costlier_total : Total costlier.
Proof. unfold costlier. intros a b. lia. Qed.

Section Analyze.

Context (log : double -> double) (draw : nat -> double).

Definition with_draws (es : list Entry) : list (Entry * double * double) :=
  imap (fun i e => (e, Amount.to_btc (entry_cost e), draw i)) es.

Definition sample (es : list Entry) : list Entry :=
  Reservoir.finalize (Reservoir.add_all log (Reservoir.make max_preinvestigate) (with_draws es)).

(** [analyze]: the proposals, with their patrons, that are given to
    preinvestigation. *)
Definition analyze (nav : Nav) (self_id : Node) (leaves : list Node) : list (Node * Node) :=
  let entries := sample (omap (entry_of nav self_id) leaves) in
  map (fun e => (proposal e, patron e)) (merge_sort costlier entries).

(** The message [PreinvestigateChannelCandidates]: the proposals, and how many of
    them may pass. *)
Definition preinvestigate (nav : Nav) (self_id : Node) (leaves : list Node) : list (Node * Node) * nat :=
  (analyze nav self_id leaves, max_candidates).

End Analyze.

(** ** The run *)

(** [core_run] first asks for our own channels. *)
Inductive Local := Unexpected | Not_on_network | Process (wait : bool) | Failed (e : stop).

Fixpoint any_active (cs : list json) : outcome bool :=
  match cs with
  | [] => inl false
  | c :: cs =>
      let* a := field c "active" in
      let* b := lift (jto_bool a) in
      if (b : bool) then inl true else any_active cs
  end.

Definition check_local (res : json) : Local :=
  let r := let* cs := lift (jindex_key (Some res) (lit "channels")) in
           let* n := lift (jsize cs) in
           let* l := lift (jelements cs) in
           let* b := any_active l in
           inl (n, b) in
  match r with
  | inr Type_error => Unexpected
  | inr e => Failed e
  | inl (n, active) => if bool_decide (n = 0%nat) then Not_on_network else Process (negb active)
  end.

(** ** Lemmas *)

Lemma add_u64 a b : is_u64 (Amount.add a b).
Proof.
  assert (is_u64 (u64 (a + b))) as B by (unfold is_u64, u64; apply Z.mod_pos_bound; lia).
  unfold Amount.add. destruct (u64 (a + b) <? b); [split; [discriminate|reflexivity]|exact B].
Qed.

Lemma obind_inl {A B} (m : outcome A) (f : A -> outcome B) b :
  obind m f = inl b -> exists a, m = inl a /\ f a = inl b.
Proof. destruct m as [a|e]; simpl; [eauto|discriminate]. Qed.

Ltac step_inl E :=
  let x := fresh "x" in let Hx := fresh "Hx" in apply obind_inl in E as (x & Hx & E).

Lemma channel_cost_u64 b p d k : channel_cost b p d = inl k -> is_u64 k.
Proof. unfold channel_cost. intros E. do 2 step_inl E. injection E as <-. apply add_u64. Qed.

Lemma channel_edge_u64 c n k : channel_edge c = inl (Some (n, k)) -> is_u64 k.
Proof.
  unfold channel_edge. intros E. do 2 step_inl E. destruct (negb _); [discriminate E|].
  do 2 step_inl E. destruct (NodeId.of_string _); [|discriminate E]. do 8 step_inl E.
  destruct (Amount.gt _ _); [discriminate E|]. injection E as <- <-. by eapply channel_cost_u64.
Qed.

Lemma reply_edges_u64 cs n k : (n, k) ∈ (reply_edges cs).1 -> is_u64 k.
Proof.
  induction cs as [|c cs IH]; simpl; [by intros ?%elem_of_nil|].
  destruct (channel_edge c) as [o|e] eqn:E; [|by intros ?%elem_of_nil].
  destruct (reply_edges cs) as [es e]. destruct o as [[n' k']|]; simpl in *; [|done].
  intros [[= -> ->]|Hn]%elem_of_cons; [by eapply channel_edge_u64|by apply IH].
Qed.

Lemma edges_of_u64 r n k : (n, k) ∈ (edges_of r).1 -> is_u64 k.
Proof.
  unfold edges_of. destruct r as [res|]; [|by intros ?%elem_of_nil].
  destruct (obind _ _) as [cs|e]; [apply reply_edges_u64|by intros ?%elem_of_nil].
Qed.

(** *** The walk over the tree *)

Definition is_leaf (nav : Nav) (n : Node) : Prop := Graph.children_of nav n = Some [].

#[global] Instance is_leaf_dec nav n : Decision (is_leaf nav n).
Proof. unfold is_leaf. apply _. Defined.

Section Walk.

Context (nav : Nav) (root : Node).
Context (Htree : Graph.tree_ok nav) (Hroot : is_Some (nav !! root) /\ Graph.parent_of nav root = None).

(** [V] has been visited, [Q] is queued. *)
Record walk (V Q : list Node) : Prop := {
  w_nodup : NoDup (V ++ Q);
  w_in : forall x, x ∈ V ++ Q ->
    is_Some (nav !! x) /\ (x = root \/ exists p, p ∈ V /\ Graph.parent_of nav x = Some p);
  w_children : forall p x, p ∈ V -> Graph.parent_of nav x = Some p -> x ∈ V ++ Q;
  w_root : root ∈ V ++ Q
}.

Lemma parent_in_nav x p : Graph.parent_of nav x = Some p -> is_Some (nav !! x).
Proof. unfold Graph.parent_of. destruct (nav !! x); [by eexists|done]. Qed.

Lemma walk_step V n Q t :
  walk V (n :: Q) -> nav !! n = Some t -> walk (V ++ [n]) (Q ++ Graph.children t).
Proof using Htree Hroot.
  intros [W1 W2 W3 W4] Ht.
  destruct (Htree n (Graph.children t)) as [Hnd Hcs]; [unfold Graph.children_of; by rewrite Ht|].
  assert (V ++ n :: Q = (V ++ [n]) ++ Q) as E by (by rewrite <- app_assoc).
  assert (n ∉ V) as HnV.
  { apply NoDup_app in W1 as (_ & W1 & _). intros HV. apply (W1 n HV). left. }
  rewrite E in *. split; rewrite (app_assoc (V ++ [n]) Q (Graph.children t)).
  - apply NoDup_app. split_and!; [done| |done]. intros x Hx Hc. apply Hcs in Hc.
    destruct (W2 x Hx) as [_ [->|(p & Hp & Ep)]]; [destruct Hroot; congruence|].
    rewrite Hc in Ep. injection Ep as ->. done.
  - intros x [Hx|Hx]%elem_of_app.
    + destruct (W2 x Hx) as [H1 [H2|(p & H2 & H3)]]; [by split; [|left]|]. split; [done|]. right. exists p.
      split; [apply elem_of_app; by left|done].
    + apply Hcs in Hx. split; [by eapply parent_in_nav|]. right. exists n.
      split; [apply elem_of_app; right; by apply list_elem_of_singleton|done].
  - intros p x [Hp|Hp%list_elem_of_singleton]%elem_of_app Hx; apply elem_of_app.
    + left. by eapply W3.
    + right. subst p. by apply Hcs.
  - apply elem_of_app. by left.
Qed.

Lemma walk_length V Q : walk V Q -> (length (V ++ Q) <= base.size nav)%nat.
Proof.
  intros [W1 W2 _ _]. rewrite <- (size_list_to_set (C := gset Node) (V ++ Q)) by done.
  rewrite <- size_dom. apply subseteq_size. intros x Hx. apply elem_of_list_to_set in Hx.
  apply elem_of_dom. by apply W2.
Qed.

Lemma find_leaves_walk fuel : forall V Q,
  walk V Q -> (base.size nav <= length V + fuel)%nat ->
  exists V', find_leaves_loop fuel nav Q (filter (is_leaf nav) V) = Some (filter (is_leaf nav) V')
    /\ walk V' [].
Proof using Htree Hroot.
  induction fuel as [|f IH]; intros V Q W Hl; (destruct Q as [|n Q]; [by exists V|]).
  - apply walk_length in W. rewrite length_app in W. simpl in W. lia.
  - destruct (w_in _ _ W n) as [[t Ht] _]; [apply elem_of_app; right; left|].
    pose proof (walk_step V n Q t W Ht) as W'. simpl. rewrite Ht. cbn [mbind option_bind].
    assert (filter (is_leaf nav) (V ++ [n])
      = filter (is_leaf nav) V ++ match Graph.children t with [] => [n] | _ => [] end) as Ef.
    { rewrite filter_app. f_equal. rewrite filter_cons, filter_nil.
      assert (is_leaf nav n <-> Graph.children t = []) as El
        by (unfold is_leaf, Graph.children_of; rewrite Ht; simpl; split; congruence).
      case_decide as D; rewrite El in D; destruct (Graph.children t); done. }
    destruct (IH (V ++ [n]) (Q ++ Graph.children t) W') as (V' & EV & WV);
      [rewrite length_app; simpl; lia|]. exists V'. split; [|done].
    rewrite Ef in EV. destruct (Graph.children t); [by rewrite app_nil_r in EV|by rewrite app_nil_r in EV].
Qed.

End Walk.

Section Correct.

Context {Q : Type} `{PQ : PriorityQueue (Node * Amount) Q}.
Context `{!PriorityQueueLaws (fun a b : Node * Amount => Amount.lt a.2 b.2)}.
Context (listchannels : Node -> option json) (self_id : Node).

(** The graph: the edges that a reply yields before it fails, if it does. *)
Definition adj (n : Node) : list (Node * Amount) := (edges_of (listchannels n)).1.

Lemma adj_ok : Graph.graph_ok is_u64 adj 0.
Proof. split; [split; [discriminate|reflexivity]|]. intros u v c Hv. by eapply edges_of_u64. Qed.

Abbreviation inv := (Graph.inv Amount.lt Amount.add adj self_id 0).

Lemma loop_inv U : Graph.universe adj self_id U -> forall fuel L (d : Graph.Dijkstra Node Amount Q),
  inv L [] d -> (length U <= length L + fuel)%nat ->
  exists d' e L' fed, loop listchannels fuel d = Some (d', e) /\ inv L' fed d'
    /\ (e = None -> Graph.current d' = None).
Proof.
  intros HU. induction fuel as [|f IH]; intros L d I Hl; simpl.
  all: destruct (Graph.current d) as [u|] eqn:Hc; [|by exists d, None, L, []].
  all: unfold Graph.current in Hc; destruct (pq_top (Graph.q d)) as [[u' k]|] eqn:T; [|done]; injection Hc as ->.
  - pose proof (Graph.open_room is_u64 Amount.lt Amount.add adj self_id 0 adj_ok U L [] d u k HU I T). lia.
  - unfold step. pose proof (Graph.neighbors_inv is_u64 Amount.lt Amount.add adj self_id 0 adj_ok L u k
      (adj u) [] d I T eq_refl) as (d1 & E1 & I1 & T1). unfold adj in E1 at 1. unfold neighbors.
    destruct (edges_of (listchannels u)) as [es e]. simpl in E1. rewrite E1. cbn [mbind option_bind].
    destruct e as [e|]; [by exists d1, (Some e), L, (adj u)|].
    destruct (Graph.end_neighbors_inv is_u64 Amount.lt Amount.add adj self_id 0 adj_ok L d1 u k I1 T1)
      as (d2 & E2 & I2). rewrite E2. cbn [mbind option_bind].
    apply (IH (L ++ [u])); [done|]. rewrite length_app. simpl. lia.
Qed.

(** The walk visits every node of the tree. *)
Lemma walk_all (L : list Node) (fed : list (Node * Amount)) (d : Graph.Dijkstra Node Amount Q) (V : list Node) (v : Node) :
  inv L fed d -> walk (Graph.treenodes d) self_id V [] -> is_Some (Graph.treenodes d !! v) -> v ∈ V.
Proof.
  intros I [_ _ W3 W4] Hv. rewrite app_nil_r in W4.
  assert (forall p x, p ∈ V -> Graph.parent_of (Graph.treenodes d) x = Some p -> x ∈ V) as Hdown
    by (intros p x Hp Hx; specialize (W3 p x Hp Hx); by rewrite app_nil_r in W3).
  assert (forall x, is_Some (Graph.treenodes d !! x) -> Graph.parent_of (Graph.treenodes d) x = None -> x = self_id) as Horph.
  { intros x [t Ht] Hx. eapply (Graph.v_orphan _ _ _ _ _ _ _ _ I); [|done]. unfold Graph.cost_of. by rewrite Ht. }
  assert (forall L1 L2, L = L1 ++ L2 -> Forall (fun x => x ∈ V) L1) as Hpre.
  { induction L1 as [|x L1 IH] using rev_ind; intros L2 E; [constructor|]. rewrite <- app_assoc in E. simpl in E.
    pose proof (IH (x :: L2) E) as F. apply Forall_app. split; [done|]. constructor; [|done].
    assert (x ∈ L) as Hx by (rewrite E; apply elem_of_app; right; left).
    destruct (Graph.v_seen _ _ _ _ _ _ _ _ I x Hx) as [kx Ekx].
    destruct (Graph.parent_of (Graph.treenodes d) x) as [p|] eqn:Ep.
    - destruct (Graph.v_parent _ _ _ _ _ _ _ _ I x p Ep) as (_ & _ & Hbefore & _).
      eapply Hdown; [|exact Ep]. rewrite Forall_forall in F. apply F. by eapply Hbefore.
    - rewrite (Horph x); [done| |done]. unfold Graph.cost_of in Ekx. by destruct (Graph.treenodes d !! x). }
  assert (forall x, x ∈ L -> x ∈ V) as HL.
  { specialize (Hpre L [] ltac:(by rewrite app_nil_r)). by apply Forall_forall. }
  assert (forall x, is_Some (Graph.treenodes d !! x) ->
    (forall p, Graph.parent_of (Graph.treenodes d) x = Some p -> p ∈ V) -> x ∈ V) as Hup.
  { intros x Hx Hp. destruct (Graph.parent_of (Graph.treenodes d) x) as [p|] eqn:Ep.
    - eapply Hdown; [by apply Hp|exact Ep].
    - by rewrite (Horph x Hx Ep). }
  apply Hup; [done|]. intros p Hp.
  destruct (Graph.v_parent _ _ _ _ _ _ _ _ I v p Hp) as (_ & [HpL|Hcur] & _ & kp & c & _ & Ekp & _); [by apply HL|].
  apply Hup; [unfold Graph.cost_of in Ekp; by destruct (Graph.treenodes d !! p)|].
  intros p2 Hp2. destruct (Graph.v_parent _ _ _ _ _ _ _ _ I p p2 Hp2) as (Hne & [H2|H2] & _); [by apply HL|].
  rewrite Hcur in H2. by injection H2.
Qed.

Lemma find_leaves_spec (L : list Node) (fed : list (Node * Amount)) (d : Graph.Dijkstra Node Amount Q) :
  inv L fed d ->
  exists leaves, find_leaves (Graph.treenodes d) self_id = Some leaves /\ NoDup leaves
    /\ forall v, v ∈ leaves <-> is_leaf (Graph.treenodes d) v.
Proof.
  intros I. destruct (Graph.v_root _ _ _ _ _ _ _ _ I) as [R1 R2].
  assert (is_Some (Graph.treenodes d !! self_id)) as R0
    by (unfold Graph.cost_of in R1; by destruct (Graph.treenodes d !! self_id)).
  assert (walk (Graph.treenodes d) self_id [] [self_id]) as W0.
  { split; simpl; [apply NoDup_singleton| |by intros p x ?%elem_of_nil|by apply list_elem_of_singleton].
    intros x ->%list_elem_of_singleton. split; [done|by left]. }
  destruct (find_leaves_walk _ self_id (Graph.v_tree _ _ _ _ _ _ _ _ I) (conj R0 R2)
    (base.size (Graph.treenodes d)) [] [self_id] W0) as (V & EV & WV); [simpl; lia|].
  exists (filter (is_leaf (Graph.treenodes d)) V). split; [exact EV|].
  pose proof (w_nodup _ _ _ _ WV) as ND. rewrite app_nil_r in ND. split; [by apply NoDup_filter|].
  intros v. rewrite list_elem_of_filter. split; [tauto|]. intros Hv. split; [done|].
  eapply walk_all; [done..|]. unfold is_leaf, Graph.children_of in Hv. by destruct (Graph.treenodes d !! v).
Qed.

End Correct.

(** *** Candidates *)

Lemma map_fst_zip {A B} (l : list A) (k : list B) : length k = length l -> map fst (zip l k) = l.
Proof.
  revert k. induction l as [|x l IH]; intros [|y k] Hk; simpl in *; try done. f_equal. apply IH. lia.
Qed.

Section Candidates.

Context (log : double -> double) (draw : nat -> double).

Definition keys_numbers : Prop :=
  forall a i, Reservoir.number (Reservoir.sample_key log (Amount.to_btc a) (draw i)).

Lemma with_draws_keyed es : map fst (Reservoir.keyed log (with_draws draw es)) = es.
Proof.
  unfold Reservoir.keyed, with_draws. rewrite map_map.
  generalize draw. induction es as [|e es IH]; intros dr; simpl; [done|]. f_equal. apply (IH (dr ∘ S)).
Qed.

Lemma sample_spec es : keys_numbers ->
  (exists rest, sample log draw es ++ rest ≡ₚ es)
  /\ length (sample log draw es) = Nat.min max_preinvestigate (length es).
Proof.
  intros Hk. unfold sample.
  destruct (Reservoir.add_all_sampled log max_preinvestigate (with_draws draw es) []
    (Reservoir.make max_preinvestigate)) as [_ H2 H3 (rej & P & _)].
  - split; simpl; [done|done|lia|]. exists []. split; [done|]. by intros x k ?%elem_of_nil.
  - constructor.
  - apply Forall_forall. intros x Hx. unfold with_draws in Hx. apply elem_of_lookup_imap in Hx as (i & e & -> & _).
    apply Hk.
  - simpl in H3, P. apply (Permutation_map fst) in P. rewrite map_app, map_fst_zip, with_draws_keyed in P by done.
    split; [by exists (map fst rej)|]. unfold Reservoir.finalize. rewrite H3.
    pose proof (f_equal length (with_draws_keyed es)) as E. rewrite length_map in E. by rewrite E.
Qed.

Lemma entries_proposals nav self_id leaves :
  map proposal (omap (entry_of nav self_id) leaves) `sublist_of` leaves.
Proof.
  induction leaves as [|n leaves IH]; [done|]. simpl. unfold entry_of at 1.
  destruct (nav !! n) as [t|]; cbn [mbind option_bind]; [|by constructor].
  destruct (Graph.parent t) as [p|]; cbn [mbind option_bind]; [|by constructor].
  destruct (decide _); [by constructor|]. simpl. by constructor.
Qed.

(** Which nodes may be proposed. *)
Lemma entry_of_some nav self_id v :
  is_Some (entry_of nav self_id v) <-> exists p, Graph.parent_of nav v = Some p /\ p <> self_id.
Proof.
  unfold entry_of, Graph.parent_of. destruct (nav !! v) as [t|]; cbn [mbind option_bind].
  - destruct (Graph.parent t) as [q|]; cbn [mbind option_bind].
    + destruct (decide (q = self_id)); split; [by intros [? ?]|by intros (? & [= <-] & ?)|intros _; eauto|by eexists].
    + split; [by intros [? ?]|by intros (? & ? & _)].
  - split; [by intros [? ?]|by intros (? & ? & _)].
Qed.

Lemma analyze_spec nav self_id leaves : keys_numbers -> NoDup leaves ->
  let cands := analyze log draw nav self_id leaves in
  NoDup (map fst cands)
  /\ length cands = Nat.min max_preinvestigate (length (omap (entry_of nav self_id) leaves))
  /\ forall v p, (v, p) ∈ cands -> v ∈ leaves /\ Graph.parent_of nav v = Some p /\ p <> self_id.
Proof.
  intros Hk Hnd. set (es := omap (entry_of nav self_id) leaves).
  destruct (sample_spec es Hk) as [[rest P] Hlen].
  pose proof (merge_sort_Permutation costlier (sample log draw es)) as PS.
  unfold analyze. fold es. cbv zeta. split_and!.
  - rewrite map_map. simpl. rewrite PS.
    assert (NoDup (map proposal es)) as Hes by (eapply sublist_NoDup; [exact Hnd|apply entries_proposals]).
    rewrite <- P, map_app in Hes. by apply NoDup_app in Hes as [? _].
  - rewrite length_map, PS. exact Hlen.
  - intros v p Hv. apply list_elem_of_fmap in Hv as (e & [= -> ->] & He). rewrite PS in He.
    assert (e ∈ es) as Hes by (rewrite <- P; apply elem_of_app; by left).
    unfold es in Hes. apply list_elem_of_omap in Hes as (n & Hn & En). unfold entry_of in En.
    destruct (nav !! n) as [t|] eqn:Et; cbn [mbind option_bind] in En; [|done].
    destruct (Graph.parent t) as [q|] eqn:Ep; cbn [mbind option_bind] in En; [|done].
    destruct (decide _) as [|Hq]; [done|]. injection En as <-. simpl.
    split_and!; [done|unfold Graph.parent_of; by rewrite Et|done].
Qed.

End Candidates.

(** ** Properties *)

(** C30: candidates by distance.  Whatever the node answers to [listchannels], as
    long as the nodes it names are finitely many, the scan ends after at most as
    many rounds; when no answer fails, its result is the tree of cheapest paths
    from our node over the active channels that are cheap enough.  The walk for
    leaves ends, too, and finds each node without children exactly once, also in
    the partial tree that a malformed answer leaves behind.  The proposals are 40
    different leaves, or all there are if there are fewer, each with its parent as
    patron, and never our own node or a leaf whose parent in the tree is our own node.
    (A node we have a channel with is such a leaf only if the channel is the cheapest way
    to it; else it may be proposed, [peer_proposed].) *)
Theorem distance_candidates {Q} `{PriorityQueue (Node * Amount) Q} listchannels self_id U log draw :
  PriorityQueueLaws (fun a b : Node * Amount => Amount.lt a.2 b.2) ->
  Graph.universe (adj listchannels) self_id U -> keys_numbers log draw ->
  exists (d : Graph.Dijkstra Node Amount Q) e leaves,
    loop listchannels (length U) (Graph.make self_id 0) = Some (d, e)
    /\ (e = None -> Graph.shortest_tree Amount.lt Amount.add (adj listchannels) self_id 0 (Graph.finalize d))
    /\ find_leaves (Graph.finalize d) self_id = Some leaves /\ NoDup leaves
    /\ (forall v, v ∈ leaves <-> is_leaf (Graph.finalize d) v)
    /\ let cands := analyze log draw (Graph.finalize d) self_id leaves in
       NoDup (map fst cands)
       /\ length cands = Nat.min 40 (length (omap (entry_of (Graph.finalize d) self_id) leaves))
       /\ (forall v, is_Some (entry_of (Graph.finalize d) self_id v) <->
             exists p, Graph.parent_of (Graph.finalize d) v = Some p /\ p <> self_id)
       /\ forall v p, (v, p) ∈ cands ->
            v ∈ leaves /\ v <> self_id /\ Graph.parent_of (Graph.finalize d) v = Some p /\ p <> self_id.
Proof.
  intros HP HU Hk. pose proof (adj_ok listchannels) as Hok.
  destruct (loop_inv listchannels self_id U HU (length U) [] (Graph.make self_id 0)) as (d & e & L & fed & E & I & Hend);
    [by apply (Graph.make_inv is_u64 Amount.lt Amount.add)|simpl; lia|].
  destruct (find_leaves_spec listchannels self_id L fed d I) as (leaves & EL & ND & HL).
  destruct (analyze_spec log draw (Graph.finalize d) self_id leaves Hk ND) as (A1 & A2 & A3).
  exists d, e, leaves. split; [done|]. split.
  { intros He. by apply (Graph.final_tree is_u64 _ _ _ _ _ Hok L fed d I), Hend. }
  split; [done|]. split; [done|]. split; [done|]. cbv zeta. split; [done|]. split; [done|]. split.
  - intros v. apply entry_of_some.
  - intros v p Hv. destruct (A3 v p Hv) as (H1 & H2 & H3). split_and!; [done| |done..]. intros ->.
    destruct (Graph.v_root _ _ _ _ _ _ _ _ I) as [_ R]. change (Graph.finalize d) with (Graph.treenodes d) in H2. congruence.
Qed.

(** ** Witness *)

Definition nid (i : Z) : Node := Some (2 :: replicate 31 0 ++ [i]).

Definition chan (active : string) (dest : Node) (base ppm delay : string) : json :=
  JObj [(lit "active", JPrim (lit active)); (lit "destination", JStr (NodeId.to_string dest));
        (lit "base_fee_millisatoshi", JPrim (lit base)); (lit "fee_per_millionth", JPrim (lit ppm));
        (lit "delay", JPrim (lit delay))].

(** Node 0 has channels with 1 and 2; 1 with 3, and an inactive one with 5; 2 with
    3, too, but more expensive, and a channel with 4 above the maximal fee. *)
Definition demo_listchannels (n : Node) : option json :=
  let reply cs := Some (JObj [(lit "channels", JArr cs)]) in
  if decide (n = nid 0) then reply [chan "true" (nid 1) "1000" "10" "6"; chan "true" (nid 2) "0" "1" "6"]
  else if decide (n = nid 1) then reply [chan "true" (nid 3) "1" "10" "14"; chan "false" (nid 5) "0" "0" "0"]
  else if decide (n = nid 2) then reply [chan "true" (nid 3) "5000" "10" "14"; chan "true" (nid 4) "0" "6000" "9"]
  else reply [].

#[local] Instance demo_queue : PriorityQueue (Node * Amount) (list (Node * Amount)) :=
  Graph.list_queue (fun a b => Amount.lt a.2 b.2).

Lemma finder_queue_laws : PriorityQueueLaws (fun a b : Node * Amount => Amount.lt a.2 b.2).
Proof.
  apply Graph.list_queue_laws; unfold Amount.lt.
  - intros a b. rewrite Z.ltb_lt, Z.ltb_ge. lia.
  - intros a b c. rewrite !Z.ltb_ge. lia.
Qed.

Lemma RN_number x : Reservoir.number (RN x).
Proof. unfold RN, Reservoir.number. destruct (Qcompare x 0); [done|..]; destruct (Qle_bool _ _); done. Qed.

(** A stand-in for the logarithm of a draw below one. *)
Lemma demo_keys : keys_numbers (fun _ => Fin (-1)) (fun _ => Fin 0).
Proof.
  intros a i. unfold Reservoir.sample_key, Amount.to_btc, d_of_Z.
  assert (exists m, Amount.msat_per_btc = Fin m /\ Qeq_bool m 0 = false) as (m & -> & Em)
    by (eexists; split; [vm_compute; reflexivity|reflexivity]).
  pose proof (RN_number (inject_Z a)) as Ha. unfold Reservoir.number in Ha.
  destruct (RN (inject_Z a)) as [x|b|]; [..|done]; simpl.
  - rewrite Em. pose proof (RN_number (x / m)) as Hq. unfold Reservoir.number in Hq.
    destruct (RN (x / m)) as [y|b|]; [|done..]. simpl. destruct (Qeq_bool y 0); [done|apply RN_number].
  - done.
Qed.

Definition demo_loop : option (Graph.Dijkstra Node Amount (list (Node * Amount)) * option stop) :=
  loop demo_listchannels 4 (Graph.make (nid 0) 0).

(** Node 0 has channels with 1 and 2, but reaches 2 more cheaply over 1: the direct peer 2 is
    a leaf below 1, and is proposed. *)
Definition peer_listchannels (n : Node) : option json :=
  let reply cs := Some (JObj [(lit "channels", JArr cs)]) in
  if decide (n = nid 0) then reply [chan "true" (nid 1) "0" "1" "6"; chan "true" (nid 2) "5000" "10" "6"]
  else if decide (n = nid 1) then reply [chan "true" (nid 2) "1" "1" "6"]
  else reply [].

Lemma peer_proposed :
  ('(d, e) ← (loop peer_listchannels 3 (Graph.make (nid 0) 0)
      : option (Graph.Dijkstra Node Amount (list (Node * Amount)) * option stop));
   leaves ← find_leaves (Graph.finalize d) (nid 0);
   Some (e, analyze (fun _ => Fin (-1)) (fun _ => Fin 0) (Graph.finalize d) (nid 0) leaves))
  = Some (None, [(nid 2, nid 1)]).
Proof. vm_compute. reflexivity. Qed.

(** The failure and the proposals of the run. *)
Lemma demo_outcome :
  ('(d, e) ← demo_loop; leaves ← find_leaves (Graph.finalize d) (nid 0);
   Some (e, analyze (fun _ => Fin (-1)) (fun _ => Fin 0) (Graph.finalize d) (nid 0) leaves))
  = Some (None, [(nid 3, nid 1)]).
Proof. vm_compute. reflexivity. Qed.

Lemma distance_candidates_witness :
  exists (d : Graph.Dijkstra Node Amount (list (Node * Amount))) leaves,
    loop demo_listchannels 4 (Graph.make (nid 0) 0) = Some (d, None)
    /\ Graph.shortest_tree Amount.lt Amount.add (adj demo_listchannels) (nid 0) 0 (Graph.finalize d)
    /\ find_leaves (Graph.finalize d) (nid 0) = Some leaves
    /\ analyze (fun _ => Fin (-1)) (fun _ => Fin 0) (Graph.finalize d) (nid 0) leaves = [(nid 3, nid 1)].
Proof.
  destruct (distance_candidates (Q := list (Node * Amount)) demo_listchannels (nid 0)
    [nid 0; nid 1; nid 2; nid 3] (fun _ => Fin (-1)) (fun _ => Fin 0) finder_queue_laws
    ltac:(apply Graph.universe_check; vm_compute; reflexivity) demo_keys)
    as (d & e & leaves & E & Ht & EL & _).
  pose proof demo_outcome as O. unfold demo_loop in O.
  change (length [nid 0; nid 1; nid 2; nid 3]) with 4%nat in E. rewrite E in O.
  cbn [mbind option_bind] in O. rewrite EL in O. cbn [mbind option_bind] in O. injection O as He Ha.
  rewrite He in E. exists d, leaves. split; [exact E|]. split; [exact (Ht He)|]. split; [exact EL|exact Ha].
Defined.

End Distance.
