(* ===== verification/SwapManager.v ===== *)
(** * The swap manager (src/Boss/Mod/SwapManager.cpp)

    Modules ask for offchain funds to be swapped onchain; the manager gets an
    address, an invoice from a swap provider, pays it and waits for the funds, with
    smaller and smaller amounts until a swap succeeds or the amount is at its
    minimum.

    The manager's work is done by green threads that block on the database, on
    other modules and in [Ev::yield].  Here a thread that waits is a [Task], a task
    runs up to its next wait in one step, and tasks are picked in any order; some
    tasks also wait where the code goes on at once, which only adds orders.  A
    database transaction is one step, since it excludes all others until it is
    committed.  The database tables survive a restart, all else does not.

    The properties hold of every reachable state ([reach]), by invariants that every
    task and every event preserves; three runs that end badly are played. *)

From stdpp Require Import base list numbers strings sorting.
From S2P Require Import Prelude.
From S2P Require Import Amount.

#[local] Open Scope Z_scope.

Module Swap.

(** ** State *)

(** A uuid and a payment hash are compared for equality only. *)
Abbreviation Uuid := Z.
Abbreviation Hash := Z.

Inductive State := NeedsOnchainAddress | NeedsInvoice | AwaitingResult.

#[global] Instance State_eq_dec : EqDecision State.
Proof. solve_decision. Defined.

(** The table [SwapManager]. *)
Record Row := {
  uuid : Uuid;
  amount : Amount;
  min_amount : Amount;
  state : State;
  address : option bytes;
  payment_hash : option Hash;
  timeout : option Z
}.

(** The tables.  [addrcache] is in the order of its ids. *)
Record Db := {
  rows : list Row;
  addrcache : list bytes;
  provider : list (Uuid * bytes);
  comp_onchain : list (Hash * (Amount * bytes));
  comp_pay : list (Hash * Amount)
}.

Record Quotation := { score : Z; q_provider : Z; provider_name : bytes }.

(** Waiting threads. *)
Inductive Task :=
| T_load_address                                  (* on_periodic: load needs_address *)
| T_load_invoice                                  (* on_periodic: load needs_invoice *)
| T_check_payments                                (* initiate_check_payments *)
| T_process_address                               (* process_needs_address, concurrent *)
| T_process_invoice                               (* process_needs_invoice, concurrent *)
| T_address_tx                                    (* the transaction of loop_needs_address *)
| T_newaddr (addr : bytes)                        (* the transaction of on_response_newaddr *)
| T_loop_address                                  (* loop_needs_address after the yield *)
| T_invoice_tx                                    (* the transaction of loop_needs_invoice *)
| T_quoted                                        (* loop_needs_invoice after the quotations *)
| T_loop_quotations                               (* loop_quotations after the yield *)
| T_create (name invoice : bytes) (hash : Hash) (tmo : Z)  (* the transaction of on_swap_creation *)
| T_pop_invoice                                   (* the end of on_swap_creation *)
| T_loop_invoice                                  (* loop_needs_invoice *)
| T_reduce (u : Uuid) (then_loop : bool)          (* swap_reduce_or_fail, then the invoice loop or not *)
| T_pay_failed (hash : Hash)                      (* the transaction of on_response_listpays *)
| T_pay_success (hash : Hash) (sent : Amount)     (* on_pay_success *)
| T_onchain_tx                                    (* loop_onchain_funds *)
| T_funds_seen (hash : Hash) (received : Amount) (name : bytes)  (* on_onchain_funds_seen *)
| T_block (height : Z).                           (* the transaction of on_block *)

Record Manager := {
  db : Db;
  getting_address : bool;
  getting_invoice : bool;
  needs_address : list Uuid;
  needs_invoice : list Uuid;
  quotations : list Quotation;
  cur_amount : Amount;
  cur_address : bytes;
  onchain_funds : list (bytes * Amount);
  tasks : list Task;
  (** A [RequestNewaddr], and an [AcceptSwapQuotation], that is not answered yet. *)
  want_newaddr : bool;
  want_creation : bool
}.

(** What the manager tells others.  [Pay] carries the swap that it is for, which the
    message [PayInvoice] does not. *)
Inductive Out :=
| RequestNewaddr
| Solicit (amt : Amount)
| Accept (amt : Amount) (addr : bytes) (prov : Z)
| Pay (u : Uuid) (invoice : bytes)
| RequestListpays (hash : Hash)
| Response (u : Uuid) (success : bool) (amt : Amount)
| Completed (sent received : Amount) (name : bytes).

(** ** Updates *)

Definition with_db (s : Manager) (d : Db) : Manager :=
  {| db := d; getting_address := getting_address s; getting_invoice := getting_invoice s;
     needs_address := needs_address s; needs_invoice := needs_invoice s; quotations := quotations s;
     cur_amount := cur_amount s; cur_address := cur_address s; onchain_funds := onchain_funds s;
     tasks := tasks s; want_newaddr := want_newaddr s; want_creation := want_creation s |}.
Definition with_tasks (s : Manager) (ts : list Task) : Manager :=
  {| db := db s; getting_address := getting_address s; getting_invoice := getting_invoice s;
     needs_address := needs_address s; needs_invoice := needs_invoice s; quotations := quotations s;
     cur_amount := cur_amount s; cur_address := cur_address s; onchain_funds := onchain_funds s;
     tasks := ts; want_newaddr := want_newaddr s; want_creation := want_creation s |}.
Definition spawn (s : Manager) (ts : list Task) : Manager := with_tasks s (tasks s ++ ts).
Definition with_address_loop (s : Manager) (getting : bool) (q : list Uuid) (want : bool) : Manager :=
  {| db := db s; getting_address := getting; getting_invoice := getting_invoice s;
     needs_address := q; needs_invoice := needs_invoice s; quotations := quotations s;
     cur_amount := cur_amount s; cur_address := cur_address s; onchain_funds := onchain_funds s;
     tasks := tasks s; want_newaddr := want; want_creation := want_creation s |}.
Definition with_invoice_loop (s : Manager) (getting : bool) (q : list Uuid) (qs : list Quotation)
    (want : bool) : Manager :=
  {| db := db s; getting_address := getting_address s; getting_invoice := getting;
     needs_address := needs_address s; needs_invoice := q; quotations := qs;
     cur_amount := cur_amount s; cur_address := cur_address s; onchain_funds := onchain_funds s;
     tasks := tasks s; want_newaddr := want_newaddr s; want_creation := want |}.
Definition with_current (s : Manager) (a : Amount) (addr : bytes) : Manager :=
  {| db := db s; getting_address := getting_address s; getting_invoice := getting_invoice s;
     needs_address := needs_address s; needs_invoice := needs_invoice s; quotations := quotations s;
     cur_amount := a; cur_address := addr; onchain_funds := onchain_funds s;
     tasks := tasks s; want_newaddr := want_newaddr s; want_creation := want_creation s |}.
Definition with_funds (s : Manager) (f : list (bytes * Amount)) : Manager :=
  {| db := db s; getting_address := getting_address s; getting_invoice := getting_invoice s;
     needs_address := needs_address s; needs_invoice := needs_invoice s; quotations := quotations s;
     cur_amount := cur_amount s; cur_address := cur_address s; onchain_funds := f;
     tasks := tasks s; want_newaddr := want_newaddr s; want_creation := want_creation s |}.

Definition with_rows (d : Db) (rs : list Row) : Db :=
  {| rows := rs; addrcache := addrcache d; provider := provider d; comp_onchain := comp_onchain d;
     comp_pay := comp_pay d |}.
Definition with_cache (d : Db) (c : list bytes) : Db :=
  {| rows := rows d; addrcache := c; provider := provider d; comp_onchain := comp_onchain d;
     comp_pay := comp_pay d |}.
Definition with_provider (d : Db) (p : list (Uuid * bytes)) : Db :=
  {| rows := rows d; addrcache := addrcache d; provider := p; comp_onchain := comp_onchain d;
     comp_pay := comp_pay d |}.
Definition with_comps (d : Db) (o : list (Hash * (Amount * bytes))) (p : list (Hash * Amount)) : Db :=
  {| rows := rows d; addrcache := addrcache d; provider := provider d; comp_onchain := o; comp_pay := p |}.

(** Queries.  A loop over the results keeps the last one. *)
Definition find_row (u : Uuid) (rs : list Row) : option Row := last (filter (fun r => uuid r = u) rs).
Definition update_row (u : Uuid) (f : Row -> Row) (rs : list Row) : list Row :=
  map (fun r => if decide (uuid r = u) then f r else r) rs.
(** The deletion cascades to the table of providers. *)
Definition delete_row (u : Uuid) (d : Db) : Db :=
  with_provider (with_rows d (filter (fun r => uuid r <> u) (rows d)))
    (filter (fun p => p.1 <> u) (provider d)).

Definition lookup {A} (h : Hash) (l : list (Hash * A)) : option A :=
  snd <$> last (filter (fun p => p.1 = h) l).
Definition insert_or_ignore {A} (h : Hash) (a : A) (l : list (Hash * A)) : list (Hash * A) :=
  match lookup h l with Some _ => l | None => l ++ [(h, a)] end.
Definition remove {A} (h : Hash) (l : list (Hash * A)) : list (Hash * A) := filter (fun p => p.1 <> h) l.

(** ** Addresses *)

(** What a step yields: the new state and the messages, or [None] for a failed
    assertion or the front of an empty queue. *)
Abbreviation result := (option (Manager * list Out)).

Definition loop_needs_address (s : Manager) : result :=
  match needs_address s with
  | [] => Some (with_address_loop s false [] (want_newaddr s), [])
  | _ :: _ => Some (spawn s [T_address_tx], [])
  end.

Definition process_needs_address (s : Manager) : result :=
  if getting_address s then Some (s, [])
  else loop_needs_address (with_address_loop s true (needs_address s) (want_newaddr s)).

Definition give_address (addr : bytes) (r : Row) : Row :=
  if decide (state r = NeedsOnchainAddress) then
    {| uuid := uuid r; amount := amount r; min_amount := min_amount r; state := NeedsInvoice;
       address := Some addr; payment_hash := payment_hash r; timeout := timeout r |}
  else r.

Definition load_address (s : Manager) (u : Uuid) (addr : bytes) : Manager :=
  let s := with_db s (with_rows (db s) (update_row u (give_address addr) (rows (db s)))) in
  let s := with_address_loop s (getting_address s) (tail (needs_address s)) (want_newaddr s) in
  let s := spawn s (match needs_invoice s with [] => [T_process_invoice] | _ => [] end) in
  let s := with_invoice_loop s (getting_invoice s) (needs_invoice s ++ [u]) (quotations s) (want_creation s) in
  spawn s [T_loop_address].

(** The first cached address that is not blank, and the others. *)
Fixpoint take_cached (c : list bytes) : option (bytes * list bytes) :=
  match c with
  | [] => None
  | a :: c =>
      if decide (a = []) then '(b, c') ← take_cached c; Some (b, a :: c') else Some (a, c)
  end.

Definition address_tx (s : Manager) : result :=
  u ← head (needs_address s);
  match take_cached (addrcache (db s)) with
  | Some (addr, c) => Some (load_address (with_db s (with_cache (db s) c)) u addr, [])
  | None => Some (with_address_loop s (getting_address s) (needs_address s) true, [RequestNewaddr])
  end.

Definition newaddr_tx (s : Manager) (addr : bytes) : result :=
  u ← head (needs_address s);
  Some (load_address s u addr, []).

(** ** Invoices *)

Definition loop_needs_invoice (s : Manager) : result :=
  match needs_invoice s with
  | [] => Some (with_invoice_loop s false [] (quotations s) (want_creation s), [])
  | q => Some (spawn (with_invoice_loop s (getting_invoice s) q [] (want_creation s)) [T_invoice_tx], [])
  end.

Definition process_needs_invoice (s : Manager) : result :=
  if getting_invoice s then Some (s, [])
  else loop_needs_invoice (with_invoice_loop s true (needs_invoice s) (quotations s) (want_creation s)).

(** [quotes] are the quotations that the providers give in reply, synchronously. *)
Definition invoice_tx (s : Manager) (quotes : list Quotation) : result :=
  u ← head (needs_invoice s);
  let s := match find_row u (rows (db s)) with
           | Some r => with_current s (amount r) (default [] (address r))
           | None => s
           end in
  Some (spawn (with_invoice_loop s (getting_invoice s) (needs_invoice s) (quotations s ++ quotes)
                 (want_creation s)) [T_quoted],
        [Solicit (cur_amount s)]).

Definition loop_quotations (s : Manager) : result :=
  match last (quotations s) with
  | None =>
      u ← head (needs_invoice s);
      Some (spawn (with_invoice_loop s (getting_invoice s) (tail (needs_invoice s)) [] (want_creation s))
              [T_reduce u true], [])
  | Some q =>
      Some (with_invoice_loop s (getting_invoice s) (needs_invoice s) (quotations s) true,
            [Accept (cur_amount s) (cur_address s) (q_provider q)])
  end.

Definition score_ge (a b : Quotation) : Prop := score b <= score a.

#[global] Instance score_ge_dec a b : Decision (score_ge a b).
Proof. unfold score_ge. apply _. Defined.

(** [scores] are the random scores. *)
Definition quoted (s : Manager) (scores : list Z) : result :=
  let rescore '(q, n) := {| score := n; q_provider := q_provider q; provider_name := provider_name q |} in
  let qs := merge_sort score_ge (map rescore (zip (quotations s) scores)) in
  loop_quotations (with_invoice_loop s (getting_invoice s) (needs_invoice s) qs (want_creation s)).

Definition on_swap_creation (s : Manager) (success : bool) (invoice : bytes) (hash : Hash) (tmo : Z) : result :=
  q ← last (quotations s);
  let s := with_invoice_loop s (getting_invoice s) (needs_invoice s) (quotations s) false in
  if negb success then
    Some (spawn (with_invoice_loop s (getting_invoice s) (needs_invoice s) (removelast (quotations s)) false)
            [T_loop_quotations], [])
  else Some (spawn s [T_create (provider_name q) invoice hash tmo], []).

Definition await (hash : Hash) (tmo : Z) (r : Row) : Row :=
  {| uuid := uuid r; amount := amount r; min_amount := min_amount r; state := AwaitingResult;
     address := address r; payment_hash := Some hash; timeout := Some tmo |}.

(** The provider's row refers to the swap's row: without one, the insertion fails
    and the thread ends with an exception. *)
Definition create_tx (s : Manager) (name invoice : bytes) (hash : Hash) (tmo : Z) : result :=
  u ← head (needs_invoice s);
  match find_row u (rows (db s)) with
  | None => Some (s, [])
  | Some _ =>
      let d := with_rows (db s) (update_row u (await hash tmo) (rows (db s))) in
      let d := with_provider d (remove u (provider d) ++ [(u, name)]) in
      Some (spawn (with_db s d) [T_pop_invoice], [Pay u invoice])
  end.

Definition pop_invoice (s : Manager) : result :=
  match needs_invoice s with
  | [] => None
  | _ :: q => loop_needs_invoice (with_invoice_loop s (getting_invoice s) q (quotations s) (want_creation s))
  end.

(** ** Reducing and failing *)

Definition fail_swap (s : Manager) (u : Uuid) : Manager * list Out :=
  let addr := default [] (find_row u (rows (db s)) ≫= address) in
  let d := match addr with [] => db s | _ => with_cache (db s) (addrcache (db s) ++ [addr]) end in
  (with_db s (delete_row u d), [Response u false 0]).

Definition reduce_row (a : Amount) (r : Row) : Row :=
  {| uuid := uuid r; amount := a; min_amount := min_amount r; state := NeedsInvoice;
     address := address r; payment_hash := None; timeout := None |}.

(** [draw] is the random amount. *)
Definition swap_reduce_or_fail (s : Manager) (u : Uuid) (draw : Amount) : Manager * list Out :=
  let '(a, m) := match find_row u (rows (db s)) with
                 | Some r => (amount r, min_amount r)
                 | None => (0, 0)
                 end in
  if a =? m then fail_swap s u
  else
    let a := if draw <? m then m else draw in
    let s := with_db s (with_rows (db s) (update_row u (reduce_row a) (rows (db s)))) in
    let s := with_invoice_loop s (getting_invoice s) (needs_invoice s ++ [u]) (quotations s) (want_creation s) in
    (spawn s [T_process_invoice], []).

(** ** Results *)

Definition check_payments (s : Manager) : result :=
  Some (s, map RequestListpays
             (omap payment_hash (filter (fun r => state r = AwaitingResult) (rows (db s))))).

Definition pay_failed (s : Manager) (hash : Hash) : result :=
  match last (filter (fun r => payment_hash r = Some hash) (rows (db s))) with
  | Some r => Some (spawn s [T_reduce (uuid r) false], [])
  | None => Some (s, [])
  end.

Definition pay_success (s : Manager) (hash : Hash) (sent : Amount) : result :=
  let d := db s in
  match lookup hash (comp_onchain d) with
  | Some (received, name) =>
      Some (with_db s (with_comps d (remove hash (comp_onchain d)) (comp_pay d)), [Completed sent received name])
  | None => Some (with_db s (with_comps d (comp_onchain d) (insert_or_ignore hash sent (comp_pay d))), [])
  end.

Definition funds_seen (s : Manager) (hash : Hash) (received : Amount) (name : bytes) : result :=
  let d := db s in
  match lookup hash (comp_pay d) with
  | Some sent =>
      Some (with_db s (with_comps d (comp_onchain d) (remove hash (comp_pay d))), [Completed sent received name])
  | None =>
      Some (with_db s (with_comps d (insert_or_ignore hash (received, name) (comp_onchain d)) (comp_pay d)), [])
  end.

Definition unknown : bytes := lit "<Unknown>".

Definition onchain_tx (s : Manager) : result :=
  match onchain_funds s with
  | [] => Some (s, [])
  | (addr, amt) :: funds =>
      let s := with_funds s funds in
      match last (filter (fun r => address r = Some addr /\ state r = AwaitingResult) (rows (db s))) with
      | None => Some (spawn s [T_onchain_tx], [])
      | Some r =>
          let name := default unknown (lookup (uuid r) (provider (db s))) in
          Some (spawn (with_db s (delete_row (uuid r) (db s)))
                  [T_funds_seen (default 0 (payment_hash r)) amt name; T_onchain_tx],
                [Response (uuid r) true amt])
      end
  end.

Definition block_tx (s : Manager) (height : Z) : result :=
  let due r := state r = AwaitingResult /\ bool_decide (default (height + 1) (timeout r) <= height) = true in
  Some (spawn s (map (fun r => T_reduce (uuid r) false) (filter due (rows (db s)))), []).

(** ** Periodic work *)

Definition with_state (st : State) (d : Db) : list Uuid :=
  map uuid (filter (fun r => state r = st) (rows d)).

Definition load_queue (q : list Uuid) (st : State) (d : Db) : list Uuid :=
  match q with [] => with_state st d | _ => q end.

Definition load_address_queue (s : Manager) : result :=
  let q := load_queue (needs_address s) NeedsOnchainAddress (db s) in
  Some (spawn (with_address_loop s (getting_address s) q (want_newaddr s))
          [T_process_address; T_load_invoice], []).

Definition load_invoice_queue (s : Manager) : result :=
  let q := load_queue (needs_invoice s) NeedsInvoice (db s) in
  Some (spawn (with_invoice_loop s (getting_invoice s) q (quotations s) (want_creation s))
          [T_process_invoice; T_check_payments], []).

(** ** Tasks and events *)

(** What a task gets from outside: quotations, random scores, a random amount. *)
Record Input := { quotes : list Quotation; scores : list Z; draw : Amount }.

Definition run_task (s : Manager) (t : Task) (i : Input) : result :=
  match t with
  | T_load_address => load_address_queue s
  | T_load_invoice => load_invoice_queue s
  | T_check_payments => check_payments s
  | T_process_address => process_needs_address s
  | T_process_invoice => process_needs_invoice s
  | T_address_tx => address_tx s
  | T_newaddr addr => newaddr_tx s addr
  | T_loop_address => loop_needs_address s
  | T_invoice_tx => invoice_tx s (quotes i)
  | T_quoted => quoted s (scores i)
  | T_loop_quotations => loop_quotations s
  | T_create name invoice hash tmo => create_tx s name invoice hash tmo
  | T_pop_invoice => pop_invoice s
  | T_loop_invoice => loop_needs_invoice s
  | T_reduce u then_loop =>
      let '(s', o) := swap_reduce_or_fail s u (draw i) in
      Some (if (then_loop : bool) then spawn s' [T_loop_invoice] else s', o)
  | T_pay_failed hash => pay_failed s hash
  | T_pay_success hash sent => pay_success s hash sent
  | T_onchain_tx => onchain_tx s
  | T_funds_seen hash received name => funds_seen s hash received name
  | T_block height => block_tx s height
  end.

Inductive PayStatus := PaySuccess | PayFailed | PayOther.

Inductive Event :=
| E_request (u : Uuid) (min max : Amount)
| E_timer
| E_newaddr (addr : bytes)
| E_creation (success : bool) (invoice : bytes) (hash : Hash) (tmo : Z)
| E_listpays (st : PayStatus) (hash : Hash) (sent : Amount)
| E_listfunds (outputs : list (bytes * Amount))
| E_block (height : Z)
| E_restart.

Definition new_row (u : Uuid) (min max : Amount) : Row :=
  {| uuid := u; amount := max; min_amount := min; state := NeedsOnchainAddress; address := None;
     payment_hash := None; timeout := None |}.

Definition on_swap_request (s : Manager) (u : Uuid) (min max : Amount) : result :=
  match find_row u (rows (db s)) with
  | Some _ => Some (s, [])
  | None =>
      let s := with_db s (with_rows (db s) (rows (db s) ++ [new_row u min max])) in
      Some (spawn (with_address_loop s (getting_address s) (needs_address s ++ [u]) (want_newaddr s))
              [T_process_address], [])
  end.

Definition on_response_newaddr (s : Manager) (addr : bytes) : result :=
  if negb (getting_address s) then None
  else Some (spawn (with_address_loop s true (needs_address s) false) [T_newaddr addr], []).

Definition on_listfunds_result (s : Manager) (outputs : list (bytes * Amount)) : result :=
  let was_empty := bool_decide (onchain_funds s = []) in
  let s := with_funds s (onchain_funds s ++ outputs) in
  Some (if was_empty then spawn s [T_onchain_tx] else s, []).

Definition on_init (d : Db) : Manager :=
  {| db := with_cache d (filter (fun a => a <> []) (addrcache d)); getting_address := false;
     getting_invoice := false; needs_address := []; needs_invoice := []; quotations := [];
     cur_amount := 0; cur_address := []; onchain_funds := []; tasks := [T_load_address];
     want_newaddr := false; want_creation := false |}.

Definition handle (s : Manager) (e : Event) : result :=
  match e with
  | E_request u min max => on_swap_request s u min max
  | E_timer => Some (spawn s [T_load_address], [])
  | E_newaddr addr => on_response_newaddr s addr
  | E_creation success invoice hash tmo => on_swap_creation s success invoice hash tmo
  | E_listpays PaySuccess hash sent => Some (spawn s [T_pay_success hash sent], [])
  | E_listpays PayFailed hash _ => Some (spawn s [T_pay_failed hash], [])
  | E_listpays PayOther _ _ => Some (s, [])
  | E_listfunds outputs => on_listfunds_result s outputs
  | E_block height => Some (spawn s [T_block height], [])
  | E_restart => Some (on_init (db s), [])
  end.

(** ** Histories *)

Inductive Label := L_event (e : Event) | L_out (o : Out).

(** A move: one of the waiting tasks runs, or something happens outside. *)
Inductive Move := Run (idx : nat) (i : Input) | Happen (e : Event).

Definition requested (u : Uuid) (h : list Label) : bool :=
  existsb (fun l => match l with L_event (E_request v _ _) => v =? u | _ => false end) h.
Definition address_given (a : bytes) (h : list Label) : bool :=
  existsb (fun l => match l with L_event (E_newaddr b) => bool_decide (b = a) | _ => false end) h.

(** The protocol of the other modules: a swap is requested once, for amounts in
    order (of less than [2^62] msat); addresses are new, and come in reply to a
    request; a provider replies once to an accepted quotation. *)
Definition event_ok (h : list Label) (s : Manager) (e : Event) : bool :=
  match e with
  | E_request u min max => negb (requested u h) && (0 <=? min) && (min <=? max) && (max <? 2 ^ 62)
  | E_newaddr a => want_newaddr s && negb (address_given a h)
  | E_creation _ _ _ _ => want_creation s
  | _ => true
  end.

(** The ranges of the random numbers. *)
Definition input_ok (s : Manager) (t : Task) (i : Input) : bool :=
  match t with
  | T_quoted => bool_decide (length (scores i) = length (quotations s))
  | T_reduce u _ =>
      match find_row u (rows (db s)) with
      | Some r => (amount r / 4 <=? draw i) && (draw i <=? u64 (amount r * 3) / 4)
      | None => true
      end
  | _ => true
  end.

Definition allowed (h : list Label) (s : Manager) (m : Move) : bool :=
  match m with
  | Run idx i => match tasks s !! idx with Some t => input_ok s t i | None => false end
  | Happen e => event_ok h s e
  end.

Definition do_move (h : list Label) (s : Manager) (m : Move) : option (list Label * Manager) :=
  match m with
  | Run idx i =>
      t ← tasks s !! idx;
      '(s', o) ← run_task (with_tasks s (delete idx (tasks s))) t i;
      Some (h ++ map L_out o, s')
  | Happen e =>
      '(s', o) ← handle s e;
      Some (h ++ L_event e :: map L_out o, s')
  end.

Definition empty_db : Db :=
  {| rows := []; addrcache := []; provider := []; comp_onchain := []; comp_pay := [] |}.

Inductive reach : list Label -> Manager -> Prop :=
| reach_init : reach [] (on_init empty_db)
| reach_move h s m h' s' :
    reach h s -> allowed h s m = true -> do_move h s m = Some (h', s') -> reach h' s'.

(** ** The invariant of the tables *)

Definition fields_ok (r : Row) : Prop :=
  match state r with
  | NeedsOnchainAddress => address r = None /\ payment_hash r = None /\ timeout r = None
  | NeedsInvoice => is_Some (address r) /\ payment_hash r = None /\ timeout r = None
  | AwaitingResult => is_Some (address r) /\ is_Some (payment_hash r) /\ is_Some (timeout r)
  end.

(** A row keeps to its request. *)
Definition row_ok (h : list Label) (r : Row) : Prop :=
  0 <= min_amount r <= amount r /\ amount r < 2 ^ 62 /\ fields_ok r
  /\ exists max, L_event (E_request (uuid r) (min_amount r) max) ∈ h /\ amount r <= max.

Definition task_address (t : Task) : list bytes := match t with T_newaddr a => [a] | _ => [] end.

(** The addresses in use: of swaps, in the cache, and on their way to a swap. *)
Definition addresses (s : Manager) : list bytes :=
  omap address (rows (db s)) ++ addrcache (db s) ++ concat (map task_address (tasks s)).

Record tables_ok (h : list Label) (s : Manager) : Prop := {
  to_unique : NoDup (map uuid (rows (db s)));
  to_rows : Forall (row_ok h) (rows (db s));
  to_addresses : NoDup (addresses s);
  to_given : forall a, a ∈ addresses s -> address_given a h = true
}.

(** A swap past its first state: no row of it needs an address. *)
Definition past (h : list Label) (s : Manager) (u : Uuid) : Prop :=
  requested u h = true
  /\ forall r, r ∈ rows (db s) -> uuid r = u -> state r <> NeedsOnchainAddress.

Record queues_ok (h : list Label) (s : Manager) : Prop := {
  qo_address : forall u, u ∈ needs_address s -> requested u h = true;
  qo_invoice : forall u, u ∈ needs_invoice s -> past h s u;
  qo_reduce : forall u b, T_reduce u b ∈ tasks s -> past h s u
}.

(** The thread of the address loop, and of the invoice loop. *)
Definition address_thread (t : Task) : bool :=
  match t with T_address_tx | T_newaddr _ | T_loop_address => true | _ => false end.
Definition invoice_thread (t : Task) : bool :=
  match t with
  | T_invoice_tx | T_quoted | T_loop_quotations | T_create _ _ _ _ | T_pop_invoice | T_loop_invoice
  | T_reduce _ true => true
  | _ => false
  end.
(** Where these threads have work at the front of their queues. *)
Definition address_front (t : Task) : bool :=
  match t with T_address_tx | T_newaddr _ => true | _ => false end.
Definition invoice_front (t : Task) : bool :=
  match t with
  | T_invoice_tx | T_quoted | T_loop_quotations | T_create _ _ _ _ | T_pop_invoice => true
  | _ => false
  end.

Definition count (P : Task -> bool) (ts : list Task) : nat := length (filter (fun t => P t = true) ts).

(** At most one thread runs each loop, none where its flag is down; a thread at the
    front of a queue finds one, and an accepted quotation is still there. *)
Record threads_ok (s : Manager) : Prop := {
  th_address : (count address_thread (tasks s) + Nat.b2n (want_newaddr s) = Nat.b2n (getting_address s))%nat;
  th_invoice : (count invoice_thread (tasks s) + Nat.b2n (want_creation s) <= Nat.b2n (getting_invoice s))%nat;
  th_address_front :
    (0 < count address_front (tasks s) + Nat.b2n (want_newaddr s) -> 0 < length (needs_address s))%nat;
  th_invoice_front :
    (0 < count invoice_front (tasks s) + Nat.b2n (want_creation s) -> 0 < length (needs_invoice s))%nat;
  th_quotations : (Nat.b2n (want_creation s) <= length (quotations s))%nat
}.

(** A swap that got a response is no longer in the table. *)
Definition responses_ok (h : list Label) (s : Manager) : Prop :=
  forall u b a, L_out (Response u b a) ∈ h -> requested u h = true /\ u ∉ map uuid (rows (db s)).

(** ** Lemmas *)

(** *** Histories and queries *)

Lemma requested_app u h x : requested u h = true -> requested u (h ++ x) = true.
Proof. unfold requested. rewrite existsb_app. by intros ->. Qed.

Lemma address_given_app a h x : address_given a h = true -> address_given a (h ++ x) = true.
Proof. unfold address_given. rewrite existsb_app. by intros ->. Qed.

Lemma request_requested u mn mx h : L_event (E_request u mn mx) ∈ h -> requested u h = true.
Proof.
  intros Hh. unfold requested. apply existsb_exists. eexists. split; [by apply list_elem_of_In|]. by apply Z.eqb_eq.
Qed.

Lemma row_ok_app h x r : row_ok h r -> row_ok (h ++ x) r.
Proof.
  intros (H1 & H2 & H3 & mx & H4 & H5). split; [done|]. split; [done|]. split; [done|].
  exists mx. split; [apply elem_of_app; by left|done].
Qed.

Lemma find_row_Some u rs r : find_row u rs = Some r -> r ∈ rs /\ uuid r = u.
Proof. unfold find_row. intros Hl. apply last_Some_elem_of, list_elem_of_filter in Hl. tauto. Qed.

Lemma find_row_None u rs : find_row u rs = None -> u ∉ map uuid rs.
Proof.
  unfold find_row. rewrite last_None. intros Hf Hu. apply list_elem_of_fmap in Hu as (r & -> & Hr).
  assert (r ∈ filter (fun r' => uuid r' = uuid r) rs) as Hin by (by apply list_elem_of_filter).
  rewrite Hf in Hin. by apply elem_of_nil in Hin.
Qed.

Lemma uuid_unique rs r1 r2 : NoDup (map uuid rs) -> r1 ∈ rs -> r2 ∈ rs -> uuid r1 = uuid r2 -> r1 = r2.
Proof.
  induction rs as [|r rs IH]; simpl; [by intros _ ?%elem_of_nil|]. intros [Hr Hnd]%NoDup_cons H1 H2 E.
  apply elem_of_cons in H1 as [->|H1], H2 as [->|H2]; [done|..]; [| |by apply IH];
    destruct Hr; apply list_elem_of_fmap; eexists; (split; [|done]); congruence.
Qed.

Lemma update_row_uuids u f rs : (forall r, uuid (f r) = uuid r) -> map uuid (update_row u f rs) = map uuid rs.
Proof. intros Hf. unfold update_row. rewrite map_map. apply map_ext. intros r. by case_decide. Qed.

Lemma update_row_in u f rs r' :
  r' ∈ update_row u f rs -> exists r, r ∈ rs /\ ((uuid r = u /\ r' = f r) \/ (uuid r <> u /\ r' = r)).
Proof.
  unfold update_row. intros Hr. apply list_elem_of_fmap in Hr as (r & -> & Hr). exists r. split; [done|].
  case_decide; tauto.
Qed.

Lemma addresses_cons r rs :
  omap address (r :: rs) = match address r with Some a => a :: omap address rs | None => omap address rs end.
Proof. done. Qed.

Lemma update_row_cons u f r rs :
  update_row u f (r :: rs) = (if decide (uuid r = u) then f r else r) :: update_row u f rs.
Proof. done. Qed.

Lemma update_row_addresses u f rs :
  (forall r, address (f r) = address r) -> omap address (update_row u f rs) = omap address rs.
Proof.
  intros Hf. induction rs as [|r rs IH]; [done|]. rewrite update_row_cons, !addresses_cons, IH.
  case_decide; [by rewrite Hf|done].
Qed.

Lemma update_row_absent u f rs : u ∉ map uuid rs -> update_row u f rs = rs.
Proof.
  intros Hu. induction rs as [|r rs IH]; [done|]. rewrite update_row_cons. simpl in Hu.
  rewrite not_elem_of_cons in Hu. destruct Hu as [Hu1 Hu2]. rewrite decide_False by congruence. by rewrite IH.
Qed.

Lemma give_address_addresses u a rs :
  NoDup (map uuid rs) -> Forall fields_ok rs ->
  omap address (update_row u (give_address a) rs) ⊆+ a :: omap address rs.
Proof.
  intros Hnd Hf. induction rs as [|r rs IH]; [by apply submseteq_nil_l|].
  rewrite update_row_cons, !addresses_cons. simpl in Hnd. apply NoDup_cons in Hnd as [Hr Hnd]. apply Forall_cons in Hf as [Hfr Hf]. case_decide as D.
  - subst u. rewrite update_row_absent by done. unfold give_address. case_decide as S.
    + unfold fields_ok in Hfr. rewrite S in Hfr. destruct Hfr as [-> _]. done.
    + by apply submseteq_cons.
  - destruct (address r) as [b|]; [|by apply IH]. rewrite (Permutation_swap b a). by apply submseteq_skip, IH.
Qed.

Lemma delete_addresses u rs :
  omap address (filter (fun r => uuid r <> u) rs) ⊆+ omap address rs.
Proof.
  induction rs as [|r rs IH]; [done|]. rewrite filter_cons.
  case_decide; rewrite !addresses_cons; destruct (address r).
  - by apply submseteq_skip.
  - done.
  - by apply submseteq_cons.
  - done.
Qed.

Lemma delete_row_address u rs r a :
  r ∈ rs -> uuid r = u -> address r = Some a ->
  a :: omap address (filter (fun r => uuid r <> u) rs) ⊆+ omap address rs.
Proof.
  intros Hr Hu Ha. induction Hr as [r rs|r r' rs Hr IH].
  - rewrite filter_cons, decide_False by (intros N; by apply N). rewrite addresses_cons, Ha.
    apply submseteq_skip, delete_addresses.
  - rewrite filter_cons. specialize (IH Hu Ha). case_decide; rewrite !addresses_cons; destruct (address r') as [b|].
    + rewrite (Permutation_swap b a). by apply submseteq_skip.
    + done.
    + etrans; [exact IH|]. by apply submseteq_cons.
    + done.
Qed.

Lemma take_cached_spec c a c' : take_cached c = Some (a, c') -> a :: c' ≡ₚ c.
Proof.
  revert c'. induction c as [|b c IH]; intros c'; simpl; [done|]. case_decide.
  - destruct (take_cached c) as [[a' c1]|]; [|done]. cbn [mbind option_bind]. intros [= <- <-].
    rewrite Permutation_swap. by rewrite IH.
  - by intros [= <- <-].
Qed.

(** *** The tables *)

Lemma tables_ok_mono h x s s' :
  tables_ok h s -> rows (db s') = rows (db s) -> addresses s' ⊆+ addresses s -> tables_ok (h ++ x) s'.
Proof.
  intros [H1 H2 H3 H4] Er Ha. split.
  - by rewrite Er.
  - rewrite Er. eapply Forall_impl; [exact H2|]. intros r. apply row_ok_app.
  - apply submseteq_Permutation in Ha as [k E]. rewrite E in H3. by apply NoDup_app in H3 as [? _].
  - intros a Hin. apply address_given_app, H4. by eapply elem_of_submseteq.
Qed.

(** The state with task [t], which is about to run, among the waiting ones. *)
Definition about (s : Manager) (t : Task) : Manager := with_tasks s (t :: tasks s).

Lemma task_addresses_app l k :
  concat (map task_address (l ++ k)) = concat (map task_address l) ++ concat (map task_address k).
Proof. by rewrite map_app, concat_app. Qed.

(** Tasks that bring no address. *)
Definition no_address (ts : list Task) : Prop := concat (map task_address ts) = [].

Lemma tables_same h x s t s' ts :
  tables_ok h (about s t) -> db s' = db s -> tasks s' = tasks s ++ ts -> no_address ts ->
  tables_ok (h ++ x) s'.
Proof.
  intros T Ed Et Hts. eapply tables_ok_mono; [exact T|by rewrite Ed|].
  unfold addresses. rewrite Ed, Et, task_addresses_app, Hts, app_nil_r. simpl.
  apply submseteq_app; [done|]. apply submseteq_app; [done|]. by apply submseteq_inserts_l.
Qed.

(** The rows change, each to one that keeps to its request, and the addresses
    only get fewer. *)
Lemma tables_rows h x b s' :
  tables_ok h b -> map uuid (rows (db s')) `sublist_of` map uuid (rows (db b)) ->
  (forall r, r ∈ rows (db s') -> row_ok h r) -> addresses s' ⊆+ addresses b ->
  tables_ok (h ++ x) s'.
Proof.
  intros [H1 H2 H3 H4] Hu Hr Ha. split.
  - by eapply sublist_NoDup.
  - apply Forall_forall. intros r Hin. by apply row_ok_app, Hr.
  - apply submseteq_Permutation in Ha as [k E]. rewrite E in H3. by apply NoDup_app in H3 as [? _].
  - intros a Hin. apply address_given_app, H4. by eapply elem_of_submseteq.
Qed.

Lemma rows_of h s r : tables_ok h s -> r ∈ rows (db s) -> row_ok h r.
Proof. intros T Hr. pose proof (to_rows _ _ T) as F. rewrite Forall_forall in F. by apply F. Qed.

Lemma fields_of h s : tables_ok h s -> Forall fields_ok (rows (db s)).
Proof. intros T. apply Forall_forall. intros r Hr. by destruct (rows_of h s r T Hr) as (_ & _ & ? & _). Qed.

Lemma give_address_ok h a r : row_ok h r -> row_ok h (give_address a r).
Proof.
  intros (H1 & H2 & H3 & H4). unfold give_address. case_decide as S; [|done]. split; [done|]. split; [done|].
  split; [|done]. unfold fields_ok in *. rewrite S in H3. simpl. destruct H3 as (_ & -> & ->). by split; [eexists|].
Qed.

Lemma await_ok h hash tmo r : row_ok h r -> state r <> NeedsOnchainAddress -> row_ok h (await hash tmo r).
Proof.
  intros (H1 & H2 & H3 & H4) S. split; [done|]. split; [done|]. split; [|done].
  unfold fields_ok in *. simpl. destruct (state r); [done|..]; destruct H3 as [? _]; (split; [done|]; split; by eexists).
Qed.

Lemma reduce_row_ok h a r :
  row_ok h r -> state r <> NeedsOnchainAddress -> min_amount r <= a <= amount r -> row_ok h (reduce_row a r).
Proof.
  intros (H1 & H2 & H3 & mx & H4 & H5) S Ha. split; [simpl; lia|]. split; [simpl; lia|]. split.
  - unfold fields_ok in *. simpl. by destruct (state r); [done|..]; destruct H3 as [? _].
  - exists mx. simpl. split; [done|lia].
Qed.

Lemma load_address_tables h x b s u a :
  tables_ok h b -> rows (db s) = rows (db b) ->
  (a :: addrcache (db s)) ++ concat (map task_address (tasks s))
    ⊆+ addrcache (db b) ++ concat (map task_address (tasks b)) ->
  tables_ok (h ++ x) (load_address s u a).
Proof.
  intros T Er Ha. eapply tables_rows; [exact T| | |].
  - simpl. rewrite update_row_uuids; [by rewrite Er|]. intros r. unfold give_address. by case_decide.
  - intros r' Hr. apply update_row_in in Hr as (r & Hr & [(_ & ->)|(_ & ->)]); [apply give_address_ok|];
      rewrite Er in Hr; by eapply rows_of.
  - unfold addresses, load_address. simpl. rewrite !task_addresses_app, Er.
    assert (concat (map task_address (match needs_invoice s with [] => [T_process_invoice] | _ :: _ => [] end)) = []) as ->
      by (by destruct (needs_invoice s)).
    rewrite !app_nil_r. simpl in Ha.
    etrans; [apply submseteq_app; [apply (give_address_addresses u a); [apply T|by eapply fields_of]|done]|].
    simpl. rewrite (Permutation_middle (omap address (rows (db b)))). by apply submseteq_app.
Qed.

(** The amount that a swap is reduced to. *)
Lemma reduced_range a m d :
  0 <= m <= a -> a < 2 ^ 62 -> a / 4 <= d -> d <= u64 (a * 3) / 4 -> m <= (if d <? m then m else d) <= a.
Proof.
  intros H1 H2 H3 H4. unfold u64 in H4. rewrite Z.mod_small in H4 by lia.
  assert (a * 3 / 4 <= a) by (apply Z.div_le_upper_bound; lia). destruct (Z.ltb_spec d m); lia.
Qed.

Lemma reduce_tables h x s u b i :
  tables_ok h (about s (T_reduce u b)) -> past h s u -> input_ok s (T_reduce u b) i = true ->
  tables_ok (h ++ x) (swap_reduce_or_fail s u (draw i)).1.
Proof.
  intros T [_ Hp] Hi. unfold swap_reduce_or_fail. simpl in Hi.
  destruct (find_row u (rows (db s))) as [r|] eqn:Ef.
  - destruct (find_row_Some _ _ _ Ef) as [Hr Hu].
    destruct (rows_of _ (about s (T_reduce u b)) r T Hr) as (R1 & R2 & R3 & R4).
    destruct (Z.eqb_spec (amount r) (min_amount r)) as [E|E].
    + unfold fail_swap. rewrite Ef. cbn [mbind option_bind fst]. eapply tables_rows; [exact T| | |].
      * simpl. destruct (default [] (address r)); simpl; apply (fmap_sublist uuid), sublist_filter.
      * intros r' Hr'. assert (r' ∈ rows (db s)) as Hin
          by (destruct (default [] (address r)); simpl in Hr'; apply list_elem_of_filter in Hr'; tauto).
        by eapply (rows_of _ (about s (T_reduce u b))).
      * unfold addresses. simpl. destruct (address r) as [[|c a]|] eqn:Ea; simpl.
        1,3: apply submseteq_app; [apply delete_addresses|done].
        rewrite <- app_assoc. simpl. rewrite <- Permutation_middle, <- Permutation_middle, app_comm_cons.
        apply submseteq_app; [|done]. by eapply delete_row_address.
    + apply andb_prop in Hi as [Hi1 Hi2]. to_prop.
      pose proof (reduced_range (amount r) (min_amount r) (draw i) R1 R2 Hi1 Hi2) as Ha.
      cbn [fst]. eapply tables_rows; [exact T| | |].
      * simpl. by rewrite update_row_uuids.
      * intros r' Hr'. simpl in Hr'. apply update_row_in in Hr' as (r0 & Hr0 & [(E0 & ->)|(_ & ->)]);
          [|by eapply (rows_of _ (about s (T_reduce u b)))].
        assert (r0 = r) as ->.
        { eapply uuid_unique; [apply T|exact Hr0|exact Hr|congruence]. }
        apply reduce_row_ok; [split; [done|]; split; [done|]; by split|by apply Hp|done].
      * unfold addresses. simpl. rewrite update_row_addresses by done. rewrite task_addresses_app, app_nil_r. done.
  - rewrite Z.eqb_refl. unfold fail_swap. rewrite Ef. simpl. eapply tables_rows; [exact T| | |].
    + simpl. apply (fmap_sublist uuid), sublist_filter.
    + intros r' Hr'. simpl in Hr'. apply list_elem_of_filter in Hr' as [_ Hr'].
      by eapply (rows_of _ (about s (T_reduce u b))).
    + unfold addresses. simpl. apply submseteq_app; [apply delete_addresses|done].
Qed.

Lemma delete_tables h x s t u ts :
  tables_ok h (about s t) -> no_address ts ->
  tables_ok (h ++ x) (spawn (with_db s (delete_row u (db s))) ts).
Proof.
  intros T Hts. eapply tables_rows; [exact T| | |].
  - simpl. apply (fmap_sublist uuid), sublist_filter.
  - intros r' Hr'. simpl in Hr'. apply list_elem_of_filter in Hr' as [_ Hr']. by eapply (rows_of _ (about s t)).
  - unfold addresses. simpl. rewrite task_addresses_app, Hts, app_nil_r. apply submseteq_app; [apply delete_addresses|].
    apply submseteq_app; [done|]. by apply submseteq_inserts_l.
Qed.

Lemma create_tables h x s t u hash tmo name :
  tables_ok h (about s t) -> past h s u ->
  tables_ok (h ++ x)
    (spawn (with_db s (with_provider (with_rows (db s) (update_row u (await hash tmo) (rows (db s))))
       (remove u (provider (db s)) ++ [(u, name)]))) [T_pop_invoice]).
Proof.
  intros T [_ Hp]. eapply tables_rows; [exact T| | |].
  - simpl. by rewrite update_row_uuids.
  - intros r' Hr'. simpl in Hr'. apply update_row_in in Hr' as (r & Hr & [(E0 & ->)|(_ & ->)]);
      [apply await_ok; [|by apply Hp]|]; by eapply (rows_of _ (about s t)).
  - unfold addresses. simpl. rewrite update_row_addresses by done. rewrite task_addresses_app, app_nil_r.
    apply submseteq_app; [done|]. apply submseteq_app; [done|]. by apply submseteq_inserts_l.
Qed.

Lemma loop_quotations_same s s' o :
  loop_quotations s = Some (s', o) -> db s' = db s /\ exists ts, tasks s' = tasks s ++ ts /\ no_address ts.
Proof.
  unfold loop_quotations. destruct (last (quotations s)).
  - intros [= <- <-]. split; [done|]. exists []. simpl. by rewrite app_nil_r.
  - destruct (head (needs_invoice s)) as [u|]; [|done]. intros [= <- <-]. split; [done|]. by eexists.
Qed.

Lemma loop_needs_address_same s s' o :
  loop_needs_address s = Some (s', o) -> db s' = db s /\ exists ts, tasks s' = tasks s ++ ts /\ no_address ts.
Proof.
  unfold loop_needs_address. destruct (needs_address s); intros [= <- <-]; (split; [done|]).
  - exists []. simpl. by rewrite app_nil_r.
  - by eexists.
Qed.

Lemma loop_needs_invoice_same s s' o :
  loop_needs_invoice s = Some (s', o) -> db s' = db s /\ exists ts, tasks s' = tasks s ++ ts /\ no_address ts.
Proof.
  unfold loop_needs_invoice. destruct (needs_invoice s); intros [= <- <-]; (split; [done|]).
  - exists []. simpl. by rewrite app_nil_r.
  - by eexists.
Qed.

Lemma no_address_reduces rs : no_address (map (fun r => T_reduce (uuid r) false) rs).
Proof. unfold no_address. by induction rs. Qed.

Ltac same_tables H :=
  first [ eapply tables_same; [exact H|reflexivity|reflexivity|reflexivity]
        | eapply (tables_same _ _ _ _ _ []); [exact H|reflexivity|by rewrite app_nil_r|reflexivity] ].

Lemma task_tables h s t i s' o :
  tables_ok h (about s t) -> queues_ok h (about s t) -> input_ok s t i = true ->
  run_task s t i = Some (s', o) -> tables_ok (h ++ map L_out o) s'.
Proof.
  intros T Q Hi E. destruct t; simpl in E.
  - injection E as <- <-. same_tables T.
  - injection E as <- <-. same_tables T.
  - injection E as <- <-. same_tables T.
  - unfold process_needs_address in E. destruct (getting_address s).
    + injection E as <- <-. same_tables T.
    + destruct (loop_needs_address_same _ _ _ E) as (Ed & ts & Et & Hts). by eapply tables_same.
  - unfold process_needs_invoice in E. destruct (getting_invoice s).
    + injection E as <- <-. same_tables T.
    + destruct (loop_needs_invoice_same _ _ _ E) as (Ed & ts & Et & Hts). by eapply tables_same.
  - unfold address_tx in E. destruct (head (needs_address s)) as [u|]; [|done]. cbn [mbind option_bind] in E.
    destruct (take_cached (addrcache (db s))) as [[a c]|] eqn:Ec.
    + injection E as <- <-. eapply load_address_tables; [exact T|done|]. simpl.
      by rewrite app_comm_cons, (take_cached_spec _ _ _ Ec).
    + injection E as <- <-. same_tables T.
  - unfold newaddr_tx in E. destruct (head (needs_address s)) as [u|]; [|done]. injection E as <- <-.
    eapply load_address_tables; [exact T|done|]. simpl. by rewrite Permutation_middle.
  - destruct (loop_needs_address_same _ _ _ E) as (Ed & ts & Et & Hts). by eapply tables_same.
  - unfold invoice_tx in E. destruct (head (needs_invoice s)) as [u|]; [|done]. injection E as <- <-.
    destruct (find_row u (rows (db s))); same_tables T.
  - unfold quoted in E. destruct (loop_quotations_same _ _ _ E) as (Ed & ts & Et & Hts). by eapply tables_same.
  - destruct (loop_quotations_same _ _ _ E) as (Ed & ts & Et & Hts). by eapply tables_same.
  - unfold create_tx in E. destruct (needs_invoice s) as [|u q] eqn:En; [done|]. cbn [head mbind option_bind] in E.
    destruct (find_row u (rows (db s))) as [r|].
    + injection E as <- <-. eapply create_tables; [exact T|]. apply (qo_invoice _ _ Q). simpl. rewrite En. left.
    + injection E as <- <-. same_tables T.
  - unfold pop_invoice in E. destruct (needs_invoice s); [done|].
    destruct (loop_needs_invoice_same _ _ _ E) as (Ed & ts & Et & Hts). by eapply tables_same.
  - destruct (loop_needs_invoice_same _ _ _ E) as (Ed & ts & Et & Hts). by eapply tables_same.
  - pose proof (reduce_tables h (map L_out o) s u then_loop i T (qo_reduce _ _ Q u then_loop ltac:(left)) Hi) as R.
    destruct (swap_reduce_or_fail s u (draw i)) as [s1 o1]. injection E as <- <-. simpl in R.
    destruct then_loop; [|done]. destruct R as [R1 R2 R3 R4].
    split; unfold addresses; simpl; rewrite ?task_addresses_app, ?app_nil_r; done.
  - unfold pay_failed in E. destruct (last _); injection E as <- <-; [same_tables T|].
    same_tables T.
  - unfold pay_success in E. destruct (lookup hash (comp_onchain (db s))) as [[rc nm]|]; injection E as <- <-;
      (eapply tables_ok_mono; [exact T|done|done]).
  - unfold onchain_tx in E. destruct (onchain_funds s) as [|[a amt] funds].
    + injection E as <- <-. same_tables T.
    + destruct (last _) as [r|]; injection E as <- <-.
      * assert (tables_ok h (about (with_funds s funds) T_onchain_tx)) as T' by (destruct T; by split).
        refine (delete_tables h _ (with_funds s funds) T_onchain_tx (uuid r) _ T' _). done.
      * same_tables T.
  - unfold funds_seen in E. destruct (lookup hash (comp_pay (db s))); injection E as <- <-;
      (eapply tables_ok_mono; [exact T|done|done]).
  - unfold block_tx in E. injection E as <- <-. eapply tables_same; [exact T|done|done|apply no_address_reduces].
Qed.

Lemma event_tables h s e s' o :
  tables_ok h s -> event_ok h s e = true -> handle s e = Some (s', o) ->
  tables_ok (h ++ L_event e :: map L_out o) s'.
Proof.
  intros T He E.
  assert (forall ts, no_address ts -> addresses (spawn s ts) ⊆+ addresses s) as Hsp.
  { intros ts Hts. unfold addresses. simpl. by rewrite task_addresses_app, Hts, app_nil_r. }
  destruct e; simpl in E.
  - simpl in He. apply andb_prop in He as [He H4]. apply andb_prop in He as [He H3].
    apply andb_prop in He as [H1 H2]. to_prop. unfold on_swap_request in E.
    destruct (find_row u (rows (db s))) as [r|] eqn:Ef; injection E as <- <-.
    { by apply (tables_ok_mono h _ s). }
    pose proof (find_row_None _ _ Ef) as Hu. destruct T as [T1 T2 T3 T4]. split; simpl.
    + rewrite map_app. apply NoDup_app. split_and!; [done| |apply NoDup_singleton].
      intros v Hv ->%list_elem_of_singleton. done.
    + apply Forall_app. split; [eapply Forall_impl; [exact T2|]; intros r; apply row_ok_app|].
      constructor; [|done]. split; [simpl; lia|]. split; [simpl; lia|]. split; [done|].
      exists max. simpl. split; [|lia]. apply elem_of_app. right. left.
    + unfold addresses. simpl. rewrite omap_app, task_addresses_app, !app_nil_r. exact T3.
    + intros a. unfold addresses. simpl. rewrite omap_app, task_addresses_app, !app_nil_r.
      intros Ha. by apply address_given_app, T4.
  - injection E as <- <-. apply (tables_ok_mono h _ s); [done..|by apply Hsp].
  - simpl in He. apply andb_prop in He as [_ Hn]. apply negb_true_iff in Hn. unfold on_response_newaddr in E.
    destruct (getting_address s); [|done]. injection E as <- <-. destruct T as [T1 T2 T3 T4].
    assert (addresses (spawn (with_address_loop s true (needs_address s) false) [T_newaddr addr])
      = addresses s ++ [addr]) as Ea.
    { unfold addresses. simpl. by rewrite task_addresses_app, <- !app_assoc. }
    split; [done|eapply Forall_impl; [exact T2|]; intros r; apply row_ok_app|..]; rewrite Ea.
    + apply NoDup_app. split_and!; [done| |apply NoDup_singleton].
      intros a Ha ->%list_elem_of_singleton. apply T4 in Ha. congruence.
    + intros a [Ha|Ha%list_elem_of_singleton]%elem_of_app; [by apply address_given_app, T4|]. subst a.
      unfold address_given. rewrite existsb_app. simpl. rewrite bool_decide_true by done. by rewrite orb_true_r.
  - unfold on_swap_creation in E. destruct (last (quotations s)); [|done]. cbn [mbind option_bind] in E.
    destruct success; injection E as <- <-; (apply (tables_ok_mono h _ s); [done..|by apply Hsp]).
  - destruct st; injection E as <- <-; [| |by apply (tables_ok_mono h _ s)];
      (apply (tables_ok_mono h _ s); [done..|by apply Hsp]).
  - unfold on_listfunds_result in E. case_bool_decide; injection E as <- <-;
      [apply (tables_ok_mono h _ s); [done..|by apply Hsp]|by apply (tables_ok_mono h _ s)].
  - injection E as <- <-. apply (tables_ok_mono h _ s); [done..|by apply Hsp].
  - injection E as <- <-. apply (tables_ok_mono h _ s); [done..|]. unfold addresses. simpl.
    rewrite app_nil_r. apply submseteq_app; [done|]. apply submseteq_inserts_r.
    apply sublist_submseteq, sublist_filter.
Qed.

(** *** The queues *)

(** No row goes back to the first state. *)
Definition advance (h : list Label) (rs rs' : list Row) : Prop :=
  forall r', r' ∈ rs' -> state r' = NeedsOnchainAddress -> requested (uuid r') h = true ->
  exists r, r ∈ rs /\ uuid r = uuid r' /\ state r = NeedsOnchainAddress.

Lemma advance_refl h rs : advance h rs rs.
Proof. intros r Hr Hs _. by exists r. Qed.

Lemma advance_filter h (P : Row -> Prop) `{!forall r, Decision (P r)} rs : advance h rs (filter P rs).
Proof. intros r Hr Hs _. apply list_elem_of_filter in Hr as [_ Hr]. by exists r. Qed.

Lemma advance_update h u f rs :
  (forall r, state (f r) = NeedsOnchainAddress -> state r = NeedsOnchainAddress /\ uuid (f r) = uuid r) ->
  advance h rs (update_row u f rs).
Proof.
  intros Hf r' Hr' Hs _. apply update_row_in in Hr' as (r & Hr & [(Hu & ->)|(_ & ->)]); [|by exists r].
  apply Hf in Hs as [Hs E]. by exists r.
Qed.

Lemma past_advance h x s s' u :
  past h s u -> advance h (rows (db s)) (rows (db s')) -> past (h ++ x) s' u.
Proof.
  intros [H1 H2] Ha. split; [by apply requested_app|]. intros r' Hr' Hu Hs.
  destruct (Ha r' Hr' Hs) as (r & Hr & Eu & Es); [by rewrite Hu|]. by apply (H2 r Hr); [congruence|].
Qed.

Lemma past_app h x s u : past h s u -> past (h ++ x) s u.
Proof. intros Hp. eapply past_advance; [exact Hp|apply advance_refl]. Qed.

Lemma queues_step h x b s' :
  queues_ok h b -> advance h (rows (db b)) (rows (db s')) ->
  (forall u, u ∈ needs_address s' -> u ∈ needs_address b \/ requested u (h ++ x) = true) ->
  (forall u, u ∈ needs_invoice s' -> u ∈ needs_invoice b \/ past (h ++ x) s' u) ->
  (forall u c, T_reduce u c ∈ tasks s' ->
     (exists c', T_reduce u c' ∈ tasks b) \/ u ∈ needs_invoice b \/ past (h ++ x) s' u) ->
  queues_ok (h ++ x) s'.
Proof.
  intros [Q1 Q2 Q3] Ha H1 H2 H3. split.
  - intros u Hu. destruct (H1 u Hu) as [Hu'|?]; [|done]. by apply requested_app, Q1.
  - intros u Hu. destruct (H2 u Hu) as [Hu'|?]; [|done]. by eapply past_advance; [apply Q2|].
  - intros u c Hu. destruct (H3 u c Hu) as [[c' Hu']|[Hu'|?]]; [| |done].
    + by eapply past_advance; [eapply Q3|].
    + by eapply past_advance; [apply Q2|].
Qed.

Lemma row_requested h s r : tables_ok h s -> r ∈ rows (db s) -> requested (uuid r) h = true.
Proof. intros T Hr. destruct (rows_of _ _ _ T Hr) as (_ & _ & _ & mx & Hq & _). by eapply request_requested. Qed.

Lemma row_past h s r : tables_ok h s -> r ∈ rows (db s) -> state r <> NeedsOnchainAddress -> past h s (uuid r).
Proof.
  intros T Hr Hs. split; [by eapply row_requested|]. intros r' Hr' E.
  by rewrite (uuid_unique (rows (db s)) r' r (to_unique _ _ T)).
Qed.

Lemma hash_past h s r : tables_ok h s -> r ∈ rows (db s) -> is_Some (payment_hash r) -> past h s (uuid r).
Proof.
  intros T Hr [p Hp]. apply row_past; [done..|]. intros S.
  destruct (rows_of _ _ _ T Hr) as (_ & _ & Hf & _). unfold fields_ok in Hf. rewrite S in Hf.
  destruct Hf as (_ & Hf & _). congruence.
Qed.

(** No new reducing task. *)
Ltac not_new Hv :=
  exfalso; repeat (apply elem_of_cons in Hv as [Hv|Hv]; [discriminate Hv|]); by apply elem_of_nil in Hv.
Ltac old_reduce :=
  let v := fresh "v" in let c := fresh "c" in let Hv := fresh "Hv" in
  intros v c Hv; left; exists c; simpl in Hv; right;
  first [exact Hv | apply elem_of_app in Hv as [Hv|Hv]; [exact Hv|not_new Hv]].
Ltac spawned_reduce :=
  let v := fresh "v" in let c := fresh "c" in let Hv := fresh "Hv" in
  intros v c Hv; left; exists c; simpl in Hv;
  first [exact Hv | apply elem_of_app in Hv as [Hv|Hv]; [exact Hv|not_new Hv]].
Ltac old_queue := let v := fresh "v" in let Hv := fresh "Hv" in intros v Hv; left; exact Hv.

Lemma load_address_queues h x b s u a :
  queues_ok h b -> rows (db s) = rows (db b) -> u ∈ needs_address b ->
  needs_address s = needs_address b -> needs_invoice s = needs_invoice b ->
  (forall t, t ∈ tasks s -> t ∈ tasks b) ->
  queues_ok (h ++ x) (load_address s u a).
Proof.
  intros Q Er Hu Ea Ei Ht. apply (queues_step h x b); [done|..]; simpl.
  - rewrite Er. apply advance_update. intros r. unfold give_address. by case_decide.
  - intros v Hv. left. rewrite Ea in Hv. destruct (needs_address b); [done|by right].
  - rewrite Ei. intros v [Hv|Hv%list_elem_of_singleton]%elem_of_app; [by left|]. subst v. right.
    split; [by apply requested_app, Q|]. simpl. intros r' Hr' E.
    apply update_row_in in Hr' as (r & _ & [(_ & ->)|(Hn & ->)]); [|done]. unfold give_address. by case_decide.
  - intros v c Hv. left. exists c. apply Ht. apply elem_of_app in Hv as [Hv|Hv]; [|not_new Hv].
    apply elem_of_app in Hv as [Hv|Hv]; [done|]. destruct (needs_invoice s); not_new Hv.
Qed.

Lemma reduce_queues h x s u b d :
  queues_ok h (about s (T_reduce u b)) -> queues_ok (h ++ x) (swap_reduce_or_fail s u d).1.
Proof.
  intros Q. unfold swap_reduce_or_fail. destruct (match find_row u (rows (db s)) with Some r => _ | None => _ end) as [a m].
  pose proof (qo_reduce _ _ Q u b ltac:(left)) as Hp.
  destruct (a =? m).
  - eapply queues_step; [exact Q|..]; unfold fail_swap; cbn [fst].
    + destruct (default [] _); simpl; apply advance_filter.
    + old_queue.
    + old_queue.
    + old_reduce.
  - cbn [fst]. eapply queues_step; [exact Q|..].
    + simpl. by apply advance_update.
    + old_queue.
    + simpl. intros v [Hv|Hv%list_elem_of_singleton]%elem_of_app; [by left|]. subst v. right.
      split; [by apply requested_app, Hp|]. simpl. intros r' Hr' E.
      by apply update_row_in in Hr' as (r & _ & [(_ & ->)|(Hn & ->)]).
    + old_reduce.
Qed.

Lemma loop_quotations_queues h x b s s' o :
  queues_ok h b -> rows (db s) = rows (db b) -> needs_address s = needs_address b ->
  needs_invoice s = needs_invoice b -> (forall t, t ∈ tasks s -> t ∈ tasks b) ->
  loop_quotations s = Some (s', o) -> queues_ok (h ++ x) s'.
Proof.
  intros Q Er Ea Ei Ht E. unfold loop_quotations in E.
  destruct (last (quotations s)) as [q|].
  - injection E as <- <-. apply (queues_step h x b); [done|simpl; rewrite Er; apply advance_refl|..]; simpl.
    + rewrite Ea. old_queue.
    + rewrite Ei. old_queue.
    + intros v c Hv. left. exists c. by apply Ht.
  - destruct (needs_invoice s) as [|u qs] eqn:En; [done|]. injection E as <- <-.
    apply (queues_step h x b); [done|simpl; rewrite Er; apply advance_refl|..]; simpl.
    + rewrite Ea. old_queue.
    + rewrite <- Ei. intros v Hv. left. by right.
    + intros v c [Hv|Hv]%elem_of_app; [left; exists c; by apply Ht|].
      apply list_elem_of_singleton in Hv as [= -> ->]. right. left. rewrite <- Ei. left.
Qed.

Lemma loop_needs_queues h x b s s' o :
  queues_ok h b -> rows (db s) = rows (db b) -> needs_address s = needs_address b ->
  (forall u, u ∈ needs_invoice s -> u ∈ needs_invoice b) -> (forall t, t ∈ tasks s -> t ∈ tasks b) ->
  loop_needs_address s = Some (s', o) \/ loop_needs_invoice s = Some (s', o) -> queues_ok (h ++ x) s'.
Proof.
  intros Q Er Ea Ei Ht E.
  assert (rows (db s') = rows (db s) /\ (forall u, u ∈ needs_address s' -> u ∈ needs_address s)
    /\ (forall u, u ∈ needs_invoice s' -> u ∈ needs_invoice s)
    /\ forall u c, T_reduce u c ∈ tasks s' -> T_reduce u c ∈ tasks s) as (H1 & H2 & H3 & H4).
  { destruct E as [E|E]; unfold loop_needs_address, loop_needs_invoice in E.
    - destruct (needs_address s) eqn:En; injection E as <- <-; simpl; (split; [done|]).
      + split; [by intros u ?%elem_of_nil|]. by split.
      + rewrite En. split; [done|]. split; [done|]. intros u c [Hu|Hu]%elem_of_app; [done|not_new Hu].
    - destruct (needs_invoice s) eqn:En; injection E as <- <-; simpl; (split; [done|]; split; [done|]).
      + split; [by intros u ?%elem_of_nil|done].
      + split; [done|]. intros u c [Hu|Hu]%elem_of_app; [done|not_new Hu]. }
  apply (queues_step h x b); [done|rewrite H1, Er; apply advance_refl|..].
  - intros u Hu. left. rewrite <- Ea. by apply H2.
  - intros u Hu. left. by apply Ei, H3.
  - intros u c Hu. left. exists c. by apply Ht, H4.
Qed.

Lemma task_queues h s t i s' o :
  tables_ok h (about s t) -> queues_ok h (about s t) -> run_task s t i = Some (s', o) ->
  queues_ok (h ++ map L_out o) s'.
Proof.
  intros T Q E. destruct t; simpl in E.
  - injection E as <- <-. eapply queues_step; [exact Q|apply advance_refl| |old_queue|old_reduce].
    simpl. intros u Hu. unfold load_queue in Hu. destruct (needs_address s); [|by left]. right.
    apply list_elem_of_fmap in Hu as (r & -> & Hr). apply list_elem_of_filter in Hr as [_ Hr].
    apply requested_app. by eapply (row_requested _ (about s T_load_address)).
  - injection E as <- <-. eapply queues_step; [exact Q|apply advance_refl|old_queue| |old_reduce].
    simpl. intros u Hu. unfold load_queue in Hu. destruct (needs_invoice s); [|by left]. right.
    apply list_elem_of_fmap in Hu as (r & -> & Hr). apply list_elem_of_filter in Hr as [Hs Hr].
    apply (past_advance h _ (about s T_load_invoice)); [|apply advance_refl].
    apply row_past; [done|done|]. by rewrite Hs.
  - injection E as <- <-. eapply queues_step; [exact Q|apply advance_refl|old_queue|old_queue|old_reduce].
  - unfold process_needs_address in E. destruct (getting_address s).
    + injection E as <- <-. eapply queues_step; [exact Q|apply advance_refl|old_queue|old_queue|old_reduce].
    + eapply loop_needs_queues; [exact Q|..|left; exact E]; try done. intros t Ht. by right.
  - unfold process_needs_invoice in E. destruct (getting_invoice s).
    + injection E as <- <-. eapply queues_step; [exact Q|apply advance_refl|old_queue|old_queue|old_reduce].
    + eapply loop_needs_queues; [exact Q|..|right; exact E]; try done. intros t Ht. by right.
  - unfold address_tx in E. destruct (needs_address s) as [|u q] eqn:En; [done|]. cbn [head mbind option_bind] in E.
    destruct (take_cached (addrcache (db s))) as [[a c]|] eqn:Ec; injection E as <- <-.
    + eapply load_address_queues; [exact Q|done| |done..|]; [simpl; rewrite En; left|]. intros t Ht. by right.
    + eapply queues_step; [exact Q|apply advance_refl| |old_queue|old_reduce]. simpl. rewrite En. old_queue.
  - unfold newaddr_tx in E. destruct (needs_address s) as [|u q] eqn:En; [done|]. injection E as <- <-.
    eapply load_address_queues; [exact Q|done| |done..|]; [simpl; rewrite En; left|]. intros t Ht. by right.
  - eapply loop_needs_queues; [exact Q|..|left; exact E]; try done. intros t Ht. by right.
  - unfold invoice_tx in E. destruct (head (needs_invoice s)) as [u|]; [|done]. injection E as <- <-.
    destruct (find_row u (rows (db s))); (eapply queues_step; [exact Q|apply advance_refl|old_queue|old_queue|old_reduce]).
  - eapply loop_quotations_queues; [exact Q|..|exact E]; try done. intros t Ht. by right.
  - eapply loop_quotations_queues; [exact Q|..|exact E]; try done. intros t Ht. by right.
  - unfold create_tx in E. destruct (head (needs_invoice s)) as [u|]; [|done]. cbn [mbind option_bind] in E.
    destruct (find_row u (rows (db s))); injection E as <- <-;
      (eapply queues_step; [exact Q| |old_queue|old_queue|old_reduce]); [|apply advance_refl].
    simpl. by apply advance_update.
  - unfold pop_invoice in E. destruct (needs_invoice s) as [|u q] eqn:En; [done|].
    eapply loop_needs_queues; [exact Q|..|right; exact E]; try done; simpl.
    + rewrite En. intros v Hv. by right.
    + intros t Ht. by right.
  - eapply loop_needs_queues; [exact Q|..|right; exact E]; try done. intros t Ht. by right.
  - pose proof (reduce_queues h (map L_out o) s u then_loop (draw i) Q) as [R1 R2 R3].
    destruct (swap_reduce_or_fail s u (draw i)) as [s1 o1]. injection E as <- <-. simpl in *.
    destruct then_loop; [|by split]. split; [done..|]. simpl. intros v c [Hv|Hv]%elem_of_app; [by eapply R3|not_new Hv].
  - unfold pay_failed in E. destruct (last _) as [r|] eqn:El; injection E as <- <-;
      (eapply queues_step; [exact Q|apply advance_refl|old_queue|old_queue|]); [|old_reduce].
    simpl. intros v c [Hv|Hv]%elem_of_app; [left; exists c; by right|].
    apply list_elem_of_singleton in Hv as [= -> ->]. right. right.
    apply last_Some_elem_of, list_elem_of_filter in El as [Hh Hr].
    apply (past_advance h _ (about s (T_pay_failed hash))); [|apply advance_refl].
    apply hash_past; [done|done|]. rewrite Hh. by eexists.
  - unfold pay_success in E. destruct (lookup hash (comp_onchain (db s))) as [[rc nm]|]; injection E as <- <-;
      (eapply queues_step; [exact Q|apply advance_refl|old_queue|old_queue|old_reduce]).
  - unfold onchain_tx in E. destruct (onchain_funds s) as [|[a amt] funds].
    + injection E as <- <-. eapply queues_step; [exact Q|apply advance_refl|old_queue|old_queue|old_reduce].
    + destruct (last _) as [r|]; injection E as <- <-;
        (eapply queues_step; [exact Q| |old_queue|old_queue|old_reduce]); [|apply advance_refl].
      simpl. apply advance_filter.
  - unfold funds_seen in E. destruct (lookup hash (comp_pay (db s))); injection E as <- <-;
      (eapply queues_step; [exact Q|apply advance_refl|old_queue|old_queue|old_reduce]).
  - unfold block_tx in E. injection E as <- <-. eapply queues_step; [exact Q|apply advance_refl|old_queue|old_queue|].
    simpl. intros v c [Hv|Hv]%elem_of_app; [left; exists c; by right|]. right. right.
    apply list_elem_of_fmap in Hv as (r & [= -> ->] & Hr). apply list_elem_of_filter in Hr as [[Hs _] Hr].
    apply (past_advance h _ (about s (T_block height))); [|apply advance_refl].
    apply row_past; [done|done|]. by rewrite Hs.
Qed.

Ltac same_queues Q :=
  eapply queues_step; [exact Q|apply advance_refl|old_queue|old_queue|spawned_reduce].

Lemma event_queues h s e s' o :
  queues_ok h s -> event_ok h s e = true -> handle s e = Some (s', o) ->
  queues_ok (h ++ L_event e :: map L_out o) s'.
Proof.
  intros Q He E. destruct e; simpl in E.
  - unfold on_swap_request in E. destruct (find_row u (rows (db s))); injection E as <- <-.
    { eapply queues_step; [exact Q|apply advance_refl|old_queue|old_queue|]. intros v c Hv. left. by exists c. }
    eapply queues_step; [exact Q| | |old_queue|]; simpl.
    + intros r [Hr|Hr%list_elem_of_singleton]%elem_of_app Hs Hq; [by exists r|]. subst r. simpl in *.
      rewrite Hq in He. done.
    + intros v [Hv|Hv%list_elem_of_singleton]%elem_of_app; [by left|]. right. subst v.
      unfold requested. rewrite existsb_app. simpl. by rewrite Z.eqb_refl, orb_true_r.
    + spawned_reduce.
  - injection E as <- <-. same_queues Q.
  - unfold on_response_newaddr in E. destruct (getting_address s); [|done]. injection E as <- <-. same_queues Q.
  - unfold on_swap_creation in E. destruct (last (quotations s)); [|done]. cbn [mbind option_bind] in E.
    destruct success; injection E as <- <-; same_queues Q.
  - destruct st; injection E as <- <-; same_queues Q.
  - unfold on_listfunds_result in E. case_bool_decide; injection E as <- <-; same_queues Q.
  - injection E as <- <-. same_queues Q.
  - injection E as <- <-. eapply queues_step; [exact Q|apply advance_refl|..].
    1,2: by intros u ?%elem_of_nil.
    intros u c Hu. not_new Hu.
Qed.

(** *** The threads *)

Lemma count_app P l k : count P (l ++ k) = (count P l + count P k)%nat.
Proof. unfold count. by rewrite filter_app, length_app. Qed.

Lemma count_cons P t l : count P (t :: l) = (Nat.b2n (P t) + count P l)%nat.
Proof. unfold count. rewrite filter_cons. by destruct (P t). Qed.

Lemma count_nil P : count P [] = 0%nat.
Proof. done. Qed.

Lemma count_le (P R : Task -> bool) l : (forall t, P t = true -> R t = true) -> (count P l <= count R l)%nat.
Proof.
  intros Hi. induction l as [|t l IH]; [done|]. rewrite !count_cons. specialize (Hi t).
  destruct (P t); [rewrite Hi by done|]; simpl; lia.
Qed.

Lemma address_front_le l : (count address_front l <= count address_thread l)%nat.
Proof. apply count_le. by intros []. Qed.

Lemma invoice_front_le l : (count invoice_front l <= count invoice_thread l)%nat.
Proof. apply count_le. by intros []. Qed.

Lemma count_reduces P rs :
  (forall u, P (T_reduce u false) = false) -> count P (map (fun r => T_reduce (uuid r) false) rs) = 0%nat.
Proof. intros Hp. induction rs as [|r rs IH]; [done|]. simpl. by rewrite count_cons, Hp, IH. Qed.

#[local] Opaque count.

(** Arithmetic on the threads of [about s t] and of its successor. *)
Ltac thread_facts H s :=
  let H1 := fresh in let H2 := fresh in let H3 := fresh in let H4 := fresh in let H5 := fresh in
  destruct H as [H1 H2 H3 H4 H5]; simpl in H1, H2, H3, H4, H5;
  repeat (rewrite count_cons in *); simpl in H1, H2, H3, H4;
  pose proof (address_front_le (tasks s)); pose proof (invoice_front_le (tasks s));
  pose proof (Nat.b2n_le_1 (getting_address s)); pose proof (Nat.b2n_le_1 (getting_invoice s)).
Ltac thread_goals :=
  split; simpl; rewrite ?count_app, ?count_cons, ?count_nil, ?length_app, ?count_reduces by done; simpl in *; try lia.

Lemma loop_address_threads s s' o :
  threads_ok (about s T_loop_address) -> loop_needs_address s = Some (s', o) -> threads_ok s'.
Proof.
  intros H E. thread_facts H s. unfold loop_needs_address in E.
  destruct (needs_address s) eqn:En; injection E as <- <-; thread_goals. rewrite En. simpl. lia.
Qed.

Lemma loop_invoice_threads s s' o :
  threads_ok (about s T_loop_invoice) -> loop_needs_invoice s = Some (s', o) -> threads_ok s'.
Proof.
  intros H E. thread_facts H s. unfold loop_needs_invoice in E.
  destruct (needs_invoice s) eqn:En; injection E as <- <-; thread_goals.
Qed.

Lemma loop_quotations_threads s s' o :
  threads_ok (about s T_loop_quotations) -> loop_quotations s = Some (s', o) -> threads_ok s'.
Proof.
  intros H E. thread_facts H s. unfold loop_quotations in E. destruct (last (quotations s)) eqn:El.
  - injection E as <- <-. thread_goals. destruct (quotations s); [done|]. simpl. lia.
  - destruct (needs_invoice s) as [|u q]; [done|]. injection E as <- <-. thread_goals.
Qed.

Lemma load_address_threads s t u a :
  threads_ok (about s t) -> address_front t = true -> threads_ok (load_address s u a).
Proof.
  intros H Ht. unfold load_address. simpl. thread_facts H s. assert (address_thread t = true) as Ht' by (by destruct t).
  assert (invoice_thread t = false /\ invoice_front t = false) as [Hi Hf] by (by destruct t).
  rewrite Ht, Ht', Hi, Hf in *. simpl in *.
  destruct (needs_invoice s), (needs_address s); thread_goals.
Qed.

Lemma reduce_threads s u b d :
  threads_ok (about s (T_reduce u b)) ->
  threads_ok (let s' := (swap_reduce_or_fail s u d).1 in if b then spawn s' [T_loop_invoice] else s').
Proof.
  intros H. thread_facts H s. unfold swap_reduce_or_fail.
  destruct (match find_row u (rows (db s)) with Some r => _ | None => _ end) as [a m].
  destruct b, (a =? m); try (unfold fail_swap; destruct (default [] _)); thread_goals.
Qed.

Lemma task_threads s t i s' o :
  threads_ok (about s t) -> input_ok s t i = true -> run_task s t i = Some (s', o) -> threads_ok s'.
Proof.
  intros H Hi E. destruct t; simpl in E.
  - injection E as <- <-. thread_facts H s. thread_goals. unfold load_queue. destruct (needs_address s); simpl in *; lia.
  - injection E as <- <-. thread_facts H s. thread_goals. unfold load_queue. destruct (needs_invoice s); simpl in *; lia.
  - injection E as <- <-. thread_facts H s. thread_goals.
  - unfold process_needs_address in E. destruct (getting_address s) eqn:G.
    + injection E as <- <-. thread_facts H s. thread_goals.
    + refine (loop_address_threads _ _ _ _ E). thread_facts H s. rewrite G in *. thread_goals.
  - unfold process_needs_invoice in E. destruct (getting_invoice s) eqn:G.
    + injection E as <- <-. thread_facts H s. thread_goals.
    + refine (loop_invoice_threads _ _ _ _ E). thread_facts H s. rewrite G in *. thread_goals.
  - unfold address_tx in E. destruct (head (needs_address s)) as [u|]; [|done]. cbn [mbind option_bind] in E.
    destruct (take_cached (addrcache (db s))) as [[a c]|]; injection E as <- <-.
    + eapply load_address_threads; [|exact (eq_refl : address_front T_address_tx = true)]. destruct H. by split.
    + thread_facts H s. thread_goals.
  - unfold newaddr_tx in E. destruct (head (needs_address s)) as [u|]; [|done]. injection E as <- <-.
    by eapply load_address_threads; [exact H|].
  - by eapply loop_address_threads.
  - unfold invoice_tx in E. destruct (head (needs_invoice s)) as [u|]; [|done]. injection E as <- <-.
    thread_facts H s. destruct (find_row u (rows (db s))); thread_goals.
  - unfold quoted in E. refine (loop_quotations_threads _ _ _ _ E). thread_facts H s. thread_goals.
  - by eapply loop_quotations_threads.
  - unfold create_tx in E. destruct (head (needs_invoice s)) as [u|]; [|done]. cbn [mbind option_bind] in E.
    thread_facts H s. destruct (find_row u (rows (db s))); injection E as <- <-; thread_goals.
  - unfold pop_invoice in E. destruct (needs_invoice s) as [|u q] eqn:En; [done|].
    refine (loop_invoice_threads _ _ _ _ E). thread_facts H s. thread_goals.
  - by eapply loop_invoice_threads.
  - pose proof (reduce_threads s u then_loop (draw i) H) as R.
    destruct (swap_reduce_or_fail s u (draw i)) as [s1 o1]. by injection E as <- <-.
  - unfold pay_failed in E. thread_facts H s. destruct (last _); injection E as <- <-; thread_goals.
  - unfold pay_success in E. thread_facts H s. destruct (lookup hash _) as [[rc nm]|]; injection E as <- <-; thread_goals.
  - unfold onchain_tx in E. thread_facts H s. destruct (onchain_funds s) as [|[a amt] funds].
    + injection E as <- <-. thread_goals.
    + destruct (last _); injection E as <- <-; thread_goals.
  - unfold funds_seen in E. thread_facts H s. destruct (lookup hash _); injection E as <- <-; thread_goals.
  - unfold block_tx in E. thread_facts H s. injection E as <- <-. thread_goals.
Qed.

Lemma event_threads h s e s' o :
  threads_ok s -> event_ok h s e = true -> handle s e = Some (s', o) -> threads_ok s'.
Proof.
  intros H He E. destruct e; simpl in E, He.
  - unfold on_swap_request in E. thread_facts H s. destruct (find_row u (rows (db s))); injection E as <- <-; thread_goals.
  - injection E as <- <-. thread_facts H s. thread_goals.
  - unfold on_response_newaddr in E. apply andb_prop in He as [Hw _]. thread_facts H s. rewrite Hw in *.
    destruct (getting_address s); [|done]. injection E as <- <-. thread_goals.
  - unfold on_swap_creation in E. thread_facts H s. rewrite He in *. destruct (last (quotations s)) as [q|]; [|done].
    cbn [mbind option_bind] in E. destruct success; injection E as <- <-; thread_goals.
  - thread_facts H s. destruct st; injection E as <- <-; thread_goals.
  - unfold on_listfunds_result in E. thread_facts H s. case_bool_decide; injection E as <- <-; thread_goals.
  - injection E as <- <-. thread_facts H s. thread_goals.
  - injection E as <- <-. by split.
Qed.

(** *** No assertion fails, no empty queue is read *)

Lemma head_Some {A} (l : list A) : (0 < length l)%nat -> is_Some (head l).
Proof. destruct l; simpl; [lia|by eexists]. Qed.

Lemma loop_quotations_runs s : (0 < length (needs_invoice s))%nat -> is_Some (loop_quotations s).
Proof.
  intros Hq%head_Some. unfold loop_quotations. destruct (last (quotations s)); [by eexists|].
  destruct Hq as [u ->]. by eexists.
Qed.

Lemma loop_needs_run s : is_Some (loop_needs_address s) /\ is_Some (loop_needs_invoice s).
Proof. unfold loop_needs_address, loop_needs_invoice. by destruct (needs_address s), (needs_invoice s). Qed.

Lemma task_runs s t i : threads_ok (about s t) -> is_Some (run_task s t i).
Proof.
  intros H. pose proof (th_address_front _ H) as Ha. pose proof (th_invoice_front _ H) as Hi.
  simpl in Ha, Hi. rewrite count_cons in Ha, Hi.
  pose proof (fun s => proj1 (loop_needs_run s)) as La. pose proof (fun s => proj2 (loop_needs_run s)) as Li.
  destruct t; simpl in *; try (by eexists); try (apply La); try (apply Li);
    try (apply loop_quotations_runs; simpl; lia).
  - unfold process_needs_address. destruct (getting_address s); [by eexists|apply La].
  - unfold process_needs_invoice. destruct (getting_invoice s); [by eexists|apply Li].
  - unfold address_tx. destruct (head_Some _ (Ha ltac:(lia))) as [u ->]. cbn [mbind option_bind].
    destruct (take_cached _) as [[a c]|]; by eexists.
  - unfold newaddr_tx. destruct (head_Some _ (Ha ltac:(lia))) as [u ->]. by eexists.
  - unfold invoice_tx. destruct (head_Some _ (Hi ltac:(lia))) as [u ->]. by eexists.
  - unfold create_tx. destruct (head_Some _ (Hi ltac:(lia))) as [u ->]. cbn [mbind option_bind].
    destruct (find_row _ _); by eexists.
  - unfold pop_invoice. specialize (Hi ltac:(lia)). destruct (needs_invoice s); [simpl in Hi; lia|apply Li].
  - destruct (swap_reduce_or_fail s u (draw i)). by eexists.
  - unfold pay_failed. destruct (last _); by eexists.
  - unfold pay_success. destruct (lookup _ _) as [[]|]; by eexists.
  - unfold onchain_tx. destruct (onchain_funds s) as [|[]]; [by eexists|]. destruct (last _); by eexists.
  - unfold funds_seen. destruct (lookup _ _); by eexists.
Qed.

Lemma event_runs h s e : threads_ok s -> event_ok h s e = true -> is_Some (handle s e).
Proof.
  intros H He. destruct e; simpl in *; try (by eexists).
  - unfold on_swap_request. destruct (find_row _ _); by eexists.
  - apply andb_prop in He as [Hw _]. unfold on_response_newaddr. pose proof (th_address _ H) as Ha. rewrite Hw in Ha.
    destruct (getting_address s); [by eexists|simpl in Ha; lia].
  - unfold on_swap_creation. pose proof (th_quotations _ H) as Hq. rewrite He in Hq. simpl in Hq.
    destruct (last (quotations s)) as [q|] eqn:El; [|by apply last_None in El; rewrite El in Hq; simpl in Hq; lia].
    cbn [mbind option_bind]. destruct success; by eexists.
  - destruct st; by eexists.
Qed.

(** *** Responses *)

(** Tasks add no row, and answer for a swap with their row gone. *)
Definition answers (s : Manager) (t : Task) (s' : Manager) (o : list Out) : Prop :=
  (forall u, u ∈ map uuid (rows (db s')) -> u ∈ map uuid (rows (db s)))
  /\ forall u b a, Response u b a ∈ o ->
       o = [Response u b a] /\ u ∉ map uuid (rows (db s'))
       /\ if b then u ∈ map uuid (rows (db s)) else exists c, t = T_reduce u c.

Definition is_response (o : Out) : bool := match o with Response _ _ _ => true | _ => false end.

Lemma answers_none s t s' o :
  map uuid (rows (db s')) = map uuid (rows (db s)) -> existsb is_response o = false -> answers s t s' o.
Proof.
  intros Er Ho. split; [by rewrite Er|]. intros u b a Hin. exfalso.
  assert (existsb is_response o = true) by (apply existsb_exists; eexists; by split; [apply list_elem_of_In|]).
  congruence.
Qed.

Lemma delete_row_gone u d : u ∉ map uuid (rows (delete_row u d)).
Proof. simpl. intros (r & -> & Hr)%list_elem_of_fmap. by apply list_elem_of_filter in Hr as [? _]. Qed.

Lemma delete_row_uuids u d v : v ∈ map uuid (rows (delete_row u d)) -> v ∈ map uuid (rows d).
Proof.
  simpl. intros (r & -> & Hr)%list_elem_of_fmap. apply list_elem_of_filter in Hr as [_ Hr].
  by apply list_elem_of_fmap_2.
Qed.

Lemma no_listpays l : existsb is_response (map RequestListpays l) = false.
Proof. by induction l. Qed.

Lemma reduce_answers s u b d :
  answers s (T_reduce u b) (swap_reduce_or_fail s u d).1 (swap_reduce_or_fail s u d).2.
Proof.
  unfold swap_reduce_or_fail.
  destruct (match find_row u (rows (db s)) with Some r => _ | None => _ end) as [a m]. destruct (a =? m).
  - unfold fail_swap. set (d' := match default [] _ with [] => _ | _ => _ end).
    assert (rows d' = rows (db s)) as Ed by (unfold d'; by destruct (default [] _)).
    cbn [fst snd]. split; cbn [db with_db].
    + intros v Hv%delete_row_uuids. by rewrite <- Ed.
    + intros v c a' [= -> -> ->]%list_elem_of_singleton. split; [done|split; [apply delete_row_gone|by eexists]].
  - apply answers_none; [|done]. simpl. by rewrite update_row_uuids.
Qed.

Lemma task_answers s t i s' o : run_task s t i = Some (s', o) -> answers s t s' o.
Proof.
  intros E. destruct t; simpl in E.
  - injection E as <- <-. by apply answers_none.
  - injection E as <- <-. by apply answers_none.
  - injection E as <- <-. apply answers_none; [done|apply no_listpays].
  - unfold process_needs_address, loop_needs_address in E. simpl in E.
    destruct (getting_address s), (needs_address s); injection E as <- <-; by apply answers_none.
  - unfold process_needs_invoice, loop_needs_invoice in E. simpl in E.
    destruct (getting_invoice s), (needs_invoice s); injection E as <- <-; by apply answers_none.
  - unfold address_tx in E. destruct (head (needs_address s)) as [u|]; [|done]. cbn [mbind option_bind] in E.
    destruct (take_cached (addrcache (db s))) as [[a c]|]; injection E as <- <-; apply answers_none; try done.
    apply update_row_uuids. intros r. unfold give_address. by case_decide.
  - unfold newaddr_tx in E. destruct (head (needs_address s)) as [u|]; [|done]. injection E as <- <-.
    apply answers_none; [|done]. apply update_row_uuids. intros r. unfold give_address. by case_decide.
  - unfold loop_needs_address in E. destruct (needs_address s); injection E as <- <-; by apply answers_none.
  - unfold invoice_tx in E. destruct (head (needs_invoice s)) as [u|]; [|done]. injection E as <- <-.
    destruct (find_row u (rows (db s))); by apply answers_none.
  - unfold quoted, loop_quotations in E. destruct (last _); [injection E as <- <-; by apply answers_none|].
    destruct (head _) as [u|]; [|done]. injection E as <- <-. by apply answers_none.
  - unfold loop_quotations in E. destruct (last _); [injection E as <- <-; by apply answers_none|].
    destruct (head _) as [u|]; [|done]. injection E as <- <-. by apply answers_none.
  - unfold create_tx in E. destruct (head (needs_invoice s)) as [u|]; [|done]. cbn [mbind option_bind] in E.
    destruct (find_row u (rows (db s))); injection E as <- <-; apply answers_none; try done. by apply update_row_uuids.
  - unfold pop_invoice, loop_needs_invoice in E. destruct (needs_invoice s) as [|u [|]]; [done|..];
      injection E as <- <-; by apply answers_none.
  - unfold loop_needs_invoice in E. destruct (needs_invoice s); injection E as <- <-; by apply answers_none.
  - pose proof (reduce_answers s u then_loop (draw i)) as R.
    destruct (swap_reduce_or_fail s u (draw i)) as [s1 o1]. injection E as <- <-. by destruct then_loop.
  - unfold pay_failed in E. destruct (last _); injection E as <- <-; by apply answers_none.
  - unfold pay_success in E. destruct (lookup hash _) as [[rc nm]|]; injection E as <- <-; by apply answers_none.
  - unfold onchain_tx in E. destruct (onchain_funds s) as [|[a amt] funds].
    { injection E as <- <-. by apply answers_none. }
    destruct (last _) as [r|] eqn:El; injection E as <- <-; [|by apply answers_none].
    apply last_Some_elem_of, list_elem_of_filter in El as [_ Hr]. split; cbn [db spawn with_tasks with_db].
    + intros v. apply (delete_row_uuids _ (db s)).
    + intros v c a' [= -> -> ->]%list_elem_of_singleton. split; [done|split; [apply delete_row_gone|by apply list_elem_of_fmap_2]].
  - unfold funds_seen in E. destruct (lookup hash _); injection E as <- <-; by apply answers_none.
  - injection E as <- <-. by apply answers_none.
Qed.

Lemma label_out x o : L_out x ∈ map L_out o -> x ∈ o.
Proof. intros Hin. apply list_elem_of_fmap in Hin as (y & [= ->] & Hy). done. Qed.

Lemma task_responses h s t i s' o :
  tables_ok h (about s t) -> queues_ok h (about s t) -> responses_ok h (about s t) ->
  run_task s t i = Some (s', o) -> responses_ok (h ++ map L_out o) s'.
Proof.
  intros T Q R E. apply task_answers in E as [Hs Ho]. intros u b a [Hin|Hin%label_out]%elem_of_app.
  - destruct (R u b a Hin) as [H1 H2]. split; [by apply requested_app|]. intros Hu. by apply H2, Hs.
  - destruct (Ho u b a Hin) as (_ & H1 & H2). split; [|done]. apply requested_app. destruct b.
    + apply list_elem_of_fmap in H2 as (r & -> & Hr). by apply (row_requested h (about s t)).
    + destruct H2 as [c ->]. apply (qo_reduce _ _ Q u c). left.
Qed.

Lemma event_quiet s e s' o : handle s e = Some (s', o) -> o = [].
Proof.
  intros E. destruct e; simpl in E;
    unfold on_swap_request, on_response_newaddr, on_swap_creation, on_listfunds_result in E;
    try (destruct st); try (destruct (find_row _ _)); try (destruct (getting_address s));
    try (destruct (last (quotations s)); cbn [mbind option_bind] in E); try (destruct success);
    simpl in E; try discriminate E; by injection E as <- <-.
Qed.

Lemma event_responses h s e s' o :
  responses_ok h s -> event_ok h s e = true -> handle s e = Some (s', o) ->
  responses_ok (h ++ L_event e :: map L_out o) s'.
Proof.
  intros R He E.
  assert (o = []) as -> by (by eapply event_quiet).
  intros u b a [Hin|Hin]%elem_of_app; [|by apply list_elem_of_singleton in Hin].
  destruct (R u b a Hin) as [H1 H2]. split; [by apply requested_app|].
  intros Hu. destruct e; simpl in E, He; try (destruct st); try (by injection E as <-).
  - unfold on_swap_request in E. destruct (find_row _ _); injection E as <-; [done|]. simpl in Hu.
    rewrite map_app in Hu. apply elem_of_app in Hu as [Hu|Hu%list_elem_of_singleton]; [done|]. simpl in Hu. subst u0.
    by rewrite H1 in He.
  - unfold on_response_newaddr in E. destruct (getting_address s); [|done]. by injection E as <-.
  - unfold on_swap_creation in E. destruct (last _); [|done]. cbn [mbind option_bind] in E.
    destruct success; by injection E as <-.
  - unfold on_listfunds_result in E. case_bool_decide; by injection E as <-.
Qed.

(** *** Every reachable state *)

Record inv (h : list Label) (s : Manager) : Prop := {
  inv_tables : tables_ok h s;
  inv_queues : queues_ok h s;
  inv_threads : threads_ok s;
  inv_responses : responses_ok h s
}.

Lemma count_perm P l k : l ≡ₚ k -> count P l = count P k.
Proof. intros E. #[local] Transparent count. unfold count. by rewrite E. Qed.
#[local] Opaque count.

Lemma inv_perm h s ts : tasks s ≡ₚ ts -> inv h s -> inv h (with_tasks s ts).
Proof.
  intros E [[T1 T2 T3 T4] [Q1 Q2 Q3] [H1 H2 H3 H4 H5] R].
  assert (addresses s ≡ₚ addresses (with_tasks s ts)) as Ea by (unfold addresses; simpl; by rewrite E).
  split; [| | |done].
  - split; [done..| |]; [by rewrite <- Ea|]. intros a. rewrite <- Ea. apply T4.
  - split; [done..|]. simpl. intros u b Hu. apply (Q3 u b). by rewrite E.
  - split; simpl; rewrite <- ?(count_perm _ _ _ E); done.
Qed.

Lemma inv_about h s idx t :
  inv h s -> tasks s !! idx = Some t -> inv h (about (with_tasks s (delete idx (tasks s))) t).
Proof. intros I Ht. exact (inv_perm h s _ (delete_Permutation _ _ _ Ht) I). Qed.

Lemma inv_move h s m h' s' :
  inv h s -> allowed h s m = true -> do_move h s m = Some (h', s') -> inv h' s'.
Proof.
  intros I Hm E. destruct m as [idx i|e]; simpl in Hm, E.
  - destruct (tasks s !! idx) as [t|] eqn:Ht; [|done]. cbn [mbind option_bind] in E.
    destruct (inv_about _ _ _ _ I Ht) as [T Q H R].
    destruct (run_task (with_tasks s (delete idx (tasks s))) t i) as [[s1 o]|] eqn:Er; [|done].
    injection E as <- <-.
    assert (input_ok (with_tasks s (delete idx (tasks s))) t i = true) as Hi by (by destruct t).
    split; [by eapply task_tables|by eapply task_queues|by eapply task_threads|by eapply task_responses].
  - destruct I as [T Q H R]. destruct (handle s e) as [[s1 o]|] eqn:Er; [|done]. injection E as <- <-.
    split; [by eapply event_tables|by eapply event_queues|by eapply event_threads|by eapply event_responses].
Qed.

Lemma inv_runs h s m : inv h s -> allowed h s m = true -> is_Some (do_move h s m).
Proof.
  intros I Hm. destruct m as [idx i|e]; simpl in *.
  - destruct (tasks s !! idx) as [t|] eqn:Ht; [|done]. cbn [mbind option_bind].
    destruct (inv_about _ _ _ _ I Ht) as [_ _ H _]. destruct (task_runs _ t i H) as [[s1 o] ->]. by eexists.
  - destruct (event_runs h s e (inv_threads _ _ I) Hm) as [[s1 o] ->]. by eexists.
Qed.

Lemma inv_init : inv [] (on_init empty_db).
Proof.
  split.
  - split; [constructor|done|constructor|by intros a ?%elem_of_nil].
  - split; [by intros u ?%elem_of_nil..|]. intros u b Hu. not_new Hu.
  - by split.
  - by intros u b a ?%elem_of_nil.
Qed.

Lemma reach_inv h s : reach h s -> inv h s.
Proof. induction 1; [apply inv_init|by eapply inv_move]. Qed.

Lemma reach_success_first h s u a h1 h2 :
  reach h s -> h = h1 ++ L_out (Response u true a) :: h2 -> forall b c, L_out (Response u b c) ∉ h1.
Proof.
  intros Hr. revert h1 h2. induction Hr as [|h s m h' s' Hr IH Hm E]; intros h1 h2 Eh b c Hin.
  { by apply app_cons_not_nil in Eh. }
  pose proof (reach_inv _ _ Hr) as I. destruct m as [idx i|e]; simpl in E.
  - destruct (tasks s !! idx) as [t|] eqn:Ht; [|done]. cbn [mbind option_bind] in E.
    destruct (run_task _ t i) as [[s1 o]|] eqn:Er; [|done]. injection E as <- <-.
    apply task_answers in Er as [_ Ho]. apply app_eq_app in Eh as [k [[Eh Ek]|[Eh Ek]]].
    + destruct k as [|x k].
      * rewrite app_nil_r in Eh. subst h1. simpl in Ek.
        assert (Response u true a ∈ o) as Hu by (apply label_out; rewrite <- Ek; left).
        destruct (Ho _ _ _ Hu) as (_ & _ & H2). by apply (inv_responses _ _ I _ _ _ Hin).
      * injection Ek as <- ->. by eapply IH.
    + assert (Response u true a ∈ o) as Hu by (apply label_out; rewrite Ek; apply elem_of_app; right; left).
      destruct (Ho _ _ _ Hu) as (-> & _ & H2). simpl in Ek. destruct k as [|x [|]]; [|done..].
      rewrite app_nil_r in Eh. subst h1. by apply (inv_responses _ _ I _ _ _ Hin).
  - destruct (handle s e) as [[s1 o]|] eqn:Er; [|done]. injection E as <- <-.
    rewrite (event_quiet _ _ _ _ Er) in Eh. simpl in Eh.
    destruct h2 as [|x h2 _] using rev_ind.
    + apply app_inj_tail in Eh as [_ ?]. done.
    + rewrite app_comm_cons, app_assoc in Eh. apply app_inj_tail in Eh as [-> _]. by eapply IH.
Qed.

(** *** Runs *)

(** Moves from the start of an empty database: the history and the state. *)
Fixpoint play (h : list Label) (s : Manager) (ms : list Move) : option (list Label * Manager) :=
  match ms with
  | [] => Some (h, s)
  | m :: ms =>
      if allowed h s m then '(h', s') ← do_move h s m; play h' s' ms else None
  end.

Lemma play_reach h s ms h' s' : reach h s -> play h s ms = Some (h', s') -> reach h' s'.
Proof.
  revert h s. induction ms as [|m ms IH]; intros h s Hr E; simpl in E; [by injection E as <- <-|].
  destruct (allowed h s m) eqn:Ha; [|done]. destruct (do_move h s m) as [[h1 s1]|] eqn:Em; [|done].
  eapply IH; [|exact E]. by eapply reach_move.
Qed.

Definition run_at (idx : nat) : Move := Run idx {| quotes := []; scores := []; draw := 0 |}.
Definition quote_at (idx : nat) : Move :=
  Run idx {| quotes := [{| score := 5; q_provider := 9; provider_name := lit "P" |}]; scores := []; draw := 0 |}.
Definition score_at (idx : nat) : Move := Run idx {| quotes := []; scores := [3]; draw := 0 |}.
Definition draw_at (idx : nat) (d : Amount) : Move := Run idx {| quotes := []; scores := []; draw := d |}.

(** Swap 1, of 100 to 1000 msat, gets address [lit "a"] and pays invoice
    [lit "i1"] of hash 7, which times out at height 50. *)
Definition pay_swap : list Move :=
  [Happen (E_request 1 100 1000); run_at 1; run_at 1; Happen (E_newaddr (lit "a")); run_at 1; run_at 1;
   quote_at 2; score_at 2; Happen (E_creation true (lit "i1") 7 50); run_at 2; run_at 2].

(** Then it times out, but the funds are seen before it is reduced. *)
Definition late_failure : list Move :=
  pay_swap ++ [Happen (E_block 50); run_at 2; Happen (E_listfunds [(lit "a", 900)]); run_at 3; run_at 2].

(** Or its payment is seen to fail while it times out, and it is reduced twice. *)
Definition queued_twice : list Move :=
  pay_swap ++
  [Happen (E_listpays PayFailed 7 0); Happen (E_block 50); run_at 2; run_at 2; draw_at 2 600; draw_at 2 300;
   run_at 2; quote_at 3; score_at 3; Happen (E_creation true (lit "i2") 8 60); run_at 3; run_at 3].
Definition double_payment : list Move :=
  queued_twice ++ [quote_at 3; score_at 3; Happen (E_creation true (lit "i3") 9 70); run_at 3].

(** Or, queued twice, its funds are seen before the second invoice is there. *)
Definition lost_thread : list Move :=
  queued_twice ++
  [Happen (E_listfunds [(lit "a", 900)]); run_at 4; quote_at 3; score_at 5;
   Happen (E_creation true (lit "i3") 9 70); run_at 5].

(** Their outcomes. *)
Definition outcome (ms : list Move) : list Label * Manager :=
  default ([], on_init empty_db) (play [] (on_init empty_db) ms).
Definition paid : list Label * Manager := Eval vm_compute in outcome pay_swap.
Definition failed_late : list Label * Manager := Eval vm_compute in outcome late_failure.
Definition paid_twice : list Label * Manager := Eval vm_compute in outcome double_payment.
Definition thread_lost : list Label * Manager := Eval vm_compute in outcome lost_thread.

Lemma runs_reach :
  reach paid.1 paid.2 /\ reach failed_late.1 failed_late.2 /\ reach paid_twice.1 paid_twice.2
  /\ reach thread_lost.1 thread_lost.2.
Proof.
  split_and!.
  - apply (play_reach _ _ pay_swap _ _ reach_init). vm_compute. reflexivity.
  - apply (play_reach _ _ late_failure _ _ reach_init). vm_compute. reflexivity.
  - apply (play_reach _ _ double_payment _ _ reach_init). vm_compute. reflexivity.
  - apply (play_reach _ _ lost_thread _ _ reach_init). vm_compute. reflexivity.
Qed.

(** ** Properties *)

(** C9: in every reachable state of the swap manager, whatever the order in which
    its threads run and with restarts in between, the rows of the table have
    different uuids, each has the columns of its state and an amount between its
    minimum and the amount that was requested; an address belongs to one swap or is
    cached or on its way to a swap, once, and was given by the wallet; at most one
    thread gets addresses and at most one invoices. *)
Theorem swap_table_invariant h s : reach h s -> tables_ok h s /\ threads_ok s.
Proof. intros Hr. destruct (reach_inv _ _ Hr). done. Qed.

(** In a reachable state every waiting thread can go on, and every message that
    the other modules may send can be handled: no assertion fails, and no front of
    an empty queue is read. *)
Theorem swap_moves_defined h s m : reach h s -> allowed h s m = true -> is_Some (do_move h s m).
Proof. intros Hr. by apply inv_runs, reach_inv. Qed.

(** A successful response is the first response of its swap: no swap is told to
    have succeeded twice, or after it failed. *)
Theorem swap_success_first h s u a h1 h2 :
  reach h s -> h = h1 ++ L_out (Response u true a) :: h2 -> forall b c, L_out (Response u b c) ∉ h1.
Proof. apply reach_success_first. Qed.

Lemma swap_table_invariant_witness :
  map state (rows (db paid.2)) = [AwaitingResult] /\ tables_ok paid.1 paid.2 /\ threads_ok paid.2.
Proof. split; [reflexivity|]. apply (swap_table_invariant paid.1 paid.2). apply runs_reach. Defined.

Lemma swap_moves_defined_witness : is_Some (do_move paid.1 paid.2 (run_at 1)).
Proof. apply (swap_moves_defined paid.1 paid.2); [apply runs_reach|reflexivity]. Defined.

Lemma swap_success_first_witness : L_out (Response 1 false 0) ∉ take 9 failed_late.1.
Proof.
  apply (swap_success_first failed_late.1 failed_late.2 1 900 (take 9 failed_late.1) [L_out (Response 1 false 0)]);
    [apply runs_reach|reflexivity].
Defined.

(** A failure can be told after the success of the same swap: the swap is found
    to have timed out, its funds are seen before it is reduced, and its missing row
    then reads as an amount at its minimum. *)
Theorem swap_failure_after_success :
  exists h s u a, reach (h ++ [L_out (Response u true a); L_out (Response u false 0)]) s.
Proof.
  exists (take 9 failed_late.1), failed_late.2, 1, 900. exact (proj1 (proj2 runs_reach)).
Qed.

(** A payment that failed, or a block that can time a swap out. *)
Definition gives_up (l : Label) : bool :=
  match l with L_event (E_listpays PayFailed _ _) | L_event (E_block _) => true | _ => false end.

(** A swap can be paid twice: where its payment is seen to fail while it times
    out it is reduced twice, is queued twice for an invoice, and both invoices are
    paid, with no failure or block in between. *)
Theorem swap_double_payment :
  exists h1 h2 s u i1 i2, i1 <> i2 /\ existsb gives_up h2 = false
    /\ reach (h1 ++ L_out (Pay u i1) :: h2 ++ [L_out (Pay u i2)]) s.
Proof.
  exists (take 12 paid_twice.1), (take 3 (drop 13 paid_twice.1)), paid_twice.2, 1, (lit "i2"), (lit "i3").
  split; [discriminate|]. split; [reflexivity|exact (proj1 (proj2 (proj2 runs_reach)))].
Qed.

(** The invoice loop can die for good: a swap that is queued twice succeeds before
    its second turn, the insertion of the provider's row then fails, and the thread
    ends with [getting_invoice] set and swaps in the queue. *)
Theorem swap_invoice_thread_lost :
  exists h s, reach h s /\ getting_invoice s = true /\ needs_invoice s <> []
    /\ count invoice_thread (tasks s) = 0%nat /\ want_creation s = false.
Proof.
  exists thread_lost.1, thread_lost.2. split; [exact (proj2 (proj2 (proj2 runs_reach)))|].
  split; [reflexivity|]. split; [discriminate|]. split; reflexivity.
Qed.

End Swap.
