(* ===== verification/Reply.v ===== *)
(** * Reading replies and notifications of the node

    The modules of src/Boss/Mod read JSON values with [Jsmn::Object] and turn them to
    amounts, ids and flags.  A read gives a value or fails: [Logic] stands for the
    exceptions under [std::logic_error] ([Jsmn::TypeError] and [std::invalid_argument]
    of src/Ln), [Runtime] for those under [std::runtime_error], and [Undefined] for
    undefined behaviour.  Which of the first two is caught differs among the modules.

    The values are the JSON trees that [Jsmn::Object] refines; the type tests are
    shown to agree with those of the token array.  The file ends with
    src/Boss/Mod/ChannelBalance.cpp, which several modules share. *)

From stdpp Require Import base list numbers strings.
From S2P Require Import Prelude.
From S2P Require Import Double.
From S2P Require Import Amount.
From S2P Require Import LnIds.
From S2P Require Import Jsmn.
Import Jsmn.

#[local] Open Scope Z_scope.

Module Reply.

(** ** Failures *)

Inductive failure := Logic | Runtime | Undefined.

#[global] Instance failure_eq_dec : EqDecision failure.
Proof. solve_decision. Defined.

Definition outcome (A : Type) : Type := A + failure.

Definition obind {A B} (m : outcome A) (f : A -> outcome B) : outcome B :=
  match m with inl a => f a | inr e => inr e end.

Declare Scope reply_scope.
Delimit Scope reply_scope with reply.
Notation "'let*' x := m 'in' k" := (obind m (fun x => k))
  (at level 10, x pattern, m at level 100, k at level 200) : reply_scope.
#[local] Open Scope reply_scope.

Definition lift {A} (r : res A) : outcome A :=
  match r with
  | Ok a => inl a
  | Throw TypeError => inr Logic
  | Throw HexParseFailure => inr Runtime
  | Undef => inr Undefined
  end.

Definition defined {A} (o : option A) : outcome A :=
  match o with Some a => inl a | None => inr Undefined end.

(** A constructor that throws [e] where it gives no value. *)
Definition or_throw {A} (e : failure) (o : option A) : outcome A :=
  match o with Some a => inl a | None => inr e end.

(** ** Type tests *)

Definition jis_object (o : option json) : bool := match o with Some (JObj _) => true | _ => false end.
Definition jis_array (o : option json) : bool := match o with Some (JArr _) => true | _ => false end.
Definition jis_string (o : option json) : bool := match o with Some (JStr _) => true | _ => false end.

Definition starts_with (cs : list Z) (t : bytes) : bool :=
  match t with c :: _ => existsb (Z.eqb c) cs | [] => false end.

Definition jis_null (o : option json) : bool :=
  match o with None => true | Some (JPrim t) => starts_with [chr "n"] t | _ => false end.
Definition jis_boolean (o : option json) : bool :=
  match o with Some (JPrim t) => starts_with [chr "f"; chr "t"] t | _ => false end.
Definition jis_number (o : option json) : bool :=
  match o with Some (JPrim t) => negb (starts_with [chr "t"; chr "f"; chr "n"] t) | _ => false end.

(** ** Reading *)

Definition get (o : option json) (k : string) : outcome (option json) := lift (jindex_key o (lit k)).
Definition has (o : option json) (k : string) : outcome bool := lift (jhas o (lit k)).
Definition text (o : option json) : outcome bytes := lift (jto_string o).
Definition number (o : option json) : outcome double := lift (jto_number o).
Definition truth (o : option json) : outcome bool := lift (jto_bool o).

(** All of the keys are there, tested in order. *)
Fixpoint has_all (o : option json) (ks : list string) : outcome bool :=
  match ks with
  | [] => inl true
  | k :: ks => let* b := has o k in if (b : bool) then has_all o ks else inl false
  end.

Definition amount_object (o : option json) : outcome Amount :=
  if jis_number o then let* d := number o in defined (d_to_u64 d)
  else if jis_string o then let* s := text o in or_throw Logic (Amount.of_string s)
  else inr Logic.

Definition amount_valid_object (o : option json) : outcome bool :=
  if jis_number o then inl true
  else if jis_string o then let* s := text o in inl (Amount.valid_string s)
  else inl false.

Definition scid_of (s : bytes) : outcome Z := or_throw Logic (Scid.of_string s).
Definition nodeid_of (s : bytes) : outcome NodeId.t := or_throw Runtime (NodeId.of_string s).

(** [connected.is_boolean() && bool(connected)] *)
Definition flag (o : option json) : outcome bool :=
  if jis_boolean o then truth o else inl false.

Lemma amount_object_range o a : amount_object o = inl a -> is_u64 a.
Proof.
  unfold amount_object. destruct (jis_number o).
  - destruct (number o) as [d|]; [|done]. cbn [obind]. unfold defined, d_to_u64. destruct d as [q| |]; [|done..].
    destruct (_ && _) eqn:E; [|done]. intros [= <-]. to_prop. ulia.
  - destruct (jis_string o); [|done]. destruct (text o) as [s|]; [|done]. cbn [obind].
    unfold Amount.of_string. destruct (Amount.valid_string s) eqn:V; [|done]. intros [= <-].
    unfold Amount.valid_string in V. destruct (length s <? 5)%nat; [done|].
    destruct (negb (bool_decide _)); [done|]. destruct (forallb is_digit (take (length s - 4) s)) eqn:F; [|done].
    assert (0 <= digits_value (take (length s - 4) s)).
    { apply digits_value_bounds, Forall_forall. rewrite forallb_forall in F. intros c Hc.
      by apply F, list_elem_of_In. }
    unfold read_u64. ulia.
Qed.

(** ** The tests on the token array *)

(** Tokens start inside of the text. *)
Definition starts_ok (o : Object) : Prop :=
  match o with
  | Some p => Forall (fun tok => start tok <= length (orig_string (parse_result p)))%nat (tokens (parse_result p))
  | None => True
  end.

Lemma at_char_start pr tok : (start tok <= length (orig_string pr))%nat -> exists c, at_char pr (start tok) = Ok c.
Proof.
  intros H. unfold at_char. case_decide; [by eexists|].
  destruct (lookup_lt_is_Some_2 (orig_string pr) (start tok)) as [c ->]; [lia|by eexists].
Qed.

(** The type tests of [Jsmn::Object] give those of the tree. *)
Lemma tests_refine o t :
  represents o t -> starts_ok o ->
  is_object o = Ok (jis_object t) /\ is_array o = Ok (jis_array t) /\ is_string o = Ok (jis_string t)
  /\ is_null o = Ok (jis_null t) /\ is_boolean o = Ok (jis_boolean t) /\ is_number o = Ok (jis_number t).
Proof.
  destruct o as [p|], t as [t|]; try done. intros (ts & rest & _ & Hp & Hr & _) Hs.
  unfold is_object, is_array, is_string, is_null, is_boolean, is_number, has_type, first_char, token.
  rewrite Hp.
  assert (forall tok l, ts = tok :: l -> exists c, at_char (parse_result p) (start tok) = Ok c) as Hc.
  { intros tok l ->. apply at_char_start. simpl in Hs. rewrite Forall_forall in Hs. apply Hs.
    apply (list_elem_of_lookup_2 _ (i_ p)).
    assert (tokptr p !! 0%nat = Some tok) as Hl by (by rewrite Hp). unfold tokptr in Hl.
    by rewrite lookup_drop, Nat.add_0_r in Hl. }
  destruct Hr as [tok [|c tx] Ht _ Hsp Hn|tok esc Ht _ _|tok l ts Ht _ _|tok l ts Ht _ _]; simpl; [done|..];
    rewrite Ht; simpl.
  - rewrite (at_char_span _ _ _ _ Hsp). simpl. rewrite !orb_false_r.
    split_and!; try done. by destruct (c =? chr "t"), (c =? chr "f").
  - destruct (Hc _ _ eq_refl) as [c ->]. done.
  - destruct (Hc _ _ eq_refl) as [c ->]. done.
  - destruct (Hc _ _ eq_refl) as [c ->]. done.
Qed.

(** ** The balance of a channel *)

Record ChannelBalance := { to_us : Amount; total : Amount }.

(** The conversion of a double to [std::int64_t]; [None] is undefined behaviour. *)
Definition d_to_i64 (x : double) : option Z :=
  match x with
  | Fin q => let t := Qtrunc q in if (- 2 ^ 63 <=? t) && (t <? 2 ^ 63) then Some t else None
  | _ => None
  end.

(** The lowest splice amount below [lowest] and the capacity that goes with it. *)
Fixpoint lowest_splice (inflights : list json) (lowest : Z) (lowest_total : option json)
    : outcome (Z * option json) :=
  match inflights with
  | [] => inl (lowest, lowest_total)
  | i :: inflights =>
      if negb (jis_object (Some i)) then lowest_splice inflights lowest lowest_total
      else
        let* amount_j := get (Some i) "splice_amount" in
        if negb (jis_number amount_j) then lowest_splice inflights lowest lowest_total
        else
          let* d := number amount_j in
          let* amount := defined (d_to_i64 d) in
          if lowest <=? amount then lowest_splice inflights lowest lowest_total
          else
            let* t := get (Some i) "total_funding_msat" in
            lowest_splice inflights amount t
  end.

Definition channel_balance (channel : json) : outcome ChannelBalance :=
  let* u_j := get (Some channel) "to_us_msat" in
  let* u := amount_object u_j in
  let* t_j := get (Some channel) "total_msat" in
  let* t := amount_object t_j in
  let* inflights := get (Some channel) "inflight" in
  match inflights with
  | Some (JArr l) =>
      let* (lowest, lowest_total) := lowest_splice l 0 None in
      if 0 <=? lowest then inl {| to_us := u; total := t |}
      else
        let out := Amount.sat (u64 (- lowest)) in
        if jis_null lowest_total then inl {| to_us := Amount.sub u out; total := Amount.sub t out |}
        else
          let* t' := amount_object lowest_total in
          inl {| to_us := Amount.sub u out; total := t' |}
  | _ => inl {| to_us := u; total := t |}
  end.

(** A pending splice never raises the balance. *)
Lemma channel_balance_bounded c b u :
  channel_balance c = inl b -> (let* j := get (Some c) "to_us_msat" in amount_object j) = inl u ->
  is_u64 u -> to_us b <= u.
Proof.
  unfold channel_balance, obind. intros E Hu Hr. destruct (get (Some c) "to_us_msat") as [j|]; [|done].
  rewrite Hu in E. destruct (get (Some c) "total_msat") as [tj|]; [|done].
  destruct (amount_object tj) as [t|]; [|done]. destruct (get (Some c) "inflight") as [[[]|]|]; try done;
    try (by injection E as <-).
  destruct (lowest_splice l 0 None) as [[lw lt]|]; [|done].
  assert (forall a, Amount.sub u a <= u \/ a < 0) as Hsub.
  { intros a. rewrite Amount.sub_spec. unfold is_u64 in Hr. destruct (Z.gtb_spec a u); lia. }
  assert (0 <= Amount.sat (u64 (- lw))) by apply u64_range.
  specialize (Hsub (Amount.sat (u64 (- lw)))).
  destruct (0 <=? lw); [by injection E as <-|]. destruct (jis_null lt); [injection E as <-; simpl; lia|].
  destruct (amount_object lt); [|done]. injection E as <-. simpl. lia.
Qed.

End Reply.
