(* ===== verification/Peers.v ===== *)
(** * Peers and funds, as the node reports them

    - src/Boss/Mod/ListpeersAnnouncer.cpp joins the replies of [listpeers] and
      [listpeerchannels] to one table of peers;
    - src/Boss/Mod/ListpeersAnalyzer.cpp, ChanneledPeers.cpp and AutoDisconnector.cpp
      sort the peers by connection and channels, and drop the surplus;
    - src/Boss/Mod/PeerFromScidMapper.cpp answers which peer has a channel;
    - src/Boss/Mod/ListfundsAnnouncer.cpp, ListfundsAnalyzer.cpp and
      ChannelFundsComputer.cpp sum the funds. *)

From stdpp Require Import base list numbers strings gmap sets.
From S2P Require Import Prelude.
From S2P Require Import Double.
From S2P Require Import Amount.
From S2P Require Import LnIds.
From S2P Require Import Jsmn.
From S2P Require Import Reply.
Import Jsmn.
Import Reply.

#[local] Open Scope Z_scope.
#[local] Open Scope reply_scope.

Module Peers.

Abbreviation Node := NodeId.t.

(** A loop whose body may fail. *)
Fixpoint foldM {A B} (f : B -> A -> outcome B) (l : list A) (b : B) : outcome B :=
  match l with
  | [] => inl b
  | a :: l => let* b' := f b a in foldM f l b'
  end.

(** ** The table of peers *)

Record ConstructedListpeer := { connected : bool; channels : list json }.
Abbreviation ConstructedListpeers := (gmap Node ConstructedListpeer).

Definition channels_at (m : ConstructedListpeers) (id : Node) : list json :=
  match m !! id with Some p => channels p | None => [] end.

Definition add_channel (m : ConstructedListpeers) (c : json) : outcome ConstructedListpeers :=
  let* id_j := get (Some c) "peer_id" in
  let* id_s := text id_j in
  let* id := nodeid_of id_s in
  let* connected_j := get (Some c) "peer_connected" in
  let* conn := flag connected_j in
  inl (<[id := {| connected := conn; channels := channels_at m id ++ [c] |}]> m).

Definition add_peer (m : ConstructedListpeers) (p : json) : outcome ConstructedListpeers :=
  if negb (jis_object (Some p)) then inl m
  else
    let* h := has (Some p) "id" in
    if negb h then inl m
    else
      let* id_j := get (Some p) "id" in
      if negb (jis_string id_j) then inl m
      else
        let* id_s := text id_j in
        if negb (NodeId.valid_string id_s) then inl m
        else
          let* id := nodeid_of id_s in
          match m !! id with
          | Some _ => inl m
          | None =>
              let* h := has (Some p) "connected" in
              let* conn := if (h : bool) then let* j := get (Some p) "connected" in flag j else inl false in
              inl (<[id := {| connected := conn; channels := [] |}]> m)
          end.

(** The array under a key of a reply; [None] is the logged error. *)
Definition reply_array (result : json) (k : string) : outcome (option (list json)) :=
  if negb (jis_object (Some result)) then inl None
  else
    let* h := has (Some result) k in
    if negb h then inl None
    else
      let* a := get (Some result) k in
      match a with Some (JArr l) => inl (Some l) | _ => inl None end.

(** The table that is announced after the two replies. *)
Definition announce (listpeers listpeerchannels : json) : outcome (option ConstructedListpeers) :=
  let* peers := reply_array listpeers "peers" in
  match peers with
  | None => inl None
  | Some peers =>
      let* chans := reply_array listpeerchannels "channels" in
      match chans with
      | None => inl None
      | Some chans =>
          let* m := foldM add_channel chans ∅ in
          let* m := foldM add_peer peers m in
          inl (Some m)
      end
  end.

(** ** Channeled peers *)

Definition has_prefix (s : bytes) (prefix : string) : bool := bool_decide (take (length (lit prefix)) s = lit prefix).

Definition channeled_state (state : bytes) : bool :=
  has_prefix state "OPENINGD" || has_prefix state "DUALOPEND" || has_prefix state "CHANNELD".

Definition channeled_peer (rv : gset Node) (c : json) : outcome (gset Node) :=
  if negb (jis_object (Some c)) then inl rv
  else
    let* h := has_all (Some c) ["state"; "peer_id"] in
    if negb h then inl rv
    else
      let* state_j := get (Some c) "state" in
      let* peer_j := get (Some c) "peer_id" in
      if negb (jis_string state_j) || negb (jis_string peer_j) then inl rv
      else
        let* state := text state_j in
        if negb (channeled_state state) then inl rv
        else
          let* peer_s := text peer_j in
          if negb (NodeId.valid_string peer_s) then inl rv
          else let* n := nodeid_of peer_s in inl ({[n]} ∪ rv).

Definition channeled_peers (listpeerchannels : json) : outcome (gset Node) :=
  let* chans := reply_array listpeerchannels "channels" in
  match chans with None => inl ∅ | Some l => foldM channeled_peer l ∅ end.

(** ** Analysis of the table *)

Fixpoint has_chan (chans : list json) : outcome bool :=
  match chans with
  | [] => inl false
  | chan :: chans =>
      if negb (jis_object (Some chan)) then has_chan chans
      else
        let* h := has (Some chan) "state" in
        if negb h then has_chan chans
        else
          let* state_j := get (Some chan) "state" in
          if negb (jis_string state_j) then has_chan chans
          else
            let* state := text state_j in
            if channeled_state state then inl true else has_chan chans
  end.

Record Analyzed := {
  connected_channeled : gset Node;
  connected_unchanneled : gset Node;
  disconnected_channeled : gset Node;
  disconnected_unchanneled : gset Node
}.

Definition nobody : Analyzed :=
  {| connected_channeled := ∅; connected_unchanneled := ∅; disconnected_channeled := ∅;
     disconnected_unchanneled := ∅ |}.

Definition emplace (ar : Analyzed) (conn chan : bool) (id : Node) : Analyzed :=
  let add (b : bool) (s : gset Node) := if b then {[id]} ∪ s else s in
  {| connected_channeled := add (conn && chan) (connected_channeled ar);
     connected_unchanneled := add (conn && negb chan) (connected_unchanneled ar);
     disconnected_channeled := add (negb conn && chan) (disconnected_channeled ar);
     disconnected_unchanneled := add (negb conn && negb chan) (disconnected_unchanneled ar) |}.

Definition analyze_peer (ar : Analyzed) (peer : Node * ConstructedListpeer) : outcome Analyzed :=
  let* chan := has_chan (channels peer.2) in
  inl (emplace ar (connected peer.2) chan peer.1).

Definition analyze (m : ConstructedListpeers) : outcome Analyzed := foldM analyze_peer (map_to_list m) nobody.

Definition all_peers_disconnected (ar : Analyzed) : bool :=
  negb (bool_decide (disconnected_channeled ar = ∅)) && bool_decide (connected_channeled ar = ∅)
  && bool_decide (connected_unchanneled ar = ∅).

(** ** Disconnecting the surplus *)

Definition max_unchanneled_connections : nat := 3.

(** [shuffled] is the vector of the connected peers without channels, shuffled. *)
Definition on_listpeers (ar : Analyzed) (shuffled : list Node) : list Node :=
  if (base.size (connected_unchanneled ar) <=? max_unchanneled_connections)%nat then []
  else take (length shuffled - max_unchanneled_connections) shuffled.

(** ** Funds *)

Definition listfunds (res : json) : outcome (option (list json * list json)) :=
  if negb (jis_object (Some res)) then inl None
  else
    let* h := has_all (Some res) ["channels"; "outputs"] in
    if negb h then inl None
    else
      let* c := get (Some res) "channels" in
      let* o := get (Some res) "outputs" in
      match c, o with Some (JArr c), Some (JArr o) => inl (Some (o, c)) | _, _ => inl None end.

Definition add_owned (key : string) (acc : Amount) (j : json) : outcome Amount :=
  let* amount_j := get (Some j) key in
  let* v := amount_valid_object amount_j in
  if negb v then inr Logic else let* a := amount_object amount_j in inl (Amount.add acc a).

Definition total_owned (outputs chans : list json) : outcome Amount :=
  let* t := foldM (add_owned "amount_msat") outputs 0 in
  foldM (add_owned "our_amount_msat") chans t.

Definition add_funds (acc : Amount * Amount) (chan : json) : outcome (Amount * Amount) :=
  let (total, conn) := acc in
  if negb (jis_object (Some chan)) then inl acc
  else
    let* h := has (Some chan) "our_amount_msat" in
    if negb h then inl acc
    else
      let* amount_j := get (Some chan) "our_amount_msat" in
      let* v := amount_valid_object amount_j in
      if negb v then inl acc
      else
        let* a := amount_object amount_j in
        let total := Amount.add total a in
        let* h := has (Some chan) "connected" in
        if negb h then inl (total, conn)
        else
          let* is_connected := get (Some chan) "connected" in
          let* f := flag is_connected in
          if negb f then inl (total, conn) else inl (total, Amount.add conn a).

Definition channel_funds (chans : list json) : outcome (Amount * Amount) := foldM add_funds chans (0, 0).

(** ** The peer of a channel *)

Record Request := { requester : Z; scid : Z }.
Record Response := { reply_to : Z; reply_scid : Z; peer : Node }.

Record Mapper := { table : option (gmap Z Node); pendings : list Request }.

Definition fresh : Mapper := {| table := None; pendings := [] |}.

Definition answer (t : gmap Z Node) (m : Request) : Response :=
  {| reply_to := requester m; reply_scid := scid m; peer := default None (t !! scid m) |}.

Definition snapshot_channel (node : Node) (tmp : gmap Z Node) (c : json) : outcome (gmap Z Node) :=
  let* h := has (Some c) "short_channel_id" in
  if negb h then inl tmp
  else
    let* scid_j := get (Some c) "short_channel_id" in
    if negb (jis_string scid_j) then inl tmp
    else
      let* scid_s := text scid_j in
      match Scid.of_string scid_s with
      | None => inl tmp
      | Some s => inl (<[s := node]> tmp)
      end.

Definition snapshot_peer (tmp : gmap Z Node) (p : Node * ConstructedListpeer) : outcome (gmap Z Node) :=
  foldM (snapshot_channel p.1) (channels p.2) tmp.

(** The subscriber of [ListpeersResult].  A failure leaves the state as it is. *)
Definition on_snapshot (s : Mapper) (peers : list (Node * ConstructedListpeer)) : Mapper * list Response :=
  match foldM snapshot_peer peers ∅ with
  | inl t => ({| table := Some t; pendings := [] |}, map (answer t) (pendings s))
  | inr _ => (s, [])
  end.

Definition learned (params : json) : outcome (option (Z * Node)) :=
  let* payload := get (Some params) "channel_state_changed" in
  let* h := has payload "short_channel_id" in
  if negb h then inl None
  else
    let* scid_j := get payload "short_channel_id" in
    if negb (jis_string scid_j) then inl None
    else
      let* scid_s := text scid_j in
      match Scid.of_string scid_s with
      | None => inl None
      | Some s =>
          let* peer_j := get payload "peer_id" in
          let* peer_s := text peer_j in
          let* n := nodeid_of peer_s in
          inl (Some (s, n))
      end.

Definition on_state_changed (s : Mapper) (params : json) : Mapper :=
  match table s with
  | None => s
  | Some t =>
      match learned params with
      | inl (Some (c, n)) => {| table := Some (<[c := n]> t); pendings := pendings s |}
      | _ => s
      end
  end.

Definition on_request (s : Mapper) (m : Request) : Mapper * list Response :=
  match table s with
  | None => ({| table := None; pendings := pendings s ++ [m] |}, [])
  | Some t => (s, [answer t m])
  end.

Inductive Event :=
| E_snapshot (peers : list (Node * ConstructedListpeer))
| E_changed (params : json)
| E_request (m : Request).

Definition step (s : Mapper) (e : Event) : Mapper * list Response :=
  match e with
  | E_snapshot peers => on_snapshot s peers
  | E_changed params => (on_state_changed s params, [])
  | E_request m => on_request s m
  end.

Fixpoint run (s : Mapper) (es : list Event) : Mapper * list Response :=
  match es with
  | [] => (s, [])
  | e :: es => let '(s1, o1) := step s e in let '(s2, o2) := run s1 es in (s2, o1 ++ o2)
  end.

(** ** Lemmas: loops *)

Lemma foldM_inv {A B} (P : list A -> B -> Prop) (f : B -> A -> outcome B) l b b' :
  P [] b -> (forall l0 b0 a b1, P l0 b0 -> f b0 a = inl b1 -> P (l0 ++ [a]) b1) ->
  foldM f l b = inl b' -> P l b'.
Proof.
  intros H0 Hs. assert (forall k c, P k c -> foldM f l c = inl b' -> P (k ++ l) b') as G; [|by apply (G [] b)].
  induction l as [|a l IH]; intros k c Hk E; simpl in E; [injection E as <-; by rewrite app_nil_r|].
  destruct (f c a) as [c'|] eqn:Ef; [|done]. rewrite cons_middle, app_assoc. eapply IH; [|exact E]. by eapply Hs.
Qed.

(** Splitting a sequence of reads that gave a value. *)
Ltac reads H :=
  repeat match type of H with
  | obind ?m _ = inl _ =>
      let x := fresh "x" in let E := fresh "E" in destruct m as [x|] eqn:E; [|discriminate H]; cbn [obind] in H
  | inl _ = inl _ => injection H as H
  | inr _ = inl _ => discriminate H
  | (if negb ?b then _ else _) = inl _ => let E := fresh "E" in destruct b eqn:E; cbn [negb] in H
  | (if ?b then _ else _) = inl _ => let E := fresh "E" in destruct b eqn:E
  | match ?o with Some _ => _ | None => _ end = inl _ => let E := fresh "E" in destruct o eqn:E
  end.

(** ** Lemmas: the table of peers *)

(** The peer of a channel, and the peer that an entry of [listpeers] names. *)
Definition peer_of (c : json) : outcome Node :=
  let* id_j := get (Some c) "peer_id" in let* id_s := text id_j in nodeid_of id_s.
Definition listed (p : json) : option Node :=
  if jis_object (Some p) then
    match (let* id_j := get (Some p) "id" in if jis_string id_j then text id_j else inr Logic) with
    | inl s => NodeId.of_string s
    | inr _ => None
    end
  else None.

Definition of_peer (id : Node) (chans : list json) : list json := filter (fun c => peer_of c = inl id) chans.

Lemma of_peer_snoc id l c :
  of_peer id (l ++ [c]) = of_peer id l ++ (if decide (peer_of c = inl id) then [c] else []).
Proof. unfold of_peer. rewrite filter_app, filter_cons. by case_decide. Qed.

Lemma add_channel_spec chans m :
  foldM add_channel chans ∅ = inl m ->
  forall id, channels_at m id = of_peer id chans /\ (m !! id = None <-> of_peer id chans = []).
Proof.
  apply (foldM_inv (fun chans m => forall id, channels_at m id = of_peer id chans
                      /\ (m !! id = None <-> of_peer id chans = []))).
  - intros id. unfold channels_at. rewrite lookup_empty. done.
  - intros l0 m0 c m1 IH E id. unfold add_channel in E.
    destruct (get (Some c) "peer_id") as [j|] eqn:E1; [|done]. cbn [obind] in E.
    destruct (text j) as [st|] eqn:E2; [|done]. cbn [obind] in E.
    destruct (nodeid_of st) as [n|] eqn:E3; [|done]. cbn [obind] in E. reads E. subst m1.
    assert (peer_of c = inl n) as Hp by (unfold peer_of; rewrite E1; cbn [obind]; rewrite E2; done).
    rewrite of_peer_snoc. destruct (IH id) as [IH1 IH2]. destruct (decide (n = id)) as [->|Hn].
    + rewrite decide_True by done. unfold channels_at at 1. rewrite lookup_insert_eq. simpl. rewrite IH1.
      split; [done|]. split; [done|]. by intros [_ ?]%app_nil.
    + rewrite decide_False by congruence. rewrite app_nil_r. unfold channels_at.
      rewrite lookup_insert_ne by done. by split.
Qed.

Lemma has_get o k h j : has o k = inl h -> get o k = inl j -> h = bool_decide (is_Some j).
Proof.
  unfold has, get, jhas, jindex_key. destruct o as [[]|]; simpl; try done.
  destruct (jfind (lit k) l) as [v|[]|]; simpl; try done. by intros [= <-] [= <-].
Qed.

Lemma of_string_valid s n : NodeId.of_string s = Some n -> NodeId.valid_string s = true.
Proof. unfold NodeId.of_string. by destruct (NodeId.valid_string s). Qed.

Lemma add_peer_spec m p m' :
  add_peer m p = inl m' ->
  (m' = m /\ forall id, listed p = Some id -> is_Some (m !! id))
  \/ exists id conn, listed p = Some id /\ m !! id = None
       /\ m' = <[id := {| connected := conn; channels := [] |}]> m.
Proof.
  unfold add_peer, listed. intros E. destruct (jis_object (Some p)) eqn:Eo; cbn [negb] in E; [|reads E; by left].
  destruct (has (Some p) "id") as [h|] eqn:Eh; [|done]. cbn [obind] in E.
  destruct (get (Some p) "id") as [j|] eqn:Eg.
  2:{ destruct h; cbn [negb] in E; [done|]. reads E. left. split; [done|]. done. }
  pose proof (has_get _ _ _ _ Eh Eg) as Hh. destruct h; cbn [negb obind] in *.
  2:{ reads E. left. split; [done|]. destruct j; [done|]. done. }
  destruct (jis_string j) eqn:Es; cbn [negb] in E; [|reads E; by left].
  destruct (text j) as [s|] eqn:Et; [|done]. cbn [obind] in E.
  destruct (NodeId.valid_string s) eqn:Ev; cbn [negb] in E.
  2:{ reads E. left. split; [done|]. intros id Hid. apply of_string_valid in Hid. congruence. }
  unfold nodeid_of in E. destruct (NodeId.of_string s) as [n|] eqn:En; [|done]. cbn [or_throw obind] in E.
  destruct (m !! n) as [q|] eqn:Em.
  - reads E. left. split; [done|]. intros id [= <-]. by exists q.
  - destruct (has (Some p) "connected") as [h2|]; [|done]. cbn [obind] in E. right.
    destruct h2.
    + destruct (get (Some p) "connected") as [cj|]; [|done]. cbn [obind] in E.
      destruct (flag cj) as [f|]; [|done]. cbn [obind] in E. reads E. by exists n, f.
    + cbn [obind] in E. reads E. by exists n, false.
Qed.

Lemma announce_spec lp lpc m :
  announce lp lpc = inl (Some m) ->
  exists peers chans, reply_array lp "peers" = inl (Some peers)
    /\ reply_array lpc "channels" = inl (Some chans)
    /\ forall id, channels_at m id = of_peer id chans
         /\ (is_Some (m !! id) <-> of_peer id chans <> [] \/ Some id ∈ map listed peers).
Proof.
  unfold announce. destruct (reply_array lp "peers") as [[peers|]|]; [|done..]. cbn [obind].
  destruct (reply_array lpc "channels") as [[chans|]|]; [|done..]. cbn [obind].
  destruct (foldM add_channel chans ∅) as [m0|] eqn:E0; [|done]. cbn [obind].
  destruct (foldM add_peer peers m0) as [m1|] eqn:E1; [|done]. intros [= <-]. exists peers, chans.
  split; [done|]. split; [done|]. pose proof (add_channel_spec _ _ E0) as S0.
  revert E1. apply (foldM_inv (fun peers m => forall id, channels_at m id = of_peer id chans
    /\ (is_Some (m !! id) <-> of_peer id chans <> [] \/ Some id ∈ map listed peers))).
  - intros id. destruct (S0 id) as [S1 S2]. split; [done|]. rewrite <- not_eq_None_Some. simpl.
    rewrite elem_of_nil. tauto.
  - intros l0 ma p mb IH E id. destruct (IH id) as [IH1 IH2]. rewrite map_app, elem_of_app. simpl.
    rewrite list_elem_of_singleton.
    destruct (add_peer_spec _ _ _ E) as [(-> & Hl)|(n & conn & Hl & Hn & ->)].
    + split; [done|]. split; [tauto|]. intros [H|[H|H]]; [tauto..|]. by apply Hl.
    + rewrite Hl. destruct (decide (n = id)) as [->|Hne].
      * unfold channels_at in *. rewrite lookup_insert_eq. rewrite Hn in IH1. simpl.
        split; [done|]. split; [by right; right|by eexists].
      * unfold channels_at in *. rewrite lookup_insert_ne by done. split; [done|]. rewrite IH2.
        split; [tauto|]. intros [H|[H|H]]; [tauto..|congruence].
Qed.

(** ** Lemmas: analysis *)

Definition sorted_as (m : ConstructedListpeers) (conn chan : bool) (id : Node) : Prop :=
  exists p, m !! id = Some p /\ connected p = conn /\ has_chan (channels p) = inl chan.

Definition members (ar : Analyzed) (conn chan : bool) : gset Node :=
  match conn, chan with
  | true, true => connected_channeled ar
  | true, false => connected_unchanneled ar
  | false, true => disconnected_channeled ar
  | false, false => disconnected_unchanneled ar
  end.

Lemma emplace_members ar c h id c' h' v :
  v ∈ members (emplace ar c h id) c' h' <-> (v = id /\ c = c' /\ h = h') \/ v ∈ members ar c' h'.
Proof. destruct c, h, c', h'; simpl; set_solver. Qed.

Lemma peer_sets_spec m ar :
  analyze m = inl ar ->
  (forall c h id, id ∈ members ar c h <-> sorted_as m c h id)
  /\ forall id p, m !! id = Some p -> exists h, has_chan (channels p) = inl h.
Proof.
  intros E. unfold analyze in E.
  cut ((forall c h id, id ∈ members ar c h
          <-> exists p, (id, p) ∈ map_to_list m /\ connected p = c /\ has_chan (channels p) = inl h)
       /\ forall id p, (id, p) ∈ map_to_list m -> exists h, has_chan (channels p) = inl h).
  { intros [H1 H2]. split.
    - intros c h id. rewrite H1. unfold sorted_as. by setoid_rewrite elem_of_map_to_list.
    - intros id p Hp. apply (H2 id). by apply elem_of_map_to_list. }
  revert E. apply (foldM_inv (fun l ar =>
    (forall c h id, id ∈ members ar c h
       <-> exists p, (id, p) ∈ l /\ connected p = c /\ has_chan (channels p) = inl h)
    /\ forall id p, (id, p) ∈ l -> exists h, has_chan (channels p) = inl h)).
  - split; [|by intros id p ?%elem_of_nil]. intros c h id. split.
    + destruct c, h; simpl; set_solver.
    + intros (p & ?%elem_of_nil & _). done.
  - intros l0 b0 [n p] b1 [IH1 IH2] E. unfold analyze_peer in E. cbn [fst snd] in E.
    destruct (has_chan (channels p)) as [h0|] eqn:Eh; [|done]. cbn [obind] in E. injection E as <-. split.
    + intros c h id. rewrite emplace_members, IH1. setoid_rewrite elem_of_app. setoid_rewrite list_elem_of_singleton.
      split.
      * intros [(-> & <- & <-)|(q & Hq & ?)]; [exists p; by split; [right|]|exists q; by split; [left|]].
      * intros (q & [Hq|[= -> ->]] & Hc & Hh); [right; by exists q|left]. split; [done|]. split; congruence.
    + intros id q [Hq|[= -> ->]%list_elem_of_singleton]%elem_of_app; [exact (IH2 id q Hq)|exists h0; exact Eh].
Qed.

(** ** Lemmas: the mapper *)

Definition requests (es : list Event) : list Request :=
  omap (fun e => match e with E_request m => Some m | _ => None end) es.
Definition request_of (r : Response) : Request := {| requester := reply_to r; scid := reply_scid r |}.

Definition parked (s : Mapper) : Prop := is_Some (table s) -> pendings s = [].

Lemma answer_request t l : map request_of (map (answer t) l) = l.
Proof. rewrite map_map. rewrite <- (map_id l) at 2. apply map_ext. by intros []. Qed.

Lemma step_requests s e s' o :
  parked s -> step s e = (s', o) ->
  pendings s ++ requests [e] = map request_of o ++ pendings s' /\ parked s'.
Proof.
  intros Hp E. destruct e as [peers|params|m]; simpl in E.
  - unfold on_snapshot in E. destruct (foldM snapshot_peer peers ∅) as [t|]; injection E as <- <-; simpl.
    + by rewrite answer_request.
    + by rewrite app_nil_r.
  - injection E as <- <-. unfold on_state_changed. simpl. rewrite app_nil_r. destruct (table s) as [t|] eqn:Et; [|done].
    destruct (learned params) as [[[c n]|]|]; [|done..]. split; [done|]. intros _. by apply Hp.
  - unfold on_request in E. destruct (table s) as [t|] eqn:Et; injection E as <- <-; simpl.
    + rewrite Hp by done. split; [|done]. by destruct m.
    + split; [done|]. by intros [].
Qed.

Lemma run_requests s es s' o :
  parked s -> run s es = (s', o) ->
  pendings s ++ requests es = map request_of o ++ pendings s' /\ parked s'.
Proof.
  revert s o. induction es as [|e es IH]; intros s o Hp E; simpl in E.
  { injection E as <- <-. by rewrite app_nil_r. }
  destruct (step s e) as [s1 o1] eqn:E1. destruct (run s1 es) as [s2 o2] eqn:E2. injection E as <- <-.
  destruct (step_requests _ _ _ _ Hp E1) as [R1 P1]. destruct (IH _ _ P1 E2) as [R2 P2]. split; [|done].
  rewrite map_app, <- app_assoc, <- R2, app_assoc, <- R1, <- app_assoc. f_equal.
  change (e :: es) with ([e] ++ es). unfold requests. by rewrite omap_app.
Qed.

(** Each response is read from the table that there is after its event. *)
Lemma step_answers s e s' o r :
  step s e = (s', o) -> r ∈ o -> exists t, table s' = Some t /\ peer r = default None (t !! reply_scid r).
Proof.
  intros E Hr. destruct e as [peers|params|m]; simpl in E.
  - unfold on_snapshot in E. destruct (foldM snapshot_peer peers ∅) as [t|]; injection E as <- <-;
      [|by apply elem_of_nil in Hr]. exists t. split; [done|].
    apply list_elem_of_fmap in Hr as (m & -> & _). done.
  - injection E as <- <-. by apply elem_of_nil in Hr.
  - unfold on_request in E. destruct (table s) as [t|] eqn:Et; injection E as <- <-; [|by apply elem_of_nil in Hr].
    apply list_elem_of_singleton in Hr as ->. by exists t.
Qed.

Lemma run_answers s es s' o r :
  run s es = (s', o) -> r ∈ o ->
  exists es1 es2 t, es = es1 ++ es2 /\ table (run s es1).1 = Some t /\ peer r = default None (t !! reply_scid r).
Proof.
  revert s o. induction es as [|e es IH]; intros s o E Hr; simpl in E.
  { injection E as <- <-. by apply elem_of_nil in Hr. }
  destruct (step s e) as [s1 o1] eqn:E1. destruct (run s1 es) as [s2 o2] eqn:E2. injection E as <- <-.
  apply elem_of_app in Hr as [Hr|Hr].
  - destruct (step_answers _ _ _ _ _ E1 Hr) as (t & Ht & Hp). exists [e], es, t. split; [done|]. split; [|done].
    simpl. by rewrite E1.
  - destruct (IH _ _ E2 Hr) as (es1 & es2 & t & -> & Ht & Hp). exists (e :: es1), es2, t. split; [done|].
    split; [|done]. simpl. rewrite E1. by destruct (run s1 es1).
Qed.

(** ** Lemmas: funds *)

Lemma add_le a b c : is_u64 a -> is_u64 b -> is_u64 c -> c <= a -> Amount.add c b <= Amount.add a b.
Proof. intros Ha Hb Hc Hle. rewrite !Amount.add_spec by done. lia. Qed.

Lemma add_grows a b c : is_u64 a -> is_u64 b -> c <= a -> c <= Amount.add a b.
Proof. intros Ha Hb Hle. rewrite Amount.add_spec by done. ulia. Qed.

Lemma channel_funds_bounds chans t c : channel_funds chans = inl (t, c) -> is_u64 t /\ is_u64 c /\ c <= t.
Proof.
  apply (foldM_inv (fun _ x => is_u64 x.1 /\ is_u64 x.2 /\ x.2 <= x.1)); [by split_and!|].
  intros _ [t0 c0] j [t1 c1] (H1 & H2 & H3) E. cbn [fst snd] in *. unfold add_funds in E.
  destruct (negb (jis_object (Some j))); [by injection E as <- <-|].
  destruct (has (Some j) "our_amount_msat") as [[]|]; cbn [obind negb] in E; [|by injection E as <- <-|done].
  destruct (get (Some j) "our_amount_msat") as [aj|]; cbn [obind] in E; [|done].
  destruct (amount_valid_object aj) as [[]|]; cbn [obind negb] in E; [|by injection E as <- <-|done].
  destruct (amount_object aj) as [a|] eqn:Ea; cbn [obind] in E; [|done]. apply amount_object_range in Ea.
  pose proof (Amount.add_range t0 a H1 Ea). pose proof (add_grows t0 a c0 H1 Ea H3).
  destruct (has (Some j) "connected") as [[]|]; cbn [obind negb] in E; [|by injection E as <- <-|done].
  destruct (get (Some j) "connected") as [cj|]; cbn [obind] in E; [|done].
  destruct (flag cj) as [[]|]; cbn [obind negb] in E; [|by injection E as <- <-|done].
  injection E as <- <-. split; [done|]. split; [by apply Amount.add_range|by apply add_le].
Qed.

(** ** Properties *)

(** The table of peers that is announced holds, for each peer, its channels of
    [listpeerchannels] in order, and has a peer exactly where it has a channel or is
    listed by [listpeers]; and the analysis puts every peer of the table into exactly
    one of the four sets, by its connection and by whether one of its channels is
    open or being opened. *)
Theorem peers_sorted lp lpc m ar :
  announce lp lpc = inl (Some m) -> analyze m = inl ar ->
  exists peers chans, reply_array lp "peers" = inl (Some peers)
    /\ reply_array lpc "channels" = inl (Some chans)
    /\ (forall id, channels_at m id = of_peer id chans)
    /\ (forall id, (exists c h, id ∈ members ar c h) <-> of_peer id chans <> [] \/ Some id ∈ map listed peers)
    /\ (forall c h id, id ∈ members ar c h <-> sorted_as m c h id)
    /\ forall c h c' h', (c, h) <> (c', h') -> members ar c h ## members ar c' h'.
Proof.
  intros Hm Ha. destruct (announce_spec _ _ _ Hm) as (peers & chans & Hp & Hc & Hs).
  destruct (peer_sets_spec _ _ Ha) as [H1 H2]. exists peers, chans. split; [done|]. split; [done|].
  split; [intros id; apply Hs|]. split; [|split; [done|]].
  - intros id. rewrite <- (proj2 (Hs id)). split.
    + intros (c & h & (p & Hmp & _)%H1). by exists p.
    + intros [p Hmp]. destruct (H2 id p Hmp) as [h Hh]. exists (connected p), h. apply H1. by exists p.
  - intros c h c' h' Hne id (p & Hmp & Hc1 & Hh1)%H1 (p' & Hmp' & Hc2 & Hh2)%H1. congruence.
Qed.

(** Whatever the order of snapshots, notifications and requests, the mapper
    answers the requests in the order in which they came, each once; none is left
    waiting once there is a table; and an answer is the peer of the channel in the
    table at that time, or the null id where the table does not have the channel. *)
Theorem mapper_answers_in_order es s o :
  run fresh es = (s, o) ->
  requests es = map request_of o ++ pendings s /\ (is_Some (table s) -> pendings s = [])
  /\ forall r, r ∈ o -> exists es1 es2 t, es = es1 ++ es2 /\ table (run fresh es1).1 = Some t
       /\ peer r = default None (t !! reply_scid r).
Proof.
  intros E. destruct (run_requests fresh es s o) as [H1 H2]; [by intros []|done|]. split; [done|].
  split; [done|]. intros r. exact (run_answers fresh es s o r E).
Qed.

(** The sums of channel funds: the connected part is within the total. *)
Theorem channel_funds_connected_part chans t c : channel_funds chans = inl (t, c) -> is_u64 t /\ 0 <= c <= t.
Proof. intros (H1 & H2 & H3)%channel_funds_bounds. unfold is_u64 in H2. split; [done|lia]. Qed.

(** ** Sample runs *)

Definition sample_channel (state scid : string) : json :=
  JObj [(lit "peer_id", JStr (replicate 66 (chr "0"))); (lit "state", JStr (lit state));
        (lit "short_channel_id", JStr (lit scid)); (lit "peer_connected", JPrim (lit "true"))].
Definition sample_listpeers : json := JObj [(lit "peers", JArr [JObj []])].
Definition sample_listpeerchannels : json :=
  JObj [(lit "channels", JArr [sample_channel "CHANNELD_NORMAL" "1x2x3"])].

Definition sample_table : ConstructedListpeers :=
  match announce sample_listpeers sample_listpeerchannels with inl (Some m) => m | _ => ∅ end.
Definition sample_sets : Analyzed := match analyze sample_table with inl ar => ar | _ => nobody end.

Lemma peers_sorted_witness :
  exists peers chans, reply_array sample_listpeers "peers" = inl (Some peers)
    /\ reply_array sample_listpeerchannels "channels" = inl (Some chans)
    /\ (forall id, channels_at sample_table id = of_peer id chans)
    /\ (forall id, (exists c h, id ∈ members sample_sets c h)
          <-> of_peer id chans <> [] \/ Some id ∈ map listed peers)
    /\ (forall c h id, id ∈ members sample_sets c h <-> sorted_as sample_table c h id)
    /\ forall c h c' h', (c, h) <> (c', h') -> members sample_sets c h ## members sample_sets c' h'.
Proof. apply (peers_sorted sample_listpeers sample_listpeerchannels); vm_compute; reflexivity. Defined.

Lemma mapper_answers_in_order_witness :
  let es := [E_request {| requester := 1; scid := 5 |}; E_snapshot (map_to_list sample_table);
             E_request {| requester := 2; scid := 6 |}] in
  requests es = map request_of (run fresh es).2 ++ pendings (run fresh es).1.
Proof. intros es. apply (mapper_answers_in_order es (run fresh es).1 (run fresh es).2). by destruct (run fresh es). Defined.

End Peers.
