(* ===== verification/Earnings.v ===== *)
(** * Earnings and their bookkeeping

    Forwards and rebalances are reported by the node as notifications:
    src/Boss/Mod/ForwardFeeMonitor.cpp and XRebalancePartMonitor.cpp read them and ask
    which peers they concern, and src/Boss/Mod/EarningsTracker.cpp books fees and
    amounts per peer and day in a database table.  The table is what the rebalancer
    ([XRebalance]) decides on.

    The table is the list of its rows.  SQLite computes on 64-bit integers and leaves
    them for floating point on overflow, which is [None] here; the theorems show that
    this does not happen below 2^63 msat in total. *)

From stdpp Require Import base list numbers strings sorting.
From Stdlib Require Import QArith Qround.
From S2P Require Import Prelude.
From S2P Require Import Double.
From S2P Require Import Amount.
From S2P Require Import LnIds.
From S2P Require Import Jsmn.
From S2P Require Import Reply.
Import Jsmn.
Import Reply.

#[local] Open Scope Z_scope.

Abbreviation Node := NodeId.t.

(** ** Notifications *)

Module Monitors.

#[local] Open Scope reply_scope.

(** What becomes of a notification: it is none of the monitor's business, it is
    logged as malformed, an exception escapes, behaviour is undefined, or it is an
    event. *)
Inductive Reaction (A : Type) := Ignored | Malformed | Escaped | Crash | Value (a : A).
Arguments Ignored {A}.
Arguments Malformed {A}.
Arguments Escaped {A}.
Arguments Crash {A}.
Arguments Value {A}.

Record Part := { first_scid : Z; return_scid : Z; delivered : Amount; part_fee : Amount }.

Definition scid_of_scidd (s : bytes) : outcome Z :=
  scid_of (match split_at_char (chr "/") s with Some (a, _) => a | None => s end).

Definition read_part (params : option json) : outcome (Reaction Part) :=
  let* nested := has params "xrebalance_part" in
  let* payload :=
    if (nested : bool) then
      let* j := get params "xrebalance_part" in inl (if jis_object j then j else params)
    else inl params in
  let* all := has_all payload ["status"; "first_hop"; "return_hop"; "delivered_msat"; "fee_msat"] in
  if negb all then inl Malformed
  else
    let* status_j := get payload "status" in
    let* status := text status_j in
    if negb (bool_decide (status = lit "complete")) then inl Ignored
    else
      let* f_j := get payload "first_hop" in
      let* f_s := text f_j in
      let* first := scid_of_scidd f_s in
      let* r_j := get payload "return_hop" in
      let* r_s := text r_j in
      let* ret := scid_of_scidd r_s in
      let* a_j := get payload "delivered_msat" in
      let* a := amount_object a_j in
      let* fee_j := get payload "fee_msat" in
      let* fee := amount_object fee_j in
      inl (Value {| first_scid := first; return_scid := ret; delivered := a; part_fee := fee |}).

(** [catch (std::exception const&)] *)
Definition on_part (params : option json) : Reaction Part :=
  match read_part params with
  | inl r => r
  | inr Undefined => Crash
  | inr _ => Malformed
  end.

Record Attribution := { source : Node; destination : Node; amount_moved : Amount; fee_spent : Amount }.

Definition cont_part (src dst : Node) (amount fee : Amount) : option Attribution :=
  match src, dst with
  | None, None => None
  | _, _ => Some {| source := src; destination := dst; amount_moved := amount; fee_spent := fee |}
  end.

Record Forward := { in_scid : Z; out_scid : Z; fwd_fee : Amount; fwd_amount : Amount; resolution_time : double }.

Definition read_forward (params : option json) : outcome (Reaction Forward) :=
  let* payload := get params "forward_event" in
  let* all := has_all payload ["out_channel"; "fee_msat"; "resolved_time"; "received_time"] in
  if negb all then inl Ignored
  else
    let* status_j := get payload "status" in
    let* status := text status_j in
    if negb (bool_decide (status = lit "settled")) then inl Ignored
    else
      let* i_j := get payload "in_channel" in
      let* i_s := text i_j in
      let* i := scid_of i_s in
      let* o_j := get payload "out_channel" in
      let* o_s := text o_j in
      let* o := scid_of o_s in
      let* fee_j := get payload "fee_msat" in
      let* fee := amount_object fee_j in
      let* a_j := get payload "out_msat" in
      let* a := amount_object a_j in
      let* t1_j := get payload "resolved_time" in
      let* t1 := number t1_j in
      let* t0_j := get payload "received_time" in
      let* t0 := number t0_j in
      inl (Value {| in_scid := i; out_scid := o; fwd_fee := fee; fwd_amount := a; resolution_time := dsub t1 t0 |}).

(** [catch (std::runtime_error const&)] *)
Definition on_forward (params : option json) : Reaction Forward :=
  match read_forward params with
  | inl r => r
  | inr Undefined => Crash
  | inr Runtime => Malformed
  | inr Logic => Escaped
  end.

Record ForwardFee := { in_id : Node; out_id : Node; fee : Amount; time_taken : double; amount : Amount }.

Definition cont_forward (i o : Node) (f : Forward) : option ForwardFee :=
  match i, o with
  | Some _, Some _ =>
      Some {| in_id := i; out_id := o; fee := fwd_fee f; time_taken := resolution_time f; amount := fwd_amount f |}
  | _, _ => None
  end.

(** ** Failures *)

Definition sample_forward (in_channel : string) : json :=
  JObj [(lit "forward_event",
    JObj [(lit "status", JStr (lit "settled")); (lit "in_channel", JStr (lit in_channel));
          (lit "out_channel", JStr (lit "1x2x3")); (lit "fee_msat", JPrim (lit "1000"));
          (lit "out_msat", JPrim (lit "5000000")); (lit "resolved_time", JPrim (lit "2.5"));
          (lit "received_time", JPrim (lit "1.5"))])].

(** The part monitor reports every payload that it cannot read.  The forward monitor
    catches [std::runtime_error] only, but a wrong type, a malformed short channel id
    and a malformed amount are all [std::invalid_argument], which escapes. *)
Lemma monitor_failures :
  (forall params, on_part params <> Escaped)
  /\ (forall params, read_forward params = inr Logic -> on_forward params = Escaped)
  /\ on_forward (Some (sample_forward "1x2")) = Escaped
  /\ exists f, on_forward (Some (sample_forward "1x2x4")) = Value f.
Proof.
  split_and!.
  - intros params. unfold on_part.
    assert (read_part params <> inl Escaped) as Hne; [|by destruct (read_part params) as [r|[]]; [congruence|..]].
    unfold read_part, obind. repeat case_match; congruence.
  - intros params E. unfold on_forward. by rewrite E.
  - reflexivity.
  - eexists. vm_compute. reflexivity.
Qed.

End Monitors.

(** ** The table *)

Module Tracker.

Record EarningsData := {
  in_earnings : Z; in_forwarded : Z; in_expenditures : Z; in_rebalanced : Z;
  out_earnings : Z; out_forwarded : Z; out_expenditures : Z; out_rebalanced : Z
}.

Definition zero : EarningsData :=
  {| in_earnings := 0; in_forwarded := 0; in_expenditures := 0; in_rebalanced := 0;
     out_earnings := 0; out_forwarded := 0; out_expenditures := 0; out_rebalanced := 0 |}.

(** A function column by column. *)
Definition zip_data (f : Z -> Z -> Z) (a b : EarningsData) : EarningsData :=
  {| in_earnings := f (in_earnings a) (in_earnings b); in_forwarded := f (in_forwarded a) (in_forwarded b);
     in_expenditures := f (in_expenditures a) (in_expenditures b); in_rebalanced := f (in_rebalanced a) (in_rebalanced b);
     out_earnings := f (out_earnings a) (out_earnings b); out_forwarded := f (out_forwarded a) (out_forwarded b);
     out_expenditures := f (out_expenditures a) (out_expenditures b);
     out_rebalanced := f (out_rebalanced a) (out_rebalanced b) |}.

Definition columns (d : EarningsData) : list Z :=
  [in_earnings d; in_forwarded d; in_expenditures d; in_rebalanced d;
   out_earnings d; out_forwarded d; out_expenditures d; out_rebalanced d].

(** [operator+=] on unsigned 64-bit integers. *)
Definition accumulate (a b : EarningsData) : EarningsData := zip_data (fun x y => u64 (x + y)) a b.

(** Addition of SQLite: [None] when the result is not a 64-bit integer. *)
Definition fits (z : Z) : bool := (- 2 ^ 63 <=? z) && (z <? 2 ^ 63).
Definition sql_add (a b : EarningsData) : option EarningsData :=
  let c := zip_data Z.add a b in if forallb fits (columns c) then Some c else None.
Arguments sql_add : simpl never.

(** Binding an unsigned 64-bit integer, and reading one. *)
Definition bind_u64 (v : Z) : Z := if v <? 2 ^ 63 then v else v - 2 ^ 64.
Definition from_row (d : EarningsData) : EarningsData := zip_data (fun x _ => u64 x) d d.

Record Row := { node : Node; time_bucket : double; data : EarningsData }.
Abbreviation Table := (list Row).

Definition seconds_per_day : double := d_of_Z (24 * 60 * 60).
Definition bucket_time (input_time : double) : double :=
  dmul (dfloor (ddiv input_time seconds_per_day)) seconds_per_day.

Definition keyed (n : Node) (b : double) (r : Row) : bool := bool_decide (node r = n) && deq (time_bucket r) b.

Definition ensure (t : Table) (n : Node) (b : double) : Table :=
  if existsb (keyed n b) t then t else t ++ [{| node := n; time_bucket := b; data := zero |}].

(** [UPDATE ... SET column = column + :value ... WHERE node = :node AND time_bucket = :bucket] *)
Definition update_row (n : Node) (b : double) (d : EarningsData) (r : Row) : option Row :=
  if keyed n b r then x ← sql_add (data r) d; Some {| node := node r; time_bucket := time_bucket r; data := x |}
  else Some r.
Definition update (t : Table) (n : Node) (b : double) (d : EarningsData) : option Table :=
  mapM (update_row n b d) t.

Definition earned_in (fee amount : Amount) : EarningsData :=
  {| in_earnings := bind_u64 fee; in_forwarded := bind_u64 amount; in_expenditures := 0; in_rebalanced := 0;
     out_earnings := 0; out_forwarded := 0; out_expenditures := 0; out_rebalanced := 0 |}.
Definition earned_out (fee amount : Amount) : EarningsData :=
  {| in_earnings := 0; in_forwarded := 0; in_expenditures := 0; in_rebalanced := 0;
     out_earnings := bind_u64 fee; out_forwarded := bind_u64 amount; out_expenditures := 0; out_rebalanced := 0 |}.
Definition spent_in (fee amount : Amount) : EarningsData :=
  {| in_earnings := 0; in_forwarded := 0; in_expenditures := bind_u64 fee; in_rebalanced := bind_u64 amount;
     out_earnings := 0; out_forwarded := 0; out_expenditures := 0; out_rebalanced := 0 |}.
Definition spent_out (fee amount : Amount) : EarningsData :=
  {| in_earnings := 0; in_forwarded := 0; in_expenditures := 0; in_rebalanced := 0;
     out_earnings := 0; out_forwarded := 0; out_expenditures := bind_u64 fee; out_rebalanced := bind_u64 amount |}.

Definition forward_fee (t : Table) (now : double) (i o : Node) (fee amount : Amount) : option Table :=
  let b := bucket_time now in
  let t := ensure (ensure t i b) o b in
  t ← update t i b (earned_in fee amount);
  update t o b (earned_out fee amount).

Definition book (t : Table) (n : Node) (b : double) (d : EarningsData) : option Table :=
  match n with Some _ => update (ensure t n b) n b d | None => Some t end.

Definition xrebalance_attribution (t : Table) (now : double) (m : Monitors.Attribution) : option Table :=
  let b := bucket_time now in
  t ← book t (Monitors.source m) b (spent_in (Monitors.fee_spent m) (Monitors.amount_moved m));
  book t (Monitors.destination m) b (spent_out (Monitors.fee_spent m) (Monitors.amount_moved m)).

(** ** Queries *)

(** [SUM]; the sum of no rows is null, which reads as 0. *)
Fixpoint sql_sum (acc : EarningsData) (ds : list EarningsData) : option EarningsData :=
  match ds with [] => Some acc | d :: ds => acc ← sql_add acc d; sql_sum acc ds end.

Definition since (cutoff : double) (r : Row) : bool := dge (time_bucket r) cutoff.
Definition rows_of (n : Node) (t : Table) : Table := filter (fun r => node r = n) t.
Definition recent (cutoff : double) (t : Table) : Table := filter (fun r => since cutoff r = true) t.

(** The sums of one peer, over all buckets or over those since [cutoff]. *)
Definition request_earnings_info (t : Table) (n : Node) : option EarningsData :=
  from_row <$> sql_sum zero (map data (rows_of n t)).
Definition window (t : Table) (n : Node) (cutoff : double) : option EarningsData :=
  from_row <$> sql_sum zero (map data (rows_of n (recent cutoff t))).

(** [GROUP BY node] *)
Definition groups (t : Table) : option (list (Node * EarningsData)) :=
  mapM (fun n => d ← sql_sum zero (map data (rows_of n t)); Some (n, from_row d)) (remove_dups (map node t)).

Definition totalled (gs : list (Node * EarningsData)) : list (Node * EarningsData) * EarningsData :=
  (gs, foldl accumulate zero (map snd gs)).

Definition status (t : Table) : option (list (Node * EarningsData) * EarningsData) :=
  gs ← groups t; Some (totalled gs).

Definition net (d : EarningsData) : Z :=
  in_earnings d - in_expenditures d + out_earnings d - out_expenditures d.
Definition richer (a b : Node * EarningsData) : Prop := net b.2 <= net a.2.

#[global] Instance richer_dec a b : Decision (richer a b).
Proof. unfold richer. apply _. Defined.

Definition recent_cutoff (now days : double) : double :=
  dsub (bucket_time now) (dmul (dmul (dmul days (d_of_Z 24)) (d_of_Z 60)) (d_of_Z 60)).

Definition recent_earnings_report (t : Table) (now days : double)
    : option (list (Node * EarningsData) * EarningsData) :=
  gs ← groups (recent (recent_cutoff now days) t);
  Some (totalled (merge_sort richer gs)).

(** ** Sums *)

Definition plus (a b : EarningsData) : EarningsData := zip_data Z.add a b.
Definition sum (ds : list EarningsData) : EarningsData := foldr plus zero ds.

(** What an event books, in the rows that [p] selects by peer and bucket. *)
Inductive Entry :=
| Forwarded (i o : Node) (fee amount : Amount)
| Moved (m : Monitors.Attribution).

Definition when (b : bool) (d : EarningsData) : EarningsData := if b then d else zero.
Definition known (n : Node) : bool := match n with Some _ => true | None => false end.

Definition booked (p : Node -> double -> bool) (te : double * Entry) : EarningsData :=
  let b := bucket_time te.1 in
  match te.2 with
  | Forwarded i o f a => plus (when (p i b) (earned_in f a)) (when (p o b) (earned_out f a))
  | Moved m =>
      let f := Monitors.fee_spent m in
      let a := Monitors.amount_moved m in
      plus (when (known (Monitors.source m) && p (Monitors.source m) b) (spent_in f a))
        (when (known (Monitors.destination m) && p (Monitors.destination m) b) (spent_out f a))
  end.

Definition record (t : Table) (te : double * Entry) : option Table :=
  match te.2 with
  | Forwarded i o f a => forward_fee t te.1 i o f a
  | Moved m => xrebalance_attribution t te.1 m
  end.

Fixpoint records (t : Table) (es : list (double * Entry)) : option Table :=
  match es with [] => Some t | e :: es => t ← record t e; records t es end.

Definition ledger (p : Node -> double -> bool) (es : list (double * Entry)) : EarningsData :=
  sum (map (booked p) es).

(** All rows, the rows of a peer, and those since [cutoff]. *)
Definition anyone (n : Node) (b : double) : bool := true.
Definition of_node (m n : Node) (b : double) : bool := bool_decide (n = m).
Definition of_node_since (m : Node) (cutoff : double) (n : Node) (b : double) : bool :=
  bool_decide (n = m) && dge b cutoff.

Definition volume (e : Entry) : Z :=
  match e with Forwarded _ _ f a => f + a | Moved m => Monitors.fee_spent m + Monitors.amount_moved m end.
Definition amounts_ok (e : Entry) : Prop :=
  match e with
  | Forwarded _ _ f a => 0 <= f /\ 0 <= a
  | Moved m => 0 <= Monitors.fee_spent m /\ 0 <= Monitors.amount_moved m
  end.

(** ** Lemmas: sums *)

Ltac columnwise := unfold plus, zip_data, zero in *; simpl; f_equal; lia.

Lemma plus_comm a b : plus a b = plus b a.
Proof. columnwise. Qed.
Lemma plus_assoc a b c : plus a (plus b c) = plus (plus a b) c.
Proof. columnwise. Qed.
Lemma plus_zero_l a : plus zero a = a.
Proof. destruct a. columnwise. Qed.
Lemma plus_zero_r a : plus a zero = a.
Proof. destruct a. columnwise. Qed.

Lemma sum_app l k : sum (l ++ k) = plus (sum l) (sum k).
Proof. induction l as [|d l IH]; simpl; [by rewrite plus_zero_l|]. by rewrite IH, plus_assoc. Qed.

#[global] Instance sum_perm : Proper ((≡ₚ) ==> eq) sum.
Proof.
  intros l k H. induction H as [|d l k _ IH|d e l|l k m _ IH1 _ IH2]; simpl; [done|by rewrite IH| |congruence].
  by rewrite !plus_assoc, (plus_comm e d).
Qed.

(** All columns between 0 and [g] in, and 0 and [h] out. *)
Definition within (g h : Z) (d : EarningsData) : Prop :=
  Forall (fun z => 0 <= z <= g) (take 4 (columns d)) /\ Forall (fun z => 0 <= z <= h) (drop 4 (columns d)).

Lemma within_plus g h g' h' a b : within g h a -> within g' h' b -> within (g + g') (h + h') (plus a b).
Proof.
  unfold within. simpl. rewrite !Forall_cons, !Forall_nil. intros H1 H2. repeat split; lia.
Qed.

Lemma within_le g h g' h' d : within g h d -> g <= g' -> h <= h' -> within g' h' d.
Proof. unfold within. simpl. rewrite !Forall_cons, !Forall_nil. intros H1 H2 H3. repeat split; lia. Qed.

Lemma within_zero g h : 0 <= g -> 0 <= h -> within g h zero.
Proof. unfold within. simpl. rewrite !Forall_cons, !Forall_nil. intros. repeat split; lia. Qed.

Lemma sql_add_within g h a b : within g h (plus a b) -> g < 2 ^ 63 -> h < 2 ^ 63 -> sql_add a b = Some (plus a b).
Proof.
  intros Hw Hg Hh. unfold sql_add. fold (plus a b).
  assert (forallb fits (columns (plus a b)) = true) as ->; [|done]. apply forallb_forall.
  intros z Hz%list_elem_of_In. rewrite <- (take_drop 4 (columns _)) in Hz.
  destruct Hw as [W1 W2]. rewrite Forall_forall in W1, W2. unfold fits.
  apply elem_of_app in Hz as [Hz|Hz]; [apply W1 in Hz|apply W2 in Hz]; lia.
Qed.

Lemma from_row_within g h d : within g h d -> g < 2 ^ 63 -> h < 2 ^ 63 -> from_row d = d.
Proof.
  unfold within, from_row. destruct d. simpl. rewrite !Forall_cons, !Forall_nil. intros H Hg Hh. unfold zip_data. simpl.
  f_equal; apply u64_id; unfold is_u64; lia.
Qed.

(** A sum whose columns stay below [2^63] is exact. *)
Lemma sql_sum_exact g h acc ds :
  within g h (plus acc (sum ds)) -> Forall (within g h) ds -> within g h acc -> g < 2 ^ 63 -> h < 2 ^ 63 ->
  sql_sum acc ds = Some (plus acc (sum ds)).
Proof.
  intros Hw Hds Ha Hg Hh. revert acc Hw Ha. induction ds as [|d ds IH]; intros acc Hw Ha; simpl in *.
  { by rewrite plus_zero_r. }
  apply Forall_cons in Hds as [Hd Hds]. rewrite plus_assoc in *.
  assert (within g h (plus acc d)) as Had.
  { assert (exists g' h', within g' h' (sum ds)) as (g' & h' & Hs).
    { clear -Hds. induction Hds as [|d ds Hd _ (g' & h' & IH)]; [exists 0, 0; by apply within_zero|].
      eexists _, _. simpl. by apply within_plus. }
    unfold within in *. simpl in *. rewrite !Forall_cons, !Forall_nil in *. repeat split; lia. }
  rewrite (sql_add_within g h) by done. cbn [mbind option_bind]. by apply IH.
Qed.

(** ** Lemmas: rows *)

(** The sum of the rows that [p] selects. *)
Definition psum (p : Node -> double -> bool) (t : Table) : EarningsData :=
  sum (map (fun r => when (p (node r) (time_bucket r)) (data r)) t).

(** [p] does not tell equal buckets apart. *)
Definition compatible (p : Node -> double -> bool) : Prop := forall n x y, deq x y = true -> p n x = p n y.

Definition count (t : Table) (n : Node) (b : double) : nat := length (filter (fun r => keyed n b r = true) t).

Fixpoint times (k : nat) (d : EarningsData) : EarningsData :=
  match k with O => zero | S k => plus d (times k d) end.

Lemma entry_count_cons r t n b : count (r :: t) n b = ((if keyed n b r then 1 else 0) + count t n b)%nat.
Proof. unfold count. rewrite filter_cons. by destruct (keyed n b r). Qed.

Lemma deq_dge x y c : deq x y = true -> dge x c = dge y c.
Proof.
  unfold deq, dge. intros E. apply andb_prop in E as [H1 H2]. destruct x as [p|s|], y as [q|s'|]; simpl in *; try done;
    try (destruct s); try (destruct s'); try done; destruct c as [r|u|]; try done; simpl.
  all: try (apply eq_true_iff_eq; rewrite !Qle_bool_iff in *; split; intros; eapply Qle_trans; eassumption).
Qed.

Lemma deq_trans x y z : deq x y = true -> deq z y = deq z x.
Proof.
  unfold deq. intros E. apply andb_prop in E as [H1 H2].
  destruct x as [p|s|], y as [q|s'|], z as [r|u|]; simpl in *; try done;
    try (destruct s); try (destruct s'); try (destruct u); try done.
  apply eq_true_iff_eq. rewrite !andb_true_iff, !Qle_bool_iff in *.
  split; intros [? ?]; split; eapply Qle_trans; eassumption.
Qed.

Lemma update_psum p t n b d t' :
  compatible p -> update t n b d = Some t' ->
  psum p t' = plus (psum p t) (when (p n b) (times (count t n b) d)).
Proof.
  intros Hp. unfold update. revert t'. induction t as [|r t IH]; intros t' E; simpl in E.
  { injection E as <-. rewrite plus_zero_l. by destruct (p n b). }
  destruct (update_row n b d r) as [r'|] eqn:Er; [|done]. cbn [mbind option_bind] in E.
  destruct (mapM (update_row n b d) t) as [t1|] eqn:Et; [|done]. injection E as <-.
  unfold psum in *. cbn [map sum foldr]. fold (sum (map (fun r => when (p (node r) (time_bucket r)) (data r)) t1)).
  rewrite (IH t1 eq_refl), entry_count_cons. unfold update_row in Er.
  destruct (keyed n b r) eqn:K.
  - unfold keyed in K. apply andb_prop in K as [Hn Hb]. apply bool_decide_eq_true in Hn.
    unfold sql_add in Er. destruct (forallb fits _); [|done]. injection Er as <-. simpl.
    rewrite (Hp _ _ _ Hb), Hn. unfold sum. destruct (p n b); columnwise.
  - injection Er as <-. simpl. by rewrite plus_assoc.
Qed.

Lemma ensure_psum p t n b : psum p (ensure t n b) = psum p t.
Proof.
  unfold ensure. destruct (existsb (keyed n b) t); [done|]. unfold psum. rewrite map_app, sum_app. simpl.
  destruct (p n b); simpl; by rewrite !plus_zero_r.
Qed.

Lemma existsb_count t n b : existsb (keyed n b) t = negb (count t n b =? 0)%nat.
Proof. induction t as [|r t IH]; [done|]. rewrite entry_count_cons. simpl. rewrite IH. by destruct (keyed n b r). Qed.

(** At most one row per peer and bucket. *)
Definition unique (t : Table) : Prop := forall n b, (count t n b <= 1)%nat.

Lemma ensure_unique t n b : unique t -> unique (ensure t n b).
Proof.
  intros Hu m c. unfold ensure. rewrite existsb_count. destruct (count t n b =? 0)%nat eqn:E; [|apply Hu].
  simpl. unfold count. rewrite filter_app, length_app, filter_cons. fold (count t m c). simpl.
  specialize (Hu m c). destruct (decide (keyed m c {| node := n; time_bucket := b; data := zero |} = true)) as [K|];
    [|simpl; lia].
  unfold keyed in K. simpl in K. apply andb_prop in K as [Hn Hb]. apply bool_decide_eq_true in Hn as ->.
  assert (count t m c = count t m b) as ->.
  { unfold count. f_equal. apply list_filter_iff. intros r. unfold keyed. by rewrite (deq_trans b c (time_bucket r) Hb). }
  apply Nat.eqb_eq in E. rewrite E. simpl. lia.
Qed.

Lemma ensure_present t n b : deq b b = true -> (1 <= count (ensure t n b) n b)%nat.
Proof.
  intros Hb. unfold ensure. rewrite existsb_count. destruct (count t n b =? 0)%nat eqn:E; simpl.
  - unfold count. rewrite filter_app, length_app, filter_cons, decide_True; [simpl; lia|].
    unfold keyed. simpl. by rewrite bool_decide_true, Hb.
  - apply Nat.eqb_neq in E. lia.
Qed.

Lemma update_count t n b d t' m c : update t n b d = Some t' -> count t' m c = count t m c.
Proof.
  unfold update. revert t'. induction t as [|r t IH]; intros t' E; simpl in E; [by injection E as <-|].
  destruct (update_row n b d r) as [r'|] eqn:Er; [|done]. cbn [mbind option_bind] in E.
  destruct (mapM (update_row n b d) t) as [t1|]; [|done]. injection E as <-. rewrite !entry_count_cons, (IH t1) by done.
  unfold update_row in Er. destruct (keyed n b r); [|by injection Er as <-].
  destruct (sql_add (data r) d); [|done]. by injection Er as <-.
Qed.

Lemma update_within g h g' h' t n b d :
  Forall (fun r => within g h (data r)) t -> within g' h' d -> 0 <= g' -> 0 <= h' -> g + g' < 2 ^ 63 -> h + h' < 2 ^ 63 ->
  exists t', update t n b d = Some t' /\ Forall (fun r => within (g + g') (h + h') (data r)) t'.
Proof.
  intros Ht Hd Hg' Hh' Hg Hh. unfold update. induction Ht as [|r t Hr Ht IH]; [by exists []|].
  destruct IH as (t' & Et & Hw). pose proof (within_plus _ _ _ _ _ _ Hr Hd) as Hp.
  assert (exists r', update_row n b d r = Some r' /\ within (g + g') (h + h') (data r')) as (r' & Er & Hr').
  { unfold update_row. destruct (keyed n b r).
    - rewrite (sql_add_within (g + g') (h + h')) by done. by eexists.
    - eexists. split; [done|]. eapply within_le; [exact Hr|lia..]. }
  exists (r' :: t'). simpl. rewrite Er. cbn [mbind option_bind]. rewrite Et. split; [done|]. by constructor.
Qed.

Lemma ensure_within g h t n b :
  0 <= g -> 0 <= h -> Forall (fun r => within g h (data r)) t -> Forall (fun r => within g h (data r)) (ensure t n b).
Proof.
  intros Hg Hh Ht. unfold ensure. destruct (existsb (keyed n b) t); [done|]. apply Forall_app. split; [done|].
  constructor; [by apply within_zero|done].
Qed.

(** ** Lemmas: booking *)

Lemma update_spec g h g' h' t n b d :
  unique t -> (1 <= count t n b)%nat -> Forall (fun r => within g h (data r)) t -> within g' h' d ->
  0 <= g' -> 0 <= h' -> g + g' < 2 ^ 63 -> h + h' < 2 ^ 63 ->
  exists t', update t n b d = Some t' /\ (forall m c, count t' m c = count t m c)
    /\ Forall (fun r => within (g + g') (h + h') (data r)) t'
    /\ forall p, compatible p -> psum p t' = plus (psum p t) (when (p n b) d).
Proof.
  intros Hu Hc Ht Hd Hg' Hh' Hg Hh. destruct (update_within g h g' h' t n b d) as (t' & Et & Hw); [done..|].
  exists t'. split; [done|]. split; [intros m c; by eapply update_count|]. split; [done|].
  intros p Hp. rewrite (update_psum _ _ _ _ _ _ Hp Et). specialize (Hu n b).
  replace (count t n b) with 1%nat by lia. simpl. by rewrite plus_zero_r.
Qed.

Lemma count_unique t t' : (forall m c, count t' m c = count t m c) -> unique t -> unique t'.
Proof. intros Hc Hu m c. by rewrite Hc. Qed.

Lemma ensure_keeps t n b m c : (count t m c <= count (ensure t n b) m c)%nat.
Proof.
  unfold ensure. destruct (existsb _ t); [done|]. unfold count. rewrite filter_app, length_app. lia.
Qed.

Lemma RN_ordered q : deq (RN q) (RN q) = true.
Proof.
  unfold RN. destruct (q ?= 0)%Q; [done|..]; destruct (Qle_bool _ _); try done; unfold deq; simpl;
    rewrite (proj2 (Qle_bool_iff _ _)) by apply Qle_refl; done.
Qed.

Lemma bucket_ordered q : deq (bucket_time (Fin q)) (bucket_time (Fin q)) = true.
Proof.
  assert (seconds_per_day = Fin (inject_Z 86400)) as E by (vm_compute; reflexivity).
  unfold bucket_time. rewrite E. simpl. destruct (RN (q / inject_Z 86400)) as [p|[]|] eqn:ER; simpl.
  - apply RN_ordered.
  - done.
  - done.
  - exfalso. unfold RN in ER. destruct (_ ?= 0)%Q; [done|..]; by destruct (Qle_bool _ _).
Qed.

Definition entry_ok (te : double * Entry) : Prop := (exists q, te.1 = Fin q) /\ amounts_ok te.2.

Lemma bind_small v : v < 2 ^ 63 -> bind_u64 v = v.
Proof. intros H. unfold bind_u64. destruct (Z.ltb_spec v (2 ^ 63)); lia. Qed.

Lemma within_earned f a :
  0 <= f -> 0 <= a -> f + a < 2 ^ 63 ->
  within (f + a) 0 (earned_in f a) /\ within 0 (f + a) (earned_out f a)
  /\ within (f + a) 0 (spent_in f a) /\ within 0 (f + a) (spent_out f a).
Proof.
  intros Hf Ha Hs. unfold within. simpl. rewrite !bind_small by lia. rewrite !Forall_cons, !Forall_nil.
  repeat split; lia.
Qed.

Lemma book_spec g h g' h' t n b d :
  deq b b = true -> unique t -> Forall (fun r => within g h (data r)) t -> within g' h' d ->
  0 <= g -> 0 <= h -> 0 <= g' -> 0 <= h' -> g + g' < 2 ^ 63 -> h + h' < 2 ^ 63 ->
  exists t', book t n b d = Some t' /\ unique t' /\ Forall (fun r => within (g + g') (h + h') (data r)) t'
    /\ forall p, compatible p -> psum p t' = plus (psum p t) (when (known n && p n b) d).
Proof.
  intros Hb Hu Ht Hd Hg0 Hh0 Hg' Hh' Hg Hh. destruct n as [n|]; simpl.
  - destruct (update_spec g h g' h' (ensure t (Some n) b) (Some n) b d) as (t' & E & Hc & Hw & Hs); try done.
    + by apply ensure_unique.
    + by apply ensure_present.
    + by apply ensure_within.
    + exists t'. split; [done|]. split; [by eapply count_unique, ensure_unique|]. split; [done|].
      intros p Hp. by rewrite Hs, ensure_psum.
  - exists t. split; [done|]. split; [done|]. split.
    + eapply Forall_impl; [exact Ht|]. intros r Hr. eapply within_le; [exact Hr|lia..].
    + intros p Hp. simpl. by rewrite plus_zero_r.
Qed.

Lemma record_spec g t te :
  entry_ok te -> unique t -> Forall (fun r => within g g (data r)) t -> 0 <= g -> g + volume te.2 < 2 ^ 63 ->
  exists t', record t te = Some t' /\ unique t'
    /\ Forall (fun r => within (g + volume te.2) (g + volume te.2) (data r)) t'
    /\ forall p, compatible p -> psum p t' = plus (psum p t) (booked p te).
Proof.
  destruct te as [now e]. intros [[q Hq] Ha] Hu Ht Hg Hv. simpl in Hq, Ha, Hv |- *. subst now.
  set (b := bucket_time (Fin q)). assert (deq b b = true) as Hb by apply bucket_ordered.
  destruct e as [i o f a|m]; simpl in *.
  - destruct (within_earned f a) as (Wi & Wo & _); [lia..|]. unfold record, forward_fee. simpl. fold b.
    destruct (update_spec g g (f + a) 0 (ensure (ensure t i b) o b) i b (earned_in f a)) as (t1 & E1 & C1 & W1 & S1);
      [by apply ensure_unique, ensure_unique
      |etrans; [by apply (ensure_present t)|apply ensure_keeps]
      |apply ensure_within; [done..|]; by apply ensure_within|done|lia..|].
    destruct (update_spec (g + (f + a)) (g + 0) 0 (f + a) t1 o b (earned_out f a)) as (t2 & E2 & C2 & W2 & S2);
      [eapply count_unique; [exact C1|by apply ensure_unique, ensure_unique]
      |rewrite C1; by apply ensure_present|done|done|lia..|].
    rewrite E1. cbn [mbind option_bind]. exists t2. split; [done|]. split.
    { eapply count_unique; [exact C2|]. eapply count_unique; [exact C1|]. by apply ensure_unique, ensure_unique. }
    split; [eapply Forall_impl; [exact W2|]; intros r Hr; eapply within_le; [exact Hr|lia..]|].
    intros p Hp. rewrite S2, S1, !ensure_psum, <- plus_assoc by done. done.
  - destruct (within_earned (Monitors.fee_spent m) (Monitors.amount_moved m)) as (_ & _ & Wi & Wo); [lia..|].
    unfold record, xrebalance_attribution. simpl. fold b.
    destruct (book_spec g g (Monitors.fee_spent m + Monitors.amount_moved m) 0 t (Monitors.source m) b
      (spent_in (Monitors.fee_spent m) (Monitors.amount_moved m))) as (t1 & E1 & U1 & W1 & S1); [done|done|done|done|lia..|].
    rewrite E1. cbn [mbind option_bind].
    destruct (book_spec (g + (Monitors.fee_spent m + Monitors.amount_moved m)) (g + 0) 0
      (Monitors.fee_spent m + Monitors.amount_moved m) t1 (Monitors.destination m) b
      (spent_out (Monitors.fee_spent m) (Monitors.amount_moved m))) as (t2 & E2 & U2 & W2 & S2);
      [done|done|done|done|lia..|].
    exists t2. split; [done|]. split; [done|].
    split; [eapply Forall_impl; [exact W2|]; intros r Hr; eapply within_le; [exact Hr|lia..]|].
    intros p Hp. rewrite S2, S1, <- plus_assoc by done. done.
Qed.

Definition volumes (es : list (double * Entry)) : Z := sumZ (map (fun te => volume te.2) es).

Lemma volume_nonneg te : entry_ok te -> 0 <= volume te.2.
Proof. destruct te as [now []]; intros [_ H]; simpl in *; lia. Qed.

Lemma volumes_nonneg es : Forall entry_ok es -> 0 <= volumes es.
Proof.
  intros H. apply sumZ_nonneg, Forall_fmap. eapply Forall_impl; [exact H|]. intros te. apply volume_nonneg.
Qed.

Lemma records_spec g t es :
  Forall entry_ok es -> unique t -> Forall (fun r => within g g (data r)) t -> 0 <= g -> g + volumes es < 2 ^ 63 ->
  exists t', records t es = Some t' /\ unique t'
    /\ Forall (fun r => within (g + volumes es) (g + volumes es) (data r)) t'
    /\ forall p, compatible p -> psum p t' = plus (psum p t) (ledger p es).
Proof.
  intros Hes. revert g t. induction Hes as [|te es Hte Hes IH]; intros g t Hu Ht Hg Hv.
  - exists t. split; [done|]. split; [done|]. split; [by rewrite Z.add_0_r|]. intros p _. by rewrite plus_zero_r.
  - pose proof (volume_nonneg te Hte). pose proof (volumes_nonneg es Hes).
    change (volumes (te :: es)) with (volume te.2 + volumes es) in *.
    destruct (record_spec g t te) as (t1 & E1 & U1 & W1 & S1); [done..|lia|].
    destruct (IH (g + volume te.2) t1) as (t2 & E2 & U2 & W2 & S2); [done|done|lia..|].
    exists t2. simpl. rewrite E1. split; [done|]. split; [done|].
    split; [by rewrite Z.add_assoc|]. intros p Hp. rewrite S2, S1, <- plus_assoc by done. done.
Qed.

(** ** Lemmas: queries *)

Lemma when_within g h b d : within g h d -> 0 <= g -> 0 <= h -> within g h (when b d).
Proof. intros. destruct b; [done|by apply within_zero]. Qed.

Lemma booked_within p te :
  entry_ok te -> volume te.2 < 2 ^ 63 -> within (volume te.2) (volume te.2) (booked p te).
Proof.
  intros [_ Ha] Hv. destruct te as [now e]. unfold booked. simpl in *.
  destruct e as [i o f a|m]; simpl in *.
  - destruct (within_earned f a) as (Wi & Wo & _); [lia..|].
    eapply within_le; [apply within_plus; (apply when_within; [eassumption|lia..])|lia..].
  - destruct (within_earned (Monitors.fee_spent m) (Monitors.amount_moved m)) as (_ & _ & Wi & Wo); [lia..|].
    eapply within_le; [apply within_plus; (apply when_within; [eassumption|lia..])|lia..].
Qed.

Lemma ledger_within p es :
  Forall entry_ok es -> volumes es < 2 ^ 63 -> within (volumes es) (volumes es) (ledger p es).
Proof.
  intros Hes. induction Hes as [|te es Hte Hes IH]; intros Hv; [by apply within_zero|].
  pose proof (volume_nonneg te Hte). pose proof (volumes_nonneg es Hes).
  change (volumes (te :: es)) with (volume te.2 + volumes es) in *.
  apply within_plus; [apply booked_within; [done|lia]|apply IH; lia].
Qed.

(** A selection of rows is summed as the rows that the selection keeps. *)
Lemma psum_filter p (P : Row -> Prop) `{!forall r, Decision (P r)} t :
  (forall r, P r <-> p (node r) (time_bucket r) = true) -> sum (map data (filter P t)) = psum p t.
Proof.
  intros HP. induction t as [|r t IH]; [done|]. rewrite filter_cons. unfold psum in *. simpl. rewrite <- IH.
  case_decide as D.
  - apply HP in D. by rewrite D.
  - destruct (p (node r) (time_bucket r)) eqn:E; [by apply HP in E|]. simpl. by rewrite plus_zero_l.
Qed.

Lemma psum_filter_twice p (P R : Row -> Prop) `{!forall r, Decision (P r), !forall r, Decision (R r)} t :
  (forall r, P r /\ R r <-> p (node r) (time_bucket r) = true) ->
  sum (map data (filter P (filter R t))) = psum p t.
Proof. intros HPR. rewrite list_filter_filter. by apply psum_filter. Qed.

(** The sums that the code reads are exact where the ledger is. *)
Lemma sum_read g t :
  within g g (sum (map data t)) -> Forall (fun r => within g g (data r)) t -> 0 <= g < 2 ^ 63 ->
  from_row <$> sql_sum zero (map data t) = Some (sum (map data t)).
Proof.
  intros Hs Ht Hg. rewrite (sql_sum_exact g g).
  - rewrite plus_zero_l. simpl. by rewrite (from_row_within g g) by (done || lia).
  - by rewrite plus_zero_l.
  - by apply Forall_fmap.
  - apply within_zero; lia.
  - lia.
  - lia.
Qed.

Lemma Forall_filter_sub {A} (P : A -> Prop) (Q : A -> Prop) `{!forall a, Decision (Q a)} l :
  Forall P l -> Forall P (filter Q l).
Proof.
  intros HP. apply Forall_forall. intros a Ha. apply list_elem_of_filter in Ha as [_ Ha].
  rewrite Forall_forall in HP. by apply HP.
Qed.

Lemma compatible_all m c :
  compatible anyone /\ compatible (of_node m) /\ compatible (of_node_since m c).
Proof. split_and!; intros n x y E; [done|done|]. unfold of_node_since. by rewrite (deq_dge _ _ c E). Qed.

Lemma psum_anyone t : psum anyone t = sum (map data t).
Proof. unfold psum. simpl. done. Qed.

(** The sums of the groups are the sum of all. *)
Lemma sum_groups t ns :
  NoDup ns -> (forall r, r ∈ t -> node r ∈ ns) ->
  sum (map (fun n => sum (map data (rows_of n t))) ns) = sum (map data t).
Proof.
  intros Hnd. induction t as [|r t IH]; intros Hin.
  - simpl. clear. induction ns as [|n ns IH]; [done|]. simpl. by rewrite IH.
  - simpl. rewrite <- IH by (intros; apply Hin; by right). specialize (Hin r ltac:(left)). clear IH.
    induction Hnd as [|n ns Hn Hnd IHn]; [by apply elem_of_nil in Hin|]. simpl.
    unfold rows_of at 1. rewrite filter_cons. fold (rows_of n t). apply elem_of_cons in Hin as [E|Hin].
    + rewrite decide_True by done. simpl. rewrite <- plus_assoc. f_equal. f_equal. f_equal.
      apply map_ext_in. intros m Hm%list_elem_of_In. unfold rows_of at 1. rewrite filter_cons, decide_False; [done|].
      intros Em. apply Hn. by rewrite <- E, Em.
    + rewrite decide_False by (intros Em; apply Hn; by rewrite <- Em). rewrite IHn by done.
      rewrite !plus_assoc. f_equal. apply plus_comm.
Qed.

Lemma accumulate_exact g acc ds :
  within g g (plus acc (sum ds)) -> Forall (within g g) ds -> within g g acc -> g < 2 ^ 63 ->
  foldl accumulate acc ds = plus acc (sum ds).
Proof.
  intros Hw Hds Ha Hg. pose proof (sql_sum_exact g g acc ds Hw Hds Ha Hg Hg) as E.
  revert acc Hw Ha E. induction ds as [|d ds IH]; intros acc Hw Ha E; simpl in *; [by rewrite plus_zero_r|].
  apply Forall_cons in Hds as [Hd Hds]. unfold sql_add in E. destruct (forallb fits _) eqn:F; [|done].
  cbn [mbind option_bind] in E. fold (plus acc d) in E, F. rewrite forallb_forall in F.
  assert (accumulate acc d = plus acc d) as Ed.
  { assert (forall z, In z (columns (plus acc d)) -> 0 <= z -> u64 z = z) as Hz.
    { intros z Hz H0. specialize (F z Hz). unfold fits in F. apply u64_id. unfold is_u64. lia. }
    unfold within in Ha, Hd. simpl in Ha, Hd. rewrite !Forall_cons, !Forall_nil in Ha, Hd.
    unfold accumulate, plus, zip_data. f_equal; (apply Hz; [simpl; tauto|lia]). }
  rewrite Ed, IH; [by rewrite plus_assoc|done|by rewrite <- plus_assoc| |by rewrite <- plus_assoc].
  (* the partial sum is within the bounds of the full one *)
  assert (exists g' h', within g' h' (sum ds)) as (g' & h' & Hs).
  { clear -Hds. induction Hds as [|e es He _ (g' & h' & IH)]; [exists 0, 0; by apply within_zero|].
    eexists _, _. simpl. by apply within_plus. }
  rewrite plus_assoc in Hw. unfold within in *. simpl in *. rewrite !Forall_cons, !Forall_nil in *. repeat split; lia.
Qed.

Lemma groups_exact g t :
  Forall (fun r => within g g (data r)) t ->
  (forall n, within g g (sum (map data (rows_of n t)))) -> 0 <= g < 2 ^ 63 ->
  groups t = Some (map (fun n => (n, sum (map data (rows_of n t)))) (remove_dups (map node t))).
Proof.
  intros Ht Hs Hg. unfold groups. apply mapM_Some_2. apply Forall2_fmap_r, Forall_Forall2_diag, Forall_forall.
  intros n _. pose proof (sum_read g (rows_of n t) (Hs n) (Forall_filter_sub _ _ _ Ht) Hg) as E.
  destruct (sql_sum zero (map data (rows_of n t))) as [d|]; [|done]. injection E as E. simpl. by rewrite E.
Qed.

(** ** Properties *)

(** C31: the table of earnings is the ledger of its events: starting empty, after any
    sequence of forwards and completed rebalance parts whose fees and amounts are
    below 2^63 msat in total, the table has one row per peer and day, and for every
    peer the sums that the code reads, over all days or since any cutoff, are the
    fees and amounts of exactly the events of that peer, with nothing lost to
    overflow; a part with an unknown peer on one side is booked on the other only. *)
Theorem earnings_ledger es :
  Forall entry_ok es -> volumes es < 2 ^ 63 ->
  exists t, records [] es = Some t /\ unique t
    /\ (forall n, request_earnings_info t n = Some (ledger (of_node n) es))
    /\ forall n c, window t n c = Some (ledger (of_node_since n c) es).
Proof.
  intros Hes Hv. pose proof (volumes_nonneg es Hes) as H0.
  destruct (records_spec 0 [] es) as (t & E & U & W & S); [done| |done|lia..|].
  { intros n b. unfold count. simpl. lia. }
  exists t. split; [done|]. split; [done|]. rewrite Z.add_0_l in W.
  assert (forall p, compatible p -> psum p t = ledger p es) as Hp.
  { intros p Hc. rewrite (S p Hc). by rewrite plus_zero_l. }
  split.
  - intros n. destruct (compatible_all n (Fin 0)) as (_ & Hc & _).
    assert (sum (map data (rows_of n t)) = ledger (of_node n) es) as Hs.
    { rewrite <- (Hp _ Hc). apply psum_filter. intros r. unfold of_node. by rewrite bool_decide_eq_true. }
    rewrite <- Hs. apply (sum_read (volumes es)); [|by apply Forall_filter_sub|lia].
    rewrite Hs. by apply ledger_within.
  - intros n c. destruct (compatible_all n c) as (_ & _ & Hc).
    assert (sum (map data (rows_of n (recent c t))) = ledger (of_node_since n c) es) as Hs.
    { rewrite <- (Hp _ Hc). apply psum_filter_twice. intros r. unfold of_node_since, since.
      by rewrite andb_true_iff, bool_decide_eq_true. }
    rewrite <- Hs. apply (sum_read (volumes es)); [|by apply Forall_filter_sub, Forall_filter_sub|lia].
    rewrite Hs. by apply ledger_within.
Qed.

(** The status report adds up: it lists every peer of the table once, with the
    sums of that peer, and its total is what all events booked; where both sides of
    every rebalance part are known, fees and amounts of the incoming sides are those
    of the outgoing sides. *)
Theorem earnings_status_total es :
  Forall entry_ok es -> volumes es < 2 ^ 63 ->
  exists t gs, records [] es = Some t /\ status t = Some (gs, ledger anyone es)
    /\ NoDup (map fst gs) /\ (forall n, n ∈ map fst gs <-> n ∈ map node t)
    /\ (forall n d, (n, d) ∈ gs -> d = ledger (of_node n) es)
    /\ (Forall (fun te => match te.2 with
                         | Moved m => known (Monitors.source m) && known (Monitors.destination m) = true
                         | _ => True end) es ->
        in_earnings (ledger anyone es) = out_earnings (ledger anyone es)
        /\ in_forwarded (ledger anyone es) = out_forwarded (ledger anyone es)
        /\ in_expenditures (ledger anyone es) = out_expenditures (ledger anyone es)
        /\ in_rebalanced (ledger anyone es) = out_rebalanced (ledger anyone es)).
Proof.
  intros Hes Hv. pose proof (volumes_nonneg es Hes) as H0.
  destruct (records_spec 0 [] es) as (t & E & U & W & S); [done| |done|lia..|].
  { intros n b. unfold count. simpl. lia. }
  rewrite Z.add_0_l in W.
  assert (forall p, compatible p -> psum p t = ledger p es) as Hp.
  { intros p Hc. rewrite (S p Hc). by rewrite plus_zero_l. }
  assert (forall n, sum (map data (rows_of n t)) = ledger (of_node n) es) as Hn.
  { intros n. rewrite <- (Hp _ (proj1 (proj2 (compatible_all n (Fin 0))))). apply psum_filter.
    intros r. unfold of_node. by rewrite bool_decide_eq_true. }
  assert (sum (map data t) = ledger anyone es) as Ha.
  { rewrite <- psum_anyone. apply Hp, (compatible_all None (Fin 0)). }
  exists t. eexists. split; [done|]. unfold status. rewrite (groups_exact (volumes es)).
  2: done.
  2: intros n; rewrite Hn; by apply ledger_within.
  2: lia.
  cbn [mbind option_bind]. unfold totalled. rewrite map_map. simpl.
  rewrite (accumulate_exact (volumes es)); rewrite ?plus_zero_l, ?sum_groups, ?Ha.
  - split; [done|]. rewrite map_map, map_id. split; [apply NoDup_remove_dups|].
    split; [intros n; apply elem_of_remove_dups|]. split.
    + intros n d (m & [= -> ->] & _)%list_elem_of_fmap. apply Hn.
    + clear. intros Hk. unfold ledger. induction Hk as [|te es Hte _ IH]; [done|]. simpl.
      destruct te as [now [i o f a|m]]; simpl in *; [lia|]. apply andb_prop in Hte as [-> ->]. simpl. lia.
  - apply NoDup_remove_dups.
  - intros r Hr. apply elem_of_remove_dups. by apply list_elem_of_fmap_2.
  - by apply ledger_within.
  - apply NoDup_remove_dups.
  - intros r Hr. apply elem_of_remove_dups. by apply list_elem_of_fmap_2.
  - apply Forall_fmap, Forall_forall. intros n _. simpl. rewrite Hn. by apply ledger_within.
  - apply within_zero; lia.
  - done.
Qed.

Definition sample_peer (c : Z) : Node := Some (replicate 33 c).
Definition sample_entries : list (double * Entry) :=
  [(Fin 100000, Forwarded (sample_peer 2) (sample_peer 3) 1000 5000000);
   (Fin 200000, Moved {| Monitors.source := sample_peer 3; Monitors.destination := sample_peer 2;
                         Monitors.amount_moved := 4000000; Monitors.fee_spent := 700 |})].

Lemma sample_entries_ok : Forall entry_ok sample_entries.
Proof. repeat constructor; try (by eexists); simpl; lia. Qed.

Lemma earnings_ledger_witness :
  (exists t, records [] sample_entries = Some t /\ unique t
    /\ (forall n, request_earnings_info t n = Some (ledger (of_node n) sample_entries))
    /\ forall n c, window t n c = Some (ledger (of_node_since n c) sample_entries))
  /\ out_expenditures (ledger (of_node_since (sample_peer 2) (Fin 150000)) sample_entries) = 700.
Proof.
  split; [|vm_compute; reflexivity].
  apply (earnings_ledger sample_entries); [exact sample_entries_ok|vm_compute; reflexivity].
Defined.

Lemma earnings_status_total_witness :
  exists t gs, records [] sample_entries = Some t /\ status t = Some (gs, ledger anyone sample_entries).
Proof.
  destruct (earnings_status_total sample_entries sample_entries_ok) as (t & gs & E & S & _).
  - vm_compute. reflexivity.
  - exists t, gs. exact (conj E S).
Defined.

End Tracker.
