(* ===== verification/XRebalance.v ===== *)
(** * Planning a rebalance (src/Boss/Mod/XRebalancer.cpp)

    A cycle moves funds from peers with too much on our side ("drain") to peers with
    too little ("fill"), and pays no more than what the two sides earn.  The balances
    are read from [listpeerchannels], the earnings from the table of [Earnings]; the
    plan is a list of channels with caps on each side, an amount and a fee limit.

    The computations are on doubles, as in the code.  [None] is a conversion of a
    double that does not fit an integer type, which is undefined behaviour.  Amounts
    in satoshis are signed 64-bit integers there; the theorems assume them below
    2^51, more than there will ever be, and they do not overflow then.

    The order in which [std::sort] leaves peers of equal rate is unspecified: the
    sorting function is a parameter. *)

From stdpp Require Import base list numbers strings gmap sorting.
From Stdlib Require Import QArith Qround Lqa.
From S2P Require Import Prelude.
From S2P Require Import Double.
From S2P Require Import Amount.
From S2P Require Import LnIds.
From S2P Require Import Jsmn.
From S2P Require Import Reply.
From S2P Require Import Earnings.
Import Jsmn.
Import Reply.

#[local] Open Scope Z_scope.

Module Plan.

(** ** Settings *)

Record Settings := {
  per_hour : double;
  floor_auto : bool;
  floor_ppm : double;
  window_days : double;
  fill_band : double;
  drain_band : double;
  maxparts : Z;
  grant_ppm : double;
  grant_weight : double;
  gain : double
}.

Definition d0 : double := Fin 0.
Definition d100 : double := d_of_Z 100.
Definition million : double := d_of_Z 1000000.

Definition default_settings : Settings :=
  {| per_hour := d_of_Z 24; floor_auto := true; floor_ppm := d_of_Z 50; window_days := d_of_Z 90;
     fill_band := d_of_Z 25; drain_band := d_of_Z 75; maxparts := 80; grant_ppm := d0;
     grant_weight := d_of_Z 25; gain := d_of_Z 1 |}.

(** ** Channels *)

Record Chan := { scid : bytes; node : Node; online : bool; cap_sat : Z; local_sat : Z }.

Section Channels.
#[local] Open Scope reply_scope.

Definition read_chan (c : option json) : outcome (option Chan) :=
  let* h := has c "state" in
  if negb h then inl None
  else
    let* state_j := get c "state" in
    let* state := text state_j in
    if negb (bool_decide (state = lit "CHANNELD_NORMAL")) then inl None
    else
      let* all := has_all c ["short_channel_id"; "peer_id"; "to_us_msat"; "total_msat"] in
      if negb all then inl None
      else
        let* bal := match c with Some j => channel_balance j | None => inr Logic end in
        let cap := total bal / 1000 in
        let loc := to_us bal / 1000 in
        if cap <=? 0 then inl None
        else
          let* h := has c "peer_connected" in
          let* on := if (h : bool) then let* j := get c "peer_connected" in flag j else inl false in
          let* scid_j := get c "short_channel_id" in
          let* scid_s := text scid_j in
          let* peer_j := get c "peer_id" in
          let* peer_s := text peer_j in
          let* n := nodeid_of peer_s in
          inl (Some {| scid := scid_s; node := n; online := on; cap_sat := cap; local_sat := loc |}).

(** An exception ends the loop, and the channels read so far are used. *)
Fixpoint build_loop (l : list json) (out : list Chan) : option (list Chan) :=
  match l with
  | [] => Some out
  | c :: l =>
      match read_chan (Some c) with
      | inl (Some ch) => build_loop l (out ++ [ch])
      | inl None => build_loop l out
      | inr Undefined => None
      | inr _ => Some out
      end
  end.

Definition build_chans (res : json) : option (list Chan) :=
  match (if negb (jis_object (Some res)) then inl None
         else let* h := has (Some res) "channels" in
              if negb h then inl None
              else let* a := get (Some res) "channels" in
                   match a with Some (JArr l) => inl (Some l) | _ => inl None end) with
  | inl (Some l) => build_loop l []
  | inl None => Some []
  | inr Undefined => None
  | inr _ => Some []
  end.

End Channels.

(** ** Rates *)

Record NetPpm := { in_net : option double; out_net : option double }.

(** One side: earnings [e], expenditures [x], forwarded volume [f], capacity [cm]. *)
Definition joined (s : Settings) (e x f cm : double) : option double :=
  let g :=
    if dgt (grant_ppm s) d0 then
      let w := ddiv (dmul cm (grant_weight s)) d100 in if dgt w f then dsub w f else d0
    else d0 in
  if negb (dgt (dadd f g) d0) then None
  else
    Some (dmul (ddiv (dmul (dadd (dsub e x) (ddiv (dmul g (grant_ppm s)) million)) million) (dadd f g)) (gain s)).

(** The capacity of a peer's channels in msat, added up in order. *)
Definition cap_msat (chans : list Chan) : gmap Node double :=
  foldl (fun m c =>
    <[node c := dadd (default d0 (m !! node c)) (dmul (d_of_Z (cap_sat c)) (d_of_Z 1000))]> m) ∅ chans.

(** The rows of the query: sums per peer since [cutoff]. *)
Definition earnings (t : list Tracker.Row) (cutoff : double) : option (list (Node * Tracker.EarningsData)) :=
  let t := Tracker.recent cutoff t in
  mapM (fun n => d ← Tracker.sql_sum Tracker.zero (map Tracker.data (Tracker.rows_of n t)); Some (n, d))
    (remove_dups (map Tracker.node t)).

Definition cutoff_of (s : Settings) (now : Z) : double :=
  dsub (d_of_Z now)
    (dmul (dmul (dmul (window_days s) (d_of_Z 24)) (d_of_Z 60)) (d_of_Z 60)).

Definition net_row (s : Settings) (caps : gmap Node double) (net : gmap Node NetPpm)
    (r : Node * Tracker.EarningsData) : gmap Node NetPpm :=
  let cm := default d0 (caps !! r.1) in
  let d := r.2 in
  <[r.1 := {| in_net := joined s (d_of_Z (Tracker.in_earnings d)) (d_of_Z (Tracker.in_expenditures d))
                          (d_of_Z (Tracker.in_forwarded d)) cm;
              out_net := joined s (d_of_Z (Tracker.out_earnings d)) (d_of_Z (Tracker.out_expenditures d))
                           (d_of_Z (Tracker.out_forwarded d)) cm |}]> net.

Definition granted (s : Settings) (net : gmap Node NetPpm) (ce : Node * double) : gmap Node NetPpm :=
  match net !! ce.1 with
  | Some _ => net
  | None => <[ce.1 := {| in_net := joined s d0 d0 d0 ce.2; out_net := joined s d0 d0 d0 ce.2 |}]> net
  end.

Definition net_ppm (s : Settings) (chans : list Chan) (rows : list (Node * Tracker.EarningsData))
    : gmap Node NetPpm :=
  let caps := cap_msat chans in
  let net := foldl (net_row s caps) ∅ rows in
  if dgt (grant_ppm s) d0 then foldl (granted s) net (map_to_list caps) else net.

(** ** Peers *)

Record Peer := {
  p_node : Node;
  chans : list Chan;
  p_cap : Z;
  p_local : Z;
  p_online : bool;
  pct_local : double;
  tgt_fill : Z;
  tgt_drain : Z
}.

(** The satoshis at [pct] percent of [cap]. *)
Definition edge (cap : Z) (pct : double) : option Z := d_to_i64 (ddiv (dmul (d_of_Z cap) pct) d100).

Definition channels_of (n : Node) (cs : list Chan) : list Chan := filter (fun c => node c = n) cs.

Definition peer_of (s : Settings) (cs : list Chan) (n : Node) : option (option Peer) :=
  let mine := channels_of n cs in
  let cap := sumZ (map cap_sat mine) in
  let loc := sumZ (map local_sat mine) in
  if cap <=? 0 then Some None
  else
    ef ← edge cap (fill_band s);
    ed ← edge cap (drain_band s);
    Some (Some {| p_node := n; chans := mine; p_cap := cap; p_local := loc; p_online := existsb online mine;
                  pct_local := ddiv (dmul d100 (d_of_Z loc)) (d_of_Z cap);
                  tgt_fill := Z.max 0 (ef - loc); tgt_drain := Z.max 0 (loc - ed) |}).

(** The peers in the order of the map, here that of their first channel: the order
    is lost in the sorting that follows. *)
Definition peers_of (s : Settings) (cs : list Chan) : option (list Peer) :=
  ps ← mapM (peer_of s cs) (remove_dups (map node cs));
  Some (omap id ps).

(** ** Caps *)

Record ScidCap := { c_scid : bytes; max_sat : Z }.

Definition min_cap_sat : Z := 1000.

(** The room of a channel up to the edge of the band. *)
Definition headroom (band : double) (fill_side : bool) (c : Chan) : option Z :=
  e ← edge (cap_sat c) band;
  let v := if fill_side then e - local_sat c else local_sat c - e in
  Some (if 0 <? v then v else 0).

Definition cap_of (deficit : Z) (total : double) (h : Z) : option Z :=
  d_to_i64 (ddiv (dmul (d_of_Z deficit) (d_of_Z h)) total).

Fixpoint spread (deficit : Z) (total : double) (chs : list (Chan * Z)) : option (list ScidCap) :=
  match chs with
  | [] => Some []
  | (c, h) :: chs =>
      if h <=? 0 then spread deficit total chs
      else
        cap ← cap_of deficit total h;
        rest ← spread deficit total chs;
        Some (if cap <? min_cap_sat then rest else {| c_scid := scid c; max_sat := cap |} :: rest)
  end.

Definition distribute_caps (p : Peer) (band : double) (fill_side : bool) (deficit : Z) : option (list ScidCap) :=
  hs ← mapM (headroom band fill_side) (chans p);
  let total := foldl (fun acc h => dadd acc (d_of_Z h)) d0 hs in
  if dle total d0 || (deficit <=? 0) then Some [] else spread deficit total (zip (chans p) hs).

(** ** Pools *)

Record PoolItem := { pr : Peer; ppm : double; deficit : Z; caps : list ScidCap }.

Definition pool_item (p : Peer) (rate : double) (d : Z) (cs : list ScidCap) : list PoolItem :=
  match cs with [] => [] | _ => [{| pr := p; ppm := rate; deficit := d; caps := cs |}] end.

Definition rate_above_0 (r : option double) : bool := match r with Some x => dgt x d0 | None => false end.

(** What a peer adds to the two pools. *)
Definition candidate (s : Settings) (net : gmap Node NetPpm) (unmanaged : Node -> bool) (p : Peer)
    : option (list PoolItem * list PoolItem) :=
  if negb (p_online p) then Some ([], [])
  else if unmanaged (p_node p) then Some ([], [])
  else
    match net !! p_node p with
    | None => Some ([], [])
    | Some np =>
        if dle (pct_local p) (fill_band s) && rate_above_0 (out_net np) && (0 <? tgt_fill p) then
          cs ← distribute_caps p (fill_band s) true (tgt_fill p);
          Some (pool_item p (default d0 (out_net np)) (tgt_fill p) cs, [])
        else if dge (pct_local p) (drain_band s) && rate_above_0 (in_net np) && (0 <? tgt_drain p) then
          cs ← distribute_caps p (drain_band s) false (tgt_drain p);
          Some ([], pool_item p (default d0 (in_net np)) (tgt_drain p) cs)
        else Some ([], [])
    end.

Definition pools (s : Settings) (net : gmap Node NetPpm) (unmanaged : Node -> bool) (ps : list Peer)
    : option (list PoolItem * list PoolItem) :=
  cs ← mapM (candidate s net unmanaged) ps;
  Some (concat (map fst cs), concat (map snd cs)).

(** ** The curve *)

(** Cumulative deficits with the rate of the peer that is reached. *)
Fixpoint cum (acc : Z) (pool : list PoolItem) : list (Z * double) :=
  match pool with
  | [] => []
  | it :: pool => let acc := acc + deficit it in (acc, ppm it) :: cum acc pool
  end.

Definition minus_one : double := d_of_Z (-1).

Fixpoint threshold_at (c : list (Z * double)) (target : Z) : double :=
  match c with
  | [] => minus_one
  | e :: c => if target <=? e.1 then e.2 else threshold_at c target
  end.

Record CurvePoint := { n : Z; fill_ppm : double; drain_ppm : double; joint : double }.

Fixpoint curve_of (fc dc : list (Z * double)) (bps : list Z) : list CurvePoint :=
  match bps with
  | [] => []
  | b :: bps =>
      let f := threshold_at fc b in
      let d := threshold_at dc b in
      if dlt f d0 || dlt d d0 then []
      else {| n := b; fill_ppm := f; drain_ppm := d; joint := dadd f d |} :: curve_of fc dc bps
  end.

Definition breakpoints (fc dc : list (Z * double)) : list Z :=
  remove_dups (merge_sort Z.le (map fst fc ++ map fst dc)).

Definition curve (fill drain : list PoolItem) : list CurvePoint :=
  let fc := cum 0 fill in
  let dc := cum 0 drain in
  curve_of fc dc (breakpoints fc dc).

(** ** The ladder of floors *)

Definition LADDER_RATIO : double := RN (16 # 10).
Definition NOISE_PPM : double := d_of_Z 10.
Definition MIN_GAP : double := RN (125 # 100).

(** The last row, from the first on, where both sides clear the noise. *)
Fixpoint useful_from (i best : nat) (c : list CurvePoint) : nat :=
  match c with
  | [] => best
  | p :: c =>
      if dge (fill_ppm p) NOISE_PPM && dge (drain_ppm p) NOISE_PPM then useful_from (S i) i c else best
  end.

(** [t], [t / 1.6], ... above [low]; the fuel bounds their number. *)
Fixpoint targets_from (fuel : nat) (t low : double) : option (list double) :=
  if dgt t low then
    match fuel with
    | O => None
    | S f => ts ← targets_from f (ddiv t LADDER_RATIO) low; Some (t :: ts)
    end
  else Some [].

(** The row that a floor of [tgt] selects among [c]: the last of the first rows whose
    joint rate is not below it. *)
Fixpoint snap (tgt : double) (best : CurvePoint) (c : list CurvePoint) : CurvePoint :=
  match c with
  | [] => best
  | p :: c => if dge (joint p) tgt then snap tgt p c else best
  end.

Definition already (ladder : list CurvePoint) (m : Z) : bool := existsb (fun p => n p =? m) ladder.

Fixpoint rungs (first : CurvePoint) (useful : list CurvePoint) (ladder : list CurvePoint) (last_joint : double)
    (targets : list double) : list CurvePoint :=
  match targets with
  | [] => ladder
  | tgt :: targets =>
      let pick := snap tgt first useful in
      if already ladder (n pick) then rungs first useful ladder last_joint targets
      else if dgt last_joint d0 && dgt (joint pick) (ddiv last_joint MIN_GAP) then
        rungs first useful ladder last_joint targets
      else rungs first useful (ladder ++ [pick]) (joint pick) targets
  end.

Definition derive_ladder (fuel : nat) (c : list CurvePoint) : option (list CurvePoint) :=
  match c with
  | [] => Some []
  | first :: _ =>
      let useful_idx := useful_from 0 0 c in
      let useful := default first (c !! useful_idx) in
      ts ← targets_from fuel (joint first) (joint useful);
      let ladder := rungs first (take (S useful_idx) c) [] minus_one (ts ++ [joint useful]) in
      Some (if already ladder (n useful) then ladder else ladder ++ [useful])
  end.

(** ** The cut *)

(** The last row of the curve, from the first on, that clears the floor. *)
Fixpoint cut (floor : double) (best : option CurvePoint) (c : list CurvePoint) : option CurvePoint :=
  match c with
  | [] => best
  | p :: c => if dge (joint p) floor then cut floor (Some p) c else best
  end.

(** The peers that are needed to reach [best_n]. *)
Fixpoint needed (best_n acc : Z) (pool : list PoolItem) : list PoolItem :=
  match pool with
  | [] => []
  | it :: pool => if best_n <=? acc then [] else it :: needed best_n (acc + deficit it) pool
  end.
Definition pick (best_n : Z) (pool : list PoolItem) : list ScidCap := concat (map caps (needed best_n 0 pool)).

(** [std::llround]: half away from zero; [None] where the result does not fit. *)
Definition llround (x : double) : option Z :=
  match x with
  | Fin q =>
      let r := if Qle_bool 0 q then Qfloor (q + (1 # 2)) else - Qfloor (- q + (1 # 2)) in
      if (- 2 ^ 63 <=? r) && (r <? 2 ^ 63) then Some r else None
  | _ => None
  end.

(** A request to the plugin. *)
Record Cycle := { sources : list ScidCap; dests : list ScidCap; requested : Z; maxfee : Z }.

Inductive Verdict :=
| NoCandidates (fill drain : nat)
| NoViable (floor : double)
| NotAFill
| Run (c : Cycle).

Definition matched (s : Settings) (fill drain : list PoolItem) (ladder : list CurvePoint) (draw : nat)
    : option Verdict :=
  let floor := match floor_auto s, ladder !! draw with true, Some p => joint p | _, _ => floor_ppm s end in
  match cut floor None (curve fill drain) with
  | None => Some (NoViable floor)
  | Some best =>
      if n best <=? 0 then Some (NoViable floor)
      else
      fee ← llround (joint best);
      Some (Run {| sources := pick (n best) drain; dests := pick (n best) fill; requested := n best;
                   maxfee := u32 fee |})
  end.

(** ** Demand *)

Definition dceil (x : double) : double := match x with Fin q => Fin (inject_Z (Qceiling q)) | _ => x end.

Definition has_scid (s : bytes) (it : PoolItem) : bool := existsb (fun c => bool_decide (scid c = s)) (chans (pr it)).

Definition plan_demand (fill drain : list PoolItem) (s : bytes) (rung : Z) : option Verdict :=
  match List.find (has_scid s) fill with
  | None => Some NotAFill
  | Some target =>
      keep ← d_to_u64 (dceil (ddiv (dmul (d_of_Z (Z.of_nat (length drain))) (d_of_Z rung)) d100));
      let keep := if keep <? 1 then 1 else keep in
      let keep := if Z.of_nat (length drain) <? keep then Z.of_nat (length drain) else keep in
      offered ← drain !! Z.to_nat (keep - 1);
      fee ← llround (dadd (ppm target) (ppm offered));
      Some (Run {| sources := concat (map caps (take (Z.to_nat keep) drain)); dests := caps target;
                   requested := deficit target; maxfee := u32 fee |})
  end.

(** ** The plan *)

(** The order of the pools: rates do not rise. *)
Definition ppm_ge (a b : PoolItem) : Prop := dle (ppm b) (ppm a) = true.

(** What a sorting by rate does. *)
Class SortByRate (sort : list PoolItem -> list PoolItem) := {
  sort_perm : forall l, sort l ≡ₚ l;
  sort_sorted : forall l, Forall (fun it => dgt (ppm it) d0 = true) l -> StronglySorted ppm_ge (sort l)
}.

Section Plan.

Context (sort : list PoolItem -> list PoolItem).

(** [demand] is the channel of a demand cycle; [draw] chooses the rung of the ladder
    and [rung] the percentage of a demand cycle. *)
Definition plan_and_log (s : Settings) (cs : list Chan) (net : gmap Node NetPpm) (unmanaged : Node -> bool)
    (demand : option bytes) (fuel draw : nat) (rung : Z) : option Verdict :=
  ps ← peers_of s cs;
  '(fill, drain) ← pools s net unmanaged ps;
  let fill := sort fill in
  let drain := sort drain in
  match fill, drain with
  | [], _ | _, [] => Some (NoCandidates (length fill) (length drain))
  | _, _ =>
      match demand with
      | Some scid => plan_demand fill drain scid rung
      | None =>
          ladder ← derive_ladder fuel (curve fill drain);
          matched s fill drain ladder draw
      end
  end.

(** A cycle from the node's reply and the table of earnings; nothing to do is [None]
    inside. *)
Definition run_cycle (s : Settings) (listpeerchannels : json) (t : list Tracker.Row) (now : Z)
    (unmanaged : Node -> bool) (demand : option bytes) (fuel draw : nat) (rung : Z) : option (option Verdict) :=
  cs ← build_chans listpeerchannels;
  match cs with
  | [] => Some None
  | _ =>
      rows ← earnings t (cutoff_of s now);
      v ← plan_and_log s cs (net_ppm s cs rows) unmanaged demand fuel draw rung;
      Some (Some v)
  end.

End Plan.

(** ** Edges of the bands *)

(** Amounts are below [2^51] sat, and so exact. *)
Definition amount_ok (z : Z) : Prop := 0 <= z < 2 ^ 51.

Definition band_ok (b : double) : Prop := exists q, b = Fin q /\ (0 <= q <= 100)%Q.

Lemma d_of_amount z : amount_ok z -> d_of_Z z = Fin (inject_Z z).
Proof. intros H. apply d_of_Z_exact. unfold amount_ok in H. lia. Qed.

Lemma amount_ok_Q z : amount_ok z -> (0 <= inject_Z z <= pow2 51)%Q.
Proof.
  intros [H0 H1]. split; [change 0%Q with (inject_Z 0); by rewrite <- Zle_Qle|].
  rewrite pow2_Z by lia. rewrite <- Zle_Qle. lia.
Qed.

Lemma pow2_51_200 : (pow2 51 <= pow2 200)%Q.
Proof. apply pow2_le. lia. Qed.

(** Two roundings of a number below [2^51] do not reach the next integer. *)
Lemma rounded_twice_below z : amount_ok z -> (inject_Z z * twice_rounded < inject_Z (z + 1))%Q.
Proof.
  intros H. pose proof (amount_ok_Q z H) as [L U]. rewrite inject_Z_plus. change (inject_Z 1) with 1%Q.
  unfold twice_rounded. pose proof (pow2_pos (-53)) as P.
  assert (pow2 51 * pow2 (-53) == 1 # 4)%Q as E by (rewrite <- pow2_add; reflexivity).
  assert (pow2 (-53) <= 1 # 4)%Q by (vm_compute; discriminate).
  assert (inject_Z z * pow2 (-53) <= 1 # 4)%Q as B by (rewrite <- E; nra). nra.
Qed.

Lemma Qfloor_below q z : (q < inject_Z (z + 1))%Q -> Qfloor q <= z.
Proof.
  intros H. pose proof (Qfloor_le q) as L.
  assert (inject_Z (Qfloor q) < inject_Z (z + 1))%Q as B by lra. rewrite <- Zlt_Qlt in B. lia.
Qed.

Lemma Qfloor_nonneg q : (0 <= q)%Q -> 0 <= Qfloor q.
Proof. intros H. rewrite <- (Qfloor_Z 0). by apply Qfloor_resp_le. Qed.

Lemma d_to_i64_floor q z : (0 <= q)%Q -> Qfloor q <= z -> amount_ok z -> d_to_i64 (Fin q) = Some (Qfloor q).
Proof.
  intros H0 H1 [_ H2]. unfold d_to_i64. rewrite Qtrunc_floor by done. cbv zeta.
  pose proof (Qfloor_nonneg q H0). assert ((- 2 ^ 63 <=? Qfloor q) && (Qfloor q <? 2 ^ 63) = true) as -> by lia. done.
Qed.

(** The edge of a band is defined and within the capacity. *)
Lemma edge_defined cap b : amount_ok cap -> band_ok b -> exists e, edge cap b = Some e /\ 0 <= e <= cap.
Proof.
  intros Hc (q & -> & Hq). pose proof (amount_ok_Q cap Hc) as [L U]. pose proof pow2_51_200 as L2.
  unfold edge. rewrite d_of_amount by done. unfold d100. rewrite d_of_amount by (unfold amount_ok; lia).
  destruct (muldiv_error (inject_Z cap) (inject_Z 100) (inject_Z 100)) as (r & E & R0 & R1); [lra|..].
  1-2: split; vm_compute; discriminate.
  { destruct (decide (cap = 0)) as [->|]; [left; reflexivity|right].
    rewrite <- inject_Z_mult. change 1%Q with (inject_Z 1). rewrite <- Zle_Qle. unfold amount_ok in Hc. lia. }
  assert (inject_Z cap * inject_Z 100 / inject_Z 100 == inject_Z cap)%Q as E1 by (field; discriminate).
  rewrite E1 in R1. simpl dmul in *.
  assert (0 <= inject_Z cap * q <= inject_Z cap * inject_Z 100)%Q as M.
  { change (inject_Z 100) with 100%Q. split; nra. }
  assert (pow2 51 * inject_Z 100 <= pow2 1023)%Q as B by (vm_compute; discriminate).
  change (inject_Z 100) with 100%Q in *.
  destruct (RN_finite (inject_Z cap * q)) as (p & Ep & P0 & _); [lra|nra|].
  destruct (RN_finite (inject_Z cap * 100)) as (p' & Ep' & P0' & P1'); [nra..|].
  pose proof (RN_mono (inject_Z cap * q) (inject_Z cap * 100) ltac:(lra) ltac:(lra)) as Hm.
  rewrite Ep, Ep' in *. apply dle_Fin in Hm. simpl ddiv in *.
  pose proof (RN_mono (p / 100) (p' / 100) ltac:(unfold Qdiv; change (/ 100)%Q with (1 # 100)%Q; lra)
    ltac:(unfold Qdiv; change (/ 100)%Q with (1 # 100)%Q; lra)) as Hm2.
  destruct (RN_finite (p / 100)) as (r' & Er' & R0' & _);
    [unfold Qdiv; change (/ 100)%Q with (1 # 100)%Q; lra..|].
  rewrite Er', E in *. apply dle_Fin in Hm2.
  assert (Qfloor r' <= cap) as Hf by (apply Qfloor_below; pose proof (rounded_twice_below cap Hc); lra).
  exists (Qfloor r'). split; [by apply (d_to_i64_floor _ cap)|]. split; [by apply Qfloor_nonneg|done].
Qed.

(** ** Distribution of a deficit *)

(** What holds of a node's channels. *)
Definition chan_ok (c : Chan) : Prop := 0 < cap_sat c /\ 0 <= local_sat c <= cap_sat c.

Definition chans_ok (cs : list Chan) : Prop :=
  Forall chan_ok cs /\ amount_ok (sumZ (map cap_sat cs)) /\ NoDup (map scid cs).

Lemma sum_exact hs acc :
  Forall (fun h => 0 <= h) hs -> 0 <= acc -> amount_ok (acc + sumZ hs) ->
  foldl (fun a h => dadd a (d_of_Z h)) (Fin (inject_Z acc)) hs = Fin (inject_Z (acc + sumZ hs)).
Proof.
  revert acc. induction hs as [|h hs IH]; intros acc Hh Ha Hs; simpl in *; [do 2 f_equal; lia|].
  apply Forall_cons in Hh as [H0 Hh]. pose proof (sumZ_nonneg _ Hh). unfold amount_ok in Hs.
  rewrite d_of_amount by (unfold amount_ok; lia). simpl.
  rewrite <- inject_Z_plus. change (RN (inject_Z (acc + h))) with (d_of_Z (acc + h)).
  rewrite d_of_amount by (unfold amount_ok; lia). rewrite IH; [do 2 f_equal; lia|done|lia|].
  unfold amount_ok; lia.
Qed.

Lemma inject_nonneg z : 0 <= z -> (0 <= inject_Z z)%Q.
Proof. intros H. change 0%Q with (inject_Z 0). by rewrite <- Zle_Qle. Qed.

Lemma inject_ge_1 z : 1 <= z -> (1 <= inject_Z z)%Q.
Proof. intros H. change 1%Q with (inject_Z 1). by rewrite <- Zle_Qle. Qed.

Lemma cap_of_defined d t h :
  amount_ok d -> amount_ok t -> 0 <= h <= t -> 1 <= t ->
  exists k, cap_of d (Fin (inject_Z t)) h = Some k /\ 0 <= k /\
            (inject_Z k * inject_Z t <= inject_Z d * inject_Z h * twice_rounded)%Q.
Proof.
  intros Hd Ht Hh H1. assert (amount_ok h) as Hh' by (unfold amount_ok in *; lia).
  pose proof (amount_ok_Q d Hd) as Qd. pose proof (amount_ok_Q h Hh') as Qh. pose proof (amount_ok_Q t Ht) as Qt.
  pose proof pow2_51_200 as L2. pose proof (inject_ge_1 t H1) as T1. unfold cap_of. rewrite !d_of_amount by done.
  destruct (muldiv_error (inject_Z d) (inject_Z h) (inject_Z t)) as (r & E & R0 & R1); [lra..| |].
  { rewrite <- inject_Z_mult. destruct (decide (d * h = 0)) as [->|]; [left; reflexivity|right].
    apply inject_ge_1. unfold amount_ok in *. nia. }
  rewrite E. assert (inject_Z d * inject_Z h / inject_Z t * inject_Z t == inject_Z d * inject_Z h)%Q as Em
    by (field; lra).
  assert (0 <= twice_rounded)%Q as T0 by (vm_compute; discriminate).
  assert (r * inject_Z t <= inject_Z d * inject_Z h * twice_rounded)%Q as Hr by (rewrite <- Em; nra).
  assert (inject_Z h <= inject_Z t)%Q as Hht by (rewrite <- Zle_Qle; lia).
  assert (r <= inject_Z d * twice_rounded)%Q as Hrd.
  { assert (inject_Z d * inject_Z h <= inject_Z d * inject_Z t)%Q by nra.
    assert (r * inject_Z t <= inject_Z d * twice_rounded * inject_Z t)%Q by nra.
    apply (Qmult_le_r _ _ (inject_Z t)); lra. }
  pose proof (rounded_twice_below d Hd). pose proof (Qfloor_below r d ltac:(lra)).
  exists (Qfloor r). split; [by apply (d_to_i64_floor _ d)|]. split; [by apply Qfloor_nonneg|].
  pose proof (Qfloor_le r). nra.
Qed.

Lemma spread_defined d t chs :
  amount_ok d -> amount_ok t -> 1 <= t -> Forall (fun ch => 0 <= ch.2 <= t) chs ->
  exists l, spread d (Fin (inject_Z t)) chs = Some l /\
    (inject_Z (sumZ (map max_sat l)) * inject_Z t <= inject_Z d * inject_Z (sumZ (map snd chs)) * twice_rounded)%Q /\
    Forall (fun e => min_cap_sat <= max_sat e) l /\
    map c_scid l `sublist_of` map (scid ∘ fst) chs.
Proof.
  intros Hd Ht H1. pose proof (amount_ok_Q d Hd) as [Qd _].
  assert (0 <= twice_rounded)%Q as T0 by (vm_compute; discriminate).
  induction chs as [|[c h] chs IH]; intros Hs; simpl.
  { exists []. split; [done|]. split; [simpl; change (inject_Z 0) with 0%Q; lra|]. by repeat constructor. }
  apply Forall_cons in Hs as [Hh Hs]. simpl in Hh. destruct (IH Hs) as (l & -> & Hl & Hm & Hn). clear IH.
  rewrite inject_Z_plus. pose proof (inject_nonneg h ltac:(lia)).
  assert (0 <= inject_Z d * inject_Z h * twice_rounded)%Q by (by repeat apply Qmult_le_0_compat).
  destruct (Z.leb_spec h 0) as [|Hp].
  { exists l. split_and!; [done| |done|by constructor]. lra. }
  destruct (cap_of_defined d t h) as (k & -> & K0 & K1); [done|done|lia|done|]. cbn [mbind option_bind].
  pose proof (inject_ge_1 t H1).
  destruct (Z.ltb_spec k min_cap_sat).
  - exists l. split_and!; [done| |done|by constructor]. lra.
  - eexists. split_and!; [done|..]; simpl.
    + rewrite inject_Z_plus. lra.
    + by constructor.
    + by constructor.
Qed.

(** The room of every channel of a peer is defined, and within its capacity. *)
Lemma headrooms_defined band side cs :
  Forall chan_ok cs -> amount_ok (sumZ (map cap_sat cs)) -> band_ok band ->
  exists hs, mapM (headroom band side) cs = Some hs /\ Forall (fun h => 0 <= h) hs /\
             sumZ hs <= sumZ (map cap_sat cs) /\ length hs = length cs.
Proof.
  intros Hc Hs Hb. induction cs as [|c cs IH]; simpl in *; [exists []; by repeat constructor|].
  apply Forall_cons in Hc as [[C0 C1] Hc].
  assert (0 <= sumZ (map cap_sat cs)) as S0.
  { apply sumZ_nonneg, Forall_fmap. eapply Forall_impl; [exact Hc|]. intros x [? _]. simpl. lia. }
  unfold amount_ok in *. destruct IH as (hs & -> & H0 & H1 & H2); [done|lia|].
  destruct (edge_defined (cap_sat c) band) as (e & Ee & E0); [unfold amount_ok; lia|done|].
  unfold headroom at 1. rewrite Ee. cbn [mbind option_bind].
  eexists. split; [done|]. cbv zeta. simpl. split_and!; [constructor; [|done]| |lia].
  - repeat case_match; lia.
  - repeat case_match; lia.
Qed.

Lemma zip_fst_map {A B C} (f : A -> C) (l : list A) (k : list B) :
  (length l <= length k)%nat -> map (f ∘ fst) (zip l k) = map f l.
Proof. intros H. by rewrite (list_fmap_compose fst f), fst_zip. Qed.

(** The caps of a peer add up to its deficit at most. *)
Lemma distribute_caps_bound p band side d :
  Forall chan_ok (chans p) -> amount_ok (sumZ (map cap_sat (chans p))) -> band_ok band -> amount_ok d ->
  exists l, distribute_caps p band side d = Some l /\ sumZ (map max_sat l) <= d /\
            Forall (fun e => min_cap_sat <= max_sat e) l /\ map c_scid l `sublist_of` map scid (chans p).
Proof.
  intros Hc Hs Hb Hd. destruct (headrooms_defined band side (chans p) Hc Hs Hb) as (hs & E & H0 & H1 & H2).
  unfold distribute_caps. rewrite E. cbn [mbind option_bind].
  pose proof (sumZ_nonneg hs H0) as S0.
  assert (amount_ok (sumZ hs)) as Ht by (unfold amount_ok in *; lia).
  change d0 with (Fin (inject_Z 0)). rewrite (sum_exact hs 0) by done. rewrite Z.add_0_l. rewrite dle_Z.
  destruct (Z.leb_spec (sumZ hs) 0) as [|Hp]; simpl.
  { exists []. split; [done|]. split; [unfold amount_ok in Hd; simpl; lia|]. split; [done|apply sublist_nil_l]. }
  destruct (Z.leb_spec d 0).
  { exists []. split; [done|]. split; [unfold amount_ok in Hd; simpl; lia|]. split; [done|apply sublist_nil_l]. }
  destruct (spread_defined d (sumZ hs) (zip (chans p) hs)) as (l & -> & Hl & Hm & Hn); [done|done|lia|..].
  { apply Forall_forall. intros [c h] Hin%elem_of_zip_r. simpl.
    pose proof (sumZ_elem hs h H0 Hin). rewrite Forall_forall in H0. specialize (H0 h Hin). lia. }
  rewrite snd_zip in Hl by lia. rewrite zip_fst_map in Hn by lia. exists l. split; [done|]. split_and!; [|done|done].
  pose proof (inject_ge_1 (sumZ hs) ltac:(lia)). pose proof (rounded_twice_below d Hd) as Hr.
  assert (inject_Z (sumZ (map max_sat l)) < inject_Z (d + 1))%Q as Hlt; [|rewrite <- Zlt_Qlt in Hlt; lia].
  apply (Qle_lt_trans _ (inject_Z d * twice_rounded)); [|done].
  apply (Qmult_le_r _ _ (inject_Z (sumZ hs))); lra.
Qed.

(** ** Pools *)

Definition capacity (cs : list Chan) (m : Node) : Z := sumZ (map cap_sat (channels_of m cs)).
Definition balance (cs : list Chan) (m : Node) : Z := sumZ (map local_sat (channels_of m cs)).

Definition side_rate (fill_side : bool) (np : NetPpm) : option double :=
  if fill_side then out_net np else in_net np.

Definition side_band (s : Settings) (fill_side : bool) : double :=
  if fill_side then fill_band s else drain_band s.

(** How far the balance is from the edge [e], on the side that matters. *)
Definition side_gap (fill_side : bool) (e loc : Z) : Z := if fill_side then e - loc else loc - e.

Section Pools.

Context (s : Settings) (cs : list Chan) (net : gmap Node NetPpm) (unmanaged : Node -> bool).
Hypothesis (Hcs : chans_ok cs) (Hfill : band_ok (fill_band s)) (Hdrain : band_ok (drain_band s)).

(** A peer that may take part on a side: connected, managed, earning, away from the
    edge of the band by its deficit, with caps that add up to the deficit at most. *)
Record item_ok (fill_side : bool) (it : PoolItem) : Prop := {
  item_chans : chans (pr it) = channels_of (p_node (pr it)) cs;
  item_online : existsb online (chans (pr it)) = true;
  item_managed : unmanaged (p_node (pr it)) = false;
  item_earns : exists np, net !! p_node (pr it) = Some np /\ side_rate fill_side np = Some (ppm it);
  item_rate : dgt (ppm it) d0 = true;
  item_deficit : 0 < deficit it;
  item_edge : exists e, edge (capacity cs (p_node (pr it))) (side_band s fill_side) = Some e /\
                        deficit it = side_gap fill_side e (balance cs (p_node (pr it)));
  item_caps : sumZ (map max_sat (caps it)) <= deficit it;
  item_min_cap : Forall (fun e => min_cap_sat <= max_sat e) (caps it);
  item_scids : map c_scid (caps it) `sublist_of` map scid (chans (pr it));
  item_some : caps it <> []
}.

Lemma sumZ_sublist l k : l `sublist_of` k -> Forall (fun z => 0 <= z) k -> sumZ l <= sumZ k.
Proof.
  induction 1 as [|x l k H IH|x l k H IH]; intros Hk; simpl; [lia|..];
    apply Forall_cons in Hk as [? Hk]; specialize (IH Hk); lia.
Qed.

Lemma channels_of_ok m : Forall chan_ok (channels_of m cs) /\ amount_ok (capacity cs m) /\
  0 <= balance cs m <= capacity cs m.
Proof using Hcs.
  destruct Hcs as (Hok & [_ Hsum] & _).
  assert (Forall chan_ok (channels_of m cs)) as H.
  { apply Forall_forall. intros c Hc. apply list_elem_of_filter in Hc as [_ Hc].
    rewrite Forall_forall in Hok. by apply Hok. }
  assert (capacity cs m <= sumZ (map cap_sat cs)) as Hle.
  { apply sumZ_sublist; [apply fmap_sublist, sublist_filter|].
    apply Forall_fmap. eapply Forall_impl; [exact Hok|]. intros c [? _]. simpl. lia. }
  assert (0 <= balance cs m <= capacity cs m) as Hb.
  { unfold balance, capacity. clear -H. induction H as [|c l [? ?] Hl IH]; simpl; lia. }
  split; [done|]. split; [unfold amount_ok; lia|done].
Qed.

(** What [peer_of] knows of a peer. *)
Record peer_ok (p : Peer) : Prop := {
  peer_chans : chans p = channels_of (p_node p) cs;
  peer_online : p_online p = existsb online (chans p);
  peer_fill : exists e, edge (capacity cs (p_node p)) (fill_band s) = Some e /\ 0 <= e <= capacity cs (p_node p) /\
                        tgt_fill p = Z.max 0 (e - balance cs (p_node p));
  peer_drain : exists e, edge (capacity cs (p_node p)) (drain_band s) = Some e /\ 0 <= e <= capacity cs (p_node p) /\
                         tgt_drain p = Z.max 0 (balance cs (p_node p) - e)
}.

Lemma peer_of_defined m :
  exists o, peer_of s cs m = Some o /\ forall p, o = Some p -> p_node p = m /\ peer_ok p.
Proof using Hcs Hfill Hdrain.
  destruct (channels_of_ok m) as (Hok & Ha & Hb). unfold peer_of.
  fold (capacity cs m). fold (balance cs m). destruct (Z.leb_spec (capacity cs m) 0); [by eexists|].
  destruct (edge_defined _ _ Ha Hfill) as (ef & Ef & Hef). destruct (edge_defined _ _ Ha Hdrain) as (ed & Ed & Hed).
  rewrite Ef, Ed. cbn [mbind option_bind]. eexists. split; [done|]. intros p [= <-]. split; [done|].
  split; simpl; eauto 10.
Qed.

Lemma peers_of_defined :
  exists ps, peers_of s cs = Some ps /\ Forall peer_ok ps /\ NoDup (map p_node ps).
Proof using Hcs Hfill Hdrain.
  assert (forall l, exists os, mapM (peer_of s cs) l = Some os /\ Forall peer_ok (omap id os) /\
    map p_node (omap id os) `sublist_of` l) as H.
  { induction l as [|m l (os & E & H1 & H2)]; [exists []; by repeat constructor|].
    destruct (peer_of_defined m) as ([p|] & Ep & Hp); simpl; rewrite Ep, E; eexists; (split; [done|]); simpl.
    - destruct (Hp p eq_refl) as [<- ?]. split; by constructor.
    - split; [done|by constructor]. }
  destruct (H (remove_dups (map node cs))) as (os & E & H1 & H2). unfold peers_of. rewrite E.
  eexists. split; [done|]. split; [done|]. eapply sublist_NoDup; [apply NoDup_remove_dups|exact H2].
Qed.

(** A side's entry for a peer, when there is one. *)
Lemma pool_item_ok fill_side p np rate d :
  peer_ok p -> p_online p = true -> unmanaged (p_node p) = false -> net !! p_node p = Some np ->
  side_rate fill_side np = Some rate -> dgt rate d0 = true -> 0 < d ->
  d = (if fill_side then tgt_fill p else tgt_drain p) ->
  exists l, distribute_caps p (side_band s fill_side) fill_side d = Some l /\
    Forall (item_ok fill_side) (pool_item p rate d l) /\
    map (p_node ∘ pr) (pool_item p rate d l) `sublist_of` [p_node p].
Proof using Hcs Hfill Hdrain.
  intros Hp Hon Hun Hnet Hr H0 Hd Ed. destruct (channels_of_ok (p_node p)) as (Hok & Ha & Hb).
  assert (exists e, edge (capacity cs (p_node p)) (side_band s fill_side) = Some e /\
    0 <= e <= capacity cs (p_node p) /\ d = side_gap fill_side e (balance cs (p_node p))) as (e & Ee & He & Eg).
  { destruct fill_side; [destruct (peer_fill p Hp) as (e & ? & ? & Et)|destruct (peer_drain p Hp) as (e & ? & ? & Et)];
      exists e; split_and!; try done; simpl; lia. }
  destruct (distribute_caps_bound p (side_band s fill_side) fill_side d) as (l & El & H1 & H2 & H3).
  { by rewrite (peer_chans p Hp). }
  { by rewrite (peer_chans p Hp). }
  { by destruct fill_side. }
  { unfold amount_ok in *. destruct fill_side; simpl in Eg; lia. }
  exists l. split; [done|]. unfold pool_item. destruct l as [|c l]; [split; [done|apply sublist_nil_l]|].
  split; [|done]. constructor; [|done]. split; simpl; try done; eauto.
  - apply Hp.
  - by rewrite <- (peer_online p Hp).
Qed.

Lemma candidate_defined p :
  peer_ok p -> exists f d, candidate s net unmanaged p = Some (f, d) /\
    Forall (item_ok true) f /\ Forall (item_ok false) d /\ map (p_node ∘ pr) (f ++ d) `sublist_of` [p_node p].
Proof using Hcs Hfill Hdrain.
  intros Hp. unfold candidate.
  destruct (p_online p) eqn:Eo; simpl; [|exists [], []; repeat constructor].
  destruct (unmanaged (p_node p)) eqn:Eu; [exists [], []; repeat constructor|].
  destruct (net !! p_node p) as [np|] eqn:En; [|exists [], []; repeat constructor].
  destruct (_ && _ && _) eqn:C1.
  { apply andb_prop in C1 as [[_ C1]%andb_prop C2]. unfold rate_above_0 in C1.
    destruct (out_net np) as [r|] eqn:Er; [|done].
    destruct (pool_item_ok true p np r (tgt_fill p)) as (l & E & H1 & H2); try done; [lia|].
    simpl in E. rewrite E. cbn [mbind option_bind]. eexists _, []. rewrite app_nil_r. by repeat split. }
  clear C1. destruct (_ && _ && _) eqn:C1; [|exists [], []; repeat constructor].
  apply andb_prop in C1 as [[_ C1]%andb_prop C2]. unfold rate_above_0 in C1.
  destruct (in_net np) as [r|] eqn:Er; [|done].
  destruct (pool_item_ok false p np r (tgt_drain p)) as (l & E & H1 & H2); try done; [lia|].
  simpl in E. rewrite E. cbn [mbind option_bind]. eexists [], _. by repeat split.
Qed.

Lemma pools_defined ps :
  Forall peer_ok ps -> NoDup (map p_node ps) ->
  exists f d, pools s net unmanaged ps = Some (f, d) /\
    Forall (item_ok true) f /\ Forall (item_ok false) d /\ NoDup (map (p_node ∘ pr) (f ++ d)).
Proof using Hcs Hfill Hdrain.
  intros Hps Hnd. unfold pools.
  assert (exists l, mapM (candidate s net unmanaged) ps = Some l /\
    Forall (item_ok true) (concat (map fst l)) /\ Forall (item_ok false) (concat (map snd l)) /\
    map (p_node ∘ pr) (concat (map fst l) ++ concat (map snd l)) ⊆+ map p_node ps) as (l & -> & H1 & H2 & H3).
  { clear Hnd. induction Hps as [|p ps Hp Hps (l & E & H1 & H2 & H3)]; [exists []; by repeat constructor|].
    destruct (candidate_defined p Hp) as (f & d & Ec & F & D & N). simpl. rewrite Ec, E. eexists. split; [done|].
    simpl. split; [by apply Forall_app|]. split; [by apply Forall_app|].
    assert ((f ++ concat (map fst l)) ++ d ++ concat (map snd l) ≡ₚ
            (f ++ d) ++ concat (map fst l) ++ concat (map snd l)) as -> by solve_Permutation.
    rewrite map_app. apply (submseteq_app _ [p_node p]); [by apply sublist_submseteq|done]. }
  eexists _, _. split; [done|]. split_and!; [done..|].
  apply submseteq_Permutation in H3 as [k H3]. rewrite H3 in Hnd. by apply NoDup_app in Hnd as (? & _ & _).
Qed.

(** What a list of capped channels can move for a peer. *)
Definition moved (m : Node) (l : list ScidCap) : Z :=
  sumZ (map max_sat (filter (fun e => c_scid e ∈ map scid (channels_of m cs)) l)).

Lemma moved_app m l k : moved m (l ++ k) = moved m l + moved m k.
Proof. unfold moved. by rewrite filter_app, map_app, sumZ_app. Qed.

Lemma moved_item fill_side it m :
  item_ok fill_side it ->
  moved m (caps it) = if decide (p_node (pr it) = m) then sumZ (map max_sat (caps it)) else 0.
Proof using Hcs.
  intros Hi. unfold moved.
  assert (forall e, e ∈ caps it -> c_scid e ∈ map scid (channels_of (p_node (pr it)) cs)) as Hin.
  { intros e He. rewrite <- (item_chans _ _ Hi). apply (list_elem_of_fmap_2 c_scid) in He.
    eapply elem_of_sublist; [exact He|apply Hi]. }
  destruct decide as [<-|Hne].
  - rewrite filter_every; [done|]. by apply Forall_forall.
  - rewrite filter_none; [done|]. apply Forall_forall. intros e He Hm. specialize (Hin e He).
    apply list_elem_of_fmap in Hin as (c & Ec & Hc), Hm as (c' & Ec' & Hc').
    apply list_elem_of_filter in Hc as [E1 Hc], Hc' as [E2 Hc']. destruct Hcs as (_ & _ & Hnd).
    apply Hne. rewrite <- E1, <- E2. f_equal. eapply NoDup_map_inj; [done..|congruence].
Qed.

(** Of a list of entries of different peers, a peer is moved by its own at most. *)
Lemma moved_items fill_side its m :
  Forall (item_ok fill_side) its -> NoDup (map (p_node ∘ pr) its) ->
  moved m (concat (map caps its)) = 0 \/
  exists it, it ∈ its /\ p_node (pr it) = m /\ 0 <= moved m (concat (map caps its)) <= deficit it.
Proof using Hcs.
  induction 1 as [|it its Hi Hits IH]; [by left|]. simpl. rewrite NoDup_cons, moved_app. intros [Hn Hnd].
  rewrite (moved_item fill_side) by done. destruct decide as [<-|]; [right|].
  - exists it. split; [left|]. split; [done|]. pose proof (item_caps _ _ Hi) as Hc.
    assert (0 <= sumZ (map max_sat (caps it))).
    { apply sumZ_nonneg, Forall_fmap. eapply Forall_impl; [apply Hi|]. intros e He. unfold min_cap_sat in He. simpl. lia. }
    destruct (IH Hnd) as [->|(it' & Hin & E & _)]; [lia|]. exfalso. apply Hn. rewrite <- E.
    by apply (list_elem_of_fmap_2 (p_node ∘ pr)).
  - destruct (IH Hnd) as [->|(it' & Hin & E & Hm)]; [by left|right]. exists it'. split; [by right|]. by rewrite Z.add_0_l.
Qed.

(** Distinct peers share the capacity of all channels. *)
Lemma capacities_sum ms : NoDup ms -> sumZ (map (capacity cs) ms) <= sumZ (map cap_sat cs).
Proof using Hcs.
  intros Hn. destruct Hcs as (Hok & _ & _). clear -Hok Hn. induction Hok as [|c cs [Hc _] _ IH].
  { clear Hn. induction ms as [|m ms IH]; simpl; [lia|]. exact IH. }
  assert (sumZ (map (capacity (c :: cs)) ms) <= sumZ (map (capacity cs) ms) + (if decide (node c ∈ ms) then cap_sat c else 0)) as H.
  { clear IH. induction Hn as [|m ms Hm Hn IH]; [rewrite decide_False by apply not_elem_of_nil; simpl; lia|]. simpl map. cbn [sumZ foldr] in *.
    unfold capacity, channels_of in *. rewrite filter_cons. destruct (decide (node c = m)) as [<-|Hne]; cbn [map].
    - rewrite decide_False in IH by done. rewrite decide_True by left. cbn [sumZ foldr]. unfold sumZ in *. lia.
    - assert (node c ∈ m :: ms <-> node c ∈ ms) as E by (rewrite elem_of_cons; tauto).
      repeat case_decide; unfold sumZ in *; tauto || lia. }
  cbn [map]. change (sumZ (cap_sat c :: map cap_sat cs)) with (cap_sat c + sumZ (map cap_sat cs)). case_decide; lia.
Qed.

(** Entries of different peers cannot move more than the capacity of all channels. *)
Lemma items_supply fill_side its :
  Forall (item_ok fill_side) its -> NoDup (map (p_node ∘ pr) its) ->
  sumZ (map deficit its) <= sumZ (map cap_sat cs).
Proof using Hcs Hfill Hdrain.
  intros Hi Hn. apply (Z.le_trans _ (sumZ (map (capacity cs) (map (p_node ∘ pr) its)))); [|by apply capacities_sum].
  clear Hn. induction Hi as [|it its Hi Hits IH]; cbn [map]; [done|].
  change (deficit it + sumZ (map deficit its) <= capacity cs (p_node (pr it)) + sumZ (map (capacity cs) (map (p_node ∘ pr) its))).
  destruct (channels_of_ok (p_node (pr it))) as (_ & Ha & Hb). destruct (item_edge _ _ Hi) as (e & Ee & Eg).
  destruct (edge_defined _ (side_band s fill_side) Ha) as (e' & Ee' & He); [by destruct fill_side|].
  assert (e = e') as -> by congruence. destruct fill_side; simpl in Eg; lia.
Qed.

Lemma item_deficit_bound fill_side its it :
  Forall (item_ok fill_side) its -> NoDup (map (p_node ∘ pr) its) -> it ∈ its -> amount_ok (deficit it).
Proof using Hcs Hfill Hdrain.
  intros Hi Hn Hin. pose proof (items_supply _ _ Hi Hn) as Hs.
  assert (deficit it <= sumZ (map deficit its)).
  { apply sumZ_elem; [|by apply (list_elem_of_fmap_2 deficit)]. apply Forall_fmap. eapply Forall_impl; [exact Hi|].
    intros x Hx. pose proof (item_deficit _ _ Hx). simpl. lia. }
  rewrite Forall_forall in Hi. pose proof (item_deficit _ _ (Hi it Hin)). destruct Hcs as (_ & [_ Hb] & _). unfold amount_ok. lia.
Qed.

End Pools.

(** ** Requests *)

Lemma needed_sublist best_n acc pool : needed best_n acc pool `sublist_of` pool.
Proof.
  revert acc. induction pool as [|it pool IH]; intros acc; simpl; [done|].
  destruct (best_n <=? acc); [apply sublist_nil_l|by constructor].
Qed.

(** A request names the caps of some of the peers of each pool, and asks for no more than
    one of the pools can move. *)
Definition drawn_from (fill drain : list PoolItem) (c : Cycle) : Prop :=
  (exists fs ds, fs `sublist_of` fill /\ ds `sublist_of` drain /\
    dests c = concat (map caps fs) /\ sources c = concat (map caps ds)) /\
  0 < requested c /\
  (requested c <= sumZ (map deficit fill) \/ requested c <= sumZ (map deficit drain)).

Lemma cut_elem floor best c p : cut floor best c = Some p -> best = Some p \/ p ∈ c.
Proof.
  revert best. induction c as [|x c IH]; intros best; cbn [cut]; [by left|].
  destruct (dge _ _); [|by left]. intros [[= ->]|H]%IH; right; [left|by right].
Qed.

Lemma curve_of_n fc dc bps p : p ∈ curve_of fc dc bps -> n p ∈ bps.
Proof.
  induction bps as [|b bps IH]; cbn [curve_of]; [by intros ?%not_elem_of_nil|].
  destruct (_ || _); [by intros ?%not_elem_of_nil|]. intros [->|H]%elem_of_cons; [left|right; by apply IH].
Qed.

Lemma cum_le acc pool x :
  Forall (fun it => 0 < deficit it) pool -> x ∈ map fst (cum acc pool) -> x <= acc + sumZ (map deficit pool).
Proof.
  intros H. revert acc. induction H as [|it pool Hd Hp IH]; intros acc; cbn [cum map]; [by intros ?%not_elem_of_nil|].
  change (sumZ (deficit it :: map deficit pool)) with (deficit it + sumZ (map deficit pool)).
  assert (0 <= sumZ (map deficit pool)).
  { apply sumZ_nonneg, Forall_fmap. eapply Forall_impl; [exact Hp|]. intros y Hy. simpl in *. lia. }
  intros [->|Hx]%elem_of_cons; [simpl; lia|]. apply IH in Hx. lia.
Qed.

Lemma curve_volume fill drain p :
  Forall (fun it => 0 < deficit it) (fill ++ drain) -> p ∈ curve fill drain ->
  n p <= sumZ (map deficit fill) \/ n p <= sumZ (map deficit drain).
Proof.
  intros [Hf Hd]%Forall_app H. apply curve_of_n in H. unfold breakpoints in H.
  rewrite elem_of_remove_dups, merge_sort_Permutation, elem_of_app in H.
  destruct H as [H|H]; [left|right]; by apply cum_le in H.
Qed.

Lemma matched_drawn s fill drain ladder draw c :
  Forall (fun it => 0 < deficit it) (fill ++ drain) ->
  matched s fill drain ladder draw = Some (Run c) -> drawn_from fill drain c.
Proof.
  intros Hp. unfold matched. destruct (cut _ _ _) as [best|] eqn:Ec; [|done]. destruct (Z.leb_spec (n best) 0); [done|].
  destruct (llround _) as [fee|]; [|done]. cbn [mbind option_bind]. intros [= <-]. split; [|split; [done|]].
  - eexists _, _. split_and!; [apply needed_sublist..|done|done].
  - apply cut_elem in Ec as [Ec|Ec]; [done|]. by apply curve_volume.
Qed.

Lemma demand_drawn fill drain x rung c :
  Forall (fun it => 0 < deficit it) (fill ++ drain) ->
  plan_demand fill drain x rung = Some (Run c) -> drawn_from fill drain c.
Proof.
  intros [Hf _]%Forall_app. unfold plan_demand. destruct (List.find _ _) as [t|] eqn:E; [|done]. apply find_some in E as [Ht _].
  destruct (d_to_u64 _) as [k|]; [|done]. cbn [mbind option_bind]. cbv zeta.
  destruct (_ !! _) as [o|]; [|done]. cbn [mbind option_bind].
  destruct (llround _) as [fee|]; [|done]. cbn [mbind option_bind]. intros [= <-].
  apply list_elem_of_In in Ht. split; [|cbn [requested]; split].
  - exists [t]. eexists. split_and!; [|apply sublist_take|simpl; by rewrite app_nil_r|done]. by apply singleton_sublist_l.
  - rewrite Forall_forall in Hf. by apply Hf.
  - left. apply sumZ_elem; [|by apply (list_elem_of_fmap_2 deficit)]. apply Forall_fmap.
    eapply Forall_impl; [exact Hf|]. intros y Hy. simpl in *. lia.
Qed.

Lemma Forall_sublist {A} (P : A -> Prop) (l k : list A) : l `sublist_of` k -> Forall P k -> Forall P l.
Proof. intros H. rewrite !Forall_forall. intros Hk x Hx. apply Hk. by eapply elem_of_sublist. Qed.

Section Requests.

Context (sort : list PoolItem -> list PoolItem) `{!SortByRate sort}.
Context (s : Settings) (cs : list Chan) (net : gmap Node NetPpm) (unmanaged : Node -> bool).
Hypothesis (Hcs : chans_ok cs) (Hfill : band_ok (fill_band s)) (Hdrain : band_ok (drain_band s)).

Lemma run_items demand fuel draw rung c :
  plan_and_log sort s cs net unmanaged demand fuel draw rung = Some (Run c) ->
  exists fs ds, Forall (item_ok s cs net unmanaged true) fs /\ Forall (item_ok s cs net unmanaged false) ds /\
    NoDup (map (p_node ∘ pr) (fs ++ ds)) /\ dests c = concat (map caps fs) /\ sources c = concat (map caps ds) /\
    0 < requested c < 2 ^ 51.
Proof using All.
  unfold plan_and_log.
  destruct (peers_of_defined s cs Hcs Hfill Hdrain) as (ps & -> & Hps & Hnd). cbn [mbind option_bind].
  destruct (pools_defined s cs net unmanaged Hcs Hfill Hdrain ps Hps Hnd) as (fill & drain & -> & F & D & N).
  cbn [mbind option_bind]. intros E.
  pose proof (sort_perm fill) as Pf. pose proof (sort_perm drain) as Pd.
  rewrite <- Pf in F. rewrite <- Pd in D. rewrite <- Pf, <- Pd in N.
  assert (Forall (fun it => 0 < deficit it) (sort fill ++ sort drain)) as Hpos.
  { apply Forall_app. split; [eapply Forall_impl; [exact F|]|eapply Forall_impl; [exact D|]]; intros it Hi; apply Hi. }
  assert (drawn_from (sort fill) (sort drain) c) as ((fs & ds & Hfs & Hds & E1 & E2) & Hr & Hm).
  { destruct (sort fill) as [|f0 fill0] eqn:Ef; [done|]. destruct (sort drain) as [|dr0 drain0] eqn:Ed; [done|].
    rewrite <- Ef, <- Ed in *. destruct demand as [x|]; [by apply demand_drawn in E|].
    destruct (derive_ladder _ _) as [ladder|]; [|done]. cbn [mbind option_bind] in E. by apply matched_drawn in E. }
  exists fs, ds. split_and!; [by eapply Forall_sublist..| |done|done|done|].
  { eapply sublist_NoDup; [exact N|]. apply fmap_sublist. by apply sublist_app. }
  rewrite map_app in N. apply NoDup_app in N as (Nf & _ & Nd). pose proof Hcs as (_ & [_ Hb] & _).
  pose proof (items_supply s cs net unmanaged Hcs Hfill Hdrain true _ F Nf).
  pose proof (items_supply s cs net unmanaged Hcs Hfill Hdrain false _ D Nd). lia.
Qed.

Lemma caps_named fill_side its :
  Forall (item_ok s cs net unmanaged fill_side) its ->
  Forall (fun e => c_scid e ∈ map scid cs /\ min_cap_sat <= max_sat e < 2 ^ 51) (concat (map caps its)).
Proof using Hcs Hfill Hdrain.
  induction 1 as [|it its Hi Hits IH]; [done|]. simpl. apply Forall_app. split; [|done].
  apply Forall_forall. intros e He. pose proof (item_min_cap _ _ _ _ _ _ Hi) as H.
  assert (max_sat e <= sumZ (map max_sat (caps it))) as Hs.
  { apply sumZ_elem; [|by apply (list_elem_of_fmap_2 max_sat)]. apply Forall_fmap. eapply Forall_impl; [exact H|].
    intros x Hx. unfold min_cap_sat in Hx. simpl. lia. }
  destruct (item_deficit_bound s cs net unmanaged Hcs Hfill Hdrain fill_side [it] it) as [_ Hd];
    [by constructor|apply NoDup_singleton|left|].
  pose proof (item_caps _ _ _ _ _ _ Hi). rewrite Forall_forall in H. specialize (H e He).
  split; [|lia]. clear H Hs Hd.
  apply (list_elem_of_fmap_2 c_scid) in He. eapply elem_of_sublist in He; [|apply Hi].
  rewrite (item_chans _ _ _ _ _ _ Hi) in He. eapply elem_of_sublist; [exact He|].
  apply fmap_sublist, sublist_filter.
Qed.

(** What a side of a request does to a peer. *)
Lemma side_effect fill_side its m :
  Forall (item_ok s cs net unmanaged fill_side) its -> NoDup (map (p_node ∘ pr) its) ->
  moved cs m (concat (map caps its)) = 0 \/
  m ∈ map (p_node ∘ pr) its /\ unmanaged m = false /\ existsb online (channels_of m cs) = true /\
  exists e, edge (capacity cs m) (side_band s fill_side) = Some e /\
            moved cs m (concat (map caps its)) <= side_gap fill_side e (balance cs m).
Proof using Hcs.
  intros Hi Hn. destruct (moved_items s cs net unmanaged Hcs fill_side its m Hi Hn) as [|(it & Hin & <- & Hm)]; [by left|].
  right. rewrite Forall_forall in Hi. specialize (Hi it Hin).
  split; [by apply (list_elem_of_fmap_2 (p_node ∘ pr))|]. split; [apply Hi|].
  split; [rewrite <- (item_chans _ _ _ _ _ _ Hi); apply Hi|].
  destruct (item_edge _ _ _ _ _ _ Hi) as (e & Ee & Eg). exists e. split; [done|lia].
Qed.

End Requests.

(** With all the caps of a request used, a destination's balance is at most the fill
    edge and a source's at least the drain edge. *)
Record within_bands (s : Settings) (cs : list Chan) (unmanaged : Node -> bool) (c : Cycle) : Prop := {
  wb_named : Forall (fun e => c_scid e ∈ map scid cs /\ min_cap_sat <= max_sat e < 2 ^ 51) (sources c ++ dests c);
  wb_requested : 0 < requested c < 2 ^ 51;
  wb_fill m : moved cs m (dests c) = 0 \/
    exists e, edge (capacity cs m) (fill_band s) = Some e /\ balance cs m + moved cs m (dests c) <= e;
  wb_drain m : moved cs m (sources c) = 0 \/
    exists e, edge (capacity cs m) (drain_band s) = Some e /\ e <= balance cs m - moved cs m (sources c);
  wb_one_side m : moved cs m (dests c) = 0 \/ moved cs m (sources c) = 0;
  wb_peers m : moved cs m (dests c) = 0 /\ moved cs m (sources c) = 0 \/
    unmanaged m = false /\ existsb online (channels_of m cs) = true
}.

(** Whatever the plan, matched or on demand, a peer is not moved past the edge of its
    band. *)
Lemma run_within_bands sort s cs net unmanaged demand fuel draw rung c :
  SortByRate sort -> chans_ok cs -> band_ok (fill_band s) -> band_ok (drain_band s) ->
  plan_and_log sort s cs net unmanaged demand fuel draw rung = Some (Run c) -> within_bands s cs unmanaged c.
Proof.
  intros Hsort Hcs Hf Hd H.
  destruct (run_items sort s cs net unmanaged Hcs Hf Hd _ _ _ _ _ H) as (fs & ds & F & D & N & Edest & Esrc & Hr).
  rewrite map_app in N. apply NoDup_app in N as (Nf & Nx & Nd).
  split; rewrite ?Edest, ?Esrc; [apply Forall_app; split; by eapply caps_named|done|..]; intros m; specialize (Nx m);
    destruct (side_effect s cs net unmanaged Hcs true fs m F Nf) as [Ef|(If & Uf & Of & ef & Eef & Lf)];
    destruct (side_effect s cs net unmanaged Hcs false ds m D Nd) as [Ed|(Id & Ud & Od & ed & Eed & Ld)];
    simpl in *; try tauto; right; eexists; (split; [done|lia]).
Qed.

(** ** A sorting, and a plan *)

Fixpoint place (it : PoolItem) (l : list PoolItem) : list PoolItem :=
  match l with
  | [] => [it]
  | x :: l => if dle (ppm x) (ppm it) then it :: x :: l else x :: place it l
  end.
Definition rate_sort (l : list PoolItem) : list PoolItem := foldr place [] l.

Lemma place_perm it l : place it l ≡ₚ it :: l.
Proof. induction l as [|x l IH]; simpl; [done|]. destruct dle; [done|]. rewrite IH. by constructor. Qed.

#[global] Instance rate_sort_ok : SortByRate rate_sort.
Proof.
  split.
  - intros l. induction l as [|it l IH]; simpl; [done|]. by rewrite place_perm, IH.
  - intros l H. induction H as [|it l Hi Hl IH]; simpl; [constructor|].
    assert (Forall (fun it => dgt (ppm it) d0 = true) (rate_sort l)) as Hp.
    { rewrite Forall_forall in *. intros x Hx. apply Hl.
      assert (rate_sort l ≡ₚ l) as E; [|by rewrite <- E].
      clear. induction l as [|it l IH]; simpl; [done|]. by rewrite place_perm, IH. }
    revert IH Hp. generalize (rate_sort l). clear -Hi. induction 1 as [|x l Hl IH Hx]; intros Hp; simpl.
    { by repeat constructor. }
    apply Forall_cons in Hp as [Hp0 Hp]. destruct (dle (ppm x) (ppm it)) eqn:E.
    + constructor; [by constructor|]. constructor; [done|]. eapply Forall_impl; [exact Hx|].
      intros y Hy. unfold ppm_ge in *. by eapply dle_trans.
    + constructor; [by apply IH|]. rewrite place_perm. constructor; [|done].
      unfold ppm_ge. by apply dle_total.
Qed.

(** Two peers, one short of funds and one with too many. *)
Definition demo_chan (i : Z) (loc : Z) : Chan :=
  {| scid := [i]; node := Some [i]; online := true; cap_sat := 1000000; local_sat := loc |}.
Definition demo_chans : list Chan := [demo_chan 1 100000; demo_chan 2 900000].
Definition demo_net : gmap Node NetPpm :=
  <[Some [1] := {| in_net := None; out_net := Some (d_of_Z 300) |}]>
  (<[Some [2] := {| in_net := Some (d_of_Z 200); out_net := None |}]> ∅).
Definition demo_cycle : Cycle :=
  {| sources := [{| c_scid := [2]; max_sat := 150000 |}]; dests := [{| c_scid := [1]; max_sat := 150000 |}];
     requested := 150000; maxfee := 500 |}.

Lemma demo_chans_ok : chans_ok demo_chans.
Proof.
  split; [|split].
  - repeat constructor; vm_compute; congruence.
  - split; vm_compute; congruence.
  - apply (bool_decide_unpack (NoDup (map scid demo_chans))). vm_compute. exact I.
Qed.

Lemma band_ok_Z b : 0 <= b <= 100 -> band_ok (d_of_Z b).
Proof.
  intros H. rewrite d_of_amount by (unfold amount_ok; lia). eexists. split; [done|].
  change 0%Q with (inject_Z 0). change 100%Q with (inject_Z 100). rewrite <- !Zle_Qle. lia.
Qed.

Example demo_plan :
  plan_and_log rate_sort default_settings demo_chans demo_net (fun _ => false) None 10 0 0 = Some (Run demo_cycle) /\
  balance demo_chans (Some [1]) + moved demo_chans (Some [1]) (dests demo_cycle) = 250000.
Proof. vm_compute. split; reflexivity. Qed.

End Plan.
