(* ===== verification/RebalanceCurve.v ===== *)
(** * What a plan buys (src/Boss/Mod/XRebalancer.cpp)

    The planner of [XRebalance] grows the volume of a cycle along a curve with a row
    for each volume where a peer is used up, and stops at a floor.  Shown here: the
    row it stops at is the largest volume, among all of them and not only those of the
    rows, whose last satoshi still earns the floor on its two sides together; the fee
    limit is at most what any pair of the peers picked earns; the ladder of floors is
    built in finitely many steps and every one of its rungs leads to a cycle; a demand
    cycle offers the best sources, as many as the percentage says.

    All this is for rates between 2^-100 and 2^30 ppm: with an infinite rate the loop over
    the floors does not end.  Shown too is that rates are in that range when no grant is
    set, the gain is between 2^-60 and 2^10 and nobody earned more than was forwarded
    ([ordinary_rates]), and that every plan is defined then ([plan_defined]). *)

From stdpp Require Import base list numbers strings gmap sorting.
From Stdlib Require Import QArith Qround Qpower Lqa.
From S2P Require Import Prelude.
From S2P Require Import Double.
From S2P Require Import Earnings.
From S2P Require Import XRebalance.
Import Plan.

#[local] Open Scope Z_scope.

Module Curve.

(** ** Pools in order *)

(** Rates are positive, of a size between absurdly small and absurdly large, and do
    not rise; deficits are positive. *)
Definition rate_ok (r : double) : Prop := exists q, r = Fin q /\ (pow2 (-100) <= q <= pow2 30)%Q.
Definition rated (it : PoolItem) : Prop := 0 < deficit it /\ rate_ok (ppm it).

Record pool_ok (pool : list PoolItem) : Prop := {
  pool_rated : Forall rated pool;
  pool_sorted : StronglySorted ppm_ge pool
}.

Lemma rate_ok_pos r : rate_ok r -> dlt d0 r = true.
Proof. intros (q & -> & H & _). apply dlt_Fin. pose proof (pow2_pos (-100)). lra. Qed.

(** The rate of the peer that supplies satoshi number [m]; negative beyond the last. *)
Definition marginal (pool : list PoolItem) (m : Z) : double := threshold_at (cum 0 pool) m.

Definition supply (pool : list PoolItem) : Z := sumZ (map deficit pool).

Lemma cum_shift acc pool m : threshold_at (cum acc pool) m = threshold_at (cum 0 pool) (m - acc).
Proof.
  revert acc m. induction pool as [|it pool IH]; intros acc m; simpl; [done|].
  rewrite IH, (IH (deficit it)).
  destruct (Z.leb_spec m (acc + deficit it)), (Z.leb_spec (m - acc) (0 + deficit it)); try lia; [done|].
  f_equal. lia.
Qed.

Lemma marginal_cons it pool m :
  marginal (it :: pool) m = if m <=? deficit it then ppm it else marginal pool (m - deficit it).
Proof. unfold marginal. cbn [cum threshold_at fst snd]. by rewrite Z.add_0_l, cum_shift. Qed.

Lemma marginal_beyond pool m : Forall rated pool -> supply pool < m -> marginal pool m = minus_one.
Proof.
  intros H. revert m. induction H as [|it pool [Hd _] Hp IH]; intros m Hm; [done|].
  rewrite marginal_cons. unfold supply in *. simpl in Hm.
  assert (0 <= sumZ (map deficit pool)).
  { apply sumZ_nonneg, Forall_fmap. eapply Forall_impl; [exact Hp|]. intros x [? _]. simpl. lia. }
  destruct (Z.leb_spec m (deficit it)); [lia|]. apply IH. lia.
Qed.

Lemma marginal_within pool m :
  Forall rated pool -> pool <> [] -> m <= supply pool -> exists it, it ∈ pool /\ marginal pool m = ppm it.
Proof.
  intros H. revert m. induction H as [|it pool [Hd _] Hp IH]; intros m Hne Hm; [done|].
  rewrite marginal_cons. unfold supply in *. simpl in Hm.
  destruct (Z.leb_spec m (deficit it)); [exists it; split; [left|done]|].
  destruct (IH (m - deficit it)) as (x & Hx & E); [|lia|exists x; split; [by right|done]].
  intros ->. simpl in Hm. lia.
Qed.

(** Not exhausted: the code's test is on the sign. *)
Lemma marginal_sign pool m :
  Forall rated pool -> pool <> [] -> dlt (marginal pool m) d0 = bool_decide (supply pool < m).
Proof.
  intros H Hne. case_bool_decide as C.
  - by rewrite marginal_beyond.
  - destruct (marginal_within pool m H Hne ltac:(lia)) as (it & Hin & ->). rewrite Forall_forall in H.
    destruct (H it Hin) as [_ (q & -> & Hq)]. apply not_true_is_false. unfold d0. rewrite dlt_Fin.
    pose proof (pow2_pos (-100)). lra.
Qed.

Lemma marginal_antitone pool a b :
  pool_ok pool -> a <= b <= supply pool -> pool <> [] -> dle (marginal pool b) (marginal pool a) = true.
Proof.
  intros [Hr Hs]. revert a b Hr. induction Hs as [|it pool Hs IH Hall]; intros a b Hr Hab Hne; [done|].
  apply Forall_cons in Hr as [[Hd Hq] Hr]. unfold supply in *. simpl in Hab. rewrite !marginal_cons.
  destruct (Z.leb_spec b (deficit it)).
  { destruct (Z.leb_spec a (deficit it)); [|lia]. apply dle_refl. by destruct Hq as (q & -> & _). }
  assert (pool <> []) as Hne' by (intros ->; simpl in Hab; lia).
  destruct (Z.leb_spec a (deficit it)).
  - destruct (marginal_within pool (b - deficit it) Hr Hne') as (x & Hx & ->); [unfold supply; lia|].
    rewrite Forall_forall in Hall. by apply Hall.
  - apply IH; [done|lia|done].
Qed.

(** ** The rows of the curve *)

Lemma remove_dups_sorted l : StronglySorted Z.le l -> StronglySorted Z.lt (remove_dups l).
Proof.
  induction 1 as [|x l Hl IH Hx]; simpl; [constructor|]. destruct (decide_rel (∈) x l) as [|Hn]; [done|].
  constructor; [done|]. rewrite Forall_forall in *. intros y Hy. rewrite elem_of_remove_dups in Hy.
  specialize (Hx y Hy). assert (x <> y) by (by intros ->). lia.
Qed.

Lemma breakpoints_sorted fc dc : StronglySorted Z.lt (breakpoints fc dc).
Proof. apply remove_dups_sorted, StronglySorted_merge_sort; apply _. Qed.

Lemma breakpoints_elem fc dc x : x ∈ breakpoints fc dc <-> x ∈ map fst fc \/ x ∈ map fst dc.
Proof. unfold breakpoints. by rewrite elem_of_remove_dups, merge_sort_Permutation, elem_of_app. Qed.

(** Between two breakpoints nothing changes. *)
Lemma threshold_same c a b :
  (forall x, x ∈ map fst c -> a <= x <-> b <= x) -> threshold_at c a = threshold_at c b.
Proof.
  induction c as [|e c IH]; intros H; simpl; [done|].
  rewrite IH by (intros x Hx; apply H; by right).
  pose proof (H e.1 ltac:(left)). destruct (Z.leb_spec a e.1), (Z.leb_spec b e.1); try lia; done.
Qed.

Lemma cum_last acc pool : pool <> [] -> acc + supply pool ∈ map fst (cum acc pool).
Proof.
  revert acc. induction pool as [|it pool IH]; intros acc Hne; [done|]. unfold supply in *. simpl.
  destruct pool as [|it' pool]; [simpl; rewrite Z.add_0_r; left|]. right.
  replace (acc + (deficit it + sumZ (map deficit (it' :: pool)))) with (acc + deficit it + sumZ (map deficit (it' :: pool))) by lia.
  by apply IH.
Qed.

Lemma cum_positive acc pool x : Forall rated pool -> 0 <= acc -> x ∈ map fst (cum acc pool) -> acc < x.
Proof.
  intros H. revert acc. induction H as [|it pool [Hd _] Hp IH]; intros acc Ha; simpl.
  { by intros ?%not_elem_of_nil. }
  intros [->|Hx]%elem_of_cons; [lia|]. apply IH in Hx; lia.
Qed.

Section Cut.

Context (fill drain : list PoolItem).
Hypothesis (Hfill : pool_ok fill) (Hdrain : pool_ok drain) (Nfill : fill <> []) (Ndrain : drain <> []).

(** The volume [m] can be matched, and its last satoshi earns the floor. *)
Definition clears (floor : double) (m : Z) : bool :=
  negb (dlt (marginal fill m) d0 || dlt (marginal drain m) d0) &&
  dge (dadd (marginal fill m) (marginal drain m)) floor.

Definition row (m : Z) : CurvePoint :=
  {| n := m; fill_ppm := marginal fill m; drain_ppm := marginal drain m;
     joint := dadd (marginal fill m) (marginal drain m) |}.

Definition bps : list Z := breakpoints (cum 0 fill) (cum 0 drain).

Lemma exhausted_iff m :
  dlt (marginal fill m) d0 || dlt (marginal drain m) d0 = bool_decide (Z.min (supply fill) (supply drain) < m).
Proof using All.
  rewrite !marginal_sign by (done || apply Hfill || apply Hdrain).
  do 3 case_bool_decide; simpl; lia || done.
Qed.

Lemma marginal_nonneg pool m : pool_ok pool -> pool <> [] -> m <= supply pool -> dnonneg (marginal pool m).
Proof using Type.
  intros Hp Hne Hm. destruct (marginal_within pool m) as (it & Hin & ->); [apply Hp|done|done|].
  pose proof (pool_rated _ Hp) as Hr. rewrite Forall_forall in Hr. apply dlt_nonneg, rate_ok_pos, Hr, Hin.
Qed.

(** The joint rate does not rise with the volume. *)
Lemma joint_antitone a b :
  a <= b -> b <= Z.min (supply fill) (supply drain) -> dle (joint (row b)) (joint (row a)) = true.
Proof using All.
  intros Hab Hb. apply dadd_mono.
  - apply marginal_nonneg; [done..|lia].
  - apply marginal_nonneg; [done..|lia].
  - apply marginal_antitone; [done|lia|done].
  - apply marginal_antitone; [done|lia|done].
Qed.

Lemma clears_antitone floor a b : a <= b -> clears floor b = true -> clears floor a = true.
Proof using All.
  unfold clears. rewrite !exhausted_iff. intros Hab [H1 H2]%andb_prop.
  apply negb_true_iff, bool_decide_eq_false in H1. apply andb_true_intro. split.
  - apply negb_true_iff, bool_decide_eq_false. lia.
  - unfold dge in *. eapply dle_trans; [exact H2|]. apply joint_antitone; lia.
Qed.

(** The row the code stops at is the last one that clears the floor. *)
Lemma cut_last floor l best :
  StronglySorted Z.lt l ->
  cut floor best (curve_of (cum 0 fill) (cum 0 drain) l) =
  match last (filter (fun m => clears floor m = true) l) with Some m => Some (row m) | None => best end.
Proof using All.
  intros Hl. revert best. induction Hl as [|b l Hl IH Hb]; intros best; [done|].
  cbn [curve_of]. fold (marginal fill b). fold (marginal drain b).
  assert (clears floor b = false -> filter (fun m => clears floor m = true) l = []) as Hstop.
  { intros Hc. apply filter_none. rewrite Forall_forall in *. intros m Hm Hcm.
    specialize (Hb m Hm). apply (clears_antitone floor b m) in Hcm; [congruence|lia]. }
  destruct (dlt _ _ || dlt _ _) eqn:Ex.
  { assert (clears floor b = false) as Hc by (unfold clears; by rewrite Ex).
    rewrite filter_cons_False by congruence. by rewrite Hstop. }
  cbn [cut joint]. destruct (dge _ floor) eqn:Eg.
  - assert (clears floor b = true) as Hc by (unfold clears; by rewrite Ex, Eg).
    rewrite filter_cons_True by done. rewrite IH, last_cons. by destruct (last _).
  - assert (clears floor b = false) as Hc by (unfold clears; by rewrite Ex, Eg).
    rewrite filter_cons_False by congruence. by rewrite Hstop.
Qed.

(** A volume that clears the floor is below a breakpoint that does. *)
Lemma clears_breakpoint floor m :
  0 < m -> clears floor m = true -> exists b, b ∈ bps /\ m <= b /\ clears floor b = true.
Proof using All.
  intros Hm Hc. pose proof Hc as Hc'. unfold clears in Hc'. rewrite exhausted_iff in Hc'.
  apply andb_prop in Hc' as [H1%negb_true_iff%bool_decide_eq_false _].
  assert (exists b, b ∈ bps /\ m <= b /\ forall x, x ∈ bps -> m <= x -> b <= x) as (b & Hb & Hmb & Hmin).
  { assert (supply fill ∈ bps) as Hin.
    { apply breakpoints_elem. left. apply (cum_last 0 fill Nfill). }
    assert (m <= supply fill) as Hle by lia. revert Hin Hle. generalize (supply fill).
    pose proof (breakpoints_sorted (cum 0 fill) (cum 0 drain)) as Hs. fold bps in Hs.
    induction Hs as [|x l Hl IH Hx]; intros z Hin Hle; [by apply not_elem_of_nil in Hin|].
    rewrite Forall_forall in Hx. destruct (decide (m <= x)) as [Hmx|Hmx].
    - exists x. split; [left|]. split; [done|]. intros y [->|Hy]%elem_of_cons _; [lia|]. specialize (Hx y Hy). lia.
    - apply elem_of_cons in Hin as [->|Hin]; [lia|]. destruct (IH z Hin Hle) as (b & Hb & Hmb & Hmin).
      exists b. split; [by right|]. split; [done|]. intros y [->|Hy]%elem_of_cons ?; [lia|by apply Hmin]. }
  exists b. split; [done|]. split; [done|]. rewrite <- Hc. unfold clears, marginal.
  rewrite (threshold_same (cum 0 fill) b m), (threshold_same (cum 0 drain) b m); [done|..];
    intros x Hx; (split; [lia|]); intros; apply Hmin; try done; apply breakpoints_elem; tauto.
Qed.

Lemma sorted_last_max l m :
  StronglySorted Z.lt l -> last l = Some m -> forall x, x ∈ l -> x <= m.
Proof using Type.
  induction 1 as [|y l Hl IH Hy]; [done|]. rewrite last_cons. rewrite Forall_forall in Hy.
  destruct (last l) as [z|] eqn:E; intros [= <-] x [->|Hx]%elem_of_cons.
  - apply last_Some_elem_of in E. specialize (Hy z E). lia.
  - by apply IH.
  - lia.
  - apply last_None in E. subst l. by apply not_elem_of_nil in Hx.
Qed.

Lemma sorted_filter (P : Z -> Prop) `{!forall x, Decision (P x)} l :
  StronglySorted Z.lt l -> StronglySorted Z.lt (filter P l).
Proof using Type.
  induction 1 as [|y l Hl IH Hy]; [constructor|]. rewrite filter_cons. destruct decide; [|done].
  constructor; [done|]. rewrite Forall_forall in *. intros x Hx. apply list_elem_of_filter in Hx as [_ Hx]. by apply Hy.
Qed.

(** The cut is the largest volume that clears the floor. *)
Lemma cut_optimal floor :
  match cut floor None (curve fill drain) with
  | Some p => p = row (n p) /\ 0 < n p /\ clears floor (n p) = true /\ forall m, clears floor m = true -> m <= n p
  | None => forall m, 0 < m -> clears floor m = false
  end.
Proof using All.
  unfold curve. fold bps. rewrite cut_last by apply breakpoints_sorted.
  assert (forall b, b ∈ bps -> 0 < b) as Hpos.
  { intros b [H|H]%breakpoints_elem; eapply cum_positive; try exact H; try done; [apply Hfill|apply Hdrain]. }
  destruct (last _) as [b|] eqn:E.
  - pose proof E as Hin. apply last_Some_elem_of, list_elem_of_filter in Hin as [Hc Hin]. cbn [n row].
    split_and!; [done|by apply Hpos|done|]. intros m Hm. destruct (Z.leb_spec m 0); [specialize (Hpos b Hin); lia|].
    destruct (clears_breakpoint floor m) as (x & Hx & Hmx & Hcx); [lia|done|].
    transitivity x; [done|]. eapply sorted_last_max; [|exact E|by apply list_elem_of_filter].
    apply sorted_filter, breakpoints_sorted.
  - intros m Hm. apply not_true_is_false. intros Hc. destruct (clears_breakpoint floor m Hm Hc) as (x & Hx & _ & Hcx).
    apply last_None in E. eapply filter_nil_not_elem_of; [exact E|exact Hcx|exact Hx].
Qed.

End Cut.

(** ** The peers picked, and the price *)

Lemma needed_shift q acc pool : needed q acc pool = needed (q - acc) 0 pool.
Proof.
  revert q acc. induction pool as [|it pool IH]; intros q acc; cbn [needed]; [done|].
  rewrite (IH q), (IH (q - acc)).
  destruct (Z.leb_spec q acc), (Z.leb_spec (q - acc) 0); try lia; [done|]. do 2 f_equal. lia.
Qed.

Lemma needed_supplies q pool : q <= supply pool -> q <= supply (needed q 0 pool).
Proof.
  revert q. induction pool as [|it pool IH]; intros q Hq; cbn [needed]; [done|]. unfold supply in *. simpl in Hq.
  destruct (Z.leb_spec q 0); [done|]. simpl. rewrite needed_shift. specialize (IH (q - deficit it) ltac:(lia)).
  rewrite Z.add_0_l. lia.
Qed.

Lemma needed_rates q pool it :
  pool_ok pool -> q <= supply pool -> it ∈ needed q 0 pool -> dle (marginal pool q) (ppm it) = true.
Proof.
  intros [Hr Hs]. revert q Hr. induction Hs as [|x pool Hs IH Hall]; intros q Hr Hq; cbn [needed].
  { by intros ?%not_elem_of_nil. }
  apply Forall_cons in Hr as [[Hd Hx] Hr]. unfold supply in *. simpl in Hq.
  destruct (Z.leb_spec q 0); [by intros ?%not_elem_of_nil|]. rewrite needed_shift, Z.add_0_l, marginal_cons.
  destruct (Z.leb_spec q (deficit x)).
  - intros [->|Hin]%elem_of_cons; [apply dle_refl; by destruct Hx as (r & -> & _)|].
    destruct pool as [|y pool]; cbn [needed] in Hin; [by apply not_elem_of_nil in Hin|].
    destruct (Z.leb_spec (q - deficit x) 0); [by apply not_elem_of_nil in Hin|lia].
  - intros [->|Hin]%elem_of_cons; [|apply IH; [done|lia|done]].
    destruct (marginal_within pool (q - deficit x) Hr) as (y & Hy & ->); [|unfold supply; lia|].
    { intros ->. simpl in Hq. lia. }
    rewrite Forall_forall in Hall. by apply Hall.
Qed.

(** The last of the needed peers has the marginal rate. *)
Lemma needed_marginal q pool :
  Forall rated pool -> 0 < q <= supply pool -> exists it, it ∈ needed q 0 pool /\ marginal pool q = ppm it.
Proof.
  intros H. revert q. induction H as [|x pool [Hd _] Hp IH]; intros q Hq; unfold supply in *; simpl in Hq; [lia|].
  cbn [needed]. destruct (Z.leb_spec q 0); [lia|]. rewrite needed_shift, Z.add_0_l, marginal_cons.
  destruct (Z.leb_spec q (deficit x)); [exists x; split; [left|done]|].
  destruct (IH (q - deficit x)) as (it & Hin & E); [lia|]. exists it. split; [by right|done].
Qed.

(** The nearest integer of a rate. *)
Lemma llround_spec q :
  (0 <= q <= pow2 31)%Q -> exists r, llround (Fin q) = Some r /\ 0 <= r < 2 ^ 32 /\
  (inject_Z r - (1 # 2) <= q < inject_Z r + (1 # 2))%Q.
Proof.
  intros [H0 H1]. unfold llround. assert (Qle_bool 0 q = true) as -> by by apply Qle_bool_iff.
  set (r := Qfloor (q + (1 # 2))). cbv zeta.
  pose proof (Qfloor_le (q + (1 # 2))) as L. pose proof (Qlt_floor (q + (1 # 2))) as U. fold r in L, U.
  rewrite inject_Z_plus in U. change (inject_Z 1) with 1%Q in U.
  assert (0 <= r) by (apply Qfloor_nonneg; lra).
  assert (r < 2 ^ 32).
  { rewrite Zlt_Qlt. rewrite <- (pow2_Z 32) by lia. assert (pow2 31 + (1 # 2) < pow2 32)%Q by (vm_compute; reflexivity). lra. }
  assert ((- 2 ^ 63 <=? r) && (r <? 2 ^ 63) = true) as -> by lia.
  exists r. split; [done|]. split; [lia|]. lra.
Qed.

(** The sum of two rates. *)
Lemma rate_sum a b : rate_ok a -> rate_ok b -> exists q, dadd a b = Fin q /\ (pow2 (-100) <= q <= pow2 31)%Q.
Proof.
  intros (p & -> & P0 & P1) (q & -> & Q0 & Q1). cbn [dadd]. pose proof (pow2_pos (-100)).
  assert (p + q <= pow2 31)%Q as Hs.
  { change 31 with (30 + 1). rewrite pow2_add. change (pow2 1) with 2%Q. lra. }
  destruct (RN_finite (p + q)) as (r & E & R0 & _); [lra| |].
  { pose proof (pow2_le 31 1023 ltac:(lia)). lra. }
  exists r. split; [done|]. pose proof (RN_mono (pow2 (-100)) (p + q) ltac:(lra) ltac:(lra)) as Hl.
  pose proof (RN_mono (p + q) (pow2 31) ltac:(lra) Hs) as Hm. rewrite E in *.
  assert (RN (pow2 31) = Fin (pow2 31)) as E31 by (vm_compute; reflexivity).
  assert (RN (pow2 (-100)) = Fin (pow2 (-100))) as E100 by (vm_compute; reflexivity).
  rewrite E31, E100 in *. apply dle_Fin in Hm, Hl. lra.
Qed.

Lemma marginal_rate pool m : pool_ok pool -> pool <> [] -> m <= supply pool -> rate_ok (marginal pool m).
Proof.
  intros Hp Hne Hm. destruct (marginal_within pool m) as (it & Hin & ->); [apply Hp|done|done|].
  pose proof (pool_rated _ Hp) as Hr. rewrite Forall_forall in Hr. apply Hr, Hin.
Qed.

Lemma joint_number fill drain m :
  pool_ok fill -> pool_ok drain -> fill <> [] -> drain <> [] -> m <= supply fill -> m <= supply drain ->
  exists q, joint (row fill drain m) = Fin q /\ (pow2 (-100) <= q <= pow2 31)%Q.
Proof. intros. apply rate_sum; by apply marginal_rate. Qed.

(** The floor of a matched cycle. *)
Definition floor_of (s : Settings) (ladder : list CurvePoint) (draw : nat) : double :=
  match floor_auto s, ladder !! draw with true, Some p => joint p | _, _ => floor_ppm s end.

(** C14: For pools with rates between 2^-100 and 2^30 ppm, a matched cycle asks for the
    largest volume that the peers of both sides can supply and whose last satoshi still
    earns the floor, among all volumes; the peers it names supply that volume; among them
    there is a pair, one of each side, that no other pair earns less than, and the fee limit
    is the rate of that pair, rounded to the nearest integer. *)
Theorem matched_is_optimal s fill drain ladder draw c :
  pool_ok fill -> pool_ok drain -> fill <> [] -> drain <> [] ->
  matched s fill drain ladder draw = Some (Run c) ->
  let floor := floor_of s ladder draw in
  let fs := needed (requested c) 0 fill in
  let ds := needed (requested c) 0 drain in
  clears fill drain floor (requested c) = true /\
  (forall m, clears fill drain floor m = true -> m <= requested c) /\
  0 < requested c <= Z.min (supply fs) (supply ds) /\
  dests c = concat (map caps fs) /\ sources c = concat (map caps ds) /\
  exists f1 d1 q, f1 ∈ fs /\ d1 ∈ ds /\ dadd (ppm f1) (ppm d1) = Fin q /\ dle floor (Fin q) = true /\
    (forall f d, f ∈ fs -> d ∈ ds -> dle (Fin q) (dadd (ppm f) (ppm d)) = true) /\
    (inject_Z (maxfee c) - (1 # 2) <= q < inject_Z (maxfee c) + (1 # 2))%Q.
Proof.
  intros Hf Hd Nf Nd. unfold matched. fold (floor_of s ladder draw).
  pose proof (cut_optimal fill drain Hf Hd Nf Nd (floor_of s ladder draw)) as Hcut.
  destruct (cut _ _ _) as [p|]; [|done]. destruct Hcut as (Ep & Hp & Hc & Hmax).
  destruct (Z.leb_spec (n p) 0); [lia|]. pose proof Hc as Hc'. unfold clears in Hc'. rewrite exhausted_iff in Hc' by done.
  apply andb_prop in Hc' as [Hex%negb_true_iff%bool_decide_eq_false Hfloor].
  destruct (joint_number fill drain (n p)) as (q & Eq & Hq); [done..|lia|lia|].
  rewrite Ep in *. cbn [n row] in *.
  destruct (llround_spec q) as (r & Er & R & Rq); [pose proof (pow2_pos (-100)); lra|].
  rewrite Eq, Er. cbn [mbind option_bind]. intros [= <-]. cbn [requested sources dests maxfee]. cbv zeta.
  rewrite u32_id by (unfold is_u32; lia). split_and!; [done|done|done| |done|done|].
  { pose proof (needed_supplies (n p) fill ltac:(lia)). pose proof (needed_supplies (n p) drain ltac:(lia)). lia. }
  destruct (needed_marginal (n p) fill) as (f1 & F1 & Ef); [apply Hf|lia|].
  destruct (needed_marginal (n p) drain) as (d1 & D1 & Ed); [apply Hd|lia|].
  exists f1, d1, q. rewrite <- Ef, <- Ed. split_and!; [done|done|done|by rewrite <- Eq| |lra|lra].
  intros f d F D. rewrite <- Eq. apply dadd_mono.
  - apply marginal_nonneg; [done..|lia].
  - apply marginal_nonneg; [done..|lia].
  - apply (needed_rates (n p)); [done|lia|done].
  - apply (needed_rates (n p)); [done|lia|done].
Qed.

(** ** The ladder of floors *)

(** What [k] steps leave of a target, at most. *)
Definition shrink (k : nat) : Q := Qpower (2 # 3) (Z.of_nat k).

Lemma shrink_S k : (shrink (S k) == (2 # 3) * shrink k)%Q.
Proof. unfold shrink. rewrite Nat2Z.inj_succ, <- Z.add_1_l. rewrite Qpower_plus by discriminate. reflexivity. Qed.

Lemma shrink_pos k : (0 < shrink k)%Q.
Proof. apply Qpower_0_lt. lra. Qed.

Lemma shrink_le a b : (a <= b)%nat -> (shrink b <= shrink a)%Q.
Proof.
  induction 1 as [|b H IH]; [lra|]. rewrite shrink_S. pose proof (shrink_pos b). lra.
Qed.

Lemma ladder_step t :
  (pow2 (-100) <= t <= pow2 31)%Q -> exists r, ddiv (Fin t) LADDER_RATIO = Fin r /\ (0 <= r <= (2 # 3) * t)%Q.
Proof.
  intros [H0 H1]. pose proof (pow2_pos (-100)).
  assert (LADDER_RATIO = Fin (3602879701896397 # 2251799813685248)) as -> by (vm_compute; reflexivity).
  assert (t / (3602879701896397 # 2251799813685248) == t * (2251799813685248 # 3602879701896397))%Q as E
    by (unfold Qdiv; reflexivity).
  change (ddiv (Fin t) _) with (RN (t / (3602879701896397 # 2251799813685248))). rewrite (RN_Proper _ _ E).
  assert (pow2 31 <= pow2 1023)%Q by (apply pow2_le; lia).
  destruct (RN_finite (t * (2251799813685248 # 3602879701896397))) as (r & Er & R0 & _); [lra..|].
  exists r. split; [done|]. split; [done|].
  assert (pow2 (-1022) <= pow2 (-100) * (2251799813685248 # 3602879701896397))%Q by (vm_compute; discriminate).
  destruct (RN_Fin_error _ _ Er) as [_ Hr]; [lra|].
  assert (pow2 (-53) <= 1 # 1000)%Q by (vm_compute; discriminate). nra.
Qed.

(** The loop over the targets ends. *)
Lemma targets_end fuel t low :
  (pow2 (-100) <= low)%Q -> (t <= pow2 31)%Q -> (t * shrink fuel < low)%Q ->
  exists ts, targets_from fuel (Fin t) (Fin low) = Some ts.
Proof.
  intros Hl. revert t. induction fuel as [|f IH]; intros t Ht Hs; cbn [targets_from].
  - destruct (dgt _ _) eqn:E; [|by eexists]. apply dlt_Fin in E. change (shrink 0) with 1%Q in Hs. lra.
  - destruct (dgt _ _) eqn:E; [|by eexists]. apply dlt_Fin in E.
    destruct (ladder_step t) as (r & -> & R0 & R1); [lra|]. rewrite shrink_S in Hs.
    pose proof (shrink_pos f). pose proof (pow2_pos (-100)).
    destruct (IH r) as (ts & ->); [lra|nra|]. by eexists.
Qed.

(** The number of steps that are enough. *)
Definition ladder_fuel : nat := 232.

Lemma ladder_fuel_enough fuel : (ladder_fuel <= fuel)%nat -> (pow2 31 * shrink fuel < pow2 (-100))%Q.
Proof.
  intros H. pose proof (shrink_le _ _ H).
  assert (pow2 31 * shrink ladder_fuel < pow2 (-100))%Q by (vm_compute; reflexivity).
  pose proof (pow2_pos 31). nra.
Qed.

Lemma useful_index c i best : (best < i)%nat -> (useful_from i best c < Nat.max (S best) (i + length c))%nat.
Proof.
  revert i best. induction c as [|p c IH]; intros i best H; cbn [useful_from length]; [lia|].
  destruct (_ && _); [|lia]. specialize (IH (S i) i ltac:(lia)). lia.
Qed.

Lemma snap_elem tgt best c (P : CurvePoint -> Prop) : P best -> Forall P c -> P (snap tgt best c).
Proof.
  revert best. induction c as [|p c IH]; intros best Hb Hc; simpl; [done|].
  apply Forall_cons in Hc as [Hp Hc]. destruct (dge _ _); [by apply IH|done].
Qed.

Lemma rungs_elem first useful ladder last_joint ts (P : CurvePoint -> Prop) :
  P first -> Forall P useful -> Forall P ladder -> Forall P (rungs first useful ladder last_joint ts).
Proof.
  intros Hf Hu. revert ladder last_joint. induction ts as [|t ts IH]; intros ladder lj Hl; simpl; [done|].
  destruct (already _ _); [by apply IH|]. destruct (_ && _); [by apply IH|]. apply IH, Forall_app.
  split; [done|]. constructor; [|done]. by apply snap_elem.
Qed.

(** The rungs are rows of the curve, and there is at least one. *)
Lemma ladder_rows fuel c ladder (P : CurvePoint -> Prop) :
  derive_ladder fuel c = Some ladder -> Forall P c -> Forall P ladder /\ (c <> [] -> ladder <> []).
Proof.
  destruct c as [|first c]; cbn [derive_ladder]; [by intros [= <-]|]. intros E H.
  destruct (targets_from _ _ _) as [ts|]; [|done]. cbn [mbind option_bind] in E.
  assert (P first) as Hf by by apply Forall_cons in H as [? _].
  set (u := useful_from 0 0 (first :: c)) in *.
  assert (P (default first ((first :: c) !! u))) as Hu.
  { destruct ((first :: c) !! u) as [x|] eqn:Ex; [|done]. simpl. by eapply Forall_lookup_1 in Ex. }
  assert (forall lj ts, Forall P (rungs first (take (S u) (first :: c)) [] lj ts)) as Hr.
  { intros. apply rungs_elem; [done| |done]. by apply Forall_take. }
  apply Some_inj in E. subst ladder. destruct (already _ _) eqn:Ea; (split; [|intros _ H0]).
  - apply Hr.
  - by rewrite H0 in Ea.
  - apply Forall_app. split; [apply Hr|by repeat constructor].
  - by apply app_eq_nil in H0 as [_ ?].
Qed.

Section Ladder.

Context (fill drain : list PoolItem).
Hypothesis (Hfill : pool_ok fill) (Hdrain : pool_ok drain) (Nfill : fill <> []) (Ndrain : drain <> []).

(** A row of the curve is a volume that both sides can supply. *)
Definition is_row (p : CurvePoint) : Prop :=
  p = row fill drain (n p) /\ 0 < n p <= Z.min (supply fill) (supply drain).

Lemma curve_rows : Forall is_row (curve fill drain) /\ curve fill drain <> [].
Proof using All.
  unfold curve. fold (bps fill drain).
  assert (forall b, b ∈ bps fill drain -> 0 < b) as Hpos.
  { intros b [H|H]%breakpoints_elem; eapply cum_positive; try exact H; try done; [apply Hfill|apply Hdrain]. }
  pose proof (breakpoints_sorted (cum 0 fill) (cum 0 drain)) as Hs. fold (bps fill drain) in Hs.
  assert (supply fill ∈ bps fill drain /\ supply drain ∈ bps fill drain) as [If Id].
  { split; apply breakpoints_elem; [left; apply (cum_last 0 fill Nfill)|right; apply (cum_last 0 drain Ndrain)]. }
  split.
  - clear Hs If Id. induction (bps fill drain) as [|b l IH]; [done|]. cbn [curve_of].
    fold (marginal fill b). fold (marginal drain b). rewrite exhausted_iff by done.
    case_bool_decide; [done|]. constructor; [|apply IH; intros; apply Hpos; by right].
    split; [done|]. cbn [n]. specialize (Hpos b ltac:(left)). lia.
  - destruct Hs as [|b l Hl Hb]; [by apply not_elem_of_nil in If|]. cbn [curve_of].
    fold (marginal fill b). fold (marginal drain b). rewrite exhausted_iff by done.
    case_bool_decide as C; [|done]. rewrite Forall_forall in Hb.
    assert (b <= supply fill) by (apply elem_of_cons in If as [->|If]; [lia|specialize (Hb _ If); lia]).
    assert (b <= supply drain) by (apply elem_of_cons in Id as [->|Id]; [lia|specialize (Hb _ Id); lia]). lia.
Qed.

Lemma row_number p : is_row p -> exists q, joint p = Fin q /\ (pow2 (-100) <= q <= pow2 31)%Q.
Proof using All. intros [-> H]. cbn [n row] in H. apply joint_number; by done || lia. Qed.

Lemma ladder_defined fuel : (ladder_fuel <= fuel)%nat -> exists ladder, derive_ladder fuel (curve fill drain) = Some ladder.
Proof using All.
  intros Hfuel. destruct curve_rows as [Hr Hne]. destruct (curve fill drain) as [|first c]; [done|]. cbn [derive_ladder].
  set (u := useful_from 0 0 (first :: c)).
  assert (is_row (default first ((first :: c) !! u))) as Hu.
  { destruct ((first :: c) !! u) as [x|] eqn:Ex; simpl; [by eapply Forall_lookup_1 in Ex|by apply Forall_cons in Hr as [? _]]. }
  apply Forall_cons in Hr as [Hf _].
  destruct (row_number _ Hf) as (q & -> & Hq), (row_number _ Hu) as (q' & -> & Hq').
  destruct (targets_end fuel q q') as (ts & ->); [lra|lra| |cbn [mbind option_bind]; by eexists].
  pose proof (ladder_fuel_enough fuel Hfuel). pose proof (shrink_pos fuel). nra.
Qed.

(** A floor that a row earns leads to a cycle. *)
Lemma row_runs s ladder draw p :
  is_row p -> floor_of s ladder draw = joint p ->
  exists c, matched s fill drain ladder draw = Some (Run c) /\ n p <= requested c.
Proof using All.
  intros Hp Hfl. destruct (row_number p Hp) as (q & Eq & Hq). destruct Hp as [Ep Hn].
  assert (clears fill drain (joint p) (n p) = true) as Hc.
  { unfold clears. rewrite exhausted_iff by done. apply andb_true_intro. split.
    - apply negb_true_iff, bool_decide_eq_false. lia.
    - change (dadd _ _) with (joint (row fill drain (n p))). rewrite <- Ep, Eq. by apply dle_refl. }
  unfold matched. fold (floor_of s ladder draw). rewrite Hfl.
  pose proof (cut_optimal fill drain Hfill Hdrain Nfill Ndrain (joint p)) as Hcut.
  destruct (cut _ _ _) as [b|]; [|by rewrite Hcut in Hc by lia]. destruct Hcut as (Eb & Hb & Hcb & Hmax).
  destruct (Z.leb_spec (n b) 0); [lia|].
  assert (is_row b) as Hrow.
  { split; [done|]. unfold clears in Hcb. rewrite exhausted_iff in Hcb by done.
    apply andb_prop in Hcb as [Hex%negb_true_iff%bool_decide_eq_false _]. lia. }
  destruct (row_number b Hrow) as (qb & -> & Hqb). pose proof (pow2_pos (-100)).
  destruct (llround_spec qb) as (r & -> & _); [lra|]. cbn [mbind option_bind]. eexists. split; [done|]. by apply Hmax.
Qed.

End Ladder.

(** Two pools for the samples. *)
Definition demo_item (i rate d : Z) : PoolItem :=
  {| pr := {| p_node := Some [i]; chans := [demo_chan i 0]; p_cap := 0; p_local := 0; p_online := true;
              pct_local := d0; tgt_fill := d; tgt_drain := d |};
     ppm := Fin (inject_Z rate); deficit := d; caps := [{| c_scid := [i]; max_sat := d |}] |}.
Definition demo_fill : list PoolItem := [demo_item 1 900 5000; demo_item 2 300 4000].
Definition demo_drain : list PoolItem := [demo_item 3 800 6000; demo_item 4 30 9000].

Lemma demo_pool_ok l :
  Forall (fun rd => 1 <= rd.2 /\ 1 <= rd.1.2 < 2 ^ 20) l -> StronglySorted (fun a b => b.1.2 <= a.1.2) l ->
  pool_ok (map (fun rd => demo_item rd.1.1 rd.1.2 rd.2) l).
Proof.
  intros Hr Hs. split.
  - apply Forall_fmap. eapply Forall_impl; [exact Hr|]. intros [[i r] d] [H1 H2]. simpl in *. split; [simpl; lia|].
    eexists. split; [done|]. split.
    + apply (Qle_trans _ 1); [vm_compute; discriminate|apply inject_ge_1; lia].
    + rewrite pow2_Z by lia. rewrite <- Zle_Qle. lia.
  - induction Hs as [|x l Hl IH Hx]; simpl; [constructor|]. apply Forall_cons in Hr as [_ Hr].
    constructor; [by apply IH|]. apply Forall_fmap. eapply Forall_impl; [exact Hx|].
    intros y Hy. change (dle (Fin (inject_Z y.1.2)) (Fin (inject_Z x.1.2)) = true). rewrite dle_Z. apply Z.leb_le, Hy.
Qed.

Lemma demo_fill_ok : pool_ok demo_fill.
Proof. apply (demo_pool_ok [((1, 900), 5000); ((2, 300), 4000)]); repeat constructor; simpl; lia. Qed.
Lemma demo_drain_ok : pool_ok demo_drain.
Proof. apply (demo_pool_ok [((3, 800), 6000); ((4, 30), 9000)]); repeat constructor; simpl; lia. Qed.

Definition demo_ladder : list CurvePoint :=
  [row demo_fill demo_drain 5000; row demo_fill demo_drain 6000; row demo_fill demo_drain 9000].
Definition demo_run : Cycle :=
  {| sources := [{| c_scid := [3]; max_sat := 6000 |}];
     dests := [{| c_scid := [1]; max_sat := 5000 |}; {| c_scid := [2]; max_sat := 4000 |}];
     requested := 6000; maxfee := 1100 |}.

Lemma matched_is_optimal_witness :
  (forall m, clears demo_fill demo_drain (Fin 1100) m = true -> m <= 6000) /\
  clears demo_fill demo_drain (Fin 1100) 6000 = true.
Proof.
  destruct (matched_is_optimal default_settings demo_fill demo_drain demo_ladder 1 demo_run) as (H1 & H2 & _).
  - apply demo_fill_ok.
  - apply demo_drain_ok.
  - discriminate.
  - discriminate.
  - vm_compute. reflexivity.
  - split; [exact H2|exact H1].
Defined.

(** C21: For pools with rates between 2^-100 and 2^30 ppm, the ladder of floors is built in
    at most 232 steps and has a rung; when the floor is automatic, whichever rung is drawn
    leads to a cycle of at least its volume.  (Rates are in that range under
    [ordinary_rates]; with an infinite one no number of steps is enough,
    [infinite_ceiling_never_ends].) *)
Theorem auto_floor_always_runs fill drain fuel :
  pool_ok fill -> pool_ok drain -> fill <> [] -> drain <> [] -> (ladder_fuel <= fuel)%nat ->
  exists ladder, derive_ladder fuel (curve fill drain) = Some ladder /\ ladder <> [] /\
    forall s draw p, floor_auto s = true -> ladder !! draw = Some p ->
      exists c, matched s fill drain ladder draw = Some (Run c) /\ n p <= requested c.
Proof.
  intros Hf Hd Nf Nd Hfuel. destruct (ladder_defined fill drain Hf Hd Nf Nd fuel Hfuel) as (ladder & E).
  destruct (curve_rows fill drain Hf Hd Nf Nd) as [Hr Hne].
  destruct (ladder_rows fuel _ ladder _ E Hr) as [Hl Hl0]. exists ladder. split; [done|]. split; [by apply Hl0|].
  intros s draw p Ha Hp. apply row_runs; [done..| |].
  - by eapply Forall_lookup_1 in Hp.
  - unfold floor_of. by rewrite Ha, Hp.
Qed.

Lemma auto_floor_always_runs_witness :
  exists ladder, derive_ladder ladder_fuel (curve demo_fill demo_drain) = Some ladder /\ ladder <> [].
Proof.
  destruct (auto_floor_always_runs demo_fill demo_drain ladder_fuel) as (l & E & Hl & _).
  - apply demo_fill_ok.
  - apply demo_drain_ok.
  - discriminate.
  - discriminate.
  - apply Nat.le_refl.
  - exists l. split; [exact E|exact Hl].
Defined.

Example demo_ladder_derived : derive_ladder ladder_fuel (curve demo_fill demo_drain) = Some demo_ladder.
Proof. vm_compute. reflexivity. Qed.

(** With an infinite ceiling no number of steps is enough. *)
Lemma infinite_ceiling_never_ends fuel low : targets_from fuel (Inf false) (Fin low) = None.
Proof.
  induction fuel as [|f IH]; cbn [targets_from]; [done|].
  assert (ddiv (Inf false) LADDER_RATIO = Inf false) as -> by (vm_compute; reflexivity). by rewrite IH.
Qed.

(** ** Demand *)

(** The ceiling of [a / 100] is not disturbed by the rounding. *)
Lemma percent_exact a :
  0 <= a < 2 ^ 50 -> dceil (ddiv (d_of_Z a) d100) = Fin (inject_Z ((a + 99) / 100)).
Proof.
  intros Ha. rewrite d_of_amount by (unfold amount_ok; lia).
  change d100 with (Fin (inject_Z 100)). change (ddiv (Fin (inject_Z a)) _) with (RN (inject_Z a / inject_Z 100)).
  set (k := (a + 99) / 100). assert (100 * k - 99 <= a <= 100 * k) as Hk.
  { unfold k. pose proof (Z.div_mod (a + 99) 100 ltac:(lia)). pose proof (Z.mod_pos_bound (a + 99) 100 ltac:(lia)). lia. }
  assert (inject_Z a / inject_Z 100 == inject_Z a * (1 # 100))%Q as E by reflexivity.
  rewrite (RN_Proper _ _ E). assert (0 <= inject_Z a)%Q as A0 by (apply inject_nonneg; lia).
  destruct (decide (a = 0)) as [->|Hne].
  { assert (k = 0) as -> by lia. vm_compute. reflexivity. }
  assert (inject_Z a <= 100 * inject_Z k)%Q as U.
  { change 100%Q with (inject_Z 100). rewrite <- inject_Z_mult, <- Zle_Qle. lia. }
  assert (100 * inject_Z (k - 1) + 1 <= inject_Z a)%Q as L.
  { change 100%Q with (inject_Z 100). change 1%Q with (inject_Z 1). rewrite <- inject_Z_mult, <- inject_Z_plus, <- Zle_Qle. lia. }
  assert (inject_Z a <= pow2 50)%Q as A1 by (rewrite pow2_Z by lia; rewrite <- Zle_Qle; lia).
  assert (pow2 50 <= pow2 1023)%Q by (apply pow2_le; lia).
  destruct (RN_finite (inject_Z a * (1 # 100))) as (r & Er & R0 & _); [lra..|].
  pose proof (RN_mono (inject_Z a * (1 # 100)) (inject_Z k) ltac:(lra) ltac:(lra)) as Hm.
  change (RN (inject_Z k)) with (d_of_Z k) in Hm. rewrite d_of_amount in Hm by (unfold amount_ok; lia).
  rewrite Er in *. apply dle_Fin in Hm.
  assert (inject_Z (k - 1) < r)%Q as Hlt.
  { assert (pow2 (-1022) <= inject_Z a * (1 # 100))%Q as Hn.
    { assert (pow2 (-1022) <= 1 # 100)%Q by (vm_compute; discriminate).
      assert (1 <= inject_Z a)%Q by (apply inject_ge_1; lia). lra. }
    destruct (RN_Fin_error _ _ Er Hn) as [Hl _].
    assert (pow2 50 * pow2 (-53) == 1 # 8)%Q as E8 by (rewrite <- pow2_add; reflexivity).
    pose proof (pow2_pos (-53)). assert (inject_Z a * pow2 (-53) <= 1 # 8)%Q by (rewrite <- E8; nra). lra. }
  cbn [dceil]. f_equal. f_equal. pose proof (Qceiling_resp_le _ _ Hm) as C1. rewrite Qceiling_Z in C1.
  pose proof (Qle_ceiling r) as C2. assert (inject_Z (k - 1) < inject_Z (Qceiling r))%Q as C3 by lra.
  rewrite <- Zlt_Qlt in C3. lia.
Qed.

Lemma sorted_lookup {A} (R : A -> A -> Prop) (l : list A) i j x y :
  StronglySorted R l -> l !! i = Some x -> l !! j = Some y -> (i < j)%nat -> R x y.
Proof.
  intros H. revert i j. induction H as [|z l Hl IH Hz]; intros i j Hi Hj Hij; [done|].
  destruct j as [|j]; [lia|]. destruct i as [|i]; simpl in *; [|apply (IH i j Hi Hj); lia].
  injection Hi as <-. by eapply Forall_lookup_1 in Hz.
Qed.

(** The number of sources a rung keeps of [len]. *)
Definition kept (len rung : Z) : Z := Z.max 1 ((len * rung + 99) / 100).

(** A demand cycle for a channel of a peer of the fill pool asks for the peer's whole
    deficit, from the best [rung] percent of the sources, rounded up; the fee limit is
    within half a ppm of what the peer and the least earning source offered earn, and
    so at most what any source offered earns with the peer.  For another channel there
    is no cycle. *)
Theorem demand_offers_the_best fill drain x rung :
  pool_ok fill -> pool_ok drain -> drain <> [] -> Z.of_nat (length drain) < 2 ^ 43 -> 1 <= rung <= 100 ->
  match List.find (has_scid x) fill with
  | None => plan_demand fill drain x rung = Some NotAFill
  | Some target =>
      exists c, plan_demand fill drain x rung = Some (Run c) /\
        requested c = deficit target /\ dests c = caps target /\
        let offered := take (Z.to_nat (kept (Z.of_nat (length drain)) rung)) drain in
        offered <> [] /\ sources c = concat (map caps offered) /\
        forall d, d ∈ offered -> exists q, dle (Fin q) (dadd (ppm target) (ppm d)) = true /\
          (inject_Z (maxfee c) - (1 # 2) <= q < inject_Z (maxfee c) + (1 # 2))%Q
  end.
Proof.
  intros Hf Hd Nd Hlen Hr. unfold plan_demand. set (len := Z.of_nat (length drain)) in *.
  destruct (List.find _ _) as [t|] eqn:Et; [|done]. apply find_some in Et as [Ht%list_elem_of_In _].
  assert (0 < len) as Hl0 by (destruct drain; [done|unfold len; simpl; lia]).
  assert (dmul (d_of_Z len) (d_of_Z rung) = d_of_Z (len * rung)) as Em.
  { rewrite !d_of_amount by (unfold amount_ok; lia). simpl. by rewrite <- inject_Z_mult. }
  rewrite Em, percent_exact by nia. set (k := (len * rung + 99) / 100). assert (1 <= k <= len) as Hk.
  { unfold k. pose proof (Z.div_mod (len * rung + 99) 100 ltac:(lia)).
    pose proof (Z.mod_pos_bound (len * rung + 99) 100 ltac:(lia)). nia. }
  rewrite d_to_u64_Z by (unfold is_u64; lia). cbn [mbind option_bind]. cbv zeta.
  assert (kept len rung = k) as -> by (unfold kept; lia).
  destruct (Z.ltb_spec k 1); [lia|]. destruct (Z.ltb_spec len k); [lia|].
  destruct (lookup_lt_is_Some_2 drain (Z.to_nat (k - 1))) as [o Ho]; [unfold len in *; lia|].
  rewrite Ho. cbn [mbind option_bind].
  pose proof (pool_rated _ Hf) as Rf. pose proof (pool_rated _ Hd) as Rd. rewrite Forall_forall in Rf, Rd.
  destruct (Rf t Ht) as [_ Rt]. destruct (Rd o ltac:(by eapply list_elem_of_lookup_2)) as [_ Ro].
  destruct (rate_sum _ _ Rt Ro) as (q & Eq & Hq). pose proof (pow2_pos (-100)).
  destruct (llround_spec q) as (r & Er & R & Rq); [lra|]. rewrite Eq, Er. cbn [mbind option_bind].
  eexists. split; [done|]. cbn [requested dests sources maxfee]. rewrite u32_id by (unfold is_u32; lia).
  split_and!; [done|done| |done|].
  { destruct drain; [done|]. replace (Z.to_nat k) with (S (Z.to_nat (k - 1))) by lia. done. }
  intros d Hin. exists q. split; [|lra]. rewrite <- Eq. apply dadd_mono.
  - by apply dlt_nonneg, rate_ok_pos.
  - by apply dlt_nonneg, rate_ok_pos.
  - apply dle_refl. by destruct Rt as (? & -> & _).
  - apply list_elem_of_lookup in Hin as [i Hi]. apply lookup_take_Some in Hi as [Hi Hik].
    destruct (decide (i = Z.to_nat (k - 1))) as [->|].
    + assert (d = o) as -> by congruence. apply dle_refl. by destruct Ro as (? & -> & _).
    + apply (sorted_lookup ppm_ge drain i (Z.to_nat (k - 1))); [apply Hd|done|done|lia].
Qed.

Lemma demand_offers_the_best_witness :
  exists c, plan_demand demo_fill demo_drain [2] 80 = Some (Run c) /\ requested c = 4000 /\
            dests c = [{| c_scid := [2]; max_sat := 4000 |}].
Proof.
  destruct (demand_offers_the_best demo_fill demo_drain [2] 80) as (c & E & R & D & _).
  - apply demo_fill_ok.
  - apply demo_drain_ok.
  - discriminate.
  - simpl. lia.
  - lia.
  - exists c. split; [exact E|]. split; [exact R|exact D].
Defined.

(** ** Every plan is defined *)

(** The positive rates of all peers are in range. *)
Definition rates_ok (net : gmap Node NetPpm) : Prop :=
  map_Forall (fun _ np => forall side r, side_rate side np = Some r -> dgt r d0 = true -> rate_ok r) net.

Lemma matched_defined s fill drain ladder draw :
  pool_ok fill -> pool_ok drain -> fill <> [] -> drain <> [] ->
  exists v, matched s fill drain ladder draw = Some v.
Proof.
  intros Hf Hd Nf Nd. unfold matched. fold (floor_of s ladder draw).
  pose proof (cut_optimal fill drain Hf Hd Nf Nd (floor_of s ladder draw)) as Hcut.
  destruct (cut _ _ _) as [p|]; [|by eexists]. destruct Hcut as (Ep & Hp & Hc & _).
  destruct (Z.leb_spec (n p) 0); [by eexists|]. unfold clears in Hc. rewrite exhausted_iff in Hc by done.
  apply andb_prop in Hc as [Hex%negb_true_iff%bool_decide_eq_false _].
  destruct (joint_number fill drain (n p)) as (q & Eq & Hq); [done..|lia|lia|]. rewrite <- Ep in Eq.
  destruct (llround_spec q) as (r & Er & _); [pose proof (pow2_pos (-100)); lra|].
  rewrite Eq, Er. by eexists.
Qed.

Section Defined.

Context (sort : list PoolItem -> list PoolItem) `{!SortByRate sort}.
Context (s : Settings) (cs : list Chan) (net : gmap Node NetPpm) (unmanaged : Node -> bool).
Hypothesis (Hcs : chans_ok cs) (Hfill : band_ok (fill_band s)) (Hdrain : band_ok (drain_band s)).
Hypothesis Hnet : rates_ok net.

Lemma items_pool_ok side its : Forall (item_ok s cs net unmanaged side) its -> pool_ok (sort its).
Proof using All.
  intros H. split.
  - rewrite sort_perm. eapply Forall_impl; [exact H|]. intros it Hi. split; [apply Hi|].
    destruct (item_earns _ _ _ _ _ _ Hi) as (np & En & Er). eapply (Hnet _ np En); [exact Er|apply Hi].
  - apply sort_sorted. eapply Forall_impl; [exact H|]. intros it Hi. apply Hi.
Qed.

(** Every peer of a pool can move a thousand satoshis. *)
Lemma items_count side its :
  Forall (item_ok s cs net unmanaged side) its -> NoDup (map (p_node ∘ pr) its) -> Z.of_nat (length its) < 2 ^ 43.
Proof using Hcs Hfill Hdrain.
  intros Hi Hn. pose proof (items_supply s cs net unmanaged Hcs Hfill Hdrain side its Hi Hn) as Hs.
  assert (1000 * Z.of_nat (length its) <= sumZ (map deficit its)); [|destruct Hcs as (_ & [_ Hb] & _); lia].
  clear Hn Hs. induction Hi as [|it its Hi _ IH]; [done|]. cbn [length map].
  change (sumZ (deficit it :: map deficit its)) with (deficit it + sumZ (map deficit its)).
  pose proof (item_caps _ _ _ _ _ _ Hi) as Hc. pose proof (item_min_cap _ _ _ _ _ _ Hi) as Hm.
  pose proof (item_some _ _ _ _ _ _ Hi) as Hne. destruct (caps it) as [|c l]; [done|]. cbn [map] in Hc.
  change (sumZ (max_sat c :: map max_sat l)) with (max_sat c + sumZ (map max_sat l)) in Hc.
  apply Forall_cons in Hm as [Hm Hl]. unfold min_cap_sat in *.
  assert (0 <= sumZ (map max_sat l)).
  { apply sumZ_nonneg, Forall_fmap. eapply Forall_impl; [exact Hl|]. intros x Hx. simpl in *. lia. }
  lia.
Qed.

Lemma plan_defined demand fuel draw rung :
  (ladder_fuel <= fuel)%nat -> 1 <= rung <= 100 ->
  exists v, plan_and_log sort s cs net unmanaged demand fuel draw rung = Some v.
Proof using All.
  intros Hfuel Hr. unfold plan_and_log.
  destruct (peers_of_defined s cs Hcs Hfill Hdrain) as (ps & -> & Hps & Hnd). cbn [mbind option_bind].
  destruct (pools_defined s cs net unmanaged Hcs Hfill Hdrain ps Hps Hnd) as (fill & drain & -> & F & D & N).
  cbn [mbind option_bind]. rewrite map_app in N. apply NoDup_app in N as (_ & _ & Nd).
  pose proof (items_pool_ok true fill F) as Pf. pose proof (items_pool_ok false drain D) as Pd.
  pose proof (items_count false drain D Nd) as Hlen. rewrite <- (Permutation_length (sort_perm drain)) in Hlen.
  destruct (sort fill) as [|f0 fill0] eqn:Ef; [by eexists|]. destruct (sort drain) as [|dr0 drain0] eqn:Ed; [by eexists|].
  rewrite <- Ef, <- Ed in *. assert (sort fill <> [] /\ sort drain <> []) as [Nf Nd'] by (by rewrite Ef, Ed).
  destruct demand as [x|].
  - pose proof (demand_offers_the_best (sort fill) (sort drain) x rung Pf Pd Nd' Hlen Hr) as H.
    destruct (List.find _ _); [destruct H as (c & -> & _)|rewrite H]; by eexists.
  - destruct (ladder_defined _ _ Pf Pd Nf Nd' fuel Hfuel) as (ladder & ->). cbn [mbind option_bind]. by apply matched_defined.
Qed.

End Defined.

(** *** Ordinary rates *)

Lemma RN_between q a b :
  -1000 <= a -> b <= 900 -> a <= 900 -> -1000 <= b -> (pow2 a <= q <= pow2 b)%Q ->
  exists r, RN q = Fin r /\ (pow2 a <= r <= pow2 b)%Q.
Proof.
  intros Ha Hb Ha' Hb' [L U]. pose proof (pow2_pos a).
  assert (forall e, -1000 <= e <= 900 -> exists r, RN (pow2 e) = Fin r /\ (r == pow2 e)%Q) as Hp.
  { intros e He. pose proof (RN_exact 1 e ltac:(lia) ltac:(lia)) as E.
    assert (inject_Z 1 * pow2 e == pow2 e)%Q as Ee by (change (inject_Z 1) with 1%Q; ring).
    rewrite (RN_Proper _ _ Ee) in E. eexists. split; [exact E|]. by rewrite Qred_correct. }
  destruct (RN_finite q) as (r & Er & _); [lra|pose proof (pow2_le b 1023 ltac:(lia)); lra|].
  destruct (Hp a ltac:(lia)) as (ra & Ea & Qa), (Hp b ltac:(lia)) as (rb & Eb & Qb).
  pose proof (RN_le _ _ L) as Ml. pose proof (RN_le _ _ U) as Mu. rewrite Er, Ea, Eb in *.
  apply dle_Fin in Ml, Mu. exists r. split; [done|lra].
Qed.

(** Not above zero, and a number or an infinity. *)
Definition nonpos (x : double) : Prop := dle x (Fin 0) = true.

Lemma RN_nonpos q : (q <= 0)%Q -> nonpos (RN q).
Proof. intros H. unfold nonpos. rewrite <- RN_0. by apply RN_le. Qed.

Lemma nonpos_mul x p : nonpos x -> (0 < p)%Q -> nonpos (dmul x (Fin p)).
Proof.
  unfold nonpos. intros Hx Hp. destruct x as [q|[]|]; cbn [dmul]; try done.
  - apply dle_Fin in Hx. apply RN_nonpos. nra.
  - destruct (Qeq_bool p 0) eqn:E; [apply Qeq_bool_iff in E; lra|].
    unfold Qneg_b. assert (Qle_bool 0 p = true) as -> by (apply Qle_bool_iff; lra). done.
Qed.

Lemma nonpos_div x p : nonpos x -> (0 < p)%Q -> nonpos (ddiv x (Fin p)).
Proof.
  unfold nonpos. intros Hx Hp. destruct x as [q|[]|]; cbn [ddiv]; try done.
  - destruct (Qeq_bool p 0) eqn:E; [apply Qeq_bool_iff in E; lra|]. apply dle_Fin in Hx. apply RN_nonpos.
    unfold Qdiv. pose proof (Qinv_lt_0_compat p Hp). nra.
  - unfold Qneg_b. assert (Qle_bool 0 p = true) as -> by (apply Qle_bool_iff; lra). done.
Qed.

(** No grant, and a gain of an ordinary size. *)
Definition plain (s : Settings) : Prop :=
  grant_ppm s = Fin 0 /\ exists g, gain s = Fin g /\ (pow2 (-60) <= g <= pow2 10)%Q.

(** Nothing earned: the rate is not above zero. *)
Lemma loss_rate e x f g :
  e <= x -> (0 < f)%Q -> (0 < g)%Q ->
  nonpos (dmul (ddiv (dmul (dadd (dsub (Fin (inject_Z e)) (Fin (inject_Z x))) (Fin 0)) million) (Fin f)) (Fin g)).
Proof.
  intros Hex Hf Hg. change million with (Fin (inject_Z 1000000)).
  apply nonpos_mul; [|done]. apply nonpos_div; [|done]. apply nonpos_mul; [|reflexivity].
  cbn [dsub dneg dadd]. assert (nonpos (RN (inject_Z e + - inject_Z x))) as H.
  { apply RN_nonpos. rewrite Zle_Qle in Hex. lra. }
  destruct (RN _) as [q|[]|]; try done. apply dle_Fin in H. apply RN_nonpos. lra.
Qed.

(** Something earned, but not more than was forwarded. *)
Lemma profit_rate a f g :
  1 <= a <= f -> amount_ok f -> (pow2 (-60) <= g <= pow2 10)%Q ->
  rate_ok (dmul (ddiv (dmul (Fin (inject_Z a)) million) (Fin (inject_Z f))) (Fin g)).
Proof.
  intros Ha Hf [G0 G1]. pose proof (pow2_pos (-60)) as P60.
  assert (0 < inject_Z f)%Q as Fp by (change 0%Q with (inject_Z 0); rewrite <- Zlt_Qlt; lia).
  assert (1 <= inject_Z a <= inject_Z f)%Q as [A1 A2] by (split; [apply inject_ge_1; lia|rewrite <- Zle_Qle; lia]).
  pose proof (amount_ok_Q f Hf) as [_ Fb]. change million with (Fin (1000000 # 1)). cbn [dmul].
  assert (pow2 0 == 1)%Q as E0 by reflexivity. assert (pow2 51 * (1000000 # 1) <= pow2 71)%Q by (vm_compute; discriminate).
  destruct (RN_between (inject_Z a * (1000000 # 1)) 0 71) as (p & Ep & P0 & _); [lia..|split; lra|].
  assert (pow2 (-1022) <= 1)%Q by (vm_compute; discriminate).
  destruct (RN_Fin_error _ _ Ep) as [Lp Up]; [lra|].
  rewrite Ep. cbn [ddiv]. destruct (Qeq_bool (inject_Z f) 0) eqn:Ez; [apply Qeq_bool_iff in Ez; lra|].
  assert (pow2 (-53) <= 1 # 1000)%Q as E53 by (vm_compute; discriminate). pose proof (pow2_pos (-53)) as P53.
  assert (pow2 (-32) <= p / inject_Z f <= pow2 20)%Q as Hq.
  { split.
    - apply Qle_shift_div_l; [done|]. assert (pow2 (-32) * pow2 51 <= 900000 # 1)%Q by (vm_compute; discriminate).
      pose proof (pow2_pos (-32)). assert (pow2 (-32) * inject_Z f <= pow2 (-32) * pow2 51)%Q by nra.
      assert ((1000000 # 1) * (1 - pow2 (-53)) <= inject_Z a * (1000000 # 1) * (1 - pow2 (-53)))%Q by nra. lra.
    - apply Qle_shift_div_r; [done|]. assert ((1000000 # 1) * (1 + (1 # 1000)) <= pow2 20)%Q by (vm_compute; discriminate). nra. }
  destruct (RN_between (p / inject_Z f) (-32) 20) as (u & Eu & U0 & U1); [lia..|done|]. rewrite Eu. cbn [dmul].
  pose proof (pow2_pos (-32)). destruct (RN_between (u * g) (-92) 30) as (v & Ev & V0 & V1); [lia..| |].
  { change (-92) with (-32 + -60). change 30 with (20 + 10). rewrite !pow2_add. split; nra. }
  rewrite Ev. exists v. split; [done|]. split; [|done]. pose proof (pow2_le (-100) (-92) ltac:(lia)). lra.
Qed.

Lemma joined_ordinary s e x f cm r :
  plain s -> 0 <= e <= f -> amount_ok x -> amount_ok f ->
  joined s (d_of_Z e) (d_of_Z x) (d_of_Z f) cm = Some r -> dgt r d0 = true -> rate_ok r.
Proof.
  intros (Eg & g & Egain & Hg) He Hx Hf. unfold joined. rewrite Eg, Egain.
  rewrite !d_of_amount by (unfold amount_ok in *; lia). cbv zeta. change (dgt (Fin 0) d0) with false. cbv iota.
  assert (dadd (Fin (inject_Z f)) d0 = Fin (inject_Z f)) as ->.
  { cbn [dadd d0]. rewrite (RN_Proper _ (inject_Z f)) by ring. by apply d_of_amount. }
  destruct (dgt (Fin (inject_Z f)) d0) eqn:Ef; [|done]. change d0 with (Fin (inject_Z 0)) in Ef. unfold dgt in Ef. rewrite dlt_Z in Ef.
  assert (0 < f) as Hf0 by lia. cbn [negb]. change (dmul d0 (Fin 0)) with (Fin 0).
  assert (ddiv (Fin 0) million = Fin 0) as -> by (vm_compute; reflexivity).
  pose proof (pow2_pos (-60)) as P60. assert (0 < g)%Q as Gp by (destruct Hg; lra).
  intros E Hr. apply Some_inj in E. subst r. destruct (Z.leb_spec e x) as [Hex|Hex].
  { exfalso. pose proof (loss_rate e x (inject_Z f) g Hex) as H. unfold nonpos in H. set (y := dmul _ (Fin g)) in *. clearbody y.
    assert (dle y (Fin 0) = true) as H' by (apply H; [change 0%Q with (inject_Z 0); by rewrite <- Zlt_Qlt|done]).
    change d0 with (Fin 0) in Hr. unfold dgt in Hr. destruct y as [q|[]|]; try done. apply dlt_Fin in Hr. apply dle_Fin in H'. lra. }
  assert (dadd (dsub (Fin (inject_Z e)) (Fin (inject_Z x))) (Fin 0) = Fin (inject_Z (e - x))) as ->.
  { cbn [dsub dneg dadd]. rewrite (RN_Proper _ (inject_Z (e - x))) by (rewrite <- inject_Z_opp, <- inject_Z_plus; reflexivity).
    change (RN (inject_Z (e - x))) with (d_of_Z (e - x)). rewrite d_of_amount by (unfold amount_ok in *; lia). cbn [dadd].
    rewrite (RN_Proper _ (inject_Z (e - x))) by ring. apply d_of_amount. unfold amount_ok in *; lia. }
  apply profit_rate; [unfold amount_ok in *; lia|done|done].
Qed.

(** What a peer earned on a side is within what was forwarded. *)
Definition ordinary (d : Tracker.EarningsData) : Prop :=
  (0 <= Tracker.in_earnings d <= Tracker.in_forwarded d /\ amount_ok (Tracker.in_expenditures d) /\ amount_ok (Tracker.in_forwarded d)) /\
  (0 <= Tracker.out_earnings d <= Tracker.out_forwarded d /\ amount_ok (Tracker.out_expenditures d) /\ amount_ok (Tracker.out_forwarded d)).

Lemma ordinary_rates s cs rows :
  plain s -> Forall (fun r => ordinary r.2) rows -> rates_ok (net_ppm s cs rows).
Proof.
  intros Hs Hr. unfold net_ppm. pose proof Hs as [Eg _]. rewrite Eg. change (dgt (Fin 0) d0) with false. cbv zeta iota.
  assert (rates_ok ∅) as H0 by (apply map_Forall_empty). revert H0. generalize (∅ : gmap Node NetPpm).
  induction Hr as [|r rows [Hi Ho] Hr IH]; intros net Hn; cbn [foldl]; [done|]. apply IH. unfold net_row.
  apply map_Forall_insert_2; [|done]. intros [] v; cbn [side_rate in_net out_net].
  - apply joined_ordinary; [done|apply Ho..].
  - apply joined_ordinary; [done|apply Hi..].
Qed.

End Curve.
