(* ===== verification/XRebalancer.v ===== *)
(** * Driving the rebalancer (src/Boss/Mod/XRebalancer.cpp,
      src/Boss/Mod/RebalanceModeManager.cpp, src/Boss/RebalanceMode.hpp)

    [Options]: the settings of the planner, set from text at start and at any time
    after; whatever is sent, they stay within what the planner relies on.  [Mode]: the
    switch of the rebalancer.  [Health]: what is remembered of the plugin that executes
    the cycles, and when its absence is warned about.  [Driver]: the two kinds of cycle,
    the paced one and the one on demand, as a state machine over the events that reach
    the module; a cycle waits for three answers in turn, and the flag [in_flight] keeps
    a second one from starting.

    [std::stod] is a parameter: it gives a number or throws. *)

From stdpp Require Import base list numbers strings gmap.
From Stdlib Require Import QArith Qround Lqa.
From S2P Require Import Prelude.
From S2P Require Import Double.
From S2P Require Import LnIds.
From S2P Require Import Jsmn.
From S2P Require Import Reply.
From S2P Require Import Earnings.
From S2P Require Import XRebalance.
From S2P Require Import RebalanceCurve.
Import Jsmn.
Import Reply.
Import Plan.

#[local] Open Scope Z_scope.

(** ** Settings *)

Module Options.

(** What became of an option: not ours, set, or refused with a reason. *)
Inductive Reply := Ignored | Accepted | Rejected (reason : bytes).

Definition opt_per_hour : bytes := lit "clboss-xrebalance-per-hour".
Definition opt_floor : bytes := lit "clboss-xrebalance-route-cost-floor".
Definition opt_window_days : bytes := lit "clboss-xrebalance-earnings-window-days".
Definition opt_fill_loc : bytes := lit "clboss-xrebalance-fill-loc".
Definition opt_drain_loc : bytes := lit "clboss-xrebalance-drain-loc".
Definition opt_maxparts : bytes := lit "clboss-xrebalance-maxparts".
Definition opt_grant : bytes := lit "clboss-xrebalance-grant".
Definition opt_grant_weight : bytes := lit "clboss-xrebalance-grant-weight".
Definition opt_gain : bytes := lit "clboss-xrebalance-gain".

Definition not_a_number : string := ": not a valid number".
Definition must_be_positive : string := ": must be > 0".

(** The settings that hold a number. *)
Inductive Field := PerHour | Floor | WindowDays | FillLoc | DrainLoc | Grant | GrantWeight | Gain.

Definition field_of (name : bytes) : option Field :=
  if bool_decide (name = opt_per_hour) then Some PerHour
  else if bool_decide (name = opt_floor) then Some Floor
  else if bool_decide (name = opt_window_days) then Some WindowDays
  else if bool_decide (name = opt_fill_loc) then Some FillLoc
  else if bool_decide (name = opt_drain_loc) then Some DrainLoc
  else if bool_decide (name = opt_grant) then Some Grant
  else if bool_decide (name = opt_grant_weight) then Some GrantWeight
  else if bool_decide (name = opt_gain) then Some Gain
  else None.

Definition put (s : Settings) (f : Field) (v : double) : Settings :=
  {| per_hour := match f with PerHour => v | _ => per_hour s end;
     floor_auto := floor_auto s;
     floor_ppm := match f with Floor => v | _ => floor_ppm s end;
     window_days := match f with WindowDays => v | _ => window_days s end;
     fill_band := match f with FillLoc => v | _ => fill_band s end;
     drain_band := match f with DrainLoc => v | _ => drain_band s end;
     maxparts := maxparts s;
     grant_ppm := match f with Grant => v | _ => grant_ppm s end;
     grant_weight := match f with GrantWeight => v | _ => grant_weight s end;
     gain := match f with Gain => v | _ => gain s end |}.

Definition set_auto (s : Settings) (b : bool) : Settings :=
  {| per_hour := per_hour s; floor_auto := b; floor_ppm := floor_ppm s; window_days := window_days s;
     fill_band := fill_band s; drain_band := drain_band s; maxparts := maxparts s; grant_ppm := grant_ppm s;
     grant_weight := grant_weight s; gain := gain s |}.

Definition set_maxparts (s : Settings) (n : Z) : Settings :=
  {| per_hour := per_hour s; floor_auto := floor_auto s; floor_ppm := floor_ppm s; window_days := window_days s;
     fill_band := fill_band s; drain_band := drain_band s; maxparts := n; grant_ppm := grant_ppm s;
     grant_weight := grant_weight s; gain := gain s |}.

Definition isfinite (x : double) : bool := match x with Fin _ => true | _ => false end.

Definition clamp (lo hi v : double) : double :=
  let v := if dlt v lo then lo else v in if dgt v hi then hi else v.

(** The value that is stored; [None] is refused. *)
Definition admitted (f : Field) (v : double) : option double :=
  match f with
  | Gain | GrantWeight => if negb (dgt v d0) then None else Some v
  | FillLoc | DrainLoc => Some (if dlt v d0 then d0 else if dgt v d100 then d100 else v)
  | _ => Some (if dlt v d0 then d0 else v)
  end.

Section Options.
#[local] Open Scope reply_scope.

Context (stod : bytes -> option double).

(** [stod], or a NaN where it throws. *)
Definition parsed (s : bytes) : double := default NaN (stod s).

Definition set_parts (st : Settings) (name s : bytes) : outcome (Settings * Reply) :=
  if negb (isfinite (parsed s)) then inl (st, Rejected (name ++ lit not_a_number))
  else
    let* k := defined (d_to_u64 (clamp (d_of_Z 1) million (dround (parsed s)))) in
    inl (set_maxparts st (u32 k), Accepted).

Definition set_field (st : Settings) (name s : bytes) (f : Field) : Settings * Reply :=
  if negb (isfinite (parsed s)) then (st, Rejected (name ++ lit not_a_number))
  else
    match admitted f (parsed s) with
    | None => (st, Rejected (name ++ lit must_be_positive))
    | Some v => (put st f v, Accepted)
    end.

(** The flag of the automatic floor is cleared before the value is looked at. *)
Definition handle_option (st : Settings) (name : bytes) (value : option json) : outcome (Settings * Reply) :=
  let is_floor := bool_decide (name = opt_floor) in
  let* auto := if is_floor then let* s := text value in inl (bool_decide (s = lit "auto")) else inl false in
  if (auto : bool) then inl (set_auto st true, Accepted)
  else
    let st := if is_floor then set_auto st false else st in
    if bool_decide (name = opt_maxparts) then let* s := text value in set_parts st name s
    else
      match field_of name with
      | None => inl (st, Ignored)
      | Some f => let* s := text value in inl (set_field st name s f)
      end.

End Options.

(** What the planner relies on. *)
Definition number_ok (lo : Q) (x : double) : Prop := exists q, x = Fin q /\ (lo <= q)%Q.
Definition positive (x : double) : Prop := exists q, x = Fin q /\ (0 < q)%Q.

Record settings_ok (s : Settings) : Prop := {
  ok_per_hour : number_ok 0 (per_hour s);
  ok_floor : number_ok 0 (floor_ppm s);
  ok_window : number_ok 0 (window_days s);
  ok_fill : band_ok (fill_band s);
  ok_drain : band_ok (drain_band s);
  ok_maxparts : 1 <= maxparts s <= 1000000;
  ok_grant : number_ok 0 (grant_ppm s);
  ok_weight : positive (grant_weight s);
  ok_gain : positive (gain s)
}.

Definition field_ok (f : Field) (v : double) : Prop :=
  match f with
  | Gain | GrantWeight => positive v
  | FillLoc | DrainLoc => band_ok v
  | _ => number_ok 0 v
  end.

Lemma put_ok s f v : settings_ok s -> field_ok f v -> settings_ok (put s f v).
Proof. intros [] H. destruct f; by split. Qed.

Lemma set_auto_ok s b : settings_ok s -> settings_ok (set_auto s b).
Proof. intros []. by split. Qed.

Lemma dlt_false a b : dlt (Fin a) (Fin b) = false -> (b <= a)%Q.
Proof. intros E. destruct (Qlt_le_dec a b) as [L|L]; [|done]. apply dlt_Fin in L. congruence. Qed.

Lemma band_clamp q : band_ok (if dlt (Fin q) d0 then d0 else if dgt (Fin q) d100 then d100 else Fin q).
Proof.
  change d100 with (Fin 100). unfold d0, dgt. destruct (dlt _ _) eqn:E; [exists 0%Q; split; [done|lra]|].
  apply dlt_false in E. destruct (dlt (Fin 100) _) eqn:E2; [exists 100%Q; split; [done|lra]|].
  apply dlt_false in E2. by exists q.
Qed.

Lemma admitted_ok f v w : isfinite v = true -> admitted f v = Some w -> field_ok f w.
Proof.
  destruct v as [q| |]; [|done..]. intros _.
  assert (forall P : double -> Prop, (P (Fin 0)) -> ((0 <= q)%Q -> P (Fin q)) -> P (if dlt (Fin q) d0 then d0 else Fin q)) as Hnn.
  { intros P H0 H1. unfold d0. destruct (dlt _ _) eqn:E; [done|]. apply H1.
    by apply dlt_false. }
  assert (number_ok 0 (Fin 0)) as H0 by (exists 0%Q; split; [done|lra]).
  assert (band_ok (Fin 0)) as B0 by (exists 0%Q; split; [done|lra]).
  assert (positive (Fin q) \/ dgt (Fin q) d0 = false) as Hp.
  { unfold d0. destruct (dgt _ _) eqn:E; [|by right]. left. apply dlt_Fin in E. by exists q. }
  destruct f; cbn [admitted field_ok]; intros E;
    try (destruct Hp as [?|Hp]; [|by rewrite Hp in E]; destruct (negb _); by simplify_eq).
  all: apply Some_inj in E; subst w.
  all: try (apply Hnn; [done|]; intros; by exists q).
  all: apply band_clamp.
Qed.

Lemma set_parts_ok stod st name s :
  settings_ok st -> exists st' r, set_parts stod st name s = inl (st', r) /\ settings_ok st'.
Proof.
  intros Hs. unfold set_parts. destruct (parsed stod s) as [q| |] eqn:Ep; cbn [isfinite negb]; [cbn [dround]|by eauto..].
  set (z := if Qle_bool 0 q then _ else _).
  assert (exists k, clamp (d_of_Z 1) million (Fin (inject_Z z)) = Fin (inject_Z k) /\ 1 <= k <= 1000000) as (k & -> & Hk).
  { change (d_of_Z 1) with (Fin (inject_Z 1)). change million with (Fin (inject_Z 1000000)). unfold clamp, dgt.
    rewrite dlt_Z. destruct (Z.ltb_spec z 1); rewrite dlt_Z; [|destruct (Z.ltb_spec 1000000 z)].
    - exists 1. by split.
    - exists 1000000. by split.
    - exists z. split; [done|lia]. }
  rewrite d_to_u64_Z by (unfold is_u64; lia). cbn [defined obind]. rewrite u32_id by (unfold is_u32; lia).
  eexists _, _. split; [done|]. destruct Hs. by split.
Qed.

(** An option applied; an exception leaves the settings as they were. *)
Definition applied (stod : bytes -> option double) (st : Settings) (o : bytes * option json) : Settings :=
  match handle_option stod st o.1 o.2 with inl (st', _) => st' | inr _ => st end.

Lemma handle_option_ok stod st name value :
  settings_ok st ->
  match handle_option stod st name value with inl (st', _) => settings_ok st' | inr e => e <> Undefined \/ text value = inr e end.
Proof.
  intros Hs. unfold handle_option. set (is_floor := bool_decide (name = opt_floor)).
  assert (settings_ok (if is_floor then set_auto st false else st)) as Hs' by (destruct is_floor; [by apply set_auto_ok|done]).
  assert (forall st0 s, settings_ok st0 ->
    match (if bool_decide (name = opt_maxparts) then set_parts stod st0 name s
           else match field_of name with None => inl (st0, Ignored) | Some f => inl (set_field stod st0 name s f) end)
    with inl (st', _) => settings_ok st' | inr e => e <> Undefined \/ text value = inr e end) as H.
  { intros st0 s H0. case_bool_decide.
    - destruct (set_parts_ok stod st0 name s H0) as (st' & r & -> & H'). exact H'.
    - destruct (field_of name) as [f|]; [|done]. unfold set_field. destruct (isfinite _) eqn:Ef; cbn [negb]; [|done].
      destruct (admitted f _) as [v|] eqn:Ea; [|done]. apply put_ok; [done|]. by eapply admitted_ok. }
  destruct (text value) as [s|e] eqn:Et.
  - specialize (H _ s Hs'). destruct is_floor; cbn [obind]; [|exact H].
    destruct (bool_decide (s = lit "auto")); [by apply set_auto_ok|exact H].
  - destruct is_floor; cbn [obind]; [by right|]. case_bool_decide; [by right|]. by destruct (field_of name); [right|].
Qed.

Lemma default_settings_ok : settings_ok default_settings.
Proof.
  assert (forall z, (0 <= z < 2 ^ 51)%Z -> number_ok 0 (d_of_Z z)) as Hn.
  { intros z Hz. rewrite d_of_amount by done. eexists. split; [done|]. apply inject_nonneg. lia. }
  assert (forall z, (1 <= z < 2 ^ 51)%Z -> positive (d_of_Z z)) as Hp.
  { intros z Hz. rewrite d_of_amount by (unfold amount_ok; lia). eexists. split; [done|].
    pose proof (inject_ge_1 z ltac:(lia)). lra. }
  split; cbn [default_settings per_hour floor_ppm window_days fill_band drain_band maxparts grant_ppm grant_weight gain];
    try (apply Hn; lia); try (apply Hp; lia); try (apply band_ok_Z; lia); [lia|exists 0%Q; split; [done|lra]].
Qed.

(** C37: Whatever options are set, in whatever order and with whatever text, the settings
    stay within what the planner relies on: the bands are between 0 and 100, the number
    of parts between 1 and a million, the multipliers positive, and all are finite. *)
Theorem options_keep_settings stod os : settings_ok (foldl (applied stod) default_settings os).
Proof.
  pose proof default_settings_ok as H. revert H. generalize default_settings.
  induction os as [|o os IH]; intros st Hs; cbn [foldl]; [done|]. apply IH. unfold applied.
  pose proof (handle_option_ok stod st o.1 o.2 Hs) as H. destruct (handle_option _ _ _ _) as [[st' r]|e]; done.
Qed.

(** A refused value changes no setting but the flag of the automatic floor. *)
Lemma rejected_unchanged stod st name value st' r :
  handle_option stod st name value = inl (st', Rejected r) ->
  st' = if bool_decide (name = opt_floor) then set_auto st false else st.
Proof.
  unfold handle_option. set (st0 := if bool_decide (name = opt_floor) then _ else st).
  match goal with |- obind ?m _ = _ -> _ => destruct m as [auto|]; [|done] end. cbn [obind]. destruct auto; [done|].
  assert (forall s, set_parts stod st0 name s = inl (st', Rejected r) -> st' = st0) as H1.
  { intros s. unfold set_parts. destruct (negb _); [by intros [= <- _]|]. by destruct (defined _). }
  assert (forall s f, set_field stod st0 name s f = (st', Rejected r) -> st' = st0) as H2.
  { intros s f. unfold set_field. destruct (negb _); [by intros [= <- _]|]. by destruct (admitted _ _); intros [= <- _]. }
  destruct (bool_decide (name = opt_maxparts)).
  - destruct (text value) as [s|]; [|done]. apply H1.
  - destruct (field_of name) as [f|]; [|done]. destruct (text value) as [s|]; [|done]. cbn [obind]. intros E.
    apply (H2 s f). congruence.
Qed.

(** The flag is lost: a floor that is refused as not a number ends the automatic mode. *)
Lemma rejected_floor_ends_auto stod :
  stod (lit "many") = None ->
  handle_option stod default_settings opt_floor (Some (JStr (lit "many"))) =
  inl (set_auto default_settings false, Rejected (opt_floor ++ lit not_a_number)).
Proof.
  intros E. unfold handle_option. rewrite bool_decide_eq_true_2 by done.
  assert (text (Some (JStr (lit "many"))) = inl (lit "many")) as -> by (vm_compute; reflexivity). cbn [obind].
  rewrite bool_decide_eq_false_2 by (vm_compute; discriminate).
  rewrite bool_decide_eq_false_2 by (vm_compute; discriminate).
  assert (field_of opt_floor = Some Floor) as -> by (vm_compute; reflexivity).
  unfold set_field, parsed. rewrite E. reflexivity.
Qed.

End Options.

(** ** The mode *)

Module Mode.

Inductive RebalanceMode := xrebalance | off.

#[global] Instance RebalanceMode_eq_dec : EqDecision RebalanceMode.
Proof. solve_decision. Defined.

Definition default_rebalance_mode : RebalanceMode := xrebalance.

Definition rebalance_mode_to_string (m : RebalanceMode) : bytes :=
  match m with xrebalance => lit "xrebalance" | off => lit "off" end.

Definition rebalance_mode_from_string (s : bytes) : option RebalanceMode :=
  if bool_decide (s = lit "xrebalance") then Some xrebalance
  else if bool_decide (s = lit "off") then Some off
  else None.

Definition option_name : bytes := lit "clboss-rebalance-mode".

Section Mode.
#[local] Open Scope reply_scope.

(** The new mode, and whether the value was refused. *)
Definition on_option (mode : RebalanceMode) (name : bytes) (value : option json) : outcome (RebalanceMode * Options.Reply) :=
  if negb (bool_decide (name = option_name)) then inl (mode, Options.Ignored)
  else
    let* s := text value in
    match rebalance_mode_from_string s with
    | None => inl (mode, Options.Rejected (option_name ++ lit ": unrecognized value '" ++ s ++ lit "'"))
    | Some m => inl (m, Options.Accepted)
    end.

End Mode.

Lemma mode_roundtrip m : rebalance_mode_from_string (rebalance_mode_to_string m) = Some m.
Proof. by destruct m. Qed.

End Mode.

(** ** The plugin's health *)

Module Health.

Inductive PluginState := Unknown | Present | Absent.

Record Health := {
  plugin_state : PluginState;
  last_response : double;
  consecutive_failures : Z;
  last_error : bytes;
  absent_cycles : Z;
  last_absent_warn : double
}.

Definition none : double := d_of_Z (-1).
Definition absent_warn_interval_secs : double := d_of_Z 3600.

Definition start : Health :=
  {| plugin_state := Unknown; last_response := none; consecutive_failures := 0; last_error := [];
     absent_cycles := 0; last_absent_warn := none |}.

(** What is logged. *)
Inductive Note :=
| Back (cycles : Z)
| NotExecuted (msg : bytes)
| NotLoaded (msg : bytes)
| StillNotLoaded (msg : bytes) (cycles : Z)
| PluginError (msg : bytes).

(** [std::tolower] in the C locale. *)
Definition tolower (c : Z) : Z := if (65 <=? c) && (c <=? 90) then c + 32 else c.

Fixpoint starts (p s : bytes) : bool :=
  match p, s with
  | [], _ => true
  | c :: p, x :: s => (c =? x) && starts p s
  | _, [] => false
  end.
Fixpoint contains (p s : bytes) : bool :=
  starts p s || match s with [] => false | _ :: s => contains p s end.

Definition is_unknown_command (msg : bytes) : bool := contains (lit "unknown command") (map tolower msg).

Section Health.
#[local] Open Scope reply_scope.

(** The message of an error reply, on one line. *)
Definition rpc_error_summary (error : option json) : outcome bytes :=
  let* msg :=
    if negb (jis_object error) then inl (lit "unknown error")
    else
      let* h := has error "message" in
      if negb h then inl (lit "unknown error")
      else
        let* m := get error "message" in
        if jis_string m then text m else inl (lit "unknown error") in
  inl (map (fun ch => if (ch =? 10) || (ch =? 9) then 32 else ch) msg).

End Health.

Definition plugin_answered (now : double) (h : Health) : Health * list Note :=
  ({| plugin_state := Present; last_response := now; consecutive_failures := 0; last_error := [];
      absent_cycles := 0; last_absent_warn := none |},
   if 0 <? absent_cycles h then [Back (absent_cycles h)] else []).

Definition plugin_refused (now : double) (msg : bytes) (h : Health) : Health * list Note :=
  let failures := u64 (consecutive_failures h + 1) in
  if negb (is_unknown_command msg) then
    ({| plugin_state := Present; last_response := last_response h; consecutive_failures := failures;
        last_error := msg; absent_cycles := absent_cycles h; last_absent_warn := last_absent_warn h |},
     [NotExecuted msg])
  else
    let cycles := u64 (absent_cycles h + 1) in
    let warn := (cycles =? 1) || dge (dsub now (last_absent_warn h)) absent_warn_interval_secs in
    ({| plugin_state := Absent; last_response := last_response h; consecutive_failures := failures;
        last_error := msg; absent_cycles := cycles;
        last_absent_warn := if warn then now else last_absent_warn h |},
     [if warn then NotLoaded msg else StillNotLoaded msg cycles]).

Definition plugin_error (msg : bytes) (h : Health) : Health * list Note :=
  ({| plugin_state := plugin_state h; last_response := last_response h;
      consecutive_failures := u64 (consecutive_failures h + 1); last_error := msg;
      absent_cycles := absent_cycles h; last_absent_warn := last_absent_warn h |}, [PluginError msg]).

(** The entry of the status, less the date in words. *)
Record Status := {
  plugin : bytes;
  status_last_response : option Z;
  status_failures : Z;
  status_last_error : option bytes
}.

Definition plugin_status (h : Health) : option Status :=
  r ← (if dge (last_response h) d0 then r ← llround (last_response h); Some (Some (u64 r)) else Some None);
  Some {| plugin := match plugin_state h with
                    | Unknown => lit "unknown" | Present => lit "present" | Absent => lit "absent" end;
          status_last_response := r;
          status_failures := consecutive_failures h;
          status_last_error := match last_error h with [] => None | e => Some e end |}.

(** *** The outcomes of the calls so far, the last one first *)

Inductive Call := Answered (now : double) | Refused (now : double) (msg : bytes) | Failed (msg : bytes).

Definition record (c : Call) (h : Health) : Health * list Note :=
  match c with
  | Answered now => plugin_answered now h
  | Refused now msg => plugin_refused now msg h
  | Failed msg => plugin_error msg h
  end.

Definition after (past : list Call) : Health := foldr (fun c h => (record c h).1) start past.

Definition is_answer (c : Call) : bool := match c with Answered _ => true | _ => false end.
Definition is_missing (c : Call) : bool := match c with Refused _ m => is_unknown_command m | _ => false end.

(** The calls since the last answer. *)
Fixpoint unanswered (past : list Call) : list Call :=
  match past with
  | [] => []
  | c :: past => if is_answer c then [] else c :: unanswered past
  end.

Fixpoint last_answer (past : list Call) : double :=
  match past with [] => none | Answered now :: _ => now | _ :: past => last_answer past end.

(** The time of the last warning since the last answer. *)
Fixpoint last_warning (past : list Call) : option double :=
  match past with
  | [] => None
  | Answered _ :: _ => None
  | Failed _ :: past => last_warning past
  | Refused now msg :: past =>
      if is_unknown_command msg then
        match last_warning past with
        | None => Some now
        | Some t => if dge (dsub now t) absent_warn_interval_secs then Some now else Some t
        end
      else last_warning past
  end.

Lemma unanswered_length past : (length (unanswered past) <= length past)%nat.
Proof. induction past as [|c past IH]; simpl; [lia|]. destruct (is_answer c); simpl; lia. Qed.

(** The health is what the calls so far make it. *)
Lemma after_past past :
  Z.of_nat (length past) < 2 ^ 64 ->
  last_response (after past) = last_answer past /\
  consecutive_failures (after past) = Z.of_nat (length (unanswered past)) /\
  absent_cycles (after past) = Z.of_nat (length (filter (fun c => is_missing c = true) (unanswered past))) /\
  (absent_cycles (after past) = 0 <-> last_warning past = None) /\
  last_absent_warn (after past) = default none (last_warning past).
Proof.
  induction past as [|c past IH]; intros Hlen; [done|]. simpl length in Hlen.
  destruct IH as (H1 & H2 & H3 & H4 & H5); [lia|]. pose proof (unanswered_length past) as Hu.
  assert (length (filter (fun c => is_missing c = true) (unanswered past)) <= length (unanswered past))%nat as Hf
    by apply length_filter.
  cbn [after foldr]. fold (after past). destruct c as [now|now msg|msg]; cbn [record].
  - done.
  - unfold plugin_refused. cbn [last_answer unanswered is_answer last_warning].
    rewrite filter_cons. cbn [is_missing]. destruct (is_unknown_command msg) eqn:E; cbn [negb fst last_response
      consecutive_failures absent_cycles last_absent_warn].
    + rewrite decide_True by done. cbn [length]. rewrite H2, H3, !u64_id by (unfold is_u64; lia).
      split_and!; [done|lia|lia| |].
      * split; [lia|]. destruct (last_warning past); [|done]. by destruct (dge _ _).
      * destruct (Z.eqb_spec (Z.of_nat (length (filter (fun c => is_missing c = true) (unanswered past))) + 1) 1).
        -- assert (last_warning past = None) as -> by (apply H4; lia). done.
        -- destruct (last_warning past) as [t|] eqn:Ew; [|exfalso; assert (absent_cycles (after past) = 0) by (by apply H4); lia].
           rewrite H5. cbn [orb default]. unfold id. by destruct (dge _ _).
    + rewrite decide_False by congruence. cbn [length]. rewrite H2, u64_id by (unfold is_u64; lia).
      split_and!; [done|lia|done|done..|done].
  - unfold plugin_error. cbn [last_answer unanswered is_answer last_warning fst last_response
      consecutive_failures absent_cycles last_absent_warn]. rewrite filter_cons. cbn [is_missing].
    rewrite decide_False by congruence. cbn [length]. rewrite H2, u64_id by (unfold is_u64; lia).
    split_and!; [done|lia|done|done..|done].
Qed.

(** After any calls, a call refused because the plugin is not loaded is warned about
    exactly when no such warning was given since the plugin last answered, or when the
    last one is an hour old; otherwise the line is for debugging and counts the cycles.
    The first answer after an absence says how many cycles it lasted. *)
Theorem absence_warned_hourly past call :
  Z.of_nat (length past) < 2 ^ 64 - 1 ->
  let missing := Z.of_nat (length (filter (fun c => is_missing c = true) (unanswered past))) in
  (record call (after past)).2 =
  match call with
  | Answered _ => if 0 <? missing then [Back missing] else []
  | Failed msg => [PluginError msg]
  | Refused now msg =>
      if is_unknown_command msg then
        match last_warning past with
        | Some t => if dge (dsub now t) absent_warn_interval_secs then [NotLoaded msg] else [StillNotLoaded msg (missing + 1)]
        | None => [NotLoaded msg]
        end
      else [NotExecuted msg]
  end.
Proof.
  intros Hlen missing. destruct (after_past past) as (_ & _ & H3 & H4 & H5); [lia|]. fold missing in H3.
  pose proof (unanswered_length past) as Hu.
  assert (length (filter (fun c => is_missing c = true) (unanswered past)) <= length (unanswered past))%nat as Hf
    by apply length_filter.
  destruct call as [now|now msg|msg]; cbn [record]; [by rewrite <- H3| |done].
  unfold plugin_refused. destruct (is_unknown_command msg); cbn [negb snd]; [|done].
  rewrite H3, u64_id by (unfold is_u64, missing; lia).
  destruct (last_warning past) as [t|] eqn:Ew.
  - assert (absent_cycles (after past) <> 0) as Hn by (intros E; by apply H4 in E).
    destruct (Z.eqb_spec (missing + 1) 1); [lia|]. rewrite H5. cbn [orb default]. unfold id. by destruct (dge _ _).
  - assert (absent_cycles (after past) = 0) as Hn by by apply H4.
    by destruct (Z.eqb_spec (missing + 1) 1); [|lia].
Qed.

Definition demo_absent : bytes := lit "Unknown command 'xrebalance'".

Lemma absence_warned_hourly_witness :
  (record (Refused (d_of_Z 5000) demo_absent) (after [Refused (d_of_Z 1000) demo_absent])).2 = [NotLoaded demo_absent].
Proof.
  etransitivity; [apply (absence_warned_hourly [Refused (d_of_Z 1000) demo_absent] (Refused (d_of_Z 5000) demo_absent))|].
  - simpl. lia.
  - vm_compute. reflexivity.
Defined.

(** A refusal by the plugin itself, which shows that it is loaded, does not end the
    count: the next absence is not warned about. *)
Example absence_after_refusal :
  (record (Refused (d_of_Z 1200) demo_absent)
     (after [Refused (d_of_Z 1100) (lit "no route"); Refused (d_of_Z 1000) demo_absent])).2 =
  [StillNotLoaded demo_absent 2].
Proof. vm_compute. reflexivity. Qed.

End Health.

(** ** The cycles *)

Module Driver.

Import Options Mode Health.

Inductive Kind := Matched | Demand (scid : bytes).

(** Where a cycle waits: for the mode, for the channels, for the plugin. *)
Inductive Phase := AwaitMode (k : Kind) | AwaitChannels (k : Kind) | AwaitPlugin.

Record State := {
  settings : Settings;
  mode : RebalanceMode;
  health : Health;
  started : bool;
  in_flight : bool;
  cycles : list Phase
}.

Definition start : State :=
  {| settings := default_settings; mode := default_rebalance_mode; health := Health.start;
     started := false; in_flight := false; cycles := [] |}.

(** What a cycle's planning needs besides the channels. *)
Record World := {
  table : list Tracker.Row;
  time : Z;
  unmanaged : Node -> bool;
  draw : nat;
  rung : Z
}.

Inductive Event :=
| Init
| Option (name : bytes) (value : option json)
| Tick
| DemandObserved (scid : bytes)
| GotMode (i : nat)
| GotChannels (i : nat) (reply : json) (w : World)
| GotPlugin (i : nat) (c : Call)
| CycleError (i : nat).

(** A request to the plugin, in msat. *)
Record Request := {
  r_sources : list (bytes * Z);
  r_destinations : list (bytes * Z);
  amount_msat : Z;
  maxfee_ppm : Z;
  r_maxparts : Z
}.

Definition max_msat (c : ScidCap) : bytes * Z := (c_scid c, u64 (u64 (max_sat c) * 1000)).

Definition request (c : Cycle) (parts : Z) : Request :=
  {| r_sources := map max_msat (sources c); r_destinations := map max_msat (dests c);
     amount_msat := u64 (u64 (requested c) * 1000); maxfee_ppm := maxfee c; r_maxparts := parts |}.

(** What leaves the module. *)
Inductive Output := ListChannels | XRebalance (c : Cycle) (r : Request).

Definition with_cycles (st : State) (flag : bool) (cs : list Phase) : State :=
  {| settings := settings st; mode := mode st; health := health st; started := started st;
     in_flight := flag; cycles := cs |}.
Definition with_settings (st : State) (s : Settings) : State :=
  {| settings := s; mode := mode st; health := health st; started := started st;
     in_flight := in_flight st; cycles := cycles st |}.
Definition with_mode (st : State) (m : RebalanceMode) : State :=
  {| settings := settings st; mode := m; health := health st; started := started st;
     in_flight := in_flight st; cycles := cycles st |}.
Definition with_health (st : State) (h : Health) : State :=
  {| settings := settings st; mode := mode st; health := h; started := started st;
     in_flight := in_flight st; cycles := cycles st |}.

(** A cycle begins: the flag is set and the mode is asked for. *)
Definition begin (st : State) (k : Kind) : State := with_cycles st true (cycles st ++ [AwaitMode k]).

(** A cycle ends, in whatever way: the flag is cleared. *)
Definition finish (st : State) (i : nat) : State := with_cycles st false (delete i (cycles st)).

Definition tick (st : State) : State :=
  if dle (per_hour (settings st)) d0 then st
  else if in_flight st then st
  else begin st Matched.

Definition handle_demand (st : State) (scid : bytes) : State :=
  if negb (started st) || in_flight st then st else begin st (Demand scid).

Section Driver.

Context (stod : bytes -> option double) (sort : list PoolItem -> list PoolItem) (fuel : nat).

Definition got_mode (st : State) (i : nat) (k : Kind) : State * list Output :=
  match mode st with
  | off => (finish st i, [])
  | xrebalance => (with_cycles st (in_flight st) (<[i := AwaitChannels k]> (cycles st)), [ListChannels])
  end.

Definition demand_of (k : Kind) : option bytes := match k with Matched => None | Demand scid => Some scid end.

Definition got_channels (st : State) (i : nat) (k : Kind) (reply : json) (w : World) : option (State * list Output) :=
  v ← run_cycle sort (settings st) reply (table w) (time w) (unmanaged w) (demand_of k) fuel (draw w) (rung w);
  Some match v with
       | Some (Run c) => (with_cycles st (in_flight st) (<[i := AwaitPlugin]> (cycles st)),
                          [XRebalance c (request c (maxparts (settings st)))])
       | _ => (finish st i, [])
       end.

(** An answer that no cycle waits for changes nothing. *)
Definition step (st : State) (e : Event) : option (State * list Output) :=
  match e with
  | Init => Some ({| settings := settings st; mode := mode st; health := health st; started := true;
                     in_flight := in_flight st; cycles := cycles st |}, [])
  | Option name value =>
      let st := with_settings st (applied stod (settings st) (name, value)) in
      Some (with_mode st (match on_option (mode st) name value with inl (m, _) => m | inr _ => mode st end), [])
  | Tick => Some (tick st, [])
  | DemandObserved scid => Some (handle_demand st scid, [])
  | GotMode i => match cycles st !! i with Some (AwaitMode k) => Some (got_mode st i k) | _ => Some (st, []) end
  | GotChannels i reply w =>
      match cycles st !! i with Some (AwaitChannels k) => got_channels st i k reply w | _ => Some (st, []) end
  | GotPlugin i c =>
      match cycles st !! i with
      | Some AwaitPlugin => Some (finish (with_health st (record c (health st)).1) i, [])
      | _ => Some (st, [])
      end
  | CycleError i =>
      match cycles st !! i with
      | Some (AwaitMode _) | Some (AwaitChannels _) => Some (finish st i, [])
      | _ => Some (st, [])
      end
  end.

Fixpoint run (st : State) (es : list Event) : option (State * list Output) :=
  match es with
  | [] => Some (st, [])
  | e :: es => '(st', o) ← step st e; '(st'', os) ← run st' es; Some (st'', o ++ os)
  end.

(** *** One cycle at a time *)

(** The flag tells whether a cycle runs, and there is one at most. *)
Definition exclusive (st : State) : Prop :=
  in_flight st = false /\ cycles st = [] \/ in_flight st = true /\ exists p, cycles st = [p].

Record driver_ok (st : State) : Prop := {
  driver_exclusive : exclusive st;
  driver_settings : settings_ok (settings st)
}.

Lemma exclusive_lookup st i p : exclusive st -> cycles st !! i = Some p -> i = 0%nat /\ cycles st = [p] /\ in_flight st = true.
Proof using Type.
  intros [[_ ->]|[H [q ->]]]; [done|]. destruct i as [|i]; [|done]. by intros [= ->].
Qed.

Lemma finish_ok st i : driver_ok st -> i = 0%nat -> driver_ok (finish st i).
Proof using Type.
  intros [[[_ H]|[_ [p H]]] Hs] ->; (split; [left|done]); simpl; by rewrite H.
Qed.

Lemma begin_ok st k : driver_ok st -> in_flight st = false -> driver_ok (begin st k).
Proof using Type.
  intros [[[_ H]|[H _]] Hs] Hi; [|congruence]. split; [right|done]. split; [done|]. exists (AwaitMode k). simpl. by rewrite H.
Qed.

Lemma applied_ok st o : settings_ok st -> settings_ok (applied stod st o).
Proof using Type.
  intros Hs. unfold applied. pose proof (handle_option_ok stod st o.1 o.2 Hs) as H.
  by destruct (handle_option _ _ _ _) as [[st' r]|e].
Qed.

Lemma step_ok st e st' o : driver_ok st -> step st e = Some (st', o) -> driver_ok st'.
Proof using Type.
  intros Hok. pose proof Hok as [Hx Hs].
  destruct e as [|name value|  |x|i|i reply w|i c|i]; cbn [step].
  - intros [= <- _]. by split.
  - intros E. apply Some_inj in E. apply (f_equal fst) in E. cbn [fst] in E. subst st'. split; [exact Hx|]. by apply applied_ok.
  - intros [= <- _]. unfold tick. destruct (dle _ _); [done|]. destruct (in_flight st) eqn:Ei; [done|]. by apply begin_ok.
  - intros [= <- _]. unfold handle_demand. destruct (in_flight st) eqn:Ei; [by rewrite orb_true_r|].
    destruct (started st); cbn [negb orb]; [by apply begin_ok|done].
  - destruct (cycles st !! i) as [[k|k|]|] eqn:El; try (intros [= <- _]; done).
    destruct (exclusive_lookup _ _ _ Hx El) as (-> & Hc & Hi).
    unfold got_mode. destruct (mode st); intros [= <- _]; [|by apply finish_ok].
    split; [right|done]. split; [done|]. eexists. simpl. by rewrite Hc.
  - destruct (cycles st !! i) as [[k|k|]|] eqn:El; try (intros [= <- _]; done).
    destruct (exclusive_lookup _ _ _ Hx El) as (-> & Hc & Hi).
    unfold got_channels. destruct (run_cycle _ _ _ _ _ _ _ _ _ _) as [v|]; [|done]. cbn [mbind option_bind].
    intros E. apply Some_inj in E.
    destruct v as [[]|]; injection E as <- _; try (by apply finish_ok).
    split; [right|done]. split; [done|]. eexists. simpl. by rewrite Hc.
  - destruct (cycles st !! i) as [[k|k|]|] eqn:El; try (intros [= <- _]; done).
    destruct (exclusive_lookup _ _ _ Hx El) as (-> & Hc & Hi). intros [= <- _].
    apply (finish_ok (with_health st (record c (health st)).1)); [by split|done].
  - destruct (cycles st !! i) as [[k|k|]|] eqn:El; try (intros [= <- _]; done).
    all: destruct (exclusive_lookup _ _ _ Hx El) as (-> & Hc & Hi); intros [= <- _]; by apply finish_ok.
Qed.

Lemma driver_run_ok st es st' os : driver_ok st -> run st es = Some (st', os) -> driver_ok st'.
Proof using Type.
  revert st os. induction es as [|e es IH]; intros st os Hok; cbn [run]; [by intros [= <- _]|].
  destruct (step st e) as [[st1 o]|] eqn:Es; [|done]. cbn [mbind option_bind].
  destruct (run st1 es) as [[st2 os2]|] eqn:Er; [|done]. cbn [mbind option_bind]. intros [= <- _].
  eapply IH; [|exact Er]. by eapply step_ok.
Qed.

Lemma start_ok : driver_ok start.
Proof using Type. split; [by left|]. apply default_settings_ok. Qed.

End Driver.

(** Paced and on-demand cycles exclude each other: after any events at most one
    cycle runs and the flag says whether one does; while a request is with the plugin no
    call is made. *)
Theorem cycles_exclude_each_other stod sort fuel es st os :
  run stod sort fuel start es = Some (st, os) ->
  exclusive st /\
  forall e st' o, step stod sort fuel st e = Some (st', o) -> AwaitPlugin ∈ cycles st -> o = [].
Proof.
  intros H. destruct (driver_run_ok _ _ _ _ _ _ _ start_ok H) as [Hx Hs]. split; [done|]. intros e st' o He Hin.
  destruct Hx as [[_ Hc]|[_ [p Hc]]]; rewrite Hc in Hin; [by apply not_elem_of_nil in Hin|].
  apply list_elem_of_singleton in Hin. subst p.
  assert (forall i, cycles st !! i = Some AwaitPlugin \/ cycles st !! i = None) as Hl.
  { intros [|i]; rewrite Hc; [by left|by right]. }
  destruct e as [|name value|  |x|i|i reply w|i c|i]; cbn [step] in He;
    try (destruct (Hl i) as [E|E]; rewrite E in He); by simplify_eq.
Qed.

(** *** Every cycle ends *)

(** The answers a cycle can still wait for. *)
Definition answers (reply : json) (w : World) (c : Call) : list Event := [GotMode 0; GotChannels 0 reply w; GotPlugin 0 c].

(** What the planning of a cycle needs of the answers: the channels can be read, hold what
    the node says of them and less than 2^51 sat in all; the sums of the table do not
    overflow; the positive rates are between 2^-100 and 2^30 ppm (see
    [Curve.ordinary_rates]; with an infinite rate the loop over the floors never ends). *)
Record plannable (s : Settings) (reply : json) (w : World) : Prop := {
  pl_chans : exists cs rows, build_chans reply = Some cs /\ chans_ok cs /\
    earnings (table w) (cutoff_of s (time w)) = Some rows /\ Curve.rates_ok (net_ppm s cs rows);
  pl_rung : 1 <= rung w <= 100
}.

Section Ends.

Context (stod : bytes -> option double) (sort : list PoolItem -> list PoolItem) (fuel : nat).
Context `{!SortByRate sort} (Hfuel : (Curve.ladder_fuel <= fuel)%nat).

(** The planning ends with a verdict. *)
Lemma run_cycle_defined s reply w demand :
  settings_ok s -> plannable s reply w ->
  exists v, run_cycle sort s reply (table w) (time w) (unmanaged w) demand fuel (draw w) (rung w) = Some v.
Proof using All.
  intros Hs [(cs & rows & Eb & Hcs & Er & Hr) Hw]. unfold run_cycle. rewrite Eb. cbn [mbind option_bind].
  destruct cs as [|c cs]; [by eexists|]. rewrite Er. cbn [mbind option_bind].
  destruct (Curve.plan_defined sort s (c :: cs) _ (unmanaged w) Hcs (ok_fill _ Hs) (ok_drain _ Hs) Hr demand fuel (draw w) (rung w) Hfuel Hw)
    as (v & ->). by eexists.
Qed.

(** The three answers take a cycle from wherever it waits to its end. *)
Lemma mode_answered st : driver_ok st ->
  exists st' o, step stod sort fuel st (GotMode 0) = Some (st', o) /\ settings st' = settings st /\
    (cycles st' = [] \/ (exists k, cycles st' = [AwaitChannels k]) \/ cycles st' = [AwaitPlugin]).
Proof using Type.
  intros [[[_ Hc]|[_ [p Hc]]] _]; cbn [step]; rewrite Hc; cbn [lookup list_lookup]; [by eauto 10|].
  destruct p; [unfold got_mode; destruct (mode st)|..]; eexists _, _; (split; [reflexivity|]); simpl; rewrite ?Hc; eauto.
Qed.

Lemma channels_answered st reply w :
  driver_ok st -> plannable (settings st) reply w ->
  cycles st = [] \/ (exists k, cycles st = [AwaitChannels k]) \/ cycles st = [AwaitPlugin] ->
  exists st' o, step stod sort fuel st (GotChannels 0 reply w) = Some (st', o) /\
    (cycles st' = [] \/ cycles st' = [AwaitPlugin]).
Proof using All.
  intros Hok Hp [Hc|[[k Hc]|Hc]]; cbn [step]; rewrite Hc; cbn [lookup list_lookup]; [by eauto 10| |by eauto 10].
  unfold got_channels.
  destruct (run_cycle_defined (settings st) reply w (demand_of k) (driver_settings _ Hok) Hp) as (v & ->). cbn [mbind option_bind].
  destruct v as [[]|]; eexists _, _; (split; [reflexivity|]); simpl; rewrite Hc; eauto.
Qed.

Lemma plugin_called st c :
  cycles st = [] \/ cycles st = [AwaitPlugin] ->
  exists st' o, step stod sort fuel st (GotPlugin 0 c) = Some (st', o) /\ cycles st' = [].
Proof using Type.
  intros [Hc|Hc]; cbn [step]; rewrite Hc; cbn [lookup list_lookup]; [by eauto|].
  eexists _, _. split; [reflexivity|]. simpl. by rewrite Hc.
Qed.

Lemma answers_end st reply w c :
  driver_ok st -> plannable (settings st) reply w ->
  exists st' os, run stod sort fuel st (answers reply w c) = Some (st', os) /\ cycles st' = [].
Proof using All.
  intros Hok Hp. destruct (mode_answered st Hok) as (s1 & o1 & E1 & Es & C1).
  pose proof (step_ok _ _ _ _ _ _ _ Hok E1) as H1. rewrite <- Es in Hp.
  destruct (channels_answered s1 reply w H1 Hp C1) as (s2 & o2 & E2 & C2).
  destruct (plugin_called s2 c C2) as (s3 & o3 & E3 & C3).
  unfold answers. cbn [run]. rewrite E1. cbn [mbind option_bind]. rewrite E2. cbn [mbind option_bind]. rewrite E3.
  cbn [mbind option_bind]. eexists _, _. by split.
Qed.

End Ends.

(** C26: The flag is not stuck: from any state the module can reach, three answers, of the
    mode, of the node and of the plugin, end the cycle that runs and clear the flag, and a
    paced tick then starts a new one when the rate is not zero.  The planning is shown to
    end with a verdict, for a fuel of at least 232, if the answers are [plannable]: channels
    that can be read, rates between 2^-100 and 2^30 ppm.  An exception instead of one of
    the first two answers ends the cycle and clears the flag too. *)
Theorem cycle_always_ends stod sort fuel es st os :
  SortByRate sort -> (Curve.ladder_fuel <= fuel)%nat -> run stod sort fuel start es = Some (st, os) ->
  (forall reply w c, plannable (settings st) reply w ->
     exists st' os', run stod sort fuel st (answers reply w c) = Some (st', os') /\
       in_flight st' = false /\ cycles st' = [] /\
       (dle (per_hour (settings st')) d0 = false -> cycles (tick st') = [AwaitMode Matched] /\ in_flight (tick st') = true)) /\
  (AwaitPlugin ∉ cycles st -> exists st', run stod sort fuel st [CycleError 0] = Some (st', []) /\
     in_flight st' = false /\ cycles st' = []).
Proof.
  intros Hsort Hfuel H. pose proof (driver_run_ok _ _ _ _ _ _ _ start_ok H) as Hok. split.
  - intros reply w c Hp. destruct (answers_end stod sort fuel Hfuel st reply w c Hok Hp) as (st' & os' & E & Hc).
    destruct (driver_run_ok _ _ _ _ _ _ _ Hok E) as [Hx' _]. exists st', os'.
    assert (in_flight st' = false) as Hi by (by destruct Hx' as [[? _]|[_ [p ?]]]; [|congruence]).
    split_and!; [done..|]. intros Hr. unfold tick. rewrite Hr, Hi. simpl. by rewrite Hc.
  - destruct Hok as [Hx _]. intros Hn. cbn [run step]. destruct Hx as [[Hi Hc]|[Hi [p Hc]]]; rewrite Hc.
    + exists st. by repeat split.
    + destruct p; [..|by rewrite Hc in Hn; destruct Hn; left]; eexists; (split; [reflexivity|]); simpl; by rewrite Hc.
Qed.

(** *** What is sent *)

(** What a list of capped channels of a request can move for a peer, in msat. *)
Definition moved_msat (cs : list Chan) (m : Node) (l : list (bytes * Z)) : Z :=
  sumZ (map snd (filter (fun e => e.1 ∈ map scid (channels_of m cs)) l)).

(** A request, with all its caps used. *)
Record request_ok (s : Settings) (cs : list Chan) (unmanaged : Node -> bool) (r : Request) : Prop := {
  rq_named : Forall (fun e => e.1 ∈ map scid cs /\ 1000 * min_cap_sat <= e.2) (r_sources r ++ r_destinations r);
  rq_fill m : moved_msat cs m (r_destinations r) = 0 \/
    exists e, edge (capacity cs m) (fill_band s) = Some e /\
              1000 * balance cs m + moved_msat cs m (r_destinations r) <= 1000 * e;
  rq_drain m : moved_msat cs m (r_sources r) = 0 \/
    exists e, edge (capacity cs m) (drain_band s) = Some e /\
              1000 * e <= 1000 * balance cs m - moved_msat cs m (r_sources r);
  rq_one_side m : moved_msat cs m (r_destinations r) = 0 \/ moved_msat cs m (r_sources r) = 0;
  rq_peers m : moved_msat cs m (r_destinations r) = 0 /\ moved_msat cs m (r_sources r) = 0 \/
    unmanaged m = false /\ existsb online (channels_of m cs) = true;
  rq_amount : 0 < amount_msat r;
  rq_parts : r_maxparts r = maxparts s /\ 1 <= r_maxparts r <= 1000000
}.

(** The amounts in msat do not wrap. *)
Lemma msat_exact z : 0 <= z < 2 ^ 51 -> u64 (u64 z * 1000) = 1000 * z.
Proof. intros H. rewrite (u64_id z) by (unfold is_u64; lia). rewrite u64_id by (unfold is_u64; lia). lia. Qed.

Lemma max_msat_exact l :
  Forall (fun e => min_cap_sat <= max_sat e < 2 ^ 51) l -> map max_msat l = map (fun e => (c_scid e, 1000 * max_sat e)) l.
Proof.
  intros H. apply map_ext_Forall. eapply Forall_impl; [exact H|]. intros e He. unfold max_msat, min_cap_sat in *.
  rewrite msat_exact by lia. done.
Qed.

Lemma moved_msat_exact cs m l :
  Forall (fun e => min_cap_sat <= max_sat e < 2 ^ 51) l -> moved_msat cs m (map max_msat l) = 1000 * moved cs m l.
Proof.
  intros H. rewrite (max_msat_exact l H). unfold moved_msat, moved. clear H.
  induction l as [|e l IH]; [done|]. cbn [map]. rewrite !filter_cons. cbn [fst].
  destruct (decide (c_scid e ∈ _)); [|done]. cbn [map snd].
  change (1000 * max_sat e + sumZ (map snd (filter (fun e => e.1 ∈ map scid (channels_of m cs)) (map (fun e => (c_scid e, 1000 * max_sat e)) l)))
    = 1000 * (max_sat e + sumZ (map max_sat (filter (fun e => c_scid e ∈ map scid (channels_of m cs)) l)))). lia.
Qed.

(** The request for a plan within the bands is within the bands. *)
Lemma request_within_bands s cs unm c :
  settings_ok s -> within_bands s cs unm c -> request_ok s cs unm (request c (maxparts s)).
Proof.
  intros Hs [Hn Hr Hf Hd H1 Hp].
  assert (Forall (fun e => min_cap_sat <= max_sat e < 2 ^ 51) (sources c ++ dests c)) as Hb.
  { eapply Forall_impl; [exact Hn|]. by intros e [_ ?]. }
  apply Forall_app in Hb as [Bs Bd].
  split; cbn [request r_sources r_destinations amount_msat r_maxparts]; try (intros m; rewrite ?moved_msat_exact by done).
  - rewrite <- map_app. apply Forall_fmap. eapply Forall_impl; [exact Hn|]. intros e [He Hm]. split; [done|].
    cbn [max_msat compose snd]. unfold min_cap_sat in *. rewrite msat_exact by lia. lia.
  - destruct (Hf m) as [->|(e & ? & ?)]; [by left|right; exists e; split; [done|lia]].
  - destruct (Hd m) as [->|(e & ? & ?)]; [by left|right; exists e; split; [done|lia]].
  - destruct (H1 m) as [->| ->]; [by left|by right].
  - destruct (Hp m) as [[-> ->]|?]; [by left|by right].
  - rewrite msat_exact by lia. lia.
  - split; [done|apply Hs].
Qed.

(** C5: Whatever happened before, options included, a request that is sent to the plugin
    keeps every peer within its band: with all the caps of the request used, the funds with
    no peer among the destinations go beyond the fill edge and those with no peer among the
    sources below the drain edge (the edges are those of a peer's channels together).  The
    request names channels of the node only, of managed peers with a connected channel, each
    with a cap of at least a thousand satoshis; no peer is on both sides; it is for the
    planned amount and fee, in msat, which do not wrap, and for the configured parts.  The
    channels are as the node promises: distinct, with balances within their capacities, which
    add up to less than 2^51 sat. *)
Theorem requests_within_bands stod sort fuel es st os i reply w st' c r cs :
  SortByRate sort -> run stod sort fuel start es = Some (st, os) ->
  step stod sort fuel st (GotChannels i reply w) = Some (st', [XRebalance c r]) ->
  build_chans reply = Some cs -> chans_ok cs ->
  request_ok (settings st) cs (unmanaged w) r /\ amount_msat r = 1000 * requested c /\ maxfee_ppm r = maxfee c /\
  r_sources r = map (fun e => (c_scid e, 1000 * max_sat e)) (sources c) /\
  r_destinations r = map (fun e => (c_scid e, 1000 * max_sat e)) (dests c).
Proof.
  intros Hsort H E Hb Hcs. destruct (driver_run_ok _ _ _ _ _ _ _ start_ok H) as [Hx Hs]. cbn [step] in E.
  destruct (cycles st !! i) as [[k|k|]|]; try done. unfold got_channels, run_cycle in E. rewrite Hb in E. cbn [mbind option_bind] in E.
  destruct cs as [|c0 cs]; [done|]. destruct (earnings _ _) as [rows|]; [|done]. cbn [mbind option_bind] in E.
  destruct (plan_and_log _ _ _ _ _ _ _ _ _) as [v|] eqn:Ep; [|done]. cbn [mbind option_bind] in E.
  destruct v; try done. injection E as _ <- <-.
  assert (within_bands (settings st) (c0 :: cs) (unmanaged w) c1) as Hw
    by (eapply run_within_bands; [done|done|apply Hs|apply Hs|exact Ep]).
  split; [by apply request_within_bands|]. destruct Hw as [Hn Hr _ _ _ _].
  cbn [request amount_msat maxfee_ppm r_sources r_destinations].
  apply Forall_app in Hn as [Ns Nd].
  rewrite msat_exact, !max_msat_exact; [done| | |lia]; eapply Forall_impl; try exact Nd; try exact Ns; by intros e [_ ?].
Qed.

(** With the mode off and no cycle running, no call is made until the mode is set. *)
Lemma off_is_quiet stod sort fuel es st st' os :
  run stod sort fuel st es = Some (st', os) -> mode st = off ->
  Forall (fun p => exists k, p = AwaitMode k) (cycles st) ->
  Forall (fun e => match e with Option name _ => name <> option_name | _ => True end) es -> os = [].
Proof.
  intros H Hm Hc Hes. revert st st' os H Hm Hc.
  induction Hes as [|e es He Hes IH]; intros st st' os H Hm Hc; cbn [run] in H; [by injection H as _ <-|].
  destruct (step _ _ _ st e) as [[s1 o]|] eqn:E1; [|done]. cbn [mbind option_bind] in H.
  destruct (run _ _ _ s1 es) as [[s2 o2]|] eqn:E2; [|done]. cbn [mbind option_bind] in H. injection H as _ <-.
  assert (o = [] /\ mode s1 = off /\ Forall (fun p => exists k, p = AwaitMode k) (cycles s1)) as (-> & Hm1 & Hc1).
  { destruct e as [|name value|  |x|i|i reply w|i c|i]; cbn [step] in E1.
    - by injection E1 as <- <-.
    - apply Some_inj in E1. injection E1 as <- <-. split; [done|]. split; [|done].
      cbn [mode with_mode with_settings]. unfold on_option. by rewrite bool_decide_eq_false_2, Hm.
    - injection E1 as <- <-. unfold tick. destruct (dle _ _), (in_flight st); try done.
      split; [done|]. split; [done|]. simpl. apply Forall_app. split; [done|]. repeat constructor. by eexists.
    - injection E1 as <- <-. unfold handle_demand. destruct (_ || _); [done|].
      split; [done|]. split; [done|]. simpl. apply Forall_app. split; [done|]. repeat constructor. by eexists.
    - destruct (cycles st !! i) as [p|] eqn:El; [|by injection E1 as <- <-].
      destruct (proj1 (Forall_lookup _ _) Hc i p El) as [k ->]. unfold got_mode in E1. rewrite Hm in E1. injection E1 as <- <-.
      split; [done|]. split; [done|]. simpl. by apply Forall_delete.
    - destruct (cycles st !! i) as [p|] eqn:El; [|by injection E1 as <- <-].
      destruct (proj1 (Forall_lookup _ _) Hc i p El) as [k ->]. by injection E1 as <- <-.
    - destruct (cycles st !! i) as [p|] eqn:El; [|by injection E1 as <- <-].
      destruct (proj1 (Forall_lookup _ _) Hc i p El) as [k ->]. by injection E1 as <- <-.
    - destruct (cycles st !! i) as [p|] eqn:El; [|by injection E1 as <- <-].
      destruct (proj1 (Forall_lookup _ _) Hc i p El) as [k ->]. injection E1 as <- <-.
      split; [done|]. split; [done|]. simpl. by apply Forall_delete. }
  simpl. by eapply IH.
Qed.

(** *** A sample run *)

Definition demo_peer_text (i : string) : bytes := lit "02" ++ replicate 63 (chr "0") ++ lit i.
Definition demo_channel (i scid us : string) : json :=
  JObj [(lit "peer_id", JStr (demo_peer_text i)); (lit "state", JStr (lit "CHANNELD_NORMAL"));
        (lit "short_channel_id", JStr (lit scid)); (lit "peer_connected", JPrim (lit "true"));
        (lit "to_us_msat", JPrim (lit us)); (lit "total_msat", JPrim (lit "1000000000"))].
Definition demo_reply : json :=
  JObj [(lit "channels", JArr [demo_channel "1" "1x1x1" "100000000"; demo_channel "2" "2x2x2" "900000000"])].

Definition demo_peer (i : Z) : Node := Some (2 :: replicate 31 0 ++ [i]).
Definition demo_row (i : Z) : Tracker.Row :=
  {| Tracker.node := demo_peer i; Tracker.time_bucket := d_of_Z 86400;
     Tracker.data := {| Tracker.in_earnings := 200; Tracker.in_forwarded := 1000000; Tracker.in_expenditures := 0;
       Tracker.in_rebalanced := 0; Tracker.out_earnings := 300; Tracker.out_forwarded := 1000000;
       Tracker.out_expenditures := 0; Tracker.out_rebalanced := 0 |} |}.
Definition demo_world : World :=
  {| table := [demo_row 1; demo_row 2]; time := 100000; unmanaged := fun _ => false; draw := 0; rung := 50 |}.
Definition no_number (_ : bytes) : option double := None.

Definition demo_events : list Event :=
  [Init; Option opt_floor (Some (JStr (lit "auto"))); Tick; DemandObserved (lit "1x1x1"); GotMode 0].

Definition demo_cs : list Chan :=
  [{| scid := lit "1x1x1"; node := demo_peer 1; online := true; cap_sat := 1000000; local_sat := 100000 |};
   {| scid := lit "2x2x2"; node := demo_peer 2; online := true; cap_sat := 1000000; local_sat := 900000 |}].
Definition demo_request : Cycle :=
  {| sources := [{| c_scid := lit "2x2x2"; max_sat := 150000 |}]; dests := [{| c_scid := lit "1x1x1"; max_sat := 150000 |}];
     requested := 150000; maxfee := 500 |}.
Definition demo_before : State :=
  {| settings := default_settings; mode := xrebalance; health := Health.start; started := true; in_flight := true;
     cycles := [AwaitChannels Matched] |}.
Definition demo_after : State := with_cycles demo_before true [AwaitPlugin].

Lemma driver_demo_run : run no_number rate_sort 10 start demo_events = Some (demo_before, [ListChannels]).
Proof. vm_compute. reflexivity. Qed.

Lemma demo_cs_ok : chans_ok demo_cs.
Proof.
  split; [|split].
  - repeat constructor; vm_compute; congruence.
  - split; vm_compute; congruence.
  - apply (bool_decide_unpack (NoDup (map scid demo_cs))). vm_compute. exact I.
Qed.

Lemma requests_within_bands_witness :
  request_ok default_settings demo_cs (fun _ => false) (request demo_request 80) /\
  r_destinations (request demo_request 80) = [(lit "1x1x1", 150000000)].
Proof.
  destruct (requests_within_bands no_number rate_sort 10 demo_events demo_before [ListChannels] 0 demo_reply demo_world
           demo_after demo_request (request demo_request 80) demo_cs) as (H & _).
  - apply rate_sort_ok.
  - apply driver_demo_run.
  - vm_compute. reflexivity.
  - vm_compute. reflexivity.
  - apply demo_cs_ok.
  - split; [exact H|reflexivity].
Defined.

Lemma cycles_exclude_each_other_witness : exclusive demo_before.
Proof. apply (cycles_exclude_each_other no_number rate_sort 10 demo_events demo_before [ListChannels]). apply driver_demo_run. Defined.

Definition demo_rows : list (Node * Tracker.EarningsData) :=
  default [] (earnings (table demo_world) (cutoff_of default_settings (time demo_world))).

Lemma demo_plannable : plannable default_settings demo_reply demo_world.
Proof.
  split; [|split; vm_compute; discriminate]. exists demo_cs, demo_rows.
  split; [vm_compute; reflexivity|]. split; [apply demo_cs_ok|]. split; [vm_compute; reflexivity|].
  apply Curve.ordinary_rates.
  - split; [reflexivity|]. exists 1%Q. split; [vm_compute; reflexivity|]. split; vm_compute; discriminate.
  - assert (demo_rows = [(demo_peer 1, Tracker.data (demo_row 1)); (demo_peer 2, Tracker.data (demo_row 2))]) as ->
      by (vm_compute; reflexivity).
    assert (Curve.ordinary (Tracker.data (demo_row 1))) as H
      by (unfold Curve.ordinary, amount_ok; cbn [Tracker.data demo_row Tracker.in_earnings Tracker.in_forwarded
            Tracker.in_expenditures Tracker.out_earnings Tracker.out_forwarded Tracker.out_expenditures]; lia).
    constructor; [exact H|]. constructor; [exact H|]. constructor.
Qed.

Lemma demo_long_run : run no_number rate_sort Curve.ladder_fuel start demo_events = Some (demo_before, [ListChannels]).
Proof. vm_compute. reflexivity. Qed.

Lemma cycle_always_ends_witness :
  exists st' os', run no_number rate_sort Curve.ladder_fuel demo_before
    (answers demo_reply demo_world (Answered (d_of_Z 5))) = Some (st', os') /\ in_flight st' = false /\ cycles st' = [].
Proof.
  destruct (cycle_always_ends no_number rate_sort Curve.ladder_fuel demo_events demo_before [ListChannels]) as [H _].
  - apply rate_sort_ok.
  - apply Nat.le_refl.
  - apply demo_long_run.
  - destruct (H demo_reply demo_world (Answered (d_of_Z 5)) demo_plannable) as (st' & os' & E & Hi & Hc & _).
    exists st', os'. split; [exact E|]. split; [exact Hi|exact Hc].
Defined.

End Driver.
