(* ===== verification/PriceTheory.v ===== *)
(** * Seeking a price (src/Boss/Mod/FeeModderByPriceTheory.cpp)

    The module plays, for each peer, a card game whose rules the head of the source
    gives: five cards with prices around a center are shuffled; the top one is in play
    for 288 ten-minute rounds in which the peer is connected and collects the fees of
    the forwards to the peer; when all five were played the center moves to the price
    that collected most, and new cards are made.

    [Table] is the code: two tables of the database, and the queries on them.  [Game]
    is the game, a step relation.  The tables are shown to play the game of each peer,
    whatever the events, and the game to do what its rules promise.

    A request that makes new cards comes with its own shuffle, a permutation that may be
    another one each time; the row that a query with [LIMIT 1] gives among the best ones
    is a parameter.  The sums of fees on a card are below [2^63], where SQLite's
    integers are exact: [None] is a sum beyond. *)

From stdpp Require Import base list numbers strings gmap sorting.
From Stdlib Require Import QArith.
From S2P Require Import Prelude.
From S2P Require Import Double.
From S2P Require Import Amount.
From S2P Require Import LnIds.

#[local] Open Scope Z_scope.

Abbreviation Node := NodeId.t.

Definition initial_price : Z := 0.
Definition initial_lifetime : Z := 288.
Definition max_step : nat := 2.

(** The prices of a round: the center, and up to [max_step] steps to both sides. *)
Definition prices_around (center : Z) : list Z :=
  center :: concat (map (fun i => [center + Z.of_nat (i + 1); center - Z.of_nat (i + 1)]) (seq 0 max_step)).

(** The multiplier of a price; [pow] is the function of libm. *)
Definition price_to_multiplier (pow : double -> double -> double) (price : Z) : double :=
  if price <? 0 then pow (RN (8 # 10)) (d_of_Z (- price))
  else if 0 <? price then pow (RN (12 # 10)) (d_of_Z price)
  else d_of_Z 1.

(** A higher price has a higher multiplier, where [pow] is monotone as it should be. *)
Lemma multiplier_mono pow p q :
  (forall x y, dle x y = true -> dle (pow (RN (12 # 10)) x) (pow (RN (12 # 10)) y) = true) ->
  (forall x y, dle x y = true -> dle (pow (RN (8 # 10)) y) (pow (RN (8 # 10)) x) = true) ->
  (forall x, dle (Fin 0) x = true -> dle (d_of_Z 1) (pow (RN (12 # 10)) x) = true) ->
  (forall x, dle (Fin 0) x = true -> dle (pow (RN (8 # 10)) x) (d_of_Z 1) = true) ->
  p <= q -> dle (price_to_multiplier pow p) (price_to_multiplier pow q) = true.
Proof.
  intros Hup Hdown Hone Hone' Hpq. unfold price_to_multiplier.
  assert (forall a b, a <= b -> dle (d_of_Z a) (d_of_Z b) = true) as Hz.
  { intros a b Hab. apply RN_le. by rewrite <- Zle_Qle. }
  assert (forall a, 0 <= a -> dle (Fin 0) (d_of_Z a) = true) as H0 by (intros a Ha; apply (Hz 0 a Ha)).
  destruct (Z.ltb_spec p 0), (Z.ltb_spec q 0), (Z.ltb_spec 0 p), (Z.ltb_spec 0 q); try lia.
  - apply Hdown, Hz. lia.
  - eapply dle_trans; [apply Hone', H0|apply Hone, H0]; lia.
  - apply Hone', H0. lia.
  - apply Hup, Hz. lia.
  - apply Hone, H0. lia.
  - apply Hz. lia.
Qed.

(** What is left open: which of the best rows a query gives, and what one shuffle does. *)
Class BestRow (best : list (Z * Z) -> option (Z * Z)) := {
  best_none : forall l, best l = None <-> l = [];
  best_max : forall l x, best l = Some x -> x ∈ l /\ Forall (fun y => y.2 <= x.2) l
}.

Class Chance (shuffle : list Z -> list Z) (best : list (Z * Z) -> option (Z * Z)) := {
  shuffle_perm : forall l, shuffle l ≡ₚ l;
  chance_best :: BestRow best
}.

(** ** The rules *)

Module Game.

Record Game := {
  center : Z;
  deck : list Z;
  (** the price, the rounds left and the earnings of the card in play *)
  current : option (Z * Z * Z);
  (** the prices and the earnings of the cards played *)
  pile : list (Z * Z)
}.

Definition fresh : Game := {| center := initial_price; deck := []; current := None; pile := [] |}.

Inductive Act := Ask | Round (connected : bool) | Earn (fee : Z).

(** The center of the next game: the price that earned most, or the old one when
    nothing was earned; the initial price when nothing was played. *)
Inductive next_center (g : Game) : Z -> Prop :=
| next_first : pile g = [] -> next_center g initial_price
| next_same p : (p, 0) ∈ pile g -> Forall (fun y => y.2 <= 0) (pile g) -> next_center g (center g)
| next_best p e : (p, e) ∈ pile g -> e <> 0 -> Forall (fun y => y.2 <= e) (pile g) -> next_center g p.

(** The card in play after a round: it is put on the pile when its time is up. *)
Definition after_round (g : Game) : Game :=
  match current g with
  | Some (p, life, e) =>
      if life - 1 <=? 0 then {| center := center g; deck := deck g; current := None; pile := pile g ++ [(p, e)] |}
      else {| center := center g; deck := deck g; current := Some (p, life - 1, e); pile := pile g |}
  | None => g
  end.

Definition earned (g : Game) (fee : Z) : Game :=
  match current g with
  | Some (p, life, e) => {| center := center g; deck := deck g; current := Some (p, life, e + fee); pile := pile g |}
  | None => g
  end.

Inductive step (g : Game) : Act -> Game -> Prop :=
| step_keep c : current g = Some c -> step g Ask g
| step_draw p d : current g = None -> deck g = p :: d ->
    step g Ask {| center := center g; deck := d; current := Some (p, initial_lifetime, 0); pile := pile g |}
| step_new c p d : current g = None -> deck g = [] -> next_center g c -> p :: d ≡ₚ prices_around c ->
    step g Ask {| center := c; deck := d; current := Some (p, initial_lifetime, 0); pile := [] |}
| step_round : step g (Round true) (after_round g)
| step_away : step g (Round false) g
| step_earn fee : step g (Earn fee) (earned g fee).

Inductive reaches : Game -> list Act -> Game -> Prop :=
| reaches_nil g : reaches g [] g
| reaches_cons g a g' l g'' : step g a g' -> reaches g' l g'' -> reaches g (a :: l) g''.

Lemma reaches_snoc g l g' a g'' : reaches g l g' -> step g' a g'' -> reaches g (l ++ [a]) g''.
Proof. induction 1; intros Hs; [|econstructor; [done|by auto]]. econstructor; [done|constructor]. Qed.

(** The prices of all the cards of the game. *)
Definition in_play (g : Game) : list Z := match current g with Some (p, _, _) => [p] | None => [] end.
Definition dealt (g : Game) : list Z := deck g ++ in_play g ++ map fst (pile g).

(** The five cards of a game are on the table, or none before the first. *)
Record game_ok (g : Game) : Prop := {
  ok_cards : dealt g = [] /\ center g = initial_price \/ dealt g ≡ₚ prices_around (center g);
  ok_life : forall p life e, current g = Some (p, life, e) -> 0 < life <= initial_lifetime /\ 0 <= e;
  ok_earned : Forall (fun y => 0 <= y.2) (pile g)
}.

Lemma fresh_ok : game_ok fresh.
Proof. split; [by left|done|constructor]. Qed.

Definition act_ok (a : Act) : Prop := match a with Earn fee => 0 <= fee | _ => True end.

Lemma game_step_ok g a g' : game_ok g -> act_ok a -> step g a g' -> game_ok g'.
Proof.
  intros Hg Ha Hs. pose proof Hg as [Hc Hl He]. destruct Hs as [c Hcur|p d Hcur Hd|c p d Hcur Hd Hn Hp| | |fee]; [done|..].
  - unfold dealt, in_play in Hc. rewrite Hcur, Hd in Hc. split; simpl.
    + unfold dealt, in_play. simpl. right. destruct Hc as [[Hc _]|Hc]; [done|]. rewrite <- Hc.
      simpl. by rewrite Permutation_middle.
    + intros ? ? ? [= <- <- <-]. unfold initial_lifetime. lia.
    + done.
  - split; simpl; [|intros ? ? ? [= <- <- <-]; unfold initial_lifetime; lia|constructor].
    right. unfold dealt, in_play. simpl. rewrite <- Hp. by rewrite <- Permutation_cons_append.
  - unfold after_round. destruct (current g) as [[[p life] e]|] eqn:Hcur; [|done].
    destruct (Hl _ _ _ eq_refl) as [Hl1 Hl2]. unfold dealt, in_play in Hc. rewrite Hcur in Hc.
    destruct (Z.leb_spec (life - 1) 0); split; simpl; unfold dealt, in_play; simpl.
    + rewrite map_app. simpl. destruct Hc as [[Hc _]|Hc].
      * by apply app_eq_nil in Hc as [_ ?].
      * right. rewrite <- Hc. by rewrite <- Permutation_cons_append.
    + done.
    + apply Forall_app. split; [done|]. by repeat constructor.
    + done.
    + intros ? ? ? [= <- <- <-]. lia.
    + done.
  - done.
  - unfold earned. destruct (current g) as [[[p life] e]|] eqn:Hcur; [|done].
    destruct (Hl _ _ _ eq_refl) as [Hl1 Hl2]. unfold dealt, in_play in Hc. rewrite Hcur in Hc.
    split; simpl; [done| |done]. intros ? ? ? [= <- <- <-]. simpl in Ha. lia.
Qed.

Lemma reaches_ok g l g' : game_ok g -> Forall act_ok l -> reaches g l g' -> game_ok g'.
Proof.
  intros Hg Hl Hr. induction Hr as [|g a g1 l g2 Hs Hr IH]; [done|].
  apply Forall_cons in Hl as [Ha Hl]. apply IH; [by eapply game_step_ok|done].
Qed.

Lemma prices_around_spec c p : p ∈ prices_around c <-> c - 2 <= p <= c + 2.
Proof.
  unfold prices_around. simpl. rewrite !elem_of_cons. split; [intros Hp|intros Hp].
  - destruct Hp as [->|[->|[->|[->|[->|Hp]]]]]; try lia. by apply not_elem_of_nil in Hp.
  - assert (p = c \/ p = c + 1 \/ p = c - 1 \/ p = c + 2 \/ p = c - 2) as H by lia.
    destruct H as [->|[->|[->|[->| ->]]]]; tauto.
Qed.

Lemma prices_around_NoDup c : NoDup (prices_around c).
Proof. unfold prices_around. simpl. repeat (constructor; [set_unfold; lia|]). constructor. Qed.

(** *** What a card went through *)

Definition rounds (l : list Act) : Z := sumZ (map (fun a => match a with Round true => 1 | _ => 0 end) l).
Definition fees (l : list Act) : Z := sumZ (map (fun a => match a with Earn fee => fee | _ => 0 end) l).

Lemma rounds_app l k : rounds (l ++ k) = rounds l + rounds k.
Proof. unfold rounds. by rewrite map_app, sumZ_app. Qed.
Lemma fees_app l k : fees (l ++ k) = fees l + fees k.
Proof. unfold fees. by rewrite map_app, sumZ_app. Qed.

Lemma reaches_snoc_inv g l a g'' : reaches g (l ++ [a]) g'' -> exists g', reaches g l g' /\ step g' a g''.
Proof.
  revert g. induction l as [|b l IH]; intros g H; simpl in H; inversion H as [|? ? g1 ? ? Hs Hr]; subst.
  - inversion Hr; subst. exists g. split; [constructor|done].
  - destruct (IH _ Hr) as (g' & Hr' & Hs'). exists g'. split; [by econstructor|done].
Qed.

(** A stretch of acts that begins with the draw of a card of price [p]. *)
Definition since_draw (l : list Act) (p : Z) (m : list Act) : Prop :=
  exists l1 g1 g2 e life, l = l1 ++ Ask :: m /\ reaches fresh l1 g1 /\ current g1 = None /\
    step g1 Ask g2 /\ current g2 = Some (p, life, e).

Lemma card_history l g :
  Forall act_ok l -> reaches fresh l g ->
  (forall p life e, current g = Some (p, life, e) ->
     exists m, since_draw l p m /\ rounds m = initial_lifetime - life /\ fees m = e) /\
  Forall (fun y => exists l' m, l' `prefix_of` l /\ since_draw l' y.1 m /\ rounds m = initial_lifetime /\ fees m = y.2) (pile g).
Proof.
  revert g. induction l as [|a l IH] using rev_ind; intros g Hok H.
  { inversion H; subst. by split. }
  apply Forall_app in Hok as [Hok _]. apply reaches_snoc_inv in H as (g0 & Hr & Hs).
  destruct (IH g0 Hok Hr) as [IH1 IH2]. clear IH. pose proof (reaches_ok _ _ _ fresh_ok Hok Hr) as Hg0.
  assert (Forall (fun y => exists l' m, l' `prefix_of` l ++ [a] /\ since_draw l' y.1 m /\ rounds m = initial_lifetime /\ fees m = y.2) (pile g0)) as IH2'.
  { eapply Forall_impl; [exact IH2|]. intros y (l' & m & Hp & ?). exists l', m. split; [|done]. by apply prefix_app_r. }
  assert (forall p m, since_draw l p m -> since_draw (l ++ [a]) p (m ++ [a])) as Hext.
  { intros p m (l1 & g1 & g2 & e & life & -> & ? & ? & ? & ?). exists l1, g1, g2, e, life.
    split; [by rewrite <- app_assoc|done]. }
  assert (forall g2 p life e, current g0 = None -> step g0 Ask g2 -> current g2 = Some (p, life, e) -> a = Ask ->
    since_draw (l ++ [a]) p []) as Hnew.
  { intros g2 p life e Hc Hs2 Hc2 ->. exists l, g0, g2, e, life. done. }
  assert (forall p life e a', current g0 = Some (p, life, e) -> a = a' ->
    exists m, since_draw (l ++ [a]) p m /\ rounds m = initial_lifetime - life + rounds [a'] /\ fees m = e + fees [a']) as Hgo.
  { intros p life e a' Hc ->. destruct (IH1 p life e Hc) as (m & Hm & E1 & E2). exists (m ++ [a']).
    split; [by apply Hext|]. rewrite rounds_app, fees_app. lia. }
  inversion Hs as [c Hcur|p d Hcur Hd|c p d Hcur Hd Hn Hp| | |fee]; subst.
  - split; [|done]. intros p life e Hc. destruct (Hgo p life e Ask Hc eq_refl) as (m & Hm & E1 & E2).
    exists m. split; [done|]. cbn in E1, E2. lia.
  - split; [|done]. simpl. intros ? ? ? [= <- <- <-]. exists []. split; [by eapply Hnew|]. by cbn.
  - split; [|constructor]. simpl. intros ? ? ? [= <- <- <-]. exists []. split; [by eapply Hnew|]. by cbn.
  - unfold after_round. destruct (current g0) as [[[p life] e]|] eqn:Hc; [|split; [by rewrite Hc|done]].
    destruct (Hgo p life e (Round true) eq_refl eq_refl) as (m & Hm & E1 & E2). cbn in E1, E2.
    destruct (Z.leb_spec (life - 1) 0); simpl.
    + split; [done|]. apply Forall_app. split; [done|]. repeat constructor. exists (l ++ [Round true]), m. simpl.
      split; [done|]. split; [done|]. destruct (ok_life g0 Hg0 p life e Hc). lia.
    + split; [|done]. intros ? ? ? [= <- <- <-]. exists m. split; [done|]. lia.
  - split; [|done]. intros p life e Hc. destruct (Hgo p life e (Round false) Hc eq_refl) as (m & Hm & E1 & E2).
    exists m. split; [done|]. cbn in E1, E2. lia.
  - unfold earned. destruct (current g0) as [[[p life] e]|] eqn:Hc; [|split; [by rewrite Hc|done]].
    split; [|done]. simpl. intros ? ? ? [= <- <- <-].
    destruct (Hgo p life e (Earn fee) eq_refl eq_refl) as (m & Hm & E1 & E2). cbn in E1, E2.
    exists m. split; [done|]. lia.
Qed.

End Game.

(** In any play of the game the price of the card that is in play after a request is
    within two steps of the center.  The center changes only after each of the five
    prices around it was in play for 288 rounds with the peer connected, and only to
    the price that earned most in its time, which is more than nothing. *)
Lemma center_rule l g g' :
  Forall Game.act_ok l -> Game.reaches Game.fresh l g -> Game.step g Game.Ask g' ->
  (exists p life e, Game.current g' = Some (p, life, e) /\ Game.center g' - 2 <= p <= Game.center g' + 2) /\
  (Game.center g' <> Game.center g ->
     map fst (Game.pile g) ≡ₚ prices_around (Game.center g) /\
     exists e, (Game.center g', e) ∈ Game.pile g /\ 0 < e /\ Forall (fun y => y.2 <= e) (Game.pile g)) /\
  Forall (fun y => exists l' m, l' `prefix_of` l /\ Game.since_draw l' y.1 m /\ Game.rounds m = initial_lifetime /\
                              Game.fees m = y.2) (Game.pile g).
Proof.
  intros Hl Hr Hs. pose proof (Game.reaches_ok _ _ _ Game.fresh_ok Hl Hr) as Hok.
  pose proof (Game.game_step_ok g Game.Ask g' Hok I Hs) as Hok'. split_and!; [| |apply (Game.card_history l g Hl Hr)].
  - assert (exists p life e, Game.current g' = Some (p, life, e)) as (p & life & e & Hc).
    { inversion Hs as [[[p life] e] Hcur|p d Hcur Hd|c p d Hcur Hd Hn Hp| | |]; subst; simpl; eauto. }
    exists p, life, e. split; [done|]. apply Game.prices_around_spec.
    destruct (Game.ok_cards g' Hok') as [[Hd _]|Hd]; unfold Game.dealt, Game.in_play in Hd; rewrite Hc in Hd.
    + by apply app_eq_nil in Hd as [_ ?].
    + rewrite <- Hd. apply elem_of_app. right. left.
  - inversion Hs as [c Hcur|p d Hcur Hd|c p d Hcur Hd Hn Hp| | |]; subst; simpl; try done. intros Hne.
    assert (Game.dealt g = map fst (Game.pile g)) as Ed by (unfold Game.dealt, Game.in_play; by rewrite Hcur, Hd).
    destruct (Game.ok_cards g Hok) as [[H0 Hcen]|Hall].
    + exfalso. rewrite Ed in H0. apply map_eq_nil in H0.
      destruct Hn as [_|q Hin _|q e Hin _ _]; [by rewrite Hcen in Hne|by rewrite H0 in Hin; apply not_elem_of_nil in Hin..].
    + rewrite Ed in Hall. split; [done|]. destruct Hn as [Hn|q _ _|q e Hin He Hmax]; [|done|].
      * rewrite Hn in Hall. symmetry in Hall. by apply Permutation_nil_r in Hall.
      * exists e. split; [done|]. split; [|done]. pose proof (Game.ok_earned g Hok) as Hpos. rewrite Forall_forall in Hpos.
        specialize (Hpos _ Hin). simpl in Hpos. lia.
Qed.

(** ** The tables *)

Module Table.

Inductive CardPos := Deck | InPlay | Discarded.

#[global] Instance CardPos_eq_dec : EqDecision CardPos.
Proof. solve_decision. Defined.

Record Card := {
  id : Z; node : Node; pos : CardPos; deckorder : Z; price : Z; lifetime : Z; earnings : Z
}.

Record Db := { centers : gmap Node Z; cards : list Card }.

Definition empty : Db := {| centers := ∅; cards := [] |}.

Definition set_cards (db : Db) (l : list Card) : Db := {| centers := centers db; cards := l |}.

Definition of_node (n : Node) (l : list Card) : list Card := filter (fun c => node c = n) l.
Definition at_pos (n : Node) (p : CardPos) (db : Db) : list Card :=
  filter (fun c => pos c = p) (of_node n (cards db)).

Definition with_pos (c : Card) (p : CardPos) : Card :=
  {| id := id c; node := node c; pos := p; deckorder := deckorder c; price := price c; lifetime := lifetime c;
     earnings := earnings c |}.
Definition with_lifetime (c : Card) (z : Z) : Card :=
  {| id := id c; node := node c; pos := pos c; deckorder := deckorder c; price := price c; lifetime := z;
     earnings := earnings c |}.
Definition with_earnings (c : Card) (z : Z) : Card :=
  {| id := id c; node := node c; pos := pos c; deckorder := deckorder c; price := price c; lifetime := lifetime c;
     earnings := z |}.

Definition get_center_price (db : Db) (n : Node) : Z := default initial_price (centers db !! n).
Definition get_cards_left (db : Db) (n : Node) : Z := u32 (Z.of_nat (length (at_pos n Deck db))).

(** [ORDER BY deckorder DESC] *)
Definition above (a b : Card) : Prop := deckorder b <= deckorder a.

#[global] Instance above_dec a b : Decision (above a b).
Proof. unfold above. apply _. Defined.

(** [INTEGER PRIMARY KEY]: a new row gets the number after the largest one. *)
Definition new_id (l : list Card) : Z := 1 + foldr Z.max 0 (map id l).

Section Table.

Context (shuffle : list Z -> list Z) (best : list (Z * Z) -> option (Z * Z)).

Definition update_centerprice (db : Db) (n : Node) : Db :=
  match best (map (fun c => (price c, earnings c)) (at_pos n Discarded db)) with
  | Some (p, e) => if e =? 0 then db else {| centers := <[n := p]> (centers db); cards := cards db |}
  | None => {| centers := <[n := initial_price]> (centers db); cards := cards db |}
  end.

Definition new_card (l : list Card) (n : Node) (i price : Z) : Card :=
  {| id := new_id l; node := n; pos := Deck; deckorder := i; price := price; lifetime := initial_lifetime;
     earnings := 0 |}.

Fixpoint load_cards (n : Node) (i : Z) (prices : list Z) (l : list Card) : list Card :=
  match prices with
  | [] => l
  | p :: prices => load_cards n (i + 1) prices (l ++ [new_card l n i p])
  end.

Definition reshuffle_deck (db : Db) (n : Node) : Db :=
  let l := filter (fun c => node c <> n) (cards db) in
  set_cards db (load_cards n 0 (shuffle (prices_around (get_center_price db n))) l).

Definition end_game_round (db : Db) (n : Node) : Db := reshuffle_deck (update_centerprice db n) n.

(** The function calls itself after a new deck was made: the fuel bounds the calls. *)
Fixpoint draw_a_card (fuel : nat) (db : Db) (n : Node) : option Db :=
  match fuel with
  | O => None
  | S f =>
      match merge_sort above (at_pos n Deck db) with
      | c :: _ => Some (set_cards db (map (fun x => if decide (id x = id c) then with_pos x InPlay else x) (cards db)))
      | [] => draw_a_card f (end_game_round db n) n
      end
  end.

Fixpoint get_price (fuel : nat) (db : Db) (n : Node) : option (Db * Z) :=
  match at_pos n InPlay db with
  | c :: _ => Some (db, price c)
  | [] =>
      match fuel with
      | O => None
      | S f => db ← draw_a_card fuel db n; get_price f db n
      end
  end.

Record FeeMod := { level : Z; mid : Z; cards_left : Z }.

Definition get_fee_mod (fuel : nat) (db : Db) (n : Node) : option (Db * FeeMod) :=
  '(db, p) ← get_price fuel db n;
  Some (db, {| level := p; mid := get_center_price db n; cards_left := get_cards_left db n |}).

Definition play_round (n : Node) (c : Card) : Card :=
  if decide (node c = n /\ pos c = InPlay) then with_lifetime c (lifetime c - 1) else c.
Definition discard (c : Card) : Card :=
  if decide (pos c = InPlay /\ lifetime c <= 0) then with_pos c Discarded else c.

Definition update_10_minutes (db : Db) (connected : list Node) : Db :=
  set_cards db (map discard (foldl (fun l n => map (play_round n) l) (cards db) connected)).

(** [earnings + :fee], [None] beyond the integers. *)
Definition earn (n : Node) (fee : Z) (c : Card) : option Card :=
  if decide (node c = n /\ pos c = InPlay) then
    (if earnings c + fee <? 2 ^ 63 then Some (with_earnings c (earnings c + fee)) else None)
  else Some c.

Definition forward_fee (db : Db) (n : Node) (fee : Amount) : option Db :=
  l ← mapM (earn n fee) (cards db); Some (set_cards db l).

(** Two calls are enough: see [fee_mod_plays]. *)
Definition calls : nat := 2.

(** *** The cards of a peer are its game *)

Definition lower (a b : Card) : Prop := deckorder b < deckorder a.

Definition deck_card (c : Card) : Prop := pos c = Deck /\ lifetime c = initial_lifetime /\ earnings c = 0.

Definition current_is (l : list Card) (o : option (Z * Z * Z)) : Prop :=
  match l, o with
  | [], None => True
  | [c], Some (p, life, e) => pos c = InPlay /\ price c = p /\ lifetime c = life /\ earnings c = e
  | _, _ => False
  end.

Definition score (c : Card) : Z * Z := (price c, earnings c).

Record laid_out (l : list Card) (g : Game.Game) (ds cur ps : list Card) : Prop := {
  lo_cards : l ≡ₚ ds ++ cur ++ ps;
  lo_deck : Forall deck_card ds;
  lo_sorted : StronglySorted lower ds;
  lo_prices : map price ds = Game.deck g;
  lo_current : current_is cur (Game.current g);
  lo_played : Forall (fun c => pos c = Discarded) ps;
  lo_pile : map score ps ≡ₚ Game.pile g
}.

Record plays (db : Db) (n : Node) (g : Game.Game) : Prop := {
  pl_center : get_center_price db n = Game.center g;
  pl_cards : exists ds cur ps, laid_out (of_node n (cards db)) g ds cur ps
}.

Definition db_ok (db : Db) : Prop := NoDup (map id (cards db)).

Lemma of_node_map f n l : (forall c, node (f c) = node c) -> of_node n (map f l) = map f (of_node n l).
Proof using Type.
  intros Hf. induction l as [|c l IH]; [done|]. unfold of_node in *. cbn [map]. rewrite !filter_cons, Hf, IH.
  by destruct (decide (node c = n)).
Qed.

Lemma of_node_elem n l c : c ∈ of_node n l -> node c = n /\ c ∈ l.
Proof using Type. intros H. by apply list_elem_of_filter in H. Qed.

Lemma map_id_on (f : Card -> Card) l : (forall c, c ∈ l -> f c = c) -> map f l = l.
Proof using Type.
  intros H. induction l as [|c l IH]; [done|]. simpl. rewrite (H c) by left. f_equal. apply IH. intros. apply H. by right.
Qed.

Lemma filter_pos_same p l : Forall (fun c => pos c = p) l -> filter (fun c => pos c = p) l = l.
Proof using Type. apply filter_every. Qed.

Lemma filter_pos_other p q l : p <> q -> Forall (fun c => pos c = p) l -> filter (fun c => pos c = q) l = [].
Proof using Type.
  intros Hpq H. apply filter_none. eapply Forall_impl; [exact H|]. simpl. intros c Hc Hq. congruence.
Qed.

(** The queries by position give the three parts. *)
Lemma laid_out_parts l g ds cur ps :
  laid_out l g ds cur ps ->
  filter (fun c => pos c = Deck) l ≡ₚ ds /\ filter (fun c => pos c = InPlay) l = cur /\
  filter (fun c => pos c = Discarded) l ≡ₚ ps.
Proof using Type.
  intros [Hl Hd _ _ Hc Hp _].
  assert (Forall (fun c => pos c = Deck) ds) as Hd' by (eapply Forall_impl; [exact Hd|]; by intros c [? _]).
  assert (Forall (fun c => pos c = InPlay) cur) as Hc'.
  { destruct cur as [|c [|]], (Game.current g) as [[[? ?] ?]|]; simpl in Hc; try done; repeat constructor; apply Hc. }
  assert (forall q, filter (fun c => pos c = q) l ≡ₚ
    filter (fun c => pos c = q) ds ++ filter (fun c => pos c = q) cur ++ filter (fun c => pos c = q) ps) as H.
  { intros q. rewrite Hl. by rewrite !filter_app. }
  split_and!.
  - rewrite H, (filter_pos_same Deck ds), (filter_pos_other InPlay Deck cur), (filter_pos_other Discarded Deck ps) by done.
    by rewrite app_nil_r.
  - specialize (H InPlay). rewrite (filter_pos_other Deck InPlay ds), (filter_pos_same InPlay cur), (filter_pos_other Discarded InPlay ps) in H by done.
    rewrite app_nil_r in H. simpl in H.
    destruct cur as [|c [|]]; simpl in Hc.
    + by apply Permutation_nil_r in H.
    + by apply Permutation_singleton_r in H.
    + by destruct (Game.current g) as [[[? ?] ?]|].
  - rewrite H, (filter_pos_other Deck Discarded ds), (filter_pos_other InPlay Discarded cur), (filter_pos_same Discarded ps) by done.
    done.
Qed.

(** The top of the sorted deck. *)
Lemma sorted_top l d ds :
  l ≡ₚ d :: ds -> StronglySorted lower (d :: ds) -> exists rest, merge_sort above l = d :: rest.
Proof using Type.
  intros Hp Hs. pose proof (merge_sort_Permutation above l) as Hm.
  assert (StronglySorted above (merge_sort above l)) as Hsm.
  { apply StronglySorted_merge_sort; [intros a b c; unfold above; lia|intros a b; unfold above; lia]. }
  destruct (merge_sort above l) as [|c rest] eqn:E.
  { exfalso. rewrite <- Hm in Hp. by apply Permutation_nil_cons in Hp. }
  exists rest. f_equal. assert (c ∈ d :: ds) as Hc by (rewrite <- Hp, <- Hm; left).
  assert (d ∈ c :: rest) as Hd by (rewrite Hm, Hp; left).
  apply elem_of_cons in Hc as [->|Hc]; [done|]. apply elem_of_cons in Hd as [->|Hd]; [done|]. exfalso.
  apply StronglySorted_inv in Hs as [_ Hs]. apply StronglySorted_inv in Hsm as [_ Hsm].
  rewrite Forall_forall in Hs, Hsm. specialize (Hs c Hc). specialize (Hsm d Hd). unfold lower, above in *. lia.
Qed.

(** Updates that do not change the number or the peer of a card. *)
Lemma update_ok db f : (forall c, id (f c) = id c) -> db_ok db -> db_ok (set_cards db (map f (cards db))).
Proof using Type.
  intros Hf H. unfold db_ok in *. simpl. rewrite map_map. by rewrite (map_ext _ id) by done.
Qed.

Lemma center_set db l n : get_center_price (set_cards db l) n = get_center_price db n.
Proof using Type. done. Qed.

(** A peer whose cards an update does not change. *)
Lemma plays_other db f n g :
  (forall c, node (f c) = node c) -> (forall c, c ∈ cards db -> node c = n -> f c = c) ->
  plays db n g -> plays (set_cards db (map f (cards db))) n g.
Proof using Type.
  intros Hf Hn [Hc H]. split; [done|]. simpl. rewrite of_node_map by done. rewrite map_id_on; [done|].
  intros c [E Hin]%of_node_elem. by apply Hn.
Qed.

(** *** Drawing a card *)

Lemma new_id_fresh l : Forall (fun c => id c < new_id l) l.
Proof using Type.
  unfold new_id. induction l as [|c l IH]; simpl; [done|]. constructor; [lia|].
  eapply Forall_impl; [exact IH|]. simpl. intros x Hx. lia.
Qed.

Definition higher (a b : Card) : Prop := deckorder a < deckorder b.

Lemma load_cards_spec n i prices l :
  exists news, load_cards n i prices l = l ++ news /\ map price news = prices /\
    Forall (fun c => node c = n /\ deck_card c /\ i <= deckorder c) news /\ StronglySorted higher news /\
    (NoDup (map id l) -> NoDup (map id (l ++ news))).
Proof using Type.
  revert i l. induction prices as [|p prices IH]; intros i l; cbn [load_cards].
  { exists []. rewrite app_nil_r. by repeat constructor. }
  destruct (IH (i + 1) (l ++ [new_card l n i p])) as (news & -> & Hp & Hf & Hs & Hn).
  exists (new_card l n i p :: news). rewrite <- app_assoc. split; [done|]. cbn [map]. rewrite Hp. split; [done|].
  split_and!.
  - constructor; [simpl; repeat split; simpl; lia|]. eapply Forall_impl; [exact Hf|]. simpl. intros c (? & ? & ?). split_and!; [done..|lia].
  - constructor; [done|]. eapply Forall_impl; [exact Hf|]. unfold higher. simpl. intros c (? & ? & ?). lia.
  - intros H. rewrite <- app_assoc in Hn. apply Hn. rewrite map_app, NoDup_app. split; [done|]. split.
    + intros x Hx Hx2. apply list_elem_of_singleton in Hx2. subst x.
      apply list_elem_of_fmap in Hx as (c & E & Hc). pose proof (new_id_fresh l) as Hfr.
      rewrite Forall_forall in Hfr. specialize (Hfr c Hc). simpl in E. lia.
    + apply NoDup_singleton.
Qed.

Lemma sorted_reverse l : StronglySorted higher l -> StronglySorted lower (reverse l).
Proof using Type.
  induction 1 as [|c l Hl IH Hc]; [constructor|]. rewrite reverse_cons. apply StronglySorted_app_2; [|done|repeat constructor].
  intros a b Ha Hb. apply list_elem_of_singleton in Hb. subst b. rewrite elem_of_reverse in Ha.
  rewrite Forall_forall in Hc. by apply Hc.
Qed.

Lemma draw_top db n g p d fuel :
  db_ok db -> plays db n g -> Game.current g = None -> Game.deck g = p :: d ->
  exists db', draw_a_card (S fuel) db n = Some db' /\ db_ok db' /\
    plays db' n {| Game.center := Game.center g; Game.deck := d; Game.current := Some (p, initial_lifetime, 0);
                   Game.pile := Game.pile g |} /\
    forall m h, m <> n -> plays db m h -> plays db' m h.
Proof using Type.
  intros Hok [Hcen (ds & cur & ps & Hlay)] Hcur Hdeck. pose proof (laid_out_parts _ _ _ _ _ Hlay) as (Pd & Pc & Pp).
  destruct Hlay as [Hl Hd Hs Hpr Hc Hp Hpile]. rewrite Hcur in Hc. rewrite Hdeck in Hpr.
  destruct cur as [|? [|]]; [|done..]. clear Hc. destruct ds as [|c ds]; [done|]. injection Hpr as Epr Hpr.
  destruct (sorted_top _ _ _ Pd Hs) as [rest E]. cbn [draw_a_card]. unfold at_pos. rewrite E.
  assert (c ∈ of_node n (cards db)) as Hin by (rewrite Hl; left). apply of_node_elem in Hin as [Hnode Hin].
  assert (forall x, x ∈ cards db -> id x = id c -> x = c) as Huniq.
  { intros x Hx Ex. by apply (NoDup_map_inj id (cards db)). }
  eexists. split; [done|]. set (f := fun x => if decide (id x = id c) then with_pos x InPlay else x).
  assert (forall x, node (f x) = node x) as Hfn by (intros x; unfold f; by destruct decide).
  split; [apply update_ok; [intros x; unfold f; by destruct decide|done]|]. split.
  - split; [done|]. exists ds, [with_pos c InPlay], ps. split; cbn [Game.deck Game.current Game.pile].
    + simpl. rewrite of_node_map, Hl by done. simpl.
      assert (NoDup (map id (c :: ds ++ ps))) as Hnd.
      { assert (NoDup (map id (of_node n (cards db)))) as H.
        { eapply sublist_NoDup; [exact Hok|]. apply fmap_sublist, sublist_filter. }
        by rewrite (Permutation_map id Hl) in H. }
      cbn [map] in Hnd. apply NoDup_cons in Hnd as [Hnot _].
      rewrite (map_id_on f (ds ++ ps)).
      * unfold f at 1. rewrite decide_True by done. by rewrite Permutation_middle.
      * intros x Hx. unfold f. rewrite decide_False; [done|]. intros Ex. apply Hnot. rewrite <- Ex.
        by apply (list_elem_of_fmap_2 id).
    + by apply Forall_cons in Hd as [_ ?].
    + by apply StronglySorted_inv in Hs as [? _].
    + done.
    + apply Forall_cons in Hd as [(? & ? & ?) _]. simpl. done.
    + done.
    + done.
  - intros m h Hm Hplay. apply plays_other; [done| |done]. intros x Hx Hxm. unfold f. rewrite decide_False; [done|].
    intros Ex. apply Huniq in Ex; [|done]. congruence.
Qed.

Context `{!Chance shuffle best}.

Lemma new_round db n g :
  db_ok db -> plays db n g -> Game.current g = None -> Game.deck g = [] ->
  exists c l, Game.next_center g c /\ l ≡ₚ prices_around c /\ db_ok (end_game_round db n) /\
    plays (end_game_round db n) n {| Game.center := c; Game.deck := l; Game.current := None; Game.pile := [] |} /\
    forall m h, m <> n -> plays db m h -> plays (end_game_round db n) m h.
Proof using All.
  intros Hok [Hcen (ds & cur & ps & Hlay)] Hcur Hdeck. pose proof (laid_out_parts _ _ _ _ _ Hlay) as (_ & _ & Pp).
  destruct Hlay as [_ _ _ _ _ _ Hpile].
  assert (map score (at_pos n Discarded db) ≡ₚ Game.pile g) as Hpile'.
  { rewrite <- Hpile. by apply Permutation_map. }
  set (db1 := update_centerprice db n).
  assert (cards db1 = cards db) as Ecards.
  { unfold db1, update_centerprice. destruct (best _) as [[? ?]|]; [|done]. by destruct (_ =? _). }
  assert (forall m, m <> n -> get_center_price db1 m = get_center_price db m) as Hother.
  { intros m Hm. unfold db1, update_centerprice, get_center_price.
    destruct (best _) as [[? ?]|]; [destruct (_ =? _); [done|]|]; simpl; by rewrite lookup_insert_ne. }
  assert (Game.next_center g (get_center_price db1 n)) as Hnext.
  { unfold db1, update_centerprice. change (map _ (at_pos n Discarded db)) with (map score (at_pos n Discarded db)).
    destruct (best _) as [[p e]|] eqn:Eb.
    - apply best_max in Eb as [Hin Hmax]. rewrite Hpile' in Hin, Hmax. destruct (Z.eqb_spec e 0) as [->|Hne].
      + rewrite Hcen. by apply (Game.next_same g p).
      + unfold get_center_price. simpl. rewrite lookup_insert_eq. by apply (Game.next_best g p e).
    - apply best_none in Eb. rewrite Eb in Hpile'. apply Permutation_nil_l in Hpile'.
      unfold get_center_price. simpl. rewrite lookup_insert_eq. by apply Game.next_first. }
  destruct (load_cards_spec n 0 (shuffle (prices_around (get_center_price db1 n))) (filter (fun c => node c <> n) (cards db)))
    as (news & El & Hpr & Hf & Hs & Hn).
  exists (get_center_price db1 n), (reverse (map price news)). split; [done|]. split.
  { rewrite reverse_Permutation, Hpr. apply shuffle_perm. }
  assert (cards (end_game_round db n) = filter (fun c => node c <> n) (cards db) ++ news) as Ec.
  { unfold end_game_round, reshuffle_deck. fold db1. simpl. by rewrite Ecards. }
  split_and!.
  - unfold db_ok. rewrite Ec. apply Hn. eapply sublist_NoDup; [exact Hok|]. apply fmap_sublist, sublist_filter.
  - split; [done|]. rewrite Ec. exists (reverse news), [], []. split; cbn [Game.deck Game.current Game.pile]; try done.
    + unfold of_node. rewrite filter_app, list_filter_filter. rewrite filter_none; [|apply Forall_forall; intros x Hx [? ?]; done].
      rewrite filter_every; [|eapply Forall_impl; [exact Hf|]; by intros c [? _]]. simpl. by rewrite app_nil_r, reverse_Permutation.
    + rewrite reverse_Permutation. eapply Forall_impl; [exact Hf|]. by intros c (_ & ? & _).
    + by apply sorted_reverse.
    + apply (fmap_reverse price).
  - intros m h Hm [Hcm Hlay]. split; [change (get_center_price db1 m = Game.center h); by rewrite Hother|].
    rewrite Ec. unfold of_node. rewrite filter_app, (filter_none _ news), app_nil_r.
    + rewrite list_filter_filter_l; [done|]. intros x <-. done.
    + eapply Forall_impl; [exact Hf|]. simpl. intros x [? _]. congruence.
Qed.

Lemma get_price_S f db n :
  get_price (S f) db n =
  match at_pos n InPlay db with
  | c :: _ => Some (db, price c)
  | [] => db ← draw_a_card (S f) db n; get_price f db n
  end.
Proof using Type. done. Qed.

(** Asking for the modifier of a peer is a move of its game, and of no other; two
    calls are enough. *)
Lemma fee_mod_plays db n g :
  db_ok db -> plays db n g ->
  exists db' fm g', get_fee_mod calls db n = Some (db', fm) /\ db_ok db' /\ Game.step g Game.Ask g' /\ plays db' n g' /\
    (exists life e, Game.current g' = Some (level fm, life, e)) /\ mid fm = Game.center g' /\
    forall m h, m <> n -> plays db m h -> plays db' m h.
Proof using All.
  intros Hok Hp. unfold get_fee_mod, calls.
  assert (forall fuel db1 g1 p life e, plays db1 n g1 -> Game.current g1 = Some (p, life, e) ->
    get_price fuel db1 n = Some (db1, p)) as Hin_play.
  { intros fuel db1 g1 p life e [_ (ds & cur & ps & Hlay)] Hcur. pose proof (laid_out_parts _ _ _ _ _ Hlay) as (_ & Pc & _).
    destruct Hlay as [_ _ _ _ Hc _ _]. rewrite Hcur in Hc. destruct cur as [|c [|]]; [done| |done].
    destruct Hc as (_ & Ep & _). destruct fuel; cbn [get_price]; unfold at_pos; rewrite Pc; by rewrite Ep. }
  assert (Game.current g = None -> at_pos n InPlay db = []) as Hnone.
  { intros Hcur. destruct Hp as [_ (ds & cur & ps & Hlay)]. pose proof (laid_out_parts _ _ _ _ _ Hlay) as (_ & Pc & _).
    destruct Hlay as [_ _ _ _ Hc _ _]. rewrite Hcur in Hc. destruct cur as [|c [|]]; done. }
  destruct (Game.current g) as [[[p life] e]|] eqn:Hcur.
  { rewrite (Hin_play _ _ _ _ _ _ Hp Hcur). cbn [mbind option_bind].
    eexists _, _, g. split; [done|]. split; [done|]. split; [by eapply Game.step_keep|]. split; [done|].
    split; [by rewrite Hcur; eauto|]. split; [apply Hp|done]. }
  rewrite get_price_S, Hnone by done.
  destruct (Game.deck g) as [|p d] eqn:Hdeck.
  - destruct (new_round db n g Hok Hp Hcur Hdeck) as (c & l & Hnext & Hl & Hok1 & Hp1 & Hother1).
    destruct l as [|p d]; [by apply Permutation_nil_cons in Hl|].
    destruct (draw_top _ n _ p d 0 Hok1 Hp1 eq_refl eq_refl) as (db2 & Ed & Hok2 & Hp2 & Hother2).
    assert (draw_a_card 2 db n = Some db2) as ->.
    { cbn [draw_a_card] in *. destruct (merge_sort above (at_pos n Deck db)) as [|x rest] eqn:Em; [exact Ed|]. exfalso.
      destruct Hp as [_ (ds & cur & ps & Hlay)]. pose proof (laid_out_parts _ _ _ _ _ Hlay) as (Pd & _ & _).
      destruct Hlay as [_ _ _ Hpr _ _ _]. rewrite Hdeck in Hpr. apply map_eq_nil in Hpr. subst ds.
      pose proof (merge_sort_Permutation above (at_pos n Deck db)) as Hm. unfold at_pos in Hm at 2. rewrite Em, Pd in Hm.
      symmetry in Hm. by apply Permutation_nil_cons in Hm. }
    cbn [mbind option_bind]. cbn [Game.center Game.pile] in Hp2. rewrite (Hin_play _ _ _ _ _ _ Hp2 eq_refl). cbn [mbind option_bind].
    eexists _, _, _. split; [done|]. split; [done|]. split; [by apply (Game.step_new g c p d)|]. split; [done|].
    split; [simpl; eauto|]. split; [apply Hp2|]. intros m h Hm Hh. apply Hother2; [done|]. by apply Hother1.
  - destruct (draw_top db n g p d 1 Hok Hp Hcur Hdeck) as (db2 & -> & Hok2 & Hp2 & Hother2). cbn [mbind option_bind].
    rewrite (Hin_play _ _ _ _ _ _ Hp2 eq_refl). cbn [mbind option_bind].
    eexists _, _, _. split; [done|]. split; [done|]. split; [by apply (Game.step_draw g p d)|]. split; [done|].
    split; [simpl; eauto|]. split; [apply Hp2|done].
Qed.

(** *** Rounds and fees *)

(** An update by a function on the cards, seen in the parts of a game. *)
Lemma laid_out_map l g g' ds cur ps f cur' ps' :
  laid_out l g ds cur ps -> (forall c, deck_card c -> f c = c) -> map f (cur ++ ps) ≡ₚ cur' ++ ps' ->
  Game.deck g' = Game.deck g -> current_is cur' (Game.current g') -> Forall (fun c => pos c = Discarded) ps' ->
  map score ps' ≡ₚ Game.pile g' -> laid_out (map f l) g' ds cur' ps'.
Proof using Type.
  intros [Hl Hd Hs Hpr _ _ _] Hf Hm Hdk Hc Hp Hpl. split; try done; [|by rewrite Hdk].
  rewrite (Permutation_map f Hl), map_app, Hm, map_id_on; [done|]. intros c Hc'. apply Hf. rewrite Forall_forall in Hd. by apply Hd.
Qed.

Lemma map_discarded f ps :
  (forall c, pos c = Discarded -> f c = c) -> Forall (fun c => pos c = Discarded) ps -> map f ps = ps.
Proof using Type. intros Hf H. apply map_id_on. rewrite Forall_forall in H. intros c Hc. by apply Hf, H. Qed.

Lemma rounds_spec connected l :
  NoDup connected ->
  foldl (fun l n => map (play_round n) l) l connected =
  map (fun c => if decide (node c ∈ connected /\ pos c = InPlay) then with_lifetime c (lifetime c - 1) else c) l.
Proof using Type.
  revert l. induction connected as [|n connected IH]; intros l Hnd; cbn [foldl].
  { rewrite map_id_on; [done|]. intros c _. rewrite decide_False; [done|]. intros [H%not_elem_of_nil _]. done. }
  apply NoDup_cons in Hnd as [Hn Hnd]. rewrite IH, map_map by done. apply map_ext. intros c. unfold play_round.
  destruct (decide (node c = n /\ pos c = InPlay)) as [[E Ep]|Hne].
  - rewrite (decide_True (P := node c ∈ n :: connected /\ pos c = InPlay)) by (split; [rewrite E; left|done]).
    rewrite decide_False; [done|]. simpl. intros [H _]. congruence.
  - destruct (decide (node c ∈ connected /\ pos c = InPlay)) as [[H Ep]|H].
    + by rewrite decide_True by (split; [by right|done]).
    + rewrite decide_False; [done|]. intros [[E|Hin]%elem_of_cons Ep]; tauto.
Qed.

Lemma peers_plays db connected :
  NoDup connected -> db_ok db ->
  db_ok (update_10_minutes db connected) /\
  forall n g, plays db n g -> Game.game_ok g ->
    exists g', Game.step g (Game.Round (bool_decide (n ∈ connected))) g' /\ plays (update_10_minutes db connected) n g'.
Proof using Type.
  intros Hnd Hok. unfold update_10_minutes. rewrite rounds_spec, map_map by done.
  set (f := fun c => discard _). split.
  { apply update_ok; [|done]. intros c. unfold f, discard. by repeat destruct decide. }
  assert (forall c, node (f c) = node c) as Hfn by (intros c; unfold f, discard; by repeat destruct decide).
  intros n g [Hc (ds & cur & ps & Hlay)] Hgok. pose proof Hlay as [Hl _ _ _ Hcur Hp Hpile].
  assert (forall c, pos c <> InPlay -> f c = c) as Hfid.
  { intros c Hne. unfold f, discard. rewrite (decide_False (P := node c ∈ connected /\ pos c = InPlay)) by tauto.
    by rewrite decide_False by tauto. }
  assert (map f ps = ps) as Eps by (apply map_discarded; [|done]; intros c E; apply Hfid; congruence).
  assert (forall c, deck_card c -> f c = c) as Hfd by (intros c [E _]; apply Hfid; congruence).
  assert (forall g', Game.center g' = Game.center g -> (exists cur' ps', laid_out (map f (of_node n (cards db))) g' ds cur' ps') ->
    plays (set_cards db (map f (cards db))) n g') as Hmk.
  { intros g' Hc' (cur' & ps' & H). split; [by rewrite Hc'|]. simpl. rewrite of_node_map by done. eauto. }
  destruct cur as [|c [|]]; [| |by destruct (Game.current g) as [[[? ?] ?]|]].
  - assert (Game.current g = None) as Hnone by (destruct (Game.current g) as [[[? ?] ?]|]; done).
    exists g. split.
    + destruct (bool_decide _); [|apply Game.step_away]. pose proof (Game.step_round g) as H.
      unfold Game.after_round in H. by rewrite Hnone in H.
    + apply Hmk; [done|]. exists [], ps. eapply laid_out_map; [exact Hlay|done| |done|by rewrite Hnone|done|done].
      simpl. by rewrite Eps.
  - destruct (Game.current g) as [[[p life] e]|] eqn:Hg; [|done]. destruct Hcur as (Epos & Epr & Elife & Ee).
    destruct (Game.ok_life g Hgok p life e Hg) as [Hlife _].
    assert (node c = n) as Hnode.
    { assert (c ∈ of_node n (cards db)) as H; [|by apply of_node_elem in H as [? _]].
      rewrite Hl. apply elem_of_app. right. left. }
    case_bool_decide as Hin.
    + exists (Game.after_round g). split; [apply Game.step_round|].
      assert (f c = if lifetime c - 1 <=? 0 then with_pos (with_lifetime c (lifetime c - 1)) Discarded
                    else with_lifetime c (lifetime c - 1)) as Efc.
      { unfold f, discard. rewrite (decide_True (P := node c ∈ connected /\ pos c = InPlay)) by (rewrite Hnode; done).
        simpl. destruct (Z.leb_spec (lifetime c - 1) 0); [by rewrite decide_True|]. rewrite decide_False; [done|lia]. }
      unfold Game.after_round. rewrite Hg. rewrite <- Elife. destruct (Z.leb_spec (lifetime c - 1) 0) as [Hz|Hz].
      * apply Hmk; [done|]. exists [], (ps ++ [f c]). eapply laid_out_map; [exact Hlay|done| |done|done|..].
        -- simpl. rewrite Eps. by rewrite <- Permutation_cons_append.
        -- apply Forall_app. split; [done|]. repeat constructor. by rewrite Efc.
        -- simpl. rewrite map_app, Hpile. simpl. rewrite Efc. unfold score. simpl. by rewrite Epr, Ee.
      * apply Hmk; [done|]. exists [f c], ps. eapply laid_out_map; [exact Hlay|done| |done| |done|done].
        -- simpl. by rewrite Eps.
        -- rewrite Efc. simpl. done.
    + exists g. split; [apply Game.step_away|]. apply Hmk; [done|]. exists [c], ps.
      eapply laid_out_map; [exact Hlay|done| |done| |done|done].
      * simpl. rewrite Eps. assert (f c = c) as ->; [|done]. unfold f, discard.
        rewrite (decide_False (P := node c ∈ connected /\ pos c = InPlay)) by (rewrite Hnode; tauto).
        rewrite decide_False; [done|lia].
      * by rewrite Hg.
Qed.

Lemma earn_all n fee l l' :
  mapM (earn n fee) l = Some l' ->
  l' = map (fun c => if decide (node c = n /\ pos c = InPlay) then with_earnings c (earnings c + fee) else c) l.
Proof using Type.
  revert l'. induction l as [|c l IH]; intros l' H; cbn in H; [by injection H as <-|].
  destruct (earn n fee c) as [c'|] eqn:Ec; [|done]. cbn in H.
  destruct (mapM (earn n fee) l) as [l2|]; [|done]. cbn in H. injection H as <-. cbn [map]. f_equal; [|by apply IH].
  unfold earn in Ec. destruct decide; [|by injection Ec as <-]. destruct (_ <? _); [|done]. by injection Ec as <-.
Qed.

Lemma fee_plays db n fee db' :
  db_ok db -> forward_fee db n fee = Some db' ->
  db_ok db' /\ (forall g, plays db n g -> plays db' n (Game.earned g fee)) /\
  forall m h, m <> n -> plays db m h -> plays db' m h.
Proof using Type.
  intros Hok. unfold forward_fee. destruct (mapM _ _) as [l|] eqn:E; [|done]. cbn [mbind option_bind]. intros [= <-].
  apply earn_all in E. subst l. set (f := fun c => if decide _ then _ else c).
  assert (forall c, node (f c) = node c) as Hfn by (intros c; unfold f; by destruct decide).
  split; [apply update_ok; [intros c; unfold f; by destruct decide|done]|]. split.
  - intros g [Hc (ds & cur & ps & Hlay)]. split; [by unfold Game.earned; destruct (Game.current g) as [[[? ?] ?]|]|].
    simpl. rewrite of_node_map by done. pose proof Hlay as [Hl _ _ _ Hcur Hp Hpile].
    assert (forall c, pos c <> InPlay -> f c = c) as Hfid by (intros c Hne; unfold f; by rewrite decide_False by tauto).
    exists ds, (map f cur), ps. eapply laid_out_map; [exact Hlay| | |..].
    + intros c [Ec _]. apply Hfid. congruence.
    + rewrite map_app. rewrite (map_discarded f ps); [done| |done]. intros c Ec. apply Hfid. congruence.
    + unfold Game.earned. by destruct (Game.current g) as [[[? ?] ?]|].
    + destruct cur as [|c [|]]; unfold Game.earned; destruct (Game.current g) as [[[p life] e]|] eqn:Hg; try (by rewrite ?Hg); try done.
      destruct Hcur as (Epos & Epr & El & Ee). simpl. unfold f. rewrite decide_True; [simpl; by rewrite Ee|].
      split; [|done]. assert (c ∈ of_node n (cards db)) as H; [|by apply of_node_elem in H as [? _]].
      rewrite Hl. apply elem_of_app. right. left.
    + done.
    + rewrite Hpile. unfold Game.earned. by destruct (Game.current g) as [[[? ?] ?]|].
  - intros m h Hm Hplay. apply plays_other; [done| |done]. intros c _ Ec. unfold f. rewrite decide_False; [done|].
    intros [? _]. congruence.
Qed.

End Table.

(** *** The events of the module *)

(** A request comes with the shuffle that it makes if it needs new cards: it makes one at
    most. *)
Inductive Event :=
| Solicited (n : Node) (shuffle : list Z -> list Z)
| Peers (connected : list Node)
| ForwardFee (n : Node) (fee : Amount).

Section Events.

Context (best : list (Z * Z) -> option (Z * Z)).

Definition handle (db : Db) (e : Event) : option Db :=
  match e with
  | Solicited n shuffle => '(db, _) ← get_fee_mod shuffle best calls db n; Some db
  | Peers connected => Some (update_10_minutes db connected)
  | ForwardFee n fee => forward_fee db n fee
  end.

Fixpoint run (db : Db) (es : list Event) : option Db :=
  match es with
  | [] => Some db
  | e :: es => db ← handle db e; run db es
  end.

(** What an event is in the game of a peer. *)
Definition act_of (n : Node) (e : Event) : list Game.Act :=
  match e with
  | Solicited m _ => if decide (m = n) then [Game.Ask] else []
  | Peers connected => [Game.Round (bool_decide (n ∈ connected))]
  | ForwardFee m fee => if decide (m = n) then [Game.Earn fee] else []
  end.

Context `{!BestRow best}.

(** *** All events *)

Definition event_ok (e : Event) : Prop :=
  match e with
  | Solicited _ shuffle => forall l, shuffle l ≡ₚ l
  | Peers connected => NoDup connected
  | ForwardFee _ fee => 0 <= fee
  end.

Definition acts (n : Node) (es : list Event) : list Game.Act := concat (map (act_of n) es).

Lemma acts_ok n es : Forall event_ok es -> Forall Game.act_ok (acts n es).
Proof using Type.
  intros H. unfold acts. apply Forall_concat, Forall_fmap. eapply Forall_impl; [exact H|]. intros [m sh|l|m fee] He; simpl in *.
  - destruct decide; by repeat constructor.
  - by repeat constructor.
  - destruct decide; by repeat constructor.
Qed.

(** The tables hold, for each peer, a game that its events lead to. *)
Definition all_play (db : Db) (past : list Event) : Prop :=
  db_ok db /\ Forall event_ok past /\ forall n, exists g, Game.reaches Game.fresh (acts n past) g /\ plays db n g.

Lemma acts_snoc n past e : acts n (past ++ [e]) = acts n past ++ act_of n e.
Proof using Type. unfold acts. by rewrite map_app, concat_app; simpl; rewrite app_nil_r. Qed.

Lemma reached_ok n past g : Forall event_ok past -> Game.reaches Game.fresh (acts n past) g -> Game.game_ok g.
Proof using Type. intros H. apply Game.reaches_ok; [apply Game.fresh_ok|by apply acts_ok]. Qed.

Lemma empty_plays : all_play empty [].
Proof using Type.
  split; [constructor|]. split; [done|]. intros n. exists Game.fresh. split; [constructor|].
  split; [unfold get_center_price; simpl; by rewrite lookup_empty|]. exists [], [], []. by repeat constructor.
Qed.

Lemma handle_plays db past e db' : all_play db past -> event_ok e -> handle db e = Some db' -> all_play db' (past ++ [e]).
Proof using All.
  intros (Hok & Hev & Hall) He Eh.
  assert (db_ok db' /\ forall n g, plays db n g -> Game.game_ok g -> exists g',
    (act_of n e = [] /\ g' = g \/ exists a, act_of n e = [a] /\ Game.step g a g') /\ plays db' n g') as [H1 H2].
  { destruct e as [m sh|connected|m fee]; cbn [handle] in Eh.
    - destruct (Hall m) as (gm & _ & Hpm). pose proof (Build_Chance sh best He BestRow0) as Hch.
      destruct (fee_mod_plays sh best db m gm Hok Hpm) as (db2 & fm & g' & E & Hok2 & Hs & Hp2 & _ & _ & Ho).
      rewrite E in Eh. cbn [mbind option_bind] in Eh. injection Eh as <-. split; [done|]. intros n g Hp _. simpl.
      destruct decide as [->|Hne]; [|exists g; split; [by left|by apply Ho]].
      destruct (fee_mod_plays sh best db n g Hok Hp) as (db3 & fm3 & g3 & E3 & _ & Hs3 & Hp3 & _ & _ & _).
      rewrite E in E3. injection E3 as <- <-. exists g3. split; [right; eauto|done].
    - injection Eh as <-. destruct (peers_plays db connected He Hok) as [H1 H2]. split; [done|]. intros n g Hp Hg.
      destruct (H2 n g Hp Hg) as (g' & Hs & Hp'). exists g'. split; [right; simpl; eauto|done].
    - destruct (fee_plays db m fee db' Hok Eh) as (H1 & H2 & H3). split; [done|]. intros n g Hp _. simpl.
      destruct decide as [->|Hne].
      + exists (Game.earned g fee). split; [right; eauto using Game.step_earn|by apply H2].
      + exists g. split; [by left|by apply H3]. }
  split; [done|]. split; [apply Forall_app; split; [done|by repeat constructor]|]. intros n.
  destruct (Hall n) as (g & Hr & Hp). destruct (H2 n g Hp (reached_ok _ _ _ Hev Hr)) as (g' & Hs & Hp').
  exists g'. split; [|done]. rewrite acts_snoc. destruct Hs as [[-> ->]|(a & -> & Hs)]; [by rewrite app_nil_r|].
  by eapply Game.reaches_snoc.
Qed.

Lemma run_plays db past es db' :
  all_play db past -> Forall event_ok es -> run db es = Some db' -> all_play db' (past ++ es).
Proof using All.
  intros Hp He. revert db past Hp. induction He as [|e es He Hes IH]; intros db past Hp; cbn [run].
  { intros [= <-]. by rewrite app_nil_r. }
  destruct (handle db e) as [db1|] eqn:E; [|done]. cbn [mbind option_bind]. intros Hr.
  rewrite (app_assoc past [e] es : past ++ e :: es = _). eapply IH; [|exact Hr]. by eapply handle_plays.
Qed.

End Events.

(** C13: Whatever the events and the shuffles, the tables play the card game of every peer by its rules,
    and nothing else happens to it: its cards are those of a game that the events of
    this peer lead to.  The next request for the peer's modifier returns, in two calls
    at most, with the price of the card in play after that move, and leaves the games
    of the other peers as they are. *)
Theorem tables_play_the_game shuffle best es db n :
  Chance shuffle best -> Forall event_ok es -> run best empty es = Some db ->
  exists g, Game.reaches Game.fresh (acts n es) g /\ plays db n g /\
    exists db' fm g', get_fee_mod shuffle best calls db n = Some (db', fm) /\ Game.step g Game.Ask g' /\ plays db' n g' /\
      (exists life e, Game.current g' = Some (level fm, life, e)) /\ mid fm = Game.center g' /\
      forall m h, m <> n -> plays db m h -> plays db' m h.
Proof.
  intros Hch He Hr. destruct (run_plays best empty [] es db empty_plays He Hr) as (Hok & _ & Hall).
  destruct (Hall n) as (g & Hg & Hp). exists g. split; [done|]. split; [done|].
  destruct (fee_mod_plays shuffle best db n g Hok Hp) as (db' & fm & g' & E & _ & Hs & Hp' & Hc & Hm & Ho).
  exists db', fm, g'. done.
Qed.

Lemma discarded_pile db n g ds cur ps :
  laid_out (of_node n (cards db)) g ds cur ps -> at_pos n Discarded db ≡ₚ ps.
Proof.
  intros [Hc Hd _ _ Hcur Hp _]. unfold at_pos. rewrite Hc, !filter_app.
  rewrite (filter_none (fun c => pos c = Discarded) ds), (filter_none (fun c => pos c = Discarded) cur), (filter_every (fun c => pos c = Discarded) ps).
  - done.
  - done.
  - destruct cur as [|c [|]], (Game.current g) as [[[? ?] ?]|]; simpl in Hcur; try done. destruct Hcur as (E & _).
    repeat constructor. by rewrite E.
  - eapply Forall_impl; [exact Hd|]. intros c (E & _). by rewrite E.
Qed.

(** Whatever the events and the shuffles, a peer's price is always within two steps
    of its center price.  A request moves the center only when the five cards around
    the old one were all discarded, and then to the price of the card that earned most,
    which is more than nothing.  A discarded card was in play for exactly 288 ten-minute
    rounds with the peer connected, and its earnings are the fees of the peer's forwards
    in that time. *)
Theorem center_follows_earnings shuffle best es db n db' fm :
  Chance shuffle best -> Forall event_ok es -> run best empty es = Some db ->
  get_fee_mod shuffle best calls db n = Some (db', fm) ->
  mid fm = get_center_price db' n /\ mid fm - 2 <= level fm <= mid fm + 2 /\
  (get_center_price db' n <> get_center_price db n ->
     map price (at_pos n Discarded db) ≡ₚ prices_around (get_center_price db n) /\
     exists c, c ∈ at_pos n Discarded db /\ price c = get_center_price db' n /\ 0 < earnings c /\
       Forall (fun d => earnings d <= earnings c) (at_pos n Discarded db)) /\
  Forall (fun c => exists l m, l `prefix_of` acts n es /\ Game.since_draw l (price c) m /\
                     Game.rounds m = initial_lifetime /\ Game.fees m = earnings c) (at_pos n Discarded db).
Proof.
  intros Hch He Hr Hf. destruct (run_plays best empty [] es db empty_plays He Hr) as (Hok & _ & Hall).
  destruct (Hall n) as (g & Hg & Hp). simpl in Hg.
  destruct (fee_mod_plays shuffle best db n g Hok Hp) as (db2 & fm2 & g' & E & _ & Hs & Hp' & (life & e & Hc) & Hm & _).
  rewrite Hf in E. injection E as <- <-.
  destruct (center_rule _ g g' (acts_ok n es He) Hg Hs) as ((p & life' & e' & Hc' & Hrange) & Hmove & Hpile).
  pose proof (pl_center _ _ _ Hp) as Eg. pose proof (pl_center _ _ _ Hp') as Eg'.
  destruct (pl_cards _ _ _ Hp) as (ds & cur & ps & Hlay). pose proof (discarded_pile _ _ _ _ _ _ Hlay) as Hdis.
  pose proof (lo_pile _ _ _ _ _ Hlay) as Hps.
  assert (forall P, Forall P (Game.pile g) <-> Forall (fun c => P (score c)) (at_pos n Discarded db)) as Hall2.
  { intros P. rewrite <- Hps, Hdis. exact (Forall_map score P ps). }
  split_and!.
  - by rewrite Hm, Eg'.
  - rewrite Hc in Hc'. injection Hc' as <- _ _. lia.
  - rewrite Hc in Hc'. injection Hc' as <- _ _. lia.
  - rewrite Eg, Eg'. intros Hne. destruct (Hmove Hne) as (Hperm & m & Hin & Hpos & Hmax). split.
    + rewrite <- Hperm, Hdis, <- Hps. rewrite map_map. done.
    + rewrite <- Hps in Hin. apply list_elem_of_fmap in Hin as (c & Ec & Hin). injection Ec as -> ->.
      exists c. rewrite Hdis. split; [done|]. split; [done|]. split; [done|]. rewrite <- Hdis. by apply (Hall2 (fun y => y.2 <= earnings c)).
  - by apply (Hall2 (fun y => exists l m, l `prefix_of` acts n es /\ Game.since_draw l y.1 m /\ Game.rounds m = initial_lifetime /\ Game.fees m = y.2)).
Qed.

(** *** A sample run *)

(** The first of the best rows. *)
Definition first_best (l : list (Z * Z)) : option (Z * Z) :=
  foldr (fun x o => match o with Some y => if x.2 <? y.2 then Some y else Some x | None => Some x end) None l.

#[global] Instance no_chance : Chance (fun l => l) first_best.
Proof.
  split; [done|split].
  - intros [|x l]; [done|]. split; [|done]. simpl. destruct (first_best l) as [y|]; [|done]. by destruct (_ <? _).
  - intros l. induction l as [|y l IH]; intros x; [done|]. simpl. destruct (first_best l) as [z|] eqn:E.
    + destruct (IH z eq_refl) as [Hz Hmax]. destruct (Z.ltb_spec y.2 z.2); intros [= <-].
      * split; [by right|]. constructor; [lia|done].
      * split; [left|]. constructor; [lia|]. eapply Forall_impl; [exact Hmax|]. simpl. intros w Hw. lia.
    + intros [= <-]. destruct l as [|w l]; [|simpl in E; destruct (first_best l) as [u|]; [by destruct (_ <? _)|done]].
      split; [left|]. by repeat constructor.
Qed.

Definition demo_events : list Event := [Solicited None reverse; Peers [None]; ForwardFee None 500].
Definition demo_db : Db := Eval vm_compute in default empty (run first_best empty demo_events).

Lemma tables_play_the_game_witness :
  exists g, Game.reaches Game.fresh (acts None demo_events) g /\ plays demo_db None g.
Proof.
  destruct (tables_play_the_game (fun l => l) first_best demo_events demo_db None) as (g & Hg & Hp & _).
  - apply no_chance.
  - constructor; [intros l; apply reverse_Permutation|]. repeat constructor; [set_solver|simpl; lia].
  - vm_compute. reflexivity.
  - exists g. split; [exact Hg|exact Hp].
Defined.

Example demo_db_cards : map (fun c => (price c, lifetime c, earnings c)) (at_pos None InPlay demo_db) = [(0, 287, 500)].
Proof. vm_compute. reflexivity. Qed.

(** Five cards are played to the end, the one of price 2 earns most: it is the next center. *)
Definition demo_game : list Event :=
  concat (map (fun fee => Solicited None (fun l => l) :: ForwardFee None fee :: replicate 288 (Peers [None])) [0; 7; 3; 0; 1]).
Definition demo_over : Db := Eval vm_compute in default empty (run first_best empty demo_game).
Definition demo_answer : Db * FeeMod :=
  Eval vm_compute in default (empty, {| level := 0; mid := 0; cards_left := 0 |}) (get_fee_mod (fun l => l) first_best calls demo_over None).

Lemma center_follows_earnings_witness :
  mid demo_answer.2 = 2 /\ level demo_answer.2 = 0 /\
  exists c, c ∈ at_pos None Discarded demo_over /\ price c = 2 /\ 0 < earnings c.
Proof.
  split; [reflexivity|]. split; [reflexivity|].
  destruct (center_follows_earnings (fun l => l) first_best demo_game demo_over None demo_answer.1 demo_answer.2) as (_ & _ & H & _).
  - apply no_chance.
  - apply Forall_concat, Forall_fmap, Forall_forall. intros fee Hfee. unfold compose. constructor; [intros l; reflexivity|].
    constructor; [unfold event_ok; set_unfold; lia|]. apply Forall_replicate, NoDup_singleton.
  - vm_compute. reflexivity.
  - vm_compute. reflexivity.
  - destruct H as (_ & c & H1 & H2 & H3 & _); [vm_compute; discriminate|]. exists c. split_and!; [done|exact H2|done].
Defined.

End Table.
