(* ===== verification/ChannelFees.v ===== *)
(** * Channel fees

    - [Balance] (src/Boss/Mod/FeeModderByBalance.cpp): a fee multiplier from the bin
      that our part of a channel falls in;
    - [Size] (src/Boss/Mod/FeeModderBySize.cpp): a multiplier from how many competitors
      have less capacity than we;
    - [FeeManager] (src/Boss/Mod/ChannelFeeManager.cpp): the fees of a channel, from the
      median of the competitors and the multipliers.

    The functions of libm, [exp], [log] and [sqrt], and the random draws are parameters.
    [None] stands for undefined behaviour, here the conversion of a double that does not
    fit an integer, and for a failed assertion. *)

From stdpp Require Import base list numbers strings gmap sets.
From Stdlib Require Import QArith Qround Lqa.
From S2P Require Import Prelude.
From S2P Require Import Double.
From S2P Require Import Amount.
From S2P Require Import LnIds.
From S2P Require Import Jsmn.
From S2P Require Import Reply.
From S2P Require Import Peers.
Import Jsmn.
Import Reply.

#[local] Open Scope Z_scope.
#[local] Open Scope reply_scope.

Abbreviation Node := NodeId.t.

(** Integers up to [2^53] are exact doubles; quotients and products stay in range. *)
Lemma d_of_Z_le a b : a <= b -> dle (d_of_Z a) (d_of_Z b) = true.
Proof. intros H. apply RN_le. by rewrite <- Zle_Qle. Qed.

Lemma floor_bounds q n : (0 <= q <= inject_Z n)%Q -> 0 <= Qfloor q <= n.
Proof.
  intros [H1 H2]. split.
  - rewrite <- (Qfloor_Z 0). by apply Qfloor_resp_le.
  - rewrite <- (Qfloor_Z n). by apply Qfloor_resp_le.
Qed.

Lemma floor_to_u64 q n :
  (0 <= q <= inject_Z n)%Q -> n < 2 ^ 64 -> d_to_u64 (dfloor (Fin q)) = Some (Qfloor q).
Proof. intros Hq Hn. apply d_to_u64_Z. pose proof (floor_bounds q n Hq). unfold is_u64. lia. Qed.

(** ** The multiplier from the balance *)

Module Balance.

Record Info := { bin : Z; num_bins : Z; last_to_us : Amount; last_total : Amount }.

Abbreviation Infomap := (gmap Node Info).

(** [Ln::Amount::btc(0.002)] *)
Definition preferred_bin_size : Amount := default 0 (Amount.btc (RN (2 # 1000))).
Definition min_bins : Z := 4.
Definition max_bins : Z := 50.

Example preferred_bin_size_value : Amount.btc (RN (2 # 1000)) = Some 200000000.
Proof. vm_compute. reflexivity. Qed.

Definition get_num_bins (channel_size : Amount) : option Z :=
  raw ← d_to_u64 (dround (Amount.ratio channel_size preferred_bin_size));
  Some (if raw <? min_bins then min_bins else if max_bins <? raw then max_bins else raw).

Definition get_bin (to_us channel_size : Amount) (num_bins : Z) : double :=
  dmul (Amount.ratio to_us channel_size) (d_of_Z num_bins).

(** The first channel in a normal state; a malformed reply counts as none. *)
Fixpoint find_channel (l : list json) : outcome (option ChannelBalance) :=
  match l with
  | [] => inl None
  | c :: l =>
      let* state_j := get (Some c) "state" in
      let* state := text state_j in
      if negb (bool_decide (state = lit "CHANNELD_NORMAL")) && negb (bool_decide (state = lit "CHANNELD_AWAITING_SPLICE"))
      then find_channel l
      else let* bal := channel_balance c in inl (Some bal)
  end.

Definition get_channel_specs (res : json) : option (option ChannelBalance) :=
  match (let* cs := get (Some res) "channels" in let* l := lift (jelements cs) in find_channel l) with
  | inl cs => Some cs
  | inr Undefined => None
  | inr _ => Some None
  end.

Section Balance.

Context (exp log : double -> double).

Definition get_ratio (our_percentage : double) : double :=
  exp (dmul (log (d_of_Z 50)) (dsub (RN (1 # 2)) our_percentage)).

Definition get_ratio_by_bin (bin num_bins : Z) : option double :=
  if bin <? num_bins then
    Some (get_ratio (ddiv (d_of_Z (u64 (1 + u64 (bin * 2)))) (d_of_Z (u64 (num_bins * 2)))))
  else None.

Definition get_ratio_from_info (i : Info) : option double := get_ratio_by_bin (bin i) (num_bins i).

Definition set_starting_info (m : Infomap) (node : Node) (cs : option ChannelBalance) : option (Infomap * double) :=
  match cs with
  | None => Some (m, d_of_Z 1)
  | Some cs =>
      n ← get_num_bins (total cs);
      b ← d_to_u64 (dfloor (get_bin (to_us cs) (total cs) n));
      let b := if n <=? b then n - 1 else b in
      let info := {| bin := b; num_bins := n; last_to_us := to_us cs; last_total := total cs |} in
      mult ← get_ratio_from_info info;
      Some (<[node := info]> m, mult)
  end.

(** The bin after a change of the balance: next to the target, on our side of it or
    in it, as the draw says. *)
Definition move_bin (info : Info) (actual_bin : double) (target_bin : Z) (draw : double) : Z :=
  if target_bin <? bin info then
    let prob := dsub (d_of_Z 1) (dsub actual_bin (d_of_Z target_bin)) in
    if dlt draw prob then target_bin else u64 (target_bin + 1)
  else
    let prob := dsub actual_bin (d_of_Z target_bin) in
    let b := if dlt draw prob then target_bin else u64 (target_bin - 1) in
    if num_bins info <=? b then u64 (num_bins info - 1) else b.

Definition update_info (info : Info) (cs : ChannelBalance) (draw : double) : option Info :=
  let actual_bin := get_bin (to_us cs) (total cs) (num_bins info) in
  target_bin ← d_to_u64 (dfloor actual_bin);
  Some (if target_bin =? bin info then info
        else {| bin := move_bin info actual_bin target_bin draw; num_bins := num_bins info;
                last_to_us := to_us cs; last_total := last_total info |}).

Definition get_multiplier (m : Infomap) (node : Node) (cs : option ChannelBalance) (draw : double)
    : option (Infomap * double) :=
  match m !! node, cs with
  | None, _ => set_starting_info m node cs
  | Some info, None => mult ← get_ratio_from_info info; Some (m, mult)
  | Some info, Some bal =>
      if (last_to_us info =? to_us bal) && (last_total info =? total bal) then
        mult ← get_ratio_from_info info; Some (m, mult)
      else if negb (last_total info =? total bal) then set_starting_info m node cs
      else
        info' ← update_info info bal draw;
        mult ← get_ratio_from_info info';
        Some (<[node := info']> m, mult)
  end.

(** *** The events of the module *)

Inductive Event :=
| Solicited (node : Node) (reply : json) (draw : double)
| ChannelDestruction (node : Node).

Definition handle (m : Infomap) (e : Event) : option Infomap :=
  match e with
  | Solicited node reply draw =>
      cs ← get_channel_specs reply;
      '(m, _) ← get_multiplier m node cs draw;
      Some m
  | ChannelDestruction node => Some (delete node m)
  end.

Fixpoint run (m : Infomap) (es : list Event) : option Infomap :=
  match es with
  | [] => Some m
  | e :: es => m ← handle m e; run m es
  end.

(** *** The bins *)

(** What the node reports of a channel. *)
Definition specs_ok (cs : ChannelBalance) : Prop := 0 <= to_us cs <= total cs /\ 0 < total cs < 2 ^ 64.

(** The bin that the balance is in. *)
Definition target (cs : ChannelBalance) (n : Z) : Z :=
  match get_bin (to_us cs) (total cs) n with Fin q => Qfloor q | _ => 0 end.

Lemma d_of_Z_fin z : 0 <= z < 2 ^ 64 -> exists x, d_of_Z z = Fin x /\ (0 <= x <= pow2 64)%Q /\ (1 <= z -> (1 <= x)%Q).
Proof using Type.
  intros Hz. assert (inject_Z z <= inject_Z (2 ^ 64))%Q as Hq by (rewrite <- Zle_Qle; lia).
  assert (0 <= inject_Z z)%Q as H0 by (change 0%Q with (inject_Z 0); rewrite <- Zle_Qle; lia).
  pose proof (pow2_le 64 1023 ltac:(lia)) as Hp. rewrite (pow2_Z 64) in Hp by lia.
  destruct (RN_finite (inject_Z z)) as (x & Ex & Hx & _); [done|lra|]. exists x. split; [done|].
  assert (dle (Fin x) (RN (inject_Z (2 ^ 64))) = true) as Hu by (rewrite <- Ex; by apply RN_le).
  change (RN (inject_Z (2 ^ 64))) with (d_of_Z (2 ^ 64)) in Hu.
  replace (d_of_Z (2 ^ 64)) with (Fin (pow2 64)) in Hu by (vm_compute; reflexivity). apply dle_Fin in Hu.
  split; [done|]. intros H1. assert (dle (d_of_Z 1) (d_of_Z z) = true) as Hl by (by apply d_of_Z_le).
  unfold d_of_Z in Hl at 2. rewrite Ex in Hl. replace (d_of_Z 1) with (Fin 1) in Hl by (vm_compute; reflexivity).
  by apply dle_Fin in Hl.
Qed.

(** A part of a whole is a number from 0 to 1. *)
Lemma ratio_unit a t : 0 <= a <= t -> 0 < t < 2 ^ 64 -> exists r, Amount.ratio a t = Fin r /\ (0 <= r <= 1)%Q.
Proof using Type.
  intros Ha Ht. destruct (d_of_Z_fin a) as (x & Ex & Hx & _); [lia|].
  destruct (d_of_Z_fin t) as (y & Ey & _ & Hy); [lia|]. specialize (Hy ltac:(lia)).
  assert (x <= y)%Q as Hxy. { apply dle_Fin. rewrite <- Ex, <- Ey. apply d_of_Z_le. lia. }
  unfold Amount.ratio. rewrite Ex, Ey. simpl. destruct (Qeq_bool y 0) eqn:E0; [apply Qeq_bool_eq in E0; lra|].
  assert (0 <= x / y <= 1)%Q as [H0 H1].
  { split; [apply Qle_shift_div_l; lra|apply Qle_shift_div_r; lra]. }
  destruct (RN_finite (x / y)) as (r & Er & Hr & _); [done|pose proof (pow2_ge_1 1023 ltac:(lia)); lra|].
  exists r. split; [done|]. split; [done|]. apply dle_Fin. rewrite <- Er. change (Fin 1) with (RN 1). by apply RN_le.
Qed.

Lemma get_bin_range cs n :
  specs_ok cs -> 0 < n <= max_bins ->
  exists q, get_bin (to_us cs) (total cs) n = Fin q /\ (0 <= q <= inject_Z n)%Q.
Proof using Type.
  intros [Ha Ht] Hn. unfold max_bins in Hn. destruct (ratio_unit (to_us cs) (total cs) Ha Ht) as (r & Er & Hr).
  unfold get_bin. rewrite Er, d_of_Z_exact by lia. simpl.
  assert (0 < inject_Z n)%Q by (change 0%Q with (inject_Z 0); rewrite <- Zlt_Qlt; lia).
  assert (inject_Z n <= 50)%Q by (change 50%Q with (inject_Z 50); rewrite <- Zle_Qle; lia).
  destruct (RN_finite (r * inject_Z n)) as (q & Eq & Hq & _); [nra|pose proof (pow2_le 10 1023 ltac:(lia)) as L;
    change (pow2 10) with 1024%Q in L; nra|].
  exists q. split; [done|]. split; [done|]. apply dle_Fin. rewrite <- Eq.
  replace (Fin (inject_Z n)) with (d_of_Z n) by (apply d_of_Z_exact; lia). apply RN_le. nra.
Qed.

Lemma target_bin_eq cs n :
  specs_ok cs -> 0 < n <= max_bins ->
  d_to_u64 (dfloor (get_bin (to_us cs) (total cs) n)) = Some (target cs n) /\ 0 <= target cs n <= n.
Proof using Type.
  intros Hcs Hn. destruct (get_bin_range cs n Hcs Hn) as (q & Eq & Hq). unfold target. rewrite Eq.
  split; [apply (floor_to_u64 q n Hq); unfold max_bins in Hn; lia|by apply floor_bounds].
Qed.

Lemma get_num_bins_range t : 0 <= t < 2 ^ 64 -> exists n, get_num_bins t = Some n /\ min_bins <= n <= max_bins.
Proof using Type.
  intros Ht. destruct (d_of_Z_fin t Ht) as (x & Ex & Hx & _). unfold get_num_bins, Amount.ratio. rewrite Ex.
  replace (d_of_Z preferred_bin_size) with (Fin 200000000) by (vm_compute; reflexivity). cbn [ddiv Qeq_bool].
  destruct (RN_near (x / 200000000) 40) as (r & Er & Hr0 & Hr); [| |lia|].
  - apply Qle_shift_div_l; lra.
  - apply Qle_shift_div_r; [lra|]. apply (Qle_trans _ (pow2 64)); [lra|]. vm_compute. discriminate.
  - change (Qeq_bool 200000000 0) with false. cbv iota. rewrite Er. cbn [dround].
    pose proof (proj2 (Qle_bool_iff 0 r) Hr0) as ->.
    assert (0 <= Qfloor (r + (1 # 2)) <= 2 ^ 41) as Hf.
    { apply floor_bounds. split; [lra|]. assert (x / 200000000 <= pow2 37)%Q.
      - apply Qle_shift_div_r; [lra|]. apply (Qle_trans _ (pow2 64)); [lra|]. vm_compute. discriminate.
      - change (pow2 (40 - 52)) with (1 # 4096)%Q in Hr. change (pow2 37) with (137438953472 # 1)%Q in *.
        change (inject_Z (2 ^ 41)) with (2199023255552 # 1)%Q. lra. }
    rewrite d_to_u64_Z by (unfold is_u64; lia). cbn [mbind option_bind].
    eexists. split; [reflexivity|]. unfold min_bins, max_bins. split_ifs; lia.
Qed.


Definition last_specs (i : Info) : ChannelBalance := {| to_us := last_to_us i; total := last_total i |}.

Record info_ok (i : Info) : Prop := {
  ok_specs : specs_ok (last_specs i);
  ok_bins : get_num_bins (last_total i) = Some (num_bins i) /\ min_bins <= num_bins i <= max_bins;
  ok_bin : 0 <= bin i < num_bins i;
  ok_near : target (last_specs i) (num_bins i) - 1 <= bin i <= target (last_specs i) (num_bins i) + 1
}.

Definition map_ok (m : Infomap) : Prop := map_Forall (fun _ i => info_ok i) m.

Lemma ratio_defined i : info_ok i -> exists mult, get_ratio_from_info i = Some mult.
Proof using Type.
  intros H. unfold get_ratio_from_info, get_ratio_by_bin. pose proof (ok_bin i H) as [_ Hb].
  apply Z.ltb_lt in Hb. rewrite Hb. by eexists.
Qed.

(** A draw moves the bin from where it was towards the target, to a bin next to it. *)
Lemma move_bin_spec i q t draw :
  0 <= t <= num_bins i -> 0 <= bin i < num_bins i -> num_bins i <= max_bins -> t <> bin i ->
  let b := move_bin i q t draw in
  0 <= b < num_bins i /\ t - 1 <= b <= t + 1 /\ (t < bin i -> t <= b <= bin i) /\ (bin i < t -> bin i <= b <= t).
Proof using Type.
  intros Ht Hb Hn Hne. unfold max_bins in Hn. cbv zeta. unfold move_bin. destruct (Z.ltb_spec t (bin i)).
  - destruct dlt; [lia|]. rewrite u64_id by ulia. lia.
  - rewrite !u64_id by ulia. destruct dlt; destruct (Z.leb_spec (num_bins i) t), (Z.leb_spec (num_bins i) (t - 1)); lia.
Qed.

Lemma starting_ok m node cs :
  map_ok m -> specs_ok cs ->
  exists i mult, set_starting_info m node (Some cs) = Some (<[node := i]> m, mult) /\ info_ok i /\
    get_ratio_from_info i = Some mult /\ last_specs i = cs /\ bin i = Z.min (target cs (num_bins i)) (num_bins i - 1).
Proof using Type.
  intros Hm Hcs. destruct (get_num_bins_range (total cs)) as (n & En & Hn); [destruct Hcs; lia|].
  unfold min_bins in Hn. destruct (target_bin_eq cs n Hcs) as [Et Ht]; [lia|].
  unfold set_starting_info. rewrite En. cbn [mbind option_bind]. rewrite Et. cbn [mbind option_bind].
  set (b := if n <=? target cs n then n - 1 else target cs n).
  assert (b = Z.min (target cs n) (n - 1)) as Eb by (unfold b; destruct (Z.leb_spec n (target cs n)); lia).
  set (i := {| bin := b; num_bins := n; last_to_us := to_us cs; last_total := total cs |}).
  assert (last_specs i = cs) as El by (by destruct cs).
  assert (info_ok i) as Hi. { split; rewrite ?El; simpl; unfold min_bins; [done|done|lia|lia]. }
  destruct (ratio_defined i Hi) as (mult & Em). rewrite Em. cbn [mbind option_bind]. by exists i, mult.
Qed.

(** How the bin of a channel with information [i] changes to that of [i']. *)
Definition moved (i i' : Info) (cs : ChannelBalance) : Prop :=
  let t := target cs (num_bins i) in
  num_bins i' = num_bins i /\ t - 1 <= bin i' <= t + 1 /\
  (t <= bin i -> t <= bin i' <= bin i) /\ (bin i <= t -> bin i <= bin i' <= t).

Lemma update_info_ok i cs draw :
  info_ok i -> specs_ok cs -> total cs = last_total i ->
  exists i', update_info i cs draw = Some i' /\ info_ok i' /\ moved i i' cs.
Proof using Type.
  intros Hi Hcs Et. pose proof Hi as [Hs [En Hn] Hb Hnear].
  destruct (target_bin_eq cs (num_bins i) Hcs) as [Eb Ht]; [unfold min_bins in Hn; lia|].
  unfold update_info. rewrite Eb. cbn [mbind option_bind]. eexists. split; [reflexivity|].
  destruct (Z.eqb_spec (target cs (num_bins i)) (bin i)) as [E|E].
  - split; [done|]. unfold moved. cbv zeta. rewrite E. lia.
  - pose proof (move_bin_spec i (get_bin (to_us cs) (total cs) (num_bins i)) _ draw Ht Hb ltac:(lia) E) as (H1 & H2 & H3 & H4).
    cbv zeta in H1, H2, H3, H4. set (b := move_bin _ _ _ _) in *. split.
    + assert (last_specs {| bin := b; num_bins := num_bins i; last_to_us := to_us cs; last_total := last_total i |} = cs) as El.
      { unfold last_specs. simpl. rewrite <- Et. by destruct cs. }
      split; rewrite ?El; simpl; [done|by split|done|done].
    + unfold moved. simpl. lia.
Qed.

(** A request for a multiplier, in all its cases. *)
Lemma multiplier_ok m node cs draw :
  map_ok m -> (forall bal, cs = Some bal -> specs_ok bal) ->
  exists m' mult, get_multiplier m node cs draw = Some (m', mult) /\ map_ok m' /\
    (forall n, n <> node -> m' !! n = m !! n) /\
    match m' !! node with
    | None => m !! node = None /\ cs = None /\ mult = d_of_Z 1
    | Some i' =>
        get_ratio_from_info i' = Some mult /\
        forall bal, cs = Some bal -> last_total i' = total bal /\
          forall i, m !! node = Some i -> last_total i = total bal ->
            (last_to_us i = to_us bal -> i' = i) /\ (last_to_us i <> to_us bal -> moved i i' bal)
    end.
Proof using Type.
  intros Hm Hcs.
  assert (forall i', info_ok i' -> map_ok (<[node := i']> m)) as Hins by (intros; by apply map_Forall_insert_2).
  assert (forall i' n, n <> node -> <[node := i']> m !! n = m !! n) as Hother by (intros; by apply lookup_insert_ne).
  assert (forall bal, (forall i, m !! node = Some i -> last_total i <> total bal) -> cs = Some bal ->
    exists m' mult, set_starting_info m node cs = Some (m', mult) /\ map_ok m' /\ (forall n, n <> node -> m' !! n = m !! n) /\
      exists i', m' !! node = Some i' /\ get_ratio_from_info i' = Some mult /\
        forall b, cs = Some b -> last_total i' = total b /\ forall i, m !! node = Some i -> last_total i = total b -> False) as Hstart.
  { intros bal Hne ->. destruct (starting_ok m node bal Hm (Hcs _ eq_refl)) as (i & mult & E & Hi & Em & El & _).
    exists (<[node := i]> m), mult. split_and!; [done|by apply Hins|by apply Hother|]. exists i.
    rewrite lookup_insert_eq. split_and!; [done|done|]. intros b [= <-]. split; [by rewrite <- El|]. intros j Hj Ej.
    by eapply Hne. }
  unfold get_multiplier. destruct (m !! node) as [i|] eqn:Ei.
  - pose proof (map_Forall_lookup_1 _ _ _ _ Hm Ei) as Hi. cbn beta in Hi. destruct (ratio_defined i Hi) as (mult & Em).
    destruct cs as [bal|].
    + specialize (Hcs _ eq_refl). destruct (Z.eqb_spec (last_total i) (total bal)) as [Et|Et]; simpl.
      * destruct (Z.eqb_spec (last_to_us i) (to_us bal)) as [Eu|Eu]; simpl.
        -- rewrite Em. cbn [mbind option_bind]. exists m, mult. rewrite Ei. split_and!; [done..|]. intros b [= <-].
           split; [done|]. by intros ? [= <-] _.
        -- destruct (update_info_ok i bal draw Hi Hcs (eq_sym Et)) as (i' & E & Hi' & Hmv). rewrite E. cbn [mbind option_bind].
           destruct (ratio_defined i' Hi') as (mult' & Em'). rewrite Em'. cbn [mbind option_bind].
           exists (<[node := i']> m), mult'. rewrite lookup_insert_eq. split_and!; [done|by apply Hins|by apply Hother|done|].
           intros b [= <-]. split; [|by intros ? [= <-]].
           unfold update_info in E. destruct (d_to_u64 _) as [t|]; [|done]. cbn [mbind option_bind] in E.
           apply Some_inj in E. subst i'. by destruct (_ =? _).
      * rewrite andb_false_r. destruct (Hstart bal) as (m' & mult' & E & H1 & H2 & i' & El & H3 & H4); [by intros ? [= <-]|done|].
        exists m', mult'. rewrite El. split_and!; [done..|]. intros b Eb. destruct (H4 b Eb) as [H5 H6]. split; [done|].
        intros j Ej Hj. by destruct (H6 j Ej Hj).
    + rewrite Em. cbn [mbind option_bind]. exists m, mult. rewrite Ei. by split_and!.
  - destruct cs as [bal|].
    + destruct (Hstart bal) as (m' & mult' & E & H1 & H2 & i' & El & H3 & H4); [done|done|].
      exists m', mult'. rewrite El. split_and!; [done..|]. intros b Eb. by destruct (H4 b Eb) as [H5 H6].
    + simpl. exists m, (d_of_Z 1). by rewrite Ei.
Qed.


(** The replies report parts of channels that are not empty. *)
Definition event_ok (e : Event) : Prop :=
  match e with
  | Solicited _ reply _ =>
      exists cs, get_channel_specs reply = Some cs /\ forall bal, cs = Some bal -> specs_ok bal
  | ChannelDestruction _ => True
  end.

Lemma handle_ok m e : map_ok m -> event_ok e -> exists m', handle m e = Some m' /\ map_ok m'.
Proof using Type.
  intros Hm He. destruct e as [node reply draw|node]; simpl in *.
  - destruct He as (cs & -> & Hcs). cbn [mbind option_bind].
    destruct (multiplier_ok m node cs draw Hm Hcs) as (m' & mult & -> & Hm' & _). by exists m'.
  - eexists. split; [done|]. by apply map_Forall_delete.
Qed.

Lemma bins_run_ok m es : map_ok m -> Forall event_ok es -> exists m', run m es = Some m' /\ map_ok m'.
Proof using Type.
  intros Hm He. revert m Hm. induction He as [|e es He _ IH]; intros m Hm; [by exists m|].
  destruct (handle_ok m e Hm He) as (m1 & E & Hm1). simpl. rewrite E. by apply IH.
Qed.

(** The more of a channel is ours, the lower its multiplier. *)
Lemma ratio_antitone b b' n mult mult' :
  (forall x y, dle x y = true -> dle (exp x) (exp y) = true) ->
  (exists l, log (d_of_Z 50) = Fin l /\ (0 <= l <= 4)%Q) ->
  0 <= b <= b' -> b' < n <= max_bins ->
  get_ratio_by_bin b n = Some mult -> get_ratio_by_bin b' n = Some mult' -> dle mult' mult = true.
Proof using Type.
  intros Hexp (l & El & Hl) Hb Hn. unfold max_bins in Hn. unfold get_ratio_by_bin.
  destruct (Z.ltb_spec b n); [|done]. destruct (Z.ltb_spec b' n); [|done]. intros [= <-] [= <-].
  unfold get_ratio. apply Hexp. rewrite El. rewrite !u64_id by (rewrite ?u64_id; ulia).
  assert (forall c, 0 <= c < n -> exists r, ddiv (d_of_Z (1 + c * 2)) (d_of_Z (n * 2)) = Fin r /\ (0 <= r <= 1)%Q) as Hr.
  { intros c Hc. apply (ratio_unit (1 + c * 2) (n * 2)); lia. }
  destruct (Hr b ltac:(lia)) as (r & Er & Hr1), (Hr b' ltac:(lia)) as (r' & Er' & Hr1').
  assert (r <= r')%Q as Hle.
  { apply dle_Fin. rewrite <- Er, <- Er'. rewrite !d_of_Z_exact by lia. simpl.
    assert (0 < inject_Z (n * 2))%Q by (change 0%Q with (inject_Z 0); rewrite <- Zlt_Qlt; lia).
    destruct (Qeq_bool _ _) eqn:E0; [apply Qeq_bool_eq in E0; lra|]. apply RN_le. apply Qmult_le_compat_r.
    - rewrite <- Zle_Qle. lia.
    - apply Qlt_le_weak, Qinv_lt_0_compat. done. }
  rewrite Er, Er'. replace (RN (1 # 2)) with (Fin (1 # 2)) by (vm_compute; reflexivity). unfold dsub. simpl.
  pose proof (RN_le ((1 # 2) + - r') ((1 # 2) + - r) ltac:(lra)) as Hs.
  pose proof (RN_le (- (1)) ((1 # 2) + - r') ltac:(lra)) as Hlo. pose proof (RN_le ((1 # 2) + - r) 1 ltac:(lra)) as Hhi.
  change (RN (- (1))) with (Fin (- (1))) in Hlo. change (RN 1) with (Fin 1) in Hhi.
  destruct (RN ((1 # 2) + - r')) as [u'|[]|], (RN ((1 # 2) + - r)) as [u|[]|]; try done. apply dle_Fin in Hs.
  apply RN_le. nra.
Qed.

End Balance.

(** As long as the node reports channels that are not empty and of which we own a
    part, every request for a multiplier is answered: no conversion is undefined and no
    assertion fails.  The bin of each known channel is next to the bin of its balance.
    When only the balance of a channel changes its bin moves towards the bin of the new
    balance, never past it, to a bin next to it; a new or resized channel starts afresh;
    the other channels keep their bins. *)
Theorem bins_follow_balance exp log es :
  Forall event_ok es ->
  exists m, run exp log ∅ es = Some m /\ map_ok m /\
    forall node cs draw, (forall bal, cs = Some bal -> specs_ok bal) ->
      exists m' mult, get_multiplier exp log m node cs draw = Some (m', mult) /\ map_ok m' /\
        (forall n, n <> node -> m' !! n = m !! n) /\
        match m' !! node with
        | None => m !! node = None /\ cs = None /\ mult = d_of_Z 1
        | Some i' =>
            get_ratio_from_info exp log i' = Some mult /\
            forall bal, cs = Some bal -> last_total i' = total bal /\
              forall i, m !! node = Some i -> last_total i = total bal ->
                (last_to_us i = to_us bal -> i' = i) /\ (last_to_us i <> to_us bal -> moved i i' bal)
        end.
Proof.
  intros He. destruct (bins_run_ok exp log ∅ es (map_Forall_empty _) He) as (m & E & Hm). exists m.
  split; [done|]. split; [done|]. intros node cs draw. by apply multiplier_ok.
Qed.

(** A channel of a million satoshis, of which we own first all and then less. *)
Definition demo_channel (mine : string) : json :=
  JObj [(lit "channels", JArr [JObj [(lit "state", JStr (lit "CHANNELD_NORMAL")); (lit "to_us_msat", JPrim (lit mine));
                                     (lit "total_msat", JPrim (lit "1000000000"))]])].

Definition demo_events : list Event :=
  [Solicited None (demo_channel "1000000000") (Fin 0); Solicited None (demo_channel "350000000") (Fin (9 # 10))].

Definition demo_exp (x : double) : double := match x with Fin q => RN (1 + q) | _ => NaN end.
Definition demo_log (x : double) : double := Fin 4.
Definition demo_map : Infomap := Eval vm_compute in default ∅ (run demo_exp demo_log ∅ demo_events).

Lemma bins_follow_balance_witness :
  run demo_exp demo_log ∅ demo_events = Some demo_map /\ map_ok demo_map /\ option_map bin (demo_map !! None) = Some 2.
Proof.
  destruct (bins_follow_balance demo_exp demo_log demo_events) as (m & E & Hm & _).
  - repeat constructor; eexists; (split; [vm_compute; reflexivity|]); intros ? [= <-];
      (split; simpl; lia).
  - assert (m = demo_map) as ->. { apply Some_inj. rewrite <- E. vm_compute. reflexivity. }
    split; [exact E|]. split; [exact Hm|]. vm_compute. reflexivity.
Defined.

(** A channel that is reported empty is divided by zero. *)
Example empty_channel :
  get_multiplier demo_exp demo_log ∅ None (Some {| to_us := 0; total := 0 |}) (Fin 0) = None.
Proof. vm_compute. reflexivity. Qed.

End Balance.

(** ** The multiplier from the size *)

Module Size.

(** What is used of libm: the square root is exact at 1 and in its range elsewhere, the
    logarithm of a number up to 1 is not positive. *)
Class Libm (sqrt log : double -> double) := {
  sqrt_half : exists b, sqrt (RN (1 # 2)) = Fin b /\ (707 # 1000 <= b <= 708 # 1000)%Q;
  sqrt_mid : forall q, (2 <= q <= 16)%Q -> exists r, sqrt (Fin q) = Fin r /\ (1 <= r <= 4)%Q;
  log_unit : forall q, (0 < q <= 1)%Q -> exists r, log (Fin q) = Fin r /\ (r <= 0)%Q
}.

(** The capacities of the nodes, once loaded. *)
Abbreviation Capacities := (gmap Node Amount).

Record State := { self_id : Node; capacities : option Capacities; multipliers : gmap Node double }.

Definition set_capacities (s : State) (c : option Capacities) : State :=
  {| self_id := self_id s; capacities := c; multipliers := multipliers s |}.

Definition capacity_of (c : Capacities) (n : Node) : Amount := default 0 (c !! n).

(** The loop stops where it throws, and what it added stays. *)
Fixpoint load_capacities_loop (channels : list json) (c : Capacities) : Capacities * option failure :=
  match channels with
  | [] => (c, None)
  | channel :: channels =>
      match (let* source_j := get (Some channel) "source" in
             let* source_s := text source_j in
             let* source := nodeid_of source_s in
             let* amount_j := get (Some channel) "amount_msat" in
             let* amount := amount_object amount_j in
             inl (source, amount)) with
      | inl (source, amount) => load_capacities_loop channels (<[source := Amount.add (capacity_of c source) amount]> c)
      | inr e => (c, Some e)
      end
  end.

(** The table is made before the command is sent, whose result is [answer]. *)
Definition load_capacities (answer : outcome json) : Capacities * option failure :=
  match (let* result := answer in let* channels := get (Some result) "channels" in lift (jelements channels)) with
  | inl channels => load_capacities_loop channels ∅
  | inr e => (∅, Some e)
  end.

Definition get_capacity (answer : outcome json) (s : State) (node : Node) : State * outcome Amount :=
  match capacities s with
  | Some c => (s, inl (capacity_of c node))
  | None =>
      let '(c, e) := load_capacities answer in
      (set_capacities s (Some c), match e with None => inl (capacity_of c node) | Some e => inr e end)
  end.

(** [Ev::map]: all calls are made, and then one of the exceptions is thrown. *)
Fixpoint map_capacity (answer : outcome json) (s : State) (nodes : list Node) : State * outcome (list Amount) :=
  match nodes with
  | [] => (s, inl [])
  | n :: nodes =>
      let '(s, a) := get_capacity answer s n in
      let '(s, l) := map_capacity answer s nodes in
      (s, let* a := a in let* l := l in inl (a :: l))
  end.

(** The other peers of a peer; a malformed reply gives those before the flaw. *)
Fixpoint competitors_of (self : Node) (channels : list json) (acc : gset Node) : option (gset Node) :=
  match channels with
  | [] => Some acc
  | c :: channels =>
      match (let* j := get (Some c) "destination" in let* s := text j in nodeid_of s) with
      | inl n => competitors_of self channels (if decide (n = self) then acc else {[n]} ∪ acc)
      | inr Undefined => None
      | inr _ => Some acc
      end
  end.

Definition get_competitors (self : Node) (res : json) : option (list Node) :=
  match (let* cs := get (Some res) "channels" in lift (jelements cs)) with
  | inl l => base.elements <$> competitors_of self l ∅
  | inr Undefined => None
  | inr _ => Some []
  end.

Record Tally := { worse : Z; better : Z; count : Z }.

Fixpoint tally (mine : Amount) (caps : list Amount) (t : Tally) : Tally :=
  match caps with
  | [] => t
  | c :: caps =>
      tally mine caps
        (if Amount.lt c mine then {| worse := worse t + 1; better := better t; count := count t + 1 |}
         else if Amount.lt mine c then {| worse := worse t; better := better t + 1; count := count t + 1 |}
         else {| worse := worse t; better := better t; count := count t + 1 |})
  end.

Definition tally0 : Tally := {| worse := 0; better := 0; count := 0 |}.

(** *** The competitors *)

Definition less (c : Capacities) (self : Node) (l : list Node) : Z :=
  Z.of_nat (length (filter (fun n => capacity_of c n < capacity_of c self) l)).
Definition more (c : Capacities) (self : Node) (l : list Node) : Z :=
  Z.of_nat (length (filter (fun n => capacity_of c self < capacity_of c n) l)).

Lemma tally_spec c self l t :
  let r := tally (capacity_of c self) (map (capacity_of c) l) t in
  worse r = worse t + less c self l /\ better r = better t + more c self l /\ count r = count t + Z.of_nat (length l).
Proof.
  cbv zeta. revert t. induction l as [|n l IH]; intros t; [simpl; unfold less, more; simpl; lia|]. cbn [map tally].
  destruct (IH (if Amount.lt (capacity_of c n) (capacity_of c self) then {| worse := worse t + 1; better := better t; count := count t + 1 |}
         else if Amount.lt (capacity_of c self) (capacity_of c n) then {| worse := worse t; better := better t + 1; count := count t + 1 |}
         else {| worse := worse t; better := better t; count := count t + 1 |})) as (-> & -> & ->).
  unfold less, more, Amount.lt. rewrite !filter_cons. cbn [length].
  destruct (Z.ltb_spec (capacity_of c n) (capacity_of c self)), (Z.ltb_spec (capacity_of c self) (capacity_of c n));
    repeat (rewrite decide_True by lia || rewrite decide_False by lia); cbn [worse better count length]; try lia.
  all: rewrite ?(decide_True (P := capacity_of c n < capacity_of c self)), ?(decide_False (P := capacity_of c n < capacity_of c self)),
    ?(decide_True (P := capacity_of c self < capacity_of c n)), ?(decide_False (P := capacity_of c self < capacity_of c n)) by lia;
    cbn [length]; lia.
Qed.

Lemma less_more c self l : 0 <= less c self l /\ 0 <= more c self l /\ less c self l + more c self l <= Z.of_nat (length l).
Proof.
  unfold less, more. split; [lia|]. split; [lia|]. induction l as [|n l IH]; [done|]. rewrite !filter_cons. cbn [length].
  destruct (decide (capacity_of c n < capacity_of c self)); [rewrite decide_False by lia|destruct decide]; cbn [length]; lia.
Qed.

Lemma map_capacity_loaded answer s c l :
  capacities s = Some c -> map_capacity answer s l = (s, inl (map (capacity_of c) l)).
Proof.
  intros Hc. induction l as [|n l IH]; [done|]. cbn [map_capacity]. unfold get_capacity. rewrite Hc, IH. done.
Qed.

Lemma competitors_of_self self l acc r : self ∉ acc -> competitors_of self l acc = Some r -> self ∉ r.
Proof.
  revert acc. induction l as [|j l IH]; intros acc Ha E; simpl in E; [by injection E as <-|].
  destruct (let* _ := _ in _) as [n|[]]; try (by injection E as <-); [|done].
  eapply IH; [|exact E]. destruct decide; [done|set_solver].
Qed.

Lemma get_competitors_spec self res l : get_competitors self res = Some l -> NoDup l /\ self ∉ l.
Proof.
  unfold get_competitors. destruct (let* _ := _ in _) as [cs|[]]; intros E; try done;
    try (injection E as <-; split; [constructor|apply not_elem_of_nil]).
  destruct (competitors_of self cs ∅) as [r|] eqn:Er; [|done]. apply Some_inj in E. subst l.
  split; [apply NoDup_elements|]. rewrite elem_of_elements. eapply competitors_of_self; [|exact Er]. set_solver.
Qed.

(** *** The multiplier *)

Section Size.

Context (sqrt log : double -> double).

Definition calculate_multiplier (worse better total : Z) : option double :=
  if negb (worse + better <=? total) then None
  else if total =? 0 then Some (d_of_Z 1)
  else
    let pos := ddiv (d_of_Z worse) (d_of_Z (worse + better)) in
    let x :=
      if worse <? better then
        let pos := dmul pos (d_of_Z 2) in
        let base := sqrt (RN (1 # 2)) in
        dadd (dsub base (dmul pos base)) (dmul pos (d_of_Z 1))
      else
        let log_inv_total := log (ddiv (d_of_Z 1) (d_of_Z total)) in
        let lim := dadd (d_of_Z 16) log_inv_total in
        let lim := if dlt lim (d_of_Z 2) then d_of_Z 2 else lim in
        let pos := dsub (dmul pos (d_of_Z 2)) (d_of_Z 1) in
        let base := d_of_Z 1 in
        dadd (dsub base (dmul pos base)) (dmul pos (sqrt lim)) in
    Some (dmul x x).

(** [answer] is what [listchannels] gives if the table has to be loaded, [reply] what it
    gives for the channels of the peer.  [None] is undefined behaviour. *)
Definition compute_multiplier (answer : outcome json) (reply : json) (s : State) : option (State * outcome double) :=
  competitors ← get_competitors (self_id s) reply;
  let '(s, caps) := map_capacity answer s competitors in
  match caps with
  | inr e => Some (s, inr e)
  | inl caps =>
      let '(s, mine) := get_capacity answer s (self_id s) in
      match mine with
      | inr e => Some (s, inr e)
      | inl mine =>
          let t := tally mine caps tally0 in
          m ← calculate_multiplier (worse t) (better t) (count t);
          Some (s, inl m)
      end
  end.

Definition get_cached_multiplier (answer : outcome json) (reply : json) (s : State) (peer : Node)
    : option (State * outcome double) :=
  match multipliers s !! peer with
  | Some m => Some (s, inl m)
  | None =>
      '(s, r) ← compute_multiplier answer reply s;
      Some (match r with
            | inl m => {| self_id := self_id s; capacities := capacities s; multipliers := <[peer := m]> (multipliers s) |}
            | inr _ => s
            end, r)
  end.

(** The timer, and channels that come and go. *)
Definition reset (s : State) : State := {| self_id := self_id s; capacities := None; multipliers := ∅ |}.


Context `{!Libm sqrt log}.

(** A double between two others that is a rational. *)
Lemma between x a b : dle (Fin a) x = true -> dle x (Fin b) = true -> exists r, x = Fin r /\ (a <= r <= b)%Q.
Proof using Type. destruct x as [r|[]|]; try done. rewrite !dle_Fin. by exists r. Qed.

(** The interpolation between [a] and [b], with its four roundings. *)
Lemma interpolate a b p :
  (1 # 2 <= a <= 1)%Q -> (1 # 2 <= b <= 4)%Q -> (0 <= p <= 1)%Q ->
  exists x, dadd (dsub (Fin a) (dmul (Fin p) (Fin a))) (dmul (Fin p) (Fin b)) = Fin x /\
    ((1 - p) * a + p * b - (1 # 1000000) <= x <= (1 - p) * a + p * b + (1 # 1000000))%Q.
Proof using Type.
  intros Ha Hb Hp. unfold dsub. cbn [dmul dneg]. change (pow2 3) with 8%Q.
  destruct (RN_close (p * a) 3) as (u & Eu & Hu); [change (pow2 3) with 8%Q; split; nra|lia|].
  destruct (RN_close (p * b) 3) as (v & Ev & Hv); [change (pow2 3) with 8%Q; split; nra|lia|].
  change (pow2 (3 - 52)) with (1 # 562949953421312)%Q in *.
  rewrite Eu, Ev. cbn [dneg dadd].
  assert (0 <= p * a <= 1)%Q by (split; nra). assert (0 <= p * b <= 4)%Q by (split; nra).
  destruct (RN_close (a + - u) 3) as (w & Ew & Hw); [change (pow2 3) with 8%Q; lra|lia|].
  change (pow2 (3 - 52)) with (1 # 562949953421312)%Q in *.
  rewrite Ew. cbn [dadd].
  destruct (RN_close (w + v) 3) as (x & Ex & Hx); [change (pow2 3) with 8%Q; lra|lia|].
  change (pow2 (3 - 52)) with (1 # 562949953421312)%Q in *.
  exists x. split; [exact Ex|]. lra.
Qed.

Lemma square x lo hi :
  (1 # 2 <= lo)%Q -> (hi <= 5)%Q -> (lo <= x <= hi)%Q ->
  exists r, dmul (Fin x) (Fin x) = Fin r /\ (lo * lo - (1 # 1000000) <= r <= hi * hi + (1 # 1000000))%Q.
Proof using Type.
  intros Hlo Hhi Hx. simpl. destruct (RN_close (x * x) 5) as (r & Er & Hr); [change (pow2 5) with 32%Q; split; nra|lia|].
  change (pow2 (5 - 52)) with (1 # 140737488355328)%Q in *. exists r. split; [done|]. nra.
Qed.

(** The position among those that differ. *)
Lemma position w b :
  0 <= w -> 0 <= b -> 0 < w + b < 2 ^ 53 ->
  exists p, ddiv (d_of_Z w) (d_of_Z (w + b)) = Fin p /\
    (if w <? b then 0 <= p <= 1 # 2 else 1 # 2 <= p <= 1)%Q.
Proof using Type.
  intros Hw Hb Hs. rewrite !d_of_Z_exact by lia. simpl.
  assert (0 < inject_Z (w + b))%Q as Pd by (change 0%Q with (inject_Z 0); rewrite <- Zlt_Qlt; lia).
  destruct (Qeq_bool _ _) eqn:E0; [apply Qeq_bool_eq in E0; lra|].
  set (q := (inject_Z w / inject_Z (w + b))%Q).
  assert (inject_Z (w + b) == inject_Z w + inject_Z b)%Q as Es by (by rewrite inject_Z_plus).
  assert (0 <= inject_Z w)%Q by (change 0%Q with (inject_Z 0); rewrite <- Zle_Qle; lia).
  assert (0 <= inject_Z b)%Q by (change 0%Q with (inject_Z 0); rewrite <- Zle_Qle; lia).
  assert (0 <= q)%Q by (apply Qle_shift_div_l; lra). assert (q <= 1)%Q by (apply Qle_shift_div_r; lra).
  change (Fin 0) with (RN 0). assert (RN (1 # 2) = Fin (1 # 2)) as Eh by (vm_compute; reflexivity).
  destruct (Z.ltb_spec w b) as [L|L].
  - assert (q <= 1 # 2)%Q. { apply Qle_shift_div_r; [lra|]. rewrite Zlt_Qlt in L. lra. }
    apply between; [change (Fin 0) with (RN 0)|rewrite <- Eh]; apply RN_le; lra.
  - assert (1 # 2 <= q)%Q. { apply Qle_shift_div_l; [lra|]. rewrite Zle_Qle in L. lra. }
    apply between; [rewrite <- Eh|change (Fin 1) with (RN 1)]; apply RN_le; lra.
Qed.

(** The limit on the multiplier. *)
Lemma limit_range total :
  0 < total < 2 ^ 53 ->
  let lim := dadd (d_of_Z 16) (log (ddiv (d_of_Z 1) (d_of_Z total))) in
  exists q, (if dlt lim (d_of_Z 2) then d_of_Z 2 else lim) = Fin q /\ (2 <= q <= 16)%Q.
Proof using All.
  intros Ht. cbv zeta. rewrite (d_of_Z_exact total) by lia.
  assert (1 <= inject_Z total)%Q as H1 by (change 1%Q with (inject_Z 1); rewrite <- Zle_Qle; lia).
  replace (d_of_Z 1) with (Fin 1) by (vm_compute; reflexivity). replace (d_of_Z 16) with (Fin 16) by (vm_compute; reflexivity).
  replace (d_of_Z 2) with (Fin 2) by (vm_compute; reflexivity). cbn [ddiv].
  destruct (Qeq_bool _ _) eqn:E0; [apply Qeq_bool_eq in E0; lra|].
  assert (exists u, RN (1 / inject_Z total) = Fin u /\ (pow2 (-60) <= u <= 1)%Q) as (u & Eu & Hu).
  { apply between; [replace (Fin (pow2 (-60))) with (RN (pow2 (-60))) by (vm_compute; reflexivity)|change (Fin 1) with (RN 1)]; apply RN_le.
    - apply Qle_shift_div_l; [lra|]. assert (inject_Z total <= inject_Z (2 ^ 53))%Q as H2 by (rewrite <- Zle_Qle; lia).
      change (pow2 (-60)) with (1 # 1152921504606846976)%Q. change (inject_Z (2 ^ 53)) with (9007199254740992 # 1)%Q in H2. lra.
    - apply Qle_shift_div_r; lra. }
  rewrite Eu. change (pow2 (-60)) with (1 # 1152921504606846976)%Q in Hu.
  destruct (log_unit u ltac:(lra)) as (r & Er & Hr). rewrite Er. cbn [dadd].
  assert (dle (RN (16 + r)) (Fin 16) = true) as Hle by (change (Fin 16) with (RN 16); apply RN_le; lra).
  destruct (dlt (RN (16 + r)) (Fin 2)) eqn:E; [exists 2%Q; split; [done|lra]|].
  destruct (RN (16 + r)) as [v|[]|]; try done. exists v. split; [done|]. apply dle_Fin in Hle. split; [|done].
  simpl in E. apply negb_false_iff, Qle_bool_iff in E. done.
Qed.

(** The multiplier on every branch. *)
Lemma multiplier_bands w b total :
  0 <= w -> 0 <= b -> w + b <= total < 2 ^ 53 ->
  match calculate_multiplier w b total with
  | Some (Fin m) =>
      if total =? 0 then (m == 1)%Q
      else 0 < w + b /\ (if w <? b then 49 # 100 <= m <= 101 # 100 else 99 # 100 <= m <= 1601 # 100)%Q
  | Some NaN => 0 < total /\ w + b = 0
  | _ => False
  end.
Proof using All.
  intros Hw Hb Ht. unfold calculate_multiplier. destruct (Z.leb_spec (w + b) total); [|lia]. simpl negb. cbv iota.
  destruct (Z.eqb_spec total 0) as [E|Hne].
  { replace (d_of_Z 1) with (Fin 1) by (vm_compute; reflexivity). reflexivity. }
  destruct (Z.eq_dec (w + b) 0) as [E0|Hpos].
  { assert (w = 0) as -> by lia. assert (b = 0) as -> by lia. simpl Z.add. cbv zeta.
    replace (ddiv (d_of_Z 0) (d_of_Z 0)) with NaN by (vm_compute; reflexivity). simpl. lia. }
  destruct (position w b Hw Hb) as (p & Ep & Hp); [lia|]. rewrite Ep. cbv zeta.
  replace (d_of_Z 2) with (Fin 2) by (vm_compute; reflexivity). replace (d_of_Z 1) with (Fin 1) by (vm_compute; reflexivity).
  destruct (Z.ltb_spec w b) as [L|L].
  - destruct sqrt_half as (s & Es & Hs). rewrite Es.
    assert (exists q, dmul (Fin p) (Fin 2) = Fin q /\ (0 <= q <= 1)%Q) as (q & Eq & Hq).
    { simpl. apply between; [change (Fin 0) with (RN 0)|change (Fin 1) with (RN 1)]; apply RN_le; lra. }
    rewrite Eq. destruct (interpolate s 1 q) as (x & Ex & Hx); [lra..|]. rewrite Ex.
    destruct (square x (7069 # 10000) (10001 # 10000)) as (m & Em & Hm); [lra|lra|split; nra|]. rewrite Em. split; [lia|lra].
  - destruct (limit_range total ltac:(lia)) as (lim & El & Hl). cbv zeta in El.
    replace (d_of_Z 2) with (Fin 2) in El by (vm_compute; reflexivity).
    replace (d_of_Z 1) with (Fin 1) in El by (vm_compute; reflexivity). rewrite El.
    destruct (sqrt_mid lim Hl) as (s & Es & Hs). rewrite Es.
    assert (exists q, dsub (dmul (Fin p) (Fin 2)) (Fin 1) = Fin q /\ (0 <= q <= 1)%Q) as (q & Eq & Hq).
    { simpl. destruct (between (RN (p * 2)) 1 2) as (u & Eu & Hu).
      - change (Fin 1) with (RN 1). apply RN_le. lra.
      - change (Fin 2) with (RN 2). apply RN_le. lra.
      - rewrite Eu. unfold dsub. simpl. apply between; [change (Fin 0) with (RN 0)|change (Fin 1) with (RN 1)]; apply RN_le; lra. }
    rewrite Eq. destruct (interpolate 1 s q) as (x & Ex & Hx); [lra..|]. rewrite Ex.
    destruct (square x (9999 # 10000) (40001 # 10000)) as (m & Em & Hm); [lra|lra|split; nra|]. rewrite Em. split; [lia|lra].
Qed.


(** The multiplier that a loaded table gives. *)
Lemma compute_loaded answer reply s c l :
  capacities s = Some c -> get_competitors (self_id s) reply = Some l -> Z.of_nat (length l) < 2 ^ 53 ->
  exists m, calculate_multiplier (less c (self_id s) l) (more c (self_id s) l) (Z.of_nat (length l)) = Some m /\
    compute_multiplier answer reply s = Some (s, inl m).
Proof using All.
  intros Hc El Hl. pose proof (less_more c (self_id s) l) as (H1 & H2 & H3).
  pose proof (multiplier_bands _ _ (Z.of_nat (length l)) H1 H2 ltac:(lia)) as Hb.
  destruct (calculate_multiplier _ _ _) as [m|] eqn:Em; [|done]. exists m. split; [done|].
  unfold compute_multiplier. rewrite El. cbn [mbind option_bind]. rewrite (map_capacity_loaded answer s c l Hc).
  unfold get_capacity. rewrite Hc. destruct (tally_spec c (self_id s) l tally0) as (-> & -> & ->). cbn [worse better count tally0].
  rewrite !Z.add_0_l. rewrite Em. done.
Qed.

(** When the table is loaded and the load fails, what was loaded stays. *)
Lemma compute_failed e reply s l :
  capacities s = None -> get_competitors (self_id s) reply = Some l -> l <> [] ->
  compute_multiplier (inr e) reply s = Some (set_capacities s (Some ∅), inr e).
Proof using Type.
  intros Hc El Hl. unfold compute_multiplier. rewrite El. cbn [mbind option_bind]. destruct l as [|n l]; [done|].
  cbn [map_capacity]. unfold get_capacity at 1. rewrite Hc. cbn [load_capacities obind].
  rewrite (map_capacity_loaded _ (set_capacities s (Some ∅)) ∅ l) by done. done.
Qed.

End Size.

(** The multiplier from the size.  The competitors are the other peers of the peer,
    each once and without ourselves.  Where more of them are larger than us than smaller
    the multiplier is between 0.49 and 1.01; where at least as many are smaller it is
    between 0.99 and 16.01; without competitors it is 1.  It is not a number exactly
    where there are competitors and all of them have just our capacity. *)
Theorem multiplier_by_size sqrt log answer reply s c l :
  Libm sqrt log -> capacities s = Some c -> get_competitors (self_id s) reply = Some l -> Z.of_nat (length l) < 2 ^ 53 ->
  (NoDup l /\ self_id s ∉ l) /\
  exists m, compute_multiplier sqrt log answer reply s = Some (s, inl m) /\
    let smaller := less c (self_id s) l in let larger := more c (self_id s) l in
    match m with
    | Fin q =>
        if Z.of_nat (length l) =? 0 then (q == 1)%Q
        else 0 < smaller + larger /\
          (if smaller <? larger then 49 # 100 <= q <= 101 # 100 else 99 # 100 <= q <= 1601 # 100)%Q
    | NaN => l <> [] /\ forall n, n ∈ l -> capacity_of c n = capacity_of c (self_id s)
    | Inf _ => False
    end.
Proof.
  intros HL Hc El Hl. split; [by eapply get_competitors_spec|].
  destruct (compute_loaded sqrt log answer reply s c l Hc El Hl) as (m & Em & E). exists m. split; [done|]. cbv zeta.
  pose proof (less_more c (self_id s) l) as (H1 & H2 & H3).
  pose proof (multiplier_bands sqrt log _ _ (Z.of_nat (length l)) H1 H2 ltac:(lia)) as Hb. rewrite Em in Hb.
  destruct m as [q|b|]; [done|done|]. destruct Hb as [Hb0 Hb]. split; [by intros ->|]. intros n Hn.
  assert (filter (fun n => capacity_of c n < capacity_of c (self_id s)) l = []) as F1
    by (apply length_zero_iff_nil; unfold less in *; lia).
  assert (filter (fun n => capacity_of c (self_id s) < capacity_of c n) l = []) as F2
    by (apply length_zero_iff_nil; unfold more in *; lia).
  destruct (Z.lt_trichotomy (capacity_of c n) (capacity_of c (self_id s))) as [L|[L|L]]; [|done|]; exfalso;
    eapply not_elem_of_nil.
  - rewrite <- F1. apply list_elem_of_filter. eauto.
  - rewrite <- F2. apply list_elem_of_filter. eauto.
Qed.

(** *** Samples *)

(** A square root to 52 binary places, and the integral part of the binary logarithm. *)
Definition demo_sqrt (x : double) : double :=
  match x with Fin q => RN (inject_Z (Z.sqrt (Qfloor (q * inject_Z (2 ^ 104)))) * pow2 (-52)) | _ => NaN end.
Definition demo_log (x : double) : double := match x with Fin q => Fin (inject_Z (ilog2 q)) | _ => NaN end.

#[global] Instance demo_libm : Libm demo_sqrt demo_log.
Proof.
  split.
  - replace (demo_sqrt (RN (1 # 2))) with (Fin (1592262918131443 # 2251799813685248)) by (vm_compute; reflexivity).
    eexists. split; [reflexivity|lra].
  - intros q Hq. unfold demo_sqrt.
    assert (2 ^ 52 <= Z.sqrt (Qfloor (q * inject_Z (2 ^ 104))) <= 2 ^ 54) as [H1 H2].
    { split.
      - apply Z.sqrt_le_square; [|lia|].
        + rewrite <- (Qfloor_Z 0). apply Qfloor_resp_le. change (inject_Z 0) with 0%Q.
          change (inject_Z (2 ^ 104)) with (20282409603651670423947251286016 # 1)%Q. lra.
        + rewrite <- (Qfloor_Z (2 ^ 52 * 2 ^ 52)). apply Qfloor_resp_le.
          change (inject_Z (2 ^ 52 * 2 ^ 52)) with (20282409603651670423947251286016 # 1)%Q.
          change (inject_Z (2 ^ 104)) with (20282409603651670423947251286016 # 1)%Q. lra.
      - rewrite <- (Z.sqrt_square (2 ^ 54)) by lia. apply Z.sqrt_le_mono. rewrite <- (Qfloor_Z (2 ^ 54 * 2 ^ 54)).
        apply Qfloor_resp_le. change (inject_Z (2 ^ 54 * 2 ^ 54)) with (324518553658426726783156020576256 # 1)%Q.
        change (inject_Z (2 ^ 104)) with (20282409603651670423947251286016 # 1)%Q. lra. }
    set (n := Z.sqrt _) in *. rewrite Zle_Qle in H1, H2. pose proof (pow2_pos (-52)).
    apply between.
    + replace (Fin 1) with (RN (inject_Z (2 ^ 52) * pow2 (-52))) by (vm_compute; reflexivity). apply RN_le. nra.
    + replace (Fin 4) with (RN (inject_Z (2 ^ 54) * pow2 (-52))) by (vm_compute; reflexivity). apply RN_le. nra.
  - intros q Hq. eexists. split; [reflexivity|]. change 0%Q with (inject_Z 0). rewrite <- Zle_Qle.
    assert (ilog2 q < 1); [|lia]. apply ilog2_lt; [lra|]. change (pow2 1) with 2%Q. lra.
Qed.

(** One competitor, of which nothing is known; we have a capacity of 5. *)
Definition demo_reply : json :=
  JObj [(lit "channels", JArr [JObj [(lit "destination", JStr (replicate 66 (chr "0")))]])].
Definition demo_state : State :=
  {| self_id := Some [1]; capacities := Some {[ Some [1] := 5 ]}; multipliers := ∅ |}.

Lemma multiplier_by_size_witness :
  exists m, compute_multiplier demo_sqrt demo_log (inr Runtime) demo_reply demo_state = Some (demo_state, inl (Fin m)) /\
    (99 # 100 <= m <= 1601 # 100)%Q.
Proof.
  destruct (multiplier_by_size demo_sqrt demo_log (inr Runtime) demo_reply demo_state {[ Some [1] := 5 ]} [None]) as (_ & m & E & H).
  - apply demo_libm.
  - reflexivity.
  - vm_compute. reflexivity.
  - simpl. lia.
  - destruct m as [q|b|]; [|destruct H|].
    + exists q. split; [exact E|]. apply H.
    + destruct H as [_ H]. specialize (H None (list_elem_of_here None [])). discriminate H.
Defined.

End Size.

(** ** The fees of a channel *)

Module FeeManager.

Inductive ZeroBaseFee := ZeroBaseFee_Require | ZeroBaseFee_Allow | ZeroBaseFee_Disallow.

#[global] Instance ZeroBaseFee_eq_dec : EqDecision ZeroBaseFee.
Proof. solve_decision. Defined.

Record Info := {
  median_base : Z; median_proportional : Z; multiplier : double; final_base : Z; final_proportional : Z
}.

(** [Modifier] stands for the functions that other modules provide. *)
Record State (Modifier : Type) := {
  initted : bool; soliciting : bool; modifiers : list Modifier; zero_base_fee : ZeroBaseFee; infos : gmap Node Info
}.
Arguments initted {_} _.
Arguments soliciting {_} _.
Arguments modifiers {_} _.
Arguments zero_base_fee {_} _.
Arguments infos {_} _.

Inductive Answer := Ignored | Accepted | Rejected.

Definition option_name : bytes := lit "clboss-zerobasefee".

Definition word (svalue : bytes) : option ZeroBaseFee :=
  if bool_decide (svalue = lit "require") || bool_decide (svalue = lit "required") then Some ZeroBaseFee_Require
  else if bool_decide (svalue = lit "allow") || bool_decide (svalue = lit "allowed") then Some ZeroBaseFee_Allow
  else if bool_decide (svalue = lit "disallow") || bool_decide (svalue = lit "disallowed") then Some ZeroBaseFee_Disallow
  else None.

Definition on_option (z : ZeroBaseFee) (name : bytes) (value : option json) : outcome (ZeroBaseFee * Answer) :=
  if negb (bool_decide (name = option_name)) then inl (z, Ignored)
  else
    let* svalue := if jis_string value then text value else inl [] in
    inl (match word svalue with Some v => (v, Accepted) | None => (z, Rejected) end).

(** The product with all multipliers, each rounded. *)
Definition scale (x : double) (ms : list double) : double := foldl dmul x ms.

Definition perform (z : ZeroBaseFee) (base proportional : Z) (ms : list double) : option Info :=
  let b := scale (d_of_Z base) ms in
  let p := scale (d_of_Z proportional) ms in
  let mult := scale (d_of_Z 1) ms in
  fb ← d_to_u32 (dround b);
  fp ← d_to_u32 (dround p);
  let fb := if bool_decide (z = ZeroBaseFee_Disallow) && (fb =? 0) then 1 else fb in
  let fb := if bool_decide (z = ZeroBaseFee_Require) then 0 else fb in
  let fp := if fp =? 0 then 1 else fp in
  Some {| median_base := base; median_proportional := proportional; multiplier := mult;
          final_base := fb; final_proportional := fp |}.

Section Manager.

Context {Modifier : Type}.

(** The parts of the module between waits.  [finished] is a run of [perform] whose
    modifiers gave their multipliers. *)
Inductive Event :=
| Option_ (name : bytes) (value : option json)
| Provide (m : Modifier)
| Solicit
| Solicited
| Finished (node : Node) (base proportional : Z) (ms : list double).

Definition with_modifiers (s : State Modifier) (i r : bool) (ms : list Modifier) : State Modifier :=
  {| initted := i; soliciting := r; modifiers := ms; zero_base_fee := zero_base_fee s; infos := infos s |}.

(** [None]: undefined behaviour; an exception leaves the state. *)
Definition handle (s : State Modifier) (e : Event) : option (State Modifier) :=
  match e with
  | Option_ name value =>
      match on_option (zero_base_fee s) name value with
      | inl (z, _) => Some {| initted := initted s; soliciting := soliciting s; modifiers := modifiers s;
                              zero_base_fee := z; infos := infos s |}
      | inr Undefined => None
      | inr _ => Some s
      end
  | Provide m => Some (if soliciting s then with_modifiers s (initted s) (soliciting s) (modifiers s ++ [m]) else s)
  | Solicit => Some (if (soliciting s && negb (initted s)) || initted s then s else with_modifiers s (initted s) true (modifiers s))
  | Solicited => Some (with_modifiers s true false (modifiers s))
  | Finished node base proportional ms =>
      i ← perform (zero_base_fee s) base proportional ms;
      Some {| initted := initted s; soliciting := soliciting s; modifiers := modifiers s;
              zero_base_fee := zero_base_fee s; infos := <[node := i]> (infos s) |}
  end.

(** The modifiers are collected once: after that no event changes them. *)
Lemma modifiers_fixed s e s' :
  initted s = true -> soliciting s = false -> handle s e = Some s' ->
  initted s' = true /\ soliciting s' = false /\ modifiers s' = modifiers s.
Proof.
  intros Hi Hs. destruct e as [name value|m| | |node b p ms]; cbn [handle].
  - destruct (on_option _ _ _) as [[z a]|[]]; by intros [= <-].
  - rewrite Hs. by intros [= <-].
  - rewrite Hi, orb_true_r. by intros [= <-].
  - by intros [= <-].
  - destruct (perform _ _ _ _); [|done]. cbn [mbind option_bind]. by intros [= <-].
Qed.

End Manager.

(** An unknown word leaves the setting. *)
Lemma option_rejected z name value z' : on_option z name value = inl (z', Rejected) -> z' = z.
Proof.
  unfold on_option. destruct (negb _); [by intros [=]|]. destruct (if jis_string value then text value else inl []) as [w|]; [|done].
  cbn [obind]. by destruct (word w); intros [= <-].
Qed.

(** *** Rounding and order *)

Lemma to_u32_round q n :
  d_to_u32 (dround (Fin q)) = Some n -> (0 <= q)%Q ->
  0 <= n < 2 ^ 32 /\ n = Qfloor (q + (1 # 2)) /\ (inject_Z n - (1 # 2) <= q <= inject_Z n + (1 # 2))%Q.
Proof.
  intros E Hq. cbn [dround] in E. pose proof (proj2 (Qle_bool_iff 0 q) Hq) as Eq. rewrite Eq in E. unfold d_to_u32, Qtrunc in E.
  assert (0 <= Qfloor (q + (1 # 2))) as H0. { rewrite <- (Qfloor_Z 0). apply Qfloor_resp_le. change (inject_Z 0) with 0%Q. lra. }
  assert (Qle_bool 0 (inject_Z (Qfloor (q + (1 # 2)))) = true) as E2.
  { apply Qle_bool_iff. change 0%Q with (inject_Z 0). rewrite <- Zle_Qle. done. }
  rewrite E2, Qfloor_Z in E. destruct (_ && _) eqn:E3; [|done]. apply Some_inj in E. subst n. to_prop.
  split; [lia|]. split; [done|]. pose proof (Qfloor_le (q + (1 # 2))). pose proof (Qlt_floor (q + (1 # 2))) as HH.
  rewrite inject_Z_plus in HH. change (inject_Z 1) with 1%Q in HH. lra.
Qed.

Lemma to_u32_round_some q n : (0 <= q)%Q -> Qfloor (q + (1 # 2)) = n -> n < 2 ^ 32 -> d_to_u32 (dround (Fin q)) = Some n.
Proof.
  intros Hq En Hn. cbn [dround]. pose proof (proj2 (Qle_bool_iff 0 q) Hq) as Eq. rewrite Eq, En. unfold d_to_u32, Qtrunc.
  assert (0 <= n) as H0. { rewrite <- En, <- (Qfloor_Z 0). apply Qfloor_resp_le. change (inject_Z 0) with 0%Q. lra. }
  assert (Qle_bool 0 (inject_Z n) = true) as ->. { apply Qle_bool_iff. change 0%Q with (inject_Z 0). by rewrite <- Zle_Qle. }
  rewrite Qfloor_Z. assert ((0 <=? n) && (n <? 2 ^ 32) = true) as -> by lia. done.
Qed.

(** A product that is not finite stays so. *)
Lemma scale_finite x ms q : scale x ms = Fin q -> exists r, x = Fin r.
Proof.
  revert x. induction ms as [|m ms IH]; intros x E; [by exists q|]. unfold scale in E. cbn [foldl] in E.
  destruct (IH _ E) as [r Er]. destruct x as [a|s|]; [by exists a| |by destruct m].
  destruct m as [b|t|]; simpl in Er; [by destruct (Qeq_bool b 0)|done..].
Qed.

(** The order of non-negative numbers. *)
Definition below (m m' : double) : Prop := dnonneg m /\ dle m m' = true.

Lemma scale_below x x' ms ms' q' :
  below (Fin x) (Fin x') -> Forall2 below ms ms' -> scale (Fin x') ms' = Fin q' ->
  exists q, scale (Fin x) ms = Fin q /\ (0 <= q <= q')%Q.
Proof.
  intros Hx Hms. revert x x' Hx. induction Hms as [|m m' ms ms' Hm Hms IH]; intros x x' [H0 H1] E.
  { injection E as <-. exists x. unfold dnonneg in H0. rewrite !dle_Fin in *. done. }
  unfold scale in *. cbn [foldl] in *. destruct (scale_finite _ _ _ E) as [r' Er'].
  unfold dnonneg in H0. rewrite dle_Fin in H0, H1. destruct Hm as [Hm0 Hm1]. unfold dnonneg in Hm0.
  destruct m' as [b'|s|]; cbn [dmul] in Er'; [| |done].
  - destruct m as [b|[]|]; try done. rewrite dle_Fin in Hm0, Hm1. cbn [dmul] in *.
    pose proof (RN_le 0 (x * b) ltac:(nra)) as R0. pose proof (RN_le (x * b) (x' * b') ltac:(nra)) as R1.
    rewrite Er' in R1, E. destruct (RN (x * b)) as [r|[]|] eqn:Er; try done. apply (IH r r'); [|done].
    split; [exact R0|exact R1].
  - by destruct (Qeq_bool x' 0).
Qed.

Lemma d_of_u32 n : is_u32 n -> d_of_Z n = Fin (inject_Z n).
Proof. intros H. apply d_of_Z_exact. unfold is_u32 in H. lia. Qed.

Lemma below_Z a b : 0 <= a <= b -> below (Fin (inject_Z a)) (Fin (inject_Z b)).
Proof.
  intros H. unfold below, dnonneg. change (Fin 0) with (Fin (inject_Z 0)). rewrite !dle_Z. lia.
Qed.

(** What [perform] computes from medians in their range and multipliers that are numbers. *)
Lemma perform_inv z base prop ms i :
  is_u32 base -> is_u32 prop -> Forall dnonneg ms -> perform z base prop ms = Some i ->
  exists qb qp nb np, scale (d_of_Z base) ms = Fin qb /\ scale (d_of_Z prop) ms = Fin qp /\ (0 <= qb)%Q /\ (0 <= qp)%Q /\
    d_to_u32 (dround (Fin qb)) = Some nb /\ d_to_u32 (dround (Fin qp)) = Some np /\
    final_base i = (if bool_decide (z = ZeroBaseFee_Require) then 0
                    else if bool_decide (z = ZeroBaseFee_Disallow) && (nb =? 0) then 1 else nb) /\
    final_proportional i = (if np =? 0 then 1 else np).
Proof.
  intros Hb Hp Hms. unfold perform. rewrite !d_of_u32 by done.
  destruct (d_to_u32 (dround (scale (Fin (inject_Z base)) ms))) as [nb|] eqn:Eb; [|done].
  destruct (d_to_u32 (dround (scale (Fin (inject_Z prop)) ms))) as [np|] eqn:Ep; [|done]. cbn [mbind option_bind].
  assert (Forall2 below ms ms) as Hself.
  { clear - Hms. induction Hms as [|m ms Hm _ IH]; constructor; [|done]. split; [done|]. apply dle_refl.
    unfold dnonneg in Hm. by destruct m. }
  destruct (scale (Fin (inject_Z base)) ms) as [qb| |] eqn:Sb; try done.
  destruct (scale (Fin (inject_Z prop)) ms) as [qp| |] eqn:Sp; try done. unfold is_u32 in *.
  destruct (scale_below _ _ ms ms qb (below_Z base base ltac:(lia)) Hself Sb) as (q & Eq & Hq). rewrite Sb in Eq. injection Eq as <-.
  destruct (scale_below _ _ ms ms qp (below_Z prop prop ltac:(lia)) Hself Sp) as (q & Eq & Hq'). rewrite Sp in Eq. injection Eq as <-.
  intros [= <-]. exists qb, qp, nb, np. cbn [final_base final_proportional]. by split_and!; try lra.
Qed.

(** The fees of a channel.  Whenever the scaled medians round to 32 bits, the
    proportional fee is at least 1 and the base fee obeys the setting: 0 where a zero base
    fee is required, at least 1 where it is disallowed, and else the nearest integer.
    Lower medians and lower multipliers then give fees too, and none of them is higher. *)
Theorem fees_follow_policy z base prop ms i :
  is_u32 base -> is_u32 prop -> Forall dnonneg ms -> perform z base prop ms = Some i ->
  (1 <= final_proportional i < 2 ^ 32 /\ is_u32 (final_base i)) /\
  match z with
  | ZeroBaseFee_Require => final_base i = 0
  | ZeroBaseFee_Disallow => 1 <= final_base i
  | ZeroBaseFee_Allow =>
      exists q, scale (d_of_Z base) ms = Fin q /\
        (inject_Z (final_base i) - (1 # 2) <= q <= inject_Z (final_base i) + (1 # 2))%Q
  end /\
  forall base' prop' ms', 0 <= base' <= base -> 0 <= prop' <= prop -> Forall2 below ms' ms ->
    exists i', perform z base' prop' ms' = Some i' /\
      final_base i' <= final_base i /\ final_proportional i' <= final_proportional i.
Proof.
  intros Hb Hp Hms E. destruct (perform_inv z base prop ms i Hb Hp Hms E) as (qb & qp & nb & np & Sb & Sp & Qb & Qp & Eb & Ep & Fb & Fp).
  pose proof (to_u32_round qb nb Eb Qb) as (Nb & Nb1 & Nb2). pose proof (to_u32_round qp np Ep Qp) as (Np & Np1 & Np2). split_and!.
  - rewrite Fp. destruct (Z.eqb_spec np 0); lia.
  - rewrite Fp. destruct (Z.eqb_spec np 0); lia.
  - rewrite Fb. unfold is_u32. destruct z; simpl; [lia|lia|]. destruct (Z.eqb_spec nb 0); lia.
  - destruct z; simpl in Fb; [done|exists qb; split; [done|by rewrite Fb]|]. rewrite Fb. destruct (Z.eqb_spec nb 0); lia.
  - intros base' prop' ms' Hb' Hp' Hms'. unfold is_u32 in *. rewrite d_of_u32 in Sb, Sp by done.
    destruct (scale_below _ _ ms' ms qb (below_Z base' base Hb') Hms' Sb) as (qb' & Sb' & Hqb).
    destruct (scale_below _ _ ms' ms qp (below_Z prop' prop Hp') Hms' Sp) as (qp' & Sp' & Hqp).
    assert (Qfloor (qb' + (1 # 2)) <= nb) as Lb by (rewrite Nb1; apply Qfloor_resp_le; lra).
    assert (Qfloor (qp' + (1 # 2)) <= np) as Lp by (rewrite Np1; apply Qfloor_resp_le; lra).
    assert (forall q, (0 <= q)%Q -> 0 <= Qfloor (q + (1 # 2))) as Hpos.
    { intros q Hq. rewrite <- (Qfloor_Z 0). apply Qfloor_resp_le. change (inject_Z 0) with 0%Q. lra. }
    pose proof (Hpos qb' ltac:(lra)). pose proof (Hpos qp' ltac:(lra)).
    unfold perform. rewrite !d_of_u32 by (unfold is_u32; lia). rewrite Sb', Sp'.
    rewrite (to_u32_round_some qb' _ ltac:(lra) eq_refl), (to_u32_round_some qp' _ ltac:(lra) eq_refl) by lia.
    cbn [mbind option_bind]. eexists. split; [reflexivity|]. cbn [final_base final_proportional]. rewrite Fb, Fp. split.
    + set (f := Qfloor (qb' + (1 # 2))) in *. destruct z; simpl; [lia|lia|]. destruct (Z.eqb_spec f 0), (Z.eqb_spec nb 0); lia.
    + destruct (Z.eqb_spec (Qfloor (qp' + (1 # 2))) 0), (Z.eqb_spec np 0); lia.
Qed.

Definition demo_info : Info :=
  Eval vm_compute in default {| median_base := 0; median_proportional := 0; multiplier := NaN; final_base := 0; final_proportional := 0 |}
    (perform ZeroBaseFee_Allow 1000 100 [RN (12 # 10); RN (7 # 10)]).

Lemma fees_follow_policy_witness :
  final_base demo_info = 840 /\ final_proportional demo_info = 84 /\ 1 <= final_proportional demo_info < 2 ^ 32.
Proof.
  split; [reflexivity|]. split; [reflexivity|].
  destruct (fees_follow_policy ZeroBaseFee_Allow 1000 100 [RN (12 # 10); RN (7 # 10)] demo_info) as [[H _] _].
  - unfold is_u32. lia.
  - unfold is_u32. lia.
  - repeat constructor; vm_compute; reflexivity.
  - vm_compute. reflexivity.
  - exact H.
Defined.

(** A failed download of the channel map makes fees undefined.  The table of
    capacities is in place before the command is sent; when the command fails it stays
    there, empty.  The next multiplier of any peer with a competitor is then not a
    number, it is cached, and no fees can be computed from it. *)
Theorem failed_load_breaks_fees sqrt log e reply reply' answer s peer l l' :
  Size.Libm sqrt log -> Size.capacities s = None -> Size.get_competitors (Size.self_id s) reply = Some l -> l <> [] ->
  Size.get_competitors (Size.self_id s) reply' = Some l' -> l' <> [] -> Z.of_nat (length l') < 2 ^ 53 ->
  Size.multipliers s !! peer = None ->
  exists s1 s2, Size.compute_multiplier sqrt log (inr e) reply s = Some (s1, inr e) /\
    Size.get_cached_multiplier sqrt log answer reply' s1 peer = Some (s2, inl NaN) /\ Size.multipliers s2 !! peer = Some NaN /\
    forall z base prop ms, NaN ∈ ms -> perform z base prop ms = None.
Proof.
  intros HL Hc El Hne El' Hne' Hl' Hm. set (s1 := Size.set_capacities s (Some ∅)).
  assert (Size.calculate_multiplier sqrt log (Size.less ∅ (Size.self_id s) l') (Size.more ∅ (Size.self_id s) l') (Z.of_nat (length l')) = Some NaN) as EN.
  { assert (Size.less ∅ (Size.self_id s) l' = 0) as E1.
    { unfold Size.less. rewrite filter_none; [done|]. apply Forall_forall. intros n _. unfold Size.capacity_of. rewrite !lookup_empty. simpl. lia. }
    assert (Size.more ∅ (Size.self_id s) l' = 0) as E2.
    { unfold Size.more. rewrite filter_none; [done|]. apply Forall_forall. intros n _. unfold Size.capacity_of. rewrite !lookup_empty. simpl. lia. }
    pose proof (Size.multiplier_bands sqrt log 0 0 (Z.of_nat (length l')) ltac:(lia) ltac:(lia) ltac:(lia)) as Hb.
    rewrite E1, E2. destruct (Size.calculate_multiplier _ _ _ _ _) as [[q| |]|]; [|done..].
    destruct (Z.eqb_spec (Z.of_nat (length l')) 0) as [E0|]; [by destruct l'|]. lia. }
  destruct (Size.compute_loaded sqrt log answer reply' s1 ∅ l' eq_refl El' Hl') as (m & Em & E).
  change (Size.self_id s1) with (Size.self_id s) in Em. rewrite EN in Em. apply Some_inj in Em. subst m.
  exists s1. eexists. split; [by apply (Size.compute_failed _ _ _ _ _ l)|]. split.
  - unfold Size.get_cached_multiplier. cbn [s1 Size.set_capacities Size.multipliers]. rewrite Hm, E. reflexivity.
  - split; [simpl; apply lookup_insert_eq|]. intros z base prop ms Hin.
    assert (forall x, scale x ms = NaN) as HN.
    { intros x. unfold scale. apply list_elem_of_split in Hin as (l1 & l2 & ->). rewrite foldl_app. cbn [foldl].
      assert (dmul (foldl dmul x l1) NaN = NaN) as -> by (by destruct (foldl dmul x l1)).
      clear. induction l2 as [|m l2 IH]; [done|]. cbn [foldl]. by destruct m. }
    unfold perform. by rewrite !HN.
Qed.

Lemma failed_load_breaks_fees_witness :
  exists s1 s2,
    Size.compute_multiplier Size.demo_sqrt Size.demo_log (inr Runtime) Size.demo_reply (Size.reset Size.demo_state) = Some (s1, inr Runtime) /\
    Size.get_cached_multiplier Size.demo_sqrt Size.demo_log (inr Runtime) Size.demo_reply s1 None = Some (s2, inl NaN).
Proof.
  destruct (failed_load_breaks_fees Size.demo_sqrt Size.demo_log Runtime Size.demo_reply Size.demo_reply (inr Runtime)
    (Size.reset Size.demo_state) None [None] [None]) as (s1 & s2 & E1 & E2 & _).
  - apply Size.demo_libm.
  - reflexivity.
  - vm_compute. reflexivity.
  - discriminate.
  - vm_compute. reflexivity.
  - discriminate.
  - simpl. lia.
  - reflexivity.
  - exists s1, s2. split; [exact E1|exact E2].
Defined.

End FeeManager.
