(* ===== verification/Unmanaged.v ===== *)
(** * Unmanaged nodes

    The operator may exempt nodes from parts of the program, which are named by tags.

    - [Unmanaged] (src/Boss/Mod/UnmanagedManager.cpp): the table of tags, the command that
      changes it, and the informing of the modules that registered a tag.  The modules are
      src/Boss/Mod/ChannelFeeSetter.cpp ("lnfee"), RebalanceUnmanager.cpp ("balance"),
      PeerComplaintsDesk/Unmanager.cpp ("close") and
      ChannelCandidateInvestigator/Manager.cpp ("open"); each keeps a set of nodes.
    - [FeeSetter] (src/Boss/Mod/ChannelFeeSetter.cpp): the commands that set fees.

    A transaction of the database that is not committed leaves the tables, but what was
    changed in the memory of the modules stays. *)

From stdpp Require Import base list numbers strings gmap sets sorting.
From S2P Require Import Prelude.
From S2P Require Import Amount.
From S2P Require Import LnIds.
From S2P Require Import Jsmn.
From S2P Require Import Reply.
From S2P Require Import Bech32.
Import Jsmn.
Import Reply.

#[local] Open Scope Z_scope.
#[local] Open Scope reply_scope.

Abbreviation Node := NodeId.t.
Abbreviation Tag := bytes.

Module Unmanaged.

(** ** Tags *)

(** [std::getline] on [','], until the stream ends: the pieces that are not empty. *)
Definition split_tags (tagspec : bytes) : gset Tag :=
  list_to_set (filter (fun s => s <> []) (Bech32.split_by_char tagspec (chr ","))).

(** The order of [std::set<std::string>]. *)
Fixpoint str_le (a b : bytes) : bool :=
  match a, b with
  | [], _ => true
  | _ :: _, [] => false
  | x :: a, y :: b => if x <? y then true else if y <? x then false else str_le a b
  end.

Definition in_order (tags : gset Tag) : list Tag := merge_sort (fun a b => Is_true (str_le a b)) (base.elements tags).

Fixpoint join (sep : bytes) (l : list bytes) : bytes :=
  match l with
  | [] => []
  | [s] => s
  | s :: l => s ++ sep ++ join sep l
  end.

Definition combine_tags (tags : gset Tag) : bytes := join (lit ", ") (in_order tags).

(** ** The tables *)

(** [UnmanagedManager_nodes], in which node ids are unique, and [UnmanagedManager_tags],
    which has no row twice. *)
Record Db := { nodes : gmap Node Z; tags : gset (Z * Tag) }.

Definition new_rowid (m : gmap Node Z) : Z := 1 + foldr Z.max 0 (map snd (map_to_list m)).

Definition get_nodedbid (db : Db) (n : Node) : Db * Z :=
  match nodes db !! n with
  | Some i => (db, i)
  | None => let i := new_rowid (nodes db) in ({| nodes := <[n := i]> (nodes db); tags := tags db |}, i)
  end.

Definition tags_at (db : Db) (i : Z) : gset Tag := set_map snd (filter (fun r => r.1 = i) (tags db)).

Definition get_tags (db : Db) (n : Node) : Db * gset Tag :=
  let '(db, i) := get_nodedbid db n in (db, tags_at db i).

Definition set_tags (db : Db) (n : Node) (ts : gset Tag) : Db :=
  let '(db, i) := get_nodedbid db n in
  {| nodes := nodes db; tags := filter (fun r => r.1 <> i) (tags db) ∪ set_map (fun t => (i, t)) ts |}.

(** ** The modules that are informed *)

(** [unmanaged.erase(unmanaged.find(n))] is undefined where [n] is not in the set. *)
Definition erase_found (s : gset Node) (n : Node) : option (gset Node) :=
  if decide (n ∈ s) then Some (s ∖ {[n]}) else None.

Definition inform_lnfee (s : gset Node) (n : Node) (flag : bool) : option (gset Node) :=
  if flag then Some ({[n]} ∪ s) else erase_found s n.
Definition inform_balance (s : gset Node) (n : Node) (unmanage : bool) : option (gset Node) :=
  if unmanage then Some ({[n]} ∪ s) else Some (if decide (n ∈ s) then s ∖ {[n]} else s).
Definition inform_close (s : gset Node) (n : Node) (is_unmanaged : bool) : option (gset Node) :=
  if is_unmanaged then Some ({[n]} ∪ s) else erase_found s n.
(** Less the removal of the node from the candidates. *)
Definition inform_open (s : gset Node) (n : Node) (u : bool) : option (gset Node) :=
  if u then Some ({[n]} ∪ s) else erase_found s n.

Definition inform (t : Tag) : gset Node -> Node -> bool -> option (gset Node) :=
  if bool_decide (t = lit "balance") then inform_balance
  else if bool_decide (t = lit "lnfee") then inform_lnfee
  else if bool_decide (t = lit "close") then inform_close
  else inform_open.

Definition known_tags : list Tag := [lit "lnfee"; lit "balance"; lit "close"; lit "open"].

(** ** The manager *)

(** [informs] is the map of functions; [false] is an empty function, which [operator[]]
    leaves at a key that was not there.  [waiting] are the calls of a registration that
    were not yet made. *)
Record State := {
  db : Db; soliciting : bool; informs : gmap Tag bool; sets : gmap Tag (gset Node); waiting : list (Tag * Node)
}.

Definition set_of (s : State) (t : Tag) : gset Node := default ∅ (sets s !! t).

Definition with_db (s : State) (d : Db) : State :=
  {| db := d; soliciting := soliciting s; informs := informs s; sets := sets s; waiting := waiting s |}.

Inductive result := Done (s : State) | Failed (s : State) | Broken.

(** The call of the function of a tag; an empty function throws. *)
Definition call (s : State) (t : Tag) (n : Node) (flag : bool) : result :=
  match informs s !! t with
  | Some true =>
      match inform t (set_of s t) n flag with
      | Some x => Done {| db := db s; soliciting := soliciting s; informs := informs s; sets := <[t := x]> (sets s);
                          waiting := waiting s |}
      | None => Broken
      end
  | _ => Failed {| db := db s; soliciting := soliciting s; informs := <[t := false]> (informs s); sets := sets s;
                   waiting := waiting s |}
  end.

Fixpoint call_all (s : State) (ts : list Tag) (n : Node) (flag : bool) : result :=
  match ts with
  | [] => Done s
  | t :: ts => match call s t n flag with Done s => call_all s ts n flag | r => r end
  end.

Definition parse_params (informs : gmap Tag bool) (params : json) : outcome (Node * gset Tag) :=
  let* nodeid_j := if jis_array (Some params) then lift (jindex_nth (Some params) 0) else get (Some params) "nodeid" in
  let* tags_j := if jis_array (Some params) then lift (jindex_nth (Some params) 1) else get (Some params) "tags" in
  let* nodeid_s := text nodeid_j in
  let* nodeid := nodeid_of nodeid_s in
  let* tags_s := text tags_j in
  let ts := split_tags tags_s in
  if forallb (fun t => bool_decide (is_Some (informs !! t))) (in_order ts) then inl (nodeid, ts) else inr Runtime.

Definition unmanage (s : State) (params : json) : result :=
  match parse_params (informs s) params with
  | inr Undefined => Broken
  | inr _ => Failed s
  | inl (n, new_tags) =>
      let '(d, old_tags) := get_tags (db s) n in
      match call_all s (in_order (old_tags ∖ new_tags)) n false with
      | Done s =>
          match call_all s (in_order (new_tags ∖ old_tags)) n true with
          | Done s => Done (with_db s (set_tags d n new_tags))
          | r => r
          end
      | r => r
      end
  end.

(** ** The start *)

(** The nodes with a tag. *)
Definition tagged (d : Db) (t : Tag) : list Node :=
  map fst (filter (fun p => t ∈ tags_at d p.2) (map_to_list (nodes d))).

Inductive Event :=
| Begin                       (** [DbResource] *)
| Provide (t : Tag)           (** [ProvideUnmanagement] *)
| Inform (i : nat)            (** one of the calls of [Ev::foreach] is made *)
| End_                        (** the registrations are over *)
| Command (params : json).    (** [clboss-unmanage] *)

Definition state_of (r : result) : option State :=
  match r with Done s | Failed s => Some s | Broken => None end.

(** [None] is undefined behaviour. *)
Definition step (s : State) (e : Event) : option State :=
  match e with
  | Begin => Some {| db := db s; soliciting := true; informs := informs s; sets := sets s; waiting := waiting s |}
  | End_ => Some {| db := db s; soliciting := false; informs := informs s; sets := sets s; waiting := waiting s |}
  | Provide t =>
      Some (if soliciting s then
              {| db := db s; soliciting := true; informs := <[t := true]> (informs s); sets := sets s;
                 waiting := waiting s ++ map (pair t) (tagged (db s) t) |}
            else s)
  | Inform i =>
      match waiting s !! i with
      | Some (t, n) =>
          state_of (match call s t n true with
                    | Done s' | Failed s' => Done {| db := db s'; soliciting := soliciting s'; informs := informs s';
                                                    sets := sets s'; waiting := delete i (waiting s') |}
                    | Broken => Broken
                    end)
      | None => Some s
      end
  | Command params => state_of (unmanage s params)
  end.

Fixpoint run (s : State) (es : list Event) : option State :=
  match es with
  | [] => Some s
  | e :: es => match step s e with Some s => run s es | None => None end
  end.

(** The start of the program, with the tables of an earlier run. *)
Definition boot (d : Db) : State := {| db := d; soliciting := false; informs := ∅; sets := ∅; waiting := [] |}.

(** ** The tables keep their constraints *)

Record db_ok (d : Db) : Prop := {
  rowid_key : forall n m i, nodes d !! n = Some i -> nodes d !! m = Some i -> n = m;
  foreign_key : forall i t, (i, t) ∈ tags d -> exists n, nodes d !! n = Some i
}.

Definition tags_of (d : Db) (n : Node) : gset Tag :=
  match nodes d !! n with Some i => tags_at d i | None => ∅ end.

Lemma in_order_spec X t : t ∈ in_order X <-> t ∈ X.
Proof. unfold in_order. by rewrite merge_sort_Permutation, elem_of_elements. Qed.

Lemma in_order_NoDup X : NoDup (in_order X).
Proof. unfold in_order. rewrite merge_sort_Permutation. apply NoDup_elements. Qed.

Lemma tags_at_spec d i t : t ∈ tags_at d i <-> (i, t) ∈ tags d.
Proof.
  unfold tags_at. rewrite elem_of_map. split.
  - intros ([j u] & -> & [E H]%elem_of_filter). simpl in *. by subst.
  - intros H. exists (i, t). split; [done|]. by apply elem_of_filter.
Qed.

Lemma new_rowid_fresh m n i : m !! n = Some i -> i < new_rowid m.
Proof.
  intros H. unfold new_rowid. assert (i ∈ map snd (map_to_list m)) as Hin.
  { apply list_elem_of_fmap. exists (n, i). split; [done|]. by apply elem_of_map_to_list. }
  induction (map snd (map_to_list m)) as [|x l IH]; [by apply not_elem_of_nil in Hin|]. simpl.
  apply elem_of_cons in Hin as [->|Hin]; [lia|]. specialize (IH Hin). lia.
Qed.

Lemma get_nodedbid_spec d n d' i :
  db_ok d -> get_nodedbid d n = (d', i) ->
  db_ok d' /\ nodes d' !! n = Some i /\ tags d' = tags d /\ forall m, tags_of d' m = tags_of d m.
Proof.
  intros Hok. unfold get_nodedbid. destruct (nodes d !! n) as [j|] eqn:E; intros [= <- <-]; [done|].
  pose proof Hok as [Hk Hf].
  assert (forall m j, nodes d !! m = Some j -> j <> new_rowid (nodes d)) as Hfresh.
  { intros m j Hm ->. apply new_rowid_fresh in Hm. lia. }
  split; [split; simpl|split; [simpl; apply lookup_insert_eq|split; [done|]]].
  - intros a b j. destruct (decide (a = n)) as [->|Ha], (decide (b = n)) as [->|Hb];
      rewrite ?lookup_insert_eq, ?lookup_insert_ne by done; [done|..].
    + intros [= <-] Hb'. by apply Hfresh in Hb'.
    + intros Ha' [= <-]. by apply Hfresh in Ha'.
    + by apply Hk.
  - intros j t Hin. destruct (Hf j t Hin) as (m & Hm). exists m. rewrite lookup_insert_ne; [done|]. congruence.
  - intros m. unfold tags_of. simpl. destruct (decide (m = n)) as [->|Hm]; [|by rewrite lookup_insert_ne].
    rewrite lookup_insert_eq, E. apply set_eq. intros t. rewrite tags_at_spec. simpl. split; [|set_solver].
    intros Hin. destruct (Hf _ _ Hin) as (m & Hm). by apply Hfresh in Hm.
Qed.

Lemma get_tags_spec d n d' ts :
  db_ok d -> get_tags d n = (d', ts) -> db_ok d' /\ ts = tags_of d n /\ forall m, tags_of d' m = tags_of d m.
Proof.
  intros Hok. unfold get_tags. destruct (get_nodedbid d n) as [d1 i] eqn:E. intros [= <- <-].
  destruct (get_nodedbid_spec d n d1 i Hok E) as (H1 & H2 & H3 & H4). split; [done|]. split; [|done].
  rewrite <- H4. unfold tags_of. by rewrite H2.
Qed.

(** Setting the tags of a node sets them, and nothing else. *)
Lemma set_tags_spec d n ts :
  db_ok d -> db_ok (set_tags d n ts) /\ forall m, tags_of (set_tags d n ts) m = if decide (m = n) then ts else tags_of d m.
Proof.
  intros Hok. unfold set_tags. destruct (get_nodedbid d n) as [d1 i] eqn:E.
  destruct (get_nodedbid_spec d n d1 i Hok E) as (H1 & H2 & H3 & H4). pose proof H1 as [Hk Hf]. split.
  - split; simpl; [done|]. intros j t [[_ H]%elem_of_filter|H]%elem_of_union; [by eapply Hf|].
    apply elem_of_map in H as (u & [= -> ->] & _). by exists n.
  - intros m. rewrite <- H4. unfold tags_of. simpl. destruct decide as [->|Hne].
    + rewrite H2. apply set_eq. intros t. rewrite tags_at_spec. simpl. rewrite elem_of_union, elem_of_filter, elem_of_map. simpl.
      split; [intros [[? _]|(u & [= ->] & ?)]; done|]. intros Ht. right. by exists t.
    + destruct (nodes d1 !! m) as [j|] eqn:Em; [|done]. assert (j <> i) as Hji by (intros ->; by apply Hne, (Hk m n i)).
      apply set_eq. intros t. rewrite !tags_at_spec. simpl. rewrite elem_of_union, elem_of_filter, elem_of_map. simpl.
      split; [intros [[_ ?]|(u & [= -> ->] & _)]; done|]. intros Ht. by left.
Qed.

Lemma tagged_spec d t n : n ∈ tagged d t <-> t ∈ tags_of d n.
Proof.
  unfold tagged, tags_of. rewrite list_elem_of_fmap. split.
  - intros ([m i] & -> & H). apply list_elem_of_filter in H as [H1 H2]. apply elem_of_map_to_list in H2. simpl in *.
    by rewrite H2.
  - destruct (nodes d !! n) as [i|] eqn:E; [|set_solver]. intros H. exists (n, i). split; [done|].
    apply list_elem_of_filter. split; [done|]. by apply elem_of_map_to_list.
Qed.

(** ** Informing *)

Lemma inform_spec t S n flag :
  (flag = false -> n ∈ S) ->
  exists S', inform t S n flag = Some S' /\ forall m, m ∈ S' <-> if decide (m = n) then flag = true else m ∈ S.
Proof.
  intros H.
  assert (forall f : gset Node -> Node -> bool -> option (gset Node),
    f S n true = Some ({[n]} ∪ S) -> (n ∈ S -> f S n false = Some (S ∖ {[n]})) ->
    exists S', f S n flag = Some S' /\ forall m, m ∈ S' <-> if decide (m = n) then flag = true else m ∈ S) as Hf.
  { intros f F1 F2. destruct flag.
    - rewrite F1. eexists. split; [done|]. intros m. destruct decide; set_solver.
    - rewrite F2 by auto. eexists. split; [done|]. intros m. destruct decide; set_solver. }
  unfold inform. repeat case_bool_decide; apply Hf; try done; intros Hn;
    unfold inform_balance, inform_lnfee, inform_close, inform_open, erase_found; by rewrite decide_True.
Qed.

Lemma call_all_spec s ts n flag :
  NoDup ts -> (forall t, t ∈ ts -> informs s !! t = Some true /\ (flag = false -> n ∈ set_of s t)) ->
  exists s', call_all s ts n flag = Done s' /\ db s' = db s /\ informs s' = informs s /\ waiting s' = waiting s /\
    soliciting s' = soliciting s /\
    forall t m, m ∈ set_of s' t <-> if decide (t ∈ ts /\ m = n) then flag = true else m ∈ set_of s t.
Proof.
  intros Hnd. revert s. induction Hnd as [|t ts Ht Hnd IH]; intros s H.
  { exists s. split_and!; [done..|]. intros t m. rewrite decide_False; [done|]. by intros [?%not_elem_of_nil _]. }
  destruct (H t (list_elem_of_here _ _)) as [Hi Hm]. destruct (inform_spec t (set_of s t) n flag Hm) as (S' & ES & HS).
  simpl. unfold call. rewrite Hi, ES. set (s1 := {| db := db s |}).
  assert (forall u, set_of s1 u = if decide (u = t) then S' else set_of s u) as Hs1.
  { intros u. unfold set_of, s1. simpl. destruct decide as [->|]; [by rewrite lookup_insert_eq|by rewrite lookup_insert_ne]. }
  destruct (IH s1) as (s' & E & H1 & H2 & H3 & H4 & H5).
  { intros u Hu. destruct (H u) as [Hu1 Hu2]; [by right|]. split; [done|]. intros Hf. rewrite Hs1.
    rewrite decide_False; [by apply Hu2|by intros ->]. }
  exists s'. rewrite E. split_and!; [done..|]. intros u m. rewrite H5, Hs1. destruct (decide (u ∈ ts /\ m = n)) as [[? ->]|Hn].
  - rewrite decide_True; [done|]. split; [by right|done].
  - destruct (decide (u = t)) as [->|Hut].
    + rewrite HS. destruct (decide (m = n)) as [->|]; [rewrite decide_True; [done|split; [left|done]]|].
      rewrite decide_False; [done|]. by intros [_ ?].
    + rewrite decide_False; [done|]. intros [[->|?]%elem_of_cons ->]; [done|]. by apply Hn.
Qed.

(** ** The modules and the table agree *)

(** After the registrations: every tag of the table is registered, and the set of a
    registered tag is that of the nodes with the tag. *)
Record in_sync (s : State) : Prop := {
  sync_db : db_ok (db s);
  sync_functions : forall t b, informs s !! t = Some b -> b = true;
  sync_registered : forall n t, t ∈ tags_of (db s) n -> informs s !! t = Some true;
  sync_sets : forall t n, informs s !! t = Some true -> n ∈ set_of s t <-> t ∈ tags_of (db s) n
}.

Lemma parse_params_known m params n ts :
  parse_params m params = inl (n, ts) -> forall t, t ∈ ts -> is_Some (m !! t).
Proof.
  unfold parse_params. intros E t Ht.
  destruct (if jis_array (Some params) then _ else _) as [nj|]; cbn [obind] in E; [|done].
  destruct (if jis_array (Some params) then _ else _) as [tj|]; cbn [obind] in E; [|done].
  destruct (text nj) as [ns|]; cbn [obind] in E; [|done]. destruct (nodeid_of ns) as [id|]; cbn [obind] in E; [|done].
  destruct (text tj) as [tx|]; cbn [obind] in E; [|done]. destruct (forallb _ _) eqn:F; [|done]. injection E as <- <-.
  rewrite forallb_forall in F. by apply in_order_spec, list_elem_of_In, F, bool_decide_eq_true in Ht.
Qed.

(** The command, in all its cases. *)
Lemma unmanage_spec s params :
  in_sync s ->
  match parse_params (informs s) params with
  | inl (n, ts) =>
      exists s', unmanage s params = Done s' /\ in_sync s' /\ informs s' = informs s /\
        forall m, tags_of (db s') m = if decide (m = n) then ts else tags_of (db s) m
  | inr Undefined => True
  | inr _ => unmanage s params = Failed s
  end.
Proof.
  intros Hs. pose proof Hs as [Hdb Hfun Hreg Hsets]. unfold unmanage.
  destruct (parse_params (informs s) params) as [[n ts]|[]] eqn:Ep; [|done..].
  assert (forall t, t ∈ ts -> informs s !! t = Some true) as Hts.
  { intros t Ht. destruct (parse_params_known _ _ _ _ Ep t Ht) as [b Hb]. rewrite Hb. f_equal. by apply (Hfun t). }
  destruct (get_tags (db s) n) as [d old] eqn:Eg. destruct (get_tags_spec _ _ _ _ Hdb Eg) as (Hd & -> & Hof).
  destruct (call_all_spec s (in_order (tags_of (db s) n ∖ ts)) n false) as (s1 & E1 & D1 & I1 & W1 & S1 & M1).
  { apply in_order_NoDup. }
  { intros t Ht%in_order_spec%elem_of_difference. destruct Ht as [Ht _]. pose proof (Hreg n t Ht). split; [done|].
    intros _. by apply Hsets. }
  destruct (call_all_spec s1 (in_order (ts ∖ tags_of (db s) n)) n true) as (s2 & E2 & D2 & I2 & W2 & S2 & M2).
  { apply in_order_NoDup. }
  { intros t Ht%in_order_spec%elem_of_difference. destruct Ht as [Ht _]. rewrite I1. by split; [apply Hts|]. }
  rewrite E1, E2. eexists. split; [reflexivity|]. destruct (set_tags_spec d n ts Hd) as [Hok Htags].
  assert (forall m, tags_of (set_tags d n ts) m = if decide (m = n) then ts else tags_of (db s) m) as Htags'
    by (intros m; rewrite Htags; by destruct decide).
  split; [|split; [simpl; congruence|exact Htags']]. split; simpl.
  - done.
  - rewrite I2, I1. done.
  - intros m t. rewrite Htags', I2, I1. destruct decide; [by apply Hts|by apply Hreg].
  - intros t m Ht. rewrite I2, I1 in Ht. unfold set_of. simpl. change (default ∅ (sets s2 !! t)) with (set_of s2 t).
    rewrite M2, Htags'. pose proof (M1 t m) as M1'. pose proof (in_order_spec (tags_of (db s) n ∖ ts) t) as J1.
    pose proof (in_order_spec (ts ∖ tags_of (db s) n) t) as J2. rewrite elem_of_difference in J1, J2.
    destruct (decide (m = n)) as [->|Hm].
    + pose proof (Hsets t n Ht) as Hst. destruct (decide (t ∈ ts)), (decide (t ∈ tags_of (db s) n)).
      * rewrite decide_False in M1' by naive_solver. rewrite decide_False by naive_solver. tauto.
      * rewrite decide_True by naive_solver. tauto.
      * rewrite decide_True in M1' by naive_solver. rewrite decide_False by naive_solver. rewrite M1'. by split.
      * rewrite decide_False in M1' by naive_solver. rewrite decide_False by naive_solver. tauto.
    + rewrite decide_False in M1' by naive_solver. rewrite decide_False by naive_solver. rewrite M1'. by apply Hsets.
Qed.

(** ** The registrations *)

(** While modules register: what a set lacks is waiting. *)
Record starting (d : Db) (s : State) : Prop := {
  start_db : db s = d;
  start_functions : forall t b, informs s !! t = Some b -> b = true;
  start_sound : forall t n, n ∈ set_of s t -> t ∈ tags_of d n;
  start_waiting : forall t n, (t, n) ∈ waiting s -> t ∈ tags_of d n /\ informs s !! t = Some true;
  start_complete : forall t n, informs s !! t = Some true -> t ∈ tags_of d n -> n ∈ set_of s t \/ (t, n) ∈ waiting s
}.

Definition registering (e : Event) : Prop := match e with Command _ => False | _ => True end.

Lemma boot_starting d : starting d (boot d).
Proof. split; simpl; try done; unfold set_of; simpl; intros t n; rewrite ?lookup_empty; set_solver. Qed.

Lemma step_starting d s e : starting d s -> registering e -> exists s', step s e = Some s' /\ starting d s'.
Proof.
  intros Hs He. pose proof Hs as [H1 H2 H3 H4 H5]. destruct e as [|t|i| |params]; simpl; [..|done].
  - eexists. split; [done|]. by split.
  - eexists. split; [done|]. destruct (soliciting s); [|done]. split; simpl.
    + done.
    + intros u b. destruct (decide (u = t)) as [->|]; [rewrite lookup_insert_eq; by intros [= <-]|].
      rewrite lookup_insert_ne by done. apply H2.
    + done.
    + intros u n [Hw|Hw]%elem_of_app.
      * destruct (H4 u n Hw) as [Hu1 Hu2]. split; [done|]. destruct (decide (u = t)) as [->|]; [by rewrite lookup_insert_eq|].
        by rewrite lookup_insert_ne.
      * apply list_elem_of_fmap in Hw as (m & [= -> ->] & Hm%tagged_spec). rewrite H1 in Hm. split; [done|].
        by rewrite lookup_insert_eq.
    + intros u n Hu Hn. destruct (decide (u = t)) as [->|].
      * right. apply elem_of_app. right. apply list_elem_of_fmap. exists n. split; [done|]. apply tagged_spec. by rewrite H1.
      * rewrite lookup_insert_ne in Hu by done. destruct (H5 u n Hu Hn) as [|Hw]; [by left|]. right. apply elem_of_app. by left.
  - destruct (waiting s !! i) as [[t n]|] eqn:Ew; [|by exists s].
    pose proof (list_elem_of_lookup_2 _ _ _ Ew) as Hin. destruct (H4 t n Hin) as [Ht Hi].
    destruct (inform_spec t (set_of s t) n true) as (S' & ES & HS); [done|]. unfold call. rewrite Hi, ES. cbn [state_of].
    eexists. split; [reflexivity|].
    match goal with |- starting _ ?x => set (s' := x) end.
    assert (forall u m, m ∈ set_of s' u <-> (u = t /\ m = n) \/ m ∈ set_of s u) as Hset.
    { intros u m. unfold set_of at 1, s'. simpl. destruct (decide (u = t)) as [->|Hu].
      - rewrite lookup_insert_eq. simpl. rewrite HS. destruct decide; naive_solver.
      - rewrite lookup_insert_ne by done. change (default ∅ (sets s !! u)) with (set_of s u). naive_solver. }
    split; [done|done| | |].
    + intros u m [[-> ->]|Hm]%Hset; [done|by apply H3].
    + intros u m Hw. simpl in Hw. apply H4. eapply list_elem_of_In, (proj1 (list_elem_of_In _ _)).
      rewrite delete_take_drop in Hw. apply elem_of_app in Hw as [Hw|Hw];
        [by eapply subseteq_take|by eapply subseteq_drop].
    + intros u m Hu Hm. rewrite Hset. destruct (H5 u m Hu Hm) as [?|Hw]; [by left; right|].
      apply list_elem_of_lookup_1 in Hw as [k Hk]. destruct (decide (k = i)) as [->|Hne].
      * rewrite Ew in Hk. injection Hk as <- <-. by left; left.
      * right. simpl. rewrite delete_take_drop. apply elem_of_app. destruct (decide (k < i)%nat).
        -- left. apply (list_elem_of_lookup_2 _ k). by rewrite lookup_take_lt.
        -- right. apply (list_elem_of_lookup_2 _ (k - S i)). rewrite lookup_drop. replace (S i + (k - S i))%nat with k by lia. done.
  - eexists. split; [done|]. by split.
Qed.

Lemma run_starting d s es : starting d s -> Forall registering es -> exists s', run s es = Some s' /\ starting d s'.
Proof.
  intros Hs He. revert s Hs. induction He as [|e es He _ IH]; intros s Hs; [by exists s|].
  destruct (step_starting d s e Hs He) as (s1 & E & Hs1). simpl. rewrite E. by apply IH.
Qed.

Lemma started_in_sync d s :
  db_ok d -> starting d s -> waiting s = [] -> (forall n t, t ∈ tags_of d n -> is_Some (informs s !! t)) -> in_sync s.
Proof.
  intros Hd [H1 H2 H3 H4 H5] Hw Hall. split.
  - by rewrite H1.
  - done.
  - rewrite H1. intros n t Ht. destruct (Hall n t Ht) as [b Hb]. rewrite Hb. f_equal. by apply (H2 t).
  - rewrite H1. intros t n Ht. split; [apply H3|]. intros Hn. destruct (H5 t n Ht Hn) as [|Hx]; [done|].
    rewrite Hw in Hx. by apply not_elem_of_nil in Hx.
Qed.

(** ** Properties *)

(** The texts of the parameters are read without undefined behaviour. *)
Definition readable (params : json) : Prop := forall m, parse_params m params <> inr Undefined.

Lemma run_commands s cmds :
  in_sync s -> Forall readable cmds -> exists s', run s (map Command cmds) = Some s' /\ in_sync s'.
Proof.
  intros Hs Hc. revert s Hs. induction Hc as [|p cmds Hp _ IH]; intros s Hs; [by exists s|]. cbn [map run step].
  pose proof (unmanage_spec s p Hs) as H. specialize (Hp (informs s)).
  destruct (parse_params (informs s) p) as [[n ts]|[]]; [|rewrite H; by apply IH..|done].
  destruct H as (s1 & -> & Hs1 & _). by apply IH.
Qed.

(** C19: Once the modules have registered and none waits to be told of the nodes of its tag,
    and if every tag in the table is that of a registered module, the table and the memory
    of the modules agree after any commands whose parameters can be read: the set of a
    module is that of the nodes with its tag, and no module is told to forget a node that
    it does not have.  A command either sets the tags of its node to those given, and of
    no other, or fails and changes nothing.  (With a stored tag of no module, or a command
    before a module is told, removals are undefined: [undefined_removals].) *)
Theorem modules_follow_table d es s cmds :
  db_ok d -> Forall registering es -> run (boot d) es = Some s -> waiting s = [] ->
  (forall n t, t ∈ tags_of d n -> is_Some (informs s !! t)) -> Forall readable cmds ->
  exists s', run s (map Command cmds) = Some s' /\ in_sync s' /\
    forall params, match parse_params (informs s') params with
      | inl (n, ts) =>
          exists s'', unmanage s' params = Done s'' /\ in_sync s'' /\ informs s'' = informs s' /\
            forall m, tags_of (db s'') m = if decide (m = n) then ts else tags_of (db s') m
      | inr Undefined => True
      | inr _ => unmanage s' params = Failed s'
      end.
Proof.
  intros Hd He Hr Hw Hall Hc. destruct (run_starting d (boot d) es (boot_starting d) He) as (s1 & E & Hs1).
  rewrite Hr in E. apply Some_inj in E. subst s1. pose proof (started_in_sync d s Hd Hs1 Hw Hall) as Hsync.
  destruct (run_commands s cmds Hsync Hc) as (s' & E' & Hs'). exists s'. split; [done|]. split; [done|].
  intros params. by apply unmanage_spec.
Qed.

Lemma readable_pair a b sa n sb :
  text (Some a) = inl sa -> nodeid_of sa = inl n -> text (Some b) = inl sb -> readable (JArr [a; b]).
Proof.
  intros Ea En Eb m. unfold parse_params. cbn [jis_array lift jindex_nth lookup list_lookup obind].
  rewrite Ea. cbn [obind]. rewrite En, Eb. cbn [obind]. by destruct (forallb _ _).
Qed.

Definition demo_id : bytes := replicate 66 (chr "0").
Definition demo_params (ts : string) : json := JArr [JStr demo_id; JStr (lit ts)].
Definition demo_db (ts : list Tag) : Db := {| nodes := {[ None := 1 ]}; tags := list_to_set (map (pair 1) ts) |}.

Lemma demo_db_ok ts : db_ok (demo_db ts).
Proof.
  split; simpl.
  - intros n m i Hn Hm. apply lookup_singleton_Some in Hn as [<- _], Hm as [<- _]. done.
  - intros i t Hi. apply elem_of_list_to_set, list_elem_of_fmap in Hi as (u & [= -> ->] & _). exists None. apply lookup_singleton_eq.
Qed.

Definition demo_registration : list Event := Begin :: map Provide known_tags ++ [Inform 0; Inform 0; End_].
Definition demo_state : State :=
  Eval vm_compute in default (boot (demo_db [])) (run (boot (demo_db [lit "lnfee"; lit "close"])) demo_registration).
Definition demo_later : State :=
  Eval vm_compute in default demo_state (run demo_state [Command (demo_params "open,lnfee"); Command (demo_params "nonsense")]).

Lemma modules_follow_table_witness :
  in_sync demo_later /\ None ∈ set_of demo_later (lit "open") /\ None ∉ set_of demo_later (lit "close").
Proof.
  destruct (modules_follow_table (demo_db [lit "lnfee"; lit "close"]) demo_registration demo_state
    [demo_params "open,lnfee"; demo_params "nonsense"]) as (s' & E & Hs & _).
  - apply demo_db_ok.
  - repeat constructor.
  - vm_compute. reflexivity.
  - vm_compute. reflexivity.
  - intros n t Ht. unfold tags_of in Ht. simpl in Ht. destruct (decide (n = None)) as [->|Hn].
    + rewrite lookup_singleton_eq in Ht. apply tags_at_spec in Ht. simpl in Ht.
      assert (t = lit "lnfee" \/ t = lit "close") as [-> | ->] by set_solver; vm_compute; by eexists.
    + rewrite lookup_singleton_ne in Ht by done. by apply elem_of_empty in Ht.
  - constructor; [|constructor; [|constructor]]; eapply readable_pair; vm_compute; reflexivity.
  - assert (s' = demo_later) as ->. { apply Some_inj. rewrite <- E. vm_compute. reflexivity. }
    split; [exact Hs|]. split; [apply (bool_decide_unpack _); vm_compute; exact I|apply (bool_decide_unpack _); vm_compute; exact I].
Defined.

(** Two ways to an undefined removal.  A command that clears the tags of a node while
    the modules are still being told of the nodes of their tags makes a module forget a
    node it does not know yet.  And where the table has a tag that no module registers, a
    command that clears the tags of that node fails halfway: the modules have forgotten
    the node but the table has not, so that the same command, given again, makes a
    module forget the node twice. *)
Theorem undefined_removals :
  (exists d es, db_ok d /\ run (boot d) [Begin; Provide (lit "lnfee"); es] = None /\
     exists s, run (boot d) [Begin; Provide (lit "lnfee"); Inform 0; es] = Some s /\ in_sync s) /\
  (exists d s s', db_ok d /\ run (boot d) (Begin :: map Provide known_tags ++ [Inform 0; End_]) = Some s /\
     unmanage s (demo_params "") = Failed s' /\ db s' = db s /\ set_of s (lit "close") = {[ None ]} /\
     set_of s' (lit "close") = ∅ /\ unmanage s' (demo_params "") = Broken).
Proof.
  split.
  - exists (demo_db [lit "lnfee"]), (Command (demo_params "")). split; [apply demo_db_ok|]. split; [vm_compute; reflexivity|].
    assert (in_sync {| db := demo_db [lit "lnfee"]; soliciting := true; informs := {[ lit "lnfee" := true ]};
      sets := {[ lit "lnfee" := {[ None ]} ]}; waiting := [] |}) as Hs.
    { eapply (started_in_sync (demo_db [lit "lnfee"])); [apply demo_db_ok| |done|].
      - destruct (run_starting _ _ [Begin; Provide (lit "lnfee"); Inform 0] (boot_starting (demo_db [lit "lnfee"]))) as (s & E & Hs);
          [by repeat constructor|]. vm_compute in E. apply Some_inj in E. subst s. exact Hs.
      - intros n t Ht. unfold tags_of in Ht. simpl in Ht. destruct (decide (n = None)) as [->|Hn].
        + rewrite lookup_singleton_eq in Ht. apply tags_at_spec in Ht. simpl in Ht.
          assert (t = lit "lnfee") as -> by set_solver. simpl. rewrite lookup_singleton_eq. by eexists.
        + rewrite lookup_singleton_ne in Ht by done. by apply elem_of_empty in Ht. }
    pose proof (unmanage_spec _ (demo_params "") Hs) as H.
    replace (parse_params _ (demo_params "")) with (@inl (Node * gset Tag) failure (None, ∅)) in H by (vm_compute; reflexivity).
    destruct H as (s' & E & Hs' & _). exists s'. split; [|done]. cbn [run].
    replace (step (boot (demo_db [lit "lnfee"])) Begin) with (Some {| db := demo_db [lit "lnfee"]; soliciting := true; informs := ∅; sets := ∅; waiting := [] |})
      by (vm_compute; reflexivity).
    cbn [step]. vm_compute in E. vm_compute. exact (f_equal state_of E).
  - exists (demo_db [lit "close"; lit "old"]).
    eexists. eexists. split; [apply demo_db_ok|].
    split; [vm_compute; reflexivity|]. split; [vm_compute; reflexivity|]. by vm_compute.
Qed.

(** The status shows tags in a form that the command does not take back: all but the
    first get a space. *)
Example shown_tags_not_taken :
  combine_tags (list_to_set [lit "open"; lit "close"]) = lit "close, open" /\
  split_tags (lit "close, open") = list_to_set [lit "close"; lit " open"].
Proof. split; vm_compute; reflexivity. Qed.

End Unmanaged.

(** ** Setting fees *)

Module FeeSetter.

Record SetChannelFee := { node : Node; base : Z; proportional : Z }.

(** [setchannel] or [setchannelfee], and its parameters. *)
Record Command := { name : string; base_field : string; ppm_field : string; fee : SetChannelFee }.

Record State := { rpc : bool; have_setchannel : bool; pending : list SetChannelFee; unmanaged : gset Node }.

Definition start : State := {| rpc := false; have_setchannel := false; pending := []; unmanaged := ∅ |}.

(** What is sent to the node before the first wait. *)
Definition set (s : State) (m : SetChannelFee) : list Command :=
  if decide (node m ∈ unmanaged s) then []
  else [{| name := if have_setchannel s then "setchannel" else "setchannelfee";
           base_field := if have_setchannel s then "feebase" else "base";
           ppm_field := if have_setchannel s then "feeppm" else "ppm"; fee := m |}].

Inductive Event :=
| AvailableRpcCommands (commands : list string)
| Init
| Fee (m : SetChannelFee)
| Unmanage (n : Node) (flag : bool).

(** [None] is undefined behaviour. *)
Definition step (s : State) (e : Event) : option (State * list Command) :=
  match e with
  | AvailableRpcCommands commands =>
      Some ({| rpc := rpc s; have_setchannel := bool_decide ("setchannel"%string ∈ commands); pending := pending s;
               unmanaged := unmanaged s |}, [])
  | Init =>
      Some ({| rpc := true; have_setchannel := have_setchannel s; pending := []; unmanaged := unmanaged s |},
            concat (map (set s) (pending s)))
  | Fee m =>
      if negb (rpc s) then
        Some ({| rpc := rpc s; have_setchannel := have_setchannel s; pending := pending s ++ [m]; unmanaged := unmanaged s |}, [])
      else Some (s, set s m)
  | Unmanage n flag =>
      u ← Unmanaged.inform_lnfee (unmanaged s) n flag;
      Some ({| rpc := rpc s; have_setchannel := have_setchannel s; pending := pending s; unmanaged := u |}, [])
  end.

(** The commands of an event are for nodes that are managed at that time, each with the
    fees of a message that just came or was pending; every such message is served. *)
Lemma commands_of_step s e s' out :
  step s e = Some (s', out) ->
  (forall c, c ∈ out -> node (fee c) ∉ unmanaged s) /\
  match e with
  | Init => pending s' = [] /\ map fee out = filter (fun m => node m ∉ unmanaged s) (pending s)
  | Fee m => if rpc s then map fee out = filter (fun m => node m ∉ unmanaged s) [m]
             else out = [] /\ pending s' = pending s ++ [m]
  | _ => out = [] /\ pending s' = pending s
  end.
Proof.
  assert (forall m, map fee (set s m) = filter (fun m => node m ∉ unmanaged s) [m]) as Hone.
  { intros m. unfold set. rewrite filter_cons, filter_nil.
    destruct (decide (node m ∈ unmanaged s)); [rewrite decide_False by tauto|rewrite decide_True by done]; done. }
  assert (forall l, map fee (concat (map (set s) l)) = filter (fun m => node m ∉ unmanaged s) l) as Hall.
  { induction l as [|m l IH]; [done|]. cbn [map concat]. rewrite map_app, IH, Hone. by rewrite <- filter_app. }
  assert (forall out l, map fee out = filter (fun m => node m ∉ unmanaged s) l -> forall c, c ∈ out -> node (fee c) ∉ unmanaged s) as Hok.
  { intros o l El c Hc. assert (fee c ∈ map fee o) as Hm by (apply list_elem_of_fmap; eauto). rewrite El in Hm.
    by apply list_elem_of_filter in Hm as [? _]. }
  destruct e as [cs| |m|n flag]; simpl.
  - intros [= <- <-]. split; [set_solver|done].
  - intros [= <- <-]. split; [eapply Hok, Hall|]. split; [done|apply Hall].
  - destruct (rpc s); simpl; intros [= <- <-]; [split; [eapply Hok, Hone|apply Hone]|split; [set_solver|done]].
  - destruct (Unmanaged.inform_lnfee _ _ _); [|done]. simpl. intros [= <- <-]. split; [set_solver|done].
Qed.

End FeeSetter.
