(* ===== verification/Complaints.v ===== *)
(** * Complaints about peers and the closing of channels (src/Boss/Mod/PeerComplaintsDesk)

    - [Recorder] (Recorder.cpp): the tables of complaints, of complaints on closed
      channels and of deferred closes;
    - [Exempter] (Exempter.cpp): which peers are exempt, and why;
    - [Desk] (Main.cpp): collecting complaints twice a day, and every ten minutes closing
      the channels of the peers with too many of them.

    The handlers wait for the node and for the database; the desk is a state machine whose
    steps are the parts between waits, and the closes under way are tasks that proceed in
    any order.  Times are the doubles of [Ev::now()], and a part gets the time it sees. *)

From stdpp Require Import base list numbers strings gmap sets sorting.
From Stdlib Require Import QArith Qround Lqa.
From S2P Require Import Prelude.
From S2P Require Import Double.
From S2P Require Import Amount.
From S2P Require Import LnIds.
From S2P Require Import Jsmn.
From S2P Require Import Reply.
From S2P Require Import Unmanaged.
Import Jsmn.
Import Reply.

#[local] Open Scope Z_scope.
#[local] Open Scope reply_scope.

Abbreviation Node := NodeId.t.

(** ** The tables *)

Module Recorder.

(** [ignored] has the reason of an ignored complaint. *)
Record Complaint := { peer : Z; time : double; complaint : bytes; ignored : option bytes }.
Record ClosedComplaint := { cc_peer : Z; cc_time : double; closedtime : double; cc_complaint : bytes }.

Record Db := {
  peers : gmap Node Z; complaints : list Complaint; closedcomplaints : list ClosedComplaint; closepending : gmap Z double
}.

Definition empty : Db := {| peers := ∅; complaints := []; closedcomplaints := []; closepending := ∅ |}.

Definition get_peerdbid (d : Db) (n : Node) : Db * Z :=
  match peers d !! n with
  | Some i => (d, i)
  | None =>
      let i := Unmanaged.new_rowid (peers d) in
      ({| peers := <[n := i]> (peers d); complaints := complaints d; closedcomplaints := closedcomplaints d;
          closepending := closepending d |}, i)
  end.

Definition insert_complaint (d : Db) (n : Node) (c : bytes) (ign : option bytes) (now : double) : Db :=
  let '(d, i) := get_peerdbid d n in
  {| peers := peers d; complaints := complaints d ++ [{| peer := i; time := now; complaint := c; ignored := ign |}];
     closedcomplaints := closedcomplaints d; closepending := closepending d |}.

Definition add_complaint (d : Db) (n : Node) (c : bytes) (now : double) : Db := insert_complaint d n c None now.
Definition add_ignored_complaint (d : Db) (n : Node) (c reason : bytes) (now : double) : Db :=
  insert_complaint d n c (Some reason) now.

(** The complaints that count. *)
Definition heeded (c : Complaint) : bool := match ignored c with None => true | Some _ => false end.

(** [NATURAL JOIN] on the id of the peer. *)
Definition nodes_of (d : Db) (i : Z) : list Node := map fst (filter (fun p => p.2 = i) (map_to_list (peers d))).

Definition tick (m : gmap Node Z) (n : Node) : gmap Node Z :=
  match m !! n with Some k => <[n := k + 1]> m | None => <[n := 1]> m end.

Definition check_complaints (d : Db) : gmap Node Z :=
  foldl tick ∅ (concat (map (fun c => nodes_of d (peer c)) (filter heeded (complaints d)))).

Definition close_complaint (now : double) (c : Complaint) : ClosedComplaint :=
  {| cc_peer := peer c; cc_time := time c; closedtime := now; cc_complaint := complaint c |}.

Definition channel_closed (d : Db) (n : Node) (now : double) : Db :=
  let '(d, i) := get_peerdbid d n in
  {| peers := peers d; complaints := filter (fun c => peer c <> i) (complaints d);
     closedcomplaints := closedcomplaints d
       ++ map (close_complaint now) (filter heeded (filter (fun c => peer c = i) (complaints d)));
     closepending := closepending d |}.

(** [INSERT OR IGNORE] *)
Definition note_close_pending (d : Db) (n : Node) (since : double) : Db :=
  let '(d, i) := get_peerdbid d n in
  {| peers := peers d; complaints := complaints d; closedcomplaints := closedcomplaints d;
     closepending := match closepending d !! i with Some _ => closepending d | None => <[i := since]> (closepending d) end |}.

Definition get_close_pending (d : Db) (n : Node) : option double :=
  i ← peers d !! n; closepending d !! i.

(** The peers with a deferred close. *)
Definition get_close_pendings (d : Db) : list Node :=
  map fst (filter (fun p => is_Some (closepending d !! p.2)) (map_to_list (peers d))).

Definition clear_close_pending (d : Db) (n : Node) : Db :=
  match peers d !! n with
  | Some i => {| peers := peers d; complaints := complaints d; closedcomplaints := closedcomplaints d;
                 closepending := delete i (closepending d) |}
  | None => d
  end.

(** Deleting a peer deletes its rows in the other tables. *)
Definition delete_peer (d : Db) (i : Z) : Db :=
  {| peers := filter (fun p => p.2 <> i) (peers d); complaints := filter (fun c => peer c <> i) (complaints d);
     closedcomplaints := filter (fun c => cc_peer c <> i) (closedcomplaints d); closepending := delete i (closepending d) |}.

Definition drop_if_unused (d : Db) (i : Z) : Db :=
  if existsb (fun c => peer c =? i) (complaints d) then d
  else if existsb (fun c => cc_peer c =? i) (closedcomplaints d) then d
  else delete_peer d i.

Definition cleanup (d : Db) (complaint_age closed_age : double) (now now' : double) : Db :=
  let d := {| peers := peers d;
              complaints := filter (fun c => dlt (time c) (dsub now complaint_age) = false) (complaints d);
              closedcomplaints := filter (fun c => dlt (cc_time c) (dsub now' closed_age) = false) (closedcomplaints d);
              closepending := closepending d |} in
  foldl drop_if_unused d (map snd (map_to_list (peers d))).

(** *** The constraints of the tables *)

Record db_ok (d : Db) : Prop := {
  peer_key : forall n m i, peers d !! n = Some i -> peers d !! m = Some i -> n = m;
  complaint_key : forall c, c ∈ complaints d -> exists n, peers d !! n = Some (peer c);
  closed_key : forall c, c ∈ closedcomplaints d -> exists n, peers d !! n = Some (cc_peer c);
  pending_key : forall i t, closepending d !! i = Some t -> exists n, peers d !! n = Some i
}.

Lemma empty_ok : db_ok empty.
Proof. split; simpl; try set_solver; intros *; by rewrite lookup_empty. Qed.

Lemma get_peerdbid_spec d n d' i :
  db_ok d -> get_peerdbid d n = (d', i) ->
  db_ok d' /\ peers d' !! n = Some i /\ complaints d' = complaints d /\ closedcomplaints d' = closedcomplaints d /\
  closepending d' = closepending d /\ forall m, get_close_pending d' m = get_close_pending d m.
Proof.
  intros Hok. unfold get_peerdbid. destruct (peers d !! n) as [j|] eqn:E; intros [= <- <-]; [done|].
  assert (forall m j, peers d !! m = Some j -> j <> Unmanaged.new_rowid (peers d) /\ m <> n) as Hfresh.
  { intros m j Hm. split; [intros ->; apply Unmanaged.new_rowid_fresh in Hm; lia|congruence]. }
  assert (forall j, (exists m, peers d !! m = Some j) ->
    exists m, <[n := Unmanaged.new_rowid (peers d)]> (peers d) !! m = Some j) as Hkeep.
  { intros j (m & Hm). exists m. destruct (Hfresh m j Hm). by rewrite lookup_insert_ne. }
  pose proof Hok as [Hk Hc Hcc Hp]. split; [split; simpl|split; [simpl; apply lookup_insert_eq|split_and!; try done]].
  - intros a b j. destruct (decide (a = n)) as [->|Ha], (decide (b = n)) as [->|Hb];
      rewrite ?lookup_insert_eq, ?lookup_insert_ne by done; [done|..].
    + intros [= <-] Hb'. by destruct (Hfresh _ _ Hb').
    + intros Ha' [= <-]. by destruct (Hfresh _ _ Ha').
    + by apply Hk.
  - intros c Hin. by apply Hkeep, Hc.
  - intros c Hin. by apply Hkeep, Hcc.
  - intros j t Hj. by eapply Hkeep, Hp.
  - intros m. unfold get_close_pending. simpl. destruct (decide (m = n)) as [->|Hm]; [|by rewrite lookup_insert_ne].
    rewrite lookup_insert_eq, E. simpl. destruct (closepending d !! _) as [t|] eqn:Et; [|done].
    destruct (Hp _ _ Et) as (m & Hm). by destruct (Hfresh _ _ Hm).
Qed.

Lemma insert_complaint_spec d n c ign now :
  db_ok d -> db_ok (insert_complaint d n c ign now) /\
  forall m, get_close_pending (insert_complaint d n c ign now) m = get_close_pending d m.
Proof.
  intros Hok. unfold insert_complaint. destruct (get_peerdbid d n) as [d' i] eqn:E.
  destruct (get_peerdbid_spec d n d' i Hok E) as ([Hk Hc Hcc Hp] & Hn & H1 & H2 & H3 & H4). split; [|exact H4].
  split; simpl; try done. intros x [Hx|Hx]%elem_of_app; [by apply Hc|]. apply list_elem_of_singleton in Hx as ->. by exists n.
Qed.

Lemma channel_closed_spec d n now :
  db_ok d -> db_ok (channel_closed d n now) /\ forall m, get_close_pending (channel_closed d n now) m = get_close_pending d m.
Proof.
  intros Hok. unfold channel_closed. destruct (get_peerdbid d n) as [d' i] eqn:E.
  destruct (get_peerdbid_spec d n d' i Hok E) as ([Hk Hc Hcc Hp] & Hn & H1 & H2 & H3 & H4). split; [|exact H4].
  split; simpl; try done.
  - intros c Hc'. apply list_elem_of_filter in Hc' as [_ Hc']. by apply Hc.
  - intros c [Hx|Hx]%elem_of_app; [by apply Hcc|]. apply list_elem_of_fmap in Hx as (x & -> & Hx).
    apply list_elem_of_filter in Hx as [_ Hx]. apply list_elem_of_filter in Hx as [Hi _]. exists n. rewrite Hn. f_equal. by symmetry.
Qed.

Lemma note_spec d n t :
  db_ok d -> db_ok (note_close_pending d n t) /\
  forall m, get_close_pending (note_close_pending d n t) m
            = if decide (m = n) then Some (default t (get_close_pending d n)) else get_close_pending d m.
Proof.
  intros Hok. unfold note_close_pending. destruct (get_peerdbid d n) as [d' i] eqn:E.
  destruct (get_peerdbid_spec d n d' i Hok E) as (Hok' & Hn & H1 & H2 & H3 & H4). pose proof Hok' as [Hk Hc Hcc Hp]. split.
  - split; simpl; try done. intros j u. destruct (closepending d' !! i) as [v|] eqn:Ei; [apply Hp|].
    destruct (decide (j = i)) as [->|Hj]; [by exists n|]. rewrite lookup_insert_ne by done. apply Hp.
  - intros m. unfold get_close_pending at 1. simpl. rewrite <- !H4. unfold get_close_pending. rewrite Hn. simpl.
    destruct decide as [->|Hm].
    + rewrite Hn. simpl. destruct (closepending d' !! i) as [v|] eqn:Ei; [by rewrite Ei|by rewrite lookup_insert_eq].
    + destruct (peers d' !! m) as [j|] eqn:Em; [|done]. simpl. assert (j <> i) by (intros ->; by apply Hm, (Hk m n i)).
      destruct (closepending d' !! i); [done|]. by rewrite lookup_insert_ne.
Qed.

Lemma clear_spec d n :
  db_ok d -> db_ok (clear_close_pending d n) /\ complaints (clear_close_pending d n) = complaints d /\
  peers (clear_close_pending d n) = peers d /\
  forall m, get_close_pending (clear_close_pending d n) m = if decide (m = n) then None else get_close_pending d m.
Proof.
  intros Hok. pose proof Hok as [Hk Hc Hcc Hp]. unfold clear_close_pending. destruct (peers d !! n) as [i|] eqn:En.
  - split; [split; simpl; try done; intros j t Hj; apply lookup_delete_Some in Hj as [_ Hj]; by eapply Hp|].
    split; [done|]. split; [done|]. intros m. unfold get_close_pending. simpl. destruct decide as [->|Hm].
    + rewrite En. simpl. by rewrite lookup_delete_eq.
    + destruct (peers d !! m) as [j|] eqn:Em; [|done]. simpl. rewrite lookup_delete_ne; [done|]. intros ->. by apply Hm, (Hk m n j).
  - split_and!; try done. intros m. destruct decide as [->|]; [|done]. unfold get_close_pending. by rewrite En.
Qed.

Lemma drop_spec d i :
  db_ok d -> db_ok (drop_if_unused d i) /\
  forall m t, get_close_pending (drop_if_unused d i) m = Some t -> get_close_pending d m = Some t.
Proof.
  intros Hok. pose proof Hok as [Hk Hc Hcc Hp]. unfold drop_if_unused.
  destruct (existsb _ _) eqn:E1; [by split|]. destruct (existsb (fun c => cc_peer c =? i) _) eqn:E2; [by split|].
  assert (forall j, j <> i -> (exists n, peers d !! n = Some j) -> exists n, filter (fun p : Node * Z => p.2 <> i) (peers d) !! n = Some j) as Hkeep.
  { intros j Hj (n & Hn). exists n. by apply map_lookup_filter_Some. }
  split.
  - split; simpl.
    + intros a b j Ha Hb. apply map_lookup_filter_Some in Ha as [Ha _], Hb as [Hb _]. by apply (Hk a b j).
    + intros c Hx. apply list_elem_of_filter in Hx as [Hne Hx]. by apply Hkeep, Hc.
    + intros c Hx. apply list_elem_of_filter in Hx as [Hne Hx]. by apply Hkeep, Hcc.
    + intros j t Hj. apply lookup_delete_Some in Hj as [Hne Hj]. by eapply Hkeep, Hp.
  - intros m t. unfold get_close_pending. simpl. destruct (filter _ (peers d) !! m) as [j|] eqn:Em; [|done].
    apply map_lookup_filter_Some in Em as [Em Hne]. rewrite Em. simpl. intros Ht. by apply lookup_delete_Some in Ht as [_ Ht].
Qed.

Lemma cleanup_spec d a b now now' :
  db_ok d -> db_ok (cleanup d a b now now') /\
  forall m t, get_close_pending (cleanup d a b now now') m = Some t -> get_close_pending d m = Some t.
Proof.
  intros Hok. pose proof Hok as [Hk Hc Hcc Hp]. unfold cleanup. set (d1 := {| peers := peers d |}).
  assert (db_ok d1) as Hok1.
  { split; simpl; try done; intros c Hx; apply list_elem_of_filter in Hx as [_ Hx]; [by apply Hc|by apply Hcc]. }
  change (get_close_pending d) with (get_close_pending d1). revert Hok1. clearbody d1.
  induction (map snd _) as [|i l IH] in d1 |- *; intros Hok1; [done|]. cbn [foldl].
  destruct (drop_spec d1 i Hok1) as [Hok2 Hg]. destruct (IH _ Hok2) as [Hok3 Hg3]. split; [done|]. eauto.
Qed.

(** *** The count of complaints *)

Definition counts (d : Db) (n : Node) : Z :=
  Z.of_nat (length (filter (fun c => heeded c /\ peers d !! n = Some (peer c)) (complaints d))).

Lemma tick_count l m n :
  foldl tick m l !! n
  = match m !! n, Z.of_nat (length (filter (fun x => x = n) l)) with
    | None, 0 => None
    | o, k => Some (default 0 o + k)
    end.
Proof.
  revert m. induction l as [|x l IH]; intros m.
  { simpl. destruct (m !! n); simpl; [f_equal; lia|done]. }
  cbn [foldl]. rewrite IH, filter_cons. unfold tick. destruct (decide (x = n)) as [->|Hx].
  - cbn [length]. destruct (m !! n) as [k|] eqn:Em; rewrite lookup_insert_eq; simpl default;
      destruct (Z.of_nat (S (length _))) eqn:E1; try lia; f_equal; lia.
  - destruct (m !! x); by rewrite lookup_insert_ne.
Qed.

Lemma check_complaints_spec d n : check_complaints d !! n = if counts d n =? 0 then None else Some (counts d n).
Proof.
  unfold check_complaints. rewrite tick_count, lookup_empty. simpl default.
  assert (length (filter (fun x => x = n) (concat (map (fun c => nodes_of d (peer c)) (filter heeded (complaints d)))))
          = length (filter (fun c => heeded c /\ peers d !! n = Some (peer c)) (complaints d))) as El.
  { induction (complaints d) as [|c l IH]; [done|]. rewrite !filter_cons. destruct (decide (heeded c)) as [Hh|Hh].
    - cbn [map concat]. rewrite filter_app, length_app, IH.
      assert (length (filter (fun x => x = n) (nodes_of d (peer c))) = if decide (peers d !! n = Some (peer c)) then 1%nat else 0%nat) as ->.
      { assert (NoDup (nodes_of d (peer c))) as Hnd.
        { unfold nodes_of. eapply sublist_NoDup; [apply (NoDup_fst_map_to_list (peers d))|]. apply fmap_sublist, sublist_filter. }
        assert (n ∈ nodes_of d (peer c) <-> peers d !! n = Some (peer c)) as Hin.
        { unfold nodes_of. rewrite list_elem_of_fmap. split.
          - intros ([m j] & -> & H). apply list_elem_of_filter in H as [Hj H]. apply elem_of_map_to_list in H. simpl in *. by subst.
          - intros H. exists (n, peer c). split; [done|]. apply list_elem_of_filter. split; [done|]. by apply elem_of_map_to_list. }
        assert (forall l, NoDup l -> length (filter (fun x => x = n) l) = if decide (n ∈ l) then 1%nat else 0%nat) as Hone.
        { clear. intros l H. induction H as [|x l Hx Hl IH]; [by rewrite decide_False by set_solver|]. rewrite filter_cons.
          destruct (decide (x = n)) as [->|Hne].
          - simpl. rewrite IH, decide_False by done. by rewrite decide_True by left.
          - rewrite IH. destruct (decide (n ∈ l)); [by rewrite decide_True by (by right)|].
            rewrite decide_False; [done|]. intros [->|]%elem_of_cons; done. }
        rewrite (Hone _ Hnd). destruct (decide (n ∈ _)), (decide (peers d !! n = _)); tauto. }
      destruct (decide (peers d !! n = Some (peer c))) as [Hp|Hp].
      + rewrite decide_True by done. done.
      + rewrite decide_False by tauto. done.
    - rewrite IH. by rewrite decide_False by tauto. }
  unfold counts. rewrite El. destruct (Z.of_nat _) eqn:E; [done|destruct (Z.eqb_spec (Z.pos p) 0); [lia|f_equal; lia]|lia].
Qed.

End Recorder.

(** ** Exemptions *)

Module Exempter.

(** The metrics of three days that are used. *)
Record Metrics := { age : double; in_fee_msat_per_day : double; out_fee_msat_per_day : double }.

Definition min_age : double := d_of_Z (2 * 24 * 60 * 60).
Definition high_earner_percentile : double := d_of_Z 40.

Inductive Reason := Young | TopIn | TopOut | UnmanagedClose.

#[global] Instance Reason_eq_dec : EqDecision Reason.
Proof. solve_decision. Defined.

(** The reasons of a node, which the source joins to a text. *)
Abbreviation Exemptions := (gmap Node (list Reason)).

Definition add_exempt (rv : Exemptions) (n : Node) (why : Reason) : Exemptions :=
  match rv !! n with Some l => <[n := l ++ [why]]> rv | None => <[n := [why]]> rv end.

Definition add_all (rv : Exemptions) (l : list Node) (why : Reason) : Exemptions :=
  foldl (fun rv n => add_exempt rv n why) rv l.

Abbreviation Entry := (Node * double)%type.

(** From the highest score to the lowest: [b] does not come before [a]. *)
Definition above (a b : Entry) : Prop := dlt a.2 b.2 = false.

#[global] Instance above_dec a b : Decision (above a b).
Proof. unfold above. apply _. Defined.

(** [std::size_t(ceil((40 * n) / 100.0))] *)
Definition dceil (x : double) : double := match x with Fin q => Fin (inject_Z (Qceiling q)) | _ => x end.
Definition percentile_index (n : Z) : option Z :=
  d_to_u64 (dceil (ddiv (dmul high_earner_percentile (d_of_Z n)) (d_of_Z 100))).

(** The nodes that are exempt for their score; [None] is undefined behaviour. *)
Definition exempt_top_earner (scores : list Entry) : option (list Node) :=
  if bool_decide (scores = []) then Some []
  else
    let entries := merge_sort above scores in
    let n := Z.of_nat (length entries) in
    ind ← percentile_index n;
    let ind := if ind =? n then n - 1 else ind in
    min_score ← snd <$> entries !! Z.to_nat ind;
    Some (map fst (if deq min_score (Fin 0) then filter (fun p => dle p.2 (Fin 0) = false) entries
                   else filter (fun p => dlt p.2 min_score = false) entries)).

Definition get_exemptions (metrics : gmap Node Metrics) (unmanaged : gset Node) : option Exemptions :=
  let l := map_to_list metrics in
  let young := map fst (filter (fun p => dlt (age p.2) min_age = true) l) in
  let rv := add_all ∅ young Young in
  let has_in := existsb (fun p => dgt (in_fee_msat_per_day p.2) (Fin 0)) l in
  let has_out := existsb (fun p => dgt (out_fee_msat_per_day p.2) (Fin 0)) l in
  top_in ← (if has_in then exempt_top_earner (map (fun p => (p.1, in_fee_msat_per_day p.2)) l) else Some []);
  top_out ← (if has_out then exempt_top_earner (map (fun p => (p.1, out_fee_msat_per_day p.2)) l) else Some []);
  let rv := add_all rv top_in TopIn in
  let rv := add_all rv top_out TopOut in
  Some (add_all rv (base.elements unmanaged) UnmanagedClose).

(** *** Who is exempt *)

Definition exempt_for (rv : Exemptions) (n : Node) (r : Reason) : Prop := exists l, rv !! n = Some l /\ r ∈ l.

Lemma add_exempt_spec rv n why m r :
  exempt_for (add_exempt rv n why) m r <-> (m = n /\ r = why) \/ exempt_for rv m r.
Proof.
  unfold exempt_for, add_exempt. destruct (decide (m = n)) as [->|Hm].
  - destruct (rv !! n) as [l|] eqn:E; rewrite lookup_insert_eq.
    + split; [intros (? & [= <-] & [H|H%list_elem_of_singleton]%elem_of_app); eauto|].
      intros [[_ ->]|(? & [= <-] & H)]; eexists; (split; [done|]); apply elem_of_app; [right; left|by left].
    + split; [intros (? & [= <-] & H%list_elem_of_singleton); eauto|].
      intros [[_ ->]|(? & ? & _)]; [|done]. eexists. split; [done|left].
  - destruct (rv !! n); rewrite lookup_insert_ne by done; naive_solver.
Qed.

Lemma exempt_all_spec l rv why m r : exempt_for (add_all rv l why) m r <-> (m ∈ l /\ r = why) \/ exempt_for rv m r.
Proof.
  revert rv. unfold add_all. induction l as [|n l IH]; intros rv; cbn [foldl]; [set_solver|].
  rewrite IH, add_exempt_spec, elem_of_cons. naive_solver.
Qed.

Lemma percentile_index_value n : 0 < n < 2 ^ 40 -> percentile_index n = Some ((2 * n + 4) / 5).
Proof.
  intros Hn. unfold percentile_index, high_earner_percentile. rewrite !d_of_Z_exact by lia. cbn [dmul].
  assert (RN (inject_Z 40 * inject_Z n) = Fin (inject_Z (40 * n))) as ->.
  { rewrite <- inject_Z_mult. apply (d_of_Z_exact (40 * n)). lia. }
  cbn [ddiv]. change (Qeq_bool (inject_Z 100) 0) with false. cbv iota. set (q := (inject_Z (40 * n) / inject_Z 100)%Q).
  pose proof (Z.div_mod (2 * n + 4) 5 ltac:(lia)) as Hdm. pose proof (Z.mod_pos_bound (2 * n + 4) 5 ltac:(lia)) as Hm.
  set (k := (2 * n + 4) / 5) in *. set (r := (2 * n + 4) mod 5) in *.
  assert (q == inject_Z k - (1 # 5) * inject_Z (4 - r))%Q as Eq.
  { unfold q. rewrite <- (Qmult_inj_r _ _ 5%Q) by lra. assert (inject_Z (40 * n) / inject_Z 100 * 5 == inject_Z (2 * n))%Q as ->.
    { rewrite !inject_Z_mult. change (inject_Z 40) with 40%Q. change (inject_Z 100) with 100%Q. change (inject_Z 2) with 2%Q. field. }
    assert (2 * n = 5 * k - (4 - r)) as -> by lia. unfold Z.sub at 1. rewrite inject_Z_plus, inject_Z_opp, inject_Z_mult.
    change (inject_Z 5) with 5%Q. ring. }
  assert (k < 2 ^ 40) as Hk by lia. assert (0 < k) as Hk0 by lia.
  assert (exists x, RN q = Fin x /\ Qceiling x = k) as (x & -> & Hx).
  { destruct (Z.eq_dec r 4) as [E4|N4].
    - exists (inject_Z k). split; [|apply Qceiling_Z]. assert (q == inject_Z k)%Q as -> by (rewrite Eq, E4; change (inject_Z (4 - 4)) with 0%Q; ring).
      apply d_of_Z_exact. lia.
    - rewrite Zlt_Qlt in Hk. assert (inject_Z 1 <= inject_Z k)%Q as Hk1 by (rewrite <- Zle_Qle; lia).
      assert (inject_Z 1 <= inject_Z (4 - r))%Q as L1 by (rewrite <- Zle_Qle; lia).
      assert (inject_Z (4 - r) <= inject_Z 4)%Q as L2 by (rewrite <- Zle_Qle; lia).
      change (inject_Z 1) with 1%Q in *. change (inject_Z 4) with 4%Q in *. change (inject_Z (2 ^ 40)) with (1099511627776 # 1)%Q in Hk.
      destruct (RN_near q 41) as (x & Ex & _ & Hx); [lra|change (pow2 41) with (2199023255552 # 1)%Q; lra|lia|].
      exists x. split; [done|]. change (pow2 (41 - 52)) with (1 # 2048)%Q in Hx.
      assert (Qceiling x <= Qceiling (inject_Z k)) as U by (apply Qceiling_resp_le; lra). rewrite Qceiling_Z in U.
      pose proof (Qle_ceiling x) as L. assert (inject_Z (k - 1) < inject_Z (Qceiling x))%Q as L3.
      { unfold Z.sub. rewrite inject_Z_plus. change (inject_Z (- (1))) with (- (1))%Q. lra. }
      rewrite <- Zlt_Qlt in L3. lia. }
  cbn [dceil]. rewrite Hx. apply d_to_u64_Z. unfold is_u64. lia.
Qed.

Definition finite (p : Entry) : Prop := exists q, p.2 = Fin q /\ (0 <= q)%Q.

(** How many score more. *)
Definition ahead (scores : list Entry) (d : double) : Z := Z.of_nat (length (filter (fun p => dlt d p.2 = true) scores)).

#[global] Instance above_total : Total above.
Proof.
  intros a b. unfold above. destruct (a.2) as [x|[]|], (b.2) as [y|[]|]; simpl; auto.
  destruct (Qle_bool y x) eqn:E1; [by left|]. destruct (Qle_bool x y) eqn:E2; [by right|]. exfalso.
  assert (~ (y <= x)%Q) by (rewrite <- Qle_bool_iff; congruence). assert (~ (x <= y)%Q) by (rewrite <- Qle_bool_iff; congruence).
  destruct (Qlt_le_dec x y); [|done]. lra.
Qed.

Lemma above_finite a b x y : a.2 = Fin x -> b.2 = Fin y -> above a b <-> (y <= x)%Q.
Proof. unfold above. intros -> ->. simpl. by rewrite negb_false_iff, Qle_bool_iff. Qed.

Lemma sorted_desc scores : Forall finite scores -> StronglySorted above (merge_sort above scores).
Proof.
  intros Hf. apply (Sorted_strongly_on finite); [|by rewrite merge_sort_Permutation|apply Sorted_merge_sort, _].
  intros a b c (x & Ex & _) (y & Ey & _) (z & Ez & _). rewrite (above_finite a b x y), (above_finite b c y z), (above_finite a c x z) by done. lra.
Qed.

(** In a list sorted so, one who has at most [k] ahead scores at least what the [k]-th does. *)
Lemma rank_sorted l k p x :
  StronglySorted above l -> Forall finite l -> l !! k = Some p -> x ∈ l -> ahead l x.2 <= Z.of_nat k -> dlt x.2 p.2 = false.
Proof.
  intros Hs Hf Hk Hx Ha. destruct (dlt x.2 p.2) eqn:E; [|done]. exfalso. rewrite Forall_forall in Hf.
  destruct (Hf x Hx) as (qx & Ex & _), (Hf p (list_elem_of_lookup_2 _ _ _ Hk)) as (qp & Ep & _).
  rewrite Ex, Ep in E. apply dlt_Fin in E.
  assert (S k <= length (filter (fun p => dlt x.2 p.2 = true) l))%nat; [|unfold ahead in Ha; lia].
  assert (length (take (S k) l) = S k) as Hlen by (rewrite length_take; apply lookup_lt_Some in Hk; lia).
  rewrite <- (take_drop (S k) l), filter_app, length_app, (filter_every _ (take (S k) l)); [lia|].
  apply Forall_forall. intros y Hy. apply list_elem_of_lookup in Hy as [j Hj]. apply lookup_take_Some in Hj as [Hj Hlt].
  destruct (Hf y (list_elem_of_lookup_2 _ _ _ Hj)) as (qy & Ey & _). rewrite Ex, Ey. apply dlt_Fin.
  destruct (decide (j = k)) as [->|Hne]; [rewrite Hk in Hj; injection Hj as <-; rewrite Ep in Ey; by injection Ey as <-|].
  pose proof (StronglySorted_app_1_elem_of above (take (S j) l) (drop (S j) l)) as Happ. rewrite take_drop in Happ.
  assert (above y p) as Hyp.
  { apply Happ; [done|apply (list_elem_of_lookup_2 _ j); rewrite lookup_take_lt by lia; done|].
    apply (list_elem_of_lookup_2 _ (k - S j)). rewrite lookup_drop. by replace (S j + (k - S j))%nat with k by lia. }
  apply (above_finite y p qy qp) in Hyp; [|done..]. lra.
Qed.

Lemma ahead_perm l l' d : l ≡ₚ l' -> ahead l d = ahead l' d.
Proof. intros H. unfold ahead. by rewrite H. Qed.

(** The top earners: those with a positive score that few are ahead of. *)
Lemma top_earner_spec scores :
  Forall finite scores -> Z.of_nat (length scores) < 2 ^ 40 ->
  exists l, exempt_top_earner scores = Some l /\
    (forall n, n ∈ l -> exists d, (n, d) ∈ scores /\ dlt (Fin 0) d = true) /\
    forall n d, (n, d) ∈ scores -> dlt (Fin 0) d = true -> ahead scores d <= (2 * Z.of_nat (length scores) + 4) / 5 -> n ∈ l.
Proof.
  intros Hf Hn. unfold exempt_top_earner. case_bool_decide as He; [subst; exists []; split; [done|]; split; set_solver|].
  pose proof (merge_sort_Permutation above scores) as Hp. pose proof (sorted_desc scores Hf) as Hs.
  assert (Forall finite (merge_sort above scores)) as Hfs by (by rewrite Hp).
  set (l := merge_sort above scores) in *. assert (length l = length scores) as Hlen by (by rewrite Hp). rewrite Hlen.
  set (N := Z.of_nat (length scores)) in *.
  assert (0 < N) as HN by (unfold N; destruct scores; [done|simpl; lia]).
  rewrite percentile_index_value by lia. cbn [mbind option_bind].
  pose proof (Z.div_mod (2 * N + 4) 5 ltac:(lia)) as Hdm. pose proof (Z.mod_pos_bound (2 * N + 4) 5 ltac:(lia)) as Hmb.
  set (ind := if (2 * N + 4) / 5 =? N then N - 1 else (2 * N + 4) / 5).
  assert (0 <= ind < N) as Hind by (unfold ind; destruct (Z.eqb_spec ((2 * N + 4) / 5) N); lia).
  destruct (lookup_lt_is_Some_2 l (Z.to_nat ind)) as [p Hpk]; [lia|]. rewrite Hpk. cbn [fmap option_fmap option_map mbind option_bind].
  rewrite Forall_forall in Hfs. destruct (Hfs p (list_elem_of_lookup_2 _ _ _ Hpk)) as (qp & Ep & Hqp).
  eexists. split; [reflexivity|]. split.
  - intros n Hin. apply list_elem_of_fmap in Hin as ([m d] & -> & Hin).
    destruct (deq p.2 (Fin 0)) eqn:Ed; apply list_elem_of_filter in Hin as [Hd Hin]; exists d; simpl in *; rewrite Hp in Hin;
      (split; [done|]); rewrite <- Hp in Hin; destruct (Hfs _ Hin) as (q & Eq & Hq); simpl in Eq; subst d.
    + apply dlt_Fin. destruct (Qlt_le_dec 0 q) as [|Hle]; [done|]. apply Qle_bool_iff in Hle. simpl in Hd. congruence.
    + rewrite Ep in Hd, Ed. simpl in Hd. rewrite negb_false_iff, Qle_bool_iff in Hd. apply dlt_Fin.
      unfold deq in Ed. simpl in Ed. apply Qle_bool_iff in Hqp. rewrite Hqp, andb_true_r in Ed. destruct (Qlt_le_dec 0 qp) as [|Hle]; [lra|].
      apply Qle_bool_iff in Hle. congruence.
  - intros n d Hin Hd Ha. apply list_elem_of_fmap. exists (n, d). split; [done|]. rewrite <- Hp in Hin.
    destruct (Hfs _ Hin) as (q & Eq & Hq). simpl in Eq. subst d.
    destruct (deq p.2 (Fin 0)); apply list_elem_of_filter; (split; [|done]); simpl.
    + apply dlt_Fin in Hd. destruct (Qle_bool q 0) eqn:E; [apply Qle_bool_iff in E; lra|done].
    + apply (rank_sorted l (Z.to_nat ind) p (n, Fin q) Hs); [by apply Forall_forall|done|done|]. simpl.
      rewrite Z2Nat.id by lia. rewrite (ahead_perm l scores) by done. unfold ind. destruct (Z.eqb_spec ((2 * N + 4) / 5) N) as [E|]; [|done].
      rewrite <- (ahead_perm l scores) by done. assert (ahead l (Fin q) < N); [|lia]. unfold ahead, N. rewrite <- Hlen.
      apply inj_lt. apply (length_filter_lt _ _ (n, Fin q)); [done|]. simpl. intros Hlt. rewrite negb_true_iff in Hlt.
      assert ((q <= q)%Q) as Hqq by lra. apply Qle_bool_iff in Hqq. congruence.
Qed.

Definition metrics_ok (m : gmap Node Metrics) : Prop :=
  map_Forall (fun _ x => (exists q, in_fee_msat_per_day x = Fin q /\ (0 <= q)%Q) /\
                         exists q, out_fee_msat_per_day x = Fin q /\ (0 <= q)%Q) m /\ Z.of_nat (base.size m) < 2 ^ 40.

(** The peers that earn more than a fee. *)
Definition in_ahead (m : gmap Node Metrics) (d : double) : Z :=
  ahead (map (fun p => (p.1, in_fee_msat_per_day p.2)) (map_to_list m)) d.

Lemma scores_spec (f : Metrics -> double) (m : gmap Node Metrics) :
  map_Forall (fun _ x => exists q, f x = Fin q /\ (0 <= q)%Q) m -> Z.of_nat (base.size m) < 2 ^ 40 ->
  let l := map (fun p => (p.1, f p.2)) (map_to_list m) in
  Forall finite l /\ Z.of_nat (length l) = Z.of_nat (base.size m) /\
  forall n d, (n, d) ∈ l <-> exists x, m !! n = Some x /\ f x = d.
Proof.
  intros Hm Hs. cbv zeta. split_and!.
  - apply Forall_forall. intros y Hy. apply list_elem_of_fmap in Hy as ([n x] & -> & Hx%elem_of_map_to_list). by apply (Hm n x).
  - by rewrite length_map, length_map_to_list.
  - intros n d. rewrite list_elem_of_fmap. split.
    + intros ([k x] & [= -> ->] & Hx%elem_of_map_to_list). by exists x.
    + intros (x & Hx & <-). exists (n, x). split; [done|]. by apply elem_of_map_to_list.
Qed.

Lemma top_spec (f : Metrics -> double) (m : gmap Node Metrics) :
  map_Forall (fun _ x => exists q, f x = Fin q /\ (0 <= q)%Q) m -> Z.of_nat (base.size m) < 2 ^ 40 ->
  let scores := map (fun p => (p.1, f p.2)) (map_to_list m) in
  exists l, (if existsb (fun p => dgt (f p.2) (Fin 0)) (map_to_list m) then exempt_top_earner scores else Some []) = Some l /\
    (forall n, n ∈ l -> exists x, m !! n = Some x /\ dlt (Fin 0) (f x) = true) /\
    forall n x, m !! n = Some x -> dlt (Fin 0) (f x) = true -> ahead scores (f x) <= (2 * Z.of_nat (base.size m) + 4) / 5 -> n ∈ l.
Proof.
  intros Hm Hs. cbv zeta. destruct (scores_spec f m Hm Hs) as (Hf & Hl & Hin). destruct (existsb _ _) eqn:E.
  - destruct (top_earner_spec _ Hf) as (l & -> & H1 & H2); [by rewrite Hl|]. exists l. split; [done|]. split.
    + intros n Hn. destruct (H1 n Hn) as (d & Hd & Hp). apply Hin in Hd as (x & Hx & <-). eauto.
    + intros n x Hx Hp Ha. apply (H2 n (f x)); [apply Hin; eauto|done|]. by rewrite Hl.
  - exists []. split; [done|]. split; [set_solver|]. intros n x Hx Hp _. exfalso.
    assert (existsb (fun p => dgt (f p.2) (Fin 0)) (map_to_list m) = true) as C; [|congruence].
    apply existsb_exists. exists (n, x). split; [by apply list_elem_of_In, elem_of_map_to_list|done].
Qed.

(** Exemptions.  With metrics that are numbers they are always computed.  Unmanaged
    peers and young channels are exempt; a peer is exempt for its incoming (or outgoing)
    fees only if it earned some, and every peer that earned some is if no more than 40
    percent of the peers, rounded up, earned more. *)
Theorem earners_are_exempt metrics unmanaged :
  metrics_ok metrics ->
  exists rv, get_exemptions metrics unmanaged = Some rv /\
    (forall n, exempt_for rv n UnmanagedClose <-> n ∈ unmanaged) /\
    (forall n, exempt_for rv n Young <-> exists x, metrics !! n = Some x /\ dlt (age x) min_age = true) /\
    (forall n, exempt_for rv n TopIn -> exists x, metrics !! n = Some x /\ dlt (Fin 0) (in_fee_msat_per_day x) = true) /\
    (forall n, exempt_for rv n TopOut -> exists x, metrics !! n = Some x /\ dlt (Fin 0) (out_fee_msat_per_day x) = true) /\
    forall n x, metrics !! n = Some x -> dlt (Fin 0) (in_fee_msat_per_day x) = true ->
      in_ahead metrics (in_fee_msat_per_day x) <= (2 * Z.of_nat (base.size metrics) + 4) / 5 -> exempt_for rv n TopIn.
Proof.
  intros [Hm Hs].
  destruct (top_spec in_fee_msat_per_day metrics) as (li & Ei & Hi1 & Hi2); [intros n x Hx; by apply (Hm n x)|done|].
  destruct (top_spec out_fee_msat_per_day metrics) as (lo & Eo & Ho1 & _); [intros n x Hx; by apply (Hm n x)|done|].
  unfold get_exemptions. cbv zeta. rewrite Ei, Eo. cbn [mbind option_bind]. eexists. split; [reflexivity|].
  assert (forall n r, ~ exempt_for ∅ n r) as H0 by (intros n r (l & Hl & _); by rewrite lookup_empty in Hl).
  split_and!.
  - intros n. rewrite !exempt_all_spec, elem_of_elements. specialize (H0 n UnmanagedClose). naive_solver.
  - intros n. rewrite !exempt_all_spec. specialize (H0 n Young). rewrite list_elem_of_fmap. split.
    + intros [[_ ?]|[[_ ?]|[[_ ?]|[[H _]|?]]]]; try done. destruct H as ([m x] & -> & Hx).
      apply list_elem_of_filter in Hx as [Hx Hin]. apply elem_of_map_to_list in Hin. eauto.
    + intros (x & Hx & Ha). do 3 right. left. split; [|done]. exists (n, x). split; [done|]. apply list_elem_of_filter.
      split; [done|]. by apply elem_of_map_to_list.
  - intros n. rewrite !exempt_all_spec. specialize (H0 n TopIn). naive_solver.
  - intros n. rewrite !exempt_all_spec. specialize (H0 n TopOut). naive_solver.
  - intros n x Hx Hp Ha. rewrite !exempt_all_spec. do 2 right. left. split; [|done]. by apply (Hi2 n x).
Qed.

(** One peer, whose channel is old and earned something. *)
Definition demo_metrics : gmap Node Metrics :=
  {[ None := {| age := d_of_Z 1000000; in_fee_msat_per_day := Fin 5; out_fee_msat_per_day := Fin 0 |} ]}.

Lemma earners_are_exempt_witness :
  exists rv, get_exemptions demo_metrics ∅ = Some rv /\ exempt_for rv None TopIn.
Proof.
  destruct (earners_are_exempt demo_metrics ∅) as (rv & E & _ & _ & _ & _ & H).
  - split; [|vm_compute; reflexivity]. apply map_Forall_singleton. simpl.
    split; [exists 5%Q|exists 0%Q]; (split; [reflexivity|lra]).
  - exists rv. split; [exact E|]. apply (H None {| age := d_of_Z 1000000; in_fee_msat_per_day := Fin 5; out_fee_msat_per_day := Fin 0 |}).
    + apply lookup_singleton_eq.
    + vm_compute. reflexivity.
    + vm_compute. discriminate.
Defined.

(** Of three peers with different earnings all three are among the top 40 percent. *)
Example three_top_earners :
  exempt_top_earner [(None, Fin 9); (Some [1], Fin 4); (Some [2], Fin 1)] = Some [None; Some [1]; Some [2]].
Proof. vm_compute. reflexivity. Qed.

End Exempter.

(** ** The desk *)

Module Desk.
Import Recorder.

Definition default_enabled : bool := false.
Definition max_complaint_age : double := d_of_Z (7 * 24 * 60 * 60).
Definition max_closed_complaint_age : double := d_of_Z (90 * 24 * 60 * 60).
Definition max_acceptable_complaints : Z := 5.
Definition close_patience : double := d_of_Z (3 * 24 * 60 * 60).

(** A close under way: it waits for the node, or for the database, knowing whether the
    peer is connected. *)
Inductive Stage := Listing | Known (connected : bool).
Record Task := { target : Node; stage : Stage }.

Record State := {
  enabled : bool; rpc : bool; soliciting : bool; fees_low : bool; unmanaged : gset Node;
  exempted_nodes : gmap Node bytes; pending_complaints : gmap Node bytes; db : Db; tasks : list Task
}.

Definition boot (d : Db) : State :=
  {| enabled := default_enabled; rpc := false; soliciting := false; fees_low := false; unmanaged := ∅;
     exempted_nodes := ∅; pending_complaints := ∅; db := d; tasks := [] |}.

Definition with_db (s : State) (d : Db) : State :=
  {| enabled := enabled s; rpc := rpc s; soliciting := soliciting s; fees_low := fees_low s; unmanaged := unmanaged s;
     exempted_nodes := exempted_nodes s; pending_complaints := pending_complaints s; db := d; tasks := tasks s |}.
Definition with_tasks (s : State) (l : list Task) : State :=
  {| enabled := enabled s; rpc := rpc s; soliciting := soliciting s; fees_low := fees_low s; unmanaged := unmanaged s;
     exempted_nodes := exempted_nodes s; pending_complaints := pending_complaints s; db := db s; tasks := l |}.
Definition with_enabled (s : State) (b : bool) : State :=
  {| enabled := b; rpc := rpc s; soliciting := soliciting s; fees_low := fees_low s; unmanaged := unmanaged s;
     exempted_nodes := exempted_nodes s; pending_complaints := pending_complaints s; db := db s; tasks := tasks s |}.
Definition with_solicit (s : State) (b : bool) (ex pend : gmap Node bytes) : State :=
  {| enabled := enabled s; rpc := rpc s; soliciting := b; fees_low := fees_low s; unmanaged := unmanaged s;
     exempted_nodes := ex; pending_complaints := pend; db := db s; tasks := tasks s |}.

(** [Some] of the value, where it is accepted. *)
Definition option_value (value : option json) : outcome (option bool) :=
  if jis_boolean value then let* b := truth value in inl (Some b)
  else if jis_string value then
    let* s := text value in
    inl (if bool_decide (s = lit "true") then Some true else if bool_decide (s = lit "false") then Some false else None)
  else inl None.

Definition option_name : bytes := lit "clboss-auto-close".

Definition raise_complaint (s : State) (n : Node) (c : bytes) : State :=
  if negb (soliciting s) then s
  else with_solicit s true (exempted_nodes s)
         (match pending_complaints s !! n with
          | Some old => <[n := old ++ lit "; " ++ c]> (pending_complaints s)
          | None => <[n := c]> (pending_complaints s)
          end).

(** The end of a solicitation: the complaints are recorded. *)
Definition record_one (ex : gmap Node bytes) (now : double) (d : Db) (c : Node * bytes) : Db :=
  match ex !! c.1 with
  | None => add_complaint d c.1 c.2 now
  | Some why => add_ignored_complaint d c.1 c.2 why now
  end.

Definition record_complaints (s : State) (now : double) : State :=
  with_solicit (with_db s (foldl (record_one (exempted_nodes s) now) (db s) (map_to_list (pending_complaints s)))) false ∅ ∅.

(** The managed peers with too many complaints. *)
Definition to_close (s : State) : list Node :=
  map fst (filter (fun p => p.1 ∉ unmanaged s /\ max_acceptable_complaints <= p.2) (map_to_list (check_complaints (db s)))).

Definition check_close (s : State) : State :=
  let l := to_close s in
  let d := foldl (fun d n => if decide (n ∈ l) then d else clear_close_pending d n) (db s) (get_close_pendings (db s)) in
  let s := with_db s d in
  if enabled s then with_tasks s (tasks s ++ map (fun n => {| target := n; stage := Listing |}) l) else s.

(** Whether a channel of the reply says that the peer is connected. *)
Fixpoint any_connected (l : list json) : outcome bool :=
  match l with
  | [] => inl false
  | c :: l =>
      let* h := has (Some c) "peer_connected" in
      if negb h then any_connected l
      else
        let* conn := get (Some c) "peer_connected" in
        if negb (jis_boolean conn) then any_connected l
        else let* b := truth conn in if (b : bool) then inl true else any_connected l
  end.

Definition reply_connected (res : json) : outcome bool :=
  let* h := has (Some res) "channels" in
  if negb h then inl false
  else let* cs := get (Some res) "channels" in let* l := lift (jelements cs) in any_connected l.

(** The [close] command for a peer. *)
Record Close := { close_id : Node }.

(** The end of a close: [now] is the time in the transaction, [now'] the one after. *)
Definition finish_close (s : State) (n : Node) (connected : bool) (now now' : double) : option (State * list Close) :=
  if connected then Some (with_db s (clear_close_pending (db s) n), [{| close_id := n |}])
  else
    let d := note_close_pending (db s) n now in
    since ← get_close_pending d n;
    let s := with_db s d in
    if dlt (dsub now' since) close_patience then Some (s, [])
    else if negb (fees_low s) then Some (s, [])
    else Some (s, [{| close_id := n |}]).

Inductive Event :=
| Option_ (name : bytes) (value : option json)
| Init
| OnchainFee (low : bool)
| Unmanage (n : Node) (flag : bool)
| SolicitBegin                               (** [TimerTwiceDaily] *)
| Exempted (ex : gmap Node bytes)            (** the answer of the exempter *)
| RaisePeerComplaint (n : Node) (c : bytes)
| SolicitEnd (now : double)
| Cleanup (now now' : double)                (** [TimerTwiceDaily] *)
| CheckClose                                 (** [Timer10Minutes] *)
| Listed (i : nat) (reply : outcome json)    (** the node answers the task *)
| Decided (i : nat) (now now' : double)      (** the database is free for the task *)
| ChannelDestruction (n : Node) (now : double)
| Restart.

(** A step gives the commands that are sent; [None] is undefined behaviour or a failed
    assertion. *)
Definition step (s : State) (e : Event) : option (State * list Close) :=
  match e with
  | Option_ name value =>
      if negb (bool_decide (name = option_name)) then Some (s, [])
      else match option_value value with
           | inl (Some b) => Some (with_enabled s b, [])
           | inr Undefined => None
           | _ => Some (s, [])
           end
  | Init =>
      Some ({| enabled := enabled s; rpc := true; soliciting := soliciting s; fees_low := fees_low s; unmanaged := unmanaged s;
               exempted_nodes := exempted_nodes s; pending_complaints := pending_complaints s; db := db s; tasks := tasks s |}, [])
  | OnchainFee low =>
      Some ({| enabled := enabled s; rpc := rpc s; soliciting := soliciting s; fees_low := low; unmanaged := unmanaged s;
               exempted_nodes := exempted_nodes s; pending_complaints := pending_complaints s; db := db s; tasks := tasks s |}, [])
  | Unmanage n flag =>
      u ← Unmanaged.inform_close (unmanaged s) n flag;
      Some ({| enabled := enabled s; rpc := rpc s; soliciting := soliciting s; fees_low := fees_low s; unmanaged := u;
               exempted_nodes := exempted_nodes s; pending_complaints := pending_complaints s; db := db s; tasks := tasks s |}, [])
  | SolicitBegin => Some (if soliciting s then s else with_solicit s true (exempted_nodes s) ∅, [])
  | Exempted ex => Some (with_solicit s (soliciting s) ex (pending_complaints s), [])
  | RaisePeerComplaint n c => Some (raise_complaint s n c, [])
  | SolicitEnd now => Some (record_complaints s now, [])
  | Cleanup now now' => Some (with_db s (cleanup (db s) max_complaint_age max_closed_complaint_age now now'), [])
  | CheckClose => Some (if rpc s then check_close s else s, [])
  | Listed i reply =>
      match tasks s !! i with
      | Some {| target := n; stage := Listing |} =>
          match (let* r := reply in reply_connected r) with
          | inl b => Some (with_tasks s (<[i := {| target := n; stage := Known b |}]> (tasks s)), [])
          | inr Undefined => None
          | inr _ => Some (with_tasks s (delete i (tasks s)), [])
          end
      | _ => Some (s, [])
      end
  | Decided i now now' =>
      match tasks s !! i with
      | Some {| target := n; stage := Known b |} => finish_close (with_tasks s (delete i (tasks s))) n b now now'
      | _ => Some (s, [])
      end
  | ChannelDestruction n now => Some (with_db s (channel_closed (clear_close_pending (db s) n) n now), [])
  | Restart => Some (boot (db s), [])
  end.

(** A run, with the states before its events and the commands of each. *)
Record Moment := { before : State; event : Event; sent : list Close }.

Fixpoint run (s : State) (es : list Event) : option (State * list Moment) :=
  match es with
  | [] => Some (s, [])
  | e :: es =>
      '(s1, out) ← step s e;
      '(s2, h) ← run s1 es;
      Some (s2, {| before := s; event := e; sent := out |} :: h)
  end.

(** *** What a close goes back to *)

Lemma to_close_spec s n :
  n ∈ to_close s <-> n ∉ unmanaged s /\ max_acceptable_complaints <= counts (db s) n.
Proof.
  unfold to_close. rewrite list_elem_of_fmap. split.
  - intros ([m k] & -> & H). apply list_elem_of_filter in H as [[H1 H2] H]. simpl in *. split; [done|].
    apply elem_of_map_to_list in H. rewrite check_complaints_spec in H. destruct (Z.eqb_spec (counts (db s) m) 0); [done|].
    by injection H as ->.
  - intros [H1 H2]. exists (n, counts (db s) n). split; [done|]. apply list_elem_of_filter. split; [done|].
    apply elem_of_map_to_list. rewrite check_complaints_spec. unfold max_acceptable_complaints in H2.
    destruct (Z.eqb_spec (counts (db s) n) 0); [lia|done].
Qed.

(** A check that decided to close the channels of a peer. *)
Definition condemned (n : Node) (x : Moment) : Prop :=
  event x = CheckClose /\ enabled (before x) = true /\ n ∉ unmanaged (before x) /\
  max_acceptable_complaints <= counts (db (before x)) n.

(** A close that was put off at a time, because the peer was away. *)
Definition deferred (n : Node) (since : double) (x : Moment) : Prop :=
  exists i t, event x = Decided i since t /\ tasks (before x) !! i = Some {| target := n; stage := Known false |}.

(** Events that do not end the waiting for a peer: a check still condemns it, it was not
    seen, and its channel was not closed. *)
Definition still_waiting (n : Node) (x : Moment) : Prop :=
  match event x with
  | CheckClose => rpc (before x) = true -> n ∉ unmanaged (before x) /\ max_acceptable_complaints <= counts (db (before x)) n
  | Decided i _ _ => tasks (before x) !! i <> Some {| target := n; stage := Known true |}
  | ChannelDestruction m _ => m <> n
  | _ => True
  end.

(** The waiting since a deferral, to the end of a history. *)
Definition waiting (h : list Moment) (n : Node) (since : double) : Prop :=
  exists h1 x h2, h = h1 ++ x :: h2 /\ deferred n since x /\ Forall (still_waiting n) h2.

Record explained (s : State) (h : list Moment) : Prop := {
  ex_db : db_ok (db s);
  ex_tasks : forall t, t ∈ tasks s -> exists x, x ∈ h /\ condemned (target t) x;
  ex_pending : forall n since, get_close_pending (db s) n = Some since -> waiting h n since
}.

Lemma waiting_snoc h n since x : waiting h n since -> still_waiting n x -> waiting (h ++ [x]) n since.
Proof.
  intros (h1 & y & h2 & -> & Hd & Hw) Hx. exists h1, y, (h2 ++ [x]). split; [by rewrite <- app_assoc|].
  split; [done|]. apply Forall_app. split; [done|by repeat constructor].
Qed.

(** A step that starts no task and defers nothing. *)
Lemma explained_snoc s h s' x :
  explained s h -> db_ok (db s') ->
  (forall t, t ∈ tasks s' -> exists u, u ∈ tasks s /\ target u = target t) ->
  (forall n t, get_close_pending (db s') n = Some t -> get_close_pending (db s) n = Some t /\ still_waiting n x) ->
  explained s' (h ++ [x]).
Proof.
  intros [H1 H2 H3] Hd Ht Hp. split; [done|..].
  - intros t Hin. destruct (Ht t Hin) as (u & Hu & <-). destruct (H2 u Hu) as (y & Hy & Hc). exists y. split; [|done].
    apply elem_of_app. by left.
  - intros n t Hin. destruct (Hp n t Hin) as [Hg Hw]. apply waiting_snoc; eauto.
Qed.

Lemma record_ok ex now l d :
  db_ok d -> db_ok (foldl (record_one ex now) d l) /\
  forall n, get_close_pending (foldl (record_one ex now) d l) n = get_close_pending d n.
Proof.
  revert d. induction l as [|c l IH]; intros d Hd; [done|]. cbn [foldl].
  assert (db_ok (record_one ex now d c) /\ forall n, get_close_pending (record_one ex now d c) n = get_close_pending d n) as [H1 H2].
  { unfold record_one. destruct (ex !! c.1); by apply insert_complaint_spec. }
  destruct (IH _ H1) as [H3 H4]. split; [done|]. intros n. by rewrite H4.
Qed.

(** The check forgets the deferrals of peers that it does not condemn. *)
Lemma forget_ok (l k : list Node) d :
  db_ok d -> let d' := foldl (fun d n => if decide (n ∈ l) then d else clear_close_pending d n) d k in
  db_ok d' /\ forall n t, get_close_pending d' n = Some t -> get_close_pending d n = Some t /\ (n ∈ k -> n ∈ l).
Proof.
  cbv zeta. revert d. induction k as [|m k IH]; intros d Hd; [split; [done|]; intros n t H; split; [done|set_solver]|]. cbn [foldl].
  set (d1 := if decide (m ∈ l) then d else clear_close_pending d m).
  assert (db_ok d1 /\ forall n t, get_close_pending d1 n = Some t -> get_close_pending d n = Some t /\ (n = m -> n ∈ l)) as [H1 H2].
  { unfold d1. destruct (decide (m ∈ l)) as [Hm|Hm]; [split; [done|intros n t H; split; [done|by intros ->]]|].
    destruct (clear_spec d m Hd) as (H1 & _ & _ & H2). split; [done|]. intros n t. rewrite H2. by destruct decide. }
  destruct (IH d1 H1) as [H3 H4]. split; [done|]. intros n t H. destruct (H4 n t H) as [H5 H6]. destruct (H2 n t H5) as [H7 H8].
  split; [done|]. intros [->|]%elem_of_cons; auto.
Qed.

Lemma pendings_spec d n t : get_close_pending d n = Some t -> n ∈ get_close_pendings d.
Proof.
  unfold get_close_pending, get_close_pendings. destruct (peers d !! n) as [i|] eqn:E; [|done]. simpl. intros H.
  apply list_elem_of_fmap. exists (n, i). split; [done|]. apply list_elem_of_filter. split; [simpl; by eexists|].
  by apply elem_of_map_to_list.
Qed.

Lemma check_close_explained s h :
  explained s h -> rpc s = true -> explained (check_close s) (h ++ [{| before := s; event := CheckClose; sent := [] |}]).
Proof.
  intros Hs Hrpc. pose proof Hs as [H1 H2 H3]. unfold check_close.
  destruct (forget_ok (to_close s) (get_close_pendings (db s)) (db s) H1) as [Hd Hg]. cbv zeta in Hd, Hg.
  set (d := foldl _ _ _) in *. set (x := {| before := s; event := CheckClose; sent := [] |}).
  assert (explained (with_db s d) (h ++ [x])) as Hx.
  { apply (explained_snoc s); [done|done|by eauto|]. intros n t Ht. destruct (Hg n t Ht) as [Hn Hin]. split; [done|].
    unfold still_waiting. simpl. intros _. apply to_close_spec, Hin. by eapply pendings_spec. }
  change (enabled (with_db s d)) with (enabled s). destruct (enabled s) eqn:He; [|done].
  destruct Hx as [Hx1 Hx2 Hx3]. split; [done| |done]. simpl. intros t [Ht|Ht]%elem_of_app; [by apply Hx2|].
  apply list_elem_of_fmap in Ht as (n & -> & Hn). exists x. split; [apply elem_of_app; right; left|]. simpl.
  apply to_close_spec in Hn as [? ?]. by split_and!.
Qed.

(** The end of a close. *)
Lemma finish_explained s h i n b now now' s' out :
  explained s h -> tasks s !! i = Some {| target := n; stage := Known b |} ->
  finish_close (with_tasks s (delete i (tasks s))) n b now now' = Some (s', out) ->
  explained s' (h ++ [{| before := s; event := Decided i now now'; sent := out |}]) /\
  (out = [] \/ out = [{| close_id := n |}]) /\
  (out <> [] -> b = false -> fees_low s = true /\
     exists since, dlt (dsub now' since) close_patience = false /\
       waiting (h ++ [{| before := s; event := Decided i now now'; sent := out |}]) n since).
Proof.
  intros Hs Ht. pose proof Hs as [H1 H2 H3].
  assert (forall t, t ∈ delete i (tasks s) -> exists u, u ∈ tasks s /\ target u = target t) as Hdel.
  { intros t Hin. exists t. split; [|done]. rewrite delete_take_drop in Hin. apply elem_of_app in Hin as [Hin|Hin];
      [by eapply subseteq_take|by eapply subseteq_drop]. }
  unfold finish_close. destruct b.
  - intros [= <- <-]. split; [|by split; [right|]]. destruct (clear_spec (db s) n H1) as (Hd & _ & _ & Hg).
    apply (explained_snoc s); [done|done|done|]. simpl. intros m t. rewrite Hg. destruct decide as [->|Hm]; [done|]. intros Hg'.
    split; [done|]. unfold still_waiting. simpl. rewrite Ht. congruence.
  - destruct (note_spec (db s) n now H1) as [Hd Hg]. change (db (with_tasks s (delete i (tasks s)))) with (db s).
    rewrite Hg, decide_True by done. cbn [mbind option_bind]. set (since := default now (get_close_pending (db s) n)).
    intros E.
    assert (exists o, out = o /\ s' = with_db (with_tasks s (delete i (tasks s))) (note_close_pending (db s) n now)) as (o & -> & ->).
    { exists out. split; [done|]. destruct (dlt _ _); [by injection E as <-|]. destruct (negb _); by injection E as <-. }
    set (x := {| before := s; event := Decided i now now'; sent := o |}).
    assert (deferred n now x) as Hdef by (by exists i, now').
    assert (forall m, still_waiting m x) as Hstill.
    { intros m. unfold still_waiting. simpl. rewrite Ht. congruence. }
    assert (waiting (h ++ [x]) n since) as Hw.
    { unfold since. destruct (get_close_pending (db s) n) as [t0|] eqn:E0; [by apply waiting_snoc; [apply H3|]|].
      exists h, x, []. by split_and!. }
    split; [|split].
    + split; [done|..].
      * simpl. intros t Hin. destruct (Hdel t Hin) as (u & Hu & <-). destruct (H2 u Hu) as (y & Hy & Hc). exists y.
        split; [apply elem_of_app; by left|done].
      * simpl. intros m t. rewrite Hg. destruct decide as [->|Hm]; [by intros [= <-]|]. intros Hg'. by apply waiting_snoc; [apply H3|].
    + destruct (dlt _ _); [injection E as <-; by left|]. destruct (negb _); injection E as <-; [by left|by right].
    + intros Ho _. destruct (dlt _ _) eqn:El; [by injection E as <-|]. destruct (fees_low s) eqn:Ef;
        [|simpl in E; rewrite Ef in E; by injection E as <-]. split; [done|]. by exists since.
Qed.

(** What is sent in a step. *)
Definition sends (s : State) (h : list Moment) (x : Moment) : Prop :=
  forall c, c ∈ sent x -> exists i now now' b, event x = Decided i now now' /\
    tasks s !! i = Some {| target := close_id c; stage := Known b |} /\
    (b = false -> fees_low s = true /\
       exists since, dlt (dsub now' since) close_patience = false /\ waiting (h ++ [x]) (close_id c) since).

Lemma step_explained s h e s' out :
  explained s h -> step s e = Some (s', out) ->
  explained s' (h ++ [{| before := s; event := e; sent := out |}]) /\ sends s h {| before := s; event := e; sent := out |}.
Proof.
  intros Hs. pose proof Hs as [H1 H2 H3].
  assert (forall s1 x, db_ok (db s1) -> tasks s1 = tasks s \/ tasks s1 = [] ->
    (forall n t, get_close_pending (db s1) n = Some t -> get_close_pending (db s) n = Some t /\ still_waiting n x) ->
    sent x = [] -> explained s1 (h ++ [x]) /\ sends s h x) as Hplain.
  { intros s1 x Hd Ht Hp Hx. split; [|intros c Hc; rewrite Hx in Hc; by apply not_elem_of_nil in Hc].
    apply (explained_snoc s); [done|done| |done]. intros t Hin. destruct Ht as [Ht|Ht]; rewrite Ht in Hin; [eauto|].
    by apply not_elem_of_nil in Hin. }
  destruct e as [name value| |low|n flag| |ex|n c|now|now now'| |i reply|i now now'|n now|]; cbn [step].
  - destruct (negb _); [intros [= <- <-]; by apply Hplain; [|left|..]|].
    destruct (option_value value) as [[b|]|[]]; intros [= <- <-]; by apply Hplain; [|left|..].
  - intros [= <- <-]. by apply Hplain; [|left|..].
  - intros [= <- <-]. by apply Hplain; [|left|..].
  - destruct (Unmanaged.inform_close _ _ _); [|done]. cbn [mbind option_bind]. intros [= <- <-]. by apply Hplain; [|left|..].
  - destruct (soliciting s); intros [= <- <-]; by apply Hplain; [|left|..].
  - intros [= <- <-]. by apply Hplain; [|left|..].
  - unfold raise_complaint. destruct (negb _); intros [= <- <-]; by apply Hplain; [|left|..].
  - intros [= <- <-].
    destruct (record_ok (exempted_nodes s) now (map_to_list (pending_complaints s)) (db s) H1) as [Hd Hg].
    apply Hplain; [done|by left| |done]. simpl. intros n t. by rewrite Hg.
  - intros [= <- <-]. destruct (cleanup_spec (db s) max_complaint_age max_closed_complaint_age now now' H1) as [Hd Hg].
    apply Hplain; [done|by left| |done]. simpl. intros n t Ht. by apply Hg in Ht.
  - destruct (rpc s) eqn:Hr; intros [= <- <-].
    + split; [by apply check_close_explained|]. intros c Hc. by apply not_elem_of_nil in Hc.
    + apply Hplain; [done|by left| |done]. intros n t Ht. split; [done|]. unfold still_waiting. simpl. by rewrite Hr.
  - destruct (tasks s !! i) as [[n [|b]]|] eqn:Ei; [|intros [= <- <-]; by apply Hplain; [|left|..]..].
    assert (forall l, (forall t, t ∈ l -> exists u, u ∈ tasks s /\ target u = target t) ->
      explained (with_tasks s l) (h ++ [{| before := s; event := Listed i reply; sent := [] |}]) /\
      sends s h {| before := s; event := Listed i reply; sent := [] |}) as Hl.
    { intros l Hl. split; [|intros c Hc; by apply not_elem_of_nil in Hc]. apply (explained_snoc s); [done|done|exact Hl|]. simpl. done. }
    destruct (let* _ := _ in _) as [b|[]]; intros [= <- <-]; apply Hl; intros t Hin.
    + apply list_elem_of_lookup in Hin as [j Hj]. destruct (decide (i = j)) as [->|Hne].
      * rewrite list_lookup_insert_eq in Hj by (by eapply lookup_lt_Some). injection Hj as <-. exists {| target := n; stage := Listing |}.
        split; [by eapply list_elem_of_lookup_2|done].
      * rewrite list_lookup_insert_ne in Hj by done. exists t. split; [by eapply list_elem_of_lookup_2|done].
    + exists t. split; [|done]. rewrite delete_take_drop in Hin. apply elem_of_app in Hin as [Hin|Hin];
        [by eapply subseteq_take|by eapply subseteq_drop].
    + exists t. split; [|done]. rewrite delete_take_drop in Hin. apply elem_of_app in Hin as [Hin|Hin];
        [by eapply subseteq_take|by eapply subseteq_drop].
  - destruct (tasks s !! i) as [[n [|b]]|] eqn:Ei.
    1,3: intros [= <- <-]; (apply Hplain; [done|by left| |done]); intros m t Ht; (split; [done|]); unfold still_waiting; simpl; by rewrite Ei.
    intros Ef. destruct (finish_explained s h i n b now now' s' out Hs Ei Ef) as (He & Ho & Hw). split; [done|].
    intros c Hc. simpl in Hc. destruct Ho as [->| ->]; [by apply not_elem_of_nil in Hc|]. apply list_elem_of_singleton in Hc as ->.
    exists i, now, now', b. split; [done|]. split; [done|]. by apply Hw.
  - intros [= <- <-]. destruct (clear_spec (db s) n H1) as (Hd & _ & _ & Hg).
    destruct (channel_closed_spec (clear_close_pending (db s) n) n now Hd) as [Hd' Hg'].
    apply Hplain; [done|by left| |done]. simpl. intros m t. rewrite Hg', Hg. destruct decide as [->|Hm]; [done|]. intros Ht.
    split; [done|]. unfold still_waiting. simpl. congruence.
  - intros [= <- <-]. by apply Hplain; [|right|..].
Qed.

Lemma run_explained s h es s' h' :
  explained s h -> run s es = Some (s', h') ->
  forall h1 x h2, h' = h1 ++ x :: h2 -> explained (before x) (h ++ h1) /\ sends (before x) (h ++ h1) x.
Proof.
  revert s h h'. induction es as [|e es IH]; intros s h h' Hs; cbn [run].
  { intros [= <- <-] h1 x h2 E. by destruct h1. }
  destruct (step s e) as [[s1 out]|] eqn:E1; [|done]. cbn [mbind option_bind].
  destruct (run s1 es) as [[s2 k]|] eqn:E2; [|done]. cbn [mbind option_bind]. intros [= <- <-] h1 x h2 E.
  destruct (step_explained s h e s1 out Hs E1) as [Hs1 Hsend]. destruct h1 as [|y h1].
  - injection E as <- <-. simpl. rewrite app_nil_r. by split.
  - injection E as <- ->. destruct (IH s1 _ _ Hs1 E2 h1 x h2 eq_refl) as [H1 H2]. by rewrite <- app_assoc in H1, H2.
Qed.

(** C4: No channel is closed without cause.  In the history of the program, restarts
    included, every [close] command goes back to a check at which closing was enabled and
    the peer was managed and had at least five complaints that count.  It is sent at once
    only for a peer that the node reports connected; for a peer that is away only when
    onchain fees are low and three days have passed since the close was first put off, and
    in all that time every check still condemned the peer, it was never seen by a close,
    and its channel was not closed. *)
Theorem closes_have_cause es s h h1 x h2 c :
  run (boot empty) es = Some (s, h) -> h = h1 ++ x :: h2 -> c ∈ sent x ->
  (exists y, y ∈ h1 /\ condemned (close_id c) y) /\
  exists i now now' b, event x = Decided i now now' /\
    tasks (before x) !! i = Some {| target := close_id c; stage := Known b |} /\
    (b = false -> fees_low (before x) = true /\
       exists since, dlt (dsub now' since) close_patience = false /\ waiting (h1 ++ [x]) (close_id c) since).
Proof.
  intros Hr E Hc. assert (explained (boot empty) []) as H0.
  { split; simpl; [apply empty_ok|intros t Ht; by apply not_elem_of_nil in Ht|done]. }
  destruct (run_explained _ [] es s h H0 Hr h1 x h2 E) as [[_ Ht _] Hs]. simpl in Ht, Hs.
  destruct (Hs c Hc) as (i & now & now' & b & Ee & Ei & Hb). split; [|by exists i, now, now', b].
  by apply (Ht _ (list_elem_of_lookup_2 _ _ _ Ei)).
Qed.

(** *** A sample run: five complaints, and three days of waiting *)

Definition day (n : Z) : double := d_of_Z (n * 86400).
Definition absent : json := JObj [(lit "channels", JArr [])].
Definition attempt (n : Z) : list Event := [CheckClose; Listed 0 (inl absent); Decided 0 (day n) (day n)].
Definition demo_events : list Event :=
  [Init; Option_ option_name (Some (JStr (lit "true"))); OnchainFee true]
  ++ concat (map (fun n => [SolicitBegin; RaisePeerComplaint None (lit "slow"); SolicitEnd (day n)]) [1; 2; 3; 4; 5])
  ++ attempt 5 ++ attempt 6 ++ [Cleanup (day 7) (day 7)] ++ attempt 8.

Definition demo_run : State * list Moment := Eval vm_compute in default (boot empty, []) (run (boot empty) demo_events).
Definition demo_last : Moment := {| before := before (List.last demo_run.2 {| before := boot empty; event := Init; sent := [] |});
                                    event := Decided 0 (day 8) (day 8); sent := [{| close_id := None |}] |}.

Lemma closes_have_cause_witness :
  exists h1, demo_run.2 = h1 ++ [demo_last] /\ (exists y, y ∈ h1 /\ condemned None y) /\
    exists since, dlt (dsub (day 8) since) close_patience = false /\ waiting (h1 ++ [demo_last]) None since.
Proof.
  assert (demo_run.2 = removelast demo_run.2 ++ [demo_last]) as E by (vm_compute; reflexivity).
  exists (removelast demo_run.2). split; [exact E|].
  destruct (closes_have_cause demo_events demo_run.1 demo_run.2 (removelast demo_run.2) demo_last [] {| close_id := None |})
    as (Hy & i & now & now' & b & Ee & Et & Hb).
  - vm_compute. reflexivity.
  - exact E.
  - simpl. apply list_elem_of_here.
  - split; [exact Hy|]. simpl in Ee. injection Ee as <- <- <-.
    assert (b = false) as -> by (vm_compute in Et; by injection Et as <-). destruct (Hb eq_refl) as [_ H]. exact H.
Defined.

End Desk.
