(* ===== verification/OnchainFees.v ===== *)
(** * The judgement of onchain fees (src/Boss/Mod/OnchainFeeMonitor.cpp)

    The module samples the fee rate every ten minutes and keeps two weeks of samples.  It
    judges fees low or high by percentiles of the samples, with hysteresis.  Other modules
    act on the judgement: channels are opened, and offline peers closed, when fees are low.

    The handlers wait for the node and then for the database: the parts after the wait are
    tasks, which proceed in any order.  A table of samples is the list of its values in the
    order of the ids; [AUTOINCREMENT] makes the order that of insertion. *)

From stdpp Require Import base list numbers strings sorting.
From Stdlib Require Import QArith Qround Lqa.
From S2P Require Import Prelude.
From S2P Require Import Double.
From S2P Require Import Amount.
From S2P Require Import Jsmn.
From S2P Require Import Reply.
Import Jsmn.
Import Reply.

#[local] Open Scope Z_scope.
#[local] Open Scope reply_scope.

Module OnchainFees.

Definition max_num_samples : nat := 2016.
Definition initial_sample_data : list double := replicate 14 (d_of_Z 253).
Definition num_initial_samples : nat := 14.

Definition hi_to_lo_percentile : double := d_of_Z 17.
Definition mid_percentile : double := d_of_Z 20.
Definition lo_to_hi_percentile : double := d_of_Z 23.

(** ** The samples *)

Abbreviation Samples := (list double).

Definition initialize_sample_data (l : Samples) : Samples :=
  if (num_initial_samples <=? length l)%nat then l else l ++ drop (length l) initial_sample_data.

Definition check_num_samples (l : Samples) : Samples :=
  if (max_num_samples <? length l)%nat then drop (length l - max_num_samples) l else l.

Definition add_sample (l : Samples) (feerate : double) : Samples := check_num_samples (l ++ [feerate]).

(** [ORDER BY data] *)
Definition lower (a b : double) : Prop := dlt b a = false.

#[global] Instance lower_dec a b : Decision (lower a b).
Proof. unfold lower. apply _. Defined.

Definition index_at (n : nat) (percentile : double) : option nat :=
  i ← d_to_u64 (ddiv (dmul (d_of_Z (Z.of_nat n)) percentile) (d_of_Z 100));
  Some (if (n <=? Z.to_nat i)%nat then (n - 1)%nat else Z.to_nat i).

(** [None] is an undefined conversion. *)
Definition get_feerate_at_percentile (l : Samples) (percentile : double) : option double :=
  if (length l =? 0)%nat then Some (d_of_Z 253)
  else
    i ← index_at (length l) percentile;
    Some (default (Fin 0) (merge_sort lower l !! i)).

Record PercentileFeerates := { h2l : double; mid : double; l2h : double }.

Definition get_percentile_feerates (l : Samples) : option PercentileFeerates :=
  a ← get_feerate_at_percentile l hi_to_lo_percentile;
  b ← get_feerate_at_percentile l mid_percentile;
  c ← get_feerate_at_percentile l lo_to_hi_percentile;
  Some {| h2l := a; mid := b; l2h := c |}.

(** ** The fee rate *)

Definition get_feerate (res : json) : outcome (option double) :=
  if negb (jis_object (Some res)) then inl None
  else
    let* h := has (Some res) "perkw" in
    if negb h then inl None
    else
      let* perkw := get (Some res) "perkw" in
      if negb (jis_object perkw) then inl None
      else
        let* h := has perkw "opening" in
        if negb h then inl None
        else
          let* opening := get perkw "opening" in
          if negb (jis_number opening) then inl None
          else let* v := number opening in inl (Some v).

(** ** The monitor *)

(** What waits: the three uses of the database, with the fee rate that was saved, and the
    retry that waits for the node. *)
Inductive Task := InitDb (f : double) | TimerDb (f : double) | RetryRpc | RetryDb (f : double).

#[global] Instance Task_eq_retry t : Decision (t = RetryRpc).
Proof. destruct t; [by right|by right|by left|by right]. Defined.

Record State := { is_low_fee_flag : bool; last_feerate : option double; samples : Samples; tasks : list Task }.

Definition start (l : Samples) : State :=
  {| is_low_fee_flag := false; last_feerate := None; samples := initialize_sample_data l; tasks := [] |}.

Definition with_flag (s : State) (b : bool) (l : Samples) : State :=
  {| is_low_fee_flag := b; last_feerate := last_feerate s; samples := l; tasks := tasks s |}.
Definition with_tasks (s : State) (f : option double) (l : list Task) : State :=
  {| is_low_fee_flag := is_low_fee_flag s; last_feerate := f; samples := samples s; tasks := l |}.

(** [Msg::OnchainFee] *)
Record Report := { fees_low : bool; fee_rate : option double }.
Definition report_fee (s : State) : Report := {| fees_low := is_low_fee_flag s; fee_rate := last_feerate s |}.

Definition judge (low : bool) (f : double) (r : PercentileFeerates) : bool :=
  if low then negb (dgt f (l2h r)) else dle f (h2l r).

(** A comparison [*saved_feerate <= feerates.mid], where nothing was saved. *)
Definition unsaved : double := Fin 0.

Definition use_db (s : State) (t : Task) : option (State * list Report) :=
  match t with
  | InitDb f =>
      r ← get_percentile_feerates (samples s);
      let s := with_flag s (dlt f (mid r)) (samples s) in
      Some (s, [report_fee s])
  | TimerDb f =>
      let l := add_sample (samples s) f in
      r ← get_percentile_feerates l;
      let s := with_flag s (judge (is_low_fee_flag s) f r) l in
      Some (s, [report_fee s])
  | RetryDb _ =>
      r ← get_percentile_feerates (samples s);
      let s := with_flag s (dle unsaved (mid r)) (samples s) in
      Some (s, [report_fee s])
  | RetryRpc => Some (s, [])
  end.

Inductive Event :=
| GotInit (f : option double)       (** the fee rate that [on_init] gets *)
| GotTimer (f : option double)      (** the one that [on_timer] gets *)
| GotRetry (i : nat) (f : option double)
| Db (i : nat).                     (** the database is free for a task *)

Definition step (s : State) (e : Event) : option (State * list Report) :=
  match e with
  | GotInit None => Some (with_tasks s (last_feerate s) (tasks s ++ [RetryRpc]), [])
  | GotInit (Some f) => Some (with_tasks s (Some f) (tasks s ++ [InitDb f]), [])
  | GotTimer None => Some (s, [report_fee s])
  | GotTimer (Some f) => Some (with_tasks s (Some f) (tasks s ++ [TimerDb f]), [])
  | GotRetry i f =>
      match tasks s !! i, f with
      | Some RetryRpc, Some f => Some (with_tasks s (last_feerate s) (<[i := RetryDb f]> (tasks s)), [])
      | _, _ => Some (s, [])
      end
  | Db i =>
      match tasks s !! i with
      | None | Some RetryRpc => Some (s, [])
      | Some t => use_db (with_tasks s (last_feerate s) (delete i (tasks s))) t
      end
  end.

Fixpoint run (s : State) (es : list Event) : option (State * list Report) :=
  match es with
  | [] => Some (s, [])
  | e :: es =>
      '(s, o) ← step s e;
      '(s, os) ← run s es;
      Some (s, o ++ os)
  end.

(** ** Ranks

    The thresholds come from a sorted table; comparing with them is counting. *)

Definition finite (f : double) : Prop := exists q, f = Fin q.

Definition below (l : Samples) (f : double) : nat := length (filter (fun x => dlt x f = true) l).
Definition upto (l : Samples) (f : double) : nat := length (filter (fun x => dlt f x = false) l).

#[global] Instance lower_total : Total lower.
Proof.
  intros a b. unfold lower. destruct a as [x|[]|], b as [y|[]|]; simpl; auto.
  destruct (Qle_bool x y) eqn:E1; [by left|]. destruct (Qle_bool y x) eqn:E2; [by right|]. exfalso.
  assert (~ (x <= y)%Q) by (rewrite <- Qle_bool_iff; congruence). assert (~ (y <= x)%Q) by (rewrite <- Qle_bool_iff; congruence).
  destruct (Qlt_le_dec x y); [|done]. lra.
Qed.

Lemma lower_finite x y : lower (Fin x) (Fin y) <-> (x <= y)%Q.
Proof. unfold lower. simpl. by rewrite negb_false_iff, Qle_bool_iff. Qed.

Lemma sorted_samples l : Forall finite l -> StronglySorted lower (merge_sort lower l).
Proof.
  intros Hf. apply (Sorted_strongly_on finite); [|by rewrite merge_sort_Permutation|apply Sorted_merge_sort, _].
  intros ? ? ? [x ->] [y ->] [z ->]. rewrite !lower_finite. lra.
Qed.

(** Around the element at a place of a sorted list. *)
Lemma around l k v :
  StronglySorted lower l -> l !! k = Some v ->
  l = take k l ++ v :: drop (S k) l /\ (forall x, x ∈ take k l -> lower x v) /\ (forall x, x ∈ drop (S k) l -> lower v x) /\
  length (take k l) = k.
Proof.
  intros Hs Hk. pose proof (take_drop_middle _ _ _ Hk) as E. pose proof Hs as Hs'. rewrite <- E in Hs'.
  assert (forall x y, x ∈ take k l -> y ∈ v :: drop (S k) l -> lower x y) as H1 by (intros; by eapply (StronglySorted_app_1_elem_of lower)).
  pose proof (StronglySorted_app_1_r lower (take k l) (v :: drop (S k) l) Hs') as H2.
  apply StronglySorted_inv in H2 as [_ H2]. rewrite Forall_forall in H2.
  split_and!; [by rewrite E|intros x Hx; apply H1; [done|left]|done|]. rewrite length_take. apply lookup_lt_Some in Hk. lia.
Qed.

Lemma rank_below l k v f :
  Forall finite l -> finite f -> merge_sort lower l !! k = Some v -> dle f v = true <-> (below l f <= k)%nat.
Proof.
  intros Hl [q ->] Hk. destruct (around _ k v (sorted_samples l Hl) Hk) as (E & Hlo & Hhi & Hlen).
  assert (below l (Fin q) = below (merge_sort lower l) (Fin q)) as -> by (unfold below; by rewrite merge_sort_Permutation).
  assert (Forall finite (merge_sort lower l)) as Hm by (by rewrite merge_sort_Permutation). rewrite Forall_forall in Hm.
  destruct (Hm v (list_elem_of_lookup_2 _ _ _ Hk)) as [w ->]. rewrite dle_Fin. set (m := merge_sort lower l) in *. split.
  - intros Hle. unfold below. rewrite E, filter_app, length_app.
    rewrite (filter_none (fun x => dlt x (Fin q) = true) (Fin w :: drop (S k) m)).
    + pose proof (length_filter (fun x => dlt x (Fin q) = true) (take k m)). simpl. lia.
    + apply Forall_forall. intros x Hx. assert (x ∈ m) as Hxm by (rewrite E; apply elem_of_app; by right).
      destruct (Hm x Hxm) as [y ->]. rewrite dlt_Fin. apply elem_of_cons in Hx as [[= ->]|Hx]; [lra|].
      apply Hhi, lower_finite in Hx. lra.
  - intros Hb. destruct (Qlt_le_dec w q) as [Hlt|]; [|done]. exfalso. revert Hb. unfold below.
    rewrite E, filter_app, length_app, filter_cons. rewrite decide_True by (by apply dlt_Fin).
    rewrite (filter_every (fun x => dlt x (Fin q) = true) (take k m)); [cbn [length]; lia|].
    apply Forall_forall. intros x Hx. assert (x ∈ m) as Hxm by (rewrite E; apply elem_of_app; by left).
    destruct (Hm x Hxm) as [y ->]. apply Hlo, lower_finite in Hx. apply dlt_Fin. lra.
Qed.

Lemma rank_upto l k v f :
  Forall finite l -> finite f -> merge_sort lower l !! k = Some v -> dlt f v = true <-> (upto l f <= k)%nat.
Proof.
  intros Hl [q ->] Hk. destruct (around _ k v (sorted_samples l Hl) Hk) as (E & Hlo & Hhi & Hlen).
  assert (upto l (Fin q) = upto (merge_sort lower l) (Fin q)) as -> by (unfold upto; by rewrite merge_sort_Permutation).
  assert (Forall finite (merge_sort lower l)) as Hm by (by rewrite merge_sort_Permutation). rewrite Forall_forall in Hm.
  destruct (Hm v (list_elem_of_lookup_2 _ _ _ Hk)) as [w ->]. rewrite dlt_Fin. set (m := merge_sort lower l) in *.
  assert (forall y, dlt (Fin q) (Fin y) = false <-> (y <= q)%Q) as Hd by (intros y; apply lower_finite). split.
  - intros Hle. unfold upto. rewrite E, filter_app, length_app.
    rewrite (filter_none (fun x => dlt (Fin q) x = false) (Fin w :: drop (S k) m)).
    + pose proof (length_filter (fun x => dlt (Fin q) x = false) (take k m)). cbn [length]. lia.
    + apply Forall_forall. intros x Hx. assert (x ∈ m) as Hxm by (rewrite E; apply elem_of_app; by right).
      destruct (Hm x Hxm) as [y ->]. rewrite Hd. apply elem_of_cons in Hx as [[= ->]|Hx]; [lra|].
      apply Hhi, lower_finite in Hx. lra.
  - intros Hb. destruct (Qlt_le_dec q w) as [|Hlt]; [done|]. exfalso. revert Hb. unfold upto.
    rewrite E, filter_app, length_app, filter_cons. rewrite decide_True by (by apply Hd).
    rewrite (filter_every (fun x => dlt (Fin q) x = false) (take k m)); [cbn [length]; lia|].
    apply Forall_forall. intros x Hx. assert (x ∈ m) as Hxm by (rewrite E; apply elem_of_app; by left).
    destruct (Hm x Hxm) as [y ->]. apply Hlo, lower_finite in Hx. apply Hd. lra.
Qed.

(** ** Percentiles *)

Definition samples_ok (l : Samples) : Prop := Forall finite l /\ (num_initial_samples <= length l <= max_num_samples)%nat.

(** The places of the thresholds among [n] samples. *)
Definition rank (p n : nat) : nat := (p * n / 100)%nat.

Lemma index_at_rank n :
  (num_initial_samples <= n <= max_num_samples)%nat ->
  index_at n hi_to_lo_percentile = Some (rank 17 n) /\ index_at n mid_percentile = Some (rank 20 n) /\
  index_at n lo_to_hi_percentile = Some (rank 23 n).
Proof.
  intros Hn. unfold num_initial_samples, max_num_samples in Hn.
  set (f := fun z => (index_at (Z.to_nat z) hi_to_lo_percentile, index_at (Z.to_nat z) mid_percentile, index_at (Z.to_nat z) lo_to_hi_percentile)).
  set (g := fun z => (Some (Z.to_nat (17 * z / 100)), Some (Z.to_nat (20 * z / 100)), Some (Z.to_nat (23 * z / 100)))).
  assert (f (Z.of_nat n) = g (Z.of_nat n)) as E.
  { apply (seqZ_eq f g 2017); [vm_compute; reflexivity|lia]. }
  unfold f, g in E. rewrite Nat2Z.id in E. injection E as -> -> ->. unfold rank.
  assert (forall p : nat, Z.to_nat (Z.of_nat p * Z.of_nat n / 100) = (p * n / 100)%nat) as H.
  { intros p. rewrite <- Nat2Z.inj_mul. change 100 with (Z.of_nat 100). rewrite <- Nat2Z.inj_div, Nat2Z.id. done. }
  rewrite <- !H. done.
Qed.

Lemma percentile_spec l p k :
  samples_ok l -> index_at (length l) p = Some k -> (k < length l)%nat ->
  exists v, get_feerate_at_percentile l p = Some v /\ merge_sort lower l !! k = Some v.
Proof.
  intros [Hf Hl] Ei Hk. unfold get_feerate_at_percentile. destruct (Nat.eqb_spec (length l) 0); [unfold num_initial_samples in Hl; lia|].
  rewrite Ei. cbn [mbind option_bind]. destruct (lookup_lt_is_Some_2 (merge_sort lower l) k) as [v Hv].
  { by rewrite merge_sort_Permutation. }
  exists v. by rewrite Hv.
Qed.

(** The thresholds of a table of samples, by their ranks. *)
Lemma thresholds l :
  samples_ok l -> exists r, get_percentile_feerates l = Some r /\
    (forall f, finite f -> dle f (h2l r) = true <-> (below l f <= rank 17 (length l))%nat) /\
    (forall f, finite f -> dlt f (mid r) = true <-> (upto l f <= rank 20 (length l))%nat) /\
    (forall f, finite f -> dle f (l2h r) = true <-> (below l f <= rank 23 (length l))%nat) /\
    h2l r ∈ l /\ mid r ∈ l /\ l2h r ∈ l.
Proof.
  intros Hl. pose proof Hl as [Hf Hn]. destruct (index_at_rank (length l) Hn) as (E1 & E2 & E3).
  unfold num_initial_samples in Hn. assert (forall p, (p < 100)%nat -> (rank p (length l) < length l)%nat) as Hr.
  { intros p Hp. unfold rank. apply Nat.Div0.div_lt_upper_bound. nia. }
  destruct (percentile_spec l _ _ Hl E1) as (a & Ga & Ka); [apply Hr; lia|].
  destruct (percentile_spec l _ _ Hl E2) as (b & Gb & Kb); [apply Hr; lia|].
  destruct (percentile_spec l _ _ Hl E3) as (c & Gc & Kc); [apply Hr; lia|].
  unfold get_percentile_feerates. rewrite Ga. cbn [mbind option_bind]. rewrite Gb. cbn [mbind option_bind]. rewrite Gc.
  eexists. split; [reflexivity|]. cbn [h2l mid l2h]. split_and!.
  - intros f H. by apply rank_below.
  - intros f H. by apply rank_upto.
  - intros f H. by apply rank_below.
  - apply list_elem_of_lookup_2 in Ka. by rewrite merge_sort_Permutation in Ka.
  - apply list_elem_of_lookup_2 in Kb. by rewrite merge_sort_Permutation in Kb.
  - apply list_elem_of_lookup_2 in Kc. by rewrite merge_sort_Permutation in Kc.
Qed.

Lemma add_sample_ok l f :
  samples_ok l -> finite f -> samples_ok (add_sample l f) /\ (length l <= length (add_sample l f))%nat /\
  (below (add_sample l f) f <= below l f)%nat.
Proof.
  intros [Hf Hn] H. unfold add_sample, check_num_samples. rewrite length_app. cbn [length].
  assert (Forall finite (l ++ [f])) as Hf' by (apply Forall_app; split; [done|by repeat constructor]).
  assert (below (l ++ [f]) f = below l f) as Eb.
  { unfold below. rewrite filter_app, length_app, filter_cons, filter_nil. destruct H as [q ->]. rewrite decide_False; [simpl; lia|].
    rewrite dlt_Fin. lra. }
  destruct (Nat.ltb_spec max_num_samples (length l + 1)).
  - split; [split; [by apply Forall_drop|]|]; rewrite length_drop, length_app; cbn [length]; unfold max_num_samples, num_initial_samples in *; [lia|].
    split; [lia|]. rewrite <- Eb. unfold below. rewrite <- (take_drop (length l + 1 - 2016) (l ++ [f])) at 2. rewrite filter_app, length_app. lia.
  - split; [split; [done|]|]; rewrite length_app; cbn [length]; unfold max_num_samples, num_initial_samples in *; [lia|]. split; [lia|]. by rewrite Eb.
Qed.

(** ** The monitor at work *)

Definition rate_ok (f : double) : Prop := exists q, f = Fin q /\ (0 <= q)%Q.

Definition task_ok (t : Task) : Prop := match t with InitDb f | TimerDb f | RetryDb f => rate_ok f | RetryRpc => True end.

Record state_ok (s : State) : Prop := {
  ok_count : (num_initial_samples <= length (samples s) <= max_num_samples)%nat;
  ok_rates : Forall rate_ok (samples s);
  ok_tasks : Forall task_ok (tasks s)
}.

Lemma rates_finite l : Forall rate_ok l -> Forall finite l.
Proof. intros H. eapply Forall_impl; [exact H|]. intros f (q & -> & _). by exists q. Qed.

Lemma state_samples s : state_ok s -> samples_ok (samples s).
Proof. intros [H1 H2 _]. split; [by apply rates_finite|done]. Qed.

Definition event_ok (e : Event) : Prop :=
  match e with GotInit (Some f) | GotTimer (Some f) | GotRetry _ (Some f) => rate_ok f | _ => True end.

Lemma monitor_start_ok l : (length l <= max_num_samples)%nat -> Forall rate_ok l -> state_ok (start l).
Proof.
  intros Hn Hl. unfold start, initialize_sample_data. split; cbn [samples tasks]; [| |constructor].
  - destruct (Nat.leb_spec num_initial_samples (length l)); [done|]. rewrite length_app, length_drop.
    unfold initial_sample_data, num_initial_samples, max_num_samples in *. rewrite length_replicate. lia.
  - destruct (Nat.leb _ _); [done|]. apply Forall_app. split; [done|]. apply Forall_drop, Forall_replicate.
    exists 253%Q. split; [vm_compute; reflexivity|lra].
Qed.

Lemma add_sample_rates l f : Forall rate_ok l -> rate_ok f -> Forall rate_ok (add_sample l f).
Proof.
  intros Hl Hf. unfold add_sample, check_num_samples. assert (Forall rate_ok (l ++ [f])) by (apply Forall_app; split; [done|by repeat constructor]).
  destruct (Nat.ltb _ _); [by apply Forall_drop|done].
Qed.

(** The part of a handler that has the database, by counting samples. *)
Lemma use_db_spec s t :
  state_ok s -> task_ok t -> t <> RetryRpc ->
  exists s', use_db s t = Some (s', [report_fee s']) /\ state_ok s' /\ last_feerate s' = last_feerate s /\ tasks s' = tasks s /\
    let n := length (samples s') in
    match t with
    | InitDb f => samples s' = samples s /\ is_low_fee_flag s' = (upto (samples s) f <=? rank 20 n)%nat
    | TimerDb f => samples s' = add_sample (samples s) f /\
        is_low_fee_flag s' = (below (samples s') f <=? rank (if is_low_fee_flag s then 23 else 17) n)%nat
    | RetryDb _ => samples s' = samples s /\ is_low_fee_flag s' = true
    | RetryRpc => True
    end.
Proof.
  intros Hs Ht Hne. pose proof Hs as [H1 H2 H3]. destruct t as [f|f| |f]; [..|done|]; cbn [use_db].
  - destruct (thresholds (samples s) (state_samples s Hs)) as (r & -> & _ & Hm & _). cbn [mbind option_bind].
    eexists. split; [reflexivity|]. split; [by split|]. split_and!; try done. simpl.
    apply eq_true_iff_eq. rewrite Nat.leb_le. apply Hm. destruct Ht as (q & -> & _). by exists q.
  - assert (finite f) as Hf by (destruct Ht as (q & -> & _); by exists q).
    destruct (add_sample_ok (samples s) f (state_samples s Hs) Hf) as (Ha & _ & _).
    destruct (thresholds (add_sample (samples s) f) Ha) as (r & -> & Hh & _ & Hl & _ & _ & Hin). cbn [mbind option_bind].
    eexists. split; [reflexivity|]. split; [split; simpl; [apply Ha|by apply add_sample_rates|done]|]. split_and!; try done. simpl.
    unfold judge. apply eq_true_iff_eq. rewrite Nat.leb_le. destruct (is_low_fee_flag s); [|by apply Hh]. rewrite <- (Hl f Hf).
    unfold dgt. destruct Hf as [q ->], Ha as [Ha _]. rewrite Forall_forall in Ha. destruct (Ha _ Hin) as [w ->].
    simpl. by rewrite negb_involutive.
  - destruct (thresholds (samples s) (state_samples s Hs)) as (r & -> & _ & _ & _ & _ & Hm & _). cbn [mbind option_bind].
    eexists. split; [reflexivity|]. split; [by split|]. split_and!; try done. simpl.
    rewrite Forall_forall in H2. destruct (H2 _ Hm) as (q & -> & Hq). by apply dle_Fin.
Qed.

Lemma step_db s i t :
  tasks s !! i = Some t -> t <> RetryRpc ->
  step s (Db i) = use_db (with_tasks s (last_feerate s) (delete i (tasks s))) t.
Proof. intros E Hne. cbn [step]. rewrite E. by destruct t. Qed.

Lemma drop_task s i : state_ok s -> state_ok (with_tasks s (last_feerate s) (delete i (tasks s))).
Proof. intros [H1 H2 H3]. split; simpl; [done|done|by apply Forall_delete]. Qed.

Lemma monitor_step_ok s e : state_ok s -> event_ok e -> exists s' o, step s e = Some (s', o) /\ state_ok s'.
Proof.
  intros Hs He. pose proof Hs as [H1 H2 H3].
  assert (forall f l, Forall task_ok l -> state_ok (with_tasks s f (tasks s ++ l))) as Hadd.
  { intros f l Hl. split; simpl; [done|done|]. by apply Forall_app. }
  destruct e as [[f|]|[f|]|i f|i].
  - do 2 eexists. split; [done|]. apply Hadd. by repeat constructor.
  - do 2 eexists. split; [done|]. apply Hadd. by repeat constructor.
  - do 2 eexists. split; [done|]. apply Hadd. by repeat constructor.
  - by do 2 eexists.
  - cbn [step]. destruct (tasks s !! i) as [[]|] eqn:Ei; try (by do 2 eexists). destruct f as [f|]; [|by do 2 eexists].
    do 2 eexists. split; [done|]. split; simpl; [done|done|]. by apply Forall_insert.
  - destruct (tasks s !! i) as [t|] eqn:Ei; [|exists s, []; cbn [step]; by rewrite Ei].
    destruct (decide (t = RetryRpc)) as [->|Hne]; [exists s, []; cbn [step]; by rewrite Ei|].
    assert (task_ok t) as Ht by (rewrite Forall_forall in H3; apply H3; by eapply list_elem_of_lookup_2).
    destruct (use_db_spec _ t (drop_task s i Hs) Ht Hne) as (s' & E & Hs' & _). exists s'. eexists.
    rewrite (step_db s i t Ei Hne). by split.
Qed.

Lemma monitor_run_ok s es : state_ok s -> Forall event_ok es -> exists s' os, run s es = Some (s', os) /\ state_ok s'.
Proof.
  intros Hs He. revert s Hs. induction He as [|e es He _ IH]; intros s Hs; [by exists s, []|]. cbn [run].
  destruct (monitor_step_ok s e Hs He) as (s1 & o & -> & Hs1). cbn [mbind option_bind].
  destruct (IH s1 Hs1) as (s2 & os & -> & Hs2). cbn [mbind option_bind]. by do 2 eexists.
Qed.

(** C20: The monitor never has an undefined conversion and keeps between 14 and 2016 samples.
    A fee rate that the timer gets is judged by its rank among the samples, its own
    included: when fees were low they become high if more than 23 percent of the samples are
    lower, when they were high they become low if at most 17 percent are lower, and else the
    judgement stays.  One that is got at the start is low if at most 20 percent of the
    samples are lower or equal.  After a retry the fees are judged low whatever the rate is. *)
Theorem fees_judged_by_rank l es :
  (length l <= max_num_samples)%nat -> Forall rate_ok l -> Forall event_ok es ->
  exists s os, run (start l) es = Some (s, os) /\
    (num_initial_samples <= length (samples s) <= max_num_samples)%nat /\
    forall i t, tasks s !! i = Some t -> t <> RetryRpc ->
      exists s', step s (Db i) = Some (s', [report_fee s']) /\
        match t with
        | InitDb f => is_low_fee_flag s' = (upto (samples s) f <=? rank 20 (length (samples s)))%nat
        | TimerDb f => samples s' = add_sample (samples s) f /\
            is_low_fee_flag s' = (below (samples s') f <=? rank (if is_low_fee_flag s then 23 else 17) (length (samples s')))%nat
        | RetryDb _ => is_low_fee_flag s' = true
        | RetryRpc => True
        end.
Proof.
  intros Hn Hl He. destruct (monitor_run_ok _ es (monitor_start_ok l Hn Hl) He) as (s & os & E & Hs). exists s, os.
  split; [done|]. split; [apply Hs|]. intros i t Ei Hne.
  assert (task_ok t) as Ht. { pose proof (ok_tasks s Hs) as H3. rewrite Forall_forall in H3. apply H3. by eapply list_elem_of_lookup_2. }
  destruct (use_db_spec _ t (drop_task s i Hs) Ht Hne) as (s' & E' & _ & _ & _ & H). exists s'.
  rewrite (step_db s i t Ei Hne). split; [done|]. destruct t as [f|f| |f]; destruct H as [Es H]; [by rewrite Es in H|by split|done|done].
Qed.

(** *** A steady fee rate *)

(** Ten-minute events that all find the same fee rate. *)
Definition steady (f : double) (k : nat) : list Event := concat (replicate k [GotTimer (Some f); Db 0]).

Lemma steady_one s f :
  state_ok s -> tasks s = [] -> rate_ok f ->
  exists s' os, run s [GotTimer (Some f); Db 0] = Some (s', os) /\ state_ok s' /\ tasks s' = [] /\
    samples s' = add_sample (samples s) f /\
    is_low_fee_flag s' = (below (samples s') f <=? rank (if is_low_fee_flag s then 23 else 17) (length (samples s')))%nat.
Proof.
  intros Hs Ht Hf. set (s1 := with_tasks s (Some f) [TimerDb f]).
  assert (state_ok s1) as Hs1. { destruct Hs as [H1 H2 _]. split; simpl; [done|done|by repeat constructor]. }
  destruct (use_db_spec _ (TimerDb f) (drop_task s1 0 Hs1) Hf ltac:(done)) as (s' & E' & Hs' & _ & Ht' & Es & Ef).
  rewrite <- (step_db s1 0 (TimerDb f)) in E' by done. cbn [run].
  change (step s (GotTimer (Some f))) with (Some (with_tasks s (Some f) (tasks s ++ [TimerDb f]), @nil Report)).
  cbn [mbind option_bind]. rewrite Ht. cbn [app]. change (with_tasks s (Some f) [TimerDb f]) with s1. rewrite E'.
  cbn [mbind option_bind]. do 2 eexists. split; [reflexivity|]. done.
Qed.

Lemma run_app s es es' :
  run s (es ++ es') = '(s1, o) ← run s es; '(s2, o') ← run s1 es'; Some (s2, o ++ o').
Proof.
  revert s. induction es as [|e es IH]; intros s; cbn [app run]; [cbn [mbind option_bind]; by destruct (run s es') as [[? ?]|]|].
  destruct (step s e) as [[s1 o]|]; [|done]. cbn [mbind option_bind]. rewrite IH. destruct (run s1 es) as [[s2 os]|]; [|done].
  cbn [mbind option_bind]. destruct (run s2 es') as [[s3 os']|]; [|done]. cbn [mbind option_bind]. by rewrite app_assoc.
Qed.

Lemma rank_mono p n m : (n <= m)%nat -> (rank p n <= rank p m)%nat.
Proof. intros H. unfold rank. apply Nat.Div0.div_le_mono. nia. Qed.

(** Once low, the judgement stays low while the fee rate stays. *)
Lemma steady_stays_low f k s :
  state_ok s -> tasks s = [] -> rate_ok f -> is_low_fee_flag s = true ->
  (below (samples s) f <= rank 23 (length (samples s)))%nat ->
  exists s' os, run s (steady f k) = Some (s', os) /\ is_low_fee_flag s' = true.
Proof.
  revert s. induction k as [|k IH]; intros s Hs Ht Hf Hlow Hb; [by exists s, []|].
  destruct (steady_one s f Hs Ht Hf) as (s1 & os & E & Hs1 & Ht1 & Es & Ef). unfold steady. cbn [replicate concat].
  assert (finite f) as Hfin by (destruct Hf as (q & -> & _); by exists q).
  destruct (add_sample_ok (samples s) f (state_samples s Hs) Hfin) as (_ & Hlen & Hbel). rewrite <- Es in Hlen, Hbel.
  pose proof (rank_mono 23 _ _ Hlen) as Hr. rewrite Hlow in Ef.
  assert (is_low_fee_flag s1 = true) as Hlow1 by (rewrite Ef; apply Nat.leb_le; lia).
  destruct (IH s1 Hs1 Ht1 Hf Hlow1) as (s2 & os2 & E2 & H2); [lia|]. rewrite run_app, E. cbn [mbind option_bind].
  unfold steady in E2. rewrite E2. cbn [mbind option_bind]. by do 2 eexists.
Qed.

(** A steady fee rate settles the judgement: while every ten minutes find the same fee
    rate, the judgement changes at most once after the first of them, from high to low. *)
Theorem steady_fee_settles s f k m s1 os1 :
  state_ok s -> tasks s = [] -> rate_ok f ->
  run s (steady f (S k)) = Some (s1, os1) -> is_low_fee_flag s1 = true ->
  exists s2 os2, run s1 (steady f m) = Some (s2, os2) /\ is_low_fee_flag s2 = true.
Proof.
  intros Hs Ht Hf E Hlow. replace (steady f (S k)) with (steady f k ++ [GotTimer (Some f); Db 0]) in E.
  2: { unfold steady. replace (S k) with (k + 1)%nat by lia. by rewrite replicate_add, concat_app. }
  rewrite run_app in E.
  assert (forall k s, state_ok s -> tasks s = [] -> exists s' os, run s (steady f k) = Some (s', os) /\ state_ok s' /\ tasks s' = []) as Hgo.
  { clear - Hf. induction k as [|k IH]; intros s Hs Ht; [by exists s, []|]. unfold steady. cbn [replicate concat]. rewrite run_app.
    destruct (steady_one s f Hs Ht Hf) as (s1 & os & -> & Hs1 & Ht1 & _). cbn [mbind option_bind].
    destruct (IH s1 Hs1 Ht1) as (s2 & os2 & E2 & H2). unfold steady in E2. rewrite E2. cbn [mbind option_bind]. by do 2 eexists. }
  destruct (Hgo k s Hs Ht) as (s0 & os0 & E0 & Hs0 & Ht0). rewrite E0 in E. cbn [mbind option_bind] in E.
  destruct (steady_one s0 f Hs0 Ht0 Hf) as (s1' & os & E1 & Hs1 & Ht1 & Es & Ef). rewrite E1 in E. cbn [mbind option_bind] in E.
  injection E as <- <-. apply steady_stays_low; [done..|]. rewrite Hlow in Ef. symmetry in Ef. apply Nat.leb_le in Ef.
  unfold rank in *. destruct (is_low_fee_flag s0); [done|]. etransitivity; [exact Ef|]. apply Nat.Div0.div_le_mono. lia.
Qed.

(** When the fee rate is not known at the start, the monitor retries; the retry forgets
    the fee rate that it gets.  Whatever it is, fees are then judged low, and the message
    that says so has no fee rate from the retry. *)
Theorem retry_judges_low s i f :
  state_ok s -> tasks s !! i = Some RetryRpc -> rate_ok f ->
  exists s1 s2, step s (GotRetry i (Some f)) = Some (s1, []) /\ step s1 (Db i) = Some (s2, [report_fee s2]) /\
    is_low_fee_flag s2 = true /\ last_feerate s2 = last_feerate s.
Proof.
  intros Hs Ei Hf. cbn [step]. rewrite Ei. eexists. set (s1 := with_tasks s (last_feerate s) (<[i := RetryDb f]> (tasks s))).
  assert (state_ok s1) as Hs1. { destruct Hs as [H1 H2 H3]. split; simpl; [done|done|]. by apply Forall_insert. }
  assert (tasks s1 !! i = Some (RetryDb f)) as Ei1. { simpl. rewrite list_lookup_insert_eq; [done|]. by eapply lookup_lt_Some. }
  destruct (use_db_spec _ (RetryDb f) (drop_task s1 i Hs1) Hf ltac:(done)) as (s2 & E2 & _ & Hl & _ & _ & Hlow).
  exists s2. split; [reflexivity|]. split; [|by split]. change (step s1 (Db i) = Some (s2, [report_fee s2])). rewrite (step_db s1 i (RetryDb f) Ei1); done.
Qed.

(** *** Samples *)

Definition demo_start : State := start [].

Lemma demo_start_ok : state_ok demo_start.
Proof. apply monitor_start_ok; [simpl; unfold max_num_samples; lia|constructor]. Qed.

Lemma rate_Z z : 0 <= z -> rate_ok (Fin (inject_Z z)).
Proof. intros H. exists (inject_Z z). split; [done|]. change 0%Q with (inject_Z 0). by rewrite <- Zle_Qle. Qed.

Lemma fees_judged_by_rank_witness :
  exists s os, run (start []) [GotTimer (Some (Fin (inject_Z 1000)))] = Some (s, os) /\
    exists s', step s (Db 0) = Some (s', [report_fee s']) /\ is_low_fee_flag s' = false.
Proof.
  destruct (fees_judged_by_rank [] [GotTimer (Some (Fin (inject_Z 1000)))]) as (s & os & E & _ & H).
  - simpl. unfold max_num_samples. lia.
  - constructor.
  - constructor; [apply rate_Z; lia|constructor].
  - exists s, os. split; [exact E|]. cbn [run step mbind option_bind] in E. injection E as <- _.
    destruct (H 0%nat (TimerDb (Fin (inject_Z 1000))) eq_refl) as (s' & E' & Es & Ef); [done|].
    exists s'. split; [exact E'|]. rewrite Ef, Es. vm_compute. reflexivity.
Defined.

Definition demo_steady : State * list Report :=
  Eval vm_compute in default (demo_start, []) (run demo_start (steady (Fin (inject_Z 253)) 1)).

Lemma steady_fee_settles_witness :
  exists s2 os2, run demo_steady.1 (steady (Fin (inject_Z 253)) 1000) = Some (s2, os2) /\ is_low_fee_flag s2 = true.
Proof.
  apply (steady_fee_settles demo_start (Fin (inject_Z 253)) 0 1000 demo_steady.1 demo_steady.2).
  - apply demo_start_ok.
  - reflexivity.
  - apply rate_Z. lia.
  - vm_compute. reflexivity.
  - vm_compute. reflexivity.
Defined.

Definition demo_unknown : State := with_tasks demo_start None [RetryRpc].

Lemma retry_judges_low_witness :
  exists s1 s2, step demo_unknown (GotRetry 0 (Some (Fin (inject_Z 1000000)))) = Some (s1, []) /\
    step s1 (Db 0) = Some (s2, [report_fee s2]) /\ is_low_fee_flag s2 = true /\ last_feerate s2 = None.
Proof.
  apply (retry_judges_low demo_unknown 0 (Fin (inject_Z 1000000))).
  - pose proof demo_start_ok as [H1 H2 _]. split; [exact H1|exact H2|]. by repeat constructor.
  - reflexivity.
  - apply rate_Z. lia.
Defined.

End OnchainFees.
