(* ===== verification/Swappers.v ===== *)
(** * The triggers of swaps (src/Boss/ModG/Swapper.cpp and the modules built on it)

    [ModG::Swapper] is the base class of the modules that ask for swaps: it keeps one swap
    in flight and lets some blocks pass between swaps.  A module derived from it has a policy
    that says when to swap and how much: the interface [SwapPolicy].  Its instances are
    [NodeBalanceSwapper], which keeps incoming capacity, and [NeedsOnchainFundsSwapper], which
    tops up onchain funds.  The requests go to the manager of [SwapManager].

    A call of [trigger_swap] waits for the flag of the module [OnchainFundsIgnorer], and then
    for the database.  Threads that wait are lists of what they carry; they proceed in any
    order.  A transaction is one step: the one that requests a swap is handed over to the
    manager, which commits it, and the one of a response is borrowed from it.  The row of a
    swapper in the database survives a restart, all else does not. *)

From stdpp Require Import base list numbers strings gmap.
From Stdlib Require Import QArith Qround Lqa.
From S2P Require Import Prelude.
From S2P Require Import Double.
From S2P Require Import Amount.
From S2P Require Import LnIds.
From S2P Require Import Jsmn.
From S2P Require Import SwapManager.
From S2P Require Import Reply.
From S2P Require Import Peers.
Import Jsmn.
Import Reply.
Import Peers.

#[local] Open Scope Z_scope.
#[local] Open Scope reply_scope.

(** ** Lists *)

Lemma elem_of_deleted {A} (i : nat) (x : A) (l : list A) : x ∈ delete i l -> x ∈ l.
Proof.
  rewrite delete_take_drop, elem_of_app. intros [H|H]; apply list_elem_of_lookup in H as [k Hk].
  - apply lookup_take_Some in Hk as [Hk _]. by eapply list_elem_of_lookup_2.
  - rewrite lookup_drop in Hk. by eapply list_elem_of_lookup_2.
Qed.

Lemma delete_ne {A} (i : nat) (l : list A) : delete i l <> [] -> l <> [].
Proof. destruct l; [by destruct i|done]. Qed.

Module Swapper.

Definition ignored_blocks : Z := 6.
Definition swap_timeout : Z := 432.
Definition min_amount : Amount := default 0 (Amount.btc (RN (1 # 1000))).

Example min_amount_value : Amount.btc (RN (1 # 1000)) = Some 100000000.
Proof. vm_compute. reflexivity. Qed.

Abbreviation Uuid := Z.

(** ** Policies

    [Env] is what a derived class keeps, [Msg] its messages.  A message may lead to a call of
    [trigger_swap], whose function captured an [Ask].  The function, [ok], reads the fields
    when it runs, later; [None] is undefined behaviour. *)

Class SwapPolicy := {
  Env : Type;
  Msg : Type;
  Ask : Type;
  new_env : Env;
  receive : Env -> Msg -> Env * outcome (option Ask);
  ok : Env -> Ask -> option (bool * Amount)
}.

(** What a policy promises: messages that are fit never meet undefined behaviour, nor does
    the function that they lead to; it asks for less than [2^62] msat. *)
Class PolicyLaws (P : SwapPolicy) := {
  msg_ok : Msg -> Prop;
  env_ready : Env -> Prop;
  ask_ok : Ask -> Prop;
  receive_ready e m : env_ready e -> env_ready (receive e m).1;
  receive_asks e m a : msg_ok m -> (receive e m).2 = inl (Some a) -> env_ready (receive e m).1 /\ ask_ok a;
  receive_defined e m : msg_ok m -> (receive e m).2 <> inr Undefined;
  ok_defined e a : env_ready e -> ask_ok a -> exists b amt, ok e a = Some (b, amt) /\ (b = true -> 0 <= amt < 2 ^ 62)
}.

(** ** The swapper *)

(** The row of the table.  No uuid is the empty string. *)
Record Row := { swapUuid : option Uuid; blocked_until : Z; forget_after : Z }.

Definition never : Z := 5000000.

Definition dbinit (r : option Row) : Row :=
  default {| swapUuid := None; blocked_until := 0; forget_after := never |} r.

Section Swapper.
Context {P : SwapPolicy}.

Record State := {
  db : bool;
  blockheight : option Z;
  env : Env;
  row : option Row;
  (** Threads: in [on_block], waiting for the flag, and past it. *)
  blocks : nat;
  asked : list Ask;
  going : list Ask
}.

Definition start : State :=
  {| db := false; blockheight := None; env := new_env; row := None; blocks := 0; asked := []; going := [] |}.

Definition with_row (s : State) (r : Row) : State :=
  {| db := db s; blockheight := blockheight s; env := env s; row := Some r; blocks := blocks s;
     asked := asked s; going := going s |}.
Definition with_threads (s : State) (n : nat) (a g : list Ask) : State :=
  {| db := db s; blockheight := blockheight s; env := env s; row := row s; blocks := n; asked := a; going := g |}.
Definition with_env (s : State) (e : Env) : State :=
  {| db := db s; blockheight := blockheight s; env := e; row := row s; blocks := blocks s;
     asked := asked s; going := going s |}.

(** What happens.  [SwapRequest] is the message; [Declined] says that the policy did not want
    a swap, [Forgot] and [Responded] that these transactions were run, with the block height
    that they found. *)
Inductive Label :=
| SwapRequest (u : Uuid) (min max : Amount) (height : Z)
| Declined (height : Z)
| Forgot (height : Z)
| Responded (u : Uuid) (height : option Z).

Abbreviation result := (option (State * list Label)).

Definition on_swap_response (s : State) (u : Uuid) : result :=
  let r := if db s then row s else Some (dbinit (row s)) in
  let s := match r with Some r => with_row s r | None => s end in
  match r with
  | Some r =>
      if decide (swapUuid r = Some u) then
        let until :=
          match blockheight s with
          | Some h => let proposed := u32 (h + ignored_blocks) in
                      if blocked_until r <? proposed then proposed else blocked_until r
          | None => u32 (blocked_until r + ignored_blocks)
          end in
        Some (with_row s {| swapUuid := None; blocked_until := until; forget_after := never |},
              [Responded u (blockheight s)])
      else Some (s, [Responded u (blockheight s)])
  | None => Some (s, [Responded u (blockheight s)])
  end.

(** The transaction of [on_block]. *)
Definition on_block (s : State) : result :=
  h ← blockheight s;
  let s := match row s with
           | Some r =>
               if forget_after r <? h then
                 with_row s {| swapUuid := None; blocked_until := blocked_until r; forget_after := never |}
               else s
           | None => s
           end in
  Some (s, [Forgot h]).

Definition trigger_swap (s : State) (a : Ask) : State :=
  if negb (db s) || bool_decide (blockheight s = None) then s
  else with_threads s (blocks s) (asked s ++ [a]) (going s).

(** [u] is the random uuid. *)
Definition continue_swap (s : State) (a : Ask) (u : Uuid) : result :=
  h ← blockheight s;
  match row s with
  | None => Some (s, [])
  | Some r =>
      if negb (bool_decide (swapUuid r = None) && (blocked_until r <? h)) then Some (s, [])
      else
        let until := u32 (h + ignored_blocks) in
        '(yes, amt) ← ok (env s) a;
        if negb yes || Amount.eq amt 0 then
          Some (with_row s {| swapUuid := swapUuid r; blocked_until := until; forget_after := forget_after r |},
                [Declined h])
        else
          let amt := if Amount.lt amt min_amount then min_amount else amt in
          Some (with_row s {| swapUuid := Some u; blocked_until := until;
                              forget_after := u32 (h + swap_timeout) |},
                [SwapRequest u min_amount amt h])
  end.

(** ** Events *)

Inductive Event :=
| E_db
| E_block (height : Z)
| E_forget                            (** the transaction of an [on_block] *)
| E_msg (m : Msg)
| E_flag (i : nat) (ignore : bool)    (** the reply of [OnchainFundsIgnorer] *)
| E_continue (i : nat) (u : Uuid)     (** the transaction of a [continue_swap] *)
| E_response (u : Uuid)
| E_restart.

(** The initialisation of the table is the first transaction of the module, since those
    that wait for the database are served in order. *)
Definition step (s : State) (e : Event) : result :=
  match e with
  | E_db =>
      Some ({| db := true; blockheight := blockheight s; env := env s; row := Some (dbinit (row s));
               blocks := blocks s; asked := asked s; going := going s |}, [])
  | E_block h =>
      Some ({| db := db s; blockheight := Some h; env := env s; row := row s;
               blocks := if db s then S (blocks s) else blocks s; asked := asked s; going := going s |}, [])
  | E_forget => on_block (with_threads s (pred (blocks s)) (asked s) (going s))
  | E_msg m =>
      let (e, o) := receive (env s) m in
      match o with
      | inl (Some a) => Some (trigger_swap (with_env s e) a, [])
      | inr Undefined => None
      | _ => Some (with_env s e, [])
      end
  | E_flag i ignore =>
      match asked s !! i with
      | Some a =>
          Some (with_threads s (blocks s) (delete i (asked s))
                  (if (ignore : bool) then going s else going s ++ [a]), [])
      | None => Some (s, [])
      end
  | E_continue i u =>
      match going s !! i with
      | Some a => continue_swap (with_threads s (blocks s) (asked s) (delete i (going s))) a u
      | None => Some (s, [])
      end
  | E_response u => on_swap_response s u
  | E_restart =>
      Some ({| db := false; blockheight := None; env := new_env; row := row s; blocks := 0; asked := []; going := [] |}, [])
  end.

(** A thread is there to proceed; block heights are far from [2^32]. *)
Definition allowed (s : State) (e : Event) : bool :=
  match e with
  | E_block h => (0 <=? h) && (h <? 2 ^ 32 - 1000)
  | E_forget => (0 <? blocks s)%nat
  | _ => true
  end.

Fixpoint run (s : State) (es : list Event) : result :=
  match es with
  | [] => Some (s, [])
  | e :: es =>
      '(s', l) ← step s e;
      '(s'', l') ← run s' es;
      Some (s'', l ++ l')
  end.

(** The module gets messages that satisfy [F]. *)
Definition fit (F : Msg -> Prop) (e : Event) : Prop := match e with E_msg m => F m | _ => True end.

Inductive reach (F : Msg -> Prop) : list Label -> State -> Prop :=
| reach_start : reach F [] start
| reach_step tr s e s' l :
    reach F tr s -> allowed s e = true -> fit F e -> step s e = Some (s', l) -> reach F (tr ++ l) s'.

(** The events of a run are allowed, each where it happens. *)
Fixpoint run_allowed (s : State) (es : list Event) : bool :=
  match es with
  | [] => true
  | e :: es => allowed s e && match step s e with Some (s', _) => run_allowed s' es | None => false end
  end.

Lemma reach_run F es tr s s' l :
  reach F tr s -> Forall (fit F) es -> run_allowed s es = true -> run s es = Some (s', l) -> reach F (tr ++ l) s'.
Proof.
  revert tr s s' l. induction es as [|e es IH]; intros tr s s' l Hr Hf Ha; cbn [run].
  - intros [= <- <-]. by rewrite app_nil_r.
  - inversion_clear Hf as [|? ? Hf1 Hf2]. cbn [run_allowed] in Ha. apply andb_prop in Ha as [Ha1 Ha2].
    destruct (step s e) as [[s1 l1]|] eqn:E; [|done]. cbn [mbind option_bind].
    destruct (run s1 es) as [[s2 l2]|] eqn:E2; [|done]. cbn [mbind option_bind]. intros [= <- <-].
    rewrite app_assoc. eapply IH; [..|exact E2]; [by eapply reach_step|done|done].
Qed.

(** ** The specification: swaps in flight *)

(** A swap is in flight from its request to its response, or to the first block more than
    432 blocks after the request. *)
Definition fly (fl : list (Uuid * Z)) (l : Label) : list (Uuid * Z) :=
  match l with
  | SwapRequest u _ _ h => fl ++ [(u, h)]
  | Responded u _ => filter (fun p => p.1 <> u) fl
  | Forgot h => filter (fun p => h <= p.2 + swap_timeout) fl
  | Declined _ => fl
  end.

Definition in_flight (tr : list Label) : list (Uuid * Z) := foldl fly [] tr.

(** A property of every entry of a trace and of what precedes it. *)
Definition each {A} (Q : list A -> A -> Prop) (tr : list A) : Prop :=
  forall pre l post, tr = pre ++ l :: post -> Q pre l.

(** The requests, the refusals of the policy and the responses to swaps in flight were all
    more than 6 blocks before [h]; if a response came while the block height was not known,
    right after a start, the request of its swap was more than 12 blocks before. *)
Definition rested (h : Z) (tr : list Label) : Prop :=
  each (fun pre l =>
    match l with
    | SwapRequest _ _ _ h' | Declined h' => h' + ignored_blocks < h
    | Responded u (Some h') => u ∈ (in_flight pre).*1 -> h' + ignored_blocks < h
    | Responded u None => forall h', (u, h') ∈ in_flight pre -> h' + 2 * ignored_blocks < h
    | Forgot _ => True
    end) tr.

(** ** The invariant *)

Definition swap_of (r : option Row) : list (Uuid * Z) :=
  match r with
  | Some r => match swapUuid r with Some u => [(u, forget_after r - swap_timeout)] | None => [] end
  | None => []
  end.

Definition height_ok (h : Z) : Prop := 0 <= h < 2 ^ 32 - 1000.

(** A request finds nothing in flight, and rest. *)
Definition request_ok (pre : list Label) (l : Label) : Prop :=
  match l with
  | SwapRequest _ mn mx h => in_flight pre = [] /\ rested h pre /\ mn = min_amount /\ mn <= mx /\ height_ok h
  | _ => True
  end.

Definition blocked (r : option Row) : Z := match r with Some r => blocked_until r | None => 0 end.

Record swapper_ok (tr : list Label) (s : State) : Prop := {
  so_flight : in_flight tr = swap_of (row s);
  so_rested : rested (blocked (row s) + 1) tr;
  so_requests : each request_ok tr;
  so_blocked : 0 <= blocked (row s) <= 2 ^ 32 - 995 + (if decide (swap_of (row s) = []) then 6 else 0);
  so_forget : forall p, p ∈ swap_of (row s) -> height_ok p.2 /\ p.2 + ignored_blocks <= blocked (row s);
  so_height : forall h, blockheight s = Some h -> height_ok h;
  so_threads : (0 < blocks s)%nat \/ asked s <> [] \/ going s <> [] -> db s = true /\ is_Some (blockheight s);
  so_db : db s = true -> is_Some (row s)
}.

Lemma each_nil {A} (Q : list A -> A -> Prop) : each Q [].
Proof. intros [] ? ? E; discriminate. Qed.

Lemma each_snoc {A} (Q : list A -> A -> Prop) tr l : each Q (tr ++ [l]) <-> each Q tr /\ Q tr l.
Proof.
  split.
  - intros H. split; [|by eapply H]. intros pre x post ->. apply (H pre x (post ++ [l])). by rewrite <- app_assoc.
  - intros [H Hl] pre x post E. destruct post as [|y post _] using rev_ind.
    + by apply app_inj_tail in E as [-> ->].
    + rewrite app_comm_cons, app_assoc in E. apply app_inj_tail in E as [-> ->]. by eapply H.
Qed.

Lemma each_impl {A} (Q R : list A -> A -> Prop) tr : (forall pre l, Q pre l -> R pre l) -> each Q tr -> each R tr.
Proof. intros H HQ pre l post E. eapply H, HQ, E. Qed.

Lemma rested_le h h' tr : h <= h' -> rested h tr -> rested h' tr.
Proof. intros Hh. apply each_impl. intros pre [| | |? [|]] H; try done; try lia; [intros Hin; specialize (H Hin); lia|]. intros h0 Hin. specialize (H h0 Hin). lia. Qed.

Lemma in_flight_snoc tr l : in_flight (tr ++ [l]) = fly (in_flight tr) l.
Proof. apply foldl_snoc. Qed.

(** A step that leaves the table alone, and says nothing. *)
Lemma keep_ok tr s s' :
  swapper_ok tr s -> row s' = row s -> (forall h, blockheight s' = Some h -> height_ok h) ->
  ((0 < blocks s')%nat \/ asked s' <> [] \/ going s' <> [] -> db s' = true /\ is_Some (blockheight s')) ->
  (db s' = true -> is_Some (row s)) -> swapper_ok (tr ++ []) s'.
Proof. rewrite app_nil_r. intros [] Er Hh Ht Hd. split; try rewrite Er; done. Qed.

(** A step that changes the row, and adds an entry. *)
Lemma change_ok tr s l r s' :
  swapper_ok tr s -> s' = with_row s r ->
  fly (in_flight tr) l = swap_of (Some r) -> rested (blocked_until r + 1) (tr ++ [l]) -> request_ok tr l ->
  0 <= blocked_until r <= 2 ^ 32 - 995 + (if decide (swap_of (Some r) = []) then 6 else 0) ->
  (forall p, p ∈ swap_of (Some r) -> height_ok p.2 /\ p.2 + ignored_blocks <= blocked_until r) -> swapper_ok (tr ++ [l]) s'.
Proof.
  intros [] -> H1 H2 H3 H4 H5. split; simpl; try done.
  - by rewrite in_flight_snoc.
  - by apply each_snoc.
Qed.

Lemma dbinit_ok tr s : swapper_ok tr s -> swapper_ok tr (with_row s (dbinit (row s))).
Proof.
  intros H. destruct (row s) as [r|] eqn:E.
  - simpl. destruct H. split; rewrite ?E in *; simpl; done.
  - destruct H. rewrite E in *. split; simpl; try done.
Qed.

Lemma flight_nil r : swapUuid r = None -> swap_of (Some r) = [].
Proof. simpl. by intros ->. Qed.

Lemma response_ok tr s u s' l : swapper_ok tr s -> on_swap_response s u = Some (s', l) -> swapper_ok (tr ++ l) s'.
Proof.
  intros Hs. set (s1 := if db s then s else with_row s (dbinit (row s))).
  assert (swapper_ok tr s1) as H1 by (unfold s1; destruct (db s); [done|by apply dbinit_ok]).
  assert (exists r, row s1 = Some r) as [r Er].
  { unfold s1. destruct (db s) eqn:E; [by apply (so_db _ _ Hs)|by eexists]. }
  assert (on_swap_response s u = on_swap_response s1 u) as ->.
  { unfold s1. destruct (db s) eqn:E; [done|]. unfold on_swap_response. simpl. rewrite E. by destruct (row s). }
  assert (with_row s1 r = s1) as Es by (destruct s1; simpl in *; by subst).
  clearbody s1. clear Hs. unfold on_swap_response. rewrite Er.
  assert ((if db s1 then Some r else Some (dbinit (Some r))) = Some r) as -> by (by destruct (db s1)).
  rewrite Es. pose proof H1 as [Hf Hr Hq Hb Hfo Hh _ _]. rewrite Er in Hf, Hr, Hb, Hfo. cbn [blocked] in Hr, Hb.
  destruct (decide (swapUuid r = Some u)) as [Hu|Hu]; intros [= <- <-].
  - set (until := match blockheight s1 with Some _ => _ | None => _ end).
    assert (swap_of (Some r) = [(u, forget_after r - swap_timeout)]) as Esw by (simpl; by rewrite Hu).
    rewrite Esw in Hf, Hb. rewrite decide_False in Hb by done.
    assert (blocked_until r <= until <= 2 ^ 32 - 995 + 6
            /\ (forall h, blockheight s1 = Some h -> h + ignored_blocks <= until)
            /\ (blockheight s1 = None -> until = blocked_until r + ignored_blocks)) as (Hun & Huh & Hnone).
    { unfold until, ignored_blocks. destruct (blockheight s1) as [h|] eqn:Eh.
      - specialize (Hh h eq_refl). unfold height_ok in Hh. rewrite u32_id by ulia. split_and!; [split_ifs; lia..| |done].
        intros ? [= <-]. split_ifs; lia.
      - rewrite u32_id by ulia. split_and!; [lia..|done|done]. }
    eapply change_ok; [done|done|..]; simpl.
    + rewrite Hf. rewrite filter_cons_False by (simpl; tauto). done.
    + apply each_snoc. split; [eapply rested_le, Hr; lia|]. rewrite Hf. destruct (blockheight s1) as [h|].
      * intros _. specialize (Huh h eq_refl). lia.
      * intros h0 Hin. rewrite (Hnone eq_refl). apply list_elem_of_singleton in Hin.
        destruct (Hfo (u, h0)) as [_ H0]; [rewrite Esw, Hin; apply list_elem_of_singleton; reflexivity|]. cbn [snd blocked] in H0. lia.
    + done.
    + lia.
    + by intros p ?%elem_of_nil.
  - rewrite <- Es. eapply change_ok; [done|done|..]; try done.
    + rewrite Hf. simpl. destruct (swapUuid r) as [v|]; [|done]. rewrite filter_cons_True by (simpl; congruence). done.
    + apply each_snoc. split; [done|]. cbn [with_row blockheight]. rewrite Hf. simpl. destruct (blockheight s1) as [h|].
      * destruct (swapUuid r) as [v|]; simpl; [|by intros ?%elem_of_nil]. intros ->%list_elem_of_singleton. done.
      * intros h0. destruct (swapUuid r) as [v|]; simpl; [|by intros ?%elem_of_nil]. intros [= -> _]%list_elem_of_singleton. done.
Qed.

Lemma swap_forget_ok tr s s' l : swapper_ok tr s -> on_block s = Some (s', l) -> swapper_ok (tr ++ l) s'.
Proof.
  intros Hs. unfold on_block. destruct (blockheight s) as [h|] eqn:Eh; [|done]. cbn [mbind option_bind].
  intros [= <- <-]. pose proof Hs as [Hf Hr Hq Hb Hfo Hh Ht Hd]. destruct (row s) as [r|] eqn:Er; cbn [blocked] in Hr, Hb.
  - destruct (forget_after r <? h) eqn:E; to_prop.
    + eapply change_ok; [done|done|..]; simpl.
      * rewrite Hf. simpl. destruct (swapUuid r) as [v|]; [|done]. rewrite filter_cons_False by (simpl; unfold swap_timeout; lia). done.
      * by apply each_snoc.
      * done.
      * split; [lia|]. case_decide; lia.
      * by intros p ?%elem_of_nil.
    + assert (s = with_row s r) as Es by (destruct s; simpl in *; by subst). rewrite Es. apply (change_ok _ s _ r); [done|done|..]; try done.
      * rewrite Hf. simpl. destruct (swapUuid r) as [v|]; [|done]. rewrite filter_cons_True by (simpl; unfold swap_timeout; lia). done.
      * by apply each_snoc.
  - split; rewrite ?Er; try done.
    + rewrite in_flight_snoc, Hf. done.
    + by apply each_snoc.
    + by apply each_snoc.
Qed.

Lemma min_amount_pos : 0 < min_amount.
Proof. unfold min_amount. by rewrite min_amount_value. Qed.

Lemma continue_ok tr s a u s' l : swapper_ok tr s -> continue_swap s a u = Some (s', l) -> swapper_ok (tr ++ l) s'.
Proof.
  intros Hs. unfold continue_swap. destruct (blockheight s) as [h|] eqn:Eh; [|done]. cbn [mbind option_bind].
  pose proof Hs as [Hf Hr Hq Hb Hfo Hh Ht Hd]. specialize (Hh h Eh). destruct (row s) as [r|] eqn:Er.
  2: { intros [= <- <-]. by rewrite app_nil_r. }
  destruct (bool_decide (swapUuid r = None) && _) eqn:E; simpl negb; cbv iota.
  2: { intros [= <- <-]. by rewrite app_nil_r. }
  apply andb_prop in E as [En%bool_decide_eq_true Eb]. to_prop. rewrite (flight_nil _ En) in Hf. cbn [blocked] in Hr, Hb.
  destruct (ok (env s) a) as [[yes amt]|]; [|done]. cbn [mbind option_bind].
  assert (u32 (h + ignored_blocks) = h + 6) as Hu by (apply u32_id; unfold height_ok, ignored_blocks in *; ulia).
  assert (u32 (h + swap_timeout) = h + 432) as Hw by (apply u32_id; unfold height_ok, swap_timeout in *; ulia).
  assert (rested (h + 6 + 1) tr) as Hr' by (eapply rested_le, Hr; lia).
  unfold height_ok in Hh. rewrite Hu, Hw.
  destruct (negb yes || Amount.eq amt 0); intros [= <- <-].
  - eapply change_ok; [exact Hs|reflexivity|..].
    + rewrite flight_nil by done. exact Hf.
    + apply each_snoc. split; [exact Hr'|]. simpl. unfold ignored_blocks. lia.
    + exact I.
    + cbn [blocked_until]. rewrite flight_nil by done. simpl. lia.
    + rewrite flight_nil by done. by intros p ?%elem_of_nil.
  - set (m := if Amount.lt amt min_amount then min_amount else amt).
    assert (min_amount <= m) as Hm by (unfold m, Amount.lt; split_ifs; lia).
    eapply change_ok; [exact Hs|reflexivity|..].
    + rewrite Hf. simpl. unfold swap_timeout. do 2 f_equal. lia.
    + apply each_snoc. split; [exact Hr'|]. cbn [blocked_until]. unfold ignored_blocks. lia.
    + cbn [request_ok]. split_and!; [exact Hf| |reflexivity|exact Hm|unfold height_ok; lia..].
      eapply rested_le, Hr. lia.
    + simpl. lia.
    + simpl. intros p ->%list_elem_of_singleton. simpl. unfold height_ok, swap_timeout, ignored_blocks. lia.
Qed.

Lemma swapper_threads_ok tr s n a g :
  swapper_ok tr s -> (n <= blocks s)%nat -> (a <> [] -> asked s <> []) -> (g <> [] -> asked s <> [] \/ going s <> []) ->
  swapper_ok tr (with_threads s n a g).
Proof.
  intros Hs Hn Ha Hg. rewrite <- (app_nil_r tr). apply (keep_ok _ s); [done|done|apply Hs|simpl|apply Hs].
  intros H. apply (so_threads _ _ Hs). destruct H as [|[|]]; [left; lia|tauto..].
Qed.

Lemma swapper_step_ok tr s e s' l : swapper_ok tr s -> allowed s e = true -> step s e = Some (s', l) -> swapper_ok (tr ++ l) s'.
Proof.
  intros Hs Ha. destruct e as [|h| |m|i ig|i u|u|]; cbn [step].
  - intros [= <- <-]. apply dbinit_ok in Hs. apply (keep_ok _ _ _ Hs); simpl; [done|apply Hs| |by eexists].
    intros H. split; [done|]. by apply (so_threads _ _ Hs).
  - intros [= <- <-]. simpl in Ha. to_prop. apply (keep_ok _ _ _ Hs); simpl; [done| | |apply Hs].
    + intros ? [= <-]. unfold height_ok. lia.
    + intros Ht. split; [|by eexists]. destruct (db s) eqn:E; [done|]. destruct (so_threads _ _ Hs Ht). congruence.
  - apply swap_forget_ok, swapper_threads_ok; [done|lia|tauto..].
  - destruct (receive (env s) m) as [e o]. assert (swapper_ok (tr ++ []) (with_env s e)) as Hk.
    { apply (keep_ok _ _ _ Hs); simpl; [done|apply Hs..]. }
    destruct o as [[a|]|[]]; intros [= <- <-]; try done. unfold trigger_swap.
    destruct (negb (db (with_env s e)) || _) eqn:E; [done|]. apply orb_false_elim in E as [Ed Eh%bool_decide_eq_false]. simpl in Ed, Eh. to_prop.
    apply (keep_ok _ _ _ Hs); simpl; [done|apply Hs| |apply Hs]. intros _. split; [done|].
    destruct (blockheight s); [by eexists|done].
  - destruct (asked s !! i) as [a|] eqn:E; intros [= <- <-]; [|by rewrite app_nil_r]. rewrite app_nil_r.
    apply swapper_threads_ok; [done|lia|apply delete_ne|]. intros _. left. intros E'. by rewrite E' in E.
  - destruct (going s !! i) as [a|] eqn:E; [|intros [= <- <-]; by rewrite app_nil_r].
    apply continue_ok, swapper_threads_ok; [done|lia|tauto|]. intros ?%delete_ne. by right.
  - by apply response_ok.
  - intros [= <- <-]. apply (keep_ok _ _ _ Hs); simpl; try done. intros [|[|]]; [lia|done..].
Qed.

Lemma reach_ok F tr s : reach F tr s -> swapper_ok tr s.
Proof.
  induction 1; [|by eapply swapper_step_ok]. split; simpl; try done; [apply each_nil|apply each_nil|by intros p ?%elem_of_nil|].
  intros [|[|]]; [lia|done..].
Qed.

(** *** Definedness *)

Section Laws.
Context `{L : !PolicyLaws P}.

Record asks_ok (s : State) : Prop := {
  ao_ready : asked s <> [] \/ going s <> [] -> env_ready (env s);
  ao_asked : Forall ask_ok (asked s);
  ao_going : Forall ask_ok (going s)
}.

(** The row is all that [asks_ok] does not look at. *)
Lemma asks_row s s' : asks_ok s -> env s' = env s -> asked s' = asked s -> going s' = going s -> asks_ok s'.
Proof. intros [] E1 E2 E3. split; by rewrite ?E1, ?E2, ?E3. Qed.

Definition bounded (l : Label) : Prop := match l with SwapRequest _ _ mx _ => mx < 2 ^ 62 | _ => True end.

Lemma response_quiet s u : exists s' l, on_swap_response s u = Some (s', l) /\ Forall bounded l /\ (asks_ok s -> asks_ok s').
Proof.
  unfold on_swap_response.
  destruct (if db s then _ else _) as [r|]; [destruct (decide _)|]; do 2 eexists;
    (split; [reflexivity|]); (split; [by repeat constructor|]); intros Ha; by eapply asks_row.
Qed.

Lemma forget_quiet s : is_Some (blockheight s) ->
  exists s' l, on_block s = Some (s', l) /\ Forall bounded l /\ (asks_ok s -> asks_ok s').
Proof.
  intros [h E]. unfold on_block. rewrite E. cbn [mbind option_bind]. do 2 eexists.
  split; [reflexivity|]. split; [by repeat constructor|].
  intros Ha. destruct (row s); [destruct (_ <? _)|]; by eapply asks_row.
Qed.

Lemma continue_quiet s a u :
  asks_ok s -> env_ready (env s) -> ask_ok a -> is_Some (blockheight s) ->
  exists s' l, continue_swap s a u = Some (s', l) /\ Forall bounded l /\ asks_ok s'.
Proof.
  intros Ha Hr Hk [h E]. unfold continue_swap. rewrite E. cbn [mbind option_bind].
  destruct (row s) as [r|]; [|by do 2 eexists]. destruct (negb _); [by do 2 eexists|].
  destruct (ok_defined (env s) a Hr Hk) as (b & amt & -> & Hb). cbn [mbind option_bind].
  destruct (negb b || _) eqn:Ey; do 2 eexists; (split; [reflexivity|]); (split; [|by eapply asks_row]).
  - by repeat constructor.
  - apply orb_false_elim in Ey as [Ey%negb_false_iff _]. specialize (Hb Ey). repeat constructor. simpl.
    destruct (Amount.lt amt min_amount); [|lia]. unfold min_amount. rewrite min_amount_value. by compute.
Qed.

Lemma step_defined tr s e :
  swapper_ok tr s -> asks_ok s -> allowed s e = true -> fit msg_ok e ->
  exists s' l, step s e = Some (s', l) /\ Forall bounded l /\ asks_ok s'.
Proof.
  intros Hs Ha Hal Hf. destruct e as [|h| |m|i ig|i u|u|]; cbn [step].
  - do 2 eexists. split; [reflexivity|]. split; [constructor|]. by eapply asks_row.
  - do 2 eexists. split; [reflexivity|]. split; [constructor|]. by eapply asks_row.
  - simpl in Hal. apply Nat.ltb_lt in Hal. destruct (forget_quiet (with_threads s (pred (blocks s)) (asked s) (going s)))
      as (s' & l & E & Hl & H). { simpl. apply (so_threads _ _ Hs). by left. }
    exists s', l. split; [done|]. split; [done|]. apply H. by eapply asks_row.
  - simpl in Hf. pose proof (receive_asks (env s) m) as H1. pose proof (receive_defined (env s) m Hf) as H2.
    pose proof (receive_ready (env s) m) as H3. destruct (receive (env s) m) as [e o]. simpl in H1, H2, H3.
    assert (asks_ok (with_env s e)) as Hk by (destruct Ha; split; simpl; auto).
    destruct o as [[a|]|[]]; [|by do 2 eexists..|done]. destruct (H1 a Hf eq_refl) as [Hr Hk'].
    do 2 eexists. split; [reflexivity|]. split; [constructor|]. unfold trigger_swap.
    destruct (negb _ || _); [done|]. destruct Hk. split; simpl; [done| |done]. apply Forall_app. by repeat constructor.
  - destruct (asked s !! i) as [a|] eqn:E; [|by do 2 eexists]. do 2 eexists. split; [reflexivity|]. split; [constructor|].
    destruct Ha as [H1 H2 H3]. assert (ask_ok a) by (by eapply Forall_lookup_1 in E). split; simpl.
    + intros _. apply H1. left. intros E'. by rewrite E' in E.
    + by apply Forall_delete.
    + destruct ig; [done|]. apply Forall_app. by repeat constructor.
  - destruct (going s !! i) as [a|] eqn:E; [|by do 2 eexists]. assert (going s <> []) by (intros E'; by rewrite E' in E).
    destruct Ha as [H1 H2 H3]. apply continue_quiet; simpl; [split; simpl|..].
    + intros _. apply H1. by right.
    + done.
    + by apply Forall_delete.
    + apply H1. by right.
    + by eapply Forall_lookup_1 in E.
    + apply (so_threads _ _ Hs). tauto.
  - destruct (response_quiet s u) as (s' & l & E & Hl & H). exists s', l. auto.
  - do 2 eexists. split; [reflexivity|]. split; [constructor|]. split; simpl; [tauto|constructor..].
Qed.

Lemma reach_asks tr s : reach msg_ok tr s -> asks_ok s /\ Forall bounded tr.
Proof.
  induction 1 as [|tr s e s' l Hr [IH1 IH2] Ha Hf E].
  - split; [split; simpl; [tauto|constructor..]|constructor].
  - destruct (step_defined tr s e) as (? & ? & E' & Hl & Hk); [by eapply reach_ok|done..|].
    rewrite E in E'. injection E' as <- <-. split; [done|]. by apply Forall_app.
Qed.

End Laws.

(** *** Progress *)

(** The heights that the entries of a trace found are at most [M]. *)
Definition below (M : Z) (l : Label) : Prop :=
  match l with
  | SwapRequest _ _ _ h | Declined h => h <= M
  | Responded _ h => from_option (fun h => h <= M) True h
  | Forgot _ => True
  end.

(** What the row is blocked for is then at most 12 blocks from [M], or 6 with a swap. *)
Definition unblocked_by (M : Z) (r : option Row) : Prop :=
  blocked r <= M + 6 + (if decide (swap_of r = []) then 6 else 0) /\ forall p, p ∈ swap_of r -> p.2 <= M.

Lemma unblocked_init M r : 0 <= M -> unblocked_by M r -> unblocked_by M (Some (dbinit r)).
Proof. intros HM. destruct r; [done|]. intros _. split; [simpl; lia|by intros p ?%elem_of_nil]. Qed.

(** A row without a swap. *)
Lemma unblocked_free M r : swapUuid r = None -> blocked_until r <= M + 12 -> unblocked_by M (Some r).
Proof. intros E Hb. split; rewrite (flight_nil _ E); [simpl; lia|by intros p ?%elem_of_nil]. Qed.

Lemma unblocked_max M r : unblocked_by M (Some r) -> blocked_until r <= M + 12.
Proof. intros [H _]. cbn [blocked] in H. revert H. case_decide; lia. Qed.

Lemma unblocked_forget M s s' l : unblocked_by M (row s) -> on_block s = Some (s', l) -> unblocked_by M (row s').
Proof.
  intros Hb. unfold on_block. destruct (blockheight s) as [h|]; [|done]. cbn [mbind option_bind]. intros [= <- _].
  destruct (row s) as [r|] eqn:Er; [|by rewrite Er]. destruct (forget_after r <? h); [|by rewrite Er].
  apply unblocked_free; [done|]. exact (unblocked_max _ _ Hb).
Qed.

Lemma unblocked_continue M tr s a u s' l :
  swapper_ok tr s -> unblocked_by M (row s) -> continue_swap s a u = Some (s', l) -> Forall (below M) l ->
  unblocked_by M (row s').
Proof.
  intros Hs Hb. unfold continue_swap. destruct (blockheight s) as [h|] eqn:Eh; [|done]. cbn [mbind option_bind].
  pose proof (so_height _ _ Hs h Eh) as Hh. unfold height_ok in Hh.
  destruct (row s) as [r|] eqn:Er; [|intros [= <- _] _; by rewrite Er].
  destruct (bool_decide _ && _) eqn:En; simpl negb; cbv iota; [|intros [= <- _] _; by rewrite Er].
  apply andb_prop in En as [En%bool_decide_eq_true _].
  destruct (ok (env s) a) as [[yes amt]|]; [|done]. cbn [mbind option_bind].
  destruct (negb yes || _); intros [= <- <-] Hl; apply Forall_inv in Hl; cbn [below] in Hl; cbn [row with_row].
  - apply unblocked_free; [done|]. cbn [blocked_until]. rewrite u32_id by (unfold ignored_blocks; ulia).
    unfold ignored_blocks. lia.
  - unfold unblocked_by. cbn [blocked blocked_until swap_of swapUuid forget_after].
    rewrite !u32_id by (unfold ignored_blocks, swap_timeout; ulia). unfold ignored_blocks.
    rewrite decide_False by done. split; [lia|]. intros p ->%list_elem_of_singleton. simpl. lia.
Qed.

Lemma unblocked_response M tr s u s' l :
  0 <= M -> swapper_ok tr s -> unblocked_by M (row s) -> on_swap_response s u = Some (s', l) -> Forall (below M) l ->
  unblocked_by M (row s').
Proof.
  intros HM Hs Hb. unfold on_swap_response.
  assert (exists r, (if db s then row s else Some (dbinit (row s))) = Some r /\ unblocked_by M (Some r)
          /\ (swapUuid r <> None -> row s = Some r)) as (r & -> & Hr & Hw).
  { destruct (db s) eqn:Ed.
    - destruct (so_db _ _ Hs Ed) as [r Er]. rewrite Er in *. by exists r.
    - exists (dbinit (row s)). split; [done|]. split; [by apply unblocked_init|]. by destruct (row s). }
  destruct (decide (swapUuid r = Some u)) as [Hu|Hu]; intros [= <- <-] Hl; [|done].
  rewrite Hw in Hb by congruence. apply unblocked_free; [done|]. destruct Hb as [Hb _].
  pose proof (so_blocked _ _ Hs) as Hbb. rewrite Hw in Hbb by congruence. cbn [blocked swap_of] in Hb, Hbb.
  rewrite Hu in Hb, Hbb. rewrite decide_False in Hb, Hbb by done. apply Forall_inv in Hl. simpl in Hl.
  cbn [blocked_until blockheight with_row]. pose proof (so_height _ _ Hs) as Hh. unfold ignored_blocks.
  destruct (blockheight s) as [h|]; [specialize (Hh h eq_refl); unfold height_ok in Hh; simpl in Hl|];
    rewrite u32_id by ulia; split_ifs; lia.
Qed.

Lemma step_below M tr s e s' l :
  0 <= M -> swapper_ok tr s -> unblocked_by M (row s) -> allowed s e = true -> step s e = Some (s', l) ->
  Forall (below M) l -> unblocked_by M (row s').
Proof.
  intros HM Hs Hb Hal E Hl. destruct e as [|h| |m|i ig|i u|u|]; cbn [step] in E.
  - injection E as <- _. by apply unblocked_init.
  - by injection E as <- _.
  - eapply unblocked_forget, E. done.
  - destruct (receive (env s) m) as [e [[a|]|[]]]; try done; injection E as <- _; try done. unfold trigger_swap.
    by destruct (negb _ || _).
  - destruct (asked s !! i); by injection E as <- _.
  - destruct (going s !! i) as [a|]; [|by injection E as <- _]. eapply unblocked_continue, Hl; [..|exact E]; [|done].
    apply (swapper_threads_ok _ _ _ _ _ Hs); [lia|tauto|]. intros ?%delete_ne. by right.
  - by eapply unblocked_response.
  - by injection E as <- _.
Qed.

Lemma reach_below F M tr s : 0 <= M -> reach F tr s -> Forall (below M) tr -> unblocked_by M (row s).
Proof.
  intros HM. induction 1 as [|tr s e s' l Hr IH Ha Hf E].
  - intros _. split; [simpl; lia|by intros p ?%elem_of_nil].
  - intros [H1 H2]%Forall_app. eapply step_below; [done|by eapply reach_ok|by apply IH|done..].
Qed.

Lemma forget_frees s r h :
  row s = Some r -> blockheight s = Some h -> (forall p, p ∈ swap_of (Some r) -> p.2 + swap_timeout < h) ->
  exists r', swapUuid r' = None /\ blocked_until r' = blocked_until r /\ on_block s = Some (with_row s r', [Forgot h]).
Proof.
  intros Er Eh Hp. unfold on_block. rewrite Eh, Er. cbn [mbind option_bind].
  destruct (forget_after r <? h) eqn:E; to_prop.
  - by exists {| swapUuid := None; blocked_until := blocked_until r; forget_after := never |}.
  - exists r. split; [|split; [done|]; destruct s; simpl in *; by subst]. simpl in Hp.
    destruct (swapUuid r) as [v|]; [|done]. specialize (Hp (v, forget_after r - swap_timeout) (list_elem_of_here _ _)).
    simpl in Hp. lia.
Qed.

(** ** Properties *)


(** A swapper whose policy keeps its promise never meets undefined behaviour, and its
    requests are fit for the swap manager, when the uuid is new to it. *)
Theorem requests_fit_manager `{L : !PolicyLaws P} tr s :
  reach msg_ok tr s ->
  (forall e, allowed s e = true -> fit msg_ok e -> is_Some (step s e))
  /\ forall u mn mx h, SwapRequest u mn mx h ∈ tr ->
     forall hist m, Swap.requested u hist = false -> Swap.event_ok hist m (Swap.E_request u mn mx) = true.
Proof.
  intros Hr. destruct (reach_asks _ _ Hr) as [Ha Hb]. pose proof (reach_ok _ _ _ Hr) as Hs. split.
  - intros e He Hf. destruct (step_defined tr s e) as (s' & l & E & _); [done..|]. by exists (s', l).
  - intros u mn mx h Hin hist m Hn. rewrite Forall_forall in Hb. specialize (Hb _ Hin). simpl in Hb.
    apply list_elem_of_split in Hin as (pre & post & E). destruct (so_requests _ _ Hs _ _ _ E) as (_ & _ & -> & Hle & _).
    unfold Swap.event_ok. rewrite Hn. cbn [negb andb]. pose proof min_amount_pos as Hp.
    rewrite !andb_true_iff, !Z.leb_le, Z.ltb_lt. lia.
Qed.

(** A swapper is never stuck, whatever happened to its swaps and to the process: a block
    more than 432 blocks above all that it has seen ends a swap in flight, and then a call
    that the policy approves leads to a request, if onchain funds are not ignored. *)
Theorem swapper_never_stuck F tr s M h m e a amt u :
  reach F tr s -> 0 <= M -> Forall (below M) tr -> M + swap_timeout < h -> db s = true ->
  receive (env s) m = (e, inl (Some a)) -> ok e a = Some (true, amt) -> amt <> 0 ->
  exists s', run s [E_block h; E_forget; E_msg m; E_flag (length (asked s)) false; E_continue (length (going s)) u]
             = Some (s', [Forgot h; SwapRequest u min_amount (Z.max min_amount amt) h]).
Proof.
  intros Hr HM Hb Hh Hdb Em Eo Ha. pose proof (reach_below _ _ _ _ HM Hr Hb) as Hun. pose proof (reach_ok _ _ _ Hr) as Hs.
  destruct (so_db _ _ Hs Hdb) as [r Er]. rewrite Er in Hun. apply unblocked_max in Hun as Hmax. destruct Hun as [_ Hfo].
  cbn [run step]. rewrite Hdb, Er. cbn [mbind option_bind with_threads db blockheight env row blocks asked going pred].
  set (s1 := with_threads _ (blocks s) (asked s) (going s)).
  destruct (forget_frees s1 r h) as (r' & En & Eb & ->); [done|done| |].
  { intros p Hp. specialize (Hfo p Hp). lia. }
  subst s1. unfold with_threads, with_row, with_env. cbn [mbind option_bind env]. rewrite Em. unfold trigger_swap, with_threads.
  cbn [db blockheight negb orb]. rewrite bool_decide_false by done.
  cbn [mbind option_bind asked going blocks env row db blockheight orb].
  rewrite list_lookup_middle by done. cbn [mbind option_bind asked going blocks env row db blockheight].
  rewrite list_lookup_middle by done. unfold continue_swap. cbn [mbind option_bind row env blockheight].
  rewrite En, Eb, bool_decide_true by done. unfold swap_timeout in Hh. assert ((blocked_until r <? h) = true) as -> by (apply Z.ltb_lt; lia).
  cbn [andb negb]. rewrite Eo. cbn [mbind option_bind negb orb]. unfold Amount.eq. assert ((amt =? 0) = false) as -> by (by apply Z.eqb_neq).
  assert ((if Amount.lt amt min_amount then min_amount else amt) = Z.max min_amount amt) as ->
    by (unfold Amount.lt; split_ifs; lia).
  eexists. cbn [mbind option_bind app]. reflexivity.
Qed.

End Swapper.

End Swapper.

(** ** Incoming capacity (src/Boss/Mod/NodeBalanceSwapper.cpp) *)

Module NodeBalance.

Definition min_receivable_percent : double := d_of_Z 35.
Definition min_receivable_percent_highfees : double := RN (25 # 10).

Definition deduct_htlc (their : Amount) (h : json) : outcome Amount :=
  let* j := get (Some h) "amount_msat" in
  let* a := amount_object j in
  inl (Amount.sub their a).

(** The spendable and the receivable amount. *)
Definition compute_sendable_receivable (c : json) : outcome (Amount * Amount) :=
  let* bal := channel_balance c in
  let* htlcs_j := get (Some c) "htlcs" in
  let* htlcs := lift (jelements htlcs_j) in
  let* their := foldM deduct_htlc htlcs (Amount.sub (total bal) (to_us bal)) in
  let* our_j := get (Some c) "our_reserve_msat" in
  let* our_reserve := amount_object our_j in
  let* their_j := get (Some c) "their_reserve_msat" in
  let* their_reserve := amount_object their_j in
  inl (Amount.sub (to_us bal) our_reserve, Amount.sub their their_reserve).

(** [total_recv] and [total_send] *)
Definition add_balance (acc : Amount * Amount) (chan : json) : outcome (Amount * Amount) :=
  let* state_j := get (Some chan) "state" in
  let* state := text state_j in
  if negb (bool_decide (state = lit "CHANNELD_NORMAL")) && negb (bool_decide (state = lit "CHANNELD_AWAITING_SPLICE"))
  then inl acc
  else
    let* (send, recv) := compute_sendable_receivable chan in
    inl (Amount.add acc.1 recv, Amount.add acc.2 send).

Definition totals (m : ConstructedListpeers) : outcome (Amount * Amount) :=
  foldM (fun acc p => foldM add_balance (channels p.2) acc) (map_to_list m) (0, 0).

Record Wish := { total_recv : Amount; total_send : Amount; recv_percent : double }.

Inductive Message := OnchainFee (low : bool) | ListpeersResult (m : ConstructedListpeers).

(** What the analysis of the channels leads to. *)
Definition judge (recv send : Amount) : option Wish :=
  if Amount.eq recv 0 && Amount.eq send 0 then None
  else
    let percent := dmul (Amount.ratio recv (Amount.add recv send)) (d_of_Z 100) in
    if dge percent min_receivable_percent then None
    else Some {| total_recv := recv; total_send := send; recv_percent := percent |}.

(** A failed read of a channel is logged; nothing else comes of it. *)
Definition on_message (fees_low : option bool) (m : Message) : option bool * outcome (option Wish) :=
  match m with
  | OnchainFee low => (Some low, inl None)
  | ListpeersResult m =>
      (Some (default false fees_low), let* (recv, send) := totals m in inl (judge recv send))
  end.

Definition wants (fees_low : option bool) (w : Wish) : option (bool * Amount) :=
  low ← fees_low;
  twice ← Amount.mul (Amount.sub (total_send w) (total_recv w)) (d_of_Z 2);
  amt ← Amount.div twice (d_of_Z 3);
  Some ((low : bool) || negb (dgt (recv_percent w) min_receivable_percent_highfees), amt).

#[export] Instance NodeBalanceSwapper : Swapper.SwapPolicy :=
  {| Swapper.Env := option bool; Swapper.Msg := Message; Swapper.Ask := Wish; Swapper.new_env := None;
     Swapper.receive := on_message; Swapper.ok := wants |}.

(** *** The promise *)

(** Channels of less than [2^52] msat in all, about 45000 BTC, with readable amounts. *)
Definition capacity_ok (m : Message) : Prop :=
  match m with
  | ListpeersResult m =>
      match totals m with inl (r, s) => 0 <= r /\ 0 <= s /\ r + s < 2 ^ 52 | inr e => e <> Undefined end
  | OnchainFee _ => True
  end.

Lemma two_thirds d :
  0 <= d < 2 ^ 52 ->
  exists n, (a ← Amount.mul d (d_of_Z 2); Amount.div a (d_of_Z 3)) = Some n /\ 0 <= n /\ 2 * d - 6 < 3 * n <= 2 * d + 3.
Proof.
  intros Hd. rewrite Amount.mul_2 by lia. cbn [mbind option_bind]. unfold Amount.div. rewrite d_of_Z_exact by lia.
  change (d_of_Z 3) with (Fin (inject_Z 3)). unfold ddiv. change (Qeq_bool (inject_Z 3) 0) with false. cbv iota.
  assert (0 <= inject_Z (d * 2) / inject_Z 3)%Q.
  { apply Qle_shift_div_l; [done|]. change (0 * inject_Z 3)%Q with (inject_Z 0). rewrite <- Zle_Qle. lia. }
  assert (inject_Z (d * 2) / inject_Z 3 <= pow2 52)%Q.
  { apply Qle_shift_div_r; [done|]. change (pow2 52 * inject_Z 3)%Q with (inject_Z (2 ^ 52 * 3)). rewrite <- Zle_Qle. lia. }
  destruct (Amount.clamp_near (inject_Z (d * 2) / inject_Z 3) 52) as (n & E & H1 & H2); [done|done|lia|].
  exists n. split; [exact E|]. split; [apply Amount.clamp_range in E; ulia|]. change (pow2 (52 - 52)) with 1%Q in *.
  assert (inject_Z (d * 2) / inject_Z 3 * inject_Z 3 == inject_Z (d * 2))%Q as Eq by (field; done).
  set (q := (inject_Z (d * 2) / inject_Z 3)%Q) in *. change (inject_Z 3) with 3%Q in Eq.
  rewrite (Z.mul_comm 2), Zlt_Qlt, Zle_Qle, <- Z.add_opp_r, !inject_Z_plus, (inject_Z_mult 3).
  change (inject_Z 3) with 3%Q. change (inject_Z (- (6))) with (-6)%Q. lra.
Qed.

#[export] Instance NodeBalanceLaws : Swapper.PolicyLaws NodeBalanceSwapper.
Proof.
  refine {| Swapper.msg_ok := capacity_ok : @Swapper.Msg NodeBalanceSwapper -> Prop;
            Swapper.env_ready := (fun e => is_Some e) : @Swapper.Env NodeBalanceSwapper -> Prop;
            Swapper.ask_ok := (fun w => 0 <= total_recv w /\ 0 <= total_send w < 2 ^ 52)
              : @Swapper.Ask NodeBalanceSwapper -> Prop |}; simpl.
  - intros e [b|m]; by eexists.
  - intros e [b|m] a; simpl; [done|]. destruct (totals m) as [[r s]|]; [|done]. intros Hm E. split; [by eexists|].
    cbn [obind] in E. injection E as E. unfold judge in E. destruct (_ && _); [done|]. destruct (dge _ _); [done|].
    injection E as <-. simpl. lia.
  - intros e [b|m] Hm; simpl in *; [done|]. destruct (totals m) as [[r s]|]; cbn [obind]; [done|]. congruence.
  - intros e w [b ->] [Hr Hs]. unfold wants. cbn [mbind option_bind].
    assert (0 <= Amount.sub (total_send w) (total_recv w) < 2 ^ 52) as Hd.
    { rewrite Amount.sub_spec, Z.gtb_ltb. split_ifs; lia. }
    destruct (two_thirds _ Hd) as (n & E & Hn).
    destruct (Amount.mul _ _) as [t|]; [|done]. cbn [mbind option_bind] in E |- *. rewrite E. cbn [mbind option_bind].
    do 2 eexists. split; [reflexivity|]. lia.
Defined.

(** The percentage of the receivable amount, with its rounding. *)
Definition percent_of (r s : Amount) : double := dmul (Amount.ratio r (Amount.add r s)) (d_of_Z 100).

(** Two roundings of a number that is not tiny. *)
Lemma hundredfold q :
  (pow2 (-52) <= q)%Q -> (q <= 1)%Q ->
  exists y, dmul (RN q) (d_of_Z 100) = Fin y /\ (100 * q * (1 - 2 * pow2 (-53)) <= y)%Q.
Proof.
  intros Q0 Q1. assert (pow2 (-52) == 2 * pow2 (-53))%Q as E2 by (vm_compute; reflexivity).
  assert (pow2 (-53) <= 1 # 100)%Q as U by (vm_compute; discriminate). pose proof (pow2_pos (-53)) as Up.
  pose proof (pow2_le (-1022) (-53) ltac:(lia)) as L1. pose proof (pow2_pos (-1022)) as L0.
  pose proof (pow2_le 8 1023 ltac:(lia)) as L3. assert (200 <= pow2 8)%Q as L4 by (vm_compute; discriminate).
  destruct (RN_finite q) as (x & Ex & Hx); [lra..|]. destruct (RN_Fin_error _ _ Ex) as [Lo Hi]; [lra|].
  rewrite Ex. change (d_of_Z 100) with (Fin (inject_Z 100)). unfold dmul. change (inject_Z 100) with 100%Q.
  assert (x <= 2)%Q as X2 by nra. assert (pow2 (-53) <= x)%Q as X0 by nra.
  destruct (RN_finite (x * 100)) as (y & Ey & Hy); [lra..|]. destruct (RN_Fin_error _ _ Ey) as [Lo2 _]; [lra|].
  exists y. split; [done|]. nra.
Qed.

Lemma percent_low r s :
  0 <= r -> 0 <= s -> 0 < r + s < 2 ^ 52 ->
  exists y, percent_of r s = Fin y
  /\ (dge (percent_of r s) min_receivable_percent = false -> 100 * r * (2 ^ 52 - 1) < 35 * (r + s) * 2 ^ 52).
Proof.
  intros Hr Hs HT. unfold percent_of, Amount.ratio.
  assert (Amount.add r s = r + s) as -> by (rewrite Amount.add_spec by ulia; ulia).
  rewrite !(d_of_Z_exact r), (d_of_Z_exact (r + s)) by lia. set (T := r + s) in *.
  destruct (Z.eq_dec r 0) as [->|Hn].
  { exists 0%Q. assert (ddiv (Fin (inject_Z 0)) (Fin (inject_Z T)) = Fin 0) as ->; [|split; [by vm_compute|lia]].
    unfold ddiv. destruct (Qeq_bool _ _) eqn:E; [|by rewrite (RN_Proper _ 0%Q) by (unfold Qdiv; ring)].
    apply Qeq_bool_eq in E. change 0%Q with (inject_Z 0) in E. rewrite inject_Z_injective in E. lia. }
  assert (0 < inject_Z T)%Q as PT by (change 0%Q with (inject_Z 0); rewrite <- Zlt_Qlt; lia).
  assert (1 <= inject_Z r)%Q as Pr by (change 1%Q with (inject_Z 1); rewrite <- Zle_Qle; lia).
  assert (inject_Z r <= inject_Z T)%Q as PrT by (rewrite <- Zle_Qle; lia).
  assert (inject_Z T <= pow2 52)%Q as PT' by (change (pow2 52) with (inject_Z (2 ^ 52)); rewrite <- Zle_Qle; lia).
  unfold ddiv. assert (Qeq_bool (inject_Z T) 0 = false) as ->.
  { destruct (Qeq_bool _ _) eqn:E; [|done]. apply Qeq_bool_eq in E. lra. }
  set (q := (inject_Z r / inject_Z T)%Q) in *.
  assert (q * inject_Z T == inject_Z r)%Q as Eq by (unfold q; field; lra).
  assert (q <= 1)%Q as Q1 by (apply Qle_shift_div_r; lra).
  assert (pow2 (-52) <= q)%Q as Q0.
  { apply Qle_shift_div_l; [done|]. pose proof (pow2_opp 52). pose proof (pow2_pos (-52)). change (- (52)) with (-52) in *. nra. }
  destruct (hundredfold q Q0 Q1) as (y & -> & Hy). exists y. split; [done|]. intros Hd.
  change min_receivable_percent with (Fin (inject_Z 35)) in Hd. unfold dge in Hd.
  assert (y < 35)%Q as Y.
  { apply Qnot_le_lt. intros C. apply not_true_iff_false in Hd. apply Hd. by apply dle_Fin. }
  assert (100 * q * (1 - 2 * pow2 (-53)) * inject_Z T < 35 * inject_Z T)%Q by nra.
  rewrite Zlt_Qlt, !inject_Z_mult. change (inject_Z 100) with 100%Q. change (inject_Z 35) with 35%Q.
  change (inject_Z (2 ^ 52 - 1)) with (pow2 52 - 1)%Q. change (inject_Z (2 ^ 52)) with (pow2 52).
  assert (pow2 52 - 1 == (1 - 2 * pow2 (-53)) * pow2 52)%Q as -> by (vm_compute; reflexivity).
  pose proof (pow2_pos 52). rewrite <- Eq. nra.
Qed.

(** ** Properties *)

(** With readable channels, a swap is wanted when less than 35 percent of the
    capacity is receivable and fees are low, or when at most 2.5 percent is receivable.
    The amount is two thirds of the difference between spendable and receivable, up to
    2 msat: when it is swapped in full at least 55 percent is receivable, and at most two
    thirds are, up to 3 msat. *)
Theorem node_balance_restored e m r s :
  totals m = inl (r, s) -> 0 <= r -> 0 <= s -> 0 < r + s < 2 ^ 52 ->
  match on_message e (ListpeersResult m) with
  | (e', inl (Some w)) =>
      recv_percent w = percent_of r s /\ exists yes amt, wants e' w = Some (yes, amt)
      /\ (yes = true <-> e = Some true \/ dle (percent_of r s) min_receivable_percent_highfees = true)
      /\ 2 * (s - r) - 6 < 3 * amt <= 2 * (s - r) + 3
      /\ 55 * (r + s) - 300 <= 100 * (r + amt) /\ 3 * (r + amt) <= 2 * (r + s) + 3
  | (_, inl None) => dle min_receivable_percent (percent_of r s) = true
  | _ => False
  end.
Proof.
  intros Em Hr Hs HT. destruct (percent_low r s Hr Hs HT) as (y & Ey & Hlow). unfold on_message. rewrite Em. cbn [obind].
  unfold judge, Amount.eq. destruct ((r =? 0) && (s =? 0)) eqn:E0; [to_prop; lia|]. clear E0.
  change (dmul (Amount.ratio r (Amount.add r s)) (d_of_Z 100)) with (percent_of r s).
  destruct (dge (percent_of r s) _) eqn:Ed; [done|]. specialize (Hlow eq_refl). split; [done|].
  assert (Amount.sub s r = s - r) as Es by (rewrite Amount.sub_spec, Z.gtb_ltb; split_ifs; lia).
  destruct (two_thirds (s - r)) as (n & E & Hn0 & Hn); [lia|]. unfold wants. cbn [mbind option_bind total_send total_recv].
  rewrite Es. destruct (Amount.mul (s - r) (d_of_Z 2)) as [t|]; [|done]. cbn [mbind option_bind] in E |- *. rewrite E.
  cbn [mbind option_bind recv_percent]. do 2 eexists. split; [reflexivity|]. split; [|lia].
  rewrite orb_true_iff, Ey. change min_receivable_percent_highfees with (Fin (5 # 2)). unfold dgt, dlt, dle. rewrite negb_involutive.
  by destruct e as [[]|]; simpl; intuition.
Qed.

(** *** Sample *)

Definition demo_channel : json :=
  JObj [(lit "state", JStr (lit "CHANNELD_NORMAL")); (lit "to_us_msat", JPrim (lit "900"));
        (lit "total_msat", JPrim (lit "1000")); (lit "htlcs", JArr []);
        (lit "our_reserve_msat", JPrim (lit "0")); (lit "their_reserve_msat", JPrim (lit "0"))].

Definition demo_peers : ConstructedListpeers :=
  <[None := {| connected := true; channels := [demo_channel] |}]> ∅.

Lemma demo_totals : totals demo_peers = inl (100, 900).
Proof. vm_compute. reflexivity. Qed.

(** A tenth is receivable: 533 msat are swapped. *)
Lemma node_balance_restored_witness :
  exists e w yes amt, on_message None (ListpeersResult demo_peers) = (e, inl (Some w)) /\ wants e w = Some (yes, amt)
  /\ 1594 < 3 * amt <= 1603.
Proof.
  pose proof (node_balance_restored None demo_peers 100 900 demo_totals) as H.
  assert (exists w, judge 100 900 = Some w) as [w Ew] by (eexists; vm_compute; reflexivity).
  assert (on_message None (ListpeersResult demo_peers) = (Some false, inl (Some w))) as E
    by (unfold on_message; rewrite demo_totals, <- Ew; reflexivity).
  rewrite E in H. destruct H as (_ & yes & amt & Hw & _ & Ha & _); [lia..|].
  exists (Some false), w, yes, amt. split; [exact E|]. split; [exact Hw|lia].
Defined.

End NodeBalance.

(** ** Onchain funds (src/Boss/Mod/NeedsOnchainFundsSwapper.cpp) *)

Module NeedsOnchain.

Definition max_needed : Amount := default 0 (Amount.btc (RN (1 # 100))).

Lemma max_needed_value : max_needed = 1000000000.
Proof. vm_compute. reflexivity. Qed.

Inductive Message := OnchainFee (low : bool) | NeedsOnchainFunds (needed : Amount).

Definition on_message (fees_low : option bool) (m : Message) : option bool * outcome (option Amount) :=
  match m with
  | OnchainFee low => (Some low, inl None)
  | NeedsOnchainFunds needed =>
      match fees_low with None => (None, inl None) | Some _ => (fees_low, inl (Some needed)) end
  end.

Definition wants (fees_low : option bool) (needed : Amount) : option (bool * Amount) :=
  low ← fees_low;
  if negb low then Some (false, 0)
  else if Amount.gt needed max_needed then Some (false, 0)
  else amt ← Amount.mul needed (RN (112 # 100)); Some (true, amt).

#[export] Instance NeedsOnchainFundsSwapper : Swapper.SwapPolicy :=
  {| Swapper.Env := option bool; Swapper.Msg := Message; Swapper.Ask := Amount; Swapper.new_env := None;
     Swapper.receive := on_message; Swapper.ok := wants |}.

(** Twelve percent more, to the millisatoshi. *)
Lemma with_margin needed :
  0 <= needed <= 1000000000 ->
  exists n, Amount.mul needed (RN (112 # 100)) = Some n /\ needed <= n /\ 112 * needed - 101 <= 100 * n <= 112 * needed + 1.
Proof.
  intros Hn. unfold Amount.mul. rewrite d_of_Z_exact by lia.
  assert (RN (112 # 100) = Fin (1261007895663739 # 1125899906842624)) as -> by (vm_compute; reflexivity). unfold dmul.
  set (c := (1261007895663739 # 1125899906842624)%Q) in *.
  assert (112 # 100 <= c + (1 # 1000000000000000) /\ c <= (112 # 100) + (1 # 1000000000000000))%Q as [C1 C2] by (vm_compute; split; discriminate).
  assert (1 <= c)%Q as C3 by (vm_compute; discriminate).
  assert (0 <= inject_Z needed)%Q as N0 by (change 0%Q with (inject_Z 0); rewrite <- Zle_Qle; lia).
  assert (inject_Z needed <= 1000000000)%Q as N1.
  { change 1000000000%Q with (inject_Z 1000000000). rewrite <- Zle_Qle. lia. }
  assert (1120000001 <= pow2 31)%Q as P31 by (vm_compute; discriminate).
  assert (pow2 (31 - 52) <= 1 # 1000000)%Q as P21 by (vm_compute; discriminate).
  assert (inject_Z needed * c <= inject_Z needed * ((112 # 100) + (1 # 1000000000000000)))%Q by (clearbody c; nra).
  assert (inject_Z needed * (112 # 100) <= inject_Z needed * (c + (1 # 1000000000000000)))%Q by (clearbody c; nra).
  assert (inject_Z needed * c <= pow2 31)%Q by lra.
  destruct (Amount.clamp_near (inject_Z needed * c) 31) as (n & E & B1 & B2); [clearbody c; nra|done|lia|].
  exists n. split; [done|]. pose proof (Amount.clamp_mono (Fin (inject_Z needed)) (RN (inject_Z needed * c)) needed n) as M.
  split.
  - apply M; [by apply dle_Fin| |apply Amount.clamp_exact_Z; lia|done].
    rewrite <- (d_of_Z_exact needed) by lia. apply RN_mono; [done|clearbody c; nra].
  - assert (inject_Z (112 * needed - 101) < inject_Z (100 * n))%Q as L.
    { rewrite <- Z.add_opp_r, inject_Z_plus, !inject_Z_mult. change (inject_Z 112) with 112%Q. change (inject_Z 100) with 100%Q.
      change (inject_Z (- (101))) with (-101)%Q. lra. }
    assert (inject_Z (100 * n) < inject_Z (112 * needed + 2))%Q as U.
    { rewrite inject_Z_plus, !inject_Z_mult. change (inject_Z 112) with 112%Q. change (inject_Z 100) with 100%Q.
      change (inject_Z 2) with 2%Q. lra. }
    rewrite <- Zlt_Qlt in L, U. lia.
Qed.

#[export] Instance NeedsOnchainLaws : Swapper.PolicyLaws NeedsOnchainFundsSwapper.
Proof.
  refine {| Swapper.msg_ok := (fun m => match m with NeedsOnchainFunds a => 0 <= a | _ => True end)
              : @Swapper.Msg NeedsOnchainFundsSwapper -> Prop;
            Swapper.env_ready := (fun e => is_Some e) : @Swapper.Env NeedsOnchainFundsSwapper -> Prop;
            Swapper.ask_ok := (fun a => 0 <= a) : @Swapper.Ask NeedsOnchainFundsSwapper -> Prop |};
    cbn [Swapper.receive Swapper.ok Swapper.Env Swapper.Msg Swapper.Ask NeedsOnchainFundsSwapper].
  - intros e [b|m] He; [by eexists|]. destruct He as [b ->]. by eexists.
  - intros [b'|] [b|m] a Hm; simpl; try done. intros [= <-]. by split; [eexists|].
  - by intros [b'|] [b|m].
  - intros e a [[|] ->] Ha; unfold wants; cbn [mbind option_bind negb]; [|by do 2 eexists].
    unfold Amount.gt, Amount.lt. rewrite max_needed_value. destruct (1000000000 <? a) eqn:E; [by do 2 eexists|]. to_prop.
    destruct (with_margin a) as (n & -> & Hn); [lia|]. cbn [mbind option_bind]. do 2 eexists. split; [done|]. lia.
Defined.

(** ** Properties *)

(** Funds that are needed onchain are swapped when fees are low and at most 0.01 BTC is
    needed; the amount has a margin of 12 percent, to the millisatoshi.  Before the first
    word on fees nothing is asked. *)
Theorem needed_funds_swapped low needed :
  0 <= needed ->
  on_message None (NeedsOnchainFunds needed) = (None, inl None)
  /\ on_message (Some low) (NeedsOnchainFunds needed) = (Some low, inl (Some needed))
  /\ exists yes amt, wants (Some low) needed = Some (yes, amt)
     /\ (yes = true <-> low = true /\ needed <= 1000000000)
     /\ (yes = true -> needed <= amt /\ 112 * needed - 101 <= 100 * amt <= 112 * needed + 1).
Proof.
  intros H. split; [done|]. split; [done|]. unfold wants. cbn [mbind option_bind]. destruct low; cbn [negb].
  2: { do 2 eexists. split; [done|]. split; [|done]. split; [done|]. by intros [? _]. }
  unfold Amount.gt, Amount.lt. rewrite max_needed_value. destruct (1000000000 <? needed) eqn:E; to_prop.
  - do 2 eexists. split; [done|]. split; [|done]. split; [done|]. lia.
  - destruct (with_margin needed) as (n & -> & Hn); [lia|]. do 2 eexists. split; [done|]. split; [|done].
    split; [|done]. lia.
Qed.

(** *** Samples *)

Lemma needed_funds_swapped_value : wants (Some true) 1000 = Some (true, 1120).
Proof. vm_compute. reflexivity. Qed.

Lemma needed_funds_swapped_witness : exists amt, wants (Some true) 1000 = Some (true, amt) /\ 1000 <= amt.
Proof.
  destruct (needed_funds_swapped true 1000 ltac:(lia)) as (_ & _ & yes & amt & E & H1 & H2).
  assert (yes = true) as -> by (apply H1; split; [done|lia]). exists amt. split; [exact E|]. by apply H2.
Defined.

(** A swap is requested at height 700000 and answered; a second one is never answered and is
    forgotten, a restart later. *)
Definition demo_events : list (Swapper.Event (P := NeedsOnchainFundsSwapper)) :=
  let ask := [Swapper.E_msg (NeedsOnchainFunds 5000000 : Swapper.Msg); Swapper.E_flag 0 false] in
  [Swapper.E_db; Swapper.E_msg (OnchainFee true : Swapper.Msg); Swapper.E_block 700000] ++ ask
  ++ [Swapper.E_continue 0 11; Swapper.E_response 11; Swapper.E_block 700007] ++ ask
  ++ [Swapper.E_continue 0 12; Swapper.E_restart; Swapper.E_db; Swapper.E_msg (OnchainFee true : Swapper.Msg)].

Definition demo_trace : list Swapper.Label :=
  [Swapper.SwapRequest 11 100000000 100000000 700000; Swapper.Responded 11 (Some 700000);
   Swapper.SwapRequest 12 100000000 100000000 700007].

(** The parts of a state and of what happened. *)
Definition demo_view (r : option (Swapper.State (P := NeedsOnchainFundsSwapper) * list Swapper.Label))
  : option (bool * option Swapper.Row * (option bool * list Amount * list Amount) * list Swapper.Label) :=
  match r with
  | Some (s, l) => Some (Swapper.db s, Swapper.row s, (Swapper.env s, Swapper.asked s, Swapper.going s), l)
  | None => None
  end.

Lemma demo_reach :
  exists s, Swapper.reach Swapper.msg_ok demo_trace s /\ Swapper.db s = true /\ Swapper.env s = Some true
  /\ Swapper.asked s = [] /\ Swapper.going s = [].
Proof.
  assert (Forall (Swapper.fit Swapper.msg_ok) demo_events) as Hf by (repeat constructor; cbn; lia).
  assert (Swapper.run_allowed Swapper.start demo_events = true) as Ha by (vm_compute; reflexivity).
  assert (demo_view (Swapper.run Swapper.start demo_events)
    = Some (true, Some {| Swapper.swapUuid := Some 12; Swapper.blocked_until := 700013; Swapper.forget_after := 700439 |},
            (Some true, [], []), demo_trace)) as Hr by (vm_compute; reflexivity).
  destruct (Swapper.run Swapper.start demo_events) as [[s l]|] eqn:E; [|discriminate]. cbn [demo_view] in Hr.
  injection Hr as Hd _ He Has Hg <-. exists s. split; [|repeat split; assumption].
  exact (Swapper.reach_run _ _ [] _ _ _ (Swapper.reach_start _) Hf Ha E).
Qed.


Lemma requests_fit_manager_witness :
  Swap.event_ok [] (Swap.on_init Swap.empty_db) (Swap.E_request 12 100000000 100000000) = true.
Proof.
  destruct demo_reach as (s & Hr & _). destruct (Swapper.requests_fit_manager _ _ Hr) as [_ H].
  apply (H 12 100000000 100000000 700007); [|reflexivity].
  unfold demo_trace. rewrite !elem_of_cons. tauto.
Defined.

(** After block 700440 the swap is forgotten, and another is requested. *)
Lemma swapper_never_stuck_witness :
  exists (s s' : Swapper.State) l, Swapper.reach Swapper.msg_ok demo_trace s
  /\ Swapper.run s [Swapper.E_block 700440; Swapper.E_forget; Swapper.E_msg (P := NeedsOnchainFundsSwapper) (NeedsOnchainFunds 1000);
                    Swapper.E_flag 0 false; Swapper.E_continue 0 13] = Some (s', l)
  /\ length l = 2%nat.
Proof.
  destruct demo_reach as (s & Hr & Hd & He & Ha & Hg).
  assert (Forall (Swapper.below 700007) demo_trace) as Hb by (repeat constructor; simpl; lia).
  destruct (Swapper.swapper_never_stuck (P := NeedsOnchainFundsSwapper) _ _ _ 700007 700440 (NeedsOnchainFunds 1000)
              (Some true) 1000 1120 13 Hr)
    as [s' E]; [lia|exact Hb|unfold Swapper.swap_timeout; lia|exact Hd| |exact needed_funds_swapped_value|lia|].
  { rewrite He. reflexivity. }
  rewrite Ha, Hg in E. eexists s, s', _. split; [exact Hr|]. split; [exact E|reflexivity].
Defined.

(** A response that comes between a restart and the first block does not make the swapper
    rest: the next request comes at that block, whatever its height. *)
Lemma early_response_no_rest :
  option_map snd (demo_view (Swapper.run Swapper.start (demo_events ++
    [Swapper.E_response 12; Swapper.E_block 700100; Swapper.E_msg (P := NeedsOnchainFundsSwapper) (NeedsOnchainFunds 5000000);
     Swapper.E_flag 0 false; Swapper.E_continue 0 13])))
  = Some (demo_trace ++ [Swapper.Responded 12 None; Swapper.SwapRequest 13 100000000 100000000 700100]).
Proof. vm_compute. reflexivity. Qed.

End NeedsOnchain.

(** ** Ignoring onchain funds (src/Boss/Mod/OnchainFundsIgnorer.cpp) *)

Module Ignorer.

Abbreviation Requester := Z.
Abbreviation CommandId := Z.

(** Threads that wait for the database. *)
Inductive Thread := T_flag (r : Requester) | T_set (id : CommandId) (disableuntil : double).

Record State := {
  db : bool;
  disableuntil : option double;     (** the table, which survives a restart *)
  pending_requesters : list Requester;
  threads : list Thread
}.

Definition start : State := {| db := false; disableuntil := None; pending_requesters := []; threads := [] |}.

(** [Answered] is the message [ResponseGetOnchainIgnoreFlag]; [Accepted] a command with the
    time until which it disables, [Stored] its transaction and reply. *)
Inductive Label :=
| Answered (r : Requester) (now : double) (ignore : bool) (seconds : double)
| Accepted (id : CommandId) (until : double)
| Stored (id : CommandId) (until : double)
| Failed (id : CommandId).

(** The parameter of [clboss-ignore-onchain]; [None] is a parameter failure. *)
Definition hours_of (hours_j : option json) : outcome (option double) :=
  if jis_null hours_j then inl (Some (d_of_Z 24))
  else if negb (jis_number hours_j) then inl None
  else let* h := number hours_j in inl (Some h).

Definition parse_hours (params : json) : outcome (option double) :=
  if jis_object (Some params) then
    let* n := lift (jsize (Some params)) in
    if (1 <? n)%nat then inl None
    else if (n =? 1)%nat then
      let* h := has (Some params) "hours" in
      if negb h then inl None else let* j := get (Some params) "hours" in hours_of j
    else hours_of None
  else if jis_array (Some params) then
    let* n := lift (jsize (Some params)) in
    if (1 <? n)%nat then inl None
    else if (n =? 1)%nat then let* j := lift (jindex_nth (Some params) 0) in hours_of j
    else hours_of None
  else inl None.

Definition get_disableuntil (s : State) : double := default (Fin 0) (disableuntil s).

(** The rest of [get_flag] after the transaction. *)
Definition get_flag (s : State) (r : Requester) (now : double) : Label :=
  let until := get_disableuntil s in
  let ignore := dlt now until in
  Answered r now ignore (if ignore then dsub until now else Fin 0).

Inductive Event :=
| I_db
| I_request (r : Requester)
| I_ignore (id : CommandId) (params : json) (now : double)
| I_notice (id : CommandId)
| I_run (i : nat) (now : double)      (** a thread proceeds *)
| I_restart.

Abbreviation result := (option (State * list Label)).

(** [set_disableuntil], which needs the database: [None] is a null pointer. *)
Definition set_disableuntil (s : State) (id : CommandId) (until : double) : result :=
  if db s then
    Some ({| db := true; disableuntil := disableuntil s; pending_requesters := pending_requesters s;
             threads := threads s ++ [T_set id until] |}, [Accepted id until])
  else None.

Definition step (s : State) (e : Event) : result :=
  match e with
  | I_db =>
      Some ({| db := true; disableuntil := Some (default (Fin 0) (disableuntil s)); pending_requesters := [];
               threads := threads s ++ map T_flag (pending_requesters s) |}, [])
  | I_request r =>
      if db s then
        Some ({| db := true; disableuntil := disableuntil s; pending_requesters := pending_requesters s;
                 threads := threads s ++ [T_flag r] |}, [])
      else
        Some ({| db := false; disableuntil := disableuntil s; pending_requesters := pending_requesters s ++ [r];
                 threads := threads s |}, [])
  | I_ignore id params now =>
      match parse_hours params with
      | inl (Some hours) => set_disableuntil s id (dadd now (dmul hours (d_of_Z 3600)))
      | inl None => Some (s, [Failed id])
      | inr Undefined => None
      | inr _ => Some (s, [])
      end
  | I_notice id => set_disableuntil s id (Fin 0)
  | I_run i now =>
      let s' := {| db := db s; disableuntil := disableuntil s; pending_requesters := pending_requesters s;
                   threads := delete i (threads s) |} in
      match threads s !! i with
      | Some (T_flag r) => Some (s', [get_flag s r now])
      | Some (T_set id until) =>
          Some ({| db := db s; disableuntil := Some until; pending_requesters := pending_requesters s;
                   threads := delete i (threads s) |}, [Stored id until])
      | None => Some (s, [])
      end
  | I_restart =>
      Some ({| db := false; disableuntil := disableuntil s; pending_requesters := []; threads := [] |}, [])
  end.

Inductive reach : list Label -> State -> Prop :=
| reach_start : reach [] start
| reach_step tr s e s' l : reach tr s -> step s e = Some (s', l) -> reach (tr ++ l) s'.

Fixpoint run (s : State) (es : list Event) : result :=
  match es with
  | [] => Some (s, [])
  | e :: es =>
      '(s1, l1) ← step s e;
      '(s2, l2) ← run s1 es;
      Some (s2, l1 ++ l2)
  end.

Lemma run_reach es tr s s' l : reach tr s -> run s es = Some (s', l) -> reach (tr ++ l) s'.
Proof.
  revert tr s s' l. induction es as [|e es IH]; intros tr s s' l Hr; cbn [run].
  - intros [= <- <-]. by rewrite app_nil_r.
  - destruct (step s e) as [[s1 l1]|] eqn:E; [|done]. cbn [mbind option_bind].
    destruct (run s1 es) as [[s2 l2]|] eqn:E2; [|done]. cbn [mbind option_bind]. intros [= <- <-].
    rewrite app_assoc. eapply IH, E2. by eapply reach_step.
Qed.

(** The time that the last command stored. *)
Definition stored (tr : list Label) : double :=
  foldl (fun d l => match l with Stored _ u => u | _ => d end) (Fin 0) tr.

Definition label_ok (pre : list Label) (l : Label) : Prop :=
  match l with
  | Answered _ now ignore seconds =>
      ignore = dlt now (stored pre) /\ seconds = if ignore then dsub (stored pre) now else Fin 0
  | Stored id until => Accepted id until ∈ pre
  | _ => True
  end.

Record ignorer_ok (tr : list Label) (s : State) : Prop := {
  io_stored : get_disableuntil s = stored tr;
  io_threads : forall id u, T_set id u ∈ threads s -> Accepted id u ∈ tr;
  io_labels : Swapper.each label_ok tr
}.

Lemma stored_snoc tr l : stored (tr ++ [l]) = match l with Stored _ u => u | _ => stored tr end.
Proof. unfold stored. rewrite foldl_snoc. by destruct l. Qed.

Lemma set_disableuntil_ok tr s id u s' l :
  ignorer_ok tr s -> set_disableuntil s id u = Some (s', l) -> ignorer_ok (tr ++ l) s'.
Proof.
  intros [H1 H2 H3]. unfold set_disableuntil. destruct (db s); [|done]. intros [= <- <-]. split; simpl.
  - by rewrite stored_snoc.
  - intros id' u'. rewrite !elem_of_app, !list_elem_of_singleton. intros [H|[= -> ->]]; [left; auto|by right].
  - by apply Swapper.each_snoc.
Qed.

Lemma ignorer_step_ok tr s e s' l : ignorer_ok tr s -> step s e = Some (s', l) -> ignorer_ok (tr ++ l) s'.
Proof.
  intros Hs. pose proof Hs as [H1 H2 H3]. destruct e as [|r|id params now|id|i now|]; cbn [step].
  - intros [= <- <-]. rewrite app_nil_r. split; simpl; [done| |done]. intros id u [H|H]%elem_of_app; [auto|].
    by apply list_elem_of_fmap in H as (? & ? & _).
  - destruct (db s); intros [= <- <-]; rewrite app_nil_r; (split; simpl; [done| |done]); [|done].
    intros id u. rewrite elem_of_app, list_elem_of_singleton. intros [H|H]; [auto|done].
  - destruct (parse_hours params) as [[h|]|[]]; intros E; try done.
    + by eapply set_disableuntil_ok.
    + injection E as <- <-. split; [by rewrite stored_snoc| |by apply Swapper.each_snoc].
      intros id' u' H. apply elem_of_app. left. auto.
    + injection E as <- <-. by rewrite app_nil_r.
    + injection E as <- <-. by rewrite app_nil_r.
  - by apply set_disableuntil_ok.
  - pose proof (fun x => elem_of_deleted i x (threads s)) as Hd.
    destruct (threads s !! i) as [[r|id u]|] eqn:E; intros [= <- <-].
    + split; simpl; [by rewrite stored_snoc| |].
      * intros id u H. apply elem_of_app. left. auto.
      * apply Swapper.each_snoc. split; [done|]. unfold get_flag, label_ok. by rewrite H1.
    + split; simpl; [by rewrite stored_snoc| |].
      * intros id' u' H. apply elem_of_app. left. auto.
      * apply Swapper.each_snoc. split; [done|]. apply H2. by eapply list_elem_of_lookup_2.
    + by rewrite app_nil_r.
  - intros [= <- <-]. rewrite app_nil_r. split; simpl; [done| |done]. by intros id u ?%elem_of_nil.
Qed.

(** ** Properties *)

(** The flag tells whether the time is before the one that the last command stored, also
    after a restart, with the seconds that are left; and only times that an accepted
    command computed are stored. *)
Theorem ignore_flag_follows_commands tr s :
  reach tr s ->
  (forall pre r now ignore seconds post, tr = pre ++ Answered r now ignore seconds :: post ->
     ignore = dlt now (stored pre) /\ seconds = if ignore then dsub (stored pre) now else Fin 0)
  /\ (forall pre id until post, tr = pre ++ Stored id until :: post -> Accepted id until ∈ pre).
Proof.
  intros Hr. assert (ignorer_ok tr s) as [_ _ H].
  { induction Hr; [|by eapply ignorer_step_ok]. split; [done|by intros id u ?%elem_of_nil|apply Swapper.each_nil]. }
  split.
  - intros pre r now ignore seconds post E. exact (H _ _ _ E).
  - intros pre id until post E. exact (H _ _ _ E).
Qed.

(** *** Sample *)

(** One hour from time 1000, asked at time 2000. *)
Lemma ignore_flag_follows_commands_witness :
  exists s, reach [Accepted 7 (d_of_Z 4600); Stored 7 (d_of_Z 4600); Answered 1 (d_of_Z 2000) true (d_of_Z 2600)] s
  /\ Accepted 7 (d_of_Z 4600) ∈ [Accepted 7 (d_of_Z 4600)].
Proof.
  assert (reach [Accepted 7 (d_of_Z 4600); Stored 7 (d_of_Z 4600); Answered 1 (d_of_Z 2000) true (d_of_Z 2600)]
            {| db := true; disableuntil := Some (d_of_Z 4600); pending_requesters := []; threads := [] |}) as Hr.
  { apply (run_reach
      [I_db; I_ignore 7 (JArr [JPrim (lit "1")]) (d_of_Z 1000); I_request 1; I_run 0 (Fin 0); I_run 0 (d_of_Z 2000)]
      [] start); [constructor|]. vm_compute. reflexivity. }
  eexists. split; [exact Hr|].
  destruct (ignore_flag_follows_commands _ _ Hr) as [_ H].
  apply (H _ _ _ [Answered 1 (d_of_Z 2000) true (d_of_Z 2600)]). reflexivity.
Defined.


End Ignorer.
