(* ===== verification/Dowser.v ===== *)
(** * Dowsing for capacity (src/Boss/Mod/Dowser.cpp, src/Boss/Mod/AskreneLayer.cpp)

    The dowser estimates how much can flow between two nodes, with the node's [getroutes],
    which either finds routes for the whole amount asked or finds none.  It probes the amount
    that the caller is interested in; when that does not flow it probes a floor, and then
    refines between the two by bisection.

    The answers of the node are a function of the number of the call and of the amount that
    is asked, so that they may change from call to call; [rpc] is a reply, or the object of
    an error. *)

From stdpp Require Import base list numbers strings.
From Stdlib Require Import QArith Qround Lqa.
From S2P Require Import Prelude.
From S2P Require Import Double.
From S2P Require Import Amount.
From S2P Require Import LnIds.
From S2P Require Import Jsmn.
From S2P Require Import Reply.
From S2P Require Import Peers.
Import Jsmn.
Import Reply.
Import Peers.

#[local] Open Scope Z_scope.
#[local] Open Scope reply_scope.

(** ** The layer that excludes ourselves *)

Module AskreneLayer.

Inductive rpc := Result (res : json) | RpcError (error : json).

Fixpoint lists_node (entries : list json) (target : bytes) : outcome bool :=
  match entries with
  | [] => inl false
  | entry :: entries =>
      let* s := text (Some entry) in
      if decide (s = target) then inl true else lists_node entries target
  end.

(** What the reply says; the exceptions under [std::exception] are caught by the caller. *)
Definition read_disabled (res : json) (target : bytes) : outcome bool :=
  let* layers := get (Some res) "layers" in
  if negb (jis_array layers) then inl false
  else
    let* n := lift (jsize layers) in
    if (n =? 0)%nat then inl false
    else
      let* layer := lift (jindex_nth layers 0) in
      let* h := has layer "disabled_nodes" in
      if negb h then inl false
      else
        let* disabled := get layer "disabled_nodes" in
        match disabled with Some (JArr l) => lists_node l target | _ => inl false end.

(** [None] is undefined behaviour. *)
Definition is_node_disabled (answer : rpc) (node : bytes) : option bool :=
  match answer with
  | Result res =>
      match read_disabled res node with
      | inl b => Some b
      | inr Undefined => None
      | inr _ => Some false
      end
  | RpcError _ => Some false
  end.

(** The commands that are sent to the node. *)
Inductive Command := CreateLayer | ListLayers | DisableNode (node : bytes).

(** Whether the layer may be named, and the commands; the answers are to the creation and
    to the listing. *)
Definition ensure_self_layer (created listed : rpc) (self_id : bytes) : option (bool * list Command) :=
  match created with
  | RpcError _ => Some (false, [CreateLayer])
  | Result _ =>
      already ← is_node_disabled listed self_id;
      Some (true, [CreateLayer; ListLayers] ++ if (already : bool) then [] else [DisableNode self_id])
  end.

End AskreneLayer.

(** ** The probe *)

Module Dowser.
Import AskreneLayer.

Definition default_probe_amount : Amount := Amount.sat 1000000.
Definition probe_maxfee_floor : Amount := Amount.sat 5000.
Definition reserve_factor : double := RN (985 # 1000).

Definition probe_maxfee (probe_amount : Amount) : option Amount :=
  scaled ← Amount.mul probe_amount (RN (1 # 100));
  Some (if Amount.gt scaled probe_maxfee_floor then scaled else probe_maxfee_floor).

Definition is_no_flow_error (err : json) : outcome bool :=
  if negb (jis_object (Some err)) then inl false
  else
    let* h := has (Some err) "code" in
    if negb h then inl false
    else
      let* code_j := get (Some err) "code" in
      if negb (jis_number code_j) then inl false
      else
        let* d := number code_j in
        let* code := defined (d_to_i64 d) in
        inl ((code =? -205) || (code =? -206) || (code =? 205) || (code =? 206)).

Definition add_route (delivered : Amount) (r : json) : outcome Amount :=
  if negb (jis_object (Some r)) then inl delivered
  else
    let* h := has (Some r) "amount_msat" in
    if negb h then inl delivered
    else
      let* amt_j := get (Some r) "amount_msat" in
      let* v := amount_valid_object amt_j in
      if negb v then inl delivered
      else let* a := amount_object amt_j in inl (Amount.add delivered a).

(** What an answer of [getroutes] delivers; [Runtime] is the error that is thrown on. *)
Definition delivered_by (answer : rpc) : outcome Amount :=
  match answer with
  | Result res =>
      if negb (jis_object (Some res)) then inl 0
      else
        let* h := has (Some res) "routes" in
        if negb h then inl 0
        else
          let* routes := get (Some res) "routes" in
          match routes with Some (JArr l) => foldM add_route l 0 | _ => inl 0 end
  | RpcError err =>
      let* no_flow := is_no_flow_error err in
      if (no_flow : bool) then inl 0 else inr Runtime
  end.

Section Probe.

(** The answers of the node: to the [i]-th probe, for an amount. *)
Context (node : nat -> Amount -> rpc).

Definition probe_flow (i : nat) (try_amt : Amount) : outcome Amount :=
  let* _ := defined (probe_maxfee try_amt) in
  delivered_by (node i try_amt).

(** The result and the number of the next probe; [None] is a lack of fuel. *)
Fixpoint refine (fuel : nat) (i : nat) (lo hi lo_delivered resolution : Amount) : option (outcome Amount * nat) :=
  match fuel with
  | O => None
  | S fuel =>
      if Amount.le hi lo || Amount.le (Amount.sub hi lo) resolution then Some (inl lo_delivered, i)
      else
        let mid := u64 (lo + hi) / 2 in
        match probe_flow i mid with
        | inl d =>
            if negb (Amount.eq d 0) then refine fuel (S i) mid hi d resolution
            else refine fuel (S i) lo mid lo_delivered resolution
        | inr e => Some (inr e, S i)
        end
  end.

(** The bisection takes at most 6 probes. *)
Definition refine_fuel : nat := 7.

Definition floor_probe_amount (probe_amount floor_target : Amount) : option Amount :=
  let resolution := probe_amount / 32 in
  if Amount.eq floor_target 0 then Some (u64 (resolution + 1))
  else
    a ← Amount.mul floor_target (ddiv (d_of_Z 1) reserve_factor);
    let scaled := Amount.add a (Amount.sat 1) in
    Some (if Amount.lt scaled resolution then u64 (scaled + 1) else u64 (resolution + 1)).

(** The raw amount that is delivered, 0 where no flow is found, and the number of probes. *)
Definition probe (probe_amount floor_amt : Amount) : option (outcome Amount * nat) :=
  match probe_flow 0 probe_amount with
  | inl full =>
      if negb (Amount.eq full 0) then Some (inl full, 1%nat)
      else
        match probe_flow 1 floor_amt with
        | inl lo =>
            if Amount.eq lo 0 then Some (inl 0, 2%nat)
            else refine refine_fuel 2 floor_amt probe_amount lo (probe_amount / 32)
        | inr e => Some (inr e, 2%nat)
        end
  | inr e => Some (inr e, 1%nat)
  end.

(** The constructor of [Run]. *)
Definition probe_amount_of (probe_target : Amount) : option Amount :=
  if Amount.gt probe_target 0 then
    a ← Amount.mul probe_target (ddiv (d_of_Z 1) reserve_factor);
    Some (Amount.add a (Amount.sat 1))
  else Some default_probe_amount.

(** The amount of the response; [Undefined] where a conversion is. *)
Definition run (probe_target floor_target : Amount) : option (outcome Amount) :=
  match probe_amount_of probe_target with
  | None => Some (inr Undefined)
  | Some probe_amount =>
      match floor_probe_amount probe_amount floor_target with
      | None => Some (inr Undefined)
      | Some floor_amt =>
          '(r, _) ← probe probe_amount floor_amt;
          Some (match r with
                | inl d => defined (Amount.mul d reserve_factor)
                | inr Runtime => inl 0
                | inr e => inr e
                end)
      end
  end.

End Probe.

(** The parameters of [clboss-dowser]; [None] is a parameter error. *)
Definition command_nodes (params : json) : outcome (option (NodeId.t * NodeId.t)) :=
  match
    (let* n := lift (jsize (Some params)) in
     if negb (n =? 2)%nat then inl None
     else
       let* from_j := if jis_object (Some params) then get (Some params) "fromid" else lift (jindex_nth (Some params) 0) in
       let* to_j := if jis_object (Some params) then get (Some params) "toid" else lift (jindex_nth (Some params) 1) in
       let* from_s := text from_j in
       let* from := nodeid_of from_s in
       let* to_s := text to_j in
       let* to := nodeid_of to_s in
       inl (Some (from, to)))
  with
  | inr Undefined => inr Undefined
  | inr _ => inl None
  | r => r
  end.

(** ** Lemmas *)

Lemma probe_maxfee_defined a : is_u64 a -> is_Some (probe_maxfee a).
Proof.
  intros Ha. unfold probe_maxfee, Amount.mul. destruct (Amount.d_of_u64_finite a Ha) as (q & -> & Hq).
  assert (RN (1 # 100) = Fin (5764607523034235 # 576460752303423488)) as -> by (vm_compute; reflexivity).
  unfold dmul. set (c := (5764607523034235 # 576460752303423488)%Q).
  assert (0 <= c /\ c <= 1 # 2)%Q as [C0 C1] by (vm_compute; split; discriminate).
  assert (0 <= q * c)%Q by (clearbody c; nra). assert (q * c <= pow2 63)%Q.
  { assert (pow2 63 == inject_Z (2 ^ 64) * (1 # 2))%Q as -> by reflexivity. clearbody c. nra. }
  destruct (RN_near (q * c) 63) as (r & -> & Hr0 & Hr); [done|done|lia|].
  assert (pow2 63 + pow2 (63 - 52) < inject_Z (2 ^ 64))%Q by reflexivity.
  rewrite Amount.clamp_floor; [|done|lra]. by eexists.
Qed.

Lemma probe_flow_delivered node i a : is_u64 a -> probe_flow node i a = delivered_by (node i a).
Proof. intros Ha. unfold probe_flow. by destruct (probe_maxfee_defined a Ha) as [f ->]. Qed.

(** *** Scaling *)

Definition haircut : Q := 8872091265919877 # 9007199254740992.
Definition markup : Q := 2286091181406343 # 2251799813685248.

Lemma reserve_factor_value : reserve_factor = Fin haircut.
Proof. vm_compute. reflexivity. Qed.
Lemma markup_value : ddiv (d_of_Z 1) reserve_factor = Fin markup.
Proof. vm_compute. reflexivity. Qed.

Lemma haircut_bounds : (985 # 1000 <= haircut + (1 # 5000000000000000) /\ haircut <= (985 # 1000) + (1 # 5000000000000000))%Q.
Proof. vm_compute. split; discriminate. Qed.
Lemma markup_bounds : (1 - (1 # 1000000000000000) <= markup * haircut /\ markup * haircut <= 1 + (1 # 1000000000000000)
                       /\ 1 <= markup /\ markup <= 11 # 10)%Q.
Proof. vm_compute. repeat split; discriminate. Qed.

(** Scaling by a number near one, to a few millisatoshis. *)
Lemma scaled_near a c :
  0 <= a -> (0 <= c)%Q -> (inject_Z a * c <= pow2 52)%Q -> (a < 2 ^ 53) ->
  exists n, Amount.mul a (Fin c) = Some n /\ (inject_Z a * c - 2 < inject_Z n)%Q /\ (inject_Z n <= inject_Z a * c + 1)%Q.
Proof.
  intros Ha Hc Hb Hl. unfold Amount.mul. rewrite d_of_Z_exact by lia. unfold dmul.
  assert (0 <= inject_Z a)%Q by (change 0%Q with (inject_Z 0); rewrite <- Zle_Qle; lia).
  destruct (Amount.clamp_near (inject_Z a * c) 52) as (n & E & N1 & N2); [nra|done|lia|].
  change (pow2 (52 - 52)) with 1%Q in *. exists n. split; [done|]. split; lra.
Qed.

(** The reserve is taken off what is delivered. *)
Lemma haircut_near d :
  0 <= d <= 2 ^ 52 -> exists n, Amount.mul d reserve_factor = Some n /\ 985 * d - 3000 <= 1000 * n <= 985 * d + 2000.
Proof.
  intros Hd. rewrite reserve_factor_value. pose proof haircut_bounds as [B1 B2].
  assert (0 <= inject_Z d)%Q by (change 0%Q with (inject_Z 0); rewrite <- Zle_Qle; lia).
  assert (inject_Z d <= 4503599627370496)%Q.
  { change 4503599627370496%Q with (inject_Z (2 ^ 52)). rewrite <- Zle_Qle. lia. }
  assert (0 <= haircut)%Q by lra. assert (haircut <= 1)%Q by lra.
  destruct (scaled_near d haircut) as (n & E & N1 & N2); [lia|done| |lia|].
  { change (pow2 52) with 4503599627370496%Q. nra. }
  exists n. split; [done|]. assert (inject_Z d * haircut <= inject_Z d * ((985 # 1000) + (1 # 5000000000000000)))%Q by nra.
  assert (inject_Z d * (985 # 1000) <= inject_Z d * (haircut + (1 # 5000000000000000)))%Q by nra.
  rewrite !Zle_Qle, <- Z.add_opp_r, !inject_Z_plus, !inject_Z_mult. change (inject_Z 985) with 985%Q.
  change (inject_Z 1000) with 1000%Q. change (inject_Z (- (3000))) with (-3000)%Q. change (inject_Z 2000) with 2000%Q. lra.
Qed.

(** The probe for a target, and what is reported when all of it flows. *)
Lemma target_reached t :
  0 < t < 2 ^ 51 ->
  exists p a, probe_amount_of t = Some p /\ 1000 <= p /\ t <= p <= 2 ^ 52
  /\ Amount.mul p reserve_factor = Some a /\ t <= a <= t + 1000.
Proof.
  intros Ht. unfold probe_amount_of, Amount.gt, Amount.lt. destruct (0 <? t) eqn:E; to_prop; [|lia].
  rewrite markup_value. pose proof markup_bounds as (M1 & M2 & M3 & M4). pose proof haircut_bounds as [B1 B2].
  assert (1 <= inject_Z t)%Q by (change 1%Q with (inject_Z 1); rewrite <- Zle_Qle; lia).
  assert (inject_Z t <= 2251799813685248)%Q.
  { change 2251799813685248%Q with (inject_Z (2 ^ 51)). rewrite <- Zle_Qle. lia. }
  destruct (scaled_near t markup) as (n & En & N1 & N2); [lia|lra| |lia|].
  { change (pow2 52) with 4503599627370496%Q. nra. }
  rewrite En. cbn [mbind option_bind]. change (Amount.sat 1) with 1000.
  assert (inject_Z t * 1 <= inject_Z t * markup)%Q by nra.
  assert (inject_Z t * markup <= inject_Z t * (11 # 10))%Q by nra.
  assert (t - 2 < n) as Hn1 by (rewrite Zlt_Qlt, <- Z.add_opp_r, inject_Z_plus; change (inject_Z (- (2))) with (-2)%Q; lra).
  assert (10 * n <= 11 * t + 10) as Hn2.
  { rewrite Zle_Qle, inject_Z_plus, !inject_Z_mult. change (inject_Z 10) with 10%Q. change (inject_Z 11) with 11%Q. lra. }
  assert (0 <= n) by (apply Amount.clamp_range in En; ulia).
  assert (Amount.add n 1000 = n + 1000) as Ea by (rewrite Amount.add_spec by ulia; ulia).
  exists (n + 1000). rewrite Ea, reserve_factor_value.
  destruct (scaled_near (n + 1000) haircut) as (a & Eaa & A1 & A2); [lia|lra| |lia|].
  { assert (inject_Z (n + 1000) <= inject_Z (2 ^ 52))%Q by (rewrite <- Zle_Qle; lia).
    assert (0 <= inject_Z (n + 1000))%Q by (change 0%Q with (inject_Z 0); rewrite <- Zle_Qle; lia).
    change (pow2 52) with (inject_Z (2 ^ 52)). nra. }
  exists a. split; [done|]. split; [lia|]. split; [lia|]. split; [done|].
  rewrite inject_Z_plus in A1, A2. change (inject_Z 1000) with 1000%Q in *.
  assert (inject_Z t * (markup * haircut) <= inject_Z t * (1 + (1 # 1000000000000000)))%Q by (set (m := (markup * haircut)%Q) in *; clearbody m; nra).
  assert (inject_Z t * (1 - (1 # 1000000000000000)) <= inject_Z t * (markup * haircut))%Q by (set (m := (markup * haircut)%Q) in *; clearbody m; nra).
  assert (98 # 100 <= haircut)%Q as B3 by lra. assert (haircut <= 99 # 100)%Q as B4 by lra.
  assert (inject_Z t * markup * haircut - 2 * haircut <= inject_Z n * haircut)%Q by (clear - N1 B3; nra).
  assert (inject_Z n * haircut <= inject_Z t * markup * haircut + 1 * haircut)%Q by (clear - N2 B3; nra).
  rewrite !Zle_Qle, inject_Z_plus. change (inject_Z 1000) with 1000%Q. split; lra.
Qed.

(** *** The bisection *)

Lemma midpoint lo hi :
  0 <= lo -> hi < 2 ^ 63 -> lo < hi ->
  let mid := u64 (lo + hi) / 2 in lo <= mid < hi /\ 2 * (mid - lo) <= hi - lo /\ 2 * (hi - mid) <= hi - lo + 1.
Proof.
  intros H1 H2 H3. cbv zeta. rewrite u64_id by ulia.
  pose proof (Z.div_mod (lo + hi) 2 ltac:(lia)). pose proof (Z.mod_pos_bound (lo + hi) 2 ltac:(lia)). lia.
Qed.

Lemma stops lo hi res : Amount.le hi lo || Amount.le (Amount.sub hi lo) res = (hi - lo <=? Z.max res 0).
Proof.
  rewrite !Amount.le_spec, Amount.sub_spec, Z.gtb_ltb. apply eq_true_iff_eq.
  rewrite orb_true_iff, !Z.leb_le. destruct (hi <? lo) eqn:E; to_prop; lia.
Qed.

Lemma refine_S node fuel i lo hi d res :
  refine node (S fuel) i lo hi d res =
    if hi - lo <=? Z.max res 0 then Some (inl d, i)
    else
      let mid := u64 (lo + hi) / 2 in
      match probe_flow node i mid with
      | inl d' => if negb (Amount.eq d' 0) then refine node fuel (S i) mid hi d' res else refine node fuel (S i) lo mid d res
      | inr e => Some (inr e, S i)
      end.
Proof. cbn [refine]. by rewrite stops. Qed.

(** Whatever the answers are, the gap is halved by each probe. *)
Lemma refine_ends node k i lo hi d res :
  0 <= lo -> hi < 2 ^ 63 -> 1 <= res -> hi - lo <= 2 ^ Z.of_nat k * (res - 1) + 1 ->
  exists r j, refine node (S k) i lo hi d res = Some (r, j) /\ (j <= i + k)%nat.
Proof.
  intros Hlo Hhi Hres. revert i lo hi d Hlo Hhi. induction k as [|k IH]; intros i lo hi d Hlo Hhi Hg; rewrite refine_S.
  - change (2 ^ Z.of_nat 0) with 1 in Hg. assert ((hi - lo <=? Z.max res 0) = true) as -> by (apply Z.leb_le; lia).
    do 2 eexists. split; [done|lia].
  - destruct (hi - lo <=? Z.max res 0) eqn:E; [do 2 eexists; split; [done|lia]|]. to_prop.
    destruct (midpoint lo hi) as (M1 & M2 & M3); [done|done|lia|]. cbv zeta. set (mid := u64 (lo + hi) / 2) in *.
    rewrite Nat2Z.inj_succ, Z.pow_succ_r in Hg by lia.
    destruct (probe_flow node i mid) as [d'|e]; [|do 2 eexists; split; [done|lia]].
    destruct (negb (Amount.eq d' 0)).
    + destruct (IH (S i) mid hi d') as (r & j & E' & Hj); [lia..|]. rewrite E'. do 2 eexists. split; [done|lia].
    + destruct (IH (S i) lo mid d) as (r & j & E' & Hj); [lia..|]. rewrite E'. do 2 eexists. split; [done|lia].
Qed.

(** Up to [cap] flows in whole, and nothing above it. *)
Definition exact_flow (node : nat -> Amount -> rpc) (cap : Amount) : Prop :=
  forall i a, 0 <= a -> delivered_by (node i a) = inl (if a <=? cap then a else 0).

Lemma exact_probe node cap i a : exact_flow node cap -> is_u64 a -> probe_flow node i a = inl (if a <=? cap then a else 0).
Proof. intros H Ha. rewrite probe_flow_delivered by done. apply H. ulia. Qed.

Lemma refine_finds node cap fuel i lo hi res r j :
  exact_flow node cap -> 0 < lo -> hi < 2 ^ 63 -> 0 <= res -> lo <= cap < hi ->
  refine node fuel i lo hi lo res = Some (r, j) -> exists d, r = inl d /\ lo <= d <= cap /\ cap < d + Z.max 1 res.
Proof.
  intros Hn Hlo Hhi Hres. revert i lo hi Hlo Hhi. induction fuel as [|fuel IH]; intros i lo hi Hlo Hhi Hc; [done|].
  rewrite refine_S. destruct (hi - lo <=? Z.max res 0) eqn:E.
  { intros [= <- _]. to_prop. exists lo. split; [done|]. lia. }
  to_prop. destruct (midpoint lo hi) as (M1 & _); [lia..|]. cbv zeta. set (mid := u64 (lo + hi) / 2) in *.
  rewrite (exact_probe node cap) by (done || ulia). unfold Amount.eq.
  destruct (mid <=? cap) eqn:Em; to_prop.
  - destruct (mid =? 0) eqn:E0; to_prop; [lia|]. cbn [negb]. intros Er. destruct (IH _ mid hi ltac:(lia) Hhi ltac:(lia) Er) as (d & Hd).
    exists d. split; [apply Hd|lia].
  - rewrite Z.eqb_refl. cbn [negb]. intros Er. destruct (IH _ lo mid ltac:(lia) ltac:(lia) ltac:(lia) Er) as (d & Hd). by exists d.
Qed.

Lemma floor_defined p fl :
  1000 <= p <= 2 ^ 52 -> 0 <= fl < 2 ^ 51 ->
  exists f, floor_probe_amount p fl = Some f /\ 0 < f <= p / 32 + 1
  /\ (0 < fl -> f = p / 32 + 1 \/ exists q, probe_amount_of fl = Some q /\ f = q + 1).
Proof.
  intros Hp Hf. unfold floor_probe_amount. assert (31 <= p / 32) by (apply Z.div_le_lower_bound; lia).
  assert (p / 32 <= 2 ^ 52) by (apply Z.div_le_upper_bound; lia). unfold Amount.eq.
  destruct (fl =? 0) eqn:E; to_prop.
  - rewrite u64_id by ulia. eexists. split; [done|]. lia.
  - destruct (target_reached fl) as (q & _ & Eq & Hq & _); [lia|]. unfold probe_amount_of, Amount.gt, Amount.lt in *.
    assert ((0 <? fl) = true) as E0 by (apply Z.ltb_lt; lia). rewrite E0 in *.
    destruct (Amount.mul fl _) as [a|] eqn:Em; [|done]. cbn [mbind option_bind] in *. injection Eq as <-.
    destruct (Amount.add a (Amount.sat 1) <? p / 32) eqn:El; to_prop; rewrite u64_id by ulia.
    + eexists. split; [done|]. split; [lia|]. intros _. right. by eexists.
    + eexists. split; [done|]. split; [lia|]. by left.
Qed.

(** The probe that a target leads to, with the default one. *)
Lemma probe_amount_defined t :
  0 <= t < 2 ^ 51 -> exists p, probe_amount_of t = Some p /\ 1000 <= p <= 2 ^ 52.
Proof.
  intros Ht. destruct (Z.eq_dec t 0) as [->|Hn].
  - exists 1000000000. split; [done|lia].
  - destruct (target_reached t) as (p & _ & E & Hp & H & _); [lia|]. exists p. split; [done|lia].
Qed.

(** What flows is found: the raw amount that a dowse delivers. *)
Lemma dowse_raw node cap t fl p f :
  exact_flow node cap -> 1000 <= p <= 2 ^ 52 -> 0 < f <= p / 32 + 1 -> probe_amount_of t = Some p ->
  floor_probe_amount p fl = Some f ->
  exists d a, Amount.mul d reserve_factor = Some a /\ run node t fl = Some (inl a)
  /\ (cap < f -> d = 0) /\ (p <= cap -> d = p)
  /\ (f <= cap < p -> cap - p / 32 < d <= cap /\ f <= d) /\ 0 <= d <= 2 ^ 52.
Proof.
  intros Hn Hp Hf Ep Ef. assert (31 <= p / 32 <= 2 ^ 52) by (split; [apply Z.div_le_lower_bound|apply Z.div_le_upper_bound]; lia).
  pose proof (Z.div_mod p 32 ltac:(lia)) as Hdm. pose proof (Z.mod_pos_bound p 32 ltac:(lia)) as Hmb.
  assert (exists d j, probe node p f = Some (inl d, j) /\ (cap < f -> d = 0) /\ (p <= cap -> d = p)
          /\ (f <= cap < p -> cap - p / 32 < d <= cap /\ f <= d) /\ 0 <= d <= 2 ^ 52) as (d & j & Er & H1 & H2 & H3 & H4).
  { unfold probe. rewrite (exact_probe node cap) by (done || ulia). unfold Amount.eq. destruct (p <=? cap) eqn:Epc; to_prop.
    - destruct (p =? 0) eqn:E0; to_prop; [lia|]. cbn [negb]. exists p. eexists. split; [done|]. lia.
    - rewrite Z.eqb_refl. cbn [negb]. rewrite (exact_probe node cap) by (done || ulia). destruct (f <=? cap) eqn:Efc; to_prop.
      + destruct (f =? 0) eqn:E0; to_prop; [lia|].
        destruct (refine_ends node 6 2 f p f (p / 32)) as (r & j & Er & _); [lia..|change (2 ^ Z.of_nat 6) with 64; lia|].
        change refine_fuel with 7%nat. rewrite Er.
        destruct (refine_finds node cap 7 2 f p (p / 32) r j Hn) as (d & -> & Hd); [lia|lia|lia|lia|exact Er|].
        do 2 eexists. split; [done|]. lia.
      + rewrite Z.eqb_refl. do 2 eexists. split; [done|]. lia. }
  destruct (haircut_near d H4) as (a & Ea & _). exists d, a. unfold run. rewrite Ep, Ef, Er. cbn [mbind option_bind]. rewrite Ea. done.
Qed.

(** ** Properties *)

(** Whatever the node answers, from probe to probe, a dowse ends after at most 8 probes
    with a response, unless an amount in an answer is undefined: unexpected errors are
    reported as no flow. *)
Theorem dowse_always_answers node p fl f :
  1000 <= p <= 2 ^ 52 -> 0 <= fl < 2 ^ 51 -> floor_probe_amount p fl = Some f ->
  exists r n, probe node p f = Some (r, n) /\ (n <= 8)%nat.
Proof.
  intros Hp Hf E. destruct (floor_defined p fl Hp Hf) as (f' & E' & Hf' & _). rewrite E in E'. injection E' as <-.
  unfold probe. destruct (probe_flow node 0 p) as [full|e]; [|do 2 eexists; split; [done|lia]].
  destruct (negb _); [do 2 eexists; split; [done|lia]|].
  destruct (probe_flow node 1 f) as [lo|e]; [|do 2 eexists; split; [done|lia]].
  destruct (Amount.eq lo 0); [do 2 eexists; split; [done|lia]|].
  assert (31 <= p / 32) by (apply Z.div_le_lower_bound; lia).
  destruct (refine_ends node 6 2 f p lo (p / 32)) as (r & j & Er & Hj); [lia..| |].
  { change (2 ^ Z.of_nat 6) with 64. pose proof (Z.div_mod p 32 ltac:(lia)). pose proof (Z.mod_pos_bound p 32 ltac:(lia)). lia. }
  exists r, j. split; [exact Er|lia].
Qed.

(** C27: where up to [cap] can flow, the dowser reports nothing below its floor, and at least
    the target when the whole probe flows.  In between it reports what it found flowing, less
    a reserve of 1.5 percent: at most the capacity, and less than it by no more than a 32nd
    of the probe. *)
Theorem dowse_estimate node cap t fl :
  exact_flow node cap -> 0 <= t < 2 ^ 51 -> 0 <= fl < 2 ^ 51 ->
  exists p f a, probe_amount_of t = Some p /\ floor_probe_amount p fl = Some f /\ run node t fl = Some (inl a)
  /\ (cap < f -> a = 0)
  /\ (p <= cap -> t <= a /\ (0 < t -> a <= t + 1000))
  /\ (f <= cap < p -> exists d, cap - p / 32 < d <= cap /\ f <= d /\ 985 * d - 3000 <= 1000 * a <= 985 * d + 2000).
Proof.
  intros Hn Ht Hf. destruct (probe_amount_defined t Ht) as (p & Ep & Hp).
  destruct (floor_defined p fl Hp Hf) as (f & Ef & Hff & _).
  destruct (dowse_raw node cap t fl p f Hn Hp Hff Ep Ef) as (d & a & Ea & Er & H1 & H2 & H3 & H4). exists p, f, a.
  split; [done|]. split; [done|]. split; [done|]. destruct (haircut_near d H4) as (a' & Ea' & Ha).
  rewrite Ea in Ea'. injection Ea' as <-. split_and!.
  - intros Hc. rewrite (H1 Hc) in Ea. vm_compute in Ea. congruence.
  - intros Hc. rewrite (H2 Hc) in *. destruct (Z.eq_dec t 0) as [->|Hnz]; [lia|].
    destruct (target_reached t) as (p' & a' & Ep' & _ & _ & Ea' & Hta); [lia|]. rewrite Ep in Ep'. injection Ep' as <-.
    rewrite Ea' in Ea. injection Ea as <-. lia.
  - intros Hc. exists d. split; [|lia]. apply (H3 Hc).
Qed.

(** A floor below the resolution keeps small flows: when at least [fl] can be reported from
    the capacity, more is reported than [fl], and not nothing. *)
Theorem dowse_keeps_floor node cap t fl p f :
  exact_flow node cap -> 0 <= t < 2 ^ 51 -> 0 < fl < 2 ^ 51 ->
  probe_amount_of t = Some p -> floor_probe_amount p fl = Some f -> f <= p / 32 -> f <= cap ->
  exists a, run node t fl = Some (inl a) /\ fl <= a.
Proof.
  intros Hn Ht Hf Ep Ef Hfp Hfc. destruct (probe_amount_defined t Ht) as (p' & Ep' & Hp). rewrite Ep in Ep'. injection Ep' as <-.
  destruct (floor_defined p fl Hp ltac:(lia)) as (f' & Ef' & Hf0 & Hf1). rewrite Ef in Ef'. injection Ef' as <-.
  destruct (Hf1 ltac:(lia)) as [->|(q & Eq & ->)]; [lia|].
  destruct (target_reached fl Hf) as (q' & aq & Eq' & _ & Hq & Eaq & Haq). rewrite Eq in Eq'. injection Eq' as <-.
  destruct (dowse_raw node cap t fl p (q + 1) Hn Hp Hf0 Ep Ef) as (d & a & Ea & Er & _ & H2 & H3 & Hd).
  exists a. split; [done|]. apply Z.le_trans with aq; [lia|]. rewrite reserve_factor_value in Ea, Eaq.
  refine (proj2 (Amount.amount_scale_defined_mono q d haircut _ _ _ _) aq a Eaq Ea); [ulia|ulia| |by compute].
  destruct (Z_lt_le_dec cap p) as [Hc|Hc]; [destruct (H3 ltac:(lia)); lia|].
  rewrite (H2 Hc). pose proof (Z.div_le_upper_bound p 32 p ltac:(lia) ltac:(lia)). lia.
Qed.

(** *** Samples *)

(** A node that finds one route for up to [cap]. *)
Definition demo_node (cap : Amount) (i : nat) (a : Amount) : rpc :=
  if a <=? cap then Result (JObj [(lit "routes", JArr [JObj [(lit "amount_msat", JStr (Amount.to_string a))]])])
  else RpcError (JObj [(lit "code", JPrim (lit "205"))]).

Lemma demo_route a : 0 <= a < 10 ^ 13 -> add_route 0 (JObj [(lit "amount_msat", JStr (Amount.to_string a))]) = inl a.
Proof.
  intros Ha. assert (text (Some (JStr (Amount.to_string a))) = inl (Amount.to_string a)) as Ht.
  { unfold text, jto_string. rewrite <- (app_nil_r (Amount.to_string a)) at 1. rewrite from_escaped_plain.
    - simpl. by rewrite app_nil_r.
    - apply Forall_app. split; [|by repeat constructor]. eapply Forall_impl; [apply dec_digits|].
      intros c Hc ->. vm_compute in Hc. discriminate. }
  pose proof (Amount.amount_string_roundtrip a ltac:(ulia)) as Hr. unfold Amount.of_string in Hr.
  assert ((a <? 10 ^ 13) = true) as El by (apply Z.ltb_lt; lia). rewrite El in Hr.
  set (txt := Amount.to_string a) in *. clearbody txt.
  assert (Amount.valid_string txt = true) as Hv by (destruct (Amount.valid_string txt); [done|discriminate]).
  rewrite Hv in Hr. cbn [negb] in Hr.
  unfold add_route. cbn [jis_object negb]. change (has (Some (JObj [(lit "amount_msat", JStr txt)])) "amount_msat") with (inl true : outcome bool).
  cbn [obind negb]. change (get (Some (JObj [(lit "amount_msat", JStr txt)])) "amount_msat") with (inl (Some (JStr txt)) : outcome (option json)).
  cbn [obind]. unfold amount_valid_object, amount_object. cbn [jis_number jis_string]. rewrite Ht. cbn [obind].
  rewrite Hv. cbn [negb]. unfold Amount.of_string. rewrite Hv. cbn [negb]. rewrite Hr. cbn [or_throw obind].
  f_equal. rewrite Amount.add_spec by ulia. ulia.
Qed.

Lemma demo_exact cap : 0 <= cap < 10 ^ 13 -> exact_flow (demo_node cap) cap.
Proof.
  intros Hc i a Ha. unfold demo_node. destruct (a <=? cap) eqn:E; to_prop.
  - unfold delivered_by. cbn [jis_object negb].
    set (r := JObj [(lit "amount_msat", JStr (Amount.to_string a))]).
    change (has (Some (JObj [(lit "routes", JArr [r])])) "routes") with (inl true : outcome bool). cbn [obind negb].
    change (get (Some (JObj [(lit "routes", JArr [r])])) "routes") with (inl (Some (JArr [r])) : outcome (option json)).
    cbn [obind foldM]. unfold r. by rewrite demo_route by lia.
  - vm_compute. reflexivity.
Qed.

Lemma dowse_always_answers_witness :
  exists r n, probe (fun _ _ => RpcError (JObj [(lit "code", JPrim (lit "205"))])) 1000000 31251 = Some (r, n) /\ (n <= 8)%nat.
Proof. apply (dowse_always_answers _ 1000000 0 31251); [lia|lia|vm_compute; reflexivity]. Defined.

(** Ten million can flow, a hundred million is wanted: a part of it is found. *)
Lemma dowse_estimate_witness :
  exists a, run (demo_node 10000000) 100000000 0 = Some (inl a) /\ 985 * 6827380 - 3000 <= 1000 * a <= 985 * 10000000 + 2000.
Proof.
  destruct (dowse_estimate (demo_node 10000000) 10000000 100000000 0) as (p & f & a & Ep & Ef & Er & _ & _ & H);
    [apply demo_exact; lia|lia|lia|].
  exists a. split; [exact Er|]. vm_compute in Ep. apply Some_inj in Ep. subst p. vm_compute in Ef. apply Some_inj in Ef. subst f.
  destruct H as (d & Hd & _ & Ha); [lia|]. change (101523842 / 32) with 3172620 in Hd. lia.
Defined.

Lemma dowse_keeps_floor_witness :
  exists a, run (demo_node 1000000) 1000000000 500000 = Some (inl a) /\ 500000 <= a.
Proof.
  apply (dowse_keeps_floor (demo_node 1000000) 1000000 1000000000 500000 1015229426 508615);
    [apply demo_exact; lia|lia|lia|vm_compute; reflexivity|vm_compute; reflexivity|vm_compute; discriminate|lia].
Defined.

End Dowser.
