(* ===== verification/Investigator.v ===== *)
(** * Investigating channel candidates (src/Boss/Mod/ChannelCandidateInvestigator)

    Nodes that are proposed for channels are kept in a table with a score, which rises when
    the node is found online and falls when it is not.  The secretary keeps the table, the
    janitor drops candidates without enough capacity to their patron, the gumshoe connects to
    candidates to see whether they are online, and the manager drives the three.

    Threads wait for the database, for the dowser, for track records and for the node; they
    proceed in any order.  A transaction is one step; the cleaning of the janitor is one too,
    since it holds its transaction while it dowses.  The table survives a restart. *)

From stdpp Require Import base list numbers strings gmap sorting.
From S2P Require Import Prelude.
From S2P Require Import Amount.
From S2P Require Import LnIds.
From S2P Require Import Jsmn.
From S2P Require Import ChannelManager.
From S2P Require Import Reply.
From S2P Require Import Peers.
From S2P Require Import Dowser.
Import Jsmn.
Import Reply.
Import Peers.
Import AskreneLayer.

#[local] Open Scope Z_scope.
#[local] Open Scope reply_scope.

(** ** The table (Secretary.cpp) *)

Module Secretary.

Record Row := { proposal : Node; patron : Node; score : Z }.
Abbreviation Table := (list Row).

(** [INSERT OR IGNORE] with the proposal as primary key. *)
Definition add_candidate (t : Table) (n p : Node) : Table :=
  if decide (n ∈ map proposal t) then t else t ++ [{| proposal := n; patron := p; score := 0 |}].

Definition get_nonnegative_candidates_count (t : Table) : nat := length (filter (fun r => 0 <= score r) t).

(** [shuffled] is the vector of proposals after the shuffle. *)
Definition get_for_investigation (t : Table) (max_candidates : nat) (shuffled : list Node) : list Node :=
  let proposals := map proposal t in
  if (length proposals <=? max_candidates)%nat then proposals else take max_candidates shuffled.

Definition update_score (t : Table) (n : Node) (delta minimum maximum : Z) : Table :=
  let t := map (fun r => if decide (proposal r = n)
                         then {| proposal := proposal r; patron := patron r; score := Z.min maximum (score r + delta) |}
                         else r) t in
  filter (fun r => ~ (proposal r = n /\ score r < minimum)) t.

(** [ORDER BY score DESC]; ties stay in the order of insertion. *)
Definition better (a b : Row) : Prop := score b <= score a.

#[global] Instance better_dec a b : Decision (better a b).
Proof. unfold better. apply _. Defined.

#[global] Instance better_trans : Transitive better.
Proof. unfold better. intros a b c. lia. Qed.
#[global] Instance better_total : Total better.
Proof. unfold better. intros a b. lia. Qed.

Definition by_score (t : Table) : list Row := merge_sort better t.

Definition get_for_channeling (t : Table) : list (Node * Node) :=
  let pair r := (proposal r, patron r) in
  match map pair (by_score (filter (fun r => 0 < score r) t)) with
  | [] => map pair (by_score t)
  | rv => rv
  end.

Definition remove_candidate (t : Table) (n : Node) : Table := filter (fun r => proposal r <> n) t.
Definition get_all (t : Table) : list (Node * Z) := map (fun r => (proposal r, score r)) (by_score t).
Definition get_all_with_patrons (t : Table) : list (Node * Node) := map (fun r => (proposal r, patron r)) (by_score t).
Definition is_candidate (t : Table) (n : Node) : bool := negb (length (filter (fun r => proposal r = n) t) =? 0)%nat.

(** *** Lemmas *)

Fixpoint score_at (t : Table) (n : Node) : option Z :=
  match t with
  | [] => None
  | r :: t => if decide (proposal r = n) then Some (score r) else score_at t n
  end.

Lemma score_at_None t n : score_at t n = None <-> n ∉ map proposal t.
Proof.
  induction t as [|r t IH]; simpl; [split; [intros _; apply not_elem_of_nil|done]|]. rewrite not_elem_of_cons, <- IH.
  case_decide; [split; [done|]; intros []; congruence|]. split; [split; congruence|by intros []].
Qed.

Lemma score_at_app t u n : score_at (t ++ u) n = match score_at t n with Some s => Some s | None => score_at u n end.
Proof. induction t as [|r t IH]; simpl; [done|]. by case_decide. Qed.

Lemma score_at_remove t m n : score_at (remove_candidate t m) n = if decide (m = n) then None else score_at t n.
Proof.
  unfold remove_candidate. induction t as [|r t IH]; [by case_decide|]. rewrite filter_cons.
  destruct (decide (proposal r = m)) as [Hm|Hm].
  - rewrite decide_False by tauto. rewrite IH. simpl. repeat case_decide; congruence.
  - rewrite decide_True by done. simpl. rewrite IH. repeat case_decide; congruence.
Qed.

Lemma score_at_add t m p n :
  score_at (add_candidate t m p) n = if decide (m = n) then Some (default 0 (score_at t n)) else score_at t n.
Proof.
  unfold add_candidate. destruct (decide (m ∈ map proposal t)) as [Hm|Hm].
  - case_decide as E; [|done]. subst. destruct (score_at t n) as [x|] eqn:Es; [done|]. by apply score_at_None in Es.
  - rewrite score_at_app. simpl. apply score_at_None in Hm. case_decide as E.
    + subst. by rewrite Hm.
    + by destruct (score_at t n).
Qed.

Lemma update_other t n d lo hi : n ∉ map proposal t -> update_score t n d lo hi = t.
Proof.
  unfold update_score. induction t as [|r t IH]; simpl; [done|]. rewrite not_elem_of_cons. intros [Hn Hr].
  rewrite decide_False by congruence. rewrite filter_cons_True by naive_solver. by rewrite IH.
Qed.

Lemma update_cons r t n d lo hi :
  update_score (r :: t) n d lo hi =
    (if decide (proposal r = n) then
       let s := Z.min hi (score r + d) in
       if s <? lo then [] else [{| proposal := proposal r; patron := patron r; score := s |}]
     else [r]) ++ update_score t n d lo hi.
Proof.
  unfold update_score. simpl. destruct (decide (proposal r = n)) as [Hn|Hn].
  - destruct (_ <? lo) eqn:E; to_prop; [rewrite filter_cons_False|rewrite filter_cons_True]; simpl; try done; [|lia].
    intros H. apply H. split; [done|lia].
  - rewrite filter_cons_True by tauto. done.
Qed.

Lemma score_at_update t m d lo hi n :
  NoDup (map proposal t) ->
  score_at (update_score t m d lo hi) n =
    if decide (m = n) then
      match score_at t n with
      | Some s => let s' := Z.min hi (s + d) in if s' <? lo then None else Some s'
      | None => None
      end
    else score_at t n.
Proof.
  induction t as [|r t IH]; intros Hnd; [by case_decide|]. apply NoDup_cons in Hnd as [Hr Hnd]. fold (map proposal t) in Hr.
  rewrite update_cons, score_at_app. simpl. destruct (decide (proposal r = m)) as [Hm|Hm].
  - subst m. rewrite update_other by done. destruct (decide (proposal r = n)) as [<-|Hn].
    + destruct (_ <? lo); simpl; [by apply score_at_None|by rewrite decide_True].
    + destruct (_ <? lo); simpl; [done|by rewrite decide_False].
  - rewrite (IH Hnd). simpl. destruct (decide (proposal r = n)) as [<-|Hn]; [|done]. by rewrite decide_False by congruence.
Qed.

Lemma NoDup_map_filter {A B} (f : A -> B) (P : A -> Prop) `{!forall x, Decision (P x)} l :
  NoDup (map f l) -> NoDup (map f (filter P l)).
Proof.
  induction l as [|x l IH]; [done|]. intros [Hx Hl]%NoDup_cons. rewrite filter_cons. destruct (decide (P x)); [|by apply IH].
  apply NoDup_cons. split; [|by apply IH]. intros Hin. apply Hx. apply list_elem_of_fmap in Hin as (y & -> & [_ Hy]%list_elem_of_filter).
  by apply list_elem_of_fmap_2.
Qed.

(** A row for each proposal, with a score in its range. *)
Record rows_ok (lo hi : Z) (t : Table) : Prop := {
  ro_unique : NoDup (map proposal t);
  ro_scores : Forall (fun r => lo <= score r <= hi) t
}.

Lemma filter_rows_ok lo hi t P `{!forall r, Decision (P r)} : rows_ok lo hi t -> rows_ok lo hi (filter P t).
Proof.
  intros [H1 H2]. split; [|rewrite Forall_forall in H2 |- *; intros r [_ Hr]%list_elem_of_filter; by apply H2].
  by apply NoDup_map_filter.
Qed.

Lemma add_rows_ok lo hi t n p : lo <= 0 <= hi -> rows_ok lo hi t -> rows_ok lo hi (add_candidate t n p).
Proof.
  intros Hb [H1 H2]. unfold add_candidate. case_decide as H; [done|]. split.
  - rewrite map_app. apply NoDup_app. split; [done|]. split; [|apply NoDup_singleton]. intros x Hx ->%list_elem_of_singleton. done.
  - apply Forall_app. split; [done|]. constructor; [simpl; lia|constructor].
Qed.

Lemma update_rows_ok lo hi t n d : rows_ok lo hi t -> rows_ok lo hi (update_score t n d lo hi).
Proof.
  intros [H1 H2]. unfold update_score. set (u := map _ t). assert (map proposal u = map proposal t) as Eu.
  { unfold u. rewrite map_map. apply map_ext. intros r. by case_decide. }
  split.
  - apply NoDup_map_filter. by rewrite Eu.
  - apply Forall_forall. intros r [Hr Hu]%list_elem_of_filter. unfold u in Hu. apply list_elem_of_fmap in Hu as (r0 & -> & Hu).
    rewrite Forall_forall in H2. specialize (H2 r0 Hu). simpl in Hr |- *.
    destruct (decide (proposal r0 = n)) as [Hn|Hn]; simpl in *; [|done].
    assert (~ Z.min hi (score r0 + d) < lo) by tauto. lia.
Qed.

End Secretary.

(** ** Whom to drop (EvictionPolicy.cpp) *)

Module EvictionPolicy.
Import Order.

(** [draw] is the random index; [None] is the failed assertion, or an index out of range. *)
Definition pick (pool : list Node) (verdicts : Node -> Verdict) (spliceable : gset Node) (draw : nat) : option Node :=
  let underperformers := filter (fun n => verdicts n = Underperformer) pool in
  let norecord_plain := filter (fun n => verdicts n = NoRecord /\ n ∉ spliceable) pool in
  let norecord_splice := filter (fun n => verdicts n = NoRecord /\ n ∈ spliceable) pool in
  let keepers := filter (fun n => verdicts n = Keeper) pool in
  let stratum := match underperformers with
                 | [] => match norecord_plain with
                         | [] => match norecord_splice with [] => keepers | l => l end
                         | l => l
                         end
                 | l => l
                 end in
  if decide (pool = []) then None else stratum !! draw.

(** How expendable a node is: the lower, the more. *)
Definition rank (verdicts : Node -> Verdict) (spliceable : gset Node) (n : Node) : nat :=
  match verdicts n with
  | Underperformer => 0
  | NoRecord => if decide (n ∈ spliceable) then 2 else 1
  | Keeper => 3
  end.

Lemma stratum_nil {A} (P : A -> Prop) `{forall x, Decision (P x)} l : filter P l = [] -> forall x, x ∈ l -> ~ P x.
Proof. intros E x Hx HP. assert (x ∈ filter P l) as Hf by (by apply list_elem_of_filter). rewrite E in Hf. by apply elem_of_nil in Hf. Qed.

Lemma pick_expendable pool verdicts spliceable draw n :
  pick pool verdicts spliceable draw = Some n ->
  n ∈ pool /\ forall m, m ∈ pool -> (rank verdicts spliceable n <= rank verdicts spliceable m)%nat.
Proof.
  unfold pick. case_decide as Hp; [done|]. intros H.
  assert (forall P : Node -> Prop, forall `{!forall x, Decision (P x)}, n ∈ filter P pool -> n ∈ pool /\ P n) as Hf
    by (intros P ? [? ?]%list_elem_of_filter; done).
  destruct (filter (fun n => verdicts n = Underperformer) pool) as [|u us] eqn:E1.
  2: { apply list_elem_of_lookup_2 in H. rewrite <- E1 in H. apply Hf in H as [Hn Hv]. split; [done|]. intros m _.
       unfold rank. rewrite Hv. lia. }
  pose proof (stratum_nil _ _ E1) as N1. destruct (filter (fun n => verdicts n = NoRecord /\ n ∉ spliceable) pool) as [|u us] eqn:E2.
  2: { apply list_elem_of_lookup_2 in H. rewrite <- E2 in H. apply Hf in H as [Hn [Hv Hs]]. split; [done|]. intros m Hm.
       specialize (N1 m Hm). simpl in N1. unfold rank. rewrite Hv, decide_False by done. destruct (verdicts m); [lia|case_decide; lia|done]. }
  pose proof (stratum_nil _ _ E2) as N2. destruct (filter (fun n => verdicts n = NoRecord /\ n ∈ spliceable) pool) as [|u us] eqn:E3.
  2: { apply list_elem_of_lookup_2 in H. rewrite <- E3 in H. apply Hf in H as [Hn [Hv Hs]]. split; [done|]. intros m Hm.
       specialize (N1 m Hm). specialize (N2 m Hm). simpl in N1, N2. unfold rank. rewrite Hv, decide_True by done.
       destruct (verdicts m); [lia|case_decide; [lia|tauto]|done]. }
  pose proof (stratum_nil _ _ E3) as N3. apply list_elem_of_lookup_2, Hf in H as [Hn Hv]. split; [done|]. intros m Hm.
  specialize (N1 m Hm). specialize (N2 m Hm). specialize (N3 m Hm). simpl in N1, N2, N3. unfold rank. rewrite Hv.
  destruct (verdicts m); [lia| |done]. case_decide; tauto.
Qed.

End EvictionPolicy.

(** ** Enough capacity (Janitor.cpp) *)

Module Janitor.
Import Secretary.

(** The dowsed amount decides; the dowser is asked for [min_channel]. *)
Definition acceptable (amount min_channel : Amount) : bool := negb (Amount.lt amount min_channel).

(** The nodes that a cleaning drops; [dowsed] are the amounts of the dowser, and a node that
    is null means that the candidate is retained. *)
Definition clean_up (t : Table) (dowsed : Node -> Node -> Amount) (min_channel : Amount) : list Node :=
  filter (fun n => n <> None)
    (map (fun '(candidate, patron) => if Amount.lt (dowsed candidate patron) min_channel then candidate else None)
         (get_all_with_patrons t)).

End Janitor.

(** ** The manager and the gumshoe (Manager.cpp, Gumshoe.cpp) *)

Module Investigator.
Import Order.
Import Secretary.

Definition min_good_candidates : nat := 8.
Definition max_candidates : nat := 32.
Definition min_score : Z := -3.
Definition max_score : Z := 24.
Definition max_investigation : nat := 8.

(** Threads, by what they do when they go on. *)
Inductive Thread :=
| T_init                                                  (* the transaction of [Init] *)
| T_remove (ns : list Node)                               (* a transaction that removes candidates *)
| T_dowse (n p : Node) (min_channel : Amount)             (* a proposal, after the dowser *)
| T_add (n p : Node)                                      (* its transaction *)
| T_patronless (n : Node)                                 (* a proposal without a patron *)
| T_clean                                                 (* the cleaning of the janitor *)
| T_hourly                                                (* the first transaction of each hour *)
| T_evict (nodes : list Node) (good : nat) (cases : list Node)  (* after the track records *)
| T_drop (victim : Node) (good : nat) (cases : list Node)
| T_continue (good : nat) (cases : list Node)
| T_investigate (n : Node)                                (* [investigate_core], after the [listpeers] *)
| T_report (n : Node) (success drop : bool).              (* the report, and the disconnection *)

Record State := {
  db : bool;
  offline : bool;
  min_channel : Amount;
  unmanaged : gset Node;
  cases : gset Node;
  table : Table;
  threads : list Thread
}.

Definition new_process (t : Table) : State :=
  {| db := false; offline := false; min_channel := 0; unmanaged := ∅; cases := ∅; table := t; threads := [] |}.

(** What is done to the table, and the messages. *)
Inductive Label :=
| Added (n : Node)
| Reported (n : Node) (success : bool)
| Removed (n : Node)
| Solicit
| Patronize (n : Node) (guide : list Node)
| RequestConnect (n : Node)
| Disconnect (n : Node).

Abbreviation result := (option (State * list Label)).

Definition with_table (s : State) (t : Table) : State :=
  {| db := db s; offline := offline s; min_channel := min_channel s; unmanaged := unmanaged s; cases := cases s;
     table := t; threads := threads s |}.
Definition with_cases (s : State) (c : gset Node) : State :=
  {| db := db s; offline := offline s; min_channel := min_channel s; unmanaged := unmanaged s; cases := c;
     table := table s; threads := threads s |}.
Definition with_unmanaged (s : State) (u : gset Node) : State :=
  {| db := db s; offline := offline s; min_channel := min_channel s; unmanaged := u; cases := cases s;
     table := table s; threads := threads s |}.
Definition with_threads (s : State) (ts : list Thread) : State :=
  {| db := db s; offline := offline s; min_channel := min_channel s; unmanaged := unmanaged s; cases := cases s;
     table := table s; threads := ts |}.
Definition spawn (s : State) (ts : list Thread) : State := with_threads s (threads s ++ ts).

Definition remove_all (s : State) (ns : list Node) : State * list Label :=
  (with_table s (foldl remove_candidate (table s) ns), map Removed ns).

(** *** Answers from outside *)

(** What a thread gets when it goes on: dowsed amounts, a shuffle, random numbers, verdicts,
    answers of the node, and whether we are online. *)
Record Input := {
  dowsed : Node -> Node -> Amount;
  shuffled : list Node;
  draw : nat;
  verdict : Node -> Verdict;
  listnodes : Node -> rpc;
  listpeers : rpc;
  online : bool
}.

(** The features of a node; every exception is caught. *)
Definition node_spliceable (answer : rpc) : option bool :=
  match answer with
  | RpcError _ => Some false
  | Result res =>
      match
        (let* ns := get (Some res) "nodes" in
         let* n := lift (jsize ns) in
         if (n =? 0)%nat then inl false
         else
           let* first := lift (jindex_nth ns 0) in
           let* h := has first "features" in
           if negb h then inl false
           else
             let* f_j := get first "features" in
             let* f := text f_j in
             inl (FeatureBit.feature_bit f 62 || FeatureBit.feature_bit f 63))
      with
      | inl b => Some b
      | inr Undefined => None
      | inr _ => Some false
      end
  end.

Fixpoint spliceable_among (listnodes : Node -> rpc) (nodes : list Node) : option (gset Node) :=
  match nodes with
  | [] => Some ∅
  | n :: nodes =>
      b ← node_spliceable (listnodes n);
      rest ← spliceable_among listnodes nodes;
      Some (if (b : bool) then {[n]} ∪ rest else rest)
  end.

Definition pick_eviction_victim (nodes : list Node) (i : Input) : option Node :=
  let norecord := filter (fun n => verdict i n = NoRecord) nodes in
  let have_underperformer := existsb (fun n => bool_decide (verdict i n = Underperformer)) nodes in
  if have_underperformer || bool_decide (norecord = []) then EvictionPolicy.pick nodes (verdict i) ∅ (draw i)
  else
    spliceable ← spliceable_among (listnodes i) norecord;
    EvictionPolicy.pick nodes (verdict i) spliceable (draw i).

Fixpoint any_connected (peers : list json) : outcome bool :=
  match peers with
  | [] => inl false
  | peer :: peers =>
      if negb (jis_object (Some peer)) then any_connected peers
      else
        let* h := has (Some peer) "connected" in
        if negb h then any_connected peers
        else
          let* c := get (Some peer) "connected" in
          let* b := flag c in
          if (b : bool) then inl true else any_connected peers
  end.

Definition is_connected (answer : rpc) : outcome bool :=
  match answer with
  | RpcError _ => inl false
  | Result res =>
      if negb (jis_object (Some res)) then inl false
      else
        let* h := has (Some res) "peers" in
        if negb h then inl false
        else
          let* peers := get (Some res) "peers" in
          match peers with Some (JArr l) => any_connected l | _ => inl false end
  end.

(** *** Threads *)

Definition solicit_some (s : State) (good : nat) (i : Input) : list Label :=
  if (good <? min_good_candidates)%nat then [Solicit] else if (draw i =? 0)%nat then [Solicit] else [].

Definition run_thread (s : State) (t : Thread) (i : Input) : result :=
  match t with
  | T_init =>
      let '(s, l) := remove_all s (base.elements (unmanaged s)) in
      let good := get_nonnegative_candidates_count (table s) in
      Some (s, l ++ if negb (offline s) && (good <? min_good_candidates)%nat then [Solicit] else [])
  | T_remove ns => Some (remove_all s ns)
  | T_dowse n p min =>
      if negb (Janitor.acceptable (dowsed i n p) min) then Some (s, [])
      else if db s then Some (spawn s [T_add n p], []) else None
  | T_add n p => Some (with_table s (add_candidate (table s) n p), [Added n])
  | T_patronless n =>
      if is_candidate (table s) n then Some (s, [])
      else Some (s, [Patronize n (map fst (get_for_channeling (table s)))])
  | T_clean => Some (remove_all s (Janitor.clean_up (table s) (dowsed i) (min_channel s)))
  | T_hourly =>
      let all := map fst (get_all (table s)) in
      let good := get_nonnegative_candidates_count (table s) in
      let c := get_for_investigation (table s) max_investigation (shuffled i) in
      Some (spawn s [if (length all <=? max_candidates)%nat then T_continue good c else T_evict all good c], [])
  | T_evict nodes good c =>
      victim ← pick_eviction_victim nodes i;
      Some (spawn s [T_drop victim good c], [])
  | T_drop victim good c =>
      let '(s, l) := remove_all s [victim] in
      Some (spawn s [T_continue good c], l)
  | T_continue good c =>
      let c := if online i then c else [] in
      Some (spawn s (map T_investigate c), solicit_some s good i)
  | T_investigate n =>
      match is_connected (listpeers i) with
      | inl true => Some (spawn s [T_report n true false], [])
      | inl false => Some (with_cases s ({[n]} ∪ cases s), [RequestConnect n])
      | inr Undefined => None
      | inr _ => Some (s, [])
      end
  | T_report n success drop =>
      Some (with_table s (update_score (table s) n (if success then 1 else -1) min_score max_score),
            Reported n success :: if (success && drop : bool) then [Disconnect n] else [])
  end.

(** *** Messages *)

Inductive Event :=
| E_init (offline : bool)
| E_settings (min_channel : Amount)
| E_unmanage (n : Node) (unmanage : bool)
| E_propose (n p : Node)
| E_patronless (n : Node)
| E_twice_daily
| E_hourly
| E_channeled (connected disconnected : gset Node)
| E_created (n : Node)
| E_connected (node : bytes) (success : bool)      (* [ResponseConnect] *)
| E_run (k : nat) (i : Input)
| E_restart.

(** The database must be there for a transaction: [None] is a null pointer. *)
Definition transact (s : State) (t : Thread) : result := if db s then Some (spawn s [t], []) else None.

Definition on_response_connect (s : State) (node : bytes) (success : bool) : result :=
  if negb (NodeId.valid_string node) then Some (s, [])
  else
    match NodeId.of_string node with
    | None => Some (s, [])
    | Some n =>
        if decide (n ∈ cases s) then Some (spawn (with_cases s (cases s ∖ {[n]})) [T_report n success true], [])
        else Some (s, [])
    end.

Definition step (s : State) (e : Event) : result :=
  match e with
  | E_init off =>
      Some ({| db := true; offline := off; min_channel := min_channel s; unmanaged := unmanaged s; cases := cases s;
               table := table s; threads := threads s ++ [T_init] |}, [])
  | E_settings m =>
      Some ({| db := db s; offline := offline s; min_channel := m; unmanaged := unmanaged s; cases := cases s;
               table := table s; threads := threads s |}, [])
  | E_unmanage n true =>
      let s := with_unmanaged s ({[n]} ∪ unmanaged s) in
      Some (if db s then spawn s [T_remove [n]] else s, [])
  | E_unmanage n false =>
      (* The iterator of a node that is not there is erased. *)
      if decide (n ∈ unmanaged s) then Some (with_unmanaged s (unmanaged s ∖ {[n]}), []) else None
  | E_propose n p =>
      if decide (n ∈ unmanaged s) then Some (s, []) else Some (spawn s [T_dowse n p (min_channel s)], [])
  | E_patronless n => transact s (T_patronless n)
  | E_twice_daily => if db s then Some (spawn s [T_clean], []) else Some (s, [])
  | E_hourly => if offline s then Some (s, []) else transact s T_hourly
  | E_channeled c d =>
      if db s then Some (spawn s [T_remove (base.elements c ++ base.elements d)], []) else Some (s, [])
  | E_created n => if db s then Some (spawn s [T_remove [n]], []) else Some (s, [])
  | E_connected node success => on_response_connect s node success
  | E_run k i =>
      match threads s !! k with
      | Some t => run_thread (with_threads s (delete k (threads s))) t i
      | None => Some (s, [])
      end
  | E_restart => Some (new_process (table s), [])
  end.

(** A restriction [Q] on what happens when. *)
Inductive reach (Q : State -> Event -> Prop) : list Label -> State -> Prop :=
| reach_start : reach Q [] (new_process [])
| reach_step tr s e s' l : reach Q tr s -> Q s e -> step s e = Some (s', l) -> reach Q (tr ++ l) s'.

Fixpoint run (s : State) (es : list Event) : result :=
  match es with
  | [] => Some (s, [])
  | e :: es =>
      '(s1, l1) ← step s e;
      '(s2, l2) ← run s1 es;
      Some (s2, l1 ++ l2)
  end.

Definition anything (s : State) (e : Event) : Prop := True.

Lemma investigation_run_reach es tr s s' l : reach anything tr s -> run s es = Some (s', l) -> reach anything (tr ++ l) s'.
Proof.
  revert tr s s' l. induction es as [|e es IH]; intros tr s s' l Hr; cbn [run].
  - intros [= <- <-]. by rewrite app_nil_r.
  - destruct (step s e) as [[s1 l1]|] eqn:E; [|done]. cbn [mbind option_bind].
    destruct (run s1 es) as [[s2 l2]|] eqn:E2; [|done]. cbn [mbind option_bind]. intros [= <- <-].
    rewrite app_assoc. eapply IH, E2. by eapply reach_step.
Qed.

(** ** Specifications *)

(** The score that a node has after what was done: a candidate starts with 0, reports raise
    or lower it, up to 24, and below -3 it is no candidate any more. *)
Definition account (n : Node) (o : option Z) (l : Label) : option Z :=
  match l with
  | Added m => if decide (m = n) then Some (default 0 o) else o
  | Reported m success =>
      if decide (m = n) then
        match o with
        | Some s => let s' := Z.min 24 (s + if success then 1 else -1) in if s' <? -3 then None else Some s'
        | None => None
        end
      else o
  | Removed m => if decide (m = n) then None else o
  | _ => o
  end.

Definition score_of (tr : list Label) (n : Node) : option Z := foldl (account n) None tr.

Definition requested (n : Node) (l : Label) : bool := match l with RequestConnect m => bool_decide (m = n) | _ => false end.
Definition disconnected (n : Node) (l : Label) : bool := match l with Disconnect m => bool_decide (m = n) | _ => false end.

Definition requests (n : Node) (tr : list Label) : nat := length (filter (fun l => requested n l = true) tr).
Definition disconnects (n : Node) (tr : list Label) : nat := length (filter (fun l => disconnected n l = true) tr).

(** Reports that will end with a disconnection, if they are of a success. *)
Definition drops (n : Node) (t : Thread) : bool :=
  match t with T_report m success true => success && bool_decide (m = n) | _ => false end.
Definition pending_drops (n : Node) (ts : list Thread) : nat := length (filter (fun t => drops n t = true) ts).

Record candidates_ok (tr : list Label) (s : State) : Prop := {
  ci_rows : rows_ok min_score max_score (table s);
  ci_scores : forall n, score_at (table s) n = score_of tr n;
  ci_connects : forall n,
    (disconnects n tr + pending_drops n (threads s) + (if decide (n ∈ cases s) then 1 else 0) <= requests n tr)%nat
}.

(** *** Lemmas *)

Lemma score_of_app tr l n : score_of (tr ++ l) n = foldl (account n) (score_of tr n) l.
Proof. apply foldl_app. Qed.

Lemma requests_app n tr l : requests n (tr ++ l) = (requests n tr + requests n l)%nat.
Proof. unfold requests. by rewrite filter_app, length_app. Qed.
Lemma disconnects_app n tr l : disconnects n (tr ++ l) = (disconnects n tr + disconnects n l)%nat.
Proof. unfold disconnects. by rewrite filter_app, length_app. Qed.
Lemma pending_app n ts us : pending_drops n (ts ++ us) = (pending_drops n ts + pending_drops n us)%nat.
Proof. unfold pending_drops. by rewrite filter_app, length_app. Qed.

Lemma pending_delete n k ts t :
  ts !! k = Some t -> pending_drops n ts = (Nat.b2n (drops n t) + pending_drops n (delete k ts))%nat.
Proof.
  intros H. unfold pending_drops. rewrite (filter_Permutation _ _ _ (delete_Permutation _ _ _ H)), filter_cons.
  by destruct (drops n t).
Qed.

(** Labels of removals, and quiet ones. *)
Lemma removed_labels tr t ns n :
  score_at t n = score_of tr n ->
  score_at (foldl remove_candidate t ns) n = score_of (tr ++ map Removed ns) n.
Proof.
  revert tr t. induction ns as [|m ns IH]; intros tr t H; [by rewrite app_nil_r|]. cbn [foldl map].
  change (Removed m :: map Removed ns) with ([Removed m] ++ map Removed ns). rewrite app_assoc. apply IH.
  rewrite score_at_remove, score_of_app, H. done.
Qed.

Lemma removed_rows t ns : rows_ok min_score max_score t -> rows_ok min_score max_score (foldl remove_candidate t ns).
Proof. revert t. induction ns as [|m ns IH]; intros t H; [done|]. apply IH. by apply filter_rows_ok. Qed.

Lemma removed_quiet n ns : requests n (map Removed ns) = 0%nat /\ disconnects n (map Removed ns) = 0%nat.
Proof. unfold requests, disconnects. by induction ns. Qed.

(** A step whose labels do nothing to scores or connections, and that leaves the table. *)
Definition quiet (l : list Label) : Prop :=
  Forall (fun x => match x with Solicit | Patronize _ _ => True | _ => False end) l.

Lemma quiet_labels l n tr :
  quiet l -> score_of (tr ++ l) n = score_of tr n /\ requests n (tr ++ l) = requests n tr
  /\ disconnects n (tr ++ l) = disconnects n tr.
Proof.
  intros H. rewrite score_of_app, requests_app, disconnects_app. generalize (score_of tr n). intros o.
  assert (foldl (account n) o l = o /\ requests n l = 0%nat /\ disconnects n l = 0%nat) as (-> & -> & ->); [|split_and!; [done|lia|lia]].
  revert o. induction H as [|x l Hx _ IH]; intros o; [done|]. simpl. destruct x; try done; apply IH.
Qed.

Lemma keep_candidates tr s s' l :
  candidates_ok tr s -> quiet l -> table s' = table s ->
  (forall n, pending_drops n (threads s') + (if decide (n ∈ cases s') then 1 else 0)
             <= pending_drops n (threads s) + (if decide (n ∈ cases s) then 1 else 0))%nat ->
  candidates_ok (tr ++ l) s'.
Proof.
  intros [H1 H2 H3] Hq Et Hc. split; rewrite ?Et; [done|..].
  - intros n. rewrite H2. symmetry. by apply quiet_labels.
  - intros n. destruct (quiet_labels l n tr Hq) as (_ & -> & ->). specialize (H3 n). specialize (Hc n). lia.
Qed.

Lemma remove_candidates_ok tr s ns :
  candidates_ok tr s -> candidates_ok (tr ++ (remove_all s ns).2) (remove_all s ns).1.
Proof.
  intros [H1 H2 H3]. split; simpl; [by apply removed_rows|intros n; by apply removed_labels|].
  intros n. rewrite requests_app, disconnects_app. destruct (removed_quiet n ns) as [-> ->]. specialize (H3 n). lia.
Qed.

(** A thread is taken from the list; its own pending disconnection is still counted. *)
Definition taken_ok (t : Thread) (tr : list Label) (s : State) : Prop :=
  rows_ok min_score max_score (table s) /\ (forall n, score_at (table s) n = score_of tr n)
  /\ forall n, (disconnects n tr + Nat.b2n (drops n t) + pending_drops n (threads s)
                + (if decide (n ∈ cases s) then 1 else 0) <= requests n tr)%nat.

Lemma taken_weaken t tr s : taken_ok t tr s -> candidates_ok tr s.
Proof. intros (H1 & H2 & H3). split; [done|done|]. intros n. specialize (H3 n). lia. Qed.

Lemma thread_candidates_ok tr s t i s' l :
  taken_ok t tr s -> run_thread s t i = Some (s', l) -> candidates_ok (tr ++ l) s'.
Proof.
  intros Ht. pose proof (taken_weaken _ _ _ Ht) as Hs.
  assert (forall ts, (forall n, pending_drops n ts = 0%nat) -> forall l, quiet l -> candidates_ok (tr ++ l) (spawn s ts)) as Hsp.
  { intros ts Hts l0 Hl. apply (keep_candidates _ s); [done|done|done|]. intros n. simpl. rewrite pending_app, Hts. lia. }
  assert (forall l, quiet l -> candidates_ok (tr ++ l) s) as Hk by (intros; by apply (keep_candidates _ s)).
  destruct t as [|ns|n p m|n p|n| | |nodes good c|v good c|good c|n|n b d]; cbn [run_thread].
  - pose proof (remove_candidates_ok tr s (base.elements (unmanaged s)) Hs) as H.
    destruct (remove_all s _) as [s1 l1]. simpl in H. intros [= <- <-]. rewrite app_assoc.
    apply (keep_candidates _ s1); [done| |done|done]. destruct (_ && _); by repeat constructor.
  - intros [= <- <-]. apply (remove_candidates_ok tr s ns Hs).
  - destruct (negb _); [intros [= <- <-]; apply Hk; constructor|]. destruct (db s); [|done]. intros [= <- <-].
    apply Hsp; [done|constructor].
  - intros [= <- <-]. destruct Hs as [H1 H2 H3]. split; simpl; [by apply add_rows_ok|..].
    + intros n'. rewrite score_at_add, score_of_app, H2. simpl. by destruct (decide (n = n')).
    + intros n'. rewrite requests_app, disconnects_app. simpl. specialize (H3 n'). simpl in H3.
      change (requests n' [Added n]) with 0%nat. change (disconnects n' [Added n]) with 0%nat. lia.
  - destruct (is_candidate _ _); intros [= <- <-]; apply Hk; by repeat constructor.
  - intros [= <- <-]. apply (remove_candidates_ok tr s _ Hs).
  - intros [= <- <-]. apply Hsp; [|constructor]. intros n. by destruct (_ <=? _)%nat.
  - destruct (pick_eviction_victim nodes i) as [v|]; [|done]. cbn [mbind option_bind]. intros [= <- <-]. apply Hsp; [done|constructor].
  - pose proof (remove_candidates_ok tr s [v] Hs) as H. destruct (remove_all s [v]) as [s1 l1]. simpl in H.
    intros [= <- <-]. rewrite <- (app_nil_r (tr ++ l1)). apply (keep_candidates _ s1); [done|constructor|done|].
    intros n. simpl. rewrite pending_app. change (pending_drops n [T_continue good c]) with 0%nat. lia.
  - intros [= <- <-]. apply Hsp; [|unfold solicit_some; repeat destruct (_ <? _)%nat; by repeat case_match; repeat constructor].
    intros n. generalize (if online i then c else []). intros c'. unfold pending_drops. by induction c'.
  - destruct (is_connected _) as [[|]|[]]; intros E; try done; injection E as <- <-.
    + apply Hsp; [done|constructor].
    + destruct Hs as [H1 H2 H3]. split; simpl; [done|..].
      * intros n'. rewrite score_of_app, H2. done.
      * intros n'. rewrite requests_app, disconnects_app. specialize (H3 n'). change (disconnects n' [RequestConnect n]) with 0%nat.
        unfold requests at 2. simpl. rewrite filter_cons. simpl. destruct (decide (n = n')) as [->|Hn].
        -- rewrite bool_decide_true by done. simpl. destruct (decide (n' ∈ {[n']} ∪ cases s)); destruct (decide (n' ∈ cases s)); lia.
        -- rewrite bool_decide_false by done. simpl. destruct (decide (n' ∈ {[n]} ∪ cases s)) as [Hin|]; destruct (decide (n' ∈ cases s)); try lia.
           exfalso. set_solver.
    + apply Hk; constructor.
    + apply Hk; constructor.
  - intros [= <- <-]. destruct Ht as (H1 & H2 & H3). split; simpl; [by apply update_rows_ok|..].
    + intros n'. rewrite score_of_app, score_at_update, H2 by apply H1. simpl. destruct b, d; simpl; done.
    + intros n'. rewrite requests_app, disconnects_app. specialize (H3 n'). simpl in H3.
      unfold requests at 2, disconnects at 2. destruct b, d; simpl in *; repeat rewrite filter_cons; simpl;
        try (destruct (bool_decide (n = n'))); simpl in *; lia.
Qed.

Lemma event_candidates_ok tr s e s' l :
  candidates_ok tr s -> step s e = Some (s', l) -> candidates_ok (tr ++ l) s'.
Proof.
  intros Hs.
  assert (forall ts, (forall n, pending_drops n ts = 0%nat) -> candidates_ok (tr ++ []) (spawn s ts)) as Hsp.
  { intros ts Hts. apply (keep_candidates _ s); [done|constructor|done|]. intros n. simpl. rewrite pending_app, Hts. lia. }
  assert (candidates_ok (tr ++ []) s) as Hk by (by rewrite app_nil_r).
  destruct e as [off|m|n u|n p|n| | |c d|n|node b|k i|]; cbn [step]; unfold transact.
  - intros [= <- <-]. apply (keep_candidates _ s); [done|constructor|done|]. intros n. simpl. rewrite pending_app.
    change (pending_drops n [T_init]) with 0%nat. lia.
  - intros [= <- <-]. by apply (keep_candidates _ s); [|constructor|..].
  - destruct u; [|case_decide; [|done]]; intros [= <- <-].
    + simpl. destruct (db s); (apply (keep_candidates _ s); [done|constructor|done|]); intros n'; simpl; [|lia].
      rewrite pending_app. change (pending_drops n' [T_remove [n]]) with 0%nat. lia.
    + by apply (keep_candidates _ s); [|constructor|..].
  - case_decide; intros [= <- <-]; [done|]. by apply Hsp.
  - destruct (db s); [|done]. intros [= <- <-]. by apply Hsp.
  - destruct (db s); intros [= <- <-]; [by apply Hsp|done].
  - destruct (offline s); [intros [= <- <-]; done|]. destruct (db s); [|done]. intros [= <- <-]. by apply Hsp.
  - destruct (db s); intros [= <- <-]; [by apply Hsp|done].
  - destruct (db s); intros [= <- <-]; [by apply Hsp|done].
  - unfold on_response_connect. destruct (negb _); [intros [= <- <-]; done|].
    destruct (NodeId.of_string node) as [n|]; [|intros [= <- <-]; done]. destruct (decide (n ∈ cases s)) as [Hn|Hn]; intros [= <- <-]; [|done].
    apply (keep_candidates _ s); [done|constructor|done|]. intros n'. simpl. rewrite pending_app.
    unfold pending_drops at 2. rewrite filter_cons. simpl. destruct (decide (n = n')) as [->|Hne].
    + rewrite bool_decide_true by done. rewrite (decide_False (P := n' ∈ cases s ∖ _)) by set_solver. rewrite (decide_True (P := n' ∈ cases s)) by done.
      destruct b; simpl; lia.
    + rewrite bool_decide_false by done. rewrite andb_false_r. simpl.
      destruct (decide (n' ∈ cases s ∖ {[n]})) as [H1|H1]; destruct (decide (n' ∈ cases s)) as [H2|H2]; try lia. exfalso. set_solver.
  - destruct (threads s !! k) as [t|] eqn:E; [|intros [= <- <-]; done]. apply (thread_candidates_ok _ _ t).
    destruct Hs as [H1 H2 H3]. split; [done|]. split; [done|]. intros n. specialize (H3 n). simpl. rewrite (pending_delete n k _ t E) in H3. lia.
  - intros [= <- <-]. apply (keep_candidates _ s); [done|constructor|done|]. intros n. simpl.
    rewrite decide_False by set_solver. change (pending_drops n []) with 0%nat. lia.
Qed.

Lemma reach_candidates_ok Q tr s : reach Q tr s -> candidates_ok tr s.
Proof.
  induction 1; [|by eapply event_candidates_ok]. split; simpl; [split; constructor|done|].
  intros n. rewrite decide_False by set_solver. done.
Qed.

(** *** Unmanaged nodes *)

(** A node is not put under "open" while a proposal of it is on its way. *)
Definition proposed (n : Node) (t : Thread) : Prop :=
  match t with T_dowse m _ _ | T_add m _ => m = n | _ => False end.

Definition careful (s : State) (e : Event) : Prop :=
  match e with E_unmanage n true => Forall (fun t => ~ proposed n t) (threads s) | _ => True end.

Definition removes (n : Node) (t : Thread) : Prop :=
  match t with T_remove ns => n ∈ ns | T_init => True | _ => False end.

Record unmanaged_ok (s : State) : Prop := {
  uo_proposed : forall n t, n ∈ unmanaged s -> t ∈ threads s -> ~ proposed n t;
  uo_table : forall n, n ∈ unmanaged s -> n ∈ map proposal (table s) -> db s = true ->
    exists t, t ∈ threads s /\ removes n t
}.

Lemma removed_proposals t ns n : n ∈ map proposal (foldl remove_candidate t ns) -> n ∈ map proposal t /\ n ∉ ns.
Proof.
  revert t. induction ns as [|m ns IH]; intros t; simpl; [intros H; split; [done|apply not_elem_of_nil]|].
  intros [H1 H2]%IH. assert (score_at (remove_candidate t m) n <> None) as Hs by (by rewrite score_at_None; intros ?).
  rewrite score_at_remove in Hs. case_decide as E; [done|]. split; [|by apply not_elem_of_cons].
  destruct (decide (n ∈ map proposal t)) as [|Hn]; [done|]. by apply score_at_None in Hn.
Qed.

Lemma updated_proposals t m d lo hi n : n ∈ map proposal (update_score t m d lo hi) -> n ∈ map proposal t.
Proof.
  unfold update_score. intros (r & -> & [_ Hr]%list_elem_of_filter)%list_elem_of_fmap.
  apply list_elem_of_fmap in Hr as (r0 & -> & Hr). apply list_elem_of_fmap. exists r0. by case_decide.
Qed.

(** Threads are added that propose no unmanaged node, and the table does not grow. *)
Lemma unmanaged_keep s s' :
  unmanaged_ok s -> unmanaged s' = unmanaged s -> (db s' = true -> db s = true) ->
  (forall t, t ∈ threads s' -> t ∈ threads s \/ forall n, n ∈ unmanaged s -> ~ proposed n t) ->
  (forall t, t ∈ threads s -> t ∈ threads s') ->
  (forall n, n ∈ map proposal (table s') -> n ∈ map proposal (table s)) -> unmanaged_ok s'.
Proof.
  intros [H1 H2] Eu Ed Ht Ht' Hn. split; rewrite Eu.
  - intros n t Hu Hin. destruct (Ht t Hin) as [|H]; [by apply H1|by apply H].
  - intros n Hu Hin Hd. destruct (H2 n Hu (Hn n Hin) (Ed Hd)) as (t & Hti & Hr). exists t. auto.
Qed.

Lemma unmanaged_spawn s ts :
  unmanaged_ok s -> (forall t n, t ∈ ts -> n ∈ unmanaged s -> ~ proposed n t) -> unmanaged_ok (spawn s ts).
Proof.
  intros Hs Ht. apply (unmanaged_keep s); simpl; [done|done|done|..|done].
  - intros t [H|H]%elem_of_app; [by left|right]. intros n. by apply Ht.
  - intros t H. apply elem_of_app. by left.
Qed.

(** A thread is taken that removes the nodes [ns]. *)
Definition removing (s : State) (ns : gset Node) : Prop :=
  (forall n t, n ∈ unmanaged s -> t ∈ threads s -> ~ proposed n t)
  /\ forall n, n ∈ unmanaged s -> n ∈ map proposal (table s) -> db s = true ->
       n ∈ ns \/ exists t, t ∈ threads s /\ removes n t.

Lemma removing_done s ns : removing s (list_to_set ns) -> unmanaged_ok (remove_all s ns).1.
Proof.
  intros [H1 H2]. split; simpl; [done|]. intros n Hu [Hin Hns]%removed_proposals Hd.
  destruct (H2 n Hu Hin Hd) as [H|H]; [|done]. by apply elem_of_list_to_set in H.
Qed.

Lemma thread_unmanaged_ok s t i s' l :
  removing s (match t with T_remove ns => list_to_set ns | T_init => unmanaged s | _ => ∅ end) ->
  (forall n, n ∈ unmanaged s -> ~ proposed n t) ->
  run_thread s t i = Some (s', l) -> unmanaged_ok s'.
Proof.
  intros Hrm Hp.
  assert (match t with T_remove _ | T_init => True | _ => unmanaged_ok s end) as Hs.
  { destruct Hrm as [H1 H2]. destruct t; try done; (split; [done|]); intros n' Hu Hin Hd;
      destruct (H2 n' Hu Hin Hd) as [H|H]; [set_solver|done..]. }
  assert (unmanaged_ok s -> forall ns, unmanaged_ok (remove_all s ns).1) as Hra.
  { intros [H1 H2] ns. apply removing_done. split; [done|]. intros n Hu Hin Hd. right. by apply H2. }
  destruct t as [|ns|n p m|n p|n| | |nodes good c|v good c|good c|n|n b d]; cbn [run_thread] in *.
  - assert (unmanaged_ok (remove_all s (base.elements (unmanaged s))).1) as H.
    { apply removing_done. destruct Hrm as [H1 H2]. split; [done|]. intros n Hu Hin Hd. left. by rewrite list_to_set_elements_L. }
    destruct (remove_all s _) as [s1 l1]. by intros [= <- _].
  - intros [= <- _]. by apply removing_done.
  - destruct (negb _); [by intros [= <- _]|]. destruct (db s); [|done]. intros [= <- _].
    apply unmanaged_spawn; [done|]. intros t n' ->%list_elem_of_singleton Hu. by apply Hp.
  - intros [= <- _]. destruct Hs as [H1 H2]. split; simpl; [done|]. intros n' Hu Hin Hd. apply H2; [done| |done].
    unfold add_candidate in Hin. case_decide; [done|]. rewrite map_app in Hin. apply elem_of_app in Hin as [|Hin]; [done|].
    apply list_elem_of_singleton in Hin as ->. by destruct (Hp n Hu).
  - destruct (is_candidate _ _); by intros [= <- _].
  - intros [= <- _]. by apply Hra.
  - intros [= <- _]. apply unmanaged_spawn; [done|]. intros t n' ->%list_elem_of_singleton _. destruct (length _ <=? _)%nat; simpl; tauto.
  - destruct (pick_eviction_victim nodes i) as [v|]; [|done]. cbn [mbind option_bind]. intros [= <- _].
    apply unmanaged_spawn; [done|]. intros t n' ->%list_elem_of_singleton _; simpl; tauto.
  - specialize (Hra Hs [v]). destruct (remove_all s [v]) as [s1 l1]. simpl in Hra. intros [= <- _].
    apply unmanaged_spawn; [done|]. intros t n' ->%list_elem_of_singleton _; simpl; tauto.
  - intros [= <- _]. apply unmanaged_spawn; [done|]. intros t n' (x & -> & _)%list_elem_of_fmap _. simpl. tauto.
  - destruct (is_connected _) as [[|]|[]]; intros E; try done; injection E as <- _; try done.
    + apply unmanaged_spawn; [done|]. intros t n' ->%list_elem_of_singleton _; simpl; tauto.
    + by apply (unmanaged_keep s); [| | |left| |].
  - intros [= <- _]. apply (unmanaged_keep s); simpl; [done|done|done|by left|done|]. intros n'. apply updated_proposals.
Qed.

Lemma event_unmanaged_ok s e s' l : unmanaged_ok s -> careful s e -> step s e = Some (s', l) -> unmanaged_ok s'.
Proof.
  intros Hs Hc.
  assert (forall t, (forall n, ~ proposed n t) -> unmanaged_ok (spawn s [t])) as Hsp.
  { intros t Ht. apply unmanaged_spawn; [done|]. intros t' n ->%list_elem_of_singleton _. apply Ht. }
  destruct e as [off|m|n u|n p|n| | |c d|n|node b|k i|]; cbn [step]; unfold transact.
  - intros [= <- _]. destruct Hs as [H1 H2]. split; simpl.
    + intros n t Hu [Ht| ->%list_elem_of_singleton]%elem_of_app; [by apply H1|simpl; tauto].
    + intros n Hu Hin _. exists T_init. split; [|done]. apply elem_of_app. right. by apply list_elem_of_singleton.
  - intros [= <- _]. by apply (unmanaged_keep s); [| | |left| |].
  - destruct u; [|case_decide; [|done]]; intros [= <- _].
    + simpl in Hc. rewrite Forall_forall in Hc. destruct Hs as [H1 H2]. simpl. destruct (db s) eqn:Ed; split; simpl; rewrite ?Ed; try done.
      * intros n' t [->%elem_of_singleton|Hu]%elem_of_union [Ht| ->%list_elem_of_singleton]%elem_of_app;
          try (simpl; tauto); [by apply Hc|by apply H1].
      * intros n' [->%elem_of_singleton|Hu]%elem_of_union Hin _.
        -- exists (T_remove [n]). split; [apply elem_of_app; right; by apply list_elem_of_singleton|]. simpl. by apply list_elem_of_singleton.
        -- destruct (H2 n' Hu Hin eq_refl) as (t & Ht & Hr). exists t. split; [apply elem_of_app; by left|done].
      * intros n' t [->%elem_of_singleton|Hu]%elem_of_union Ht; [by apply Hc|by apply H1].
    + destruct Hs as [H1 H2]. split; simpl.
      * intros n' t Hu Ht. apply H1; [set_solver|done].
      * intros n' Hu. apply H2. set_solver.
  - case_decide as Hn; intros [= <- _]; [done|]. apply unmanaged_spawn; [done|].
    intros t n' ->%list_elem_of_singleton Hu. simpl. by intros ->.
  - destruct (db s); [|done]. intros [= <- _]. apply Hsp; simpl; tauto.
  - destruct (db s); intros [= <- _]; [|done]. apply Hsp; simpl; tauto.
  - destruct (offline s); [by intros [= <- _]|]. destruct (db s); [|done]. intros [= <- _]. apply Hsp; simpl; tauto.
  - destruct (db s); intros [= <- _]; [|done]. apply Hsp; simpl; tauto.
  - destruct (db s); intros [= <- _]; [|done]. apply Hsp; simpl; tauto.
  - unfold on_response_connect. destruct (negb _); [by intros [= <- _]|].
    destruct (NodeId.of_string node) as [n|]; [|by intros [= <- _]]. case_decide; intros [= <- _]; [|done].
    apply unmanaged_spawn; [by apply (unmanaged_keep s); [| | |left| |]|]. intros t n' ->%list_elem_of_singleton _; simpl; tauto.
  - destruct (threads s !! k) as [t|] eqn:E; [|by intros [= <- _]]. destruct Hs as [H1 H2].
    assert (forall t', t' ∈ threads s <-> t' = t \/ t' ∈ delete k (threads s)) as Hd.
    { intros t'. rewrite (delete_Permutation _ _ _ E) at 1. by rewrite elem_of_cons. }
    apply thread_unmanaged_ok.
    + split; simpl.
      * intros n' t' Hu Ht. apply H1; [done|]. apply Hd. by right.
      * intros n' Hu Hin Hdb. destruct (H2 n' Hu Hin Hdb) as (t' & [-> |Ht]%Hd & Hr); [left|right; by exists t'].
        destruct t; simpl in Hr; try done. by apply elem_of_list_to_set.
    + simpl. intros n' Hu. apply H1; [done|]. apply Hd. by left.
  - intros [= <- _]. split; simpl; [intros n t Hu; set_solver|done].
Qed.

Lemma reach_unmanaged_ok tr s : reach careful tr s -> unmanaged_ok s.
Proof. induction 1; [|by eapply event_unmanaged_ok]. split; simpl; [intros n t Hu; set_solver|done]. Qed.

(** *** Victims *)

Lemma spliceable_among_spec f l S :
  spliceable_among f l = Some S -> forall m, m ∈ S <-> m ∈ l /\ node_spliceable (f m) = Some true.
Proof.
  revert S. induction l as [|n l IH]; intros S; simpl; [intros [= <-] m; set_solver|].
  destruct (node_spliceable (f n)) as [b|] eqn:En; [|done]. cbn [mbind option_bind].
  destruct (spliceable_among f l) as [S0|]; [|done]. cbn [mbind option_bind]. intros [= <-] m. specialize (IH S0 eq_refl m).
  rewrite elem_of_cons. destruct b; [rewrite elem_of_union, elem_of_singleton|]; rewrite IH; naive_solver.
Qed.

(** The rank does not depend on splicing but for nodes without a record. *)
Lemma rank_ext v S S' n : (v n = NoRecord -> n ∈ S <-> n ∈ S') -> EvictionPolicy.rank v S n = EvictionPolicy.rank v S' n.
Proof.
  intros H. unfold EvictionPolicy.rank. destruct (v n); [done| |done]. specialize (H eq_refl).
  destruct (decide (n ∈ S)), (decide (n ∈ S')); tauto.
Qed.

(** ** Properties *)

(** C16: whatever the order of the threads, the table holds each candidate once, with the score
    that reports and removals give it: it starts at 0, rises by one when the node is found
    online, up to 24, falls by one when it is not, and below -3 the candidate is dropped. *)
Theorem candidates_ledger Q tr s :
  reach Q tr s ->
  NoDup (map proposal (table s)) /\ Forall (fun r => -3 <= score r <= 24) (table s)
  /\ forall n, score_at (table s) n = score_of tr n.
Proof. intros H. apply reach_candidates_ok in H as [[H1 H2] H3 _]. done. Qed.

(** The gumshoe only drops connections that it asked for: for each node, there are at most
    as many disconnections as requests to connect, which are made when the node is not
    connected. *)
Theorem gumshoe_drops_its_own Q tr s n : reach Q tr s -> (disconnects n tr <= requests n tr)%nat.
Proof. intros H. apply reach_candidates_ok in H as [_ _ H]. specialize (H n). lia. Qed.

(** A node that the operator excludes from opening is no candidate, once the removals
    that are under way are done, if it is not excluded while a proposal of it is dowsed. *)
Theorem unmanaged_are_no_candidates tr s n :
  reach careful tr s -> n ∈ unmanaged s -> db s = true -> (forall t, t ∈ threads s -> ~ removes n t) ->
  score_at (table s) n = None.
Proof.
  intros Hr Hu Hd Hn. apply score_at_None. intros Hin. destruct (uo_table _ (reach_unmanaged_ok _ _ Hr) n Hu Hin Hd) as (t & Ht & H).
  by destruct (Hn t Ht).
Qed.

(** A node that is excluded while its proposal is dowsed becomes a candidate after its
    removal, and stays one: the proposal is not checked again. *)
Theorem unmanaged_race :
  exists tr s n, reach anything tr s /\ threads s = [] /\ n ∈ unmanaged s /\ score_at (table s) n = Some 0.
Proof.
  set (n := Some [2] : Node). set (i := {| dowsed := fun _ _ => 1; shuffled := []; draw := 0; verdict := fun _ => NoRecord;
    listnodes := fun _ => RpcError (JArr []); listpeers := RpcError (JArr []); online := true |}).
  assert (exists s l, run (new_process []) [E_init true; E_run 0 i; E_propose n n; E_unmanage n true; E_run 1 i; E_run 0 i; E_run 0 i]
          = Some (s, l) /\ threads s = [] /\ n ∈ unmanaged s /\ score_at (table s) n = Some 0) as (s & l & E & H).
  { do 2 eexists. split; [vm_compute; reflexivity|]. split; [reflexivity|]. split; [|reflexivity]. by vm_compute. }
  exists l, s, n. split; [|done]. change l with ([] ++ l). eapply investigation_run_reach; [constructor|exact E].
Qed.

(** When there are too many candidates, the one that is dropped is the most expendable:
    an underperformer if there is one, else a node without a record, if possible one that
    does not splice, and a node that earned its keep only among such. *)
Theorem victims_are_expendable (nodes : list Node) (i : Input) (n : Node) (spliceable : gset Node) :
  (forall m : Node, m ∈ nodes -> node_spliceable (listnodes i m) = Some (bool_decide (m ∈ spliceable))) ->
  pick_eviction_victim nodes i = Some n ->
  n ∈ nodes /\ forall m, m ∈ nodes ->
    (EvictionPolicy.rank (verdict i) spliceable n <= EvictionPolicy.rank (verdict i) spliceable m)%nat.
Proof.
  intros Hsp. unfold pick_eviction_victim. destruct (existsb _ nodes) eqn:Eu; cbn [orb].
  - intros H. apply EvictionPolicy.pick_expendable in H as [Hn Hr]. split; [done|]. intros m Hm.
    apply existsb_exists in Eu as (x & Hx%list_elem_of_In & Ex%bool_decide_eq_true). specialize (Hr x Hx).
    unfold EvictionPolicy.rank in *. rewrite Ex in Hr. destruct (verdict i n); [lia|case_decide; lia|lia].
  - case_bool_decide as En.
    + intros H. apply EvictionPolicy.pick_expendable in H as [Hn Hr]. split; [done|]. intros m Hm.
      pose proof (EvictionPolicy.stratum_nil _ _ En) as Hnone. specialize (Hr m Hm).
      rewrite !(rank_ext _ spliceable ∅); [done|intros H; by destruct (Hnone m Hm)|intros H; by destruct (Hnone n Hn)].
    + destruct (spliceable_among _ _) as [S|] eqn:ES; [|done]. cbn [mbind option_bind]. intros H.
      apply EvictionPolicy.pick_expendable in H as [Hn Hr]. split; [done|]. intros m Hm. specialize (Hr m Hm).
      assert (forall x, x ∈ nodes -> verdict i x = NoRecord -> x ∈ spliceable <-> x ∈ S) as Hx.
      { intros x Hx Hv. rewrite (spliceable_among_spec _ _ _ ES), list_elem_of_filter, (Hsp x Hx). case_bool_decide; naive_solver. }
      rewrite !(rank_ext _ spliceable S); auto.
Qed.

(** The candidates for channels come by falling scores; those without a positive score
    only where no candidate has one. *)
Theorem channeling_order (t : Table) :
  let good := filter (fun r => 0 < score r) t in
  let pair r := (proposal r, patron r) in
  exists rows, get_for_channeling t = map pair rows /\ rows ≡ₚ (if decide (good = []) then t else good)
  /\ StronglySorted better rows.
Proof.
  cbv zeta. unfold get_for_channeling. set (good := filter (fun r => 0 < score r) t).
  assert (forall l, by_score l ≡ₚ l /\ StronglySorted better (by_score l)) as Hs.
  { intros l. split; [apply merge_sort_Permutation|]. apply StronglySorted_merge_sort; apply _. }
  destruct (Hs good) as [Hp Hg]. destruct (decide (good = [])) as [E|E].
  - rewrite E. simpl. exists (by_score t). split; [done|]. apply Hs.
  - exists (by_score good). split; [|done]. destruct (by_score good) as [|r rs] eqn:Eb; [|done].
    symmetry in Hp. apply Permutation_nil_r in Hp. done.
Qed.

(** With capacity [cap] from a proposed node to its patron, the janitor accepts the
    proposal only if a channel of the minimal size can be used, and does so when the whole probe flows. *)
Theorem accepted_candidates_have_capacity node cap mc a p :
  Dowser.exact_flow node cap -> 1000 <= mc < 2 ^ 51 -> Dowser.probe_amount_of mc = Some p ->
  Dowser.run node mc 0 = Some (inl a) ->
  (Janitor.acceptable a mc = true -> mc <= cap) /\ (p <= cap -> Janitor.acceptable a mc = true).
Proof.
  intros Hn Hm Ep Er. unfold Janitor.acceptable, Amount.lt. rewrite negb_true_iff, Z.ltb_ge.
  destruct (Dowser.dowse_estimate node cap mc 0 Hn) as (p' & f & a' & Ep' & _ & Er' & H1 & H2 & H3); [lia|lia|].
  rewrite Ep in Ep'. injection Ep' as <-. rewrite Er in Er'. injection Er' as <-.
  destruct (Dowser.target_reached mc) as (p' & _ & Ep' & _ & Hp & _); [lia|]. rewrite Ep in Ep'. injection Ep' as <-.
  split; [|intros H; by apply H2].
  intros Ha. destruct (Z_lt_le_dec cap f) as [Hc|Hc]; [rewrite H1 in Ha by done; lia|].
  destruct (Z_lt_le_dec cap p) as [Hc'|Hc']; [|lia]. destruct H3 as (d & Hd & _ & Hb); lia.
Qed.

(** *** Samples *)

Definition demo_id : bytes := lit "02" ++ repeat (chr "0") 64.
Definition demo_candidate : Node := default None (NodeId.of_string demo_id).

Definition demo_input : Input :=
  {| dowsed := fun _ _ => 1; shuffled := []; draw := 0; verdict := fun _ => NoRecord;
     listnodes := fun _ => RpcError (JArr []); listpeers := RpcError (JArr []); online := true |}.

(** A candidate is proposed, found online, and its operator excluded. *)
Definition demo_events : list Event :=
  [E_init false; E_run 0 demo_input; E_propose demo_candidate None; E_run 0 demo_input; E_run 0 demo_input;
   E_hourly; E_run 0 demo_input; E_run 0 demo_input; E_run 0 demo_input; E_connected demo_id true; E_run 0 demo_input].

Definition demo_trace : list Label :=
  [Solicit; Added demo_candidate; Solicit; RequestConnect demo_candidate; Reported demo_candidate true; Disconnect demo_candidate].

Lemma investigation_reach : exists s, reach anything demo_trace s /\ score_at (table s) demo_candidate = Some 1.
Proof.
  assert (exists s, run (new_process []) demo_events = Some (s, demo_trace) /\ score_at (table s) demo_candidate = Some 1)
    as (s & E & H) by (eexists; split; vm_compute; reflexivity).
  exists s. split; [|done]. change demo_trace with ([] ++ demo_trace). eapply investigation_run_reach; [constructor|exact E].
Qed.

Lemma candidates_ledger_witness : exists s, score_at (table s) demo_candidate = score_of demo_trace demo_candidate.
Proof.
  destruct investigation_reach as (s & Hr & _). exists s. apply (candidates_ledger _ _ _ Hr).
Defined.

Lemma gumshoe_drops_its_own_witness : (disconnects demo_candidate demo_trace <= requests demo_candidate demo_trace)%nat.
Proof. destruct investigation_reach as (s & Hr & _). exact (gumshoe_drops_its_own _ _ _ demo_candidate Hr). Defined.

Lemma unmanaged_are_no_candidates_witness :
  exists tr s, reach careful tr s /\ demo_candidate ∈ unmanaged s /\ score_at (table s) demo_candidate = None.
Proof.
  set (s1 := {| db := false; offline := false; min_channel := 0; unmanaged := {[demo_candidate]} ∪ ∅; cases := ∅; table := []; threads := [] |}).
  set (s2 := {| db := true; offline := true; min_channel := 0; unmanaged := {[demo_candidate]} ∪ ∅; cases := ∅; table := []; threads := [T_init] |}).
  assert (reach careful ([] ++ []) s1) as H1 by (eapply (reach_step _ _ _ (E_unmanage demo_candidate true)); [constructor|constructor|reflexivity]).
  assert (reach careful ([] ++ []) s2) as H2 by (eapply (reach_step _ _ _ (E_init true)); [exact H1|exact I|reflexivity]).
  assert (exists s3 l, step s2 (E_run 0 demo_input) = Some (s3, l) /\ unmanaged s3 = unmanaged s2 /\ db s3 = true /\ threads s3 = [])
    as (s3 & l & E & Eu & Ed & Et) by (do 2 eexists; split; [reflexivity|]; repeat split; reflexivity).
  assert (reach careful ([] ++ l) s3) as H3 by (eapply (reach_step _ _ _ (E_run 0 demo_input)); [exact H2|exact I|exact E]).
  exists l, s3. split; [exact H3|]. assert (demo_candidate ∈ unmanaged s3) as Hu by (rewrite Eu; set_solver).
  split; [exact Hu|]. apply (unmanaged_are_no_candidates _ _ demo_candidate H3 Hu Ed). rewrite Et.
  intros t Ht. exfalso. exact (not_elem_of_nil _ Ht).
Defined.

(** The underperformer among three. *)
Lemma victims_are_expendable_witness :
  let v n := if decide (n = Some [2]) then Underperformer else Keeper in
  let i := {| dowsed := fun _ _ => 1; shuffled := []; draw := 0; verdict := v; listnodes := fun _ => RpcError (JArr []);
              listpeers := RpcError (JArr []); online := true |} in
  pick_eviction_victim [Some [1]; Some [2]; Some [3]] i = Some (Some [2])
  /\ (EvictionPolicy.rank v ∅ (Some [2%Z]) <= EvictionPolicy.rank v ∅ (Some [1%Z]))%nat.
Proof.
  cbv zeta. split; [vm_compute; reflexivity|].
  refine (proj2 (victims_are_expendable [Some [1]; Some [2]; Some [3]]
    {| dowsed := fun _ _ => 1; shuffled := []; draw := 0; verdict := fun n => if decide (n = Some [2]) then Underperformer else Keeper;
       listnodes := fun _ => RpcError (JArr []); listpeers := RpcError (JArr []); online := true |} (Some [2]) ∅ _ _) (Some [1]) _).
  - intros m _. by rewrite bool_decide_false by set_solver.
  - vm_compute. reflexivity.
  - apply list_elem_of_here.
Defined.

Lemma accepted_candidates_have_capacity_witness :
  exists a, Dowser.run (Dowser.demo_node 200000) 100000 0 = Some (inl a) /\ Janitor.acceptable a 100000 = true.
Proof.
  assert (exists a, Dowser.run (Dowser.demo_node 200000) 100000 0 = Some (inl a)) as [a E] by (eexists; vm_compute; reflexivity).
  exists a. split; [exact E|].
  apply (accepted_candidates_have_capacity (Dowser.demo_node 200000) 200000 100000 a 102522); [apply Dowser.demo_exact; lia|lia| |exact E|lia].
  vm_compute. reflexivity.
Defined.

End Investigator.
