(* ===== verification/Carpenter.v ===== *)
(** * Building channels (src/Boss/Mod/ChannelCreator/Carpenter.cpp)

    The manager of [ChannelManager] hands a plan to the carpenter, which connects to the
    nodes, looks once more for channels that exist, funds the rest with one command, and
    reports the fate of every node to the modules (the investigator drops them, the monitor
    of channels announces the new ones).  Exceptions that the code throws are values; the
    answers of the node are inputs. *)

From stdpp Require Import base list numbers strings gmap.
From S2P Require Import Prelude.
From S2P Require Import Double.
From S2P Require Import Amount.
From S2P Require Import LnIds.
From S2P Require Import Jsmn.
From S2P Require Import ChannelPlan.
From S2P Require Import ChannelManager.
From S2P Require Import Reply.
From S2P Require Import Peers.
From S2P Require Import Dowser.
Import Jsmn.
Import Reply.
Import Peers.
Import AskreneLayer.

#[local] Open Scope Z_scope.
#[local] Open Scope reply_scope.

Module Carpenter.

(** [std::map<Ln::NodeId, Ln::Amount>], in the order of its keys. *)
Abbreviation Plan := (list (Node * Amount)).

Definition rounddown_to_sat (a : Amount) : Amount := a / 1000 * 1000.

(** ** Commands *)

Definition str (s : bytes) : json := JStr s.

Definition json_single_plan (n : Node) (a : Amount) : json :=
  JObj [(lit "id", str (NodeId.to_string n)); (lit "amount", str (Amount.to_string a)); (lit "announce", JPrim (lit "true"))].

Definition json_plan (plan : Plan) : json := JArr (map (fun p => json_single_plan p.1 p.2) plan).

(** The text of the number 1 is that of [Jsmn::Detail::Str::from_double]. *)
Definition multifund_params (plan : Plan) : json :=
  JObj [(lit "destinations", json_plan plan); (lit "feerate", str (lit "normal")); (lit "minchannels", JPrim (lit "1"))].

Inductive Label :=
| Rpc (method : bytes) (params : json)
| Wait (seconds : Z)
| ChannelCreateResult (node : Node) (success : bool).

Definition connect_1 (n : Node) : Label := Rpc (lit "connect") (JObj [(lit "id", str (NodeId.to_string n))]).

(** ** The stages of a construction *)

(** The nodes that the planner marked with nothing; they are erased one by one. *)
Definition zeros (plan : Plan) : list Node := map fst (filter (fun e => e.2 = Amount.sat 0) plan).
Definition erase (plan : Plan) (n : Node) : Plan := filter (fun e => e.1 <> n) plan.

(** The second look: the plan that is left, and the nodes that are skipped. *)
Fixpoint recheck (channeled : gset Node) (plan : Plan) : Plan * list Node :=
  match plan with
  | [] => ([], [])
  | (n, a) :: plan =>
      let '(kept, skipped) := recheck channeled plan in
      if decide (n ∈ channeled) then (kept, n :: skipped) else ((n, a) :: kept, skipped)
  end.

(** A loop over an array of the result, which pushes the id of every entry to a queue; an
    exception leaves the queue as it is. *)
Fixpoint push_ids (entries : list json) (queue : list Node) : list Node * option failure :=
  match entries with
  | [] => (queue, None)
  | c :: entries =>
      match (let* id := get (Some c) "id" in let* s := text id in nodeid_of s) with
      | inl n => push_ids entries (queue ++ [n])
      | inr e => (queue, Some e)
      end
  end.

Definition elements_of (o : outcome (option json)) : outcome (list json) := let* j := o in lift (jelements j).
Definition size_of (o : outcome (option json)) : outcome nat := let* j := o in lift (jsize j).

(** The queues of passes and of failures after the result of [multifundchannel] is read. *)
Definition read_result (res : json) (fails : list Node) : list Node * list Node * option failure :=
  match elements_of (get (Some res) "channel_ids") with
  | inr e => ([], fails, Some e)
  | inl chans =>
      match push_ids chans [] with
      | (passes, Some e) => (passes, fails, Some e)
      | (passes, None) =>
          match size_of (get (Some res) "failed") with
          | inr e => (passes, fails, Some e)
          | inl _ =>
              match elements_of (get (Some res) "failed") with
              | inr e => (passes, fails, Some e)
              | inl bads => let '(fails, e) := push_ids bads fails in (passes, fails, e)
              end
          end
      end
  end.

(** What the node answers: to [listpeerchannels], and to [multifundchannel] with its
    parameters.  Answers and errors of [connect] are dropped alike. *)
Record Answers := {
  listpeerchannels : rpc;
  multifundchannel : json -> rpc
}.

(** [report_channelings], a message for each node of a queue. *)
Fixpoint report_channelings (nodes : list Node) (ok : bool) : list Label :=
  match nodes with
  | [] => []
  | n :: nodes => ChannelCreateResult n ok :: report_channelings nodes ok
  end.

(** The two reports run as threads of their own; failures are in front here, but the
    messages of the two can mix. *)
Definition report (tr : list Label) (fails passes : list Node) : list Label * option failure :=
  (tr ++ report_channelings fails false ++ report_channelings passes true, None).

(** The funding of what is left; [std::invalid_argument] is caught where the result is
    read, other exceptions end the construction without a report. *)
Definition fund (tr : list Label) (plan : Plan) (fails : list Node) (i : Answers) : list Label * option failure :=
  let plan := map (fun p => (p.1, rounddown_to_sat p.2)) plan in
  let params := multifund_params plan in
  let tr := tr ++ [Rpc (lit "multifundchannel") params] in
  match multifundchannel i params with
  | RpcError _ => report tr (fails ++ map fst plan) []
  | Result res =>
      match read_result res fails with
      | (passes, fails, None) => report tr fails passes
      | (passes, fails, Some Logic) => report tr fails passes
      | (_, _, Some e) => (tr, Some e)
      end
  end.

Definition construct_nonempty (plan : Plan) (i : Answers) : list Label * option failure :=
  let fails := zeros plan in
  let plan := foldl erase plan fails in
  match plan with
  | [] => report [] fails []                                     (* [SkipConstruction] *)
  | _ :: _ =>
      let tr := map connect_1 (map fst plan) ++ [Wait 3; Rpc (lit "listpeerchannels") (JObj [])] in
      match listpeerchannels i with
      | RpcError _ => report tr fails []                         (* [SkipConstruction] *)
      | Result res =>
          match channeled_peers res with
          | inr e => (tr, Some e)
          | inl channeled =>
              let '(plan, skipped) := recheck channeled plan in
              let fails := fails ++ skipped in
              match plan with
              | [] => report tr fails []                         (* [SkipConstruction] *)
              | _ :: _ => fund tr plan fails i
              end
          end
      end
  end.

(** [None] is the failed assertion. *)
Definition construct (rpc : bool) (plan : Plan) (i : Answers) : option (list Label * option failure) :=
  match plan with
  | [] => None
  | _ :: _ => if negb rpc then Some ([], None) else Some (construct_nonempty plan i)
  end.

(** ** The stages as functions of the plan *)

(** What is funded: nodes with an amount and without a channel, whole satoshis. *)
Definition funded (channeled : gset Node) (plan : Plan) : Plan := filter (fun e => e.2 <> 0 /\ e.1 ∉ channeled) plan.
Definition destinations (channeled : gset Node) (plan : Plan) : Plan :=
  map (fun p => (p.1, rounddown_to_sat p.2)) (funded channeled plan).

Definition results (tr : list Label) : list (Node * bool) :=
  omap (fun l => match l with ChannelCreateResult n ok => Some (n, ok) | _ => None end) tr.

Definition funds (l : Label) : Prop := exists ps, l = Rpc (lit "multifundchannel") ps.

Lemma rounddown_bounds a :
  0 <= a -> a - 999 <= rounddown_to_sat a <= a /\ 0 <= rounddown_to_sat a.
Proof.
  intros Ha. unfold rounddown_to_sat. pose proof (Z.div_mod a 1000 ltac:(lia)).
  pose proof (Z.mod_pos_bound a 1000 ltac:(lia)). pose proof (Z.div_pos a 1000). lia.
Qed.

Lemma foldl_erase ns plan : foldl erase plan ns = filter (fun e => e.1 ∉ ns) plan.
Proof.
  revert plan. induction ns as [|n ns IH]; intros plan; simpl.
  - symmetry. apply filter_every, Forall_forall. intros. apply not_elem_of_nil.
  - rewrite IH. unfold erase. rewrite list_filter_filter. apply list_filter_iff.
    intros e. rewrite not_elem_of_cons. tauto.
Qed.

Lemma zeros_erased plan : NoDup (map fst plan) -> foldl erase plan (zeros plan) = filter (fun e => e.2 <> 0) plan.
Proof.
  intros Hn. rewrite foldl_erase. apply filter_ext_on. intros [n a] He. cbn [fst snd]. unfold zeros.
  rewrite list_elem_of_fmap. split.
  - intros H ->. apply H. exists (n, 0). split; [done|]. by apply list_elem_of_filter.
  - intros Ha (e & E & Hm). apply list_elem_of_filter in Hm as [Hb Hm].
    pose proof (NoDup_map_inj fst plan (n, a) e Hn He Hm E) as <-. by apply Ha.
Qed.

Lemma recheck_spec channeled plan :
  recheck channeled plan = (filter (fun e => e.1 ∉ channeled) plan, map fst (filter (fun e => e.1 ∈ channeled) plan)).
Proof.
  induction plan as [|[n a] plan IH]; [done|]. cbn [recheck]. rewrite IH, !filter_cons. cbn [fst].
  destruct (decide (n ∈ channeled)) as [H|H]; [rewrite decide_False by tauto|rewrite decide_True by done]; done.
Qed.

Lemma construct_unfold plan i :
  NoDup (map fst plan) ->
  construct_nonempty plan i =
  let fails := zeros plan in
  let left := filter (fun e => e.2 <> 0) plan in
  match left with
  | [] => report [] fails []
  | _ :: _ =>
      let tr := map connect_1 (map fst left) ++ [Wait 3; Rpc (lit "listpeerchannels") (JObj [])] in
      match listpeerchannels i with
      | RpcError _ => report tr fails []
      | Result res =>
          match channeled_peers res with
          | inr e => (tr, Some e)
          | inl channeled =>
              let skipped := map fst (filter (fun e => e.1 ∈ channeled) left) in
              match funded channeled plan with
              | [] => report tr (fails ++ skipped) []
              | _ :: _ => fund tr (funded channeled plan) (fails ++ skipped) i
              end
          end
      end
  end.
Proof.
  intros Hn. unfold construct_nonempty. rewrite zeros_erased by done. cbv zeta.
  destruct (filter (fun e => e.2 <> 0) plan) as [|e left] eqn:El; [done|].
  destruct (listpeerchannels i) as [res|]; [|done]. destruct (channeled_peers res) as [channeled|]; [|done].
  rewrite recheck_spec. unfold funded. rewrite <- El, list_filter_filter.
  rewrite (list_filter_iff (fun x => x.1 ∉ channeled /\ x.2 <> 0) (fun x => x.2 <> 0 /\ x.1 ∉ channeled)) by tauto.
  by destruct (filter _ plan).
Qed.

Lemma results_app tr1 tr2 : results (tr1 ++ tr2) = results tr1 ++ results tr2.
Proof. apply omap_app. Qed.

Lemma results_report ns ok : results (report_channelings ns ok) = map (fun n => (n, ok)) ns.
Proof. induction ns as [|n ns IH]; [done|]. cbn. f_equal. exact IH. Qed.

Lemma results_connect ns : results (map connect_1 ns) = [].
Proof. induction ns as [|n ns IH]; [done|]. exact IH. Qed.

Lemma funds_report tr fails passes ps :
  Rpc (lit "multifundchannel") ps ∈ (report tr fails passes).1 -> Rpc (lit "multifundchannel") ps ∈ tr.
Proof.
  assert (forall ns ok, Rpc (lit "multifundchannel") ps ∉ report_channelings ns ok) as Hr.
  { intros ns ok. induction ns as [|n ns IH]; simpl; [apply not_elem_of_nil|]. rewrite not_elem_of_cons. done. }
  unfold report. cbn [fst]. rewrite !elem_of_app. intros [H|[H|H]]; [done|by apply Hr in H..].
Qed.

Lemma funds_prefix ns ps :
  Rpc (lit "multifundchannel") ps ∉ map connect_1 ns ++ [Wait 3; Rpc (lit "listpeerchannels") (JObj [])].
Proof.
  rewrite not_elem_of_app. split.
  - induction ns as [|n ns IH]; simpl; [apply not_elem_of_nil|]. rewrite not_elem_of_cons. split; [|done].
    unfold connect_1. intros [=].
  - rewrite !not_elem_of_cons. split_and!; [done| |apply not_elem_of_nil]. intros [=].
Qed.

(** The command that funds, if there is one. *)
Lemma construct_funds plan i ps :
  NoDup (map fst plan) -> Rpc (lit "multifundchannel") ps ∈ (construct_nonempty plan i).1 ->
  exists res channeled, listpeerchannels i = Result res /\ channeled_peers res = inl channeled
    /\ funded channeled plan <> [] /\ ps = multifund_params (destinations channeled plan).
Proof.
  intros Hn. rewrite construct_unfold by done. cbv zeta.
  destruct (filter (fun e => e.2 <> 0) plan) as [|e left].
  { intros H%funds_report. by apply not_elem_of_nil in H. }
  destruct (listpeerchannels i) as [res|]; [|by intros ?%funds_report%funds_prefix].
  destruct (channeled_peers res) as [channeled|] eqn:Ec; [|by intros ?%funds_prefix].
  intros H. exists res, channeled. split_and!; [done..| |].
  - intros E. rewrite E in H. by apply funds_report, funds_prefix in H.
  - destruct (funded channeled plan) as [|f fs] eqn:Ef; [by apply funds_report, funds_prefix in H|].
    unfold destinations. rewrite Ef. unfold fund in H. set (dest := map _ (f :: fs)) in *.
    assert (Rpc (lit "multifundchannel") ps ∈
       (map connect_1 (map fst (e :: left)) ++ [Wait 3; Rpc (lit "listpeerchannels") (JObj [])])
       ++ [Rpc (lit "multifundchannel") (multifund_params dest)] -> ps = multifund_params dest) as Hx.
    { intros Hx. apply elem_of_app in Hx as [Hx|Hx]; [by apply funds_prefix in Hx|].
      apply list_elem_of_singleton in Hx. by injection Hx. }
    destruct (multifundchannel i _) as [r|]; [|apply funds_report in H; by apply Hx].
    destruct (read_result r _) as [[passes fs'] [[]|]]; try apply funds_report in H; by apply Hx.
Qed.

Lemma construct_planned rpc plan i tr x ps :
  NoDup (map fst plan) -> construct rpc plan i = Some (tr, x) -> Rpc (lit "multifundchannel") ps ∈ tr ->
  exists res channeled, listpeerchannels i = Result res /\ channeled_peers res = inl channeled
    /\ funded channeled plan <> [] /\ ps = multifund_params (destinations channeled plan).
Proof.
  intros Hn E H. unfold construct in E. destruct plan as [|e plan]; [done|]. destruct rpc; cbn [negb] in E.
  - apply Some_inj in E. apply (construct_funds (e :: plan)); [done|]. by rewrite E.
  - injection E as <- <-. by apply not_elem_of_nil in H.
Qed.

Lemma destinations_nodup channeled plan : NoDup (map fst plan) -> NoDup (map fst (destinations channeled plan)).
Proof.
  intros H. unfold destinations. rewrite map_map. cbn [fst]. eapply sublist_NoDup; [exact H|].
  apply (fmap_sublist fst), sublist_filter.
Qed.

Lemma destinations_elem channeled plan n a :
  (n, a) ∈ destinations channeled plan ->
  n ∉ channeled /\ exists v, (n, v) ∈ plan /\ v <> 0 /\ a = rounddown_to_sat v.
Proof.
  intros H. apply list_elem_of_fmap in H as ([m v] & [= -> ->] & H).
  apply list_elem_of_filter in H as [[Hv Hc] H]. split; [exact Hc|]. by exists v.
Qed.

Lemma destinations_sum channeled plan :
  Forall (fun e => 0 <= e.2) plan -> sumZ (map snd (destinations channeled plan)) <= sumZ (map snd plan).
Proof.
  unfold destinations, funded. induction 1 as [|[n v] plan Hv _ IH]; [done|]. rewrite filter_cons.
  cbn [snd] in Hv. pose proof (rounddown_bounds v Hv). destruct (decide _); cbn [map sumZ foldr fst snd] in *; unfold sumZ in *; lia.
Qed.

(** ** Every planned node is reported *)

(** The entries of an array of the result name the nodes. *)
Definition names (j : outcome (option json)) (ns : list Node) : Prop :=
  exists l, j = inl (Some (JArr l))
    /\ Forall2 (fun c n => (let* id := get (Some c) "id" in let* s := text id in nodeid_of s) = inl n) l ns.

Lemma push_ids_names l ns q :
  Forall2 (fun c n => (let* id := get (Some c) "id" in let* s := text id in nodeid_of s) = inl n) l ns ->
  push_ids l q = (q ++ ns, None).
Proof.
  intros H. revert q. induction H as [|c n l ns E _ IH]; intros q; cbn [push_ids]; [by rewrite app_nil_r|].
  rewrite E, IH. by rewrite <- app_assoc.
Qed.

Lemma read_result_names res fails passes bads :
  names (get (Some res) "channel_ids") passes -> names (get (Some res) "failed") bads ->
  read_result res fails = (passes, fails ++ bads, None).
Proof.
  intros (lp & Ep & Hp) (lb & Eb & Hb). unfold read_result. rewrite Ep, Eb. cbn [elements_of size_of obind lift jelements jsize].
  rewrite (push_ids_names _ _ _ Hp). cbn [app]. by rewrite (push_ids_names _ _ _ Hb).
Qed.

(** The fates of the nodes whose success is known from the set of passes. *)
Definition fates (passes nodes : list Node) : list (Node * bool) := map (fun n => (n, bool_decide (n ∈ passes))) nodes.

Lemma fates_all passes nodes : nodes ⊆ passes -> fates passes nodes = map (fun n => (n, true)) nodes.
Proof. intros H. apply map_ext_in. intros n Hn. rewrite bool_decide_eq_true_2; [done|]. apply H. by apply list_elem_of_In. Qed.

Lemma fates_none passes nodes : (forall n, n ∈ nodes -> n ∉ passes) -> fates passes nodes = map (fun n => (n, false)) nodes.
Proof. intros H. apply map_ext_in. intros n Hn. rewrite bool_decide_eq_false_2; [done|]. apply H. by apply list_elem_of_In. Qed.

#[global] Instance fates_proper passes : Proper ((≡ₚ) ==> (≡ₚ)) (fates passes).
Proof. intros l k E. by apply Permutation_map. Qed.

(** A plan falls apart: the nodes with nothing, those with a channel, and those funded. *)
Lemma plan_parts channeled plan :
  map fst plan ≡ₚ zeros plan ++ map fst (filter (fun e => e.1 ∈ channeled) (filter (fun e => e.2 <> 0) plan))
                  ++ map fst (funded channeled plan).
Proof.
  unfold zeros, funded. rewrite list_filter_filter. induction plan as [|[n a] plan IH]; [done|]. rewrite !filter_cons. cbn [fst snd map].
  change (Amount.sat 0) with 0.
  destruct (decide (a = 0)) as [Ha|Ha].
  - rewrite !(decide_False (P := _ /\ _)) by tauto. cbn [map app fst]. by constructor.
  - destruct (decide (n ∈ channeled)) as [Hc|Hc].
    + rewrite decide_True by tauto. rewrite decide_False by tauto. cbn [map app fst].
      rewrite <- Permutation_middle. by constructor.
    + rewrite decide_False by tauto. rewrite decide_True by tauto. cbn [map app fst].
      rewrite app_assoc, <- Permutation_middle, <- app_assoc. by constructor.
Qed.

Lemma fund_results tr plan fails i passes bads :
  results tr = [] ->
  (let params := multifund_params (map (fun p => (p.1, rounddown_to_sat p.2)) plan) in
   (exists e, multifundchannel i params = RpcError e /\ passes = [] /\ bads = map fst plan)
   \/ exists res, multifundchannel i params = Result res
      /\ names (get (Some res) "channel_ids") passes /\ names (get (Some res) "failed") bads) ->
  exists tr', fund tr plan fails i = (tr', None)
    /\ results tr' = map (fun n => (n, false)) (fails ++ bads) ++ map (fun n => (n, true)) passes.
Proof.
  intros Ht Hi. unfold fund. cbv zeta in *.
  destruct Hi as [(e & -> & -> & ->)|(res & -> & Hp & Hb)].
  - eexists. split; [done|]. rewrite !results_app, Ht, !results_report. rewrite map_map. cbn [fst map]. by rewrite !app_nil_r.
  - rewrite (read_result_names _ _ _ _ Hp Hb). eexists. split; [done|]. rewrite !results_app, Ht, !results_report. done.
Qed.

(** [multifundchannel] fails, or tells for every destination whether it passed. *)
Definition answered (i : Answers) (dest : Plan) (passes bads : list Node) : Prop :=
  passes ++ bads ≡ₚ map fst dest
  /\ (dest <> [] ->
      (exists e, multifundchannel i (multifund_params dest) = RpcError e /\ passes = [] /\ bads = map fst dest)
      \/ exists res, multifundchannel i (multifund_params dest) = Result res
         /\ names (get (Some res) "channel_ids") passes /\ names (get (Some res) "failed") bads).

Lemma nothing_passes tr fails :
  results tr = [] -> exists tr', report tr fails [] = (tr', None) /\ results tr' = map (fun n => (n, false)) fails.
Proof.
  intros H. eexists. split; [done|]. rewrite !results_app, H, !results_report. cbn. by rewrite app_nil_r.
Qed.

Lemma prefix_results ns :
  results (map connect_1 ns ++ [Wait 3; Rpc (lit "listpeerchannels") (JObj [])]) = [].
Proof. by rewrite results_app, results_connect. Qed.

Lemma parts_fates plan skipped fs passes bads :
  NoDup (map fst plan) -> map fst plan ≡ₚ zeros plan ++ skipped ++ fs -> passes ++ bads ≡ₚ fs ->
  map (fun n => (n, false)) ((zeros plan ++ skipped) ++ bads) ++ map (fun n => (n, true)) passes
  ≡ₚ fates passes (map fst plan).
Proof.
  intros Hn Hp Hf. rewrite <- Hf in Hp. rewrite Hp in Hn |- *.
  assert (forall n, n ∈ (zeros plan ++ skipped) ++ bads -> n ∉ passes) as Hd.
  { apply NoDup_app in Hn as (_ & H1 & Hn). apply NoDup_app in Hn as (_ & H2 & Hn). apply NoDup_app in Hn as (_ & H3 & _).
    intros n. rewrite !elem_of_app. specialize (H1 n). specialize (H2 n). specialize (H3 n). rewrite !elem_of_app in *. tauto. }
  rewrite <- (fates_none passes) by exact Hd. rewrite <- (fates_all passes passes) by done. unfold fates. rewrite <- map_app.
  apply Permutation_map. rewrite <- !app_assoc. do 2 apply Permutation_app_head. apply Permutation_app_comm.
Qed.

(** ** Properties *)

(** C2: what a cycle of the manager funds in the end: when a plan that is handed over leads to
    a funding, the command names different candidates, none of which has a channel in a
    listing made just before, with whole amounts in satoshis that keep the limits (up to the
    rounding) and do not exceed, in sum, the amount that was requested. *)
Theorem cycle_funds_soundly m outs e m' o plan rpc i tr x ps :
  Manager.history NodeId.wf NodeId.lt m outs -> Manager.calm NodeId.wf m e ->
  Manager.step NodeId.lt m e = Some (m', o) -> Manager.Construct plan ∈ o ->
  construct rpc plan i = Some (tr, x) -> Rpc (lit "multifundchannel") ps ∈ tr ->
  exists a amt res channeled dest,
    e = Manager.Collected a /\ Manager.cycle m = Some (Manager.Collecting amt)
    /\ listpeerchannels i = Result res /\ channeled_peers res = inl channeled
    /\ ps = multifund_params dest /\ dest <> [] /\ NoDup (map fst dest) /\ sumZ (map snd dest) <= amt
    /\ forall n v, (n, v) ∈ dest ->
         n ∈ map fst (Manager.candidates a) /\ n ∉ channeled /\ v `mod` 1000 = 0
         /\ Manager.min_amount m - 999 <= v <= Manager.max_amount m.
Proof.
  intros Hh Hc Hs Ho Ei Hf. pose proof (Manager.history_inv _ _ _ _ Hh) as Hm.
  destruct (Manager.step_spec _ _ m e Hm Hc) as (m1 & o1 & E1 & _ & H1). rewrite E1 in Hs. injection Hs as -> ->.
  destruct (H1 plan Ho) as (a & amt & He & Hcy & Hp & Hcand). clear H1.
  destruct (construct_planned _ _ _ _ _ _ (Planner.plan_nodup _ _ Hp) Ei Hf) as (res & ch & El & Ec & Hne & ->).
  pose proof (Planner.plan_sizes _ _ Hp) as Hz. pose proof (Planner.plan_sum _ _ Hp) as Hsum.
  rewrite Forall_forall in Hz. cbn in Hz, Hsum. pose proof (Manager.mi_min _ Hm).
  exists a, amt, res, ch, (destinations ch plan). split_and!; try done.
  - unfold destinations. by destruct (funded ch plan).
  - apply destinations_nodup, (Planner.plan_nodup _ _ Hp).
  - etransitivity; [apply destinations_sum|exact Hsum]. apply Forall_forall. intros v Hv. specialize (Hz v Hv). lia.
  - intros n v Hv. apply destinations_elem in Hv as (Hch & w & Hw & Hnz & ->). specialize (Hz _ Hw). cbn in Hz.
    destruct (Hcand n) as [Hn _]; [by apply (list_elem_of_fmap_2 fst) in Hw|].
    split_and!; [done..|unfold rounddown_to_sat; by rewrite Z_mod_mult| |]; pose proof (rounddown_bounds w); lia.
Qed.

(** Every node of a plan is reported once, as a success exactly if the node says so, when
    the listing and the answer can be read; an error of [multifundchannel] makes all fail. *)
Theorem every_node_reported plan i res channeled passes bads :
  plan <> [] -> NoDup (map fst plan) -> listpeerchannels i = Result res -> channeled_peers res = inl channeled ->
  answered i (destinations channeled plan) passes bads ->
  exists tr, construct true plan i = Some (tr, None) /\ results tr ≡ₚ fates passes (map fst plan).
Proof.
  intros Hne Hn El Ec [Hpb Ha]. unfold construct. destruct plan as [|e0 plan0] eqn:Ep; [done|]. rewrite <- Ep in *. clear Hne.
  cbn [negb]. rewrite construct_unfold by done. cbv zeta. rewrite El, Ec. pose proof (plan_parts channeled plan) as Hparts.
  unfold destinations in *. rewrite map_map in Hpb. cbn [fst] in Hpb. pose proof (parts_fates _ _ _ _ _ Hn Hparts Hpb) as Hfates.
  destruct (filter (fun e => e.2 <> 0) plan) as [|e l] eqn:Ef.
  - assert (funded channeled plan = []) as E0.
    { unfold funded. rewrite (list_filter_iff _ (fun x => x.1 ∉ channeled /\ x.2 <> 0)) by tauto. by rewrite <- list_filter_filter, Ef. }
    rewrite E0 in *. apply Permutation_nil_r, app_eq_nil in Hpb as [-> ->]. destruct (nothing_passes [] (zeros plan) eq_refl) as (tr & -> & Hr).
    exists tr. split; [done|]. rewrite Hr, <- Hfates. cbn. by rewrite !app_nil_r.
  - rewrite <- Ef in *. destruct (funded channeled plan) as [|f fs] eqn:Efs.
    + apply Permutation_nil_r, app_eq_nil in Hpb as [-> ->]. edestruct nothing_passes as (tr & -> & Hr); [apply prefix_results|].
      exists tr. split; [done|]. rewrite Hr, <- Hfates. cbn. by rewrite !app_nil_r.
    + rewrite <- Efs in *. edestruct (fund_results (map connect_1 (map fst (filter (fun e => e.2 <> 0) plan)) ++ [Wait 3; Rpc (lit "listpeerchannels") (JObj [])])
        (funded channeled plan) (zeros plan ++ map fst (filter (fun e => e.1 ∈ channeled) (filter (fun e => e.2 <> 0) plan))) i passes bads)
        as (tr & E & Hr).
      * apply prefix_results.
      * cbv zeta. destruct Ha as [(er & H1 & H2 & H3)|Ha]; [by rewrite Efs|left|by right].
        exists er. split_and!; [done..|]. by rewrite H3, map_map.
      * exists tr. split; [by rewrite E|]. by rewrite Hr.
Qed.

(** When the second look at the channels fails, nothing is funded, and of the nodes only
    those with nothing are reported. *)
Theorem failed_check_funds_nothing plan i e :
  plan <> [] -> NoDup (map fst plan) -> listpeerchannels i = RpcError e ->
  exists tr, construct true plan i = Some (tr, None) /\ results tr = map (fun n => (n, false)) (zeros plan)
    /\ forall ps, Rpc (lit "multifundchannel") ps ∉ tr.
Proof.
  intros Hne Hn El. unfold construct. destruct plan as [|e0 plan0] eqn:Ep; [done|]. rewrite <- Ep in *. cbn [negb].
  assert (forall ps, Rpc (lit "multifundchannel") ps ∉ (construct_nonempty plan i).1) as Hf.
  { intros ps H. apply construct_funds in H as (res & ch & E & _); [|done]. congruence. }
  rewrite construct_unfold in Hf |- * by done. cbv zeta in *. rewrite El in *. clear El.
  destruct (filter _ plan) as [|v l].
  - destruct (nothing_passes [] (zeros plan) eq_refl) as (tr & E & Hr). rewrite E in *. by exists tr.
  - edestruct nothing_passes as (tr & E & Hr); [apply prefix_results|]. rewrite E in *. by exists tr.
Qed.

(** An id that cannot be read in the result ends the construction with an exception that
    is not caught: the channels of the nodes before it are there, but no node is reported. *)
Theorem unreadable_id_loses_reports plan i res channeled result chans bad more passes :
  plan <> [] -> NoDup (map fst plan) -> listpeerchannels i = Result res -> channeled_peers res = inl channeled ->
  funded channeled plan <> [] ->
  multifundchannel i (multifund_params (destinations channeled plan)) = Result result ->
  get (Some result) "channel_ids" = inl (Some (JArr (chans ++ bad :: more))) -> names (inl (Some (JArr chans))) passes ->
  (let* id := get (Some bad) "id" in let* s := text id in nodeid_of s) = inr Runtime ->
  exists tr, construct true plan i = Some (tr, Some Runtime) /\ results tr = [].
Proof.
  intros Hne Hn El Ec Hf Hr Ej Hnames Hbad. unfold construct. destruct plan as [|e0 plan0] eqn:Ep; [done|]. rewrite <- Ep in *. cbn [negb].
  rewrite construct_unfold by done. cbv zeta. rewrite El, Ec.
  destruct (filter (fun e => e.2 <> 0) plan) as [|v l] eqn:Ev.
  { exfalso. apply Hf. unfold funded. rewrite (list_filter_iff _ (fun x => x.1 ∉ channeled /\ x.2 <> 0)) by tauto. by rewrite <- list_filter_filter, Ev. }
  destruct (funded channeled plan) as [|f fs] eqn:Ef; [done|]. unfold fund. unfold destinations in Hr. rewrite Ef in Hr. rewrite Hr.
  unfold read_result. rewrite Ej. cbn [elements_of obind lift jelements].
  assert (forall q, push_ids (chans ++ bad :: more) q = (q ++ passes, Some Runtime)) as ->.
  { destruct Hnames as (l' & [= <-] & Hl). clear - Hl Hbad. induction Hl as [|c n l ns E _ IH]; intros q; cbn [app push_ids].
    - rewrite Hbad. by rewrite app_nil_r.
    - rewrite E, IH. by rewrite <- app_assoc. }
  eexists. split; [done|]. rewrite results_app, prefix_results. done.
Qed.

(** ** Witnesses *)

Definition demo_node (k : Z) : Node := Some (2 :: repeat 0 31 ++ [k]).
Definition demo_entry (k : Z) : json := JObj [(lit "id", JStr (NodeId.to_string (demo_node k)))].

Definition demo_answers : Manager.Answers Node :=
  {| Manager.num_chans := 5; Manager.candidates := [(demo_node 1, None); (demo_node 2, None)];
     Manager.channeled := Some (fun _ => false); Manager.dowser := fun _ _ => 900000500;
     Manager.peers := []; Manager.get_bin_of := fun _ => 0; Manager.verdict := fun _ => Order.NoRecord;
     Manager.is_spliceable := fun _ => true; Manager.random_index := fun _ => O |}.

Lemma demo_node_wf k : 0 <= k < 256 -> NodeId.wf (demo_node k).
Proof. intros Hk. split; [done|]. split; [|by left]. cbn. repeat constructor; ulia. Qed.

Lemma demo_cycle_ok : Manager.answers_ok NodeId.wf demo_answers.
Proof.
  split.
  - apply (bool_decide_unpack (NoDup (map fst (Manager.candidates demo_answers)))). vm_compute. exact I.
  - repeat (constructor; [apply demo_node_wf; lia|]). constructor.
  - intros n q. simpl. lia.
  - intros n Hn. exact Hn.
Qed.

Lemma demo_history : Manager.history NodeId.wf NodeId.lt Manager.demo_started [].
Proof.
  apply (Manager.history_event NodeId.wf NodeId.lt (Manager.on_init (Manager.on_settings Manager.initial Manager.default_settings) false) []
           (Manager.Request 1700000000) Manager.demo_started []); [|split; vm_compute; congruence|vm_compute; reflexivity].
  apply (Manager.history_event NodeId.wf NodeId.lt (Manager.on_settings Manager.initial Manager.default_settings) [] (Manager.InitMsg false) _ []);
    [|exact I|reflexivity].
  apply Manager.history_start; [apply Manager.settings_ready|reflexivity].
Qed.

(** No channels yet; the first destination passes, the others fail. *)
Definition demo_funding (bad : json) : Answers :=
  {| listpeerchannels := Result (JObj [(lit "channels", JArr [])]);
     multifundchannel := fun _ => Result (JObj [(lit "channel_ids", JArr [demo_entry 1; bad]); (lit "failed", JArr [demo_entry 4])]) |}.

Definition demo_plan : Plan := [(demo_node 1, 900000500); (demo_node 2, 799999500)].

Lemma cycle_funds_soundly_witness :
  exists tr x, construct true demo_plan (demo_funding (demo_entry 2)) = Some (tr, x)
    /\ exists ps dest, Rpc (lit "multifundchannel") ps ∈ tr /\ ps = multifund_params dest /\ sumZ (map snd dest) <= 1700000000.
Proof.
  eexists _, _. split; [vm_compute; reflexivity|].
  destruct (cycle_funds_soundly Manager.demo_started [] (Manager.Collected demo_answers)
    (Manager.set_cycle Manager.demo_started (Some Manager.Ending)) [Manager.Construct demo_plan] demo_plan true
    (demo_funding (demo_entry 2)) _ None (multifund_params [(demo_node 1, 900000000); (demo_node 2, 799999000)])
    demo_history demo_cycle_ok ltac:(vm_compute; reflexivity) ltac:(left) ltac:(vm_compute; reflexivity) ltac:(do 4 right; left))
    as (a & amt & res & ch & dest & _ & Hc & _ & _ & E & _ & _ & Hs & _).
  injection Hc as <-. eexists _, dest. split; [do 4 right; left|]. split; [exact E|exact Hs].
Defined.

(** A plan with a node that is marked, one that has a channel by now, and two that are funded. *)
Lemma every_node_reported_witness :
  let i := {| listpeerchannels := Result (JObj [(lit "channels", JArr [JObj [(lit "state", JStr (lit "CHANNELD_NORMAL"));
                (lit "peer_id", JStr (NodeId.to_string (demo_node 3)))]])]);
              multifundchannel := multifundchannel (demo_funding (demo_entry 2)) |} in
  exists tr, construct true (demo_plan ++ [(demo_node 3, 1000000); (demo_node 4, 500000); (demo_node 5, 0)]) i = Some (tr, None)
    /\ results tr ≡ₚ [(demo_node 1, true); (demo_node 2, true); (demo_node 3, false); (demo_node 4, false); (demo_node 5, false)].
Proof.
  intros i. set (plan := demo_plan ++ _).
  eapply (every_node_reported plan i _ {[demo_node 3]} [demo_node 1; demo_node 2] [demo_node 4]).
  - discriminate.
  - apply (bool_decide_unpack (NoDup (map fst plan))). vm_compute. exact I.
  - reflexivity.
  - vm_compute. reflexivity.
  - assert (destinations {[demo_node 3]} plan = [(demo_node 1, 900000000); (demo_node 2, 799999000); (demo_node 4, 500000)]) as ->
      by (vm_compute; reflexivity).
    split; [done|]. intros _. right. eexists. split; [reflexivity|].
    split; (eexists; split; [vm_compute; reflexivity|]); repeat constructor; vm_compute; reflexivity.
Defined.

Lemma failed_check_funds_nothing_witness :
  exists tr, construct true [(demo_node 1, 900000500); (demo_node 5, 0)]
               {| listpeerchannels := RpcError (JObj []); multifundchannel := fun _ => RpcError (JObj []) |} = Some (tr, None)
    /\ results tr = [(demo_node 5, false)] /\ forall ps, Rpc (lit "multifundchannel") ps ∉ tr.
Proof.
  apply (failed_check_funds_nothing [(demo_node 1, 900000500); (demo_node 5, 0)] _ (JObj [])); [discriminate| |reflexivity].
  apply (bool_decide_unpack (NoDup (map fst [(demo_node 1, 900000500); (demo_node 5, 0)]))). vm_compute. exact I.
Defined.

Lemma unreadable_id_loses_reports_witness :
  exists tr, construct true demo_plan (demo_funding (JObj [(lit "id", JStr (lit "x"))])) = Some (tr, Some Runtime) /\ results tr = [].
Proof.
  apply (unreadable_id_loses_reports demo_plan _ (JObj [(lit "channels", JArr [])]) ∅
    (JObj [(lit "channel_ids", JArr ([demo_entry 1] ++ [JObj [(lit "id", JStr (lit "x"))]])); (lit "failed", JArr [demo_entry 4])])
    [demo_entry 1] (JObj [(lit "id", JStr (lit "x"))]) [] [demo_node 1]).
  - discriminate.
  - apply (bool_decide_unpack (NoDup (map fst demo_plan))). vm_compute. exact I.
  - reflexivity.
  - vm_compute. reflexivity.
  - vm_compute. discriminate.
  - reflexivity.
  - vm_compute. reflexivity.
  - eexists. split; [reflexivity|]. repeat constructor; vm_compute; reflexivity.
  - vm_compute. reflexivity.
Defined.

End Carpenter.
