(* ===== verification/ChannelMonitor.v ===== *)
(** * Creation and destruction of channels (src/Boss/Mod/ChannelCreateDestroyMonitor.cpp)

    The module keeps the set of peers with a channel, and the ids of the channels that are
    open.  Listings, results of the carpenter and notifications of the node change them; the
    difference is announced to the other modules, as messages of threads that the handler
    starts.  Notifications of state changes wait for the first listing, each in a thread of
    its own, so that they are handled in any order. *)

From stdpp Require Import base list numbers strings gmap sets.
From S2P Require Import Prelude.
From S2P Require Import LnIds.
From S2P Require Import Jsmn.
From S2P Require Import Reply.
From S2P Require Import Peers.
From S2P Require Import Carpenter.
Import Jsmn.
Import Reply.
Import Peers.

#[local] Open Scope Z_scope.
#[local] Open Scope reply_scope.

Module ChannelMonitor.

Record Monitor := {
  initted : bool;
  channeled : gset Node;
  open_channels : gmap Node (gset bytes);
  waiting : list json                     (* threads with the payload of a state change *)
}.

Definition initial : Monitor := {| initted := false; channeled := ∅; open_channels := ∅; waiting := [] |}.

(** [Escapes] is an exception that leaves the handler. *)
Inductive Label :=
| ChannelCreation (n : Node)
| ChannelDestruction (n : Node)
| LogError
| Escapes (e : failure).

Abbreviation result := (option (Monitor * list Label)).

(** ** Listings *)

Definition open_state (state : bytes) : bool :=
  channeled_state state && negb (bool_decide (state = lit "CHANNELD_SHUTTING_DOWN")).

(** Whether an entry of the listing is open, and its id. *)
Definition is_open (chan : json) : outcome bool :=
  if negb (jis_object (Some chan)) then inl false
  else
    let* h := has (Some chan) "state" in
    if negb h then inl false
    else
      let* state_j := get (Some chan) "state" in
      if negb (jis_string state_j) then inl false
      else let* state := text state_j in inl (open_state state).

Definition channel_id_of (chan : json) : outcome (option bytes) :=
  let* h := has (Some chan) "channel_id" in
  if negb h then inl None
  else
    let* id_j := get (Some chan) "channel_id" in
    if negb (jis_string id_j) then inl None
    else let* id := text id_j in inl (Some id).

Definition list_channel (st : gset bytes * nat) (chan : json) : outcome (gset bytes * nat) :=
  let '(ids, unidentified) := st in
  let* o := is_open chan in
  if negb o then inl st
  else
    let* id := channel_id_of chan in
    match id with
    | None => inl ({[lit "unidentified-" ++ dec (Z.of_nat unidentified)]} ∪ ids, S unidentified)
    | Some id => inl ({[id]} ∪ ids, unidentified)
    end.

(** The entry of a peer is there from its first open channel on. *)
Definition list_peer (curr : gmap Node (gset bytes)) (p : Node * ConstructedListpeer) : outcome (gmap Node (gset bytes)) :=
  let* st := foldM list_channel (channels p.2) (∅, O) in
  inl (if decide (st.1 = ∅) then curr else <[p.1 := st.1]> curr).

Definition list_peers (cpeers : ConstructedListpeers) : outcome (gmap Node (gset bytes)) :=
  foldM list_peer (map_to_list cpeers) ∅.

Definition on_listing (s : Monitor) (cpeers : ConstructedListpeers) (first : bool) : result :=
  match list_peers cpeers with
  | inr Undefined => None
  | inr e => Some (s, [Escapes e])
  | inl curr =>
      let curr_channeled := dom curr in
      if first then
        Some ({| initted := true; channeled := curr_channeled; open_channels := curr; waiting := waiting s |}, [])
      else
        let s' := {| initted := initted s; channeled := curr_channeled; open_channels := curr; waiting := waiting s |} in
        if decide (channeled s = curr_channeled) then Some (s', [])
        else
          Some (s', map ChannelCreation (base.elements (curr_channeled ∖ channeled s))
                    ++ map ChannelDestruction (base.elements (channeled s ∖ curr_channeled)))
  end.

(** ** Results of the carpenter and notifications *)

Definition with_channeled (s : Monitor) (c : gset Node) : Monitor :=
  {| initted := initted s; channeled := c; open_channels := open_channels s; waiting := waiting s |}.
Definition with_open (s : Monitor) (o : gmap Node (gset bytes)) : Monitor :=
  {| initted := initted s; channeled := channeled s; open_channels := o; waiting := waiting s |}.
Definition with_waiting (s : Monitor) (w : list json) : Monitor :=
  {| initted := initted s; channeled := channeled s; open_channels := open_channels s; waiting := w |}.

Definition create (s : Monitor) (n : Node) : Monitor * list Label :=
  if decide (n ∈ channeled s) then (s, []) else (with_channeled s ({[n]} ∪ channeled s), [ChannelCreation n]).

Definition on_create_result (s : Monitor) (n : Node) (success : bool) : Monitor * list Label :=
  if negb success then (s, []) else create s n.

(** [catch (std::runtime_error const&)] *)
Definition catching (s : Monitor) (e : failure) : result :=
  match e with
  | Runtime => Some (s, [LogError])
  | Logic => Some (s, [Escapes Logic])
  | Undefined => None
  end.

Definition opened_id (params : json) : outcome Node :=
  let* payload := get (Some params) "channel_opened" in
  let* id := get payload "id" in
  let* s := text id in nodeid_of s.

Definition on_channel_opened (s : Monitor) (params : json) : result :=
  match opened_id params with
  | inr e => catching s e
  | inl n => Some (create s n)
  end.

Record Change := { node : Node; channel_id : bytes; old_state : bytes; new_state : bytes }.

Definition optional_text (payload : option json) (k : string) : outcome bytes :=
  let* h := has payload k in
  if negb h then inl [] else let* j := get payload k in text j.

Definition read_change (params : json) : outcome Change :=
  let* payload := get (Some params) "channel_state_changed" in
  let* id := get payload "peer_id" in
  let* s := text id in
  let* n := nodeid_of s in
  let* c := optional_text payload "channel_id" in
  let* o := optional_text payload "old_state" in
  let* j := get payload "new_state" in
  let* w := text j in
  inl {| node := n; channel_id := c; old_state := o; new_state := w |}.

Definition live (state : bytes) : bool :=
  bool_decide (state = lit "CHANNELD_NORMAL") || bool_decide (state = lit "CHANNELD_AWAITING_SPLICE").

Definition leaving (c : Change) : bool :=
  (live (old_state c) && negb (live (new_state c)))
  || (bool_decide (old_state c = lit "CHANNELD_AWAITING_LOCKIN") && negb (live (new_state c))).

Definition ids_at (o : gmap Node (gset bytes)) (n : Node) : gset bytes := default ∅ (o !! n).

Definition update_open (o : gmap Node (gset bytes)) (c : Change) : gmap Node (gset bytes) :=
  if decide (channel_id c = []) then o
  else if negb (leaving c) && open_state (new_state c) then
    <[node c := {[channel_id c]} ∪ ids_at o (node c)]> o
  else
    match o !! node c with
    | None => o
    | Some ids =>
        let ids := ids ∖ {[channel_id c]} in
        if decide (ids = ∅) then delete (node c) o else <[node c := ids]> o
    end.

Definition apply_change (s : Monitor) (c : Change) : Monitor * list Label :=
  let s := with_open s (update_open (open_channels s) c) in
  if negb (leaving c) then (s, [])
  else if negb (bool_decide (channel_id c = [])) && bool_decide (is_Some (open_channels s !! node c)) then (s, [])
  else if decide (node c ∈ channeled s) then
    (with_channeled s (channeled s ∖ {[node c]}), [ChannelDestruction (node c)])
  else (s, []).

Definition on_channel_state_changed (s : Monitor) (params : json) : result :=
  match read_change params with
  | inr e => catching s e
  | inl c => Some (apply_change s c)
  end.

(** ** Events *)

Inductive Event :=
| E_listing (cpeers : ConstructedListpeers) (first : bool)
| E_create_result (n : Node) (success : bool)
| E_notification (name : bytes) (params : json)
| E_run (k : nat).                                   (* the [k]-th thread that waits proceeds *)

Definition on_notification (s : Monitor) (name : bytes) (params : json) : result :=
  if decide (name = lit "channel_opened") then on_channel_opened s params
  else if decide (name = lit "channel_state_changed") then Some (with_waiting s (waiting s ++ [params]), [])
  else Some (s, []).

Definition step (s : Monitor) (e : Event) : result :=
  match e with
  | E_listing cpeers first => on_listing s cpeers first
  | E_create_result n success => Some (on_create_result s n success)
  | E_notification name params => on_notification s name params
  | E_run k =>
      match waiting s !! k with
      | Some params => if initted s then on_channel_state_changed (with_waiting s (delete k (waiting s))) params else Some (s, [])
      | None => Some (s, [])
      end
  end.

Fixpoint run (s : Monitor) (es : list Event) : result :=
  match es with
  | [] => Some (s, [])
  | e :: es => '(s1, l1) ← step s e; '(s2, l2) ← run s1 es; Some (s2, l1 ++ l2)
  end.

(** ** What the announcements say *)

(** The peers with channels as a module keeps them that follows the announcements; a
    creation of what is there, or a destruction of what is not, is an error. *)
Definition follow (c : option (gset Node)) (l : Label) : option (gset Node) :=
  c ← c;
  match l with
  | ChannelCreation n => if decide (n ∈ c) then None else Some ({[n]} ∪ c)
  | ChannelDestruction n => if decide (n ∈ c) then Some (c ∖ {[n]}) else None
  | _ => Some c
  end.
Definition follow_all (c : gset Node) (tr : list Label) : option (gset Node) := foldl follow (Some c) tr.

Definition later (e : Event) : Prop := match e with E_listing _ first => first = false | _ => True end.

#[global] Instance later_dec e : Decision (later e).
Proof. destruct e; simpl; apply _. Defined.

Lemma follow_app c tr1 tr2 : follow_all c (tr1 ++ tr2) = foldl follow (follow_all c tr1) tr2.
Proof. apply foldl_app. Qed.

Lemma follow_creations c ns :
  NoDup ns -> (forall n : Node, n ∈ ns -> n ∉ c) -> follow_all c (map ChannelCreation ns) = Some (list_to_set ns ∪ c).
Proof.
  unfold follow_all. intros Hn. revert c. induction Hn as [|n ns Hn _ IH]; intros c Hc; cbn [map foldl].
  { apply (f_equal Some). set_solver. }
  cbn [follow mbind option_bind]. rewrite decide_False by (apply Hc; left). rewrite IH; [apply (f_equal Some); set_solver|]. set_solver.
Qed.

Lemma follow_destructions c ns :
  NoDup ns -> (forall n : Node, n ∈ ns -> n ∈ c) -> follow_all c (map ChannelDestruction ns) = Some (c ∖ list_to_set ns).
Proof.
  unfold follow_all. intros Hn. revert c. induction Hn as [|n ns Hn _ IH]; intros c Hc; cbn [map foldl].
  { apply (f_equal Some). set_solver. }
  cbn [follow mbind option_bind]. rewrite decide_True by (apply Hc; left). rewrite IH; [apply (f_equal Some); set_solver|]. set_solver.
Qed.

Lemma follow_listing (a b : gset Node) :
  follow_all a (map ChannelCreation (base.elements (b ∖ a)) ++ map ChannelDestruction (base.elements (a ∖ b))) = Some b.
Proof.
  rewrite follow_app, follow_creations; [|apply NoDup_elements|set_solver].
  change (foldl follow (Some ?x) ?l) with (follow_all x l).
  rewrite follow_destructions; [|apply NoDup_elements|set_solver].
  f_equal. rewrite !list_to_set_elements_L. apply set_eq. intros x. rewrite !elem_of_difference, elem_of_union, !elem_of_difference. destruct (decide (x ∈ b)), (decide (x ∈ a)); tauto.
Qed.

Lemma follow_create s n s' l : create s n = (s', l) -> follow_all (channeled s) l = Some (channeled s').
Proof.
  unfold create. destruct (decide _) as [H|H]; intros [= <- <-]; [done|]. cbn. by rewrite decide_False.
Qed.

Lemma follow_catching s e s' l : catching s e = Some (s', l) -> follow_all (channeled s) l = Some (channeled s').
Proof. destruct e; intros [= <- <-]; done. Qed.

Lemma follow_change s c s' l : apply_change s c = (s', l) -> follow_all (channeled s) l = Some (channeled s').
Proof.
  unfold apply_change. destruct (negb (leaving c)); [by intros [= <- <-]|]. destruct (_ && _); [by intros [= <- <-]|].
  cbn [channeled with_open]. destruct (decide _) as [H|H]; intros [= <- <-]; [|done]. cbn. by rewrite decide_True.
Qed.

Lemma follow_step s e s' l : step s e = Some (s', l) -> later e -> follow_all (channeled s) l = Some (channeled s').
Proof.
  destruct e as [cpeers first|n success|name params|k]; cbn [step later].
  - intros H ->. unfold on_listing in H. destruct (list_peers cpeers) as [curr|[]]; try done; [|by injection H as <- <-..].
    destruct (decide _) as [E|E]; injection H as <- <-; [by rewrite E|]. apply follow_listing.
  - intros [= H] _. unfold on_create_result in H. destruct success; cbn [negb] in H; [by eapply follow_create|by injection H as <- <-].
  - intros H _. unfold on_notification in H. destruct (decide _); [|destruct (decide _); by injection H as <- <-].
    unfold on_channel_opened in H. destruct (opened_id params) as [n|x]; [|by eapply follow_catching].
    injection H as H. by eapply follow_create.
  - intros H _. destruct (waiting s !! k) as [params|]; [|by injection H as <- <-].
    destruct (initted s); [|by injection H as <- <-]. unfold on_channel_state_changed in H.
    destruct (read_change params) as [c|e]; [|by apply follow_catching in H].
    injection H as H. by apply follow_change in H.
Qed.

(** ** The view of the channels *)

(** No peer is kept with no channels. *)
Definition view_ok (o : gmap Node (gset bytes)) : Prop := map_Forall (fun _ ids => ids <> ∅) o.

Lemma list_peer_spec curr p curr' :
  list_peer curr p = inl curr' ->
  exists ids k, foldM list_channel (channels p.2) (∅, O) = inl (ids, k)
    /\ curr' = (if decide (ids = ∅) then curr else <[p.1 := ids]> curr).
Proof. unfold list_peer. destruct (foldM _ _ _) as [[ids k]|]; [|done]. cbn [obind fst]. intros [= <-]. eauto. Qed.

Lemma list_channels_open chans ids k :
  foldM list_channel chans (∅, O) = inl (ids, k) -> ids <> ∅ <-> exists chan, chan ∈ chans /\ is_open chan = inl true.
Proof.
  intros H. apply (foldM_inv (fun l st => st.1 <> ∅ <-> exists chan, chan ∈ l /\ is_open chan = inl true)) in H; [done| |].
  - cbn. split; [done|]. intros (c & Hc & _). by apply not_elem_of_nil in Hc.
  - intros l [ids0 k0] chan [ids1 k1] IH E. cbn [fst] in *. cbn [list_channel] in E.
    assert (forall P, (exists c, c ∈ l ++ [chan] /\ P c) <-> (exists c, c ∈ l /\ P c) \/ P chan) as Hex.
    { intros P. split.
      - intros (c & [Hc|Hc%list_elem_of_singleton]%elem_of_app & HP); [left; eauto|right; by subst].
      - intros [(c & Hc & HP)|HP]; [exists c|exists chan]; (split; [|done]); apply elem_of_app; [by left|right; left]. }
    rewrite Hex. destruct (is_open chan) as [[]|] eqn:Eo; cbn [obind negb] in E; [| |done].
    + assert (ids1 <> ∅); [|by split; [right|]]. destruct (channel_id_of chan) as [[id|]|]; cbn [obind] in E; [..|done];
        injection E as <- <-; set_solver.
    + injection E as <- <-. rewrite IH. split; [by left|]. intros [Hl|Hl]; [done|discriminate].
Qed.

Lemma list_peers_spec cpeers curr :
  list_peers cpeers = inl curr ->
  view_ok curr /\ forall n, n ∈ dom curr <-> exists p chan, cpeers !! n = Some p /\ chan ∈ channels p /\ is_open chan = inl true.
Proof.
  unfold list_peers. intros H.
  apply (foldM_inv (fun l (curr : gmap Node (gset bytes)) => NoDup l.*1 -> view_ok curr /\ forall n, n ∈ dom curr <-> exists p chan, (n, p) ∈ l /\ chan ∈ channels p /\ is_open chan = inl true)) in H.
  - destruct H as [H1 H2]. split; [done|]. intros n. rewrite H2. by setoid_rewrite elem_of_map_to_list.
  - intros _. split; [apply map_Forall_empty|]. intros n. rewrite dom_empty_L. split; [set_solver|]. intros (p & c & Hp & _). by apply not_elem_of_nil in Hp.
  - intros l c0 [m p] c1 IH E Hn. apply list_peer_spec in E as (ids & k & Ef & ->). apply list_channels_open in Ef. cbn [fst snd] in *.
    rewrite fmap_app in Hn. apply NoDup_app in Hn as (Hn & _ & _). destruct (IH Hn) as [H1 H2]. clear IH.
    assert (forall n, (exists q chan, (n, q) ∈ l ++ [(m, p)] /\ chan ∈ channels q /\ is_open chan = inl true)
       <-> (exists q chan, (n, q) ∈ l /\ chan ∈ channels q /\ is_open chan = inl true) \/ (n = m /\ ids <> ∅)) as Hex.
    { intros n. rewrite Ef. split.
      - intros (q & c & [Hq|Hq%list_elem_of_singleton]%elem_of_app & HP); [left; eauto|right]. injection Hq as -> ->. eauto.
      - intros [(q & c & Hq & HP)|(-> & c & HP)]; [exists q, c|exists p, c]; (split; [|done]); apply elem_of_app; [by left|right; left]. }
    split.
    + destruct (decide (ids = ∅)); [done|]. by apply map_Forall_insert_2.
    + intros n. rewrite Hex, <- H2. destruct (decide (ids = ∅)) as [E|E]; [|rewrite dom_insert_L]; set_solver.
  - apply NoDup_fst_map_to_list.
Qed.

Lemma update_open_ok o c : view_ok o -> view_ok (update_open o c).
Proof.
  intros H. unfold update_open. destruct (decide _); [done|]. destruct (_ && _).
  - apply map_Forall_insert_2; [set_solver|done].
  - destruct (o !! node c) as [ids|]; [|done]. destruct (decide _); [by apply map_Forall_delete|by apply map_Forall_insert_2].
Qed.

(** The channels a change makes known as open, one by one. *)
Lemma update_open_spec o c n x :
  channel_id c <> [] ->
  x ∈ ids_at (update_open o c) n
  <-> if decide (n = node c /\ x = channel_id c) then negb (leaving c) && open_state (new_state c) = true
      else x ∈ ids_at o n.
Proof.
  intros Hc. unfold update_open. rewrite decide_False by done. unfold ids_at.
  destruct (decide (n = node c)) as [->|Hn].
  - destruct (_ && _).
    + rewrite lookup_insert_eq. cbn [default from_option id]. destruct (decide _) as [[_ ->]|H]; set_solver.
    + destruct (o !! node c) as [ids|] eqn:Eo; cbn [default from_option id].
      * destruct (decide (_ = ∅)) as [E|E]; [rewrite lookup_delete_eq|rewrite lookup_insert_eq]; cbn [default from_option id];
          destruct (decide _) as [[_ ->]|H]; set_solver.
      * rewrite Eo. cbn [default from_option id]. destruct (decide _); set_solver.
  - rewrite decide_False by tauto. destruct (_ && _); [by rewrite lookup_insert_ne|].
    destruct (o !! node c); [|done]. destruct (decide _); [by rewrite lookup_delete_ne|by rewrite lookup_insert_ne].
Qed.

Lemma ids_none o n : view_ok o -> (o !! n = None <-> ids_at o n = ∅).
Proof.
  intros H. unfold ids_at. destruct (o !! n) as [ids|] eqn:E; cbn [default from_option]; [|done].
  unfold id. split; [done|]. intros ->. by apply H in E.
Qed.

Lemma step_view_ok s e s' l : step s e = Some (s', l) -> view_ok (open_channels s) -> view_ok (open_channels s').
Proof.
  assert (forall s0 n s1 l1, create s0 n = (s1, l1) -> open_channels s1 = open_channels s0) as Hc.
  { intros s0 n s1 l1. unfold create. destruct (decide _); by intros [= <- <-]. }
  assert (forall s0 x s1 l1, catching s0 x = Some (s1, l1) -> s1 = s0) as Hx by (by intros s0 [] s1 l1 [= <- <-]).
  destruct e as [cpeers first|n success|name params|k]; cbn [step]; intros H Hv.
  - unfold on_listing in H. destruct (list_peers cpeers) as [curr|[]] eqn:E; try done; [|by injection H as <- <-..].
    apply list_peers_spec in E as [E _]. destruct first; [by injection H as <- <-|]. destruct (decide _); by injection H as <- <-.
  - injection H as H. unfold on_create_result in H. destruct success; cbn [negb] in H; [|by injection H as <- <-].
    apply Hc in H. by rewrite H.
  - unfold on_notification in H. destruct (decide _); [|destruct (decide _); by injection H as <- <-].
    unfold on_channel_opened in H. destruct (opened_id params) as [n|x]; [|apply Hx in H; by subst].
    injection H as H. apply Hc in H. by rewrite H.
  - destruct (waiting s !! k) as [params|]; [|by injection H as <- <-].
    destruct (initted s); [|by injection H as <- <-]. unfold on_channel_state_changed in H.
    destruct (read_change params) as [c|x]; [|apply Hx in H; by subst].
    injection H as H. unfold apply_change in H. apply (update_open_ok _ c) in Hv.
    destruct (negb (leaving c)); [by injection H as <- <-|]. destruct (_ && _); [by injection H as <- <-|].
    destruct (decide _); by injection H as <- <-.
Qed.

Lemma run_snoc_view s es s' tr : run s es = Some (s', tr) -> view_ok (open_channels s) -> view_ok (open_channels s').
Proof.
  revert s tr. induction es as [|e es IH]; intros s tr H Hv; cbn [run] in H; [by injection H as <- <-|].
  destruct (step s e) as [[s1 l1]|] eqn:E; [|done]. cbn [mbind option_bind] in H.
  destruct (run s1 es) as [[s2 l2]|] eqn:Er; [|done]. injection H as <- <-. eapply IH; [done|]. by eapply step_view_ok.
Qed.

(** ** Properties *)

(** The same for a module that takes over the peers of a listing that starts the monitor,
    and follows the announcements otherwise. *)
Definition takes_over (c : option (gset Node)) (e : Event) (l : list Label) : option (gset Node) :=
  match e with
  | E_listing cpeers true => match list_peers cpeers with inl curr => Some (dom curr) | inr _ => c end
  | _ => foldl follow c l
  end.

Fixpoint observes (c : option (gset Node)) (s : Monitor) (es : list Event) : option (gset Node) :=
  match es with
  | [] => c
  | e :: es => '(s', l) ← step s e; observes (takes_over c e l) s' es
  end.

Lemma takes_over_step s e s' l : step s e = Some (s', l) -> takes_over (Some (channeled s)) e l = Some (channeled s').
Proof.
  intros H. assert (later e -> takes_over (Some (channeled s)) e l = Some (channeled s')) as Hl.
  { intros He. pose proof (follow_step _ _ _ _ H He) as Hf. destruct e as [cpeers []| | |]; try done. }
  destruct e as [cpeers []| | |]; try (by apply Hl). cbn [takes_over]. cbn [step] in H. unfold on_listing in H.
  destruct (list_peers cpeers) as [curr|[]]; try done; by injection H as <- <-.
Qed.

(** C17: the announcements are exact from the first listing on.  A module that takes over the
    peers of the listing that starts the monitor, and follows the announcements otherwise,
    never sees a channel created that is there, nor one destroyed that is not, and has the
    monitor's set of peers at any time, whatever happens.  So does one that only follows the
    announcements after that listing. *)
Theorem announcements_exact s es s' tr :
  run s es = Some (s', tr) ->
  observes (Some (channeled s)) s es = Some (channeled s')
  /\ (Forall later es -> follow_all (channeled s) tr = Some (channeled s')).
Proof.
  revert s tr. induction es as [|e es IH]; intros s tr H; cbn [run] in H; [by injection H as <- <-|].
  destruct (step s e) as [[s1 l1]|] eqn:E; [|done]. cbn [mbind option_bind] in H.
  destruct (run s1 es) as [[s2 l2]|] eqn:Er; [|done]. injection H as <- <-. destruct (IH s1 l2 Er) as [H1 H2]. split.
  - cbn [observes]. rewrite E. cbn [mbind option_bind]. by rewrite (takes_over_step _ _ _ _ E).
  - intros Hl. apply Forall_cons in Hl as [He Hl]. rewrite follow_app, (follow_step _ _ _ _ E He). by apply H2.
Qed.

(** After a listing that can be read, the set of peers is that of the peers with an open
    channel, whatever was known before; and no peer is kept without channels. *)
Theorem listing_exact s cpeers first curr :
  list_peers cpeers = inl curr ->
  exists s' l, on_listing s cpeers first = Some (s', l) /\ view_ok (open_channels s')
    /\ forall n, n ∈ channeled s' <-> exists p chan, cpeers !! n = Some p /\ chan ∈ channels p /\ is_open chan = inl true.
Proof.
  intros E. pose proof (list_peers_spec _ _ E) as [H1 H2]. unfold on_listing. rewrite E.
  destruct first; [|destruct (decide _)]; do 2 eexists; (split; [reflexivity|]); done.
Qed.

(** A channel that leaves the live states destroys the peer's standing exactly if it was
    the last channel to the peer that is known to be open; otherwise it is only forgotten. *)
Theorem last_channel_destroys es s tr c s' l :
  run initial es = Some (s, tr) -> apply_change s c = (s', l) -> channel_id c <> [] -> leaving c = true ->
  (forall n, ChannelDestruction n ∈ l <->
     n = node c /\ n ∈ channeled s /\ forall id, id ∈ ids_at (open_channels s) n -> id = channel_id c)
  /\ forall n id, id ∈ ids_at (open_channels s') n <-> id ∈ ids_at (open_channels s) n /\ ~ (n = node c /\ id = channel_id c).
Proof.
  intros Hr E Hid Hl. apply run_snoc_view in Hr as Hv; [|apply map_Forall_empty].
  unfold apply_change in E. rewrite Hl, (bool_decide_eq_false_2 _ Hid) in E. cbn [negb andb open_channels with_open] in E.
  pose proof (ids_none _ (node c) (update_open_ok _ c Hv)) as Hnone.
  assert (forall n id, id ∈ ids_at (update_open (open_channels s) c) n
      <-> id ∈ ids_at (open_channels s) n /\ ~ (n = node c /\ id = channel_id c)) as Hu.
  { intros n id. rewrite update_open_spec by done. rewrite Hl. destruct (decide (n = node c /\ id = channel_id c)) as [H|H]; [split; [discriminate|tauto]|tauto]. }
  destruct (bool_decide (is_Some (update_open (open_channels s) c !! node c))) eqn:Eb.
  - injection E as <- <-. split; [|exact Hu]. intros n. split; [by intros ?%not_elem_of_nil|]. intros (-> & _ & H).
    apply bool_decide_eq_true in Eb. exfalso. apply eq_None_not_Some in Eb; [done|]. apply Hnone. apply set_eq. intros id.
    rewrite Hu. set_solver.
  - apply bool_decide_eq_false, eq_None_not_Some in Eb. cbn [channeled with_open] in E.
    assert (forall id, id ∈ ids_at (open_channels s) (node c) -> id = channel_id c) as Hall.
    { intros id H. apply Hnone in Eb. destruct (decide (id = channel_id c)) as [|Hne]; [done|]. exfalso.
      assert (id ∈ ids_at (update_open (open_channels s) c) (node c)) by (apply Hu; naive_solver). set_solver. }
    destruct (decide (node c ∈ channeled s)) as [Hn|Hn]; injection E as <- <-; (split; [|exact Hu]); intros n.
    + rewrite list_elem_of_singleton. split; [by intros [= ->]|]. by intros (-> & _).
    + split; [by intros ?%not_elem_of_nil|]. by intros (-> & ? & _).
Qed.

(** The channels that the carpenter built are announced, once each and whether or not the
    node notified them before. *)
Theorem built_channels_announced s tr :
  exists s' l, run s (map (fun r => E_create_result r.1 r.2) (Carpenter.results tr)) = Some (s', l)
  /\ (forall n, n ∈ channeled s' <-> n ∈ channeled s \/ (n, true) ∈ Carpenter.results tr)
  /\ NoDup l /\ forall n, ChannelCreation n ∈ l <-> n ∉ channeled s /\ (n, true) ∈ Carpenter.results tr.
Proof.
  generalize (Carpenter.results tr). intros rs. revert s. induction rs as [|[m ok] rs IH]; intros s; cbn [map run].
  - do 2 eexists. split; [done|]. split; [|split; [constructor|]]; intros n; rewrite ?elem_of_nil; naive_solver.
  - cbn [step fst snd mbind option_bind]. destruct (on_create_result s m ok) as [s1 l1] eqn:E.
    destruct (IH s1) as (s2 & l2 & -> & H1 & H2 & H3). clear IH. do 2 eexists. split; [done|].
    unfold on_create_result, create in E. destruct ok; cbn [negb] in E.
    + destruct (decide _) as [Hm|Hm]; injection E as <- <-; cbn [app channeled with_channeled] in *.
      * split; [|split; [done|]]; intros n; rewrite ?H1, ?H3, !elem_of_cons; naive_solver.
      * split; [intros n; rewrite H1, elem_of_cons, elem_of_union, elem_of_singleton; naive_solver|]. split.
        -- constructor; [|done]. rewrite H3, elem_of_union, elem_of_singleton. naive_solver.
        -- intros n. rewrite !elem_of_cons, H3, elem_of_union, elem_of_singleton. destruct (decide (n = m)) as [->|Hne]; [naive_solver|].
           split; [intros [[= ->]|H]|]; naive_solver.
    + injection E as <- <-. split; [|split; [done|]]; intros n; rewrite ?H1, ?H3, elem_of_cons; naive_solver.
Qed.

(** ** Runs *)

Definition demo_peer (states : list string) : ConstructedListpeer :=
  {| connected := true;
     channels := imap (fun k s => JObj [(lit "state", JStr (lit s)); (lit "channel_id", JStr (lit "c" ++ dec (Z.of_nat k)))]) states |}.

Definition demo_opened : json :=
  JObj [(lit "channel_opened", JObj [(lit "id", JStr (NodeId.to_string (Carpenter.demo_node 1)))])].

(** A channel that opens while the first listing is under way is announced, forgotten by
    that listing, and announced again by the next one. *)
Theorem early_opening_repeats :
  exists n cpeers s, run initial [E_notification (lit "channel_opened") demo_opened; E_listing ∅ true; E_listing cpeers false]
    = Some (s, [ChannelCreation n; ChannelCreation n]).
Proof.
  exists (Carpenter.demo_node 1), {[Carpenter.demo_node 1 := demo_peer ["CHANNELD_AWAITING_LOCKIN"]]}. eexists. vm_compute. reflexivity.
Qed.

(** A notification without the expected payload raises a type error, which the handler
    does not catch. *)
Example missing_payload_escapes s : on_channel_opened s (JObj []) = Some (s, [Escapes Logic]).
Proof. reflexivity. Qed.

Definition demo_change (id : string) : json :=
  JObj [(lit "channel_state_changed", JObj [(lit "peer_id", JStr (NodeId.to_string (Carpenter.demo_node 1)));
    (lit "channel_id", JStr (lit id)); (lit "old_state", JStr (lit "CHANNELD_NORMAL"));
    (lit "new_state", JStr (lit "CHANNELD_SHUTTING_DOWN"))])].

Definition demo_events : list Event :=
  [E_notification (lit "channel_state_changed") (demo_change "c0"); E_run 0;
   E_listing {[Carpenter.demo_node 1 := demo_peer ["CHANNELD_NORMAL"; "OPENINGD"; "ONCHAIN"]]} true; E_run 0].

Definition demo_monitor : Monitor :=
  {| initted := true; channeled := {[Carpenter.demo_node 1]}; open_channels := {[Carpenter.demo_node 1 := {[lit "c1"]}]}; waiting := [] |}.

Lemma demo_monitor_run : run initial demo_events = Some (demo_monitor, []).
Proof. vm_compute. reflexivity. Qed.

Lemma announcements_exact_witness :
  exists s' tr, run demo_monitor [E_create_result None true; E_listing ∅ false] = Some (s', tr) /\ length tr = 3%nat
    /\ follow_all {[Carpenter.demo_node 1]} tr = Some (channeled s').
Proof.
  eexists _, _. split; [vm_compute; reflexivity|]. split; [reflexivity|].
  apply (announcements_exact demo_monitor [E_create_result None true; E_listing ∅ false]); [vm_compute; reflexivity|repeat constructor].
Defined.

Lemma listing_exact_witness :
  exists s' l, on_listing initial {[Carpenter.demo_node 1 := demo_peer ["CHANNELD_NORMAL"]]} true = Some (s', l) /\ view_ok (open_channels s')
    /\ forall n, n ∈ channeled s' <-> exists p chan, ({[Carpenter.demo_node 1 := demo_peer ["CHANNELD_NORMAL"]]} : ConstructedListpeers) !! n = Some p
         /\ chan ∈ channels p /\ is_open chan = inl true.
Proof. eapply (listing_exact initial {[Carpenter.demo_node 1 := demo_peer ["CHANNELD_NORMAL"]]} true). vm_compute. reflexivity. Defined.

Lemma last_channel_destroys_witness :
  exists s' l c, read_change (demo_change "c1") = inl c /\ apply_change demo_monitor c = (s', l) /\ ChannelDestruction (Carpenter.demo_node 1) ∈ l.
Proof.
  eexists _, _, _. split; [vm_compute; reflexivity|]. split; [vm_compute; reflexivity|].
  eapply (last_channel_destroys demo_events demo_monitor [] {| node := Carpenter.demo_node 1; channel_id := lit "c1";
    old_state := lit "CHANNELD_NORMAL"; new_state := lit "CHANNELD_SHUTTING_DOWN" |}).
  - exact demo_monitor_run.
  - vm_compute. reflexivity.
  - discriminate.
  - vm_compute. reflexivity.
  - split; [reflexivity|]. split; [vm_compute; reflexivity|]. intros id H.
    apply (elem_of_singleton (C := gset bytes)). exact H.
Defined.

End ChannelMonitor.
