(* ===== verification/PeerStats.v ===== *)
(** * Statistics and metrics of peers, and complaints about unreachable peers

    - [Statistician] (src/Boss/Mod/PeerStatistician.cpp): the tables of payments, of
      connection samples and of forwarding fees, and the statistics over a time frame;
    - [Metrician] (src/Boss/Mod/PeerMetrician.cpp): the rates that follow from them;
    - [LowConnectRate] (src/Boss/Mod/ComplainerByLowConnectRate.cpp): the peers that are
      complained about; the complaints go to the desk of [Complaints].

    A handler waits for the database and then works in one transaction: it is a thread, and
    threads proceed in any order.  Within a transaction the time is that of the event loop
    and does not change.  The tables survive a restart. *)

From stdpp Require Import base list numbers strings gmap sets.
From Stdlib Require Import QArith Qround Lqa.
From S2P Require Import Prelude.
From S2P Require Import Double.
From S2P Require Import Amount.
From S2P Require Import LnIds.
From S2P Require Import UtilStr.
From S2P Require Import Jsmn.
From S2P Require Import Reply.
From S2P Require Import Peers.
Import Jsmn.
Import Reply.
Import Peers.

#[local] Open Scope Z_scope.
#[local] Open Scope reply_scope.

(** ** The tables and the statistics *)

Module Statistician.

Record Sendpay := { sp_id : Node; sp_creation : double; lockrealtime : double; destination_reached : bool }.
Record Connection := { co_id : Node; co_creation : double; co_connected : bool }.
Record ForwardFee := { in_id : Node; out_id : Node; ff_creation : double; fee : Amount; resolution_time : double }.

Record Db := {
  peers : gmap Node double;                       (* the time of the first record *)
  sendpayresults : list Sendpay;
  connection : list Connection;
  forwardfees : list ForwardFee;
  externpays : gmap bytes double
}.

Definition empty : Db := {| peers := ∅; sendpayresults := []; connection := []; forwardfees := []; externpays := ∅ |}.

(** Three months. *)
Definition max_entry_age : double := d_of_Z (3 * 30 * 24 * 60 * 60).

Definition old (now creation : double) : bool := dlt (dadd creation max_entry_age) now.

Definition clean_entries (d : Db) (now : double) : Db :=
  {| peers := peers d;
     sendpayresults := filter (fun r => old now (sp_creation r) = false) (sendpayresults d);
     connection := filter (fun r => old now (co_creation r) = false) (connection d);
     forwardfees := filter (fun r => old now (ff_creation r) = false) (forwardfees d);
     externpays := filter (fun e => old now e.2 = false) (externpays d) |}.

(** [INSERT OR IGNORE] *)
Definition make_entry (d : Db) (n : Node) (now : double) : Db :=
  {| peers := match peers d !! n with Some _ => peers d | None => <[n := now]> (peers d) end;
     sendpayresults := sendpayresults d; connection := connection d; forwardfees := forwardfees d; externpays := externpays d |}.

Record SendpayResult := {
  creation_time : double; completion_time : double; first_hop : Node; payment_hash : bytes; reached_destination : bool
}.

(** [creation] is the time when the result came. *)
Definition add_sendpayresult (d : Db) (r : SendpayResult) (creation now : double) : Db :=
  if bool_decide (is_Some (externpays d !! payment_hash r)) then d
  else
    let d := make_entry d (first_hop r) now in
    {| peers := peers d;
       sendpayresults := sendpayresults d
         ++ [{| sp_id := first_hop r; sp_creation := creation; lockrealtime := dsub (completion_time r) (creation_time r);
                destination_reached := reached_destination r |}];
       connection := connection d; forwardfees := forwardfees d; externpays := externpays d |}.

Definition add_connection (conn : bool) (now : double) (d : Db) (n : Node) : Db :=
  let d := make_entry d n now in
  {| peers := peers d; sendpayresults := sendpayresults d;
     connection := connection d ++ [{| co_id := n; co_creation := now; co_connected := conn |}];
     forwardfees := forwardfees d; externpays := externpays d |}.

(** The foreign keys delete the rows of the peer in the other tables. *)
Definition delete_peer (d : Db) (n : Node) : Db :=
  {| peers := delete n (peers d);
     sendpayresults := filter (fun r => sp_id r <> n) (sendpayresults d);
     connection := filter (fun r => co_id r <> n) (connection d);
     forwardfees := filter (fun r => in_id r <> n /\ out_id r <> n) (forwardfees d);
     externpays := externpays d |}.

(** The peers that are dropped, since they have no channels. *)
Definition unchanneled (d : Db) (channeled : gset Node) : list Node := base.elements (dom (peers d) ∖ channeled).
Definition destroy_unchanneled (d : Db) (channeled : gset Node) : Db := foldl delete_peer d (unchanneled d channeled).

(** With no connection at all the outage is ours, and the absent are not blamed. *)
Definition absent (ar : Analyzed) : list Node :=
  if all_peers_disconnected ar then [] else base.elements (disconnected_channeled ar).

Definition add_samples (d : Db) (ar : Analyzed) (now : double) : Db :=
  foldl (add_connection false now) (foldl (add_connection true now) d (base.elements (connected_channeled ar))) (absent ar).

Definition all_channeled (ar : Analyzed) : gset Node := connected_channeled ar ∪ disconnected_channeled ar.

Definition sample (d : Db) (ar : Analyzed) (now : double) : Db :=
  destroy_unchanneled (add_samples d ar now) (all_channeled ar).

Definition add_forwardfee (d : Db) (i o : Node) (f : Amount) (r now : double) : Db :=
  let d := make_entry (make_entry d i now) o now in
  {| peers := peers d; sendpayresults := sendpayresults d; connection := connection d;
     forwardfees := forwardfees d ++ [{| in_id := i; out_id := o; ff_creation := now; fee := f; resolution_time := r |}];
     externpays := externpays d |}.

Definition externpay (d : Db) (hash : bytes) (now : double) : Db :=
  {| peers := peers d; sendpayresults := sendpayresults d; connection := connection d; forwardfees := forwardfees d;
     externpays := <[hash := now]> (externpays d) |}.

(** *** Statistics over a time frame *)

Record Stats := {
  start_time : double; end_time : double; age : double; total_lock : double; attempts : Z; successes : Z;
  connects : Z; connect_checks : Z; in_fee : Amount; out_fee : Amount
}.

Definition new_entry (d : Db) (n : Node) (start end_ now : double) : Stats :=
  let node_start := default (Fin 0) (peers d !! n) in
  {| start_time := if dlt start node_start then node_start else start; end_time := end_; age := dsub now node_start;
     total_lock := Fin 0; attempts := 0; successes := 0; connects := 0; connect_checks := 0; in_fee := 0; out_fee := 0 |}.

(** [get_entry], and the update of the entry it gives. *)
Definition update_entry (d : Db) (start end_ now : double) (data : gmap Node Stats) (n : Node) (f : Stats -> Stats) : gmap Node Stats :=
  <[n := f (default (new_entry d n start end_ now) (data !! n))]> data.

Definition count_sendpay (r : Sendpay) (e : Stats) : Stats :=
  {| start_time := start_time e; end_time := end_time e; age := age e; total_lock := dadd (total_lock e) (lockrealtime r);
     attempts := attempts e + 1; successes := if destination_reached r then successes e + 1 else successes e;
     connects := connects e; connect_checks := connect_checks e; in_fee := in_fee e; out_fee := out_fee e |}.

Definition count_connection (r : Connection) (e : Stats) : Stats :=
  {| start_time := start_time e; end_time := end_time e; age := age e; total_lock := total_lock e; attempts := attempts e;
     successes := successes e; connects := if co_connected r then connects e + 1 else connects e;
     connect_checks := connect_checks e + 1; in_fee := in_fee e; out_fee := out_fee e |}.

Definition count_in (f : Amount) (e : Stats) : Stats :=
  {| start_time := start_time e; end_time := end_time e; age := age e; total_lock := total_lock e; attempts := attempts e;
     successes := successes e; connects := connects e; connect_checks := connect_checks e;
     in_fee := Amount.add (in_fee e) f; out_fee := out_fee e |}.

Definition count_out (f : Amount) (e : Stats) : Stats :=
  {| start_time := start_time e; end_time := end_time e; age := age e; total_lock := total_lock e; attempts := attempts e;
     successes := successes e; connects := connects e; connect_checks := connect_checks e;
     in_fee := in_fee e; out_fee := Amount.add (out_fee e) f |}.

(** [:start_time <= creation AND creation <= :end_time] *)
Definition within (start end_ creation : double) : bool := dle start creation && dle creation end_.

Definition get_stats (d : Db) (start end_ now : double) : gmap Node Stats :=
  let upd := update_entry d start end_ now in
  let data := foldl (fun data r => upd data (sp_id r) (count_sendpay r)) ∅
                (filter (fun r => within start end_ (sp_creation r) = true) (sendpayresults d)) in
  let data := foldl (fun data r => upd data (co_id r) (count_connection r)) data
                (filter (fun r => within start end_ (co_creation r) = true) (connection d)) in
  foldl (fun data r => upd (upd data (in_id r) (count_in (fee r))) (out_id r) (count_out (fee r))) data
    (filter (fun r => within start end_ (ff_creation r) = true) (forwardfees d)).

(** *** The module *)

(** The hash of [clboss-externpay], in lower case; [None] is a parameter error. *)
Definition command_hash (params : json) : outcome (option bytes) :=
  let* hash_j :=
    (match params with
     | JArr [j] => inl (Some j)
     | JObj _ => let* h := has (Some params) "payment_hash" in if (h : bool) then get (Some params) "payment_hash" else inl None
     | _ => inl None
     end) in
  if negb (jis_string hash_j) then inl None
  else
    let* s := text hash_j in
    if negb ((length s =? 64)%nat && Str.ishex s) then inl None
    else inl (Str.hexdump <$> Str.hexread s).

Inductive Thread :=
| T_clean
| T_sendpay (r : SendpayResult) (creation : double)
| T_sample (ar : Analyzed)
| T_fee (i o : Node) (f : Amount) (r : double)
| T_externpay (hash : bytes)
| T_stats (start end_ : double).                 (* waits for the database, too *)

Record State := {
  db : bool; online : bool; blackout : bool;      (* [blackout] is the member [all_peers_disconnected] *)
  tables : Db; threads : list Thread
}.

Definition boot (d : Db) : State := {| db := false; online := false; blackout := false; tables := d; threads := [] |}.

Definition spawn (s : State) (t : Thread) : State :=
  {| db := db s; online := online s; blackout := blackout s; tables := tables s; threads := threads s ++ [t] |}.

Inductive Event :=
| E_online (b : bool)
| E_db
| E_daily
| E_sendpay (r : SendpayResult) (now : double)
| E_listpeers (ar : Analyzed) (initial : bool)
| E_forwardfee (i o : Node) (f : Amount) (r : double)
| E_request (start end_ : double)
| E_externpay (hash : bytes)                    (* a valid hash *)
| E_run (k : nat) (now : double)
| E_restart.

(** A record that is written, or a response. *)
Inductive Label :=
| Sampled (n : Node) (conn : bool) (now : double)
| Dropped (n : Node)
| Paid (n : Node) (reached : bool) (creation : double)
| Response (data : gmap Node Stats).

Definition run_thread (d : Db) (t : Thread) (now : double) : Db * list Label :=
  match t with
  | T_clean => (clean_entries d now, [])
  | T_sendpay r creation =>
      (add_sendpayresult d r creation now,
       if bool_decide (is_Some (externpays d !! payment_hash r)) then [] else [Paid (first_hop r) (reached_destination r) creation])
  | T_sample ar =>
      (sample d ar now,
       map (fun n => Sampled n true now) (base.elements (connected_channeled ar))
       ++ map (fun n => Sampled n false now) (absent ar)
       ++ map Dropped (unchanneled (add_samples d ar now) (all_channeled ar)))
  | T_fee i o f r => (add_forwardfee d i o f r now, [])
  | T_externpay hash => (externpay d hash now, [])
  | T_stats start end_ => (d, [Response (get_stats d start end_ now)])
  end.

Definition waits_for_db (t : Thread) : bool := match t with T_stats _ _ | T_externpay _ => true | _ => false end.

Definition step (s : State) (e : Event) : State * list Label :=
  let when_db t := (if db s then spawn s t else s, []) in
  match e with
  | E_online b => ({| db := db s; online := b; blackout := blackout s; tables := tables s; threads := threads s |}, [])
  | E_db => ({| db := true; online := online s; blackout := blackout s; tables := tables s; threads := threads s ++ [T_clean] |}, [])
  | E_daily => when_db T_clean
  | E_sendpay r now => when_db (T_sendpay r now)
  | E_listpeers ar initial =>
      if negb (db s) || initial || negb (online s) then (s, [])
      else (spawn {| db := db s; online := online s; blackout := all_peers_disconnected ar; tables := tables s; threads := threads s |}
                  (T_sample ar), [])
  | E_forwardfee i o f r => when_db (T_fee i o f r)
  | E_request start end_ => (spawn s (T_stats start end_), [])
  | E_externpay hash => (spawn s (T_externpay hash), [])
  | E_run k now =>
      match threads s !! k with
      | None => (s, [])
      | Some t =>
          if waits_for_db t && negb (db s) then (s, [])
          else
            let '(d, l) := run_thread (tables s) t now in
            ({| db := db s; online := online s; blackout := blackout s; tables := d; threads := delete k (threads s) |}, l)
      end
  | E_restart => (boot (tables s), [])
  end.

Fixpoint run (s : State) (es : list Event) : State * list Label :=
  match es with
  | [] => (s, [])
  | e :: es => let '(s1, l1) := step s e in let '(s2, l2) := run s1 es in (s2, l1 ++ l2)
  end.

(** *** Statistics as sums over the rows of a peer *)

(** The updates of [get_stats], in order. *)
Definition updates (d : Db) (start end_ : double) : list (Node * (Stats -> Stats)) :=
  map (fun r => (sp_id r, count_sendpay r)) (filter (fun r => within start end_ (sp_creation r) = true) (sendpayresults d))
  ++ map (fun r => (co_id r, count_connection r)) (filter (fun r => within start end_ (co_creation r) = true) (connection d))
  ++ concat (map (fun r => [(in_id r, count_in (fee r)); (out_id r, count_out (fee r))])
               (filter (fun r => within start end_ (ff_creation r) = true) (forwardfees d))).

Lemma get_stats_updates d start end_ now :
  get_stats d start end_ now = foldl (fun data u => update_entry d start end_ now data u.1 u.2) ∅ (updates d start end_).
Proof.
  unfold get_stats, updates. rewrite !foldl_app, !foldl_fmap. cbn [fst snd].
  generalize (foldl (fun data r => update_entry d start end_ now data (co_id r) (count_connection r))
    (foldl (fun data r => update_entry d start end_ now data (sp_id r) (count_sendpay r)) ∅
       (filter (fun r => within start end_ (sp_creation r) = true) (sendpayresults d)))
    (filter (fun r => within start end_ (co_creation r) = true) (connection d))).
  induction (filter _ (forwardfees d)) as [|r l IH]; intros data; [done|]. cbn [foldl map concat app fst snd]. apply IH.
Qed.

Definition apply_updates (e : Stats) (us : list (Node * (Stats -> Stats))) : Stats := foldl (fun e u => u.2 e) e us.

Lemma updates_lookup d start end_ now us data n :
  foldl (fun data u => update_entry d start end_ now data u.1 u.2) data us !! n
  = match data !! n, filter (fun u => u.1 = n) us with
    | None, [] => None
    | o, us => Some (apply_updates (default (new_entry d n start end_ now) o) us)
    end.
Proof.
  revert data. induction us as [|[m f] us IH]; intros data; cbn [foldl fst snd].
  { by destruct (data !! n). }
  rewrite IH, filter_cons. cbn [fst]. unfold update_entry. destruct (decide (m = n)) as [->|Hne].
  - rewrite lookup_insert_eq. destruct (data !! n); done.
  - by rewrite lookup_insert_ne.
Qed.

(** The rows of a peer within the time frame. *)
Definition sends (d : Db) (start end_ : double) (n : Node) : list Sendpay :=
  filter (fun r => sp_id r = n) (filter (fun r => within start end_ (sp_creation r) = true) (sendpayresults d)).
Definition samples (d : Db) (start end_ : double) (n : Node) : list Connection :=
  filter (fun r => co_id r = n) (filter (fun r => within start end_ (co_creation r) = true) (connection d)).
Definition fees (d : Db) (start end_ : double) : list ForwardFee :=
  filter (fun r => within start end_ (ff_creation r) = true) (forwardfees d).

Definition fee_sum (l : list ForwardFee) : Amount := foldl (fun a r => Amount.add a (fee r)) 0 l.

Definition stats_of (d : Db) (start end_ now : double) (n : Node) : Stats :=
  let e := new_entry d n start end_ now in
  {| start_time := start_time e; end_time := end_time e; age := age e;
     total_lock := foldl (fun t r => dadd t (lockrealtime r)) (Fin 0) (sends d start end_ n);
     attempts := Z.of_nat (length (sends d start end_ n));
     successes := Z.of_nat (length (filter (fun r => destination_reached r = true) (sends d start end_ n)));
     connects := Z.of_nat (length (filter (fun r => co_connected r = true) (samples d start end_ n)));
     connect_checks := Z.of_nat (length (samples d start end_ n));
     in_fee := fee_sum (filter (fun r => in_id r = n) (fees d start end_));
     out_fee := fee_sum (filter (fun r => out_id r = n) (fees d start end_)) |}.

Lemma apply_sends l e n :
  apply_updates e (filter (fun u => u.1 = n) (map (fun r => (sp_id r, count_sendpay r)) l))
  = let l := filter (fun r => sp_id r = n) l in
    {| start_time := start_time e; end_time := end_time e; age := age e;
       total_lock := foldl (fun t r => dadd t (lockrealtime r)) (total_lock e) l;
       attempts := attempts e + Z.of_nat (length l);
       successes := successes e + Z.of_nat (length (filter (fun r => destination_reached r = true) l));
       connects := connects e; connect_checks := connect_checks e; in_fee := in_fee e; out_fee := out_fee e |}.
Proof.
  revert e. induction l as [|r l IH]; intros e; cbn [map].
  { destruct e. cbn. f_equal; lia. }
  rewrite !filter_cons. cbn [fst]. destruct (decide (sp_id r = n)) as [Hn|Hn]; [|apply IH].
  cbn [apply_updates foldl snd]. unfold apply_updates in IH. rewrite IH. cbv zeta. rewrite filter_cons. cbn [length foldl].
  unfold count_sendpay. cbn [start_time end_time age total_lock attempts successes connects connect_checks in_fee out_fee].
  destruct (destination_reached r); [rewrite decide_True by done|rewrite decide_False by done]; cbn [length]; f_equal; lia.
Qed.

Lemma apply_samples l e n :
  apply_updates e (filter (fun u => u.1 = n) (map (fun r => (co_id r, count_connection r)) l))
  = let l := filter (fun r => co_id r = n) l in
    {| start_time := start_time e; end_time := end_time e; age := age e; total_lock := total_lock e; attempts := attempts e;
       successes := successes e; connects := connects e + Z.of_nat (length (filter (fun r => co_connected r = true) l));
       connect_checks := connect_checks e + Z.of_nat (length l); in_fee := in_fee e; out_fee := out_fee e |}.
Proof.
  revert e. induction l as [|r l IH]; intros e; cbn [map].
  { destruct e. cbn. f_equal; lia. }
  rewrite !filter_cons. cbn [fst]. destruct (decide (co_id r = n)) as [Hn|Hn]; [|apply IH].
  cbn [apply_updates foldl snd]. unfold apply_updates in IH. rewrite IH. cbv zeta. rewrite filter_cons. cbn [length].
  unfold count_connection. cbn [start_time end_time age total_lock attempts successes connects connect_checks in_fee out_fee].
  destruct (co_connected r); [rewrite decide_True by done|rewrite decide_False by done]; cbn [length]; f_equal; lia.
Qed.

Lemma apply_fees l e n :
  apply_updates e (filter (fun u => u.1 = n) (concat (map (fun r => [(in_id r, count_in (fee r)); (out_id r, count_out (fee r))]) l)))
  = {| start_time := start_time e; end_time := end_time e; age := age e; total_lock := total_lock e; attempts := attempts e;
       successes := successes e; connects := connects e; connect_checks := connect_checks e;
       in_fee := foldl (fun a r => Amount.add a (fee r)) (in_fee e) (filter (fun r => in_id r = n) l);
       out_fee := foldl (fun a r => Amount.add a (fee r)) (out_fee e) (filter (fun r => out_id r = n) l) |}.
Proof.
  revert e. induction l as [|r l IH]; intros e; cbn [map concat]; [by destruct e|].
  rewrite filter_app, !filter_cons. cbn [fst]. unfold apply_updates in *. rewrite foldl_app, IH.
  destruct (decide (in_id r = n)), (decide (out_id r = n)); done.
Qed.

Lemma updates_none d start end_ n :
  filter (fun u => u.1 = n) (updates d start end_) = []
  <-> sends d start end_ n = [] /\ samples d start end_ n = []
      /\ filter (fun r => in_id r = n) (fees d start end_) = [] /\ filter (fun r => out_id r = n) (fees d start end_) = [].
Proof.
  unfold updates, sends, samples, fees. rewrite !filter_app.
  assert (forall {R} (key : R -> Node) (f : R -> Stats -> Stats) l,
    filter (fun u => u.1 = n) (map (fun r => (key r, f r)) l) = [] <-> filter (fun r => key r = n) l = []) as Hmap.
  { intros R key f l. induction l as [|r l IH]; [done|]. cbn [map]. rewrite !filter_cons. cbn [fst]. by destruct (decide _). }
  assert (forall l, filter (fun u => u.1 = n) (concat (map (fun r => [(in_id r, count_in (fee r)); (out_id r, count_out (fee r))]) l)) = []
    <-> filter (fun r => in_id r = n) l = [] /\ filter (fun r => out_id r = n) l = []) as Hff.
  { intros l. induction l as [|r l IH]; [done|]. cbn [map concat]. rewrite filter_app, !filter_cons. cbn [fst].
    destruct (decide (in_id r = n)), (decide (out_id r = n)); cbn [app]; rewrite ?IH; naive_solver. }
  rewrite <- Hff, <- (Hmap _ sp_id count_sendpay), <- (Hmap _ co_id count_connection).
  split; [intros [H1 [H2 H3]%app_eq_nil]%app_eq_nil; done|]. intros (-> & -> & ->). done.
Qed.

(** *** The foreign keys *)

Record tables_ok (d : Db) : Prop := {
  ok_sends : forall r, r ∈ sendpayresults d -> sp_id r ∈ dom (peers d);
  ok_samples : forall r, r ∈ connection d -> co_id r ∈ dom (peers d);
  ok_fees : forall r, r ∈ forwardfees d -> in_id r ∈ dom (peers d) /\ out_id r ∈ dom (peers d)
}.

Lemma empty_tables_ok : tables_ok empty.
Proof. split; intros r H; by apply not_elem_of_nil in H. Qed.

Lemma clean_ok d now : tables_ok d -> tables_ok (clean_entries d now).
Proof. intros [H1 H2 H3]. split; intros r Hr; apply list_elem_of_filter in Hr as [_ Hr]; cbn [peers clean_entries]; auto. Qed.

Lemma make_entry_dom d n now : dom (peers (make_entry d n now)) = {[n]} ∪ dom (peers d).
Proof.
  cbn [make_entry peers]. destruct (peers d !! n) as [t|] eqn:E; [|by rewrite dom_insert_L].
  apply elem_of_dom_2 in E. set_solver.
Qed.

Lemma make_entry_ok d n now : tables_ok d -> tables_ok (make_entry d n now).
Proof. intros [H1 H2 H3]. split; rewrite make_entry_dom; cbn [make_entry sendpayresults connection forwardfees]; set_solver. Qed.

Lemma sendpay_ok d r creation now : tables_ok d -> tables_ok (add_sendpayresult d r creation now).
Proof.
  intros H. unfold add_sendpayresult. destruct (bool_decide _); [done|]. pose proof (make_entry_ok d (first_hop r) now H) as [H1 H2 H3].
  split; [|exact H2|exact H3]. cbn [sendpayresults peers]. intros x [Hx|Hx]%elem_of_app; [by apply H1|].
  apply list_elem_of_singleton in Hx as ->. cbn [sp_id]. rewrite make_entry_dom. set_solver.
Qed.

Lemma connection_ok conn now d n : tables_ok d -> tables_ok (add_connection conn now d n).
Proof.
  intros H. pose proof (make_entry_ok d n now H) as [H1 H2 H3].
  split; [exact H1| |exact H3]. cbn [connection peers add_connection]. intros x [Hx|Hx]%elem_of_app; [by apply H2|].
  apply list_elem_of_singleton in Hx as ->. cbn [co_id]. rewrite make_entry_dom. set_solver.
Qed.

Lemma connections_ok conn now ns d : tables_ok d -> tables_ok (foldl (add_connection conn now) d ns).
Proof. revert d. induction ns as [|n ns IH]; intros d H; [done|]. cbn [foldl]. by apply IH, connection_ok. Qed.

Lemma fee_ok d i o f r now : tables_ok d -> tables_ok (add_forwardfee d i o f r now).
Proof.
  intros H. pose proof (make_entry_ok _ o now (make_entry_ok d i now H)) as [H1 H2 H3].
  split; [exact H1|exact H2|]. cbn [forwardfees peers add_forwardfee]. intros x [Hx|Hx]%elem_of_app; [by apply H3|].
  apply list_elem_of_singleton in Hx as ->. cbn [in_id out_id]. rewrite !make_entry_dom. set_solver.
Qed.

Lemma delete_ok d n : tables_ok d -> tables_ok (delete_peer d n).
Proof.
  intros [H1 H2 H3]. split; intros r Hr; apply list_elem_of_filter in Hr as [Hne Hr]; cbn [peers delete_peer]; rewrite dom_delete_L.
  - specialize (H1 r Hr). set_solver.
  - specialize (H2 r Hr). set_solver.
  - specialize (H3 r Hr). set_solver.
Qed.

Lemma deletes_ok ns d : tables_ok d -> tables_ok (foldl delete_peer d ns).
Proof. revert d. induction ns as [|n ns IH]; intros d H; [done|]. cbn [foldl]. by apply IH, delete_ok. Qed.

Lemma run_thread_ok d t now : tables_ok d -> tables_ok (run_thread d t now).1.
Proof.
  intros H. destruct t; cbn [run_thread fst].
  - by apply clean_ok.
  - by apply sendpay_ok.
  - by apply deletes_ok, connections_ok, connections_ok.
  - by apply fee_ok.
  - by destruct H.
  - done.
Qed.

(** *** The samples of a peer as a ledger *)

(** The samples since the peer was dropped for the last time. *)
Definition note (n : Node) (rs : list (bool * double)) (l : Label) : list (bool * double) :=
  match l with
  | Sampled m conn now => if decide (m = n) then rs ++ [(conn, now)] else rs
  | Dropped m => if decide (m = n) then [] else rs
  | _ => rs
  end.
Definition sampled (tr : list Label) (n : Node) : list (bool * double) := foldl (note n) [] tr.

(** The samples of a peer in the table, of a time frame that ends in the future. *)
Definition rows (d : Db) (n : Node) : list (bool * double) :=
  map (fun r => (co_connected r, co_creation r)) (filter (fun r => co_id r = n) (connection d)).
Definition since (start : double) (rs : list (bool * double)) : list (bool * double) := filter (fun r => dle start r.2 = true) rs.

(** Nothing that began at [start] or later is too old at [now]. *)
Definition recent (start now : double) : Prop := dle now (dadd start max_entry_age) = true.

Lemma max_age_pos : dnonneg max_entry_age.
Proof. vm_compute. reflexivity. Qed.

Lemma recent_kept start now creation :
  dnonneg start -> recent start now -> dle start creation = true -> old now creation = false.
Proof.
  intros Hs Hr Hc. unfold old, recent in *. assert (dle (dadd start max_entry_age) (dadd creation max_entry_age) = true) as Hm.
  { apply dadd_mono; [done|apply max_age_pos|done|]. apply dle_refl. by vm_compute. }
  pose proof (dle_trans _ _ _ Hr Hm) as H. generalize dependent (dadd creation max_entry_age). intros x _ H.
  destruct now as [a|[]|], x as [b|[]|]; simpl in *; try done. apply negb_false_iff. exact H.
Qed.

Lemma since_app start rs1 rs2 : since start (rs1 ++ rs2) = since start rs1 ++ since start rs2.
Proof. apply filter_app. Qed.

Lemma rows_connection conn now d m n :
  rows (add_connection conn now d m) n = rows d n ++ (if decide (m = n) then [(conn, now)] else []).
Proof.
  unfold rows, add_connection. cbn [connection make_entry]. rewrite filter_app, map_app, filter_cons. cbn [co_id].
  by destruct (decide (m = n)).
Qed.

Lemma rows_connections conn now ns d n :
  rows (foldl (add_connection conn now) d ns) n = foldl (note n) (rows d n) (map (fun m => Sampled m conn now) ns).
Proof.
  revert d. induction ns as [|m ns IH]; intros d; [done|]. cbn [foldl map]. rewrite IH, rows_connection. cbn [note].
  destruct (decide (m = n)); [done|]. by rewrite app_nil_r.
Qed.

Lemma rows_delete d m n : rows (delete_peer d m) n = if decide (m = n) then [] else rows d n.
Proof.
  unfold rows, delete_peer. cbn [connection]. rewrite list_filter_filter. destruct (decide (m = n)) as [->|Hne].
  - rewrite filter_none; [done|]. apply Forall_forall. intros r _. tauto.
  - f_equal. apply list_filter_iff. intros r. naive_solver.
Qed.

Lemma rows_deletes ns d n : rows (foldl delete_peer d ns) n = foldl (note n) (rows d n) (map Dropped ns).
Proof. revert d. induction ns as [|m ns IH]; intros d; [done|]. cbn [foldl map]. by rewrite IH, rows_delete. Qed.

Lemma run_thread_rows d t now n start :
  dnonneg start -> recent start now ->
  since start (rows (run_thread d t now).1 n) = since start (foldl (note n) (rows d n) (run_thread d t now).2).
Proof.
  intros Hs Hr. destruct t as [|r creation|ar|i o f r|hash|st en]; cbn [run_thread fst snd foldl note].
  - unfold rows, clean_entries, since. cbn [connection].
    induction (connection d) as [|r l IH]; [done|]. rewrite (filter_cons _ r l). destruct (decide (old now (co_creation r) = false)) as [Ho|Ho].
    + rewrite !filter_cons. destruct (decide (co_id r = n)); [|done]. cbn [map]. rewrite !filter_cons. cbn [snd]. by rewrite IH.
    + rewrite IH. rewrite (filter_cons _ r l). destruct (decide (co_id r = n)); [|done]. cbn [map]. rewrite filter_cons. cbn [snd].
      rewrite decide_False; [done|]. intros Hd. by apply Ho, (recent_kept start).
  - f_equal. unfold add_sendpayresult, rows. destruct (bool_decide _); done.
  - f_equal. unfold sample, destroy_unchanneled, add_samples. rewrite rows_deletes, !rows_connections, <- !foldl_app. done.
  - done.
  - done.
  - done.
Qed.

Definition timely (start : double) (e : Event) : Prop := match e with E_run _ now => recent start now | _ => True end.

Lemma step_rows s e n start :
  dnonneg start -> timely start e ->
  since start (rows (tables (step s e).1) n) = since start (foldl (note n) (rows (tables s) n) (step s e).2).
Proof.
  intros Hs Ht. destruct e as [b| | |r now|ar i|i o f r|st en|h|k now|]; cbn [step]; try done; try (by destruct (db s)).
  - by destruct (_ || _).
  - destruct (threads s !! k) as [t|]; [|done]. destruct (_ && _); [done|].
    pose proof (run_thread_rows (tables s) t now n start Hs Ht) as H. by destruct (run_thread _ _ _) as [d l].
Qed.

Lemma since_note n start rs rs' tr :
  since start rs = since start rs' -> since start (foldl (note n) rs tr) = since start (foldl (note n) rs' tr).
Proof.
  revert rs rs'. induction tr as [|l tr IH]; intros rs rs' H; [done|]. cbn [foldl]. apply IH.
  destruct l; cbn [note]; try done; destruct (decide _); try done. by rewrite !since_app, H.
Qed.

Lemma run_rows s es s' tr n start :
  run s es = (s', tr) -> dnonneg start -> Forall (timely start) es ->
  since start (rows (tables s') n) = since start (foldl (note n) (rows (tables s) n) tr).
Proof.
  intros H Hs Ht. revert s tr H. induction Ht as [|e es He _ IH]; intros s tr H; cbn [run] in H; [by injection H as <- <-|].
  pose proof (step_rows s e n start Hs He) as Hst. destruct (step s e) as [s1 l1]. destruct (run s1 es) as [s2 l2] eqn:Er. injection H as <- <-.
  rewrite (IH _ _ Er), foldl_app. by apply since_note.
Qed.

Lemma run_tables_ok s es s' tr : run s es = (s', tr) -> tables_ok (tables s) -> tables_ok (tables s').
Proof.
  revert s tr. induction es as [|e es IH]; intros s tr H Hok; cbn [run] in H; [by injection H as <- <-|].
  destruct (step s e) as [s1 l1] eqn:E. destruct (run s1 es) as [s2 l2] eqn:Er. injection H as <- <-. eapply IH; [done|].
  clear IH Er. destruct e as [b| | |r now|ar i|i o f r|st en|h|k now|]; cbn [step] in E; try (by injection E as <- <-);
    try (destruct (db s); by injection E as <- <-).
  - destruct (_ || _); by injection E as <- <-.
  - destruct (threads s !! k) as [t|]; [|by injection E as <- <-]. destruct (_ && _); [by injection E as <- <-|].
    pose proof (run_thread_ok _ t now Hok) as Ht. destruct (run_thread _ _ _). by injection E as <- <-.
Qed.

Lemma run_app_stats s es1 es2 : run s (es1 ++ es2) = let '(s1, l1) := run s es1 in let '(s2, l2) := run s1 es2 in (s2, l1 ++ l2).
Proof.
  revert s. induction es1 as [|e es IH]; intros s; cbn [app run]; [by destruct (run s es2)|].
  destruct (step s e) as [s1 l1]. rewrite IH. destruct (run s1 es) as [s2 l2]. destruct (run s2 es2) as [s3 l3]. by rewrite app_assoc.
Qed.

(** A listing that came after the start, while we were online. *)
Definition listed (d : Db) (es : list Event) (ar : Analyzed) : Prop :=
  exists es1 es2, es = es1 ++ E_listpeers ar false :: es2 /\ online (run (boot d) es1).1 = true.

Lemma threads_listed d es ar : T_sample ar ∈ threads (run (boot d) es).1 -> listed d es ar.
Proof.
  revert ar. induction es as [|e es IH] using rev_ind; intros ar.
  { cbn. by intros ?%not_elem_of_nil. }
  rewrite run_app_stats. destruct (run (boot d) es) as [s1 l1] eqn:Er. cbn [fst] in IH.
  assert (forall ar, listed d es ar -> listed d (es ++ [e]) ar) as Hmore.
  { intros ar' (es1 & es2 & -> & H). exists es1, (es2 ++ [e]). split; [by rewrite <- app_assoc|done]. }
  cbn [run]. destruct (step s1 e) as [s2 l2] eqn:E. cbn [fst]. intros H.
  assert (T_sample ar ∈ threads s1 \/ (e = E_listpeers ar false /\ online s1 = true)) as [Hin|[-> Ho]].
  - destruct e as [b| | |r now|ar' i|i o f r|st en|h|k now|]; cbn [step] in E.
    all: try (injection E as <- <-; cbn in H; rewrite ?elem_of_app, ?list_elem_of_singleton in H; naive_solver).
    all: try (destruct (db s1); injection E as <- <-; cbn in H; rewrite ?elem_of_app, ?list_elem_of_singleton in H; naive_solver).
    + destruct (db s1), i, (online s1) eqn:Eo; cbn [negb orb] in E; injection E as <- <-; cbn in H;
        rewrite ?elem_of_app, ?list_elem_of_singleton in H; naive_solver.
    + destruct (threads s1 !! k) as [t|]; [|injection E as <- <-; auto]. destruct (_ && _); [injection E as <- <-; auto|].
      destruct (run_thread _ _ _). injection E as <- <-. cbn in H. left. by eapply list_elem_of_delete_inv.
    + injection E as <- <-. by apply not_elem_of_nil in H.
  - by apply Hmore, IH.
  - exists es, []. split; [done|]. by rewrite Er.
Qed.

Lemma get_stats_spec d start end_ now n :
  get_stats d start end_ now !! n =
  if decide (sends d start end_ n = [] /\ samples d start end_ n = []
             /\ filter (fun r => in_id r = n) (fees d start end_) = [] /\ filter (fun r => out_id r = n) (fees d start end_) = [])
  then None else Some (stats_of d start end_ now n).
Proof.
  rewrite get_stats_updates, updates_lookup, lookup_empty. rewrite <- (decide_ext _ _ _ _ (updates_none d start end_ n)).
  destruct (decide _) as [E|E]; [by rewrite E|].
  assert (Some (apply_updates (new_entry d n start end_ now) (filter (fun u => u.1 = n) (updates d start end_))) = Some (stats_of d start end_ now n)) as Hs.
  { f_equal. unfold updates. rewrite !filter_app. unfold apply_updates. rewrite !foldl_app.
    pose proof apply_sends as A1. pose proof apply_samples as A2. pose proof apply_fees as A3. unfold apply_updates in A1, A2, A3.
    rewrite A1, A2, A3. reflexivity. }
  destruct (filter _ (updates d start end_)); [done|exact Hs].
Qed.

(** *** Properties *)

(** The statistics of a time frame are the sums over the rows of the peer in the frame:
    counts of payments and of samples, times and fees; a peer without rows has none. *)
Theorem statistics_exact d start end_ now n :
  get_stats d start end_ now !! n =
  if decide (sends d start end_ n = [] /\ samples d start end_ n = []
             /\ filter (fun r => in_id r = n) (fees d start end_) = [] /\ filter (fun r => out_id r = n) (fees d start end_) = [])
  then None else Some (stats_of d start end_ now n).
Proof. apply get_stats_spec. Qed.

(** The tables keep their keys: whatever happens, in whatever order and over restarts,
    every row of the statistics belongs to a peer with a first record, so that ages are
    those of the peers; and no rate exceeds one. *)
Theorem statistics_tables_ok es s tr start end_ now n e :
  run (boot empty) es = (s, tr) -> get_stats (tables s) start end_ now !! n = Some e ->
  exists t, peers (tables s) !! n = Some t /\ age e = dsub now t
    /\ 0 <= successes e <= attempts e /\ 0 <= connects e <= connect_checks e.
Proof.
  intros Hr He. apply run_tables_ok in Hr as [H1 H2 H3]; [|apply empty_tables_ok]. rewrite get_stats_spec in He.
  destruct (decide _) as [|Hn]; [done|]. injection He as <-.
  assert (n ∈ dom (peers (tables s))) as Hd.
  { destruct (sends (tables s) start end_ n) as [|r l] eqn:E1.
    - destruct (samples (tables s) start end_ n) as [|r l] eqn:E2.
      + destruct (filter (fun r => in_id r = n) (fees (tables s) start end_)) as [|r l] eqn:E3.
        * destruct (filter (fun r => out_id r = n) (fees (tables s) start end_)) as [|r l] eqn:E4; [tauto|].
          assert (r ∈ filter (fun r => out_id r = n) (fees (tables s) start end_)) as Hin by (rewrite E4; left).
          apply list_elem_of_filter in Hin as [<- Hin]. apply list_elem_of_filter in Hin as [_ Hin]. by apply H3.
        * assert (r ∈ filter (fun r => in_id r = n) (fees (tables s) start end_)) as Hin by (rewrite E3; left).
          apply list_elem_of_filter in Hin as [<- Hin]. apply list_elem_of_filter in Hin as [_ Hin]. by apply H3.
      + assert (r ∈ samples (tables s) start end_ n) as Hin by (rewrite E2; left).
        apply list_elem_of_filter in Hin as [<- Hin]. apply list_elem_of_filter in Hin as [_ Hin]. by apply H2.
    - assert (r ∈ sends (tables s) start end_ n) as Hin by (rewrite E1; left).
      apply list_elem_of_filter in Hin as [<- Hin]. apply list_elem_of_filter in Hin as [_ Hin]. by apply H1. }
  apply elem_of_dom in Hd as [t Ht]. exists t. split; [done|].
  cbn [stats_of age new_entry]. rewrite Ht. split; [done|]. unfold stats_of. cbn [successes attempts connects connect_checks].
  pose proof (length_filter (fun r => destination_reached r = true) (sends (tables s) start end_ n)).
  pose proof (length_filter (fun r => co_connected r = true) (samples (tables s) start end_ n)). lia.
Qed.

(** C7: a peer is never found absent for an outage of ours: a sample that finds it absent is
    from a listing that came while the internet was there, was not the first after the
    start, and had another peer connected. *)
Theorem no_blame_for_own_outage d es s tr k now n t :
  run (boot d) es = (s, tr) -> Sampled n false t ∈ (step s (E_run k now)).2 ->
  exists ar es1 es2, es = es1 ++ E_listpeers ar false :: es2 /\ online (run (boot d) es1).1 = true
    /\ n ∈ disconnected_channeled ar /\ connected_channeled ar ∪ connected_unchanneled ar <> ∅.
Proof.
  intros Hr H. cbn [step] in H. destruct (threads s !! k) as [th|] eqn:Ek; [|by apply not_elem_of_nil in H].
  destruct (_ && _); [by apply not_elem_of_nil in H|]. destruct (run_thread (tables s) th now) as [d' l] eqn:E. cbn [snd] in H.
  destruct th as [|r c|ar|i o f r|h|a b]; cbn [run_thread] in E; injection E as <- <-;
    try (by apply not_elem_of_nil in H); try (destruct (bool_decide _); [by apply not_elem_of_nil in H|]);
    try (apply list_elem_of_singleton in H; discriminate).
  rewrite !elem_of_app in H. destruct H as [H|[H|H]]; apply list_elem_of_fmap in H as (m & Hm & Hin); try discriminate Hm. injection Hm as <- _. rename Hin into H.
  apply list_elem_of_lookup_2 in Ek. assert (T_sample ar ∈ threads (run (boot d) es).1) as Ht by (by rewrite Hr).
  apply threads_listed in Ht as (es1 & es2 & -> & Ho). exists ar, es1, es2. split; [done|]. split; [done|].
  unfold absent, all_peers_disconnected in H. destruct (bool_decide (disconnected_channeled ar = ∅)) eqn:E1; cbn [negb andb] in H.
  - apply bool_decide_eq_true in E1. rewrite E1 in H. set_solver.
  - destruct (bool_decide (connected_channeled ar = ∅)) eqn:E2, (bool_decide (connected_unchanneled ar = ∅)) eqn:E3; cbn [andb] in H;
      [by apply not_elem_of_nil in H|..]; rewrite ?bool_decide_eq_true, ?bool_decide_eq_false in *; set_solver.
Qed.

(** The samples that count, of all that were taken. *)
Definition counted (tr : list Label) (start end_ : double) (n : Node) : list (bool * double) :=
  filter (fun r => dle r.2 end_ = true) (since start (sampled tr n)).

Lemma samples_counted es s tr start end_ n :
  run (boot empty) es = (s, tr) -> dnonneg start -> Forall (timely start) es ->
  map (fun r => (co_connected r, co_creation r)) (samples (tables s) start end_ n) = counted tr start end_ n.
Proof.
  intros Hr Hs Ht. pose proof (run_rows _ _ _ _ n start Hr Hs Ht) as H. change (rows (tables (boot empty)) n) with (@nil (bool * double)) in H.
  unfold counted, sampled. rewrite <- H. unfold since, rows, samples, within. clear.
  induction (connection (tables s)) as [|r l IH]; [done|]. rewrite (filter_cons (fun r => co_id r = n) r l), (filter_cons _ r l).
  destruct (decide (co_id r = n)) as [Hn|Hn].
  - cbn [map]. rewrite (filter_cons (fun x => dle start x.2 = true)). cbn [snd]. destruct (dle start (co_creation r)) eqn:E1; cbn [andb].
    + rewrite (decide_True (P := true = true)) by done. rewrite (filter_cons (fun x => dle x.2 end_ = true)). cbn [snd].
      destruct (decide (dle (co_creation r) end_ = true)) as [E2|E2]; [|done].
      rewrite filter_cons, decide_True by done. cbn [map]. by rewrite IH.
    + rewrite !decide_False by done. done.
  - destruct (decide _); [rewrite filter_cons, decide_False by done|]; done.
Qed.

End Statistician.

(** ** Metrics *)

Module Metrician.
Import Statistician.

Record PeerMetrics := {
  met_age : double; seconds_per_attempt : double; success_per_attempt : option double; success_per_day : double;
  connect_rate : option double; in_fee_msat_per_day : double; out_fee_msat_per_day : double
}.

Definition rate (a b : Z) : double := ddiv (d_of_Z a) (d_of_Z b).
Definition per_day (x : Z) (time : double) : double := ddiv (dmul (d_of_Z x) (d_of_Z 86400)) time.

Definition stats_to_mets (e : Stats) : PeerMetrics :=
  let time := dsub (end_time e) (start_time e) in
  {| met_age := age e;
     seconds_per_attempt := if 0 <? attempts e then ddiv (total_lock e) (d_of_Z (attempts e)) else Fin 0;
     success_per_attempt := if 0 <? attempts e then Some (rate (successes e) (attempts e)) else None;
     success_per_day := per_day (successes e) time;
     connect_rate := if 0 <? connect_checks e then Some (rate (connects e) (connect_checks e)) else None;
     in_fee_msat_per_day := per_day (in_fee e) time;
     out_fee_msat_per_day := per_day (out_fee e) time |}.

Definition map_stats_to_mets (stats : gmap Node Stats) : gmap Node PeerMetrics := stats_to_mets <$> stats.

Definition times : list double := [d_of_Z (86400 * 3); d_of_Z (86400 * 14); d_of_Z (86400 * 30)].

(** The three requests of [get_metrics]; the statistician answers them one after another,
    with the tables and the time of then. *)
Definition frames (now : double) : list (double * double) := map (fun time => (dsub now time, now)) times.

Definition get_metrics (now : double) (answer : double * double -> gmap Node Stats) : list (gmap Node PeerMetrics) :=
  map map_stats_to_mets (map answer (frames now)).

(** *** Rates *)

Lemma rate_quarter c k : 0 <= c -> 0 < k < 2 ^ 50 -> c <= k -> dge (rate c k) (RN (1 # 4)) = (k <=? 4 * c).
Proof.
  intros Hc Hk Hck. unfold rate, dge. rewrite !d_of_Z_exact by lia. cbn [ddiv].
  assert (Qeq_bool (inject_Z k) 0 = false) as ->.
  { apply not_true_is_false. intros H. apply Qeq_bool_iff in H. unfold Qeq in H. cbn in H. lia. }
  assert (RN (1 # 4) = Fin (1 # 4)) as E4 by (vm_compute; reflexivity).
  assert (0 < inject_Z k)%Q as Hk0 by (change 0%Q with (inject_Z 0); rewrite <- Zlt_Qlt; lia).
  destruct (Z.leb_spec k (4 * c)) as [H|H].
  - apply RN_le. apply Qle_shift_div_l; [done|]. rewrite Zle_Qle, inject_Z_mult in H. change (inject_Z 4) with 4%Q in H. lra.
  - assert (inject_Z c / inject_Z k <= 1125899906842623 # 4503599627370496)%Q as Hle.
    { apply Qle_shift_div_r; [done|]. assert (4 * c + 1 <= k) as H' by lia. rewrite Zle_Qle, inject_Z_plus, inject_Z_mult in H'.
      change (inject_Z 4) with 4%Q in H'. change (inject_Z 1) with 1%Q in H'.
      assert (inject_Z k <= inject_Z (2 ^ 50))%Q as Hb by (rewrite <- Zle_Qle; lia). change (inject_Z (2 ^ 50)) with (1125899906842624 # 1)%Q in Hb. lra. }
    apply RN_le in Hle. assert (RN (1125899906842623 # 4503599627370496) = Fin (1125899906842623 # 4503599627370496)) as E by (vm_compute; reflexivity).
    rewrite E in Hle. rewrite E4. destruct (RN (inject_Z c / inject_Z k)) as [r|[]|]; [|first [reflexivity|discriminate Hle]..]. apply dle_Fin in Hle.
    apply not_true_is_false. rewrite dle_Fin. lra.
Qed.

End Metrician.

(** ** Complaints about low connect rates *)

Module LowConnectRate.
Import Statistician.
Import Metrician.

Definition min_acceptable_connect_rate : double := RN (1 # 4).

Definition complains (m : PeerMetrics) : bool :=
  match connect_rate m with None => false | Some r => negb (dge r min_acceptable_connect_rate) end.

(** The nodes that complaints are raised about. *)
Definition complaints (day3 : gmap Node PeerMetrics) : list Node :=
  map fst (filter (fun p => complains p.2 = true) (map_to_list day3)).

Lemma complaints_elem day3 n : n ∈ complaints day3 <-> exists m, day3 !! n = Some m /\ complains m = true.
Proof.
  unfold complaints. rewrite list_elem_of_fmap. split.
  - intros ([k m] & -> & H). apply list_elem_of_filter in H as [Hc H]. apply elem_of_map_to_list in H. eauto.
  - intros (m & Hm & Hc). exists (n, m). split; [done|]. apply list_elem_of_filter. split; [done|]. by apply elem_of_map_to_list.
Qed.

(** *** Properties *)

(** C6: complaints are exact: in the answer to a request for the metrics of a time frame, a
    peer is complained about exactly if samples of the frame were taken since it has its
    channel, and it was connected in less than a quarter of them.  The request must be for a
    frame that the cleaning of the tables has not reached. *)
Theorem complaints_exact es s tr start end_ now n :
  run (boot empty) es = (s, tr) -> dnonneg start -> Forall (timely start) es ->
  Z.of_nat (length (counted tr start end_ n)) < 2 ^ 50 ->
  n ∈ complaints (map_stats_to_mets (get_stats (tables s) start end_ now)) <->
  4 * Z.of_nat (length (filter (fun r => r.1 = true) (counted tr start end_ n))) < Z.of_nat (length (counted tr start end_ n)).
Proof.
  intros Hr Hs Ht Hlen. pose proof (samples_counted _ _ _ _ end_ n Hr Hs Ht) as Hc. rewrite <- Hc in *. clear Hc.
  rewrite length_map in *.
  assert (length (filter (fun r => r.1 = true) (map (fun r => (co_connected r, co_creation r)) (samples (tables s) start end_ n)))
          = length (filter (fun r => co_connected r = true) (samples (tables s) start end_ n))) as ->.
  { clear Hlen. induction (samples _ _ _ _) as [|r l IH]; [done|]. cbn [map]. rewrite !filter_cons. cbn [fst]. destruct (decide _); cbn [length]; by rewrite IH. }
  rewrite complaints_elem. unfold map_stats_to_mets. setoid_rewrite lookup_fmap. rewrite get_stats_spec.
  set (l := samples (tables s) start end_ n) in *. pose proof (length_filter (fun r => co_connected r = true) l) as Hle.
  destruct (decide _) as [(_ & El & _)|_].
  - rewrite El. cbn. split; [by intros (m & [=] & _)|lia].
  - cbn [fmap option_fmap option_map]. assert (complains (stats_to_mets (stats_of (tables s) start end_ now n))
      = (4 * Z.of_nat (length (filter (fun r => co_connected r = true) l)) <? Z.of_nat (length l))) as E.
    { unfold complains, stats_to_mets, stats_of. cbn [connect_rate connect_checks connects]. fold l.
      destruct (Z.ltb_spec 0 (Z.of_nat (length l))) as [Hpos|Hz].
      - unfold min_acceptable_connect_rate. rewrite rate_quarter by lia. destruct (Z.leb_spec (Z.of_nat (length l)) (4 * Z.of_nat (length (filter (fun r => co_connected r = true) l)))); destruct (Z.ltb_spec (4 * Z.of_nat (length (filter (fun r => co_connected r = true) l))) (Z.of_nat (length l))); simpl; try done; lia.
      - destruct (Z.ltb_spec (4 * Z.of_nat (length (filter (fun r => co_connected r = true) l))) (Z.of_nat (length l))); [lia|done]. }
    split.
    + intros (m & [= <-] & Hm). rewrite E in Hm. lia.
    + intros H. eexists. split; [done|]. rewrite E. lia.
Qed.

(** *** Witnesses *)

Definition demo_peer (k : Z) : Node := Some (2 :: repeat 0 31 ++ [k]).
Definition demo_listing : Analyzed :=
  {| connected_channeled := {[demo_peer 1]}; connected_unchanneled := ∅; disconnected_channeled := {[demo_peer 2]};
     disconnected_unchanneled := ∅ |}.
Definition demo_time (k : Z) : double := d_of_Z (1700000000 + k).

(** Two samples, in which the second peer is absent. *)
Definition demo_events : list Event :=
  [E_online true; E_db; E_run 0 (demo_time 0); E_listpeers demo_listing false; E_run 0 (demo_time 600);
   E_listpeers demo_listing false; E_run 0 (demo_time 1200)].

Definition demo_state : State := Eval vm_compute in (run (boot empty) demo_events).1.
Definition demo_trace : list Label := Eval vm_compute in (run (boot empty) demo_events).2.

Lemma demo_reached : run (boot empty) demo_events = (demo_state, demo_trace).
Proof. vm_compute. reflexivity. Qed.

Lemma demo_timely : Forall (timely (demo_time 0)) demo_events.
Proof. repeat constructor; vm_compute; reflexivity. Qed.

Lemma complaints_exact_witness :
  demo_peer 2 ∈ complaints (map_stats_to_mets (get_stats (tables demo_state) (demo_time 0) (demo_time 1800) (demo_time 1800))).
Proof.
  apply (complaints_exact demo_events demo_state demo_trace (demo_time 0) (demo_time 1800) (demo_time 1800) (demo_peer 2)).
  - exact demo_reached.
  - vm_compute. reflexivity.
  - exact demo_timely.
  - vm_compute. reflexivity.
  - vm_compute. reflexivity.
Defined.

Lemma statistics_tables_ok_witness :
  exists e t, get_stats (tables demo_state) (demo_time 0) (demo_time 1800) (demo_time 1800) !! demo_peer 1 = Some e
    /\ peers (tables demo_state) !! demo_peer 1 = Some t /\ age e = dsub (demo_time 1800) t.
Proof.
  assert (get_stats (tables demo_state) (demo_time 0) (demo_time 1800) (demo_time 1800) !! demo_peer 1
    = Some (stats_of (tables demo_state) (demo_time 0) (demo_time 1800) (demo_time 1800) (demo_peer 1))) as E.
  { rewrite get_stats_spec. rewrite decide_False; [reflexivity|]. intros (_ & H & _). vm_compute in H. discriminate. }
  destruct (statistics_tables_ok demo_events demo_state demo_trace (demo_time 0) (demo_time 1800) (demo_time 1800) (demo_peer 1) _
    demo_reached E) as (t & H1 & H2 & _). eexists _, t. split; [exact E|]. split; [exact H1|exact H2].
Defined.

Lemma no_blame_for_own_outage_witness :
  let es := [E_online true; E_db; E_listpeers demo_listing false] in
  Sampled (demo_peer 2) false (demo_time 0) ∈ (step (run (boot empty) es).1 (E_run 1 (demo_time 0))).2
  /\ exists ar es1 es2, es = es1 ++ E_listpeers ar false :: es2 /\ connected_channeled ar ∪ connected_unchanneled ar <> ∅.
Proof.
  intros es. assert (Sampled (demo_peer 2) false (demo_time 0) ∈ (step (run (boot empty) es).1 (E_run 1 (demo_time 0))).2) as H.
  { vm_compute. right. left. }
  split; [exact H|]. destruct (no_blame_for_own_outage empty es (run (boot empty) es).1 [] 1 (demo_time 0) (demo_peer 2) (demo_time 0)
    ltac:(vm_compute; reflexivity) H) as (ar & es1 & es2 & E & _ & _ & Hc).
  exists ar, es1, es2. split; [exact E|exact Hc].
Defined.

End LowConnectRate.
