(* ===== verification/Uptime.v ===== *)
(** * Our own uptime, and complaints about peers that carry no payments

    - [SelfUptime] (src/Boss/Mod/SelfUptimeMonitor.cpp): a row for every ten minutes in
      which we were online and had peers, and the share of such rows in a time frame;
    - [LowSuccess] (src/Boss/Mod/ComplainerByLowSuccessPerDay.cpp): complaints about peers
      through which too few payments reach their destination, in view of our uptime, and
      the probes that give such peers another chance. *)

From stdpp Require Import base list numbers strings gmap sets.
From Stdlib Require Import QArith Qround Lqa.
From S2P Require Import Prelude.
From S2P Require Import Double.
From S2P Require Import Amount.
From S2P Require Import LnIds.
From S2P Require Import Stats.
From S2P Require Import Peers.
From S2P Require Import PeerStats.
Import Peers.

#[local] Open Scope Z_scope.

(** ** Uptime *)

Module SelfUptime.

Definition timers_per_day : Z := 144.
Definition seconds_per_day : Z := 24 * 60 * 60.

(** The rows are the times of the timer, a primary key. *)
Record Monitor := { db : bool; online : bool; peers_polled : bool; blackout : bool; times : list double }.

Definition boot (t : list double) : Monitor := {| db := false; online := false; peers_polled := false; blackout := false; times := t |}.

Inductive Event :=
| E_db
| E_online (b : bool)
| E_listpeers (ar : Analyzed) (initial : bool)
| E_timer (now : double)                  (* the transaction of [timer10minutes] *)
| E_restart.

(** [INSERT OR IGNORE] *)
Definition insert_time (t : list double) (now : double) : list double := if existsb (deq now) t then t else t ++ [now].

Definition counts (s : Monitor) : bool := online s && peers_polled s && negb (blackout s).

Definition timer10minutes (s : Monitor) (now : double) : Monitor :=
  let t := if counts s then insert_time (times s) now else times s in
  let limit := dsub now (d_of_Z (2 * (30 * seconds_per_day))) in
  {| db := db s; online := online s; peers_polled := peers_polled s; blackout := blackout s;
     times := filter (fun x => dlt x limit = false) t |}.

(** [None] is a transaction on no database. *)
Definition step (s : Monitor) (e : Event) : option Monitor :=
  match e with
  | E_db => Some {| db := true; online := online s; peers_polled := peers_polled s; blackout := blackout s; times := times s |}
  | E_online b => Some {| db := db s; online := b; peers_polled := peers_polled s; blackout := blackout s; times := times s |}
  | E_listpeers ar initial =>
      Some (if initial then s
            else {| db := db s; online := online s; peers_polled := true; blackout := all_peers_disconnected ar; times := times s |})
  | E_timer now => if db s then Some (timer10minutes s now) else None
  | E_restart => Some (boot (times s))
  end.

Fixpoint run (s : Monitor) (es : list Event) : option Monitor :=
  match es with [] => Some s | e :: es => s' ← step s e; run s' es end.

Definition calc_uptime (t : list double) (now : double) (days : Z) : double :=
  let count := Z.of_nat (length (filter (fun x => dge x (dsub now (d_of_Z (days * seconds_per_day))) = true) t)) in
  let timers := days * timers_per_day in
  ddiv (d_of_Z (if timers <? count then timers else count)) (d_of_Z timers).

Record Uptime := { day3 : double; weeks2 : double; month1 : double }.

Definition get_uptime (t : list double) (now : double) : Uptime :=
  {| day3 := calc_uptime t now 3; weeks2 := calc_uptime t now 14; month1 := calc_uptime t now 30 |}.

(** *** Uptime is a share *)

Lemma share_range a b : 0 <= a <= b -> 0 < b < 2 ^ 53 ->
  exists u, ddiv (d_of_Z a) (d_of_Z b) = Fin u /\ (0 <= u <= 1)%Q.
Proof.
  intros Ha Hb. rewrite !d_of_Z_exact by lia. cbn [ddiv].
  assert (Qeq_bool (inject_Z b) 0 = false) as ->.
  { apply not_true_is_false. intros H. apply Qeq_bool_iff in H. unfold Qeq in H. cbn in H. lia. }
  assert (0 < inject_Z b)%Q as Hb0 by (change 0%Q with (inject_Z 0); rewrite <- Zlt_Qlt; lia).
  assert (0 <= inject_Z a / inject_Z b)%Q as H0.
  { apply Qle_shift_div_l; [done|]. rewrite Qmult_0_l. change 0%Q with (inject_Z 0). rewrite <- Zle_Qle. lia. }
  assert (inject_Z a / inject_Z b <= 1)%Q as H1.
  { apply Qle_shift_div_r; [done|]. rewrite Qmult_1_l. rewrite <- Zle_Qle. lia. }
  apply RN_le in H0, H1. change (RN 0) with (Fin 0) in H0. assert (RN 1 = Fin 1) as E1 by (vm_compute; reflexivity). rewrite E1 in H1.
  destruct (RN (inject_Z a / inject_Z b)) as [u|[]|]; [|first [discriminate H0|discriminate H1]..].
  exists u. split; [done|]. split; [by apply dle_Fin in H0|by apply dle_Fin in H1].
Qed.

Lemma uptime_range t now days : 0 < days < 2 ^ 40 -> exists u, calc_uptime t now days = Fin u /\ (0 <= u <= 1)%Q.
Proof.
  intros Hd. unfold calc_uptime, timers_per_day. apply share_range; [|lia].
  destruct (Z.ltb_spec (days * 144) (Z.of_nat (length (filter (fun x => dge x (dsub now (d_of_Z (days * seconds_per_day))) = true) t)))); lia.
Qed.

Lemma run_snoc_time s es e : run s (es ++ [e]) = s' ← run s es; step s' e.
Proof.
  revert s. induction es as [|x es IH]; intros s; cbn [app run].
  - cbn [mbind option_bind]. by destruct (step s e).
  - destruct (step s x); [apply IH|done].
Qed.

(** *** Properties *)

(** Only good time counts: each row of the table is a timer that fired while the internet
    was there, a poll had reported since the start, and the last one found some peer
    connected. *)
Theorem uptime_counts_good_time es s x :
  run (boot []) es = Some s -> x ∈ times s ->
  exists es1 es2 s1, es = es1 ++ E_timer x :: es2 /\ run (boot []) es1 = Some s1
    /\ online s1 = true /\ peers_polled s1 = true /\ blackout s1 = false.
Proof.
  revert s. induction es as [|e es IH] using rev_ind; intros s Hr Hx; [injection Hr as <-; by apply not_elem_of_nil in Hx|].
  rewrite run_snoc_time in Hr. destruct (run (boot []) es) as [s1|] eqn:E1; [|done]. cbn [mbind option_bind] in Hr.
  assert (x ∈ times s1 \/ (e = E_timer x /\ counts s1 = true)) as [Hin|[-> Hc]].
  - destruct e as [|b|ar i|now|]; cbn [step] in Hr; try (injection Hr as <-; by left).
    + left. injection Hr as <-. by destruct i.
    + destruct (db s1); [|done]. injection Hr as <-. apply list_elem_of_filter in Hx as [_ Hx].
      destruct (counts s1) eqn:Ec; [|by left]. unfold insert_time in Hx. destruct (existsb _ _); [by left|].
      apply elem_of_app in Hx as [Hx|Hx]; [by left|]. apply list_elem_of_singleton in Hx as ->. by right.
  - destruct (IH s1 eq_refl Hin) as (es1 & es2 & s2 & -> & H). exists es1, (es2 ++ [e]), s2. split; [by rewrite <- app_assoc|done].
  - exists es, [], s1. unfold counts in Hc. apply andb_true_iff in Hc as [[H1 H2]%andb_true_iff H3]. by rewrite negb_true_iff in H3.
Qed.

End SelfUptime.

(** ** Complaints about low success *)

Module LowSuccess.
Import Statistician.
Import Metrician.

Definition min_success_per_day : double := RN (1 # 10).
Definition warn_success_per_day : double := d_of_Z 1.
Definition max_probes : nat := 10.
Definition min_self_uptime : double := RN (1 # 2).
Definition min_lifetime : double := d_of_Z (7 * 24 * 60 * 60).

(** [since] is the row of the table; the start time is far in the future until it is read. *)
Record State := { since : option double; start_time : double; pending_probe : gset Node }.

Definition boot (row : option double) : State := {| since := row; start_time := d_of_Z 999999999999999999999; pending_probe := ∅ |}.

(** [INSERT OR IGNORE], and the read. *)
Definition on_db (s : State) (now : double) : State :=
  let t := default now (since s) in
  {| since := Some t; start_time := t; pending_probe := pending_probe s |}.

Definition complains (m : PeerMetrics) (uptime run_time : double) : bool :=
  if dlt uptime min_self_uptime then false
  else if dlt run_time min_lifetime then false
  else if dlt (met_age m) min_lifetime then false
  else negb (dge (ddiv (success_per_day m) uptime) min_success_per_day).

(** The answer of [SelfUptime] has come; the complaints are raised for the nodes returned. *)
Definition on_solicit (s : State) (weeks2 : gmap Node PeerMetrics) (uptime now : double) : State * list Node :=
  let l := map_to_list weeks2 in
  ({| since := since s; start_time := start_time s;
      pending_probe := pending_probe s ∪ list_to_set (map fst (filter (fun p => dle (success_per_day p.2) warn_success_per_day = true) l)) |},
   map fst (filter (fun p => complains p.2 uptime (dsub now (start_time s)) = true) l)).

Section Probes.

Context (log : double -> double).

(** The weights are 1; [draw i] is the number drawn for the [i]-th node. *)
Definition select (pending : gset Node) (draw : nat -> double) : list Node :=
  Reservoir.finalize (Reservoir.add_all log (Reservoir.make max_probes)
    (imap (fun i n => (n, d_of_Z 1, draw i)) (base.elements pending))).

(** [None] is the erasure of what is not there. *)
Fixpoint erase_all (pending : gset Node) (ns : list Node) : option (gset Node) :=
  match ns with
  | [] => Some pending
  | n :: ns => if decide (n ∈ pending) then erase_all (pending ∖ {[n]}) ns else None
  end.

(** The nodes that are probed. *)
Definition on_hourly (s : State) (draw : nat -> double) : option (State * list Node) :=
  let selected := select (pending_probe s) draw in
  p ← erase_all (pending_probe s) selected;
  Some ({| since := since s; start_time := start_time s; pending_probe := p |}, selected).

(** The hours that pass without new complaints, with the nodes probed. *)
Fixpoint hours (s : State) (draws : list (nat -> double)) : option (State * list Node) :=
  match draws with
  | [] => Some (s, [])
  | draw :: draws => '(s1, p1) ← on_hourly s draw; '(s2, p2) ← hours s1 draws; Some (s2, p1 ++ p2)
  end.

Definition numbers (draw : nat -> double) : Prop := forall i, Reservoir.number (Reservoir.sample_key log (d_of_Z 1) (draw i)).

Lemma select_spec pending draw :
  numbers draw ->
  NoDup (select pending draw) /\ (forall n, n ∈ select pending draw -> n ∈ pending)
  /\ length (select pending draw) = Nat.min max_probes (base.size pending).
Proof.
  intros Hd. unfold select. set (l := imap _ _).
  assert (Forall (fun '(_, w, u) => Reservoir.number (Reservoir.sample_key log w u)) l) as Hl.
  { apply Forall_lookup. intros i x Hx. unfold l in Hx. rewrite list_lookup_imap in Hx. destruct (base.elements pending !! i); [|done].
    injection Hx as <-. apply Hd. }
  assert (map fst (Reservoir.keyed log l) = base.elements pending) as Hk.
  { unfold Reservoir.keyed, l. rewrite map_map. clear. generalize (base.elements pending). intros ns.
    assert (forall k, map (fun x => (let '(s, w, u) := x in (s, Reservoir.sample_key log w u)).1) (imap (fun i n => (n, d_of_Z 1, draw (k + i)%nat)) ns) = ns) as H; [|apply (H 0%nat)].
    induction ns as [|n ns IH]; intros k; [done|]. cbn [imap map]. f_equal.
    rewrite <- (IH (S k)) at 2. f_equal. apply imap_ext. intros i x _. cbn. by rewrite Nat.add_succ_r. }
  assert (Reservoir.sampled max_probes [] (Reservoir.make (A := Node) max_probes)) as S0.
  { split; simpl; [done|done|lia|]. exists []. split; [done|]. by intros x k ?%elem_of_nil. }
  destruct (Reservoir.add_all_sampled log max_probes l [] (Reservoir.make max_probes) S0 (Forall_nil_2 _) Hl) as [_ H2 H3 (rej & P & _)].
  simpl in *. unfold Reservoir.finalize. set (r := Reservoir.add_all log _ l) in *.
  assert (Reservoir.selected r ++ map fst rej ≡ₚ base.elements pending) as Hp.
  { rewrite <- Hk, <- P, map_app. apply Permutation_app_tail. assert (map fst (zip (Reservoir.selected r) (Reservoir.keys r)) = Reservoir.selected r) as ->; [|done].
    apply fst_zip. lia. }
  pose proof (NoDup_elements pending) as Hnd. rewrite <- Hp in Hnd. apply NoDup_app in Hnd as (H & _ & _). split; [done|]. split.
  - intros n Hn. apply elem_of_elements. rewrite <- Hp. apply elem_of_app. by left.
  - rewrite H3. f_equal. rewrite <- (length_map fst), Hk. done.
Qed.

Lemma erase_all_spec pending ns :
  NoDup ns -> (forall n, n ∈ ns -> n ∈ pending) -> erase_all pending ns = Some (pending ∖ list_to_set ns).
Proof.
  intros Hn. revert pending. induction Hn as [|n ns Hn _ IH]; intros pending Hp; cbn [erase_all]; [apply (f_equal Some); set_solver|].
  rewrite decide_True by (apply Hp; left). rewrite IH; [apply (f_equal Some); set_solver|].
  intros m Hm. apply elem_of_difference. split; [apply Hp; by right|]. intros ->%elem_of_singleton. done.
Qed.

Lemma on_hourly_spec s draw :
  numbers draw ->
  exists ns, on_hourly s draw
    = Some ({| since := since s; start_time := start_time s; pending_probe := pending_probe s ∖ list_to_set ns |}, ns)
  /\ NoDup ns /\ (forall n, n ∈ ns -> n ∈ pending_probe s) /\ length ns = Nat.min max_probes (base.size (pending_probe s)).
Proof.
  intros Hd. destruct (select_spec (pending_probe s) draw Hd) as (H1 & H2 & H3). exists (select (pending_probe s) draw).
  unfold on_hourly. rewrite erase_all_spec by done. done.
Qed.

End Probes.

(** *** Rates and uptime *)

Lemma half_up t now :
  dlt (SelfUptime.calc_uptime t now 14) min_self_uptime = false ->
  1008 <= Z.of_nat (length (filter (fun x => dge x (dsub now (d_of_Z (14 * SelfUptime.seconds_per_day))) = true) t)).
Proof.
  unfold SelfUptime.calc_uptime. set (c := Z.of_nat (length _)). assert (0 <= c) as H0 by (unfold c; lia). clearbody c. intros H.
  destruct (Z.le_gt_cases 1008 c) as [|Hc]; [done|]. exfalso. change (14 * SelfUptime.timers_per_day) with 2016 in H.
  destruct (Z.ltb_spec 2016 c) as [|_]; [lia|]. rewrite !d_of_Z_exact in H by lia. cbn [ddiv] in H.
  change (Qeq_bool (inject_Z 2016) 0) with false in H. cbv iota in H.
  assert (inject_Z c / inject_Z 2016 <= 1007 # 2016)%Q as Hle.
  { apply Qle_shift_div_r; [reflexivity|]. assert (c <= 1007) as Hz by lia. rewrite Zle_Qle in Hz. change (inject_Z 1007) with 1007%Q in Hz.
    change (inject_Z 2016) with 2016%Q. lra. }
  apply RN_le in Hle. assert (dlt (RN (1007 # 2016)) min_self_uptime = true) as Hlt by (vm_compute; reflexivity).
  assert (exists r, RN (1007 # 2016) = Fin r) as [r Er] by (eexists; vm_compute; reflexivity).
  assert (exists h, min_self_uptime = Fin h) as [h Eh] by (eexists; vm_compute; reflexivity). rewrite Er, Eh in *.
  apply dlt_Fin in Hlt. destruct (RN (inject_Z c / inject_Z 2016)) as [x|[]|]; [|first [discriminate Hle|discriminate H]..].
  apply dle_Fin in Hle. assert (dlt (Fin x) (Fin h) = true) as Hx by (apply dlt_Fin; lra). congruence.
Qed.

Lemma two_successes_enough e t u :
  dsub (end_time e) (Statistician.start_time e) = Fin t -> (0 < t <= 1296000)%Q -> 2 <= successes e < 2 ^ 30 -> (1 # 4 <= t)%Q ->
  (0 < u <= 1)%Q -> dge (ddiv (success_per_day (stats_to_mets e)) (Fin u)) min_success_per_day = true.
Proof.
  intros Et Ht Hs Htq Hu. unfold stats_to_mets. cbn [success_per_day]. rewrite Et. unfold per_day. generalize dependent (successes e). intros k Hk.
  rewrite !d_of_Z_exact by lia. cbn [dmul].
  assert (RN (inject_Z k * inject_Z 86400) = Fin (inject_Z (k * 86400))) as ->.
  { rewrite <- inject_Z_mult. apply (d_of_Z_exact (k * 86400)). lia. }
  cbn [ddiv]. assert (Qeq_bool t 0 = false) as -> by (apply not_true_is_false; rewrite Qeq_bool_iff; lra).
  assert (2 # 15 <= inject_Z (k * 86400) / t)%Q as H1.
  { apply Qle_shift_div_l; [lra|]. assert (172800 <= k * 86400) as Hz by lia. rewrite Zle_Qle in Hz. change (inject_Z 172800) with 172800%Q in Hz. lra. }
  assert (inject_Z (k * 86400) / t <= pow2 1023)%Q as H2.
  { apply Qle_trans with (inject_Z (2 ^ 60)); [|vm_compute; discriminate]. apply Qle_shift_div_r; [lra|].
    assert (k * 86400 <= 2 ^ 58) as Hz by lia. rewrite Zle_Qle in Hz.
    change (inject_Z (2 ^ 58)) with (288230376151711744 # 1)%Q in Hz. change (inject_Z (2 ^ 60)) with (1152921504606846976 # 1)%Q. lra. }
  destruct (RN_finite (inject_Z (k * 86400) / t)) as (d & Ed & _); [lra|done|]. rewrite Ed. cbn [ddiv].
  assert (Qeq_bool u 0 = false) as -> by (apply not_true_is_false; rewrite Qeq_bool_iff; lra).
  apply RN_le in H1. rewrite Ed in H1. assert (exists r, RN (2 # 15) = Fin r /\ (1 # 8 <= r)%Q) as (r & Er & Hr).
  { eexists. split; [vm_compute; reflexivity|]. vm_compute. discriminate. }
  rewrite Er in H1. apply dle_Fin in H1. unfold dge.
  assert (1 # 8 <= d / u)%Q as H3 by (apply Qle_shift_div_l; lra).
  apply RN_le in H3. eapply dle_trans; [|exact H3]. vm_compute. reflexivity.
Qed.

(** *** Properties *)

(** A complaint has grounds: we were up for at least half of the last two weeks, the module
    ran and the peer had its channel for a week or more, and of all payments in the frame
    at most one reached its destination. *)
Theorem complaint_has_grounds e t times now run_time :
  dsub (end_time e) (Statistician.start_time e) = Fin t -> (1 # 4 <= t <= 1296000)%Q -> 0 <= successes e < 2 ^ 30 ->
  complains (stats_to_mets e) (SelfUptime.calc_uptime times now 14) run_time = true ->
  successes e <= 1
  /\ 1008 <= Z.of_nat (length (filter (fun x => dge x (dsub now (d_of_Z (14 * SelfUptime.seconds_per_day))) = true) times))
  /\ dlt run_time min_lifetime = false /\ dlt (age e) min_lifetime = false.
Proof.
  intros Et Ht Hs Hc. unfold complains in Hc. destruct (dlt (SelfUptime.calc_uptime times now 14) min_self_uptime) eqn:E1; [done|].
  destruct (dlt run_time min_lifetime) eqn:E2; [done|]. destruct (dlt (met_age (stats_to_mets e)) min_lifetime) eqn:E3; [done|].
  split; [|split; [by apply half_up|by split]].
  destruct (Z.le_gt_cases (successes e) 1) as [|Hgt]; [done|]. exfalso.
  destruct (SelfUptime.uptime_range times now 14 ltac:(lia)) as (u & Eu & Hu). rewrite Eu in *.
  assert (exists h, min_self_uptime = Fin h /\ (0 < h)%Q) as (h & Eh & Hh) by (eexists; split; vm_compute; reflexivity).
  rewrite Eh in E1. assert (~ (u < h)%Q) as Hn by (rewrite <- dlt_Fin; congruence).
  rewrite (two_successes_enough e t u Et) in Hc; [discriminate|lra|lia|lra|lra].
Qed.

(** Peers with a low rate get their probes: whatever is drawn, ten an hour and no peer twice,
    so that after enough hours every peer that was pending has been probed. *)
Theorem pending_are_probed log s draws :
  Forall (numbers log) draws ->
  exists s' ns, hours log s draws = Some (s', ns) /\ NoDup ns
    /\ (forall n, n ∈ pending_probe s <-> n ∈ pending_probe s' \/ n ∈ ns)
    /\ base.size (pending_probe s') = (base.size (pending_probe s) - 10 * length draws)%nat
    /\ ((base.size (pending_probe s) <= 10 * length draws)%nat -> forall n, n ∈ pending_probe s -> n ∈ ns).
Proof.
  intros Hd. assert (exists s' ns, hours log s draws = Some (s', ns) /\ NoDup ns /\ (forall n, n ∈ ns -> n ∉ pending_probe s')
    /\ (forall n, n ∈ pending_probe s <-> n ∈ pending_probe s' \/ n ∈ ns)
    /\ base.size (pending_probe s') = (base.size (pending_probe s) - 10 * length draws)%nat) as (s' & ns & E & H1 & H2 & H3 & H4).
  - revert s. induction Hd as [|draw draws Hx _ IH]; intros s; cbn [hours].
    + exists s, []. split; [done|]. split; [constructor|]. split; [by intros n ?%not_elem_of_nil|].
      split; [intros n; rewrite elem_of_nil; tauto|]. cbn [length]. lia.
    + destruct (on_hourly_spec log s draw Hx) as (ns1 & -> & N1 & P1 & L1). cbn [mbind option_bind].
      set (s1 := {| since := since s |}). destruct (IH s1) as (s2 & ns2 & -> & N2 & D2 & P2 & S2). exists s2, (ns1 ++ ns2). split; [done|].
      assert (forall n, n ∈ pending_probe s1 <-> n ∈ pending_probe s /\ n ∉ ns1) as Hs1.
      { intros n. cbn. rewrite elem_of_difference, elem_of_list_to_set. done. }
      split; [|split; [|split]].
      * apply NoDup_app. split; [done|]. split; [|done]. intros n Hn Hn2. specialize (Hs1 n). specialize (P2 n). tauto.
      * intros n Hn. apply elem_of_app in Hn. specialize (Hs1 n). specialize (P2 n). specialize (D2 n). tauto.
      * intros n. rewrite elem_of_app. specialize (Hs1 n). specialize (P2 n). specialize (P1 n). destruct (decide (n ∈ ns1)); tauto.
      * rewrite S2. cbn [pending_probe s1]. rewrite size_difference by (intros n; rewrite elem_of_list_to_set; apply P1).
        rewrite size_list_to_set by done. rewrite L1. unfold max_probes. cbn [length]. lia.
  - exists s', ns. split_and!; try done. intros Hle n Hn. apply H3 in Hn as [Hn|]; [|done].
    assert (base.size (pending_probe s') = 0%nat) as H0 by lia. apply size_empty_inv in H0. set_solver.
Qed.

(** *** Witnesses *)

(** A week of uptime, no success in two weeks. *)
Definition demo_stats : Stats :=
  {| Statistician.start_time := d_of_Z 1000000; end_time := d_of_Z (1000000 + 1209600); age := d_of_Z 1209600; total_lock := Fin 0;
     attempts := 7; successes := 0; connects := 0; connect_checks := 0; in_fee := 0; out_fee := 0 |}.

Definition demo_times : list double := map (fun k => d_of_Z (1000000 + 600 * Z.of_nat k)) (seq 500 1200).

Lemma complaint_has_grounds_witness : successes demo_stats <= 1.
Proof.
  apply (complaint_has_grounds demo_stats 1209600 demo_times (d_of_Z 2209600) (d_of_Z 1209600)).
  - vm_compute. reflexivity.
  - split; vm_compute; discriminate.
  - split; vm_compute; congruence.
  - vm_compute. reflexivity.
Defined.

Lemma pending_are_probed_witness :
  exists s' ns, hours (fun x => x) {| since := None; start_time := Fin 0; pending_probe := {[LowConnectRate.demo_peer 1]} |} [fun i => d_of_Z (Z.of_nat i)] = Some (s', ns)
    /\ LowConnectRate.demo_peer 1 ∈ ns.
Proof.
  destruct (pending_are_probed (fun x => x) {| since := None; start_time := Fin 0; pending_probe := {[LowConnectRate.demo_peer 1]} |}
    [fun i => d_of_Z (Z.of_nat i)]) as (s' & ns & E & _ & _ & _ & H).
  - repeat constructor. intros i. unfold Reservoir.sample_key, Reservoir.number, d_of_Z. change (RN (inject_Z 1)) with (Fin 1).
    destruct (RN (inject_Z (Z.of_nat i))) as [q|b|] eqn:Eq; cbn [ddiv]; [|done|by apply RN_not_NaN in Eq].
    change (Qeq_bool 1 0) with false. cbv iota. apply RN_not_NaN.
  - exists s', ns. split; [exact E|]. apply H; [vm_compute; lia|]. cbn [pending_probe]. apply elem_of_singleton. reflexivity.
Defined.

Lemma uptime_counts_good_time_witness :
  let es := [SelfUptime.E_db; SelfUptime.E_online true; SelfUptime.E_listpeers nobody false; SelfUptime.E_timer (Fin 600)] in
  exists s es1 es2 s1, SelfUptime.run (SelfUptime.boot []) es = Some s /\ es = es1 ++ SelfUptime.E_timer (Fin 600) :: es2
    /\ SelfUptime.run (SelfUptime.boot []) es1 = Some s1 /\ SelfUptime.online s1 = true.
Proof.
  intros es. eexists. destruct (SelfUptime.uptime_counts_good_time es _ (Fin 600) ltac:(vm_compute; reflexivity) ltac:(left))
    as (es1 & es2 & s1 & E & Hr & Ho & _).
  exists es1, es2, s1. split; [vm_compute; reflexivity|]. split; [exact E|]. split; [exact Hr|exact Ho].
Defined.

End LowSuccess.
