(* ===== verification/TrackRecord.v ===== *)
(** * The history of fees and the track record of nodes

    - [FeeMonitor] (src/Boss/Mod/FeeMonitor.cpp): what the fee modules last said of a peer,
      and a row of it for every fee that is set;
    - [TrackRecord] (src/Boss/Mod/PeerTrackRecord.cpp): the verdict on a node from the
      table of [Earnings] and the balances in the rows of [FeeMonitor].  The verdicts order
      the candidates in [ChannelManager] and choose the victims of [Investigator].

    SQLite's average is a parameter.  Integers that leave the range of 64 bits in a query
    make the query fail, which is [None]. *)

From stdpp Require Import base list numbers strings gmap sets sorting.
From Stdlib Require Import QArith Qround Lqa.
From S2P Require Import Prelude.
From S2P Require Import Double.
From S2P Require Import Amount.
From S2P Require Import LnIds.
From S2P Require Import Jsmn.
From S2P Require Import ChannelManager.
From S2P Require Import Reply.
From S2P Require Import Peers.
From S2P Require Import Earnings.
From S2P Require Import Unmanaged.
Import Jsmn.
Import Reply.
Import Peers.

#[local] Open Scope Z_scope.
#[local] Open Scope reply_scope.

(** ** The history of fees *)

Module FeeMonitor.

Record Info := {
  baseline_base : option Z; baseline_ppm : option Z;
  size_mult : option double; size_total_peers : option Z; size_less_peers : option Z;
  balance_mult : option double; balance_our_msat : option Z; balance_total_msat : option Z;
  price_level : option Z; price_mult : option double; price_cards_left : option Z; price_center : option Z
}.

Definition no_info : Info :=
  {| baseline_base := None; baseline_ppm := None; size_mult := None; size_total_peers := None; size_less_peers := None;
     balance_mult := None; balance_our_msat := None; balance_total_msat := None; price_level := None; price_mult := None;
     price_cards_left := None; price_center := None |}.

(** The reports of the fee modules. *)
Inductive Report :=
| Baseline (base ppm : Z)
| BySize (mult : double) (total less : Z)
| ByBalance (mult : double) (our total : Z)
| ByTheory (level : Z) (mult : double) (cards_left center : Z).

Definition put (i : Info) (r : Report) : Info :=
  match r with
  | Baseline b p =>
      {| baseline_base := Some b; baseline_ppm := Some p; size_mult := size_mult i; size_total_peers := size_total_peers i;
         size_less_peers := size_less_peers i; balance_mult := balance_mult i; balance_our_msat := balance_our_msat i;
         balance_total_msat := balance_total_msat i; price_level := price_level i; price_mult := price_mult i;
         price_cards_left := price_cards_left i; price_center := price_center i |}
  | BySize m t l =>
      {| baseline_base := baseline_base i; baseline_ppm := baseline_ppm i; size_mult := Some m; size_total_peers := Some t;
         size_less_peers := Some l; balance_mult := balance_mult i; balance_our_msat := balance_our_msat i;
         balance_total_msat := balance_total_msat i; price_level := price_level i; price_mult := price_mult i;
         price_cards_left := price_cards_left i; price_center := price_center i |}
  | ByBalance m o t =>
      {| baseline_base := baseline_base i; baseline_ppm := baseline_ppm i; size_mult := size_mult i;
         size_total_peers := size_total_peers i; size_less_peers := size_less_peers i; balance_mult := Some m;
         balance_our_msat := Some o; balance_total_msat := Some t; price_level := price_level i; price_mult := price_mult i;
         price_cards_left := price_cards_left i; price_center := price_center i |}
  | ByTheory l m c k =>
      {| baseline_base := baseline_base i; baseline_ppm := baseline_ppm i; size_mult := size_mult i;
         size_total_peers := size_total_peers i; size_less_peers := size_less_peers i; balance_mult := balance_mult i;
         balance_our_msat := balance_our_msat i; balance_total_msat := balance_total_msat i; price_level := Some l;
         price_mult := Some m; price_cards_left := Some c; price_center := Some k |}
  end.

(** A row of [feemon_change_events]; the key of the peer is that of [feemon_peers]. *)
Record Row := {
  ts : double; peer_id : Z; set_base : Z; set_ppm : Z; snapshot : Info;
  mult_product : option double; est_base : option Z; est_ppm : option Z
}.

Record Db := { feemon_peers : gmap Node Z; change_events : list Row }.

Definition empty : Db := {| feemon_peers := ∅; change_events := [] |}.

Definition get_peer_id (d : Db) (n : Node) : Db * Z :=
  match feemon_peers d !! n with
  | Some i => (d, i)
  | None =>
      let i := Unmanaged.new_rowid (feemon_peers d) in
      ({| feemon_peers := <[n := i]> (feemon_peers d); change_events := change_events d |}, i)
  end.

(** [std::llround]; [None] is undefined. *)
Definition llround (x : double) : option Z := d_to_i64 (dround x).

(** The estimate: all or nothing.  The outer [None] is undefined. *)
Definition estimate (i : Info) : option (option (double * Z * Z)) :=
  match baseline_base i, baseline_ppm i, size_mult i, balance_mult i, price_mult i with
  | Some b, Some p, Some s, Some c, Some r =>
      let product := dmul (dmul s c) r in
      base ← llround (dmul (d_of_Z b) product);
      ppm ← llround (dmul (d_of_Z p) product);
      Some (Some (product, base, if ppm =? 0 then 1 else ppm))
  | _, _, _, _, _ => Some None
  end.

(** A fee that waits for the database. *)
Record Pending := { p_node : Node; p_base : Z; p_ppm : Z; p_ts : double; p_snapshot : Info; p_estimate : option (double * Z * Z) }.

Record State := { db : bool; peers : gmap Node Info; tables : Db; pending : list Pending }.

Definition boot (d : Db) : State := {| db := false; peers := ∅; tables := d; pending := [] |}.

Definition row_of (i : Z) (p : Pending) : Row :=
  {| ts := p_ts p; peer_id := i; set_base := p_base p; set_ppm := p_ppm p; snapshot := p_snapshot p;
     mult_product := (fun e => e.1.1) <$> p_estimate p; est_base := (fun e => e.1.2) <$> p_estimate p;
     est_ppm := snd <$> p_estimate p |}.

Definition insert_row (d : Db) (p : Pending) : Db :=
  let '(d, i) := get_peer_id d (p_node p) in
  {| feemon_peers := feemon_peers d; change_events := change_events d ++ [row_of i p] |}.

Inductive Event :=
| E_db
| E_report (n : Node) (r : Report)
| E_destroyed (n : Node)
| E_set (n : Node) (base ppm : Z) (now : double)
| E_run (k : nat)
| E_restart.

Definition info_of (s : State) (n : Node) : Info := default no_info (peers s !! n).

(** [None] is undefined behaviour; [peers[m.node]] makes an entry when a fee is set, too. *)
Definition step (s : State) (e : Event) : option State :=
  match e with
  | E_db => Some {| db := true; peers := peers s; tables := tables s; pending := pending s |}
  | E_report n r => Some {| db := db s; peers := <[n := put (info_of s n) r]> (peers s); tables := tables s; pending := pending s |}
  | E_destroyed n => Some {| db := db s; peers := delete n (peers s); tables := tables s; pending := pending s |}
  | E_set n b p now =>
      est ← estimate (info_of s n);
      Some {| db := db s; peers := <[n := info_of s n]> (peers s); tables := tables s;
              pending := pending s ++ [{| p_node := n; p_base := b; p_ppm := p; p_ts := now; p_snapshot := info_of s n; p_estimate := est |}] |}
  | E_run k =>
      Some match pending s !! k with
           | Some p => if db s then {| db := db s; peers := peers s; tables := insert_row (tables s) p; pending := delete k (pending s) |} else s
           | None => s
           end
  | E_restart => Some (boot (tables s))
  end.

Fixpoint run (s : State) (es : list Event) : option State :=
  match es with [] => Some s | e :: es => s' ← step s e; run s' es end.

(** *** Queries *)

Definition in_frame (since before : option double) (t : double) : bool :=
  match since with None => true | Some a => dge t a end && match before with None => true | Some b => dle t b end.

(** [JOIN feemon_peers p ON e.peer_id = p.id WHERE p.node_id = :node] *)
Definition rows_of (d : Db) (n : Node) : list Row := filter (fun r => feemon_peers d !! n = Some (peer_id r)) (change_events d).

Definition earlier (a b : Row) : Prop := dle (ts a) (ts b) = true.

#[global] Instance earlier_dec a b : Decision (earlier a b).
Proof. unfold earlier. apply _. Defined.

Definition history (d : Db) (n : Node) (since before : option double) : list Row :=
  merge_sort earlier (filter (fun r => in_frame since before (ts r) = true) (rows_of d n)).

(** The nodes with rows in the frame, which the source sorts by their text. *)
Definition history_peers (d : Db) (since before : option double) : list Node :=
  map fst (filter (fun p => existsb (fun r => (peer_id r =? p.2) && in_frame since before (ts r)) (change_events d) = true)
             (map_to_list (feemon_peers d))).

(** *** The parameters of the commands *)

Definition parse_optional_number (value : option json) : outcome (option (option double)) :=
  if jis_null value then inl (Some None)
  else if negb (jis_number value) then inl None
  else let* d := number value in inl (Some (Some d)).

(** [None] is a parameter error. *)
Definition frame (since_j before_j : option json) : outcome (option (option double * option double)) :=
  let* since := parse_optional_number since_j in
  match since with
  | None => inl None
  | Some since =>
      let* before := parse_optional_number before_j in
      match before with
      | None => inl None
      | Some before =>
          match since, before with
          | Some a, Some b => if dgt a b then inl None else inl (Some (since, before))
          | _, _ => inl (Some (since, before))
          end
      end
  end.

(** The field of an object, or nothing. *)
Definition field (params : json) (k : string) : outcome (bool * option json) :=
  let* h := has (Some params) k in
  if (h : bool) then let* j := get (Some params) k in inl (true, j) else inl (false, None).

Definition history_params (params : json) : outcome (option (Node * (option double * option double))) :=
  let* args :=
    (match params with
     | JObj l =>
         let* n := field params "nodeid" in
         let* s := field params "since" in
         let* b := field params "before" in
         if negb n.1 then inl None
         else if negb (length l =? Nat.b2n n.1 + Nat.b2n s.1 + Nat.b2n b.1)%nat then inl None
         else inl (Some (n.2, s.2, b.2))
     | JArr [n] => inl (Some (Some n, None, None))
     | JArr [n; s] => inl (Some (Some n, Some s, None))
     | JArr [n; s; b] => inl (Some (Some n, Some s, Some b))
     | _ => inl None
     end) in
  match args with
  | None => inl None
  | Some (n, s, b) =>
      if negb (jis_string n) then inl None
      else
        let* id := text n in
        if negb (NodeId.valid_string id) then inl None
        else
          let* node := nodeid_of id in
          let* f := frame s b in
          inl ((fun f => (node, f)) <$> f)
  end.

(** *** Rows and events *)

(** What was reported of a node, since its channel was destroyed or the process started. *)
Definition hear (n : Node) (i : Info) (e : Event) : Info :=
  match e with
  | E_report m r => if decide (m = n) then put i r else i
  | E_destroyed m => if decide (m = n) then no_info else i
  | E_restart => no_info
  | _ => i
  end.
Definition reported (es : list Event) (n : Node) : Info := foldl (hear n) no_info es.

Definition sets_fee (n : Node) (e : Event) : bool := match e with E_set m _ _ _ => bool_decide (m = n) | _ => false end.
Definition fees_set (n : Node) (es : list Event) : nat := length (filter (fun e => sets_fee n e = true) es).

Record keys_ok (d : Db) : Prop := {
  key_inj : forall n m i, feemon_peers d !! n = Some i -> feemon_peers d !! m = Some i -> n = m;
  key_rows : forall r, r ∈ change_events d -> exists n, feemon_peers d !! n = Some (peer_id r)
}.

Lemma run_snoc_fee s es e : run s (es ++ [e]) = s' ← run s es; step s' e.
Proof.
  revert s. induction es as [|x es IH]; intros s; cbn [app run].
  - cbn [mbind option_bind]. by destruct (step s e).
  - destruct (step s x); [apply IH|done].
Qed.

Lemma info_reported d es s n : run (boot d) es = Some s -> info_of s n = reported es n.
Proof.
  revert s. induction es as [|e es IH] using rev_ind; intros s Hr; [by injection Hr as <-|].
  rewrite run_snoc_fee in Hr. destruct (run (boot d) es) as [s1|]; [|done]. cbn [mbind option_bind] in Hr.
  specialize (IH s1 eq_refl). unfold reported. rewrite foldl_app. cbn [foldl]. fold (reported es n). rewrite <- IH.
  destruct e as [|m r|m|m b p now|k|]; cbn [step] in Hr; cbn [hear].
  - by injection Hr as <-.
  - injection Hr as <-. unfold info_of at 1. cbn [peers]. destruct (decide (m = n)) as [->|Hne]; [by rewrite lookup_insert_eq|by rewrite lookup_insert_ne].
  - injection Hr as <-. unfold info_of at 1. cbn [peers]. destruct (decide (m = n)) as [->|Hne]; [by rewrite lookup_delete_eq|by rewrite lookup_delete_ne].
  - destruct (estimate (info_of s1 m)) as [est|]; [|done]. injection Hr as <-. unfold info_of at 1. cbn [peers].
    destruct (decide (m = n)) as [->|Hne]; [by rewrite lookup_insert_eq|by rewrite lookup_insert_ne].
  - injection Hr as <-. destruct (pending s1 !! k); [|done]. by destruct (db s1).
  - by injection Hr as <-.
Qed.

Lemma get_peer_id_spec d n d' i :
  keys_ok d -> get_peer_id d n = (d', i) ->
  keys_ok d' /\ feemon_peers d' !! n = Some i /\ forall m, rows_of d' m = rows_of d m.
Proof.
  intros [Hk Hr] H. unfold get_peer_id in H. destruct (feemon_peers d !! n) as [j|] eqn:Ei; injection H as <- <-; [done|].
  assert (forall m j, feemon_peers d !! m = Some j -> j <> Unmanaged.new_rowid (feemon_peers d) /\ m <> n) as Hfresh.
  { intros m j Hm. split; [intros ->; apply Unmanaged.new_rowid_fresh in Hm; lia|congruence]. }
  split; [split|split]; cbn [feemon_peers change_events].
  - intros a b j. destruct (decide (a = n)) as [->|Ha], (decide (b = n)) as [->|Hb];
      rewrite ?lookup_insert_eq, ?lookup_insert_ne by done; [done|..].
    + intros [= <-] H. by destruct (Hfresh _ _ H).
    + intros H [= <-]. by destruct (Hfresh _ _ H).
    + by apply Hk.
  - intros r H. destruct (Hr r H) as [m Hm]. exists m. destruct (Hfresh _ _ Hm). by rewrite lookup_insert_ne.
  - apply lookup_insert_eq.
  - intros m. unfold rows_of. cbn [feemon_peers change_events]. apply filter_ext_on. intros r H.
    destruct (Hr r H) as [k Hm]. destruct (Hfresh _ _ Hm) as [H1 H2]. destruct (decide (m = n)) as [->|Hn].
    + rewrite lookup_insert_eq, Ei. split; [intros [= E]; congruence|done].
    + by rewrite lookup_insert_ne.
Qed.

Lemma insert_row_spec d p :
  keys_ok d -> keys_ok (insert_row d p)
  /\ exists i, forall n, rows_of (insert_row d p) n = rows_of d n ++ (if decide (p_node p = n) then [row_of i p] else []).
Proof.
  intros Hok. unfold insert_row. destruct (get_peer_id d (p_node p)) as [d' i] eqn:E.
  destruct (get_peer_id_spec d (p_node p) d' i Hok E) as ([Hk Hr] & Hi & Hrows). split.
  - split; [exact Hk|]. cbn [change_events feemon_peers]. intros r [H|H]%elem_of_app; [by apply Hr|].
    apply list_elem_of_singleton in H as ->. by exists (p_node p).
  - exists i. intros n. rewrite <- Hrows. unfold rows_of. cbn [change_events feemon_peers]. rewrite filter_app, filter_cons, filter_nil.
    apply f_equal. cbn [peer_id row_of]. destruct (decide (p_node p = n)) as [<-|Hne]; [by rewrite decide_True|].
    rewrite decide_False; [done|]. intros H. apply Hne. by eapply Hk.
Qed.

(** A fee that was set, with what had been reported before. *)
Definition set_in (es : list Event) (n : Node) (b p : Z) (now : double) (i : Info) : Prop :=
  exists es1 es2, es = es1 ++ E_set n b p now :: es2 /\ i = reported es1 n.

Lemma set_in_more es e n b p now i : set_in es n b p now i -> set_in (es ++ [e]) n b p now i.
Proof. intros (es1 & es2 & -> & H). exists es1, (es2 ++ [e]). split; [by rewrite <- app_assoc|done]. Qed.

Record faithful (es : list Event) (s : State) : Prop := {
  f_keys : keys_ok (tables s);
  f_rows : forall n r, r ∈ rows_of (tables s) n -> set_in es n (set_base r) (set_ppm r) (ts r) (snapshot r);
  f_pending : forall p, p ∈ pending s -> set_in es (p_node p) (p_base p) (p_ppm p) (p_ts p) (p_snapshot p)
}.

Lemma faithful_more es e s s' :
  faithful es s -> tables s' = tables s -> (forall p, p ∈ pending s' -> p ∈ pending s) -> faithful (es ++ [e]) s'.
Proof.
  intros [H1 H2 H3] E Hp. split; rewrite ?E; [done| |].
  - intros n r H. by apply set_in_more, H2.
  - intros p H. by apply set_in_more, H3, Hp.
Qed.

Lemma run_faithful es s : run (boot empty) es = Some s -> faithful es s.
Proof.
  revert s. induction es as [|e es IH] using rev_ind; intros s Hr.
  { injection Hr as <-. split; [split|..]; cbn; intros *; rewrite ?lookup_empty; try done; by intros ?%not_elem_of_nil. }
  rewrite run_snoc_fee in Hr. destruct (run (boot empty) es) as [s1|] eqn:E1; [|done]. cbn [mbind option_bind] in Hr.
  specialize (IH s1 eq_refl). destruct e as [|m r|m|m b p now|k|]; cbn [step] in Hr.
  - injection Hr as <-. by apply (faithful_more _ _ s1).
  - injection Hr as <-. by apply (faithful_more _ _ s1).
  - injection Hr as <-. by apply (faithful_more _ _ s1).
  - destruct (estimate (info_of s1 m)) as [est|]; [|done]. injection Hr as <-. destruct IH as [H1 H2 H3]. split; cbn [tables pending].
    + done.
    + intros n r H. by apply set_in_more, H2.
    + intros q [H|H]%elem_of_app; [by apply set_in_more, H3|]. apply list_elem_of_singleton in H as ->. cbn [p_node p_base p_ppm p_ts p_snapshot].
      exists es, []. split; [done|]. by eapply info_reported.
  - injection Hr as <-. destruct (pending s1 !! k) as [q|] eqn:Ek; [|by apply (faithful_more _ _ s1)].
    destruct (db s1); [|by apply (faithful_more _ _ s1)]. destruct IH as [H1 H2 H3]. destruct (insert_row_spec _ q H1) as (K & i & Hi).
    split; cbn [tables pending].
    + done.
    + intros n r H. rewrite Hi in H. apply elem_of_app in H as [H|H]; [by apply set_in_more, H2|].
      destruct (decide (p_node q = n)) as [<-|]; [|by apply not_elem_of_nil in H]. apply list_elem_of_singleton in H as ->.
      apply set_in_more, H3. by eapply list_elem_of_lookup_2.
    + intros p H. apply set_in_more, H3. by eapply list_elem_of_delete_inv.
  - injection Hr as <-. apply (faithful_more _ _ s1); [done..|]. by intros p ?%not_elem_of_nil.
Qed.

(** *** Properties *)

(** The history of a peer is faithful: each of its rows is a fee that was set for it, with
    what the fee modules had reported last since the channel was made; and as long as the
    process runs no fee is lost but those that still wait for the database. *)
Theorem fee_history_faithful es s n :
  run (boot empty) es = Some s ->
  (forall r, r ∈ rows_of (tables s) n -> set_in es n (set_base r) (set_ppm r) (ts r) (snapshot r))
  /\ (E_restart ∉ es -> (length (rows_of (tables s) n) + length (filter (fun p => p_node p = n) (pending s)) = fees_set n es)%nat).
Proof.
  intros Hr. pose proof (run_faithful _ _ Hr) as Hf. split; [apply Hf|]. revert s Hr Hf.
  induction es as [|e es IH] using rev_ind; intros s Hr Hf Hn; [by injection Hr as <-|].
  rewrite run_snoc_fee in Hr. destruct (run (boot empty) es) as [s1|] eqn:E1; [|done]. cbn [mbind option_bind] in Hr.
  rewrite not_elem_of_app in Hn. destruct Hn as [Hn He]. pose proof (run_faithful _ _ E1) as Hf1. specialize (IH s1 eq_refl Hf1 Hn).
  unfold fees_set in *. rewrite filter_app, length_app, <- IH. clear IH Hf.
  assert (sets_fee n e = false -> length (filter (fun e => sets_fee n e = true) [e]) = 0%nat) as H0.
  { intros E. by rewrite filter_cons, decide_False by congruence. }
  destruct e as [|m r|m|m b p now|k|]; cbn [step] in Hr; cbn [sets_fee] in H0;
    try (injection Hr as <-; rewrite H0 by done; cbn [tables pending]; lia).
  - destruct (estimate (info_of s1 m)) as [est|]; [|done]. injection Hr as <-. cbn [tables pending].
    rewrite filter_app, length_app, !filter_cons, !filter_nil. cbn [p_node sets_fee].
    destruct (decide (m = n)) as [Hm|Hm]; [rewrite decide_True by (by apply bool_decide_eq_true)|rewrite decide_False by (by rewrite bool_decide_eq_true)]; cbn [length]; lia.
  - injection Hr as <-. rewrite H0 by done. destruct (pending s1 !! k) as [q|] eqn:Ek; [|lia]. destruct (db s1); [|lia].
    destruct Hf1 as [H1 _ _]. destruct (insert_row_spec _ q H1) as (_ & i & Hi). cbn [tables pending]. rewrite Hi, length_app.
    pose proof (delete_Permutation _ _ _ Ek) as Hp. apply (filter_Permutation (fun p => p_node p = n)) in Hp. apply Permutation_length in Hp. rewrite Hp.
    rewrite filter_cons. destruct (decide (p_node q = n)); cbn; lia.
  - exfalso. apply He. left.
Qed.

End FeeMonitor.

(** ** The track record *)

Module TrackRecord.

(** *** Options *)

(** [std::stoll]: leading space, a sign, digits, and whatever follows; [None] is an exception. *)
Definition stoll (s : bytes) : option Z :=
  let '(neg, s) := match skip_ws s with
                   | c :: s' => if c =? chr "-" then (true, s') else if c =? chr "+" then (false, s') else (false, c :: s')
                   | [] => (false, [])
                   end in
  match (span_digits s).1 with
  | [] => None
  | ds =>
      let v := if neg : bool then - digits_value ds else digits_value ds in
      if (- 2 ^ 63 <=? v) && (v <? 2 ^ 63) then Some v else None
  end.

Record Options := { window_days : Z; keeper_tral_bps : Z; min_record_days : Z }.

Definition defaults : Options := {| window_days := 180; keeper_tral_bps := 50; min_record_days := 7 |}.

Definition INT64_MIN : Z := - 2 ^ 63.

(** The value of an option as an integer; [None] is refused. *)
Definition option_int (value : option json) : outcome (option Z) :=
  match
    (if jis_number value then let* d := number value in let* z := defined (d_to_i64 d) in inl (Some z)
     else if jis_string value then let* s := text value in let* z := or_throw Logic (stoll s) in inl (Some z)
     else inl None)
  with
  | inr Undefined => inr Undefined
  | inr _ => inl None
  | r => r
  end.

(** The new value of the target, and whether the option was rejected. *)
Definition handle_int_option (value : option json) (target minimum : Z) : outcome (Z * bool) :=
  let* v := option_int value in
  match v with
  | None => inl (target, true)
  | Some v => if v <? minimum then inl (target, true) else inl (v, false)
  end.

Definition on_option (o : Options) (name : bytes) (value : option json) : outcome (Options * bool) :=
  if bool_decide (name = lit "clboss-candidate-record-window-days") then
    let* r := handle_int_option value (window_days o) 1 in
    inl ({| window_days := r.1; keeper_tral_bps := keeper_tral_bps o; min_record_days := min_record_days o |}, r.2)
  else if bool_decide (name = lit "clboss-candidate-keeper-tral-bps") then
    let* r := handle_int_option value (keeper_tral_bps o) INT64_MIN in
    inl ({| window_days := window_days o; keeper_tral_bps := r.1; min_record_days := min_record_days o |}, r.2)
  else if bool_decide (name = lit "clboss-candidate-min-record-days") then
    let* r := handle_int_option value (min_record_days o) 0 in
    inl ({| window_days := window_days o; keeper_tral_bps := keeper_tral_bps o; min_record_days := r.1 |}, r.2)
  else inl (o, false).

(** *** The verdict *)

Record Rec := { verdict : Order.Verdict; tral_bps : double; op_days : double; net_msat : Z }.

Definition no_record : Rec := {| verdict := Order.NoRecord; tral_bps := Fin 0; op_days := Fin 0; net_msat := 0 |}.

(** [SUM] over integers; [None] where a sum leaves the range of 64 bits. *)
Definition in_range (z : Z) : option Z := if Tracker.fits z then Some z else None.
Fixpoint sum_from (acc : Z) (l : list Z) : option Z :=
  match l with [] => Some acc | x :: l => acc ← in_range (acc + x); sum_from acc l end.

(** [COALESCE(SUM(in_earnings + out_earnings) - SUM(in_expenditures + out_expenditures), 0)] *)
Definition net_query (t : Tracker.Table) (n : Node) (cutoff : double) : option Z :=
  let rows := map Tracker.data (Tracker.rows_of n (Tracker.recent cutoff t)) in
  earned ← mapM (fun d => in_range (Tracker.in_earnings d + Tracker.out_earnings d)) rows;
  spent ← mapM (fun d => in_range (Tracker.in_expenditures d + Tracker.out_expenditures d)) rows;
  e ← sum_from 0 earned;
  x ← sum_from 0 spent;
  in_range (e - x).

(** The balances that are there, of the rows since [cutoff]. *)
Definition balances (d : FeeMonitor.Db) (n : Node) (cutoff : double) : list Z :=
  omap (fun r => FeeMonitor.balance_our_msat (FeeMonitor.snapshot r))
    (filter (fun r => dge (FeeMonitor.ts r) cutoff = true) (FeeMonitor.rows_of d n)).

Definition records_per_day : double := d_of_Z 24.

Definition cutoff_of (o : Options) (now : double) : double :=
  dsub now (dmul (dmul (dmul (d_of_Z (window_days o)) (d_of_Z 24)) (d_of_Z 60)) (d_of_Z 60)).

Section Compute.

(** SQLite's [AVG] of a list that is not empty. *)
Context (avg : list Z -> double).

Definition tral (net : Z) (avg_msat days : double) : double :=
  dmul (dmul (ddiv (ddiv (d_of_Z net) avg_msat) days) (d_of_Z 365)) (d_of_Z 10000).

Definition compute (o : Options) (t : Tracker.Table) (d : FeeMonitor.Db) (n : Node) (now : double) : option Rec :=
  let cutoff := cutoff_of o now in
  net ← net_query t n cutoff;
  let bs := balances d n cutoff in
  let count := Z.of_nat (length bs) in
  let avg_msat := match bs with [] => Fin 0 | _ => avg bs end in
  let days := ddiv (d_of_Z count) records_per_day in
  if (count =? 0) || dlt days (d_of_Z (min_record_days o)) || dle avg_msat (Fin 0)
  then Some {| verdict := Order.NoRecord; tral_bps := Fin 0; op_days := days; net_msat := net |}
  else
    let r := tral net avg_msat days in
    Some {| verdict := if dge r (d_of_Z (keeper_tral_bps o)) then Order.Keeper else Order.Underperformer;
            tral_bps := r; op_days := days; net_msat := net |}.

(** The tables of the other modules, once they have been created. *)
Definition respond (o : Options) (have_tables : option (Tracker.Table * FeeMonitor.Db)) (nodes : list Node) (now : double)
    : option (gmap Node Rec) :=
  foldl (fun rs n =>
    rs ← rs;
    r ← match have_tables with Some (t, d) => compute o t d n now | None => Some no_record end;
    Some (<[n := r]> rs)) (Some ∅) nodes.

End Compute.

(** *** Lemmas *)

Lemma sum_from_spec acc l v : sum_from acc l = Some v -> v = acc + sumZ l.
Proof.
  revert acc. induction l as [|x l IH]; intros acc; cbn [sum_from]; [intros [= <-]; cbn; lia|].
  unfold in_range. destruct (Tracker.fits _); [|done]. cbn [mbind option_bind]. intros H. apply IH in H. change (sumZ (x :: l)) with (x + sumZ l). lia.
Qed.

Lemma mapM_in_range {A} (f : A -> Z) l k : mapM (fun x => in_range (f x)) l = Some k -> k = map f l.
Proof.
  revert k. induction l as [|x l IH]; intros k; cbn [mapM]; [by intros [= <-]|]. destruct (in_range (f x)) as [y|] eqn:E; [|done].
  assert (y = f x) as -> by (unfold in_range in E; destruct (Tracker.fits _); congruence). cbn [mbind option_bind]. destruct (mapM (fun x => in_range (f x)) l) as [k'|]; [|done]. intros [= <-]. cbn [map]. by rewrite (IH k').
Qed.

Lemma net_plus a b : Tracker.net (Tracker.plus a b) = Tracker.net a + Tracker.net b.
Proof.
  unfold Tracker.net, Tracker.plus, Tracker.zip_data.
  cbn [Tracker.in_earnings Tracker.out_earnings Tracker.in_expenditures Tracker.out_expenditures]. lia.
Qed.

Lemma net_query_spec t n cutoff v :
  net_query t n cutoff = Some v ->
  v = Tracker.net (Tracker.sum (map Tracker.data (Tracker.rows_of n (Tracker.recent cutoff t)))).
Proof.
  unfold net_query. set (rows := map Tracker.data _). intros H.
  destruct (mapM (fun d => in_range (Tracker.in_earnings d + Tracker.out_earnings d)) rows) as [earned|] eqn:E1; [|discriminate H]. cbn [mbind option_bind] in H.
  destruct (mapM (fun d => in_range (Tracker.in_expenditures d + Tracker.out_expenditures d)) rows) as [spent|] eqn:E2; [|discriminate H]. cbn [mbind option_bind] in H.
  apply mapM_in_range in E1 as ->, E2 as ->.
  destruct (sum_from 0 (map (fun d => Tracker.in_earnings d + Tracker.out_earnings d) rows)) as [e|] eqn:E3; [|discriminate H]. cbn [mbind option_bind] in H.
  destruct (sum_from 0 (map (fun d => Tracker.in_expenditures d + Tracker.out_expenditures d) rows)) as [x|] eqn:E4; [|discriminate H]. cbn [mbind option_bind] in H.
  apply sum_from_spec in E3, E4. unfold in_range in H. destruct (Tracker.fits _); [|discriminate H]. injection H as <-. subst e x. clearbody rows.
  induction rows as [|d rows IH]; [done|]. change (Tracker.sum (d :: rows)) with (Tracker.plus d (Tracker.sum rows)).
  rewrite net_plus, <- IH. unfold Tracker.net. cbn [map sumZ foldr]. unfold sumZ. lia.
Qed.

Lemma enough_days c m :
  0 <= c < 2 ^ 44 -> 0 <= m < 2 ^ 38 -> dlt (ddiv (d_of_Z c) records_per_day) (d_of_Z m) = (c <? 24 * m).
Proof.
  intros Hc Hm. unfold records_per_day. rewrite !d_of_Z_exact by lia. cbn [ddiv]. change (Qeq_bool (inject_Z 24) 0) with false. cbv iota.
  assert (0 <= inject_Z c / inject_Z 24)%Q as H0.
  { apply Qle_shift_div_l; [reflexivity|]. rewrite Qmult_0_l. change 0%Q with (inject_Z 0). rewrite <- Zle_Qle. lia. }
  assert (inject_Z c / inject_Z 24 <= pow2 40)%Q as H1.
  { apply Qle_shift_div_r; [reflexivity|]. assert (c <= 2 ^ 44) as Hz by lia. rewrite Zle_Qle in Hz. change (inject_Z (2 ^ 44)) with (17592186044416 # 1)%Q in Hz.
    change (pow2 40) with (1099511627776 # 1)%Q. change (inject_Z 24) with 24%Q. lra. }
  destruct (RN_near _ 40 H0 H1 ltac:(lia)) as (r & Er & _ & Hr). change (pow2 (40 - 52)) with (1 # 4096)%Q in Hr.
  change (inject_Z 24) with 24%Q in *.
  assert (inject_Z c / 24 == inject_Z c * (1 # 24))%Q as Ediv by (unfold Qdiv; reflexivity).
  destruct (Z.ltb_spec c (24 * m)) as [H|H].
  - rewrite Er. apply dlt_Fin. assert (c + 1 <= 24 * m) as Hz by lia. rewrite Zle_Qle, inject_Z_plus, inject_Z_mult in Hz.
    change (inject_Z 24) with 24%Q in Hz. change (inject_Z 1) with 1%Q in Hz. lra.
  - assert (dle (Fin (inject_Z m)) (RN (inject_Z c / 24)) = true) as Hle.
    { rewrite <- (d_of_Z_exact m) by lia. apply RN_le. rewrite Ediv. rewrite Zle_Qle, inject_Z_mult in H. change (inject_Z 24) with 24%Q in H. lra. }
    rewrite Er in Hle |- *. apply dle_Fin in Hle. apply not_true_is_false. rewrite dlt_Fin. lra.
Qed.

Lemma ddiv_pos_mono x y q : (0 < q)%Q -> dle x y = true -> dle (ddiv x (Fin q)) (ddiv y (Fin q)) = true.
Proof.
  intros Hq H. assert (Qeq_bool q 0 = false) as E0 by (apply not_true_is_false; rewrite Qeq_bool_iff; lra).
  assert (Qneg_b q = false) as E1 by (unfold Qneg_b; apply negb_false_iff, Qle_bool_iff; lra).
  assert (forall a b, (a <= b)%Q -> dle (RN (a / q)) (RN (b / q)) = true) as HF.
  { intros a b Hab. apply RN_le. unfold Qdiv. apply Qmult_le_compat_r; [done|]. apply Qlt_le_weak, Qinv_lt_0_compat. done. }
  destruct x as [a|[]|], y as [b|[]|]; cbn [ddiv]; rewrite ?E0, ?E1; try done; try (apply HF; by apply dle_Fin);
    cbn [xorb]; destruct (RN _) as [z|[]|] eqn:Ez; try done; by apply RN_not_NaN in Ez.
Qed.

Lemma dmul_pos_mono x y q : (0 < q)%Q -> dle x y = true -> dle (dmul x (Fin q)) (dmul y (Fin q)) = true.
Proof.
  intros Hq H. assert (Qeq_bool q 0 = false) as E0 by (apply not_true_is_false; rewrite Qeq_bool_iff; lra).
  assert (Qneg_b q = false) as E1 by (unfold Qneg_b; apply negb_false_iff, Qle_bool_iff; lra).
  assert (forall a b, (a <= b)%Q -> dle (RN (a * q)) (RN (b * q)) = true) as HF.
  { intros a b Hab. apply RN_le. apply Qmult_le_compat_r; [done|]. lra. }
  destruct x as [a|[]|], y as [b|[]|]; cbn [dmul]; rewrite ?E0, ?E1; try done; try (apply HF; by apply dle_Fin);
    cbn [xorb]; destruct (RN _) as [z|[]|] eqn:Ez; try done; by apply RN_not_NaN in Ez.
Qed.

Lemma tral_mono net net' a days :
  (0 < a)%Q -> (0 < days)%Q -> net <= net' -> dle (tral net (Fin a) (Fin days)) (tral net' (Fin a) (Fin days)) = true.
Proof.
  intros Ha Hd Hn. unfold tral. change (d_of_Z 365) with (Fin 365). change (d_of_Z 10000) with (Fin 10000).
  apply dmul_pos_mono; [done|]. apply dmul_pos_mono; [done|]. apply ddiv_pos_mono; [done|]. apply ddiv_pos_mono; [done|].
  apply RN_le. by rewrite <- Zle_Qle.
Qed.

Lemma tral_zero a days : (0 < a)%Q -> (0 < days)%Q -> tral 0 (Fin a) (Fin days) = Fin 0.
Proof.
  intros Ha Hd. unfold tral. change (d_of_Z 0) with (Fin 0). cbn [ddiv].
  assert (forall q, (0 < q)%Q -> Qeq_bool q 0 = false) as E0 by (intros q Hq; apply not_true_is_false; rewrite Qeq_bool_iff; lra).
  rewrite (E0 a Ha). assert (forall q, RN (0 / q)%Q = Fin 0) as Ez by (intros q; by rewrite (RN_Proper (0 / q)%Q 0%Q) by (unfold Qdiv; ring)).
  rewrite Ez. cbn [ddiv]. rewrite (E0 days Hd), Ez. reflexivity.
Qed.

Lemma days_pos c : 0 < c < 2 ^ 44 -> exists q, ddiv (d_of_Z c) records_per_day = Fin q /\ (0 < q)%Q.
Proof.
  intros Hc. unfold records_per_day. rewrite !d_of_Z_exact by lia. cbn [ddiv]. change (Qeq_bool (inject_Z 24) 0) with false. cbv iota.
  change (inject_Z 24) with 24%Q. assert (1 <= inject_Z c)%Q as H1 by (change 1%Q with (inject_Z 1); rewrite <- Zle_Qle; lia).
  assert (inject_Z c <= 17592186044416 # 1)%Q as H2 by (change (17592186044416 # 1)%Q with (inject_Z (2 ^ 44)); rewrite <- Zle_Qle; lia).
  destruct (RN_near (inject_Z c / 24) 44) as (r & Er & Hr0 & Hr).
  - apply Qle_shift_div_l; [reflexivity|]. lra.
  - change (pow2 44) with (17592186044416 # 1)%Q. apply Qle_shift_div_r; [reflexivity|]. lra.
  - lia.
  - exists r. split; [done|]. assert (1 # 32 <= inject_Z c / 24)%Q as H3 by (apply Qle_shift_div_l; [reflexivity|lra]).
    change (pow2 (44 - 52)) with (1 # 256)%Q in Hr. lra.
Qed.

Section Verdicts.

Context (avg : list Z -> double).

(** An average of integers is a number. *)
Hypothesis avg_number : forall l, l <> [] -> exists q, avg l = Fin q.

Lemma compute_spec o t d n now r :
  0 <= min_record_days o < 2 ^ 38 -> Z.of_nat (length (balances d n (cutoff_of o now))) < 2 ^ 44 ->
  compute avg o t d n now = Some r ->
  let bs := balances d n (cutoff_of o now) in
  net_query t n (cutoff_of o now) = Some (net_msat r)
  /\ ((bs = [] \/ Z.of_nat (length bs) < 24 * min_record_days o \/ dle (avg bs) (Fin 0) = true) /\ verdict r = Order.NoRecord
     \/ exists a days, bs <> [] /\ 24 * min_record_days o <= Z.of_nat (length bs) /\ avg bs = Fin a /\ (0 < a)%Q /\ (0 < days)%Q
          /\ tral_bps r = tral (net_msat r) (Fin a) (Fin days)
          /\ verdict r = if dge (tral_bps r) (d_of_Z (keeper_tral_bps o)) then Order.Keeper else Order.Underperformer).
Proof.
  intros Hm Hl H bs. unfold compute in H. fold bs in H, Hl. destruct (net_query t n (cutoff_of o now)) as [net|]; [|discriminate H]. cbn [mbind option_bind] in H.
  rewrite enough_days in H by lia. destruct (Z.eqb_spec (Z.of_nat (length bs)) 0) as [Hz|Hz]; cbn [orb] in H.
  { injection H as <-. split; [done|]. left. split; [left; by apply nil_length_inv; lia|done]. }
  assert (bs <> []) as Hne by (intros E; rewrite E in Hz; done).
  assert (match bs with [] => Fin 0 | _ => avg bs end = avg bs) as Eavg by (by destruct bs). rewrite Eavg in H. clear Eavg.
  destruct (Z.ltb_spec (Z.of_nat (length bs)) (24 * min_record_days o)) as [Hd|Hd]; cbn [orb] in H.
  { injection H as <-. split; [done|]. left. auto. }
  destruct (dle (avg bs) (Fin 0)) eqn:Ea.
  { injection H as <-. split; [done|]. left. auto. }
  injection H as <-. cbn [net_msat verdict tral_bps]. split; [done|]. right. destruct (avg_number bs Hne) as [a Eq].
  destruct (days_pos (Z.of_nat (length bs)) ltac:(lia)) as (days & Ed & Hdp).
  exists a, days. rewrite Eq, Ed in *. split_and!; try done.
  assert (~ (a <= 0)%Q) by (rewrite <- dle_Fin; congruence). lra.
Qed.

End Verdicts.

(** *** Properties *)

(** The verdict.  A node has no record exactly if it has no balances in the window, fewer
    than 24 for each required day, or none of its own; otherwise it is a keeper exactly if
    its return reaches the threshold.  The net earnings are those of the table of earnings. *)
Theorem track_record_exact avg o t d n now r :
  (forall l, l <> [] -> exists q, avg l = Fin q) ->
  0 <= min_record_days o < 2 ^ 38 -> Z.of_nat (length (balances d n (cutoff_of o now))) < 2 ^ 44 ->
  compute avg o t d n now = Some r ->
  let bs := balances d n (cutoff_of o now) in
  net_msat r = Tracker.net (Tracker.sum (map Tracker.data (Tracker.rows_of n (Tracker.recent (cutoff_of o now) t))))
  /\ (verdict r = Order.NoRecord <-> bs = [] \/ Z.of_nat (length bs) < 24 * min_record_days o \/ dle (avg bs) (Fin 0) = true)
  /\ (verdict r = Order.Keeper -> 0 < keeper_tral_bps o < 2 ^ 53 -> 0 < net_msat r).
Proof.
  intros Havg Hm Hl H bs. destruct (compute_spec avg Havg o t d n now r Hm Hl H) as (Hn & Hv). fold bs in Hv.
  split; [by apply net_query_spec|]. destruct Hv as [[Hc Hv]|(a & days & Hne & Hd & Ea & Ha & Hdp & Et & Hv)].
  - split; [tauto|]. congruence.
  - split.
    + split; [intros E; rewrite E in Hv; destruct (dge _ _); discriminate|]. intros [E|[E|E]]; [done|lia|].
      rewrite Ea in E. apply dle_Fin in E. lra.
    + intros E Hk. rewrite E in Hv. destruct (dge (tral_bps r) (d_of_Z (keeper_tral_bps o))) eqn:Eg; [|discriminate Hv].
      destruct (Z.lt_ge_cases 0 (net_msat r)) as [|Hle]; [done|]. exfalso. rewrite Et in Eg. unfold dge in Eg.
      pose proof (tral_mono _ 0 a days Ha Hdp Hle) as Hmono. rewrite tral_zero in Hmono by done.
      pose proof (dle_trans _ _ _ Eg Hmono) as Hx. rewrite d_of_Z_exact in Hx by lia. apply dle_Fin in Hx.
      change 0%Q with (inject_Z 0) in Hx. rewrite <- Zle_Qle in Hx. lia.
Qed.

(** Earning more never hurts: with the same balances and options, a node with higher net
    earnings is not judged worse. *)
Theorem earning_more_helps avg o t t' d n now r r' :
  (forall l, l <> [] -> exists q, avg l = Fin q) ->
  0 <= min_record_days o < 2 ^ 38 -> Z.of_nat (length (balances d n (cutoff_of o now))) < 2 ^ 44 ->
  compute avg o t d n now = Some r -> compute avg o t' d n now = Some r' -> net_msat r <= net_msat r' ->
  verdict r = Order.Keeper -> verdict r' = Order.Keeper.
Proof.
  intros Havg Hm Hl H H' Hn Hv. unfold compute in H, H'.
  set (bs := balances d n (cutoff_of o now)) in *.
  destruct (net_query t n (cutoff_of o now)) as [net|]; [|discriminate H]. destruct (net_query t' n (cutoff_of o now)) as [net'|]; [|discriminate H'].
  cbn [mbind option_bind] in H, H'. destruct ((Z.of_nat (length bs) =? 0) || _ || _) eqn:Ec.
  { injection H as <-. discriminate Hv. }
  injection H as <-. injection H' as <-. cbn [verdict net_msat] in *. clear Hm.
  apply orb_false_iff in Ec as [[Ez _]%orb_false_iff Ea]. apply Z.eqb_neq in Ez.
  assert (bs <> []) as Hne by (intros E; rewrite E in Ez; done).
  assert (match bs with [] => Fin 0 | _ => avg bs end = avg bs) as Eavg by (by destruct bs). rewrite Eavg in *. clear Eavg.
  destruct (Havg bs Hne) as [a Eq]. rewrite Eq in *. destruct (days_pos (Z.of_nat (length bs)) ltac:(lia)) as (days & Ed & Hdp). rewrite Ed in *.
  assert (0 < a)%Q as Ha by (assert (~ (a <= 0)%Q) by (rewrite <- dle_Fin; congruence); lra).
  destruct (dge (tral net (Fin a) (Fin days)) (d_of_Z (keeper_tral_bps o))) eqn:Eg; [|discriminate Hv]. unfold dge in *.
  by rewrite (dle_trans _ _ _ Eg (tral_mono net net' a days Ha Hdp Hn)).
Qed.

(** Options keep their minima: whatever values are given, the window has a day or more and
    the required days are not negative; a rejected value changes nothing. *)
Theorem record_options_ok o name value o' rejected :
  1 <= window_days o -> 0 <= min_record_days o -> on_option o name value = inl (o', rejected) ->
  1 <= window_days o' /\ 0 <= min_record_days o' /\ (rejected = true -> o' = o).
Proof.
  intros Hw Hm H. assert (forall target minimum r, minimum <= target -> handle_int_option value target minimum = inl r ->
    minimum <= r.1 /\ (r.2 = true -> r.1 = target)) as Hh.
  { intros target minimum r Ht E. unfold handle_int_option in E. destruct (option_int value) as [[v|]|]; cbn [obind] in E; [| |discriminate E].
    - destruct (Z.ltb_spec v minimum); injection E as <-; cbn; [done|]. split; [lia|discriminate].
    - injection E as <-. done. }
  unfold on_option in H. destruct (bool_decide _); [|destruct (bool_decide _); [|destruct (bool_decide _)]].
  - destruct (handle_int_option value (window_days o) 1) as [r|] eqn:E; [|discriminate H]. cbn [obind] in H. injection H as <- <-.
    destruct (Hh _ _ _ Hw E) as [H1 H2]. cbn. split_and!; [done..|]. intros Hr. rewrite H2 by done. by destruct o.
  - destruct (handle_int_option value (keeper_tral_bps o) INT64_MIN) as [r|] eqn:E; [|discriminate H]. cbn [obind] in H. injection H as <- <-.
    cbn. split_and!; [done..|]. intros Hr. unfold handle_int_option in E. destruct (option_int value) as [[v|]|]; cbn [obind] in E; [| |discriminate E].
    + destruct (v <? INT64_MIN); injection E as <-; [by destruct o|discriminate Hr].
    + injection E as <-. by destruct o.
  - destruct (handle_int_option value (min_record_days o) 0) as [r|] eqn:E; [|discriminate H]. cbn [obind] in H. injection H as <- <-.
    destruct (Hh _ _ _ Hm E) as [H1 H2]. cbn. split_and!; [done..|]. intros Hr. rewrite H2 by done. by destruct o.
  - injection H as <- <-. done.
Qed.

(** *** Witnesses *)

Definition demo_node : Node := Some (2 :: repeat 0 32).

Definition demo_events : list FeeMonitor.Event :=
  [FeeMonitor.E_db; FeeMonitor.E_report demo_node (FeeMonitor.ByBalance (Fin 1) 4000000000 9000000000);
   FeeMonitor.E_set demo_node 0 100 (d_of_Z 10000000); FeeMonitor.E_run 0;
   FeeMonitor.E_report demo_node (FeeMonitor.ByBalance (Fin 1) 5000000000 9000000000);
   FeeMonitor.E_set demo_node 0 90 (d_of_Z 10003600); FeeMonitor.E_run 0].

Definition demo_state : FeeMonitor.State := Eval vm_compute in default (FeeMonitor.boot FeeMonitor.empty) (FeeMonitor.run (FeeMonitor.boot FeeMonitor.empty) demo_events).
Definition demo_db : FeeMonitor.Db := FeeMonitor.tables demo_state.

Lemma demo_fees_run : FeeMonitor.run (FeeMonitor.boot FeeMonitor.empty) demo_events = Some demo_state.
Proof. vm_compute. reflexivity. Qed.

Lemma fee_history_faithful_witness :
  (length (FeeMonitor.rows_of demo_db demo_node) + length (filter (fun p => FeeMonitor.p_node p = demo_node) (FeeMonitor.pending demo_state))
   = FeeMonitor.fees_set demo_node demo_events)%nat.
Proof.
  apply (FeeMonitor.fee_history_faithful demo_events demo_state demo_node demo_fees_run).
  intros H. unfold demo_events in H. rewrite !elem_of_cons in H. destruct H as [H|[H|[H|[H|[H|[H|[H|H]]]]]]]; try discriminate H. by apply not_elem_of_nil in H.
Defined.

Definition demo_options : Options := {| window_days := 180; keeper_tral_bps := 50; min_record_days := 0 |}.
Definition demo_now : double := d_of_Z 10007200.

Definition demo_earnings (e : Z) : Tracker.Table :=
  [{| Tracker.node := demo_node; Tracker.time_bucket := d_of_Z 9936000;
      Tracker.data := {| Tracker.in_earnings := 0; Tracker.in_forwarded := 0; Tracker.in_expenditures := 0; Tracker.in_rebalanced := 0;
                         Tracker.out_earnings := e; Tracker.out_forwarded := 0; Tracker.out_expenditures := 7; Tracker.out_rebalanced := 0 |} |}].

(** The exact average. *)
Definition exact_avg (l : list Z) : double := Fin (sumZ l # Pos.of_nat (length l)).

Lemma exact_avg_number l : l <> [] -> exists q, exact_avg l = Fin q.
Proof. intros _. by eexists. Qed.

Definition demo_rec (e : Z) : Rec := default no_record (compute exact_avg demo_options (demo_earnings e) demo_db demo_node demo_now).

Lemma demo_rec_computed : compute exact_avg demo_options (demo_earnings 10000) demo_db demo_node demo_now = Some (demo_rec 10000)
  /\ compute exact_avg demo_options (demo_earnings 20000) demo_db demo_node demo_now = Some (demo_rec 20000).
Proof. split; vm_compute; reflexivity. Qed.

Lemma track_record_exact_witness : verdict (demo_rec 10000) = Order.Keeper /\ 0 < net_msat (demo_rec 10000).
Proof.
  assert (verdict (demo_rec 10000) = Order.Keeper) as Hv by (vm_compute; reflexivity). split; [exact Hv|].
  apply (track_record_exact exact_avg demo_options (demo_earnings 10000) demo_db demo_node demo_now (demo_rec 10000) exact_avg_number).
  - split; vm_compute; congruence.
  - vm_compute. reflexivity.
  - apply demo_rec_computed.
  - exact Hv.
  - split; vm_compute; reflexivity.
Defined.

Lemma earning_more_helps_witness : verdict (demo_rec 20000) = Order.Keeper.
Proof.
  apply (earning_more_helps exact_avg demo_options (demo_earnings 10000) (demo_earnings 20000) demo_db demo_node demo_now (demo_rec 10000)
    (demo_rec 20000) exact_avg_number).
  - split; vm_compute; congruence.
  - vm_compute. reflexivity.
  - apply demo_rec_computed.
  - apply demo_rec_computed.
  - vm_compute. discriminate.
  - vm_compute. reflexivity.
Defined.

Lemma record_options_ok_witness :
  exists o', on_option defaults (lit "clboss-candidate-record-window-days") (Some (JStr (lit "0"))) = inl (o', true) /\ o' = defaults.
Proof.
  eexists. split; [vm_compute; reflexivity|].
  apply (record_options_ok defaults (lit "clboss-candidate-record-window-days") (Some (JStr (lit "0"))) _ true);
    [vm_compute; discriminate|vm_compute; discriminate|vm_compute; reflexivity|reflexivity].
Defined.

End TrackRecord.
