(* ===== verification/Green.v ===== *)
(** * Green threads (src/Ev/Semaphore.cpp, src/Ev/Semaphore.hpp, src/Ev/map.hpp,
      src/Ev/foreach.hpp, src/Ev/memoize.hpp)

    The program runs on one operating-system thread; a green thread gives up control only
    where it yields or waits.  An operation between two such points is one step here, and
    the steps of different green threads interleave in any order.  The actions that the
    operations run are arbitrary: they complete at any later time, with any value or
    exception, but once ([Ev::Io::run] ignores all but the first completion). *)

From stdpp Require Import base list numbers gmap.
From S2P Require Import Prelude.

(** What an action ends with. *)
Inductive ending (A E : Type) := Passed (a : A) | Failed (e : E).
Arguments Passed {A E}. Arguments Failed {A E}.

(** ** [Ev::Semaphore] *)

Module Semaphore.

Section Sem.

(** The green threads that use the semaphore, the values of their actions and the
    exceptions. *)
Context {P : Type} `{EqDecision P} {A E : Type}.

(** [running] are the threads whose action was started and is not completed; the queue
    [blocked] is in the order of arrival. *)
Record Sem := { remaining : nat; blocked : list P; running : list P; delivered : list (P * ending A E) }.

Definition sem_make (max : nat) : Sem := {| remaining := max; blocked := []; running := []; delivered := [] |}.

(** Start the action.  It begins with a yield ([Semaphore::core_run]), so that it does not
    complete before the caller returns. *)
Definition handle (s : Sem) (p : P) : Sem :=
  {| remaining := remaining s; blocked := blocked s; running := running s ++ [p]; delivered := delivered s |}.

(** [None] is a failed assertion. *)
Definition unblock (s : Sem) : option Sem :=
  match blocked s with
  | p :: rest =>
      if bool_decide (remaining s = 0%nat) then
        Some (handle {| remaining := remaining s; blocked := rest; running := running s; delivered := delivered s |} p)
      else None
  | [] => Some {| remaining := S (remaining s); blocked := []; running := running s; delivered := delivered s |}
  end.

Definition sem_run (s : Sem) (p : P) : Sem :=
  if bool_decide (0 < remaining s)%nat then
    handle {| remaining := remaining s - 1; blocked := blocked s; running := running s; delivered := delivered s |} p
  else {| remaining := remaining s; blocked := blocked s ++ [p]; running := running s; delivered := delivered s |}.

Fixpoint remove_one (p : P) (l : list P) : list P :=
  match l with
  | [] => []
  | q :: l => if decide (p = q) then l else q :: remove_one p l
  end.

(** The action of [p] completes: the next thread is let in, and then [p] gets the value or
    the exception of its own action. *)
Definition sem_done (s : Sem) (p : P) (r : ending A E) : option Sem :=
  s' ← unblock {| remaining := remaining s; blocked := blocked s; running := remove_one p (running s);
                  delivered := delivered s |};
  Some {| remaining := remaining s'; blocked := blocked s'; running := running s'; delivered := delivered s' ++ [(p, r)] |}.

(** The states after arrivals and completions in any order. *)
Inductive reach (max : nat) : list P -> list (P * ending A E) -> Sem -> Prop :=
  | reach_make : reach max [] [] (sem_make max)
  | reach_run arrived done s p : reach max arrived done s -> reach max (arrived ++ [p]) done (sem_run s p)
  | reach_complete arrived done s s' p r :
      reach max arrived done s -> p ∈ running s -> sem_done s p r = Some s' ->
      reach max arrived (done ++ [(p, r)]) s'.

(** *** Lemmas *)

Lemma remove_one_perm p l : p ∈ l -> p :: remove_one p l ≡ₚ l.
Proof.
  induction l as [|q l IH]; [by intros ?%elem_of_nil|]. cbn [remove_one].
  destruct (decide (p = q)) as [->|Hn]; [done|]. intros [->|Hin]%elem_of_cons; [done|].
  rewrite perm_swap. by rewrite IH.
Qed.

(** The state as a function of the arrivals and the completions. *)
Record sem_ok (max : nat) (arrived : list P) (done : list (P * ending A E)) (s : Sem) : Prop := {
  so_blocked : blocked s = drop (max + length done) arrived;
  so_running : done.*1 ++ running s ≡ₚ take (max + length done) arrived;
  so_remaining : (remaining s + length (take (max + length done) arrived) = max + length done)%nat;
  so_delivered : delivered s = done
}.

Lemma drop_nil_take {X} n (l : list X) : drop n l = [] -> take n l = l.
Proof. intros H. rewrite <- (take_drop n l) at 2. by rewrite H, app_nil_r. Qed.

Lemma run_sem_ok max arrived done s p : sem_ok max arrived done s -> sem_ok max (arrived ++ [p]) done (sem_run s p).
Proof.
  intros [H1 H2 H3 H4]. rewrite length_take in H3. unfold sem_run. case_bool_decide as D.
  - assert (length arrived < max + length done)%nat as L by lia.
    rewrite drop_ge in H1 by lia. rewrite take_ge in H2 by lia.
    split; cbn; [rewrite drop_ge; [done|rewrite length_app; simpl; lia]| |rewrite length_take, length_app; simpl; lia|done].
    rewrite take_ge by (rewrite length_app; simpl; lia). by rewrite app_assoc, H2.
  - assert (max + length done <= length arrived)%nat as L by lia.
    split; cbn; [by rewrite drop_app_le, H1 by lia|by rewrite take_app_le by lia|rewrite take_app_le, length_take by lia; lia|done].
Qed.

Lemma complete_sem_ok max arrived done s p r :
  sem_ok max arrived done s -> p ∈ running s ->
  exists s', sem_done s p r = Some s' /\ sem_ok max arrived (done ++ [(p, r)]) s'.
Proof.
  intros [H1 H2 H3 H4] Hp. rewrite length_take in H3.
  assert (forall l, (done ++ [(p, r)]).*1 ++ (remove_one p (running s) ++ l) ≡ₚ (done.*1 ++ running s) ++ l) as Hperm.
  { intros l. rewrite fmap_app, <- !app_assoc. apply Permutation_app_head.
    change ((p :: remove_one p (running s)) ++ l ≡ₚ running s ++ l). by rewrite remove_one_perm. }
  assert (max + length (done ++ [(p, r)]) = S (max + length done))%nat as En by (rewrite length_app; simpl; lia).
  unfold sem_done, unblock. cbn [blocked remaining running]. destruct (blocked s) as [|q rest] eqn:Eb.
  - eexists. split; [reflexivity|].
    assert (length arrived <= max + length done)%nat as L.
    { apply (f_equal length) in H1. rewrite length_drop in H1. simpl in H1. lia. }
    rewrite take_ge in H2 by lia.
    split; cbn [blocked remaining running delivered]; rewrite ?En; [by rewrite drop_ge by lia| |rewrite length_take; lia|by rewrite H4].
    rewrite take_ge by lia. rewrite <- H2. specialize (Hperm []). by rewrite !app_nil_r in Hperm.
  - assert (arrived !! (max + length done)%nat = Some q) as Hq.
    { rewrite <- (Nat.add_0_r (max + length done)), <- lookup_drop, <- H1. done. }
    assert (max + length done < length arrived)%nat as L by (by eapply lookup_lt_Some).
    rewrite bool_decide_eq_true_2 by lia. eexists. split; [reflexivity|].
    split; cbn [blocked remaining running delivered handle]; rewrite ?En.
    + rewrite <- Nat.add_1_r, <- drop_drop, <- H1. done.
    + rewrite (Hperm [q]), H2. by rewrite <- take_S_r with (x := q).
    + rewrite length_take. lia.
    + by rewrite H4.
Qed.

Lemma reach_sem_ok max arrived done s : reach max arrived done s -> sem_ok max arrived done s.
Proof.
  induction 1 as [|arrived done s p _ IH|arrived done s s' p r _ IH Hp Hc].
  - split; cbn; [by rewrite drop_nil|by rewrite take_nil|rewrite take_nil; simpl; lia|done].
  - by apply run_sem_ok.
  - destruct (complete_sem_ok _ _ _ _ p r IH Hp) as (s2 & E2 & Hok). congruence.
Qed.

End Sem.

Arguments Sem : clear implicits.
Arguments reach {P _ A E}.
Arguments sem_ok {P A E}.

(** *** Properties *)

(** C15: the semaphore.  After any arrivals and completions, the threads that were let in are
    the first [max + completions] arrivals, so that no more than [max] run at a time, no
    slot is idle while a thread waits, and nobody overtakes; the completed threads got
    their own endings; and the next completion fails no assertion. *)
Theorem semaphore_exact `{EqDecision P} {A E} max arrived done (s : Sem P A E) :
  reach max arrived done s ->
  done.*1 ++ running s ≡ₚ take (max + length done) arrived
  /\ blocked s = drop (max + length done) arrived
  /\ (length (running s) <= max)%nat
  /\ (blocked s <> [] -> length (running s) = max)
  /\ delivered s = done
  /\ forall p r, p ∈ running s -> exists s', sem_done s p r = Some s' /\ reach max arrived (done ++ [(p, r)]) s'.
Proof.
  intros R. pose proof (reach_sem_ok _ _ _ _ R) as Hok. destruct Hok as [H1 H2 H3 H4].
  pose proof (Permutation_length H2) as HL. rewrite length_app, length_fmap in HL. rewrite length_take in HL, H3.
  split_and!; [done|done|lia| |done|].
  - intros Hb. assert (max + length done < length arrived)%nat; [|lia].
    apply Nat.nle_gt. intros L. apply Hb. rewrite H1. by apply drop_ge.
  - intros p r Hp. destruct (complete_sem_ok max arrived done s p r) as (s' & E1 & _); [by apply reach_sem_ok|done|].
    exists s'. split; [done|]. by eapply reach_complete.
Qed.

(** *** Witness *)

Definition sem_demo : Sem Z Z Z := sem_run (sem_run (sem_run (sem_make 2) 1) 2) 3.
Definition sem_demo' : Sem Z Z Z := default sem_demo (sem_done sem_demo 2 (Failed 7)).

Lemma sem_demo_reach : reach 2 [1; 2; 3] [(2, Failed 7)] sem_demo'.
Proof.
  apply (reach_complete 2 [1; 2; 3] [] sem_demo sem_demo' 2 (Failed 7)).
  - apply (reach_run 2 [1; 2] [] _ 3), (reach_run 2 [1] [] _ 2), (reach_run 2 [] [] _ 1), reach_make.
  - apply (bool_decide_unpack _). vm_compute. exact I.
  - vm_compute. reflexivity.
Qed.

Lemma semaphore_exact_witness : (blocked sem_demo = [3] /\ running sem_demo' = [1; 3]) /\ delivered sem_demo' = [(2, Failed 7)].
Proof.
  split; [split; vm_compute; reflexivity|].
  destruct (semaphore_exact 2 [1; 2; 3] [(2, Failed 7)] sem_demo' sem_demo_reach) as (_ & _ & _ & _ & D & _). exact D.
Defined.

End Semaphore.

(** ** [Ev::map] *)

Module MapRun.

Section Run.

Context {B E : Type}.

(** What the caller gets; [NullRead] is a result that is read before it was stored. *)
Inductive output := Values (l : list B) | Raised (e : E) | NullRead.

(** The caller starts the actions, waits for them, and is answered. *)
Inductive phase := Looping | Waiting | Returned (o : output).

(** [next] is the action that the caller starts next, [posted] the threads that the event
    loop has yet to enter, [running] those that it entered. *)
Record Run := {
  size : nat; results : list (option B); exc : option E; pending : nat; waiter : bool;
  next : nat; posted : list nat; running : list nat; at_ : phase
}.

Definition create (n : nat) : Run :=
  {| size := n; results := replicate n None; exc := None; pending := n; waiter := false;
     next := 0; posted := []; running := []; at_ := Looping |}.

Definition extract (s : Run) : output :=
  match exc s with
  | Some e => Raised e
  | None => match mapM (fun r => r) (results s) with Some l => Values l | None => NullRead end
  end.

(** One round of the loop starts a thread; at the end of the actions, [wait_completion]. *)
Definition loop (s : Run) : Run :=
  if bool_decide (next s = size s) then
    if bool_decide (pending s = 0%nat) then
      {| size := size s; results := results s; exc := exc s; pending := pending s; waiter := waiter s;
         next := next s; posted := posted s; running := running s; at_ := Returned (extract s) |}
    else
      {| size := size s; results := results s; exc := exc s; pending := pending s; waiter := true;
         next := next s; posted := posted s; running := running s; at_ := Waiting |}
  else
    {| size := size s; results := results s; exc := exc s; pending := pending s; waiter := waiter s;
       next := S (next s); posted := posted s ++ [next s]; running := running s; at_ := at_ s |}.

(** The event loop enters a thread. *)
Definition enter (s : Run) (i : nat) : Run :=
  {| size := size s; results := results s; exc := exc s; pending := pending s; waiter := waiter s;
     next := next s; posted := Semaphore.remove_one i (posted s); running := running s ++ [i]; at_ := at_ s |}.

Definition store (s : Run) (i : nat) (r : ending B E) : Run :=
  {| size := size s;
     results := match r with Passed v => <[i := Some v]> (results s) | Failed _ => results s end;
     exc := match r with Passed _ => exc s | Failed e => Some e end;
     pending := pending s; waiter := waiter s; next := next s; posted := posted s;
     running := Semaphore.remove_one i (running s); at_ := at_ s |}.

Definition finish (s : Run) : Run :=
  let pending' := (pending s - 1)%nat in
  let go := bool_decide (pending' = 0%nat) && waiter s in
  {| size := size s; results := results s; exc := exc s; pending := pending'; waiter := waiter s && negb go;
     next := next s; posted := posted s; running := running s;
     at_ := if go then Returned (extract s) else at_ s |}.

(** The action of thread [i] completes. *)
Definition map_done (s : Run) (i : nat) (r : ending B E) : Run := finish (store s i r).

(** The second argument lists the completions in their order. *)
Inductive step : Run * list (nat * ending B E) -> Run * list (nat * ending B E) -> Prop :=
  | step_loop s done : at_ s = Looping -> step (s, done) (loop s, done)
  | step_enter s done i : i ∈ posted s -> step (s, done) (enter s i, done)
  | step_complete s done i r : i ∈ running s -> step (s, done) (map_done s i r, done ++ [(i, r)]).

Inductive reach (n : nat) : nat -> Run -> list (nat * ending B E) -> Prop :=
  | reach_create : reach n 0 (create n) []
  | reach_step k s done s' done' : reach n k s done -> step (s, done) (s', done') -> reach n (S k) s' done'.

(** *** Lemmas *)

(** The last exception of the completions. *)
Fixpoint last_exn (done : list (nat * ending B E)) : option E :=
  match done with
  | [] => None
  | (_, r) :: done =>
      match last_exn done, r with
      | Some e, _ => Some e
      | None, Failed e => Some e
      | None, Passed _ => None
      end
  end.

Lemma last_exn_snoc done i r :
  last_exn (done ++ [(i, r)]) = match r with Failed e => Some e | Passed _ => last_exn done end.
Proof.
  induction done as [|[j q] done IH]; cbn; [by destruct r|]. rewrite IH. destruct r; [done|]. done.
Qed.

Lemma last_exn_in done e : last_exn done = Some e -> exists i, (i, Failed e) ∈ done.
Proof.
  induction done as [|[j q] done IH]; cbn; [done|]. destruct (last_exn done) as [e'|].
  - intros [= <-]. destruct (IH eq_refl) as [i Hi]. exists i. by right.
  - destruct q as [v|e']; [done|]. intros [= <-]. exists j. by left.
Qed.

Lemma last_exn_none done i r : last_exn done = None -> (i, r) ∈ done -> exists v, r = Passed v.
Proof.
  induction done as [|[j q] done IH]; cbn; [by intros _ ?%elem_of_nil|]. destruct (last_exn done) eqn:El; [done|].
  destruct q as [v|e']; [|done]. intros _ [[= -> ->]|H]%elem_of_cons; [by exists v|by apply IH].
Qed.

(** What holds in every state. *)
Record ok (n : nat) (s : Run) (done : list (nat * ending B E)) : Prop := {
  ok_size : size s = n;
  ok_next : (next s <= n)%nat;
  ok_threads : done.*1 ++ running s ++ posted s ≡ₚ seq 0 (next s);
  ok_pending : (pending s + length done = n)%nat;
  ok_results : length (results s) = n;
  ok_stored : forall i v, (i, Passed v) ∈ done -> results s !! i = Some (Some v);
  ok_exc : exc s = last_exn done;
  ok_phase : match at_ s with
             | Looping => waiter s = false
             | Waiting => waiter s = true /\ next s = n /\ (0 < pending s)%nat
             | Returned o => next s = n /\ length done = n /\ waiter s = false /\ o = extract s
             end
}.

Lemma threads_nodup n s done : ok n s done -> NoDup (done.*1 ++ running s ++ posted s).
Proof. intros H. rewrite (ok_threads _ _ _ H). apply NoDup_seq. Qed.

Lemma ok_count n s done : ok n s done -> (length done + length (running s) + length (posted s) = next s)%nat.
Proof.
  intros H. pose proof (Permutation_length (ok_threads _ _ _ H)) as L.
  rewrite !length_app, length_fmap, length_seq in L. lia.
Qed.

Lemma create_ok n : ok n (create n) [].
Proof.
  split; cbn; try done; try lia; [by rewrite length_replicate|by intros i v ?%elem_of_nil].
Qed.

Lemma loop_ok n s done : ok n s done -> at_ s = Looping -> ok n (loop s) done.
Proof.
  intros H Ea. pose proof H as [H1 H2 H3 H4 H5 H6 H7 H8]. rewrite Ea in H8. unfold loop. rewrite H1.
  case_bool_decide as D1; [case_bool_decide as D2|].
  - split; cbn; try done. split_and!; [done|lia|done|done].
  - split; cbn; try done. split_and!; [done|done|lia].
  - split; cbn [size results exc pending waiter next posted running at_]; try done; [lia| |by rewrite Ea].
    rewrite !app_assoc, <- (app_assoc done.*1), H3. by rewrite seq_S.
Qed.

Lemma enter_ok n s done i : ok n s done -> i ∈ posted s -> ok n (enter s i) done.
Proof.
  intros [H1 H2 H3 H4 H5 H6 H7 H8] Hi. split; cbn; try done. rewrite <- H3, <- app_assoc.
  apply Permutation_app_head, Permutation_app_head. exact (Semaphore.remove_one_perm i (posted s) Hi).
Qed.

Lemma results_snoc n s done i r :
  ok n s done -> i ∈ running s -> (i < n)%nat ->
  forall j v, (j, Passed v) ∈ done ++ [(i, r)] -> results (store s i r) !! j = Some (Some v).
Proof.
  intros H Hi Hn j v Hin. pose proof (threads_nodup _ _ _ H) as ND. pose proof H as [H1 H2 H3 H4 H5 H6 H7 H8].
  apply elem_of_app in Hin as [Hin|Hin%list_elem_of_singleton].
  - assert (j <> i) as Hji.
    { intros ->. apply NoDup_app in ND as (_ & ND & _). apply (ND i); [apply list_elem_of_fmap; by exists (i, Passed v)|].
      apply elem_of_app. by left. }
    cbn. destruct r; [rewrite list_lookup_insert_ne by done|]; by apply H6.
  - injection Hin as -> <-. cbn. apply list_lookup_insert_eq. lia.
Qed.

Lemma complete_ok n s done i r : ok n s done -> i ∈ running s -> ok n (map_done s i r) (done ++ [(i, r)]).
Proof.
  intros H Hi. pose proof (ok_count _ _ _ H) as HC. pose proof H as [H1 H2 H3 H4 H5 H6 H7 H8].
  assert (i < n)%nat as Hn.
  { assert (i ∈ seq 0 (next s)) as Hin by (rewrite <- H3, !elem_of_app; auto). apply elem_of_seq in Hin. lia. }
  assert (0 < length (running s))%nat as Hr by (destruct (running s); [by apply elem_of_nil in Hi|simpl; lia]).
  pose proof (results_snoc n s done i r H Hi Hn) as Hst.
  unfold map_done, finish. split; cbn [size results exc pending waiter next posted running at_ store] in *; try done.
  - rewrite fmap_app, <- !app_assoc. cbn. rewrite <- H3. apply Permutation_app_head.
    rewrite app_comm_cons. apply Permutation_app_tail. by apply Semaphore.remove_one_perm.
  - rewrite length_app. simpl. lia.
  - destruct r; [by rewrite length_insert|done].
  - rewrite last_exn_snoc. by destruct r.
  - destruct (bool_decide (pending s - 1 = 0)%nat) eqn:D; cbn [andb].
    + apply bool_decide_eq_true in D. destruct (waiter s) eqn:Ew; cbn.
      * destruct (at_ s) as [| |o]; [done| |destruct H8 as (_ & _ & ? & _); done]. destruct H8 as (_ & H8 & _).
        split_and!; [done|rewrite length_app; simpl; lia|done|done].
      * destruct (at_ s) as [| |o]; [done|destruct H8; done|]. destruct H8 as (H8 & H9 & _). lia.
    + apply bool_decide_eq_false in D. rewrite andb_true_r.
      destruct (at_ s) as [| |o]; [done|destruct H8 as (W1 & W2 & W3); split_and!; [done|done|lia]|].
      destruct H8 as (H8 & H9 & _). lia.
Qed.

Lemma reach_map_ok n k s done : reach n k s done -> ok n s done.
Proof.
  induction 1 as [|k s done s' done' _ IH Hs]; [apply create_ok|].
  inversion Hs; subst; [by apply loop_ok|by apply enter_ok|by apply complete_ok].
Qed.

(** A measure that every step decreases: three steps for each thread, and the last one of
    the loop. *)
Definition left (s : Run) (done : list (nat * ending B E)) : nat :=
  (3 * (size s - next s) + 2 * length (posted s) + length (running s)
   + match at_ s with Looping => 1 | _ => 0 end)%nat.

Lemma remove_one_length i (l : list nat) : i ∈ l -> length l = S (length (Semaphore.remove_one i l)).
Proof. intros H. by rewrite <- (Permutation_length (Semaphore.remove_one_perm i l H)). Qed.

Lemma step_left n s done s' done' :
  ok n s done -> step (s, done) (s', done') -> (left s' done' < left s done)%nat.
Proof.
  intros H Hs. pose proof H as [H1 H2 _ _ _ _ _ _]. unfold left. inversion Hs; subst.
  - match goal with Ha : at_ s = Looping |- _ => rewrite Ha end. unfold loop.
    case_bool_decide as D1; [case_bool_decide as D2; cbn; lia|]. cbn.
    match goal with Ha : at_ s = Looping |- _ => rewrite Ha end. rewrite length_app. simpl. lia.
  - cbn. pose proof (remove_one_length i (posted s) ltac:(done)). rewrite length_app. simpl. lia.
  - cbn. pose proof (remove_one_length i (running s) ltac:(done)).
    destruct (bool_decide _ && waiter s); destruct (at_ s); lia.
Qed.

Lemma reach_left n k s done : reach n k s done -> (k + left s done <= 3 * n + 1)%nat.
Proof.
  induction 1 as [|k s done s' done' R IH Hs]; [unfold left; cbn; lia|].
  pose proof (step_left n s done s' done' (reach_map_ok _ _ _ _ R) Hs). lia.
Qed.

Lemma mapM_values (l : list (option B)) vs : mapM (fun r => r) l = Some vs <-> l = Some <$> vs.
Proof.
  revert vs. induction l as [|[v|] l IH]; intros vs; cbn.
  - split; [by intros [= <-]|]. by destruct vs.
  - destruct (mapM (fun r => r) l) as [ws|] eqn:Em; cbn.
    + pose proof (proj1 (IH ws) eq_refl) as ->. split; [by intros [= <-]|]. destruct vs as [|w vs]; [done|].
      cbn. intros [= <- Hw]. f_equal. f_equal. apply (inj (fmap Some)) in Hw. by subst.
    + split; [done|]. destruct vs as [|w vs]; [done|]. cbn. intros [= <- Hw]. apply IH in Hw. done.
  - split; [done|]. destruct vs; done.
Qed.

End Run.

Arguments Run : clear implicits.
Arguments output : clear implicits.
Arguments phase : clear implicits.

Lemma map_answer_spec {B E} n k (s : Run B E) done o :
  reach n k s done -> at_ s = Returned o ->
  done.*1 ≡ₚ seq 0 n
  /\ match last_exn done with
     | Some e => o = Raised e /\ exists i, (i, Failed e) ∈ done
     | None => exists l, o = Values l /\ length l = n /\ forall i v, (i, Passed v) ∈ done <-> l !! i = Some v
     end.
Proof.
  intros R Ea. pose proof (reach_map_ok _ _ _ _ R) as H. pose proof (ok_count _ _ _ H) as HC.
  destruct H as [H1 H2 H3 H4 H5 H6 H7 H8]. rewrite Ea in H8. destruct H8 as (Hn & HL & _ & ->).
  assert (running s = [] /\ posted s = []) as [Er Ep].
  { split; [destruct (running s)|destruct (posted s)]; [done|simpl in HC; lia|done|simpl in HC; lia]. }
  rewrite Er, Ep, Hn in H3. cbn in H3. rewrite app_nil_r in H3. split; [done|].
  unfold extract. rewrite H7. destruct (last_exn done) as [e|] eqn:El; [split; [done|by apply last_exn_in]|].
  assert (forall i, (i < n)%nat -> exists v, (i, Passed v) ∈ done) as Hall.
  { intros i Hi. assert (i ∈ done.*1) as Hin by (rewrite H3; apply elem_of_seq; lia).
    apply list_elem_of_fmap in Hin as ([j r] & -> & Hin). destruct (last_exn_none _ _ _ El Hin) as [v ->]. by exists v. }
  assert (exists l, results s = Some <$> l) as [l El'].
  { exists (omap (fun r => r) (results s)).
    assert (Forall is_Some (results s)) as HF.
    { apply Forall_lookup. intros i x Hx. destruct (Hall i) as [v Hv]; [apply lookup_lt_Some in Hx; lia|].
      apply H6 in Hv. rewrite Hv in Hx. injection Hx as <-. by eexists. }
    clear -HF. induction HF as [|x l [v ->] _ IH]; [done|]. cbn. by rewrite <- IH. }
  rewrite (proj2 (mapM_values _ l) El'). exists l. split; [done|]. split; [by rewrite <- H5, El', length_fmap|].
  intros i v. split.
  - intros Hin. apply H6 in Hin. rewrite El', list_lookup_fmap in Hin. destruct (l !! i); [by injection Hin as ->|done].
  - intros Hv. destruct (Hall i) as [w Hw]; [apply lookup_lt_Some in Hv; rewrite <- (length_fmap Some l), <- El' in Hv; lia|].
    pose proof (H6 _ _ Hw) as Hx. rewrite El', list_lookup_fmap, Hv in Hx. injection Hx as ->. done.
Qed.

(** *** Properties *)

(** [Ev::map].  When the caller is answered, every function has completed, once; the answer
    is the results in the order of the input, or, if a function threw, the exception of the
    last one that did; no result is read before it is stored. *)
Theorem map_answers_exactly {B E} n k (s : Run B E) done o :
  reach n k s done -> at_ s = Returned o ->
  done.*1 ≡ₚ seq 0 n
  /\ match last_exn done with
     | Some e => o = Raised e /\ exists i, (i, Failed e) ∈ done
     | None => exists l, o = Values l /\ length l = n /\ forall i v, (i, Passed v) ∈ done <-> l !! i = Some v
     end.
Proof. apply map_answer_spec. Qed.

(** [Ev::map] ends.  A run has at most three steps for each function and one more; and a
    caller that is not answered can move on, or the event loop can, or a function was
    entered and has not completed. *)
Theorem map_always_answers {B E} n k (s : Run B E) done :
  reach n k s done ->
  (k <= 3 * n + 1)%nat
  /\ ((exists o, at_ s = Returned o) \/ (exists s', step (s, done) (s', done)) \/ running s <> []).
Proof.
  intros R. split; [pose proof (reach_left _ _ _ _ R); lia|].
  pose proof (reach_map_ok _ _ _ _ R) as H. pose proof (ok_count _ _ _ H) as HC. destruct H as [H1 H2 H3 H4 H5 H6 H7 H8].
  destruct (at_ s) as [| |o] eqn:Ea; [|destruct H8 as (_ & Hn & Hp)|left; by exists o]; right.
  - left. eexists. by apply step_loop.
  - destruct (posted s) as [|i l] eqn:Ep.
    + right. intros Er. rewrite Er in HC. simpl in HC. lia.
    + left. eexists. apply (step_enter s done i). rewrite Ep. by left.
Qed.

(** *** Witnesses *)

(** Two functions; the second completes first, and throws. *)
Definition map_demo : Run Z Z := enter (enter (loop (loop (loop (create 2)))) 1) 0.
Definition map_demo1 : Run Z Z := map_done map_demo 1 (Failed 5).
Definition map_demo2 : Run Z Z := map_done map_demo1 0 (Passed 6).

Lemma map_demo_reach : reach 2 5 map_demo [].
Proof.
  eapply reach_step; [|apply step_enter; apply (bool_decide_unpack _); vm_compute; exact I].
  eapply reach_step; [|apply step_enter; apply (bool_decide_unpack _); vm_compute; exact I].
  do 3 (eapply reach_step; [|apply step_loop; reflexivity]). apply reach_create.
Qed.

Lemma map_demo2_reach : reach 2 7 map_demo2 [(1%nat, Failed 5); (0%nat, Passed 6)].
Proof.
  apply (reach_step 2 6 map_demo1 [(1%nat, Failed 5)]).
  - apply (reach_step 2 5 map_demo [] map_demo1); [apply map_demo_reach|].
    apply (step_complete map_demo []). apply (bool_decide_unpack _). vm_compute. exact I.
  - apply (step_complete map_demo1 [(1%nat, Failed 5)]). apply (bool_decide_unpack _). vm_compute. exact I.
Qed.

Definition map_demo_done : list (nat * ending Z Z) := [(1%nat, Failed 5); (0%nat, Passed 6)].

Lemma map_answers_exactly_witness :
  (at_ map_demo1 = Waiting /\ at_ map_demo2 = Returned (Raised 5)) /\ exists i, (i, Failed 5) ∈ map_demo_done.
Proof.
  split; [split; vm_compute; reflexivity|].
  destruct (map_answers_exactly 2 7 map_demo2 map_demo_done (Raised 5) map_demo2_reach) as (_ & _ & Hx); [vm_compute; reflexivity|].
  exact Hx.
Defined.

Lemma map_always_answers_witness : (7 <= 3 * 2 + 1)%nat.
Proof. apply (map_always_answers 2 7 map_demo2 [(1%nat, Failed 5); (0%nat, Passed 6)]). exact map_demo2_reach. Defined.

End MapRun.

(** ** [Ev::memoize] *)

Module Memoize.

Section Memo.

(** The arguments and the results of the function. *)
Context {K : Type} `{Countable K} {R E : Type}.

(** [inflight] are the calls, by number, that invoked the function and are not answered;
    [invoked] the arguments of all invocations, in order. *)
Record Memo := { table : gmap K R; inflight : gmap nat K; invoked : list K; answers : list (nat * K * ending R E) }.

Definition memoize : Memo := {| table := ∅; inflight := ∅; invoked := []; answers := [] |}.

(** A call: a known result is returned, otherwise the function is invoked. *)
Definition call (m : Memo) (c : nat) (key : K) : Memo :=
  match table m !! key with
  | Some r => {| table := table m; inflight := inflight m; invoked := invoked m; answers := answers m ++ [(c, key, Passed r)] |}
  | None => {| table := table m; inflight := <[c := key]> (inflight m); invoked := invoked m ++ [key]; answers := answers m |}
  end.

(** [std::map::emplace] keeps the entry that is there. *)
Definition emplace (t : gmap K R) (key : K) (r : R) : gmap K R :=
  match t !! key with Some _ => t | None => <[key := r]> t end.

(** The invocation of call [c] completes; an exception passes through. *)
Definition memo_done (m : Memo) (c : nat) (key : K) (r : ending R E) : Memo :=
  {| table := match r with Passed v => emplace (table m) key v | Failed _ => table m end;
     inflight := delete c (inflight m); invoked := invoked m; answers := answers m ++ [(c, key, r)] |}.

Inductive move := Call (c : nat) (key : K) | Complete (c : nat) (r : ending R E).

Inductive step : Memo -> move -> Memo -> Prop :=
  | step_call m c key : inflight m !! c = None -> step m (Call c key) (call m c key)
  | step_complete m c key r : inflight m !! c = Some key -> step m (Complete c r) (memo_done m c key r).

Inductive steps : Memo -> list move -> Memo -> Prop :=
  | steps_nil m : steps m [] m
  | steps_cons m v m' l m'' : step m v m' -> steps m' l m'' -> steps m (v :: l) m''.

Definition calls_for (key : K) (l : list K) : nat := length (filter (fun k => k = key) l).

(** Calls one after the other, of a function that returns [f]. *)
Definition call_alone (f : K -> R) (m : Memo) (key : K) : Memo :=
  let m' := call m 0 key in
  match inflight m' !! 0%nat with Some k => memo_done m' 0 k (Passed (f k)) | None => m' end.

Definition call_all (f : K -> R) (l : list K) : Memo := foldl (call_alone f) memoize l.

(** *** Lemmas *)

Lemma emplace_spec t key v k :
  emplace t key v !! k = if decide (k = key) then Some (default v (t !! key)) else t !! k.
Proof.
  unfold emplace. destruct (t !! key) as [w|] eqn:Et; destruct (decide (k = key)) as [->|Hn]; cbn.
  - done.
  - done.
  - by rewrite lookup_insert_eq.
  - by rewrite lookup_insert_ne by congruence.
Qed.

Lemma step_keeps m v m' key r : step m v m' -> table m !! key = Some r -> table m' !! key = Some r.
Proof.
  destruct 1 as [m c k Hi|m c k e Hi]; intros Ht; [unfold call; by destruct (table m !! k)|].
  cbn. destruct e as [v|e]; [|done]. rewrite emplace_spec. destruct (decide (key = k)) as [->|]; [|done]. by rewrite Ht.
Qed.

Lemma calls_for_snoc key l k : calls_for key (l ++ [k]) = (calls_for key l + if decide (k = key) then 1 else 0)%nat.
Proof.
  unfold calls_for. rewrite filter_app, length_app, filter_cons. destruct (decide (k = key)); done.
Qed.

(** A result stays: later moves do not invoke the function for its arguments again, and
    calls for them are answered with it, except those that invoked it before. *)
Lemma steps_known m l m' key r :
  steps m l m' -> table m !! key = Some r ->
  table m' !! key = Some r /\ calls_for key (invoked m') = calls_for key (invoked m)
  /\ forall c, (exists n, l !! n = Some (Call c key)) -> (c, key, Passed r) ∈ answers m'.
Proof.
  intros Hs Ht. assert (forall m l m' x, steps m l m' -> x ∈ answers m -> x ∈ answers m') as Hmono.
  { clear. induction 1 as [|m v m' l m'' H1 _ IH]; [done|]. intros Hx. apply IH.
    destruct H1; [unfold call; destruct (table m !! key)|]; cbn; rewrite ?elem_of_app; auto. }
  induction Hs as [m|m v m' l m'' H1 H2 IH]; [split_and!; [done|done|intros c [n Hn]; done]|].
  destruct (IH (step_keeps _ _ _ _ _ H1 Ht)) as (IH1 & IH2 & IH3). split_and!; [done| |].
  - rewrite IH2. destruct H1 as [m c k Hi|m c k e Hi]; [|done]. unfold call. destruct (table m !! k) eqn:Ek; [done|].
    cbn [invoked]. rewrite calls_for_snoc. destruct (decide (k = key)) as [->|]; [congruence|lia].
  - intros c [[|n] Hn]; [|apply IH3; by exists n]. injection Hn as ->. eapply Hmono; [exact H2|].
    inversion H1; subst. unfold call. rewrite Ht. cbn. rewrite elem_of_app. right. by apply list_elem_of_singleton.
Qed.

Record alone_ok (f : K -> R) (l : list K) (m : Memo) : Prop := {
  al_table : forall k, table m !! k = if decide (k ∈ l) then Some (f k) else None;
  al_inflight : inflight m = ∅;
  al_invoked : NoDup (invoked m) /\ forall k, k ∈ invoked m <-> k ∈ l;
  al_answers : answers m = (fun k => (0%nat, k, Passed (f k))) <$> l
}.

Lemma call_alone_ok f l m key : alone_ok f l m -> alone_ok f (l ++ [key]) (call_alone f m key).
Proof.
  intros [H1 H2 [H3 H4] H5]. unfold call_alone, call. pose proof (H1 key) as Hk. destruct (decide (key ∈ l)) as [Hin|Hin]; rewrite Hk.
  - cbn [inflight]. rewrite H2, lookup_empty. split; cbn [table inflight invoked answers].
    + intros k. rewrite H1. destruct (decide (k ∈ l)), (decide (k ∈ l ++ [key])); set_solver.
    + done.
    + split; [done|]. intros k. rewrite H4. set_solver.
    + by rewrite fmap_app, H5.
  - cbn [inflight]. rewrite lookup_insert_eq. split; cbn [memo_done table inflight invoked answers].
    + intros k. rewrite emplace_spec, Hk. destruct (decide (k = key)) as [->|Hn]; cbn [default].
      * by rewrite decide_True by set_solver.
      * rewrite H1. destruct (decide (k ∈ l)), (decide (k ∈ l ++ [key])); set_solver.
    + rewrite H2. by rewrite delete_insert_id by apply lookup_empty.
    + split; [apply NoDup_app; split_and!; [done|set_solver|apply NoDup_singleton]|].
      intros k. rewrite !elem_of_app, H4. done.
    + by rewrite fmap_app, H5.
Qed.

End Memo.

Arguments Memo K {_ _} R E.
Arguments move : clear implicits.

(** *** Properties *)

(** Memoization.  Once an invocation for some arguments returned [r] as the first, [r] is
    the result of all later calls with them, and the function is not invoked for them
    again. *)
Theorem memoized_result_stays `{Countable K} {R E} (m : Memo K R E) c key r l m' :
  inflight m !! c = Some key -> table m !! key = None ->
  steps (memo_done m c key (Passed r)) l m' ->
  table m' !! key = Some r /\ calls_for key (invoked m') = calls_for key (invoked m)
  /\ forall c', (exists n, l !! n = Some (Call c' key)) -> (c', key, Passed r) ∈ answers m'.
Proof.
  intros _ Ht Hs. apply (steps_known _ _ _ key r) in Hs; [done|].
  cbn. rewrite emplace_spec, decide_True by done. by rewrite Ht.
Qed.

(** Calls that do not overlap get the results of the function, which is invoked once for
    each of the different arguments. *)
Theorem memoized_calls_once `{Countable K} {R E} (f : K -> R) (l : list K) :
  let m := call_all (E := E) f l in
  answers m = (fun k => (0%nat, k, Passed (f k))) <$> l
  /\ NoDup (invoked m) /\ (forall k, k ∈ invoked m <-> k ∈ l).
Proof.
  cbn zeta. assert (alone_ok (E := E) f l (call_all f l)) as [_ _ [H3 H4] H5]; [|done].
  unfold call_all. induction l as [|k l IH] using rev_ind.
  - split; [done|done|split; [constructor|done]|done].
  - rewrite foldl_app. by apply call_alone_ok.
Qed.

(** The function is invoked twice for the same arguments when the second call comes before
    the first is answered; both results reach their callers, and the first to complete is
    the one that is kept. *)
Theorem overlapping_calls_repeat `{Countable K} {R E} (key : K) (r1 r2 : R) :
  exists m : Memo K R E,
    steps memoize [Call 0 key; Call 1 key; Complete 1 (Passed r2); Complete 0 (Passed r1)] m
    /\ invoked m = [key; key] /\ answers m = [(1%nat, key, Passed r2); (0%nat, key, Passed r1)] /\ table m !! key = Some r2.
Proof.
  eexists. split.
  - eapply steps_cons; [by apply step_call|]. eapply steps_cons; [apply step_call; unfold call; cbn; by rewrite lookup_empty|].
    eapply steps_cons; [|eapply steps_cons; [|apply steps_nil]]; apply step_complete with (key := key); unfold call; cbn;
      rewrite ?lookup_empty; cbn; rewrite ?lookup_empty; cbn; simplify_map_eq; done.
  - unfold call; cbn; rewrite !lookup_empty; cbn; rewrite ?lookup_empty; cbn.
    split_and!; [done|done|]. unfold emplace. rewrite lookup_empty. by simplify_map_eq.
Qed.

(** *** Witness *)

Definition memo_demo : Memo Z Z Z := call memoize 0 5.
Definition memo_demo' : Memo Z Z Z := call (memo_done memo_demo 0 5 (Passed 25)) 1 5.

Lemma memoized_result_stays_witness : invoked memo_demo' = [5] /\ table memo_demo' !! 5 = Some 25.
Proof.
  split; [vm_compute; reflexivity|].
  apply (memoized_result_stays memo_demo 0 5 25 [Call 1 5] memo_demo'); [vm_compute; reflexivity..|].
  eapply steps_cons; [apply step_call; vm_compute; reflexivity|apply steps_nil].
Defined.

End Memoize.
