(* ===== verification/Survey.v ===== *)
(** * The survey of competitors' fees (src/Boss/Mod/PeerCompetitorFeeMonitor)

    For every peer with a channel, the fees that other nodes charge on their channels to the
    peer are sampled, and the medians, weighted by the sizes of the channels, are
    announced.  The surveys of all peers run at the same time, with [Ev::map].

    Module [Surveyor] is one survey, [Monitor] decides when surveys run and what is
    announced.  The answers of the node are arbitrary; the many answers of the mode for old
    nodes are a function of the number of the call. *)

From stdpp Require Import base list numbers strings.
From S2P Require Import Prelude.
From S2P Require Import Double.
From S2P Require Import Amount.
From S2P Require Import LnIds.
From S2P Require Import Jsmn.
From S2P Require Import Stats.
From S2P Require Import Reply.
From S2P Require Import Peers.
From S2P Require Import Green.
Import Jsmn.
Import Reply.
Import Peers.

#[local] Open Scope Z_scope.
#[local] Open Scope reply_scope.

(** ** One survey *)

Module Surveyor.

Inductive rpc_answer := Answer (res : json) | RpcError (error : json).

Record Survey := { samples : Z; bases : Median.WeightedMedian; proportionals : Median.WeightedMedian }.

Definition start : Survey := {| samples := 0; bases := Median.empty; proportionals := Median.empty |}.

(** How the reading of an entry ends: [Garbled] is the error text that is returned for a
    [Jsmn::TypeError], other exceptions escape. *)
Inductive ended := Fine | Garbled | Escapes (f : failure).

(** A read inside of the [try] block; what the survey is when it fails is kept. *)
Definition guarded {A} (s : Survey) (m : outcome A) (k : A -> Survey * ended) : Survey * ended :=
  match m with
  | inl a => k a
  | inr Logic => (s, Garbled)
  | inr f => (s, Escapes f)
  end.

(** [Ln::Amount::object] throws a plain [std::invalid_argument]. *)
Definition guarded_amount (s : Survey) (j : option json) (k : Amount -> Survey * ended) : Survey * ended :=
  if jis_number j then guarded s (amount_object j) k
  else match amount_object j with inl a => k a | inr f => (s, Escapes f) end.

Definition u32_field (c : json) (key : string) : outcome Z :=
  let* j := get (Some c) key in let* d := number j in defined (d_to_u32 d).

Definition node_field (c : json) (key : string) : outcome Node :=
  let* j := get (Some c) key in let* t := text j in nodeid_of t.

Definition one_channel (self_id : Node) (s : Survey) (c : json) : Survey * ended :=
  guarded s (node_field c "source") (fun source =>
    if decide (source = self_id) then (s, Fine)
    else
      let s := {| samples := samples s + 1; bases := bases s; proportionals := proportionals s |} in
      guarded s (u32_field c "base_fee_millisatoshi") (fun base =>
      guarded s (u32_field c "fee_per_millionth") (fun proportional =>
      guarded s (get (Some c) "amount_msat") (fun j =>
      guarded_amount s j (fun weight =>
        ({| samples := samples s; bases := Median.add (bases s) base weight;
            proportionals := Median.add (proportionals s) proportional weight |}, Fine)))))).

Definition BATCH_SIZE : nat := 50.

(** A batch: the survey, the channels that are left, and how it ended. *)
Fixpoint batch (i : nat) (self_id : Node) (s : Survey) (it : list json) : Survey * list json * ended :=
  match i, it with
  | S i, c :: it =>
      match one_channel self_id s c with
      | (s, Fine) => batch i self_id s it
      | (s, e) => (s, it, e)
      end
  | _, _ => (s, it, Fine)
  end.

(** The loop, where the node lists channels by destination.  An entry that cannot be read
    ends it with a log entry.  [fuel] bounds the number of batches. *)
Fixpoint loop (fuel : nat) (self_id : Node) (s : Survey) (it : list json) : option (Survey * ended) :=
  match fuel with
  | O => None
  | S fuel =>
      match it with
      | [] => Some (s, Fine)
      | _ =>
          match batch BATCH_SIZE self_id s it with
          | (s, it, Fine) => loop fuel self_id s it
          | (s, _, e) => Some (s, e)
          end
      end
  end.

(** *** Old nodes *)

(** The scan of the two directions of a channel for the one to the peer; [inr] is an
    exception. *)
Fixpoint directions (self_id peer_id : Node) (s : Survey) (cs : list json) : Survey * (bool + failure) :=
  match cs with
  | [] => (s, inl true)
  | c :: cs =>
      match node_field c "destination" with
      | inr f => (s, inr f)
      | inl destination =>
          if negb (bool_decide (destination = peer_id)) then directions self_id peer_id s cs
          else
            match one_channel self_id s c with
            | (s, Fine) => (s, inl true)
            | (s, Garbled) => (s, inl false)
            | (s, Escapes f) => (s, inr f)
            end
      end
  end.

(** One round for the channel [c]: whether the loop goes on to the next channel.  All
    exceptions are logged, and the same channel is tried again; [None] is undefined
    behaviour. *)
Definition old_round (self_id peer_id : Node) (node : json -> rpc_answer) (s : Survey) (c : json) : option (Survey * bool) :=
  match get (Some c) "short_channel_id" with
  | inr Undefined => None
  | inr _ => Some (s, false)
  | inl scid =>
      match node (default (JPrim (lit "null")) scid) with
      | RpcError _ => Some (s, false)
      | Answer res =>
          match (let* cs := get (Some res) "channels" in lift (jelements cs)) with
          | inr Undefined => None
          | inr _ => Some (s, false)
          | inl cs =>
              match directions self_id peer_id s cs with
              | (s, inl next) => Some (s, next)
              | (_, inr Undefined) => None
              | (s, inr _) => Some (s, false)
              end
          end
      end
  end.

(** [inl] is the survey after the loop, [inr] the loop as it is when the fuel is used up:
    [i] counts the calls. *)
Fixpoint old_loop (fuel : nat) (self_id peer_id : Node) (node : nat -> json -> rpc_answer) (i : nat)
    (s : Survey) (it : list json) : option (Survey + Survey * list json) :=
  match it with
  | [] => Some (inl s)
  | c :: rest =>
      match fuel with
      | O => Some (inr (s, it))
      | S fuel =>
          '(s, next) ← old_round self_id peer_id (node i) s c;
          old_loop fuel self_id peer_id node (S i) s (if (next : bool) then rest else it)
      end
  end.

(** *** The run *)

(** The channels to go through; [None] where an error is logged instead. *)
Definition listed_channels (a : rpc_answer) : outcome (option (list json)) :=
  match a with
  | RpcError _ => inl None
  | Answer res =>
      match get (Some res) "channels" with
      | inl (Some (JArr l)) => inl (Some l)
      | inl _ => inl None
      | inr Logic => inl None
      | inr f => inr f
      end
  end.

Record Result := { peer_id : Node; median_base : Z; median_proportional : Z }.

(** [NoSamples] of the median is a [std::invalid_argument]. *)
Definition extract (peer : Node) (s : Survey) : outcome (option Result) :=
  if samples s =? 0 then inl None
  else
    let* b := or_throw Logic (Median.finalize (bases s)) in
    let* p := or_throw Logic (Median.finalize (proportionals s)) in
    inl (Some {| peer_id := peer; median_base := b; median_proportional := p |}).

(** A survey where the node lists channels by destination. *)
Definition run (self_id peer : Node) (a : rpc_answer) : outcome (option Result) :=
  let* cs := listed_channels a in
  match cs with
  | None => extract peer start
  | Some l =>
      match loop (S (length l)) self_id start l with
      | Some (s, (Fine | Garbled)) => extract peer s
      | Some (_, Escapes f) => inr f
      | None => inr Undefined
      end
  end.

(** A survey of an old node, which lists the channels from the peer; [inl None] is a survey
    that has not ended after [fuel] rounds. *)
Definition run_old (fuel : nat) (self_id peer : Node) (a : rpc_answer) (node : nat -> json -> rpc_answer)
    : outcome (option (option Result)) :=
  let* cs := listed_channels a in
  match cs with
  | None => let* r := extract peer start in inl (Some r)
  | Some l =>
      match old_loop fuel self_id peer node 0 start l with
      | Some (inl s) => let* r := extract peer s in inl (Some r)
      | Some (inr _) => inl None
      | None => inr Undefined
      end
  end.

(** *** Lemmas *)

(** The loop without batches: up to the first entry that cannot be read. *)
Fixpoint scan (self_id : Node) (s : Survey) (it : list json) : Survey * ended :=
  match it with
  | [] => (s, Fine)
  | c :: it =>
      match one_channel self_id s c with
      | (s, Fine) => scan self_id s it
      | (s, e) => (s, e)
      end
  end.

Lemma batch_scan i self it : forall s s' rest e,
  batch i self s it = (s', rest, e) ->
  scan self s it = match e with Fine => scan self s' rest | _ => (s', e) end
  /\ (length rest <= length it)%nat /\ ((0 < i)%nat -> it <> [] -> (length rest < length it)%nat).
Proof.
  revert it. induction i as [|i IH]; intros it s s' rest e; cbn.
  - intros [= <- <- <-]. split_and!; [done|lia|lia].
  - destruct it as [|c it]; [intros [= <- <- <-]; split_and!; [done|simpl; lia|done]|].
    cbn. destruct (one_channel self s c) as [s1 [| |f]]; [|intros [= <- <- <-]; split_and!; [done|lia|lia]..].
    intros H. apply IH in H as (-> & HL & _). split_and!; [done|lia|lia].
Qed.

Lemma loop_scan fuel self it : forall s, (length it < fuel)%nat -> loop fuel self s it = Some (scan self s it).
Proof.
  revert it. induction fuel as [|fuel IH]; intros it s HL; [lia|]. cbn [loop].
  destruct it as [|c it]; [done|]. destruct (batch BATCH_SIZE self s (c :: it)) as [[s' rest] e] eqn:Eb.
  apply batch_scan in Eb as (-> & _ & Hl). assert (length rest < length (c :: it))%nat by (apply Hl; [unfold BATCH_SIZE; lia|done]).
  destruct e; [apply IH; lia|done..].
Qed.

(** What an entry says: [None] cannot be read, [Some None] is our own channel. *)
Definition entry (self_id : Node) (c : json) : option (option (Z * Z * Amount)) :=
  match node_field c "source" with
  | inl source =>
      if decide (source = self_id) then Some None
      else
        match u32_field c "base_fee_millisatoshi", u32_field c "fee_per_millionth",
              (let* j := get (Some c) "amount_msat" in amount_object j) with
        | inl b, inl p, inl w => Some (Some (b, p, w))
        | _, _, _ => None
        end
  | inr _ => None
  end.

Lemma one_channel_entry self s c :
  match entry self c with
  | Some (Some (b, p, w)) =>
      one_channel self s c = ({| samples := samples s + 1; bases := Median.add (bases s) b w;
                                 proportionals := Median.add (proportionals s) p w |}, Fine)
  | Some None => one_channel self s c = (s, Fine)
  | None => (one_channel self s c).2 <> Fine
            /\ bases (one_channel self s c).1 = bases s /\ proportionals (one_channel self s c).1 = proportionals s
  end.
Proof.
  unfold entry, one_channel, guarded, guarded_amount.
  destruct (node_field c "source") as [source|[]]; cbn; [|done..]. destruct (decide (source = self)); [done|].
  destruct (u32_field c "base_fee_millisatoshi") as [b|[]]; cbn; [|done..].
  destruct (u32_field c "fee_per_millionth") as [p|[]]; cbn; [|done..].
  destruct (get (Some c) "amount_msat") as [j|[]]; cbn; [|done..].
  destruct (jis_number j), (amount_object j) as [w|[]]; cbn; done.
Qed.

(** The samples of readable entries. *)
Definition competitors (self_id : Node) (l : list json) : list (Z * Z * Amount) := omap (fun c => mjoin (entry self_id c)) l.

Definition base_samples (l : list (Z * Z * Amount)) : list (Z * Amount) := map (fun '(b, p, w) => (b, w)) l.
Definition proportional_samples (l : list (Z * Z * Amount)) : list (Z * Amount) := map (fun '(b, p, w) => (p, w)) l.

Definition sampled (l : list (Z * Z * Amount)) : Survey :=
  {| samples := Z.of_nat (length l); bases := Median.add_all (base_samples l);
     proportionals := Median.add_all (proportional_samples l) |}.

Lemma sampled_snoc l b p w :
  sampled (l ++ [(b, p, w)])
  = {| samples := samples (sampled l) + 1; bases := Median.add (bases (sampled l)) b w;
       proportionals := Median.add (proportionals (sampled l)) p w |}.
Proof.
  unfold sampled, base_samples, proportional_samples, Median.add_all. rewrite !map_app, !foldl_app, length_app. cbn.
  f_equal. lia.
Qed.

Lemma scan_readable self l : forall done rest,
  Forall (fun c => is_Some (entry self c)) l ->
  scan self (sampled done) (l ++ rest) = scan self (sampled (done ++ competitors self l)) rest.
Proof.
  induction l as [|c l IH]; intros done rest HF; [by rewrite app_nil_r|]. apply Forall_cons in HF as [[x Hx] HF].
  cbn. pose proof (one_channel_entry self (sampled done) c) as Hc. rewrite Hx in *. destruct x as [[[b p] w]|]; rewrite Hc.
  - rewrite <- sampled_snoc, IH by done. cbn. by rewrite <- app_assoc.
  - by rewrite IH.
Qed.

Lemma entry_weight self c b p w : entry self c = Some (Some (b, p, w)) -> is_u64 w.
Proof.
  unfold entry. destruct (node_field c "source") as [source|]; [|done]. destruct (decide (source = self)); [done|].
  destruct (u32_field c "base_fee_millisatoshi") as [b'|]; [|done]. destruct (u32_field c "fee_per_millionth") as [p'|]; [|done].
  destruct (get (Some c) "amount_msat") as [j|]; [|done]. cbn. destruct (amount_object j) as [w'|] eqn:Ew; [|done].
  intros [= -> -> ->]. by apply amount_object_range in Ew.
Qed.

Lemma competitors_nonneg self l : Forall (fun e => 0 <= e.2) (competitors self l).
Proof.
  apply Forall_forall. intros [[b p] w] Hin. apply list_elem_of_omap in Hin as (c & _ & Hc).
  destruct (entry self c) as [x|] eqn:Ex; [|done]. cbn in Hc. subst x. apply entry_weight in Ex. cbn. ulia.
Qed.

(** [m] is a weighted median: neither the samples below nor those above it have more than
    half of the weight. *)
Definition splits (m : Z) (l : list (Z * Amount)) : Prop :=
  m ∈ map fst l /\ 2 * Median.weight (fun x => x <? m) l <= Median.weights l
  /\ 2 * Median.weight (fun x => m <? x) l < Median.weights l.

Lemma same_weights l :
  Median.weights (base_samples l) = Median.weights (proportional_samples l).
Proof.
  unfold Median.weights, Median.weight, base_samples, proportional_samples. rewrite !map_map. f_equal.
  apply map_ext. by intros [[b p] w].
Qed.

Lemma finalize_splits l :
  Forall (fun e : Z * Amount => 0 <= e.2) l -> 2 * Median.weights l < 2 ^ 64 -> 0 < Median.weights l ->
  exists m, Median.finalize (Median.add_all l) = Some m /\ splits m l.
Proof.
  intros Hn Hw Hp. pose proof (Median.median_splits_weight l Hn Hw) as H.
  destruct (Median.finalize (Median.add_all l)) as [m|]; [by exists m|lia].
Qed.

Lemma samples_nonneg (l : list (Z * Z * Amount)) :
  Forall (fun e => 0 <= e.2) l -> Median.nonneg (base_samples l) /\ Median.nonneg (proportional_samples l).
Proof. unfold Median.nonneg. induction 1 as [|[[b p] w] l H _ [IH1 IH2]]; cbn; split; constructor; done. Qed.

(** What is extracted from a survey of some samples. *)
Lemma extract_sampled peer l :
  Forall (fun e => 0 <= e.2) l -> 2 * Median.weights (base_samples l) < 2 ^ 64 ->
  match extract peer (sampled l) with
  | inl None => l = []
  | inl (Some r) => peer_id r = peer /\ splits (median_base r) (base_samples l)
                    /\ splits (median_proportional r) (proportional_samples l)
  | inr f => f = Logic /\ l <> [] /\ Median.weights (base_samples l) = 0
  end.
Proof.
  intros Hn Hw. destruct (samples_nonneg l Hn) as [N1 N2]. pose proof (same_weights l) as Es. unfold extract.
  cbn [samples bases proportionals sampled]. destruct (Z.eqb_spec (Z.of_nat (length l)) 0) as [E0|E0].
  { destruct l; [done|simpl in E0; lia]. }
  assert (l <> []) as Hl by (intros ->; done).
  pose proof (Median.weight_le (fun _ => true) _ N1) as [B _]. fold (Median.weights (base_samples l)) in B.
  destruct (decide (Median.weights (base_samples l) = 0)) as [Z0|Z0].
  - pose proof (Median.median_splits_weight (base_samples l) N1 Hw) as H.
    destruct (Median.finalize (Median.add_all (base_samples l))) as [m|]; [destruct H as (_ & _ & H); exfalso|done].
    pose proof (Median.weight_le (fun s => m <? s) _ N1). lia.
  - destruct (finalize_splits (base_samples l) N1 Hw ltac:(lia)) as (m & -> & Hm).
    destruct (finalize_splits (proportional_samples l) N2 ltac:(lia) ltac:(lia)) as (m' & -> & Hm'). cbn. done.
Qed.

Lemma run_scan self peer res l :
  get (Some res) "channels" = inl (Some (JArr l)) ->
  run self peer (Answer res)
  = match scan self start l with (s, (Fine | Garbled)) => extract peer s | (_, Escapes f) => inr f end.
Proof.
  intros Hc. unfold run, listed_channels. rewrite Hc. cbn [obind]. rewrite loop_scan by lia.
  destruct (scan self start l) as [s []]; done.
Qed.

(** The direction of a channel to the peer: [None] cannot be read, [Some None] is none, or
    ours. *)
Fixpoint direction (self peer : Node) (cs : list json) : option (option (Z * Z * Amount)) :=
  match cs with
  | [] => Some None
  | c :: cs =>
      match node_field c "destination" with
      | inr _ => None
      | inl d => if decide (d = peer) then entry self c else direction self peer cs
      end
  end.

Lemma directions_sampled self peer cs x l :
  direction self peer cs = Some x ->
  directions self peer (sampled l) cs = (sampled (l ++ option_list x), inl true).
Proof.
  induction cs as [|c cs IH]; cbn; [intros [= <-]; by rewrite app_nil_r|].
  destruct (node_field c "destination") as [d|]; [|done].
  destruct (decide (d = peer)) as [->|Hn]; [rewrite bool_decide_eq_true_2 by done|by rewrite bool_decide_eq_false_2 by done].
  cbn. intros Hx.
  pose proof (one_channel_entry self (sampled l) c) as Hc. rewrite Hx in Hc. destruct x as [[[b p] w]|]; rewrite Hc; cbn.
  - by rewrite sampled_snoc.
  - by rewrite app_nil_r.
Qed.

(** The node answers a query for the channel [c] with readable directions. *)
Definition answered (self peer : Node) (node : json -> rpc_answer) (c : json) (x : option (Z * Z * Amount)) : Prop :=
  exists scid res chans cs, get (Some c) "short_channel_id" = inl scid
    /\ node (default (JPrim (lit "null")) scid) = Answer res
    /\ get (Some res) "channels" = inl chans /\ jelements chans = Ok cs /\ direction self peer cs = Some x.

Lemma old_round_answered self peer node c x l :
  answered self peer node c x -> old_round self peer node (sampled l) c = Some (sampled (l ++ option_list x), true).
Proof.
  intros (scid & res & chans & cs & H1 & H2 & H3 & H4 & H5). unfold old_round. rewrite H1, H2, H3. cbn [obind lift].
  rewrite H4. cbn [lift]. by rewrite (directions_sampled _ _ _ _ _ H5).
Qed.

Lemma old_loop_answered self peer node l xs : forall i done,
  Forall2 (fun c x => forall i, answered self peer (node i) c x) l xs ->
  old_loop (length l) self peer node i (sampled done) l = Some (inl (sampled (done ++ omap (fun x => x) xs))).
Proof.
  revert xs. induction l as [|c l IH]; intros xs i done HF; inversion HF as [|? x ? xs' Hx HF']; subst; cbn [old_loop length].
  - by rewrite app_nil_r.
  - rewrite (old_round_answered _ _ _ _ x) by apply Hx. cbn [mbind option_bind]. rewrite (IH xs' _ _ HF').
    destruct x as [x|]; cbn; [by rewrite <- app_assoc|by rewrite app_nil_r].
Qed.

(** *** Properties *)

(** A survey.  When all entries of the list can be read, the medians of the base fees and of
    the proportional fees split the weight of the competitors' channels; without such
    channels there is no result, and if they have no weight an exception escapes. *)
Theorem survey_medians self peer res l :
  get (Some res) "channels" = inl (Some (JArr l)) ->
  Forall (fun c => is_Some (entry self c)) l ->
  let cs := competitors self l in
  2 * Median.weights (base_samples cs) < 2 ^ 64 ->
  match run self peer (Answer res) with
  | inl None => cs = []
  | inl (Some r) => peer_id r = peer /\ splits (median_base r) (base_samples cs)
                    /\ splits (median_proportional r) (proportional_samples cs)
  | inr f => f = Logic /\ cs <> [] /\ Median.weights (base_samples cs) = 0
  end.
Proof.
  intros Hc HF cs Hw. rewrite (run_scan _ _ _ l Hc).
  pose proof (scan_readable self l [] [] HF) as Hs. rewrite app_nil_r in Hs. change (sampled []) with start in Hs.
  rewrite Hs. cbn [scan app]. apply extract_sampled; [apply competitors_nonneg|done].
Qed.

(** A garbled entry.  The entries behind it are ignored: the result is that of the entries
    before it, if there is a competitor among them.  Otherwise the garbled sample was
    counted already, and an exception escapes. *)
Theorem garbled_entry_cuts self peer res res' l c rest source :
  get (Some res) "channels" = inl (Some (JArr (l ++ c :: rest))) ->
  get (Some res') "channels" = inl (Some (JArr l)) ->
  Forall (fun c => is_Some (entry self c)) l ->
  node_field c "source" = inl source -> source <> self -> (one_channel self start c).2 = Garbled ->
  run self peer (Answer res) = match competitors self l with [] => inr Logic | _ => run self peer (Answer res') end.
Proof.
  intros H1 H2 HF Hs Hn Hg. rewrite (run_scan _ _ _ _ H1), (run_scan _ _ _ _ H2).
  pose proof (scan_readable self l [] [] HF) as E2. rewrite app_nil_r in E2. change (sampled []) with start in E2.
  pose proof (scan_readable self l [] (c :: rest) HF) as E1. change (sampled []) with start in E1.
  rewrite E1, E2. cbn [app scan]. clear H1 H2 E1 E2. set (cs := competitors self l).
  assert (one_channel self (sampled cs) c
          = ({| samples := samples (sampled cs) + 1; bases := bases (sampled cs); proportionals := proportionals (sampled cs) |}, Garbled)) as ->.
  { unfold one_channel, guarded, guarded_amount in Hg |- *. rewrite Hs in Hg |- *. rewrite decide_False in Hg |- * by done.
    destruct (u32_field c "base_fee_millisatoshi") as [b|[]]; cbn in Hg |- *; try done.
    destruct (u32_field c "fee_per_millionth") as [p|[]]; cbn in Hg |- *; try done.
    destruct (get (Some c) "amount_msat") as [j|[]]; cbn in Hg |- *; try done.
    destruct (jis_number j), (amount_object j) as [w|[]]; cbn in Hg |- *; done. }
  unfold extract. cbn [samples bases proportionals sampled].
  destruct (Z.eqb_spec (Z.of_nat (length cs) + 1) 0) as [E|_]; [lia|]. destruct cs as [|e cs']; [reflexivity|].
  destruct (Z.eqb_spec (Z.of_nat (length (e :: cs'))) 0) as [E|_]; [simpl in E; lia|reflexivity].
Qed.

(** Old nodes.  When the node answers every query for a channel with readable directions,
    the survey makes one query for each channel, and its result is that of the directions
    to the peer. *)
Theorem old_survey_ends self peer res node l xs :
  get (Some res) "channels" = inl (Some (JArr l)) ->
  Forall2 (fun c x => forall i, answered self peer (node i) c x) l xs ->
  run_old (length l) self peer (Answer res) node
  = (let* r := extract peer (sampled (omap (fun x => x) xs)) in inl (Some r)).
Proof.
  intros Hc HF. unfold run_old, listed_channels. rewrite Hc. cbn [obind]. change start with (sampled []).
  rewrite (old_loop_answered self peer node l xs 0 [] HF). reflexivity.
Qed.

(** Old nodes: a channel for which the node has only errors is queried for ever, and the
    survey never ends. *)
Theorem old_survey_livelock self peer res node l c rest xs scid fuel :
  get (Some res) "channels" = inl (Some (JArr (l ++ c :: rest))) ->
  Forall2 (fun c x => forall i, answered self peer (node i) c x) l xs ->
  get (Some c) "short_channel_id" = inl scid ->
  (forall i, exists e, node i (default (JPrim (lit "null")) scid) = RpcError e) ->
  run_old fuel self peer (Answer res) node = inl None.
Proof.
  intros Hc HF Hs He. unfold run_old, listed_channels. rewrite Hc. cbn [obind]. change start with (sampled []).
  assert (forall fuel i s, old_loop fuel self peer node i s (c :: rest) = Some (inr (s, c :: rest))) as Hstuck.
  { induction fuel0 as [|fuel0 IH]; intros i s; [done|]. cbn [old_loop]. unfold old_round at 1. rewrite Hs.
    destruct (He i) as [e ->]. cbn. apply IH. }
  assert (forall done i, exists s it, old_loop fuel self peer node i (sampled done) (l ++ c :: rest) = Some (inr (s, it))) as H.
  { clear Hc. revert fuel xs HF. induction l as [|d l IH]; intros fuel xs HF done i; [cbn [app]; rewrite Hstuck; by eexists _, _|].
    destruct fuel as [|fuel]; [by eexists _, _|]. inversion HF as [|? x ? xs' Hx HF']; subst. cbn [app old_loop].
    rewrite (old_round_answered _ _ _ _ x) by apply Hx. cbn [mbind option_bind]. by eapply IH. }
  destruct (H [] 0%nat) as (s & it & ->). reflexivity.
Qed.

End Surveyor.

(** ** The monitor *)

Module Monitor.
Import Surveyor.

(** [rpc] tells whether the pointer is set.  [have_listchannels_destination] has no value
    before the commands of the node are known.  [waiting] counts the green threads in
    [wait_available_commands]. *)
Record Main := {
  rpc : option Node; have_listchannels_destination : option bool; got_available_commands : bool;
  channels : list Node; have_channels : bool; fired_init : bool; waiting : nat
}.

Definition make : Main :=
  {| rpc := None; have_listchannels_destination := None; got_available_commands := false;
     channels := []; have_channels := false; fired_init := false; waiting := 0 |}.

(** The messages, and the event loop resuming a thread that waits for the commands; the
    usage text of [listchannels] is [None] where the node has no such command. *)
Inductive event := Init (self_id : Node) | ListpeersAnalyzedResult (r : Analyzed) | TimerRandomHourly
  | AvailableRpcCommands (usage : option bytes) | Resume.

(** Surveys of the peers start: with our id, whether the node lists channels by destination,
    and the peers. *)
Record surveys := { sv_self : option Node; sv_destination : option bool; sv_peers : list Node }.

(** [std::search] *)
Fixpoint search (needle s : bytes) : bool :=
  bool_decide (take (length needle) s = needle)
  || match s with [] => false | _ :: s => search needle s end.

Definition needle : bytes := lit "[destination]".

Definition on_periodic (s : Main) : Main :=
  {| rpc := rpc s; have_listchannels_destination := have_listchannels_destination s;
     got_available_commands := got_available_commands s; channels := channels s; have_channels := have_channels s;
     fired_init := fired_init s; waiting := S (waiting s) |}.

Definition fire (s : Main) : Main :=
  on_periodic {| rpc := rpc s; have_listchannels_destination := have_listchannels_destination s;
     got_available_commands := got_available_commands s; channels := channels s; have_channels := have_channels s;
     fired_init := true; waiting := waiting s |}.

Definition on_init (s : Main) (self_id : Node) : Main :=
  let s := {| rpc := Some self_id; have_listchannels_destination := have_listchannels_destination s;
     got_available_commands := got_available_commands s; channels := channels s; have_channels := have_channels s;
     fired_init := fired_init s; waiting := waiting s |} in
  if have_channels s && negb (fired_init s) then fire s else s.

Definition on_listpeers (s : Main) (r : Analyzed) : Main :=
  let s := {| rpc := rpc s; have_listchannels_destination := have_listchannels_destination s;
     got_available_commands := got_available_commands s;
     channels := base.elements (connected_channeled r) ++ base.elements (disconnected_channeled r); have_channels := true;
     fired_init := fired_init s; waiting := waiting s |} in
  if bool_decide (is_Some (rpc s)) && negb (fired_init s) then fire s else s.

Definition on_timer (s : Main) : Main :=
  if negb (bool_decide (is_Some (rpc s))) || negb (have_channels s) then s else on_periodic s.

Definition on_available (s : Main) (usage : option bytes) : Main :=
  {| rpc := rpc s;
     have_listchannels_destination := Some (match usage with None => false | Some u => search needle u end);
     got_available_commands := true; channels := channels s; have_channels := have_channels s;
     fired_init := fired_init s; waiting := waiting s |}.

(** A thread that waits looks again. *)
Definition wait_available_commands (s : Main) : Main * list surveys :=
  match waiting s with
  | O => (s, [])
  | S n =>
      if negb (got_available_commands s) then (s, [])
      else
        ({| rpc := rpc s; have_listchannels_destination := have_listchannels_destination s;
            got_available_commands := got_available_commands s; channels := channels s;
            have_channels := have_channels s; fired_init := fired_init s; waiting := n |},
         [{| sv_self := rpc s; sv_destination := have_listchannels_destination s; sv_peers := channels s |}])
  end.

Definition step (s : Main) (e : event) : Main * list surveys :=
  match e with
  | Init self => (on_init s self, [])
  | ListpeersAnalyzedResult r => (on_listpeers s r, [])
  | TimerRandomHourly => (on_timer s, [])
  | AvailableRpcCommands u => (on_available s u, [])
  | Resume => wait_available_commands s
  end.

Fixpoint run_main (s : Main) (es : list event) : Main * list surveys :=
  match es with
  | [] => (s, [])
  | e :: es => let '(s, o) := step s e in let '(s, o') := run_main s es in (s, o ++ o')
  end.

(** The announcements from what [Ev::map] gives; an exception ends the green thread. *)
Definition report (o : MapRun.output (option Result) failure) : list Result :=
  match o with MapRun.Values l => omap (fun r => r) l | _ => [] end.

(** *** Lemmas *)

(** The announcements of surveys one after the other: none if one fails. *)
Definition announced (survey : Node -> outcome (option Result)) (peers : list Node) : list Result :=
  match mapM (fun p => match survey p with inl r => Some r | inr _ => None end) peers with
  | Some l => omap (fun r => r) l
  | None => []
  end.

Definition to_ending {A} (x : outcome A) : ending A failure := match x with inl a => Passed a | inr f => Failed f end.

(** Whether events made both our id and the peers known. *)
Definition is_init (e : event) : bool := match e with Init _ => true | _ => false end.
Definition is_list (e : event) : bool := match e with ListpeersAnalyzedResult _ => true | _ => false end.
Definition is_available (e : event) : bool := match e with AvailableRpcCommands _ => true | _ => false end.
Definition known (es : list event) : bool := existsb is_init es && existsb is_list es.

(** The ticks of the timer that find both known, after the events [before]. *)
Fixpoint ticks (before es : list event) : nat :=
  match es with
  | [] => 0
  | e :: es => (match e with TimerRandomHourly => if known before then 1 else 0 | _ => 0 end + ticks (before ++ [e]) es)%nat
  end.

(** The peers of the last list. *)
Fixpoint last_list (es : list event) (d : list Node) : list Node :=
  match es with
  | [] => d
  | ListpeersAnalyzedResult r :: es => last_list es (base.elements (connected_channeled r) ++ base.elements (disconnected_channeled r))
  | _ :: es => last_list es d
  end.

Record main_ok (before : list event) (s : Main) : Prop := {
  mo_rpc : bool_decide (is_Some (rpc s)) = existsb is_init before;
  mo_channels : have_channels s = existsb is_list before;
  mo_fired : fired_init s = known before;
  mo_got : got_available_commands s = existsb is_available before;
  mo_dest : got_available_commands s = true -> is_Some (have_listchannels_destination s);
  mo_peers : channels s = last_list before [];
  mo_waiting : (0 < waiting s)%nat -> known before = true
}.

Lemma last_list_snoc es e d :
  last_list (es ++ [e]) d
  = match e with
    | ListpeersAnalyzedResult r => base.elements (connected_channeled r) ++ base.elements (disconnected_channeled r)
    | _ => last_list es d
    end.
Proof. revert d. induction es as [|x es IH]; intros d; [by destruct e|]. destruct x; cbn; apply IH. Qed.

Lemma known_snoc es e :
  known (es ++ [e]) = (existsb is_init es || is_init e) && (existsb is_list es || is_list e).
Proof. unfold known. rewrite !existsb_app. cbn. by rewrite !orb_false_r. Qed.

Lemma step_main_ok before s e s' o : main_ok before s -> step s e = (s', o) -> main_ok (before ++ [e]) s'.
Proof.
  intros [H1 H2 H3 H4 H5 H6 H7] Hs. unfold known in H3, H7.
  assert (forall e', existsb is_init (before ++ [e']) = existsb is_init before || is_init e'
            /\ existsb is_list (before ++ [e']) = existsb is_list before || is_list e'
            /\ existsb is_available (before ++ [e']) = existsb is_available before || is_available e') as He
    by (intros e'; rewrite !existsb_app; cbn; by rewrite !orb_false_r).
  destruct (He e) as (Ei & El & Ea).
  destruct e as [self|r| |u|]; cbn in Hs; try injection Hs as <- <-.
  - unfold on_init, fire, on_periodic. cbn in *. rewrite H2, H3.
    destruct (existsb is_init before), (existsb is_list before) eqn:L; cbn; split; cbn; rewrite ?known_snoc, ?Ei, ?El, ?Ea, ?last_list_snoc;
      cbn; rewrite ?orb_true_r, ?orb_false_r, ?L; try done; tauto.
  - unfold on_listpeers, fire, on_periodic. cbn in *. rewrite H1, H3.
    destruct (existsb is_init before) eqn:I, (existsb is_list before); cbn; split; cbn; rewrite ?known_snoc, ?Ei, ?El, ?Ea, ?last_list_snoc;
      cbn; rewrite ?orb_true_r, ?orb_false_r, ?I; try done; tauto.
  - unfold on_timer, on_periodic. rewrite H1, H2.
    destruct (existsb is_init before) eqn:I, (existsb is_list before) eqn:L; cbn; split; cbn;
      rewrite ?known_snoc, ?Ei, ?El, ?Ea, ?last_list_snoc; cbn; rewrite ?orb_false_r, ?I, ?L; try done; tauto.
  - split; cbn; rewrite ?known_snoc, ?Ei, ?El, ?Ea, ?last_list_snoc; cbn; rewrite ?orb_false_r, ?orb_true_r; try done; eauto.
  - unfold wait_available_commands in Hs. destruct (waiting s) as [|n] eqn:Ew; [|destruct (got_available_commands s) eqn:Eg; cbn in Hs];
      injection Hs as <- <-; split; cbn; rewrite ?known_snoc, ?Ei, ?El, ?Ea, ?last_list_snoc; cbn; rewrite ?orb_false_r; try done; try congruence;
      intros; apply H7; lia.
Qed.

(** How many threads there are, and the surveys that start. *)
Lemma step_count before s e s' o :
  main_ok before s -> step s e = (s', o) ->
  (waiting s' + length o + (if known before then 1 else 0)
   = waiting s + ticks before [e] + (if known (before ++ [e]) then 1 else 0))%nat
  /\ Forall (fun v => is_Some (sv_self v) /\ is_Some (sv_destination v) /\ sv_peers v = last_list before []) o.
Proof.
  intros [H1 H2 H3 H4 H5 H6 H7] Hs. rewrite known_snoc. unfold known in *. cbn [ticks].
  destruct e as [self|r| |u|]; cbn in Hs; try injection Hs as <- <-; unfold known; cbn [is_init is_list]; rewrite ?orb_false_r, ?orb_true_r.
  - split; [|constructor]. unfold on_init. cbn. rewrite H2, H3.
    destruct (existsb is_init before), (existsb is_list before); cbn; lia.
  - split; [|constructor]. unfold on_listpeers. cbn. rewrite H1, H3.
    destruct (existsb is_init before), (existsb is_list before); cbn; lia.
  - split; [|constructor]. unfold on_timer. rewrite H1, H2.
    destruct (existsb is_init before), (existsb is_list before); cbn; lia.
  - split; [cbn; lia|constructor].
  - unfold wait_available_commands in Hs. destruct (waiting s) as [|n] eqn:Ew; [|destruct (got_available_commands s) eqn:Eg; cbn in Hs];
      injection Hs as <- <-; (split; [cbn; lia|]); try constructor; [|constructor].
    cbn. split_and!; [|by apply H5|done]. specialize (H7 ltac:(lia)). apply andb_prop in H7 as [H7 _].
    rewrite H7 in H1. by apply bool_decide_eq_true in H1.
Qed.

Lemma ticks_app before l1 l2 : ticks before (l1 ++ l2) = (ticks before l1 + ticks (before ++ l1) l2)%nat.
Proof.
  revert before. induction l1 as [|e l1 IH]; intros before; cbn; [by rewrite app_nil_r|].
  rewrite IH, <- app_assoc. cbn. lia.
Qed.

Lemma run_count es : forall before s s' o,
  main_ok before s -> run_main s es = (s', o) ->
  (waiting s' + length o + (if known before then 1 else 0)
   = waiting s + ticks before es + (if known (before ++ es) then 1 else 0))%nat
  /\ Forall (fun v => is_Some (sv_self v) /\ is_Some (sv_destination v)
       /\ exists n, sv_peers v = last_list (before ++ take n es) []) o.
Proof.
  induction es as [|e es IH]; intros before s s' o Hok Hr; cbn [run_main] in Hr.
  - injection Hr as <- <-. rewrite app_nil_r. split; [cbn; lia|constructor].
  - destruct (step s e) as [s1 o1] eqn:Es. destruct (run_main s1 es) as [s2 o2] eqn:Er. injection Hr as <- <-.
    pose proof (step_count _ _ _ _ _ Hok Es) as [C1 F1].
    destruct (IH _ _ _ _ (step_main_ok _ _ _ _ _ Hok Es) Er) as [C2 F2]. rewrite <- app_assoc in C2. split.
    + rewrite length_app. change (ticks before (e :: es)) with (ticks before ([e] ++ es)). rewrite ticks_app. cbn [app] in *. lia.
    + apply Forall_app. split; eapply Forall_impl; try eassumption; cbn beta.
      * intros v (A & B & C). split_and!; [done|done|]. exists 0%nat. by rewrite take_0, app_nil_r.
      * intros v (A & B & n & C). split_and!; [done|done|]. exists (S n). cbn. by rewrite <- app_assoc in C.
Qed.

Lemma make_ok : main_ok [] make.
Proof. split; cbn; try done. lia. Qed.

(** *** Properties *)

(** When surveys run.  Surveys are started once when our id and the peers are first known,
    in whichever order, and for each tick of the timer after that, as soon as the commands
    of the node are known; they know our id and have the flag for the commands, and survey
    the peers of the latest list. *)
Theorem surveys_started_exactly es s o :
  run_main make es = (s, o) ->
  (waiting s + length o = ticks [] es + if known es then 1 else 0)%nat
  /\ Forall (fun v => is_Some (sv_self v) /\ is_Some (sv_destination v)
       /\ exists n, sv_peers v = last_list (take n es) []) o.
Proof. intros Hr. apply (run_count es [] make s o make_ok) in Hr. cbn in Hr. by rewrite Nat.add_0_r in Hr. Qed.

(** C33: what is announced.  However the surveys interleave, the announcements are those of the
    surveys done one after the other; and if one survey throws, nothing is announced of any
    peer. *)
Theorem announced_fees (survey : Node -> outcome (option Result)) peers k s done o :
  MapRun.reach (length peers) k s done -> MapRun.at_ s = MapRun.Returned o ->
  (forall i r p, (i, r) ∈ done -> peers !! i = Some p -> r = to_ending (survey p)) ->
  report o = announced survey peers.
Proof.
  intros R Ea Hsurv. destruct (MapRun.map_answer_spec _ _ _ _ _ R Ea) as [HP HO]. unfold announced.
  assert (forall i p, peers !! i = Some p -> (i, to_ending (survey p)) ∈ done) as Hin.
  { intros i p Hi. assert (i ∈ done.*1) as Hd by (rewrite HP; apply elem_of_seq; apply lookup_lt_Some in Hi; lia).
    apply list_elem_of_fmap in Hd as ([j r] & -> & Hd). by rewrite <- (Hsurv _ _ _ Hd Hi). }
  destruct (MapRun.last_exn done) as [e|] eqn:El.
  - destruct HO as (-> & i & Hi). cbn [report].
    destruct (mapM _ peers) as [l|] eqn:Em; [|done]. exfalso. apply mapM_Some in Em.
    assert (i ∈ done.*1) as Hd by (apply list_elem_of_fmap; by exists (i, Failed e)). rewrite HP in Hd. apply elem_of_seq in Hd.
    destruct (lookup_lt_is_Some_2 peers i) as [p Hp]; [lia|]. pose proof (Hsurv _ _ _ Hi Hp) as Hr.
    destruct (Forall2_lookup_l _ _ _ _ _ Em Hp) as (x & _ & Hx). destruct (survey p); done.
  - destruct HO as (l & -> & HL & Hl). cbn [report].
    assert (mapM (fun p => match survey p with inl r => Some r | inr _ => None end) peers = Some l) as ->; [|done].
    apply mapM_Some, Forall2_same_length_lookup_2; [done|]. intros i p x Hp Hx. apply Hl in Hx.
    pose proof (Hsurv _ _ _ Hx Hp) as E. destruct (survey p); cbn in E; congruence.
Qed.

End Monitor.

(** ** Witnesses *)

Module Demo.
Import Surveyor Monitor.

Definition node (x : Z) : Node := Some (2 :: repeat x 32).

Definition chan (source : Z) (base proportional amount : string) : json :=
  JObj [(lit "source", JStr (NodeId.to_string (node source))); (lit "destination", JStr (NodeId.to_string (node 9)));
        (lit "short_channel_id", JStr (lit "1x2x3")); (lit "base_fee_millisatoshi", JPrim (lit base));
        (lit "fee_per_millionth", JPrim (lit proportional)); (lit "amount_msat", JPrim (lit amount))].

(** Our own channel to the peer, and those of three competitors. *)
Definition listing : list json :=
  [chan 1 "7" "7" "5000"; chan 2 "100" "10" "1000"; chan 3 "300" "20" "4000"; chan 4 "200" "30" "2000"].

Definition reply (l : list json) : json := JObj [(lit "channels", JArr l)].

(** An entry without fees. *)
Definition no_fees : json := JObj [(lit "source", JStr (NodeId.to_string (node 5)))].

Lemma entries_check self l :
  forallb (fun c => match entry self c with Some _ => true | None => false end) l = true ->
  Forall (fun c => is_Some (entry self c)) l.
Proof.
  intros H. apply Forall_forall. intros c Hc. rewrite forallb_forall in H.
  specialize (H c (proj1 (list_elem_of_In _ _) Hc)). destruct (entry self c); [by eexists|done].
Qed.

Definition medians (r : outcome (option Result)) : option (Z * Z) :=
  match r with inl (Some r) => Some (median_base r, median_proportional r) | _ => None end.

Lemma survey_medians_witness :
  medians (run (node 1) (node 9) (Answer (reply listing))) = Some (300, 20)
  /\ splits 300 (base_samples (competitors (node 1) listing)).
Proof.
  assert (medians (run (node 1) (node 9) (Answer (reply listing))) = Some (300, 20)) as E by (vm_compute; reflexivity).
  split; [exact E|].
  assert (forallb (fun c => match entry (node 1) c with Some _ => true | None => false end) listing = true) as F
    by (vm_compute; reflexivity).
  assert (2 * Median.weights (base_samples (competitors (node 1) listing)) < 2 ^ 64) as W by (vm_compute; reflexivity).
  assert (get (Some (reply listing)) "channels" = inl (Some (JArr listing))) as G by (vm_compute; reflexivity).
  pose proof (survey_medians (node 1) (node 9) (reply listing) listing G (entries_check _ _ F) W) as M.
  clear F W G.
  destruct (run (node 1) (node 9) (Answer (reply listing))) as [[r|]|]; [|discriminate E..].
  injection E as E1 _. rewrite <- E1. apply M.
Defined.

Lemma garbled_entry_cuts_witness :
  run (node 1) (node 9) (Answer (reply ([chan 1 "7" "7" "5000"] ++ no_fees :: listing))) = inr Logic
  /\ medians (run (node 1) (node 9) (Answer (reply (listing ++ no_fees :: [chan 6 "1" "1" "900000"])))) = Some (300, 20).
Proof.
  split.
  - apply (garbled_entry_cuts (node 1) (node 9) (reply ([chan 1 "7" "7" "5000"] ++ no_fees :: listing))
      (reply [chan 1 "7" "7" "5000"]) [chan 1 "7" "7" "5000"] no_fees listing (node 5)); try reflexivity.
    + apply entries_check. vm_compute. reflexivity.
    + discriminate.
  - rewrite (garbled_entry_cuts (node 1) (node 9) (reply (listing ++ no_fees :: [chan 6 "1" "1" "900000"]))
      (reply listing) listing no_fees [chan 6 "1" "1" "900000"] (node 5)); try reflexivity.
    + apply entries_check. vm_compute. reflexivity.
    + discriminate.
Defined.

(** An old node that answers, and one that has only errors. *)
Definition answering : nat -> json -> rpc_answer := fun _ _ => Answer (reply [chan 2 "100" "10" "1000"]).
Definition failing : nat -> json -> rpc_answer := fun _ _ => RpcError (JPrim (lit "-1")).

Lemma old_survey_ends_witness :
  run_old 1 (node 1) (node 9) (Answer (reply [no_fees])) answering
  = (let* r := extract (node 9) (sampled [(100, 10, 1000)]) in inl (Some r)).
Proof.
  apply (old_survey_ends (node 1) (node 9) (reply [no_fees]) answering [no_fees] [Some (100, 10, 1000)] eq_refl).
  constructor; [|constructor]. intros i.
  exists None, (reply [chan 2 "100" "10" "1000"]), (Some (JArr [chan 2 "100" "10" "1000"])), [chan 2 "100" "10" "1000"].
  split_and!; vm_compute; reflexivity.
Defined.

Lemma old_survey_livelock_witness : run_old 1000 (node 1) (node 9) (Answer (reply [chan 1 "7" "7" "5000"])) failing = inl None.
Proof.
  apply (old_survey_livelock (node 1) (node 9) (reply [chan 1 "7" "7" "5000"]) failing [] (chan 1 "7" "7" "5000") [] []
    (Some (JStr (lit "1x2x3")))); [reflexivity|constructor|reflexivity|].
  intros i. eexists. reflexivity.
Defined.

(** The list of peers first, then our id, a tick, and the commands. *)
Definition demo_events : list event :=
  [ListpeersAnalyzedResult nobody; Init (node 1); Resume; TimerRandomHourly;
   AvailableRpcCommands (Some (lit "[source] [destination]")); Resume; Resume; Resume].

Definition demo_run : Main * list surveys := Eval vm_compute in run_main make demo_events.

Lemma surveys_started_exactly_witness :
  map sv_destination demo_run.2 = [Some true; Some true]
  /\ (waiting demo_run.1 + length demo_run.2 = ticks [] demo_events + 1)%nat.
Proof.
  split; [vm_compute; reflexivity|].
  destruct (surveys_started_exactly demo_events demo_run.1 demo_run.2) as [H _]; [vm_compute; reflexivity|].
  rewrite H. vm_compute. reflexivity.
Defined.

(** Two peers; the survey of the second throws, and completes first. *)
Definition demo_survey (p : Node) : outcome (option Result) :=
  if decide (p = node 1) then inl (Some {| peer_id := p; median_base := 1; median_proportional := 1 |}) else inr Logic.

Definition demo_map : MapRun.Run (option Result) failure := MapRun.enter (MapRun.enter (MapRun.loop (MapRun.loop (MapRun.loop (MapRun.create 2)))) 1) 0.
Definition demo_map1 := MapRun.map_done demo_map 1 (to_ending (demo_survey (node 2))).
Definition demo_map2 := MapRun.map_done demo_map1 0 (to_ending (demo_survey (node 1))).
Definition demo_ends := [(1%nat, to_ending (demo_survey (node 2))); (0%nat, to_ending (demo_survey (node 1)))].

Lemma demo_map_reach : MapRun.reach 2 7 demo_map2 demo_ends.
Proof.
  apply (MapRun.reach_step 2 6 demo_map1 [(1%nat, to_ending (demo_survey (node 2)))]).
  - apply (MapRun.reach_step 2 5 demo_map [] demo_map1);
      [|apply (MapRun.step_complete demo_map []), (bool_decide_unpack _); vm_compute; exact I].
    eapply MapRun.reach_step; [|apply MapRun.step_enter, (bool_decide_unpack _); vm_compute; exact I].
    eapply MapRun.reach_step; [|apply MapRun.step_enter, (bool_decide_unpack _); vm_compute; exact I].
    do 3 (eapply MapRun.reach_step; [|apply MapRun.step_loop; reflexivity]). apply MapRun.reach_create.
  - apply (MapRun.step_complete demo_map1 [_]), (bool_decide_unpack _). vm_compute. exact I.
Qed.

Lemma announced_fees_witness : report (MapRun.Raised Logic) = announced demo_survey [node 1; node 2].
Proof.
  apply (announced_fees demo_survey [node 1; node 2] 7 demo_map2 demo_ends (MapRun.Raised Logic) demo_map_reach).
  - vm_compute. reflexivity.
  - intros i r p [[= -> ->]|[[= -> ->]|?%elem_of_nil]%elem_of_cons]%elem_of_cons Hp; cbn in Hp; injection Hp as <- || done; reflexivity.
Defined.

End Demo.
