(* ===== verification/JsonText.v ===== *)
(** * Writing JSON (src/Json/Out.hpp, the printer and the equality of src/Jsmn/Object.cpp,
      src/Jsmn/jsonify_string.cpp, from_double of src/Jsmn/Detail/Str.cpp)

    Every command that is sent to the node and every answer of the plugin is written with
    [Json::Out], a chain of calls whose types keep the brackets balanced.  The
    specification is the grammar of JSON texts, as a relation between trees and texts: what
    is written is a text of the tree that the calls describe, and the reader of the other
    side finds its end.  Doubles are printed as streams print them, with exact decimal
    digits; a number that is not finite prints as no JSON text ([nonfinite_not_json]).
    Doubles have no negative zero here and one NaN; the stream prints the former as -0, a
    JSON number too, and a NaN with its sign. *)

From stdpp Require Import base list numbers strings.
From Stdlib Require Import QArith Qround Qpower Qabs.
From S2P Require Import Prelude.
From S2P Require Import UtilStr.
From S2P Require Import Double.
From S2P Require Import Jsmn.
From S2P Require Import Reply.
Import Jsmn.
Import Reply.

#[local] Open Scope Z_scope.

(** ** The grammar of JSON texts *)

Module Text.

Definition white (s : bytes) : Prop := Forall (fun c => c = 32 \/ c = 9 \/ c = 10 \/ c = 13) s.

Definition all_digits (s : bytes) : Prop := s <> [] /\ Forall (fun c => is_digit c = true) s.

Definition int_part (s : bytes) : Prop := all_digits s /\ (head s = Some 48 -> s = [48]).

Definition fraction (s : bytes) : Prop := s = [] \/ exists ds, s = chr "." :: ds /\ all_digits ds.

Definition exponent (s : bytes) : Prop :=
  s = [] \/ exists e sign ds, s = e :: sign ++ ds /\ (e = chr "e" \/ e = chr "E")
    /\ (sign = [] \/ sign = lit "+" \/ sign = lit "-") /\ all_digits ds.

Definition number_text (s : bytes) : Prop :=
  exists sign i f e, s = sign ++ i ++ f ++ e /\ (sign = [] \/ sign = lit "-") /\ int_part i /\ fraction f /\ exponent e.

Definition primitive (s : bytes) : Prop :=
  s = lit "true" \/ s = lit "false" \/ s = lit "null" \/ number_text s.

(** The characters between the quotes. *)
Inductive string_text : bytes -> Prop :=
  | string_nil : string_text []
  | string_char c s : 32 <= c -> c <> 34 -> c <> 92 -> string_text s -> string_text (c :: s)
  | string_escape c s : c ∈ [34; 92; 47; 98; 102; 110; 114; 116] -> string_text s -> string_text (92 :: c :: s)
  | string_unicode h s : length h = 4%nat -> Forall (fun c => Str.is_hexchar c = true) h -> string_text s ->
      string_text (92 :: chr "u" :: h ++ s).

(** [text t s]: [s] is a text of the tree [t]. *)
Fixpoint text (t : json) (s : bytes) : Prop :=
  match t with
  | JPrim p => s = p /\ primitive p
  | JStr e => s = quoted e /\ string_text e
  | JArr l =>
      exists w parts, s = lit "[" ++ w ++ join parts ++ lit "]" /\ white w
      /\ (fix items l parts := match l, parts with
          | [], [] => True
          | t :: l, p :: parts =>
              (exists w1 b w2, p = w1 ++ b ++ w2 /\ white w1 /\ white w2 /\ text t b) /\ items l parts
          | _, _ => False
          end) l parts
  | JObj l =>
      exists w parts, s = lit "{" ++ w ++ join parts ++ lit "}" /\ white w
      /\ (fix items l parts := match l, parts with
          | [], [] => True
          | (k, t) :: l, p :: parts =>
              (exists w1 w2 w3 b w4, p = w1 ++ quoted k ++ w2 ++ lit ":" ++ w3 ++ b ++ w4
                /\ white w1 /\ white w2 /\ white w3 /\ white w4 /\ string_text k /\ text t b)
              /\ items l parts
          | _, _ => False
          end) l parts
  end.

Definition item (t : json) (p : bytes) : Prop :=
  exists w1 b w2, p = w1 ++ b ++ w2 /\ white w1 /\ white w2 /\ text t b.

Definition member (kt : bytes * json) (p : bytes) : Prop :=
  exists w1 w2 w3 b w4, p = w1 ++ quoted kt.1 ++ w2 ++ lit ":" ++ w3 ++ b ++ w4
    /\ white w1 /\ white w2 /\ white w3 /\ white w4 /\ string_text kt.1 /\ text kt.2 b.

Lemma text_arr l s :
  text (JArr l) s <-> exists w parts, s = lit "[" ++ w ++ join parts ++ lit "]" /\ white w /\ Forall2 item l parts.
Proof.
  cbn [text]. assert (forall l parts, (fix items l parts := match l, parts with
          | [], [] => True
          | t :: l, p :: parts =>
              (exists w1 b w2, p = w1 ++ b ++ w2 /\ white w1 /\ white w2 /\ text t b) /\ items l parts
          | _, _ => False
          end) l parts <-> Forall2 item l parts) as H.
  { clear. induction l as [|t l IH]; intros [|p parts]; split; try done; try (intros H; inversion H; done); try (by constructor).
    - intros [H1 H2]. constructor; [done|by apply IH].
    - intros H. inversion H; subst. split; [done|by apply IH]. }
  split; intros (w & parts & E & Hw & HF); exists w, parts; (split_and!; [done|done|by apply H]).
Qed.

Lemma text_obj l s :
  text (JObj l) s <-> exists w parts, s = lit "{" ++ w ++ join parts ++ lit "}" /\ white w /\ Forall2 member l parts.
Proof.
  cbn [text]. assert (forall l parts, (fix items l parts := match l, parts with
          | [], [] => True
          | (k, t) :: l, p :: parts =>
              (exists w1 w2 w3 b w4, p = w1 ++ quoted k ++ w2 ++ lit ":" ++ w3 ++ b ++ w4
                /\ white w1 /\ white w2 /\ white w3 /\ white w4 /\ string_text k /\ text t b)
              /\ items l parts
          | _, _ => False
          end) l parts <-> Forall2 member l parts) as H.
  { clear. induction l as [|[k t] l IH]; intros [|p parts]; split; try done; try (intros H; inversion H; done); try (by constructor).
    - intros [H1 H2]. constructor; [done|by apply IH].
    - intros H. inversion H; subst. split; [done|by apply IH]. }
  split; intros (w & parts & E & Hw & HF); exists w, parts; (split_and!; [done|done|by apply H]).
Qed.

(** *** The end of a text is found *)

Lemma white_ws w : white w -> forallb is_ws w = true.
Proof.
  intros H. apply forallb_forall. intros c Hc. unfold white in H. rewrite Forall_forall in H.
  destruct (H c) as [->|[->|[->| ->]]]; [by apply list_elem_of_In|done..].
Qed.

Lemma silent_ws n w : 0 < n -> forallb is_ws w = true -> silent_at n w.
Proof.
  intros Hn. induction w as [|c w IH]; intros H f; [by exists f|]. cbn [forallb] in H. apply andb_prop in H as [Hc Hw].
  specialize (IH Hw). cbn [quiet]. assert (feed (lvl n f) c = (false, lvl n f)) as ->; [|by apply IH].
  unfold is_ws in Hc. unfold feed. cbn [lvl in_string_backslash in_string nested finished_datum].
  assert (c = 32 \/ c = 9 \/ c = 10 \/ c = 13 \/ c = 11) as Ec by (to_prop; lia).
  destruct Ec as [->|[->|[->|[->| ->]]]]; cbn; destruct f; try done; by rewrite (proj2 (Z.eqb_neq n 0)) by lia.
Qed.

Lemma silent_white n w : 0 < n -> white w -> silent_at n w.
Proof. intros Hn Hw. apply silent_ws; [done|by apply white_ws]. Qed.

Lemma string_text_esc e : string_text e -> esc_ok e = true.
Proof.
  induction 1 as [|c s H1 H2 H3 _ IH|c s Hc _ IH|h s HL Hh _ IH]; cbn [esc_ok].
  - done.
  - rewrite (proj2 (Z.eqb_neq c 92)), (proj2 (Z.eqb_neq c 34)) by done. done.
  - rewrite Z.eqb_refl. done.
  - rewrite Z.eqb_refl. destruct h as [|a [|b [|c [|d [|]]]]]; try discriminate HL.
    rewrite !Forall_cons in Hh. destruct Hh as (Ha & Hb & Hc & Hd & _).
    assert (forall x, Str.is_hexchar x = true -> x <> 92 /\ x <> 34) as Hx by (intros x E; split; intros ->; discriminate E).
    destruct (Hx a Ha), (Hx b Hb), (Hx c Hc), (Hx d Hd).
    cbn [app esc_ok]. by rewrite !(proj2 (Z.eqb_neq _ 92)), !(proj2 (Z.eqb_neq _ 34)) by done.
Qed.

Lemma plain_digits s : Forall (fun c => is_digit c = true) s -> forallb plain s = true.
Proof.
  intros H. apply forallb_forall. intros c Hc. rewrite Forall_forall in H. specialize (H c (proj2 (list_elem_of_In _ _) Hc)).
  apply is_digit_spec in H. unfold plain, is_ws.
  change (chr "{") with 123. change (chr "[") with 91. change (chr "}") with 125. change (chr "]") with 93. lia.
Qed.

Lemma primitive_plain p : primitive p -> forallb plain p = true.
Proof.
  intros [->|[->|[->|(sign & i & f & e & -> & Hs & [[_ Hi] _] & Hf & He)]]]; try done.
  rewrite !forallb_app. apply andb_true_iff. split; [by destruct Hs as [->| ->]|].
  rewrite (plain_digits i Hi). cbn [andb]. apply andb_true_iff. split.
  - destruct Hf as [->|(ds & -> & _ & Hd)]; [done|]. cbn [forallb]. by rewrite (plain_digits ds Hd).
  - destruct He as [->|(c & sg & ds & -> & Hc & Hsg & _ & Hd)]; [done|]. cbn [forallb]. rewrite forallb_app, (plain_digits ds Hd).
    destruct Hc as [->| ->], Hsg as [->|[->| ->]]; done.
Qed.

Lemma depth_nonneg l : 0 <= foldr (fun v m => Z.max (depth v) m) 0 l.
Proof. induction l; cbn; lia. Qed.
Lemma depth_nonneg_obj (l : list (bytes * json)) : 0 <= foldr (fun '(_, v) m => Z.max (depth v) m) 0 l.
Proof. induction l as [|[k v] l IH]; cbn; lia. Qed.

Lemma item_silent n t p : 0 < n -> (forall b, text t b -> silent_at n b) -> item t p -> silent_at n p.
Proof.
  intros Hn Ht (w1 & b & w2 & -> & H1 & H2 & Hb).
  apply silent_app; [by apply silent_white|]. apply silent_app; [by apply Ht|by apply silent_white].
Qed.

Lemma member_silent n kt p : 0 < n -> (forall b, text kt.2 b -> silent_at n b) -> member kt p -> silent_at n p.
Proof.
  intros Hn Ht (w1 & w2 & w3 & b & w4 & -> & H1 & H2 & H3 & H4 & Hk & Hb).
  apply silent_app; [by apply silent_white|]. apply silent_app; [apply silent_quoted; [done|by apply string_text_esc]|].
  apply silent_app; [by apply silent_white|]. apply silent_app; [by apply silent_plain|].
  apply silent_app; [by apply silent_white|]. apply silent_app; [by apply Ht|by apply silent_white].
Qed.

(** Inside of brackets no character of a text ends a datum. *)
Lemma silent_text t : forall n s, 0 < n -> n + depth t < 2 ^ 32 -> text t s -> silent_at n s.
Proof.
  induction t as [p|e|l IH|l IH] using json_nested_ind; intros n s Hn Hd Ht.
  - destruct Ht as [-> Hp]. by apply silent_plain, primitive_plain.
  - destruct Ht as [-> He]. apply silent_quoted; [done|]. by apply string_text_esc.
  - apply text_arr in Ht as (w & parts & -> & Hw & HF). cbn [depth] in Hd. pose proof (depth_nonneg l).
    rewrite (app_assoc w). apply (silent_bracket n (chr "[") (chr "]")); [done|lia|by left|].
    apply silent_app; [apply silent_white; [lia|done]|]. apply silent_join.
    assert (forall t s, t ∈ l -> text t s -> silent_at (n + 1) s) as Hin.
    { intros t s Hin Hts. rewrite Forall_forall in IH. apply (IH t Hin); [lia| |done].
      assert (depth t <= foldr (fun v m => Z.max (depth v) m) 0 l); [|lia].
      clear -Hin. induction l as [|v l IH]; [by apply elem_of_nil in Hin|]. cbn.
      apply elem_of_cons in Hin as [->|Hin]; [lia|]. specialize (IH Hin). lia. }
    clear IH Hd. induction HF as [|t p l parts Hp HF IHF]; constructor.
    + apply (item_silent _ t); [lia| |done]. intros b Hb. eapply Hin; [by left|done].
    + apply IHF; [apply depth_nonneg|]. intros t' s' Hin'. apply Hin. by right.
  - apply text_obj in Ht as (w & parts & -> & Hw & HF). cbn [depth] in Hd. pose proof (depth_nonneg_obj l).
    rewrite (app_assoc w). apply (silent_bracket n (chr "{") (chr "}")); [done|lia|by right|].
    apply silent_app; [apply silent_white; [lia|done]|]. apply silent_join.
    assert (forall kt s, kt ∈ l -> text kt.2 s -> silent_at (n + 1) s) as Hin.
    { intros kt s Hin Hts. rewrite Forall_forall in IH. apply (IH kt Hin); [lia| |done].
      assert (depth kt.2 <= foldr (fun '(_, v) m => Z.max (depth v) m) 0 l); [|lia].
      clear -Hin. induction l as [|[k v] l IH]; [by apply elem_of_nil in Hin|]. cbn.
      apply elem_of_cons in Hin as [->|Hin]; [cbn; lia|]. specialize (IH Hin). lia. }
    clear IH Hd. induction HF as [|kt p l parts Hp HF IHF]; constructor.
    + apply (member_silent _ kt); [lia| |done]. intros b Hb. eapply Hin; [by left|done].
    + apply IHF; [apply depth_nonneg_obj|]. intros kt' s' Hin'. apply Hin. by right.
Qed.

(** The end of the text of an object or of an array is found. *)
Lemma scan_text t s rest :
  match t with JArr _ | JObj _ => True | _ => False end -> text t s -> 1 + depth t < 2 ^ 32 ->
  scan Datum_init (s ++ rest) = Some (s, rest, Datum_init).
Proof.
  intros Ht Hs Hd.
  assert (exists o c x, s = [o] ++ x ++ [c] /\ ((o = chr "[" /\ c = chr "]") \/ (o = chr "{" /\ c = chr "}")) /\ silent_at 1 x)
    as (o & c & x & -> & Hoc & Hx); [|by apply scan_bracket].
  destruct t as [p|e|l|l]; try done.
  - apply text_arr in Hs as (w & parts & -> & Hw & HF).
    exists (chr "["), (chr "]"), (w ++ join parts). split_and!; [by rewrite <- app_assoc|by left|].
    apply silent_app; [by apply silent_white; [lia|]|]. apply silent_join. cbn [depth] in Hd.
    clear -HF Hd. revert Hd. induction HF as [|t p l parts Hp HF IH]; cbn [foldr]; intros Hd; constructor.
    + apply (item_silent _ t); [lia| |done]. intros b. apply silent_text; lia.
    + apply IH. lia.
  - apply text_obj in Hs as (w & parts & -> & Hw & HF).
    exists (chr "{"), (chr "}"), (w ++ join parts). split_and!; [by rewrite <- app_assoc|by right|].
    apply silent_app; [by apply silent_white; [lia|]|]. apply silent_join. cbn [depth] in Hd.
    clear -HF Hd. revert Hd. induction HF as [|[k t] p l parts Hp HF IH]; cbn [foldr]; intros Hd; constructor.
    + apply (member_silent _ (k, t)); [lia| |done]. intros b. apply silent_text; cbn; lia.
    + apply IH. lia.
Qed.

(** *** Escaped strings and decimal numbers are in the grammar *)

Fixpoint string_check (s : bytes) : bool :=
  match s with
  | [] => true
  | c :: s1 =>
      if c =? 92 then
        match s1 with
        | [] => false
        | e :: s2 =>
            if e =? chr "u" then
              match s2 with
              | a :: b :: c :: d :: s3 => forallb Str.is_hexchar [a; b; c; d] && string_check s3
              | _ => false
              end
            else bool_decide (e ∈ [34; 92; 47; 98; 102; 110; 114; 116]) && string_check s2
        end
      else (32 <=? c) && negb (c =? 34) && string_check s1
  end.

Lemma string_check_sound s rest : string_check s = true -> string_text rest -> string_text (s ++ rest).
Proof.
  intros H Hr. revert H. induction s as [s IH] using (induction_ltof1 _ (@length Z)). unfold ltof in IH.
  destruct s as [|c s1]; [done|]. cbn [string_check app]. destruct (Z.eqb_spec c 92) as [->|Hc].
  - destruct s1 as [|e s2]; [done|]. destruct (Z.eqb_spec e (chr "u")) as [->|He].
    + destruct s2 as [|a [|b [|c [|d s3]]]]; try done. intros [Hh H]%andb_prop.
      apply (string_unicode [a; b; c; d] (s3 ++ rest)); [done| |apply IH; [simpl; lia|done]].
      apply Forall_forall. intros x Hx. rewrite forallb_forall in Hh. by apply Hh, list_elem_of_In.
    + intros [Hin%bool_decide_eq_true H]%andb_prop. apply string_escape; [done|]. apply IH; [simpl; lia|done].
  - intros [[H1 H2]%andb_prop H]%andb_prop. to_prop. apply string_char; [done|done|done|]. apply IH; [simpl; lia|done].
Qed.

Lemma escape_char_check c : is_u8 c -> string_check (escape_char c) = true.
Proof. intros Hc. apply (seqZ_forallb (fun c => string_check (escape_char c)) 256 c); [vm_compute; reflexivity|ulia]. Qed.

Lemma to_escaped_text s : bytes_ok s -> string_text (to_escaped s).
Proof.
  unfold to_escaped. induction 1 as [|c s Hc _ IH]; cbn [map concat]; [constructor|].
  apply string_check_sound; [by apply escape_char_check|done].
Qed.

Lemma dec_bytes n : bytes_ok (dec n).
Proof. eapply Forall_impl; [apply dec_digits|]. intros c Hc%is_digit_spec. ulia. Qed.

Lemma encode_cp_bytes cp : 0 <= cp -> bytes_ok (encode_cp cp).
Proof.
  intros H. unfold encode_cp. destruct (Z.ltb_spec cp 0x80); [apply Forall_singleton; ulia|].
  destruct (cp <? 0x800); rewrite ?Forall_app; split_and?; apply dec_bytes.
Qed.

Lemma from_escaped_bytes s r : bytes_ok s -> from_escaped s = Ok r -> bytes_ok r.
Proof.
  revert r. induction s as [s IH] using (induction_ltof1 _ (@length Z)). unfold ltof in IH. intros r Hs.
  assert (forall x s' r', (length s' < length s)%nat -> bytes_ok s' -> bytes_ok x -> rmap (app x) (from_escaped s') = Ok r' -> bytes_ok r') as Hgo.
  { intros x s' r' HL Hs' Hx. destruct (from_escaped s') as [y| |] eqn:E; try done. intros [= <-].
    apply Forall_app. split; [done|]. by eapply IH. }
  destruct s as [|c s1]; cbn [from_escaped]; [by intros [= <-]|]. apply Forall_cons in Hs as [Hc Hs].
  destruct (negb (c =? 92)); [apply Hgo; [simpl; lia|done|by apply Forall_singleton]|].
  destruct s1 as [|e s2]; [done|]. apply Forall_cons in Hs as [He Hs]. cbn [length] in Hgo.
  assert (forall k, is_u8 k -> rmap (app [k]) (from_escaped s2) = Ok r -> bytes_ok r) as Hone
    by (intros k Hk; apply Hgo; [lia|done|by apply Forall_singleton]).
  do 7 (match goal with |- (if ?b then _ else _) = _ -> _ => destruct b; [apply Hone; ulia|] end).
  destruct (e =? chr "u"); [|done]. destruct s2 as [|u0 [|u1 [|u2 [|u3 s3]]]]; try done.
  rewrite !Forall_cons in Hs. destruct Hs as (_ & _ & _ & _ & Hs).
  destruct (Str.hexread [u0; u1; u2; u3]) as [[|h0 [|h1 [|]]]|] eqn:Eh; try done.
  assert (bytes_ok [h0; h1]) as Hh.
  { pose proof (Str.hexread_loop_spec [u0; u1; u2; u3] eq_refl) as Hl. change (Str.hexread_loop [u0; u1; u2; u3] = Some [h0; h1]) in Eh.
    rewrite Eh in Hl. apply Hl. }
  rewrite !Forall_cons in Hh. destruct Hh as (H0 & H1 & _). apply Hgo; [simpl; lia|done|].
  apply encode_cp_bytes. rewrite Z.shiftl_mul_pow2 by lia. ulia.
Qed.

Lemma dec_fuel_head fuel n : 0 < n -> n < 2 ^ Z.of_nat fuel -> exists c r, dec_fuel fuel n [] = c :: r /\ 49 <= c.
Proof.
  revert n. induction fuel as [|f IH]; intros n H0 Hf; cbn [dec_fuel].
  - change (2 ^ Z.of_nat 0) with 1 in Hf. lia.
  - destruct (Z.eqb_spec (n `div` 10) 0) as [E|E].
    + eexists _, _. split; [done|]. pose proof (Z.div_mod n 10). lia.
    + rewrite dec_fuel_app. destruct (IH (n `div` 10)) as (c & r & -> & Hc).
      * pose proof (Z.div_pos n 10). lia.
      * rewrite Nat2Z.inj_succ, Z.pow_succ_r in Hf by lia. apply Z.div_lt_upper_bound; lia.
      * eexists _, _. split; [done|lia].
Qed.

Lemma dec_int_part n : 0 <= n -> int_part (dec n).
Proof.
  intros Hn. split; [split; [apply dec_nonempty|apply dec_digits]|]. destruct (decide (n = 0)) as [->|Hz]; [done|].
  unfold dec. destruct (dec_fuel_head (S (Z.to_nat (Z.log2 n))) n) as (c & r & -> & Hc).
  - lia.
  - rewrite Nat2Z.inj_succ, Z2Nat.id by apply Z.log2_nonneg. apply Z.log2_spec. lia.
  - cbn. intros [= ->]. lia.
Qed.

End Text.

(** ** The printer of [Jsmn::Object] *)

Module Printer.
Import Text.

Fixpoint each {A B} (f : A -> res B) (l : list A) : res (list B) :=
  match l with
  | [] => Ok []
  | a :: l => rbind (f a) (fun b => rmap (cons b) (each f l))
  end.

Definition print_indent (indent : nat) : bytes := replicate indent 9.

(** The lines of the members or entries: all but the last end with a comma. *)
Fixpoint lines (l : list bytes) : bytes :=
  match l with
  | [] => []
  | [x] => x ++ [10]
  | x :: l => x ++ lit "," ++ [10] ++ lines l
  end.

(** [fuel] bounds the nesting. *)
Fixpoint print (fuel : nat) (indent : nat) (o : option json) : res bytes :=
  match fuel with
  | O => Undef
  | S fuel =>
      if jis_null o then Ok (lit "null")
      else if jis_boolean o then rmap (fun b : bool => if b then lit "true" else lit "false") (jto_bool o)
      else
        match o with
        | None => Ok (lit "null")
        | Some (JStr _) => rmap (fun s => quoted (to_escaped s)) (jto_string o)
        | Some (JObj l) =>
            rbind (jkeys o) (fun keys =>
              if bool_decide (keys = []) then Ok (lit "{ }")
              else
                rmap (fun ls => lit "{" ++ [10] ++ lines ls ++ print_indent indent ++ lit "}")
                  (each (fun key => rbind (jindex_key o key) (fun value =>
                     rmap (fun s => print_indent (S indent) ++ quoted (to_escaped key) ++ lit " : " ++ s)
                       (print fuel (S indent) value))) keys))
        | Some (JArr l) =>
            if bool_decide (l = []) then Ok (lit "[ ]")
            else
              rmap (fun ls => lit "[" ++ [10] ++ lines ls ++ print_indent indent ++ lit "]")
                (each (fun value => rmap (fun s => print_indent (S indent) ++ s) (print fuel (S indent) (Some value))) l)
        | Some (JPrim t) => Ok t
        end
  end.

Definition fuel_for (o : option json) : nat := match o with Some t => S (Z.to_nat (depth t)) | None => 1%nat end.

(** [operator<<] *)
Definition put (o : option json) : res bytes := print (fuel_for o) 0 o.

(** ** The equality of [Jsmn::Object] *)

(** The test of all elements, up to the first that fails. *)
Fixpoint every {A} (f : A -> res bool) (l : list A) : res bool :=
  match l with
  | [] => Ok true
  | a :: l => rbind (f a) (fun b : bool => if b then every f l else Ok false)
  end.

Fixpoint equal (fuel : nat) (a b : option json) : res bool :=
  match fuel with
  | O => Undef
  | S fuel =>
      if negb (eqb (jis_null a) (jis_null b)) || negb (eqb (jis_boolean a) (jis_boolean b))
         || negb (eqb (jis_string a) (jis_string b)) || negb (eqb (jis_object a) (jis_object b))
         || negb (eqb (jis_array a) (jis_array b)) || negb (eqb (jis_number a) (jis_number b))
      then Ok false
      else if jis_null a then Ok true
      else if jis_boolean a then rbind (jto_bool a) (fun x => rmap (eqb x) (jto_bool b))
      else if jis_string a then rbind (jto_string a) (fun x => rmap (fun y => bool_decide (x = y)) (jto_string b))
      else if jis_number a then rbind (jto_number a) (fun x => rmap (fun y => deq x y) (jto_number b))
      else if jis_object a then
        rbind (jsize a) (fun n => rbind (jsize b) (fun m =>
          if negb (n =? m)%nat then Ok false
          else
            rbind (jkeys a) (every (fun key =>
              rbind (jhas b key) (fun h : bool =>
                if negb h then Ok false
                else rbind (jindex_key a key) (fun x => rbind (jindex_key b key) (fun y => equal fuel x y)))))))
      else
        rbind (jsize a) (fun n => rbind (jsize b) (fun m =>
          if negb (n =? m)%nat then Ok false
          else
            every (fun i => rbind (jindex_nth a i) (fun x => rbind (jindex_nth b i) (fun y => equal fuel x y))) (seq 0 n)))
  end.

(** *** Lemmas *)

(** The tree that is printed: strings are escaped anew, and a key gets the first value of
    its name. *)
Fixpoint printed (fuel : nat) (o : option json) : res json :=
  match fuel with
  | O => Undef
  | S fuel =>
      if jis_null o then Ok (JPrim (lit "null"))
      else if jis_boolean o then rmap (fun b : bool => JPrim (if b then lit "true" else lit "false")) (jto_bool o)
      else
        match o with
        | None => Ok (JPrim (lit "null"))
        | Some (JStr e) => rmap (fun s => JStr (to_escaped s)) (from_escaped e)
        | Some (JObj l) =>
            rbind (jkeys_list l) (fun keys =>
              rmap JObj (each (fun key => rbind (jfind key l) (fun value =>
                rmap (fun t => (to_escaped key, t)) (printed fuel value))) keys))
        | Some (JArr l) => rmap JArr (each (fun value => printed fuel (Some value)) l)
        | Some (JPrim t) => Ok (JPrim t)
        end
  end.

(** The trees of texts that the tokenizer accepts. *)
Fixpoint proper (t : json) : Prop :=
  match t with
  | JPrim p => primitive p
  | JStr e => bytes_ok e
  | JArr l => (fix go l := match l with [] => True | t :: l => proper t /\ go l end) l
  | JObj l => (fix go l := match l with [] => True | (k, t) :: l => bytes_ok k /\ proper t /\ go l end) l
  end.

Lemma proper_arr l : proper (JArr l) <-> Forall proper l.
Proof. induction l as [|t l IH]; [split; [constructor|done]|]. rewrite Forall_cons, <- IH. done. Qed.

Lemma proper_obj l : proper (JObj l) <-> Forall (fun kt : bytes * json => bytes_ok kt.1 /\ proper kt.2) l.
Proof.
  induction l as [|[k t] l IH]; [split; [constructor|done]|]. rewrite Forall_cons, <- IH. cbn. tauto.
Qed.

Lemma white_tabs n : white (print_indent n).
Proof. apply Forall_replicate. auto. Qed.

Lemma white_one c : c = 32 \/ c = 9 \/ c = 10 \/ c = 13 -> white [c].
Proof. intros H. by apply Forall_singleton. Qed.

Lemma white_app a b : white a -> white b -> white (a ++ b).
Proof. intros Ha Hb. by apply Forall_app. Qed.

(** The lines are parts between commas, with white space around. *)
Lemma lines_parts l : l <> [] -> forall w, white w ->
  exists parts, w ++ lines l = join parts
    /\ Forall2 (fun x p => exists w1 w2, p = w1 ++ x ++ w2 /\ white w1 /\ white w2) l parts.
Proof.
  induction l as [|x l IH]; [done|]. intros _ w Hw. destruct l as [|y l].
  - exists [w ++ x ++ [10]]. split; [done|]. constructor; [|constructor]. exists w, [10]. split_and!; [done|done|].
    apply white_one. auto.
  - destruct (IH ltac:(done) [10] ltac:(apply white_one; auto)) as (parts & E & HF).
    exists ((w ++ x) :: parts). split.
    + change (lines (x :: y :: l)) with (x ++ lit "," ++ [10] ++ lines (y :: l)). rewrite E.
      destruct parts as [|p parts]; [by inversion HF|]. cbn [join]. by rewrite <- app_assoc.
    + constructor; [|done]. exists w, []. split_and!; [by rewrite app_nil_r|done|constructor].
Qed.

Lemma each_Forall2 {A B} (f : A -> res B) l r : each f l = Ok r -> Forall2 (fun a b => f a = Ok b) l r.
Proof.
  revert r. induction l as [|a l IH]; intros r; cbn; [intros [= <-]; constructor|].
  destruct (f a) as [b| |] eqn:E; cbn; try done. destruct (each f l) as [r'| |]; cbn; try done.
  intros [= <-]. constructor; [done|]. by apply IH.
Qed.

Lemma each_ok {A B} (f : A -> res B) l r : Forall2 (fun a b => f a = Ok b) l r -> each f l = Ok r.
Proof. induction 1 as [|a b l r Hab _ IH]; cbn; [done|]. rewrite Hab. cbn. by rewrite IH. Qed.

Lemma jfind_in key l v : jfind key l = Ok (Some v) -> exists k, (k, v) ∈ l.
Proof.
  induction l as [|[k t] l IH]; cbn; [done|]. destruct (from_escaped k) as [s| |]; cbn; try done.
  destruct (decide (s = key)) as [->|]; [intros [= <-]; exists k; by left|]. intros H.
  destruct (IH H) as [k' Hk]. exists k'. by right.
Qed.

Lemma jkeys_bytes l keys :
  Forall (fun kt : bytes * json => bytes_ok kt.1 /\ proper kt.2) l -> jkeys_list l = Ok keys -> Forall bytes_ok keys.
Proof.
  intros H. revert keys. induction H as [|[k t] l [Hk _] _ IH]; intros keys; cbn; [intros [= <-]; constructor|].
  destruct (from_escaped k) as [s| |] eqn:E; cbn; try done. destruct (jkeys_list l) as [ks| |]; cbn; try done.
  intros [= <-]. constructor; [by eapply from_escaped_bytes|by apply IH].
Qed.

Definition proper_opt (o : option json) : Prop := match o with Some t => proper t | None => True end.

Lemma null_text : text (JPrim (lit "null")) (lit "null").
Proof. split; [done|]. right. right. by left. Qed.

(** Lines of parts that are in the grammar: the text between the brackets. *)
Lemma lines_body {A} (P : A -> bytes -> Prop) (l : list A) ls i :
  l <> [] -> Forall2 (fun a x => forall w1 w2, white w1 -> white w2 -> P a (w1 ++ x ++ w2)) l ls ->
  exists w parts, [10] ++ lines ls ++ print_indent i = w ++ join parts /\ white w /\ Forall2 P l parts.
Proof.
  intros Hne HF. assert (ls <> []) as Hls by (destruct HF; done).
  assert (forall w', white w' -> exists parts, join parts = lines ls ++ w' /\ Forall2 P l parts) as Hgo; [|].
  { intros w' Hw'. destruct (lines_parts ls Hls [] ltac:(constructor)) as (parts & E & HP). cbn in E. rewrite E. clear E Hls.
    revert parts HP. induction HF as [|a x l ls Ha HF IH]; intros parts HP; [done|].
    inversion HP as [|? p ? parts' (w1 & w2 & -> & H1 & H2) HP']; subst. destruct l as [|b l].
    - inversion HF; subst. inversion HP'; subst. exists [w1 ++ x ++ w2 ++ w']. split; [cbn [join]; by rewrite !app_assoc|].
      constructor; [|constructor]. apply Ha; [done|by apply white_app].
    - destruct (IH ltac:(done) parts' HP') as (parts2 & E2 & HP2). exists ((w1 ++ x ++ w2) :: parts2). split.
      + inversion HP2; subst. inversion HP' as [|? p' ? parts'' _ _]; [subst; inversion HF|]; subst.
        change (join ((w1 ++ x ++ w2) :: p' :: parts'')) with ((w1 ++ x ++ w2) ++ lit "," ++ join (p' :: parts'')).
        change (join ((w1 ++ x ++ w2) :: ?y :: ?ys)) with ((w1 ++ x ++ w2) ++ lit "," ++ join (y :: ys)).
        rewrite E2. by rewrite <- !app_assoc.
      + constructor; [by apply Ha|done]. }
  destruct (Hgo (print_indent i) (white_tabs i)) as (parts & E & HP). exists [10], parts.
  split_and!; [by rewrite E|apply white_one; auto|done].
Qed.

Lemma print_text fuel : forall i o s,
  proper_opt o -> print fuel i o = Ok s -> exists t, printed fuel o = Ok t /\ text t s.
Proof.
  induction fuel as [|fuel IH]; intros i o s Hp; cbn [print printed]; [done|].
  destruct (jis_null o); [intros [= <-]; eexists; split; [done|apply null_text]|].
  destruct (jis_boolean o).
  { destruct (jto_bool o) as [b| |]; cbn; try done. intros [= <-]. eexists. split; [done|]. split; [done|].
    destruct b; [by left|right; by left]. }
  destruct o as [[p|e|l|l]|]; [| | | |intros [= <-]; eexists; split; [done|apply null_text]].
  - intros [= <-]. eexists. split; [done|]. by split.
  - cbn [jto_string]. destruct (from_escaped e) as [u| |] eqn:E; cbn; try done. intros [= <-]. eexists. split; [done|].
    split; [done|]. by eapply to_escaped_text, from_escaped_bytes.
  - cbn [proper_opt] in Hp. apply proper_arr in Hp. case_bool_decide as D.
    { subst l. cbn. intros [= <-]. eexists. split; [done|]. apply text_arr. exists [32], []. split_and!; [done|apply white_one; auto|constructor]. }
    destruct (each _ l) as [ls| |] eqn:E; cbn; try done. intros [= <-]. apply each_Forall2 in E.
    assert (exists ts, Forall2 (fun v t => printed fuel (Some v) = Ok t) l ts
            /\ Forall2 (fun t x => forall w1 w2, white w1 -> white w2 -> item t (w1 ++ x ++ w2)) ts ls) as (ts & H1 & H2).
    { clear D. induction E as [|v x l ls Hv E IHE]; [by exists []|]. apply Forall_cons in Hp as [Hpv Hp].
      destruct (IHE Hp) as (ts & H1 & H2). destruct (print fuel (S i) (Some v)) as [s'| |] eqn:Ep; cbn [rmap rbind] in Hv; try discriminate Hv.
      assert (x = print_indent (S i) ++ s') as -> by (by inversion Hv). clear Hv. destruct (IH (S i) (Some v) s' Hpv Ep) as (t & Ht & Hts). exists (t :: ts). split; constructor; try done.
      intros w1 w2 Hw1 Hw2. exists (w1 ++ print_indent (S i)), s', w2.
      split_and!; [by rewrite <- !app_assoc|apply white_app; [done|apply white_tabs]|done|done]. }
    exists (JArr ts). split; [by rewrite (each_ok _ _ _ H1)|]. apply text_arr.
    destruct (lines_body item ts ls i) as (w & parts & Eb & Hw & HF); [intros ->; inversion H1; done|done|].
    exists w, parts. split_and!; [|done|done]. rewrite (app_assoc w), <- Eb, <- !app_assoc. done.
  - cbn [proper_opt] in Hp. apply proper_obj in Hp. cbn [jkeys jindex_key].
    destruct (jkeys_list l) as [keys| |] eqn:Ek; cbn; try done. pose proof (jkeys_bytes l keys Hp Ek) as Hkb. case_bool_decide as D.
    { subst keys. cbn. intros [= <-]. eexists. split; [done|]. apply text_obj. exists [32], []. split_and!; [done|apply white_one; auto|constructor]. }
    destruct (each _ keys) as [ls| |] eqn:E; cbn; try done. intros [= <-]. apply each_Forall2 in E. clear Ek.
    assert (exists ts, Forall2 (fun key kt => rbind (jfind key l) (fun value => rmap (fun t => (to_escaped key, t)) (printed fuel value)) = Ok kt) keys ts
            /\ Forall2 (fun kt x => forall w1 w2, white w1 -> white w2 -> member kt (w1 ++ x ++ w2)) ts ls) as (ts & H1 & H2).
    { clear D. induction E as [|key x keys ls Hv E IHE]; [by exists []|]. apply Forall_cons in Hkb as [Hkey Hkb].
      destruct (IHE Hkb) as (ts & H1 & H2). destruct (jfind key l) as [v| |] eqn:Ef; cbn [rmap rbind] in Hv; try discriminate Hv.
      destruct (print fuel (S i) v) as [s'| |] eqn:Ep; cbn [rmap rbind] in Hv; try discriminate Hv.
      assert (x = print_indent (S i) ++ quoted (to_escaped key) ++ lit " : " ++ s') as -> by (by inversion Hv). clear Hv.
      assert (proper_opt v) as Hpv.
      { destruct v as [v|]; [|done]. destruct (jfind_in _ _ _ Ef) as [k Hk]. rewrite Forall_forall in Hp. apply (Hp _ Hk). }
      destruct (IH (S i) v s' Hpv Ep) as (t & Ht & Hts). exists ((to_escaped key, t) :: ts). split; constructor; try done.
      - rewrite Ef. cbn. by rewrite Ht.
      - intros w1 w2 Hw1 Hw2. exists (w1 ++ print_indent (S i)), [32], [32], s', w2.
        split_and!; [by rewrite <- !app_assoc|apply white_app; [done|apply white_tabs]|apply white_one; auto..|done|by apply to_escaped_text|done]. }
    exists (JObj ts). split; [by rewrite (each_ok _ _ _ H1)|]. apply text_obj.
    destruct (lines_body member ts ls i) as (w & parts & Eb & Hw & HF); [intros ->; inversion H1; done|done|].
    exists w, parts. split_and!; [|done|done]. rewrite (app_assoc w), <- Eb, <- !app_assoc. done.
Qed.

(** The strings and keys can be read. *)
Fixpoint readable (t : json) : Prop :=
  match t with
  | JPrim p => p <> []
  | JStr e => exists s, from_escaped e = Ok s
  | JArr l => (fix go l := match l with [] => True | t :: l => readable t /\ go l end) l
  | JObj l => (fix go l := match l with [] => True | (k, t) :: l => (exists s, from_escaped k = Ok s) /\ readable t /\ go l end) l
  end.

Lemma readable_arr l : readable (JArr l) <-> Forall readable l.
Proof. induction l as [|t l IH]; [split; [constructor|done]|]. rewrite Forall_cons, <- IH. done. Qed.

Lemma readable_obj l :
  readable (JObj l) <-> Forall (fun kt : bytes * json => (exists s, from_escaped kt.1 = Ok s) /\ readable kt.2) l.
Proof. induction l as [|[k t] l IH]; [split; [constructor|done]|]. rewrite Forall_cons, <- IH. cbn. tauto. Qed.

Lemma depth_arr t l : t ∈ l -> depth t <= foldr (fun v m => Z.max (depth v) m) 0 l.
Proof.
  induction l as [|v l IH]; [by intros ?%elem_of_nil|]. cbn. intros [->|H]%elem_of_cons; [lia|]. specialize (IH H). lia.
Qed.

Lemma depth_obj k t (l : list (bytes * json)) : (k, t) ∈ l -> depth t <= foldr (fun '(_, v) m => Z.max (depth v) m) 0 l.
Proof.
  induction l as [|[k' v] l IH]; [by intros ?%elem_of_nil|]. cbn. intros [[= -> ->]|H]%elem_of_cons; [lia|]. specialize (IH H). lia.
Qed.

Lemma each_total {A B} (f : A -> res B) l : (forall a, a ∈ l -> exists b, f a = Ok b) -> exists r, each f l = Ok r.
Proof.
  induction l as [|a l IH]; intros H; cbn; [by eexists|]. destruct (H a) as [b ->]; [by left|]. cbn.
  destruct IH as [r ->]; [intros x Hx; apply H; by right|]. by eexists.
Qed.

Lemma keys_total (l : list (bytes * json)) :
  Forall (fun kt : bytes * json => (exists s, from_escaped kt.1 = Ok s) /\ readable kt.2) l ->
  exists keys, jkeys_list l = Ok keys /\ forall key, exists v, jfind key l = Ok v.
Proof.
  induction 1 as [|[k t] l [[s Hs] _] _ (keys & IH1 & IH2)]; cbn; [eexists; split; [done|by eexists]|].
  cbn in Hs. rewrite Hs. cbn. rewrite IH1. eexists. split; [done|]. intros key. destruct (decide (s = key)); [by eexists|apply IH2].
Qed.

Lemma print_total fuel : forall i o,
  match o with Some t => readable t /\ depth t < Z.of_nat fuel | None => (0 < fuel)%nat end ->
  exists s, print fuel i o = Ok s.
Proof.
  induction fuel as [|fuel IH]; intros i o Ho.
  { destruct o as [t|]; [|lia]. destruct Ho as [_ Ho]. destruct t as [| |l|l]; cbn [depth] in Ho; try lia;
      [pose proof (depth_nonneg l)|pose proof (depth_nonneg_obj l)]; lia. }
  cbn [print]. destruct (jis_null o) eqn:En; [by eexists|]. destruct (jis_boolean o) eqn:Eb.
  { destruct o as [[[|c p]|?|?|?]|]; try discriminate Eb. unfold jis_boolean, jis_null, starts_with in Eb, En. cbn [existsb] in Eb, En.
    rewrite orb_false_r in Eb, En. unfold jto_bool. rewrite En. destruct (c =? chr "f"); cbn [orb rmap rbind]; [by eexists|].
    cbn [orb] in Eb. rewrite Eb. by eexists. }
  destruct o as [[p|e|l|l]|]; [by eexists| | | |by eexists].
  - destruct Ho as [[s Hs] _]. cbn [jto_string]. rewrite Hs. by eexists.
  - destruct Ho as [Hr Hd]. apply readable_arr in Hr. cbn [depth] in Hd. case_bool_decide; [by eexists|].
    destruct (each_total (fun value => rmap (fun s => print_indent (S i) ++ s) (print fuel (S i) (Some value))) l) as [ls ->]; [|by eexists].
    intros v Hv. rewrite Forall_forall in Hr. pose proof (depth_arr _ _ Hv).
    destruct (IH (S i) (Some v)) as [s ->]; [split; [by apply Hr|lia]|]. by eexists.
  - destruct Ho as [Hr Hd]. apply readable_obj in Hr. cbn [depth] in Hd. cbn [jkeys jindex_key].
    destruct (keys_total l Hr) as (keys & -> & Hf). cbn [rbind]. case_bool_decide; [by eexists|].
    destruct (each_total (fun key => rbind (jfind key l) (fun value =>
                     rmap (fun s => print_indent (S i) ++ quoted (to_escaped key) ++ lit " : " ++ s)
                       (print fuel (S i) value))) keys) as [ls ->]; [|by eexists].
    intros key _. destruct (Hf key) as [v Hv]. rewrite Hv. cbn [rbind].
    destruct (IH (S i) v) as [s ->]; [|by eexists]. destruct v as [v|].
    + destruct (jfind_in _ _ _ Hv) as [k Hk]. rewrite Forall_forall in Hr. pose proof (depth_obj _ _ _ Hk).
      split; [apply (Hr _ Hk)|lia].
    + pose proof (depth_nonneg_obj l). lia.
Qed.

(** *** Properties *)

(** The printer.  The tree of an accepted text whose strings can be read is printed, and what
    is printed is a text in the grammar of JSON, of the tree with its strings escaped anew,
    in which the reader finds the end. *)
Theorem print_is_json t rest :
  proper t -> readable t ->
  exists s t', put (Some t) = Ok s /\ printed (fuel_for (Some t)) (Some t) = Ok t' /\ text t' s
    /\ (match t' with JArr _ | JObj _ => True | _ => False end -> 1 + depth t' < 2 ^ 32 ->
        scan Datum_init (s ++ rest) = Some (s, rest, Datum_init)).
Proof.
  intros Hp Hr. destruct (print_total (fuel_for (Some t)) 0 (Some t)) as [s Hs].
  { split; [done|]. cbn [fuel_for]. rewrite Nat2Z.inj_succ. pose proof (Z2Nat.id (depth t)) as E.
    destruct (Z.le_gt_cases 0 (depth t)); [rewrite E by done; lia|lia]. }
  destruct (print_text _ _ (Some t) _ Hp Hs) as (t' & Ht & Htx). exists s, t'. split_and!; [done|done|done|].
  intros H1 H2. by apply (scan_text t').
Qed.

(** The equality is not symmetric on objects that repeat a key: a repeated key is looked for
    twice, and another key of the other object is not looked at. *)
Theorem equality_not_symmetric :
  let one := JPrim (lit "1") in
  let a := Some (JObj [(lit "x", one); (lit "x", one)]) in
  let b := Some (JObj [(lit "x", one); (lit "y", one)]) in
  equal 2 a b = Ok true /\ equal 2 b a = Ok false.
Proof. split; vm_compute; reflexivity. Qed.

End Printer.

(** ** Doubles *)

Module Float.
Import Text.

Definition pow10 (e : Z) : Q := Qpower (10 # 1) e.

(** [floor (log10 q)] for [q > 0]. *)
Definition ilog10 (q : Q) : Z :=
  let k := Z.of_nat (length (dec (Qnum q))) - Z.of_nat (length (dec (Zpos (Qden q)))) in
  if Qle_bool (pow10 k) q then k else k - 1.

(** [precision] significant digits, correctly rounded, and the exponent of the first. *)
Definition significant (precision : nat) (q : Q) : Z * Z :=
  let p := Z.of_nat precision in
  let x := ilog10 q in
  let m := rne (q * pow10 (p - 1 - x)) in
  if m =? 10 ^ p then (10 ^ (p - 1), x + 1) else (m, x).

Definition strip_zeros (s : bytes) : bytes :=
  foldr (fun c s => if (c =? 48) && bool_decide (s = []) then [] else c :: s) [] s.

(** The fraction without its trailing zeros, and without a point when none is left. *)
Definition fraction_text (s : bytes) : bytes :=
  match strip_zeros s with [] => [] | ds => lit "." ++ ds end.

Definition exponent_text (x : Z) : bytes :=
  lit "e" ++ (if x <? 0 then lit "-" else lit "+") ++ (if Z.abs x <? 10 then lit "0" else []) ++ dec (Z.abs x).

(** A stream with a precision and neither [fixed] nor [scientific] prints as [%g] does. *)
Definition general (precision : nat) (q : Q) : bytes :=
  let '(m, x) := significant precision q in
  let ds := dec m in
  if (-4 <=? x) && (x <? Z.of_nat precision) then
    if x <? 0 then lit "0" ++ fraction_text (replicate (Z.to_nat (- x - 1)) 48 ++ ds)
    else take (Z.to_nat (x + 1)) ds ++ fraction_text (drop (Z.to_nat (x + 1)) ds)
  else take 1 ds ++ fraction_text (drop 1 ds) ++ exponent_text x.

Definition put_double (precision : nat) (d : double) : bytes :=
  match d with
  | NaN => lit "nan"
  | Inf negative => (if negative then lit "-" else []) ++ lit "inf"
  | Fin q =>
      if Qeq_bool q 0 then lit "0"
      else (if Qle_bool 0 q then [] else lit "-") ++ general precision (Qabs q)
  end.

(** [is >> back], where the stream stays good: a complete literal in the range of doubles. *)
Definition get_double (s : bytes) : option double :=
  let s := skip_ws s in
  let '(neg, s) :=
    match s with
    | c :: s' => if c =? chr "-" then (true, s') else if c =? chr "+" then (false, s') else (false, s)
    | [] => (false, s)
    end in
  let '(ip, s) := span_digits s in
  let '(fp, s) :=
    match s with
    | c :: s' => if c =? chr "." then span_digits s' else ([], s)
    | [] => ([], s)
    end in
  if bool_decide (ip ++ fp = []) then None
  else
    e ← read_exponent s;
    let q := scale10 (digits_value (ip ++ fp)) (e - Z.of_nat (length fp)) in
    match RN (if neg then - q else q)%Q with Fin r => Some (Fin r) | _ => None end.

Definition reads_back (s : bytes) (d : double) : bool :=
  match get_double s with Some back => deq back d | None => false end.

(** The precisions that are tried before 17. *)
Fixpoint from_double_loop (ps : list nat) (d : double) : bytes :=
  match ps with
  | [] => put_double 17 d
  | p :: ps => if reads_back (put_double p d) d then put_double p d else from_double_loop ps d
  end.

Definition from_double (d : double) : bytes := from_double_loop [15; 16]%nat d.

(** A literal that is read cleanly is what [to_double] reads. *)
Lemma get_to_double s d : get_double s = Some d -> to_double s = d.
Proof.
  unfold get_double, to_double. cbv zeta.
  destruct (match skip_ws s with [] => _ | _ :: _ => _ end) as [neg s1]. destruct (span_digits s1) as [ip s2].
  destruct (match s2 with [] => _ | _ :: _ => _ end) as [fp s3]. destruct (bool_decide _); [done|].
  destruct (read_exponent s3) as [e|]; [|done]. cbn [mbind option_bind].
  destruct (RN _) as [r|b|]; [|done..]. by intros [= <-].
Qed.

(** What the loop returns is the number at one of the three precisions, and below 17 it
    reads back as the same number. *)
Lemma from_double_cases d :
  exists p, from_double d = put_double p d /\
    (p = 17%nat \/ (p = 15%nat \/ p = 16%nat) /\ deq (to_double (from_double d)) d = true).
Proof.
  unfold from_double. cbn [from_double_loop].
  assert (forall p, reads_back (put_double p d) d = true -> deq (to_double (put_double p d)) d = true) as H.
  { intros p. unfold reads_back. destruct (get_double _) as [b|] eqn:E; [|done]. by rewrite (get_to_double _ _ E). }
  destruct (reads_back (put_double 15 d) d) eqn:E1; [exists 15%nat; auto|].
  destruct (reads_back (put_double 16 d) d) eqn:E2; [exists 16%nat; auto|]. exists 17%nat; auto.
Qed.

(** *** Numbers are in the grammar *)

Lemma strip_zeros_digits s : Forall (fun c => is_digit c = true) s -> Forall (fun c => is_digit c = true) (strip_zeros s).
Proof. induction 1 as [|c s Hc _ IH]; cbn [strip_zeros foldr]; [done|]. destruct (_ && _); [done|by constructor]. Qed.

Lemma fraction_text_ok s : Forall (fun c => is_digit c = true) s -> fraction (fraction_text s).
Proof.
  intros H%strip_zeros_digits. unfold fraction_text. destruct (strip_zeros s) as [|c ds]; [by left|].
  right. exists (c :: ds). done.
Qed.

Lemma exponent_text_ok x : exponent (exponent_text x).
Proof.
  right. exists (chr "e"), (if x <? 0 then lit "-" else lit "+"), ((if Z.abs x <? 10 then lit "0" else []) ++ dec (Z.abs x)).
  split_and!; [done|by left|destruct (x <? 0); auto|].
  split; [by destruct (Z.abs x <? 10); [|apply dec_nonempty]|]. apply Forall_app. split; [|apply dec_digits].
  destruct (Z.abs x <? 10); [|constructor]. constructor; [done|constructor].
Qed.

(** The leading digits of a number. *)
Lemma take_int_part k n : 0 <= n -> (0 < k)%nat -> int_part (take k (dec n)).
Proof.
  intros Hn Hk. destruct (dec_int_part n Hn) as [[Hne Hd] H0]. destruct k as [|k]; [lia|].
  destruct (dec n) as [|c ds]; [done|]. cbn [take head] in *. split; [split; [done|]|].
  - apply Forall_cons in Hd as [Hc Hd]. constructor; [done|by apply Forall_take].
  - intros [= ->]. specialize (H0 eq_refl). injection H0 as ->. by rewrite take_nil.
Qed.

Lemma rne_nonneg q : (0 <= q)%Q -> 0 <= rne q.
Proof.
  intros H. assert (0 <= Qfloor q) by (rewrite <- (Qfloor_Z 0); by apply Qfloor_resp_le).
  unfold rne. cbv zeta. destruct (Qcompare _ _); [destruct (Z.even _)|..]; lia.
Qed.

Lemma significant_nonneg p q : (0 <= q)%Q -> 0 <= (significant p q).1.
Proof.
  intros H. unfold significant. cbv zeta. destruct (_ =? _); cbn [fst]; [apply Z.pow_nonneg; lia|].
  apply rne_nonneg, Qmult_le_0_compat; [done|]. apply Qlt_le_weak, Qpower_0_lt. reflexivity.
Qed.

Lemma general_number p q : (0 <= q)%Q ->
  exists i f e, general p q = i ++ f ++ e /\ int_part i /\ fraction f /\ exponent e.
Proof.
  intros H. apply (significant_nonneg p) in H. unfold general. destruct (significant p q) as [m x]. cbn [fst] in H.
  pose proof (dec_digits m) as Hd. destruct (_ && _) eqn:E; [destruct (Z.ltb_spec x 0)|].
  - exists (lit "0"), (fraction_text (replicate (Z.to_nat (- x - 1)) 48 ++ dec m)), [].
    split_and!; [by rewrite app_nil_r|split; [split; [done|repeat constructor]|done]|apply fraction_text_ok|by left].
    apply Forall_app. split; [by apply Forall_replicate|done].
  - exists (take (Z.to_nat (x + 1)) (dec m)), (fraction_text (drop (Z.to_nat (x + 1)) (dec m))), [].
    split_and!; [by rewrite app_nil_r|apply take_int_part; lia|by apply fraction_text_ok, Forall_drop|by left].
  - exists (take 1 (dec m)), (fraction_text (drop 1 (dec m))), (exponent_text x).
    split_and!; [done|apply take_int_part; lia|by apply fraction_text_ok, Forall_drop|apply exponent_text_ok].
Qed.

Lemma put_double_number p q : number_text (put_double p (Fin q)).
Proof.
  cbn [put_double]. destruct (Qeq_bool q 0).
  { exists [], (lit "0"), [], []. split_and!; [done|by left|split; [split; [done|repeat constructor]|done]|by left|by left]. }
  destruct (general_number p (Qabs q) (Qabs_nonneg q)) as (i & f & e & -> & Hi & Hf & He).
  exists (if Qle_bool 0 q then [] else lit "-"), i, f, e. split_and!; [done|destruct (Qle_bool 0 q); auto|done|done|done].
Qed.

(** A finite double is written as a JSON number. *)
Lemma from_double_number q : number_text (from_double (Fin q)).
Proof. destruct (from_double_cases (Fin q)) as (p & -> & _). apply put_double_number. Qed.

Lemma put_nonfinite d : (forall q, d <> Fin q) -> from_double d ∈ [lit "nan"; lit "inf"; lit "-inf"].
Proof.
  intros H. destruct d as [q|[]|]; [by destruct (H q)|..].
  - assert (from_double (Inf true) = lit "-inf") as -> by (vm_compute; reflexivity). right. right. left.
  - assert (from_double (Inf false) = lit "inf") as -> by (vm_compute; reflexivity). right. left.
  - assert (from_double NaN = lit "nan") as -> by (vm_compute; reflexivity). left.
Qed.

(** No JSON text starts as those of the other doubles do. *)
Lemma nonfinite_text t s : s ∈ [lit "nan"; lit "inf"; lit "-inf"] -> ~ text t s.
Proof.
  intros Hs Ht.
  assert (head s = Some 110 \/ head s = Some 105 \/ (head s = Some 45 /\ head (tail s) = Some 105)) as Hh.
  { rewrite !elem_of_cons in Hs. destruct Hs as [->|[->|[->|Hs]]]; [vm_compute; auto..|by apply elem_of_nil in Hs]. }
  destruct t as [p|e|l|l].
  - destruct Ht as [-> [->|[->|[->|(sg & i & f & e & -> & Hsg & [[Hi Hd] _] & _)]]]].
    1-2: vm_compute in Hh; naive_solver.
    { rewrite !elem_of_cons, elem_of_nil in Hs. destruct Hs as [Hs|[Hs|[Hs|Hs]]]; vm_compute in Hs; congruence || done. }
    destruct i as [|c i]; [done|]. apply Forall_cons in Hd as [Hc _]. apply is_digit_spec in Hc.
    destruct Hsg as [->| ->]; cbn [app head tail lit] in Hh.
    + destruct Hh as [[= ->]|[[= ->]|[[= ->] _]]]; lia.
    + change (lit "-") with [45] in Hh. cbn [app head tail] in Hh. destruct Hh as [[=]|[[=]|[_ [= ->]]]]; lia.
  - destruct Ht as [-> _]. change (quoted e) with (34 :: e ++ [34]) in Hh. cbn [head] in Hh. naive_solver.
  - apply text_arr in Ht as (w & parts & -> & _). change (lit "[") with [91] in Hh. cbn [app head] in Hh. naive_solver.
  - apply text_obj in Ht as (w & parts & -> & _). change (lit "{") with [123] in Hh. cbn [app head] in Hh. naive_solver.
Qed.

(** The numbers of the comment in the code, and of the branches of the format. *)
Example demo_doubles :
  map from_double [RN (1721639381632 # 1000); RN (1 # 10); RN (1 # 3); RN (- (25 # 10)); d_of_Z (10 ^ 21); RN (123 # 10000000);
                   RN (1 # 1000); Fin (max_double); d_of_Z 123456789012345678; Fin (pow2 (-1074))]
  = [lit "1721639381.632"; lit "0.1"; lit "0.3333333333333333"; lit "-2.5"; lit "1e+21"; lit "1.23e-05";
     lit "0.001"; lit "1.7976931348623157e+308"; lit "1.2345678901234568e+17"; lit "4.94065645841247e-324"].
Proof. vm_compute. reflexivity. Qed.

End Float.

(** ** [Json::Out] *)

Module Out.
Import Text Printer.

(** The values that can be written, by their types; a float is written as the double of its
    value, a pointer or an [Either] writes its content, or null. *)
Inductive value :=
  | VInt (z : Z) | VDouble (d : double) | VBool (b : bool) | VString (s : bytes) | VNull
  | VOut (content : bytes) | VObject (o : option json).

(** The serializers of the integer types write the decimal number. *)
Definition int_text (z : Z) : bytes := if z <? 0 then lit "-" ++ dec (- z) else dec z.

Definition serialize (v : value) : res bytes :=
  match v with
  | VInt z => Ok (int_text z)
  | VDouble d => Ok (Float.from_double d)
  | VBool b => Ok (if b then lit "true" else lit "false")
  | VString s => Ok (quoted (to_escaped s))
  | VNull => Ok (lit "null")
  | VOut content => Ok content
  | VObject o => put o
  end.

(** [jsonify_string] *)
Definition jsonify_string (s : bytes) : bytes := quoted (to_escaped s).

(** The calls of a chain.  [StartObject] and [StartArray] are those of [Out] itself. *)
Inductive call (V : Type) :=
  | StartObject | StartArray
  | Field (name : bytes) (v : V) | FieldArray (name : bytes) | FieldObject (name : bytes) | EndObject
  | Entry (v : V) | EntryArray | EntryObject | EndArray.
Arguments StartObject {V}. Arguments StartArray {V}. Arguments Field {V}. Arguments FieldArray {V}.
Arguments FieldObject {V}. Arguments EndObject {V}. Arguments Entry {V}. Arguments EntryArray {V}.
Arguments EntryObject {V}. Arguments EndArray {V}.

(** The open builders, innermost first: whether it is an object, and [started]. *)
Record builder := { is_obj : bool; started : bool }.

Record state := { content : bytes; up : list builder }.

Definition make : state := {| content := []; up := [] |}.

(** The separator, and the builder after it. *)
Definition encomma (b : builder) : bytes * builder :=
  (if started b then lit ", " else [], {| is_obj := is_obj b; started := true |}).

Definition opened (obj : bool) : builder := {| is_obj := obj; started := false |}.
Definition opening (obj : bool) : bytes := if obj then lit "{" else lit "[".

Definition name_text (name : bytes) : bytes := quoted (to_escaped name) ++ lit ": ".

(** Write text after the separator, in a builder of the kind [obj]; [None] is a call that
    the types do not allow. *)
Definition write (s : state) (obj : bool) (text : bytes) (inner : list builder) : option state :=
  match up s with
  | b :: rest =>
      if eqb (is_obj b) obj then
        let '(sep, b) := encomma b in
        Some {| content := content s ++ sep ++ text; up := inner ++ b :: rest |}
      else None
  | [] => None
  end.

Definition close (s : state) (obj : bool) : option state :=
  match up s with
  | b :: rest =>
      if eqb (is_obj b) obj then Some {| content := content s ++ (if obj then lit "}" else lit "]"); up := rest |} else None
  | [] => None
  end.

Definition start (s : state) (obj : bool) : option state :=
  match up s with [] => Some {| content := content s ++ opening obj; up := [opened obj] |} | _ => None end.

(** An exception of a serializer ends the chain, with [None] too. *)
Definition ok {A} (r : res A) : option A := match r with Ok a => Some a | _ => None end.

Definition step (s : state) (c : call value) : option state :=
  match c with
  | StartObject => start s true
  | StartArray => start s false
  | Field name v => t ← ok (serialize v); write s true (name_text name ++ t) []
  | FieldArray name => write s true (name_text name ++ opening false) [opened false]
  | FieldObject name => write s true (name_text name ++ opening true) [opened true]
  | EndObject => close s true
  | Entry v => t ← ok (serialize v); write s false t []
  | EntryArray => write s false (opening false) [opened false]
  | EntryObject => write s false (opening true) [opened true]
  | EndArray => close s false
  end.

Fixpoint run (s : state) (l : list (call value)) : option state :=
  match l with [] => Some s | c :: l => s ← step s c; run s l end.

(** *** The tree of a chain *)

(** An open object or array, with what it holds so far and, inside of an object, its
    name. *)
Inductive frame := FObj (name : bytes) (members : list (bytes * json)) | FArr (name : bytes) (entries : list json).

(** The frames, and the tree when all are closed. *)
Definition tree_state : Type := list frame * option json.

(** A finished value goes to the innermost frame. *)
Definition attach (name : bytes) (t : json) (fs : list frame) : tree_state :=
  match fs with
  | [] => ([], Some t)
  | FObj n l :: fs => (FObj n (l ++ [(name, t)]) :: fs, None)
  | FArr n l :: fs => (FArr n (l ++ [t]) :: fs, None)
  end.

Definition tree_step (s : tree_state) (c : call json) : option tree_state :=
  match c, s with
  | StartObject, ([], None) => Some ([FObj [] []], None)
  | StartArray, ([], None) => Some ([FArr [] []], None)
  | Field name t, (FObj n l :: fs, _) => Some (attach (to_escaped name) t (FObj n l :: fs))
  | FieldArray name, (FObj n l :: fs, _) => Some (FArr (to_escaped name) [] :: FObj n l :: fs, None)
  | FieldObject name, (FObj n l :: fs, _) => Some (FObj (to_escaped name) [] :: FObj n l :: fs, None)
  | EndObject, (FObj n l :: fs, _) => Some (attach n (JObj l) fs)
  | Entry t, (FArr n l :: fs, _) => Some (attach [] t (FArr n l :: fs))
  | EntryArray, (FArr n l :: fs, _) => Some (FArr [] [] :: FArr n l :: fs, None)
  | EntryObject, (FArr n l :: fs, _) => Some (FObj [] [] :: FArr n l :: fs, None)
  | EndArray, (FArr n l :: fs, _) => Some (attach n (JArr l) fs)
  | _, _ => None
  end.

Fixpoint tree_run (s : tree_state) (l : list (call json)) : option tree_state :=
  match l with [] => Some s | c :: l => s ← tree_step s c; tree_run s l end.

(** *** Lemmas *)

(** [v] writes a text of [t]. *)
Definition denotes (v : value) (t : json) : Prop := exists s, serialize v = Ok s /\ text t s.

Inductive same_call : call value -> call json -> Prop :=
  | same_start_object : same_call StartObject StartObject
  | same_start_array : same_call StartArray StartArray
  | same_field name v t : bytes_ok name -> denotes v t -> same_call (Field name v) (Field name t)
  | same_field_array name : bytes_ok name -> same_call (FieldArray name) (FieldArray name)
  | same_field_object name : bytes_ok name -> same_call (FieldObject name) (FieldObject name)
  | same_end_object : same_call EndObject EndObject
  | same_entry v t : denotes v t -> same_call (Entry v) (Entry t)
  | same_entry_array : same_call EntryArray EntryArray
  | same_entry_object : same_call EntryObject EntryObject
  | same_end_array : same_call EndArray EndArray.

Definition frame_name (f : frame) : bytes := match f with FObj n _ | FArr n _ => n end.
Definition frame_obj (f : frame) : bool := match f with FObj _ _ => true | FArr _ _ => false end.
Definition frame_empty (f : frame) : bool := match f with FObj _ [] | FArr _ [] => true | _ => false end.

(** What an open frame wrote after its bracket. *)
Definition body (f : frame) (s : bytes) : Prop :=
  match f with
  | FObj _ l => exists parts, s = join parts /\ Forall2 member l parts
  | FArr _ l => exists parts, s = join parts /\ Forall2 item l parts
  end.

(** What is written before the value that is next in the frame: separator and name. *)
Definition before (f : frame) (name : bytes) : bytes :=
  (if frame_empty f then [] else lit ", ") ++ (if frame_obj f then quoted name ++ lit ": " else []).

(** The content that open frames have written; a frame that has a child open is marked as
    started. *)
Fixpoint wrote (fs : list frame) (bs : list builder) (s : bytes) : Prop :=
  match fs, bs with
  | [], [] => s = []
  | f :: fs, b :: bs =>
      is_obj b = frame_obj f /\ started b = negb (frame_empty f)
      /\ (exists s0 s1, s = s0 ++ opening (frame_obj f) ++ s1 /\ body f s1
          /\ match fs, bs with
             | [], [] => s0 = []
             | g :: _, c :: bs' =>
                 started c = true /\ (frame_obj g = true -> string_text (frame_name f))
                 /\ exists s2, s0 = s2 ++ before g (frame_name f)
                      /\ wrote fs ({| is_obj := is_obj c; started := negb (frame_empty g) |} :: bs') s2
             | _, _ => False
             end)
  | _, _ => False
  end.

Definition grow (f : frame) (name : bytes) (t : json) : frame :=
  match f with FObj n l => FObj n (l ++ [(name, t)]) | FArr n l => FArr n (l ++ [t]) end.

Lemma join_snoc parts p : parts <> [] -> join (parts ++ [p]) = join parts ++ lit "," ++ p.
Proof.
  induction parts as [|x parts IH]; [done|]. intros _. destruct parts as [|y parts]; [done|].
  change (join ((x :: y :: parts) ++ [p])) with (x ++ lit "," ++ join ((y :: parts) ++ [p])).
  rewrite IH by done. change (join (x :: y :: parts)) with (x ++ lit "," ++ join (y :: parts)). by rewrite <- !app_assoc.
Qed.

(** One more part, behind its separator. *)
Lemma join_grow {A} (P : A -> bytes -> Prop) l parts a x :
  Forall2 P l parts -> P a x -> P a (32 :: x) ->
  exists parts', Forall2 P (l ++ [a]) parts'
    /\ join parts' = join parts ++ (if bool_decide (l = []) then [] else lit ", ") ++ x.
Proof.
  intros HF H1 H2. destruct l as [|b l].
  - inversion HF; subst. exists [x]. split; [by repeat constructor|done].
  - exists (parts ++ [32 :: x]). split; [apply Forall2_app; [done|by repeat constructor]|].
    rewrite join_snoc by (intros ->; inversion HF). by rewrite bool_decide_eq_false_2.
Qed.

Lemma body_grow f name t s vt :
  body f s -> text t vt -> (frame_obj f = true -> string_text name) ->
  body (grow f name t) (s ++ before f name ++ vt).
Proof.
  intros Hb Ht Hn. destruct f as [n l|n l]; cbn [body grow before frame_obj frame_empty] in *; destruct Hb as (parts & -> & HF).
  - assert (forall w, white w -> member (name, t) (w ++ quoted name ++ lit ": " ++ vt)) as Hm.
    { intros w Hw. exists w, [], [32], vt, []. cbn [fst snd]. rewrite app_nil_r.
      split_and!; [done|done|constructor|apply white_one; auto|constructor|by apply Hn|done]. }
    destruct (join_grow member l parts (name, t) (quoted name ++ lit ": " ++ vt) HF) as (parts' & HF' & E);
      [apply (Hm []); constructor|apply (Hm [32]), white_one; auto|].
    exists parts'. split; [|done]. rewrite E. unfold before. cbn [frame_obj frame_empty]. destruct l; cbn [bool_decide]; rewrite <- ?app_assoc; done.
  - assert (forall w, white w -> item t (w ++ vt)) as Hm.
    { intros w Hw. exists w, vt, []. rewrite app_nil_r. split_and!; [done|done|constructor|done]. }
    destruct (join_grow item l parts t vt HF) as (parts' & HF' & E);
      [apply (Hm []); constructor|apply (Hm [32]), white_one; auto|].
    exists parts'. split; [|done]. rewrite E. unfold before. cbn [frame_obj frame_empty]. rewrite app_nil_r. by destruct l.
Qed.

Lemma grow_frame f name t :
  frame_obj (grow f name t) = frame_obj f /\ frame_name (grow f name t) = frame_name f /\ frame_empty (grow f name t) = false.
Proof. destruct f as [n [|]|n [|]]; done. Qed.

(** A value that is written into the innermost frame. *)
Lemma wrote_grow f fs b bs s name t vt :
  wrote (f :: fs) (b :: bs) s -> text t vt -> (frame_obj f = true -> string_text name) ->
  wrote (grow f name t :: fs) ({| is_obj := is_obj b; started := true |} :: bs) (s ++ before f name ++ vt).
Proof.
  intros (H1 & H2 & s0 & s1 & -> & Hb & Hrest) Ht Hn. destruct (grow_frame f name t) as (G1 & G2 & G3).
  cbn [wrote is_obj started]. rewrite G1, G2, G3. split_and!; [done|done|]. exists s0, (s1 ++ before f name ++ vt).
  split_and!; [by rewrite <- !app_assoc|by apply body_grow|]. destruct fs as [|g fs], bs as [|c bs]; done.
Qed.

(** A frame that is opened in another one. *)
Lemma wrote_open f g fs b bs s :
  wrote (g :: fs) (b :: bs) s -> frame_empty f = true -> (frame_obj g = true -> string_text (frame_name f)) ->
  wrote (f :: g :: fs) (opened (frame_obj f) :: {| is_obj := is_obj b; started := true |} :: bs)
    (s ++ before g (frame_name f) ++ opening (frame_obj f)).
Proof.
  intros Hw He Hn. cbn [wrote is_obj started opened]. rewrite He. split_and!; [done|done|].
  exists (s ++ before g (frame_name f)), []. split_and!; [by rewrite app_nil_r, <- app_assoc| |done|done|].
  - destruct f as [n [|]|n [|]]; try discriminate He; exists []; (split; [done|constructor]).
  - exists s. split; [done|]. destruct Hw as (W1 & _ & W3). cbn [is_obj started]. split; [exact W1|]. split; [done|exact W3].
Qed.

(** The text of a frame that is closed. *)
Lemma body_closed f s1 : body f s1 ->
  text (match f with FObj _ l => JObj l | FArr _ l => JArr l end)
       (opening (frame_obj f) ++ s1 ++ (if frame_obj f then lit "}" else lit "]")).
Proof.
  destruct f as [n l|n l]; intros (parts & -> & HF); [apply text_obj|apply text_arr]; exists [], parts;
    (split_and!; [done|constructor|done]).
Qed.

(** The states of a chain and of its tree. *)
Definition matches (s : state) (ts : tree_state) : Prop :=
  match ts with
  | (fs, None) => wrote fs (up s) (content s)
  | (fs, Some t) => fs = [] /\ up s = [] /\ text t (content s)
  end.

Lemma wrote_close f fs b bs s :
  wrote (f :: fs) (b :: bs) s ->
  matches {| content := s ++ (if frame_obj f then lit "}" else lit "]"); up := bs |}
    (attach (frame_name f) (match f with FObj _ l => JObj l | FArr _ l => JArr l end) fs).
Proof.
  intros (H1 & H2 & s0 & s1 & -> & Hb & Hrest). pose proof (body_closed f s1 Hb) as Ht.
  destruct fs as [|g fs], bs as [|c bs]; try done.
  - subst s0. cbn [attach matches up content]. split_and!; [done|done|]. cbn [app]. by rewrite <- app_assoc.
  - destruct Hrest as (Hc & Hn & s2 & -> & Hw).
    pose proof (wrote_grow g fs _ bs s2 (frame_name f) _ _ Hw Ht Hn) as Hg. cbn [is_obj] in Hg.
    assert ({| is_obj := is_obj c; started := true |} = c) as Ec by (destruct c; cbn in *; by subst). rewrite Ec in Hg.
    rewrite <- !app_assoc in *. by destruct g.
Qed.

Lemma write_frame s f fs t inner :
  wrote (f :: fs) (up s) (content s) ->
  exists b bs, up s = b :: bs
    /\ write s (frame_obj f) t inner
       = Some {| content := content s ++ (if frame_empty f then [] else lit ", ") ++ t;
                 up := inner ++ {| is_obj := is_obj b; started := true |} :: bs |}.
Proof.
  intros Hw. unfold write. destruct (up s) as [|b bs] eqn:Eu; [done|]. exists b, bs. split; [done|].
  destruct Hw as (H1 & H2 & _). replace (eqb (is_obj b) (frame_obj f)) with true by (rewrite H1; by destruct (frame_obj f)).
  unfold encomma. rewrite H2. by destruct (frame_empty f).
Qed.

(** A value and a builder that are written where the frame allows it. *)
Lemma write_value s f fs t vt name :
  wrote (f :: fs) (up s) (content s) -> text t vt -> (frame_obj f = true -> string_text name) ->
  exists s', write s (frame_obj f) ((if frame_obj f then quoted name ++ lit ": " else []) ++ vt) [] = Some s'
    /\ matches s' (attach name t (f :: fs)).
Proof.
  intros Hw Ht Hn. destruct (write_frame s f fs ((if frame_obj f then quoted name ++ lit ": " else []) ++ vt) [] Hw)
    as (b & bs & Eu & ->). eexists. split; [done|]. rewrite Eu in Hw.
  pose proof (wrote_grow f fs b bs _ name t vt Hw Ht Hn) as Hg. unfold before in Hg. rewrite <- !app_assoc in Hg.
  by destruct f.
Qed.

Lemma write_builder s f g fs :
  wrote (g :: fs) (up s) (content s) -> frame_empty f = true -> (frame_obj g = true -> string_text (frame_name f)) ->
  exists s', write s (frame_obj g) ((if frame_obj g then quoted (frame_name f) ++ lit ": " else []) ++ opening (frame_obj f))
               [opened (frame_obj f)] = Some s'
    /\ matches s' (f :: g :: fs, None).
Proof.
  intros Hw He Hn.
  destruct (write_frame s g fs ((if frame_obj g then quoted (frame_name f) ++ lit ": " else []) ++ opening (frame_obj f))
    [opened (frame_obj f)] Hw) as (b & bs & Eu & ->). eexists. split; [done|]. rewrite Eu in Hw.
  pose proof (wrote_open f g fs b bs _ Hw He Hn) as Hg. unfold before in Hg. rewrite <- !app_assoc in Hg. exact Hg.
Qed.

Lemma close_frame s f fs :
  wrote (f :: fs) (up s) (content s) ->
  exists s', close s (frame_obj f) = Some s'
    /\ matches s' (attach (frame_name f) (match f with FObj _ l => JObj l | FArr _ l => JArr l end) fs).
Proof.
  intros Hw. unfold close. destruct (up s) as [|b bs] eqn:Eu; [done|]. pose proof Hw as (H1 & _).
  rewrite H1, eqb_reflx. eexists. split; [done|]. by apply (wrote_close f fs b bs).
Qed.

(** One call keeps the content a text of the tree. *)
Lemma step_matches s ts ts' c c' :
  matches s ts -> same_call c c' -> tree_step ts c' = Some ts' -> exists s', step s c = Some s' /\ matches s' ts'.
Proof.
  intros Hm Hc Ht. destruct ts as [fs [t0|]].
  { destruct Hm as (-> & _). destruct Hc; discriminate Ht. }
  cbn [matches] in Hm.
  destruct Hc as [| |name v t Hn (vt & Hs & Hv)|name Hn|name Hn| |v t (vt & Hs & Hv)| | |]; cbn [tree_step] in Ht;
    destruct fs as [|[n l|n l] fs]; try discriminate Ht; cbn [step]; try (rewrite Hs; cbn [ok mbind option_bind]).
  - injection Ht as <-. unfold start. cbn [wrote] in Hm. destruct (up s); [|done]. rewrite Hm. eexists. split; [done|].
    cbn. split_and!; [done|done|]. exists [], []. split_and!; [done|by exists []; split; [|constructor]|done].
  - injection Ht as <-. unfold start. cbn [wrote] in Hm. destruct (up s); [|done]. rewrite Hm. eexists. split; [done|].
    cbn. split_and!; [done|done|]. exists [], []. split_and!; [done|by exists []; split; [|constructor]|done].
  - injection Ht as <-. unfold name_text. rewrite <- app_assoc.
    destruct (write_value s (FObj n l) fs t vt (to_escaped name) Hm Hv) as (s' & E & Hm'); [intros _; by apply to_escaped_text|].
    cbn [frame_obj] in E. rewrite <- app_assoc in E. by exists s'.
  - injection Ht as <-. unfold name_text.
    by apply (write_builder s (FArr (to_escaped name) []) (FObj n l) fs Hm eq_refl (fun _ => to_escaped_text name Hn)).
  - injection Ht as <-. unfold name_text.
    by apply (write_builder s (FObj (to_escaped name) []) (FObj n l) fs Hm eq_refl (fun _ => to_escaped_text name Hn)).
  - injection Ht as <-. by apply (close_frame s (FObj n l) fs).
  - injection Ht as <-. by apply (write_value s (FArr n l) fs t vt [] Hm Hv).
  - injection Ht as <-. by apply (write_builder s (FArr [] []) (FArr n l) fs Hm eq_refl).
  - injection Ht as <-. by apply (write_builder s (FObj [] []) (FArr n l) fs Hm eq_refl).
  - injection Ht as <-. by apply (close_frame s (FArr n l) fs).
Qed.

Lemma run_matches cs cs' : Forall2 same_call cs cs' -> forall s ts ts',
  matches s ts -> tree_run ts cs' = Some ts' -> exists s', run s cs = Some s' /\ matches s' ts'.
Proof.
  induction 1 as [|c c' cs cs' Hc _ IH]; intros s ts ts' Hm; cbn [tree_run run]; [intros [= <-]; by exists s|].
  destruct (tree_step ts c') as [ts1|] eqn:Et; [|done]. cbn [mbind option_bind]. intros Ht.
  destruct (step_matches s ts ts1 c c' Hm Hc Et) as (s1 & -> & Hm1). cbn [mbind option_bind]. by apply (IH s1 ts1).
Qed.

Lemma int_primitive z : primitive (int_text z).
Proof.
  do 3 right. unfold int_text. destruct (Z.ltb_spec z 0).
  - exists (lit "-"), (dec (- z)), [], []. split_and!; [by rewrite !app_nil_r|by right|apply dec_int_part; lia|by left|by left].
  - exists [], (dec z), [], []. split_and!; [by rewrite !app_nil_r|by left|apply dec_int_part; lia|by left|by left].
Qed.

(** A NaN or an infinity is not written as a JSON text. *)
Lemma nonfinite_not_json d t : (forall q, d <> Fin q) -> ~ denotes (VDouble d) t.
Proof.
  intros Hd (s & Hs & Ht). cbn [serialize] in Hs. assert (s = Float.from_double d) as -> by congruence.
  exact (Float.nonfinite_text t _ (Float.put_nonfinite d Hd) Ht).
Qed.

Lemma out_spec cs cs' t rest :
  Forall2 same_call cs cs' -> tree_run ([], None) cs' = Some ([], Some t) -> 1 + depth t < 2 ^ 32 ->
  exists s, run make cs = Some {| content := s; up := [] |} /\ text t s
    /\ scan Datum_init (s ++ rest) = Some (s, rest, Datum_init).
Proof.
  intros HF Ht Hd. destruct (run_matches _ _ HF make ([], None) ([], Some t)) as ([s u] & Hr & _ & Hu & Htx); [done|done|].
  cbn in Hu, Htx. subst u. exists s. split_and!; [done|done|]. apply (scan_text t); [|done|done].
  assert (forall cs' ts, match ts.2 with Some (JPrim _ | JStr _) => False | _ => True end ->
    match ts with (_ :: _, Some _) => False | _ => True end ->
    forall fs u, tree_run ts cs' = Some (fs, Some u) -> match u with JArr _ | JObj _ => True | _ => False end) as Hkind; [|].
  { clear. induction cs' as [|c cs' IH]; intros [fs o] H1 H2 fs' u; cbn [tree_run].
    - intros [= -> ->]. by destruct u.
    - destruct (tree_step (fs, o) c) as [[fs1 o1]|] eqn:Es; [|done]. cbn [mbind option_bind]. apply IH.
      + destruct c, fs as [|[? ?|? ?] [|[? ?|? ?] fs]], o; cbn in Es; try discriminate Es; injection Es as <- <-; done.
      + destruct c, fs as [|[? ?|? ?] [|[? ?|? ?] fs]], o; cbn in Es; try discriminate Es; injection Es as <- <-; done. }
  by eapply (Hkind cs' ([], None)).
Qed.

(** *** Properties *)

(** C23: the builder.  A chain of calls that describes a tree of an object or an array, and whose
    values are written as texts themselves, writes a text of that tree, in the grammar of
    JSON, and a reader finds its end whatever follows.  Integers, finite doubles, booleans,
    strings, null and the printed trees of accepted texts are written as texts
    ([values_are_json]); a NaN or an infinity is not ([nonfinite_not_json]). *)
Theorem out_writes_json cs cs' t rest :
  Forall2 same_call cs cs' -> tree_run ([], None) cs' = Some ([], Some t) -> 1 + depth t < 2 ^ 32 ->
  exists s, run make cs = Some {| content := s; up := [] |} /\ text t s
    /\ scan Datum_init (s ++ rest) = Some (s, rest, Datum_init).
Proof. apply out_spec. Qed.

(** The values that are written are texts: integers, finite doubles, booleans, strings, null,
    and printed objects. *)
Theorem values_are_json v :
  match v with
  | VInt z => denotes v (JPrim (int_text z))
  | VDouble (Fin q) => denotes v (JPrim (Float.from_double (Fin q)))
  | VDouble _ => forall t, ~ denotes v t
  | VBool b => denotes v (JPrim (if b then lit "true" else lit "false"))
  | VString s => bytes_ok s -> denotes v (JStr (to_escaped s))
  | VNull => denotes v (JPrim (lit "null"))
  | VOut c => forall t, text t c -> denotes v t
  | VObject (Some t) => proper t -> readable t -> exists t', printed (fuel_for (Some t)) (Some t) = Ok t' /\ denotes v t'
  | VObject None => denotes v (JPrim (lit "null"))
  end.
Proof.
  destruct v as [z|d|b|s| |c|[t|]].
  - eexists. split; [done|]. split; [done|apply int_primitive].
  - destruct d as [q|b|].
    + eexists. split; [done|]. split; [done|]. do 3 right. apply Float.from_double_number.
    + intros t. by apply nonfinite_not_json.
    + intros t. by apply nonfinite_not_json.
  - eexists. split; [done|]. split; [done|]. destruct b; [by left|right; by left].
  - intros Hs. eexists. split; [done|]. split; [done|by apply to_escaped_text].
  - eexists. split; [done|apply null_text].
  - intros t Ht. by exists c.
  - intros Hp Hr. destruct (print_is_json t [] Hp Hr) as (s & t' & H1 & H2 & H3 & _). exists t'. split; [done|]. by exists s.
  - eexists. split; [done|apply null_text].
Qed.

(** *** Witnesses *)

(** The double next to 0.1. *)
Definition demo_tenth : double := Fin (3602879701896397 # 36028797018963968).

Definition demo_calls : list (call value) :=
  [StartObject; Field (lit "id") (VInt (-7)); FieldArray (lit "tags"); Entry (VString (lit "x")); Entry (VDouble demo_tenth);
   EndArray; EndObject].

Definition demo_tree_calls : list (call json) :=
  [StartObject; Field (lit "id") (JPrim (lit "-7")); FieldArray (lit "tags"); Entry (JStr (lit "x")); Entry (JPrim (lit "0.1"));
   EndArray; EndObject].

Definition demo_tree : json :=
  JObj [(lit "id", JPrim (lit "-7")); (lit "tags", JArr [JStr (lit "x"); JPrim (lit "0.1")])].

Lemma demo_bytes : bytes_ok (lit "id") /\ bytes_ok (lit "tags") /\ bytes_ok (lit "x").
Proof. split_and!; apply (bool_decide_unpack _); vm_compute; exact I. Qed.

Lemma demo_same : Forall2 same_call demo_calls demo_tree_calls.
Proof.
  destruct demo_bytes as (B1 & B2 & B3).
  constructor; [constructor|]. constructor; [apply same_field; [exact B1|exact (values_are_json (VInt (-7)))]|].
  constructor; [apply same_field_array; exact B2|].
  constructor; [apply same_entry; exact (values_are_json (VString (lit "x")) B3)|].
  constructor; [apply same_entry|by repeat constructor].
  assert (Float.from_double demo_tenth = lit "0.1") as <- by (vm_compute; reflexivity).
  exact (values_are_json (VDouble demo_tenth)).
Qed.

Lemma out_writes_json_witness :
  option_map content (run make demo_calls)
  = Some ([123; 34; 105; 100; 34; 58; 32; 45; 55; 44; 32; 34; 116; 97; 103; 115; 34; 58; 32; 91; 34; 120; 34; 44; 32; 48; 46; 49; 93; 125])
  /\ exists s, run make demo_calls = Some {| content := s; up := [] |} /\ text demo_tree s.
Proof.
  split; [vm_compute; reflexivity|].
  destruct (out_writes_json demo_calls demo_tree_calls demo_tree [] demo_same) as (s & H1 & H2 & _);
    [vm_compute; reflexivity|vm_compute; reflexivity|].
  exists s. split; [exact H1|exact H2].
Defined.

Lemma print_is_json_witness : exists s t', put (Some demo_tree) = Ok s /\ text t' s.
Proof.
  destruct demo_bytes as (B1 & B2 & B3).
  destruct (print_is_json demo_tree []) as (s & t' & H1 & _ & H3 & _).
  - cbn [demo_tree proper]. split_and!; try done; [exact (int_primitive (-7))|].
    do 3 right. exists [], (lit "0"), (lit ".1"), []. split_and!; [done|by left|split; [split; [done|repeat constructor]|done]| |by left].
    right. exists (lit "1"). split; [done|]. split; [done|repeat constructor].
  - cbn [demo_tree readable]. split_and!; try done; eexists; vm_compute; reflexivity.
  - exists s, t'. split; [exact H1|exact H3].
Defined.

End Out.
