(* ===== verification/JsonParser.v ===== *)
(** * Reading JSON from a stream (src/Jsmn/ParserExposedBuffer.cpp, src/Jsmn/Parser.hpp)

    The bytes that arrive from the node are put to a buffer in pieces of any size.  The
    identifier of [Jsmn] finds where a datum ends, and only then the tokenizer runs.  The
    tokenizer (src/external/jsmn) is a parameter: its state, the position that it reached,
    and its answer for a text and a number of tokens. *)

From stdpp Require Import base list numbers strings.
From S2P Require Import Prelude.
From S2P Require Import Jsmn.
From S2P Require Import JsonText.
Import Jsmn.
Import Text.

#[local] Open Scope Z_scope.

Module Parser.

(** The answers of [jsmn_parse]: tokens, nothing but white space, not enough room for the
    tokens, an invalid character, an incomplete text. *)
Inductive jsmn_result := Tokens (l : list Token) | Blank | NoMem | Inval | Part.

Section Buffer.

Context {P : Type} (jsmn_init : P) (pos : P -> nat) (jsmn_parse : P -> bytes -> nat -> P * jsmn_result).

(** [room] is the size of the token vector. *)
Record Impl := {
  buffer : bytes; start_idx : nat; end_idx : nat; load_idx : nat; base : P; room : nat; datum_ender : Datum
}.

Definition make : Impl :=
  {| buffer := []; start_idx := 0; end_idx := 0; load_idx := 0; base := jsmn_init; room := 4; datum_ender := Datum_init |}.

(** The callback writes [data], of at most [reserve] bytes. *)
Definition load_buffer (s : Impl) (reserve : nat) (data : bytes) : Impl :=
  let size := length (buffer s) in
  let resized := if (size <? load_idx s + reserve)%nat then buffer s ++ replicate (load_idx s + reserve - size) 0 else buffer s in
  {| buffer := take (load_idx s) resized ++ data ++ drop (load_idx s + length data) resized;
     start_idx := start_idx s; end_idx := end_idx s; load_idx := load_idx s + length data;
     base := base s; room := room s; datum_ender := datum_ender s |}.

Definition can_parse_buffer (s : Impl) : bool := negb (end_idx s =? load_idx s)%nat.

(** The bytes from [b] to [e]. *)
Definition slice (s : Impl) (b e : nat) : bytes := take (e - b) (drop b (buffer s)).

(** The loop that looks for the end of a datum: whether it was found, the bytes that were
    fed, and the identifier. *)
Fixpoint advance (d : Datum) (s : bytes) : bool * nat * Datum :=
  match s with
  | [] => (false, 0%nat, d)
  | c :: s =>
      let '(b, d) := feed d c in
      if (b : bool) then (true, 1%nat, d)
      else let '(found, n, d) := advance d s in (found, S n, d)
  end.

Inductive parsed := Null | Datum_ (o : ParseResult) | ParseError | Assertion.

Definition restart (s : Impl) (p : P) : Impl :=
  {| buffer := buffer s; start_idx := start_idx s + pos p; end_idx := end_idx s; load_idx := load_idx s;
     base := jsmn_init; room := room s; datum_ender := datum_ender s |}.

Definition keep (s : Impl) (p : P) (n : nat) : Impl :=
  {| buffer := buffer s; start_idx := start_idx s; end_idx := end_idx s; load_idx := load_idx s;
     base := p; room := n; datum_ender := datum_ender s |}.

(** The loop around the tokenizer, which makes more room for tokens; [None] when the fuel
    is used up. *)
Fixpoint tokenize (fuel : nat) (s : Impl) : option (parsed * Impl) :=
  match fuel with
  | O => None
  | S fuel =>
      if (start_idx s =? end_idx s)%nat then Some (Null, s)
      else
        let text := slice s (start_idx s) (end_idx s) in
        let '(p, r) := jsmn_parse (base s) text (room s) in
        match r with
        | Tokens l =>
            if (end_idx s <? pos p + start_idx s)%nat then Some (Assertion, s)
            else Some (Datum_ {| orig_string := take (pos p) text; tokens := l |}, restart s p)
        | Blank =>
            if (end_idx s <? pos p + start_idx s)%nat || can_parse_buffer s then Some (Assertion, s)
            else Some (Null, restart s p)
        | NoMem => tokenize fuel (keep s p (room s * 2 + 1))
        | Inval => Some (ParseError, s)
        | Part => if can_parse_buffer s then Some (Assertion, s) else Some (Null, keep s p (room s))
        end
  end.

Definition fed (s : Impl) (n : nat) (d : Datum) : Impl :=
  {| buffer := buffer s; start_idx := start_idx s; end_idx := end_idx s + n; load_idx := load_idx s;
     base := base s; room := room s; datum_ender := d |}.

(** A text of [n] bytes has at most [n] tokens. *)
Definition try_parse (s : Impl) : option (parsed * Impl) :=
  if (end_idx s <? load_idx s)%nat then
    let '(found, n, d) := advance (datum_ender s) (slice s (end_idx s) (load_idx s)) in
    let s := fed s n d in
    if (found : bool) then tokenize (S (S (end_idx s - start_idx s))) s else Some (Null, s)
  else tokenize (S (S (end_idx s - start_idx s))) s.

Definition move_loaded (s : Impl) : Impl :=
  if (start_idx s <? load_idx s - start_idx s)%nat then s
  else
    {| buffer := slice s (start_idx s) (load_idx s) ++ drop (load_idx s - start_idx s) (buffer s);
       start_idx := 0; end_idx := end_idx s - start_idx s; load_idx := load_idx s - start_idx s;
       base := base s; room := room s; datum_ender := datum_ender s |}.

(** The data in the buffer; [None] stands for an exception or a failed assertion. *)
Fixpoint parse_all (fuel : nat) (s : Impl) : option (list ParseResult * Impl) :=
  match fuel with
  | O => None
  | S fuel =>
      '(r, s) ← try_parse s;
      match r with
      | Null => if can_parse_buffer s then None else Some ([], move_loaded s)
      | Datum_ o => '(l, s) ← parse_all fuel s; Some (o :: l, s)
      | ParseError | Assertion => None
      end
  end.

Definition parse_buffer (s : Impl) : option (list ParseResult * Impl) :=
  if negb (can_parse_buffer s) then Some ([], s) else parse_all (S (load_idx s - end_idx s)) s.

(** [Jsmn::Parser::feed] *)
Definition feed_text (s : Impl) (data : bytes) : option (list ParseResult * Impl) :=
  parse_buffer (load_buffer s (length data) data).

Fixpoint feed_all (s : Impl) (chunks : list bytes) : option (list ParseResult * Impl) :=
  match chunks with
  | [] => Some ([], s)
  | c :: chunks =>
      '(l, s) ← feed_text s c;
      '(l', s) ← feed_all s chunks;
      Some (l ++ l', s)
  end.

(** ** Lemmas *)

(** The data of a stream as the identifier cuts it: [pend] was fed before.  The result is
    the data, the rest, and the identifier. *)
Fixpoint cut (d : Datum) (pend s : bytes) : list bytes * bytes * Datum :=
  match s with
  | [] => ([], pend, d)
  | c :: s =>
      let '(b, d) := feed d c in
      if (b : bool) then let '(l, p, d) := cut d [] s in ((pend ++ [c]) :: l, p, d)
      else cut d (pend ++ [c]) s
  end.

Lemma cut_app d pend s1 s2 :
  cut d pend (s1 ++ s2)
  = let '(l1, p1, d1) := cut d pend s1 in let '(l2, p2, d2) := cut d1 p1 s2 in (l1 ++ l2, p2, d2).
Proof.
  revert d pend. induction s1 as [|c s1 IH]; intros d pend; cbn [cut app].
  - by destruct (cut d pend s2) as [[l2 p2] d2].
  - destruct (feed d c) as [[] d']; rewrite IH.
    + destruct (cut d' [] s1) as [[l1 p1] d1]. by destruct (cut d1 p1 s2) as [[l2 p2] d2].
    + done.
Qed.

(** One search for the end of a datum, against the cut. *)
Lemma advance_cut s : forall d pend found n d',
  advance d s = (found, n, d') ->
  (n <= length s)%nat
  /\ if found then (0 < n)%nat /\ cut d pend s = (let '(l, p, e) := cut d' [] (drop n s) in ((pend ++ take n s) :: l, p, e))
     else n = length s /\ cut d pend s = ([], pend ++ s, d').
Proof.
  induction s as [|c s IH]; intros d pend found n d'; cbn [advance cut].
  - intros [= <- <- <-]. split; [done|]. by rewrite app_nil_r.
  - destruct (feed d c) as [b d1]. destruct b.
    + intros [= <- <- <-]. split; [simpl; lia|]. split; [lia|]. cbn [drop take]. done.
    + destruct (advance d1 s) as [[f m] d2] eqn:Ea. intros [= <- <- <-].
      destruct (IH d1 (pend ++ [c]) f m d2 Ea) as (HL & Hf). split; [simpl; lia|]. destruct f.
      * destruct Hf as [Hm ->]. split; [lia|]. cbn [drop take]. destruct (cut d2 [] (drop m s)) as [[l p] e].
        by rewrite <- app_assoc.
      * destruct Hf as [-> ->]. split; [done|]. by rewrite <- app_assoc.
Qed.

(** The tokenizer reads the text [f] as the tokens [l], as soon as there is room, and may be
    called again after it ran out of room. *)
Definition reads (f : bytes) (l : list Token) : Prop :=
  exists (Q : P -> Prop) (need : nat), Q jsmn_init /\ (need <= length f)%nat
    /\ forall p n, Q p ->
         if (n <? need)%nat then exists p', jsmn_parse p f n = (p', NoMem) /\ Q p'
         else exists p', jsmn_parse p f n = (p', Tokens l) /\ pos p' = length f.

(** The buffer holds [pend] as the bytes that were fed and not parsed, and [rest] as those
    that were not fed. *)
Record holds (s : Impl) (pend rest : bytes) (d : Datum) : Prop := {
  h_size : (load_idx s <= length (buffer s))%nat;
  h_start : (start_idx s <= end_idx s)%nat;
  h_end : (end_idx s <= load_idx s)%nat;
  h_pend : slice s (start_idx s) (end_idx s) = pend;
  h_rest : slice s (end_idx s) (load_idx s) = rest;
  h_base : base s = jsmn_init;
  h_room : (0 < room s)%nat;
  h_datum : datum_ender s = d
}.

Lemma slice_length s b e : (b <= e)%nat -> (e <= length (buffer s))%nat -> length (slice s b e) = (e - b)%nat.
Proof. intros H1 H2. unfold slice. rewrite length_take, length_drop. lia. Qed.

Lemma slice_app s a b c : (a <= b)%nat -> (b <= c)%nat -> slice s a c = slice s a b ++ slice s b c.
Proof.
  intros H1 H2. unfold slice. replace (drop b (buffer s)) with (drop (b - a) (drop a (buffer s))) by (rewrite drop_drop; f_equal; lia).
  rewrite take_take_drop. f_equal. lia.
Qed.

Lemma make_holds : holds make [] [] Datum_init.
Proof. split; cbn; try done; lia. Qed.

Lemma holds_len s pend rest d :
  holds s pend rest d -> length pend = (end_idx s - start_idx s)%nat /\ length rest = (load_idx s - end_idx s)%nat.
Proof. intros [H1 H2 H3 <- <- _ _ _]. split; apply slice_length; lia. Qed.

(** The loop around the tokenizer, from any state that it left behind when it ran out of
    room. *)
Lemma tokenize_reads f l (Q : P -> Prop) need :
  (forall p n, Q p -> if (n <? need)%nat then exists p', jsmn_parse p f n = (p', NoMem) /\ Q p'
     else exists p', jsmn_parse p f n = (p', Tokens l) /\ pos p' = length f) ->
  forall fuel s, Q (base s) -> (need < fuel + room s)%nat -> slice s (start_idx s) (end_idx s) = f ->
  (start_idx s < end_idx s)%nat -> length f = (end_idx s - start_idx s)%nat -> (0 < fuel)%nat ->
  exists s', tokenize fuel s = Some (Datum_ {| orig_string := f; tokens := l |}, s')
    /\ buffer s' = buffer s /\ start_idx s' = end_idx s /\ end_idx s' = end_idx s /\ load_idx s' = load_idx s
    /\ base s' = jsmn_init /\ (room s <= room s')%nat /\ datum_ender s' = datum_ender s.
Proof.
  intros HQ. induction fuel as [|fuel IH]; intros s Hb Hr Hf Hlt HL H0; [lia|]. cbn [tokenize].
  rewrite (proj2 (Nat.eqb_neq _ _)) by lia. rewrite Hf. specialize (HQ (base s) (room s) Hb) as Hp.
  destruct (Nat.ltb_spec (room s) need) as [L|L]; destruct Hp as (p' & -> & Hp).
  - destruct (IH (keep s p' (room s * 2 + 1))) as (s' & Es & Hs'); [exact Hp|cbn; lia|exact Hf|exact Hlt|exact HL|lia|].
    exists s'. split; [exact Es|]. cbn in Hs'. destruct Hs' as (? & ? & ? & ? & ? & ? & ?). split_and!; try done; lia.
  - rewrite (proj2 (Nat.ltb_ge _ _)) by lia. eexists. split; [by rewrite Hp, take_ge|]. cbn. split_and!; try done; lia.
Qed.

(** The next datum of the buffer, or none. *)
Lemma try_parse_spec s pend rest d found n d' :
  holds s pend rest d -> advance d rest = (found, n, d') -> rest <> [] ->
  if found then
    forall l, reads (pend ++ take n rest) l ->
    exists s', try_parse s = Some (Datum_ {| orig_string := pend ++ take n rest; tokens := l |}, s')
      /\ holds s' [] (drop n rest) d'
  else exists s', try_parse s = Some (Null, s') /\ holds s' (pend ++ rest) [] d'.
Proof.
  intros H Ha Hne. destruct (holds_len _ _ _ _ H) as [Lp Lr]. destruct H as [H1 H2 H3 H4 H5 H6 H7 H8].
  assert (0 < length rest)%nat as Hr by (destruct rest; [done|simpl; lia]).
  destruct (advance_cut rest d [] found n d' Ha) as [Hn Hf].
  assert (slice (fed s n d') (start_idx s) (end_idx s + n) = pend ++ take n rest) as Ef.
  { change (slice s (start_idx s) (end_idx s + n) = pend ++ take n rest). rewrite (slice_app s _ (end_idx s)) by lia.
    rewrite H4. f_equal. rewrite <- H5. unfold slice. rewrite take_take. f_equal. lia. }
  unfold try_parse. rewrite (proj2 (Nat.ltb_lt _ _)) by lia. rewrite H5, H8, Ha. destruct found.
  - destruct Hf as [Hn0 _]. intros l (Q & need & HQ0 & Hneed & HQ).
    destruct (tokenize_reads _ l Q need HQ (S (S (end_idx (fed s n d') - start_idx (fed s n d')))) (fed s n d'))
      as (s' & Es & E1 & E2 & E3 & E4 & E5 & E6 & E7).
    + cbn. by rewrite H6.
    + rewrite length_app, length_take in Hneed. cbn. lia.
    + exact Ef.
    + cbn. lia.
    + rewrite length_app, length_take. cbn. lia.
    + lia.
    + cbn in E1, E2, E3, E4, E6, E7. exists s'. split; [exact Es|]. split; rewrite ?E1, ?E2, ?E3, ?E4; try lia; try done.
      * unfold slice. by rewrite Nat.sub_diag.
      * rewrite <- H5. unfold slice. rewrite E1, skipn_firstn_comm, drop_drop. f_equal. lia.
  - destruct Hf as [-> _]. eexists. split; [done|]. rewrite Lr in *.
    split; cbn; try done; try lia.
    + etransitivity; [exact Ef|]. by rewrite take_ge by lia.
    + replace (end_idx s + (load_idx s - end_idx s))%nat with (load_idx s) by lia. unfold slice. by rewrite Nat.sub_diag.
Qed.

Lemma move_holds s pend d : holds s pend [] d -> holds (move_loaded s) pend [] d.
Proof.
  intros H. destruct (holds_len _ _ _ _ H) as [Lp Lr]. destruct H as [H1 H2 H3 H4 H5 H6 H7 H8]. cbn in Lr.
  unfold move_loaded. destruct (Nat.ltb_spec (start_idx s) (load_idx s - start_idx s)) as [L|L]; [by split|].
  assert (end_idx s = load_idx s) as Ee by lia. rewrite Ee in *.
  assert (length (slice s (start_idx s) (load_idx s)) = (load_idx s - start_idx s)%nat) as HL by (apply slice_length; lia).
  split; cbn [load_idx buffer start_idx end_idx base room datum_ender]; try done; try lia.
  - rewrite length_app, length_drop, HL. lia.
  - unfold slice at 1. cbn [buffer]. rewrite drop_0, Nat.sub_0_r, take_app_le, take_ge by lia. done.
  - unfold slice. by rewrite Nat.sub_diag.
Qed.

(** All data of the buffer, against the cut. *)
Lemma parse_all_spec (tok : bytes -> list Token) fuel : forall s pend rest d frames pend' d',
  holds s pend rest d -> (length rest < fuel)%nat -> (rest = [] -> pend = []) ->
  cut d pend rest = (frames, pend', d') -> Forall (fun f => reads f (tok f)) frames ->
  exists s', parse_all fuel s = Some (map (fun f => {| orig_string := f; tokens := tok f |}) frames, s') /\ holds s' pend' [] d'.
Proof.
  induction fuel as [|fuel IH]; intros s pend rest d frames pend' d' H HL Hnil Hc HF; [lia|]. cbn [parse_all].
  destruct (decide (rest = [])) as [->|Hne].
  - cbn in Hc. injection Hc as <- <- <-. rewrite (Hnil eq_refl) in *. destruct (holds_len _ _ _ _ H) as [Lp Lr]. cbn in Lp, Lr.
    pose proof H as [H1 H2 H3 H4 H5 H6 H7 H8]. unfold try_parse. rewrite (proj2 (Nat.ltb_ge _ _)) by lia.
    cbn [tokenize]. rewrite (proj2 (Nat.eqb_eq _ _)) by lia. cbn [mbind option_bind].
    unfold can_parse_buffer. rewrite (proj2 (Nat.eqb_eq _ _)) by lia. cbn [negb]. eexists. split; [done|]. by apply move_holds.
  - destruct (advance d rest) as [[found n] d1] eqn:Ea. pose proof (try_parse_spec _ _ _ _ _ _ _ H Ea Hne) as Ht.
    destruct (advance_cut rest d pend found n d1 Ea) as [Hn Hcut]. destruct found.
    + destruct Hcut as [Hn0 Ec]. rewrite Ec in Hc. destruct (cut d1 [] (drop n rest)) as [[l p] e] eqn:Er. injection Hc as <- <- <-.
      apply Forall_cons in HF as [Hf HF]. destruct (Ht _ Hf) as (s1 & -> & Hs1). cbn [mbind option_bind].
      destruct (IH s1 [] (drop n rest) d1 l p e Hs1) as (s' & -> & Hs'); [rewrite length_drop; lia|done|done|done|].
      exists s'. split; [done|done].
    + destruct Hcut as [-> Ec]. rewrite Ec in Hc. injection Hc as <- <- <-. destruct Ht as (s1 & -> & Hs1). cbn [mbind option_bind].
      destruct (holds_len _ _ _ _ Hs1) as [_ Lr]. cbn in Lr. pose proof Hs1 as [_ _ H3 _ _ _ _ _].
      unfold can_parse_buffer. rewrite (proj2 (Nat.eqb_eq _ _)) by lia. cbn [negb]. eexists. split; [done|]. by apply move_holds.
Qed.

Lemma load_holds s pend d data : holds s pend [] d -> holds (load_buffer s (length data) data) pend data d.
Proof.
  intros H. destruct (holds_len _ _ _ _ H) as [Lp Lr]. destruct H as [H1 H2 H3 H4 H5 H6 H7 H8]. cbn in Lr.
  unfold load_buffer. set (resized := if (_ <? _)%nat then _ else _).
  assert (take (load_idx s) resized = take (load_idx s) (buffer s) /\ (load_idx s + length data <= length resized)%nat) as [E1 E2].
  { unfold resized. destruct (Nat.ltb_spec (length (buffer s)) (load_idx s + length data)) as [L|L]; [|by split].
    split; [by apply take_app_le|]. rewrite length_app, length_replicate. lia. }
  assert (length (take (load_idx s) (buffer s)) = load_idx s) as E3 by (rewrite length_take; lia).
  rewrite E1. split; cbn [load_idx buffer start_idx end_idx base room datum_ender]; try done; try lia.
  - rewrite !length_app, length_drop, E3. lia.
  - rewrite <- H4. unfold slice. cbn [buffer]. rewrite drop_app_le by lia. rewrite take_app_le by (rewrite length_drop; lia).
    rewrite skipn_firstn_comm, take_take. f_equal. lia.
  - unfold slice. cbn [buffer]. replace (end_idx s) with (load_idx s) by lia. rewrite drop_app_length' by done.
    rewrite take_app_length' by lia. done.
Qed.

Lemma feed_text_spec (tok : bytes -> list Token) s pend d data frames pend' d' :
  holds s pend [] d -> cut d pend data = (frames, pend', d') -> Forall (fun f => reads f (tok f)) frames ->
  exists s', feed_text s data = Some (map (fun f => {| orig_string := f; tokens := tok f |}) frames, s') /\ holds s' pend' [] d'.
Proof.
  intros H Hc HF. pose proof (load_holds s pend d data H) as Hl. destruct (holds_len _ _ _ _ Hl) as [_ Lr].
  unfold feed_text, parse_buffer, can_parse_buffer. destruct (Nat.eqb_spec (end_idx (load_buffer s (length data) data))
    (load_idx (load_buffer s (length data) data))) as [E|E]; cbn [negb].
  - assert (data = []) as -> by (apply length_zero_iff_nil; lia). cbn in Hc. injection Hc as <- <- <-. by eexists.
  - eapply parse_all_spec; [exact Hl|lia| |exact Hc|exact HF]. intros ->. exfalso. pose proof Hl as [_ _ H3 _ _ _ _ _]. apply E. change (@length Z []) with 0%nat in *. lia.
Qed.

Lemma feed_all_spec (tok : bytes -> list Token) chunks : forall s pend d frames pend' d',
  holds s pend [] d -> cut d pend (concat chunks) = (frames, pend', d') -> Forall (fun f => reads f (tok f)) frames ->
  exists s', feed_all s chunks = Some (map (fun f => {| orig_string := f; tokens := tok f |}) frames, s') /\ holds s' pend' [] d'.
Proof.
  induction chunks as [|c chunks IH]; intros s pend d frames pend' d' H Hc HF; cbn [feed_all].
  - cbn in Hc. injection Hc as <- <- <-. by eexists.
  - cbn [concat] in Hc. rewrite cut_app in Hc. destruct (cut d pend c) as [[l1 p1] d1] eqn:E1.
    destruct (cut d1 p1 (concat chunks)) as [[l2 p2] d2] eqn:E2. injection Hc as <- <- <-. apply Forall_app in HF as [HF1 HF2].
    destruct (feed_text_spec tok s pend d c l1 p1 d1 H E1 HF1) as (s1 & -> & Hs1). cbn [mbind option_bind].
    destruct (IH s1 p1 d1 l2 p2 d2 Hs1 E2 HF2) as (s2 & -> & Hs2). cbn [mbind option_bind]. eexists. split; [by rewrite map_app|done].
Qed.

(** A datum of the stream. *)
Lemma scan_cut s : forall d pend x rest d',
  scan d s = Some (x, rest, d') -> cut d pend s = (let '(l, p, e) := cut d' [] rest in ((pend ++ x) :: l, p, e)).
Proof.
  induction s as [|c s IH]; intros d pend x rest d'; cbn [scan cut]; [done|]. destruct (feed d c) as [b d1]. destruct b.
  - intros [= <- <- <-]. done.
  - destruct (scan d1 s) as [[[x' r'] e']|] eqn:Es; [|done]. intros [= <- <- <-].
    rewrite (IH _ (pend ++ [c]) _ _ _ Es). destruct (cut e' [] r') as [[l p] e]. by rewrite <- app_assoc.
Qed.

Lemma quiet_white w : white w -> quiet Datum_init w = Some Datum_init.
Proof.
  induction 1 as [|c w Hc _ IH]; [done|]. cbn [quiet].
  assert (feed Datum_init c = (false, Datum_init)) as -> by (destruct Hc as [->|[->|[->| ->]]]; done). done.
Qed.

Lemma cut_white w : forall pend, white w -> cut Datum_init pend w = ([], pend ++ w, Datum_init).
Proof.
  induction w as [|c w IH]; intros pend Hw; cbn [cut]; [by rewrite app_nil_r|]. apply Forall_cons in Hw as [Hc Hw].
  assert (feed Datum_init c = (false, Datum_init)) as -> by (destruct Hc as [->|[->|[->| ->]]]; done).
  rewrite IH by done. by rewrite <- app_assoc.
Qed.

(** A message: white space, and the text of an object or an array. *)
Definition message (m : bytes * json * bytes) : Prop :=
  white m.1.1 /\ match m.1.2 with JArr _ | JObj _ => True | _ => False end /\ text m.1.2 m.2 /\ 1 + depth m.1.2 < 2 ^ 32.

Definition message_text (m : bytes * json * bytes) : bytes := m.1.1 ++ m.2.

Lemma cut_messages ms w_end :
  Forall message ms -> white w_end ->
  cut Datum_init [] (concat (map message_text ms) ++ w_end) = (map message_text ms, w_end, Datum_init).
Proof.
  intros HF Hw. induction HF as [|[[w t] s] ms (H1 & H2 & H3 & H4) _ IH]; cbn [map concat]; [by rewrite app_nil_l, cut_white|].
  cbn [fst snd] in *. rewrite <- app_assoc. unfold message_text at 1. cbn [fst snd]. rewrite <- app_assoc.
  assert (scan Datum_init (w ++ s ++ concat (map message_text ms) ++ w_end)
          = Some (w ++ s, concat (map message_text ms) ++ w_end, Datum_init)) as Es.
  { rewrite (quiet_scan _ _ _ _ (quiet_white w H1)), (scan_text t) by done. done. }
  rewrite (scan_cut _ _ _ _ _ _ Es), IH. done.
Qed.

End Buffer.

(** ** Properties *)

(** C22: the parser of a stream.  However the bytes of a stream of messages are cut into pieces,
    the parser gives one datum for each message, in order, with the tokens of its text; it
    neither fails an assertion nor runs out of room, and it keeps only the white space after
    the last message. *)
Theorem stream_parsed {P} (jsmn_init : P) pos jsmn_parse (tok : bytes -> list Token) ms w_end chunks :
  Forall message ms -> white w_end ->
  Forall (fun m => reads jsmn_init pos jsmn_parse (message_text m) (tok (message_text m))) ms ->
  concat chunks = concat (map message_text ms) ++ w_end ->
  exists s, feed_all jsmn_init pos jsmn_parse (make jsmn_init) chunks
              = Some (map (fun m => {| orig_string := message_text m; tokens := tok (message_text m) |}) ms, s)
    /\ slice s (start_idx s) (load_idx s) = w_end.
Proof.
  intros HF Hw HR Hc.
  destruct (feed_all_spec jsmn_init pos jsmn_parse tok chunks _ [] Datum_init (map message_text ms) w_end Datum_init (make_holds jsmn_init)) as (s & E & Hs).
  - rewrite Hc. by apply cut_messages.
  - by apply Forall_map.
  - exists s. split; [by rewrite E, map_map|]. destruct (holds_len _ _ _ _ _ Hs) as [_ Lr]. cbn in Lr.
    pose proof Hs as [_ _ H3 H4 _ _ _ _]. rewrite <- H4. f_equal. lia.
Qed.

(** Pieces do not matter.  Two ways to cut the same stream give the same data, as long as the
    tokenizer reads each datum that the identifier finds. *)
Theorem chunks_irrelevant {P} (jsmn_init : P) pos jsmn_parse (tok : bytes -> list Token) chunks chunks' :
  concat chunks = concat chunks' ->
  Forall (fun f => reads jsmn_init pos jsmn_parse f (tok f)) (cut Datum_init [] (concat chunks)).1.1 ->
  option_map fst (feed_all jsmn_init pos jsmn_parse (make jsmn_init) chunks)
  = option_map fst (feed_all jsmn_init pos jsmn_parse (make jsmn_init) chunks')
  /\ is_Some (feed_all jsmn_init pos jsmn_parse (make jsmn_init) chunks).
Proof.
  intros Hc HR. destruct (cut Datum_init [] (concat chunks)) as [[frames p] d] eqn:E. cbn [fst] in HR.
  destruct (feed_all_spec jsmn_init pos jsmn_parse tok chunks _ _ _ _ _ _ (make_holds jsmn_init) E HR) as (s & -> & _).
  rewrite Hc in E.
  destruct (feed_all_spec jsmn_init pos jsmn_parse tok chunks' _ _ _ _ _ _ (make_holds jsmn_init) E HR) as (s' & -> & _).
  split; [done|by eexists].
Qed.

(** ** Witnesses *)

(** A stand-in for the tokenizer, which needs room for five tokens. *)
Definition demo_jsmn (p : nat) (f : bytes) (n : nat) : nat * jsmn_result :=
  if (n <? 5)%nat then (0%nat, NoMem) else (length f, Tokens [{| type := Object_; start := 0; end_ := length f; size := 0 |}]).

Definition demo_tok (f : bytes) : list Token := [{| type := Object_; start := 0; end_ := length f; size := 0 |}].

Definition demo_messages : list (bytes * json * bytes) :=
  [([], JObj [(lit "a", JPrim (lit "1"))], [123; 34; 97; 34; 58; 32; 49; 125]); (lit " ", JArr [], lit "[   ]")].

Lemma demo_messages_ok : Forall message demo_messages.
Proof.
  constructor; [|constructor; [|constructor]].
  - split_and!; [constructor|done| |vm_compute; reflexivity]. apply text_obj.
    exists [], [[34; 97; 34; 58; 32; 49]]. split_and!; [done|constructor|]. constructor; [|constructor].
    exists [], [], [32], (lit "1"), []. split_and!; [done|constructor|constructor|apply Forall_singleton; auto|constructor| |].
    + apply (to_escaped_text (lit "a")). apply (bool_decide_unpack _). vm_compute. exact I.
    + split; [done|]. exact (Out.int_primitive 1).
  - split_and!; [apply Forall_singleton; auto|done| |vm_compute; reflexivity]. apply text_arr.
    exists (lit "   "), []. split_and!; [done| |constructor]. by repeat (constructor; [left; reflexivity|]).
Qed.

Lemma demo_reads f : (5 <= length f)%nat -> reads 0%nat (fun p => p) demo_jsmn f (demo_tok f).
Proof.
  intros HL. exists (fun _ => True), 5%nat. split_and!; [done|done|]. intros p n _. unfold demo_jsmn, demo_tok.
  destruct (n <? 5)%nat; by eexists.
Qed.

Definition demo_chunks : list bytes := [[123; 34; 97]; [34; 58]; [32; 49; 125] ++ lit " [ "; lit "  ]"; [10]].

Lemma stream_parsed_witness :
  option_map (fun r => map (fun o => length (orig_string o)) r.1) (feed_all 0%nat (fun p => p) demo_jsmn (make 0%nat) demo_chunks) = Some [8%nat; 6%nat]
  /\ exists s, feed_all 0%nat (fun p => p) demo_jsmn (make 0%nat) demo_chunks
       = Some (map (fun m => {| orig_string := message_text m; tokens := demo_tok (message_text m) |}) demo_messages, s).
Proof.
  split; [vm_compute; reflexivity|].
  destruct (stream_parsed 0%nat (fun p => p) demo_jsmn demo_tok demo_messages [10] demo_chunks demo_messages_ok) as (s & H & _).
  - apply Forall_singleton. auto.
  - repeat constructor; apply demo_reads; vm_compute; lia.
  - vm_compute. reflexivity.
  - exists s. exact H.
Defined.

Lemma chunks_irrelevant_witness :
  option_map fst (feed_all 0%nat (fun p => p) demo_jsmn (make 0%nat) demo_chunks)
  = option_map fst (feed_all 0%nat (fun p => p) demo_jsmn (make 0%nat) [concat demo_chunks]).
Proof.
  apply (chunks_irrelevant 0%nat (fun p => p) demo_jsmn demo_tok demo_chunks [concat demo_chunks]).
  - vm_compute. reflexivity.
  - vm_compute cut. repeat constructor; apply demo_reads; vm_compute; lia.
Defined.

End Parser.
