(* ===== verification/Rpc.v ===== *)
(** * Commands to the node (src/Boss/Mod/Rpc.cpp)

    A command takes a slot of a semaphore, is written to the socket as a JSON object with a
    fresh number, and waits in a table until a response with its number arrives, or until
    the plugin shuts down.  The parts are those of [Green] (the semaphore), of [JsonText]
    (the request) and of [JsonParser] (the stream on both sides).

    Callers are numbered; the values of the semaphore are what the callers get. *)

From stdpp Require Import base list numbers strings gmap.
From S2P Require Import Prelude.
From S2P Require Import Jsmn.
From S2P Require Import Reply.
From S2P Require Import Green.
From S2P Require Import JsonText.
From S2P Require Import JsonParser.
Import Jsmn.
Import Reply.
Import Text.

#[local] Open Scope Z_scope.
#[local] Open Scope reply_scope.

Module Rpc.

(** ** The state *)

Definition max_concurrent_rpcs : nat := 100.

(** The exceptions that a caller can get: [RpcError] with the command and the error, or
    [Boss::Shutdown]. *)
Inductive failed := RpcError (command : bytes) (error : option json) | Shutdown.

Abbreviation result := (ending (option json) failed).

Record Pending := { command : bytes; owner : nat }.

(** [written] are the bytes that the socket took; [armed] tells whether [write_event] is
    set. *)
Record Impl := {
  is_shutting_down : bool; next_id : Z; pendings : gmap Z Pending; to_write : bytes; written : bytes; armed : bool
}.

Definition make : Impl :=
  {| is_shutting_down := false; next_id := 0; pendings := ∅; to_write := []; written := []; armed := false |}.

(** What callers get, in the order in which their functions are called. *)
Abbreviation answers := (list (nat * result)).

(** ** Operations *)

Definition shutdown (s : Impl) : Impl * answers :=
  ({| is_shutting_down := true; next_id := next_id s; pendings := ∅; to_write := to_write s; written := written s;
      armed := false |},
   (fun ip : Z * Pending => (owner ip.2, Failed Shutdown)) <$> map_to_list (pendings s)).

Definition string_to_u64 (t : bytes) : Z := ur_value (istream_uint UINT64_MAX t).

Definition erase (s : Impl) (id : Z) : Impl :=
  {| is_shutting_down := is_shutting_down s; next_id := next_id s; pendings := delete id (pendings s);
     to_write := to_write s; written := written s; armed := armed s |}.

Definition direct_text (o : option json) : bytes := match o with Some (JPrim t) => t | _ => [] end.

Definition process_response (s : Impl) (resp : json) : outcome (Impl * answers) :=
  if negb (jis_object (Some resp)) then inl (s, [])
  else
    let* h := has (Some resp) "id" in
    if negb h then inl (s, [])
    else
      let* id_j := get (Some resp) "id" in
      if negb (jis_number id_j) then inl (s, [])
      else
        let id := string_to_u64 (direct_text id_j) in
        match pendings s !! id with
        | None => inl (s, [])
        | Some p =>
            let* h := has (Some resp) "result" in
            if (h : bool) then let* r := get (Some resp) "result" in inl (erase s id, [(owner p, Passed r)])
            else
              let* h := has (Some resp) "error" in
              if (h : bool) then let* e := get (Some resp) "error" in inl (erase s id, [(owner p, Failed (RpcError (command p) e))])
              else inl (s, [])
        end.

Fixpoint on_read_parse (s : Impl) (responses : list json) : outcome (Impl * answers) :=
  match responses with
  | [] => inl (s, [])
  | r :: responses =>
      let* (s, a) := process_response s r in
      let* (s, b) := on_read_parse s responses in
      inl (s, a ++ b)
  end.

Definition chunk : nat := 512.

(** The socket takes [n] bytes of what it is offered. *)
Definition write_some (s : Impl) (n : nat) : Impl :=
  let size := Nat.min (length (to_write s)) chunk in
  let res := Nat.min n size in
  {| is_shutting_down := is_shutting_down s; next_id := next_id s; pendings := pendings s;
     to_write := drop res (to_write s); written := written s ++ take res (to_write s); armed := armed s |}.

(** The loop writes as long as the socket takes bytes, and then waits for it if bytes are
    left. *)
Definition on_write (s : Impl) (taken : list nat) : Impl :=
  let s := foldl write_some s taken in
  {| is_shutting_down := is_shutting_down s; next_id := next_id s; pendings := pendings s;
     to_write := to_write s; written := written s; armed := negb (bool_decide (to_write s = [])) |}.

Definition request_calls (id : Z) (cmd params : bytes) : list (Out.call Out.value) :=
  [Out.StartObject; Out.Field (lit "jsonrpc") (Out.VString (lit "2.0")); Out.Field (lit "id") (Out.VInt id);
   Out.Field (lit "method") (Out.VString cmd); Out.Field (lit "params") (Out.VOut params); Out.EndObject].

Definition request (id : Z) (cmd params : bytes) : bytes :=
  match Out.run Out.make (request_calls id cmd params) with Some s => Out.content s | None => [] end ++ [10; 10].

Definition core_command (s : Impl) (c : nat) (cmd params : bytes) (taken : list nat) : Impl * answers :=
  if is_shutting_down s then (s, [(c, Failed Shutdown)])
  else
    let id := next_id s in
    (on_write {| is_shutting_down := is_shutting_down s; next_id := u64 (id + 1);
                 pendings := <[id := {| command := cmd; owner := c |}]> (pendings s);
                 to_write := to_write s ++ request id cmd params; written := written s; armed := armed s |} taken, []).

(** ** The whole client *)

(** [called] are the callers that arrived, [issued] those whose command was sent or
    refused; [requests] are the requests that were queued, the number of each is its place; [answered] is what callers got from
    the table, and [released] what the semaphore gave back. *)
Record Client := {
  impl : Impl; sem : Semaphore.Sem nat (option json) failed; called : list nat; issued : list nat;
  requests : list (nat * bytes * bytes); answered : answers; released : answers
}.

Definition fresh : Client :=
  {| impl := make; sem := Semaphore.sem_make max_concurrent_rpcs; called := []; issued := []; requests := [];
     answered := []; released := [] |}.

Definition with_impl (s : Client) (i : Impl) (a : answers) : Client :=
  {| impl := i; sem := sem s; called := called s; issued := issued s; requests := requests s;
     answered := answered s ++ a; released := released s |}.

Definition issue (s : Client) (c : nat) (cmd params : bytes) (taken : list nat) : Client :=
  let '(i, a) := core_command (impl s) c cmd params taken in
  {| impl := i; sem := sem s; called := called s; issued := issued s ++ [c];
     requests := requests s ++ (if is_shutting_down (impl s) then [] else [(c, cmd, params)]);
     answered := answered s ++ a; released := released s |}.

Inductive step : Client -> Client -> Prop :=
  (** [Impl::command]: a new caller at the semaphore. *)
  | step_call s c : c ∉ called s ->
      step s {| impl := impl s; sem := Semaphore.sem_run (sem s) c; called := called s ++ [c]; issued := issued s;
                requests := requests s; answered := answered s; released := released s |}
  (** A caller that was let in sends its command. *)
  | step_issue s c cmd params taken : c ∈ Semaphore.running (sem s) -> c ∉ issued s ->
      step s (issue s c cmd params taken)
  | step_write s taken : step s (with_impl s (on_write (impl s) taken) [])
  | step_responses s rs i a : on_read_parse (impl s) rs = inl (i, a) -> step s (with_impl s i a)
  | step_shutdown s : step s (with_impl s (shutdown (impl s)).1 (shutdown (impl s)).2)
  (** A caller that got its answer leaves the semaphore. *)
  | step_release s c r sem' : (c, r) ∈ answered s -> c ∈ Semaphore.running (sem s) -> Semaphore.sem_done (sem s) c r = Some sem' ->
      step s {| impl := impl s; sem := sem'; called := called s; issued := issued s; requests := requests s;
                answered := answered s; released := released s ++ [(c, r)] |}.

Inductive reach : Client -> Prop :=
  | reach_fresh : reach fresh
  | reach_step s s' : reach s -> step s s' -> reach s'.

(** ** Lemmas: the table *)

Definition owners (m : gmap Z Pending) : list nat := (fun ip : Z * Pending => owner ip.2) <$> map_to_list m.

Lemma owners_insert m id p : m !! id = None -> owners (<[id := p]> m) ≡ₚ owner p :: owners m.
Proof. intros H. unfold owners. by rewrite map_to_list_insert. Qed.

Lemma owners_delete m id p : m !! id = Some p -> owners m ≡ₚ owner p :: owners (delete id m).
Proof. intros H. unfold owners. by rewrite <- (map_to_list_delete m id p H). Qed.

(** A response answers at most one caller, and forgets it. *)
Lemma process_owners s r i a :
  process_response s r = inl (i, a) -> owners (pendings s) ≡ₚ a.*1 ++ owners (pendings i)
  /\ is_shutting_down i = is_shutting_down s /\ next_id i = next_id s /\ to_write i = to_write s /\ written i = written s
  /\ (forall id, pendings i !! id <> None -> pendings i !! id = pendings s !! id).
Proof.
  unfold process_response, obind. destruct (negb (jis_object (Some r))); [intros [= <- <-]; done|].
  destruct (has (Some r) "id") as [[]|]; cbn; try done; [|intros [= <- <-]; done].
  destruct (get (Some r) "id") as [j|]; cbn; try done. destruct (negb (jis_number j)); [intros [= <- <-]; done|].
  set (id := string_to_u64 (direct_text j)). destruct (pendings s !! id) as [p|] eqn:Ep; [|intros [= <- <-]; done].
  assert (forall x, owners (pendings s) ≡ₚ [(owner p, x : result)].*1 ++ owners (pendings (erase s id))
     /\ (forall id', pendings (erase s id) !! id' <> None -> pendings (erase s id) !! id' = pendings s !! id')) as H.
  { intros x. split; [by apply owners_delete|]. intros id'. cbn. destruct (decide (id = id')) as [<-|Hn].
    - by rewrite lookup_delete_eq.
    - by rewrite lookup_delete_ne. }
  destruct (has (Some r) "result") as [[]|]; cbn; try done.
  - destruct (get (Some r) "result") as [x|]; cbn; try done. intros [= <- <-]. split_and!; try done; by apply (H (Passed x)).
  - destruct (has (Some r) "error") as [[]|]; cbn; try done; [|intros [= <- <-]; done].
    destruct (get (Some r) "error") as [x|]; cbn; try done. intros [= <- <-]. split_and!; try done; by apply (H (Failed (RpcError (command p) x))).
Qed.

Lemma responses_owners rs : forall s i a,
  on_read_parse s rs = inl (i, a) -> owners (pendings s) ≡ₚ a.*1 ++ owners (pendings i)
  /\ is_shutting_down i = is_shutting_down s /\ next_id i = next_id s /\ to_write i = to_write s /\ written i = written s
  /\ (forall id, pendings i !! id <> None -> pendings i !! id = pendings s !! id).
Proof.
  induction rs as [|r rs IH]; intros s i a; cbn [on_read_parse]; [intros [= <- <-]; done|].
  destruct (process_response s r) as [[s1 a1]|] eqn:E1; cbn [obind]; [|done].
  destruct (on_read_parse s1 rs) as [[s2 a2]|] eqn:E2; cbn [obind]; [|done]. intros [= <- <-].
  apply process_owners in E1 as (P1 & Q1 & R1 & S1 & T1 & U1). apply IH in E2 as (P2 & Q2 & R2 & S2 & T2 & U2).
  split_and!; [|congruence..|].
  - rewrite fmap_app, <- app_assoc, <- P2. done.
  - intros id Hid. rewrite U2 by done. apply U1. by rewrite <- U2.
Qed.

(** Writing moves bytes from the queue to the socket. *)
Lemma write_some_bytes s n :
  written (write_some s n) ++ to_write (write_some s n) = written s ++ to_write s
  /\ pendings (write_some s n) = pendings s /\ next_id (write_some s n) = next_id s
  /\ is_shutting_down (write_some s n) = is_shutting_down s.
Proof. split_and!; try done. cbn. by rewrite <- app_assoc, take_drop. Qed.

Lemma on_write_bytes s taken :
  written (on_write s taken) ++ to_write (on_write s taken) = written s ++ to_write s
  /\ pendings (on_write s taken) = pendings s /\ next_id (on_write s taken) = next_id s
  /\ is_shutting_down (on_write s taken) = is_shutting_down s.
Proof.
  unfold on_write. cbn. revert s. induction taken as [|n taken IH]; intros s; cbn [foldl]; [done|].
  destruct (IH (write_some s n)) as (H1 & H2 & H3 & H4). destruct (write_some_bytes s n) as (W1 & W2 & W3 & W4).
  split_and!; congruence.
Qed.

(** ** Lemmas: the client *)

Section SemFacts.
Context {A E : Type}.
Abbreviation Sem := (Semaphore.Sem nat A E).

Lemma sem_run_keeps (s : Sem) c x : x ∈ Semaphore.running s -> x ∈ Semaphore.running (Semaphore.sem_run s c).
Proof. intros H. unfold Semaphore.sem_run. case_bool_decide; cbn; [|done]. apply elem_of_app. by left. Qed.

Lemma sem_done_keeps (s s' : Sem) c r x :
  Semaphore.sem_done s c r = Some s' -> c ∈ Semaphore.running s -> x ∈ Semaphore.running s -> x <> c -> x ∈ Semaphore.running s'.
Proof.
  intros H Hc Hx Hn. assert (x ∈ Semaphore.remove_one c (Semaphore.running s)) as Hr.
  { rewrite <- (Semaphore.remove_one_perm c _ Hc) in Hx. by apply elem_of_cons in Hx as [->|]. }
  unfold Semaphore.sem_done, Semaphore.unblock in H. cbn in H. destruct (Semaphore.blocked s) as [|q rest].
  - injection H as <-. done.
  - case_bool_decide; [|done]. injection H as <-. cbn. apply elem_of_app. by left.
Qed.

End SemFacts.

Definition number_of (s : Client) : Z := Z.of_nat (length (requests s)).

Definition request_text (n : nat) (x : nat * bytes * bytes) : bytes := request (Z.of_nat n) x.1.2 x.2.

(** What holds in every state. *)
Record client_ok (s : Client) : Prop := {
  co_sem : Semaphore.reach max_concurrent_rpcs (called s) (released s) (sem s);
  co_called : NoDup (called s);
  co_issued : NoDup (issued s);
  co_table : issued s ≡ₚ (answered s).*1 ++ owners (pendings (impl s));
  co_entered : forall c, c ∈ issued s -> c ∈ (released s).*1 \/ c ∈ Semaphore.running (sem s);
  co_released : forall x, x ∈ released s -> x ∈ answered s;
  co_id : next_id (impl s) = number_of s;
  co_ids : forall id p, pendings (impl s) !! id = Some p ->
    0 <= id < number_of s /\ exists params, requests s !! Z.to_nat id = Some (owner p, command p, params);
  co_bytes : written (impl s) ++ to_write (impl s) = concat (imap request_text (requests s));
  co_down : is_shutting_down (impl s) = true -> pendings (impl s) = ∅
}.

Lemma client_fresh_ok : client_ok fresh.
Proof.
  split; cbn; try done; try apply NoDup_nil_2.
  - apply Semaphore.reach_make.
  - intros c. by left.
Qed.

Lemma call_ok s c :
  client_ok s -> c ∉ called s ->
  client_ok {| impl := impl s; sem := Semaphore.sem_run (sem s) c; called := called s ++ [c]; issued := issued s;
               requests := requests s; answered := answered s; released := released s |}.
Proof.
  intros [H1 H2 H3 H4 H5 H6 H7 H8 H9 H10] Hc. split; cbn; try done.
  - by apply Semaphore.reach_run.
  - apply NoDup_app. split_and!; [done| |apply NoDup_singleton]. intros x Hx ->%list_elem_of_singleton. done.
  - intros x Hx. destruct (H5 x Hx) as [|Hr]; [by left|right]. by apply sem_run_keeps.
Qed.

(** A step of the table that answers some callers. *)
Lemma answer_ok s i a :
  client_ok s -> owners (pendings (impl s)) ≡ₚ a.*1 ++ owners (pendings i) ->
  next_id i = next_id (impl s) -> written i ++ to_write i = written (impl s) ++ to_write (impl s) ->
  (forall id p, pendings i !! id = Some p -> pendings (impl s) !! id = Some p) ->
  (is_shutting_down i = true -> pendings i = ∅) ->
  client_ok (with_impl s i a).
Proof.
  intros [H1 H2 H3 H4 H5 H6 H7 H8 H9 H10] Ho En Eb Hp Hd. split; cbn; try done.
  - rewrite H4, fmap_app, <- app_assoc. by rewrite Ho.
  - intros x Hx. apply elem_of_app. left. by apply H6.
  - by rewrite En.
  - intros id p Hid. by apply H8, Hp.
  - by rewrite Eb.
Qed.

Lemma release_ok s c r sem' :
  client_ok s -> (c, r) ∈ answered s -> c ∈ Semaphore.running (sem s) -> Semaphore.sem_done (sem s) c r = Some sem' ->
  client_ok {| impl := impl s; sem := sem'; called := called s; issued := issued s; requests := requests s;
               answered := answered s; released := released s ++ [(c, r)] |}.
Proof.
  intros [H1 H2 H3 H4 H5 H6 H7 H8 H9 H10] Ha Hc Hd. split; cbn; try done.
  - by eapply Semaphore.reach_complete.
  - intros x Hx. rewrite fmap_app, elem_of_app. destruct (decide (x = c)) as [->|Hn]; [left; right; by left|].
    destruct (H5 x Hx) as [Hr|Hr]; [left; by left|right]. by eapply sem_done_keeps.
  - intros x [Hx|Hx%list_elem_of_singleton]%elem_of_app; [by apply H6|by subst].
Qed.

Lemma imap_snoc {A B} (f : nat -> A -> B) l x : imap f (l ++ [x]) = imap f l ++ [f (length l) x].
Proof. rewrite imap_app. cbn. by rewrite Nat.add_0_r. Qed.

Lemma issue_ok s c cmd params taken :
  client_ok s -> c ∈ Semaphore.running (sem s) -> c ∉ issued s -> number_of s + 1 < 2 ^ 64 -> client_ok (issue s c cmd params taken).
Proof.
  intros [H1 H2 H3 H4 H5 H6 H7 H8 H9 H10] Hc Hi Hb. unfold number_of in *. unfold issue, core_command.
  assert (NoDup (issued s ++ [c])) as Hnd.
  { apply NoDup_app. split_and!; [done| |apply NoDup_singleton]. intros x Hx ->%list_elem_of_singleton. done. }
  assert (forall x, x ∈ issued s ++ [c] -> x ∈ (released s).*1 \/ x ∈ Semaphore.running (sem s)) as Hent.
  { intros x [Hx|Hx%list_elem_of_singleton]%elem_of_app; [by apply H5|subst; by right]. }
  destruct (is_shutting_down (impl s)) eqn:Ed.
  - split; cbn; try done; rewrite ?app_nil_r; try done.
    + rewrite H4, fmap_app. cbn. rewrite <- !app_assoc. apply Permutation_app_head, Permutation_app_comm.
    + intros x Hx. apply elem_of_app. left. by apply H6.
    + intros _. by apply H10.
  - match goal with |- context [on_write ?i0 taken] => destruct (on_write_bytes i0 taken) as (W1 & W2 & W3 & W4) end.
    assert (pendings (impl s) !! next_id (impl s) = None) as Hf.
    { destruct (pendings (impl s) !! next_id (impl s)) as [p|] eqn:Ep; [|done]. destruct (H8 _ _ Ep) as [Hlt _]. lia. }
    cbn [pendings next_id is_shutting_down written to_write] in W1, W2, W3, W4. rewrite app_nil_r. split; cbn [impl sem called issued requests answered released]; try done.
    + rewrite W2, owners_insert by done. cbn. rewrite H4, <- !app_assoc. apply Permutation_app_head.
      by rewrite Permutation_app_comm.
    + rewrite W3, H7. unfold number_of. cbn. rewrite length_app. cbn. unfold u64. rewrite Z.mod_small; lia.
    + rewrite W2. intros id p. unfold number_of. cbn. rewrite length_app. cbn. rewrite lookup_insert_Some. intros [[<- <-]|[Hn Hp]].
      * rewrite H7. split; [lia|]. exists params. cbn. rewrite Nat2Z.id. by rewrite list_lookup_middle.
      * destruct (H8 _ _ Hp) as [Hlt [ps Hr]]. split; [lia|]. exists ps. by apply lookup_app_l_Some.
    + rewrite W1, app_assoc, H9, imap_snoc, concat_app. cbn [concat]. rewrite app_nil_r. f_equal.
      unfold request_text. cbn [fst snd]. by rewrite H7.
    + by rewrite W4.
Qed.

Lemma requests_mono s s' : step s s' -> (length (requests s) <= length (requests s'))%nat.
Proof.
  destruct 1; cbn; try lia. unfold issue. destruct (core_command _ _ _ _ _). cbn. rewrite length_app. lia.
Qed.

Lemma client_ok_step s s' : client_ok s -> step s s' -> number_of s' < 2 ^ 64 - 1 -> client_ok s'.
Proof.
  intros H Hs Hb. destruct Hs as [s c Hc|s c cmd params taken Hc Hi|s taken|s rs i a Hr|s|s c r sem' Ha Hc Hd].
  - by apply call_ok.
  - apply issue_ok; try done. unfold number_of in *. pose proof (requests_mono s (issue s c cmd params taken) ltac:(by apply step_issue)). lia.
  - destruct (on_write_bytes (impl s) taken) as (W1 & W2 & W3 & W4). apply answer_ok; try done; rewrite ?W2; try done.
    rewrite W4. apply H.
  - apply responses_owners in Hr as (P1 & P2 & P3 & P4 & P5 & P6). apply answer_ok; try done; [congruence| |].
    + intros id p Hp. rewrite <- P6 by congruence. done.
    + rewrite P2. intros Hd. apply H in Hd. rewrite Hd in P1. unfold owners in P1 at 1. rewrite map_to_list_empty in P1.
      apply Permutation_nil_l, eq_sym, app_nil in P1 as [_ P1]. unfold owners in P1. apply fmap_nil_inv in P1. by apply map_to_list_empty_iff in P1.
  - apply answer_ok; try done; cbn.
    unfold owners. cbn. rewrite map_to_list_empty, app_nil_r, <- list_fmap_compose. done.
  - by apply release_ok.
Qed.

Lemma reach_client_ok s : reach s -> number_of s < 2 ^ 64 - 1 -> client_ok s.
Proof.
  induction 1 as [|s s' R IH Hs]; intros Hb; [apply client_fresh_ok|].
  apply (client_ok_step s s'); [apply IH|done|done]. unfold number_of in *. pose proof (requests_mono _ _ Hs). lia.
Qed.

(** ** Lemmas: the stream of requests *)

(** The tree of a request. *)
Definition request_tree (id : Z) (cmd : bytes) (params : json) : json :=
  JObj [(to_escaped (lit "jsonrpc"), JStr (to_escaped (lit "2.0"))); (to_escaped (lit "id"), JPrim (Out.int_text id));
        (to_escaped (lit "method"), JStr (to_escaped cmd)); (to_escaped (lit "params"), params)].

Definition tree_calls (id : Z) (cmd : bytes) (params : json) : list (Out.call json) :=
  [Out.StartObject; Out.Field (lit "jsonrpc") (JStr (to_escaped (lit "2.0"))); Out.Field (lit "id") (JPrim (Out.int_text id));
   Out.Field (lit "method") (JStr (to_escaped cmd)); Out.Field (lit "params") params; Out.EndObject].

Lemma lit_bytes : bytes_ok (lit "jsonrpc") /\ bytes_ok (lit "2.0") /\ bytes_ok (lit "id") /\ bytes_ok (lit "method") /\ bytes_ok (lit "params").
Proof. split_and!; apply (bool_decide_unpack _); vm_compute; exact I. Qed.

Lemma request_same id cmd params t :
  bytes_ok cmd -> text t params -> Forall2 Out.same_call (request_calls id cmd params) (tree_calls id cmd t).
Proof.
  intros Hc Ht. destruct lit_bytes as (B1 & B2 & B3 & B4 & B5).
  constructor; [constructor|].
  constructor; [apply Out.same_field; [exact B1|exact (Out.values_are_json (Out.VString (lit "2.0")) B2)]|].
  constructor; [apply Out.same_field; [exact B3|exact (Out.values_are_json (Out.VInt id))]|].
  constructor; [apply Out.same_field; [exact B4|exact (Out.values_are_json (Out.VString cmd) Hc)]|].
  constructor; [apply Out.same_field; [exact B5|exact (Out.values_are_json (Out.VOut params) t Ht)]|].
  constructor; constructor.
Qed.

(** A request is the text of its tree, and two line feeds. *)
Lemma request_is_text id cmd params t :
  bytes_ok cmd -> text t params -> 2 + depth t < 2 ^ 32 ->
  exists s, request id cmd params = s ++ [10; 10] /\ text (request_tree id cmd t) s /\ 1 + depth (request_tree id cmd t) < 2 ^ 32.
Proof.
  intros Hc Ht Hd.
  assert (1 + depth (request_tree id cmd t) < 2 ^ 32) as Hdep by (cbn [request_tree depth foldr]; lia).
  destruct (Out.out_spec _ _ (request_tree id cmd t) [] (request_same id cmd params t Hc Ht) eq_refl Hdep) as (s & Hr & Hs & _).
  exists s. split_and!; [|done|done]. unfold request. by rewrite Hr.
Qed.

(** Texts that are ended by line feeds, as messages that begin with them. *)
Fixpoint messages (w : bytes) (l : list (json * bytes)) : list (bytes * json * bytes) :=
  match l with [] => [] | (t, s) :: l => (w, t, s) :: messages [10; 10] l end.

Lemma messages_text l : forall w,
  w ++ concat (map (fun ts => ts.2 ++ [10; 10]) l)
  = concat (map Parser.message_text (messages w l)) ++ (match l with [] => w | _ => [10; 10] end).
Proof.
  induction l as [|[t s] l IH]; intros w; cbn [map concat messages]; [by rewrite app_nil_r|]. unfold Parser.message_text at 1. cbn [fst snd].
  rewrite <- !app_assoc. do 2 f_equal. rewrite IH. by destruct l.
Qed.

Lemma requests_texts l trees :
  Forall2 (fun x t => bytes_ok x.1.2 /\ text t x.2 /\ 2 + depth t < 2 ^ 32) l trees -> forall k,
  exists ts, imap (fun n x => request_text (k + n) x) l = map (fun ts : json * bytes => ts.2 ++ [10; 10]) ts
    /\ map fst ts = imap (fun n xt => request_tree (Z.of_nat (k + n)) xt.1.1.2 xt.2) (zip l trees)
    /\ Forall (fun ts => text ts.1 ts.2 /\ 1 + depth ts.1 < 2 ^ 32 /\ match ts.1 with JArr _ | JObj _ => True | _ => False end) ts.
Proof.
  induction 1 as [|x t l trees (H1 & H2 & H3) _ IH]; intros k; [by exists []|].
  destruct (IH (S k)) as (ts & E1 & E2 & HF). destruct (request_is_text (Z.of_nat k) x.1.2 x.2 t H1 H2 H3) as (s & Es & Hs & Hd).
  exists ((request_tree (Z.of_nat k) x.1.2 t, s) :: ts). cbn [zip_with]. rewrite !imap_cons. split_and!; [| |by constructor]; cbn [map fst snd].
  - f_equal; [by rewrite Nat.add_0_r|]. rewrite <- E1. apply imap_ext. intros n y _. cbn [compose]. by rewrite Nat.add_succ_r.
  - f_equal; [by rewrite Nat.add_0_r|]. rewrite E2. apply imap_ext. intros n y _. cbn. by rewrite Nat.add_succ_r.
Qed.

Lemma white_lf : white [10; 10].
Proof. apply Forall_cons. split; [auto|]. apply Forall_singleton. auto. Qed.

(** ** Properties *)

(** C11: answers.  Whatever the node sends and in whatever order the callers, the socket and the
    shutdown move: every command that was sent or refused is either waiting in the table or was answered, and
    answered once; no more than [max_concurrent_rpcs] wait; after the shutdown none waits; the semaphore gives
    every caller its own answer. *)
Theorem commands_answered_once s :
  reach s -> number_of s < 2 ^ 64 - 1 ->
  issued s ≡ₚ (answered s).*1 ++ owners (pendings (impl s)) /\ NoDup (issued s)
  /\ (base.size (pendings (impl s)) <= max_concurrent_rpcs)%nat
  /\ (is_shutting_down (impl s) = true -> pendings (impl s) = ∅)
  /\ Semaphore.delivered (sem s) = released s /\ (forall x, x ∈ released s -> x ∈ answered s).
Proof.
  intros R Hb. destruct (reach_client_ok s R Hb) as [H1 H2 H3 H4 H5 H6 H7 H8 H9 H10].
  pose proof (Semaphore.reach_sem_ok _ _ _ _ H1) as [S1 S2 S3 S4]. split_and!; try done.
  assert (length (Semaphore.running (sem s)) <= max_concurrent_rpcs)%nat as HL.
  { apply Permutation_length in S2. rewrite length_app, length_fmap, length_take in S2. lia. }
  assert (NoDup ((answered s).*1 ++ owners (pendings (impl s)))) as Hnd by (by rewrite <- H4).
  apply NoDup_app in Hnd as (_ & Hdis & Hown).
  assert (base.size (pendings (impl s)) = length (owners (pendings (impl s)))) as -> by (unfold owners; by rewrite length_fmap, length_map_to_list).
  etransitivity; [|exact HL]. apply submseteq_length, NoDup_submseteq; [done|]. intros c Hc.
  destruct (H5 c) as [Hr|]; [rewrite H4; apply elem_of_app; by right| |done]. exfalso.
  apply list_elem_of_fmap in Hr as (x & -> & Hx). apply (Hdis x.1); [|done]. apply list_elem_of_fmap. exists x. split; [done|by apply H6].
Qed.

(** C12: a caller gets the response to its own command: the number of the response is that of the
    request that the caller sent, and what it gets is the result of the response, or an
    error with its command. *)
Theorem response_to_its_caller s r i a c x :
  reach s -> number_of s < 2 ^ 64 - 1 -> process_response (impl s) r = inl (i, a) -> (c, x) ∈ a ->
  exists n cmd params id_j, requests s !! n = Some (c, cmd, params)
    /\ get (Some r) "id" = inl id_j /\ string_to_u64 (direct_text id_j) = Z.of_nat n
    /\ match x with
       | Passed v => get (Some r) "result" = inl v
       | Failed (RpcError cmd' e) => cmd' = cmd /\ get (Some r) "error" = inl e
       | Failed Shutdown => False
       end.
Proof.
  intros R Hb Hp Hin. pose proof (reach_client_ok s R Hb) as Hok. unfold process_response, obind in Hp.
  destruct (negb (jis_object (Some r))); [injection Hp as <- <-; by apply elem_of_nil in Hin|].
  destruct (has (Some r) "id") as [[]|]; cbn [negb] in Hp; try discriminate Hp; [|injection Hp as <- <-; by apply elem_of_nil in Hin].
  destruct (get (Some r) "id") as [id_j|] eqn:Eid; [|discriminate Hp].
  destruct (negb (jis_number id_j)); [injection Hp as <- <-; by apply elem_of_nil in Hin|].
  destruct (pendings (impl s) !! string_to_u64 (direct_text id_j)) as [p|] eqn:Ep; [|injection Hp as <- <-; by apply elem_of_nil in Hin].
  destruct (co_ids s Hok _ _ Ep) as [Hid [params Hreq]].
  exists (Z.to_nat (string_to_u64 (direct_text id_j))), (command p), params, id_j.
  assert (a <> [] -> c = owner p) as Hc.
  { destruct (has (Some r) "result") as [[]|]; try discriminate Hp; [destruct (get (Some r) "result"); [|discriminate Hp]|
      destruct (has (Some r) "error") as [[]|]; try discriminate Hp; [destruct (get (Some r) "error"); [|discriminate Hp]|]];
      injection Hp as <- <-; try done; intros _; by apply list_elem_of_singleton in Hin as [= -> ->]. }
  rewrite Hc by (intros ->; by apply elem_of_nil in Hin). split_and!; [done|done|by rewrite Z2Nat.id by lia|].
  destruct (has (Some r) "result") as [[]|]; try discriminate Hp.
  - destruct (get (Some r) "result") as [v|]; [|discriminate Hp]. injection Hp as <- <-. by apply list_elem_of_singleton in Hin as [= -> ->].
  - destruct (has (Some r) "error") as [[]|]; try discriminate Hp; [|injection Hp as <- <-; by apply elem_of_nil in Hin].
    destruct (get (Some r) "error") as [v|]; [|discriminate Hp]. injection Hp as <- <-. by apply list_elem_of_singleton in Hin as [= -> ->].
Qed.

(** The stream of requests.  The bytes that the socket took and those that wait are, together,
    a stream of JSON messages: one for each request, in the order of their numbers, however
    the writes were split. *)
Theorem requests_are_messages s trees :
  reach s -> number_of s < 2 ^ 64 - 1 ->
  Forall2 (fun x t => bytes_ok x.1.2 /\ text t x.2 /\ 2 + depth t < 2 ^ 32) (requests s) trees ->
  exists ms w_end, written (impl s) ++ to_write (impl s) = concat (map Parser.message_text ms) ++ w_end
    /\ Forall Parser.message ms /\ white w_end
    /\ map (fun m => m.1.2) ms = imap (fun n xt => request_tree (Z.of_nat n) xt.1.1.2 xt.2) (zip (requests s) trees).
Proof.
  intros R Hb HF. rewrite (co_bytes s (reach_client_ok s R Hb)). generalize dependent (requests s). clear R Hb. intros l HF.
  destruct (requests_texts l trees HF 0) as (ts & E1 & E2 & H3). cbn [Nat.add] in E1, E2.
  exists (messages [] ts), (match ts with [] => [] | _ => [10; 10] end).
  rewrite (imap_ext request_text (fun n x => request_text n x)), E1 by done. split_and!.
  - by rewrite <- messages_text.
  - assert (white []) as Hw by constructor. revert Hw. generalize (@nil Z). clear -H3.
    induction H3 as [|[t s] ts (A & B & C) _ IH]; intros w Hw; cbn [messages]; constructor; [done|]. apply IH, white_lf.
  - destruct ts; [constructor|apply white_lf].
  - rewrite <- E2. generalize (@nil Z). clear. induction ts as [|[t s] ts IH]; intros w; cbn; [done|]. by rewrite IH.
Qed.

(** ** Witnesses *)

Definition demo0 : Client :=
  {| impl := impl fresh; sem := Semaphore.sem_run (sem fresh) 7%nat; called := [7%nat]; issued := []; requests := [];
     answered := []; released := [] |}.

Definition demo1 : Client := issue demo0 7%nat (lit "getinfo") (lit "{}") [10%nat; 1000%nat].

Definition demo_response : json := JObj [(lit "id", JPrim (lit "0")); (lit "result", JArr [])].

Lemma demo1_reach : reach demo1.
Proof.
  eapply reach_step; [eapply reach_step; [apply reach_fresh|]|].
  - apply (step_call fresh 7%nat). by intros ?%elem_of_nil.
  - apply (step_issue demo0 7%nat).
    + apply (bool_decide_unpack _). vm_compute. exact I.
    + by intros ?%elem_of_nil.
Qed.

Definition demo_answers (o : outcome (Impl * answers)) : option answers := match o with inl (_, a) => Some a | inr _ => None end.

Lemma commands_answered_once_witness : owners (pendings (impl demo1)) = [7%nat] /\ (base.size (pendings (impl demo1)) <= max_concurrent_rpcs)%nat.
Proof.
  split; [vm_compute; reflexivity|].
  apply (commands_answered_once demo1 demo1_reach). vm_compute. reflexivity.
Defined.

Definition demo_done : Impl := match process_response (impl demo1) demo_response with inl (i, _) => i | inr _ => make end.

Lemma demo_processed : process_response (impl demo1) demo_response = inl (demo_done, [(7%nat, Passed (Some (JArr [])))]).
Proof. vm_compute. reflexivity. Qed.

Lemma response_to_its_caller_witness :
  exists n cmd params id_j, requests demo1 !! n = Some (7%nat, cmd, params) /\ string_to_u64 (direct_text id_j) = Z.of_nat n.
Proof.
  destruct (response_to_its_caller demo1 demo_response demo_done [(7%nat, Passed (Some (JArr [])))] 7%nat (Passed (Some (JArr []))) demo1_reach)
    as (n & cmd & params & id_j & H1 & _ & H3 & _).
  - vm_compute. reflexivity.
  - apply demo_processed.
  - apply list_elem_of_singleton. reflexivity.
  - exists n, cmd, params, id_j. split; [exact H1|exact H3].
Defined.

Lemma requests_are_messages_witness :
  exists ms w_end, written (impl demo1) ++ to_write (impl demo1) = concat (map Parser.message_text ms) ++ w_end /\ Forall Parser.message ms.
Proof.
  destruct (requests_are_messages demo1 [JObj []] demo1_reach) as (ms & w & H1 & H2 & _).
  - vm_compute. reflexivity.
  - constructor; [|constructor]. split_and!.
    + apply (bool_decide_unpack _). vm_compute. exact I.
    + apply text_obj. exists [], []. split_and!; [reflexivity|constructor|constructor].
    + vm_compute. reflexivity.
  - exists ms, w. split; [exact H1|exact H2].
Defined.

End Rpc.
