(* ===== verification/Sendpays.v ===== *)
(** * The results of payments (src/Boss/Mod/SendpayResultMonitor.cpp)

    The first hop of a payment is taken from the command that sends it and kept in a table
    until the node tells the result; the result is then announced with the first hop, which
    [PeerStats] credits or blames.  A second table has the lengths of routes, where they
    are known; its rows go with those of the first (a foreign key that cascades).

    The handlers read their message and then wait for the database: what is left to do is a
    task, and tasks run in any order, each in one transaction. *)

From stdpp Require Import base list numbers strings gmap.
From Stdlib Require Import QArith.
From S2P Require Import Prelude.
From S2P Require Import Double.
From S2P Require Import LnIds.
From S2P Require Import UtilStr.
From S2P Require Import Jsmn.
From S2P Require Import Reply.
From S2P Require Import Peers.
Import Jsmn.
Import Reply.
Import Peers.

#[local] Open Scope Z_scope.
#[local] Open Scope reply_scope.

Module Sendpays.

(** ** The tables *)

(** The hash of the payment and the number of the part. *)
Abbreviation Key := (bytes * Z)%type.

Record Row := { first_hop : Node; creation : double }.

Record Db := { sends : gmap Key Row; route_lens : gmap Key Z }.

Definition no_rows : Db := {| sends := ∅; route_lens := ∅ |}.

Record SendpayResult := {
  r_creation : double; r_completion : double; r_first_hop : Node; r_key : Key; r_success : bool; reached_destination : bool
}.

(** A transaction that a handler is about to run. *)
Inductive task := Record_ (k : Key) (hop : Node) (len : option Z) | Resolve (k : Key) (success : bool) (erring_index : Z) | Clean.

(** ** Transactions *)

(** [INSERT OR REPLACE]: a row that is replaced takes its route length with it. *)
Definition record_pending_sendpay (d : Db) (k : Key) (hop : Node) (len : option Z) (now : double) : Db :=
  {| sends := <[k := {| first_hop := hop; creation := now |}]> (sends d);
     route_lens := match len with Some n => <[k := n]> (delete k (route_lens d)) | None => delete k (route_lens d) end |}.

Definition get_sendpay_data (d : Db) (k : Key) : option (Row * option Z) :=
  match sends d !! k with Some r => Some (r, route_lens d !! k) | None => None end.

Definition remove (d : Db) (k : Key) : Db := {| sends := delete k (sends d); route_lens := delete k (route_lens d) |}.

Definition resolve (d : Db) (k : Key) (success : bool) (erring_index : Z) (now : double) : Db * list SendpayResult :=
  match get_sendpay_data d k with
  | None => (d, [])
  | Some (r, len) =>
      let reached :=
        success || match len with Some n => negb success && (n <=? erring_index) | None => false end in
      (remove d k, [{| r_creation := creation r; r_completion := now; r_first_hop := first_hop r; r_key := k;
                       r_success := success; reached_destination := reached |}])
  end.

Definition month : double := d_of_Z (30 * 24 * 3600).

Definition expired (now : double) (r : Row) : bool := dlt (dadd (creation r) month) now.

Definition clean (d : Db) (now : double) : Db :=
  {| sends := filter (fun kr => expired now kr.2 = false) (sends d);
     route_lens := filter (fun kl => match sends d !! kl.1 with Some r => expired now r | None => false end = false) (route_lens d) |}.

Definition run_task (d : Db) (t : task) (now : double) : Db * list SendpayResult :=
  match t with
  | Record_ k hop len => (record_pending_sendpay d k hop len now, [])
  | Resolve k success i => resolve d k success i now
  | Clean => (clean d now, [])
  end.

(** ** Messages *)

Definition hash_valid (s : bytes) : bool := (length s =? 64)%nat && Str.ishex s.
Definition hash_of (s : bytes) : outcome bytes :=
  let* b := or_throw Runtime (Str.hexread s) in if (length b =? 32)%nat then inl b else inr Logic.

(** The tests of [record_pending_sendpay_j], from left to right. *)
Definition checked (hash_j partid_j hop_j : option json) : outcome bool :=
  if negb (jis_object hop_j) then inl false
  else
    let* h := has hop_j "id" in
    if negb h then inl false
    else
      let* id_j := get hop_j "id" in
      if negb (jis_string id_j) then inl false
      else
        let* id := text id_j in
        if negb (NodeId.valid_string id) then inl false
        else if negb (jis_string hash_j) then inl false
        else
          let* hash := text hash_j in
          inl (hash_valid hash && (jis_null partid_j || jis_number partid_j)).

Definition partid_of (partid_j : option json) : outcome Z :=
  if jis_null partid_j then inl 0 else let* d := number partid_j in defined (d_to_u64 d).

Definition record_pending_sendpay_j (hash_j partid_j hop_j : option json) (len : option Z) : outcome (option task) :=
  let* ok := checked hash_j partid_j hop_j in
  if negb ok then inl None
  else
    let* id_j := get hop_j "id" in
    let* id := text id_j in
    let* hop := nodeid_of id in
    let* hash_s := text hash_j in
    let* hash := hash_of hash_s in
    let* partid := partid_of partid_j in
    inl (Some (Record_ (hash, partid) hop len)).

(** A field that may be missing. *)
Definition optional (o : option json) (k : string) : outcome (option json) :=
  let* h := has o k in if (h : bool) then get o k else inl None.

Definition array_at (l : list json) (n i : nat) : option json := if (n <=? length l)%nat then l !! i else None.

Definition process_sendonion (params : option json) : outcome (option task) :=
  let* (hop_j, hash_j, partid_j, secrets_j) :=
    match params with
    | Some (JArr l) =>
        if (3 <=? length l)%nat then inl (l !! 1%nat, l !! 2%nat, array_at l 6 5, array_at l 5 4)
        else inl (None, None, None, None)
    | Some (JObj _) =>
        let* a := optional params "first_hop" in
        let* b := optional params "payment_hash" in
        let* c := optional params "partid" in
        let* d := optional params "shared_secrets" in
        inl (a, b, c, d)
    | _ => inl (None, None, None, None)
    end in
  let len := match secrets_j with Some (JArr l) => Some (Z.of_nat (length l)) | _ => None end in
  record_pending_sendpay_j hash_j partid_j hop_j len.

Definition process_sendpay (params : option json) : outcome (option task) :=
  let* (route_j, hash_j, partid_j) :=
    match params with
    | Some (JArr l) =>
        if (2 <=? length l)%nat then inl (l !! 0%nat, l !! 1%nat, array_at l 7 6) else inl (None, None, None)
    | Some (JObj _) =>
        let* a := optional params "route" in
        let* b := optional params "payment_hash" in
        let* c := optional params "partid" in
        inl (a, b, c)
    | _ => inl (None, None, None)
    end in
  match route_j with
  | Some (JArr (hop :: route)) =>
      record_pending_sendpay_j hash_j partid_j (Some hop) (Some (Z.of_nat (length (hop :: route))))
  | _ => inl None
  end.

(** Exceptions are logged; [None] is undefined behaviour. *)
Definition process_rpc_command (params : json) : option (option task) :=
  match
    (let* payload := get (Some params) "rpc_command" in
     let* m_j := get payload "method" in
     let* m := text m_j in
     let* p := get payload "params" in
     if decide (m = lit "sendonion") then process_sendonion p
     else if decide (m = lit "sendpay") then process_sendpay p
     else inl None)
  with
  | inl t => Some t
  | inr Undefined => None
  | inr _ => Some None
  end.

Definition on_sendpay_resolve (data : option json) (success : bool) (erring_index : Z) : outcome (option task) :=
  let* h := has data "payment_hash" in
  if negb h then inl None
  else
    let* j := get data "payment_hash" in
    let* s := text j in
    if negb (hash_valid s) then inl None
    else
      let* hash := hash_of s in
      let* h := has data "partid" in
      let* partid_j := (if (h : bool) then get data "partid" else inl None) in
      let* partid := (if h && jis_number partid_j then let* d := number partid_j in defined (d_to_u64 d) else inl 0) in
      inl (Some (Resolve (hash, partid) success erring_index)).

Definition on_sendpay_failure (params : json) : outcome (option task) :=
  if negb (jis_object (Some params)) then inl None
  else
    let* h := has (Some params) "sendpay_failure" in
    if negb h then inl None
    else
      let* payload := get (Some params) "sendpay_failure" in
      if negb (jis_object payload) then inl None
      else
        let* h := has payload "data" in
        if negb h then inl None
        else
          let* data := get payload "data" in
          if negb (jis_object data) then inl None
          else
            let* h := has payload "code" in
            if negb h then inl None
            else
              let* code := get payload "code" in
              if negb (jis_number code) then inl None
              else
                let* h := has data "erring_index" in
                if negb h then inl None
                else
                  let* e := get data "erring_index" in
                  if negb (jis_number e) then inl None
                  else
                    let* d := number e in
                    let* i := defined (d_to_u64 d) in
                    on_sendpay_resolve data false i.

Definition on_sendpay_success (params : json) : outcome (option task) :=
  if negb (jis_object (Some params)) then inl None
  else
    let* h := has (Some params) "sendpay_success" in
    if negb h then inl None
    else
      let* payload := get (Some params) "sendpay_success" in
      on_sendpay_resolve payload true 0.

(** ** The monitor *)

Record State := { db : Db; tasks : list task }.

Definition fresh : State := {| db := no_rows; tasks := [] |}.

Inductive event := E_hook (params : json) | E_failure (params : json) | E_success (params : json) | E_timer
  | E_run (i : nat) (now : double) | E_restart.

Definition spawn (s : State) (t : option task) : State := {| db := db s; tasks := tasks s ++ option_list t |}.

(** [None] is an exception that escapes, or undefined behaviour. *)
Definition step (s : State) (e : event) : option (State * list SendpayResult) :=
  match e with
  | E_hook p => t ← process_rpc_command p; Some (spawn s t, [])
  | E_failure p => match on_sendpay_failure p with inl t => Some (spawn s t, []) | inr _ => None end
  | E_success p => match on_sendpay_success p with inl t => Some (spawn s t, []) | inr _ => None end
  | E_timer => Some (spawn s (Some Clean), [])
  | E_run i now =>
      match tasks s !! i with
      | Some t => let '(d, r) := run_task (db s) t now in Some ({| db := d; tasks := delete i (tasks s) |}, r)
      | None => Some (s, [])
      end
  | E_restart => Some ({| db := db s; tasks := [] |}, [])
  end.

Fixpoint run (s : State) (es : list event) : option (State * list SendpayResult) :=
  match es with
  | [] => Some (s, [])
  | e :: es => '(s, r) ← step s e; '(s, r') ← run s es; Some (s, r ++ r')
  end.

(** ** Lemmas *)

(** A history: the transactions that ran, with their times, the latest first. *)
Abbreviation history := (list (task * double)).

(** The payment that a key stands for after a history. *)
Fixpoint pending (h : history) (k : Key) : option (Row * option Z) :=
  match h with
  | [] => None
  | (Record_ k' hop len, now) :: h =>
      if decide (k' = k) then Some ({| first_hop := hop; creation := now |}, len) else pending h k
  | (Resolve k' _ _, _) :: h => if decide (k' = k) then None else pending h k
  | (Clean, now) :: h =>
      match pending h k with Some (r, len) => if expired now r then None else Some (r, len) | None => None end
  end.

(** The announcements of a history, in order. *)
Fixpoint announced (h : history) : list SendpayResult :=
  match h with
  | [] => []
  | (Resolve k success i, now) :: h =>
      announced h ++
      match pending h k with
      | Some (r, len) =>
          [{| r_creation := creation r; r_completion := now; r_first_hop := first_hop r; r_key := k; r_success := success;
              reached_destination := success || match len with Some n => n <=? i | None => false end |}]
      | None => []
      end
  | _ :: h => announced h
  end.

Definition tables_ok (h : history) (d : Db) : Prop := forall k, get_sendpay_data d k = pending h k /\ (sends d !! k = None -> route_lens d !! k = None).

Lemma run_task_ok h d t now d' r :
  tables_ok h d -> run_task d t now = (d', r) ->
  tables_ok ((t, now) :: h) d' /\ announced ((t, now) :: h) = announced h ++ r.
Proof.
  intros H Hr. destruct t as [k hop len|k success i|]; cbn [run_task] in Hr.
  - injection Hr as <- <-. split; [|cbn; by rewrite app_nil_r]. intros k'. destruct (H k') as [H1 H2]. cbn [pending].
    unfold get_sendpay_data in *. cbn. destruct (decide (k = k')) as [<-|Hn].
    + rewrite lookup_insert_eq. split; [|done]. by destruct len; rewrite ?lookup_insert_eq, ?lookup_delete_eq.
    + rewrite lookup_insert_ne by done. destruct len; rewrite ?lookup_insert_ne, ?lookup_delete_ne by done; done.
  - unfold resolve in Hr. pose proof (H k) as [Hk _]. cbn [announced]. rewrite Hk in Hr. destruct (pending h k) as [[row len]|] eqn:Ep.
    + injection Hr as <- <-. split; [|by destruct success, len]. intros k'. destruct (H k') as [H1 H2]. cbn [pending].
      unfold get_sendpay_data in *. cbn. destruct (decide (k = k')) as [<-|Hn].
      * by rewrite !lookup_delete_eq.
      * by rewrite !lookup_delete_ne.
    + injection Hr as <- <-. split; [|done]. intros k'. destruct (H k') as [H1 H2]. cbn [pending].
      destruct (decide (k = k')) as [<-|Hn]; [by rewrite Hk|done].
  - injection Hr as <- <-. split; [|cbn; by rewrite app_nil_r]. intros k. destruct (H k) as [H1 H2]. cbn [pending].
    unfold get_sendpay_data, clean in *. cbn. rewrite <- H1. rewrite !map_lookup_filter. cbn.
    destruct (sends d !! k) as [row|] eqn:Es; cbn.
    + case_guard as G; cbn.
      * rewrite G. split; [|done]. destruct (route_lens d !! k) as [n|] eqn:En; done.
      * destruct (expired now row) eqn:Ex; [|done]. split; [done|]. intros _. by destruct (route_lens d !! k).
    + split; [done|]. intros _. rewrite H2 by done. done.
Qed.

Lemma no_rows_ok : tables_ok [] no_rows.
Proof. intros k. done. Qed.

(** What an event leaves to do. *)
Definition spawned (e : event) : list task :=
  match e with
  | E_hook p => match process_rpc_command p with Some t => option_list t | None => [] end
  | E_failure p => match on_sendpay_failure p with inl t => option_list t | inr _ => [] end
  | E_success p => match on_sendpay_success p with inl t => option_list t | inr _ => [] end
  | E_timer => [Clean]
  | E_run _ _ | E_restart => []
  end.

(** The transactions that ran and those that wait are among what the events left to do. *)
Definition accounted (h : history) (s : State) (all : list task) : Prop := h.*1 ++ tasks s ⊆+ all.

Lemma delete_submseteq {A} (l : list A) i t : l !! i = Some t -> t :: delete i l ≡ₚ l.
Proof. intros H. symmetry. by apply delete_Permutation. Qed.

Lemma accounted_spawn h s t all : accounted h s all -> accounted h (spawn s t) (all ++ option_list t).
Proof. unfold accounted. cbn. intros H. rewrite app_assoc. by apply submseteq_app. Qed.

Lemma accounted_ran h s i t now d all :
  tasks s !! i = Some t -> accounted h s all ->
  accounted ((t, now) :: h) {| db := d; tasks := delete i (tasks s) |} all.
Proof.
  unfold accounted. cbn. intros Hi H. etrans; [|exact H].
  rewrite Permutation_middle. apply Permutation_submseteq. by rewrite (delete_submseteq (tasks s) i t Hi).
Qed.

(** One event runs at most one transaction. *)
Lemma step_history s e s' r h all :
  tables_ok h (db s) -> accounted h s all -> step s e = Some (s', r) ->
  exists h', tables_ok (h' ++ h) (db s') /\ announced (h' ++ h) = announced h ++ r /\ accounted (h' ++ h) s' (all ++ spawned e).
Proof.
  assert (forall t, tables_ok h (db s) -> accounted h s all -> Some (spawn s t, []) = Some (s', r) ->
    exists h', tables_ok (h' ++ h) (db s') /\ announced (h' ++ h) = announced h ++ r /\ accounted (h' ++ h) s' (all ++ option_list t)) as Hs.
  { intros t H1 H2 [= <- <-]. exists []. rewrite app_nil_r. split_and!; [done..|]. by apply accounted_spawn. }
  intros H Ha Hr. destruct e as [p|p|p| |i now|]; cbn [step spawned] in *.
  - destruct (process_rpc_command p) as [t|]; [|done]. by apply Hs.
  - destruct (on_sendpay_failure p) as [t|]; [|done]. by apply Hs.
  - destruct (on_sendpay_success p) as [t|]; [|done]. by apply Hs.
  - by apply (Hs (Some Clean)).
  - rewrite app_nil_r. destruct (tasks s !! i) as [t|] eqn:Ei; [|injection Hr as <- <-; exists []; by rewrite app_nil_r].
    destruct (run_task (db s) t now) as [d l] eqn:Et. injection Hr as <- <-. exists [(t, now)].
    destruct (run_task_ok h (db s) t now d l H Et) as [H1 H2]. split_and!; [done..|]. by apply accounted_ran.
  - injection Hr as <- <-. exists []. rewrite !app_nil_r. split_and!; [done..|]. unfold accounted in *. cbn.
    etrans; [|exact Ha]. by apply submseteq_app, submseteq_nil_l.
Qed.

Lemma run_history es : forall s h s' rs all,
  tables_ok h (db s) -> accounted h s all -> run s es = Some (s', rs) ->
  exists h', tables_ok (h' ++ h) (db s') /\ announced (h' ++ h) = announced h ++ rs /\ accounted (h' ++ h) s' (all ++ (es ≫= spawned)).
Proof.
  induction es as [|e es IH]; intros s h s' rs all H Ha Hr; cbn [run] in Hr.
  { injection Hr as <- <-. exists []. by rewrite !app_nil_r. }
  destruct (step s e) as [[s1 r1]|] eqn:Es; [|done]. cbn [mbind option_bind] in Hr.
  destruct (run s1 es) as [[s2 r2]|] eqn:Er; [|done]. injection Hr as <- <-.
  destruct (step_history s e s1 r1 h all H Ha Es) as (h1 & H1 & H2 & H3).
  destruct (IH s1 (h1 ++ h) s2 r2 _ H1 H3 Er) as (h2 & H4 & H5 & H6). exists (h2 ++ h1). rewrite <- app_assoc. split_and!; [done| |].
  - by rewrite H5, H2, app_assoc.
  - by rewrite bind_cons, (app_assoc all).
Qed.

(** How often a payment was recorded and announced. *)
Definition records (k : Key) (t : task) : bool := match t with Record_ k' _ _ => bool_decide (k' = k) | _ => false end.
Definition recorded (h : history) (k : Key) : nat := length (filter (fun t => records k t.1 = true) h).
Definition results_of (rs : list SendpayResult) (k : Key) : nat := length (filter (fun r => r_key r = k) rs).

Lemma recorded_cons t now h k : recorded ((t, now) :: h) k = ((if records k t then 1 else 0) + recorded h k)%nat.
Proof. unfold recorded. rewrite filter_cons. cbn. destruct (records k t); by destruct (decide _). Qed.

Lemma results_of_app l1 l2 k : results_of (l1 ++ l2) k = (results_of l1 k + results_of l2 k)%nat.
Proof. unfold results_of. by rewrite filter_app, length_app. Qed.

(** Every record is announced at most once, and not while it is pending. *)
Lemma announced_count h k :
  (results_of (announced h) k + (if pending h k then 1 else 0) <= recorded h k)%nat.
Proof.
  induction h as [|[t now] h IH]; [done|]. rewrite recorded_cons.
  destruct t as [k' hop len|k' success i|]; cbn [announced pending records].
  - destruct (decide (k' = k)) as [->|Hn]; [rewrite bool_decide_eq_true_2 by done|rewrite bool_decide_eq_false_2 by done; lia]. destruct (pending h k); lia.
  - rewrite results_of_app. destruct (decide (k' = k)) as [->|Hn].
    + destruct (pending h k) as [[r len]|]; unfold results_of at 2; [rewrite filter_cons_True by done|]; cbn; lia.
    + assert (results_of (match pending h k' with
      | Some (r, len) =>
          [{| r_creation := creation r; r_completion := now; r_first_hop := first_hop r; r_key := k'; r_success := success;
              reached_destination := success || match len with Some n => n <=? i | None => false end |}]
      | None => []
      end) k = 0%nat) as ->; [|lia].
      unfold results_of. destruct (pending h k') as [[r len]|]; [rewrite filter_cons_False by done|]; done.
  - destruct (pending h k) as [[r len]|]; [destruct (expired now r)|]; lia.
Qed.

(** ** Properties *)

(** C24: the results.  Whatever the messages and the order of the tasks, across restarts, the
    announcements are those of a history of transactions, each of which some message or
    timer left to do and which ran once: a result is announced with the
    first hop, the time and the route length of the latest send of that payment that was
    neither resolved nor forgotten since; the destination counts as reached exactly on
    success, or if the failure is behind the end of the known route; and no send of a
    payment is announced twice. *)
Theorem sendpay_results_exact es s rs :
  run fresh es = Some (s, rs) ->
  exists h, h.*1 ⊆+ (es ≫= spawned)
    /\ rs = announced h
    /\ (forall k, get_sendpay_data (db s) k = pending h k)
    /\ (forall k, (results_of rs k + (if pending h k then 1 else 0) <= recorded h k)%nat).
Proof.
  intros Hr. assert (accounted [] fresh []) as H0 by constructor.
  destruct (run_history es fresh [] s rs [] no_rows_ok H0 Hr) as (h & H1 & H2 & H3). rewrite app_nil_r in H1, H2, H3.
  exists h. cbn in H2. split_and!; [|done|intros k; apply H1|].
  - etrans; [|exact H3]. apply submseteq_inserts_r. done.
  - intros k. rewrite <- H2. apply announced_count.
Qed.

(** ** Witness *)

Definition demo_hop : Node := Some (2 :: repeat 1 32).
Definition demo_hash : bytes := lit "00112233445566778899aabbccddeeff00112233445566778899AABBCCDDEEFF".

Definition demo_hook : json :=
  JObj [(lit "rpc_command", JObj [(lit "method", JStr (lit "sendpay"));
    (lit "params", JObj [(lit "route", JArr [JObj [(lit "id", JStr (NodeId.to_string demo_hop))]; JObj []]);
                         (lit "payment_hash", JStr demo_hash)])])].

Definition demo_failure : json :=
  JObj [(lit "sendpay_failure", JObj [(lit "code", JPrim (lit "204"));
    (lit "data", JObj [(lit "payment_hash", JStr demo_hash); (lit "erring_index", JPrim (lit "2"))])])].

(** A payment over two hops that fails at its destination, and a second failure of it. *)
Definition demo_events : list event :=
  [E_hook demo_hook; E_run 0 (d_of_Z 100); E_failure demo_failure; E_failure demo_failure; E_run 0 (d_of_Z 105); E_run 0 (d_of_Z 106)].

Definition demo_run : State * list SendpayResult := default (fresh, []) (run fresh demo_events).

Lemma demo_runs : run fresh demo_events = Some (demo_run.1, demo_run.2).
Proof. vm_compute. reflexivity. Qed.

Lemma sendpay_results_exact_witness :
  map (fun r => (r_first_hop r, r_success r, reached_destination r)) demo_run.2 = [(demo_hop, false, true)]
  /\ exists h, h.*1 ⊆+ (demo_events ≫= spawned) /\ demo_run.2 = announced h.
Proof.
  split; [vm_compute; reflexivity|].
  destruct (sendpay_results_exact demo_events demo_run.1 demo_run.2 demo_runs) as (h & H0 & H & _). exists h. split; [exact H0|exact H].
Defined.

End Sendpays.
