(* ===== verification/Internet.v ===== *)
(** * Are we online? (src/Boss/Mod/InternetConnectionMonitor.cpp)

    At start-up, with every list of peers and when connecting to peers fails, the monitor
    checks whether the network can be reached: it pings a peer or connects to well-known
    servers.  While it is offline it keeps trying.  It announces every change, which is
    what [PeerStats] and [Uptime] go by.

    A check is a green thread; the model has the points where threads wait, and what they
    get there is an answer given to the model.  Threads run in any order. *)

From stdpp Require Import base list numbers strings.
From S2P Require Import Prelude.
From S2P Require Import LnIds.

Module Internet.

(** ** The state *)

Definition servers : list (string * Z) :=
  [("www.duckduckgo.com", 443%Z); ("www.google.com", 443%Z); ("www.yahoo.com", 443%Z); ("www.facebook.com", 443%Z);
   ("www.amazon.com", 443%Z); ("www.reddit.com", 443%Z); ("www.twitter.com", 443%Z); ("www.alibaba.com", 443%Z);
   ("www.netflix.com", 443%Z); ("www.baidu.com", 443%Z); ("www.paypal.com", 443%Z); ("www.microsoft.com", 443%Z);
   ("www.mozilla.org", 443%Z); ("1.1.1.1", 443%Z); ("www.squareup.com", 443%Z); ("wikipedia.org", 443%Z);
   ("www.bitcoin.org", 443%Z); ("bitcoinstats.com", 443%Z); ("www.iana.org", 443%Z); ("www.example.org", 443%Z);
   ("github.com", 443%Z); ("lightning.network", 443%Z); ("www.blockstream.com", 443%Z); ("acinq.co", 443%Z)].

Inductive message := InternetOnline (online : bool) | NeedsConnect.

#[export] Instance message_eq_dec : EqDecision message.
Proof. solve_decision. Defined.

(** What a check of the servers is for: [server_check] or the loop while offline. *)
Inductive purpose := Report | Quick.

Section Monitor.

Context {Node : Type}.

(** Where a thread waits: before a check, for the connection to the [i]th server, for the
    connections to all servers, for the five seconds of the loop, for the ping, and with
    messages to raise, after which it may go on with the loop. *)
Inductive thread :=
  | Server
  | Contact (k : purpose) (i : nat)
  | Contact_all (k : purpose)
  | Pause
  | Ping (p : Node)
  | Say (ms : list message) (offline : bool).

Record State := { connector : bool; online : bool; checking_connectivity : bool; threads : list thread }.

Definition fresh : State := {| connector := false; online := false; checking_connectivity := false; threads := [] |}.

Inductive pong := Answered | Rpc_error | Timed_out.

(** What a thread gets where it waits: a random number, whether a server was reached,
    whether each of them was, the end of a ping, or nothing. *)
Inductive answer := A_draw (i : nat) | A_reached (b : bool) | A_results (l : list bool) | A_pong (r : pong) | A_go.

Inductive event :=
  | E_init
  | E_listpeers (connected_channeled connected_unchanneled : list Node) (draw : nat)
  | E_completion (comment : string) (failed : bool)
  | E_run (j : nat) (a : answer).

(** ** Operations *)

Definition with_threads (s : State) (ts : list thread) : State :=
  {| connector := connector s; online := online s; checking_connectivity := checking_connectivity s; threads := ts |}.

Definition start_check (s : State) (t : thread) : State :=
  {| connector := connector s; online := online s; checking_connectivity := true; threads := threads s ++ [t] |}.

(** The flags change at once, the messages follow. *)
Definition set_online (s : State) (n_online : bool) : State * option thread :=
  let was_online := online s in
  let act := (if eqb was_online n_online then [] else [InternetOnline n_online])
             ++ (if n_online && negb was_online then [NeedsConnect] else []) in
  ({| connector := connector s; online := n_online;
      checking_connectivity := if n_online then false else checking_connectivity s; threads := threads s |},
   Some (Say act (negb n_online))).

(** What follows a check of the servers. *)
Definition checked (s : State) (k : purpose) (result : bool) : State * option thread :=
  match k, result with
  | Report, _ => set_online s result
  | Quick, true => set_online s true
  | Quick, false => (s, Some Pause)
  end.

Definition check_server_connectivity (s : State) (k : purpose) (i : nat) : option (State * option thread * list message) :=
  if (i <? length servers)%nat then Some (s, Some (Contact k i), []) else None.

(** [None]: the answer is not one for that point. *)
Definition run_thread (s : State) (t : thread) (a : answer) : option (State * option thread * list message) :=
  match t, a with
  | Server, A_draw i => check_server_connectivity s Report i
  | Pause, A_draw i => check_server_connectivity s Quick i
  | Contact k _, A_reached true => Some (checked s k true, [])
  | Contact k _, A_reached false => Some (s, Some (Contact_all k), [])
  | Contact_all k, A_results results =>
      if (length results =? length servers)%nat then Some (checked s k (existsb id results), []) else None
  | Ping _, A_pong Answered => Some (set_online s true, [])
  | Ping _, A_pong _ => Some (s, Some Server, [])
  | Say (m :: ms) p, A_go => Some (s, Some (Say ms p), [m])
  | Say [] p, A_go => Some (s, if p then Some Pause else None, [])
  | _, _ => None
  end.

(** [None]: no peer has that number. *)
Definition periodic_check (channeled unchanneled : list Node) (draw : nat) : option thread :=
  match channeled, unchanneled with
  | [], [] => Some Server
  | _, _ =>
      let peers := match channeled with [] => unchanneled | _ => channeled end in
      p ← peers !! draw; Some (Ping p)
  end.

Definition step (s : State) (e : event) : option (State * list message) :=
  match e with
  | E_init =>
      Some (start_check {| connector := true; online := online s; checking_connectivity := true; threads := threads s |} Server, [])
  | E_listpeers c u draw =>
      if negb (connector s) || checking_connectivity s then Some (s, [])
      else t ← periodic_check c u draw; Some (start_check s t, [])
  | E_completion comment failed =>
      if negb (connector s) || checking_connectivity s then Some (s, [])
      else if negb (bool_decide (comment = "NeedsConnectSolicitor")) then Some (s, [])
      else if negb failed then Some (s, [])
      else Some (start_check s Server, [])
  | E_run j a =>
      t ← threads s !! j;
      '(s', t', ms) ← run_thread (with_threads s (delete j (threads s))) t a;
      Some (with_threads s' (threads s' ++ option_list t'), ms)
  end.

Fixpoint run (s : State) (es : list event) : option (State * list message) :=
  match es with
  | [] => Some (s, [])
  | e :: es => '(s, m) ← step s e; '(s, m') ← run s es; Some (s, m ++ m')
  end.

(** ** Lemmas *)

(** Threads that will decide. *)
Definition checks (t : thread) : bool := match t with Say _ p => p | _ => true end.

(** Threads that only exist while we are offline. *)
Definition retries (t : thread) : bool :=
  match t with Say _ p => p | Pause => true | Contact Quick _ | Contact_all Quick => true | _ => false end.

Definition checkers (ts : list thread) : nat := length (filter (fun t => checks t = true) ts).

Definition unsaid (ts : list thread) : list message := ts ≫= fun t => match t with Say ms _ => ms | _ => [] end.

#[local] Arguments checkers : simpl never.
#[local] Arguments unsaid : simpl never.

Lemma checkers_app l1 l2 : checkers (l1 ++ l2) = (checkers l1 + checkers l2)%nat.
Proof. unfold checkers. by rewrite filter_app, length_app. Qed.

Lemma checkers_one t : checkers [t] = if checks t then 1%nat else 0%nat.
Proof. unfold checkers. rewrite filter_cons. destruct (checks t) eqn:E; by destruct (decide _). Qed.

Lemma checkers_take l j t : l !! j = Some t -> checkers l = ((if checks t then 1 else 0) + checkers (delete j l))%nat.
Proof.
  intros H. pose proof (delete_Permutation _ _ _ H) as Hp. unfold checkers. rewrite Hp at 1.
  rewrite filter_cons. destruct (checks t); by destruct (decide _).
Qed.

Record invariant (s : State) : Prop := {
  inv_checkers : checkers (threads s) = if checking_connectivity s then 1%nat else 0%nat;
  inv_before : connector s = false -> checking_connectivity s = false /\ online s = false;
  inv_idle : connector s = true -> checking_connectivity s = false -> online s = true;
  inv_retry : forall t, t ∈ threads s -> retries t = true -> online s = false
}.

Lemma retries_checks t : retries t = true -> checks t = true.
Proof. by destruct t. Qed.

(** No thread checks in a state with no checkers. *)
Lemma no_checker ts t : checkers ts = 0%nat -> t ∈ ts -> checks t = true -> False.
Proof.
  intros H Ht Hc. apply length_zero_iff_nil in H.
  assert (t ∈ filter (fun t => checks t = true) ts) as Hin by (by apply list_elem_of_filter). rewrite H in Hin. by apply not_elem_of_nil in Hin.
Qed.

Lemma inv_replace s j t o :
  invariant s -> threads s !! j = Some t ->
  checkers (option_list o) = checkers [t] -> (forall t', o = Some t' -> retries t' = true -> online s = false) ->
  invariant (with_threads s (delete j (threads s) ++ option_list o)).
Proof.
  intros [H1 H2 H3 H4] Hj Ho Hr. constructor; cbn; [|done..|].
  - rewrite checkers_app, Ho, <- H1, (checkers_take _ _ _ Hj), checkers_one. lia.
  - intros t' Ht Hr'. apply elem_of_app in Ht as [Ht|Ht].
    + apply (H4 t'); [|done]. by eapply list_elem_of_delete_inv.
    + destruct o as [t0|]; [|by apply not_elem_of_nil in Ht]. apply list_elem_of_singleton in Ht as ->. by apply (Hr t0).
Qed.

(** Only the checking thread decides, and it goes on exactly if we are offline. *)
Lemma inv_set_online s j t b :
  invariant s -> threads s !! j = Some t -> checks t = true ->
  let r := set_online (with_threads s (delete j (threads s))) b in
  invariant (with_threads r.1 (threads r.1 ++ option_list r.2)).
Proof.
  intros [H1 H2 H3 H4] Hj Hc. rewrite (checkers_take _ _ _ Hj), Hc in H1.
  destruct (checking_connectivity s) eqn:Ec; [|lia]. assert (checkers (delete j (threads s)) = 0%nat) as H0 by lia.
  assert (forall t', t' ∈ delete j (threads s) -> retries t' = true -> False) as Hn
    by (intros t' Ht Hr; eapply no_checker; [exact H0|exact Ht|by apply retries_checks]).
  constructor; cbn; rewrite ?Ec.
  - rewrite checkers_app, checkers_one, H0. by destruct b.
  - intros Hb. by destruct (H2 Hb).
  - by destruct b.
  - intros t' Ht Hr. apply elem_of_app in Ht as [Ht|Ht]; [by destruct (Hn t')|].
    apply list_elem_of_singleton in Ht as ->. cbn in Hr. by destruct b.
Qed.

Lemma inv_start s t :
  invariant s -> connector s = true -> checking_connectivity s = false -> checks t = true -> retries t = false ->
  invariant (start_check s t).
Proof.
  intros [H1 H2 H3 H4] Hc He Ht Hr. constructor; cbn; [|congruence|done|].
  - rewrite checkers_app, H1, He, checkers_one, Ht. done.
  - intros t' Hin Hr'. apply elem_of_app in Hin as [Hin|Hin]; [by apply (H4 t')|]. apply list_elem_of_singleton in Hin as ->. congruence.
Qed.

Lemma periodic_check_thread c u draw t : periodic_check c u draw = Some t -> checks t = true /\ retries t = false.
Proof.
  unfold periodic_check. intros H.
  destruct c as [|n c], u as [|m u]; [by injection H as <-|..];
    match type of H with (?o ≫= _ = _) => destruct o; [by injection H as <-|done] end.
Qed.

Ltac keep Hr Hkeep := injection Hr as <- <- <-; eapply Hkeep; [ | |reflexivity]; [done|].
Ltac decide_with Hset b := apply (Hset b); [done|]; cbn [checked] in *; congruence.

(** The answers of one wait keep the invariant. *)
Lemma inv_run_thread s j t a s' t' ms :
  invariant s -> threads s !! j = Some t ->
  run_thread (with_threads s (delete j (threads s))) t a = Some (s', t', ms) ->
  invariant (with_threads s' (threads s' ++ option_list t')).
Proof.
  intros H Hj Hr.
  assert (forall o, checkers (option_list o) = checkers [t] -> (forall t', o = Some t' -> retries t' = true -> online s = false) ->
    (with_threads s (delete j (threads s)), o, ms) = (s', t', ms) -> invariant (with_threads s' (threads s' ++ option_list t'))) as Hkeep.
  { intros o H1 H2 [= <- <-]. cbn [threads with_threads]. by apply (inv_replace s j t o). }
  assert (forall b, checks t = true -> (set_online (with_threads s (delete j (threads s))) b, ms) = (s', t', ms) ->
    invariant (with_threads s' (threads s' ++ option_list t'))) as Hset.
  { intros b Hc Heq. pose proof (inv_set_online s j t b H Hj Hc) as Hi. cbv zeta in Hi.
    assert (set_online (with_threads s (delete j (threads s))) b = (s', t')) as Hs by congruence. by rewrite Hs in Hi. }
  assert (retries t = true -> online s = false) as Hold by (intros; by apply (inv_retry s H t); [eapply list_elem_of_lookup_2|]).
  destruct t as [|k i|k| |p|[|m ms'] p], a as [d|b|l|r|]; cbn [run_thread] in Hr; try done.
  - unfold check_server_connectivity in Hr. destruct (d <? _)%nat; [|done]. keep Hr Hkeep. by intros t' [= <-].
  - destruct b; [destruct k; decide_with Hset true|]. keep Hr Hkeep. intros t' [= <-]. by destruct k.
  - destruct (_ =? _)%nat; [|done]. destruct k; cbn [checked] in Hr; [decide_with Hset (existsb id l)|].
    destruct (existsb id l); [decide_with Hset true|]. keep Hr Hkeep. intros t' [= <-] _. by apply Hold.
  - unfold check_server_connectivity in Hr. destruct (d <? _)%nat; [|done]. keep Hr Hkeep. intros t' [= <-] _. by apply Hold.
  - destruct r; [decide_with Hset true|keep Hr Hkeep; by intros t' [= <-]..].
  - injection Hr as <- <- <-. eapply Hkeep; [| |reflexivity]; [by destruct p|]. intros t' Ht. destruct p; [injection Ht as <-|done]. intros _. by apply Hold.
  - injection Hr as <- <- <-. eapply Hkeep; [| |reflexivity]; [by destruct p|]. by intros t' [= <-].
Qed.

(** ** The flags and the threads *)

Definition is_init (e : event) : bool := match e with E_init => true | _ => false end.
Definition inits (es : list event) : nat := length (filter (fun e => is_init e = true) es).

Lemma inv_step s e s' ms : invariant s -> (e = E_init -> connector s = false) -> step s e = Some (s', ms) -> invariant s'.
Proof.
  intros H Hi Hs. destruct e as [|c u d|comment failed|j a]; cbn [step] in Hs.
  - injection Hs as <- <-. destruct (inv_before s H (Hi eq_refl)) as [H1 H2]. destruct H as [C1 _ _ C4]. constructor; cbn; [|done..|].
    + rewrite checkers_app, C1, H1. done.
    + intros. done.
  - destruct (connector s) eqn:Ec, (checking_connectivity s) eqn:Ek; cbn in Hs; try (injection Hs as <- <-; done).
    destruct (periodic_check c u d) as [t|] eqn:Et; [|done]. injection Hs as <- <-.
    destruct (periodic_check_thread _ _ _ _ Et). by apply inv_start.
  - destruct (connector s) eqn:Ec, (checking_connectivity s) eqn:Ek; cbn in Hs; try (injection Hs as <- <-; done).
    destruct (bool_decide _), failed; cbn in Hs; injection Hs as <- <-; try done. by apply inv_start.
  - destruct (threads s !! j) as [t|] eqn:Ej; [|done]. cbn [mbind option_bind] in Hs.
    destruct (run_thread _ t a) as [[[s1 t1] m1]|] eqn:Er; [|done]. cbn in Hs. injection Hs as <- <-. by eapply inv_run_thread.
Qed.

(** The monitor knows its connector from the first [Init] on. *)
Lemma step_connector s e s' ms : step s e = Some (s', ms) -> connector s' = connector s || is_init e.
Proof.
  intros Hs. destruct e as [|c u d|comment failed|j a]; cbn [step is_init] in *.
  - injection Hs as <- <-. by rewrite orb_true_r.
  - rewrite orb_false_r. destruct (negb _ || _); [by injection Hs as <- <-|]. destruct (periodic_check c u d); [|done]. by injection Hs as <- <-.
  - rewrite orb_false_r. destruct (negb (connector s) || _); [by injection Hs as <- <-|].
    destruct (bool_decide _), failed; cbn in Hs; by injection Hs as <- <-.
  - rewrite orb_false_r. destruct (threads s !! j) as [t|]; [|done]. cbn [mbind option_bind] in Hs.
    destruct (run_thread _ t a) as [[[s1 t1] m1]|] eqn:Er; [|done]. cbn in Hs. injection Hs as <- <-.
    destruct t as [|k i|k| |p|[|m ms'] p], a as [n|b|l|r|]; cbn [run_thread] in Er; unfold check_server_connectivity in Er; repeat case_match; try done;
      destruct_or?; try destruct k; try destruct b; try destruct (existsb id l); cbn in Er; injection Er as <- <- <-; done.
Qed.

Lemma run_invariant es : forall s s' ms,
  invariant s -> (inits es + (if connector s then 1 else 0) <= 1)%nat -> run s es = Some (s', ms) -> invariant s'.
Proof.
  induction es as [|e es IH]; intros s s' ms H Hn Hr; cbn [run] in Hr; [by injection Hr as <- <-|].
  destruct (step s e) as [[s1 m1]|] eqn:Es; [|done]. cbn [mbind option_bind] in Hr.
  destruct (run s1 es) as [[s2 m2]|] eqn:Er; [|done]. injection Hr as <- <-.
  unfold inits in Hn. rewrite filter_cons in Hn. pose proof (step_connector _ _ _ _ Es) as Hc.
  apply (IH s1 s2 m2); [|rewrite Hc; destruct (decide _) as [->|Hd]|done].
  - apply (inv_step s e s1 m1); [done| |done]. intros ->. destruct (connector s); [|done].
    destruct (decide _); [cbn in Hn; lia|done].
  - unfold inits. destruct (connector s); cbn in *; lia.
  - apply not_true_is_false in Hd. rewrite Hd, orb_false_r. done.
Qed.

Lemma fresh_invariant : invariant fresh.
Proof. constructor; [done..|]. intros t Ht. by apply not_elem_of_nil in Ht. Qed.

(** ** What is announced *)

(** The messages of a history of decisions: each change, and with it the wish for peers
    when we are back. *)
Inductive story : bool -> list message -> Prop :=
  | story_start : story false []
  | story_up l : story false l -> story true (l ++ [InternetOnline true; NeedsConnect])
  | story_down l : story true l -> story false (l ++ [InternetOnline false]).

(** The thread that decided last raises its messages before anything else happens. *)
Definition prompt_event (s : State) (e : event) : Prop :=
  unsaid (threads s) = [] \/ e = E_run (pred (length (threads s))) A_go.

Fixpoint prompt (s : State) (es : list event) : Prop :=
  match es with
  | [] => True
  | e :: es => prompt_event s e /\ match step s e with Some (s', _) => prompt s' es | None => True end
  end.

Definition change (was now : bool) : list message :=
  (if eqb was now then [] else [InternetOnline now]) ++ (if now && negb was then [NeedsConnect] else []).

Lemma story_change b l b' : story b l -> story b' (l ++ change b b').
Proof. destruct b, b'; cbn; rewrite ?app_nil_r; intros; first [done|by constructor]. Qed.

(** All messages to raise are those of the last thread. *)
Definition tidy (ts : list thread) : Prop := exists l1 l2, ts = l1 ++ l2 /\ unsaid l1 = [] /\ (length l2 <= 1)%nat.

Lemma unsaid_app l1 l2 : unsaid (l1 ++ l2) = unsaid l1 ++ unsaid l2.
Proof. apply bind_app. Qed.

Lemma unsaid_cons t ts : unsaid (t :: ts) = unsaid [t] ++ unsaid ts.
Proof. apply (unsaid_app [t]). Qed.

Lemma unsaid_delete ts : forall j, unsaid ts = [] -> unsaid (delete j ts) = [].
Proof.
  induction ts as [|t ts IH]; intros [|j] H; [done..| |]; rewrite unsaid_cons in H; apply app_eq_nil in H as [H1 H2]; [done|].
  change (delete (S j) (t :: ts)) with (t :: delete j ts). rewrite unsaid_cons, H1. by apply IH.
Qed.

Lemma tidy_add ts o : unsaid ts = [] -> tidy (ts ++ option_list o).
Proof. intros H. exists ts, (option_list o). split_and!; [done..|]. destruct o; cbn; lia. Qed.

(** What a thread that is not speaking has to say next: the change that it decided. *)
Lemma run_thread_says s t a s' t' ms :
  unsaid [t] = [] -> run_thread s t a = Some (s', t', ms) ->
  ms = [] /\ unsaid (option_list t') = change (online s) (online s') /\ threads s' = threads s.
Proof.
  assert (forall b, change b b = []) as Hb by (by intros []).
  intros Hp Hr. destruct t as [|k i|k| |p|[|m ms'] p], a as [d|b|l|r|]; cbn [run_thread] in Hr; try done;
    unfold check_server_connectivity in Hr.
  - destruct (d <? _)%nat; [|done]. injection Hr as <- <- <-. by rewrite Hb.
  - destruct b; [|injection Hr as <- <- <-; by rewrite Hb].
    destruct k; cbn [checked] in Hr; injection Hr as <- <- <-; split_and!; [done| |done|done| |done]; unfold unsaid; cbn; by rewrite app_nil_r.
  - destruct (_ =? _)%nat; [|done]. destruct k; cbn [checked] in Hr; [|destruct (existsb id l)]; injection Hr as <- <- <-; rewrite ?Hb;
      split_and!; try done; unfold unsaid; cbn; by rewrite app_nil_r.
  - destruct (d <? _)%nat; [|done]. injection Hr as <- <- <-. by rewrite Hb.
  - destruct r; injection Hr as <- <- <-; rewrite ?Hb; split_and!; try done. unfold unsaid; cbn; by rewrite app_nil_r.
  - injection Hr as <- <- <-. rewrite Hb. by destruct p.
Qed.

(** A speaking thread says what it has to say, and decides nothing. *)
Lemma run_thread_speaks s t s' t' ms :
  run_thread s t A_go = Some (s', t', ms) ->
  ms ++ unsaid (option_list t') = unsaid [t] /\ s' = s.
Proof.
  intros Hr. destruct t as [| | | | |[|m ms'] p]; cbn [run_thread] in Hr; try done; injection Hr as <- <- <-; [by destruct p|done].
Qed.

Lemma step_story s e s' ms :
  tidy (threads s) -> prompt_event s e -> step s e = Some (s', ms) ->
  ms ++ unsaid (threads s') = unsaid (threads s) ++ change (online s) (online s') /\ tidy (threads s').
Proof.
  assert (forall b, change b b = []) as Hb by (by intros []).
  intros Ht Hp Hs. destruct e as [|c u d|comment failed|j a]; cbn [step] in Hs.
  - injection Hs as <- <-. destruct Hp as [Hp|Hp]; [|done]. cbn. rewrite Hb, unsaid_app, Hp. split; [done|]. by apply (tidy_add _ (Some _)).
  - destruct (negb _ || _); [injection Hs as <- <-; by rewrite Hb, app_nil_r|].
    destruct (periodic_check c u d) as [t|] eqn:Et; [|done]. injection Hs as <- <-. destruct Hp as [Hp|Hp]; [|done].
    cbn. rewrite Hb, unsaid_app, Hp. split; [|by apply (tidy_add _ (Some _))].
    apply periodic_check_thread in Et as [H1 H2]. destruct t; try done. cbn in *; congruence.
  - destruct (negb (connector s) || _); [injection Hs as <- <-; by rewrite Hb, app_nil_r|].
    destruct (bool_decide _), failed; cbn in Hs; injection Hs as <- <-; try (by rewrite Hb, app_nil_r).
    destruct Hp as [Hp|Hp]; [|done]. cbn. rewrite Hb, unsaid_app, Hp. split; [done|]. by apply (tidy_add _ (Some _)).
  - destruct (threads s !! j) as [t|] eqn:Ej; [|done]. cbn [mbind option_bind] in Hs.
    destruct (run_thread _ t a) as [[[s1 t1] m1]|] eqn:Er; [|done]. cbn in Hs. injection Hs as <- <-. cbn [threads with_threads online].
    rewrite unsaid_app. destruct Hp as [Hp|[= -> ->]].
    + apply run_thread_says in Er as (-> & H1 & H2).
      * rewrite H1, H2, Hp. cbn [threads with_threads online]. rewrite unsaid_delete by done. split; [done|]. by apply tidy_add, unsaid_delete.
      * apply list_elem_of_split_length in Ej as (l1 & l2 & E & _). rewrite E, unsaid_app in Hp. apply app_eq_nil in Hp as [_ Hp].
        change (t :: l2) with ([t] ++ l2) in Hp. rewrite unsaid_app in Hp. by apply app_eq_nil in Hp as [Hp _].
    + apply run_thread_speaks in Er as [H1 ->]. cbn [threads with_threads online]. rewrite Hb, app_nil_r.
      destruct Ht as (l1 & l2 & E & H2 & H3).
      assert (exists l0, threads s = l0 ++ [t] /\ unsaid l0 = []) as (l0 & E0 & H0).
      { apply list_elem_of_split_length in Ej as (k1 & k2 & E1 & E2). rewrite E1, length_app in E2. cbn in E2.
        destruct k2; [|cbn in E2; lia]. exists k1. split; [done|]. rewrite E1 in E. destruct l2 as [|x [|y l2]]; [| |cbn in H3; lia].
        - rewrite app_nil_r in E. rewrite <- E, unsaid_app in H2. by apply app_eq_nil in H2 as [H2 _].
        - apply app_inj_tail in E as [-> _]. done. }
      rewrite E0, length_app, Nat.add_comm. cbn [length Nat.add pred]. rewrite delete_middle, app_nil_r, unsaid_app, H0. cbn [app]. split; [done|]. by apply tidy_add.
Qed.

Lemma run_story es : forall s said s' ms,
  tidy (threads s) -> prompt s es -> story (online s) (said ++ unsaid (threads s)) -> run s es = Some (s', ms) ->
  story (online s') ((said ++ ms) ++ unsaid (threads s')).
Proof.
  induction es as [|e es IH]; intros s said s' ms Ht Hp Hs Hr; cbn [run] in Hr.
  { injection Hr as <- <-. by rewrite app_nil_r. }
  cbn [prompt] in Hp. destruct Hp as [Hp Hps]. destruct (step s e) as [[s1 m1]|] eqn:Es; [|done]. cbn [mbind option_bind] in Hr.
  destruct (run s1 es) as [[s2 m2]|] eqn:Er; [|done]. injection Hr as <- <-.
  destruct (step_story s e s1 m1 Ht Hp Es) as [H1 H2].
  rewrite (app_assoc said). apply (IH s1 (said ++ m1) s2 m2); [done..| |done].
  rewrite <- app_assoc, H1, app_assoc. by apply story_change.
Qed.

(** ** Recovery *)

(** The answers that let a check end well. *)
Definition script (t : thread) : list answer :=
  match t with
  | Server | Pause => [A_draw 0; A_reached true]
  | Contact _ _ => [A_reached true]
  | Contact_all _ => [A_results (replicate (length servers) true)]
  | Ping _ => [A_pong Answered]
  | Say ms _ => replicate (S (length ms)) A_go ++ [A_draw 0; A_reached true]
  end.

Definition reached (s : State) (es : list event) : Prop :=
  exists s' ms, run s es = Some (s', ms) /\ online s' = true /\ checking_connectivity s' = false.

(** A step of the thread with number [j], which then is the last one. *)
Lemma reached_step s j t a es :
  threads s !! j = Some t ->
  match run_thread (with_threads s (delete j (threads s))) t a with
  | Some (s', t', _) => reached (with_threads s' (threads s' ++ option_list t')) es
  | None => False
  end ->
  reached s (E_run j a :: es).
Proof.
  intros Hj H. unfold reached. cbn [run step]. rewrite Hj. cbn [mbind option_bind].
  destruct (run_thread _ t a) as [[[s1 t1] m1]|]; [|done]. destruct H as (s2 & ms & Hr & H). cbn [mbind option_bind].
  rewrite Hr. cbn. eauto.
Qed.

Lemma reached_now s ms o : reached (with_threads (set_online s true).1 (ms ++ option_list o)) [].
Proof. by eexists _, _. Qed.

(** From a thread at the end of the list on. *)
Lemma reached_last ts : forall t s,
  threads s = ts ++ [t] -> checks t = true ->
  reached s (map (E_run (length ts)) (script t)).
Proof.
  assert (forall t s, threads s = ts ++ [t] -> threads s !! length ts = Some t /\ delete (length ts) (threads s) = ts) as Hl.
  { intros t s ->. split; [by apply list_lookup_middle|]. by rewrite delete_middle, app_nil_r. }
  assert (forall k i s, threads s = ts ++ [Contact k i] -> reached s (map (E_run (length ts)) (script (Contact k i)))) as H1.
  { intros k i s E. destruct (Hl _ _ E) as [E1 E2]. apply (reached_step s _ _ _ _ E1). destruct k; apply (reached_now _ _ (Some _)). }
  assert (forall s, threads s = ts ++ [Pause] -> reached s (map (E_run (length ts)) (script Pause))) as H2.
  { intros s E. destruct (Hl _ _ E) as [E1 E2]. apply (reached_step s _ _ _ _ E1). cbn [run_thread check_server_connectivity Nat.ltb Nat.leb length servers].
    apply (H1 Quick 0%nat). cbn [threads with_threads]. by rewrite E2. }
  intros t. induction t as [|k i|k| |p|ms p]; intros s E Hc; destruct (Hl _ _ E) as [E1 E2].
  - apply (reached_step s _ _ _ _ E1). apply (H1 Report 0%nat). cbn [threads with_threads]. by rewrite E2.
  - by apply H1.
  - apply (reached_step s _ _ _ _ E1). destruct k; apply (reached_now _ _ (Some _)).
  - by apply H2.
  - apply (reached_step s _ _ _ _ E1). apply (reached_now _ _ (Some _)).
  - cbn in Hc. subst p. revert s E E1 E2. induction ms as [|m ms IH]; intros s E E1 E2; apply (reached_step s _ _ _ _ E1); cbn [run_thread].
    + apply H2. cbn [threads with_threads]. by rewrite E2.
    + assert (threads (with_threads (with_threads s (delete (length ts) (threads s)))
        (threads (with_threads s (delete (length ts) (threads s))) ++ option_list (Some (Say ms true)))) = ts ++ [Say ms true]) as E'
        by (cbn [threads with_threads]; by rewrite E2).
      destruct (Hl _ _ E') as [E3 E4]. by apply IH.
Qed.

Definition is_run (e : event) : bool := match e with E_run _ _ => true | _ => false end.

Lemma runs_only n l : Forall (fun e => is_run e = true) (map (E_run n) l).
Proof. apply Forall_forall. intros e He. by apply list_elem_of_fmap in He as (a & -> & _). Qed.

(** A check that is under way can end well, wherever it is. *)
Lemma reached_any s j t :
  threads s !! j = Some t -> checks t = true -> exists es, Forall (fun e => is_run e = true) es /\ reached s es.
Proof.
  intros Hj Hc.
  assert (forall a t' m, checks t' = true ->
    run_thread (with_threads s (delete j (threads s))) t a = Some (with_threads s (delete j (threads s)), Some t', m) ->
    exists es, Forall (fun e => is_run e = true) es /\ reached s es) as Hgo.
  { intros a t' m Hc' Hr. exists (E_run j a :: map (E_run (length (delete j (threads s)))) (script t')).
    split; [constructor; [done|apply runs_only]|]. apply (reached_step s j t a _ Hj). rewrite Hr. by apply reached_last. }
  assert (forall a m, run_thread (with_threads s (delete j (threads s))) t a = Some (set_online (with_threads s (delete j (threads s))) true, m) ->
    exists es, Forall (fun e => is_run e = true) es /\ reached s es) as Hnow.
  { intros a m Hr. exists [E_run j a]. split; [by repeat constructor|]. apply (reached_step s j t a _ Hj). rewrite Hr. apply (reached_now _ _ (Some _)). }
  destruct t as [|k i|k| |p|[|m ms] p]; cbn in Hc; try subst p.
  - by apply (Hgo (A_draw 0) (Contact Report 0) []).
  - apply (Hnow (A_reached true) []). by destruct k.
  - apply (Hnow (A_results (replicate (length servers) true)) []). by destruct k.
  - by apply (Hgo (A_draw 0) (Contact Quick 0) []).
  - by apply (Hnow (A_pong Answered) []).
  - by apply (Hgo A_go Pause []).
  - by apply (Hgo A_go (Say ms true) [m]).
Qed.

Lemma checker_exists ts : checkers ts = 1%nat -> exists j t, ts !! j = Some t /\ checks t = true.
Proof.
  intros H. destruct (filter (fun t => checks t = true) ts) as [|t l] eqn:E; [unfold checkers in H; by rewrite E in H|].
  assert (t ∈ filter (fun t => checks t = true) ts) as Ht by (rewrite E; by left). apply list_elem_of_filter in Ht as [Hc Ht].
  apply list_elem_of_lookup_1 in Ht as [j Hj]. eauto.
Qed.

(** ** Properties *)

(** One check at a time.  After any messages and answers, with one [Init], the flag says
    exactly whether a check is under way, and there is never a second; only the idle monitor
    is surely online; the loop of retries runs only while offline; and from every state
    after [Init] the answers of the network can bring the monitor back online. *)
Theorem one_check_at_a_time es s ms :
  (inits es <= 1)%nat -> run fresh es = Some (s, ms) ->
  checkers (threads s) = (if checking_connectivity s then 1 else 0)%nat
  /\ (connector s = true -> checking_connectivity s = false -> online s = true)
  /\ (forall t, t ∈ threads s -> retries t = true -> online s = false)
  /\ (connector s = true -> exists es', Forall (fun e => is_run e = true) es' /\ reached s es').
Proof.
  intros Hn Hr. assert (invariant s) as H by (apply (run_invariant es fresh s ms fresh_invariant); [cbn; lia|done]).
  split_and!; [apply H..|]. intros Hc. destruct (checking_connectivity s) eqn:Ek.
  - destruct (checker_exists (threads s)) as (j & t & Hj & Ht); [by rewrite (inv_checkers s H), Ek|]. by apply (reached_any s j t).
  - exists []. split; [done|]. exists s, []. split_and!; [done|by apply H|done].
Qed.

(** Every change is announced.  If a thread raises the messages of its decision before
    others go on, what was raised is the story of the decisions: alternating changes that
    begin with the first time online, each return followed by the wish for peers; and
    whenever nothing is left to say, a module that follows them knows whether we are
    online. *)
Theorem online_announced es s ms :
  prompt fresh es -> run fresh es = Some (s, ms) -> story (online s) (ms ++ unsaid (threads s)).
Proof.
  intros Hp Hr. apply (run_story es fresh [] s ms); [|done|constructor|done]. exists [], []. split_and!; [done..|cbn; lia].
Qed.

(** Offline only when nothing answers: the flag falls only when a connection to each of the
    servers was tried, and each failed. *)
Theorem offline_only_if_unreachable s e s' ms :
  step s e = Some (s', ms) -> online s = true -> online s' = false ->
  exists j l k, e = E_run j (A_results l) /\ threads s !! j = Some (Contact_all k) /\ length l = length servers /\ Forall (fun b => b = false) l.
Proof.
  intros Hs H1 H2. destruct e as [|c u d|comment failed|j a]; cbn [step] in Hs.
  - injection Hs as <- <-. cbn in H2. congruence.
  - destruct (negb _ || _); [injection Hs as <- <-; congruence|]. destruct (periodic_check c u d); [|done]. injection Hs as <- <-. cbn in H2. congruence.
  - destruct (negb (connector s) || _); [injection Hs as <- <-; congruence|].
    destruct (bool_decide _), failed; cbn in Hs; injection Hs as <- <-; cbn in H2; congruence.
  - destruct (threads s !! j) as [t|] eqn:Ej; [|done]. cbn [mbind option_bind] in Hs.
    destruct (run_thread _ t a) as [[[s1 t1] m1]|] eqn:Er; [|done]. cbn in Hs. injection Hs as <- <-. cbn in H2.
    destruct t as [|k i|k| |p|[|m ms'] p], a as [n|b|l|r|]; cbn [run_thread] in Er; try done; unfold check_server_connectivity in Er.
    + destruct (n <? _)%nat; [|done]. injection Er as <- <- <-. cbn in H2. congruence.
    + destruct b, k; cbn in Er; injection Er as <- <- <-; cbn in H2; congruence.
    + destruct (length l =? length servers)%nat eqn:El; [|done]. apply Nat.eqb_eq in El. exists j, l, k. split_and!; [done..|].
      assert (existsb id l = false) as He.
      { apply not_true_is_false. intros He. rewrite He in Er. destruct k; cbn in Er; injection Er as <- <- <-; cbn in H2; congruence. }
      apply Forall_forall. intros b Hb. apply not_true_is_false. intros ->. apply not_true_iff_false in He. apply He, existsb_exists.
      exists true. split; [by apply list_elem_of_In|done].
    + destruct (n <? _)%nat; [|done]. injection Er as <- <- <-. cbn in H2. congruence.
    + destruct r; cbn in Er; injection Er as <- <- <-; cbn in H2; congruence.
    + injection Er as <- <- <-. cbn in H2. congruence.
    + injection Er as <- <- <-. cbn in H2. congruence.
Qed.

End Monitor.

(** ** Witnesses *)

Arguments State : clear implicits.
Arguments event : clear implicits.

Definition none_reached : list bool := replicate (length servers) false.

(** Online after [Init], a list of peers, a ping that times out, no server reached, one
    retry in vain and one with success. *)
Definition demo_events : list (event nat) :=
  [E_init; E_run 0 (A_draw 3); E_run 0 (A_reached true); E_run 0 A_go; E_run 0 A_go; E_run 0 A_go;
   E_listpeers [7%nat] [8%nat; 9%nat] 0; E_run 0 (A_pong Timed_out); E_run 0 (A_draw 5); E_run 0 (A_reached false);
   E_run 0 (A_results none_reached); E_run 0 A_go; E_run 0 A_go; E_run 0 (A_draw 1); E_run 0 (A_reached false);
   E_run 0 (A_results none_reached); E_run 0 (A_draw 2); E_run 0 (A_reached true)].

Definition demo_state : State nat :=
  {| connector := true; online := true; checking_connectivity := false;
     threads := [Say [InternetOnline true; NeedsConnect] false] |}.

Definition demo_messages : list message := [InternetOnline true; NeedsConnect; InternetOnline false].

Lemma demo_online : run fresh demo_events = Some (demo_state, demo_messages).
Proof. vm_compute. reflexivity. Qed.

Lemma one_check_at_a_time_witness :
  (inits demo_events <= 1)%nat /\ checkers (threads demo_state) = 0%nat /\ online demo_state = true.
Proof.
  split; [vm_compute; constructor|].
  destruct (one_check_at_a_time demo_events demo_state demo_messages) as (H1 & H2 & _); [vm_compute; constructor|exact demo_online|].
  split; [exact H1|exact (H2 eq_refl eq_refl)].
Defined.

Lemma demo_prompt : prompt fresh demo_events.
Proof. vm_compute. repeat (split; [first [left; reflexivity|right; reflexivity]|]). exact I. Qed.

Lemma online_announced_witness : story true (demo_messages ++ [InternetOnline true; NeedsConnect]).
Proof. exact (online_announced demo_events demo_state demo_messages demo_prompt demo_online). Defined.

(** The step of the demo that ends online time. *)
Definition lost : State nat := {| connector := true; online := true; checking_connectivity := true; threads := [Contact_all Report] |}.

Lemma offline_only_if_unreachable_witness :
  exists s', step lost (E_run 0 (A_results none_reached)) = Some (s', []) /\ online s' = false
  /\ Forall (fun b => b = false) none_reached.
Proof.
  eexists. split; [vm_compute; reflexivity|]. split; [reflexivity|].
  destruct (offline_only_if_unreachable lost (E_run 0 (A_results none_reached)) _ [] eq_refl eq_refl eq_refl) as (j & l & k & H1 & _ & _ & H).
  injection H1 as _ ->. exact H.
Defined.

End Internet.
