(* ===== verification/Popularity.v ===== *)
(** * Candidates among the peers of popular nodes (src/Boss/Mod/ChannelFinderByPopularity.cpp)

    A pass asks for the channels of every node of the network, samples a few nodes with a
    probability that grows with the number of their peers ([Stats]), and proposes the peers
    of each to preinvestigation.  Passes are asked for by other modules and are postponed
    while too few nodes are known.

    The handlers start green threads; the model has the points where threads wait, and the
    replies of the node, random numbers and shuffles are answers given to it.  Threads run
    in any order.  Log entries are not modelled. *)

From stdpp Require Import base list numbers strings sorting.
From Stdlib Require Import QArith.
From S2P Require Import Prelude.
From S2P Require Import Double.
From S2P Require Import Amount.
From S2P Require Import LnIds.
From S2P Require Import Jsmn.
From S2P Require Import Reply.
From S2P Require Import Stats.
From S2P Require Import Peers.
Import Jsmn.
Import Reply.
Import Peers.

#[local] Open Scope Z_scope.
#[local] Open Scope reply_scope.

Module Popularity.

(** ** The state *)

Definition max_proposals : nat := 5.
Definition min_channels_to_backoff : nat := 4.
Definition become_aggressive_percent : double := d_of_Z 25.

Inductive Network := Network_Bitcoin | Network_Testnet | Network_Regtest | Network_Signet.

Definition default_min_nodes (n : Network) : Z :=
  match n with Network_Bitcoin => 800 | Network_Testnet => 100 | _ => 10 end.

Record Popular := { node : Node; peers : list Node }.

(** Where a thread waits: for the database after [Init]; for the time after a connection;
    for our channels; for the nodes; between two nodes; for the channels of a node; before
    the proposals; for the database before the flag is set; and before the completion is
    told. *)
Inductive thread :=
  | T_init | T_delayed | T_solicit | T_listnodes | T_next | T_channels | T_preinvestigate | T_flag | T_done (failed : bool).

Abbreviation Sampler := (@Reservoir.Sampler Popular).

(** [db] is the flag in the database, if there is a table for it. *)
Record State := {
  rpc : bool; running : bool; try_later : bool; single_proposal_only : bool; have_run : bool; db : option bool;
  become_aggressive : bool; total_owned : option Amount;
  min_nodes_to_process : Z; min_nodes_to_process_set : bool; network : option Network;
  all_nodes : list Node; num_processed : Z; sampler : Sampler; threads : list thread
}.

Definition boot (d : option bool) : State := {|
  rpc := false; running := false; try_later := false; single_proposal_only := false; have_run := false; db := d;
  become_aggressive := false; total_owned := None;
  min_nodes_to_process := 0; min_nodes_to_process_set := false; network := None;
  all_nodes := []; num_processed := 0; sampler := Reservoir.make 0; threads := []
|}.

(** Parts of the state that change together. *)
Definition with_flags (s : State) (running' try_later' single have_run' : bool) (db' : option bool) (aggressive : bool) : State := {|
  rpc := rpc s; running := running'; try_later := try_later'; single_proposal_only := single; have_run := have_run'; db := db';
  become_aggressive := aggressive; total_owned := total_owned s;
  min_nodes_to_process := min_nodes_to_process s; min_nodes_to_process_set := min_nodes_to_process_set s; network := network s;
  all_nodes := all_nodes s; num_processed := num_processed s; sampler := sampler s; threads := threads s |}.

Definition with_pass (s : State) (nodes : list Node) (n : Z) (r : Sampler) : State := {|
  rpc := rpc s; running := running s; try_later := try_later s; single_proposal_only := single_proposal_only s;
  have_run := have_run s; db := db s; become_aggressive := become_aggressive s; total_owned := total_owned s;
  min_nodes_to_process := min_nodes_to_process s; min_nodes_to_process_set := min_nodes_to_process_set s; network := network s;
  all_nodes := nodes; num_processed := n; sampler := r; threads := threads s |}.

Definition with_min_nodes (s : State) (n : Z) (set : bool) : State := {|
  rpc := rpc s; running := running s; try_later := try_later s; single_proposal_only := single_proposal_only s;
  have_run := have_run s; db := db s; become_aggressive := become_aggressive s; total_owned := total_owned s;
  min_nodes_to_process := n; min_nodes_to_process_set := set; network := network s;
  all_nodes := all_nodes s; num_processed := num_processed s; sampler := sampler s; threads := threads s |}.

Definition with_threads (s : State) (ts : list thread) : State := {|
  rpc := rpc s; running := running s; try_later := try_later s; single_proposal_only := single_proposal_only s;
  have_run := have_run s; db := db s; become_aggressive := become_aggressive s; total_owned := total_owned s;
  min_nodes_to_process := min_nodes_to_process s; min_nodes_to_process_set := min_nodes_to_process_set s; network := network s;
  all_nodes := all_nodes s; num_processed := num_processed s; sampler := sampler s; threads := ts |}.

Definition set_flags (s : State) (running' try_later' : bool) : State :=
  with_flags s running' try_later' (single_proposal_only s) (have_run s) (db s) (become_aggressive s).

Definition spawn (s : State) (t : thread) : State := with_threads s (threads s ++ [t]).

(** What the module raises; [Unhandled] is an exception that ends a thread. *)
Inductive output :=
  | Preinvestigate (candidates : list (Node * Node)) (max_candidates : nat)
  | Completed (failed : bool)
  | Unhandled.

Inductive reply := R_result (j : json) | R_error.

(** What a thread gets where it waits: nothing, the database, a reply with the random
    number that the sampler may draw, or the shuffled peers of each selected node. *)
Inductive answer := A_go | A_db | A_reply (r : reply) (u : double) | A_shuffles (l : list (list Node)).

Inductive event :=
  | E_init (n : Network)
  | E_option (value : option json)
  | E_solicit
  | E_tick
  | E_connect
  | E_listfunds (total : Amount)
  | E_run (k : nat) (a : answer).

(** ** The option *)

(** [std::stoll], with the text behind the number. *)
Definition stoll_rest (s : bytes) : option (Z * bytes) :=
  let '(neg, s) := match skip_ws s with
                   | c :: s' => if c =? chr "-" then (true, s') else if c =? chr "+" then (false, s') else (false, c :: s')
                   | [] => (false, [])
                   end in
  match span_digits s with
  | ([], _) => None
  | (ds, rest) =>
      let v := if neg : bool then - digits_value ds else digits_value ds in
      if (- 2 ^ 63 <=? v) && (v <? 2 ^ 63) then Some (v, rest) else None
  end.

(** [inl None]: refused. *)
Definition option_value (value : option json) : outcome (option Z) :=
  match
    (if jis_number value then let* d := number value in let* z := defined (d_to_i64 d) in inl (Some z)
     else if jis_string value then
       let* s := text value in
       let* (v, rest) := or_throw Logic (stoll_rest s) in
       inl (if bool_decide (skip_ws rest = []) then Some v else None)
     else inl None)
  with
  | inr Undefined => inr Undefined
  | inr _ => inl None
  | r => r
  end.

Definition on_option (s : State) (value : option json) : option State :=
  match option_value value with
  | inr _ => None
  | inl None => Some s
  | inl (Some v) =>
      if v <? 0 then
        match network s with
        | None => Some (with_min_nodes s (min_nodes_to_process s) false)
        | Some n => Some (with_min_nodes s (default_min_nodes n) false)
        end
      else Some (with_min_nodes s v true)
  end.

(** ** Reading replies *)

Definition array_field (res : json) (k : string) : outcome (option (list json)) :=
  if negb (jis_object (Some res)) then inl None
  else
    let* h := has (Some res) k in
    if negb h then inl None
    else
      let* a := get (Some res) k in
      inl (match a with Some (JArr l) => Some l | _ => None end).

Section Finder.

(** Our own node; the logarithm of the sampler. *)
Context (self : Node) (log : double -> double).

(** The nodes that the entries of an array name in a field, less our own: the nodes of
    [listnodes], and the destinations of [listchannels]. *)
Fixpoint ids (k : string) (l : list json) : outcome (list Node) :=
  match l with
  | [] => inl []
  | j :: l =>
      if negb (jis_object (Some j)) then ids k l
      else
        let* h := has (Some j) k in
        if negb h then ids k l
        else
          let* id := get (Some j) k in
          if negb (jis_string id) then ids k l
          else
            let* s := text id in
            let* n := nodeid_of s in
            let* ns := ids k l in
            inl (if decide (n = self) then ns else n :: ns)
  end.

(** The set of peers that the channels of a node lead to; [inl None] if there is no such
    array. *)
Definition peers_in (res : json) : outcome (option (list Node)) :=
  let* l := array_field res "channels" in
  match l with
  | None => inl None
  | Some l => let* ns := ids "destination" l in inl (Some (remove_dups ns))
  end.

(** ** Operations *)

Definition on_init (s : State) (n : Network) : State :=
  let s := {|
    rpc := true; running := running s; try_later := try_later s; single_proposal_only := single_proposal_only s;
    have_run := have_run s; db := db s; become_aggressive := become_aggressive s; total_owned := total_owned s;
    min_nodes_to_process := if min_nodes_to_process_set s then min_nodes_to_process s else default_min_nodes n;
    min_nodes_to_process_set := min_nodes_to_process_set s; network := Some n;
    all_nodes := all_nodes s; num_processed := num_processed s; sampler := sampler s; threads := threads s |} in
  spawn s T_init.

Definition on_solicit (s : State) : State :=
  if running s || negb (rpc s) || bool_decide (self = None) then s
  else spawn (set_flags s true (try_later s)) T_solicit.

(** A block, ten minutes, or a connection, while a pass is postponed. *)
Definition retry (s : State) (t : thread) : State :=
  if try_later s then spawn (set_flags s (running s) false) t else s.

Definition on_listfunds (s : State) (owned : Amount) : State :=
  let s' := {|
    rpc := rpc s; running := running s; try_later := try_later s; single_proposal_only := single_proposal_only s;
    have_run := have_run s; db := db s; become_aggressive := become_aggressive s; total_owned := Some owned;
    min_nodes_to_process := min_nodes_to_process s; min_nodes_to_process_set := min_nodes_to_process_set s; network := network s;
    all_nodes := all_nodes s; num_processed := num_processed s; sampler := sampler s; threads := threads s |} in
  match total_owned s with
  | None => s'
  | Some prev =>
      if owned =? 0 then s'
      else if (prev =? 0) || dlt (dadd (d_of_Z 1) (ddiv become_aggressive_percent (d_of_Z 100))) (Amount.ratio owned prev) then
        on_solicit (with_flags s' (running s) (try_later s) (single_proposal_only s) (have_run s) (db s) true)
      else s'
  end.

(** [running] falls at once; the flag in the database and the message follow. *)
Definition signal_task_completion (s : State) (failed : bool) : State * option thread :=
  (set_flags s false (try_later s),
   Some (if negb failed && negb (have_run s) then T_flag else T_done failed)).

Definition got_own_channels (s : State) (channels : nat) : State :=
  let single := if become_aggressive s then false else if negb (have_run s) then false else (min_channels_to_backoff <=? channels)%nat in
  with_flags s (running s) (try_later s) single (have_run s) (db s) false.

Definition capacity (s : State) : nat := if single_proposal_only s then 1 else max_proposals.

Definition start_pass (s : State) (nodes : list Node) : State := with_pass s nodes 0 (Reservoir.clear (sampler s) (capacity s)).

(** The entry of the node at the head of the queue. *)
Definition add_entry (s : State) (n : Node) (ps : list Node) (u : double) : State :=
  with_pass s (all_nodes s) (num_processed s + 1)
    (Reservoir.add log (sampler s) {| node := n; peers := ps |} (d_of_Z (Z.of_nat (length ps))) u).

Definition postpone (s : State) : State := set_flags s (running s) true.

Definition complete_select_by_popularity (s : State) : State * option thread :=
  if num_processed s <? min_nodes_to_process s then
    (postpone (with_pass s (all_nodes s) (num_processed s) (Reservoir.make (Reservoir.max_selected (sampler s)))), None)
  else (s, Some T_preinvestigate).

Definition preinvestigate (p : Popular) (shuffled : list Node) : output := Preinvestigate (map (fun n => (n, node p)) shuffled) 1.

(** The shuffles are permutations of the sets of peers. *)
Definition shuffles_of (ps : list Popular) (l : list (list Node)) : bool :=
  bool_decide (Forall2 (fun p sh => Permutation (peers p) sh) ps l).

Definition finalize_sampler (s : State) : State :=
  with_pass s (all_nodes s) (num_processed s)
    {| Reservoir.max_selected := Reservoir.max_selected (sampler s); Reservoir.selected := []; Reservoir.keys := Reservoir.keys (sampler s) |}.

(** What becomes of a read that may fail; [None] is undefined behaviour. *)
Definition reading {A} (s : State) (m : outcome A) (f : A -> State * option thread) : option (State * option thread * list output) :=
  match m with
  | inl a => Some (f a, [])
  | inr Undefined => None
  | inr _ => Some (s, None, [Unhandled])
  end.

Definition solicit (s : State) (res : json) : option (State * option thread * list output) :=
  reading s (array_field res "channels") (fun l =>
    match l with
    | None => signal_task_completion s true
    | Some l => (got_own_channels s (length l), Some T_listnodes)
    end).

Definition continue_solicit (s : State) (res : json) : option (State * option thread * list output) :=
  match array_field res "nodes" with
  | inl (Some l) =>
      if Z.of_nat (length l) <? min_nodes_to_process s then Some (postpone s, None, [])
      else reading s (ids "nodeid" l) (fun nodes => (start_pass s nodes, Some T_next))
  | m => reading s m (fun _ => signal_task_completion s true)
  end.

Definition got_channels (s : State) (res : json) (u : double) : option (State * option thread * list output) :=
  match all_nodes s with
  | [] => None
  | n :: rest =>
      let s := with_pass s rest (num_processed s) (sampler s) in
      reading s (peers_in res) (fun ps =>
        match ps with
        | None | Some [] => (s, Some T_next)
        | Some ps => (add_entry s n ps u, Some T_next)
        end)
  end.

(** [None]: the answer is not one for that point, or behaviour is undefined. *)
Definition run_thread (s : State) (t : thread) (a : answer) : option (State * option thread * list output) :=
  match t, a with
  | T_init, A_db =>
      let flag := default false (db s) in
      Some (with_flags s (running s) (try_later s) (single_proposal_only s) flag (Some flag) (become_aggressive s), None, [])
  | T_delayed, A_go => Some (s, Some T_solicit, [])
  | T_solicit, A_reply R_error _ | T_listnodes, A_reply R_error _ | T_channels, A_reply R_error _ => Some (s, None, [Unhandled])
  | T_solicit, A_reply (R_result res) _ => solicit s res
  | T_listnodes, A_reply (R_result res) _ => continue_solicit s res
  | T_next, A_go =>
      match all_nodes s with
      | [] => Some (complete_select_by_popularity s, [])
      | _ => Some (s, Some T_channels, [])
      end
  | T_channels, A_reply (R_result res) u => got_channels s res u
  | T_preinvestigate, A_shuffles l =>
      let ps := Reservoir.finalize (sampler s) in
      if shuffles_of ps l then
        Some (signal_task_completion (finalize_sampler s) false, zip_with preinvestigate ps l)
      else None
  | T_flag, A_db =>
      match db s with
      | None => Some (s, None, [Unhandled])
      | Some _ =>
          Some (with_flags s (running s) (try_later s) (single_proposal_only s) true (Some true) (become_aggressive s),
                Some (T_done false), [])
      end
  | T_done failed, A_go => Some (s, None, [Completed failed])
  | _, _ => None
  end.

Definition step (s : State) (e : event) : option (State * list output) :=
  match e with
  | E_init n => Some (on_init s n, [])
  | E_option v => s ← on_option s v; Some (s, [])
  | E_solicit => Some (on_solicit s, [])
  | E_tick => Some (retry s T_solicit, [])
  | E_connect => Some (retry s T_delayed, [])
  | E_listfunds a => Some (on_listfunds s a, [])
  | E_run k a =>
      t ← threads s !! k;
      '(s', t', o) ← run_thread (with_threads s (delete k (threads s))) t a;
      Some (with_threads s' (threads s' ++ option_list t'), o)
  end.

Fixpoint run (s : State) (es : list event) : option (State * list output) :=
  match es with
  | [] => Some (s, [])
  | e :: es => '(s, o) ← step s e; '(s, o') ← run s es; Some (s, o ++ o')
  end.

(** ** One pass at a time *)

Definition b2n (b : bool) : nat := if b then 1 else 0.

(** Threads of a pass. *)
Definition pass (t : thread) : bool := match t with T_init | T_flag | T_done _ => false | _ => true end.

Definition passes (ts : list thread) : nat := length (filter (fun t => pass t = true) ts).

#[local] Arguments passes : simpl never.

Lemma passes_app l1 l2 : passes (l1 ++ l2) = (passes l1 + passes l2)%nat.
Proof. unfold passes. by rewrite filter_app, length_app. Qed.

Lemma passes_one t : passes [t] = b2n (pass t).
Proof. unfold passes. rewrite filter_cons. destruct (pass t) eqn:E; by destruct (decide _). Qed.

Lemma passes_take l k t : l !! k = Some t -> passes l = (b2n (pass t) + passes (delete k l))%nat.
Proof.
  intros H. pose proof (delete_Permutation _ _ _ H) as Hp. unfold passes. rewrite Hp at 1.
  rewrite filter_cons. destruct (pass t); by destruct (decide _).
Qed.

Lemma no_pass ts t : passes ts = 0%nat -> t ∈ ts -> pass t = false.
Proof.
  intros H Ht. apply not_true_is_false. intros Hp. apply length_zero_iff_nil in H.
  assert (t ∈ filter (fun t => pass t = true) ts) as Hin by (by apply list_elem_of_filter). rewrite H in Hin. by apply not_elem_of_nil in Hin.
Qed.

(** What keeps [running] set: passes, a postponed pass, and [lost], those that an
    exception ended. *)
Definition accounted (s : State) (lost : nat) : Prop := (passes (threads s) + b2n (try_later s) + lost = b2n (running s))%nat.

(** A thread outside passes leaves the flags alone. *)
Lemma run_thread_other s t a s' t' o :
  pass t = false -> run_thread s t a = Some (s', t', o) ->
  threads s' = threads s /\ running s' = running s /\ try_later s' = try_later s /\ passes (option_list t') = 0%nat
  /\ (forall c m, Preinvestigate c m ∉ o)
  /\ sampler s' = sampler s /\ num_processed s' = num_processed s /\ single_proposal_only s' = single_proposal_only s
  /\ all_nodes s' = all_nodes s.
Proof.
  intros Hp Hr. destruct t, a as [| |[]|]; cbn [run_thread] in Hr; try done;
    [injection Hr as <- <- <-|destruct (db s); injection Hr as <- <- <-..|injection Hr as <- <- <-]; split_and!; try done; intros c m Hin; apply list_elem_of_In in Hin; cbn in Hin; destruct_or?; done.
Qed.

Lemma reading_some {A} s (m : outcome A) f s' t' o :
  reading s m f = Some (s', t', o) ->
  (exists a, m = inl a /\ f a = (s', t') /\ o = []) \/ (s' = s /\ t' = None /\ o = [Unhandled]).
Proof.
  unfold reading. destruct m as [a|[]]; intros H; try done; [left; exists a|right..]; by (split_and!; injection H).
Qed.

(** How a wait of a pass may end: it goes on, is done, is postponed, or is lost. *)
Inductive fate (s s' : State) (t' : option thread) (o : list output) : Prop :=
  | F_on t : t' = Some t -> pass t = true -> running s' = running s -> try_later s' = try_later s -> o = [] -> fate s s' t' o
  | F_done t : t' = Some t -> pass t = false -> running s' = false -> try_later s' = try_later s -> Unhandled ∉ o -> fate s s' t' o
  | F_later : t' = None -> running s' = running s -> try_later s' = true -> o = [] -> fate s s' t' o
  | F_lost : t' = None -> running s' = running s -> try_later s' = try_later s -> o = [Unhandled] -> fate s s' t' o.

Lemma reading_fate {A} s s0 (m : outcome A) f s' t' o :
  running s0 = running s -> try_later s0 = try_later s ->
  (forall a, fate s (f a).1 (f a).2 []) -> reading s0 m f = Some (s', t', o) -> fate s s' t' o.
Proof.
  intros H1 H2 Hf Hr. apply reading_some in Hr as [(a & _ & Ha & ->)|(-> & -> & ->)]; [|by apply F_lost].
  specialize (Hf a). by rewrite Ha in Hf.
Qed.

Lemma signal_fate s s0 failed o :
  try_later s0 = try_later s -> Unhandled ∉ o -> fate s (signal_task_completion s0 failed).1 (signal_task_completion s0 failed).2 o.
Proof. intros H Ho. eapply F_done; [reflexivity| |done|done|done]. by destruct (negb failed && negb (have_run s0)). Qed.

Lemma run_thread_fate s t a s' t' o :
  pass t = true -> run_thread s t a = Some (s', t', o) -> threads s' = threads s /\ fate s s' t' o.
Proof.
  assert (forall t1, pass t1 = true -> fate s s (Some t1) []) as Hon by (intros; by eapply F_on).
  assert (Unhandled ∉ @nil output) as Hnil by (apply not_elem_of_nil).
  intros Hp Hr. destruct t, a as [| |[res|] u|l]; cbn [run_thread] in Hr; try done.
  - injection Hr as <- <- <-. split; [done|]. by apply Hon.
  - split; [apply reading_some in Hr as [([l|] & _ & Hl & _)|(-> & _)]; [by injection Hl as <- <-..|done]|].
    eapply reading_fate; [done|done| |exact Hr]. intros [l|]; [by eapply F_on|by apply signal_fate].
  - injection Hr as <- <- <-. split; [done|by apply F_lost].
  - unfold continue_solicit in Hr. destruct (array_field res "nodes") as [[l|]|] eqn:Ef.
    + destruct (_ <? _); [injection Hr as <- <- <-; split; [done|by apply F_later]|].
      split; [apply reading_some in Hr as [(ns & _ & Hl & _)|(-> & _)]; [by injection Hl as <- <-|done]|].
      eapply reading_fate; [done|done| |exact Hr]. intros ns. by eapply F_on.
    + split; [by injection Hr as <- <- <-|]. eapply reading_fate; [done|done| |exact Hr]. intros ?. by apply signal_fate.
    + split; [apply reading_some in Hr as [(ns & H & _)|(-> & _)]; done|].
      eapply reading_fate; [done|done| |exact Hr]. intros ?. by apply signal_fate.
  - injection Hr as <- <- <-. split; [done|by apply F_lost].
  - destruct (all_nodes s); [|injection Hr as <- <- <-; split; [done|by apply Hon]].
    unfold complete_select_by_popularity in Hr. destruct (_ <? _); injection Hr as <- <- <-; (split; [done|]); [by apply F_later|by apply Hon].
  - unfold got_channels in Hr. destruct (all_nodes s) as [|n rest]; [done|].
    split; [apply reading_some in Hr as [([[|p ps]|] & _ & Hl & _)|(-> & _)]; [by injection Hl as <- <-..|done]|].
    eapply reading_fate; [| | |exact Hr]; [done..|]. intros [[|p ps]|]; by eapply F_on.
  - injection Hr as <- <- <-. split; [done|by apply F_lost].
  - destruct (shuffles_of _ l); [|done]. injection Hr as <- <- <-. split; [done|].
    apply (signal_fate s (finalize_sampler s) false); [done|]. intros Hin. apply list_elem_of_lookup_1 in Hin as [i Hi].
    rewrite lookup_zip_with in Hi. by destruct (Reservoir.finalize (sampler s) !! i), (l !! i).
Qed.

Lemma on_solicit_accounted s lost : accounted s lost -> accounted (on_solicit s) lost.
Proof.
  unfold accounted, on_solicit. intros H. destruct (running s) eqn:Er; cbn [orb]; [by rewrite Er|].
  destruct (_ || _); [by rewrite Er|]. cbn in *. rewrite passes_app, passes_one. cbn. lia.
Qed.

Lemma step_accounted s e s' o lost :
  accounted s lost -> step s e = Some (s', o) ->
  exists lost', accounted s' lost' /\ (lost <= lost')%nat /\ (Unhandled ∉ o -> lost' = lost).
Proof.
  assert (forall s1, accounted s1 lost -> exists lost', accounted s1 lost' /\ (lost <= lost')%nat /\ (Unhandled ∉ o -> lost' = lost)) as Hsame
    by (intros; by exists lost).
  intros H Hs. destruct e as [n|v| | | |a|k a]; cbn [step] in Hs.
  - injection Hs as <- <-. apply Hsame. unfold accounted in *. cbn. rewrite passes_app, passes_one. cbn. lia.
  - unfold on_option in Hs. destruct (option_value v) as [[z|]|]; [|by injection Hs as <- <-; apply Hsame|done].
    destruct (z <? 0); [destruct (network s)|]; injection Hs as <- <-; by apply Hsame.
  - injection Hs as <- <-. by apply Hsame, on_solicit_accounted.
  - injection Hs as <- <-. apply Hsame. unfold retry, accounted in *. destruct (try_later s) eqn:Et; [|by rewrite Et]. cbn in *. rewrite passes_app, passes_one. cbn. lia.
  - injection Hs as <- <-. apply Hsame. unfold retry, accounted in *. destruct (try_later s) eqn:Et; [|by rewrite Et]. cbn in *. rewrite passes_app, passes_one. cbn. lia.
  - injection Hs as <- <-. apply Hsame. unfold on_listfunds. destruct (total_owned s); [|done]. destruct (a =? 0); [done|].
    destruct (_ || _); [|done]. by apply on_solicit_accounted.
  - destruct (threads s !! k) as [t|] eqn:Ek; [|done]. cbn [mbind option_bind] in Hs.
    destruct (run_thread _ t a) as [[[s1 t1] o1]|] eqn:Er; [|done]. cbn in Hs. injection Hs as <- <-.
    unfold accounted in *. rewrite (passes_take _ _ _ Ek) in H. cbn [threads with_threads running try_later]. rewrite passes_app. destruct (pass t) eqn:Ep.
    + apply run_thread_fate in Er as [Et F]; [|done]. rewrite Et. cbn [threads with_threads b2n] in *. unfold b2n in H at 2.
      destruct (running s) eqn:ER, (try_later s) eqn:EL; cbn in H; try lia.
      destruct F as [t2 -> H1 H2 H3 ->|t2 -> H1 H2 H3 H4| -> H2 H3 ->| -> H2 H3 ->]; cbn in H2, H3; rewrite H2, ?H3, ?ER, ?EL; cbn [b2n].
      * change (option_list (Some t2)) with [t2]. rewrite passes_one, H1. cbn. exists lost. split_and!; [lia..|done].
      * change (option_list (Some t2)) with [t2]. rewrite passes_one, H1. cbn. exists lost. split_and!; [lia..|done].
      * change (passes (option_list None)) with 0%nat. exists lost. split_and!; [lia..|done].
      * change (passes (option_list None)) with 0%nat. exists (S lost). split_and!; [lia..|]. intros Hn. destruct Hn. by left.
    + apply run_thread_other in Er as (Et & H1 & H2 & H3 & _); [|done]. rewrite Et, H1, H2, H3. cbn in *. exists lost. split_and!; [lia..|done].
Qed.

Lemma run_accounted es : forall s lost s' o,
  accounted s lost -> run s es = Some (s', o) ->
  exists lost', accounted s' lost' /\ (lost <= lost')%nat /\ (Unhandled ∉ o -> lost' = lost).
Proof.
  induction es as [|e es IH]; intros s lost s' o Ha Hr; cbn [run] in Hr; [injection Hr as <- <-; by exists lost|].
  destruct (step s e) as [[s1 o1]|] eqn:Es; [|done]. cbn [mbind option_bind] in Hr.
  destruct (run s1 es) as [[s2 o2]|] eqn:Er; [|done]. injection Hr as <- <-.
  destruct (step_accounted s e s1 o1 lost Ha Es) as (l1 & A1 & B1 & C1).
  destruct (IH s1 l1 s2 o2 A1 Er) as (l2 & A2 & B2 & C2). exists l2. split_and!; [done|lia|].
  rewrite elem_of_app. intros Hn. rewrite C2, C1; tauto.
Qed.

Lemma boot_accounted d : accounted (boot d) 0.
Proof. done. Qed.

(** ** What a pass collects *)

Abbreviation entry := (Popular * double * double)%type.

(** *** What a pass was told

    The nodes of the last reply to the question for all nodes, and the replies to the
    questions about channels since then, in order, each with the random number that goes
    with it.  A pass asks about the nodes in the order in which they were listed. *)

Definition Transcript : Type := list Node * list (json * double).

Definition nodes_in (res : json) : list Node :=
  match array_field res "nodes" with
  | inl (Some l) => match ids "nodeid" l with inl ns => ns | inr _ => [] end
  | _ => []
  end.

Definition note_thread (t : thread) (a : answer) (tr : Transcript) : Transcript :=
  match t, a with
  | T_listnodes, A_reply (R_result res) _ => (nodes_in res, [])
  | T_channels, A_reply (R_result res) u => (tr.1, tr.2 ++ [(res, u)])
  | _, _ => tr
  end.

Definition note (s : State) (e : event) (tr : Transcript) : Transcript :=
  match e with
  | E_run k a => match threads s !! k with Some t => note_thread t a tr | None => tr end
  | _ => tr
  end.

Fixpoint transcript (s : State) (es : list event) (tr : Transcript) : Transcript :=
  match es with
  | [] => tr
  | e :: es => match step s e with Some (s', _) => transcript s' es (note s e tr) | None => tr end
  end.

(** The entry of a node: its peers, their number as the weight, and the random number; none
    when it has no peers. *)
Definition entry_of (na : Node * (json * double)) : option entry :=
  match peers_in na.2.1 with
  | inl (Some (p :: ps)) =>
      Some ({| node := na.1; peers := p :: ps |}, d_of_Z (Z.of_nat (length (p :: ps))), na.2.2)
  | _ => None
  end.

Definition entries_of (nodes : list Node) (answers : list (json * double)) : list entry := omap entry_of (zip nodes answers).

Lemma entries_of_snoc nodes answers n a :
  length nodes = length answers -> entries_of (nodes ++ [n]) (answers ++ [a]) = entries_of nodes answers ++ option_list (entry_of (n, a)).
Proof.
  intros H. unfold entries_of. rewrite zip_with_app by done. rewrite omap_app. f_equal.
Qed.

Lemma entries_of_short nodes rest answers :
  length nodes = length answers -> entries_of (nodes ++ rest) answers = entries_of nodes answers.
Proof.
  intros H. unfold entries_of. f_equal. revert answers H. induction nodes as [|n nodes IH]; intros [|a answers] H; cbn in *; try done.
  - by destruct rest.
  - f_equal. apply IH. lia.
Qed.

Lemma ids_foreign k l : forall ns, ids k l = inl ns -> self ∉ ns.
Proof.
  induction l as [|j l IH]; intros ns H; cbn [ids] in H; [injection H as <-; apply not_elem_of_nil|].
  destruct (negb (jis_object (Some j))); [by apply IH|]. destruct (has (Some j) k) as [h|]; [|done]. cbn [obind] in H.
  destruct (negb h); [by apply IH|]. destruct (get (Some j) k) as [id|]; [|done]. cbn [obind] in H.
  destruct (negb (jis_string id)); [by apply IH|]. destruct (text id) as [x|]; [|done]. cbn [obind] in H.
  destruct (nodeid_of x) as [n|]; [|done]. cbn [obind] in H. destruct (ids k l) as [ns'|] eqn:E; [|done]. cbn [obind] in H.
  specialize (IH ns' eq_refl). injection H as <-. destruct (decide (n = self)) as [|Hn]; [done|]. apply not_elem_of_cons. by split.
Qed.

Lemma peers_in_ok res ps : peers_in res = inl (Some ps) -> NoDup ps /\ self ∉ ps.
Proof.
  unfold peers_in. destruct (array_field res "channels") as [[l|]|]; [|done..]. cbn [obind].
  destruct (ids "destination" l) as [ns|] eqn:E; [|done]. cbn [obind]. intros [= <-]. split; [apply NoDup_remove_dups|].
  rewrite elem_of_remove_dups. by eapply ids_foreign.
Qed.

Lemma nodes_in_foreign res : self ∉ nodes_in res.
Proof.
  unfold nodes_in. destruct (array_field res "nodes") as [[l|]|]; try apply not_elem_of_nil.
  destruct (ids "nodeid" l) as [ns|] eqn:E; [by eapply ids_foreign|apply not_elem_of_nil].
Qed.

Lemma transcript_foreign es : forall s tr, self ∉ tr.1 -> self ∉ (transcript s es tr).1.
Proof.
  induction es as [|e es IH]; intros s tr H; cbn [transcript]; [done|]. destruct (step s e) as [[s' o]|]; [|done]. apply IH.
  unfold note. destruct e as [| | | | | |k a]; try done. destruct (threads s !! k) as [t|]; [|done].
  destruct t, a as [| |[res|] u|sh]; try done. apply nodes_in_foreign.
Qed.

(** An entry is of a node with peers, without repetitions and without our own. *)
Lemma entry_of_ok n res u p w v :
  entry_of (n, (res, u)) = Some (p, w, v) ->
  node p = n /\ peers_in res = inl (Some (peers p)) /\ peers p <> [] /\ NoDup (peers p) /\ self ∉ peers p.
Proof.
  unfold entry_of. cbn [fst snd]. destruct (peers_in res) as [[[|q qs]|]|] eqn:E; try done.
  intros H. apply Some_inj in H. injection H as <- _ _. destruct (peers_in_ok _ _ E). by split_and!.
Qed.

Definition scanning (t : thread) : bool := match t with T_next | T_channels | T_preinvestigate => true | _ => false end.

(** The pass so far: the nodes that are still to be asked about are the last of those that
    were listed, and the sampler was given the entries of the others. *)
Definition collected (s : State) (tr : Transcript) : Prop :=
  exists asked, tr.1 = asked ++ all_nodes s /\ length asked = length tr.2
    /\ sampler s = Reservoir.add_all log (Reservoir.make (capacity s)) (entries_of asked tr.2)
    /\ num_processed s = Z.of_nat (length (entries_of asked tr.2)).

Definition at_point (s : State) (tr : Transcript) (t : thread) : Prop :=
  scanning t = true -> collected s tr /\ (t = T_preinvestigate -> all_nodes s = []).

Definition collects (s : State) (tr : Transcript) : Prop := forall t, t ∈ threads s -> at_point s tr t.

(** States that agree on the pass. *)
Lemma collected_eq s s' tr : all_nodes s' = all_nodes s -> sampler s' = sampler s -> num_processed s' = num_processed s ->
  single_proposal_only s' = single_proposal_only s -> collected s tr -> collected s' tr.
Proof. unfold collected, capacity. by intros -> -> -> ->. Qed.

(** A reply about the channels of the next node adds its entry, if it has one. *)
Lemma got_channels_collects s res u s' t' o tr :
  collected s tr -> got_channels s res u = Some (s', t', o) ->
  forall t1, t' = Some t1 -> t1 = T_next /\ collected s' (tr.1, tr.2 ++ [(res, u)]).
Proof.
  intros (asked & H0 & Hl & H1 & H2) Hr t1 Ht1. unfold got_channels in Hr. destruct (all_nodes s) as [|n rest] eqn:En; [done|].
  assert (forall s1 : State, all_nodes s1 = rest -> capacity s1 = capacity s ->
    sampler s1 = Reservoir.add_all log (sampler s) (option_list (entry_of (n, (res, u)))) ->
    num_processed s1 = num_processed s + Z.of_nat (length (option_list (entry_of (n, (res, u))))) ->
    collected s1 (tr.1, tr.2 ++ [(res, u)])) as Hk.
  { intros s1 E1 E2 E3 E4. exists (asked ++ [n]). cbn [fst snd]. rewrite entries_of_snoc, !length_app by done. cbn [length].
    rewrite E1, E2, E3, E4, H1, H2. unfold Reservoir.add_all. rewrite foldl_app, <- app_assoc. split_and!; [done|lia|done|lia]. }
  unfold entry_of in Hk. cbn [fst snd] in Hk.
  apply reading_some in Hr as [([[|p ps]|] & Hp & Hf & _)|(-> & -> & _)]; [| | |done].
  - injection Hf as <- <-. injection Ht1 as <-. split; [done|]. apply Hk; rewrite ?Hp; [done|done|done|]. cbn. lia.
  - injection Hf as <- <-. injection Ht1 as <-. split; [done|]. apply Hk; rewrite ?Hp; done.
  - injection Hf as <- <-. injection Ht1 as <-. split; [done|]. apply Hk; rewrite ?Hp; [done|done|done|]. cbn. lia.
Qed.

Lemma run_thread_collects s t a s' t' o tr :
  at_point s tr t -> run_thread s t a = Some (s', t', o) -> forall t1, t' = Some t1 -> at_point s' (note_thread t a tr) t1.
Proof.
  intros Hc Hr t1 ->. assert (forall t1, scanning t1 = false -> at_point s' (note_thread t a tr) t1) as Hno
    by (intros t2 H2 H; congruence).
  destruct t, a as [| |[res|] u|sh]; cbn [run_thread] in Hr; try done.
  - injection Hr as _ <- _. by apply Hno.
  - apply reading_some in Hr as [([l|] & _ & Hl & _)|(_ & ? & _)]; [..|done]; injection Hl as _ <-; apply Hno; [done|].
    cbn; by destruct (have_run s).
  - unfold continue_solicit in Hr. cbn [note_thread]. unfold nodes_in. destruct (array_field res "nodes") as [[l|]|] eqn:Ef.
    + destruct (_ <? _); [by injection Hr|]. apply reading_some in Hr as [(ns & Hn & Hl & _)|(_ & ? & _)]; [|done].
      rewrite Hn. injection Hl as <- <-. intros _. split; [|done]. exists []. by split_and!.
    + injection Hr as _ <- _. intros H. by destruct (have_run s).
    + apply reading_some in Hr as [(ns & H & _)|(_ & ? & _)]; done.
  - destruct (Hc eq_refl) as [Hl _]. cbn [note_thread]. destruct (all_nodes s) eqn:En.
    + unfold complete_select_by_popularity in Hr. destruct (_ <? _); [by injection Hr|]. injection Hr as <- <- _. intros _. by split.
    + injection Hr as <- <- _. intros _. by split.
  - destruct (Hc eq_refl) as [Hl _]. cbn [note_thread]. intros _.
    destruct (got_channels_collects s res u s' _ o tr Hl Hr t1 eq_refl) as [-> H]. by split.
  - destruct (shuffles_of _ sh); [|done]. injection Hr as _ <- _. apply Hno. cbn; by destruct (have_run s).
  - destruct (db s); injection Hr; [|done]. intros _ <- _. by apply Hno.
Qed.

Lemma collects_keep s s' tr :
  collects s tr -> all_nodes s' = all_nodes s -> sampler s' = sampler s -> num_processed s' = num_processed s ->
  single_proposal_only s' = single_proposal_only s -> (forall t, t ∈ threads s' -> scanning t = true -> t ∈ threads s) -> collects s' tr.
Proof.
  intros H Ha Hs Hn Ho Ht t Hin Hsc. destruct (H t (Ht t Hin Hsc) Hsc) as [Hl Hp]. rewrite Ha. split; [by eapply collected_eq|done].
Qed.

Lemma spawn_collects s t tr : collects s tr -> scanning t = false -> collects (spawn s t) tr.
Proof.
  intros H Ht. apply (collects_keep s); [done..|]. cbn. intros t1 Hin Hsc. apply elem_of_app in Hin as [Hin|Hin]; [done|].
  apply list_elem_of_singleton in Hin as ->. congruence.
Qed.

Lemma on_solicit_collects s tr : collects s tr -> collects (on_solicit s) tr.
Proof.
  intros H. unfold on_solicit. destruct (_ || _); [done|]. apply spawn_collects; [|done]. by apply (collects_keep s).
Qed.

Lemma note_other t a tr : pass t = false -> note_thread t a tr = tr.
Proof. by destruct t, a as [| |[]|]. Qed.

Lemma step_collects s e s' o lost tr :
  accounted s lost -> collects s tr -> step s e = Some (s', o) -> collects s' (note s e tr).
Proof.
  intros Ha H Hs. destruct e as [n|v| | | |a|k a]; cbn [step note] in *.
  - injection Hs as <- <-. apply spawn_collects; [|done]. by apply (collects_keep s).
  - unfold on_option in Hs. destruct (option_value v) as [[z|]|]; [|by injection Hs as <- <-|done].
    destruct (z <? 0); [destruct (network s)|]; injection Hs as <- <-; by apply (collects_keep s).
  - injection Hs as <- <-. by apply on_solicit_collects.
  - injection Hs as <- <-. unfold retry. destruct (try_later s); [|done]. apply spawn_collects; [|done]. by apply (collects_keep s).
  - injection Hs as <- <-. unfold retry. destruct (try_later s); [|done]. apply spawn_collects; [|done]. by apply (collects_keep s).
  - injection Hs as <- <-. unfold on_listfunds. destruct (total_owned s); [|by apply (collects_keep s)]. destruct (a =? 0); [by apply (collects_keep s)|].
    destruct (_ || _); [|by apply (collects_keep s)]. apply on_solicit_collects. by apply (collects_keep s).
  - destruct (threads s !! k) as [t|] eqn:Ek; [|done]. cbn [mbind option_bind] in Hs.
    destruct (run_thread _ t a) as [[[s1 t1] o1]|] eqn:Er; [|done]. cbn in Hs. injection Hs as <- <-.
    unfold accounted in Ha. rewrite (passes_take _ _ _ Ek) in Ha. intros t2 Hin. cbn [threads with_threads] in Hin.
    apply elem_of_app in Hin as [Hin|Hin].
    + destruct (pass t) eqn:Ep.
      * intros Hsc. exfalso. apply run_thread_fate in Er as [Et _]; [|done]. rewrite Et in Hin. cbn in Hin, Ha.
        assert (pass t2 = false) as Hn by (eapply no_pass; [|exact Hin]; unfold b2n in Ha; destruct (running s); lia). by destruct t2.
      * rewrite note_other by done. apply run_thread_other in Er as (Et & _ & _ & _ & _ & E1 & E2 & E3 & E4); [|done].
        rewrite Et in Hin. cbn in Hin, E1, E2, E3, E4. intros Hsc.
        destruct (H t2) as [Hl Hp]; [by eapply list_elem_of_delete_inv|done|]. cbn [all_nodes with_threads]. rewrite E4.
        split; [|done]. revert Hl. by apply collected_eq.
    + destruct t1 as [t1|]; [|by apply not_elem_of_nil in Hin]. apply list_elem_of_singleton in Hin as ->.
      refine (run_thread_collects _ t a s1 (Some t1) o1 tr _ Er t1 eq_refl).
      exact (H t ltac:(by eapply list_elem_of_lookup_2)).
Qed.

Lemma run_collects es : forall s lost s' o tr,
  accounted s lost -> run s es = Some (s', o) -> collects s tr -> collects s' (transcript s es tr).
Proof.
  induction es as [|e es IH]; intros s lost s' o tr Ha Hr Hc; cbn [run transcript] in *; [by injection Hr as <- <-|].
  destruct (step s e) as [[s1 o1]|] eqn:Es; [|done]. cbn [mbind option_bind] in Hr.
  destruct (run s1 es) as [[s2 o2]|] eqn:Er; [|done]. injection Hr as <- <-.
  destruct (step_accounted s e s1 o1 lost Ha Es) as (l1 & A1 & _).
  apply (IH s1 l1 s2 o2 _ A1 Er). by apply (step_collects s e s1 o1 lost).
Qed.

Lemma boot_collects d : collects (boot d) ([], []).
Proof. intros t Ht. by apply not_elem_of_nil in Ht. Qed.

(** ** The minimum of nodes *)

(** The latest number that an option set, unless a negative one withdrew it. *)
Definition chosen_by (c : option Z) (e : event) : option Z :=
  match e with
  | E_option v => match option_value v with inl (Some z) => if z <? 0 then None else Some z | _ => c end
  | _ => c
  end.

Definition network_by (n : option Network) (e : event) : option Network := match e with E_init n => Some n | _ => n end.

Record minimum (s : State) (c : option Z) (n : option Network) : Prop := {
  m_network : network s = n;
  m_set : min_nodes_to_process_set s = bool_decide (is_Some c);
  m_chosen : forall z, c = Some z -> min_nodes_to_process s = z;
  m_default : forall net, c = None -> n = Some net -> min_nodes_to_process s = default_min_nodes net
}.

Lemma minimum_keep s s' c n :
  minimum s c n -> network s' = network s -> min_nodes_to_process_set s' = min_nodes_to_process_set s ->
  min_nodes_to_process s' = min_nodes_to_process s -> minimum s' c n.
Proof. intros [H1 H2 H3 H4] E1 E2 E3. constructor; rewrite ?E1, ?E2, ?E3; done. Qed.

Lemma run_thread_minimum s t a s' t' o : run_thread s t a = Some (s', t', o) ->
  network s' = network s /\ min_nodes_to_process_set s' = min_nodes_to_process_set s /\ min_nodes_to_process s' = min_nodes_to_process s.
Proof.
  assert (forall s1, s' = s1 -> network s1 = network s -> min_nodes_to_process_set s1 = min_nodes_to_process_set s ->
    min_nodes_to_process s1 = min_nodes_to_process s ->
    network s' = network s /\ min_nodes_to_process_set s' = min_nodes_to_process_set s /\ min_nodes_to_process s' = min_nodes_to_process s) as Hk
    by (by intros s1 ->).
  intros Hr. destruct t, a as [| |[res|] u|sh]; cbn [run_thread] in Hr; try done; try (injection Hr as <- <- <-; done).
  - apply reading_some in Hr as [([l|] & _ & Hl & _)|(-> & _ & _)]; [by injection Hl as <- <-..|done].
  - unfold continue_solicit in Hr. destruct (array_field res "nodes") as [[l|]|].
    + destruct (_ <? _); [by injection Hr as <- <- <-|]. apply reading_some in Hr as [(ns & _ & Hl & _)|(-> & _ & _)]; [by injection Hl as <- <-|done].
    + by injection Hr as <- <- <-.
    + apply reading_some in Hr as [(ns & H & _)|(-> & _ & _)]; done.
  - destruct (all_nodes s); [|by injection Hr as <- <- <-]. unfold complete_select_by_popularity in Hr. destruct (_ <? _); by injection Hr as <- <- <-.
  - unfold got_channels in Hr. destruct (all_nodes s); [done|]. apply reading_some in Hr as [([[|p ps]|] & _ & Hl & _)|(-> & _ & _)]; [by injection Hl as <- <-..|done].
  - destruct (shuffles_of _ sh); [|done]. by injection Hr as <- <- <-.
  - destruct (db s); by injection Hr as <- <- <-.
Qed.

Lemma on_solicit_minimum s c n : minimum s c n -> minimum (on_solicit s) c n.
Proof. intros H. unfold on_solicit. destruct (_ || _); [done|]. by apply (minimum_keep s). Qed.

Lemma step_minimum s e s' o c n : minimum s c n -> step s e = Some (s', o) -> minimum s' (chosen_by c e) (network_by n e).
Proof.
  intros H Hs. destruct e as [net|v| | | |a|k a]; cbn [step chosen_by network_by] in *.
  - injection Hs as <- <-. destruct H as [H1 H2 H3 H4]. constructor; cbn; [done..| |]; rewrite H2.
    + intros z ->. rewrite bool_decide_eq_true_2 by done. by apply H3.
    + intros net' -> [= <-]. done.
  - unfold on_option in Hs. destruct (option_value v) as [[z|]|]; [|by injection Hs as <- <-|done]. destruct H as [H1 H2 H3 H4]. rewrite H1 in Hs.
    destruct (z <? 0); [destruct n as [net|]|]; injection Hs as <- <-; constructor; cbn; try done; first [by intros ? [= <-]|by intros ? _ [= <-]].
  - injection Hs as <- <-. by apply on_solicit_minimum.
  - injection Hs as <- <-. unfold retry. destruct (try_later s); [|done]. by apply (minimum_keep s).
  - injection Hs as <- <-. unfold retry. destruct (try_later s); [|done]. by apply (minimum_keep s).
  - injection Hs as <- <-. unfold on_listfunds. destruct (total_owned s); [|by apply (minimum_keep s)]. destruct (a =? 0); [by apply (minimum_keep s)|].
    destruct (_ || _); [|by apply (minimum_keep s)]. apply on_solicit_minimum. by apply (minimum_keep s).
  - destruct (threads s !! k) as [t|]; [|done]. cbn [mbind option_bind] in Hs.
    destruct (run_thread _ t a) as [[[s1 t1] o1]|] eqn:Er; [|done]. cbn in Hs. injection Hs as <- <-.
    destruct (run_thread_minimum _ _ _ _ _ _ Er) as (E1 & E2 & E3). by apply (minimum_keep s).
Qed.

Lemma run_minimum es : forall s s' o c n,
  minimum s c n -> run s es = Some (s', o) -> minimum s' (foldl chosen_by c es) (foldl network_by n es).
Proof.
  induction es as [|e es IH]; intros s s' o c n H Hr; cbn [run] in Hr; [by injection Hr as <- <-|].
  destruct (step s e) as [[s1 o1]|] eqn:Es; [|done]. cbn [mbind option_bind] in Hr.
  destruct (run s1 es) as [[s2 o2]|] eqn:Er; [|done]. injection Hr as <- <-. cbn [foldl].
  eapply IH; [|exact Er]. by eapply step_minimum.
Qed.

(** ** Lost passes *)

Lemma lost_is_one s n : accounted s n -> (1 <= n)%nat -> accounted s 1 /\ running s = true.
Proof. unfold accounted. destruct (running s); cbn; intros; [|lia]. split; [lia|done]. Qed.

Lemma lost_says_nothing s e s' o : accounted s 1 -> step s e = Some (s', o) -> forall c m, Preinvestigate c m ∉ o.
Proof.
  intros Ha Hs c m. destruct e as [n|v| | | |a|k a]; cbn [step] in Hs; try (injection Hs as <- <-; apply not_elem_of_nil).
  - destruct (on_option s v); [|done]. injection Hs as <- <-. apply not_elem_of_nil.
  - destruct (threads s !! k) as [t|] eqn:Ek; [|done]. cbn [mbind option_bind] in Hs.
    destruct (run_thread _ t a) as [[[s1 t1] o1]|] eqn:Er; [|done]. cbn in Hs. injection Hs as <- <-.
    unfold accounted in Ha. assert (passes (threads s) = 0%nat) as H0 by (destruct (running s); cbn in Ha; lia).
    assert (pass t = false) as Hp by (eapply no_pass; [exact H0|by eapply list_elem_of_lookup_2]).
    by apply run_thread_other in Er as (_ & _ & _ & _ & H & _).
Qed.

Lemma lost_for_good es : forall s s' o,
  accounted s 1 -> run s es = Some (s', o) -> running s' = true /\ forall c m, Preinvestigate c m ∉ o.
Proof.
  induction es as [|e es IH]; intros s s' o Ha Hr; cbn [run] in Hr.
  { injection Hr as <- <-. split; [by apply (lost_is_one s 1)|]. intros. apply not_elem_of_nil. }
  destruct (step s e) as [[s1 o1]|] eqn:Es; [|done]. cbn [mbind option_bind] in Hr.
  destruct (run s1 es) as [[s2 o2]|] eqn:Er; [|done]. injection Hr as <- <-.
  destruct (step_accounted s e s1 o1 1 Ha Es) as (l1 & A1 & B1 & _). destruct (lost_is_one s1 l1 A1 B1) as [A _].
  destruct (IH s1 s2 o2 A Er) as [H1 H2]. split; [done|]. intros c m. rewrite elem_of_app. intros [H|H]; [|by eapply H2].
  by apply (lost_says_nothing s e s1 o1 Ha Es c m).
Qed.

(** ** Properties *)

(** One pass at a time.  Whatever is asked for and answered, at most one pass is under way
    or postponed, and only while [running] is set; as long as no exception escaped,
    [running] says exactly that. *)
Theorem one_pass_at_a_time d es s o :
  run (boot d) es = Some (s, o) ->
  (passes (threads s) + b2n (try_later s) <= b2n (running s))%nat
  /\ (Unhandled ∉ o -> (passes (threads s) + b2n (try_later s) = b2n (running s))%nat).
Proof.
  intros Hr. destruct (run_accounted es (boot d) 0 s o (boot_accounted d) Hr) as (lost & H1 & _ & H2). unfold accounted in H1.
  split; [lia|]. intros Hn. rewrite H2 in H1 by done. lia.
Qed.

(** Only a thread that waits before the proposals proposes. *)
Lemma proposes_at_end s t a s' t' o c m :
  run_thread s t a = Some (s', t', o) -> Preinvestigate c m ∈ o -> t = T_preinvestigate.
Proof.
  intros Er Hin. destruct (pass t) eqn:Ep; [|apply run_thread_other in Er as (_ & _ & _ & _ & H & _); [by destruct (H c m)|done]].
  assert (o = [] \/ o = [Unhandled] -> False) as Hno.
  { intros [->| ->]; [by apply not_elem_of_nil in Hin|]. by apply list_elem_of_singleton in Hin. }
  destruct t, a as [| |[res|] u|sh]; try done; exfalso; apply Hno; cbn [run_thread] in Er;
    try (injection Er as <- <- <-; tauto).
  - apply reading_some in Er as [(? & _ & _ & ->)|(_ & _ & ->)]; tauto.
  - unfold continue_solicit in Er. destruct (array_field res "nodes") as [[l|]|]; [destruct (_ <? _); [injection Er as <- <- <-; tauto|]|..];
      apply reading_some in Er as [(? & _ & _ & ->)|(_ & _ & ->)]; tauto.
  - destruct (all_nodes _); injection Er; intros; subst; tauto.
  - unfold got_channels in Er. destruct (all_nodes _); [done|]. apply reading_some in Er as [(? & _ & _ & ->)|(_ & _ & ->)]; tauto.
Qed.

(** C25: the proposals.  A step that proposes anything ends a pass, in which every node that
    the node listed, our own left out, was asked about and answered for.  There is an entry
    for each of those whose answer names peers, with the nodes that its channels lead to, and
    nothing else; the proposals are those of the entries with the largest sampling keys, five
    at most, or one for a node with many channels, and all entries if there are fewer; each
    proposes all peers of its node in some order, of which one may pass.  The sampling keys,
    computed from the weights and the random draws, must be numbers. *)
Theorem popular_proposals d es s o e s' o' c m :
  run (boot d) es = Some (s, o) ->
  let nodes := (transcript (boot d) es ([], [])).1 in
  let answers := (transcript (boot d) es ([], [])).2 in
  let l := entries_of nodes answers in
  Forall (fun '(_, w, u) => Reservoir.number (Reservoir.sample_key log w u)) l ->
  step s e = Some (s', o') -> Preinvestigate c m ∈ o' ->
  length nodes = length answers /\ self ∉ nodes
  /\ Forall (fun '(p, _, _) => peers p <> [] /\ NoDup (peers p) /\ self ∉ peers p) l
  /\ exists sel keys rejected shuffles,
    zip sel keys ++ rejected ≡ₚ Reservoir.keyed log l /\ (forall x k, x ∈ rejected -> k ∈ keys -> dlt k x.2 = false)
    /\ length sel = length keys /\ length sel = Nat.min (if single_proposal_only s then 1 else 5) (length l)
    /\ Forall2 (fun p sh => Permutation (peers p) sh) sel shuffles
    /\ o' = zip_with (fun p sh => Preinvestigate (map (fun n => (n, node p)) sh) 1) sel shuffles.
Proof.
  intros Hr nodes answers l Hn Hs Hin.
  pose proof (run_collects es (boot d) 0 s o ([], []) (boot_accounted d) Hr (boot_collects d)) as Hc.
  destruct e as [n|v| | | |a|k a]; cbn [step] in Hs; try (injection Hs as <- <-; by apply not_elem_of_nil in Hin).
  { destruct (on_option s v); [|done]. injection Hs as <- <-. by apply not_elem_of_nil in Hin. }
  destruct (threads s !! k) as [t|] eqn:Ek; [|done]. cbn [mbind option_bind] in Hs.
  destruct (run_thread _ t a) as [[[s1 t1] o1]|] eqn:Er; [|done]. cbn in Hs. injection Hs as <- <-.
  pose proof (proposes_at_end _ _ _ _ _ _ _ _ Er Hin) as ->.
  destruct (Hc T_preinvestigate) as [(asked & H0 & Hl & H1 & H2) Hall]; [by eapply list_elem_of_lookup_2|done|].
  specialize (Hall eq_refl). rewrite Hall, app_nil_r in H0. fold nodes in H0. subst asked. fold answers l in Hl, H1, H2.
  destruct a as [| |[res|] u|sh]; try done. cbn [run_thread] in Er. cbn [sampler with_threads] in Er. destruct (shuffles_of _ sh) eqn:Esh; [|done].
  injection Er as <- <- <-. unfold shuffles_of in Esh. apply bool_decide_eq_true_1 in Esh.
  split_and!; [done|by apply transcript_foreign, not_elem_of_nil| |].
  { apply Forall_forall. intros [[p w] u] Hp. unfold l, entries_of in Hp. apply list_elem_of_omap in Hp as ((n & res & v) & _ & E).
    apply entry_of_ok in E. tauto. }
  assert (Reservoir.sampled (capacity s) ([] ++ Reservoir.keyed log l) (sampler s)) as HS.
  { rewrite H1. apply Reservoir.add_all_sampled; [|constructor|done]. constructor; [done..|cbn; lia|]. exists []. split; [done|]. intros x y Hx. by apply not_elem_of_nil in Hx. }
  destruct HS as [_ HL HC (rej & HP & HR)]. exists (Reservoir.selected (sampler s)), (Reservoir.keys (sampler s)), rej, sh.
  split_and!; [done|done|done| |done|done]. cbn [app] in HC. unfold Reservoir.keyed in HC. rewrite length_map in HC. done.
Qed.

(** C38: an error reply ends the finder.  When the node answers a question of a pass with an
    error, the exception ends the pass but [running] stays set: whatever happens
    until the plugin is restarted, no pass runs and nothing is proposed. *)
Theorem error_reply_ends_finder d es s o k t u es' s' o' :
  run (boot d) es = Some (s, o) -> threads s !! k = Some t -> pass t = true ->
  run s (E_run k (A_reply R_error u) :: es') = Some (s', o') ->
  running s' = true /\ forall c m, Preinvestigate c m ∉ o'.
Proof.
  intros Hr Hk Hp Hr'. destruct (run_accounted es (boot d) 0 s o (boot_accounted d) Hr) as (lost & H1 & _ & _).
  cbn [run step] in Hr'. rewrite Hk in Hr'. cbn [mbind option_bind] in Hr'.
  assert (accounted (with_threads s (delete k (threads s))) 1) as Ha.
  { unfold accounted in *. rewrite (passes_take _ _ _ Hk), Hp in H1. cbn in *. destruct (running s); cbn in *; lia. }
  assert (forall s0, run_thread s0 t (A_reply R_error u) = None \/ run_thread s0 t (A_reply R_error u) = Some (s0, None, [Unhandled])) as Hcases.
  { intros s0. destruct t; first [by left|by right|done]. }
  destruct (Hcases (with_threads s (delete k (threads s)))) as [E|E]; rewrite E in Hr'; [done|]. cbn [mbind option_bind] in Hr'.
  destruct (run _ es') as [[s2 o2]|] eqn:Er; [|done]. injection Hr' as <- <-.
  apply lost_for_good in Er as [H2 H3]; [|unfold accounted in *; cbn in *; by rewrite app_nil_r].
  split; [done|]. intros c m. rewrite elem_of_cons. intros [H|H]; [done|by apply (H3 c m)].
Qed.

(** The minimum of nodes is, once the network is known, the latest number that an option
    set, or the default of the network if there was none or a negative one withdrew it. *)
Theorem minimum_follows_options d es s o net :
  run (boot d) es = Some (s, o) -> foldl network_by None es = Some net ->
  min_nodes_to_process s = default (default_min_nodes net) (foldl chosen_by None es).
Proof.
  intros Hr Hn. destruct (run_minimum es (boot d) s o None None) as [H1 H2 H3 H4]; [by constructor|done|].
  destruct (foldl chosen_by None es) as [z|] eqn:E; [by apply H3|by apply H4].
Qed.

End Finder.

(** ** Witnesses *)

Definition nid (i : Z) : Node := Some (2 :: replicate 31 0 ++ [i]).

Definition demo_log (u : double) : double := Fin (-1).

Definition channel_to (i : Z) : json := JObj [(lit "destination", JStr (NodeId.to_string (nid i)))].

(** Node 1 has channels with us (node 0), with node 2 twice and with node 3; node 2 with
    node 1; node 3 has none. *)
Definition demo_channels (n : Node) : json :=
  JObj [(lit "channels", JArr (if decide (n = nid 1) then [channel_to 0; channel_to 2; channel_to 2; channel_to 3]
                               else if decide (n = nid 2) then [channel_to 1] else []))].

Definition demo_nodes : json :=
  JObj [(lit "nodes", JArr (map (fun i => JObj [(lit "nodeid", JStr (NodeId.to_string (nid i)))]) [0; 1; 2; 3]))].

Definition draw : double := Fin (1 # 2).

Definition demo_start : list event :=
  [E_init Network_Regtest; E_option (Some (JStr (lit " 2 "))); E_run 0 A_db; E_solicit].

Definition demo_pass : list event :=
  demo_start ++
  [E_run 0 (A_reply (R_result (demo_channels (nid 0))) draw); E_run 0 (A_reply (R_result demo_nodes) draw);
   E_run 0 A_go; E_run 0 (A_reply (R_result (demo_channels (nid 1))) draw);
   E_run 0 A_go; E_run 0 (A_reply (R_result (demo_channels (nid 2))) draw);
   E_run 0 A_go; E_run 0 (A_reply (R_result (demo_channels (nid 3))) draw); E_run 0 A_go].

Definition demo_last : event := E_run 0 (A_shuffles [[nid 3; nid 2]; [nid 1]]).

Definition demo_end (es : list event) : State * list output := default (boot None, []) (run (nid 0) demo_log (boot None) es).

Lemma demo_ends es : bool_decide (is_Some (run (nid 0) demo_log (boot None) es)) = true ->
  run (nid 0) demo_log (boot None) es = Some ((demo_end es).1, (demo_end es).2).
Proof. intros [[s o] H]%bool_decide_eq_true_1. unfold demo_end. by rewrite H. Qed.

Lemma one_pass_at_a_time_witness :
  (passes (threads (demo_end demo_pass).1) + b2n (try_later (demo_end demo_pass).1) <= b2n (running (demo_end demo_pass).1))%nat
  /\ threads (demo_end demo_pass).1 = [T_preinvestigate].
Proof.
  destruct (one_pass_at_a_time (nid 0) demo_log None demo_pass _ _ (demo_ends demo_pass eq_refl)) as [H _].
  split; [exact H|vm_compute; reflexivity].
Defined.

Lemma rounded_number q : RN q <> NaN.
Proof. unfold RN. destruct (Qcompare q 0); [done|destruct (Qle_bool _ _); done..]. Qed.

Lemma demo_number n u : Reservoir.number (Reservoir.sample_key demo_log (d_of_Z n) u).
Proof.
  unfold Reservoir.number, Reservoir.sample_key, demo_log, d_of_Z. pose proof (rounded_number (inject_Z n)) as H.
  destruct (RN (inject_Z n)) as [q|b|]; cbn [ddiv]; [|done..]. destruct (Qeq_bool q 0); [done|]. apply rounded_number.
Qed.

(** What the sample pass was told. *)
Definition demo_transcript : Transcript :=
  ([nid 1; nid 2; nid 3],
   [(demo_channels (nid 1), draw); (demo_channels (nid 2), draw); (demo_channels (nid 3), draw)]).

Lemma demo_transcript_ok : transcript (nid 0) demo_log (boot None) demo_pass ([], []) = demo_transcript.
Proof. vm_compute. reflexivity. Qed.

Definition demo_proposal : list (Node * Node) := [(nid 3, nid 1); (nid 2, nid 1)].

Lemma demo_proposed : exists s' o',
  step (nid 0) demo_log (demo_end demo_pass).1 demo_last = Some (s', o') /\ Preinvestigate demo_proposal 1 ∈ o' /\ length o' = 2%nat.
Proof. eexists _, _. split; [vm_compute; reflexivity|]. split; [left|reflexivity]. Qed.

Lemma popular_proposals_witness :
  exists sel, map node sel ≡ₚ [nid 1; nid 2] /\ map peers sel ≡ₚ [[nid 2; nid 3]; [nid 1]].
Proof.
  destruct demo_proposed as (s' & o' & Hs & Hin & Hlen).
  destruct (popular_proposals (nid 0) demo_log None demo_pass _ _ demo_last s' o' demo_proposal 1
    (demo_ends demo_pass eq_refl)) as (_ & _ & _ & sel & ks & rej & sh & HP & _ & HL & HC & HF & HO).
  - apply Forall_forall. intros [[p w] u] Hp. apply list_elem_of_omap in Hp as ((n & res & v) & _ & E). unfold entry_of in E.
    destruct (peers_in (nid 0) _) as [[[|q qs]|]|]; try discriminate E. apply Some_inj in E. injection E as _ <- _. apply demo_number.
  - exact Hs.
  - exact Hin.
  - rewrite demo_transcript_ok in HP, HC.
    assert (exists l0, entries_of (nid 0) demo_transcript.1 demo_transcript.2 = l0 /\ length l0 = 2%nat
      /\ map (fun e => node e.1.1) l0 = [nid 1; nid 2] /\ map (fun e => peers e.1.1) l0 = [[nid 2; nid 3]; [nid 1]]) as (l0 & E0 & E1 & E2 & E3)
      by (eexists; split; [reflexivity|vm_compute; auto]).
    rewrite E0 in HP, HC. rewrite E1 in HC.
    assert (single_proposal_only (demo_end demo_pass).1 = false) as Es by (vm_compute; reflexivity). rewrite Es in HC. cbn in HC.
    assert (rej = []) as ->.
    { apply Permutation_length in HP. rewrite length_app, length_zip_with in HP. unfold Reservoir.keyed in HP. rewrite length_map in HP.
      rewrite <- HL, Nat.min_id, HC, E1 in HP. apply nil_length_inv. lia. }
    rewrite app_nil_r in HP. exists sel. rewrite <- E2, <- E3. apply (Permutation_map fst) in HP.
    assert (map fst (zip sel ks) = sel) as Ez by (apply fst_zip; lia). rewrite Ez in HP. unfold Reservoir.keyed in HP. rewrite map_map in HP.
    split; rewrite HP, map_map; (erewrite map_ext; [reflexivity|by intros [[p w] u]]).
Defined.

Lemma error_reply_ends_finder_witness :
  running (demo_end (demo_start ++ [E_run 0 (A_reply R_error draw); E_solicit; E_tick; E_connect])).1 = true.
Proof.
  refine (proj1 (error_reply_ends_finder (nid 0) demo_log None demo_start _ _ 0 T_solicit draw [E_solicit; E_tick; E_connect]
    _ [Unhandled] (demo_ends demo_start eq_refl) eq_refl eq_refl _)).
  vm_compute. reflexivity.
Defined.

Lemma minimum_follows_options_witness : min_nodes_to_process (demo_end demo_start).1 = 2.
Proof.
  exact (minimum_follows_options (nid 0) demo_log None demo_start _ _ Network_Regtest (demo_ends demo_start eq_refl) eq_refl).
Defined.

End Popularity.
