(* ===== verification/Plugin.v ===== *)
(** * Commands and hooks of the node (src/Boss/Mod/CommandReceiver.cpp,
      src/Boss/Mod/HtlcAcceptor.cpp, src/Boss/Mod/DemandTracker.cpp,
      src/Boss/Mod/JsonOutputter.cpp)

    The node sends requests and notifications to the plugin.  The receiver keeps the
    identifiers of requests until a module answers them, and the outputter writes the
    answers line by line.  The acceptor answers the hook for incoming HTLCs: it asks the
    modules that may want to defer one, and waits a while if one does; the tracker of
    demand is such a module, which only looks and never defers.

    Handlers are green threads; the model has the points where they wait, and threads run
    in any order. *)

From stdpp Require Import base list numbers strings gmap.
From S2P Require Import Prelude.
From S2P Require Import Double.
From S2P Require Import Amount.
From S2P Require Import LnIds.
From S2P Require Import UtilStr.
From S2P Require Import Jsmn.
From S2P Require Import Reply.
From S2P Require Import JsonText.
From S2P Require Import Sendpays.
Import Jsmn.
Import Reply.

#[local] Open Scope Z_scope.
#[local] Open Scope reply_scope.

(** ** The output *)

Module Output.

(** [cout], the queue, and the number of running loops. *)
Record State := { cout : bytes; outs : list bytes; loops : nat }.

Definition make : State := {| cout := []; outs := []; loops := 0 |}.

Definition push (s : State) (obj : bytes) : State :=
  {| cout := cout s; outs := outs s ++ [obj]; loops := if bool_decide (outs s = []) then S (loops s) else loops s |}.

Definition line (obj : bytes) : bytes := obj ++ [10].

(** One turn of a loop; [None] if no loop runs. *)
Definition loop (s : State) : option State :=
  match loops s, outs s with
  | O, _ => None
  | S n, [] => Some {| cout := cout s; outs := []; loops := n |}
  | S n, obj :: rest => Some {| cout := cout s ++ line obj; outs := rest; loops := S n |}
  end.

Definition step (s : State) (e : option bytes) : option State :=
  match e with Some obj => Some (push s obj) | None => loop s end.

Fixpoint run (s : State) (es : list (option bytes)) : option State :=
  match es with [] => Some s | e :: es => s ← step s e; run s es end.

Definition output_ok (s : State) (pushed : list bytes) : Prop :=
  (exists done, pushed = done ++ outs s /\ cout s = concat (map line done)) /\ (outs s <> [] -> loops s <> O).

Lemma output_step_ok s e s' pushed :
  output_ok s pushed -> step s e = Some s' -> output_ok s' (pushed ++ option_list e).
Proof.
  intros [(l & E1 & E2) H] Hs. destruct e as [obj|]; cbn [step] in Hs.
  - injection Hs as <-. split; [exists l; cbn; split; [by rewrite E1, app_assoc|done]|]. cbn. intros _.
    case_bool_decide as D; [done|]. by apply H.
  - unfold loop in Hs. change (option_list None) with (@nil bytes). rewrite app_nil_r.
    destruct (loops s) as [|n]; [done|]. destruct (outs s) as [|obj rest]; injection Hs as <-; cbn.
    + split; [exists l; by rewrite E1|done].
    + split; [|done]. exists (l ++ [obj]). rewrite E1, <- app_assoc. split; [done|]. cbn.
      rewrite E2, map_app, concat_app. cbn. by rewrite app_nil_r.
Qed.

Lemma output_run_ok es : forall s s' pushed,
  output_ok s pushed -> run s es = Some s' -> output_ok s' (pushed ++ omap id es).
Proof.
  induction es as [|e es IH]; intros s s' pushed H Hr; cbn [run] in Hr; [injection Hr as <-; by rewrite app_nil_r|].
  destruct (step s e) as [s1|] eqn:E; [|done]. cbn [mbind option_bind] in Hr. pose proof (output_step_ok _ _ _ _ H E) as H1.
  specialize (IH s1 s' _ H1 Hr). rewrite <- app_assoc in IH. destruct e; done.
Qed.

(** The lines of the output are, in order, the first of the objects that were pushed; what
    was not written waits, and as long as something waits a loop runs that will write it. *)
Theorem lines_in_order es s :
  run make es = Some s ->
  (exists done, omap id es = done ++ outs s /\ cout s = concat (map line done)) /\ (outs s <> [] -> loops s <> O).
Proof. intros Hr. apply (output_run_ok es make s []); [|done]. split; [by exists []|done]. Qed.

Lemma lines_in_order_witness : exists s,
  run make [Some [65]; Some [66]; None; Some [67]; None] = Some s /\ outs s = [[67]] /\ loops s <> O.
Proof.
  eexists. split; [reflexivity|]. split; [reflexivity|].
  apply (lines_in_order [Some [65]; Some [66]; None; Some [67]; None] _ eq_refl). discriminate.
Defined.

End Output.

(** ** The receiver *)

Module Receiver.
Import Out.

Inductive CommandId := NumId (n : Z) | StrId (s : bytes).

#[global] Instance CommandId_eq_dec : EqDecision CommandId.
Proof. solve_decision. Defined.
#[global] Instance CommandId_countable : Countable CommandId.
Proof.
  refine (inj_countable' (fun i => match i with NumId n => inl n | StrId s => inr s end)
    (fun x => match x with inl n => NumId n | inr s => StrId s end) _). by intros [].
Defined.

Definition string_to_u64 (t : bytes) : Z := ur_value (istream_uint UINT64_MAX t).

Definition command_id_from_jsmn_object (j : option json) : outcome (option CommandId) :=
  if jis_number j then inl (Some (NumId (string_to_u64 (match j with Some (JPrim t) => t | _ => [] end))))
  else if jis_string j then let* s := Reply.text j in inl (Some (StrId s))
  else inl None.

Definition id_value (id : CommandId) : value := match id with NumId n => VInt n | StrId s => VString s end.

(** The text of a chain of calls. *)
Definition built (cs : list (call value)) : bytes := match run make cs with Some s => content s | None => [] end.

(** What the receiver does with an object from the node. *)
Inductive received :=
  | Ignored
  | Notification (method : bytes) (params : option json)
  | Hook (reply : bytes) (params : option json)
  | Request (id : CommandId) (method : bytes) (params : option json).

Definition hook_reply (id : option json) : bytes :=
  built [StartObject; Field (lit "jsonrpc") (VString (lit "2.0")); Field (lit "id") (VObject id);
         FieldObject (lit "result"); Field (lit "result") (VString (lit "continue")); EndObject; EndObject].

Definition receive (inp : json) : outcome received :=
  let o := Some inp in
  if negb (jis_object o) then inl Ignored
  else
    let* h := has o "method" in
    if negb h then inl Ignored
    else
      let* m := get o "method" in
      if negb (jis_string m) then inl Ignored
      else
        let* h := has o "params" in
        if negb h then inl Ignored
        else
          let* method := Reply.text m in
          let* params := get o "params" in
          let* h := has o "id" in
          if negb h then inl (Notification method params)
          else
            let* id := get o "id" in
            if decide (method = lit "rpc_command") then inl (Hook (hook_reply id) params)
            else
              let* pid := command_id_from_jsmn_object id in
              inl (match pid with Some id => Request id method params | None => Ignored end).

Definition response_text (id : CommandId) (result : bytes) : bytes :=
  built [StartObject; Field (lit "jsonrpc") (VString (lit "2.0")); Field (lit "id") (id_value id);
         Field (lit "result") (VOut result); EndObject].

Definition fail_text (id : CommandId) (code : Z) (message data : bytes) : bytes :=
  built [StartObject; Field (lit "jsonrpc") (VString (lit "2.0")); Field (lit "id") (id_value id);
         FieldObject (lit "error"); Field (lit "code") (VInt code); Field (lit "message") (VString message);
         Field (lit "data") (VOut data); EndObject; EndObject].

(** An answer to a request that is pending is written, and the request forgotten. *)
Definition on_answer (pendings : gset CommandId) (id : CommandId) (text : bytes) : gset CommandId * option bytes :=
  if decide (id ∈ pendings) then (pendings ∖ {[id]}, Some text) else (pendings, None).

Definition on_response (pendings : gset CommandId) (id : CommandId) (result : bytes) : gset CommandId * option bytes :=
  on_answer pendings id (response_text id result).

Definition on_fail (pendings : gset CommandId) (id : CommandId) (code : Z) (message data : bytes) : gset CommandId * option bytes :=
  on_answer pendings id (fail_text id code message data).

End Receiver.

(** ** The acceptor of HTLCs *)

Module Htlc.
Import Receiver.

Abbreviation Scid := Z.

(** [src/Ln/HtlcAccepted.hpp].  [next_channel] is 0 if we are the recipient. *)
Record Request := {
  incoming_payload : bytes; incoming_amount : Amount; incoming_cltv : Z; type_tlv : bool;
  next_channel : Scid; next_amount : Amount; next_cltv : Z; next_onion : bytes;
  payment_hash : bytes; payment_secret : option bytes
}.

Inductive Response := Cont (id : CommandId) | Fail (id : CommandId) (message : bytes) | Resolve (id : CommandId) (preimage : bytes).

Definition resp_id (r : Response) : CommandId := match r with Cont id | Fail id _ | Resolve id _ => id end.

Definition hex_of (o : option json) : outcome bytes := let* s := Reply.text o in or_throw Runtime (Str.hexread s).

Definition u32_of (o : option json) : outcome Z :=
  let* d := number o in let* z := defined (d_to_u64 d) in if z <? 2 ^ 32 then inl z else inr Undefined.

(** [Ln::Preimage] *)
Definition preimage_of (s : bytes) : outcome bytes :=
  let* b := or_throw Runtime (Str.hexread s) in if (length b =? 32)%nat then inl b else inr Logic.

Definition parse_payload (payload : option json) : outcome Request :=
  let* onion := get payload "onion" in
  let* htlc := get payload "htlc" in
  let* p := get onion "payload" in
  let* incoming_payload := hex_of p in
  let* a := get htlc "amount_msat" in
  let* incoming_amount := amount_object a in
  let* c := get htlc "cltv_expiry" in
  let* incoming_cltv := u32_of c in
  let* h := has onion "type" in
  let* type_tlv := (if (h : bool) then let* t := get onion "type" in let* s := Reply.text t in inl (bool_decide (s = lit "tlv")) else inl false) in
  let* h := has onion "short_channel_id" in
  let* (next_channel, next_amount, next_cltv) :=
    (if (h : bool) then
       let* s := get onion "short_channel_id" in
       let* s := Reply.text s in
       let* scid := scid_of s in
       let* f := get onion "forward_msat" in
       let* amount := amount_object f in
       let* o := get onion "outgoing_cltv_value" in
       let* cltv := u32_of o in
       inl (scid, amount, cltv)
     else inl (0, incoming_amount, incoming_cltv)) in
  let* n := get onion "next_onion" in
  let* next_onion := hex_of n in
  let* ph := get htlc "payment_hash" in
  let* ph := Reply.text ph in
  let* payment_hash := Sendpays.hash_of ph in
  let* h := has onion "payment_secret" in
  let* payment_secret := (if (h : bool) then let* s := get onion "payment_secret" in let* s := Reply.text s in let* b := preimage_of s in inl (Some b) else inl None) in
  inl {| incoming_payload := incoming_payload; incoming_amount := incoming_amount; incoming_cltv := incoming_cltv;
         type_tlv := type_tlv; next_channel := next_channel; next_amount := next_amount; next_cltv := next_cltv;
         next_onion := next_onion; payment_hash := payment_hash; payment_secret := payment_secret |}.

(** The functions that may defer: that of the tracker of demand, or any other. *)
Inductive deferrer := Tracker | Other.

Inductive effect :=
  | Wrote (id : CommandId) (text : bytes)       (** an answer to a request *)
  | Hooked (text : bytes)                       (** the reply to [rpc_command] *)
  | DemandObserved (channel : Scid)
  | Unhandled.                                  (** an exception that ends a thread *)

#[global] Instance effect_eq_dec : EqDecision effect.
Proof. solve_decision. Defined.

(** [DemandTracker::htlc_accepted]: what it raises; it always declines. *)
Definition htlc_accepted_demand (req : Request) : list effect :=
  if next_channel req =? 0 then [] else [DemandObserved (next_channel req)].

Definition demand (req : Request) (d : deferrer) : list effect :=
  match d with Tracker => htlc_accepted_demand req | Other => [] end.

(** Where a thread waits: before the hook is handled; in [solicit], before its test and
    while the message is raised; before the deferrers are asked; for their verdicts; for
    the time that an HTLC is deferred; before a release is handled; before the answer. *)
Inductive thread :=
  | T_request (id : CommandId) (params : option json)
  | T_solicit (id : CommandId) (req : Request)
  | T_raise (id : CommandId) (req : Request)
  | T_arrived (id : CommandId) (req : Request)
  | T_ask (id : CommandId) (ds : list deferrer)
  | T_wait (id : CommandId)
  | T_release (r : Response)
  | T_respond (id : CommandId) (result : bytes).

Record State := {
  pendings : gset CommandId;
  soliciting : bool; solicited : bool; deferrers : list deferrer;
  deferring : gset CommandId; deferred : gset CommandId;
  threads : list thread
}.

Definition fresh : State := {|
  pendings := ∅; soliciting := false; solicited := false; deferrers := []; deferring := ∅; deferred := ∅; threads := [] |}.

Definition with_pendings (s : State) (p : gset CommandId) : State := {|
  pendings := p; soliciting := soliciting s; solicited := solicited s; deferrers := deferrers s;
  deferring := deferring s; deferred := deferred s; threads := threads s |}.
Definition with_solicit (s : State) (ing ed : bool) (ds : list deferrer) : State := {|
  pendings := pendings s; soliciting := ing; solicited := ed; deferrers := ds;
  deferring := deferring s; deferred := deferred s; threads := threads s |}.
Definition with_sets (s : State) (ing ed : gset CommandId) : State := {|
  pendings := pendings s; soliciting := soliciting s; solicited := solicited s; deferrers := deferrers s;
  deferring := ing; deferred := ed; threads := threads s |}.
Definition with_threads (s : State) (ts : list thread) : State := {|
  pendings := pendings s; soliciting := soliciting s; solicited := solicited s; deferrers := deferrers s;
  deferring := deferring s; deferred := deferred s; threads := ts |}.

(** *** Operations *)

Definition release_result (r : Response) : bytes :=
  match r with
  | Cont _ => built [Out.StartObject; Out.Field (lit "result") (Out.VString (lit "continue")); Out.EndObject]
  | Fail _ m =>
      built [Out.StartObject; Out.Field (lit "result") (Out.VString (lit "fail"));
             Out.Field (lit "failure_message") (Out.VString (Str.hexdump m)); Out.EndObject]
  | Resolve _ p =>
      built [Out.StartObject; Out.Field (lit "result") (Out.VString (lit "resolve"));
             Out.Field (lit "payment_key") (Out.VString (Str.hexdump p)); Out.EndObject]
  end.

Definition release_htlc_accepted (s : State) (r : Response) : State * option thread :=
  let id := resp_id r in
  if decide (id ∈ deferred s) then (with_sets s (deferring s) (deferred s ∖ {[id]}), Some (T_respond id (release_result r)))
  else if decide (id ∈ deferring s) then (with_sets s (deferring s ∖ {[id]}) (deferred s), Some (T_respond id (release_result r)))
  else (s, None).

Definition finish (s : State) (id : CommandId) : option thread := if decide (id ∈ deferred s) then Some (T_release (Cont id)) else None.

(** The verdicts of the deferrers; [None] is one that threw. *)
Fixpoint verdicts_of (ds : list deferrer) (vs : list (option bool)) : bool :=
  match ds, vs with
  | [], [] => true
  | Tracker :: ds, Some false :: vs | Other :: ds, _ :: vs => verdicts_of ds vs
  | _, _ => false
  end.

Definition asked (s : State) (id : CommandId) (vs : list (option bool)) : State * option thread * list effect :=
  if decide (None ∈ vs) then (s, None, [Unhandled])
  else if decide (id ∈ deferring s) then
    let s := with_sets s (deferring s ∖ {[id]}) (deferred s ∪ {[id]}) in
    (s, if decide (Some true ∈ vs) then Some (T_wait id) else finish s id, [])
  else (s, None, []).

Definition respond (s : State) (id : CommandId) (result : bytes) : State * list effect :=
  let '(p, text) := on_response (pendings s) id result in
  (with_pendings s p, match text with Some t => [Wrote id t] | None => [] end).

(** [vs] are the verdicts, where a thread waits for them.  [None] is undefined behaviour,
    or verdicts that the deferrers cannot give. *)
Definition run_thread (s : State) (t : thread) (vs : list (option bool)) : option (State * option thread * list effect) :=
  match t with
  | T_request id params =>
      match parse_payload params with
      | inl req => Some (s, Some (T_solicit id req), [])
      | inr Undefined => None
      | inr _ => Some (s, None, [Unhandled])
      end
  | T_solicit id req =>
      if solicited s then Some (s, Some (T_arrived id req), [])
      else if soliciting s then Some (s, Some (T_solicit id req), [])
      else Some (with_solicit s true (solicited s) (deferrers s), Some (T_raise id req), [])
  | T_raise id req => Some (with_solicit s false true (deferrers s), Some (T_arrived id req), [])
  | T_arrived id req =>
      Some (with_sets s (deferring s ∪ {[id]}) (deferred s), Some (T_ask id (deferrers s)), deferrers s ≫= demand req)
  | T_ask id ds => if verdicts_of ds vs then Some (asked s id vs) else None
  | T_wait id => Some (s, finish s id, [])
  | T_release r => Some (release_htlc_accepted s r, [])
  | T_respond id result => let '(s, e) := respond s id result in Some (s, None, e)
  end.

Inductive event :=
  | E_cin (inp : json)                                             (** an object from the node *)
  | E_provide (d : deferrer)
  | E_release (r : Response)                                       (** a module releases an HTLC *)
  | E_response (id : CommandId) (result : bytes)                   (** another module answers *)
  | E_fail (id : CommandId) (code : Z) (message data : bytes)
  | E_run (k : nat) (vs : list (option bool)).

Definition add_threads (s : State) (t : option thread) : State := with_threads s (threads s ++ option_list t).

(** Requests for other modules only leave their identifier. *)
Definition on_cin (s : State) (r : received) : State * list effect :=
  match r with
  | Receiver.Request id method params =>
      (add_threads (with_pendings s (pendings s ∪ {[id]}))
         (if decide (method = lit "htlc_accepted") then Some (T_request id params) else None), [])
  | Hook text _ => (s, [Hooked text])
  | _ => (s, [])
  end.

Definition answer (s : State) (a : gset CommandId * option bytes) (id : CommandId) : State * list effect :=
  (with_pendings s a.1, match a.2 with Some t => [Wrote id t] | None => [] end).

Definition step (s : State) (e : event) : option (State * list effect) :=
  match e with
  | E_cin inp => match receive inp with inl r => Some (on_cin s r) | inr _ => None end
  | E_provide d =>
      Some (if soliciting s then with_solicit s true (solicited s) (deferrers s ++ [d]) else s, [])
  | E_release r => let '(s, t) := release_htlc_accepted s r in Some (add_threads s t, [])
  | E_response id result => Some (answer s (on_response (pendings s) id result) id)
  | E_fail id code message data => Some (answer s (on_fail (pendings s) id code message data) id)
  | E_run k vs =>
      t ← threads s !! k;
      '(s', t', e) ← run_thread (with_threads s (delete k (threads s))) t vs;
      Some (add_threads s' t', e)
  end.

Fixpoint run (s : State) (es : list event) : option (State * list effect) :=
  match es with
  | [] => Some (s, [])
  | e :: es => '(s, o) ← step s e; '(s, o') ← run s es; Some (s, o ++ o')
  end.

(** *** Counting *)

Definition holds (x : CommandId) (X : gset CommandId) : nat := if decide (x ∈ X) then 1 else 0.

Lemma holds_1 x (X : gset CommandId) : x ∈ X -> holds x X = 1%nat.
Proof. intros H. unfold holds. by rewrite decide_True. Qed.
Lemma holds_0 x (X : gset CommandId) : x ∉ X -> holds x X = 0%nat.
Proof. intros H. unfold holds. by rewrite decide_False. Qed.
Lemma holds_le x X : (holds x X <= 1)%nat.
Proof. unfold holds. destruct (decide _); lia. Qed.
Lemma holds_add x y X : holds x (X ∪ {[y]}) = if decide (x = y) then 1%nat else holds x X.
Proof. unfold holds. repeat destruct (decide _); set_solver. Qed.
Lemma holds_del x y X : holds x (X ∖ {[y]}) = if decide (x = y) then 0%nat else holds x X.
Proof. unfold holds. repeat destruct (decide _); set_solver. Qed.

Definition count (x : CommandId) (l : list CommandId) : nat := length (filter (fun y => y = x) l).

#[local] Arguments count : simpl never.
#[local] Arguments holds : simpl never.

Lemma id_count_nil x : count x [] = 0%nat.
Proof. done. Qed.
Lemma id_count_app x l1 l2 : count x (l1 ++ l2) = (count x l1 + count x l2)%nat.
Proof. unfold count. by rewrite filter_app, length_app. Qed.
Lemma count_one x y : count x [y] = if decide (x = y) then 1%nat else 0%nat.
Proof. unfold count. rewrite filter_cons. destruct (decide (y = x)), (decide (x = y)); by subst. Qed.
Lemma id_count_perm x l1 l2 : l1 ≡ₚ l2 -> count x l1 = count x l2.
Proof. intros H. unfold count. by rewrite H. Qed.
Lemma count_0 x l : x ∉ l -> count x l = 0%nat.
Proof.
  intros H. unfold count. rewrite length_zero_iff_nil. destruct (filter _ l) as [|y k] eqn:E; [done|].
  assert (y ∈ filter (fun y => y = x) l) as Hy by (rewrite E; by left). apply list_elem_of_filter in Hy as [-> Hy]. done.
Qed.
Lemma count_pos x l : x ∈ l -> (1 <= count x l)%nat.
Proof. intros (l1 & l2 & ->)%list_elem_of_split. rewrite id_count_app. change (x :: l2) with ([x] ++ l2). rewrite id_count_app, count_one, decide_True by done. lia. Qed.
Lemma count_nodup x l : NoDup l -> (count x l <= 1)%nat.
Proof.
  intros H. unfold count. apply (NoDup_filter (fun y => y = x)) in H. destruct (filter _ l) as [|y [|z k]] eqn:E; cbn; [lia..|].
  assert (y = x /\ z = x) as [-> ->].
  { split; [assert (y ∈ filter (fun y => y = x) l) as Hy by (rewrite E; by left)|assert (z ∈ filter (fun y => y = x) l) as Hy by (rewrite E; right; by left)];
      by apply list_elem_of_filter in Hy as [-> _]. }
  apply NoDup_cons in H as [H _]. destruct H. by left.
Qed.

(** The request that a thread will answer. *)
Definition carries (t : thread) : option CommandId :=
  match t with
  | T_request id _ | T_solicit id _ | T_raise id _ | T_arrived id _ | T_respond id _ => Some id
  | T_ask _ _ | T_wait _ | T_release _ => None
  end.

Definition carried (ts : list thread) : list CommandId := omap carries ts.

(** How often an answer to [id] is still to come. *)
Definition owed (s : State) (id : CommandId) : nat :=
  (count id (carried (threads s)) + holds id (deferring s) + holds id (deferred s))%nat.

Definition wrote (o : list effect) : list CommandId := omap (fun e => match e with Wrote id _ => Some id | _ => None end) o.

Lemma carried_app l1 l2 : carried (l1 ++ l2) = carried l1 ++ carried l2.
Proof. apply omap_app. Qed.

Lemma carried_take ts k t : ts !! k = Some t -> carried ts ≡ₚ option_list (carries t) ++ carried (delete k ts).
Proof.
  intros H. unfold carried. rewrite (delete_Permutation _ _ _ H) at 1. cbn. by destruct (carries t).
Qed.

(** What one wait does to the debts: only the thread that answers pays. *)
Lemma run_thread_owed s t vs s' t' o :
  (forall id, count id (option_list (carries t)) + holds id (deferring s) + holds id (deferred s) <= 1)%nat ->
  run_thread s t vs = Some (s', t', o) -> Unhandled ∉ o ->
  threads s' = threads s
  /\ (forall id, count id (option_list (carries t)) + holds id (deferring s) + holds id (deferred s)
       = count id (option_list (t' ≫= carries)) + holds id (deferring s') + holds id (deferred s')
         + match t with T_respond id' _ => count id [id'] | _ => 0 end)%nat
  /\ match t with
     | T_respond id' _ => pendings s' = pendings s ∖ {[id']} /\ wrote o = (if decide (id' ∈ pendings s) then [id'] else [])
     | _ => pendings s' = pendings s /\ wrote o = []
     end.
Proof.
  intros H1 Hr Hu. destruct t as [id0 p|id0 r|id0 r|id0 r|id0 ds|id0|r|id0 res]; cbn [run_thread] in Hr.
  - destruct (parse_payload p) as [req|[]]; try done; injection Hr as <- <- <-; [|destruct Hu; by left..]. split_and!; [done| |done|done]. intros id. cbn. lia.
  - destruct (solicited s), (soliciting s); injection Hr as <- <- <-; (split_and!; [done| |done|done]); intros id; cbn; lia.
  - injection Hr as <- <- <-. split_and!; [done| |done|done]. intros id. cbn. lia.
  - injection Hr as <- <- <-. split_and!; [done| |done|].
    + intros id. specialize (H1 id). cbn in *. rewrite holds_add. rewrite count_one, ?id_count_nil in *. destruct (decide (id = id0)) as [->|]; lia.
    + clear Hu. unfold wrote. induction (deferrers s) as [|d ds IH]; [done|]. rewrite bind_cons, omap_app, IH, app_nil_r.
      destruct d; [|done]. cbn. unfold htlc_accepted_demand. by destruct (_ =? 0).
  - destruct (verdicts_of ds vs); [|done]. unfold asked in Hr. destruct (decide (None ∈ vs)); [injection Hr as <- <- <-; destruct Hu; by left|].
    destruct (decide (id0 ∈ deferring s)) as [Hin|Hin]; injection Hr as <- <- <-; (split_and!; [done| |done|done]); [|intros id; cbn; lia].
    intros id. specialize (H1 id). cbn [carries option_list option_rect] in *.
    assert (count id (option_list ((if decide (Some true ∈ vs) then Some (T_wait id0)
      else finish (with_sets s (deferring s ∖ {[id0]}) (deferred s ∪ {[id0]})) id0) ≫= carries)) = 0%nat) as ->.
    { destruct (decide _); [done|]. unfold finish. by destruct (decide _). }
    cbn [deferring deferred with_sets]. rewrite holds_add, holds_del, ?id_count_nil in *. destruct (decide (id = id0)) as [->|]; [|lia].
    pose proof (holds_1 _ _ Hin). lia.
  - injection Hr as <- <- <-. split_and!; [done| |done|done]. intros id. unfold finish. destruct (decide _); cbn; lia.
  - unfold release_htlc_accepted in Hr. destruct (decide (resp_id r ∈ deferred s)) as [Hd|Hd].
    + injection Hr as <- <- <-. split_and!; [done| |done|done]. intros id. specialize (H1 id). cbn in *. rewrite holds_del. rewrite count_one, ?id_count_nil in *.
      destruct (decide (id = resp_id r)) as [->|]; [pose proof (holds_1 _ _ Hd)|]; lia.
    + destruct (decide (resp_id r ∈ deferring s)) as [Hg|Hg]; injection Hr as <- <- <-; (split_and!; [done| |done|done]); intros id; specialize (H1 id); cbn in *; [|lia].
      rewrite holds_del, count_one, ?id_count_nil in *. destruct (decide (id = resp_id r)) as [->|]; [pose proof (holds_1 _ _ Hg)|]; lia.
  - unfold respond, on_response, on_answer in Hr. destruct (decide (id0 ∈ pendings s)) as [Hp|Hp]; injection Hr as <- <- <-;
      (split_and!; [done|intros id; cbn; rewrite ?id_count_nil; lia| |cbn; by rewrite ?decide_True]); [done|]. cbn. set_solver.
Qed.

(** The requests that an event brings, and the answers of other modules. *)
Definition requested (e : event) : list CommandId :=
  match e with E_cin inp => match receive inp with inl (Receiver.Request id _ _) => [id] | _ => [] end | _ => [] end.

Definition htlcs (e : event) : list CommandId :=
  match e with
  | E_cin inp =>
      match receive inp with
      | inl (Receiver.Request id method _) => if decide (method = lit "htlc_accepted") then [id] else []
      | _ => []
      end
  | _ => []
  end.

Definition answered_by_others (e : event) : list CommandId :=
  match e with E_response id _ | E_fail id _ _ _ => [id] | _ => [] end.

(** *** Answers of the receiver *)

Lemma on_answer_count P id0 x P' t id :
  on_answer P id0 x = (P', t) ->
  (count id (match t with Some _ => [id0] | None => [] end) + holds id P' = holds id P)%nat.
Proof.
  unfold on_answer. destruct (decide (id0 ∈ P)) as [H|H]; intros [= <- <-]; rewrite ?count_one, ?id_count_nil, ?holds_del; [|lia].
  destruct (decide (id = id0)) as [->|]; [rewrite holds_1 by done|]; lia.
Qed.

Lemma run_thread_answers s t vs s' t' o id :
  run_thread s t vs = Some (s', t', o) -> (count id (wrote o) + holds id (pendings s') = holds id (pendings s))%nat.
Proof.
  intros Hr. destruct t as [id0 p|id0 r|id0 r|id0 r|id0 ds|id0|r|id0 res]; cbn [run_thread] in Hr.
  - destruct (parse_payload p) as [req|[]]; try done; by injection Hr as <- <- <-.
  - destruct (solicited s), (soliciting s); by injection Hr as <- <- <-.
  - by injection Hr as <- <- <-.
  - injection Hr as <- <- <-. assert (wrote (deferrers s ≫= demand r) = []) as ->; [|done].
    unfold wrote. induction (deferrers s) as [|d ds IH]; [done|]. rewrite bind_cons, omap_app, IH, app_nil_r.
    destruct d; [|done]. cbn. unfold htlc_accepted_demand. by destruct (_ =? 0).
  - destruct (verdicts_of ds vs); [|done]. unfold asked in Hr. destruct (decide (None ∈ vs)); [by injection Hr as <- <- <-|].
    destruct (decide (id0 ∈ deferring s)); by injection Hr as <- <- <-.
  - by injection Hr as <- <- <-.
  - unfold release_htlc_accepted in Hr. repeat destruct (decide _); by injection Hr as <- <- <-.
  - unfold respond, on_response in Hr. destruct (on_answer (pendings s) id0 _) as [P t] eqn:E. injection Hr as <- <- <-.
    cbn [pendings with_pendings]. rewrite <- (on_answer_count _ _ _ _ _ id E). by destruct t.
Qed.

Lemma step_tally s e s' o id :
  step s e = Some (s', o) -> (count id (wrote o) + holds id (pendings s') <= holds id (pendings s) + count id (requested e))%nat.
Proof.
  intros Hs. destruct e as [inp|d|r|id0 res|id0 c m d|k vs]; cbn [step requested] in *.
  - destruct (receive inp) as [r|]; [|done]. injection Hs as Hs. destruct r; cbn [on_cin] in Hs; injection Hs as <- <-; cbn [wrote omap list_omap]; rewrite ?id_count_nil; try (cbn; lia).
    cbn. rewrite holds_add, count_one. destruct (decide _); pose proof (holds_le id (pendings s)); lia.
  - injection Hs as <- <-. destruct (soliciting s); cbn; rewrite id_count_nil; lia.
  - destruct (release_htlc_accepted s r) as [s1 t] eqn:E. injection Hs as <- <-. unfold release_htlc_accepted in E.
    repeat destruct (decide _); injection E as <- <-; cbn; rewrite id_count_nil; lia.
  - injection Hs as <- <-. unfold on_response. destruct (on_answer (pendings s) id0 _) as [P t] eqn:E. cbn.
    rewrite id_count_nil, <- (on_answer_count _ _ _ _ _ id E). destruct t; cbn; lia.
  - injection Hs as <- <-. unfold on_fail. destruct (on_answer (pendings s) id0 _) as [P t] eqn:E. cbn.
    rewrite id_count_nil, <- (on_answer_count _ _ _ _ _ id E). destruct t; cbn; lia.
  - destruct (threads s !! k) as [t|] eqn:Ek; [|done]. cbn [mbind option_bind] in Hs.
    destruct (run_thread _ t vs) as [[[s1 t1] o1]|] eqn:Er; [|done]. cbn in Hs. injection Hs as <- <-.
    apply (run_thread_answers _ _ _ _ _ _ id) in Er. cbn in *. rewrite id_count_nil. lia.
Qed.

Lemma wrote_app o1 o2 : wrote (o1 ++ o2) = wrote o1 ++ wrote o2.
Proof. apply omap_app. Qed.

Lemma run_tally es : forall s s' o id,
  run s es = Some (s', o) -> (count id (wrote o) + holds id (pendings s') <= holds id (pendings s) + count id (es ≫= requested))%nat.
Proof.
  induction es as [|e es IH]; intros s s' o id Hr; cbn [run] in Hr; [injection Hr as <- <-; cbn; rewrite id_count_nil; lia|].
  destruct (step s e) as [[s1 o1]|] eqn:Es; [|done]. cbn [mbind option_bind] in Hr.
  destruct (run s1 es) as [[s2 o2]|] eqn:Er; [|done]. injection Hr as <- <-.
  pose proof (step_tally _ _ _ _ id Es). specialize (IH _ _ _ id Er). rewrite wrote_app, bind_cons, !id_count_app. lia.
Qed.

(** *** Debts *)

(** [H] are the HTLCs that arrived. *)
Record books (s : State) (H : list CommandId) : Prop := {
  b_owed : forall id, id ∈ H -> owed s id = holds id (pendings s);
  b_none : forall id, id ∉ H -> owed s id = 0%nat;
  b_ask : forall id, id ∈ deferring s -> exists ds, T_ask id ds ∈ threads s;
  b_wake : forall id, id ∈ deferred s -> T_wait id ∈ threads s \/ exists r, T_release r ∈ threads s /\ resp_id r = id
}.

Lemma owed_le s H id : books s H -> (owed s id <= 1)%nat.
Proof.
  intros B. destruct (decide (id ∈ H)) as [Hin|Hin]; [rewrite (b_owed s H B id Hin); apply holds_le|rewrite (b_none s H B id Hin); lia].
Qed.

(** A thread that waits for an id stays, unless it is the one that ran. *)
Lemma other_stays (ts : list thread) (k : nat) (t t0 : thread) : ts !! k = Some t -> t0 ∈ ts -> t0 = t \/ t0 ∈ delete k ts.
Proof. intros Hk Hin. rewrite (delete_Permutation _ _ _ Hk) in Hin. apply elem_of_cons in Hin. tauto. Qed.

Lemma owed_add s t id : owed (add_threads s t) id = (owed s id + count id (option_list (t ≫= carries)))%nat.
Proof.
  unfold owed, add_threads. cbn. rewrite carried_app, id_count_app.
  assert (carried (option_list t) = option_list (t ≫= carries)) as -> by (destruct t as [t|]; [cbn; by destruct (carries t)|done]). lia.
Qed.

Lemma books_owed s H k t vs s' t' o :
  books s H -> threads s !! k = Some t -> run_thread (with_threads s (delete k (threads s))) t vs = Some (s', t', o) -> Unhandled ∉ o ->
  threads s' = delete k (threads s)
  /\ (forall id, id ∈ H -> owed (add_threads s' t') id = holds id (pendings s'))
  /\ (forall id, id ∉ H -> owed (add_threads s' t') id = 0%nat).
Proof.
  intros B Hk Hr Hu.
  assert (forall id, owed s id = count id (option_list (carries t)) + count id (carried (delete k (threads s))) + holds id (deferring s) + holds id (deferred s))%nat as Ho.
  { intros id. unfold owed. rewrite (id_count_perm id _ _ (carried_take _ _ _ Hk)), id_count_app. lia. }
  destruct (run_thread_owed (with_threads s (delete k (threads s))) t vs s' t' o) as (E1 & E2 & E3); [|done..|].
  { intros id. pose proof (owed_le s H id B) as L. rewrite Ho in L. cbn. lia. }
  cbn [threads with_threads deferring deferred pendings] in *. split; [done|].
  assert (forall id, owed (add_threads s' t') id + match t with T_respond id' _ => count id [id'] | _ => 0 end = owed s id)%nat as Hpay.
  { intros id. rewrite owed_add, Ho. unfold owed. rewrite E1. specialize (E2 id). destruct t; lia. }
  assert (forall id, id ∉ H -> owed (add_threads s' t') id = 0%nat) as Hn.
  { intros id Hid. specialize (Hpay id). rewrite (b_none s H B id Hid) in Hpay. lia. }
  split; [|done]. intros id Hid. specialize (Hpay id). rewrite (b_owed s H B id Hid) in Hpay.
  destruct t as [| | | | | | |id0 res]; [destruct E3 as [-> _]; lia..|].
  destruct E3 as [-> _]. rewrite holds_del. rewrite count_one in Hpay. pose proof (holds_le id (pendings s)). destruct (decide (id = id0)) as [->|]; lia.
Qed.

Lemma books_ask s H k t vs s' t' o :
  books s H -> threads s !! k = Some t -> run_thread (with_threads s (delete k (threads s))) t vs = Some (s', t', o) -> Unhandled ∉ o ->
  threads s' = delete k (threads s) -> forall id, id ∈ deferring s' -> exists ds, T_ask id ds ∈ delete k (threads s) ++ option_list t'.
Proof.
  intros B Hk Hr Hu Et id Hin.
  assert (id ∈ deferring s -> (forall ds, t <> T_ask id ds) -> exists ds, T_ask id ds ∈ delete k (threads s) ++ option_list t') as Hstay.
  { intros Hd Hne. destruct (b_ask s H B id Hd) as [ds Hds]. exists ds. apply elem_of_app. left.
    destruct (other_stays _ _ _ _ Hk Hds) as [E|E]; [by destruct (Hne ds)|done]. }
  destruct t as [id0 p|id0 r|id0 r|id0 r|id0 ds|id0|r|id0 res]; cbn [run_thread] in Hr.
  - destruct (parse_payload p) as [req|[]]; try done; injection Hr as <- <- <-; by apply Hstay.
  - repeat case_match; injection Hr as <- <- <-; by apply Hstay.
  - injection Hr as <- <- <-. by apply Hstay.
  - injection Hr as <- <- <-. cbn in Hin. destruct (decide (id = id0)) as [->|Hne].
    + eexists. apply elem_of_app. right. by left.
    + apply Hstay; [set_solver|done].
  - destruct (verdicts_of ds vs); [|done]. unfold asked in Hr. destruct (decide (None ∈ vs)); [injection Hr as <- <- <-; destruct Hu; by left|].
    destruct (decide (id0 ∈ _)) as [Hd|Hd]; injection Hr as <- <- <-; cbn in Hin, Hd; (apply Hstay; [set_solver|]); intros ds' [= -> _]; set_solver.
  - injection Hr as <- <- <-. by apply Hstay.
  - unfold release_htlc_accepted in Hr. repeat destruct (decide _); injection Hr as <- <- <-; cbn in Hin; (apply Hstay; [set_solver|done]).
  - unfold respond in Hr. destruct (on_response _ _ _) as [P x]. injection Hr as <- <- <-. by apply Hstay.
Qed.

Lemma books_wake s H k t vs s' t' o :
  books s H -> threads s !! k = Some t -> run_thread (with_threads s (delete k (threads s))) t vs = Some (s', t', o) -> Unhandled ∉ o ->
  threads s' = delete k (threads s) -> forall id, id ∈ deferred s' ->
  T_wait id ∈ delete k (threads s) ++ option_list t' \/ exists r, T_release r ∈ delete k (threads s) ++ option_list t' /\ resp_id r = id.
Proof.
  intros B Hk Hr Hu Et id Hin.
  assert (id ∈ deferred s -> t <> T_wait id -> (forall r, resp_id r = id -> t <> T_release r) ->
    T_wait id ∈ delete k (threads s) ++ option_list t' \/ exists r, T_release r ∈ delete k (threads s) ++ option_list t' /\ resp_id r = id) as Hstay.
  { intros Hd Hw Hl. destruct (b_wake s H B id Hd) as [Hin'|(r & Hin' & Hid)]; [left|right; exists r; split; [|done]];
      (apply elem_of_app; left; destruct (other_stays _ _ _ _ Hk Hin') as [E|E]; [|done]); [by destruct Hw|by destruct (Hl r Hid)]. }
  destruct t as [id0 p|id0 r|id0 r|id0 r|id0 ds|id0|r|id0 res]; cbn [run_thread] in Hr.
  - destruct (parse_payload p) as [req|[]]; try done; injection Hr as <- <- <-; by apply Hstay.
  - repeat case_match; injection Hr as <- <- <-; by apply Hstay.
  - injection Hr as <- <- <-. by apply Hstay.
  - injection Hr as <- <- <-. by apply Hstay.
  - destruct (verdicts_of ds vs); [|done]. unfold asked in Hr. destruct (decide (None ∈ vs)); [injection Hr as <- <- <-; destruct Hu; by left|].
    destruct (decide (id0 ∈ _)) as [Hd|Hd]; injection Hr as <- <- <-; cbn in Hin; [|by apply Hstay].
    destruct (decide (id = id0)) as [->|Hne]; [|apply Hstay; [set_solver|done..]].
    destruct (decide (Some true ∈ vs)); [left; apply elem_of_app; right; by left|]. right. exists (Cont id0). split; [|done].
    apply elem_of_app. right. unfold finish. rewrite decide_True by (cbn; set_solver). by left.
  - injection Hr as <- <- <-. cbn in Hin. destruct (decide (id = id0)) as [->|Hne]; [|apply Hstay; [done|congruence|done]].
    right. exists (Cont id0). split; [|done]. apply elem_of_app. right. unfold finish. rewrite decide_True by done. by left.
  - unfold release_htlc_accepted in Hr. repeat destruct (decide _); injection Hr as <- <- <-; cbn in *;
      (apply Hstay; [set_solver|done|]); intros r' Hid [= ->]; set_solver.
  - unfold respond in Hr. destruct (on_response _ _ _) as [P x]. injection Hr as <- <- <-. by apply Hstay.
Qed.

Lemma books_run s H k t vs s' t' o :
  books s H -> threads s !! k = Some t -> run_thread (with_threads s (delete k (threads s))) t vs = Some (s', t', o) -> Unhandled ∉ o ->
  books (add_threads s' t') H.
Proof.
  intros B Hk Hr Hu. destruct (books_owed _ _ _ _ _ _ _ _ B Hk Hr Hu) as (Et & H1 & H2).
  constructor; [exact H1|exact H2| |]; intros id Hid; cbn [threads add_threads with_threads deferring deferred] in *; rewrite Et;
    [by eapply books_ask|by eapply books_wake].
Qed.

Lemma books_spawn s H t : books s H -> carries t = None -> books (with_threads s (threads s ++ [t])) H.
Proof.
  intros B Ht. assert (forall id, owed (with_threads s (threads s ++ [t])) id = owed s id) as Ho.
  { intros id. change (with_threads s (threads s ++ [t])) with (add_threads s (Some t)). rewrite owed_add. cbn. rewrite Ht. cbn. rewrite id_count_nil. lia. }
  destruct B as [B1 B2 B3 B4]. constructor; cbn; intros id Hid; rewrite ?Ho; [by apply B1|by apply B2| |].
  - destruct (B3 id Hid) as [ds Hds]. exists ds. apply elem_of_app. by left.
  - destruct (B4 id Hid) as [Hw|(r & Hr & Hd)]; [left|right; exists r; split; [|done]]; apply elem_of_app; by left.
Qed.

(** A release by another module is the release of a thread of its own. *)
Lemma books_release s H r s' t : books s H -> release_htlc_accepted s r = (s', t) -> books (add_threads s' t) H.
Proof.
  intros B Hr. pose proof (books_spawn s H (T_release r) B eq_refl) as B'.
  apply (books_run _ H (length (threads s)) (T_release r) [] s' t [] B').
  - cbn. by apply list_lookup_middle.
  - cbn [threads with_threads]. rewrite delete_middle, app_nil_r. cbn [run_thread].
    assert (with_threads (with_threads s (threads s ++ [T_release r])) (threads s) = s) as -> by (by destruct s). by rewrite Hr.
  - apply not_elem_of_nil.
Qed.

Lemma books_pendings s H P : books s H -> (forall id, id ∈ H -> holds id P = holds id (pendings s)) -> books (with_pendings s P) H.
Proof. intros [B1 B2 B3 B4] HP. constructor; [|done..]. intros id Hid. cbn. rewrite HP by done. by apply B1. Qed.

Lemma on_answer_other P id0 x id : id <> id0 -> holds id (on_answer P id0 x).1 = holds id P.
Proof. intros Hn. unfold on_answer. destruct (decide (id0 ∈ P)); [|done]. cbn. rewrite holds_del. by destruct (decide (id = id0)). Qed.

Lemma htlcs_requested e id : id ∈ htlcs e -> id ∈ requested e.
Proof.
  destruct e as [inp| | | | |]; cbn; try done. destruct (receive inp) as [[]|]; try done. destruct (decide _); [done|]. intros Hin. by apply not_elem_of_nil in Hin.
Qed.

Lemma step_books s H e s' o :
  books s H -> (forall id, id ∈ requested e -> id ∉ H) -> (forall id, id ∈ answered_by_others e -> id ∉ H) ->
  step s e = Some (s', o) -> Unhandled ∉ o -> books s' (H ++ htlcs e).
Proof.
  intros B Hq Ha Hs Hu. destruct e as [inp|d|r|id0 res|id0 c m d|k vs]; cbn [step htlcs requested answered_by_others] in *; rewrite ?app_nil_r.
  - destruct (receive inp) as [[| | |id0 method params]|]; [injection Hs as <- <-; by rewrite app_nil_r..| |done]. cbn [on_cin] in Hs.
    assert (id0 ∉ H) as Hn by (apply Hq; by left).
    assert (forall id, id ∈ H -> holds id (pendings s ∪ {[id0]}) = holds id (pendings s)) as Hp.
    { intros id Hid. rewrite holds_add. destruct (decide (id = id0)) as [->|]; done. }
    destruct (decide (method = lit "htlc_accepted")) as [_|_]; injection Hs as <- <-.
    + destruct B as [B1 B2 B3 B4]. constructor; [| |cbn|cbn]; intros id Hid.
      * rewrite owed_add. cbn. rewrite count_one, holds_add. change (owed (with_pendings s _) id) with (owed s id). apply elem_of_app in Hid as [Hid|Hid].
        -- rewrite (B1 id Hid). destruct (decide (id = id0)) as [->|]; [done|]. lia.
        -- apply list_elem_of_singleton in Hid as ->. rewrite (B2 id0 Hn). by destruct (decide (id0 = id0)).
      * apply not_elem_of_app in Hid as [Hid1 Hid2]. rewrite owed_add. cbn. rewrite count_one. change (owed (with_pendings s _) id) with (owed s id).
        destruct (decide (id = id0)) as [->|]; [destruct Hid2; by left|]. by rewrite (B2 id Hid1).
      * destruct (B3 id Hid) as [ds Hds]. exists ds. apply elem_of_app. by left.
      * destruct (B4 id Hid) as [Hw|(r & Hr & Hd)]; [left|right; exists r; split; [|done]]; apply elem_of_app; by left.
    + rewrite app_nil_r. unfold add_threads. cbn. rewrite app_nil_r. by apply (books_pendings s H).
  - injection Hs as <- <-. destruct (soliciting s); [|done]. destruct B. by constructor.
  - destruct (release_htlc_accepted s r) as [s1 t] eqn:E. injection Hs as <- <-. by eapply books_release.
  - injection Hs as <- <-. apply books_pendings; [done|]. intros id Hid. apply on_answer_other. intros ->. apply (Ha id0); [by left|done].
  - injection Hs as <- <-. apply books_pendings; [done|]. intros id Hid. apply on_answer_other. intros ->. apply (Ha id0); [by left|done].
  - destruct (threads s !! k) as [t|] eqn:Ek; [|done]. cbn [mbind option_bind] in Hs.
    destruct (run_thread _ t vs) as [[[s1 t1] o1]|] eqn:Er; [|done]. cbn in Hs. injection Hs as <- <-. by eapply books_run.
Qed.

(** For a request that is known already, what is written and what is pending add up. *)
Lemma step_tally_eq s e s' o id :
  id ∉ requested e -> step s e = Some (s', o) -> (count id (wrote o) + holds id (pendings s') = holds id (pendings s))%nat.
Proof.
  intros Hq Hs. destruct e as [inp|d|r|id0 res|id0 c m d|k vs]; cbn [step requested] in *.
  - destruct (receive inp) as [[| | |id0 method params]|]; [..|done]; injection Hs as <- <-; cbn; rewrite ?id_count_nil; try done.
    rewrite holds_add. destruct (decide (id = id0)) as [->|]; [destruct Hq; by left|done].
  - injection Hs as <- <-. by destruct (soliciting s).
  - destruct (release_htlc_accepted s r) as [s1 t] eqn:E. injection Hs as <- <-. unfold release_htlc_accepted in E.
    repeat destruct (decide _); by injection E as <- <-.
  - injection Hs as <- <-. unfold on_response. destruct (on_answer (pendings s) id0 _) as [P t] eqn:E. cbn.
    rewrite <- (on_answer_count _ _ _ _ _ id E). by destruct t.
  - injection Hs as <- <-. unfold on_fail. destruct (on_answer (pendings s) id0 _) as [P t] eqn:E. cbn.
    rewrite <- (on_answer_count _ _ _ _ _ id E). by destruct t.
  - destruct (threads s !! k) as [t|] eqn:Ek; [|done]. cbn [mbind option_bind] in Hs.
    destruct (run_thread _ t vs) as [[[s1 t1] o1]|] eqn:Er; [|done]. cbn in Hs. injection Hs as <- <-.
    by apply (run_thread_answers _ _ _ _ _ _ id) in Er.
Qed.

Lemma step_new_htlc s e s' o id : id ∈ htlcs e -> step s e = Some (s', o) -> wrote o = [] /\ holds id (pendings s') = 1%nat.
Proof.
  destruct e as [inp| | | | |]; cbn [htlcs step]; intros Hin; try by apply not_elem_of_nil in Hin.
  destruct (receive inp) as [[| | |id0 method params]|]; try by apply not_elem_of_nil in Hin. intros [= <- <-]. split; [done|].
  destruct (decide _); [|by apply not_elem_of_nil in Hin]. apply list_elem_of_singleton in Hin as ->. cbn. rewrite holds_add. by rewrite decide_True.
Qed.

Definition settled (s : State) (H A : list CommandId) : Prop := forall id, id ∈ H -> (count id A + holds id (pendings s) = 1)%nat.

(** What is pending or answered was requested. *)
Definition known (s : State) (A R : list CommandId) : Prop := forall id, id ∈ A \/ id ∈ pendings s -> id ∈ R.

Lemma step_known s e s' o A R : known s A R -> step s e = Some (s', o) -> known s' (A ++ wrote o) (R ++ requested e).
Proof.
  intros K Hs id Hin. apply elem_of_app. destruct (decide (id ∈ A)) as [|HnA]; [left; apply K; by left|].
  destruct (decide (id ∈ requested e)) as [|Hnr]; [by right|]. left. apply K. right. apply dec_stable. intros Hnp.
  pose proof (step_tally s e s' o id Hs) as L. rewrite (holds_0 _ _ Hnp), (count_0 _ _ Hnr) in L.
  destruct Hin as [Hin|Hin]; [|rewrite (holds_1 _ _ Hin) in L; lia].
  apply elem_of_app in Hin as [Hin|Hin]; [done|]. apply count_pos in Hin. lia.
Qed.

Lemma run_books es : forall s H A R s' o,
  books s H -> settled s H A -> known s A R -> (forall id, id ∈ H -> id ∈ R) -> NoDup (R ++ (es ≫= requested)) ->
  (forall id, id ∈ es ≫= answered_by_others -> id ∉ H ++ (es ≫= htlcs)) ->
  run s es = Some (s', o) -> Unhandled ∉ o ->
  books s' (H ++ (es ≫= htlcs)) /\ settled s' (H ++ (es ≫= htlcs)) (A ++ wrote o).
Proof.
  induction es as [|e es IH]; intros s H A R s' o B S K HR Hd Ha Hr Hu; cbn [run] in Hr.
  { injection Hr as <- <-. by rewrite !app_nil_r. }
  destruct (step s e) as [[s1 o1]|] eqn:Es; [|done]. cbn [mbind option_bind] in Hr.
  destruct (run s1 es) as [[s2 o2]|] eqn:Er; [|done]. injection Hr as <- <-.
  rewrite !bind_cons in *. apply not_elem_of_app in Hu as [Hu1 Hu2].
  assert (forall id, id ∈ requested e -> id ∉ R) as Hnew.
  { intros id Hid Hin. apply NoDup_app in Hd as (_ & Hd & _). apply (Hd id Hin), elem_of_app. by left. }
  rewrite (app_assoc H), wrote_app, (app_assoc A).
  apply (IH s1 (H ++ htlcs e) (A ++ wrote o1) (R ++ requested e) s2 o2); [| | | | | |done|done].
  - apply (step_books s H e s1 o1); [done| | |done|done]; intros id Hid Hin; [by apply (Hnew id Hid), HR|].
    apply (Ha id); apply elem_of_app; by left.
  - intros id Hin. rewrite id_count_app. apply elem_of_app in Hin as [Hin|Hin].
    + rewrite <- (S id Hin). rewrite <- (step_tally_eq s e s1 o1 id); [lia| |done]. intros Hr. by apply (Hnew id Hr), HR.
    + destruct (step_new_htlc s e s1 o1 id Hin Es) as [-> ->]. rewrite id_count_nil, count_0; [lia|].
      intros HiA. apply (Hnew id); [by apply htlcs_requested|]. apply K. by left.
  - by apply (step_known s e).
  - intros id Hin. apply elem_of_app in Hin as [Hin|Hin]; apply elem_of_app; [left; by apply HR|right; by apply htlcs_requested].
  - by rewrite <- app_assoc.
  - intros id Hin Hr. apply (Ha id); [apply elem_of_app; by right|]. by rewrite app_assoc.
Qed.

Lemma fresh_books : books fresh [].
Proof.
  constructor; [intros id Hid; by apply not_elem_of_nil in Hid| | |]; intros id Hid; [|set_solver..].
  unfold owed. cbn. by rewrite id_count_nil, !holds_0 by set_solver.
Qed.

Lemma nothing_owed s H id : books s H -> threads s = [] -> owed s id = 0%nat.
Proof.
  intros B E. unfold owed. rewrite E. cbn. rewrite id_count_nil, !holds_0; [done|intros Hin..].
  - destruct (b_wake s H B id Hin) as [Hw|(r & Hw & _)]; rewrite E in Hw; by apply not_elem_of_nil in Hw.
  - destruct (b_ask s H B id Hin) as [ds Hw]. rewrite E in Hw. by apply not_elem_of_nil in Hw.
Qed.

(** *** What is answered *)

Definition released (e : event) : list Response := match e with E_release r => [r] | _ => [] end.

(** [r] is the release of [id] by a module, or the one that lets it continue. *)
Definition release_of (L : list Response) (id : CommandId) (r : Response) : Prop := resp_id r = id /\ (r = Cont id \/ r ∈ L).

(** Threads that bring an answer bring that of a release. *)
Definition brings (L : list Response) (t : thread) : Prop :=
  match t with
  | T_release r => release_of L (resp_id r) r
  | T_respond id x => exists r, release_of L id r /\ x = release_result r
  | _ => True
  end.

Definition says (L : list Response) (o : effect) : Prop :=
  match o with Wrote id x => exists r, release_of L id r /\ x = response_text id (release_result r) | _ => True end.

Lemma brings_more L L' t : brings L t -> brings (L ++ L') t.
Proof.
  assert (forall id r, release_of L id r -> release_of (L ++ L') id r) as H.
  { intros id r [H1 [H2|H2]]; split; [done|by left|done|right; apply elem_of_app; by left]. }
  destruct t; cbn; try done; [apply H|]. intros (r & H1 & H2). exists r. split; [by apply H|done].
Qed.

Lemma release_brings L s r s' t : release_of L (resp_id r) r -> release_htlc_accepted s r = (s', t) ->
  threads s' = threads s /\ forall t', t = Some t' -> brings L t'.
Proof.
  intros H Hr. unfold release_htlc_accepted in Hr. repeat destruct (decide _); injection Hr as <- <-; (split; [done|]);
    intros t' [= <-]; by exists r.
Qed.

Lemma run_thread_brings L s t vs s' t' o :
  brings L t -> run_thread s t vs = Some (s', t', o) ->
  threads s' = threads s /\ (forall t1, t' = Some t1 -> brings L t1) /\ Forall (says L) o.
Proof.
  assert (forall id s0 t1, finish s0 id = Some t1 -> brings L t1) as Hf.
  { intros id s0 t1. unfold finish. destruct (decide _); [|done]. intros [= <-]. split; [done|by left]. }
  intros Hb Hr. destruct t as [id0 p|id0 r|id0 r|id0 r|id0 ds|id0|r|id0 res]; cbn [run_thread] in Hr.
  - destruct (parse_payload p) as [req|[]]; try done; injection Hr as <- <- <-; (split_and!; [done| |by repeat constructor]); by intros t1 [= <-].
  - repeat case_match; injection Hr as <- <- <-; (split_and!; [done| |by repeat constructor]); by intros t1 [= <-].
  - injection Hr as <- <- <-. split_and!; [done| |by repeat constructor]. by intros t1 [= <-].
  - injection Hr as <- <- <-. split_and!; [done|by intros t1 [= <-]|]. clear. induction (deferrers s) as [|d ds IH]; [constructor|].
    rewrite bind_cons. apply Forall_app. split; [|done]. destruct d; [|constructor]. cbn. unfold htlc_accepted_demand. destruct (_ =? 0); by repeat constructor.
  - destruct (verdicts_of ds vs); [|done]. unfold asked in Hr. destruct (decide (None ∈ vs)); [injection Hr as <- <- <-; split_and!; [done..|by repeat constructor]|].
    destruct (decide (id0 ∈ deferring s)); injection Hr as <- <- <-; (split_and!; [done| |constructor]); [|done].
    intros t1. destruct (decide _); [by intros [= <-]|apply Hf].
  - injection Hr as <- <- <-. split_and!; [done|apply Hf|constructor].
  - destruct (release_htlc_accepted s r) as [s1 t1] eqn:E. injection Hr as <- <- <-.
    destruct (release_brings L s r s1 t1 Hb E) as [H1 H2]. split_and!; [done..|constructor].
  - unfold respond, on_response, on_answer in Hr. destruct (decide _); injection Hr as <- <- <-; (split_and!; [done..|]); [|constructor].
    constructor; [|constructor]. destruct Hb as (r & H1 & ->). by exists r.
Qed.

Lemma step_brings L s e s' o :
  Forall (brings L) (threads s) -> step s e = Some (s', o) ->
  Forall (brings (L ++ released e)) (threads s')
  /\ forall id x, Wrote id x ∈ o -> id ∈ answered_by_others e \/ says (L ++ released e) (Wrote id x).
Proof.
  intros H Hs.
  assert (Forall (brings (L ++ released e)) (threads s)) as HL by (eapply Forall_impl; [exact H|]; intros t; apply brings_more).
  destruct e as [inp|d|r|id0 res|id0 c m d|k vs]; cbn [step released answered_by_others] in *.
  - destruct (receive inp) as [[| | |id0 method params]|]; [injection Hs as <- <-..|done].
    + split; [done|]. intros id x Hin. by apply not_elem_of_nil in Hin.
    + split; [done|]. intros id x Hin. by apply not_elem_of_nil in Hin.
    + split; [done|]. intros id x Hin. by apply list_elem_of_singleton in Hin.
    + split; [|intros id x Hin; by apply not_elem_of_nil in Hin]. cbn [threads add_threads with_threads with_pendings].
      apply Forall_app. split; [done|]. match goal with |- context [decide ?P] => destruct (decide P) end; by repeat constructor.
  - injection Hs as <- <-. split; [by destruct (soliciting s)|]. intros id x Hin. by apply not_elem_of_nil in Hin.
  - destruct (release_htlc_accepted s r) as [s1 t] eqn:E. injection Hs as <- <-.
    destruct (release_brings (L ++ [r]) s r s1 t) as [E1 E2]; [|done|].
    { split; [done|]. right. apply elem_of_app. right. by left. }
    split; [|intros id x Hin; by apply not_elem_of_nil in Hin]. cbn. rewrite E1. apply Forall_app. split; [done|]. destruct t; repeat constructor. by apply E2.
  - injection Hs as <- <-. split; [done|]. unfold on_response, on_answer. intros id x Hin. left. destruct (decide _); [|by apply not_elem_of_nil in Hin].
    apply list_elem_of_singleton in Hin. injection Hin as -> _. by left.
  - injection Hs as <- <-. split; [done|]. unfold on_fail, on_answer. intros id x Hin. left. destruct (decide _); [|by apply not_elem_of_nil in Hin].
    apply list_elem_of_singleton in Hin. injection Hin as -> _. by left.
  - rewrite app_nil_r in *. destruct (threads s !! k) as [t|] eqn:Ek; [|done]. cbn [mbind option_bind] in Hs.
    destruct (run_thread _ t vs) as [[[s1 t1] o1]|] eqn:Er; [|done]. cbn in Hs. injection Hs as <- <-.
    apply (run_thread_brings L) in Er as (E1 & E2 & E3); [|by eapply Forall_lookup_1]. split.
    + cbn. rewrite E1. cbn. apply Forall_app. split; [by apply Forall_delete|]. destruct t1; repeat constructor. by apply E2.
    + intros id x Hin. right. rewrite Forall_forall in E3. by apply E3.
Qed.

Lemma says_more L L' o : says L o -> says (L ++ L') o.
Proof.
  destruct o; [|done..]. intros (r & [H1 [H2|H2]] & H3); exists r; (split; [split; [done|]|done]); [by left|right; apply elem_of_app; by left].
Qed.

Lemma run_brings es : forall L s s' o,
  Forall (brings L) (threads s) -> run s es = Some (s', o) ->
  forall id x, Wrote id x ∈ o -> id ∈ es ≫= answered_by_others \/ says (L ++ (es ≫= released)) (Wrote id x).
Proof.
  induction es as [|e es IH]; intros L s s' o H Hr id x Hin; cbn [run] in Hr; [injection Hr as <- <-; by apply not_elem_of_nil in Hin|].
  destruct (step s e) as [[s1 o1]|] eqn:Es; [|done]. cbn [mbind option_bind] in Hr.
  destruct (run s1 es) as [[s2 o2]|] eqn:Er; [|done]. injection Hr as <- <-. rewrite !bind_cons, app_assoc.
  destruct (step_brings L s e s1 o1 H Es) as [H1 H2]. apply elem_of_app in Hin as [Hin|Hin].
  - destruct (H2 id x Hin) as [Ha|Ha]; [left; apply elem_of_app; by left|right; by apply says_more].
  - destruct (IH (L ++ released e) s1 s2 o2 H1 Er id x Hin) as [Ha|Ha]; [left; apply elem_of_app; by right|by right].
Qed.

(** *** Properties *)

(** Commands.  Whatever comes in and whatever modules answer, no request is answered more
    often than it was sent, and nothing is answered that was not asked. *)
Theorem requests_answered_once es s o id :
  run fresh es = Some (s, o) -> (count id (wrote o) + holds id (pendings s) <= count id (es ≫= requested))%nat.
Proof. intros Hr. pose proof (run_tally es fresh s o id Hr) as H. cbn [pendings fresh] in H.
  assert (holds id ∅ = 0%nat) as E by (apply holds_0; set_solver). rewrite E in H. lia.
Qed.

(** C10: incoming HTLCs, if identifiers are not used twice and other modules answer only their
    own requests.  No HTLC is answered more than once, and the answer lets the HTLC
    continue, unless a module released it otherwise.  As long as no exception escaped, every
    HTLC is either answered or still on its way, with exactly one thread or set holding it,
    and when no thread is left all are answered; an exception that escapes may leave the
    HTLC of its thread unanswered ([unreadable_htlc_unanswered]). *)
Theorem htlcs_answered es s o id :
  run fresh es = Some (s, o) -> NoDup (es ≫= requested) ->
  (forall i, i ∈ es ≫= answered_by_others -> i ∉ es ≫= htlcs) -> id ∈ es ≫= htlcs ->
  (count id (wrote o) <= 1)%nat
  /\ (forall x, Wrote id x ∈ o -> exists r, release_of (es ≫= released) id r /\ x = response_text id (release_result r))
  /\ (Unhandled ∉ o -> (count id (wrote o) + owed s id = 1)%nat /\ (threads s = [] -> count id (wrote o) = 1%nat)).
Proof.
  intros Hr Hd Ha Hin. split_and!.
  - pose proof (run_tally es fresh s o id Hr) as H. cbn [pendings fresh] in H.
    assert (holds id ∅ = 0%nat) as E by (apply holds_0; set_solver). pose proof (count_nodup id _ Hd). lia.
  - intros x Hx. destruct (run_brings es [] fresh s o) with (id := id) (x := x) as [H|H]; try done. by destruct (Ha id H).
  - intros Hu. assert (settled fresh [] [] /\ known fresh [] []) as [HS HK].
    { split; [intros i Hi; by apply not_elem_of_nil in Hi|]. intros i [Hi|Hi]; [by apply not_elem_of_nil in Hi|set_solver]. }
    destruct (run_books es fresh [] [] [] s o fresh_books HS HK) as [B S]; try done.
    cbn [app] in *. specialize (S id Hin). rewrite <- (b_owed s _ B id Hin) in S. split; [done|].
    intros E. rewrite (nothing_owed s _ id B E) in S. lia.
Qed.

(** *** Witnesses *)

Definition hex32 : bytes := replicate 64 48.

(** An HTLC that we are to forward over channel 1x2x3. *)
Definition demo_htlc : json :=
  JObj [(lit "method", JStr (lit "htlc_accepted")); (lit "id", JStr (lit "cln:htlc#1"));
        (lit "params", JObj [(lit "onion", JObj [(lit "payload", JStr (lit "00")); (lit "short_channel_id", JStr (lit "1x2x3"));
            (lit "forward_msat", JPrim (lit "1000")); (lit "outgoing_cltv_value", JPrim (lit "100")); (lit "next_onion", JStr (lit "00"))]);
          (lit "htlc", JObj [(lit "amount_msat", JPrim (lit "1001")); (lit "cltv_expiry", JPrim (lit "140")); (lit "payment_hash", JStr hex32)])])].

Definition demo_id : CommandId := StrId (lit "cln:htlc#1").

Definition demo_events : list event :=
  [E_cin demo_htlc; E_run 0 []; E_run 0 []; E_provide Tracker; E_run 0 []; E_run 0 []; E_run 0 [Some false]; E_run 0 []; E_run 0 []].

Definition demo_end : State * list effect := default (fresh, []) (run fresh demo_events).

Lemma demo_answered : run fresh demo_events = Some (demo_end.1, demo_end.2).
Proof. vm_compute. reflexivity. Qed.

(** A payload that cannot be read: the exception ends the thread, and nobody is left to answer
    the hook. *)
Definition demo_unreadable : json :=
  JObj [(lit "method", JStr (lit "htlc_accepted")); (lit "id", JStr (lit "cln:htlc#1")); (lit "params", JObj [])].

Lemma unreadable_htlc_unanswered :
  match run fresh [E_cin demo_unreadable; E_run 0 []] with
  | Some (s, o) => (length (threads s), length (wrote o), holds demo_id (pendings s)) = (0, 0, 1)%nat /\ o = [Unhandled]
  | None => False
  end.
Proof. vm_compute. done. Qed.

Lemma requests_answered_once_witness :
  (count demo_id (wrote demo_end.2) + holds demo_id (pendings demo_end.1) <= count demo_id (demo_events ≫= requested))%nat.
Proof. exact (requests_answered_once demo_events demo_end.1 demo_end.2 demo_id demo_answered). Defined.

Lemma htlcs_answered_witness :
  count demo_id (wrote demo_end.2) = 1%nat /\ DemandObserved 1099511758851 ∈ demo_end.2.
Proof.
  split; [|apply (bool_decide_unpack _); vm_compute; exact I].
  destruct (htlcs_answered demo_events demo_end.1 demo_end.2 demo_id demo_answered) as (_ & _ & H).
  - apply (bool_decide_unpack _). vm_compute. exact I.
  - intros i Hi. exfalso. vm_compute in Hi. by apply not_elem_of_nil in Hi.
  - apply (bool_decide_unpack _). vm_compute. exact I.
  - apply H; [apply (bool_decide_unpack _)|]; vm_compute; [exact I|reflexivity].
Defined.

End Htlc.
