(* ===== verification/Prober.v ===== *)
(** * Active probes (src/Boss/Mod/ActiveProber.cpp, src/Boss/Mod/GetroutesFirstHop.cpp,
      src/Boss/Mod/PaymentDeleter.cpp)

    A probe sends a payment that cannot succeed over one of our channels with a peer and
    one hop further, towards a channel candidate; [Sendpays] learns from it whether the peer
    forwards.  The probe deletes its payment, and the deleter removes what probes left
    behind, which it knows by the label.

    A probe is one green thread that asks the node one question after the other; the
    answers are parameters, and may be anything. *)

From stdpp Require Import base list numbers strings.
From Stdlib Require Import QArith Qround Lqa.
From S2P Require Import Prelude.
From S2P Require Import Double.
From S2P Require Import Amount.
From S2P Require Import LnIds.
From S2P Require Import UtilStr.
From S2P Require Import Jsmn.
From S2P Require Import Reply.
From S2P Require Import Peers.
From S2P Require Import Dowser.
Import Jsmn.
Import Reply.
Import Peers.
Import AskreneLayer.

#[local] Open Scope Z_scope.
#[local] Open Scope reply_scope.

(** ** The first hop of a route *)

Module FirstHop.

Record GetroutesFirstHop := { node_id_out : Node; amount_out : Amount; cltv_out : Z }.

Definition u32_of (o : option json) : outcome Z :=
  let* d := number o in let* z := defined (d_to_u64 d) in if z <? 2 ^ 32 then inl z else inr Undefined.

Definition node_of (o : option json) : outcome Node := let* s := text o in nodeid_of s.

(** The amount and the delay that fields of an object hold. *)
Definition amount_and_delay (o : option json) (amount delay : string) : outcome (Amount * Z) :=
  let* a := get o amount in
  let* a := amount_object a in
  let* d := get o delay in
  let* d := u32_of d in
  inl (a, d).

Definition first_hop (route : option json) : outcome GetroutesFirstHop :=
  let* path := get route "path" in
  let* hop := lift (jindex_nth path 0) in
  let* fields := has_all hop ["node_id_out"; "amount_out_msat"; "cltv_out"] in
  if (fields : bool) then
    let* n := get hop "node_id_out" in
    let* n := node_of n in
    let* (a, d) := amount_and_delay hop "amount_out_msat" "cltv_out" in
    inl {| node_id_out := n; amount_out := a; cltv_out := d |}
  else
    let* n := get hop "next_node_id" in
    let* n := node_of n in
    let* size := lift (jsize path) in
    let* (a, d) :=
      (if (1 <? size)%nat then
         let* hop1 := lift (jindex_nth path 1) in
         amount_and_delay hop1 "amount_msat" "delay"
       else amount_and_delay route "amount_msat" "final_cltv") in
    inl {| node_id_out := n; amount_out := a; cltv_out := d |}.

End FirstHop.

(** ** The probe *)

Module Prober.
Import FirstHop.

Definition reference_amount : Amount := Amount.sat 160000.

Definition label_prefix : bytes := lit "CLBOSS ActiveProber payment, this will fail and should automatically get deleted. Hash: ".

Definition is_our_label (label : bytes) : bool :=
  if negb (length label =? length label_prefix + 64)%nat then false
  else if negb (bool_decide (take (length label_prefix) label = label_prefix)) then false
  else Str.ishex (drop (length label_prefix) label).

Record Hop := { h_id : Node; h_channel : Z; h_direction : Z; h_amount : Amount; h_delay : Z }.

(** The commands of a probe. *)
Inductive Cmd :=
  | Listpeerchannels (id : Node)
  | Getroutes (source destination : Node) (amount : Amount) (exclude : bool) (maxfee : Amount)
  | Listchannels (scid : Z)
  | Sendpay (route : list Hop) (hash label : bytes)
  | Waitsendpay (hash : bytes)
  | Delpay (hash : bytes) (complete : bool).

(** How a probe ends: with a reply that makes it give up (by a line in the log or by an
    exception that ends its green thread, which are not told apart), without a channel to
    probe, without a destination, with none that worked, with a payment, or with undefined
    behaviour. *)
Inductive ending := Gave_up | No_channel | No_destinations | Exhausted | Probed | Undefined_behaviour.

(** *** Reading replies *)

Fixpoint usable_channel (cs : list json) : outcome (option (Z * Amount)) :=
  match cs with
  | [] => inl None
  | c :: cs =>
      let* h := has (Some c) "short_channel_id" in
      if negb h then usable_channel cs
      else
        let* h := has (Some c) "spendable_msat" in
        if negb h then usable_channel cs
        else
          let* st := get (Some c) "state" in
          let* state := text st in
          if negb (bool_decide (state = lit "CHANNELD_NORMAL")) then usable_channel cs
          else
            let* s := get (Some c) "short_channel_id" in
            let* s := text s in
            let* chan0 := scid_of s in
            let* m := get (Some c) "spendable_msat" in
            let* cap0 := amount_object m in
            inl (Some (chan0, cap0))
  end.

Definition read_channel (res : json) : outcome (option (Z * Amount)) :=
  let* cs := get (Some res) "channels" in
  let* cs := lift (jelements cs) in
  usable_channel cs.

(** [std::stoul]; [None] is an exception. *)
Definition stoul (s : bytes) : option Z :=
  let '(neg, s) := match skip_ws s with
                   | c :: s' => if c =? chr "-" then (true, s') else if c =? chr "+" then (false, s') else (false, c :: s')
                   | [] => (false, [])
                   end in
  match (span_digits s).1 with
  | [] => None
  | ds => if UINT64_MAX <? digits_value ds then None else Some (if neg : bool then u64 (- digits_value ds) else digits_value ds)
  end.

(** The part before the first slash, and the part behind it. *)
Fixpoint split_slash (s : bytes) : option (bytes * bytes) :=
  match s with
  | [] => None
  | c :: s => if c =? chr "/" then Some ([], s) else '(a, b) ← split_slash s; Some (c :: a, b)
  end.

(** The first hop after the peer. *)
Definition read_route (res : json) : outcome Hop :=
  let* routes := get (Some res) "routes" in
  let* route := lift (jindex_nth routes 0) in
  let* hop0 := first_hop route in
  let* path := get route "path" in
  let* path0 := lift (jindex_nth path 0) in
  let* sd := get path0 "short_channel_id_dir" in
  let* sdir := text sd in
  let* (scid, dir) := or_throw Logic (split_slash sdir) in
  let* chan1 := scid_of scid in
  let* direction1 := or_throw Logic (stoul dir) in
  inl {| h_id := node_id_out hop0; h_channel := chan1; h_direction := u32 direction1; h_amount := amount_out hop0; h_delay := cltv_out hop0 |}.

(** The fees and the delay of the peer on a channel. *)
Record Policy := { base_fee : Amount; proportional_fee : Z; cltv_delta : Z }.

Definition add_policy (peer : Node) (found : option Policy) (c : json) : outcome (option Policy) :=
  let* s := get (Some c) "source" in
  let* src := node_of s in
  if negb (bool_decide (src = peer)) then inl found
  else
    let* b := get (Some c) "base_fee_millisatoshi" in
    let* d := number b in
    let* base := defined (d_to_u64 d) in
    let* p := get (Some c) "fee_per_millionth" in
    let* ppm := u32_of p in
    let* d := get (Some c) "delay" in
    let* delta := u32_of d in
    inl (Some {| base_fee := base; proportional_fee := ppm; cltv_delta := delta |}).

Definition read_policy (peer : Node) (res : json) : outcome (option Policy) :=
  let* cs := get (Some res) "channels" in
  let* cs := lift (jelements cs) in
  foldM (add_policy peer) cs None.

(** *** Amounts *)

(** What is probed over a channel with so much to spend. *)
Definition probe_amount (cap0 : Amount) : option Amount :=
  limit ← Amount.mul cap0 (RN (95 # 100));
  Some (if Amount.gt reference_amount limit then limit else reference_amount).

Definition maxfee (amount : Amount) : option Amount := Amount.mul amount (RN (1 # 100)).

(** What the peer is to get. *)
Definition amount0_of (amount1 : Amount) (p : Policy) : option Amount :=
  fee ← Amount.mul amount1 (ddiv (d_of_Z (proportional_fee p)) (d_of_Z 1000000));
  Some (Amount.add (Amount.add (Amount.add amount1 (base_fee p)) fee) (Amount.msat 1)).

(** *** The payment *)

Definition flip (hash : bytes) : bytes := map (fun b => u8 (- b - 1)) hash.

(** *** The fee *)

Lemma twice_rounded_fee (f r : Q) :
  (0 <= f <= inject_Z (2 ^ 51))%Q -> (f * (1 - pow2 (-53)) * (1 - pow2 (-53)) <= r <= f * (1 + pow2 (-53)) * (1 + pow2 (-53)))%Q ->
  (f - 1 <= r /\ r < f + 1 /\ r < inject_Z (2 ^ 64))%Q.
Proof.
  change (pow2 (-53)) with (1 # 9007199254740992). change (inject_Z (2 ^ 51)) with (2251799813685248 # 1). change (inject_Z (2 ^ 64)) with (18446744073709551616 # 1).
  intros [H0 H1] [H2 H3]. split_and!; lra.
Qed.

(** The proportional fee of a channel, as computed, is off by at most one. *)
Lemma fee_near a ppm :
  0 <= a < 2 ^ 53 -> 0 <= ppm < 2 ^ 32 -> a * ppm <= 1000000 * 2 ^ 51 ->
  exists fee, Amount.mul a (ddiv (d_of_Z ppm) (d_of_Z 1000000)) = Some fee /\ a * ppm / 1000000 - 1 <= fee <= a * ppm / 1000000 + 1.
Proof.
  intros Ha Hp Hf. unfold Amount.mul. rewrite !d_of_Z_exact by lia.
  assert (ddiv (Fin (inject_Z ppm)) (Fin (inject_Z 1000000)) = RN (inject_Z ppm / inject_Z 1000000)) as -> by reflexivity.
  assert (0 <= inject_Z ppm <= inject_Z (2 ^ 32))%Q as Hp' by (change 0%Q with (inject_Z 0); rewrite <- !Zle_Qle; lia).
  assert (0 <= inject_Z a <= inject_Z (2 ^ 53))%Q as Ha' by (change 0%Q with (inject_Z 0); rewrite <- !Zle_Qle; lia).
  assert (inject_Z (2 ^ 32) <= pow2 100)%Q as L1 by (vm_compute; discriminate).
  assert (pow2 100 <= pow2 1023)%Q as L2 by (apply pow2_le; lia).
  assert (inject_Z ppm / inject_Z 1000000 == inject_Z ppm * (1 # 1000000))%Q as Eq by (unfold Qdiv; reflexivity).
  destruct (RN_finite (inject_Z ppm / inject_Z 1000000)) as (x & Ex & Hx0 & _); [rewrite Eq; lra..|]. rewrite Ex. cbn [dmul].
  set (f := (inject_Z (a * ppm) * (1 # 1000000))%Q).
  assert (a * ppm / 1000000 = Qfloor f) as -> by (rewrite Zdiv_Qdiv; apply Qfloor_comp; unfold f, Qdiv; reflexivity).
  assert (0 <= f <= inject_Z (2 ^ 51))%Q as Hf'.
  { unfold f. assert (inject_Z 0 <= inject_Z (a * ppm))%Q by (rewrite <- Zle_Qle; nia). assert (inject_Z (a * ppm) <= inject_Z (1000000 * 2 ^ 51))%Q by (rewrite <- Zle_Qle; lia).
    change (inject_Z (1000000 * 2 ^ 51)) with (2251799813685248000000 # 1) in *. change (inject_Z (2 ^ 51)) with (2251799813685248 # 1). change (inject_Z 0) with 0%Q in *. lra. }
  assert (exists r, RN (inject_Z a * x) = Fin r /\ (0 <= r)%Q /\
    (f * (1 - pow2 (-53)) * (1 - pow2 (-53)) <= r <= f * (1 + pow2 (-53)) * (1 + pow2 (-53)))%Q) as (r & Er & Hr0 & Hr).
  { destruct (Z.eq_dec (a * ppm) 0) as [E0|N0].
    - assert (inject_Z a * x == 0)%Q as E.
      { apply Z.mul_eq_0 in E0 as [->| ->]; [change (inject_Z 0) with 0%Q; lra|]. assert (x == 0)%Q as ->; [|lra].
        rewrite (RN_Proper _ 0%Q) in Ex by (rewrite Eq; change (inject_Z 0) with 0%Q; lra). rewrite RN_0 in Ex. by injection Ex as <-. }
      exists 0%Q. rewrite (RN_Proper _ 0%Q E), RN_0. unfold f. rewrite E0. change (inject_Z 0) with 0%Q. split_and!; [done|lra..].
    - assert (1 <= a /\ 1 <= ppm) as [A1 P1] by nia.
      assert (1 <= inject_Z a)%Q as A1' by (change 1%Q with (inject_Z 1); rewrite <- Zle_Qle; lia).
      assert (1 <= inject_Z ppm)%Q as P1' by (change 1%Q with (inject_Z 1); rewrite <- Zle_Qle; lia).
      assert (pow2 (-1022) <= pow2 (-21))%Q as L3 by (apply pow2_le; lia).
      assert (pow2 (-21) <= 1 # 2000000)%Q as L4 by (vm_compute; discriminate).
      assert (pow2 (-53) <= 1 # 2)%Q as L5 by (vm_compute; discriminate). pose proof (pow2_pos (-53)) as P53.
      destruct (RN_Fin_error _ _ Ex) as [X1 X2]; [rewrite Eq; lra|]. rewrite Eq in X1, X2.
      assert (inject_Z a * x <= pow2 1023)%Q as Hub.
      { assert (x <= inject_Z (2 ^ 33))%Q by (change (inject_Z (2 ^ 33)) with (8589934592 # 1); change (inject_Z (2 ^ 32)) with (4294967296 # 1) in *; nra).
        assert (inject_Z (2 ^ 53) * inject_Z (2 ^ 33) <= pow2 1023)%Q by (eapply Qle_trans; [|exact L2]; vm_compute; discriminate).
        assert (inject_Z a * x <= inject_Z (2 ^ 53) * inject_Z (2 ^ 33))%Q; [|lra].
        change (inject_Z (2 ^ 53)) with (9007199254740992 # 1) in *. change (inject_Z (2 ^ 33)) with (8589934592 # 1) in *. nra. }
      destruct (RN_finite (inject_Z a * x)) as (r & Er & Hr0 & _); [nra|done|]. exists r. split; [done|split; [done|]].
      destruct (RN_Fin_error _ _ Er) as [R1 R2]; [nra|]. unfold f. rewrite inject_Z_mult.
      assert (inject_Z a * (inject_Z ppm * (1 # 1000000) * (1 - pow2 (-53))) <= inject_Z a * x)%Q as M1 by nra.
      assert (inject_Z a * x <= inject_Z a * (inject_Z ppm * (1 # 1000000) * (1 + pow2 (-53))))%Q as M2 by nra. split; nra. }
  rewrite Er. destruct (twice_rounded_fee f r Hf' Hr) as (B1 & B2 & B3).
  exists (Qfloor r). split; [by apply Amount.clamp_floor|].
  pose proof (Qfloor_le r) as F1. pose proof (Qlt_floor r) as F2. pose proof (Qfloor_le f) as F3. pose proof (Qlt_floor f) as F4.
  rewrite inject_Z_plus in F2, F4. change (inject_Z 1) with 1%Q in *. split.
  - assert (inject_Z (Qfloor f) < inject_Z (Qfloor r + 2))%Q as Hlt; [|rewrite <- Zlt_Qlt in Hlt; lia].
    rewrite inject_Z_plus. change (inject_Z 2) with 2%Q. lra.
  - assert (inject_Z (Qfloor r) < inject_Z (Qfloor f + 2))%Q as Hlt; [|rewrite <- Zlt_Qlt in Hlt; lia].
    rewrite inject_Z_plus. change (inject_Z 2) with 2%Q. lra.
Qed.

Section Run.

(** Our node, the peer, and the hash of a random preimage. *)
Context (self_id peer : Node) (hash0 : bytes).

(** The answers of the node: to the creation and the listing of the layer, to
    [listpeerchannels], to the [i]th [getroutes] and the [listchannels] after it, to
    [sendpay] and to [waitsendpay]; the last, to [delpay], is not looked at. *)
Context (created listed channels : rpc) (routes : nat -> Node -> rpc) (gossip : nat -> Z -> rpc) (sent waited : rpc).

Definition hash : bytes := flip hash0.

Definition route_of (chan0 : Z) (hop1 : Hop) (p : Policy) : option (list Hop) :=
  amount0 ← amount0_of (h_amount hop1) p;
  Some [{| h_id := peer; h_channel := chan0; h_direction := if NodeId.gt self_id peer then 1 else 0;
           h_amount := amount0; h_delay := u32 (h_delay hop1 + cltv_delta p) |}; hop1].

Definition sendpay (route : list Hop) : list Cmd :=
  [Sendpay route hash (label_prefix ++ Str.hexdump hash)]
  ++ match sent with
     | RpcError _ => [Delpay hash false]
     | Result _ => [Waitsendpay hash; Delpay hash (match waited with Result _ => true | RpcError _ => false end)]
     end.

(** [None] is a lack of fuel. *)
Fixpoint getroute (fuel i : nat) (exclude : bool) (chan0 : Z) (amount : Amount) (to_try : list Node) : option (list Cmd * ending) :=
  match fuel with
  | O => None
  | S fuel =>
      match to_try with
      | [] => Some ([], Exhausted)
      | dest :: rest =>
          match maxfee amount with
          | None => Some ([], Undefined_behaviour)
          | Some fee =>
              let ask := Getroutes peer dest amount exclude fee in
              let next asked := '(cs, e) ← getroute fuel (S i) exclude chan0 amount rest; Some (asked ++ cs, e) in
              match routes i dest with
              | RpcError _ => next [ask]
              | Result res =>
                  match read_route res with
                  | inr Undefined => Some ([ask], Undefined_behaviour)
                  | inr _ => next [ask]
                  | inl hop1 =>
                      let asked := [ask; Listchannels (h_channel hop1)] in
                      match gossip i (h_channel hop1) with
                      | RpcError _ => Some (asked, Gave_up)
                      | Result res =>
                          match read_policy peer res with
                          | inr Undefined => Some (asked, Undefined_behaviour)
                          | inr _ => Some (asked, Gave_up)
                          | inl None => next asked
                          | inl (Some p) =>
                              match route_of chan0 hop1 p with
                              | None => Some (asked, Undefined_behaviour)
                              | Some route => Some (asked ++ sendpay route, Probed)
                              end
                          end
                      end
                  end
              end
          end
      end
  end.

(** The nodes to try are those of the candidates but the peer, in some order. *)
Definition destinations (candidates : list (Node * Node)) : list Node :=
  filter (fun n => n <> peer) (remove_dups (candidates ≫= fun c => [c.1; c.2])).

Definition run (to_try : list Node) : option (list Cmd * ending) :=
  match ensure_self_layer created listed (NodeId.to_string self_id) with
  | None => Some ([], Undefined_behaviour)
  | Some (exclude, _) =>
      let ask := Listpeerchannels peer in
      match channels with
      | RpcError _ => Some ([ask], Gave_up)
      | Result res =>
          match read_channel res with
          | inr Undefined => Some ([ask], Undefined_behaviour)
          | inr _ => Some ([ask], Gave_up)
          | inl None => Some ([ask], No_channel)
          | inl (Some (chan0, cap0)) =>
              if chan0 =? 0 then Some ([ask], No_channel)
              else
                match probe_amount cap0, to_try with
                | None, _ => Some ([ask], Undefined_behaviour)
                | _, [] => Some ([ask], No_destinations)
                | Some amount, _ =>
                    '(cs, e) ← getroute (S (length to_try)) 0 exclude chan0 amount to_try; Some (ask :: cs, e)
                end
          end
      end
  end.

(** *** Lemmas *)

(** The nodes that were asked about, and the payments. *)
Definition asked_for (cs : list Cmd) : list Node := omap (fun c => match c with Getroutes _ d _ _ _ => Some d | _ => None end) cs.
Definition pays (c : Cmd) : bool := match c with Sendpay _ _ _ | Waitsendpay _ | Delpay _ _ => true | _ => false end.

Lemma getroute_ends fuel : forall i exclude chan0 amount to_try,
  (length to_try < fuel)%nat -> exists cs e, getroute fuel i exclude chan0 amount to_try = Some (cs, e) /\ asked_for cs `prefix_of` to_try.
Proof.
  induction fuel as [|fuel IH]; intros i exclude chan0 amount to_try Hf; [lia|]. cbn [getroute].
  destruct to_try as [|dest rest]; [by exists [], Exhausted|]. cbn [length] in Hf.
  destruct (maxfee amount) as [fee|]; [|exists [], Undefined_behaviour; split; [done|apply prefix_nil]].
  set (ask := Getroutes peer dest amount exclude fee).
  assert (forall asked, asked_for asked = [dest] -> exists cs e,
    ('(cs, e) ← getroute fuel (S i) exclude chan0 amount rest; Some (asked ++ cs, e)) = Some (cs, e) /\ asked_for cs `prefix_of` dest :: rest) as Hnext.
  { intros asked Ha. destruct (IH (S i) exclude chan0 amount rest) as (cs & e & -> & Hp); [lia|]. exists (asked ++ cs), e. split; [done|].
    unfold asked_for in *. rewrite omap_app, Ha. by apply prefix_cons. }
  assert (forall asked (e : ending), asked_for asked = [dest] -> exists cs e', Some (asked, e) = Some (cs, e') /\ asked_for cs `prefix_of` dest :: rest) as Hstop.
  { intros asked e Ha. exists asked, e. split; [done|]. rewrite Ha. apply prefix_cons, prefix_nil. }
  destruct (routes i dest) as [res|err]; [|by apply Hnext]. destruct (read_route res) as [hop1|[]]; [|by apply Hnext|by apply Hnext|by apply Hstop].
  destruct (gossip i (h_channel hop1)) as [res2|err]; [|by apply Hstop]. destruct (read_policy peer res2) as [[p|]|[]]; [|by apply Hnext|by apply Hstop..].
  destruct (route_of chan0 hop1 p) as [route|]; [|by apply Hstop]. apply Hstop. unfold asked_for, sendpay. by destruct sent.
Qed.

(** Where a payment comes from: a destination that was tried, its route, and the fees of the
    peer on the first channel of that route. *)
Definition payment (i : nat) (chan0 : Z) (to_try : list Node) (route : list Hop) : Prop :=
  exists k dest res res2 hop1 p,
    to_try !! k = Some dest
    /\ routes (i + k) dest = Result res /\ read_route res = inl hop1
    /\ gossip (i + k) (h_channel hop1) = Result res2 /\ read_policy peer res2 = inl (Some p)
    /\ route_of chan0 hop1 p = Some route.

Lemma payment_later i chan0 dest to_try route : payment (S i) chan0 to_try route -> payment i chan0 (dest :: to_try) route.
Proof.
  intros (k & d & res & res2 & hop1 & p & H1 & H2 & H3 & H4 & H5 & H6). exists (S k), d, res, res2, hop1, p.
  replace (i + S k)%nat with (S i + k)%nat by lia. by split_and!.
Qed.

(** Either nothing is paid, or the commands end with one payment. *)
Definition questions (cs : list Cmd) : Prop := Forall (fun c => pays c = false) cs.

Lemma getroute_pays fuel : forall i exclude chan0 amount to_try cs e,
  getroute fuel i exclude chan0 amount to_try = Some (cs, e) ->
  (questions cs /\ e <> Probed)
  \/ exists pre route, cs = pre ++ sendpay route /\ questions pre /\ e = Probed /\ payment i chan0 to_try route.
Proof.
  induction fuel as [|fuel IH]; intros i exclude chan0 amount to_try cs e; [done|]. cbn [getroute].
  destruct to_try as [|dest rest]; [intros [= <- <-]; left; by split; [constructor|]|].
  destruct (maxfee amount) as [fee|]; [|intros [= <- <-]; left; by split; [constructor|]].
  set (ask := Getroutes peer dest amount exclude fee).
  assert (forall asked, questions asked ->
    ('(cs, e) ← getroute fuel (S i) exclude chan0 amount rest; Some (asked ++ cs, e)) = Some (cs, e) ->
    (questions cs /\ e <> Probed)
    \/ exists pre route, cs = pre ++ sendpay route /\ questions pre /\ e = Probed /\ payment i chan0 (dest :: rest) route) as Hnext.
  { intros asked Ha. destruct (getroute fuel (S i) exclude chan0 amount rest) as [[cs' e']|] eqn:E; [|done]. cbn. intros [= <- <-].
    destruct (IH _ _ _ _ _ _ _ E) as [[H1 H2]|(pre & route & -> & H1 & H2 & H3)].
    - left. split; [|done]. by apply Forall_app.
    - right. exists (asked ++ pre), route. rewrite app_assoc. split_and!; [done| |done|by apply payment_later]. by apply Forall_app. }
  assert (forall asked e', questions asked -> e' <> Probed -> Some (asked, e') = Some (cs, e) ->
    (questions cs /\ e <> Probed)
    \/ exists pre route, cs = pre ++ sendpay route /\ questions pre /\ e = Probed /\ payment i chan0 (dest :: rest) route) as Hstop.
  { intros asked e' H1 H2 [= <- <-]. by left. }
  assert (questions [ask]) as Q1 by (by repeat constructor).
  destruct (routes i dest) as [res|err] eqn:Er; [|by apply Hnext].
  destruct (read_route res) as [hop1|[]] eqn:Eh; [|by apply Hnext|by apply Hnext|by apply Hstop].
  assert (questions [ask; Listchannels (h_channel hop1)]) as Q2 by (by repeat constructor).
  destruct (gossip i (h_channel hop1)) as [res2|err] eqn:Eg; [|by apply Hstop].
  destruct (read_policy peer res2) as [[p|]|[]] eqn:Ep; [|by apply Hnext|by apply Hstop..].
  destruct (route_of chan0 hop1 p) as [route|] eqn:Ero; [|by apply Hstop]. intros [= <- <-]. right.
  exists [ask; Listchannels (h_channel hop1)], route. split_and!; [done|done|done|].
  exists 0%nat, dest, res, res2, hop1, p. rewrite Nat.add_0_r. by split_and!.
Qed.

(** *** The label *)

Lemma hexdump_hexchars h : bytes_ok h -> Str.ishex (Str.hexdump h) = true.
Proof. intros H. by apply (Str.hexread_hexdump h). Qed.

Lemma our_label h : bytes_ok h -> length h = 32%nat -> is_our_label (label_prefix ++ Str.hexdump h) = true.
Proof.
  intros Hb Hl. unfold is_our_label. rewrite length_app, Str.hexdump_length, Hl, take_app_length, drop_app_length, Nat.eqb_refl.
  rewrite bool_decide_eq_true_2 by done. cbn [negb]. by apply hexdump_hexchars.
Qed.

Lemma flip_ok h : length (flip h) = length h /\ bytes_ok (flip h).
Proof.
  unfold flip. split; [by rewrite length_map|]. apply Forall_forall. intros b Hb. apply list_elem_of_In, in_map_iff in Hb as (x & <- & _). apply u8_range.
Qed.

(** *** The amounts *)

Lemma probe_amount_le cap0 amount : probe_amount cap0 = Some amount ->
  amount <= reference_amount /\ exists limit, Amount.mul cap0 (RN (95 # 100)) = Some limit /\ amount <= limit.
Proof.
  unfold probe_amount. destruct (Amount.mul cap0 (RN (95 # 100))) as [limit|]; [|done]. cbn [mbind option_bind]. intros [= <-].
  unfold Amount.gt, Amount.lt. destruct (Z.ltb_spec limit reference_amount); (split; [lia|exists limit; split; [done|lia]]).
Qed.

Lemma flip_complement h : bytes_ok h -> Forall2 (fun b b' => b + b' = 255) h (flip h).
Proof.
  induction 1 as [|b h Hb _ IH]; [constructor|]. cbn [flip map]. constructor; [|exact IH].
  unfold is_u8, u8 in *. change (2 ^ 8) with 256 in *. rewrite <- (Z.mod_unique_pos (- b - 1) 256 (-1) (255 - b)); lia.
Qed.

Lemma sendpay_shape route : exists tail complete,
  sendpay route = Sendpay route hash (label_prefix ++ Str.hexdump hash) :: tail ++ [Delpay hash complete]
  /\ Forall (fun c => c = Waitsendpay hash) tail.
Proof.
  unfold sendpay. destruct sent as [r|r]; [|exists [], false; by split; [|constructor]].
  eexists [Waitsendpay hash], _. by split; [|repeat constructor].
Qed.

(** *** What a probe does *)

Lemma run_pays to_try cs e : run to_try = Some (cs, e) ->
  (questions cs /\ e <> Probed)
  \/ exists pre route res chan0 cap0, cs = pre ++ sendpay route /\ questions pre /\ e = Probed
     /\ channels = Result res /\ read_channel res = inl (Some (chan0, cap0)) /\ chan0 <> 0 /\ payment 0 chan0 to_try route.
Proof.
  unfold run. destruct (ensure_self_layer _ _ _) as [[exclude cmds]|]; [|intros [= <- <-]; left; by split; [constructor|]].
  assert (forall e', e' <> Probed -> Some ([Listpeerchannels peer], e') = Some (cs, e) -> questions cs /\ e <> Probed) as Hstop
    by (intros e' H [= <- <-]; split; [by repeat constructor|done]).
  destruct channels as [res|err]; [|intros H; left; by (eapply Hstop; [|exact H])].
  destruct (read_channel res) as [[[chan0 cap0]|]|[]] eqn:Ec; [|intros H; left; by (eapply Hstop; [|exact H])..].
  destruct (Z.eqb_spec chan0 0) as [|N]; [intros H; left; by (eapply Hstop; [|exact H])|].
  destruct (probe_amount cap0) as [amount|]; [|intros H; left; by (eapply Hstop; [|exact H])]. destruct to_try as [|dest rest]; [intros H; left; by (eapply Hstop; [|exact H])|].
  set (to_try := dest :: rest). destruct (getroute _ _ _ _ _ to_try) as [[cs' e']|] eqn:Eg; [|done]. cbn [mbind option_bind]. intros [= <- <-].
  destruct (getroute_pays _ _ _ _ _ _ _ _ Eg) as [[H1 H2]|(pre & route & -> & H1 & H2 & H3)].
  - left. split; [by constructor|done].
  - right. exists (Listpeerchannels peer :: pre), route, res, chan0, cap0. split_and!; try done. by constructor.
Qed.

(** A channel in normal operation, its id and what can be spent over it. *)
Definition is_usable (c : json) (chan0 : Z) (cap0 : Amount) : Prop :=
  exists s u v m, get (Some c) "state" = inl s /\ text s = inl (lit "CHANNELD_NORMAL")
    /\ get (Some c) "short_channel_id" = inl u /\ text u = inl v /\ scid_of v = inl chan0
    /\ get (Some c) "spendable_msat" = inl m /\ amount_object m = inl cap0.

Lemma usable_channel_state cs chan0 cap0 : usable_channel cs = inl (Some (chan0, cap0)) -> exists c, c ∈ cs /\ is_usable c chan0 cap0.
Proof.
  induction cs as [|c cs IH]; [done|]. cbn [usable_channel].
  assert (usable_channel cs = inl (Some (chan0, cap0)) -> exists c', c' ∈ c :: cs /\ is_usable c' chan0 cap0) as Hlater
    by (intros H; destruct (IH H) as (c' & H1 & H2); exists c'; split; [by apply list_elem_of_further|done]).
  destruct (has (Some c) "short_channel_id") as [[]|]; cbn [obind negb]; [|done..].
  destruct (has (Some c) "spendable_msat") as [[]|]; cbn [obind negb]; [|done..].
  destruct (get (Some c) "state") as [s|] eqn:Es; cbn [obind]; [|done]. destruct (text s) as [state|] eqn:Et; cbn [obind]; [|done].
  case_bool_decide as Hn; cbn [negb]; [|done]. rewrite Hn in Et.
  destruct (get (Some c) "short_channel_id") as [u|] eqn:Eu; cbn [obind]; [|done]. destruct (text u) as [v|] eqn:Ev; cbn [obind]; [|done].
  destruct (scid_of v) as [z|] eqn:Ez; cbn [obind]; [|done]. destruct (get (Some c) "spendable_msat") as [m|] eqn:Em; cbn [obind]; [|done].
  destruct (amount_object m) as [a|] eqn:Ea; cbn [obind]; [|done]. intros H. assert (z = chan0 /\ a = cap0) as [-> ->] by (by split; congruence).
  exists c. split; [apply list_elem_of_here|]. exists s, u, v, m. by split_and!.
Qed.

Lemma read_channel_usable res chan0 cap0 : read_channel res = inl (Some (chan0, cap0)) ->
  exists c v cs, get (Some res) "channels" = inl v /\ jelements v = Ok cs /\ c ∈ cs /\ is_usable c chan0 cap0.
Proof.
  unfold read_channel. destruct (get (Some res) "channels") as [v|]; cbn [obind]; [|done].
  destruct (jelements v) as [cs|[]|] eqn:E; cbn [lift obind]; [|done..]. intros (c & H1 & H2)%usable_channel_state. by exists c, v, cs.
Qed.

Lemma run_ends to_try : exists cs e, run to_try = Some (cs, e) /\ asked_for cs `prefix_of` to_try.
Proof.
  assert (forall ask (e : ending), asked_for ask = [] -> exists cs e', Some (ask, e) = Some (cs, e') /\ asked_for cs `prefix_of` to_try) as Hstop
    by (intros ask e H; exists ask, e; rewrite H; split; [done|apply prefix_nil]).
  unfold run. destruct (ensure_self_layer _ _ _) as [[exclude cmds]|]; [|by apply Hstop].
  destruct channels as [res|err]; [|by apply Hstop]. destruct (read_channel res) as [[[chan0 cap0]|]|[]]; [|by apply Hstop..].
  destruct (chan0 =? 0); [by apply Hstop|]. destruct (probe_amount cap0) as [amount|]; [|by apply Hstop].
  destruct to_try as [|dest rest]; [by apply Hstop|].
  destruct (getroute_ends (S (length (dest :: rest))) 0 exclude chan0 amount (dest :: rest)) as (cs & e & -> & Hp); [lia|].
  by exists (Listpeerchannels peer :: cs), e.
Qed.

Lemma destinations_ok candidates to_try : to_try ≡ₚ destinations candidates ->
  NoDup to_try /\ forall n, n ∈ to_try <-> n <> peer /\ exists c, c ∈ candidates /\ (n = c.1 \/ n = c.2).
Proof.
  intros P. split.
  - rewrite P. unfold destinations. apply NoDup_filter, NoDup_remove_dups.
  - intros n. rewrite P. unfold destinations. rewrite list_elem_of_filter, elem_of_remove_dups, list_elem_of_bind.
    split; intros [H (c & H1 & H2)]; (split; [done|]); exists c.
    + split; [done|]. apply list_elem_of_In in H1. cbn in H1. naive_solver.
    + split; [|done]. apply list_elem_of_In. cbn. naive_solver.
Qed.


(** *** Theorems *)

(** A probe always ends, whatever the node answers: it asks for a route to each of the
    nodes of the candidates at most once, and never for one to the peer itself. *)
Theorem probe_ends candidates to_try :
  to_try ≡ₚ destinations candidates ->
  exists cs e, run to_try = Some (cs, e) /\ NoDup (asked_for cs)
    /\ forall d, d ∈ asked_for cs -> d <> peer /\ exists c, c ∈ candidates /\ (d = c.1 \/ d = c.2).
Proof.
  intros [Hn Hd]%destinations_ok. destruct (run_ends to_try) as (cs & e & Er & k & Hp). exists cs, e. rewrite Hp in Hn. split_and!; [done| |].
  - by apply NoDup_app in Hn as [? _].
  - intros d H. apply Hd. rewrite Hp. by apply elem_of_app; left.
Qed.

(** C39: A probe pays at most once.  The payment goes over a channel with the peer that is
    in normal operation and one hop further, its delay is that of the further hop and the
    one the peer asks for on it, its hash is the bitwise complement of the
    hash of a preimage, and its label is one the deletion of payments accepts; the last thing a
    probe that paid does is to delete that payment. *)
Theorem probe_payment to_try cs e :
  bytes_ok hash0 -> length hash0 = 32%nat -> run to_try = Some (cs, e) ->
  (e <> Probed /\ questions cs)
  \/ exists pre hop0 hop1 label tail complete h,
       e = Probed /\ cs = pre ++ Sendpay [hop0; hop1] h label :: tail ++ [Delpay h complete]
       /\ questions pre /\ Forall (fun c => c = Waitsendpay h) tail
       /\ Forall2 (fun b b' => b + b' = 255) hash0 h /\ is_our_label label = true
       /\ h_id hop0 = peer
       /\ (exists res c v l cap0, channels = Result res /\ get (Some res) "channels" = inl v /\ jelements v = Ok l
             /\ c ∈ l /\ is_usable c (h_channel hop0) cap0)
       /\ exists k dest res res2 p, to_try !! k = Some dest /\ routes k dest = Result res /\ read_route res = inl hop1
            /\ gossip k (h_channel hop1) = Result res2 /\ read_policy peer res2 = inl (Some p)
            /\ amount0_of (h_amount hop1) p = Some (h_amount hop0) /\ h_delay hop0 = u32 (h_delay hop1 + cltv_delta p).
Proof.
  intros Hb Hl Hr. destruct (run_pays _ _ _ Hr) as [[H1 H2]|(pre & route & res & chan0 & cap0 & -> & H1 & -> & H2 & H3 & _ & H4)]; [by left|right].
  destruct H4 as (k & dest & res1 & res2 & hop1 & p & K1 & K2 & K3 & K4 & K5 & K6). cbn [Nat.add] in *.
  unfold route_of in K6. destruct (amount0_of (h_amount hop1) p) as [amount0|] eqn:Ea; [|done]. cbn [mbind option_bind] in K6.
  injection K6 as <-. set (hop0 := {| h_id := peer; h_channel := chan0; h_direction := _; h_amount := _; h_delay := _ |}).
  destruct (sendpay_shape [hop0; hop1]) as (tail & complete & -> & Ht).
  destruct (flip_ok hash0) as [F1 F2]. destruct (read_channel_usable _ _ _ H3) as (c & v & l & C1 & C2 & C3 & C4).
  exists pre, hop0, hop1, (label_prefix ++ Str.hexdump hash), tail, complete, hash. split_and!; try done.
  - by apply flip_complement.
  - apply our_label; [done|]. unfold hash. by rewrite F1.
  - by exists res, c, v, l, cap0.
  - exists k, dest, res1, res2, p. by split_and!.
Qed.

End Run.

(** C32: What the peer is sent covers what it forwards and the fee it asks for, in spite of
    the roundoff of the fee as computed in floating point, and is at most two millisatoshis
    more. *)
Theorem probe_fee_covers amount1 p :
  0 <= amount1 < 2 ^ 53 -> is_u64 (base_fee p) -> 0 <= proportional_fee p < 2 ^ 32 ->
  amount1 * proportional_fee p <= 1000000 * 2 ^ 51 -> amount1 + base_fee p < 2 ^ 63 ->
  let owed := amount1 + base_fee p + amount1 * proportional_fee p / 1000000 in
  exists amount0, amount0_of amount1 p = Some amount0 /\ owed <= amount0 <= owed + 2.
Proof.
  intros Ha Hb Hp Hf Ht owed. destruct (fee_near amount1 (proportional_fee p) Ha Hp Hf) as (fee & E & Hfee).
  assert (0 <= fee) as F0 by (apply (Amount.clamp_range _ _ E)).
  assert (0 <= amount1 * proportional_fee p / 1000000 <= 2 ^ 51) as Hq.
  { split; [apply Z.div_pos; nia|]. apply Z.div_le_upper_bound; lia. }
  unfold amount0_of. rewrite E. cbn [mbind option_bind]. eexists. split; [reflexivity|].
  assert (Amount.add amount1 (base_fee p) = amount1 + base_fee p) as -> by (rewrite Amount.add_spec by ulia; ulia).
  assert (Amount.add (amount1 + base_fee p) fee = amount1 + base_fee p + fee) as -> by (rewrite Amount.add_spec by ulia; ulia).
  change (Amount.msat 1) with 1. rewrite Amount.add_spec by ulia. unfold owed. ulia.
Qed.

(** *** Samples *)

Definition demo_node (k : Z) : Node := Some (2 :: repeat 0 31 ++ [k]).
Definition demo_id (k : Z) : json := JStr (NodeId.to_string (demo_node k)).
Definition num (s : string) : json := JPrim (lit s).
Definition str (s : string) : json := JStr (lit s).

Definition demo_channels : rpc :=
  Result (JObj [(lit "channels", JArr [
    JObj [(lit "short_channel_id", str "100x1x0"); (lit "spendable_msat", num "50000"); (lit "state", str "CHANNELD_AWAITING_SPLICE")];
    JObj [(lit "short_channel_id", str "200x2x0"); (lit "spendable_msat", num "400000000"); (lit "state", str "CHANNELD_NORMAL")]])]).

(** The route to the first destination cannot be read, that to the second can. *)
Definition demo_routes (i : nat) (dest : Node) : rpc :=
  match i with
  | O => Result (JObj [(lit "routes", JArr [])])
  | _ => Result (JObj [(lit "routes", JArr [JObj [(lit "path", JArr [
           JObj [(lit "node_id_out", demo_id 7); (lit "amount_out_msat", num "160000000"); (lit "cltv_out", num "14");
                 (lit "short_channel_id_dir", str "300x3x1/1")]])]])])
  end.

Definition demo_gossip (i : nat) (scid : Z) : rpc :=
  Result (JObj [(lit "channels", JArr [
    JObj [(lit "source", demo_id 1); (lit "base_fee_millisatoshi", num "1000"); (lit "fee_per_millionth", num "250"); (lit "delay", num "34")];
    JObj [(lit "source", demo_id 7)]])]).

Definition demo_hash : bytes := repeat 170 32.

Definition demo_run : list Node -> option (list Cmd * ending) :=
  run (demo_node 0) (demo_node 1) demo_hash (RpcError (JObj [])) (RpcError (JObj [])) demo_channels demo_routes demo_gossip
    (Result (JObj [])) (RpcError (JObj [])).

Definition demo_candidates : list (Node * Node) := [(demo_node 2, demo_node 1); (demo_node 3, demo_node 2)].

Lemma probe_ends_witness : exists cs e, demo_run [demo_node 3; demo_node 2] = Some (cs, e) /\ NoDup (asked_for cs)
  /\ forall d, d ∈ asked_for cs -> d <> demo_node 1 /\ exists c, c ∈ demo_candidates /\ (d = c.1 \/ d = c.2).
Proof. apply (probe_ends (demo_node 0) (demo_node 1)). vm_compute. reflexivity. Defined.

Definition demo_paid : list Cmd * ending := Eval vm_compute in default ([], Gave_up) (demo_run [demo_node 3; demo_node 2]).

Lemma demo_probed : demo_paid.2 = Probed /\ length demo_paid.1 = 7%nat.
Proof. vm_compute. by split. Qed.

Lemma probe_payment_witness : exists pre hop0 hop1 label tail complete h,
  demo_paid.1 = pre ++ Sendpay [hop0; hop1] h label :: tail ++ [Delpay h complete] /\ is_our_label label = true /\ h_id hop0 = demo_node 1.
Proof.
  destruct (probe_payment (demo_node 0) (demo_node 1) demo_hash (RpcError (JObj [])) (RpcError (JObj [])) demo_channels demo_routes demo_gossip
    (Result (JObj [])) (RpcError (JObj [])) [demo_node 3; demo_node 2] demo_paid.1 demo_paid.2)
    as [[N _]|(pre & hop0 & hop1 & label & tail & complete & h & _ & H1 & _ & _ & _ & H2 & H3 & _)].
  - apply (bool_decide_unpack _). vm_compute. exact I.
  - reflexivity.
  - vm_compute. reflexivity.
  - by destruct N.
  - by exists pre, hop0, hop1, label, tail, complete, h.
Defined.

Lemma probe_fee_covers_witness : exists amount0,
  amount0_of 160000000 {| base_fee := 1000; proportional_fee := 250; cltv_delta := 34 |} = Some amount0 /\ 160041000 <= amount0 <= 160041002.
Proof. apply (probe_fee_covers 160000000 {| base_fee := 1000; proportional_fee := 250; cltv_delta := 34 |}); cbn; ulia. Defined.

End Prober.

(** ** Deleting payments *)

Module Deleter.

Abbreviation Filter := (bytes -> bool).

(** A [delpay]: the hash and the status of the payment. *)
Record Deletion := { payment_hash : bytes; status : bytes }.

(** Where a pass stands: none runs, it waits for the payments, it has these left to look
    at, or it ended by an exception or by undefined behaviour. *)
Inductive Pass := Idle | Listing | Looping (rest : list json) | Died.

Record State := { running : bool; soliciting : bool; filters : list Filter; pass : Pass }.

Definition initial : State := {| running := false; soliciting := false; filters := []; pass := Idle |}.

Definition filter_label (fs : list Filter) (label : bytes) : bool := existsb (fun f => f label) fs.

(** What is done about a payment of the list. *)
Definition read_pay (fs : list Filter) (pay : json) : outcome (option Deletion) :=
  let* l := has (Some pay) "label" in
  if negb l then inl None
  else
    let* l := get (Some pay) "label" in
    let* label := text l in
    if negb (filter_label fs label) then inl None
    else
      let* s := get (Some pay) "status" in
      let* status := text s in
      if bool_decide (status = lit "pending") then inl None
      else
        let* h := get (Some pay) "payment_hash" in
        let* payment_hash := text h in
        inl (Some {| payment_hash := payment_hash; status := status |}).

Definition read_pays (res : json) : outcome (list json) :=
  let* pays := get (Some res) "pays" in lift (jelements pays).

(** What happens: the plugin starts, a module provides a filter, they all have been asked, a
    pass is to be made (after that, or daily), the node answers [listpays], and a turn of
    the loop. *)
Inductive Event := Init | Provide (f : Filter) | Solicited | Perform | Listpays (answer : rpc) | Turn.

Definition with_pass (s : State) (running : bool) (p : Pass) : State :=
  {| running := running; soliciting := soliciting s; filters := filters s; pass := p |}.

Definition perform (s : State) : State := if running s then s else with_pass s true Listing.

Definition listpays (s : State) (answer : rpc) : State :=
  match pass s with
  | Listing =>
      match answer with
      | RpcError _ => with_pass s (running s) Died
      | Result res =>
          match read_pays res with
          | inr Undefined => with_pass s (running s) Died
          | inr _ => with_pass s false Idle
          | inl pays => with_pass s (running s) (Looping pays)
          end
      end
  | _ => s
  end.

Definition loop (s : State) : State * option Deletion :=
  match pass s with
  | Looping [] => (with_pass s false Idle, None)
  | Looping (pay :: rest) =>
      match read_pay (filters s) pay with
      | inr Undefined => (with_pass s (running s) Died, None)
      | inr _ => (with_pass s false Idle, None)
      | inl d => (with_pass s (running s) (Looping rest), d)
      end
  | _ => (s, None)
  end.

Definition handle (s : State) (e : Event) : State * option Deletion :=
  match e with
  | Init => ({| running := running s; soliciting := true; filters := filters s; pass := pass s |}, None)
  | Provide f => (if soliciting s then {| running := running s; soliciting := true; filters := filters s ++ [f]; pass := pass s |} else s, None)
  | Solicited => ({| running := running s; soliciting := false; filters := filters s; pass := pass s |}, None)
  | Perform => (perform s, None)
  | Listpays answer => (listpays s answer, None)
  | Turn => loop s
  end.

(** The deletions are told in the order they are made. *)
Fixpoint run (s : State) (es : list Event) : State * list Deletion :=
  match es with
  | [] => (s, [])
  | e :: es => let '(s, d) := handle s e in let '(s, ds) := run s es in (s, option_list d ++ ds)
  end.

(** *** Lemmas *)

(** A payment that may be deleted. *)
Definition deletable (fs : list Filter) (pay : json) (d : Deletion) : Prop :=
  exists l label t h f, get (Some pay) "label" = inl l /\ text l = inl label /\ f ∈ fs /\ f label = true
    /\ get (Some pay) "status" = inl t /\ text t = inl (status d) /\ status d <> lit "pending"
    /\ get (Some pay) "payment_hash" = inl h /\ text h = inl (payment_hash d).

Lemma read_pay_Some fs pay d : read_pay fs pay = inl (Some d) -> deletable fs pay d.
Proof.
  unfold read_pay. destruct (has _ _) as [[]|]; cbn [obind negb]; [|discriminate..].
  destruct (get (Some pay) "label") as [l|] eqn:E1; cbn [obind]; [|discriminate]. destruct (text l) as [label|] eqn:E2; cbn [obind]; [|discriminate].
  destruct (filter_label fs label) eqn:E3; cbn [negb]; [|discriminate].
  destruct (get (Some pay) "status") as [t|] eqn:E4; cbn [obind]; [|discriminate]. destruct (text t) as [st|] eqn:E5; cbn [obind]; [|discriminate].
  case_bool_decide as E6; [discriminate|].
  destruct (get (Some pay) "payment_hash") as [h|] eqn:E7; cbn [obind]; [|discriminate]. destruct (text h) as [hash|] eqn:E8; cbn [obind]; [|discriminate].
  intros H. assert (d = {| payment_hash := hash; status := st |}) as -> by congruence.
  apply existsb_exists in E3 as (f & Hf & Hl). exists l, label, t, h, f. split_and!; try done. by apply list_elem_of_In.
Qed.

(** The filters that were provided while they were asked for. *)
Fixpoint solicited (asking : bool) (es : list Event) : list Filter :=
  match es with
  | [] => []
  | Init :: es => solicited true es
  | Solicited :: es => solicited false es
  | Provide f :: es => (if asking then [f] else []) ++ solicited asking es
  | _ :: es => solicited asking es
  end.

(** The payments that the node listed. *)
Definition listed_in (es : list Event) (pay : json) : Prop :=
  exists res pays, Listpays (Result res) ∈ es /\ read_pays res = inl pays /\ pay ∈ pays.

Lemma listed_later e es pay : listed_in es pay -> listed_in (e :: es) pay.
Proof. intros (res & pays & H1 & H2). exists res, pays. split; [by apply list_elem_of_further|done]. Qed.

(** The state is in order with respect to the payments [P]. *)
Definition in_order (P : json -> Prop) (s : State) : Prop :=
  (running s = false <-> pass s = Idle) /\ forall rest, pass s = Looping rest -> Forall P rest.

Definition event_ok (P : json -> Prop) (e : Event) : Prop :=
  forall res pays, e = Listpays (Result res) -> read_pays res = inl pays -> Forall P pays.

#[local] Ltac in_order_tac := split; cbn [running pass with_pass soliciting filters]; [tauto || naive_solver|intros ? Hrest; congruence || (injection Hrest as <-)].

Lemma handle_in_order P s e s' d : handle s e = (s', d) -> in_order P s -> event_ok P e ->
  in_order P s' /\ filters s ++ solicited (soliciting s) [e] = filters s'
  /\ soliciting s' = (match e with Init => true | Solicited => false | _ => soliciting s end)
  /\ forall x, d = Some x -> exists pay, P pay /\ deletable (filters s) pay x.
Proof.
  intros H HO Ok. pose proof HO as [O1 O2]. destruct e as [|f| | |answer|]; cbn [handle solicited] in H |- *.
  - injection H as <- <-. rewrite app_nil_r. split_and!; try done.
  - injection H as <- <-. destruct (soliciting s) eqn:Es; cbn [app]; rewrite ?app_nil_r; split_and!; try done.
  - injection H as <- <-. rewrite app_nil_r. split_and!; try done.
  - injection H as <- <-. rewrite app_nil_r. unfold perform. destruct (running s) eqn:Er; split_and!; done.
  - injection H as <- <-. rewrite app_nil_r. unfold listpays. destruct (pass s) eqn:Ep; try (by split_and!).
    assert (running s = true) as Er by (destruct (running s); [done|]; by destruct O1 as [O1 _]; specialize (O1 eq_refl)).
    destruct answer as [res|err]; [|split_and!; try done; rewrite Er; in_order_tac].
    destruct (read_pays res) as [pays|[]] eqn:E; (split_and!; try done); rewrite ?Er; in_order_tac. by apply (Ok res pays).
  - rewrite app_nil_r. unfold loop in H. destruct (pass s) as [| |[|pay rest]|] eqn:Ep; try (injection H as <- <-; split_and!; try done; in_order_tac).
    assert (running s = true) as Er by (destruct (running s); [done|]; by destruct O1 as [O1 _]; specialize (O1 eq_refl)).
    specialize (O2 _ eq_refl). apply Forall_cons in O2 as [Hpay Hrest']. destruct (read_pay (filters s) pay) as [o|[]] eqn:E;
      injection H as <- <-; (split_and!; try done); rewrite ?Er; try in_order_tac.
    intros x ->. exists pay. split; [done|]. by apply read_pay_Some.
Qed.

Lemma deletable_more fs fs' pay d : deletable fs pay d -> deletable (fs ++ fs') pay d.
Proof.
  intros (l & label & t & h & f & H1 & H2 & H3 & H4). exists l, label, t, h, f. split_and!; try apply H4; try done. apply elem_of_app. by left.
Qed.

Lemma solicited_cons asking e es :
  solicited asking (e :: es) = solicited asking [e] ++ solicited (match e with Init => true | Solicited => false | _ => asking end) es.
Proof. destruct e; cbn [solicited app]; rewrite ?app_nil_r; done. Qed.

Lemma run_in_order P es : forall s s' ds,
  run s es = (s', ds) -> in_order P s -> Forall (event_ok P) es ->
  in_order P s' /\ filters s' = filters s ++ solicited (soliciting s) es
  /\ Forall (fun d => exists pay, P pay /\ deletable (filters s') pay d) ds.
Proof.
  induction es as [|e es IH]; intros s s' ds Hr HO Hok.
  - injection Hr as <- <-. cbn [solicited]. rewrite app_nil_r. by split_and!.
  - apply Forall_cons in Hok as [He Hok]. cbn [run] in Hr. destruct (handle s e) as [s1 d] eqn:Eh. destruct (run s1 es) as [s2 ds2] eqn:Er.
    injection Hr as <- <-. destruct (handle_in_order P s e s1 d Eh HO He) as (O1 & F1 & Q1 & D1).
    destruct (IH s1 s2 ds2 Er O1 Hok) as (O2 & F2 & D2). split_and!; [done| |].
    + rewrite F2, <- F1, Q1, (solicited_cons _ e es). by rewrite app_assoc.
    + apply Forall_app. split; [|done]. destruct d as [x|]; [|constructor]. destruct (D1 x eq_refl) as (pay & H1 & H2).
      constructor; [|constructor]. exists pay. split; [done|]. rewrite F2, <- F1. by apply deletable_more, deletable_more.
Qed.

Lemma events_ok es : Forall (event_ok (listed_in es)) es.
Proof.
  apply Forall_forall. intros e He res pays -> Hp. apply Forall_forall. intros pay Hpay. by exists res, pays.
Qed.

(** What happens besides while a pass is under way. *)
Definition quiet (e : Event) : Prop := match e with Turn | Perform | Provide _ => True | _ => False end.

Fixpoint turns (es : list Event) : nat :=
  match es with [] => 0 | Turn :: es => S (turns es) | _ :: es => turns es end.

(** What is deleted of a list of payments that can be read. *)
Definition deletions (fs : list Filter) (pays : list json) : list Deletion :=
  omap (fun pay => match read_pay fs pay with inl o => o | inr _ => None end) pays.

Definition readable (fs : list Filter) (pay : json) : Prop := exists o, read_pay fs pay = inl o.

(** Where a pass stops: at the end of the list, or at a payment that cannot be read. *)
Definition stops (fs : list Filter) (rest : list json) : Prop :=
  match rest with [] => True | pay :: _ => exists e, read_pay fs pay = inr e /\ e <> Undefined end.

Lemma quiet_run es : forall s good bad,
  soliciting s = false -> running s = true -> pass s = Looping (good ++ bad) -> Forall quiet es ->
  Forall (readable (filters s)) good -> stops (filters s) bad -> turns es = length good ->
  run s (es ++ [Turn]) = (with_pass s false Idle, deletions (filters s) good).
Proof.
  induction es as [|e es IH]; intros s good bad Hs Hr Hp Hq Hread Hbad Ht.
  - destruct good as [|]; [|done]. cbn [app run handle] in *. unfold loop. rewrite Hp. destruct bad as [|pay bad]; [done|].
    destruct Hbad as (e & -> & Hne). by destruct e.
  - apply Forall_cons in Hq as [He Hq]. cbn [app run]. destruct e as [|f| | |answer|]; try done; cbn [handle turns] in *.
    + rewrite Hs. by rewrite (IH s good bad).
    + unfold perform. rewrite Hr. by rewrite (IH s good bad).
    + destruct good as [|pay rest]; [done|]. cbn [length app] in *. apply Forall_cons in Hread as [[o Ho] Hread].
      unfold loop. rewrite Hp, Ho. rewrite (IH (with_pass s (running s) (Looping (rest ++ bad))) rest bad); try done; [|lia].
      unfold deletions. cbn [omap list_omap filters with_pass]. rewrite Ho. by destruct o.
Qed.

Lemma pass_run s res good bad es :
  soliciting s = false -> running s = false -> pass s = Idle ->
  read_pays res = inl (good ++ bad) -> Forall (readable (filters s)) good -> stops (filters s) bad ->
  Forall quiet es -> turns es = length good ->
  run s (Perform :: Listpays (Result res) :: es ++ [Turn]) = (s, deletions (filters s) good).
Proof.
  intros Hs Hr Hi Hp Hread Hbad Hq Ht. cbn [run handle]. unfold perform. rewrite Hr. unfold listpays. cbn [pass with_pass]. rewrite Hp.
  rewrite (quiet_run es _ good bad); try done. cbn [option_list app]. destruct s. cbn in *. by subst.
Qed.

Lemma elem_of_deletions fs pays x : x ∈ deletions fs pays <-> exists pay, pay ∈ pays /\ read_pay fs pay = inl (Some x).
Proof.
  unfold deletions. rewrite list_elem_of_omap. split; intros (pay & H1 & H2); exists pay; (split; [done|]).
  - destruct (read_pay fs pay); congruence.
  - by rewrite H2.
Qed.

(** A payment of a probe, in a list of the node, that is not pending. *)
Definition left_behind (pay : json) (d : Deletion) : Prop :=
  exists hash l t h, bytes_ok hash /\ length hash = 32%nat
    /\ get (Some pay) "label" = inl (Some l) /\ text (Some l) = inl (Prober.label_prefix ++ Str.hexdump hash)
    /\ get (Some pay) "status" = inl t /\ text t = inl (status d) /\ status d <> lit "pending"
    /\ get (Some pay) "payment_hash" = inl h /\ text h = inl (payment_hash d).

Lemma has_of_get o k v : get o k = inl (Some v) -> has o k = inl true.
Proof.
  unfold get, has. destruct o as [[| | |l]|]; try done. cbn [jindex_key jhas]. destruct (jfind (lit k) l) as [w|[]|]; cbn [lift]; try done.
  by intros [= ->].
Qed.

Lemma left_behind_read fs pay d : Prober.is_our_label ∈ fs -> left_behind pay d -> read_pay fs pay = inl (Some d).
Proof.
  intros Hf (hash & l & t & h & Hb & Hl & G1 & T1 & G2 & T2 & N & G3 & T3). unfold read_pay.
  rewrite (has_of_get _ _ _ G1). cbn [obind negb]. rewrite G1. cbn [obind]. rewrite T1. cbn [obind].
  assert (filter_label fs (Prober.label_prefix ++ Str.hexdump hash) = true) as ->.
  { apply existsb_exists. exists Prober.is_our_label. split; [by apply list_elem_of_In|by apply Prober.our_label]. }
  cbn [negb]. rewrite G2. cbn [obind]. rewrite T2. cbn [obind]. rewrite bool_decide_eq_false_2 by done. rewrite G3. cbn [obind]. rewrite T3. cbn [obind].
  by destruct d.
Qed.

(** *** Theorems *)

(** Whatever happens, in whatever order: a payment is deleted only if the node listed
    it, one of the filters that the modules provided while they were asked accepts its
    label, and it is not pending; and a pass is marked as running exactly while there is
    one, or after one died. *)
Theorem deletions_justified es s ds :
  run initial es = (s, ds) ->
  (running s = false <-> pass s = Idle)
  /\ filters s = solicited false es
  /\ Forall (fun d => exists pay, listed_in es pay /\ deletable (solicited false es) pay d) ds.
Proof.
  intros Hr. destruct (run_in_order (listed_in es) es initial s ds Hr) as (O & F & D); [by split|apply events_ok|].
  cbn [filters initial soliciting app] in F. rewrite <- F. split_and!; [apply O..|done|done].
Qed.

(** C40: A pass for which the node lists the payments deletes, up to the first payment of the
    list that cannot be read, exactly those that a filter accepts and that are not pending,
    whatever new passes are asked for and whatever filters are offered meanwhile; then the
    module is idle again.  The payments that probes left behind are among those deleted,
    since the filter of the prober accepts the labels of its payments. *)
Theorem probe_payments_deleted s res good bad es :
  soliciting s = false -> running s = false -> pass s = Idle ->
  read_pays res = inl (good ++ bad) -> Forall (readable (filters s)) good -> stops (filters s) bad ->
  Forall quiet es -> turns es = length good ->
  exists ds, run s (Perform :: Listpays (Result res) :: es ++ [Turn]) = (s, ds)
    /\ (forall d, d ∈ ds <-> exists pay, pay ∈ good /\ read_pay (filters s) pay = inl (Some d))
    /\ (forall pay d, pay ∈ good -> read_pay (filters s) pay = inl (Some d) -> deletable (filters s) pay d)
    /\ (Prober.is_our_label ∈ filters s -> forall pay d, pay ∈ good -> left_behind pay d -> d ∈ ds).
Proof.
  intros Hs Hr Hi Hp Hread Hbad Hq Ht. eexists. split; [by eapply pass_run|]. split_and!.
  - apply elem_of_deletions.
  - intros pay d _. apply read_pay_Some.
  - intros Hf pay d Hpay Hd. apply elem_of_deletions. exists pay. split; [done|]. by apply left_behind_read.
Qed.

(** An error in the answer to [listpays] is not caught: the mark that a pass is running
    stays, and nothing is deleted any more. *)
Theorem listpays_error_ends_deletion s err es :
  running s = true -> pass s = Listing -> (run s (Listpays (RpcError err) :: es)).2 = [].
Proof.
  intros Hr Hp. cbn [run handle]. unfold listpays. rewrite Hp, Hr. set (s1 := with_pass s true Died).
  assert (forall es s1, running s1 = true -> pass s1 = Died -> (run s1 es).2 = []) as H.
  { clear. induction es as [|e es IH]; intros s1 R D; [done|]. cbn [run]. destruct (handle s1 e) as [s2 d] eqn:E.
    assert (running s2 = true /\ pass s2 = Died /\ d = None) as (R2 & D2 & ->).
    { destruct e; cbn [handle] in E; [..|unfold loop in E; rewrite D in E]; try (by injection E as <- <-).
      - destruct (soliciting s1); by injection E as <- <-.
      - unfold perform in E. rewrite R in E. by injection E as <- <-.
      - unfold listpays in E. rewrite D in E. by injection E as <- <-. }
    specialize (IH s2 R2 D2). destruct (run s2 es) as [s3 ds]. exact IH. }
  specialize (H es s1 eq_refl eq_refl). destruct (run s1 es) as [s2 ds]. exact H.
Qed.

(** *** Samples *)

Definition demo_pay (label : bytes) (status : string) : json :=
  JObj [(lit "payment_hash", Prober.str "5555"); (lit "label", JStr label); (lit "status", Prober.str status)].

Definition demo_label : bytes := Eval vm_compute in Prober.label_prefix ++ Str.hexdump (repeat 85 32).

Definition demo_pays : list json :=
  [JObj [(lit "status", Prober.str "complete")]; demo_pay (lit "rent") "failed"; demo_pay demo_label "failed"; demo_pay demo_label "pending"].

(** A label that is no string. *)
Definition demo_pay_bad : json := JObj [(lit "label", Prober.num "7")].

Definition demo_answer : json := JObj [(lit "pays", JArr (demo_pays ++ [demo_pay_bad; demo_pay demo_label "failed"]))].

Definition demo_started : list Event := [Provide (fun _ => true); Init; Provide Prober.is_our_label; Solicited].

Definition demo_turns : list Event := [Turn; Perform; Turn; Provide (fun _ => true); Turn; Turn].

Definition demo_deletion : Deletion := {| payment_hash := lit "5555"; status := lit "failed" |}.

Lemma deletions_justified_witness :
  filters (run initial (demo_started ++ Perform :: Listpays (Result demo_answer) :: demo_turns ++ [Turn])).1 = [Prober.is_our_label]
  /\ (run initial (demo_started ++ Perform :: Listpays (Result demo_answer) :: demo_turns ++ [Turn])).2 = [demo_deletion].
Proof.
  destruct (run initial (demo_started ++ Perform :: Listpays (Result demo_answer) :: demo_turns ++ [Turn])) as [s ds] eqn:E.
  destruct (deletions_justified _ s ds E) as (_ & F & _). split; [exact F|]. vm_compute in E. injection E as <- <-. vm_compute. reflexivity.
Defined.

Lemma probe_payments_deleted_witness :
  exists ds, run (run initial demo_started).1 (Perform :: Listpays (Result demo_answer) :: demo_turns ++ [Turn]) = ((run initial demo_started).1, ds)
    /\ demo_deletion ∈ ds.
Proof.
  destruct (probe_payments_deleted (run initial demo_started).1 demo_answer demo_pays [demo_pay_bad; demo_pay demo_label "failed"] demo_turns)
    as (ds & H1 & _ & _ & H2).
  - reflexivity.
  - reflexivity.
  - reflexivity.
  - vm_compute. reflexivity.
  - repeat constructor; eexists; vm_compute; reflexivity.
  - exists Logic. split; [vm_compute; reflexivity|discriminate].
  - repeat constructor.
  - reflexivity.
  - exists ds. split; [exact H1|]. apply (H2 (list_elem_of_here _ _) (demo_pay demo_label "failed") demo_deletion).
    + do 2 apply list_elem_of_further. apply list_elem_of_here.
    + exists (repeat 85 32), (JStr demo_label), (Some (Prober.str "failed")), (Some (Prober.str "5555")).
      split; [apply (bool_decide_unpack _); vm_compute; exact I|]. split; [reflexivity|].
      repeat (split; [vm_compute; reflexivity || (intros H; discriminate H)|]). vm_compute. reflexivity.
Defined.

End Deleter.
